(* ===== verification/_CoqProject ===== *)
-Q . S2P
Prelude.v
ForkTree.v
Authorities.v
HeaderMetadata.v
Epochs.v
ExtraRequests.v
BlockCollection.v
Allocator.v
PeersState.v
Peerset.v
StateDbBase.v
Pruning.v
NonCanonical.v
NonCanonicalFacts.v
StateDb.v
StateDbFacts.v
TxFuture.v
TxReady.v
TxReadyFacts.v
TxPool.v
TxPoolFacts.v
TxHistory.v
BigUint.v
BigUintFacts.v
BigUintDiv.v
Arith128.v
Arith128Facts.v
PerThings.v
Fixed64.v
Balances.v
BalancesFacts.v
BalancesHistory.v
Payment.v
PaymentFacts.v
Pallet.v
Vesting.v
VestingFacts.v
Treasury.v
TreasuryFacts.v
TreasuryHistory.v
Membership.v
Collective.v
CollectiveFacts.v
MembershipFacts.v
CollectiveHistory.v
Leaves.v
Overlay.v
OverlayFacts.v
Externalities.v
ExternalitiesFacts.v
ExternalitiesHistory.v
Era.v
VoteThreshold.v
