(* ===== verification/Prelude.v ===== *)
(** * Verification of a blockchain node framework

    The repository is a framework for blockchain nodes in Rust: a client that
    imports, finalizes and serves blocks ([src/client]), runtime modules that
    define the state transition ([src/frame]), and the primitives both share
    ([src/primitives], [src/utils]).  This library translates the parts with an
    algorithmic core of their own and proves them correct.

    ** Conventions

    Pure functions are functions; code that mutates a structure takes the
    structure and returns the new one; code that fails returns [result], whose
    [Panic] is an unwinding panic; a callback of the caller answers in [E + A].
    Loops whose recursion is not structural take fuel and return [None] when it
    runs out, and a theorem about the caller says that the fuel it passes is
    enough.  Machine integers are [Z] with the wrap-around of a release build
    written out ([+[32]], [wrap], [checked_sub], ...); block numbers and counters
    that a node cannot exhaust are unbounded, except where a peer chooses them
    ([BlockCollection]).  Instants are arguments, in
    nanoseconds.  Where a result depends on the order in which a hash map is
    walked, the order is an argument.  Code outside the repository (the SCALE
    codec, the LRU cache, database reads) is a class with its documented laws.

    ** Files

    - [Prelude]: fallible computations, machine integers, vectors, binary and
      stable sort as the standard library does them, hints and tactics.
    - [ForkTree] (src/utils/fork-tree): the tree of pending forks.  The class
      [Ancestry] is what it needs from the caller's ancestry query.
    - [Authorities] (src/client/finality-grandpa/src/authorities.rs): the GRANDPA
      authority set over two kinds of pending changes.
    - [HeaderMetadata] (src/primitives/blockchain/src/header_metadata.rs,
      src/client/api/src/lib.rs): lowest common ancestors, tree routes, and the
      ancestry query, an instance of [Ancestry].
    - [Epochs] (src/client/consensus/epochs): epoch changes over the fork tree.
    - [ExtraRequests], [BlockCollection] (src/client/network/src/protocol/sync):
      what is requested from which peer, and the blocks being downloaded, with
      block numbers at their width.
    - [Allocator] (src/primitives/allocator): the heap of a Wasm instance.
    - [PeersState], [Peerset] (src/client/peerset): slots and reputations.
    - [StateDbBase], [Pruning], [NonCanonical], [StateDb] (src/client/state-db):
      commits, the pruning window with its journal, the overlay of the blocks that
      are not canonical yet with its journal, and their composition;
      [NonCanonicalFacts] and [StateDbFacts] have the theorems.
    - [TxFuture], [TxReady], [TxPool] (src/client/transaction-pool/graph): the
      future queue, the ready queue with its iterator, and the base pool over both;
      [TxReadyFacts] has two invariants of the ready queue, one for any imports and a
      stronger one, with the links between transactions, for pools in which nothing
      is imported while the queue still refers to it; the class [ReadyInvariant]
      says what the pool needs of either, [TxPoolFacts] is proved against it, and
      [TxHistory] has the theorems about sequences of operations.
    - [BigUint] (src/primitives/arithmetic/src/biguint.rs): big integers as limbs;
      [BigUintFacts] and [BigUintDiv] relate them to [Z].
    - [Arith128] (helpers_128bit.rs, rational128.rs there): products divided
      through big integers, and rationals; [Arith128Facts] relates them to [Q].
    - [PerThings], [Fixed64] (per_things.rs and fixed64.rs there): fractions of one
      and fixed-point numbers, and the fees computed with them
      (src/bin/node/runtime/src/impls.rs, src/frame/transaction-payment).
    - [Balances] (src/frame/balances over the accounts of src/frame/system): the
      storage is a record and an operation a function in the monad [M], in which
      what was written before an error stays; [BalancesFacts] has the laws of
      account mutations and [BalancesHistory] the theorems on all operations.
    - [Payment] (src/frame/transaction-payment, the imbalance handlers of
      src/frame/treasury and of the node runtime): charging a fee;
      [PaymentFacts] has its theorems and those on whole histories of the chain.
    - [Pallet]: the monad of a module with its own storage beside the balances, and
      the rule for calls that succeed with an invariant or fail without an effect.
    - [Vesting] (src/frame/vesting): schedules and their locks; [VestingFacts] has
      the theorems on histories of calls and later blocks.
    - [Treasury] (src/frame/treasury): proposals, the end of a spend period and
      tips; [TreasuryFacts] has the spending and [TreasuryHistory] the theorems.
    - [Membership] (src/frame/membership, [ChangeMembers] of
      src/frame/support/src/traits.rs): a set of members and, as a class, the module
      that is told of changes; the class [KeepsMembers] has its laws.
    - [Collective] (src/frame/collective): motions and votes of members, an instance
      of both; [CollectiveFacts] and [MembershipFacts] have the behaviour of the
      calls, [CollectiveHistory] the theorems and their composition, a collective
      that decides about its own members.
    - [Leaves] (src/client/src/leaves.rs): the leaf set and its writes to disk.
    - [Overlay], [Externalities] (src/primitives/state-machine: overlayed_changes.rs,
      backend.rs, ext.rs, in_memory_backend.rs, basic.rs): the changes of a block
      above a backend, the storage functions of the runtime over them, the backend in
      memory, and the basic externalities, which are a plain map.  [OverlayFacts]
      describes the change sets; [ExternalitiesFacts] has the classes [Store] and
      [StoreRoots], which say what a backend promises, and their instances for the
      backend in memory; [ExternalitiesHistory] has the theorems.
    - [Era] (src/primitives/runtime/src/generic/era.rs): mortality of transactions.
    - [VoteThreshold] (src/frame/democracy/src/vote_threshold.rs): the comparison of
      fractions that decides a vote.

    ** What the theorems show

    - Safety along histories: live heap blocks never overlap, the states of blocks
      that are not pruned can be read (of pinned blocks on discarded forks, what they
      inserted), no operation of the pool, of the balances, of vesting, of the
      treasury or of a collective panics, and the total issuance is the sum of all
      balances.
    - Invariants: fork trees stay well-formed, authority set ids count handovers,
      slot counters match the connections, the fee multiplier stays in its range and
      follows its formula, requests for extra data are tracked unless a finality
      notification exposes them, ranges of blocks stay within their bounds,
      locks cover what is not vested, motions have at most one vote of each member and
      none of others, and the root of a block commits to all child tries.
    - Refinement: the runtime's storage functions over layers of changes, a cached
      root and any backend behave as on a plain map, along any operations.
    - Progress: a vesting schedule that unlocks something with every block can be
      ended by anyone from its end on, and so can a motion of a collective.
    - Functional behaviour on every branch, errors included: each operation is
      described by what it returns and by what it changes and keeps.
    - Restarts and codecs: what is read back from the journals, or from the leaves
      on disk, is what was in memory; eras have exactly one encoding.
    - Equivalence with mathematical definitions: limbs with integers, fractions
      with rationals, ancestry queries with the block tree.
    - Examples in modules named [Small...] show that the hypotheses can hold, and
      also the defects the proofs turned up.

    ** Bounds and fuel

    The fuel of a loop is a measure of its input (the number of nodes, of blocks,
    of queued transactions), or a constant where the width of an integer bounds the
    number of rounds: 256 for the gcd of 128-bit integers, each round halving the
    product of its arguments, and 3 for the correction of a digit in the long
    division, twice the width for the comparison of fractions.  The ranges of
    blocks being downloaded end at a number that leaves room for one more request.
    The search for the
    next key passes over deleted keys, at most as many as there are changes.
    Theorems on balances hold for every width from 32 bits on and every
    positive existential deposit.  In the arithmetic and balances files an overflow
    is a panic, as in a build with overflow checks, and the theorems exclude it.

    ** Not modelled

    Asynchronous plumbing (futures, channels, locks), the network stack, RPC,
    cryptography, Wasm execution and the database itself are I/O or outside
    libraries.  Procedural macros and the storage accessors they generate have no
    source to translate; a storage item is a field of a record.  Floating point
    ([from_fraction] of the fractions), storage migrations and debug output are
    left out.  The dispatch of calls by a runtime is generated code: it is a parameter
    of the collective, which may change the members but not the motions, as the
    origin of a motion is neither signed nor root.  Of the state machine, the trie with its proofs and the changes trie
    are not modelled, trie roots are functions of the contents, and the theorems on
    roots leave out discards and the root of a single child, which a cached root
    answers wrongly (examples in [ExternalitiesHistory]).  The manifest lists the
    runtime modules that are not modelled. *)
From stdpp Require Export prelude gmap list sorting.
From Stdlib Require Export ZArith Lia.
From Stdlib Require Export Sorted.

(** ** Fallible computations *)

(** Outcome of a Rust computation: [Ok] and [Err] are the two variants of
    [Result], [Panic] is an unwinding panic ([assert!], [expect], an index out
    of range, [unreachable!]). *)
Inductive result (E A : Type) : Type :=
| Ok (a : A)
| Err (e : E)
| Panic.
Arguments Ok {E A} a.
Arguments Err {E A} e.
Arguments Panic {E A}.

(** Code that has no error to return, but may panic. *)
Abbreviation run := (result Empty_set).

#[export] Instance result_ret {E} : MRet (result E) := λ A a, Ok a.
#[export] Instance result_bind {E} : MBind (result E) := λ A B f m,
  match m with
  | Ok a => f a
  | Err e => Err e
  | Panic => Panic
  end.
#[export] Instance result_fmap {E} : FMap (result E) := λ A B f m,
  match m with
  | Ok a => Ok (f a)
  | Err e => Err e
  | Panic => Panic
  end.

Definition is_ok {E A} (m : result E A) : bool :=
  match m with Ok _ => true | _ => false end.

(** [Result::unwrap_or], on the result of a callback that cannot panic. *)
Definition unwrap_or {E A} (m : E + A) (d : A) : A :=
  match m with inr a => a | inl _ => d end.

(** [Result::map_err] *)
Definition map_err {E E' A} (f : E → E') (m : result E A) : result E' A :=
  match m with Ok a => Ok a | Err e => Err (f e) | Panic => Panic end.

(** [Option::ok_or] *)
Definition ok_or {E A} (e : E) (o : option A) : result E A :=
  match o with Some a => Ok a | None => Err e end.

(** [Option::expect] *)
Definition expect {E A} (o : option A) : result E A :=
  match o with Some a => Ok a | None => Panic end.

(** A loop over the elements of a list, with an early exit on errors. *)
Fixpoint foldl_m {E A B} (f : A → B → result E A) (a : A) (l : list B) : result E A :=
  match l with
  | [] => Ok a
  | b :: l' => a' ← f a b; foldl_m f a' l'
  end.

Lemma result_bind_ok {E A B} (m : result E A) (f : A → result E B) b :
  m ≫= f = Ok b ↔ ∃ a, m = Ok a ∧ f a = Ok b.
Proof. destruct m; cbn; naive_solver. Qed.

(** Loops over a range, upwards and downwards, with an invariant. *)
Lemma foldl_m_seq {E A} (P : nat → A → Prop) (f : A → nat → result E A) k n a :
  P k a → (∀ j b, k ≤ j < k + n → P j b → ∃ b', f b j = Ok b' ∧ P (S j) b') →
  ∃ b, foldl_m f a (seq k n) = Ok b ∧ P (k + n) b.
Proof.
  revert k a. induction n as [|n IH]; intros k a Ha Hf; cbn [seq foldl_m].
  { exists a. by rewrite Nat.add_0_r. }
  destruct (Hf k a) as (b&->&Hb); [lia|done|]. cbn. destruct (IH (S k) b Hb) as (c&->&Hc).
  - intros j b' Hj. apply Hf. lia.
  - exists c. split; [done|]. by rewrite Nat.add_succ_r.
Qed.

Lemma foldl_m_rev_seq {E A} (P : nat → A → Prop) (f : A → nat → result E A) k n a :
  P (k + n) a → (∀ j b, k ≤ j < k + n → P (S j) b → ∃ b', f b j = Ok b' ∧ P j b') →
  ∃ b, foldl_m f a (reverse (seq k n)) = Ok b ∧ P k b.
Proof.
  revert a. induction n as [|n IH]; intros a Ha Hf; [exists a; by rewrite Nat.add_0_r in Ha|].
  rewrite seq_S, reverse_snoc. cbn [foldl_m]. rewrite Nat.add_succ_r in Ha.
  destruct (Hf (k + n) a) as (b&->&Hb); [lia|done|]. cbn.
  apply IH; [done|]. intros j c Hj. apply Hf. lia.
Qed.

(** ** Vectors *)

(** [Vec::swap_remove]: the element at [i], and the vector in which the last
    element took its place.  [None] when [i] is out of range (a panic). *)
Definition swap_remove {A} (i : nat) (l : list A) : option (A * list A) :=
  match l !! i, last l with
  | Some x, Some y =>
      Some (x, if decide (S i = length l) then take i l
               else <[i := y]> (take (pred (length l)) l))
  | _, _ => None
  end.

(** [Iterator::position] *)
Definition position {A} (p : A → bool) (l : list A) : option nat :=
  fst <$> list_find p l.

(** [Vec::retain], which also reports whether an element was dropped, the way
    its callers do with a captured [changed] flag. *)
Definition retain {A} (p : A → bool) (l : list A) : list A * bool :=
  (filter p l, existsb (λ x, negb (p x)) l).

(** [Iterator::take_while] *)
Fixpoint take_while {A} (p : A → bool) (l : list A) : list A :=
  match l with
  | [] => []
  | x :: l' => if p x then x :: take_while p l' else []
  end.

(** [slice::starts_with], on bytes. *)
Fixpoint starts_with (prefix key : list Z) : bool :=
  match prefix, key with
  | [], _ => true
  | p :: prefix', k :: key' => Z.eqb p k && starts_with prefix' key'
  | _ :: _, [] => false
  end.

Lemma starts_with_spec prefix key : starts_with prefix key = true ↔ ∃ rest, key = prefix ++ rest.
Proof.
  revert key. induction prefix as [|p prefix IH]; intros key; cbn; [naive_solver|].
  destruct key as [|k key]; [split; [done|by intros [? ?]]|].
  rewrite andb_true_iff, IH, Z.eqb_eq. split.
  - intros [-> [rest ->]]. by exists rest.
  - intros [rest [= -> ->]]. eauto.
Qed.

Lemma starts_with_app prefix rest : starts_with prefix (prefix ++ rest) = true.
Proof. apply starts_with_spec. eauto. Qed.

(** ** Stable sort

    [slice::sort_by_key] is stable, which makes its result unique: it is
    modelled by insertion sort, [x] being placed before the first element that
    is not smaller. *)
Section stable_sort.
Context {A : Type} (le : A → A → bool).

Fixpoint insert_by (x : A) (l : list A) : list A :=
  match l with
  | [] => [x]
  | y :: l' => if le x y then x :: y :: l' else y :: insert_by x l'
  end.

Fixpoint sort_by (l : list A) : list A :=
  match l with
  | [] => []
  | x :: l' => insert_by x (sort_by l')
  end.

Lemma insert_by_perm x l : insert_by x l ≡ₚ x :: l.
Proof.
  induction l as [|y l IH]; simpl; [done|].
  destruct (le x y); [done|]. rewrite IH. apply Permutation_swap.
Qed.

Lemma sort_by_perm l : sort_by l ≡ₚ l.
Proof. induction l as [|x l IH]; simpl; [done|]. by rewrite insert_by_perm, IH. Qed.

Lemma insert_by_sorted x l :
  (∀ a b, le a b = false → le b a = true) →
  (∀ a b c, le a b = true → le b c = true → le a c = true) →
  StronglySorted (λ a b, le a b = true) l →
  StronglySorted (λ a b, le a b = true) (insert_by x l).
Proof.
  intros Htot Htr. induction 1 as [|y l Hl IH Hy]; simpl; [by repeat constructor|].
  destruct (le x y) eqn:Hxy.
  - constructor; [by constructor|]. constructor; [done|].
    eapply Forall_impl; [exact Hy|]. simpl. eauto.
  - constructor; [done|]. rewrite insert_by_perm. constructor; eauto.
Qed.

Lemma sort_by_sorted l :
  (∀ a b, le a b = false → le b a = true) →
  (∀ a b c, le a b = true → le b c = true → le a c = true) →
  StronglySorted (λ a b, le a b = true) (sort_by l).
Proof.
  intros. induction l; simpl; [constructor|]. by apply insert_by_sorted.
Qed.

(** Sorting a sorted vector is the identity, which is where stability shows. *)
Lemma sort_by_id l : StronglySorted (λ a b, le a b = true) l → sort_by l = l.
Proof.
  induction 1 as [|x l Hl IH Hx]; simpl; [done|]. rewrite IH.
  destruct l as [|y l]; simpl; [done|]. inversion Hx as [|?? Hxy]; subst.
  by rewrite Hxy.
Qed.
End stable_sort.

(** Decorating, sorting and undecorating is sorting by the key. *)
Lemma insert_by_map {A B} (f : A → B) (leA : A → A → bool) (leB : B → B → bool) x l :
  (∀ a b, leB (f a) (f b) = leA a b) →
  insert_by leB (f x) (f <$> l) = f <$> insert_by leA x l.
Proof.
  intros Hle. induction l as [|y l IH]; simpl; [done|].
  rewrite Hle. destruct (leA x y); simpl; [done|]. f_equal. exact IH.
Qed.

Lemma sort_by_map {A B} (f : A → B) (leA : A → A → bool) (leB : B → B → bool) l :
  (∀ a b, leB (f a) (f b) = leA a b) →
  sort_by leB (f <$> l) = f <$> sort_by leA l.
Proof.
  intros Hle. induction l as [|x l IH]; simpl; [done|].
  change (list_fmap A B f l) with (f <$> l).
  rewrite IH. by apply insert_by_map.
Qed.

Lemma insert_by_ext {A} (le1 le2 : A → A → bool) x l :
  (∀ b, b ∈ l → le1 x b = le2 x b) → insert_by le1 x l = insert_by le2 x l.
Proof.
  intros Hle. induction l as [|y l IH]; simpl; [done|].
  rewrite Hle by set_solver. destruct (le2 x y); [done|]. f_equal. apply IH. set_solver.
Qed.

(** ** Facts about vectors *)

Lemma swap_remove_lookup {A} i (l : list A) x l' :
  swap_remove i l = Some (x, l') → l !! i = Some x.
Proof. unfold swap_remove. intros. repeat case_match; by simplify_eq. Qed.

Lemma swap_remove_is_Some {A} i (l : list A) :
  i < length l → is_Some (swap_remove i l).
Proof.
  intros Hi. unfold swap_remove.
  destruct (lookup_lt_is_Some_2 l i Hi) as [x Hx]. rewrite Hx.
  destruct (last l) eqn:Hl; [eauto|].
  apply last_None in Hl as ->. simpl in *; lia.
Qed.

(** The elements before [i] stay, and [x] leaves the ones from [i] on. *)
Lemma swap_remove_split {A} i (l : list A) x l' :
  swap_remove i l = Some (x, l') → take i l' = take i l ∧ drop i l ≡ₚ x :: drop i l'.
Proof.
  unfold swap_remove. intros Hs.
  destruct (l !! i) as [z|] eqn:Hi; [|done].
  destruct (last l) as [y|] eqn:Hl; [|done]. simplify_eq.
  apply last_Some in Hl as [k ->].
  assert (length (k ++ [y]) = S (length k)) as Hlen by (rewrite length_app; simpl; lia).
  rewrite Hlen in *. simpl. rewrite take_app_length.
  pose proof (lookup_lt_Some _ _ _ Hi) as Hlt. rewrite Hlen in Hlt.
  case_decide.
  - simplify_eq. rewrite list_lookup_middle in Hi by done. simplify_eq.
    rewrite take_app_length, drop_app_length, take_ge, drop_ge by lia.
    split; reflexivity.
  - rewrite lookup_app_l in Hi by lia.
    rewrite take_insert_ge, take_app_le, drop_app_le by lia. split; [done|].
    rewrite (drop_S k x i) by done. rewrite drop_insert_ge, Nat.sub_diag by lia.
    rewrite (drop_S k x i) by done. simpl. solve_Permutation.
Qed.

Lemma swap_remove_perm {A} i (l : list A) x l' :
  swap_remove i l = Some (x, l') → l ≡ₚ x :: l'.
Proof.
  intros Hs. destruct (swap_remove_split _ _ _ _ Hs) as [Ht Hd].
  rewrite <- (take_drop i l), <- (take_drop i l'), Ht, Hd. solve_Permutation.
Qed.

Lemma position_Some {A} (p : A → bool) (l : list A) i :
  position p l = Some i ↔
  (∃ x, l !! i = Some x ∧ p x = true) ∧ ∀ j y, l !! j = Some y → (j < i)%nat → p y = false.
Proof.
  unfold position. rewrite fmap_Some. split.
  - intros ([j x]&(Hx&Hp&Hj)%list_find_Some&->). split.
    + exists x. split; [done|]. by apply Is_true_true.
    + intros k y Hy Hk. apply Is_true_false. eauto.
  - intros [(x&Hx&Hp) Hj]. exists (i, x). split; [|done].
    apply list_find_Some. split_and!; [done|by apply Is_true_true|].
    intros j y Hy Hji. apply Is_true_false. eauto.
Qed.

Lemma position_None {A} (p : A → bool) (l : list A) :
  position p l = None ↔ ∀ x, x ∈ l → p x = false.
Proof.
  unfold position. rewrite fmap_None, list_find_None, Forall_forall.
  by setoid_rewrite Is_true_false.
Qed.

Lemma filter_all {A} (P : A → Prop) `{!∀ x, Decision (P x)} (l : list A) :
  (∀ x, x ∈ l → P x) → filter P l = l.
Proof.
  induction l as [|x l IH]; intros Hl; [done|].
  rewrite filter_cons_True by (apply Hl; by left). f_equal. apply IH.
  intros y Hy. apply Hl. by right.
Qed.

Lemma filter_none {A} (P : A → Prop) `{!∀ x, Decision (P x)} (l : list A) :
  (∀ x, x ∈ l → ¬ P x) → filter P l = [].
Proof.
  induction l as [|x l IH]; intros Hl; [done|].
  rewrite filter_cons_False by (apply Hl; by left). apply IH.
  intros y Hy. apply Hl. by right.
Qed.

(** On a list sorted such that no element after a rejected one is accepted. *)
Lemma take_while_filter {A} (R : A → A → Prop) (P : A → bool) l :
  StronglySorted R l → (∀ x y, x ∈ l → y ∈ l → R x y → P x = false → P y = false) → take_while P l = filter (λ x, P x = true) l.
Proof.
  induction 1 as [|x l Hs IH Hx]; intros HP; cbn [take_while]; [done|]. rewrite filter_cons. destruct (P x) eqn:Ex.
  - rewrite decide_True by done. f_equal. apply IH. intros a b Ha Hb. apply HP; by right.
  - rewrite decide_False by done. symmetry. apply filter_none. intros y Hy. rewrite Forall_forall in Hx.
    rewrite (HP x y); [done|by left|by right|by apply Hx|done].
Qed.

Lemma retain_filter {A} (p : A → bool) (P : A → Prop) `{!∀ x, Decision (P x)} (l : list A) :
  (∀ x, x ∈ l → p x = bool_decide (P x)) →
  retain p l = (filter P l, negb (bool_decide (Forall P l))).
Proof.
  unfold retain. induction l as [|x l IH]; intros Hp; [done|].
  assert (∀ y, y ∈ l → p y = bool_decide (P y)) as Hp' by (intros y Hy; apply Hp; by right).
  specialize (IH Hp'). injection IH as IH1 IH2.
  pose proof (Hp x (list_elem_of_here x l)) as Hpx. simpl. rewrite IH2.
  destruct (decide (P x)) as [Hx|Hx].
  - rewrite bool_decide_eq_true_2 in Hpx by done.
    rewrite (filter_cons_True p), (filter_cons_True P), IH1, Hpx by (by rewrite ?Hpx).
    simpl. do 2 f_equal. apply bool_decide_ext. rewrite Forall_cons. naive_solver.
  - rewrite bool_decide_eq_false_2 in Hpx by done.
    rewrite (filter_cons_False p), (filter_cons_False P), IH1, Hpx by (rewrite ?Hpx; auto).
    simpl. f_equal. symmetry. apply negb_true_iff, bool_decide_eq_false_2.
    by intros [? _]%Forall_cons.
Qed.

Lemma filter_ext_in {A} (P Q : A → Prop) `{!∀ x, Decision (P x), !∀ x, Decision (Q x)} (l : list A) :
  (∀ x, x ∈ l → P x ↔ Q x) → filter P l = filter Q l.
Proof.
  induction l as [|x l IH]; intros Hl; [done|]. rewrite !filter_cons, IH by (intros y Hy; apply Hl; by right).
  apply decide_ext, Hl. by left.
Qed.

Lemma filter_Forall_eq {A} (P : A → Prop) `{!∀ x, Decision (P x)} (l : list A) :
  filter P l = l ↔ Forall P l.
Proof.
  split.
  - intros Hl. rewrite <- Hl. apply Forall_forall. by intros x [? _]%list_elem_of_filter.
  - intros Hl. apply filter_all. by apply Forall_forall.
Qed.

(** ** Binary search

    [slice::binary_search_by]: halve the window [base, base + size) until one
    element is left, then compare with it. *)
Fixpoint bsearch_window {A} (cmp : A → comparison) (l : list A) (fuel base size : nat) : nat :=
  match fuel with
  | O => base
  | S fuel' =>
      if decide (1 < size)%nat then
        let half := (size / 2)%nat in
        let mid := (base + half)%nat in
        let base' := match cmp <$> l !! mid with Some Gt => base | _ => mid end in
        bsearch_window cmp l fuel' base' (size - half)%nat
      else base
  end.

(** [inl i] when the element at [i] compares equal, [inr i] when an element can
    be inserted at [i] keeping the order. *)
Definition binary_search_by {A} (cmp : A → comparison) (l : list A) : nat + nat :=
  match l with
  | [] => inr 0%nat
  | _ =>
      let base := bsearch_window cmp l (length l) 0 (length l) in
      match cmp <$> l !! base with
      | Some Eq => inl base
      | Some Lt => inr (S base)
      | _ => inr base
      end
  end.

(** [Vec::insert] at an index within bounds. *)
Definition vec_insert {A} (i : nat) (x : A) (l : list A) : list A :=
  take i l ++ x :: drop i l.

Section binary_search.
Context {A : Type} (cmp : A → comparison) (l : list A).
(** The slice is sorted with respect to the searched key: elements below it,
    then equal to it, then above it. *)
Context (Hsorted : ∀ i j x y, l !! i = Some x → l !! j = Some y → (i ≤ j)%nat →
  (cmp x = Gt → cmp y = Gt) ∧ (cmp y = Lt → cmp x = Lt)).

Lemma bsearch_window_ok fuel base size :
  (0 < size ≤ fuel)%nat → (base + size ≤ length l)%nat →
  (base = 0%nat ∨ ∃ x, l !! base = Some x ∧ cmp x ≠ Gt) →
  (∀ i x, l !! i = Some x → (base + size ≤ i)%nat → cmp x = Gt) →
  let b := bsearch_window cmp l fuel base size in
  (b < length l)%nat ∧ (b = 0%nat ∨ ∃ x, l !! b = Some x ∧ cmp x ≠ Gt) ∧
  (∀ i x, l !! i = Some x → (b < i)%nat → cmp x = Gt).
Proof using Hsorted.
  revert base size. induction fuel as [|fuel IH]; intros base size Hsz Hlen Hlo Hhi; [lia|].
  cbn [bsearch_window]. case_decide as Hone; cbn zeta.
  2:{ split_and!; [lia|done|]. intros i x Hx Hi. apply Hhi with i; [done|lia]. }
  pose proof (Nat.div_lt size 2 ltac:(lia) ltac:(lia)).
  assert (0 < size / 2)%nat by (apply Nat.div_str_pos; lia).
  assert (size / 2 ≤ size - size / 2)%nat by (pose proof (Nat.div_mod_eq size 2); lia).
  set (half := (size / 2)%nat) in *. clearbody half.
  destruct (lookup_lt_is_Some_2 l (base + half)%nat) as [m Hm]; [lia|]. rewrite Hm. cbn.
  destruct (decide (cmp m = Gt)) as [Hc|Hc].
  - rewrite Hc. apply IH; [lia|lia|done|]. intros i x Hx Hi.
    destruct (Hsorted (base + half)%nat i m x) as [Hgt _]; auto; lia.
  - replace (match cmp m with Gt => base | _ => (base + half)%nat end) with (base + half)%nat
      by (by destruct (cmp m)).
    apply IH; [lia|lia|by eauto|]. intros i x Hx Hi. apply Hhi with i; [done|lia].
Qed.

(** Either an element equal to the key, or the place where the key goes. *)
Lemma binary_search_ok :
  match binary_search_by cmp l with
  | inl i => ∃ x, l !! i = Some x ∧ cmp x = Eq
  | inr i => (i ≤ length l)%nat ∧
      (∀ j x, l !! j = Some x → (j < i)%nat → cmp x = Lt) ∧
      (∀ j x, l !! j = Some x → (i ≤ j)%nat → cmp x = Gt)
  end.
Proof using Hsorted.
  destruct (decide (length l = 0)%nat) as [Hl|Hne].
  { apply length_zero_iff_nil in Hl. rewrite Hl. split_and!; [simpl; lia|done|done]. }
  assert (binary_search_by cmp l =
    match cmp <$> l !! bsearch_window cmp l (length l) 0 (length l) with
    | Some Eq => inl (bsearch_window cmp l (length l) 0 (length l))
    | Some Lt => inr (S (bsearch_window cmp l (length l) 0 (length l)))
    | _ => inr (bsearch_window cmp l (length l) 0 (length l))
    end) as -> by (clear -Hne; by destruct l).
  destruct (bsearch_window_ok (length l) 0 (length l)) as (Hb&Hlo&Hhi); [lia|lia|by left| |].
  { intros i x Hx%lookup_lt_Some ?. lia. }
  set (b := bsearch_window cmp l (length l) 0 (length l)) in *.
  destruct (lookup_lt_is_Some_2 l b) as [m Hm]; [lia|]. rewrite Hm. cbn.
  destruct (cmp m) eqn:Hc; [by eauto| |].
  - split_and!; [lia| |intros j x Hx Hj; apply (Hhi j); [done|lia]].
    intros j x Hx Hj. destruct (Hsorted j b x m) as [_ H2]; auto; lia.
  - destruct Hlo as [->|(x&Hx&Hxc)]; [|congruence]. split_and!; [lia|lia|].
    intros j x Hx Hj. destruct (decide (j = 0)%nat) as [->|]; [congruence|].
    apply (Hhi j); [done|lia].
Qed.
End binary_search.

(** ** Sorted lists and pairwise relations *)

Lemma strongly_sorted_lookup {T} (R : T → T → Prop) l i j x y :
  StronglySorted R l → l !! i = Some x → l !! j = Some y → (i < j)%nat → R x y.
Proof.
  intros Hs. revert i j. induction Hs as [|a l Hs IH Ha]; intros i j Hi Hj Hij; [done|].
  destruct i as [|i], j as [|j]; simplify_eq/=; [lia| |lia|].
  - rewrite Forall_forall in Ha. apply Ha. by eapply list_elem_of_lookup_2.
  - apply (IH i j); [done..|lia].
Qed.

Lemma strongly_sorted_lookup_2 {T} (R : T → T → Prop) l :
  (∀ i j x y, l !! i = Some x → l !! j = Some y → (i < j)%nat → R x y) → StronglySorted R l.
Proof.
  induction l as [|a l IH]; intros Hl; constructor.
  - apply IH. intros i j x y Hx Hy Hij. apply (Hl (S i) (S j)); [done..|lia].
  - apply Forall_forall. intros y (j&Hj)%list_elem_of_lookup. apply (Hl 0%nat (S j)); [done..|lia].
Qed.

Lemma strongly_sorted_app {T} (R : T → T → Prop) l1 l2 :
  StronglySorted R l1 → StronglySorted R l2 →
  (∀ x y, x ∈ l1 → y ∈ l2 → R x y) → StronglySorted R (l1 ++ l2).
Proof.
  intros H1 H2 Hx. induction H1 as [|a l Hs IH Ha]; simpl; [done|]. constructor.
  - apply IH. intros x y Hxl. apply Hx. by right.
  - rewrite Forall_app. split; [done|]. apply Forall_forall. intros y. apply Hx. by left.
Qed.

Lemma strongly_sorted_filter {T} (R : T → T → Prop) (P : T → Prop) `{!∀ x, Decision (P x)} l : StronglySorted R l → StronglySorted R (filter P l).
Proof.
  induction 1 as [|a l Hs IH Ha]; [constructor|]. rewrite filter_cons. case_decide; [|done]. constructor; [done|].
  rewrite Forall_forall in *. intros x [_ ?]%list_elem_of_filter. by apply Ha.
Qed.

Lemma strongly_sorted_take_drop {T} (R : T → T → Prop) (l : list T) n :
  StronglySorted R l → StronglySorted R (take n l) ∧ StronglySorted R (drop n l) .
Proof.
  intros Hs. revert n. induction Hs as [|a l Hs IH Ha]; intros [|n]; simpl;
    try (split; by constructor).
  destruct (IH n) as [H1 H2]. split; [|done]. constructor; [done|]. by apply Forall_take.
Qed.

Lemma vec_insert_perm {T} i (x : T) l : vec_insert i x l ≡ₚ x :: l.
Proof. unfold vec_insert. rewrite <- (take_drop i l) at 3. solve_Permutation. Qed.

(** ** Total orders *)

(** The laws of [Ord]. *)
Record total_order {A} (compare : A → A → comparison) : Prop := {
  compare_eq a b : compare a b = Eq ↔ a = b;
  compare_opp a b : compare b a = CompOpp (compare a b);
  compare_trans a b c : compare a b = Lt → compare b c = Lt → compare a c = Lt;
}.
Arguments compare_eq {A compare} _ a b.
Arguments compare_opp {A compare} _ a b.
Arguments compare_trans {A compare} _ a b c _ _.

(** [slice::sort] *)
Definition sort_ord {A} (compare : A → A → comparison) : list A → list A :=
  sort_by (λ a b, match compare a b with Gt => false | _ => true end).

Section total_order.
Context {A : Type} {compare : A → A → comparison} (Hord : total_order compare).

Lemma compare_Gt a b : compare a b = Gt ↔ compare b a = Lt.
Proof using Hord. rewrite (compare_opp Hord a b). by destruct (compare a b). Qed.

Lemma compare_irrefl a : compare a a ≠ Lt.
Proof using Hord. by rewrite (proj2 (compare_eq Hord a a)). Qed.

Lemma compare_le_trans a b c : compare a b ≠ Gt → compare b c ≠ Gt → compare a c ≠ Gt.
Proof using Hord.
  intros H1 H2. destruct (compare a b) eqn:Hab; [apply (compare_eq Hord) in Hab as ->; done| |done].
  destruct (compare b c) eqn:Hbc; [apply (compare_eq Hord) in Hbc as <-; congruence| |done].
  by rewrite (compare_trans Hord _ _ _ Hab Hbc).
Qed.

(** Sorted, with equal neighbours allowed. *)
Definition ascending (l : list A) : Prop := StronglySorted (λ a b, compare a b ≠ Gt) l.

Lemma sort_ord_ascending l : ascending (sort_ord compare l).
Proof using Hord.
  unfold ascending, sort_ord.
  eapply (StronglySorted_ind (λ l, StronglySorted (λ a b, compare a b ≠ Gt) l)); [constructor| |apply sort_by_sorted].
  - intros a l' _ IH Ha. constructor; [done|]. eapply Forall_impl; [exact Ha|]. cbn. intros b. by destruct (compare a b).
  - intros a b. rewrite (compare_opp Hord a b). by destruct (compare a b).
  - intros a b c Hab Hbc. pose proof (compare_le_trans a b c) as Ht. destruct (compare a b), (compare b c), (compare a c); try done; by destruct Ht.
Qed.

Lemma elem_of_sort_ord l a : a ∈ sort_ord compare l ↔ a ∈ l.
Proof. unfold sort_ord. by rewrite sort_by_perm. Qed.

Lemma length_sort_ord l : length (sort_ord compare l) = length l.
Proof. unfold sort_ord. by rewrite sort_by_perm. Qed.

(** Binary search for an element. *)
Lemma binary_search_elem l x :
  ascending l →
  match binary_search_by (λ y, compare y x) l with
  | inl i => l !! i = Some x
  | inr i => (x ∉ l) ∧ ascending (vec_insert i x l) ∧ (StronglySorted (λ a b, compare a b = Lt) l → StronglySorted (λ a b, compare a b = Lt) (vec_insert i x l))
  end.
Proof using Hord.
  intros Hs. pose proof (binary_search_ok (λ y, compare y x) l) as Hb. cbn beta in Hb.
  match type of Hb with ?P → _ => assert P as Hsorted end.
  { intros i j a b Ha Hb' Hij. destruct (decide (i = j)) as [->|Hne]; [simplify_eq; done|].
    pose proof (strongly_sorted_lookup _ l i j a b Hs Ha Hb' ltac:(lia)) as Hab. cbn in Hab. split.
    - rewrite !compare_Gt. intros Hgt. destruct (compare a b) eqn:Hc; [apply (compare_eq Hord) in Hc as <-; done| |done]. by apply (compare_trans Hord _ a).
    - intros Hlt. destruct (compare a b) eqn:Hc; [apply (compare_eq Hord) in Hc as ->; done| |done]. by apply (compare_trans Hord _ b). }
  specialize (Hb Hsorted). destruct (binary_search_by _ l) as [i|i].
  { destruct Hb as (a&Ha&Heq). by apply (compare_eq Hord) in Heq as ->. }
  destruct Hb as (Hi&Hlo&Hhi).
  assert (∀ u, u ∈ take i l → compare u x = Lt) as Hlo'.
  { intros u (j&Hj)%list_elem_of_lookup. apply lookup_take_Some in Hj as [Hj ?]. eauto. }
  assert (∀ u, u ∈ drop i l → compare x u = Lt) as Hhi'.
  { intros u (j&Hj)%list_elem_of_lookup. rewrite lookup_drop in Hj. apply compare_Gt. eapply Hhi; [done|lia]. }
  assert (∀ R : A → A → Prop, (∀ a b, compare a b = Lt → R a b) → StronglySorted R l → StronglySorted R (vec_insert i x l)) as Hins.
  { intros R HR HRl. unfold vec_insert. destruct (strongly_sorted_take_drop _ l i HRl) as [Ht Hd].
    apply strongly_sorted_app; [done|constructor; [done|apply Forall_forall; intros u Hu; by apply HR, Hhi']|].
    intros u v Hu [->|Hv]%elem_of_cons; apply HR; [by apply Hlo'|]. apply (compare_trans Hord _ x); [by apply Hlo'|by apply Hhi']. }
  split_and!; [|apply Hins; [intros a b Hab; by rewrite Hab|done]|by apply Hins].
  rewrite <- (take_drop i l). intros [Hin|Hin]%elem_of_app; [apply Hlo' in Hin|apply Hhi' in Hin]; by apply compare_irrefl in Hin.
Qed.

Lemma lt_ascending l : StronglySorted (λ a b, compare a b = Lt) l → ascending l.
Proof. induction 1 as [|a l _ IH Ha]; constructor; [done|]. eapply Forall_impl; [exact Ha|]. cbn. by intros b ->. Qed.

Lemma lt_nodup l : StronglySorted (λ a b, compare a b = Lt) l → NoDup l.
Proof using Hord.
  induction 1 as [|a l _ IH Ha]; constructor; [|done]. rewrite Forall_forall in Ha. intros Hin. by apply Ha, compare_irrefl in Hin.
Qed.

End total_order.
Arguments ascending {A} compare l.

Lemma nat_order : total_order Nat.compare.
Proof.
  split.
  - intros a b. apply Nat.compare_eq_iff.
  - intros a b. apply Nat.compare_antisym.
  - intros a b c. rewrite !Nat.compare_lt_iff. lia.
Qed.

Lemma ord_pairs_perm {T} (R : T → T → Prop) l1 l2 :
  (∀ a b, R a b → R b a) → l1 ≡ₚ l2 → ForallOrdPairs R l1 → ForallOrdPairs R l2.
Proof.
  intros Hsym. induction 1 as [|x l1 l2 Hp IH|x y l|l1 l2 l3 _ IH1 _ IH2]; intros Hl; auto.
  - inversion Hl; subst. constructor; [by rewrite <- Hp|auto].
  - inversion Hl as [|?? Hy Hl']; subst. inversion Hl' as [|?? Hx Hl'']; subst.
    inversion Hy as [|?? Hyx Hyl]; subst. constructor; [|by constructor].
    constructor; [by apply Hsym|done].
Qed.

Lemma ord_pairs_app {T} (R : T → T → Prop) l1 l2 :
  ForallOrdPairs R (l1 ++ l2) → ForallOrdPairs R l1 ∧ ForallOrdPairs R l2.
Proof.
  induction l1 as [|x l1 IH]; simpl; [split; [constructor|done]|].
  inversion 1 as [|?? Hx Hl]; subst. apply IH in Hl as [??]. apply Forall_app in Hx as [??].
  split; [by constructor|done].
Qed.

(** [Iterator::min_by_key]: the first of the elements with the least key. *)
Definition min_by_key {T} (f : T → Z) (l : list T) : option T :=
  match l with
  | [] => None
  | x :: l' => Some (fold_left (λ m y, if (f y <? f m)%Z then y else m) l' x)
  end.

Lemma min_by_key_spec {T} (f : T → Z) l :
  match min_by_key f l with
  | Some x => x ∈ l ∧ ∀ y, y ∈ l → (f x ≤ f y)%Z
  | None => l = []
  end.
Proof.
  destruct l as [|x l]; [done|]. simpl. revert x.
  induction l as [|z l IH]; intros x; simpl.
  - split; [by left|]. by intros y ->%list_elem_of_singleton.
  - destruct (IH (if (f z <? f x)%Z then z else x)) as [Hin Hmin]. split.
    + apply elem_of_cons in Hin as [->|Hin]; [|by do 2 right].
      destruct (f z <? f x)%Z; [right; by left|by left].
    + intros y Hy. specialize (Hmin _ (list_elem_of_here _ _)) as Hhd. revert Hmin Hhd.
      destruct (Z.ltb_spec (f z) (f x)); intros Hmin Hhd;
        apply elem_of_cons in Hy as [->|[->|Hy]%elem_of_cons]; try lia; apply Hmin; by right.
Qed.

Lemma elem_of_flat_map {A B} (f : A → list B) l b : b ∈ flat_map f l ↔ ∃ a, a ∈ l ∧ b ∈ f a.
Proof. rewrite list_elem_of_In, in_flat_map. by setoid_rewrite list_elem_of_In. Qed.

(** Deleting keys from a map one by one. *)
Lemma foldl_delete_lookup {K V} `{Countable K} (ks : list K) (m : gmap K V) a :
  foldl (λ m r, delete r m) m ks !! a = if decide (a ∈ ks) then None else m !! a.
Proof.
  revert m. induction ks as [|k ks IH]; intros m; [done|]. cbn [foldl]. rewrite IH.
  destruct (decide (a = k)) as [->|Hne].
  - rewrite (decide_True (P := k ∈ k :: ks)) by (by left). rewrite lookup_delete_eq. by case_decide.
  - rewrite lookup_delete_ne by done. apply decide_ext. rewrite elem_of_cons. tauto.
Qed.

(** ** Occurrences *)

Section occurrences.
Context {A : Type} `{EqDecision A}.

(** How often an element occurs in a vector. *)
Definition occ (k : A) (l : list A) : Z := Z.of_nat (length (filter (λ k', k' = k) l)).

Lemma occ_cons k k' l : occ k (k' :: l) = ((if decide (k' = k) then 1 else 0) + occ k l)%Z.
Proof. unfold occ. rewrite filter_cons. case_decide; cbn [length]; lia. Qed.

Lemma occ_app k l l' : occ k (l ++ l') = (occ k l + occ k l')%Z.
Proof. unfold occ. rewrite filter_app, length_app. lia. Qed.

Lemma occ_nonneg k l : (0 ≤ occ k l)%Z.
Proof. unfold occ. lia. Qed.

Lemma occ_pos k l : k ∈ l → (0 < occ k l)%Z.
Proof.
  intros Hk. unfold occ.
  assert (k ∈ filter (λ k', k' = k) l) as Hf by (by apply list_elem_of_filter).
  destruct (filter _ l); [by apply not_elem_of_nil in Hf|cbn [length]; lia].
Qed.

Lemma occ_zero k l : k ∉ l → occ k l = 0%Z.
Proof. intros Hk. unfold occ. rewrite filter_none; [done|]. by intros x Hx ->. Qed.

#[export] Instance occ_perm k : Proper ((≡ₚ) ==> (=)) (occ k).
Proof. intros l l' Hl. unfold occ. by rewrite Hl. Qed.
End occurrences.

(** ** Sums *)

Section sums.
Context {A : Type}.

Definition sum_of (f : A → Z) (l : list A) : Z := foldr (λ x acc, (f x + acc)%Z) 0%Z l.

Lemma sum_of_app f l l' : sum_of f (l ++ l') = (sum_of f l + sum_of f l')%Z.
Proof. unfold sum_of. induction l as [|x l IH]; cbn; [done|]. lia. Qed.

#[export] Instance sum_of_perm f : Proper ((≡ₚ) ==> (=)) (sum_of f).
Proof. intros l l' Hl. unfold sum_of. induction Hl; cbn; lia. Qed.

Lemma sum_of_ext f g l : (∀ x, x ∈ l → f x = g x) → sum_of f l = sum_of g l.
Proof.
  unfold sum_of. induction l as [|x l IH]; intros Hl; cbn; [done|].
  rewrite (Hl x) by (by left). f_equal. apply IH. intros y Hy. apply Hl. by right.
Qed.

Lemma sum_of_zero f l : (∀ x, x ∈ l → f x = 0%Z) → sum_of f l = 0%Z.
Proof.
  unfold sum_of. induction l as [|x l IH]; intros Hl; cbn; [done|].
  rewrite (Hl x) by (by left). apply IH. intros y Hy. apply Hl. by right.
Qed.

Lemma sum_of_nonneg f l : (∀ x, x ∈ l → (0 ≤ f x)%Z) → (0 ≤ sum_of f l)%Z.
Proof.
  unfold sum_of. induction l as [|x l IH]; intros Hl; cbn; [done|].
  assert (0 ≤ f x)%Z by (apply Hl; by left). assert (0 ≤ foldr (λ x acc, f x + acc) 0 l)%Z; [|lia].
  apply IH. intros y Hy. apply Hl. by right.
Qed.

Lemma sum_of_elem f l x : (∀ y, y ∈ l → (0 ≤ f y)%Z) → x ∈ l → (f x ≤ sum_of f l)%Z.
Proof.
  intros Hl [l1 [l2 ->]]%list_elem_of_split. rewrite sum_of_app. cbn.
  pose proof (sum_of_nonneg f l1) as H1. pose proof (sum_of_nonneg f l2) as H2.
  assert (0 ≤ sum_of f l1)%Z by (apply H1; intros y Hy; apply Hl; set_solver).
  assert (0 ≤ sum_of f l2)%Z by (apply H2; intros y Hy; apply Hl; set_solver).
  unfold sum_of in *. lia.
Qed.

Lemma sum_of_add f g l : sum_of (λ x, (f x + g x)%Z) l = (sum_of f l + sum_of g l)%Z.
Proof. unfold sum_of. induction l as [|x l IH]; cbn; [done|]. lia. Qed.
End sums.

(** ** Machine integers

    An unsigned integer of [w] bits is a [Z] in [0, 2^w); the arithmetic
    operators wrap around, as they do in release builds. *)

Declare Scope word_scope.
Delimit Scope word_scope with word.

Definition wrap (w x : Z) : Z := (x mod 2 ^ w)%Z.
Definition fits (w x : Z) : Prop := (0 ≤ x < 2 ^ w)%Z.

Notation "a +[ w ] b" := (wrap w (a + b)) (at level 50, left associativity) : word_scope.
Notation "a *[ w ] b" := (wrap w (a * b)) (at level 40, left associativity) : word_scope.
Open Scope word_scope.

#[export] Instance fits_dec w x : Decision (fits w x).
Proof. unfold fits. apply _. Defined.

(** [checked_add], [checked_sub] and [saturating_sub] of unsigned integers. *)
Definition checked_add (w a b : Z) : option Z :=
  if (a + b <? 2 ^ w)%Z then Some (a + b)%Z else None.
Definition checked_sub (a b : Z) : option Z :=
  if (b <=? a)%Z then Some (a - b)%Z else None.
Definition checked_mul (w a b : Z) : option Z :=
  if (a * b <? 2 ^ w)%Z then Some (a * b)%Z else None.
Definition saturating_sub (a b : Z) : Z := Z.max 0 (a - b).

Lemma wrap_small w x : fits w x → wrap w x = x.
Proof. apply Z.mod_small. Qed.

Lemma wrap_fits w x : (0 ≤ w)%Z → fits w (wrap w x).
Proof. intros. apply Z.mod_pos_bound. lia. Qed.

Lemma checked_sub_Some a b : (b ≤ a)%Z → checked_sub a b = Some (a - b)%Z.
Proof. intros. unfold checked_sub. by rewrite (proj2 (Z.leb_le b a)). Qed.

Lemma checked_add_Some w a b : (a + b < 2 ^ w)%Z → checked_add w a b = Some (a + b)%Z.
Proof. intros. unfold checked_add. by rewrite (proj2 (Z.ltb_lt _ _)). Qed.

Lemma checked_mul_Some w a b : (a * b < 2 ^ w)%Z → checked_mul w a b = Some (a * b)%Z.
Proof. intros. unfold checked_mul. by rewrite (proj2 (Z.ltb_lt _ _)). Qed.

(** Bounds of machine integers are closed by arithmetic. *)
Create HintDb words.
#[export] Hint Extern 1 (fits _ _) => (unfold fits in *; simpl in *; lia) : words.
#[export] Hint Resolve wrap_small wrap_fits checked_sub_Some checked_add_Some : words.

(** Removes the wraps of operations that cannot overflow. *)
Ltac nowrap :=
  repeat match goal with
  | |- context [wrap ?w ?x] => rewrite (wrap_small w x) by auto with words
  end.
