(* ===== verification/ForkTree.v ===== *)
(** * Fork tree (src/utils/fork-tree/src/lib.rs) *)
From S2P Require Import Prelude.

Local Open Scope Z_scope.

(** Membership in forests and the local facts of well-formed nodes. *)
Create HintDb fork_tree.

Section fork_tree.
Context {H V E : Type} `{!EqDecision H}.

(** ** Data *)

Inductive Error : Type :=
| Duplicate
| UnfinalizedAncestor
| Revert
| Client (e : E).

Inductive FinalizationResult : Type :=
| Changed (v : option V)
| Unchanged.

Inductive FindOutcome (T : Type) : Type :=
| Found (x : T)
| Failure (descendent : bool)
| Abort.
Arguments Found {T} x.
Arguments Failure {T} descendent.
Arguments Abort {T}.

Inductive Node : Type := MkNode {
  hash : H;
  number : Z;
  data : V;
  children : list Node;
}.

Record ForkTree : Type := MkForkTree {
  roots : list Node;
  best_finalized_number : option Z;
}.

(** The ancestry callback [is_descendent_of(base, target)], a fallible query to
    the client. *)
Abbreviation oracle := (H → H → E + bool).

(** [is_descendent_of(..)?] *)
Definition query (isd : oracle) (base target : H) : result Error bool :=
  match isd base target with
  | inl e => Err (Client e)
  | inr b => Ok b
  end.

(** ** Nodes *)

Fixpoint max_depth (n : Node) : nat :=
  match n with
  | MkNode _ _ _ cs => S (fold_left (λ m c, Nat.max (max_depth c) m) cs O)
  end.

(** [Reverse(a.max_depth()) <= Reverse(b.max_depth())] *)
Definition deeper (a b : Node) : bool := (max_depth b <=? max_depth a)%nat.

(** Sort the children by decreasing depth, then rebalance each of them; the
    depth of a child is computed before the child is rebalanced
    ([node_rebalance_eq] is the equation of the source). *)
Fixpoint node_rebalance (n : Node) : Node :=
  match n with
  | MkNode h k d cs =>
      let keyed := map (λ c, (max_depth c, node_rebalance c)) cs in
      MkNode h k d (map snd (sort_by (λ a b, (b.1 <=? a.1)%nat) keyed))
  end.

(** The loop of [Node::import] over the children: the hash, number and data
    move into each recursive call and come back when it does not take them. *)
Definition import_into
    (imp : Node → H → Z → V → Node * result Error (option (H * Z * V))) :
    list Node → H → Z → V → list Node * result Error (option (H * Z * V)) :=
  fix go l h n d :=
    match l with
    | [] => ([], Ok (Some (h, n, d)))
    | c :: l' =>
        match imp c h n d with
        | (c', Ok (Some (h', n', d'))) =>
            let '(l'', r) := go l' h' n' d' in (c' :: l'', r)
        | (c', r) => (c' :: l', r)
        end
    end.

Fixpoint node_import (isd : oracle) (self : Node) (h : H) (n : Z) (d : V) :
    Node * result Error (option (H * Z * V)) :=
  match self with
  | MkNode sh sn sd cs =>
      if decide (sh = h) then (self, Err Duplicate)
      else if n <=? sn then (self, Ok (Some (h, n, d)))
      else
        match import_into (node_import isd) cs h n d with
        | (cs', Ok (Some (h', n', d'))) =>
            match query isd sh h' with
            | Ok true => (MkNode sh sn sd (cs' ++ [MkNode h' n' d' []]), Ok None)
            | Ok false => (MkNode sh sn sd cs', Ok (Some (h', n', d')))
            | Err e => (MkNode sh sn sd cs', Err e)
            | Panic => (MkNode sh sn sd cs', Panic)
            end
        | (cs', r) => (MkNode sh sn sd cs', r)
        end
  end.

(** The loop of [Node::find_node_index_where]: it ends the search with [Found]
    or [Abort], or falls through with the final [known_descendent_of]. *)
Definition find_in_children
    (find : Node → result Error (FindOutcome (list nat))) :
    nat → list Node → result Error (FindOutcome (list nat)) :=
  fix go i l :=
    match l with
    | [] => Ok (Failure false)
    | c :: l' =>
        o ← find c;
        match o with
        | Abort => Ok Abort
        | Found x => Ok (Found (x ++ [i]))
        | Failure true => Ok (Failure true)
        | Failure false => go (S i) l'
        end
    end.

Fixpoint find_node_index_where (isd : oracle) (pred : V → bool) (h : H) (n : Z)
    (self : Node) : result Error (FindOutcome (list nat)) :=
  match self with
  | MkNode sh sn sd cs =>
      if n <? sn then Ok (Failure false)
      else
        o ← find_in_children (find_node_index_where isd pred h n) 0%nat cs;
        match o with
        | Failure known_descendent_of =>
            b ← (if known_descendent_of then Ok true else query isd sh h);
            if b && pred sd then Ok (Found []) else Ok (Failure b)
        | o => Ok o
        end
  end.

(** [while let Some(i) = indexes.pop() { cur = &cur.children[i] }]: the path is
    stored last index first and popped from the end. *)
Fixpoint walk (cur : Node) (path : list nat) : option Node :=
  match path with
  | [] => Some cur
  | i :: path' => c ← children cur !! i; walk c path'
  end.

Definition node_find_node_where (isd : oracle) (pred : V → bool) (h : H) (n : Z)
    (self : Node) : result Error (FindOutcome Node) :=
  o ← find_node_index_where isd pred h n self;
  match o with
  | Abort => Ok Abort
  | Failure f => Ok (Failure f)
  | Found indexes => cur ← expect (walk self (reverse indexes)); Ok (Found cur)
  end.

(** ** The tree *)

Definition new : ForkTree := MkForkTree [] None.

Definition rebalance (t : ForkTree) : ForkTree :=
  MkForkTree (map node_rebalance (sort_by deeper (roots t))) (best_finalized_number t).

(** [if let Some(best) = best_finalized_number { if number <= best .. }] *)
Definition reverts (t : ForkTree) (n : Z) : bool :=
  match best_finalized_number t with
  | Some best => n <=? best
  | None => false
  end.

(** One iteration of the loop of [ForkTree::import] over the roots. *)
Definition root_import (isd : oracle) (root : Node) (h : H) (n : Z) (d : V) :
    Node * result Error (option (H * Z * V)) :=
  if decide (hash root = h) then (root, Err Duplicate)
  else node_import isd root h n d.

Definition import (isd : oracle) (t : ForkTree) (h : H) (n : Z) (d : V) :
    ForkTree * result Error bool :=
  if reverts t n then (t, Err Revert)
  else
    match import_into (root_import isd) (roots t) h n d with
    | (rs, Ok (Some (h', n', d'))) =>
        (rebalance (MkForkTree (rs ++ [MkNode h' n' d' []]) (best_finalized_number t)),
         Ok true)
    | (rs, Ok None) => (MkForkTree rs (best_finalized_number t), Ok false)
    | (rs, Err e) => (MkForkTree rs (best_finalized_number t), Err e)
    | (rs, Panic) => (MkForkTree rs (best_finalized_number t), Panic)
    end.

(** [ForkTreeIterator]: a stack of subtrees still to visit, popped from the
    end.  The fuel bounds the number of calls to [next]. *)
Fixpoint iterate (fuel : nat) (stack : list Node) : list Node :=
  match fuel with
  | O => []
  | S fuel' =>
      match last stack with
      | None => []
      | Some node =>
          node :: iterate fuel' (take (pred (length stack)) stack
                                 ++ reverse (children node))
      end
  end.

Fixpoint node_size (n : Node) : nat :=
  match n with
  | MkNode _ _ _ cs => S (fold_right (λ c m, (node_size c + m)%nat) O cs)
  end.

Definition forest_size (l : list Node) : nat :=
  fold_right (λ c m, (node_size c + m)%nat) O l.

Definition node_iter (t : ForkTree) : list Node :=
  iterate (forest_size (roots t)) (roots t).

Definition iter (t : ForkTree) : list (H * Z * V) :=
  map (λ n, (hash n, number n, data n)) (node_iter t).

Fixpoint find_in_roots (isd : oracle) (pred : V → bool) (h : H) (n : Z)
    (l : list Node) : result Error (option Node) :=
  match l with
  | [] => Ok None
  | root :: l' =>
      o ← node_find_node_where isd pred h n root;
      match o with
      | Found node => Ok (Some node)
      | _ => find_in_roots isd pred h n l'
      end
  end.

Definition find_node_where (isd : oracle) (t : ForkTree) (h : H) (n : Z)
    (pred : V → bool) : result Error (option Node) :=
  find_in_roots isd pred h n (roots t).

(** The filter of [prune] on the children of the new root. *)
Definition leads_to (isd : oracle) (h : H) (n : Z) (c : Node) : bool :=
  (number c =? n) && bool_decide (hash c = h) ||
  (number c <? n) && unwrap_or (isd (hash c) h) false.

Definition prune (isd : oracle) (t : ForkTree) (h : H) (n : Z) (pred : V → bool) :
    ForkTree * result Error unit :=
  match find_node_where isd t h n pred with
  | Err e => (t, Err e)
  | Panic => (t, Panic)
  | Ok new_root =>
      let t' :=
        match new_root with
        | Some (MkNode rh rn rd cs) =>
            MkForkTree [MkNode rh rn rd (take 1 (filter (leads_to isd h n) cs))]
              (best_finalized_number t)
        | None => t
        end in
      (rebalance t', Ok tt)
  end.

(** [finalize_root_at]; [None] is the panic of an index out of range. *)
Definition finalize_root_at (t : ForkTree) (pos : nat) : option (ForkTree * V) :=
  '(node, _) ← swap_remove pos (roots t);
  Some (MkForkTree (children node) (Some (number node)), data node).

(** [finalize_root]; [None] when no root has the hash (the tree is unchanged). *)
Definition finalize_root (t : ForkTree) (h : H) : option (ForkTree * V) :=
  pos ← position (λ r, bool_decide (hash r = h)) (roots t);
  finalize_root_at t pos.

(** The check that the finalized block does not descend from a root. *)
Fixpoint check_unfinalized (isd : oracle) (h : H) (n : Z) (l : list Node) :
    result Error unit :=
  match l with
  | [] => Ok tt
  | root :: l' =>
      b ← (if number root <? n then query isd (hash root) h else Ok false);
      if b : bool then Err UnfinalizedAncestor else check_unfinalized isd h n l'
  end.

Definition finalize (isd : oracle) (t : ForkTree) (h : H) (n : Z) :
    ForkTree * result Error FinalizationResult :=
  if reverts t n then (t, Err Revert)
  else
    match finalize_root t h with
    | Some (t', v) => (t', Ok (Changed (Some v)))
    | None =>
        match check_unfinalized isd h n (roots t) with
        | Err e => (t, Err e)
        | Panic => (t, Panic)
        | Ok _ =>
            let '(rs, changed) :=
              retain (λ root, (n <? number root) && unwrap_or (isd h (hash root)) false)
                (roots t) in
            (MkForkTree rs (Some n), Ok (if changed then Changed None else Unchanged))
        end
    end.

(** The [while idx != self.roots.len()] loop of [finalize_with_ancestors]; the
    fuel bounds its iterations, [None] is running out of it. *)
Fixpoint fwa_loop (isd : oracle) (fuel : nat) (h : H) (n : Z) (t : ForkTree)
    (idx : nat) (changed : bool) :
    option (ForkTree * result Error FinalizationResult) :=
  match fuel with
  | O => None
  | S fuel' =>
      if decide (idx = length (roots t)) then
        Some (MkForkTree (roots t) (Some n), Ok (if changed then Changed None else Unchanged))
      else
        match roots t !! idx with
        | None => Some (t, Panic)
        | Some root =>
            let is_finalized := bool_decide (hash root = h) in
            let is_descendant := negb is_finalized && (n <? number root)
              && unwrap_or (isd h (hash root)) false in
            let is_ancestor := negb is_finalized && negb is_descendant
              && (number root <? n) && unwrap_or (isd (hash root) h) false in
            if is_finalized then
              match finalize_root_at t idx with
              | Some (t', v) => Some (t', Ok (Changed (Some v)))
              | None => Some (t, Panic)
              end
            else if is_descendant then fwa_loop isd fuel' h n t (S idx) changed
            else
              match swap_remove idx (roots t) with
              | None => Some (t, Panic)
              | Some (root, rs) =>
                  let rs' := if is_ancestor then rs ++ children root else rs in
                  fwa_loop isd fuel' h n (MkForkTree rs' (best_finalized_number t)) idx true
              end
        end
  end.

Definition finalize_with_ancestors (isd : oracle) (t : ForkTree) (h : H) (n : Z) :
    option (ForkTree * result Error FinalizationResult) :=
  if reverts t n then Some (t, Err Revert)
  else
    match finalize_root t h with
    | Some (t', v) => Some (t', Ok (Changed (Some v)))
    | None => fwa_loop isd (S (forest_size (roots t))) h n t 0 false
    end.

(** The loop over the children of a node about to be finalized: none may lie
    between it and the finalized block. *)
Fixpoint check_children (isd : oracle) (h : H) (n : Z) (l : list Node) :
    result Error unit :=
  match l with
  | [] => Ok tt
  | c :: l' =>
      b ← (if number c <=? n then query isd (hash c) h else Ok false);
      if b : bool then Err UnfinalizedAncestor else check_children isd h n l'
  end.

(** [node.hash == *hash || is_descendent_of(&node.hash, hash)?] *)
Definition same_or_descendent (isd : oracle) (h : H) (node : Node) : result Error bool :=
  if decide (hash node = h) then Ok true else query isd (hash node) h.

(** The scan both [finalizes_any_with_descendent_if] and
    [finalize_with_descendent_if] make: the position and the node of the first
    candidate that passes the predicate and that the block descends from. *)
Fixpoint scan (isd : oracle) (pred : V → bool) (h : H) (n : Z) (i : nat)
    (l : list Node) : result Error (option (nat * Node)) :=
  match l with
  | [] => Ok None
  | node :: l' =>
      if pred (data node) then
        b ← same_or_descendent isd h node;
        if b : bool then
          _ ← check_children isd h n (children node);
          Ok (Some (i, node))
        else scan isd pred h n (S i) l'
      else scan isd pred h n (S i) l'
  end.

Definition finalizes_any_with_descendent_if (isd : oracle) (t : ForkTree) (h : H)
    (n : Z) (pred : V → bool) : result Error (option bool) :=
  if reverts t n then Err Revert
  else
    o ← scan isd pred h n 0 (node_iter t);
    Ok (option_map (λ p, existsb (λ root, bool_decide (hash root = hash p.2)) (roots t)) o).

(** The closure [finalize_with_descendent_if] retains roots with. *)
Definition related (isd : oracle) (h : H) (n : Z) (root : Node) : bool :=
  (n <? number root) && unwrap_or (isd h (hash root)) false ||
  (number root =? n) && bool_decide (hash root = h) ||
  unwrap_or (isd (hash root) h) false.

Definition finalize_with_descendent_if (isd : oracle) (t : ForkTree) (h : H)
    (n : Z) (pred : V → bool) : ForkTree * result Error FinalizationResult :=
  if reverts t n then (t, Err Revert)
  else
    match scan isd pred h n 0 (roots t) with
    | Err e => (t, Err e)
    | Panic => (t, Panic)
    | Ok found =>
        match
          match found with
          | None => Some (t, None)
          | Some (i, _) => '(t', v) ← finalize_root_at t i; Some (t', Some v)
          end
        with
        | None => (t, Panic)
        | Some (t1, node_data) =>
            let '(rs, changed) := retain (related isd h n) (roots t1) in
            (MkForkTree rs (Some n),
             Ok (match node_data, changed with
                 | Some v, _ => Changed (Some v)
                 | None, true => Changed None
                 | None, false => Unchanged
                 end))
        end
    end.

(** ** Structure of nodes and forests *)

Lemma Node_strong_ind (P : Node → Prop) :
  (∀ h n d cs, Forall P cs → P (MkNode h n d cs)) → ∀ n, P n.
Proof.
  intros Hstep. fix IH 1. intros [h n d cs]. apply Hstep.
  induction cs as [|c cs IHcs]; constructor; [apply IH | exact IHcs].
Qed.

(** The nodes of a subtree, the node first (pre-order). *)
Fixpoint nodes (n : Node) : list Node :=
  n :: match n with MkNode _ _ _ cs => flat_map nodes cs end.

Abbreviation forest_nodes := (flat_map nodes).

Definition entry (n : Node) : H * Z * V := (hash n, number n, data n).
Definition entries (l : list Node) : list (H * Z * V) := map entry (forest_nodes l).
Definition hashes (l : list Node) : list H := map hash (forest_nodes l).

Lemma nodes_eq n : nodes n = n :: forest_nodes (children n).
Proof. by destruct n. Qed.

Lemma nodes_self n : n ∈ nodes n.
Proof. rewrite nodes_eq. set_solver. Qed.

Lemma elem_of_forest_nodes m l : m ∈ forest_nodes l ↔ ∃ c, c ∈ l ∧ m ∈ nodes c.
Proof.
  rewrite list_elem_of_In, in_flat_map. setoid_rewrite <- list_elem_of_In. done.
Qed.

Lemma elem_of_hashes h l : h ∈ hashes l ↔ ∃ m, m ∈ forest_nodes l ∧ hash m = h.
Proof. unfold hashes. rewrite list_elem_of_In, in_map_iff. setoid_rewrite <- list_elem_of_In. naive_solver. Qed.

Lemma hashes_app l1 l2 : hashes (l1 ++ l2) = hashes l1 ++ hashes l2.
Proof. unfold hashes. by rewrite flat_map_app, map_app. Qed.

Lemma hashes_cons n l : hashes (n :: l) = hashes [n] ++ hashes l.
Proof. apply (hashes_app [n] l). Qed.

Lemma entries_app l1 l2 : entries (l1 ++ l2) = entries l1 ++ entries l2.
Proof. unfold entries. by rewrite flat_map_app, map_app. Qed.

Lemma entries_cons n l : entries (n :: l) = entries [n] ++ entries l.
Proof. apply (entries_app [n] l). Qed.

Lemma entries_node h n d cs : entries [MkNode h n d cs] = (h, n, d) :: entries cs.
Proof. unfold entries. simpl. by rewrite app_nil_r. Qed.

Lemma hashes_node h n d cs : hashes [MkNode h n d cs] = h :: hashes cs.
Proof. unfold hashes. simpl. by rewrite app_nil_r. Qed.

Lemma forest_nodes_perm l1 l2 : l1 ≡ₚ l2 → forest_nodes l1 ≡ₚ forest_nodes l2.
Proof. intros Hp. by apply Permutation_flat_map. Qed.

Lemma entries_perm l1 l2 : l1 ≡ₚ l2 → entries l1 ≡ₚ entries l2.
Proof. intros Hp. unfold entries. by apply Permutation_map, forest_nodes_perm. Qed.

Lemma hashes_entries l : hashes l = map (λ e, e.1.1) (entries l).
Proof. unfold hashes, entries. rewrite map_map. done. Qed.

Lemma forest_size_length l : forest_size l = length (forest_nodes l).
Proof.
  assert (∀ n, node_size n = length (nodes n)) as Hn.
  { intros n. induction n as [h k d cs IH] using Node_strong_ind. simpl. f_equal.
    induction IH as [|c cs Hc _ IH]; simpl; [done|]. rewrite length_app. lia. }
  induction l as [|c l IH]; simpl; [done|]. rewrite length_app, Hn, <- IH. done.
Qed.

(** ** Rebalancing *)

Lemma fold_max_ge (f : Node → nat) l m : (m ≤ fold_left (λ m c, Nat.max (f c) m) l m)%nat.
Proof. revert m. induction l as [|c l IH]; intros m; simpl; [lia|]. specialize (IH (f c `max` m)%nat). lia. Qed.

Lemma fold_max_foldr (f : Node → nat) l m :
  fold_left (λ m c, Nat.max (f c) m) l m = Nat.max m (foldr (λ c m, Nat.max (f c) m) O l).
Proof. revert m. induction l as [|c l IH]; intros m; simpl; [lia|]. rewrite IH. lia. Qed.

Lemma foldr_max_perm (f : Node → nat) l1 l2 :
  l1 ≡ₚ l2 → foldr (λ c m, Nat.max (f c) m) O l1 = foldr (λ c m, Nat.max (f c) m) O l2.
Proof. induction 1; simpl; lia. Qed.

Lemma max_depth_children n :
  max_depth n = S (foldr (λ c m, Nat.max (max_depth c) m) O (children n)).
Proof. destruct n as [h k d cs]. simpl. rewrite fold_max_foldr. done. Qed.

(** The equation of [Node::rebalance]. *)
Lemma node_rebalance_eq h n d cs :
  node_rebalance (MkNode h n d cs) =
  MkNode h n d (map node_rebalance (sort_by deeper cs)).
Proof.
  simpl. f_equal.
  change (map (λ c, (max_depth c, node_rebalance c)) cs)
    with ((λ c, (max_depth c, node_rebalance c)) <$> cs).
  rewrite (sort_by_map _ deeper) by done.
  induction (sort_by deeper cs); simpl; by f_equal.
Qed.

Lemma hash_rebalance n : hash (node_rebalance n) = hash n.
Proof. by destruct n. Qed.

Lemma entry_rebalance n : entry (node_rebalance n) = entry n.
Proof. by destruct n. Qed.

Lemma max_depth_rebalance n : max_depth (node_rebalance n) = max_depth n.
Proof.
  induction n as [h k d cs IH] using Node_strong_ind.
  rewrite node_rebalance_eq, !max_depth_children. cbn [children]. f_equal.
  rewrite (foldr_max_perm _ (map node_rebalance (sort_by deeper cs)) (map node_rebalance cs))
    by (by apply Permutation_map, sort_by_perm).
  induction IH as [|c cs Hc _ IH]; simpl; [done|]. by rewrite Hc, IH.
Qed.

Lemma deeper_total a b : deeper a b = false → deeper b a = true.
Proof. unfold deeper. rewrite Nat.leb_gt, Nat.leb_le. lia. Qed.

Lemma deeper_trans a b c : deeper a b = true → deeper b c = true → deeper a c = true.
Proof. unfold deeper. rewrite !Nat.leb_le. lia. Qed.

(** Nodes of the rebalanced forest are the rebalanced nodes. *)
Lemma forest_nodes_rebalance l :
  forest_nodes (map node_rebalance (sort_by deeper l)) ≡ₚ map node_rebalance (forest_nodes l).
Proof.
  assert (∀ n, nodes (node_rebalance n) ≡ₚ map node_rebalance (nodes n)) as Hn.
  { intros n. induction n as [h k d cs IH] using Node_strong_ind.
    rewrite node_rebalance_eq, !nodes_eq. cbn [children]. rewrite <- node_rebalance_eq. simpl.
    constructor.
    rewrite (forest_nodes_perm _ (map node_rebalance cs)) by (by apply Permutation_map, sort_by_perm).
    induction IH as [|c cs Hc _ IH]; simpl; [done|]. by rewrite Hc, IH, map_app. }
  rewrite (forest_nodes_perm _ (map node_rebalance l)) by (by apply Permutation_map, sort_by_perm).
  induction l as [|c l IH]; simpl; [done|]. by rewrite Hn, IH, map_app.
Qed.

Lemma entries_rebalance t : entries (roots (rebalance t)) ≡ₚ entries (roots t).
Proof.
  unfold entries, rebalance. cbn [roots].
  rewrite forest_nodes_rebalance, map_map.
  erewrite map_ext; [done|]. apply entry_rebalance.
Qed.

(** Every level of the tree is sorted by decreasing depth. *)
Definition balanced (l : list Node) : Prop :=
  StronglySorted (λ a b, deeper a b = true) l ∧
  ∀ m, m ∈ forest_nodes l → StronglySorted (λ a b, deeper a b = true) (children m).

Lemma sorted_map_rebalance l :
  StronglySorted (λ a b, deeper a b = true) (map node_rebalance (sort_by deeper l)).
Proof.
  pose proof (sort_by_sorted deeper l deeper_total deeper_trans) as Hs.
  induction Hs as [|a l' Hs IH Ha]; simpl; constructor; [done|].
  apply Forall_map. eapply Forall_impl; [exact Ha|].
  intros b Hb. unfold deeper in *. by rewrite !max_depth_rebalance.
Qed.

Lemma rebalance_balanced t : balanced (roots (rebalance t)).
Proof.
  split; [apply sorted_map_rebalance|]. intros m Hm.
  unfold rebalance in Hm. cbn [roots] in Hm. rewrite forest_nodes_rebalance in Hm.
  apply list_elem_of_In, in_map_iff in Hm as ([h k d cs] & <- & _).
  rewrite node_rebalance_eq. apply sorted_map_rebalance.
Qed.

(** ** Ancestry

    What the callers promise about [is_descendent_of]: on the blocks the client
    knows it answers, and it answers with the strict ancestry relation of a
    block tree, in which the ancestors of a block form a chain and block numbers
    grow along it. *)
Class Ancestry (isd : oracle) (anc : H → H → Prop) `{!RelDecision anc} (known : H → Prop)
    (num : H → Z) : Prop := {
  anc_query : ∀ a b, known a → known b → isd a b = inr (bool_decide (anc a b));
  anc_num : ∀ a b, anc a b → num a < num b;
  anc_trans : ∀ a b c, anc a b → anc b c → anc a c;
  anc_chain : ∀ a b c, anc a c → anc b c → a = b ∨ anc a b ∨ anc b a;
}.

Section ancestry.
Context (isd : oracle) (anc : H → H → Prop) `{!RelDecision anc} (known : H → Prop) (num : H → Z).
Context `{!Ancestry isd anc known num}.

Lemma query_anc a b : known a → known b → query isd a b = Ok (bool_decide (anc a b)).
Proof using Ancestry0. intros Ha Hb. unfold query. by rewrite (anc_query a b Ha Hb). Qed.

Lemma unwrap_anc a b : known a → known b → unwrap_or (isd a b) false = bool_decide (anc a b).
Proof using Ancestry0. intros Ha Hb. by rewrite (anc_query a b Ha Hb). Qed.

Lemma anc_irrefl a : ¬ anc a a.
Proof using Ancestry0. intros Ha%anc_num. lia. Qed.

Definition incomparable (a b : Node) : Prop :=
  hash a ≠ hash b ∧ ¬ anc (hash a) (hash b) ∧ ¬ anc (hash b) (hash a).

(** No two nodes of a level are on the same branch. *)
Definition antichain (l : list Node) : Prop := ForallOrdPairs incomparable l.

Definition local_ok (m : Node) : Prop :=
  known (hash m) ∧
  number m = num (hash m) ∧
  (∀ c, c ∈ children m → anc (hash m) (hash c)) ∧
  antichain (children m).

(** Well-formed forests: a node is a known block and carries its number, its children
    descend from it, and siblings are on different branches. *)
Definition wf_node (n : Node) : Prop := ∀ m, m ∈ nodes n → local_ok m.
Definition wf_forest (l : list Node) : Prop :=
  antichain l ∧ ∀ m, m ∈ forest_nodes l → local_ok m.

Lemma incomparable_sym a b : incomparable a b → incomparable b a.
Proof. unfold incomparable. naive_solver. Qed.

Lemma antichain_inv l a b : antichain l → a ∈ l → b ∈ l → a = b ∨ incomparable a b.
Proof.
  intros Hl Ha%list_elem_of_In Hb%list_elem_of_In.
  destruct (ForallOrdPairs_In Hl a b Ha Hb) as [?|[?|?]]; eauto using incomparable_sym.
Qed.

Lemma antichain_perm l1 l2 : l1 ≡ₚ l2 → antichain l1 → antichain l2.
Proof. apply ord_pairs_perm, incomparable_sym. Qed.

Lemma antichain_app l1 l2 :
  antichain (l1 ++ l2) ↔
  antichain l1 ∧ antichain l2 ∧ ∀ a b, a ∈ l1 → b ∈ l2 → incomparable a b.
Proof.
  unfold antichain. induction l1 as [|x l1 IH]; simpl.
  - split; [|naive_solver]. intros. split_and!; [constructor|done|set_solver].
  - split.
    + inversion 1 as [|?? Hx Hl]; subst. apply IH in Hl as (?&?&Hc).
      rewrite Forall_app in Hx. destruct Hx as [Hx1 Hx2].
      split_and!; [by constructor|done|]. intros a b Ha Hb.
      apply elem_of_cons in Ha as [->|Ha]; [|auto].
      rewrite Forall_forall in Hx2. auto.
    + intros (Hl1&Hl2&Hc). inversion Hl1; subst. constructor.
      * rewrite Forall_app, !Forall_forall in *. split; [done|]. set_solver.
      * apply IH. set_solver.
Qed.

Lemma antichain_map (f : Node → Node) l :
  (∀ n, hash (f n) = hash n) → antichain l → antichain (map f l).
Proof.
  intros Hf. induction 1 as [|x l Hx Hl IH]; simpl; constructor; [|done].
  apply Forall_map. eapply Forall_impl; [exact Hx|].
  intros b. unfold incomparable, compose. by rewrite !Hf.
Qed.

Lemma antichain_hashes l1 l2 : map hash l1 = map hash l2 → antichain l1 → antichain l2.
Proof.
  revert l2. induction l1 as [|x l1 IH]; intros [|y l2] Heq Hl; simplify_eq/=; [constructor|].
  inversion Hl as [|?? Hx Hl1]; subst. constructor; [|by apply IH].
  clear -H0 H1 Hx. revert l2 H1. induction Hx as [|z l1 Hz _ IH]; intros [|w l2] Heq; simplify_eq/=; constructor.
  - unfold incomparable in *. congruence.
  - by apply IH.
Qed.

Lemma wf_forest_cons n l :
  wf_forest (n :: l) ↔ wf_node n ∧ wf_forest l ∧ ∀ b, b ∈ l → incomparable n b.
Proof.
  unfold wf_forest, antichain. split.
  - intros [Ha Hw]. inversion Ha as [|?? Hn Hl]; subst. rewrite Forall_forall in Hn.
    split; [|split; [split; [done|]|done]]; intros m Hm; apply Hw; simpl; set_solver.
  - intros (Hn&[Hl Hw]&Hi). split; [constructor; [by rewrite Forall_forall|done]|].
    intros m [Hm|Hm]%elem_of_app; auto.
Qed.

Lemma wf_forest_perm l1 l2 : l1 ≡ₚ l2 → wf_forest l1 → wf_forest l2.
Proof.
  intros Hp [Ha Hw]. split; [by eapply antichain_perm|].
  intros m Hm. apply Hw. by rewrite (forest_nodes_perm _ _ Hp).
Qed.

Lemma wf_node_children n : wf_node n → wf_forest (children n).
Proof.
  intros Hn. split; [apply Hn, nodes_self|]. intros m Hm. apply Hn.
  rewrite nodes_eq. set_solver.
Qed.

Lemma wf_node_intro n : local_ok n → wf_forest (children n) → wf_node n.
Proof. intros Hl [_ Hw] m. rewrite nodes_eq. intros [->|Hm]%elem_of_cons; auto. Qed.

Lemma wf_forest_node l n : wf_forest l → n ∈ l → wf_node n.
Proof. intros [_ Hw] Hn m Hm. apply Hw, elem_of_forest_nodes. eauto. Qed.

Lemma wf_forest_intro l : antichain l → (∀ n, n ∈ l → wf_node n) → wf_forest l.
Proof.
  intros Ha Hw. split; [done|]. intros m (c&Hc&Hm)%elem_of_forest_nodes. by eapply Hw.
Qed.

Lemma wf_node_number n : wf_node n → number n = num (hash n).
Proof. intros Hn. by destruct (Hn n (nodes_self n)) as (_&?&_). Qed.

Lemma wf_node_known n : wf_node n → known (hash n).
Proof. intros Hn. by destruct (Hn n (nodes_self n)) as (?&_). Qed.

#[local] Hint Resolve wf_node_number wf_node_known wf_forest_node : fork_tree.

Lemma wf_node_child n c : wf_node n → c ∈ children n → anc (hash n) (hash c).
Proof. intros Hn Hc. by apply (Hn n (nodes_self n)). Qed.

(** Everything below a node descends from it. *)
Lemma wf_node_below n m : wf_node n → m ∈ forest_nodes (children n) → anc (hash n) (hash m).
Proof using Ancestry0.
  revert m. induction n as [h k d cs IH] using Node_strong_ind. intros m Hn Hm.
  pose proof Hm as (c&Hc&Hmc)%elem_of_forest_nodes. rewrite Forall_forall in IH.
  pose proof (wf_node_child _ c Hn Hc) as Hhc.
  rewrite nodes_eq in Hmc. apply elem_of_cons in Hmc as [->|Hmc]; [done|].
  eapply anc_trans; [exact Hhc|]. apply IH; [done| |done].
  eapply wf_forest_node; [by apply wf_node_children|done].
Qed.

Lemma wf_node_desc n m : wf_node n → m ∈ nodes n → m = n ∨ anc (hash n) (hash m).
Proof using Ancestry0.
  intros Hn. rewrite nodes_eq. intros [->|Hm]%elem_of_cons; [by left|right].
  by apply wf_node_below.
Qed.

(** ... and conversely: a node of the forest that descends from a node of the
    forest is below it, so the shape of a well-formed forest is determined by
    the ancestry relation. *)
Lemma wf_forest_complete l x y :
  wf_forest l → x ∈ forest_nodes l → y ∈ forest_nodes l →
  hash x = hash y ∨ anc (hash x) (hash y) → y ∈ nodes x.
Proof using Ancestry0.
  assert (∀ l r1 r2 x y, wf_forest l → r1 ∈ l → r2 ∈ l → x ∈ nodes r1 → y ∈ nodes r2 →
    hash x = hash y ∨ anc (hash x) (hash y) → r1 = r2) as Hroot.
  { clear l x y. intros l r1 r2 x y Hl Hr1 Hr2 Hx Hy Hxy.
    destruct (antichain_inv l r1 r2) as [|(Hne&Hn1&Hn2)]; [apply Hl|done|done|done|].
    pose proof (wf_node_desc r1 x (wf_forest_node l r1 Hl Hr1) Hx) as H1.
    pose proof (wf_node_desc r2 y (wf_forest_node l r2 Hl Hr2) Hy) as H2.
    exfalso.
    assert (hash r1 = hash y ∨ anc (hash r1) (hash y)) as H1y.
    { destruct H1 as [->|H1]; [done|]. right.
      destruct Hxy as [<-|Hxy]; [done|by eapply anc_trans]. }
    destruct H2 as [->|H2]; [naive_solver|].
    destruct H1y as [H1y|H1y]; [rewrite H1y in *; naive_solver|].
    destruct (anc_chain _ _ _ H1y H2); naive_solver. }
  intros Hl (r1&Hr1&Hx)%elem_of_forest_nodes (r2&Hr2&Hy)%elem_of_forest_nodes Hxy.
  assert (r1 = r2) as <- by eauto.
  pose proof (wf_forest_node l r1 Hl Hr1) as Hn. clear l Hl Hr1 Hr2.
  induction r1 as [h k d cs IH] using Node_strong_ind.
  rewrite nodes_eq in Hx. cbn [children] in Hx.
  apply elem_of_cons in Hx as [->|Hx]; [done|].
  pose proof (wf_node_children _ Hn) as Hcs. cbn [children] in Hcs.
  pose proof Hx as (c1&Hc1&Hx1)%elem_of_forest_nodes.
  pose proof (wf_node_below _ x Hn Hx) as Hhx. cbn [hash] in Hhx.
  rewrite nodes_eq in Hy. cbn [children] in Hy.
  apply elem_of_cons in Hy as [->|Hy].
  { exfalso. cbn [hash] in Hxy. apply (anc_irrefl h). destruct Hxy as [<-|Hxy]; [done|by eapply anc_trans]. }
  pose proof Hy as (c2&Hc2&Hy2)%elem_of_forest_nodes.
  assert (c1 = c2) as <- by eauto.
  rewrite Forall_forall in IH. eapply IH; eauto with fork_tree.
Qed.

(** Hashes identify the nodes of a well-formed forest. *)
Lemma wf_forest_hash_inj l x y :
  wf_forest l → x ∈ forest_nodes l → y ∈ forest_nodes l → hash x = hash y → x = y.
Proof using Ancestry0.
  intros Hl Hx Hy Hxy.
  destruct (wf_node_desc x y) as [?|Hd]; [|by eapply wf_forest_complete; eauto|done|].
  - intros m Hm. apply Hl. apply elem_of_forest_nodes in Hx as (r&Hr&Hx).
    apply elem_of_forest_nodes. exists r. split; [done|].
    clear -Hx Hm. induction r as [h k d cs IH] using Node_strong_ind.
    rewrite nodes_eq in Hx |- *. apply elem_of_cons in Hx as [->|Hx]; [by rewrite <- nodes_eq|].
    apply elem_of_cons. right. cbn [children] in *.
    apply elem_of_forest_nodes in Hx as (c&Hc&Hx). apply elem_of_forest_nodes.
    rewrite Forall_forall in IH. eauto.
  - rewrite Hxy in Hd. by apply anc_irrefl in Hd.
Qed.

(** ** Importing *)

Section importing.
Context (h : H) (d : V).

(** Branches are imported in order: nothing in the forest descends from the
    new block. *)
Definition in_order (l : list Node) : Prop :=
  ∀ m, m ∈ forest_nodes l → ¬ anc h (hash m).

(** What importing into one node, or into the nodes of a level, does. *)
Inductive imports_node (c : Node) : Node * result Error (option (H * Z * V)) → Prop :=
| node_duplicate : h ∈ hashes [c] → imports_node c (c, Err Duplicate)
| node_refused : h ∉ hashes [c] → ¬ anc (hash c) h →
    imports_node c (c, Ok (Some (h, num h, d)))
| node_taken c' : h ∉ hashes [c] → anc (hash c) h → hash c' = hash c → wf_node c' →
    entries [c'] ≡ₚ (h, num h, d) :: entries [c] → imports_node c (c', Ok None).

Inductive imports_level (l : list Node) :
    list Node * result Error (option (H * Z * V)) → Prop :=
| level_duplicate : h ∈ hashes l → imports_level l (l, Err Duplicate)
| level_refused : h ∉ hashes l → (∀ c, c ∈ l → ¬ anc (hash c) h) →
    imports_level l (l, Ok (Some (h, num h, d)))
| level_taken l' c : h ∉ hashes l → c ∈ l → anc (hash c) h →
    map hash l' = map hash l → wf_forest l' →
    entries l' ≡ₚ (h, num h, d) :: entries l → imports_level l (l', Ok None).

Lemma wf_anc_of_hash c : wf_node c → h ∈ hashes [c] → hash c = h ∨ anc (hash c) h.
Proof using Ancestry0.
  intros Hc (m&Hm&<-)%elem_of_hashes. simpl in Hm. rewrite app_nil_r in Hm.
  destruct (wf_node_desc c m Hc Hm) as [->|]; auto.
Qed.

Lemma import_level_ok imp l :
  wf_forest l → Forall (λ c, imports_node c (imp c h (num h) d)) l →
  imports_level l (import_into imp l h (num h) d).
Proof using Ancestry0.
  intros Hl Himp. induction Himp as [|c l Hc Himp IH]; simpl.
  { constructor; [apply not_elem_of_nil|by intros c ?%not_elem_of_nil]. }
  apply wf_forest_cons in Hl as (Hwc&Hwl&Hi). specialize (IH Hwl).
  inversion Hc as [Hin Heq|Hin Hna Heq|c' Hin Ha Hh Hw He Heq].
  - constructor. rewrite hashes_cons. apply elem_of_app. by left.
  - inversion IH as [Hin' Heq'|Hin' Hna' Heq'|l' x Hin' Hx Hax Hh' Hw' He' Heq'].
    + constructor. rewrite hashes_cons. apply elem_of_app. by right.
    + constructor; [rewrite hashes_cons; apply not_elem_of_app; done|].
      intros b [->|Hb]%elem_of_cons; auto.
    + apply (level_taken _ _ x); [|by right|done|by simpl; f_equal| |].
      { rewrite hashes_cons. by apply not_elem_of_app. }
      * apply wf_forest_cons. split_and!; [done..|]. intros b Hb.
        assert (hash b ∈ map hash l) as Hb'.
        { rewrite <- Hh'. apply list_elem_of_In, in_map, list_elem_of_In, Hb. }
        apply list_elem_of_In, in_map_iff in Hb' as (b'&Hbb&Hb'%list_elem_of_In).
        specialize (Hi b' Hb'). unfold incomparable in *. by rewrite <- Hbb.
      * rewrite entries_cons, He', (entries_cons c l). solve_Permutation.
  - apply (level_taken _ _ c); [|by left|done|by simpl; f_equal| |].
    + rewrite hashes_cons. intros [?|Hl']%elem_of_app; [done|].
      apply elem_of_hashes in Hl' as (m&(b&Hb&Hm)%elem_of_forest_nodes&Hmh).
      destruct (Hi b Hb) as (Hne&Hn1&Hn2).
      destruct (wf_anc_of_hash b) as [Hb1|Hb1]; [by eapply wf_forest_node| |congruence|].
      * apply elem_of_hashes. exists m. split; [|done]. simpl. by rewrite app_nil_r.
      * destruct (anc_chain _ _ _ Ha Hb1) as [|[]]; done.
    + apply wf_forest_cons. split_and!; [done..|]. intros b Hb.
      specialize (Hi b Hb). unfold incomparable in *. by rewrite Hh.
    + rewrite entries_cons, He, (entries_cons c l). done.
Qed.

Lemma import_node_ok n :
  known h → wf_node n → in_order [n] → imports_node n (node_import isd n h (num h) d).
Proof using Ancestry0.
  intros Hk. induction n as [sh sn sd cs IH] using Node_strong_ind. intros Hn Hord.
  pose proof (wf_node_children _ Hn) as Hcs. cbn [children] in Hcs.
  destruct (Hn _ (nodes_self _)) as (Hks&Hnum&Hch&_). cbn [number hash children] in Hks, Hnum, Hch.
  assert (∀ c, c ∈ cs → wf_node c) as Hwc by eauto with fork_tree.
  assert (∀ m, m ∈ forest_nodes cs → ¬ anc h (hash m)) as Hord'.
  { intros m Hm. apply Hord. simpl. rewrite app_nil_r. by right. }
  assert (imports_level cs (import_into (node_import isd) cs h (num h) d)) as Hlev.
  { apply import_level_ok; [done|]. rewrite Forall_forall in IH |- *.
    intros c Hc. apply IH; [done|by apply Hwc|]. intros m Hm. simpl in Hm. rewrite app_nil_r in Hm.
    apply Hord', elem_of_forest_nodes. eauto. }
  simpl. case_decide as Heq.
  { constructor. rewrite hashes_node. subst. by left. }
  destruct (num h <=? sn) eqn:Hle.
  { apply Z.leb_le in Hle. constructor.
    - intros Hin. destruct (wf_anc_of_hash _ Hn Hin) as [?|Ha%anc_num]; cbn [hash] in *; [done|lia].
    - intros Ha%anc_num. cbn [hash] in *. lia. }
  assert (h ∉ hashes cs → h ∉ hashes [MkNode sh sn sd cs]) as Hnin.
  { rewrite hashes_node, not_elem_of_cons. done. }
  inversion Hlev as [Hin Hr|Hin Hna Hr|l' x Hin Hx Hax Hh' Hw' He' Hr].
  - constructor. rewrite hashes_node. by right.
  - rewrite query_anc by done. destruct (decide (anc sh h)) as [Ha|Ha].
    + rewrite bool_decide_eq_true_2 by done.
      apply node_taken; [by apply Hnin|done|done| |].
      * assert (wf_forest (cs ++ [MkNode h (num h) d []])) as Hwf.
        { apply wf_forest_intro.
          - apply antichain_app. split_and!; [apply Hcs|repeat constructor|].
            intros a b Ha' ->%list_elem_of_singleton. unfold incomparable. cbn [hash].
            split_and!; [|by apply Hna|].
            + intros <-. apply Hin, elem_of_hashes. exists a. split; [|done].
              apply elem_of_forest_nodes. eauto using nodes_self.
            + apply Hord', elem_of_forest_nodes. eauto using nodes_self.
          - intros n [?| ->%list_elem_of_singleton]%elem_of_app; [auto|].
            intros m ->%list_elem_of_singleton. split_and!; [done..|by intros c ?%not_elem_of_nil|constructor]. }
        apply wf_node_intro; [|done]. split_and!; cbn [number hash children]; [done..| |apply Hwf].
        intros c [?| ->%list_elem_of_singleton]%elem_of_app; [by apply Hch|done].
      * rewrite !entries_node, entries_app, entries_node.
        change (entries []) with (@nil (H * Z * V)). solve_Permutation.
    + rewrite bool_decide_eq_false_2 by done. constructor; [by apply Hnin|done].
  - apply node_taken; [by apply Hnin| |done| |].
    + cbn [hash]. eapply anc_trans; [by apply Hch|done].
    + apply wf_node_intro; [|done]. split_and!; cbn [number hash children]; [done..| |apply Hw'].
      intros c Hc. assert (hash c ∈ map hash cs) as Hc'.
      { rewrite <- Hh'. apply list_elem_of_In, in_map, list_elem_of_In, Hc. }
      apply list_elem_of_In, in_map_iff in Hc' as (c'&<-&Hc'%list_elem_of_In). auto.
    + rewrite !entries_node, He'. solve_Permutation.
Qed.

Lemma root_import_eq r : root_import isd r h (num h) d = node_import isd r h (num h) d.
Proof. unfold root_import. destruct r as [rh rn rd cs]. simpl. by case_decide. Qed.
End importing.

Lemma wf_rebalance t : wf_forest (roots t) → wf_forest (roots (rebalance t)).
Proof.
  intros [Ha Hw]. unfold rebalance. cbn [roots]. split.
  - apply antichain_map; [apply hash_rebalance|].
    eapply antichain_perm; [symmetry; apply sort_by_perm|done].
  - intros m. rewrite forest_nodes_rebalance.
    intros ([mh mn md mc]&<-&Hm%list_elem_of_In)%list_elem_of_In%in_map_iff.
    destruct (Hw _ Hm) as (Hk&Hn&Hc&Hac). cbn [number hash children] in *.
    rewrite node_rebalance_eq. split_and!; cbn [number hash children]; [done..| |].
    + intros c (c'&<-&Hc'%list_elem_of_In)%list_elem_of_In%in_map_iff.
      rewrite hash_rebalance. apply Hc. by rewrite <- (sort_by_perm deeper mc).
    + apply antichain_map; [apply hash_rebalance|].
      eapply antichain_perm; [symmetry; apply sort_by_perm|done].
Qed.

Lemma wf_root_of l m : m ∈ forest_nodes l → wf_forest l →
  ∃ r, r ∈ l ∧ m ∈ nodes r ∧ (m = r ∨ anc (hash r) (hash m)).
Proof using Ancestry0.
  intros (r&Hr&Hm)%elem_of_forest_nodes Hl. exists r. split_and!; [done..|].
  eapply wf_node_desc; [by eapply wf_forest_node|done].
Qed.

(** ** Searching *)

Section searching.
Context (h : H) (pred : V → bool).

(** The deepest ancestor of [h] among [ms] that passes the predicate. *)
Definition deepest (ms : list Node) (m : Node) : Prop :=
  m ∈ ms ∧ anc (hash m) h ∧ pred (data m) = true ∧
  ∀ m', m' ∈ ms → anc (hash m') h → pred (data m') = true → number m' ≤ number m.

Definition no_match (ms : list Node) : Prop :=
  ∀ m, m ∈ ms → anc (hash m) h → pred (data m) = false.

Inductive finds_node (n : Node) : result Error (FindOutcome (list nat)) → Prop :=
| node_found path m : walk n (reverse path) = Some m → deepest (nodes n) m →
    finds_node n (Ok (Found path))
| node_failure : no_match (nodes n) →
    finds_node n (Ok (Failure (bool_decide (anc (hash n) h)))).

Inductive finds_level (i : nat) (l : list Node) : result Error (FindOutcome (list nat)) → Prop :=
| level_found path j c m : l !! j = Some c → walk c (reverse path) = Some m →
    deepest (forest_nodes l) m → finds_level i l (Ok (Found (path ++ [(i + j)%nat])))
| level_failure b : no_match (forest_nodes l) → (b = true ↔ ∃ c, c ∈ l ∧ anc (hash c) h) →
    finds_level i l (Ok (Failure b)).

(** Two branches cannot both lead to [h]. *)
Lemma anc_one_branch c l m :
  wf_node c → wf_forest l → (∀ b, b ∈ l → incomparable c b) →
  anc (hash c) h → m ∈ forest_nodes l → ¬ anc (hash m) h.
Proof using Ancestry0.
  intros Hc Hl Hi Hch Hm Hmh. destruct (wf_root_of l m Hm Hl) as (r&Hr&_&Hrm).
  assert (anc (hash r) h) as Hrh by (destruct Hrm as [->|]; [done|by eapply anc_trans]).
  destruct (Hi r Hr) as (?&?&?). destruct (anc_chain _ _ _ Hch Hrh) as [|[]]; done.
Qed.

Lemma anc_above n m : wf_node n → m ∈ nodes n → anc (hash m) h → anc (hash n) h.
Proof using Ancestry0. intros Hn Hm Ha. destruct (wf_node_desc n m Hn Hm) as [->|]; [done|by eapply anc_trans]. Qed.

Lemma find_level_ok find i l :
  wf_forest l → Forall (λ c, finds_node c (find c)) l →
  finds_level i l (find_in_children find i l).
Proof using Ancestry0.
  intros Hl Hf. revert i. induction Hf as [|c l Hc Hf IH]; intros i; simpl.
  { constructor; [by intros ? ?%not_elem_of_nil|]. split; [done|]. intros (c&?%not_elem_of_nil&_); done. }
  apply wf_forest_cons in Hl as (Hwc&Hwl&Hi).
  inversion Hc as [path m Hw (Hm&Ha&Hp&Hd) Heq|Hno Heq]; simpl.
  - replace (path ++ [i]) with (path ++ [(i + 0)%nat]) by (repeat f_equal; lia).
    eapply (level_found _ _ _ 0); [done..|].
    split_and!; [by apply elem_of_app; left|done..|]. intros m' [Hm'|Hm']%elem_of_app Ha'; [auto|].
    exfalso. eapply (anc_one_branch c l m'); eauto using anc_above.
  - destruct (decide (anc (hash c) h)) as [Ha|Ha].
    + rewrite bool_decide_eq_true_2 by done. constructor; [|split; [|done]; intros _; exists c; split; [by left|done]].
      intros m [Hm|Hm]%elem_of_app Hmh; [auto|]. exfalso. by eapply (anc_one_branch c l m).
    + rewrite bool_decide_eq_false_2 by done.
      assert (∀ m, m ∈ nodes c → ¬ anc (hash m) h) as Hnc by eauto using anc_above.
      destruct (IH Hwl (S i)) as [path j x m Hj Hw (Hm&Ham&Hp&Hd)|b Hno' Hb].
      * replace (S i + j)%nat with (i + S j)%nat by lia.
        eapply (level_found _ _ _ (S j)); [done..|]. split_and!; [by apply elem_of_app; right|done..|].
        intros m' [Hm'|Hm']%elem_of_app Ha'; [by destruct (Hnc m')|auto].
      * constructor; [|rewrite Hb; split; intros (x&Hx&Hxa); exists x].
        2: by split; [right|].
        2: by apply elem_of_cons in Hx as [->|Hx].
        intros m [Hm|Hm]%elem_of_app Hmh; [by destruct (Hnc m)|auto].
Qed.

Lemma find_node_ok n :
  known h → wf_node n → finds_node n (find_node_index_where isd pred h (num h) n).
Proof using Ancestry0.
  intros Hk. induction n as [sh sn sd cs IH] using Node_strong_ind. intros Hn.
  pose proof (wf_node_children _ Hn) as Hcs. cbn [children] in Hcs.
  destruct (Hn _ (nodes_self _)) as (Hks&Hnum&_&_). cbn [number hash] in Hks, Hnum. simpl.
  destruct (num h <? sn) eqn:Hlt.
  { apply Z.ltb_lt in Hlt.
    replace false with (bool_decide (anc (hash (MkNode sh sn sd cs)) h)).
    - apply node_failure. intros m Hm Ha. exfalso.
      apply (anc_above _ m Hn Hm), anc_num in Ha. cbn [hash] in Ha. lia.
    - apply bool_decide_eq_false_2. cbn [hash]. intros ?%anc_num. lia. }
  pose proof (find_level_ok (find_node_index_where isd pred h (num h)) 0 cs Hcs) as Hlev.
  destruct Hlev as [path j c m Hj Hw (Hm&Ha&Hp&Hd)|b Hno Hb]; simpl.
  { rewrite Forall_forall in IH |- *. eauto with fork_tree. }
  - apply (node_found _ _ m).
    + rewrite reverse_app. simpl. by rewrite Hj.
    + rewrite nodes_eq. cbn [children]. split_and!; [by right|done..|].
      intros m' [->|Hm']%elem_of_cons Ha' Hp'; [|auto]. cbn [number].
      rewrite Hnum. assert (anc sh (hash m)) as Hsm by (by apply (wf_node_below _ m Hn)).
      apply anc_num in Hsm. destruct Hcs as [_ Hcs]. destruct (Hcs m Hm) as (_&->&_). lia.
  - assert ((if b then Ok true else query isd sh h) = @Ok Error bool (bool_decide (anc sh h))) as ->.
    { rewrite query_anc by done. destruct b; [|done]. rewrite bool_decide_eq_true_2; [done|].
      destruct (proj1 Hb eq_refl) as (c&Hc&Ha). eapply anc_trans; [|exact Ha].
      by apply (wf_node_child _ c Hn). }
    simpl. destruct (bool_decide (anc sh h) && pred sd) eqn:Hbp.
    + apply andb_true_iff in Hbp as [Hsh%bool_decide_eq_true Hp].
      apply (node_found _ _ (MkNode sh sn sd cs)); [done|]. rewrite nodes_eq. cbn [children].
      split_and!; [by left|done..|]. intros m' [->|Hm']%elem_of_cons Ha' Hp'; [done|].
      by rewrite (Hno m' Hm' Ha') in Hp'.
    + apply (node_failure (MkNode sh sn sd cs)). rewrite nodes_eq. cbn [children].
      intros m [->|Hm]%elem_of_cons Ha; [|by apply Hno]. cbn [hash data] in *.
      by rewrite bool_decide_eq_true_2 in Hbp.
Qed.

Lemma find_roots_ok l :
  known h → wf_forest l →
  match find_in_roots isd pred h (num h) l with
  | Ok (Some m) => deepest (forest_nodes l) m
  | Ok None => no_match (forest_nodes l)
  | _ => False
  end.
Proof using Ancestry0.
  intros Hk. induction l as [|c l IH]; intros Hl; simpl; [by intros ? ?%not_elem_of_nil|].
  apply wf_forest_cons in Hl as (Hwc&Hwl&Hi). specialize (IH Hwl).
  unfold node_find_node_where. destruct (find_node_ok c Hk Hwc) as [path m Hw (Hm&Ha&Hp&Hd)|Hno]; simpl.
  - rewrite Hw. simpl. split_and!; [by apply elem_of_app; left|done..|].
    intros m' [Hm'|Hm']%elem_of_app Ha'; [auto|].
    exfalso. eapply (anc_one_branch c l m'); eauto using anc_above.
  - destruct (find_in_roots isd pred h (num h) l) as [[m|]| |]; [|by intros m [?|?]%elem_of_app; auto|done|done].
    destruct IH as (Hm&Ha&Hp&Hd). split_and!; [by apply elem_of_app; right|done..|].
    intros m' [Hm'|Hm']%elem_of_app Ha' Hp'; [|auto]. by rewrite (Hno m') in Hp'.
Qed.
End searching.

(** ** Finalizing *)

Lemma iterate_ok fuel stack :
  (forest_size stack ≤ fuel)%nat → iterate fuel stack = forest_nodes (reverse stack).
Proof.
  rewrite forest_size_length. revert stack. induction fuel as [|fuel IH]; intros stack Hf; simpl.
  - destruct stack as [|n stack]; [done|]. simpl in Hf. rewrite length_app, nodes_eq in Hf. simpl in Hf. lia.
  - destruct (last stack) as [n|] eqn:Hl; [|by apply last_None in Hl as ->].
    apply last_Some in Hl as [k ->]. rewrite length_app. simpl. rewrite Nat.add_1_r. simpl.
    rewrite take_app_length, reverse_snoc. simpl. rewrite nodes_eq. simpl. f_equal.
    rewrite IH, reverse_app, reverse_involutive, flat_map_app; [done|].
    rewrite flat_map_app, length_app in Hf |- *. simpl in Hf. rewrite app_nil_r, nodes_eq in Hf. simpl in Hf.
    rewrite (forest_nodes_perm (reverse _) (children n)) by apply reverse_Permutation. lia.
Qed.

Section finalizing.
Context (h : H).

(** The nodes that descend from the finalized block, in place. *)
Definition below (l : list Node) : list Node :=
  filter (λ m, anc h (hash m)) (forest_nodes l).

Lemma below_app l1 l2 : below (l1 ++ l2) = below l1 ++ below l2.
Proof. unfold below. by rewrite flat_map_app, filter_app. Qed.

Lemma below_cons r l : below (r :: l) = below [r] ++ below l.
Proof. apply (below_app [r] l). Qed.

Lemma below_perm l1 l2 : l1 ≡ₚ l2 → below l1 ≡ₚ below l2.
Proof. intros Hp. unfold below. by rewrite (forest_nodes_perm _ _ Hp). Qed.

(** The four positions of a root relative to the finalized block. *)
Lemma below_descendant r : wf_node r → anc h (hash r) → below [r] = nodes r.
Proof using Ancestry0.
  intros Hr Ha. unfold below. simpl. rewrite app_nil_r. apply filter_all. intros m Hm.
  destruct (wf_node_desc r m Hr Hm) as [->|]; [done|by eapply anc_trans].
Qed.

Lemma below_finalized r : wf_node r → hash r = h → below [r] = forest_nodes (children r).
Proof using Ancestry0.
  intros Hr Ha. unfold below. simpl. rewrite app_nil_r, nodes_eq, filter_cons_False.
  - apply filter_all. intros m Hm. rewrite <- Ha. by apply wf_node_below.
  - rewrite Ha. apply anc_irrefl.
Qed.

Lemma below_ancestor r : wf_node r → anc (hash r) h → below [r] = below (children r).
Proof using Ancestry0.
  intros Hr Ha. unfold below. simpl. rewrite app_nil_r, nodes_eq, filter_cons_False; [done|].
  intros Ha'. eapply anc_irrefl, anc_trans; eauto.
Qed.

Lemma below_unrelated r :
  wf_node r → hash r ≠ h → ¬ anc (hash r) h → ¬ anc h (hash r) → below [r] = [].
Proof using Ancestry0.
  intros Hr H1 H2 H3. unfold below. simpl. rewrite app_nil_r. apply filter_none. intros m Hm Ha.
  destruct (wf_node_desc r m Hr Hm) as [->|Hd]; [done|].
  destruct (anc_chain _ _ _ Ha Hd) as [|[|]]; naive_solver.
Qed.

Lemma below_others r l :
  wf_forest l → (∀ b, b ∈ l → incomparable r b) → hash r = h → below l = [].
Proof using Ancestry0.
  intros Hl Hi Hr. induction l as [|b l IH]; [done|].
  apply wf_forest_cons in Hl as (Hb&Hl&_). rewrite below_cons, IH; [|done|intros b' Hb'; apply Hi; by right].
  rewrite app_nil_r. destruct (Hi b) as (H1&H2&H3); [by left|].
  rewrite Hr in H1, H2, H3. by apply below_unrelated.
Qed.

(** A root is opened: its children take its place. *)
Lemma wf_open r l : wf_forest (r :: l) → wf_forest (l ++ children r).
Proof using Ancestry0.
  intros (Hr&Hl&Hi)%wf_forest_cons. pose proof (wf_node_children r Hr) as Hc.
  apply wf_forest_intro.
  - rewrite antichain_app. split; [apply Hl|split; [apply (proj1 Hc)|]]. intros a b Ha Hb.
    pose proof (wf_node_child r b Hr Hb) as Hrb. destruct (Hi a Ha) as (H1&H2&H3).
    split; [|split].
    + intros Heq. apply H2. by rewrite Heq.
    + intros Hab. destruct (anc_chain _ _ _ Hrb Hab) as [|[]]; done.
    + intros Hba. apply H2. by eapply anc_trans.
  - intros n [Hn|Hn]%elem_of_app; [by eapply (wf_forest_node l)|by eapply (wf_forest_node (children r))].
Qed.

Lemma finalize_root_at_ok t i r :
  wf_forest (roots t) → roots t !! i = Some r → hash r = h →
  ∃ t', finalize_root_at t i = Some (t', data r) ∧ wf_forest (roots t') ∧
    best_finalized_number t' = Some (num h) ∧ forest_nodes (roots t') ≡ₚ below (roots t).
Proof using Ancestry0.
  intros Hwf Hi Hr. unfold finalize_root_at.
  destruct (swap_remove_is_Some i (roots t)) as [[r' l] Hs]; [by eapply lookup_lt_Some|].
  pose proof (swap_remove_lookup _ _ _ _ Hs) as Hi'. rewrite Hi in Hi'. simplify_eq.
  pose proof (swap_remove_perm _ _ _ _ Hs) as Hp.
  pose proof (wf_forest_perm _ _ Hp Hwf) as (Hwr&Hwl&Hinc)%wf_forest_cons.
  rewrite Hs. simpl. eexists. split_and!; [done| | |]; cbn [roots best_finalized_number].
  - by apply wf_node_children.
  - by rewrite (wf_node_number r'), Hr.
  - rewrite (below_perm _ _ Hp), below_cons, (below_finalized r'), (below_others r' l) by done.
    by rewrite app_nil_r.
Qed.

Lemma finalize_root_ok t :
  wf_forest (roots t) →
  match finalize_root t h with
  | Some (t', v) => ∃ r, r ∈ roots t ∧ hash r = h ∧ v = data r ∧ wf_forest (roots t') ∧
      best_finalized_number t' = Some (num h) ∧ forest_nodes (roots t') ≡ₚ below (roots t)
  | None => ∀ r, r ∈ roots t → hash r ≠ h
  end.
Proof using Ancestry0.
  intros Hwf. unfold finalize_root.
  destruct (position _ (roots t)) as [i|] eqn:Hpos; simpl.
  - apply position_Some in Hpos as [(r&Hi&Hr%bool_decide_eq_true) _].
    destruct (finalize_root_at_ok t i r Hwf Hi Hr) as (t'&->&?&?&?).
    exists r. split_and!; [by eapply list_elem_of_lookup_2|done..].
  - intros r Hr. rewrite position_None in Hpos. specialize (Hpos r Hr).
    by apply bool_decide_eq_false in Hpos.
Qed.

(** The answer when the finalized block itself is not in the tree. *)
Definition dropped_any (l : list Node) : bool :=
  negb (bool_decide (Forall (λ m, anc h (hash m)) (forest_nodes l))).

Lemma dropped_any_all l : wf_forest l → (∀ r, r ∈ l → anc h (hash r)) → dropped_any l = false.
Proof using Ancestry0.
  intros Hl Ha. unfold dropped_any. rewrite bool_decide_eq_true_2; [done|].
  rewrite Forall_forall. intros m Hm. destruct (wf_root_of l m Hm Hl) as (r&Hr&_&[->|Hrm]); [auto|].
  eapply anc_trans; [by apply Ha|done].
Qed.

Lemma dropped_any_some l r : r ∈ l → ¬ anc h (hash r) → dropped_any l = true.
Proof.
  intros Hr Ha. unfold dropped_any. rewrite bool_decide_eq_false_2; [done|].
  rewrite Forall_forall. intros Hall. apply Ha, Hall, elem_of_forest_nodes. eauto using nodes_self.
Qed.

(** What finalizing reports: the data of the block when it is in the tree,
    otherwise whether anything was dropped. *)
Definition reported (l : list Node) (changed : bool) (v : FinalizationResult) : Prop :=
  (∀ m, m ∈ forest_nodes l → hash m = h → v = Changed (Some (data m))) ∧
  (h ∉ hashes l → v = if changed || dropped_any l then Changed None else Unchanged).

Lemma root_in_forest r l : r ∈ l → r ∈ forest_nodes l.
Proof. intros Hr. apply elem_of_forest_nodes. eauto using nodes_self. Qed.

Lemma reported_root l r changed :
  wf_forest l → r ∈ l → hash r = h → reported l changed (Changed (Some (data r))).
Proof using Ancestry0.
  intros Hl Hr Hrh. split.
  - intros m Hm Hmh. do 2 f_equal. f_equal.
    eapply (wf_forest_hash_inj l); eauto using root_in_forest. congruence.
  - intros []. apply elem_of_hashes. eauto using root_in_forest.
Qed.

Lemma reported_all l changed :
  wf_forest l → (∀ r, r ∈ l → anc h (hash r)) →
  reported l changed (if changed then Changed None else Unchanged).
Proof using Ancestry0.
  intros Hl Ha. split.
  - intros m Hm Hmh. exfalso. destruct (wf_root_of _ m Hm Hl) as (r&Hr&_&Hrm).
    specialize (Ha r Hr). destruct Hrm as [->|Hrm]; rewrite Hmh in *.
    + by apply anc_irrefl in Ha.
    + eapply anc_irrefl, anc_trans; eauto.
  - intros _. by rewrite dropped_any_all, orb_false_r.
Qed.

(** Dropping nodes other than the finalized block and its descendants. *)
Lemma reported_step l l' r changed v :
  r ∈ l → ¬ anc h (hash r) →
  (∀ m, m ∈ forest_nodes l → hash m = h → m ∈ forest_nodes l') →
  (∀ m, m ∈ forest_nodes l' → m ∈ forest_nodes l) →
  reported l' true v → reported l changed v.
Proof.
  intros Hr Hrh Hsub Hsup [Hv1 Hv2]. split; [by auto|].
  intros Hnin. rewrite Hv2; simpl; [by rewrite (dropped_any_some _ r), orb_true_r|].
  intros (m&Hm&Hmh)%elem_of_hashes. apply Hnin, elem_of_hashes. eauto.
Qed.

Lemma node_size_children n : node_size n = S (forest_size (children n)).
Proof. by destruct n. Qed.

Lemma forest_size_perm l1 l2 : l1 ≡ₚ l2 → forest_size l1 = forest_size l2.
Proof. intros Hp. rewrite !forest_size_length. by rewrite (forest_nodes_perm _ _ Hp). Qed.

Lemma forest_size_app l1 l2 : forest_size (l1 ++ l2) = (forest_size l1 + forest_size l2)%nat.
Proof. by rewrite !forest_size_length, flat_map_app, length_app. Qed.

(** One iteration of the loop, its three tests read as positions of the root
    at [idx] relative to the finalized block. *)
Lemma fwa_loop_step fuel t idx changed root :
  known h → wf_node root → roots t !! idx = Some root →
  fwa_loop isd (S fuel) h (num h) t idx changed =
  if decide (hash root = h) then
    match finalize_root_at t idx with
    | Some (t', v) => Some (t', Ok (Changed (Some v)))
    | None => Some (t, Panic)
    end
  else if decide (anc h (hash root)) then fwa_loop isd fuel h (num h) t (S idx) changed
  else
    match swap_remove idx (roots t) with
    | None => Some (t, Panic)
    | Some (root, rs) =>
        fwa_loop isd fuel h (num h)
          (MkForkTree (if decide (anc (hash root) h) then rs ++ children root else rs)
             (best_finalized_number t)) idx true
    end.
Proof using Ancestry0.
  intros Hk Hwr Hroot. simpl. rewrite decide_False; [|apply lookup_lt_Some in Hroot; lia].
  rewrite Hroot, !unwrap_anc, (wf_node_number root Hwr) by auto with fork_tree.
  destruct (decide (hash root = h)) as [Heq|Hne]; [by rewrite bool_decide_eq_true_2|].
  rewrite bool_decide_eq_false_2 by done. simpl.
  destruct (decide (anc h (hash root))) as [Hd|Hd].
  - rewrite bool_decide_eq_true_2 by done. by rewrite (proj2 (Z.ltb_lt _ _)) by (by apply anc_num).
  - rewrite bool_decide_eq_false_2, andb_false_r by done. simpl.
    destruct (swap_remove idx (roots t)) as [[root' rs]|] eqn:Hs; [|done].
    apply swap_remove_lookup in Hs. rewrite Hroot in Hs. injection Hs as <-.
    destruct (decide (anc (hash root) h)) as [Ha|Ha].
    + rewrite bool_decide_eq_true_2 by done. by rewrite (proj2 (Z.ltb_lt _ _)) by (by apply anc_num).
    + by rewrite bool_decide_eq_false_2, andb_false_r.
Qed.

(** Opening an ancestor or dropping an unrelated root leaves the descendants of
    the finalized block in place. *)
Lemma fwa_drop_root t root rs :
  let rs' := if decide (anc (hash root) h) then rs ++ children root else rs in
  wf_forest (roots t) → roots t ≡ₚ root :: rs → hash root ≠ h → ¬ anc h (hash root) →
  wf_forest rs' ∧ below rs' ≡ₚ below (roots t) ∧
  ∀ changed v, reported rs' true v → reported (roots t) changed v.
Proof using Ancestry0.
  intros rs' Hwf Hp Hne Hnd. pose proof (wf_forest_perm _ _ Hp Hwf) as Hwp.
  pose proof Hwp as (Hwr&Hwl&_)%wf_forest_cons.
  assert (root ∈ roots t) as Hin by (rewrite Hp; by left).
  subst rs'. case_decide as Ha; split_and!.
  - by apply wf_open.
  - rewrite (below_perm _ _ Hp), below_app, below_cons, (below_ancestor root) by done.
    solve_Permutation.
  - assert (forest_nodes (roots t) ≡ₚ root :: forest_nodes (rs ++ children root)) as Hfn.
    { rewrite (forest_nodes_perm _ _ Hp). simpl. rewrite flat_map_app, nodes_eq. solve_Permutation. }
    intros changed v. apply (reported_step _ _ root); [done..| |]; intros m; rewrite Hfn;
      [intros [->|]%elem_of_cons; done|by right].
  - done.
  - by rewrite (below_perm _ _ Hp), below_cons, (below_unrelated root).
  - intros changed v. apply (reported_step _ _ root); [done..| |]; intros m;
      rewrite (forest_nodes_perm _ _ Hp); simpl; [|intros; apply elem_of_app; by right].
    intros [Hm|Hm]%elem_of_app Hmh; [|done].
    destruct (wf_node_desc root m Hwr Hm) as [->|Hd]; [done|]. by rewrite Hmh in Hd.
Qed.

(** [finalize_with_ancestors] does not run out of iterations: an iteration
    either skips the subtree at [idx] or removes one node. *)
Lemma fwa_loop_ok fuel t idx changed :
  known h → wf_forest (roots t) → (idx ≤ length (roots t))%nat →
  (∀ r, r ∈ take idx (roots t) → anc h (hash r)) →
  (forest_size (drop idx (roots t)) < fuel)%nat →
  ∃ t' v, fwa_loop isd fuel h (num h) t idx changed = Some (t', Ok v) ∧
    wf_forest (roots t') ∧ best_finalized_number t' = Some (num h) ∧
    forest_nodes (roots t') ≡ₚ below (roots t) ∧ reported (roots t) changed v.
Proof using Ancestry0.
  intros Hk. revert t idx changed. induction fuel as [|fuel IH]; intros t idx changed Hwf Hidx Hpre Hfuel; [lia|].
  destruct (roots t !! idx) as [root|] eqn:Hroot.
  2:{ apply lookup_ge_None in Hroot. simpl. rewrite decide_True by lia.
      rewrite take_ge in Hpre by lia. eexists _, _.
      split_and!; [done|done|done| |by apply reported_all]; cbn [roots].
      unfold below. rewrite filter_all; [done|]. intros m Hm.
      destruct (wf_root_of _ m Hm Hwf) as (r&Hr&_&[->|Hrm]); [auto|].
      eapply anc_trans; [by apply Hpre|done]. }
  assert (root ∈ roots t) as Hin by (by eapply list_elem_of_lookup_2).
  pose proof (wf_forest_node _ _ Hwf Hin) as Hwr.
  rewrite (fwa_loop_step _ _ _ _ _ Hk Hwr Hroot). pose proof (lookup_lt_Some _ _ _ Hroot) as Hlt.
  case_decide as Heq; [|case_decide as Hd].
  - destruct (finalize_root_at_ok t idx root Hwf Hroot Heq) as (t'&->&Hw'&Hb'&Hn').
    eexists _, _. split_and!; [done..|by apply reported_root].
  - apply IH; [done|lia| |].
    + rewrite (take_S_r _ _ _ Hroot). intros r [?| ->%list_elem_of_singleton]%elem_of_app; auto.
    + rewrite (drop_S _ _ _ Hroot) in Hfuel. simpl in Hfuel. rewrite node_size_children in Hfuel. lia.
  - destruct (swap_remove_is_Some idx (roots t)) as [[root' rs] Hs]; [lia|].
    pose proof (swap_remove_lookup _ _ _ _ Hs) as Hr'. rewrite Hroot in Hr'.
    injection Hr' as <-. rewrite Hs.
    destruct (swap_remove_split _ _ _ _ Hs) as [Htake Hdrop%forest_size_perm].
    pose proof (swap_remove_perm _ _ _ _ Hs) as Hp. simpl in Hdrop. rewrite node_size_children in Hdrop.
    assert (length (roots t) = S (length rs)) as Hlen by (by rewrite Hp).
    destruct (fwa_drop_root t root rs Hwf Hp Heq Hd) as (Hw1&Hb1&Hv1).
    set (rs' := if decide (anc (hash root) h) then rs ++ children root else rs) in *.
    assert (take idx rs' = take idx (roots t) ∧ length rs ≤ length rs' ∧
      forest_size (drop idx rs') ≤ forest_size (drop idx rs) + forest_size (children root))%nat as (Ht&Hl&Hsz).
    { subst rs'. case_decide; [|by split_and!; try lia].
      rewrite take_app_le, drop_app_le, length_app, forest_size_app by lia. split_and!; [done|lia..]. }
    destruct (IH (MkForkTree rs' (best_finalized_number t)) idx true)
      as (t'&v&->&Hw'&Hb'&Hn'&Hv); cbn [roots] in *; [done|lia|by rewrite Ht|lia|].
    eexists _, _. split_and!; [done..|by rewrite Hn', Hb1|by apply Hv1].
Qed.

(** [finalize]'s guard: a root below the block has to be finalized first. *)
Lemma check_unfinalized_ok l :
  known h → wf_forest l →
  check_unfinalized isd h (num h) l =
  if decide (Exists (λ r, anc (hash r) h) l) then Err UnfinalizedAncestor else Ok tt.
Proof using Ancestry0.
  intros Hk. induction l as [|r l IH]; intros Hl; [done|]. cbn [check_unfinalized].
  apply wf_forest_cons in Hl as (Hr&Hl&_).
  rewrite query_anc, (wf_node_number r Hr) by auto with fork_tree.
  assert ((if num (hash r) <? num h then Ok (bool_decide (anc (hash r) h)) else Ok false)
          = @Ok Error bool (bool_decide (anc (hash r) h))) as ->.
  { destruct (Z.ltb_spec (num (hash r)) (num h)) as [|Hle]; [done|]. f_equal. symmetry.
    apply bool_decide_eq_false_2. intros ?%anc_num. lia. }
  cbn [mbind result_bind]. destruct (decide (anc (hash r) h)) as [Ha|Ha].
  - rewrite bool_decide_eq_true_2 by done.
    by destruct (decide (Exists _ (r :: l))) as [|[]]; [|by left].
  - rewrite bool_decide_eq_false_2, IH by done.
    destruct (decide (Exists _ l)) as [He|He], (decide (Exists _ (r :: l))) as [He'|He'];
      rewrite Exists_cons in He'; naive_solver.
Qed.

Lemma below_retain l :
  wf_forest l → (∀ r, r ∈ l → hash r ≠ h ∧ ¬ anc (hash r) h) →
  forest_nodes (filter (λ r, anc h (hash r)) l) = below l.
Proof using Ancestry0.
  intros Hl Hr. induction l as [|r l IH]; [done|].
  apply wf_forest_cons in Hl as (Hwr&Hl&_). destruct (Hr r) as [H1 H2]; [by left|].
  assert (∀ b, b ∈ l → hash b ≠ h ∧ ¬ anc (hash b) h) as Hr' by (intros; apply Hr; by right).
  rewrite below_cons, <- IH by done. rewrite filter_cons. case_decide as Ha; simpl.
  - by rewrite below_descendant.
  - by rewrite below_unrelated.
Qed.

Lemma wf_filter l (P : Node → Prop) `{!∀ x, Decision (P x)} : wf_forest l → wf_forest (filter P l).
Proof.
  intros Hl. apply wf_forest_intro.
  - destruct Hl as [Hl _]. unfold antichain in *. induction Hl as [|r l Hr Hl IH]; [constructor|].
    rewrite filter_cons. case_decide; [|done]. constructor; [|done].
    rewrite Forall_forall in Hr |- *. intros x [_ Hx]%list_elem_of_filter. auto.
  - intros n [_ Hn]%list_elem_of_filter. by eapply wf_forest_node.
Qed.

End finalizing.

(** ** Finalizing with a predicate *)

Section predicate.
Context (h : H) (pred : V → bool).

Lemma same_or_descendent_ok n :
  known h → known (hash n) →
  same_or_descendent isd h n = Ok (bool_decide (hash n = h ∨ anc (hash n) h)).
Proof using Ancestry0.
  intros Hk Hn. unfold same_or_descendent. case_decide as Heq.
  - by rewrite bool_decide_eq_true_2 by (by left).
  - rewrite query_anc by done. f_equal. apply bool_decide_ext. naive_solver.
Qed.

Lemma check_children_ok l :
  known h → (∀ c, c ∈ l → known (hash c) ∧ number c = num (hash c)) →
  check_children isd h (num h) l =
  if decide (Exists (λ c, anc (hash c) h) l) then Err UnfinalizedAncestor else Ok tt.
Proof using Ancestry0.
  intros Hk. induction l as [|c l IH]; intros Hl; [done|]. cbn [check_children].
  destruct (Hl c) as [Hkc ->]; [by left|]. rewrite query_anc by done.
  assert ((if num (hash c) <=? num h then Ok (bool_decide (anc (hash c) h)) else Ok false)
          = @Ok Error bool (bool_decide (anc (hash c) h))) as ->.
  { destruct (Z.leb_spec (num (hash c)) (num h)) as [|Hle]; [done|]. f_equal. symmetry.
    apply bool_decide_eq_false_2. intros ?%anc_num. lia. }
  cbn [mbind result_bind]. assert (∀ c, c ∈ l → known (hash c) ∧ number c = num (hash c)) as Hl'.
  { intros; apply Hl; by right. }
  destruct (decide (anc (hash c) h)) as [Ha|Ha].
  - rewrite bool_decide_eq_true_2 by done.
    by destruct (decide (Exists _ (c :: l))) as [|[]]; [|by left].
  - rewrite bool_decide_eq_false_2, IH by done.
    destruct (decide (Exists _ l)) as [He|He], (decide (Exists _ (c :: l))) as [He'|He'];
      rewrite Exists_cons in He'; naive_solver.
Qed.

(** The block is a root or descends from it, and the root passes. *)
Definition candidate (r : Node) : Prop :=
  (hash r = h ∨ anc (hash r) h) ∧ pred (data r) = true.

#[export] Instance candidate_dec r : Decision (candidate r).
Proof. unfold candidate. apply _. Defined.

Lemma candidate_unique r l :
  wf_forest (r :: l) → hash r = h ∨ anc (hash r) h → ∀ b, b ∈ l → ¬ candidate b.
Proof using Ancestry0.
  intros (_&_&Hi)%wf_forest_cons Hr b Hb [Hbh _]. destruct (Hi b Hb) as (H1&H2&H3).
  destruct Hr as [Hr|Hr], Hbh as [Hbh|Hbh]; rewrite ?Hr, ?Hbh in *; try done.
  destruct (anc_chain _ _ _ Hr Hbh) as [|[]]; done.
Qed.

Lemma scan_none l i :
  known h → (∀ r, r ∈ l → known (hash r)) → (∀ r, r ∈ l → ¬ candidate r) →
  scan isd pred h (num h) i l = Ok None.
Proof using Ancestry0.
  intros Hk. revert i. induction l as [|r l IH]; intros i Hkl Hl; [done|]. cbn [scan].
  assert (∀ b, b ∈ l → known (hash b)) as Hkl' by (intros; apply Hkl; by right).
  assert (∀ b, b ∈ l → ¬ candidate b) as Hl' by (intros; apply Hl; by right).
  destruct (pred (data r)) eqn:Hp; [|by apply IH].
  rewrite same_or_descendent_ok by (try apply Hkl; done || by left). cbn [mbind result_bind].
  rewrite bool_decide_eq_false_2; [by apply IH|]. intros Hr.
  by apply (Hl r); [left|split].
Qed.

Lemma scan_some l i r :
  known h → wf_forest l → r ∈ l → candidate r →
  ∃ j, l !! j = Some r ∧
    scan isd pred h (num h) i l =
    if decide (Exists (λ c, anc (hash c) h) (children r)) then Err UnfinalizedAncestor
    else Ok (Some ((i + j)%nat, r)).
Proof using Ancestry0.
  intros Hk Hl Hr Hc. revert i. induction l as [|b l IH]; intros i; [by apply not_elem_of_nil in Hr|].
  pose proof Hl as (Hb&Hl'&_)%wf_forest_cons. cbn [scan].
  apply elem_of_cons in Hr as [<-|Hr].
  - exists 0%nat. split; [done|]. destruct Hc as [Hc ->].
    rewrite same_or_descendent_ok, bool_decide_eq_true_2 by auto with fork_tree.
    cbn [mbind result_bind]. rewrite check_children_ok; [|done|].
    + rewrite Nat.add_0_r. by case_decide.
    + intros c Hcr. assert (wf_node c) as Hwc.
      { eapply wf_forest_node; [by apply wf_node_children|done]. }
      auto with fork_tree.
  - destruct (IH Hl' Hr (S i)) as (j&Hj&Hs). exists (S j). split; [done|].
    assert (¬ (hash b = h ∨ anc (hash b) h)) as Hnb.
    { intros Hb'. by apply (candidate_unique b l Hl Hb' r). }
    rewrite same_or_descendent_ok, bool_decide_eq_false_2 by auto with fork_tree.
    cbn [mbind result_bind]. rewrite Nat.add_succ_r, <- Nat.add_succ_l. by destruct (pred (data b)).
Qed.

(** On the branch of the finalized block: above it, equal to it or below it. *)
Definition on_branch (r : Node) : Prop :=
  hash r = h ∨ anc h (hash r) ∨ anc (hash r) h.

#[export] Instance on_branch_dec r : Decision (on_branch r).
Proof. unfold on_branch. apply _. Defined.

Lemma keep_on_branch r :
  known h → wf_node r → related isd h (num h) r = bool_decide (on_branch r).
Proof using Ancestry0.
  intros Hk Hr. unfold related.
  rewrite !unwrap_anc, (wf_node_number r Hr) by auto with fork_tree.
  destruct (decide (on_branch r)) as [Hb|Hb];
    [rewrite (bool_decide_eq_true_2 (on_branch r)) by done
    |rewrite (bool_decide_eq_false_2 (on_branch r)) by done].
  - destruct Hb as [Hb|[Hb|Hb]].
    + rewrite Hb, Z.eqb_refl, (bool_decide_eq_true_2 (h = h)) by done. by rewrite orb_true_r.
    + rewrite bool_decide_eq_true_2 by done.
      by rewrite (proj2 (Z.ltb_lt _ _)) by (by apply anc_num).
    + rewrite (bool_decide_eq_true_2 (anc (hash r) h)) by done. by rewrite orb_true_r.
  - unfold on_branch in Hb. rewrite !bool_decide_eq_false_2 by naive_solver.
    by rewrite !andb_false_r.
Qed.
End predicate.

(** ** Helpers for the theorems *)

Lemma nodes_trans x y z : y ∈ nodes x → z ∈ nodes y → z ∈ nodes x.
Proof.
  induction x as [h k d cs IH] using Node_strong_ind. intros Hy Hz.
  rewrite nodes_eq in Hy |- *. apply elem_of_cons in Hy as [->|Hy]; [by rewrite <- nodes_eq|].
  right. cbn [children] in *. apply elem_of_forest_nodes in Hy as (c&Hc&Hy).
  apply elem_of_forest_nodes. rewrite Forall_forall in IH. eauto.
Qed.

Lemma wf_forest_subnode l m : wf_forest l → m ∈ forest_nodes l → wf_node m.
Proof.
  intros [_ Hl] (r&Hr&Hm)%elem_of_forest_nodes x Hx. apply Hl, elem_of_forest_nodes.
  eauto using nodes_trans.
Qed.

Lemma leads_to_ok h c :
  known h → wf_node c → leads_to isd h (num h) c = bool_decide (hash c = h ∨ anc (hash c) h).
Proof using Ancestry0.
  intros Hk Hc. unfold leads_to.
  rewrite unwrap_anc, (wf_node_number c Hc) by auto with fork_tree.
  destruct (decide (hash c = h)) as [Heq|Hne].
  - rewrite (bool_decide_eq_true_2 (_ ∨ _)) by (by left).
    rewrite Heq, Z.eqb_refl, bool_decide_eq_true_2 by done. done.
  - rewrite (bool_decide_eq_false_2 (hash c = h)), andb_false_r by done. simpl.
    destruct (decide (anc (hash c) h)) as [Ha|Ha].
    + rewrite !bool_decide_eq_true_2 by naive_solver.
      by rewrite (proj2 (Z.ltb_lt _ _)) by (by apply anc_num).
    + rewrite !bool_decide_eq_false_2 by naive_solver. by rewrite andb_false_r.
Qed.

(** At most one node of a level is the block or an ancestor of it. *)
Lemma one_branch h l :
  wf_forest l → (length (filter (λ c, hash c = h ∨ anc (hash c) h) l) ≤ 1)%nat.
Proof using Ancestry0.
  induction l as [|c l IH]; intros Hl; simpl; [lia|].
  pose proof Hl as (_&Hl'&_)%wf_forest_cons. rewrite filter_cons. case_decide as Hc; [|by apply IH].
  rewrite filter_none; [simpl; lia|]. intros b Hb Hbh.
  apply (candidate_unique h (λ _, true) c l Hl Hc b Hb). by split.
Qed.

Lemma reported_retain h l :
  wf_forest l → (∀ r, r ∈ l → hash r ≠ h) → (∀ r, r ∈ l → ¬ anc (hash r) h) →
  reported h l false
    (if negb (bool_decide (Forall (λ r, anc h (hash r)) l)) then Changed None else Unchanged).
Proof using Ancestry0.
  intros Hl H1 H2. split.
  - intros m Hm Hmh. exfalso. destruct (wf_root_of _ m Hm Hl) as (r&Hr&_&[->|Hrm]).
    + by apply (H1 r).
    + apply (H2 r Hr). by rewrite <- Hmh.
  - intros _. cbn [orb]. case_bool_decide as Hall; cbn [negb].
    + rewrite dropped_any_all; [done..|]. by apply Forall_forall.
    + apply not_Forall_Exists in Hall; [|apply _]. apply Exists_exists in Hall as (r&Hr&Ha).
      by rewrite (dropped_any_some _ _ r).
Qed.

(** ** Correctness of the operations *)

Lemma import_ok t h d :
  known h → wf_forest (roots t) → in_order h (roots t) →
  let '(t', r) := import isd t h (num h) d in
  wf_forest (roots t') ∧ best_finalized_number t' = best_finalized_number t ∧
  if reverts t (num h) then t' = t ∧ r = Err Revert
  else if decide (h ∈ hashes (roots t)) then t' = t ∧ r = Err Duplicate
  else entries (roots t') ≡ₚ (h, num h, d) :: entries (roots t) ∧
       r = Ok (bool_decide (Forall (λ m, ¬ anc (hash m) h) (forest_nodes (roots t)))).
Proof using Ancestry0.
  intros Hk Hwf Hord. unfold import. destruct (reverts t (num h)) eqn:Hrev; [done|].
  assert (imports_level h d (roots t) (import_into (root_import isd) (roots t) h (num h) d)) as Hlev.
  { apply import_level_ok; [done|]. apply Forall_forall. intros r Hr. rewrite root_import_eq.
    apply import_node_ok; [done|by eapply wf_forest_node|]. intros m Hm. apply Hord.
    simpl in Hm. rewrite app_nil_r in Hm. apply elem_of_forest_nodes. eauto. }
  inversion Hlev as [Hin Hr|Hin Hna Hr|l' x Hin Hx Hax Hh' Hw' He' Hr].
  - rewrite decide_True by done. by destruct t.
  - rewrite decide_False by done. split; [|split; [done|split]].
    + apply wf_rebalance. cbn [roots]. apply wf_forest_intro.
      * rewrite antichain_app. split; [apply Hwf|split; [repeat constructor|]].
        intros a b Ha ->%list_elem_of_singleton. split_and!; cbn [hash].
        -- intros <-. apply Hin, elem_of_hashes. eauto using root_in_forest.
        -- by apply Hna.
        -- apply Hord, root_in_forest, Ha.
      * intros n [Hn| ->%list_elem_of_singleton]%elem_of_app; [by eapply wf_forest_node|].
        intros m ->%list_elem_of_singleton. split_and!; [done..|by intros c ?%not_elem_of_nil|constructor].
    + rewrite entries_rebalance. cbn [roots]. rewrite entries_app, entries_node.
      change (entries []) with (@nil (H * Z * V)). solve_Permutation.
    + f_equal. symmetry. apply bool_decide_eq_true_2, Forall_forall. intros m Hm Hmh.
      destruct (wf_root_of _ m Hm Hwf) as (r&Hrt&_&[->|Hrm]); [by eapply Hna|].
      eapply Hna; [done|]. by eapply anc_trans.
  - rewrite decide_False by done. split_and!; [done..|].
    f_equal. symmetry. apply bool_decide_eq_false_2. rewrite Forall_forall. intros Hall.
    by eapply Hall; [apply root_in_forest|].
Qed.

(** [import] on a well-formed tree, a branch being imported in order: the
    block is refused when it reverts the last finalized block or is already in
    the tree, and then nothing changes; otherwise it is added, and only it, the
    tree stays well-formed (so it sits under its deepest ancestor, the shape
    being determined by ancestry), and the answer tells whether it is a root,
    that is, whether no block of the tree is an ancestor of it. *)
Theorem import_correct t h d :
  known h → wf_forest (roots t) → in_order h (roots t) →
  let '(t', r) := import isd t h (num h) d in
  wf_forest (roots t') ∧ best_finalized_number t' = best_finalized_number t ∧
  if reverts t (num h) then t' = t ∧ r = Err Revert
  else if decide (h ∈ hashes (roots t)) then t' = t ∧ r = Err Duplicate
  else entries (roots t') ≡ₚ (h, num h, d) :: entries (roots t) ∧
       r = Ok (bool_decide (Forall (λ m, ¬ anc (hash m) h) (forest_nodes (roots t)))).
Proof using Ancestry0. apply import_ok. Qed.

(** [find_node_where] finds the deepest ancestor of the block that passes
    the predicate, and answers [None] only when no ancestor in the tree does;
    it neither fails nor indexes out of range. *)
Theorem find_node_where_correct t h pred :
  known h → wf_forest (roots t) →
  match find_node_where isd t h (num h) pred with
  | Ok (Some m) => deepest h pred (forest_nodes (roots t)) m
  | Ok None => no_match h pred (forest_nodes (roots t))
  | _ => False
  end.
Proof using Ancestry0. apply find_roots_ok. Qed.

Lemma prune_ok t h pred :
  known h → wf_forest (roots t) →
  ∃ t', prune isd t h (num h) pred = (t', Ok tt) ∧ wf_forest (roots t') ∧
    best_finalized_number t' = best_finalized_number t ∧
    ((no_match h pred (forest_nodes (roots t)) ∧ entries (roots t') ≡ₚ entries (roots t)) ∨
     (∃ m, deepest h pred (forest_nodes (roots t)) m ∧
        entries (roots t') ≡ₚ entry m ::
          entries (filter (λ c, hash c = h ∨ anc (hash c) h) (children m)))).
Proof using Ancestry0.
  intros Hk Hwf. unfold prune. pose proof (find_roots_ok h pred (roots t) Hk Hwf) as Hf.
  unfold find_node_where. destruct (find_in_roots isd pred h (num h) (roots t)) as [[m|]| |]; [| |done|done].
  2:{ eexists. split_and!; [done|by apply wf_rebalance|done|left; split; [done|]]. apply entries_rebalance. }
  assert (wf_node m) as Hm by (eapply wf_forest_subnode; [done|apply Hf]).
  destruct m as [mh mn md cs]. pose proof (wf_node_children _ Hm) as Hcs. cbn [children] in Hcs.
  assert (filter (leads_to isd h (num h)) cs = filter (λ c, hash c = h ∨ anc (hash c) h) cs) as Hkeep.
  { refine (f_equal fst (retain_filter _ _ cs _)). intros c Hc. apply leads_to_ok; [done|].
    by eapply wf_forest_node. }
  assert (length (filter (leads_to isd h (num h)) cs) ≤ 1)%nat as Hone by (rewrite Hkeep; by apply one_branch).
  eexists. split_and!; [done| |done|right; eexists; split; [exact Hf|]].
  - apply wf_rebalance. cbn [roots]. rewrite take_ge, Hkeep by done.
    apply wf_forest_intro; [repeat constructor|]. intros n ->%list_elem_of_singleton.
    apply wf_node_intro; [|by apply wf_filter]. split_and!; cbn [number hash children].
    + exact (wf_node_known _ Hm).
    + exact (wf_node_number _ Hm).
    + intros c [_ Hc]%list_elem_of_filter. by apply (wf_node_child _ c Hm).
    + apply (wf_filter cs); done.
  - rewrite entries_rebalance. cbn [roots]. by rewrite take_ge, Hkeep, entries_node by done.
Qed.

(** [prune] re-roots the tree at the deepest ancestor of the block that
    passes the predicate and keeps of its children only the branch that leads
    to the block; without such an ancestor it keeps every node.  It does not
    fail and the tree stays well-formed. *)
Theorem prune_correct t h pred :
  known h → wf_forest (roots t) →
  ∃ t', prune isd t h (num h) pred = (t', Ok tt) ∧ wf_forest (roots t') ∧
    best_finalized_number t' = best_finalized_number t ∧
    ((no_match h pred (forest_nodes (roots t)) ∧ entries (roots t') ≡ₚ entries (roots t)) ∨
     (∃ m, deepest h pred (forest_nodes (roots t)) m ∧
        entries (roots t') ≡ₚ entry m ::
          entries (filter (λ c, hash c = h ∨ anc (hash c) h) (children m)))).
Proof using Ancestry0. apply prune_ok. Qed.

Lemma fwa_ok t h :
  known h → wf_forest (roots t) → reverts t (num h) = false →
  ∃ t' v, finalize_with_ancestors isd t h (num h) = Some (t', Ok v) ∧
    wf_forest (roots t') ∧ best_finalized_number t' = Some (num h) ∧
    forest_nodes (roots t') ≡ₚ below h (roots t) ∧ reported h (roots t) false v.
Proof using Ancestry0.
  intros Hk Hwf Hrev. unfold finalize_with_ancestors. rewrite Hrev.
  pose proof (finalize_root_ok h t Hwf) as Hroot.
  destruct (finalize_root t h) as [[t' v]|].
  - destruct Hroot as (r&Hr&Hrh&->&?&?&?). eexists _, _.
    split_and!; [done..|by apply reported_root].
  - apply fwa_loop_ok; [done|done|lia|by intros r ?%not_elem_of_nil|rewrite drop_0; lia].
Qed.

(** [finalize_with_ancestors] finishes, and what it keeps is exactly the
    descendants of the finalized block, in place; it returns the data of the
    block when the block was in the tree and otherwise tells whether anything
    was dropped. *)
Theorem finalize_with_ancestors_correct t h :
  known h → wf_forest (roots t) → reverts t (num h) = false →
  ∃ t' v, finalize_with_ancestors isd t h (num h) = Some (t', Ok v) ∧
    wf_forest (roots t') ∧ best_finalized_number t' = Some (num h) ∧
    forest_nodes (roots t') ≡ₚ below h (roots t) ∧ reported h (roots t) false v.
Proof using Ancestry0. apply fwa_ok. Qed.

(** [finalize] refuses a block that descends from a root, leaving the tree
    unchanged; otherwise it keeps exactly the descendants of the block. *)
Theorem finalize_correct t h :
  known h → wf_forest (roots t) → reverts t (num h) = false →
  if decide (Exists (λ r, anc (hash r) h) (roots t))
  then finalize isd t h (num h) = (t, Err UnfinalizedAncestor)
  else ∃ t' v, finalize isd t h (num h) = (t', Ok v) ∧
    wf_forest (roots t') ∧ best_finalized_number t' = Some (num h) ∧
    forest_nodes (roots t') ≡ₚ below h (roots t) ∧ reported h (roots t) false v.
Proof using Ancestry0.
  intros Hk Hwf Hrev. unfold finalize. rewrite Hrev, check_unfinalized_ok by done.
  pose proof (finalize_root_ok h t Hwf) as Hroot.
  destruct (finalize_root t h) as [[t' v]|].
  { destruct Hroot as (r&Hr&Hrh&->&?&?&?). rewrite decide_False.
    - eexists _, _. split_and!; [done..|by apply reported_root].
    - intros (r'&Hr'&Ha)%Exists_exists. destruct (antichain_inv (roots t) r' r) as [->|(_&Hn&_)];
        [apply Hwf|done|done| |by rewrite Hrh in Hn]. rewrite Hrh in Ha. by apply anc_irrefl in Ha. }
  case_decide as Hex; [done|]. rewrite <- Forall_Exists_neg, Forall_forall in Hex.
  rewrite (retain_filter _ (λ r, anc h (hash r))).
  2:{ intros r Hr. pose proof (wf_forest_node _ _ Hwf Hr) as Hwr.
      rewrite unwrap_anc, (wf_node_number r) by auto with fork_tree.
      destruct (decide (anc h (hash r))) as [Ha|Ha].
      - rewrite bool_decide_eq_true_2 by done. by rewrite (proj2 (Z.ltb_lt _ _)) by (by apply anc_num).
      - by rewrite bool_decide_eq_false_2, andb_false_r. }
  eexists _, _. split_and!; [done|by apply wf_filter|done| |]; cbn [roots].
  - rewrite below_retain; [done..|]. eauto.
  - by apply reported_retain.
Qed.

Lemma fwdi_ok t h pred :
  known h → wf_forest (roots t) → reverts t (num h) = false →
  (∀ r, r ∈ roots t → candidate h pred r →
    if decide (Exists (λ c, anc (hash c) h) (children r))
    then finalize_with_descendent_if isd t h (num h) pred = (t, Err UnfinalizedAncestor)
    else finalize_with_descendent_if isd t h (num h) pred =
      (MkForkTree (filter (on_branch h) (children r)) (Some (num h)),
       Ok (Changed (Some (data r))))) ∧
  ((∀ r, r ∈ roots t → ¬ candidate h pred r) →
    finalize_with_descendent_if isd t h (num h) pred =
      (MkForkTree (filter (on_branch h) (roots t)) (Some (num h)),
       Ok (if decide (Forall (on_branch h) (roots t)) then Unchanged else Changed None))).
Proof using Ancestry0.
  intros Hk Hwf Hrev. unfold finalize_with_descendent_if. rewrite Hrev. split.
  - intros r Hr Hc. destruct (scan_some h pred (roots t) 0 r Hk Hwf Hr Hc) as (j&Hj&->).
    case_decide as Hex; [done|]. cbn [Nat.add]. unfold finalize_root_at.
    destruct (swap_remove_is_Some j (roots t)) as [[r' rs] Hs]; [by eapply lookup_lt_Some|].
    pose proof (swap_remove_lookup _ _ _ _ Hs) as Hr'. rewrite Hj in Hr'. injection Hr' as <-.
    rewrite Hs. cbn [mbind option_bind roots]. rewrite (retain_filter _ (on_branch h)); [done|].
    intros c Hcr. apply keep_on_branch; [done|]. eapply wf_forest_node; [|done].
    by eapply wf_node_children, wf_forest_node.
  - intros Hn. rewrite scan_none; [|done| |done].
    2:{ intros r Hr. by eapply wf_node_known, wf_forest_node. }
    rewrite (retain_filter _ (on_branch h)).
    + case_bool_decide; by case_decide.
    + intros c Hcr. apply keep_on_branch; [done|]. by eapply wf_forest_node.
Qed.

(** C13. [finalize_with_descendent_if]: the finalized block is under at most one
    root.  If that root passes the predicate it is finalized and its data
    returned, its children on the branch of the block becoming the roots, unless
    the block is also beyond one of the children, an error that changes nothing.
    If no such root passes, only the roots on the branch of the block are
    kept. *)
Theorem finalize_with_descendent_if_correct t h pred :
  known h → wf_forest (roots t) → reverts t (num h) = false →
  (∀ r, r ∈ roots t → candidate h pred r →
    if decide (Exists (λ c, anc (hash c) h) (children r))
    then finalize_with_descendent_if isd t h (num h) pred = (t, Err UnfinalizedAncestor)
    else finalize_with_descendent_if isd t h (num h) pred =
      (MkForkTree (filter (on_branch h) (children r)) (Some (num h)),
       Ok (Changed (Some (data r))))) ∧
  ((∀ r, r ∈ roots t → ¬ candidate h pred r) →
    finalize_with_descendent_if isd t h (num h) pred =
      (MkForkTree (filter (on_branch h) (roots t)) (Some (num h)),
       Ok (if decide (Forall (on_branch h) (roots t)) then Unchanged else Changed None))).
Proof using Ancestry0. apply fwdi_ok. Qed.
End ancestry.

(** ** Properties for any ancestry callback *)

(** A child that does not take the new block is left as it is. *)
Lemma import_into_same imp l h n d :
  Forall (λ c, match imp c h n d with
               | (_, Ok None) => True
               | (c', Ok (Some x)) => c' = c ∧ x = (h, n, d)
               | (c', _) => c' = c
               end) l →
  match import_into imp l h n d with
  | (_, Ok None) => True
  | (l', Ok (Some x)) => l' = l ∧ x = (h, n, d)
  | (l', _) => l' = l
  end.
Proof.
  induction 1 as [|c l Hc Hl IH]; simpl; [done|].
  destruct (imp c h n d) as [c' [[[[h' n'] d']|]|e|]]; [|done|by subst..].
  destruct Hc as [-> [= -> -> ->]].
  destruct (import_into imp l h n d) as [l' [[x|]|e|]]; naive_solver.
Qed.

Lemma node_import_same isd c h n d :
  match node_import isd c h n d with
  | (_, Ok None) => True
  | (c', Ok (Some x)) => c' = c ∧ x = (h, n, d)
  | (c', _) => c' = c
  end.
Proof.
  induction c as [sh sn sd cs IH] using Node_strong_ind. simpl.
  case_decide; [done|]. destruct (n <=? sn); [done|].
  pose proof (import_into_same (node_import isd) cs h n d IH) as Hcs.
  destruct (import_into (node_import isd) cs h n d) as [cs' [[[[h' n'] d']|]|e|]];
    [|done|by subst..].
  destruct Hcs as [-> [= -> -> ->]]. unfold query. by destruct (isd sh h) as [e|[]].
Qed.

Lemma fwa_loop_never_errs isd fuel h n t idx changed t' e :
  fwa_loop isd fuel h n t idx changed ≠ Some (t', Err e).
Proof.
  revert t idx changed. induction fuel as [|fuel IH]; intros t idx changed; simpl; [done|].
  repeat (case_match; try done); eauto.
Qed.

(** Whatever the callback answers, an operation that returns an error
    leaves the tree as it was. *)
Theorem errors_change_nothing isd t h n d pred :
  (∀ t' e, import isd t h n d = (t', Err e) → t' = t) ∧
  (∀ t' e, prune isd t h n pred = (t', Err e) → t' = t) ∧
  (∀ t' e, finalize isd t h n = (t', Err e) → t' = t) ∧
  (∀ t' e, finalize_with_ancestors isd t h n = Some (t', Err e) → t' = t) ∧
  (∀ t' e, finalize_with_descendent_if isd t h n pred = (t', Err e) → t' = t).
Proof.
  split_and!; intros t' e.
  - unfold import. destruct (reverts t n); [naive_solver|].
    epose proof (import_into_same (root_import isd) (roots t) h n d _) as Hr.
    Unshelve.
    2:{ apply Forall_forall. intros r _. unfold root_import. case_decide; [done|].
        apply node_import_same. }
    destruct t as [rs b]. cbn [roots best_finalized_number] in *.
    destruct (import_into (root_import isd) rs h n d) as [rs' [[[[h' n'] d']|]|e'|]]; naive_solver.
  - unfold prune. destruct (find_node_where isd t h n pred); naive_solver.
  - unfold finalize. repeat (case_match; try naive_solver).
  - unfold finalize_with_ancestors. destruct (reverts t n); [naive_solver|].
    destruct (finalize_root t h) as [[]|]; [naive_solver|].
    by intros ?%fwa_loop_never_errs.
  - unfold finalize_with_descendent_if. repeat (case_match; try naive_solver).
Qed.

Lemma node_rebalance_idem n : node_rebalance (node_rebalance n) = node_rebalance n.
Proof.
  induction n as [h k d cs IH] using Node_strong_ind. rewrite node_rebalance_eq, node_rebalance_eq.
  f_equal. rewrite sort_by_id by apply sorted_map_rebalance. rewrite map_map.
  apply map_ext_in. intros c Hc%list_elem_of_In. rewrite sort_by_perm in Hc.
  rewrite Forall_forall in IH. auto.
Qed.

(** [rebalance] reorders siblings only: it keeps the nodes, sorts every
    level by decreasing depth of the branch, and a second call changes
    nothing. *)
Theorem rebalance_correct t :
  entries (roots (rebalance t)) ≡ₚ entries (roots t) ∧
  balanced (roots (rebalance t)) ∧
  rebalance (rebalance t) = rebalance t.
Proof.
  split_and!; [apply entries_rebalance|apply rebalance_balanced|].
  unfold rebalance. cbn [roots best_finalized_number]. f_equal.
  rewrite sort_by_id by apply sorted_map_rebalance. rewrite map_map.
  apply map_ext. apply node_rebalance_idem.
Qed.

(** The iterator visits every node exactly once, each subtree in
    pre-order, the roots from the last to the first. *)
Theorem node_iter_preorder t : node_iter t = forest_nodes (reverse (roots t)).
Proof. unfold node_iter. by apply iterate_ok. Qed.
End fork_tree.

#[export] Hint Resolve nodes_self root_in_forest nodes_trans : fork_tree.

Arguments Error : clear implicits.
Arguments FinalizationResult : clear implicits.
Arguments Node : clear implicits.
Arguments ForkTree : clear implicits.
Arguments FindOutcome : clear implicits.

Abbreviation forest_nodes := (flat_map nodes).

(** ** A concrete block tree

    Blocks named by the path of choices that leads to them; the ancestors of a
    block are the strict prefixes of its name. *)
Module Sample.
Definition block := list bool.
Definition anc (a b : block) : Prop := a `prefix_of` b ∧ a ≠ b.
#[export] Instance anc_dec : RelDecision anc.
Proof. intros a b. unfold anc. apply _. Defined.
Definition num (a : block) : Z := Z.of_nat (length a).
Definition isd (a b : block) : unit + bool := inr (bool_decide (anc a b)).

#[export] Instance sample_ancestry : Ancestry isd anc (λ _, True) num.
Proof.
  split; unfold anc, num.
  - done.
  - intros a b [[k ->] Hne]. rewrite length_app. destruct k; [by rewrite app_nil_r in Hne|simpl; lia].
  - intros a b c [[k ->] Hne] [[k' ->] Hne']. rewrite <- app_assoc. split; [by eexists|].
    intros Heq. apply (f_equal length) in Heq. rewrite !length_app in Heq.
    destruct k as [|x k]; [by rewrite app_nil_r in Hne|simpl in Heq; lia].
  - intros a b c [Ha _] [Hb _]. destruct (decide (a = b)) as [|Hne]; [by left|right].
    destruct (prefix_weak_total a b c Ha Hb); [left|right]; by split.
Qed.

(** Genesis, a block on each side of a fork, and one more on the left. *)
Definition leaf (b : block) (cs : list (Node block nat)) : Node block nat :=
  MkNode b (num b) 7%nat cs.
Definition tree : ForkTree block nat :=
  MkForkTree [leaf [false] [leaf [false; true] [leaf [false; true; true] []]]; leaf [true] []] None.

Lemma wf_level (l : list (Node block nat)) :
  antichain anc l → Forall (wf_node anc (λ _, True) num) l → wf_forest anc (λ _, True) num l.
Proof. intros Ha Hl. apply wf_forest_intro; [done|]. by apply Forall_forall. Qed.

Lemma wf_leaf b cs :
  Forall (λ c, anc b (hash c)) cs → wf_forest anc (λ _, True) num cs →
  wf_node anc (λ _, True) num (leaf b cs).
Proof.
  intros Hb Hcs. apply wf_node_intro; [|done]. split_and!; [done..| |apply (proj1 Hcs)].
  by apply Forall_forall.
Qed.

(** Close well-formedness goals on concrete trees by evaluation. *)
Ltac solve_wf :=
  unfold antichain;
  lazymatch goal with
  | |- wf_forest _ _ _ _ => apply wf_level; solve_wf
  | |- wf_node _ _ _ _ => apply wf_leaf; solve_wf
  | |- ForallOrdPairs _ [] => apply FOP_nil
  | |- ForallOrdPairs _ _ => apply FOP_cons; solve_wf
  | |- Forall _ [] => apply Forall_nil_2
  | |- Forall _ _ => apply Forall_cons_2; solve_wf
  | |- incomparable _ _ _ => split_and!; apply (bool_decide_unpack _); vm_compute; exact I
  | |- _ => apply (bool_decide_unpack _); vm_compute; exact I
  end.

Lemma tree_wf : wf_forest anc (λ _, True) num (roots tree).
Proof. unfold tree. cbn [roots]. solve_wf. Qed.

Lemma tree_in_order : in_order anc [true; true] (roots tree).
Proof. unfold in_order. apply Forall_forall. cbn. solve_wf. Qed.

(** Importing a block on the right branch. *)
Lemma import_correct_witness :
  let '(t', r) := import isd tree [true; true] (num [true; true]) 9%nat in
  wf_forest anc (λ _, True) num (roots t') ∧ best_finalized_number t' = None ∧
  entries (roots t') ≡ₚ ([true; true], 2, 9%nat) :: entries (roots tree) ∧ r = Ok false.
Proof.
  exact (import_correct isd anc (λ _, True) num tree [true; true] 9%nat I tree_wf tree_in_order).
Defined.

(** The block below [false; true] on another fork of it. *)
Lemma find_node_where_correct_witness :
  deepest anc [false; true; false] (λ _, true) (forest_nodes (roots tree))
    (leaf [false; true] [leaf [false; true; true] []]).
Proof.
  exact (find_node_where_correct isd anc (λ _, True) num tree [false; true; false] (λ _, true) I tree_wf).
Defined.

Lemma prune_correct_witness :
  ∃ t', prune isd tree [false; true] (num [false; true]) (λ _, true) = (t', Ok tt) ∧
    wf_forest anc (λ _, True) num (roots t') ∧ best_finalized_number t' = best_finalized_number tree ∧
    ((no_match anc [false; true] (λ _, true) (forest_nodes (roots tree)) ∧
      entries (roots t') ≡ₚ entries (roots tree)) ∨
     (∃ m, deepest anc [false; true] (λ _, true) (forest_nodes (roots tree)) m ∧
        entries (roots t') ≡ₚ entry m ::
          entries (filter (λ c, hash c = [false; true] ∨ anc (hash c) [false; true]) (children m)))).
Proof. exact (prune_correct isd anc (λ _, True) num tree [false; true] (λ _, true) I tree_wf). Defined.

Lemma finalize_with_ancestors_correct_witness :
  ∃ t' v, finalize_with_ancestors isd tree [false; true] (num [false; true]) = Some (t', Ok v) ∧
    wf_forest anc (λ _, True) num (roots t') ∧ best_finalized_number t' = Some 2 ∧
    forest_nodes (roots t') ≡ₚ below anc [false; true] (roots tree) ∧
    reported anc [false; true] (roots tree) false v.
Proof. exact (finalize_with_ancestors_correct isd anc (λ _, True) num tree [false; true] I tree_wf eq_refl). Defined.

Lemma finalize_correct_witness :
  ∃ t' v, finalize isd tree [true] (num [true]) = (t', Ok v) ∧
    wf_forest anc (λ _, True) num (roots t') ∧ best_finalized_number t' = Some 1 ∧
    forest_nodes (roots t') ≡ₚ below anc [true] (roots tree) ∧
    reported anc [true] (roots tree) false v.
Proof. exact (finalize_correct isd anc (λ _, True) num tree [true] I tree_wf eq_refl). Defined.

(** Finalizing a fork of the child of the left root finalizes the root. *)
Lemma finalize_with_descendent_if_correct_witness :
  finalize_with_descendent_if isd tree [false; false] (num [false; false]) (λ _, true) =
    (MkForkTree [] (Some 2), Ok (Changed (Some 7%nat))).
Proof.
  destruct (finalize_with_descendent_if_correct isd anc (λ _, True) num tree [false; false] (λ _, true)
    I tree_wf eq_refl) as [Hsome _].
  refine (Hsome (leaf [false] _) (list_elem_of_here _ _) _). solve_wf.
Defined.
End Sample.
