(* ===== verification/Authorities.v ===== *)
(** * GRANDPA authority set (src/client/finality-grandpa/src/authorities.rs) *)
From S2P Require Import Prelude ForkTree.

Local Open Scope Z_scope.

Section authorities.
Context {H A E : Type} `{!EqDecision H}.

(** ** Data *)

(** [AuthorityList]: authorities and their weights. *)
Abbreviation AuthorityList := (list (A * Z)).

Inductive DelayKind : Type :=
| Finalized
| Best (median_last_finalized : Z).

Record PendingChange : Type := MkPendingChange {
  next_authorities : AuthorityList;
  delay : Z;
  canon_height : Z;
  canon_hash : H;
  delay_kind : DelayKind;
}.

Record AuthoritySet : Type := MkAuthoritySet {
  current_authorities : AuthorityList;
  set_id : Z;
  pending_standard_changes : ForkTree H PendingChange;
  pending_forced_changes : list PendingChange;
}.

Record Status : Type := MkStatus {
  changed : bool;
  new_set_block : option (H * Z);
}.

Definition effective_number (c : PendingChange) : Z := canon_height c + delay c.

Definition genesis (initial : AuthorityList) : AuthoritySet :=
  MkAuthoritySet initial 0 new [].

Definition current (s : AuthoritySet) : Z * AuthorityList :=
  (set_id s, current_authorities s).

Abbreviation oracle := (H → H → E + bool).

(** ** Signalling changes *)

Definition with_standard (s : AuthoritySet) (t : ForkTree H PendingChange) : AuthoritySet :=
  MkAuthoritySet (current_authorities s) (set_id s) t (pending_forced_changes s).

Definition add_standard_change (isd : oracle) (s : AuthoritySet) (pending : PendingChange) :
    AuthoritySet * result (Error E) unit :=
  let '(t, r) := import isd (pending_standard_changes s) (canon_hash pending)
                   (canon_height pending) pending in
  (with_standard s t, r ≫= λ _, Ok tt).

(** The loop that refuses a second forced change on the same fork. *)
Fixpoint check_forced (isd : oracle) (pending : PendingChange) (l : list PendingChange) :
    result (Error E) unit :=
  match l with
  | [] => Ok tt
  | change :: l' =>
      b ← (if decide (canon_hash change = canon_hash pending) then Ok true
           else query isd (canon_hash change) (canon_hash pending));
      if b : bool then Err UnfinalizedAncestor else check_forced isd pending l'
  end.

(** Order of forced changes: effective number, then height of the signal. *)
Definition change_key (c : PendingChange) : Z * Z := (effective_number c, canon_height c).

Definition key_compare (a b : Z * Z) : comparison :=
  match a.1 ?= b.1 with
  | Eq => a.2 ?= b.2
  | c => c
  end.

Definition forced_index (pending : PendingChange) (l : list PendingChange) : nat :=
  match binary_search_by (λ change, key_compare (change_key change) (change_key pending)) l with
  | inl i => i
  | inr i => i
  end.

Definition add_forced_change (isd : oracle) (s : AuthoritySet) (pending : PendingChange) :
    AuthoritySet * result (Error E) unit :=
  match check_forced isd pending (pending_forced_changes s) with
  | Err e => (s, Err e)
  | Panic => (s, Panic)
  | Ok _ =>
      let idx := forced_index pending (pending_forced_changes s) in
      (MkAuthoritySet (current_authorities s) (set_id s) (pending_standard_changes s)
         (vec_insert idx pending (pending_forced_changes s)), Ok tt)
  end.

Definition add_pending_change (isd : oracle) (s : AuthoritySet) (pending : PendingChange) :
    AuthoritySet * result (Error E) unit :=
  match delay_kind pending with
  | Best _ => add_forced_change isd s pending
  | Finalized => add_standard_change isd s pending
  end.

Definition pending_changes (s : AuthoritySet) : list PendingChange :=
  map (λ e, e.2) (iter (pending_standard_changes s)) ++ pending_forced_changes s.

Definition current_limit (s : AuthoritySet) (min : Z) : option Z :=
  (λ root, effective_number (data root)) <$>
  min_by_key (λ root, effective_number (data root))
    (filter (λ root, min ≤ effective_number (data root)) (roots (pending_standard_changes s))).

(** ** Applying changes *)

(** [self.set_id + 1] on a [u64]. *)
Definition next_id (id : Z) : Z := (id + 1) mod 2 ^ 64.

(** The loop over the forced changes that take effect at the best block. *)
Fixpoint apply_first (isd : oracle) (s : AuthoritySet) (best_hash : H)
    (l : list PendingChange) : result E (option (Z * AuthoritySet)) :=
  match l with
  | [] => Ok None
  | change :: l' =>
      match isd (canon_hash change) best_hash with
      | inl e => Err e
      | inr true =>
          match delay_kind change with
          | Best median_last_finalized =>
              Ok (Some (median_last_finalized,
                MkAuthoritySet (next_authorities change) (next_id (set_id s)) new []))
          | Finalized => Panic
          end
      | inr false => apply_first isd s best_hash l'
      end
  end.

Definition apply_forced_changes (isd : oracle) (s : AuthoritySet) (best_hash : H)
    (best_number : Z) : result E (option (Z * AuthoritySet)) :=
  apply_first isd s best_hash
    (filter (λ c, effective_number c = best_number)
       (take_while (λ c, effective_number c <=? best_number) (pending_forced_changes s))).

Definition apply_standard_changes (isd : oracle) (s : AuthoritySet) (finalized_hash : H)
    (finalized_number : Z) : AuthoritySet * result (Error E) Status :=
  match finalize_with_descendent_if isd (pending_standard_changes s) finalized_hash
          finalized_number (λ change, effective_number change <=? finalized_number) with
  | (t, Err e) => (with_standard s t, Err e)
  | (t, Panic) => (with_standard s t, Panic)
  | (t, Ok Unchanged) => (with_standard s t, Ok (MkStatus false None))
  | (t, Ok (Changed None)) =>
      (MkAuthoritySet (current_authorities s) (set_id s) t [], Ok (MkStatus true None))
  | (t, Ok (Changed (Some change))) =>
      (MkAuthoritySet (next_authorities change) (next_id (set_id s)) t [],
       Ok (MkStatus true (Some (finalized_hash, finalized_number))))
  end.

Definition enacts_standard_change (isd : oracle) (s : AuthoritySet) (finalized_hash : H)
    (finalized_number : Z) : result (Error E) (option bool) :=
  finalizes_any_with_descendent_if isd (pending_standard_changes s) finalized_hash
    finalized_number (λ change, effective_number change =? finalized_number).

(** ** Invariant *)

Definition key_le (a b : PendingChange) : Prop :=
  key_compare (change_key a) (change_key b) ≠ Gt.

Section invariant.
Context (isd : oracle) (anc : H → H → Prop) `{!RelDecision anc} (known : H → Prop) (num : H → Z).
Context `{!Ancestry isd anc known num}.

(** Two changes signalled on different forks. *)
Definition other_fork (a b : PendingChange) : Prop :=
  canon_hash a ≠ canon_hash b ∧
  ¬ anc (canon_hash a) (canon_hash b) ∧ ¬ anc (canon_hash b) (canon_hash a).

Definition is_standard (e : H * Z * PendingChange) : Prop :=
  e.1.1 = canon_hash e.2 ∧ e.1.2 = canon_height e.2 ∧ delay_kind e.2 = Finalized.

(** Signalled by a known block, under its number. *)
Definition located (c : PendingChange) : Prop :=
  known (canon_hash c) ∧ canon_height c = num (canon_hash c).

Definition is_forced (c : PendingChange) : Prop := located c ∧ ∃ m, delay_kind c = Best m.

Record wf_set (s : AuthoritySet) : Prop := {
  wf_tree : wf_forest anc known num (roots (pending_standard_changes s));
  wf_standard : Forall is_standard (entries (roots (pending_standard_changes s)));
  wf_sorted : StronglySorted key_le (pending_forced_changes s);
  wf_forced : Forall is_forced (pending_forced_changes s);
  wf_forks : ForallOrdPairs other_fork (pending_forced_changes s);
}.

Lemma key_compare_spec a b :
  CompareSpec (a = b) (a.1 < b.1 ∨ a.1 = b.1 ∧ a.2 < b.2) (b.1 < a.1 ∨ a.1 = b.1 ∧ b.2 < a.2)
    (key_compare a b).
Proof.
  destruct a as [a1 a2], b as [b1 b2]. unfold key_compare. simpl.
  destruct (Z.compare_spec a1 b1); [|constructor; by left..].
  destruct (Z.compare_spec a2 b2); constructor; subst; auto.
Qed.

Lemma key_le_spec a b :
  key_le a b ↔ effective_number a < effective_number b ∨
    effective_number a = effective_number b ∧ canon_height a ≤ canon_height b.
Proof.
  unfold key_le. destruct (key_compare_spec (change_key a) (change_key b)) as [Heq|Hlt|Hgt];
    unfold change_key in *; simpl in *; [injection Heq as ??|..]; (split; [intros ?|intros ? ?]);
    try done; lia.
Qed.

(** Where the search says, the new change goes in order. *)
Lemma forced_index_ok pending l :
  StronglySorted key_le l →
  let i := forced_index pending l in
  (i ≤ length l)%nat ∧
  (∀ j x, l !! j = Some x → (j < i)%nat → key_le x pending) ∧
  (∀ j x, l !! j = Some x → (i ≤ j)%nat → key_le pending x).
Proof.
  intros Hs. unfold forced_index.
  assert (∀ i j x y, l !! i = Some x → l !! j = Some y → (i ≤ j)%nat → x = y ∨ key_le x y) as Hle.
  { intros i j x y Hx Hy Hij. destruct (decide (i = j)) as [->|]; [left; congruence|right].
    apply (strongly_sorted_lookup _ l i j); [done..|lia]. }
  pose proof (binary_search_ok (λ c, key_compare (change_key c) (change_key pending)) l) as Hb.
  cbn beta in Hb.
  assert (∀ c, key_compare (change_key c) (change_key pending) = Gt ↔ ¬ key_le c pending) as Hgt.
  { intros c. unfold key_le. destruct (key_compare _ _); naive_solver. }
  assert (∀ c, key_compare (change_key c) (change_key pending) = Lt ↔ ¬ key_le pending c) as Hlt.
  { intros c. rewrite key_le_spec.
    destruct (key_compare_spec (change_key c) (change_key pending)) as [Heq|Hlt|Hgt'];
      unfold change_key in *; simpl in *; [injection Heq as ??|..]; split; intros; try done; lia. }
  match type of Hb with ?P → _ => assert P as Hord end.
  { intros i j x y Hx Hy Hij. rewrite !Hgt, !Hlt. rewrite !key_le_spec.
    destruct (Hle i j x y Hx Hy Hij) as [->|Hxy%key_le_spec]; [done|]. lia. }
  specialize (Hb Hord). destruct (binary_search_by _ l) as [i|i]; simpl.
  - destruct Hb as (x&Hx&Heq). apply lookup_lt_Some in Hx as Hi.
    assert (key_le x pending ∧ key_le pending x) as [H1 H2].
    { rewrite !key_le_spec. destruct (key_compare_spec (change_key x) (change_key pending)) as [He| |];
        try done. unfold change_key in He. injection He. lia. }
    split_and!; [lia| |]; intros j y Hy Hj.
    + destruct (Hle j i y x Hy Hx ltac:(lia)) as [->|Hyx]; [done|].
      rewrite key_le_spec in *. lia.
    + destruct (Hle i j x y Hx Hy Hj) as [->|Hyx]; [done|]. rewrite key_le_spec in *. lia.
  - destruct Hb as (Hi&Hb1&Hb2). split_and!; [done| |]; intros j y Hy Hj.
    + specialize (Hb1 j y Hy Hj). apply Hlt in Hb1. rewrite key_le_spec in *. lia.
    + specialize (Hb2 j y Hy Hj). apply Hgt in Hb2. rewrite key_le_spec in *. lia.
Qed.

Lemma forced_sorted pending l :
  StronglySorted key_le l → StronglySorted key_le (vec_insert (forced_index pending l) pending l).
Proof.
  intros Hs. destruct (forced_index_ok pending l Hs) as (Hi&Hlo&Hhi).
  destruct (strongly_sorted_take_drop key_le l (forced_index pending l) Hs) as [Ht Hd].
  assert (∀ x, x ∈ take (forced_index pending l) l → key_le x pending) as Hlo'.
  { intros x (j&Hj)%list_elem_of_lookup. apply lookup_take_Some in Hj as [Hj ?]. eauto. }
  assert (∀ x, x ∈ drop (forced_index pending l) l → key_le pending x) as Hhi'.
  { intros x (j&Hj)%list_elem_of_lookup. rewrite lookup_drop in Hj. eapply Hhi; [done|lia]. }
  apply strongly_sorted_app; [done| |].
  - constructor; [done|]. by apply Forall_forall.
  - intros x y Hx [->|Hy]%elem_of_cons; [auto|]. specialize (Hlo' x Hx). specialize (Hhi' y Hy).
    rewrite key_le_spec in *. lia.
Qed.

(** ** Signalling *)

Definition on_fork (pending c : PendingChange) : Prop :=
  canon_hash c = canon_hash pending ∨ anc (canon_hash c) (canon_hash pending).

#[export] Instance on_fork_dec pending c : Decision (on_fork pending c).
Proof. unfold on_fork. apply _. Defined.

Lemma check_forced_ok pending l :
  known (canon_hash pending) → Forall is_forced l →
  check_forced isd pending l =
  if decide (Exists (on_fork pending) l) then Err UnfinalizedAncestor else Ok tt.
Proof using Ancestry0.
  intros Hk. induction 1 as [|c l [[Hc _] _] _ IH];
    [rewrite decide_False; [done|]; intros Hn; by apply Exists_nil in Hn|].
  cbn [check_forced]. rewrite (query_anc isd anc known num), IH by done.
  destruct (decide (canon_hash c = canon_hash pending)) as [Heq|Hne]; cbn [mbind result_bind].
  { rewrite decide_True by (left; by left). done. }
  case_bool_decide as Ha.
  - rewrite decide_True by (left; by right). done.
  - apply decide_ext. rewrite Exists_cons. assert (¬ on_fork pending c) by (intros [|]; done). tauto.
Qed.

(** The changes of a branch are signalled in order. *)
Definition signalled_in_order (s : AuthoritySet) (c : PendingChange) : Prop :=
  match delay_kind c with
  | Finalized => in_order anc (canon_hash c) (roots (pending_standard_changes s))
  | Best _ => Forall (λ c', ¬ anc (canon_hash c) (canon_hash c')) (pending_forced_changes s)
  end.

Lemma add_standard_wf s c :
  wf_set s → located c → delay_kind c = Finalized →
  signalled_in_order s c → wf_set (add_standard_change isd s c).1.
Proof using Ancestry0.
  intros Hs [Hknown Hnum] Hk Ho. unfold signalled_in_order in Ho. rewrite Hk in Ho.
  unfold add_standard_change. rewrite Hnum.
  pose proof (import_ok isd anc known num _ (canon_hash c) c Hknown (wf_tree s Hs) Ho) as Hi.
  destruct (import isd _ _ _ _) as [t r]. destruct Hi as (Hw&_&Hi). cbn [fst].
  constructor; try apply Hs; cbn [with_standard pending_standard_changes]; [done|].
  destruct (reverts _ _); [destruct Hi as [-> _]; apply Hs|].
  case_decide; [destruct Hi as [-> _]; apply Hs|].
  destruct Hi as [-> _]. constructor; [|apply Hs]. by split_and!.
Qed.

Lemma other_fork_sym a b : other_fork a b → other_fork b a.
Proof. unfold other_fork. naive_solver. Qed.

Lemma add_forced_wf s c m :
  wf_set s → located c → delay_kind c = Best m →
  signalled_in_order s c → wf_set (add_forced_change isd s c).1.
Proof using Ancestry0.
  intros Hs Hnum Hk Ho. unfold signalled_in_order in Ho. rewrite Hk in Ho.
  unfold add_forced_change. rewrite check_forced_ok by (apply Hnum || apply Hs).
  case_decide as Hex; [apply Hs|]. rewrite <- Forall_Exists_neg in Hex.
  constructor; try apply Hs; cbn [fst pending_forced_changes].
  - apply forced_sorted, Hs.
  - rewrite vec_insert_perm. constructor; [|apply Hs]. split; [done|by eexists].
  - eapply ord_pairs_perm; [apply other_fork_sym|symmetry; apply vec_insert_perm|]. constructor; [|apply Hs].
    rewrite Forall_forall in *. intros c' Hc'. specialize (Ho c' Hc'). specialize (Hex c' Hc').
    unfold on_fork, other_fork in *. naive_solver.
Qed.

Lemma add_pending_wf s c :
  wf_set s → located c → signalled_in_order s c →
  wf_set (add_pending_change isd s c).1.
Proof using Ancestry0.
  intros. unfold add_pending_change. destruct (delay_kind c) eqn:?;
    eauto using add_standard_wf, add_forced_wf.
Qed.

(** ** Applying *)

Lemma forced_filter n l :
  StronglySorted key_le l →
  filter (λ c, effective_number c = n) (take_while (λ c, effective_number c <=? n) l) =
  filter (λ c, effective_number c = n) l.
Proof.
  induction 1 as [|c l Hs IH Hc]; [done|]. simpl. destruct (Z.leb_spec (effective_number c) n).
  - rewrite !filter_cons, IH. done.
  - rewrite filter_cons_False by lia. symmetry. apply filter_none.
    rewrite Forall_forall in Hc. intros x Hx Heq. specialize (Hc x Hx).
    rewrite key_le_spec in Hc. lia.
Qed.

Lemma apply_first_ok s h l :
  known h → Forall is_forced l →
  match apply_first isd s h l with
  | Ok (Some (m, s')) => ∃ c, c ∈ l ∧ anc (canon_hash c) h ∧ delay_kind c = Best m ∧
      s' = MkAuthoritySet (next_authorities c) (next_id (set_id s)) new []
  | Ok None => ∀ c, c ∈ l → ¬ anc (canon_hash c) h
  | _ => False
  end.
Proof using Ancestry0.
  intros Hh. induction 1 as [|c l [[Hc _] [m Hk]] Hl IH]; cbn [apply_first];
    [by intros c ?%not_elem_of_nil|].
  rewrite (anc_query (num := num)) by done. case_bool_decide as Ha.
  - rewrite Hk. exists c. split_and!; [by left|done..].
  - destruct (apply_first isd s h l) as [[[m' s']|]| |]; [|..|done|done].
    + destruct IH as (c'&?&?). exists c'. split; [by right|done].
    + intros c' [->|Hc']%elem_of_cons; auto.
Qed.

(** Two pending forced changes on the branch of a block are the same. *)
Lemma forced_unique l c c' h :
  ForallOrdPairs other_fork l → c ∈ l → c' ∈ l →
  anc (canon_hash c) h → anc (canon_hash c') h → c = c'.
Proof using Ancestry0.
  intros Hl Hc Hc' Ha Ha'.
  destruct (ForallOrdPairs_In Hl c c') as [|[(?&?&?)|(?&?&?)]];
    [by apply list_elem_of_In..|done| |];
    destruct (anc_chain _ _ _ Ha Ha') as [|[]]; naive_solver.
Qed.

Lemma apply_forced_ok s h :
  known h → wf_set s →
  match apply_forced_changes isd s h (num h) with
  | Ok (Some (m, s')) =>
      ∃ c, c ∈ pending_forced_changes s ∧ anc (canon_hash c) h ∧
        effective_number c = num h ∧ delay_kind c = Best m ∧
        (∀ c', c' ∈ pending_forced_changes s → anc (canon_hash c') h → c' = c) ∧
        s' = MkAuthoritySet (next_authorities c) (next_id (set_id s)) new []
  | Ok None => ∀ c, c ∈ pending_forced_changes s → anc (canon_hash c) h →
      effective_number c ≠ num h
  | _ => False
  end.
Proof using Ancestry0.
  intros Hh Hs. unfold apply_forced_changes. rewrite forced_filter by apply Hs.
  assert (Forall is_forced (filter (λ c, effective_number c = num h) (pending_forced_changes s)))
    as Hf.
  { apply Forall_forall. intros c [_ Hc]%list_elem_of_filter.
    by apply (proj1 (Forall_forall _ _) (wf_forced s Hs)). }
  pose proof (apply_first_ok s h _ Hh Hf) as Ha.
  destruct (apply_first isd s h _) as [[[m s']|]| |]; try done.
  - destruct Ha as (c&[Hn Hc]%list_elem_of_filter&Hch&Hk&->). exists c. split_and!; try done.
    intros c' Hc' Hch'. by eapply forced_unique; [apply Hs|..].
  - intros c Hc Hch Heq. apply (Ha c); [|done]. by apply list_elem_of_filter.
Qed.

(** A pending change is due at a finalized block once its delay is over. *)
Definition due (h : H) (c : PendingChange) : bool := effective_number c <=? num h.

Lemma apply_standard_ok s h :
  known h → wf_set s → reverts (pending_standard_changes s) (num h) = false →
  (∀ r, r ∈ roots (pending_standard_changes s) → candidate anc h (due h) r →
    apply_standard_changes isd s h (num h) =
    if decide (Exists (λ c, anc (hash c) h) (children r))
    then (s, Err UnfinalizedAncestor)
    else (MkAuthoritySet (next_authorities (data r)) (next_id (set_id s))
            (MkForkTree (filter (on_branch anc h) (children r)) (Some (num h))) [],
          Ok (MkStatus true (Some (h, num h))))) ∧
  ((∀ r, r ∈ roots (pending_standard_changes s) → ¬ candidate anc h (due h) r) →
    let kept := decide (Forall (on_branch anc h) (roots (pending_standard_changes s))) in
    apply_standard_changes isd s h (num h) =
    (MkAuthoritySet (current_authorities s) (set_id s)
       (MkForkTree (filter (on_branch anc h) (roots (pending_standard_changes s))) (Some (num h)))
       (if kept then pending_forced_changes s else []),
     Ok (MkStatus (if kept then false else true) None))).
Proof using Ancestry0.
  intros Hh Hs Hrev. unfold apply_standard_changes.
  destruct (fwdi_ok isd anc known num _ h (due h) Hh (wf_tree s Hs) Hrev) as [Hc Hn]. unfold due in *.
  split.
  - intros r Hr Hrc. specialize (Hc r Hr Hrc). destruct (decide (Exists _ (children r))); rewrite Hc; [|done].
    by destruct s.
  - intros Hnc. rewrite (Hn Hnc). by case_decide.
Qed.

Lemma apply_standard_reverts s h :
  reverts (pending_standard_changes s) (num h) = true →
  apply_standard_changes isd s h (num h) = (s, Err Revert).
Proof.
  intros Hrev. unfold apply_standard_changes, finalize_with_descendent_if. rewrite Hrev.
  by destruct s.
Qed.

Lemma entries_filter (P : H * Z * PendingChange → Prop) (Q : Node H PendingChange → Prop)
    `{!∀ x, Decision (Q x)} l : Forall P (entries l) → Forall P (entries (filter Q l)).
Proof.
  unfold entries. rewrite !Forall_map, !Forall_forall. intros HP m (c&Hc&Hm)%elem_of_forest_nodes.
  apply list_elem_of_filter in Hc as [_ Hc]. apply HP, elem_of_forest_nodes. eauto.
Qed.

Lemma entries_children (P : H * Z * PendingChange → Prop) l r :
  r ∈ l → Forall P (entries l) → Forall P (entries (children r)).
Proof.
  unfold entries. rewrite !Forall_map, !Forall_forall. intros Hr HP m Hm.
  apply HP, elem_of_forest_nodes. exists r. split; [done|]. rewrite nodes_eq. by right.
Qed.

Definition due_root (s : AuthoritySet) (h : H) : option (Node H PendingChange) :=
  find (λ r, bool_decide (candidate anc h (due h) r)) (roots (pending_standard_changes s)).

Lemma due_root_spec s h :
  match due_root s h with
  | Some r => r ∈ roots (pending_standard_changes s) ∧ candidate anc h (due h) r
  | None => ∀ r, r ∈ roots (pending_standard_changes s) → ¬ candidate anc h (due h) r
  end.
Proof.
  unfold due_root. destruct (find _ _) as [r|] eqn:Hf.
  - apply find_some in Hf as [Hr Hc%bool_decide_eq_true]. by rewrite list_elem_of_In.
  - intros r Hr%list_elem_of_In Hc. pose proof (find_none _ _ Hf r Hr) as Hr'.
    by apply bool_decide_eq_false in Hr'.
Qed.

(** Handovers so far, given the outcome of a finalization. *)
Definition handovers (k : nat) (r : result (Error E) Status) : nat :=
  match r with
  | Ok (MkStatus _ (Some _)) => S k
  | _ => k
  end.

Lemma apply_standard_wf s h s' r :
  known h → wf_set s → apply_standard_changes isd s h (num h) = (s', r) →
  wf_set s' ∧ set_id s' = (if decide (handovers 0 r = 0)%nat then set_id s else next_id (set_id s)).
Proof using Ancestry0.
  intros Hh Hs Happ. destruct (reverts (pending_standard_changes s) (num h)) eqn:Hrev.
  { rewrite apply_standard_reverts in Happ by done. by simplify_eq. }
  destruct (apply_standard_ok s h Hh Hs Hrev) as [Hc Hn].
  pose proof (due_root_spec s h) as Hd. destruct (due_root s h) as [root|].
  - destruct Hd as [Hr Hcand]. rewrite (Hc root Hr Hcand) in Happ.
    destruct (decide (Exists _ (children root))); simplify_eq; [done|]. split; [|done].
    constructor; cbn; [| |constructor..].
    + by eapply wf_filter, wf_node_children, wf_forest_node, Hr; [|apply Hs].
    + eapply entries_filter, entries_children; [done|]. apply Hs.
  - specialize (Hn Hd). cbn zeta in Hn. rewrite Hn in Happ. simplify_eq. split; [|done].
    constructor; cbn; [apply wf_filter, Hs|apply entries_filter, Hs| | |];
      case_decide; try apply Hs; constructor.
Qed.

(** ** Histories *)

(** The states an authority set goes through, with the number of handovers. *)
Inductive reach (initial : AuthorityList) : nat → AuthoritySet → Prop :=
| reach_genesis : reach initial 0 (genesis initial)
| reach_add k s c :
    reach initial k s → located c → signalled_in_order s c →
    reach initial k (add_pending_change isd s c).1
| reach_forced k s h m s' :
    reach initial k s → known h → apply_forced_changes isd s h (num h) = Ok (Some (m, s')) →
    reach initial (S k) s'
| reach_standard k s h s' r :
    reach initial k s → known h → apply_standard_changes isd s h (num h) = (s', r) →
    reach initial (handovers k r) s'.

Lemma fresh_wf l id : wf_set (MkAuthoritySet l id new []).
Proof.
  constructor; cbn; [|constructor..]. split; [constructor|]. by intros m ?%not_elem_of_nil.
Qed.

Lemma next_id_of_nat k : next_id (Z.of_nat k mod 2 ^ 64) = Z.of_nat (S k) mod 2 ^ 64.
Proof. unfold next_id. rewrite Zplus_mod_idemp_l. f_equal. lia. Qed.

Lemma add_pending_id s c : set_id (add_pending_change isd s c).1 = set_id s.
Proof.
  unfold add_pending_change, add_forced_change, add_standard_change.
  destruct (delay_kind c); [by destruct (import _ _ _ _ _)|by destruct (check_forced _ _ _)].
Qed.

Lemma pending_changes_perm s :
  pending_changes s ≡ₚ
  map snd (entries (roots (pending_standard_changes s))) ++ pending_forced_changes s.
Proof.
  unfold pending_changes. apply Permutation_app_tail.
  assert (iter (pending_standard_changes s) =
          entries (reverse (roots (pending_standard_changes s)))) as ->.
  { unfold iter, entries, node_iter. by rewrite iterate_ok. }
  apply Permutation_map, entries_perm, reverse_Permutation.
Qed.

(** A node of the tree, whose children are known blocks under their numbers. *)
Definition visited (n : Node H PendingChange) : Prop :=
  known (hash n) ∧ ∀ c, c ∈ children n → known (hash c) ∧ number c = num (hash c).

Lemma scan_sound (pred : PendingChange → bool) h i l j m :
  known h → Forall visited l →
  scan isd pred h (num h) i l = Ok (Some (j, m)) →
  m ∈ l ∧ candidate anc h pred m ∧ ¬ Exists (λ c, anc (hash c) h) (children m).
Proof using Ancestry0.
  intros Hh Hl. revert i. induction Hl as [|n l [Hn Hc] Hl IH]; intros i; cbn [scan]; [done|].
  assert (∀ i, scan isd pred h (num h) i l = Ok (Some (j, m)) →
    m ∈ n :: l ∧ candidate anc h pred m ∧ ¬ Exists (λ c, anc (hash c) h) (children m)) as Hrest.
  { intros i' Hs. destruct (IH i') as (?&?); [done|split; [by right|done]]. }
  destruct (pred (data n)) eqn:Hp; [|apply Hrest].
  rewrite (same_or_descendent_ok isd anc known num) by done. cbn [mbind result_bind].
  case_bool_decide as Hb; [|apply Hrest].
  rewrite (check_children_ok isd anc known num) by done.
  case_decide; cbn [mbind result_bind]; [done|]. intros [= <- <-].
  split_and!; [by left|by split|done].
Qed.

Lemma scan_complete (pred : PendingChange → bool) h i l :
  known h → Forall visited l →
  scan isd pred h (num h) i l = Ok None → ∀ m, m ∈ l → ¬ candidate anc h pred m.
Proof using Ancestry0.
  intros Hh Hl. revert i.
  induction Hl as [|n l [Hn Hc] Hl IH]; intros i; cbn [scan]; [by intros _ m ?%not_elem_of_nil|].
  intros Hs m [->|Hm]%elem_of_cons.
  - intros [Hb Hp]. rewrite Hp, (same_or_descendent_ok isd anc known num) in Hs by done.
    cbn [mbind result_bind] in Hs. rewrite bool_decide_eq_true_2 in Hs by done.
    by destruct (check_children isd h (num h) (children n)).
  - assert (∃ i, scan isd pred h (num h) i l = Ok None) as [i' Hi'].
    { destruct (pred (data n)); [|eauto]. rewrite (same_or_descendent_ok isd anc known num) in Hs by done.
      cbn [mbind result_bind] in Hs. case_bool_decide; [|eauto].
      by destruct (check_children isd h (num h) (children n)). }
    by apply (IH i').
Qed.

Lemma scan_errors (pred : PendingChange → bool) h i l :
  known h → Forall visited l →
  match scan isd pred h (num h) i l with
  | Ok _ => True
  | Err e => e = UnfinalizedAncestor
  | Panic => False
  end.
Proof using Ancestry0.
  intros Hh Hl. revert i. induction Hl as [|n l [Hn Hc] Hl IH]; intros i; cbn [scan]; [done|].
  destruct (pred (data n)); [|by apply IH].
  rewrite (same_or_descendent_ok isd anc known num) by done. cbn [mbind result_bind].
  case_bool_decide; [|by apply IH].
  rewrite (check_children_ok isd anc known num) by done.
  by case_decide.
Qed.

Lemma node_iter_visited s : wf_set s → Forall visited (node_iter (pending_standard_changes s)).
Proof using Ancestry0.
  intros Hs. unfold node_iter. rewrite iterate_ok by done.
  rewrite (forest_nodes_perm _ _ (reverse_Permutation _)). apply Forall_forall. intros n Hn.
  assert (wf_node anc known num n) as Hw by (eapply wf_forest_subnode; [apply Hs|done]).
  split; [by apply (wf_node_known anc known num)|]. intros c Hc.
  assert (wf_node anc known num c) as Hwc by (eapply wf_forest_node; [by apply (wf_node_children isd anc known num)|done]).
  split; [by apply (wf_node_known anc known num)|by apply (wf_node_number anc known num)].
Qed.

(** ** Correctness of the operations *)

(** C8. Along every history of the authority set, from genesis, through
    signalled changes, best blocks and finalized blocks: the pending standard
    changes form a well-formed fork tree indexed by the block that signals
    them, the pending forced changes are sorted by the block they take effect
    at and are pairwise on different forks, and the set id is the number of
    handovers so far (on 64 bits). *)
Theorem reach_invariant initial k s :
  reach initial k s → wf_set s ∧ set_id s = Z.of_nat k mod 2 ^ 64.
Proof using Ancestry0.
  induction 1 as [|k s c _ [IH Hid]|k s h m s' _ [IH Hid] Hh Hf|k s h s' r _ [IH Hid] Hh Happ].
  - split; [apply fresh_wf|done].
  - rewrite add_pending_id. auto using add_pending_wf.
  - pose proof (apply_forced_ok s h Hh IH) as Ha. rewrite Hf in Ha.
    destruct Ha as (c&_&_&_&_&_&->). cbn [set_id]. rewrite Hid, next_id_of_nat.
    split; [|done]. apply fresh_wf.
  - destruct (apply_standard_wf s h s' r Hh IH Happ) as [Hwf ->]. split; [done|]. rewrite Hid.
    destruct r as [[ch [b|]]| |]; cbn; try done. apply next_id_of_nat.
Qed.

(** [add_pending_change] records the change, and only it, or refuses it
    leaving the set as it was: a standard change below the last finalized block
    or signalled twice by a block, a forced change on the fork of another
    pending forced change.  The current authorities never change. *)
Theorem add_pending_change_correct s c :
  wf_set s → located c → signalled_in_order s c →
  let '(s', r) := add_pending_change isd s c in
  current s' = current s ∧
  match r with
  | Ok _ => pending_changes s' ≡ₚ c :: pending_changes s
  | Err Revert => s' = s ∧ delay_kind c = Finalized ∧
      reverts (pending_standard_changes s) (canon_height c) = true
  | Err Duplicate => s' = s ∧ delay_kind c = Finalized ∧
      canon_hash c ∈ hashes (roots (pending_standard_changes s))
  | Err UnfinalizedAncestor => s' = s ∧ delay_kind c ≠ Finalized ∧
      ∃ c', c' ∈ pending_forced_changes s ∧ on_fork c c'
  | _ => False
  end.
Proof using Ancestry0.
  intros Hs Hloc Ho. unfold add_pending_change, signalled_in_order in *.
  destruct (delay_kind c) as [|m] eqn:Hk.
  - destruct Hloc as [Hknown Hnum]. unfold add_standard_change. rewrite Hnum.
    pose proof (import_ok isd anc known num _ (canon_hash c) c Hknown (wf_tree s Hs) Ho) as Hi.
    destruct (import isd _ _ _ _) as [t r]. destruct Hi as (_&_&Hi). split; [done|].
    destruct (reverts _ _); [destruct Hi as [-> ->]; by destruct s|].
    case_decide; [destruct Hi as [-> ->]; by destruct s|]. destruct Hi as [Hp ->].
    cbn [mbind result_bind]. rewrite !pending_changes_perm. cbn. by rewrite Hp.
  - unfold add_forced_change. rewrite check_forced_ok by (apply Hloc || apply Hs). case_decide as Hex.
    + apply Exists_exists in Hex. by destruct s.
    + split; [done|]. rewrite !pending_changes_perm. cbn. rewrite vec_insert_perm.
      solve_Permutation.
Qed.

(** [apply_forced_changes] at a best block never fails and never meets a
    change that is not forced.  It hands over exactly when the one pending
    forced change on the branch of the block takes effect at it: the change's
    authorities become the current ones under the next set id, every pending
    change is dropped, and its median last finalized number is returned.  The
    search that stops at the first later change misses none. *)
Theorem apply_forced_changes_correct s h :
  known h → wf_set s →
  match apply_forced_changes isd s h (num h) with
  | Ok (Some (m, s')) =>
      ∃ c, c ∈ pending_forced_changes s ∧ anc (canon_hash c) h ∧
        effective_number c = num h ∧ delay_kind c = Best m ∧
        (∀ c', c' ∈ pending_forced_changes s → anc (canon_hash c') h → c' = c) ∧
        s' = MkAuthoritySet (next_authorities c) (next_id (set_id s)) new []
  | Ok None => ∀ c, c ∈ pending_forced_changes s → anc (canon_hash c) h →
      effective_number c ≠ num h
  | _ => False
  end.
Proof using Ancestry0. apply apply_forced_ok. Qed.

(** [apply_standard_changes] at a finalized block: a root of the pending
    changes that is due on the branch of the block hands over to its
    authorities under the next set id, its children on the branch staying
    pending and the forced changes being dropped, unless the block is also
    beyond one of the children, an error that changes nothing.  Without such a
    root the authorities stay, the changes of other forks are dropped, and the
    forced changes are dropped exactly when some standard change was. *)
Theorem apply_standard_changes_correct s h :
  known h → wf_set s → reverts (pending_standard_changes s) (num h) = false →
  match due_root s h with
  | Some r =>
      r ∈ roots (pending_standard_changes s) ∧ candidate anc h (due h) r ∧
      apply_standard_changes isd s h (num h) =
      if decide (Exists (λ c, anc (hash c) h) (children r))
      then (s, Err UnfinalizedAncestor)
      else (MkAuthoritySet (next_authorities (data r)) (next_id (set_id s))
              (MkForkTree (filter (on_branch anc h) (children r)) (Some (num h))) [],
            Ok (MkStatus true (Some (h, num h))))
  | None =>
      (∀ r, r ∈ roots (pending_standard_changes s) → ¬ candidate anc h (due h) r) ∧
      let kept := decide (Forall (on_branch anc h) (roots (pending_standard_changes s))) in
      apply_standard_changes isd s h (num h) =
      (MkAuthoritySet (current_authorities s) (set_id s)
         (MkForkTree (filter (on_branch anc h) (roots (pending_standard_changes s)))
            (Some (num h)))
         (if kept then pending_forced_changes s else []),
       Ok (MkStatus (if kept then false else true) None))
  end.
Proof using Ancestry0.
  intros Hh Hs Hrev. destruct (apply_standard_ok s h Hh Hs Hrev) as [Hc Hn].
  pose proof (due_root_spec s h) as Hd. destruct (due_root s h) as [r|]; [|auto].
  destruct Hd as [Hr Hcand]. auto.
Qed.

(** [enacts_standard_change] predicts [apply_standard_changes]: when it
    answers [Some true], finalizing the block hands over to the authorities of a
    root whose change takes effect at that very block; [Some false] means that
    a change that is not a root takes effect at it; [None] that no pending
    change on the branch does. *)
Theorem enacts_standard_change_correct s h :
  known h → wf_set s →
  match enacts_standard_change isd s h (num h) with
  | Ok (Some true) =>
      ∃ r, r ∈ roots (pending_standard_changes s) ∧ effective_number (data r) = num h ∧
        (apply_standard_changes isd s h (num h)).2 = Ok (MkStatus true (Some (h, num h))) ∧
        current (apply_standard_changes isd s h (num h)).1 =
          (next_id (set_id s), next_authorities (data r))
  | Ok (Some false) =>
      ∃ m, m ∈ forest_nodes (roots (pending_standard_changes s)) ∧
        (m ∉ roots (pending_standard_changes s)) ∧
        effective_number (data m) = num h ∧ (hash m = h ∨ anc (hash m) h)
  | Ok None =>
      ∀ m, m ∈ forest_nodes (roots (pending_standard_changes s)) →
        (hash m = h ∨ anc (hash m) h) → effective_number (data m) ≠ num h
  | Err e => e = Revert ∨ e = UnfinalizedAncestor
  | Panic => False
  end.
Proof using Ancestry0.
  intros Hh Hs. unfold enacts_standard_change, finalizes_any_with_descendent_if.
  destruct (reverts (pending_standard_changes s) (num h)) eqn:Hrev; [by left|].
  pose proof (node_iter_visited s Hs) as Hv.
  destruct (scan isd _ h (num h) 0 (node_iter (pending_standard_changes s)))
    as [[[j m]|]|e|] eqn:Hscan; cbn [mbind result_bind option_map snd].
  - apply scan_sound in Hscan as (Hm&[Hb Hp%Z.eqb_eq]&Hex); [|done..].
    unfold node_iter in Hm. rewrite iterate_ok in Hm by done.
    rewrite (forest_nodes_perm _ _ (reverse_Permutation _)) in Hm.
    destruct (existsb _ _) eqn:He.
    + apply existsb_exists in He as (r&Hr&Hrm%bool_decide_eq_true). apply list_elem_of_In in Hr.
      rewrite (wf_forest_hash_inj isd anc known num _ r m (wf_tree s Hs) (root_in_forest _ _ Hr) Hm Hrm)
        in Hr.
      destruct (apply_standard_ok s h Hh Hs Hrev) as [Happ _].
      rewrite (Happ m Hr) by (split; [done|]; apply Z.leb_le; lia).
      rewrite decide_False by done. exists m. by split_and!.
    + exists m. split_and!; [done| |done|done]. intros Hr%list_elem_of_In.
      apply not_true_iff_false in He. apply He, existsb_exists. exists m.
      by rewrite bool_decide_eq_true.
  - intros m Hm Hb Heq. eapply (scan_complete _ _ _ _ Hh Hv Hscan m).
    + unfold node_iter. rewrite iterate_ok by done.
      by rewrite (forest_nodes_perm _ _ (reverse_Permutation _)).
    + split; [done|]. by apply Z.eqb_eq.
  - right. pose proof (scan_errors (λ c, effective_number c =? num h) h 0 _ Hh Hv) as He. by rewrite Hscan in He.
  - pose proof (scan_errors (λ c, effective_number c =? num h) h 0 _ Hh Hv) as He. by rewrite Hscan in He.
Qed.
End invariant.

(** [current_limit] is the least block number, from the given one on, at
    which the authority set may change by a pending root. *)
Theorem current_limit_correct s min :
  match current_limit s min with
  | Some n =>
      min ≤ n ∧ (∃ r, r ∈ roots (pending_standard_changes s) ∧ effective_number (data r) = n) ∧
      ∀ r, r ∈ roots (pending_standard_changes s) → min ≤ effective_number (data r) →
        n ≤ effective_number (data r)
  | None => ∀ r, r ∈ roots (pending_standard_changes s) → effective_number (data r) < min
  end.
Proof.
  unfold current_limit. set (l := filter _ _).
  assert (∀ r, r ∈ l ↔ min ≤ effective_number (data r) ∧ r ∈ roots (pending_standard_changes s))
    as Hin by (intros r; unfold l; by rewrite list_elem_of_filter).
  pose proof (min_by_key_spec (λ root, effective_number (data root)) l) as Hl.
  destruct (min_by_key _ l) as [r|]; simpl.
  - destruct Hl as [[Hm Hr]%Hin Hmin]. split_and!; [done|eauto|].
    intros r' Hr' Hm'. by apply Hmin, Hin.
  - intros r Hr. destruct (decide (min ≤ effective_number (data r))); [|lia].
    assert (r ∈ l) as Hrl by (by apply Hin). rewrite Hl in Hrl. by apply not_elem_of_nil in Hrl.
Qed.
End authorities.

Arguments AuthoritySet : clear implicits.
Arguments PendingChange : clear implicits.

(** ** A concrete history

    Two changes are signalled on the blocks of [ForkTree.Sample], a standard one
    on the left fork and a forced one on the right. *)
Module History.
Import ForkTree.Sample.

Definition left_change : PendingChange block nat :=
  MkPendingChange [(1%nat, 10)] 1 1 [false] Finalized.
Definition right_change : PendingChange block nat :=
  MkPendingChange [(2%nat, 20)] 2 1 [true] (Best 5).

Definition start : AuthoritySet block nat := genesis [(0%nat, 1)].
Definition with_left : AuthoritySet block nat := (add_pending_change isd start left_change).1.
Definition with_both : AuthoritySet block nat := (add_pending_change isd with_left right_change).1.
Definition after_left : AuthoritySet block nat :=
  (apply_standard_changes isd with_both [false; false] 2).1.

Lemma with_left_reached : reach isd anc (λ _, True) num [(0%nat, 1)] 0 with_left.
Proof.
  apply reach_add; [apply reach_genesis|done|]. by intros m ?%not_elem_of_nil.
Qed.

Lemma with_both_reached : reach isd anc (λ _, True) num [(0%nat, 1)] 0 with_both.
Proof.
  apply reach_add; [apply with_left_reached|done|]. constructor.
Qed.

Lemma with_left_wf : wf_set anc (λ _, True) num with_left.
Proof.
  apply (add_pending_wf isd anc (λ _, True) num); [apply (fresh_wf anc (λ _, True) num)|done|].
  by intros m ?%not_elem_of_nil.
Qed.

Lemma with_both_wf : wf_set anc (λ _, True) num with_both.
Proof. apply (add_pending_wf isd anc (λ _, True) num); [apply with_left_wf|done|constructor]. Qed.

Lemma reach_invariant_witness :
  wf_set anc (λ _, True) num after_left ∧ set_id after_left = 1.
Proof.
  apply (reach_invariant isd anc (λ _, True) num [(0%nat, 1)] 1 after_left).
  exact (reach_standard isd anc (λ _, True) num _ _ _ [false; false] _ _ with_both_reached
           I (surjective_pairing _)).
Defined.

Lemma add_pending_change_correct_witness :
  current with_both = current with_left ∧
  pending_changes with_both ≡ₚ right_change :: pending_changes with_left.
Proof.
  apply (add_pending_change_correct isd anc (λ _, True) num with_left right_change).
  - apply with_left_wf.
  - split; [exact I|reflexivity].
  - constructor.
Defined.

(** The forced change takes effect two blocks after its signal. *)
Lemma apply_forced_changes_correct_witness :
  ∃ c, c ∈ pending_forced_changes with_both ∧ anc (canon_hash c) [true; true; false] ∧
    effective_number c = 3 ∧ delay_kind c = Best 5 ∧
    (∀ c', c' ∈ pending_forced_changes with_both → anc (canon_hash c') [true; true; false] → c' = c) ∧
    MkAuthoritySet (H := block) [(2%nat, 20)] 1 new [] =
      MkAuthoritySet (next_authorities c) (next_id (set_id with_both)) new [].
Proof.
  exact (apply_forced_changes_correct isd anc (λ _, True) num with_both [true; true; false] I with_both_wf).
Defined.

Lemma apply_standard_changes_correct_witness :
  apply_standard_changes isd with_both [false; false] 2 =
  (MkAuthoritySet (H := block) [(1%nat, 10)] 1 (MkForkTree [] (Some 2)) [],
   Ok (MkStatus true (Some ([false; false], 2)))).
Proof.
  exact (proj2 (proj2 (apply_standard_changes_correct isd anc (λ _, True) num with_both [false; false]
    I with_both_wf eq_refl))).
Defined.

Lemma enacts_standard_change_correct_witness :
  ∃ r, r ∈ roots (pending_standard_changes with_both) ∧ effective_number (data r) = 2 ∧
    (apply_standard_changes isd with_both [false; false] 2).2 =
      Ok (MkStatus true (Some ([false; false], 2))) ∧
    current (apply_standard_changes isd with_both [false; false] 2).1 =
      (next_id (set_id with_both), next_authorities (data r)).
Proof.
  exact (enacts_standard_change_correct isd anc (λ _, True) num with_both [false; false] I with_both_wf).
Defined.
End History.
