(* ===== verification/HeaderMetadata.v ===== *)
(** * Header metadata and block ancestry
    (src/primitives/blockchain/src/header_metadata.rs, the ancestry query of
    src/client/api/src/lib.rs, and the backends of src/client/db/src/lib.rs and
    src/client/src/in_mem.rs)

    Headers are looked up through a backend that keeps a cache of metadata; each
    metadata carries a link to an ancestor that the queries shorten as they go.
    The theorems say that the queries terminate and answer with the ancestry of
    the block tree whatever is in the cache, and so discharge the [Ancestry]
    interface that the fork tree and its clients are verified against. *)
From stdpp Require Import strings.
From S2P Require Import Prelude ForkTree.

Local Open Scope Z_scope.

Section header_metadata.
Context {H E : Type} `{Countable H}.

(** ** Data *)

Record HashAndNumber : Type := MkHashAndNumber {
  hn_number : Z;
  hn_hash : H;
}.

Record TreeRoute : Type := MkTreeRoute {
  route : list HashAndNumber;
  pivot : nat;
}.

(** What the trait [Header] gives of a header. *)
Record Header : Type := MkHeader {
  header_hash : H;
  header_number : Z;
  header_parent : H;
}.

Record CachedHeaderMetadata : Type := MkMetadata {
  hash : H;
  number : Z;
  parent : H;
  ancestor : H;
}.

(** [From<&Block::Header> for CachedHeaderMetadata] *)
Definition from_header (h : Header) : CachedHeaderMetadata :=
  MkMetadata (header_hash h) (header_number h) (header_parent h) (header_parent h).

(** The trait [HeaderMetadata]; a lookup may refresh the cache. *)
Class HeaderMetadata (S : Type) : Type := {
  header_metadata : H → S → S * (E + CachedHeaderMetadata);
  insert_header_metadata : H → CachedHeaderMetadata → S → S;
  remove_header_metadata : H → S → S;
}.

(** ** Queries

    State, errors, and [None] for a loop that runs out of fuel. *)
Section queries.
Context {S : Type} `{!HeaderMetadata S}.

Definition M (A : Type) : Type := S → option (S * (E + A)).

#[export] Instance M_mret : MRet M := λ A a s, Some (s, inr a).

#[export] Instance M_bind : MBind M := λ A B k m s,
  match m s with
  | Some (s', inr a) => k a s'
  | Some (s', inl e) => Some (s', inl e)
  | None => None
  end.

Definition get (h : H) : M CachedHeaderMetadata := λ s, Some (header_metadata h s).

Definition put (md : CachedHeaderMetadata) : M unit := λ s,
  Some (insert_header_metadata (hash md) md s, inr tt).

(** [while header.number > limit]: follow ancestor links that do not overshoot. *)
Fixpoint climb (fuel : nat) (header : CachedHeaderMetadata) (limit : Z) : M CachedHeaderMetadata :=
  match fuel with
  | O => λ _, None
  | Datatypes.S fuel' =>
      if limit <? number header then
        a ← get (ancestor header);
        if limit <=? number a then climb fuel' a limit else mret header
      else mret header
  end.

(** [while header_one.hash != header_two.hash]: follow parent links. *)
Fixpoint meet (fuel : nat) (one two : CachedHeaderMetadata) : M CachedHeaderMetadata :=
  match fuel with
  | O => λ _, None
  | Datatypes.S fuel' =>
      if decide (hash one = hash two) then mret one
      else if number two <? number one then
        p ← get (parent one); meet fuel' p two
      else
        p ← get (parent two); meet fuel' one p
  end.

(** Shorten the ancestor link of a header above the common ancestor. *)
Definition update_link (orig lca : CachedHeaderMetadata) : M unit :=
  if number lca <? number orig
  then put (MkMetadata (hash orig) (number orig) (parent orig) (hash lca))
  else mret tt.

Definition steps (n : Z) : nat := Datatypes.S (Z.to_nat n).

Definition lowest_common_ancestor (id_one id_two : H) : M HashAndNumber :=
  orig_one ← get id_one;
  orig_two ← get id_two;
  one ← climb (steps (number orig_one)) orig_one (number orig_two);
  two ← climb (steps (number orig_two)) orig_two (number one);
  lca ← meet (steps (number one) + steps (number two)) one two;
  _ ← update_link orig_one lca;
  _ ← update_link orig_two lca;
  mret (MkHashAndNumber (number lca) (hash lca)).

Definition hash_and_number (md : CachedHeaderMetadata) : HashAndNumber :=
  MkHashAndNumber (number md) (hash md).

(** [while to.number > from.number], and the same loop from the other side. *)
Fixpoint descend (fuel : nat) (header : CachedHeaderMetadata) (limit : Z)
    (branch : list HashAndNumber) : M (CachedHeaderMetadata * list HashAndNumber) :=
  match fuel with
  | O => λ _, None
  | Datatypes.S fuel' =>
      if limit <? number header then
        p ← get (parent header);
        descend fuel' p limit (branch ++ [hash_and_number header])
      else mret (header, branch)
  end.

(** [while to.hash != from.hash] *)
Fixpoint converge (fuel : nat) (from to : CachedHeaderMetadata)
    (from_branch to_branch : list HashAndNumber) :
    M (CachedHeaderMetadata * list HashAndNumber * list HashAndNumber) :=
  match fuel with
  | O => λ _, None
  | Datatypes.S fuel' =>
      if decide (hash to = hash from) then mret (to, from_branch, to_branch)
      else
        to' ← get (parent to);
        from' ← get (parent from);
        converge fuel' from' to' (from_branch ++ [hash_and_number from])
          (to_branch ++ [hash_and_number to])
  end.

Definition tree_route (from to : H) : M TreeRoute :=
  from0 ← get from;
  to0 ← get to;
  r1 ← descend (steps (number to0)) to0 (number from0) [];
  r2 ← descend (steps (number from0)) from0 (number r1.1) [];
  r3 ← converge (steps (number r1.1)) r2.1 r1.1 r2.2 r1.2;
  let '(common, from_branch, to_branch) := r3 in
  mret (MkTreeRoute (from_branch ++ [hash_and_number common] ++ reverse to_branch)
         (length from_branch)).

(** [is_descendent_of(client, current)(base, hash)] *)
Definition is_descendent_of (current : option (H * H)) (base h : H) : M bool :=
  if decide (base = h) then mret false
  else
    let query (h : H) : M bool :=
      ancestor ← lowest_common_ancestor h base; mret (bool_decide (hn_hash ancestor = base)) in
    match current with
    | Some (current_hash, current_parent_hash) =>
        if decide (base = current_hash) then mret false
        else if decide (h = current_hash) then
          if decide (base = current_parent_hash) then mret true else query current_parent_hash
        else query h
    | None => query h
    end.

(** The closure, as the fork tree calls it on a client in a given state. *)
Definition client_oracle (s : S) (current : option (H * H)) (base h : H) : E + bool :=
  match is_descendent_of current base h s with
  | Some (_, r) => r
  | None => inr false
  end.
End queries.

(** ** Routes *)

(** [&self.route[..self.pivot]]; [None] is the panic of a slice out of range. *)
Definition retracted (t : TreeRoute) : option (list HashAndNumber) :=
  if decide (pivot t ≤ length (route t))%nat then Some (take (pivot t) (route t)) else None.

Definition common_block (t : TreeRoute) : option HashAndNumber := route t !! pivot t.

Definition enacted (t : TreeRoute) : option (list HashAndNumber) :=
  if decide (pivot t + 1 ≤ length (route t))%nat then Some (drop (pivot t + 1) (route t)) else None.

(** ** Backends *)

(** The crate [lru]: a bounded map that evicts the least recently used key. *)
Class Lru (C : Type) : Type := {
  lru_new : Z → C;
  lru_get : H → C → option CachedHeaderMetadata * C;
  lru_put : H → CachedHeaderMetadata → C → C;
  lru_pop : H → C → C;
}.

Definition LRU_CACHE_SIZE : Z := 5000.

Section backends.
Context {C : Type} `{!Lru C}.

(** [HeaderMetadataCache] *)
Definition cache_new (capacity : Z) : C := lru_new capacity.
Definition cache_default : C := lru_new LRU_CACHE_SIZE.

Definition cache_header_metadata (h : H) (c : C) : C * (string + CachedHeaderMetadata) :=
  let '(o, c') := lru_get h c in
  (c', match o with Some md => inr md | None => inl "header metadata not found in cache"%string end).

Definition cache_insert_header_metadata (h : H) (md : CachedHeaderMetadata) (c : C) : C :=
  lru_put h md c.

Definition cache_remove_header_metadata (h : H) (c : C) : C := lru_pop h c.

(** [BlockchainDb]: the cache in front of the header column of the database,
    [header] being the read of that column. *)
Context (header : H → E + option Header) (unknown_block : H → E).

Definition db_header_metadata (h : H) (c : C) : C * (E + CachedHeaderMetadata) :=
  match cache_header_metadata h c with
  | (c', inr md) => (c', inr md)
  | (c', inl _) =>
      match header h with
      | inl e => (c', inl e)
      | inr (Some hd) =>
          let md := from_header hd in
          (cache_insert_header_metadata (hash md) md c', inr md)
      | inr None => (c', inl (unknown_block h))
      end
  end.

Definition db_backend : HeaderMetadata C := {|
  header_metadata := db_header_metadata;
  insert_header_metadata := cache_insert_header_metadata;
  remove_header_metadata := cache_remove_header_metadata;
|}.

(** [in_mem::Blockchain]: no cache; the state is the map of block headers. *)
Definition mem_header_metadata (h : H) (blocks : gmap H Header) :
    gmap H Header * (E + CachedHeaderMetadata) :=
  (blocks, match blocks !! h with
           | Some hd => inr (from_header hd)
           | None => inl (unknown_block h)
           end).

Definition mem_backend : HeaderMetadata (gmap H Header) := {|
  header_metadata := mem_header_metadata;
  insert_header_metadata := λ _ _ blocks, blocks;
  remove_header_metadata := λ _ blocks, blocks;
|}.
End backends.

(** ** The block tree

    Each known block with its number and its parent. *)
Section chain.
Context (chain : gmap H (Z * H)).

Record wf_chain : Prop := {
  chain_parent : ∀ h n p, chain !! h = Some (n, p) →
    n = 0 ∨ 0 < n ∧ ∃ pp, chain !! p = Some (n - 1, pp);
  chain_genesis : ∀ h h' p p', chain !! h = Some (0, p) → chain !! h' = Some (0, p') → h = h';
}.

Definition known (h : H) : Prop := is_Some (chain !! h).

Definition num (h : H) : Z := default 0 (fst <$> chain !! h).

(** The block [k] generations above. *)
Fixpoint up (k : nat) (h : H) : option H :=
  match k with
  | O => Some h
  | Datatypes.S k' =>
      '(n, p) ← chain !! h;
      if 0 <? n then up k' p else None
  end.

(** Strict ancestry. *)
Definition anc (a b : H) : Prop :=
  num a < num b ∧ up (Z.to_nat (num b - num a)) b = Some a.

#[export] Instance anc_dec : RelDecision anc.
Proof. intros a b. unfold anc. apply _. Defined.

(** Ancestry or equality. *)
Definition le (a b : H) : Prop := a = b ∨ anc a b.

Lemma up_add i j h : up (i + j) h = up i h ≫= up j.
Proof.
  revert h. induction i as [|i IH]; intros h; [done|]. simpl.
  destruct (chain !! h) as [[n p]|]; [simpl|done]. destruct (0 <? n); [apply IH|done].
Qed.

Lemma anc_trans' a b c : anc a b → anc b c → anc a c.
Proof.
  intros [Hab Ha] [Hbc Hb]. split; [lia|].
  replace (Z.to_nat (num c - num a)) with (Z.to_nat (num c - num b) + Z.to_nat (num b - num a))%nat by lia.
  by rewrite up_add, Hb.
Qed.

Lemma anc_chain' a b c : anc a c → anc b c → a = b ∨ anc a b ∨ anc b a.
Proof.
  intros [Hac Ha] [Hbc Hb].
  assert (∀ x y, num x < num y → num y < num c → up (Z.to_nat (num c - num x)) c = Some x →
    up (Z.to_nat (num c - num y)) c = Some y → anc x y) as Hlt.
  { intros x y Hxy Hyc Hx Hy. split; [done|].
    replace (Z.to_nat (num c - num x)) with (Z.to_nat (num c - num y) + Z.to_nat (num y - num x))%nat
      in Hx by lia.
    by rewrite up_add, Hy in Hx. }
  destruct (Z.lt_trichotomy (num a) (num b)) as [?|[Heq|?]]; [by eauto| |by eauto].
  rewrite Heq in Ha. left. congruence.
Qed.

Context (Hchain : wf_chain).

Lemma num_nonneg h : 0 ≤ num h.
Proof using Hchain.
  unfold num. destruct (chain !! h) as [[n p]|] eqn:Hh; simpl; [|done].
  destruct (chain_parent Hchain h n p Hh); lia.
Qed.

Lemma num_lookup h n p : chain !! h = Some (n, p) → num h = n.
Proof. unfold num. by intros ->. Qed.

Lemma up_known k h a : known h → up k h = Some a → known a ∧ num a = num h - Z.of_nat k.
Proof using Hchain.
  revert h. induction k as [|k IH]; intros h Hh Hup; [simplify_eq/=; split; [done|lia]|].
  simpl in Hup. destruct Hh as [[n p] Hh]. rewrite Hh in Hup. simpl in Hup.
  destruct (Z.ltb_spec 0 n); [|done]. destruct (chain_parent Hchain h n p Hh) as [|[_ [pp Hp]]]; [lia|].
  destruct (IH p) as [? Hn]; [by eexists|done|]. split; [done|].
  rewrite Hn, (num_lookup p _ _ Hp), (num_lookup h _ _ Hh). lia.
Qed.

Lemma le_up a b : known b → le a b ↔ ∃ k, up k b = Some a.
Proof using Hchain.
  intros Hb. split.
  - intros [->|[_ Hk]]; [by exists 0%nat|by eexists].
  - intros [k Hk]. destruct (up_known k b a Hb Hk) as [_ Hn]. destruct k as [|k]; [left; simpl in Hk; congruence|].
    right. split; [lia|]. replace (Z.to_nat (num b - num a)) with (Datatypes.S k) by lia. done.
Qed.

Lemma le_known a b : known b → le a b → known a.
Proof using Hchain. intros Hb [k Hk]%le_up; [|done]. by apply (up_known k b). Qed.

Lemma le_refl a : le a a.
Proof. by left. Qed.

Lemma le_trans a b c : le a b → le b c → le a c.
Proof. intros [->|Hab] [->|Hbc]; unfold le; eauto using anc_trans'. Qed.

Lemma le_num a b : le a b → num a ≤ num b.
Proof. intros [->|[? _]]; lia. Qed.

Lemma le_same a b : le a b → num a = num b → a = b.
Proof. intros [->|[? _]] Heq; [done|lia]. Qed.

Lemma le_antisym a b : le a b → le b a → a = b.
Proof. intros Hab Hba. apply le_same; [done|]. apply le_num in Hab, Hba. lia. Qed.

(** Ancestors of a block are ordered by number. *)
Lemma le_chain a b c : le a c → le b c → num a ≤ num b → le a b.
Proof.
  intros [->|Hac] [->|Hbc] Hn; try by left.
  - right. destruct Hbc. lia.
  - by right.
  - destruct (anc_chain' a b c Hac Hbc) as [|[|[? _]]]; [by left|by right|lia].
Qed.

(** A block other than genesis and its parent. *)
Lemma parent_le h n p : chain !! h = Some (n, p) → 0 < n → known p ∧ num p = n - 1 ∧ anc p h.
Proof using Hchain.
  intros Hh Hn. destruct (chain_parent Hchain h n p Hh) as [|[_ [pp Hp]]]; [lia|].
  pose proof (num_lookup p _ _ Hp) as Hnp. pose proof (num_lookup h _ _ Hh) as Hnh.
  split_and!; [by eexists|done|]. split; [lia|].
  replace (Z.to_nat (num h - num p)) with 1%nat by lia. simpl. rewrite Hh. simpl.
  by rewrite (proj2 (Z.ltb_lt 0 n)).
Qed.

Lemma le_parent h n p a : chain !! h = Some (n, p) → 0 < n → le a h → a ≠ h → le a p.
Proof using Hchain.
  intros Hh Hn Hle Hne. destruct (parent_le h n p Hh Hn) as (_&Hnp&Hp).
  apply (le_chain a p h); [done|by right|]. destruct Hle as [|[Hlt _]]; [done|].
  rewrite (num_lookup h _ _ Hh) in Hlt. lia.
Qed.

(** ** What a backend promises

    A known block has metadata with its number and parent, and whose ancestor
    link leads to a proper ancestor; storing such metadata keeps the promise. *)
Definition faithful (md : CachedHeaderMetadata) : Prop :=
  chain !! hash md = Some (number md, parent md) ∧
  (0 < number md → anc (ancestor md) (hash md)).

Class BackendLaws {S : Type} `{!HeaderMetadata S} (good : S → Prop) : Prop := {
  get_known : ∀ s h, good s → known h →
    ∃ s' md, header_metadata h s = (s', inr md) ∧ good s' ∧ faithful md ∧ hash md = h;
  put_faithful : ∀ s md, good s → faithful md → good (insert_header_metadata (hash md) md s);
}.

Section correctness.
Context {S : Type} `{!HeaderMetadata S} (good : S → Prop) `{!BackendLaws good}.

(** The query finishes without an error, leaves a good cache, and its answer
    satisfies [Q]. *)
Definition returns {A} (m : M A) (s : S) (Q : A → Prop) : Prop :=
  ∃ s' a, m s = Some (s', inr a) ∧ good s' ∧ Q a.

Lemma returns_ret {A} (a : A) s (Q : A → Prop) : good s → Q a → returns (mret a) s Q.
Proof. intros Hs Ha. by exists s, a. Qed.

Lemma returns_bind {A B} (m : M A) (k : A → M B) s (P : A → Prop) Q :
  returns m s P → (∀ s' a, good s' → P a → returns (k a) s' Q) → returns (m ≫= k) s Q.
Proof.
  intros (s'&a&Hm&Hs'&Ha) Hk. destruct (Hk s' a Hs' Ha) as (s''&b&Hk'&?&?).
  exists s'', b. split_and!; [|done..]. unfold mbind, M_bind. by rewrite Hm.
Qed.

Lemma returns_mono {A} (m : M A) s (P Q : A → Prop) :
  returns m s P → (∀ a, P a → Q a) → returns m s Q.
Proof. intros (s'&a&?&?&?) HPQ. exists s', a. auto. Qed.

Lemma get_ok s h : good s → known h → returns (get h) s (λ md, faithful md ∧ hash md = h).
Proof using BackendLaws0.
  intros Hs Hh. destruct (get_known s h Hs Hh) as (s'&md&Hg&?&?&?).
  exists s', md. split_and!; [|done..]. unfold get. by rewrite Hg.
Qed.

Lemma faithful_num md : faithful md → num (hash md) = number md ∧ 0 ≤ number md.
Proof using Hchain.
  intros [Hc _]. pose proof (num_lookup _ _ _ Hc) as Hn. split; [done|].
  rewrite <- Hn. by apply num_nonneg.
Qed.

Lemma faithful_known md : faithful md → known (hash md).
Proof. intros [Hc _]. by eexists. Qed.

(** Climbing moves to an ancestor-or-self that is not below the limit. *)
Lemma climb_ok fuel md limit s :
  good s → faithful md → 0 ≤ limit → (Z.to_nat (number md) < fuel)%nat →
  returns (climb fuel md limit) s (λ r, faithful r ∧ le (hash r) (hash md) ∧
    if decide (limit < number md) then limit ≤ number r else r = md).
Proof using BackendLaws0 Hchain.
  revert md s. induction fuel as [|fuel IH]; intros md s Hs Hmd Hlim Hf; [lia|]. cbn [climb].
  destruct (faithful_num md Hmd) as [Hnum Hpos].
  destruct (Z.ltb_spec limit (number md)) as [Hlt|].
  2:{ apply returns_ret; [done|]. rewrite decide_False by lia. split_and!; [done|apply le_refl|done]. }
  assert (anc (ancestor md) (hash md)) as Ha by (apply Hmd; lia).
  assert (known (ancestor md)) as Hk by (eapply le_known; [by apply faithful_known|by right]).
  eapply returns_bind; [by apply get_ok|]. intros s' a Hs' [Ha' Hha]. cbn beta.
  destruct (Z.leb_spec limit (number a)) as [Hle|].
  - destruct (faithful_num a Ha') as [Hna Hpa]. rewrite Hha in Hna.
    eapply returns_mono; [apply IH; [done|done|done|]|].
    + destruct Ha as [Ha _]. lia.
    + intros r (Hr&Hler&Hlim'). rewrite decide_True by done. split_and!; [done| |].
      * eapply le_trans; [done|]. rewrite Hha. by right.
      * case_decide; [done|]. by rewrite Hlim'.
  - apply returns_ret; [done|]. rewrite decide_True by done. split_and!; [done|apply le_refl|lia].
Qed.

(** Replacing a block by its parent, or by an ancestor that is not below the
    other block, keeps the common ancestors. *)
Lemma common_climb a a' b c :
  le a' a → num b ≤ num a' → le c a' ∧ le c b ↔ le c a ∧ le c b.
Proof.
  intros Ha' Hn. split; intros [Hca Hcb]; (split; [|done]).
  - eapply le_trans; [exact Hca|exact Ha'].
  - apply (le_chain c a' a); [done..|]. apply le_num in Hcb. lia.
Qed.

Lemma common_parent a n p b c :
  chain !! a = Some (n, p) → 0 < n → num b ≤ n → a ≠ b → le c p ∧ le c b ↔ le c a ∧ le c b.
Proof using Hchain.
  intros Ha Hn Hb Hne. destruct (parent_le a n p Ha Hn) as (_&_&Hp).
  split; intros [Hca Hcb]; (split; [|done]).
  - eapply le_trans; [exact Hca|by right].
  - eapply le_parent; [done..|]. intros ->. apply Hne, le_same; [done|].
    apply le_num in Hcb as Hcb'. rewrite (num_lookup a _ _ Ha) in *. lia.
Qed.

(** Two different blocks: the higher one is not genesis. *)
Lemma higher_not_genesis one two :
  faithful one → faithful two → hash one ≠ hash two → number one ≤ number two → 0 < number two.
Proof using Hchain.
  intros H1 H2 Hne Hle. destruct (faithful_num _ H1), (faithful_num _ H2).
  destruct (decide (number two = 0)) as [Hz|]; [|lia]. destruct Hne. destruct H1 as [H1 _], H2 as [H2 _].
  replace (number one) with 0 in H1 by lia. rewrite Hz in H2. by eapply chain_genesis.
Qed.

Lemma get_parent_ok md s :
  good s → faithful md → 0 < number md →
  returns (get (parent md)) s (λ p, faithful p ∧ hash p = parent md ∧ number p = number md - 1).
Proof using BackendLaws0 Hchain.
  intros Hs [Hc _] Hn. destruct (parent_le _ _ _ Hc Hn) as (Hk&Hnp&_).
  eapply returns_mono; [by apply get_ok|]. intros p [Hp Hhp]. split_and!; [done..|].
  destruct (faithful_num p Hp) as [<- _]. by rewrite Hhp.
Qed.

(** The loop over parent links ends at the greatest common ancestor. *)
Lemma meet_ok fuel one two s :
  good s → faithful one → faithful two →
  (Z.to_nat (number one) + Z.to_nat (number two) < fuel)%nat →
  returns (meet fuel one two) s (λ r, faithful r ∧
    ∀ c, le c (hash r) ↔ le c (hash one) ∧ le c (hash two)).
Proof using BackendLaws0 Hchain.
  revert one two s. induction fuel as [|fuel IH]; intros one two s Hs H1 H2 Hf; [lia|]. cbn [meet].
  destruct (faithful_num _ H1) as [Hn1 Hp1], (faithful_num _ H2) as [Hn2 Hp2].
  case_decide as Heq.
  { apply returns_ret; [done|]. split; [done|]. intros c. rewrite <- Heq. tauto. }
  destruct (Z.ltb_spec (number two) (number one)) as [Hlt|Hle].
  - eapply returns_bind; [apply get_parent_ok; [done|done|lia]|]. intros s' p Hs' (Hp&Hhp&Hnp). cbn beta.
    eapply returns_mono; [apply IH; [done..|lia]|]. intros r [Hr Hc]. split; [done|].
    intros c. rewrite Hc, Hhp. apply (common_parent _ (number one)); [apply H1|lia|lia|done].
  - assert (0 < number two) by (apply (higher_not_genesis one two); done).
    eapply returns_bind; [apply get_parent_ok; [done|done|lia]|]. intros s' p Hs' (Hp&Hhp&Hnp). cbn beta.
    eapply returns_mono; [apply IH; [done..|lia]|]. intros r [Hr Hc]. split; [done|].
    intros c. rewrite Hc, Hhp, (and_comm (le c (hash one))), (and_comm (le c (hash one))).
    apply (common_parent _ (number two)); [apply H2|lia|lia|congruence].
Qed.

Lemma update_link_ok orig lca s :
  good s → faithful orig → faithful lca → le (hash lca) (hash orig) →
  returns (update_link orig lca) s (λ _, True).
Proof using BackendLaws0 Hchain.
  intros Hs Ho Hl Hle. unfold update_link.
  destruct (Z.ltb_spec (number lca) (number orig)) as [Hlt|]; [|by apply returns_ret].
  eexists _, tt. split_and!; [done| |done].
  apply (put_faithful s (MkMetadata (hash orig) (number orig) (parent orig) (hash lca)) Hs).
  split; cbn; [apply Ho|]. intros _. destruct Hle as [Heq|]; [|done].
  destruct (faithful_num _ Ho) as [Hno _], (faithful_num _ Hl) as [Hnl _]. rewrite Heq in Hnl. lia.
Qed.

Lemma lca_ok one two s :
  good s → known one → known two →
  returns (lowest_common_ancestor one two) s (λ r,
    hn_number r = num (hn_hash r) ∧ ∀ c, le c (hn_hash r) ↔ le c one ∧ le c two).
Proof using BackendLaws0 Hchain.
  intros Hs H1 H2. unfold lowest_common_ancestor.
  eapply returns_bind; [by apply get_ok|]. intros s1 o1 Hs1 [Ho1 Hh1]. cbn beta.
  eapply returns_bind; [by apply get_ok|]. intros s2 o2 Hs2 [Ho2 Hh2]. cbn beta.
  destruct (faithful_num _ Ho1) as [Hn1 Hp1], (faithful_num _ Ho2) as [Hn2 Hp2].
  eapply returns_bind; [apply climb_ok; [done|done|done|unfold steps; lia]|].
  intros s3 a1 Hs3 (Ha1&Hle1&Hlim1). cbn beta. destruct (faithful_num _ Ha1) as [Hna1 Hpa1].
  eapply returns_bind; [apply climb_ok; [done|done|done|unfold steps; lia]|].
  intros s4 a2 Hs4 (Ha2&Hle2&Hlim2). cbn beta. destruct (faithful_num _ Ha2) as [Hna2 Hpa2].
  assert (∀ c, le c (hash a1) ∧ le c (hash a2) ↔ le c one ∧ le c two) as Hcommon.
  { intros c. subst one two. destruct (decide (number o2 < number o1)).
    - rewrite <- (common_climb (hash o1) (hash a1)) by (done || lia).
      rewrite (and_comm (le c (hash a1))), (and_comm (le c (hash a1))).
      case_decide; [apply common_climb; [done|lia]|by subst a2].
    - subst a1. rewrite (and_comm (le c (hash o1))), (and_comm (le c (hash o1))).
      case_decide; [apply common_climb; [done|lia]|by subst a2]. }
  eapply returns_bind; [apply meet_ok; [done|done|done|unfold steps; lia]|].
  intros s5 r Hs5 [Hr Hc]. cbn beta. destruct (faithful_num _ Hr) as [Hnr _].
  destruct (proj1 (Hcommon (hash r))) as [Hr1 Hr2]; [apply Hc, le_refl|].
  eapply returns_bind; [apply update_link_ok; [done|done|done|by rewrite Hh1]|]. intros s6 _ Hs6 _. cbn beta.
  eapply returns_bind; [apply update_link_ok; [done|done|done|by rewrite Hh2]|]. intros s7 _ Hs7 _. cbn beta.
  apply returns_ret; [done|]. cbn. split; [done|]. intros c. by rewrite Hc.
Qed.

(** *** Routes *)

(** The blocks from [h] down to, and without, [m]. *)
Definition branch (h : H) (l : list HashAndNumber) (m : H) : Prop :=
  up (length l) h = Some m ∧
  ∀ i x, l !! i = Some x → up i h = Some (hn_hash x) ∧ hn_number x = num (hn_hash x).

Lemma branch_nil h : branch h [] h.
Proof. by split. Qed.

Lemma branch_snoc h l md :
  branch h l (hash md) → faithful md → 0 < number md →
  branch h (l ++ [hash_and_number md]) (parent md).
Proof using Hchain.
  intros [Hup Hl] Hmd Hn. pose proof Hmd as [Hc _]. split.
  - rewrite length_app, up_add, Hup. simpl. rewrite Hc. simpl. by rewrite (proj2 (Z.ltb_lt _ _)).
  - intros i x [Hx|[Hi Hx]]%lookup_app_Some; [by apply Hl|].
    apply list_lookup_singleton_Some in Hx as [Hi' <-]. cbn.
    replace i with (length l) by lia. split; [done|]. by destruct (faithful_num _ Hmd).
Qed.

Lemma branch_le h l m : known h → branch h l m → le m h.
Proof using Hchain. intros Hh [Hup _]. apply le_up; [done|]. by eexists. Qed.

Lemma descend_ok h fuel md limit l s :
  good s → faithful md → 0 ≤ limit → (Z.to_nat (number md) < fuel)%nat → branch h l (hash md) →
  returns (descend fuel md limit l) s (λ r, faithful r.1 ∧ branch h r.2 (hash r.1) ∧
    le (hash r.1) (hash md) ∧ number r.1 = Z.min (number md) limit).
Proof using BackendLaws0 Hchain.
  revert md l s. induction fuel as [|fuel IH]; intros md l s Hs Hmd Hlim Hf Hb; [lia|].
  cbn [descend]. destruct (Z.ltb_spec limit (number md)).
  - eapply returns_bind; [apply get_parent_ok; [done|done|lia]|].
    intros s' p Hs' (Hp&Hhp&Hnp). cbn beta.
    eapply returns_mono; [apply IH; [done|done|done|lia|]|].
    + rewrite Hhp. apply branch_snoc; [done|done|lia].
    + intros r (Hr&Hbr&Hle&Hnr). split_and!; [done|done| |lia].
      eapply le_trans; [exact Hle|]. rewrite Hhp. right.
      by apply (parent_le _ (number md)); [apply Hmd|lia].
  - apply returns_ret; [done|]. cbn. split_and!; [done|done|apply le_refl|lia].
Qed.

Lemma converge_ok f t fuel from to lf lt s :
  good s → faithful from → faithful to → number from = number to →
  (Z.to_nat (number to) < fuel)%nat → branch f lf (hash from) → branch t lt (hash to) →
  returns (converge fuel from to lf lt) s (λ '(m, lf', lt'),
    faithful m ∧ branch f lf' (hash m) ∧ branch t lt' (hash m) ∧
    ∀ c, le c (hash m) ↔ le c (hash from) ∧ le c (hash to)).
Proof using BackendLaws0 Hchain.
  revert from to lf lt s. induction fuel as [|fuel IH]; intros from to lf lt s Hs Hfr Hto Hn Hf Hbf Hbt; [lia|].
  cbn [converge]. destruct (faithful_num _ Hfr) as [Hnf _], (faithful_num _ Hto) as [Hnt _].
  case_decide as Heq.
  { apply returns_ret; [done|]. rewrite Heq in *. split_and!; [done..|]. intros c. tauto. }
  assert (0 < number to) by (apply (higher_not_genesis from to); [done..|congruence|lia]).
  eapply returns_bind; [apply get_parent_ok; [done|done|lia]|]. intros s1 t' Hs1 (Ht'&Hht'&Hnt'). cbn beta.
  eapply returns_bind; [apply get_parent_ok; [done|done|lia]|]. intros s2 f' Hs2 (Hf'&Hhf'&Hnf'). cbn beta.
  eapply returns_mono; [apply IH; [done|done|done|lia|lia| |]|].
  - rewrite Hhf'. apply branch_snoc; [done|done|lia].
  - rewrite Hht'. apply branch_snoc; [done|done|lia].
  - intros [[m lf'] lt'] (?&?&?&Hc). split_and!; [done..|]. intros c.
    rewrite Hc, Hhf', Hht'.
    destruct Hfr as [Hcf _], Hto as [Hct _].
    rewrite <- (common_parent (hash from) _ _ (hash to) c Hcf) by (lia || congruence).
    rewrite (and_comm (le c (parent from))), (and_comm (le c (parent from))).
    apply (common_parent _ _ _ _ c Hct); [lia| |].
    + destruct (parent_le _ _ _ Hcf) as (_&->&_); lia.
    + intros Hc'. assert (num (hash to) = num (parent from)) as Hc'' by congruence.
      destruct (parent_le _ _ _ Hcf) as (_&Hpf&_); lia.
Qed.

Lemma tree_route_ok from to s :
  good s → known from → known to →
  returns (tree_route from to) s (λ t, ∃ l1 l2 c,
    retracted t = Some l1 ∧ enacted t = Some l2 ∧ common_block t = Some (MkHashAndNumber (num c) c) ∧
    branch from l1 c ∧ branch to (reverse l2) c ∧ ∀ x, le x c ↔ le x from ∧ le x to).
Proof using BackendLaws0 Hchain.
  intros Hs Hkf Hkt. unfold tree_route.
  eapply returns_bind; [by apply get_ok|]. intros s1 f Hs1 [Hf Hhf]. cbn beta.
  eapply returns_bind; [by apply get_ok|]. intros s2 t Hs2 [Ht Hht]. cbn beta.
  destruct (faithful_num _ Hf) as [Hnf Hpf], (faithful_num _ Ht) as [Hnt Hpt].
  eapply returns_bind; [apply (descend_ok to); [done|done|done|unfold steps; lia|rewrite Hht; apply branch_nil]|].
  intros s3 [t' lt] Hs3 (Ht'&Hbt&Hlt&Hnt'). cbn [fst snd] in *.
  destruct (faithful_num _ Ht') as [Hnum' Hpt'].
  eapply returns_bind; [apply (descend_ok from); [done|done|done|unfold steps; lia|rewrite Hhf; apply branch_nil]|].
  intros s4 [f' lf] Hs4 (Hf'&Hbf&Hlf&Hnf'). cbn [fst snd] in *.
  destruct (faithful_num _ Hf') as [Hnumf' _].
  eapply returns_bind; [apply (converge_ok from to); [done|done|done|lia|unfold steps; lia|done|done]|].
  intros s5 [[m lf'] lt'] Hs5 (Hm&Hbf'&Hbt'&Hc). cbn beta.
  apply returns_ret; [done|]. exists lf', (reverse lt'), (hash m).
  unfold retracted, enacted, common_block. cbn [route pivot].
  rewrite !length_app. cbn [length]. rewrite !decide_True by lia. split_and!.
  - by rewrite take_app_length.
  - by rewrite drop_app_add.
  - rewrite lookup_app_r, Nat.sub_diag by lia. unfold hash_and_number. cbn.
    by destruct (faithful_num _ Hm) as [-> _].
  - done.
  - by rewrite reverse_involutive.
  - intros x. rewrite Hc, <- Hhf, <- Hht. clear Hc. 
    destruct (decide (number t ≤ number f)).
    + assert (hash t' = hash t) as -> by (apply le_same; [done|lia]).
      apply common_climb; [done|lia].
    + assert (hash f' = hash f) as -> by (apply le_same; [done|lia]).
      rewrite (and_comm (le x (hash f))), (and_comm (le x (hash f))). apply common_climb; [done|lia].
Qed.
End correctness.
End chain.

(** *** The ancestry query *)

(** The block tree with the block being imported, whose parent is stored. *)
Definition extend (chain : gmap H (Z * H)) (current : option (H * H)) : gmap H (Z * H) :=
  match current with
  | Some (c, p) => <[c := (num chain p + 1, p)]> chain
  | None => chain
  end.

Definition fresh (chain : gmap H (Z * H)) (current : option (H * H)) : Prop :=
  match current with
  | Some (c, p) => chain !! c = None ∧ known chain p
  | None => True
  end.

Section extension.
Context (chain : gmap H (Z * H)) (Hchain : wf_chain chain).
Context (c p : H) (Hc : chain !! c = None) (Hp : known chain p).
Local Abbreviation chain' := (extend chain (Some (c, p))).

Lemma known_ne h : known chain h → h ≠ c.
Proof using Hc. intros [x Hh] ->. congruence. Qed.

Lemma extend_lookup h : known chain h → chain' !! h = chain !! h.
Proof using Hc. intros Hh%known_ne. simpl. by rewrite lookup_insert_ne. Qed.

Lemma extend_num h : known chain h → num chain' h = num chain h.
Proof using Hc. intros Hh. unfold num. by rewrite extend_lookup. Qed.

Lemma extend_num_new : num chain' c = num chain p + 1.
Proof. unfold num at 1. simpl. by rewrite lookup_insert_eq. Qed.

Lemma extend_wf : wf_chain chain'.
Proof using Hchain Hc Hp.
  pose proof (num_nonneg chain Hchain p). split.
  - intros h n q. simpl. rewrite lookup_insert. case_decide as Hh.
    + intros [= <- <-]. right. split; [lia|]. destruct Hp as [[n' pp] Hp'].
      exists pp. rewrite lookup_insert_ne by congruence.
      rewrite (num_lookup _ _ _ _ Hp'), Hp'. do 2 f_equal. lia.
    + intros Hh'. destruct (chain_parent _ Hchain h n q Hh') as [|[? [pp Hq]]]; [by left|right].
      split; [done|]. exists pp. by rewrite lookup_insert_ne by congruence.
  - intros h h' q q'. simpl. rewrite !lookup_insert.
    case_decide; case_decide; intros Hh Hh'; simplify_eq; [done|lia..|].
    by eapply (chain_genesis _ Hchain).
Qed.

Lemma extend_up k h : known chain h → up chain' k h = up chain k h.
Proof using Hchain Hc.
  revert h. induction k as [|k IH]; intros h Hh; [done|]. cbn [up]. rewrite extend_lookup by done.
  destruct Hh as [[n q] Hh]. rewrite Hh. cbn. destruct (Z.ltb_spec 0 n); [|done].
  apply IH. destruct (chain_parent _ Hchain h n q Hh) as [|[_ [pp Hq]]]; [lia|by eexists].
Qed.

Lemma extend_le a b : known chain b → le chain' a b ↔ le chain a b.
Proof using Hchain Hc Hp.
  intros Hb. rewrite !le_up; [|done|done|apply extend_wf|unfold known; by rewrite extend_lookup].
  split; intros [k Hk]; exists k; by rewrite extend_up in *.
Qed.

Lemma extend_le_new a : le chain' a c ↔ a = c ∨ le chain a p.
Proof using Hchain Hc Hp.
  assert (chain' !! c = Some (num chain p + 1, p)) as Hl by (simpl; by rewrite lookup_insert_eq).
  pose proof (num_nonneg chain Hchain p).
  rewrite <- (extend_le a p) by done. split.
  - intros Hac. destruct (decide (a = c)) as [|Hne]; [by left|right].
    eapply le_parent; [apply extend_wf|done|lia|done|done].
  - intros [->|Hap]; [apply le_refl|]. eapply le_trans; [exact Hap|right].
    eapply parent_le; [apply extend_wf|done|lia].
Qed.
End extension.

Lemma extend_current_wf chain current : wf_chain chain → fresh chain current → wf_chain (extend chain current).
Proof. intros Hw Hf. destruct current as [[c p]|]; [|done]. destruct Hf. by apply extend_wf. Qed.

Lemma anc_le chain a b : anc chain a b ↔ le chain a b ∧ a ≠ b.
Proof.
  split; [|intros [[|] ?]; done]. intros Hab. split; [by right|]. intros ->. destruct Hab. lia.
Qed.

Section descendents.
Context (chain : gmap H (Z * H)) (Hchain : wf_chain chain).
Context {S : Type} `{!HeaderMetadata S} (good : S → Prop) `{!BackendLaws chain good}.

Lemma query_ok base h s :
  good s → known chain base → known chain h →
  returns good (ancestor ← lowest_common_ancestor h base; mret (bool_decide (hn_hash ancestor = base)))
    s (λ b, b = bool_decide (le chain base h)).
Proof using BackendLaws0 Hchain.
  intros Hs Hb Hh. eapply returns_bind; [by apply (lca_ok chain)|]. intros s' r Hs' [_ Hr]. cbn beta.
  apply returns_ret; [done|]. apply bool_decide_ext. split.
  - intros <-. apply Hr, le_refl.
  - intros Hle. apply (le_antisym chain); [|apply Hr; auto using le_refl]. apply Hr, le_refl.
Qed.

Lemma descendent_ok current base h s :
  good s → fresh chain current →
  known (extend chain current) base → known (extend chain current) h →
  returns good (is_descendent_of current base h) s
    (λ b, b = bool_decide (anc (extend chain current) base h)).
Proof using BackendLaws0 Hchain.
  intros Hs Hf Hb Hh. unfold is_descendent_of.
  assert (∀ b, base ≠ h → b = bool_decide (le (extend chain current) base h) →
    b = bool_decide (anc (extend chain current) base h)) as Hanc.
  { intros b Hne ->. apply bool_decide_ext. rewrite anc_le. tauto. }
  destruct (decide (base = h)) as [Heq|Heq].
  { apply returns_ret; [done|]. symmetry. apply bool_decide_eq_false_2. rewrite anc_le. tauto. }
  destruct current as [[c p]|].
  2:{ eapply returns_mono; [by apply query_ok|]. cbn beta. intros b ->. apply Hanc; [done|]. by apply bool_decide_ext. }
  destruct Hf as [Hc Hp].
  assert (∀ x, known (extend chain (Some (c, p))) x → x ≠ c → known chain x) as Hknown.
  { intros x [y Hx] Hne. simpl in Hx. rewrite lookup_insert_ne in Hx by done. by eexists. }
  destruct (decide (base = c)) as [->|Hbc].
  { apply returns_ret; [done|]. apply Hanc; [done|]. symmetry. apply bool_decide_eq_false_2.
    rewrite (extend_le chain Hchain c p Hc Hp) by auto. intros Hle.
    apply (known_ne chain c Hc c); [|done]. eapply le_known; [done| |done]. auto. }
  specialize (Hknown base Hb Hbc) as Hb'.
  destruct (decide (h = c)) as [->|Hhc].
  - assert (bool_decide (le (extend chain (Some (c, p))) base c) = bool_decide (le chain base p)) as Hle.
    { apply bool_decide_ext. rewrite (extend_le_new chain Hchain c p Hc Hp). tauto. }
    destruct (decide (base = p)) as [Hbp|Hbp].
    + apply returns_ret; [done|]. apply Hanc; [done|]. rewrite Hle. symmetry.
      apply bool_decide_eq_true_2. by left.
    + eapply returns_mono; [by apply query_ok|]. cbn beta. intros b Hb''. apply Hanc; [done|congruence].
  - eapply returns_mono; [apply query_ok; auto|]. cbn beta. intros b ->. apply Hanc; [done|].
    apply bool_decide_ext. symmetry. apply (extend_le chain Hchain c p Hc Hp). auto.
Qed.

(** The closure answers the fork tree as its interface asks, in whatever state
    the cache is. *)
#[export] Instance client_ancestry current s :
  good s → fresh chain current →
  Ancestry (client_oracle s current) (anc (extend chain current))
    (known (extend chain current)) (num (extend chain current)).
Proof using BackendLaws0 Hchain.
  intros Hs Hf. split.
  - intros a b Ha Hb. unfold client_oracle.
    by destruct (descendent_ok current a b s Hs Hf Ha Hb) as (s'&r&->&_&->).
  - by intros a b [? _].
  - apply anc_trans'.
  - apply anc_chain'.
Qed.
End descendents.

(** ** The backends keep the promise *)

(** What the cache relies on of the crate [lru]: a lookup returns what was
    stored last under the key, unless evicted. *)
Class LruLaws {C : Type} `{!Lru C} (view : C → gmap H CachedHeaderMetadata) : Prop := {
  view_new : ∀ n, view (lru_new n) = ∅;
  view_get : ∀ h c, (lru_get h c).1 = view c !! h ∧ view (lru_get h c).2 = view c;
  view_put : ∀ h md c, view (lru_put h md c) ⊆ <[h := md]> (view c);
  view_pop : ∀ h c, view (lru_pop h c) = delete h (view c);
}.

Section db.
Context (chain : gmap H (Z * H)) (Hchain : wf_chain chain).
Context {C : Type} `{!Lru C} (view : C → gmap H CachedHeaderMetadata) `{!LruLaws view}.
Context (header : H → E + option Header) (unknown_block : H → E).

(** The header column holds the headers of the block tree. *)
Definition stores : Prop := ∀ h,
  header h = inr ((λ '(n, p), MkHeader h n p) <$> chain !! h).

Definition cache_good (c : C) : Prop :=
  ∀ h md, view c !! h = Some md → faithful chain md ∧ hash md = h.

Lemma from_header_faithful h n p :
  chain !! h = Some (n, p) → faithful chain (from_header (MkHeader h n p)).
Proof using Hchain.
  intros Hh. split; [done|]. cbn. intros Hn. by eapply parent_le.
Qed.

Lemma cache_put_good c md :
  cache_good c → faithful chain md → cache_good (cache_insert_header_metadata (hash md) md c).
Proof using LruLaws0.
  intros Hc Hmd h md' Hv.
  assert (<[hash md := md]> (view c) !! h = Some md') as Hv'.
  { eapply lookup_weaken; [exact Hv|apply view_put]. }
  rewrite lookup_insert in Hv'. case_decide; [by simplify_eq|by apply Hc].
Qed.

Lemma cache_remove_good h c : cache_good c → cache_good (cache_remove_header_metadata h c).
Proof using LruLaws0.
  intros Hc h' md. unfold cache_remove_header_metadata. rewrite view_pop.
  intros [_ Hv]%lookup_delete_Some. by apply Hc.
Qed.

Lemma cache_default_good : cache_good cache_default.
Proof using LruLaws0. intros h md. unfold cache_default. by rewrite view_new, lookup_empty. Qed.

Lemma db_get_ok c h :
  stores → cache_good c →
  let '(c', r) := db_header_metadata header unknown_block h c in
  cache_good c' ∧
  match r with
  | inr md => known chain h ∧ faithful chain md ∧ hash md = h
  | inl e => chain !! h = None ∧ e = unknown_block h
  end.
Proof using Hchain LruLaws0.
  intros Hst Hc. unfold db_header_metadata, cache_header_metadata.
  destruct (view_get h c) as [Hget Hsame]. destruct (lru_get h c) as [o c'] eqn:Hl. cbn [fst snd] in *.
  assert (cache_good c') as Hc' by (intros h' md'; rewrite Hsame; apply Hc).
  destruct o as [md|].
  { destruct (Hc h md) as [Hmd Hh]; [done|]. split_and!; [done| |done|done].
    rewrite <- Hh. by apply faithful_known. }
  rewrite Hst. destruct (chain !! h) as [[n p]|] eqn:Hh; cbn; [|done].
  pose proof (from_header_faithful h n p Hh) as Hf. split_and!; [|by eexists|done|done].
  by apply (cache_put_good c' (from_header (MkHeader h n p))).
Qed.

(** The database backend, its cache starting empty, keeps the promise. *)
Lemma db_backend_laws :
  stores → BackendLaws (HeaderMetadata0 := db_backend header unknown_block) chain cache_good.
Proof using Hchain LruLaws0.
  intros Hst. split.
  - intros c h Hc Hh. pose proof (db_get_ok c h Hst Hc) as Hg. cbn.
    destruct (db_header_metadata header unknown_block h c) as [c' [e|md]]; destruct Hg as [Hc' Hg].
    + destruct Hg as [Hn _], Hh as [x Hh]. congruence.
    + exists c', md. destruct Hg as (_&?&?). done.
  - intros c md. apply cache_put_good.
Qed.

(** So does the in-memory backend, which has no cache. *)
Definition holds (blocks : gmap H Header) : Prop :=
  blocks = map_imap (λ h '(n, p), Some (MkHeader h n p)) chain.

Lemma mem_backend_laws : BackendLaws (HeaderMetadata0 := mem_backend unknown_block) chain holds.
Proof using Hchain.
  split; [|by intros].
  intros blocks h Hb [[n p] Hh]. exists blocks, (from_header (MkHeader h n p)).
  split_and!; [|done|by apply from_header_faithful|done].
  cbn. unfold mem_header_metadata. rewrite Hb, map_lookup_imap, Hh. done.
Qed.
End db.

(** ** Correctness *)

Section theorems.
Context (chain : gmap H (Z * H)) (Hchain : wf_chain chain).
Context {S : Type} `{!HeaderMetadata S} (good : S → Prop) `{!BackendLaws chain good}.

(** C14. [lowest_common_ancestor] of two known blocks finishes, whatever
    shortcuts are in the cache: it returns the block whose ancestors are exactly
    the common ancestors of the two, with its number, and leaves a cache in
    which every shortcut still leads to an ancestor. *)
Theorem lowest_common_ancestor_correct one two s :
  good s → known chain one → known chain two →
  ∃ s' r, lowest_common_ancestor one two s = Some (s', inr r) ∧ good s' ∧
    hn_number r = num chain (hn_hash r) ∧
    ∀ c, le chain c (hn_hash r) ↔ le chain c one ∧ le chain c two.
Proof using BackendLaws0 Hchain. by apply lca_ok. Qed.

(** [tree_route] between two known blocks finishes and its accessors do not
    panic: the retracted blocks are the blocks from [from] down to the common
    block, the enacted ones the blocks from there up to [to], each with its
    number, and the common block is the lowest common ancestor. *)
Theorem tree_route_correct from to s :
  good s → known chain from → known chain to →
  ∃ s' t l1 l2 c, tree_route from to s = Some (s', inr t) ∧ good s' ∧
    retracted t = Some l1 ∧ enacted t = Some l2 ∧
    common_block t = Some (MkHashAndNumber (num chain c) c) ∧
    branch chain from l1 c ∧ branch chain to (reverse l2) c ∧
    ∀ x, le chain x c ↔ le chain x from ∧ le chain x to.
Proof using BackendLaws0 Hchain.
  intros Hs Hf Ht. destruct (tree_route_ok chain Hchain good from to s Hs Hf Ht)
    as (s'&t&Hr&Hs'&l1&l2&c&?). by exists s', t, l1, l2, c.
Qed.

(** The closure [is_descendent_of(client, current)] answers whether the
    second block is a proper descendant of the first in the block tree extended
    with the block being imported, whatever is in the cache. *)
Theorem is_descendent_of_correct current base h s :
  good s → fresh chain current →
  known (extend chain current) base → known (extend chain current) h →
  ∃ s', is_descendent_of current base h s =
      Some (s', inr (bool_decide (anc (extend chain current) base h))) ∧ good s'.
Proof using BackendLaws0 Hchain.
  intros Hs Hf Hb Hh.
  destruct (descendent_ok chain Hchain good current base h s Hs Hf Hb Hh) as (s'&b&?&?&->). eauto.
Qed.
End theorems.

(** A lookup in the database backend, from a good cache: the block tree is
    what it answers with, for a block in the cache or not, an unknown block
    being the documented error; the cache stays good. *)
Theorem db_header_metadata_correct (chain : gmap H (Z * H)) {C : Type} `{!Lru C}
    (view : C → gmap H CachedHeaderMetadata) `{!LruLaws view}
    (header : H → E + option Header) (unknown_block : H → E) c h :
  wf_chain chain → stores chain header → cache_good chain view c →
  let '(c', r) := db_header_metadata header unknown_block h c in
  cache_good chain view c' ∧
  match r with
  | inr md => known chain h ∧ faithful chain md ∧ hash md = h
  | inl e => chain !! h = None ∧ e = unknown_block h
  end.
Proof. intros. by apply db_get_ok. Qed.
End header_metadata.

Arguments HashAndNumber : clear implicits.
Arguments TreeRoute : clear implicits.
Arguments Header : clear implicits.
Arguments CachedHeaderMetadata : clear implicits.
Arguments HeaderMetadata : clear implicits.
Arguments Lru : clear implicits.

(** ** A small block tree

    Genesis 0, its child 1, and two forks of 1, [2] and [3] with its child [4];
    the cache of the backend holds two entries. *)
Module SmallChain.
Abbreviation metadata := (CachedHeaderMetadata nat).

Definition chain : gmap nat (Z * nat) :=
  <[0%nat := (0, 99%nat)]> (<[1%nat := (1, 0%nat)]> (<[2%nat := (2, 1%nat)]>
    (<[3%nat := (2, 1%nat)]> (<[4%nat := (3, 3%nat)]> ∅)))).

Lemma chain_wf : wf_chain chain.
Proof.
  assert (∀ h n p, chain !! h = Some (n, p) →
    h = 0%nat ∧ n = 0 ∨ 0 < n ∧ ∃ pp, chain !! p = Some (n - 1, pp)) as Hall.
  { intros h n p Hh. unfold chain in Hh.
    repeat (apply lookup_insert_Some in Hh as [[<- [= <- <-]]|[_ Hh]];
      [first [by left|right; split; [done|eexists; vm_compute; reflexivity]]|]).
    by rewrite lookup_empty in Hh. }
  split.
  - intros h n p Hh. destruct (Hall h n p Hh) as [[_ ?]|?]; [by left|by right].
  - intros h h' p p' Hh Hh'.
    destruct (Hall h 0 p Hh) as [[-> _]|[]], (Hall h' 0 p' Hh') as [[-> _]|[]]; done.
Qed.

(** A least-recently-used list, most recent first, with its capacity. *)
Definition cache : Type := nat * list (nat * metadata).

Definition view (c : cache) : gmap nat metadata := list_to_map c.2.

Definition others (h : nat) (l : list (nat * metadata)) : list (nat * metadata) :=
  filter (λ e, e.1 ≠ h) l.

#[export] Instance lru_list : Lru nat cache := {|
  lru_new n := (Z.to_nat n, []);
  lru_get h c :=
    match view c !! h with
    | Some md => (Some md, (c.1, (h, md) :: others h c.2))
    | None => (None, c)
    end;
  lru_put h md c := (c.1, take c.1 ((h, md) :: others h c.2));
  lru_pop h c := (c.1, others h c.2);
|}.

Lemma view_others h (l : list (nat * metadata)) :
  list_to_map (others h l) = delete h (list_to_map l : gmap nat metadata).
Proof.
  unfold others. induction l as [|[k v] l IH]; [symmetry; apply delete_empty|].
  rewrite filter_cons. cbn [fst]. case_decide as Hk; cbn [list_to_map foldr fst snd]; rewrite IH.
  - by rewrite delete_insert_ne.
  - subst k. by rewrite delete_insert_eq.
Qed.

Lemma view_take n (l : list (nat * metadata)) :
  (list_to_map (take n l) : gmap nat metadata) ⊆ list_to_map l.
Proof.
  revert n. induction l as [|[k v] l IH]; intros [|n]; try apply map_empty_subseteq.
  cbn. apply insert_mono, IH.
Qed.

#[export] Instance lru_list_laws : LruLaws view.
Proof.
  split.
  - done.
  - intros h c. cbn. destruct (view c !! h) as [md|] eqn:Hv; [|done]. split; [done|].
    unfold view. cbn. rewrite view_others, insert_delete_eq. by apply insert_id.
  - intros h md c. unfold view. cbn [snd lru_put lru_list].
    etrans; [apply view_take|]. cbn. by rewrite view_others, insert_delete_eq.
  - intros h c. unfold view. cbn. apply view_others.
Qed.

Definition header (h : nat) : nat + option (Header nat) :=
  inr ((λ '(n, p), MkHeader h n p) <$> chain !! h).

Lemma header_stores : stores chain header.
Proof. by intros h. Qed.

#[export] Instance backend : HeaderMetadata nat nat cache := db_backend header id.

#[export] Instance backend_laws : BackendLaws chain (cache_good chain view).
Proof. apply db_backend_laws; [apply chain_wf|apply _|apply header_stores]. Qed.

Definition empty : cache := lru_new 2.

Lemma empty_good : cache_good chain view empty.
Proof. intros h md Hv. unfold empty, view in Hv. cbn in Hv. by rewrite lookup_empty in Hv. Qed.

Lemma known_blocks h : (h < 5)%nat → known chain h.
Proof.
  intros Hh. do 5 (destruct h as [|h]; [by eexists; vm_compute; reflexivity|]). lia.
Qed.

Lemma lowest_common_ancestor_correct_witness :
  ∃ s' r, lowest_common_ancestor 4%nat 2%nat empty = Some (s', inr r) ∧
    cache_good chain view s' ∧ hn_number r = num chain (hn_hash r) ∧
    ∀ c, le chain c (hn_hash r) ↔ le chain c 4%nat ∧ le chain c 2%nat.
Proof.
  apply (lowest_common_ancestor_correct chain chain_wf (cache_good chain view) 4%nat 2%nat);
    [apply empty_good|apply known_blocks; lia|apply known_blocks; lia].
Defined.

Lemma tree_route_correct_witness :
  ∃ s' t l1 l2 c, tree_route 4%nat 2%nat empty = Some (s', inr t) ∧ cache_good chain view s' ∧
    retracted t = Some l1 ∧ enacted t = Some l2 ∧
    common_block t = Some (MkHashAndNumber (num chain c) c) ∧
    branch chain 4%nat l1 c ∧ branch chain 2%nat (reverse l2) c ∧
    ∀ x, le chain x c ↔ le chain x 4%nat ∧ le chain x 2%nat.
Proof.
  apply (tree_route_correct chain chain_wf (cache_good chain view) 4%nat 2%nat);
    [apply empty_good|apply known_blocks; lia|apply known_blocks; lia].
Defined.

(** The route of that witness: 4 and 3 are retracted, 2 is enacted. *)
Lemma tree_route_evaluates :
  match tree_route 4%nat 2%nat empty with
  | Some (_, inr t) => Some (retracted t, enacted t)
  | _ => None
  end = Some (Some [MkHashAndNumber 3 4%nat; MkHashAndNumber 2 3%nat],
              Some [MkHashAndNumber 2 2%nat]).
Proof. vm_compute. reflexivity. Qed.

(** A block 5 being imported on top of 4 descends from 3. *)
Lemma is_descendent_of_correct_witness :
  ∃ s', is_descendent_of (Some (5%nat, 4%nat)) 3%nat 5%nat empty = Some (s', inr true) ∧
    cache_good chain view s'.
Proof.
  apply (is_descendent_of_correct chain chain_wf (cache_good chain view)
    (Some (5%nat, 4%nat)) 3%nat 5%nat).
  - apply empty_good.
  - split; [vm_compute; reflexivity|apply known_blocks; lia].
  - eexists; vm_compute; reflexivity.
  - eexists; vm_compute; reflexivity.
Defined.

Lemma db_header_metadata_correct_witness :
  let '(c', r) := db_header_metadata header id 4%nat empty in
  cache_good chain view c' ∧
  match r with
  | inr md => known chain 4%nat ∧ faithful chain md ∧ hash md = 4%nat
  | inl e => chain !! 4%nat = None ∧ e = id 4%nat
  end.
Proof.
  apply (db_header_metadata_correct chain view header id empty 4%nat);
    [apply chain_wf|apply header_stores|apply empty_good].
Defined.
End SmallChain.
