(* ===== verification/Epochs.v ===== *)
(** * Epoch changes (src/client/consensus/epochs/src/lib.rs)

    The tree of epochs signalled on the forks of a chain, on top of the fork
    tree, and the search for the epoch a child of a block belongs to.  Block
    hashes are byte strings; the ancestry closures come from a builder, which
    the client implements with [HeaderMetadata.is_descendent_of]. *)
From S2P Require Import Prelude HeaderMetadata ForkTree.

Local Open Scope Z_scope.

Abbreviation Hash := (list Z).

(** The trait [Epoch]. *)
Class Epoch (T : Type) : Type := {
  NextEpochDescriptor : Type;
  epoch_increment : T → NextEpochDescriptor → T;
  end_slot : T → Z;
  start_slot : T → Z;
}.

Section epochs.
Context {T E : Type} `{!Epoch T}.

(** ** Data *)

Inductive UnimportedGenesisEpoch : Type := MkUnimportedGenesisEpoch (e : T).

Inductive ViableEpoch : Type :=
| ViableGenesis (g : UnimportedGenesisEpoch)
| ViableRegular (e : T).

Inductive PersistedEpoch : Type :=
| Genesis (epoch_0 epoch_1 : T)
| Regular (epoch_n : T).

Inductive IncrementedEpoch : Type := MkIncrementedEpoch (p : PersistedEpoch).

Record EpochChanges : Type := MkEpochChanges {
  inner : ForkTree Hash PersistedEpoch;
}.

Abbreviation oracle := (Hash → Hash → E + bool).

(** [IsDescendentOfBuilder::build_is_descendent_of] *)
Abbreviation builder := (option (Hash * Hash) → oracle).

(** ** Epochs *)

(** [From<Epoch> for ViableEpoch] *)
Definition viable_from (e : T) : ViableEpoch := ViableRegular e.

(** [AsRef<Epoch> for ViableEpoch]; [into_inner] is the same match on values. *)
Definition viable_as_ref (v : ViableEpoch) : T :=
  match v with
  | ViableGenesis (MkUnimportedGenesisEpoch e) => e
  | ViableRegular e => e
  end.

Definition into_inner (v : ViableEpoch) : T :=
  match v with
  | ViableGenesis (MkUnimportedGenesisEpoch e) => e
  | ViableRegular e => e
  end.

Definition increment (v : ViableEpoch) (next_descriptor : NextEpochDescriptor) : IncrementedEpoch :=
  let next := epoch_increment (viable_as_ref v) next_descriptor in
  MkIncrementedEpoch
    match v with
    | ViableGenesis (MkUnimportedGenesisEpoch epoch_0) => Genesis epoch_0 next
    | ViableRegular _ => Regular next
    end.

(** [AsRef<Epoch> for IncrementedEpoch] *)
Definition incremented_as_ref (i : IncrementedEpoch) : T :=
  match i with
  | MkIncrementedEpoch (Genesis _ epoch_1) => epoch_1
  | MkIncrementedEpoch (Regular epoch_n) => epoch_n
  end.

(** [h.as_mut()[0] ^= 0b10000000]; [None] is the panic on an empty hash. *)
Definition fake_head_hash (parent_hash : Hash) : option Hash :=
  match parent_hash with
  | b :: l => Some (Z.lxor b 128 :: l)
  | [] => None
  end.

(** ** The tree of epoch changes *)

(** [Default::default], and [new] *)
Definition epochs_default : EpochChanges := MkEpochChanges new.

Definition epochs_new : EpochChanges := epochs_default.

Definition epochs_rebalance (self : EpochChanges) : EpochChanges :=
  MkEpochChanges (rebalance (inner self)).

(** The predicate of [prune_finalized]: the epoch is over at the slot. *)
Definition is_over (slot : Z) (epoch : PersistedEpoch) : bool :=
  match epoch with
  | Genesis _ epoch_1 => end_slot epoch_1 <=? slot
  | Regular epoch_n => end_slot epoch_n <=? slot
  end.

Definition prune_finalized (build : builder) (self : EpochChanges) (h : Hash) (n slot : Z) :
    EpochChanges * result (Error E) unit :=
  let '(t, r) := prune (build None) (inner self) h n (is_over slot) in
  (MkEpochChanges t, r).

(** The predicate of [epoch_for_child_of]: the epoch has started at the slot. *)
Definition has_started (slot_number : Z) (epoch : PersistedEpoch) : bool :=
  match epoch with
  | Genesis epoch_0 _ => start_slot epoch_0 <=? slot_number
  | Regular epoch_n => start_slot epoch_n <=? slot_number
  end.

(** Which of the epochs of a node covers the slot. *)
Definition epoch_at (slot_number : Z) (epoch : PersistedEpoch) : T :=
  match epoch with
  | Genesis epoch_0 epoch_1 => if start_slot epoch_1 <=? slot_number then epoch_1 else epoch_0
  | Regular epoch_n => epoch_n
  end.

Definition epoch_for_child_of (build : builder) (self : EpochChanges) (parent_hash : Hash)
    (parent_number slot_number : Z) (make_genesis : Z → T) :
    result (Error E) (option ViableEpoch) :=
  fake_head ← (expect (fake_head_hash parent_hash) : result (Error E) Hash);
  let is_descendent_of := build (Some (fake_head, parent_hash)) in
  if parent_number =? 0 then
    Ok (Some (ViableGenesis (MkUnimportedGenesisEpoch (make_genesis slot_number))))
  else
    o ← find_node_where is_descendent_of (inner self) fake_head (parent_number + 1)
          (has_started slot_number);
    Ok (option_map (λ node, ViableRegular (epoch_at slot_number (data node))) o).

Definition epochs_import (build : builder) (self : EpochChanges) (h : Hash) (n : Z)
    (parent_hash : Hash) (epoch : IncrementedEpoch) : EpochChanges * result (Error E) unit :=
  let '(MkIncrementedEpoch p) := epoch in
  let '(t, res) := import (build (Some (h, parent_hash))) (inner self) h n p in
  (MkEpochChanges t,
   match res with
   | Ok _ | Err Duplicate => Ok tt
   | Err e => Err e
   | Panic => Panic
   end).

Definition tree (self : EpochChanges) : ForkTree Hash PersistedEpoch := inner self.

(** ** What the builder promises

    Its closures answer with the ancestry of the block tree, extended with the
    block given to the builder. *)
Class BuilderLaws (chain : gmap Hash (Z * Hash)) (build : builder) : Prop :=
  build_ancestry current : fresh chain current →
    Ancestry (build current) (anc (extend chain current)) (known (extend chain current))
      (num (extend chain current)).

(** ** Invariant *)

Definition wf_epochs (chain : gmap Hash (Z * Hash)) (self : EpochChanges) : Prop :=
  wf_forest (anc chain) (known chain) (num chain) (roots (inner self)) ∧
  best_finalized_number (inner self) = None.

Abbreviation signalled self := (entries (roots (inner self))).

(** The entry that covers a child of [parent] at a slot: signalled at [parent]
    or at an ancestor of it, started, and the latest such. *)
Definition covers (chain : gmap Hash (Z * Hash)) (self : EpochChanges) (parent : Hash) (slot : Z)
    (e : Hash * Z * PersistedEpoch) : Prop :=
  e ∈ signalled self ∧ le chain e.1.1 parent ∧ has_started slot e.2 = true ∧
  ∀ e', e' ∈ signalled self → le chain e'.1.1 parent → has_started slot e'.2 = true →
    e'.1.2 ≤ e.1.2.

Definition uncovered (chain : gmap Hash (Z * Hash)) (self : EpochChanges) (parent : Hash)
    (slot : Z) : Prop :=
  ∀ e, e ∈ signalled self → le chain e.1.1 parent → has_started slot e.2 = false.

Lemma antichain_agree (r1 r2 : Hash → Hash → Prop) (k : Hash → Prop)
    (l : list (Node Hash PersistedEpoch)) :
  (∀ a b, k a → k b → r1 a b ↔ r2 a b) → (∀ m, m ∈ l → k (ForkTree.hash m)) →
  antichain r1 l → antichain r2 l.
Proof.
  intros Hr Hk. induction 1 as [|m l Hm Hl IH]; constructor.
  - rewrite Forall_forall in *. intros b Hb. destruct (Hm b Hb) as (?&H1&H2).
    unfold incomparable. rewrite <- !Hr by (apply Hk; by left || by right). done.
  - apply IH. intros b Hb. apply Hk. by right.
Qed.

(** Well-formedness only depends on the blocks of the forest. *)
Lemma wf_forest_agree (r1 r2 : Hash → Hash → Prop) k1 k2 n1 n2
    (l : list (Node Hash PersistedEpoch)) :
  (∀ a b, k1 a → k1 b → r1 a b ↔ r2 a b) → (∀ a, k1 a → k2 a ∧ n2 a = n1 a) →
  wf_forest r1 k1 n1 l → wf_forest r2 k2 n2 l.
Proof.
  intros Hr Hk [Ha Hw]. split.
  - eapply antichain_agree; [exact Hr| |done]. intros m Hm. by apply Hw, root_in_forest.
  - intros m Hm. destruct (Hw m Hm) as (Hm1&Hm2&Hm3&Hm4). destruct (Hk _ Hm1) as [Hk1 Hk2].
    assert (∀ c, c ∈ children m → k1 (ForkTree.hash c)) as Hkc.
    { intros c Hc. apply Hw. apply elem_of_forest_nodes in Hm as (x&Hx&Hm).
      apply elem_of_forest_nodes. exists x. split; [done|]. eapply nodes_trans; [done|].
      rewrite nodes_eq. right. by apply root_in_forest. }
    split_and!; [done|by rewrite Hk2| |by eapply antichain_agree].
    intros c Hc. rewrite <- Hr by auto. auto.
Qed.

Section theorems.
Context (chain : gmap Hash (Z * Hash)) (Hchain : wf_chain chain).

Lemma extend_agree c p :
  fresh chain (Some (c, p)) →
  (∀ a b, known chain a → known chain b → anc chain a b ↔ anc (extend chain (Some (c, p))) a b) ∧
  (∀ a, known chain a →
    known (extend chain (Some (c, p))) a ∧ num (extend chain (Some (c, p))) a = num chain a).
Proof using Hchain.
  intros [Hc Hp]. split.
  - intros a b Ha Hb. by rewrite !anc_le, extend_le.
  - intros a Ha. split; [|by apply extend_num]. unfold known. by rewrite extend_lookup.
Qed.

(** A new block leaves the epochs well-formed. *)
Lemma wf_epochs_extend self c p :
  fresh chain (Some (c, p)) → wf_epochs chain self → wf_epochs (extend chain (Some (c, p))) self.
Proof using Hchain.
  intros Hf [Hw Hb]. destruct (extend_agree c p Hf). split; [|done]. by eapply wf_forest_agree.
Qed.

Lemma elem_of_signalled self e : e ∈ signalled self ↔ ∃ m, m ∈ forest_nodes (roots (inner self)) ∧ entry m = e.
Proof.
  unfold entries. rewrite list_elem_of_In, in_map_iff.
  split; intros (m&H1&H2); exists m; by rewrite list_elem_of_In in *.
Qed.

Lemma signalled_known self e :
  wf_epochs chain self → e ∈ signalled self → known chain e.1.1 ∧ e.1.2 = num chain e.1.1.
Proof.
  intros [[_ Hw] _] (m&Hm&<-)%elem_of_signalled. by destruct (Hw m Hm) as (?&?&_).
Qed.

(** The block tree satisfies the interface of the fork tree by itself. *)
Local Instance chain_ancestry :
  Ancestry (E := unit) (λ a b, inr (bool_decide (anc chain a b))) (anc chain) (known chain) (num chain).
Proof. split; [done|by intros a b [? _]|apply anc_trans'|apply anc_chain']. Qed.

(** A block of the tree is signalled once. *)
Lemma signalled_inj self e e' :
  wf_epochs chain self → e ∈ signalled self → e' ∈ signalled self → e.1.1 = e'.1.1 → e = e'.
Proof using Hchain.
  intros [Hw _] (m&Hm&<-)%elem_of_signalled (m'&Hm'&<-)%elem_of_signalled Heq. f_equal.
  exact (wf_forest_hash_inj (E := unit) _ (anc chain) (known chain) (num chain) _ m m' Hw Hm Hm' Heq).
Qed.

(** The search, with the fake head read as a child of the parent. *)
Lemma search_ok build `{!BuilderLaws chain build} self parent fake slot :
  wf_epochs chain self → known chain parent → fresh chain (Some (fake, parent)) →
  match find_node_where (build (Some (fake, parent))) (inner self) fake (num chain parent + 1)
          (has_started slot) with
  | Ok (Some m) => covers chain self parent slot (entry m)
  | Ok None => uncovered chain self parent slot
  | _ => False
  end.
Proof using Hchain.
  intros Hw Hp Hf. pose proof (build_ancestry _ Hf) as Hanc.
  pose proof (wf_epochs_extend self fake parent Hf Hw) as [Hw' _].
  pose proof Hf as [Hfake _].
  assert (∀ m, m ∈ forest_nodes (roots (inner self)) →
    anc (extend chain (Some (fake, parent))) (ForkTree.hash m) fake ↔ le chain (ForkTree.hash m) parent) as Hle.
  { intros m Hm. rewrite anc_le, (extend_le_new chain Hchain fake parent Hfake Hp).
    destruct (signalled_known self (entry m) Hw) as [[x Hk] _]; [apply elem_of_signalled; eauto|].
    cbn in Hk. split; [|intros Hl; split; [by right|congruence]].
    intros [[|] ?]; [congruence|done]. }
  assert (∀ m, m ∈ forest_nodes (roots (inner self)) → number m = num chain (ForkTree.hash m)) as Hnum.
  { intros m Hm. apply (signalled_known self (entry m) Hw). apply elem_of_signalled. eauto. }
  assert (known (extend chain (Some (fake, parent))) fake) as Hk.
  { eexists. simpl. apply lookup_insert_eq. }
  pose proof (find_roots_ok (build (Some (fake, parent))) _ _ _ fake (has_started slot)
    (roots (inner self)) Hk Hw') as Hfind.
  rewrite (extend_num_new chain fake parent) in Hfind. unfold find_node_where.
  destruct (find_in_roots _ _ _ _ _) as [[m|]| |]; [| |done|done].
  - destruct Hfind as (Hm&Ha&Hs&Hmax). split_and!; [apply elem_of_signalled; eauto|by apply Hle|done|].
    intros e' (m'&Hm'&<-)%elem_of_signalled Hl' Hs'. cbn. apply Hmax; [done|by apply Hle|done].
  - intros e (m&Hm&<-)%elem_of_signalled Hl. apply Hfind; [done|by apply Hle].
Qed.

(** Which entry covers is determined by the blocks. *)
Lemma covers_unique self parent slot e e' :
  wf_epochs chain self → covers chain self parent slot e → covers chain self parent slot e' → e = e'.
Proof using Hchain.
  intros Hw (He&Hl&Hs&Hmax) (He'&Hl'&Hs'&Hmax'). apply (signalled_inj self); [done..|].
  destruct (signalled_known self e Hw He) as [_ Hn], (signalled_known self e' Hw He') as [_ Hn'].
  apply (le_same chain); [|specialize (Hmax e' He' Hl' Hs'); specialize (Hmax' e He Hl Hs); lia].
  apply (le_chain chain e.1.1 e'.1.1 parent); [done..|]. rewrite <- Hn, <- Hn'. auto.
Qed.

(** *** Pruning *)

(** An epoch is over only after it started. *)
Definition sane (self : EpochChanges) (slot : Z) : Prop :=
  ∀ e, e ∈ signalled self → is_over slot e.2 = true → has_started slot e.2 = true.

(** The successor of an epoch that is over at the finalized block is not
    signalled after that block only. *)
Definition successor_signalled (self : EpochChanges) (h : Hash) (slot : Z) : Prop :=
  ∀ m, m ∈ forest_nodes (roots (inner self)) → anc chain (ForkTree.hash m) h →
    is_over slot (data m) = true → ∀ c, c ∈ children m → ¬ anc chain h (ForkTree.hash c).

Lemma entry_of (m : Node Hash PersistedEpoch) l : m ∈ forest_nodes l → entry m ∈ entries l.
Proof.
  intros Hm. unfold entries. apply list_elem_of_In, in_map_iff. exists m.
  by rewrite <- list_elem_of_In.
Qed.

(** Entries on the branch of a descendant of the finalized block survive when
    they are not before the new root. *)
Lemma kept_by_prune self h m x d :
  wf_epochs chain self → known chain h → le chain h d →
  m ∈ forest_nodes (roots (inner self)) → anc chain (ForkTree.hash m) h →
  (∀ c, c ∈ children m → ¬ anc chain h (ForkTree.hash c)) →
  x ∈ forest_nodes (roots (inner self)) → le chain (ForkTree.hash x) d →
  num chain (ForkTree.hash m) ≤ num chain (ForkTree.hash x) →
  entry x ∈ entry m ::
    entries (filter (λ c, ForkTree.hash c = h ∨ anc chain (ForkTree.hash c) h) (children m)).
Proof using Hchain.
  intros [Hw _] Hh Hhd Hm Hmh Hc Hx Hxd Hn.
  assert (le chain (ForkTree.hash m) d) as Hmd by (eapply le_trans; [right; exact Hmh|done]).
  destruct (le_chain chain _ _ d Hmd Hxd Hn) as [Heq|Hanc].
  { assert (entry m = entry x) as ->; [|by left]. f_equal.
    exact (wf_forest_hash_inj (E := unit) _ (anc chain) (known chain) (num chain) _ m x Hw Hm Hx Heq). }
  right. assert (x ∈ forest_nodes (children m)) as (c&Hcm&Hxc)%elem_of_forest_nodes.
  { pose proof (wf_forest_complete (E := unit) _ (anc chain) (known chain) (num chain) _ m x Hw Hm Hx
      (or_intror Hanc)) as Hin.
    rewrite nodes_eq in Hin. apply elem_of_cons in Hin as [->|]; [|done].
    destruct Hanc. lia. }
  apply entry_of, elem_of_forest_nodes. exists c. split; [|done]. apply list_elem_of_filter.
  split; [|done].
  assert (wf_node (anc chain) (known chain) (num chain) m) as Hwm by (by eapply wf_forest_subnode).
  assert (wf_node (anc chain) (known chain) (num chain) c) as Hwc.
  { eapply wf_forest_node; [|done]. by apply (wf_node_children (E := unit)
      (λ a b, inr (bool_decide (anc chain a b))) (anc chain) (known chain) (num chain)). }
  assert (le chain (ForkTree.hash c) d) as Hcd.
  { eapply le_trans; [|exact Hxd].
    destruct (wf_node_desc (E := unit) _ (anc chain) (known chain) (num chain) c x Hwc Hxc) as [->|?];
      [apply le_refl|by right]. }
  destruct (decide (num chain (ForkTree.hash c) ≤ num chain h)) as [Hle|Hgt].
  - destruct (le_chain chain _ _ d Hcd Hhd Hle) as [|]; [by left|by right].
  - destruct (le_chain chain h (ForkTree.hash c) d Hhd Hcd) as [Heq|Hhc]; [lia|rewrite Heq in Hgt; lia|].
    by destruct (Hc c Hcm).
Qed.

(** What pruning at a finalized block may drop: the epochs before the latest
    one that is over at the block, and the epochs of other forks. *)
Definition live (self : EpochChanges) (h : Hash) (slot : Z) (e : Hash * Z * PersistedEpoch) : Prop :=
  ∀ e', e' ∈ signalled self → anc chain e'.1.1 h → is_over slot e'.2 = true → e'.1.2 ≤ e.1.2.

Lemma prune_finalized_ok build `{!BuilderLaws chain build} self h slot :
  wf_epochs chain self → known chain h →
  ∃ self', prune_finalized build self h (num chain h) slot = (self', Ok tt) ∧
    wf_epochs chain self' ∧ (∀ e, e ∈ signalled self' → e ∈ signalled self) ∧
    (successor_signalled self h slot → ∀ e d, e ∈ signalled self → le chain h d →
      le chain e.1.1 d → live self h slot e → e ∈ signalled self').
Proof using Hchain.
  intros Hw Hh. pose proof (build_ancestry (build := build) None I) as Hanc. cbn [extend] in Hanc.
  pose proof Hw as [Hwf Hb]. unfold prune_finalized.
  destruct (prune_ok (build None) (anc chain) (known chain) (num chain) (inner self) h (is_over slot) Hh Hwf)
    as (t'&->&Hwf'&Hb'&Hcase).
  exists (MkEpochChanges t'). split_and!; [done|split; cbn; [done|congruence]|..]; cbn [inner].
  - intros e. destruct Hcase as [[_ ->]|(m&(Hm&_)&->)]; [done|].
    intros [->|He]%elem_of_cons; [by apply entry_of|].
    unfold entries in He. apply list_elem_of_In, in_map_iff in He as (x&<-&Hx%list_elem_of_In).
    apply elem_of_forest_nodes in Hx as (c&[_ Hc]%list_elem_of_filter&Hx).
    apply entry_of. apply elem_of_forest_nodes in Hm as (r&Hr&Hm).
    apply elem_of_forest_nodes. exists r. split; [done|]. eapply nodes_trans; [done|].
    rewrite nodes_eq. right. apply elem_of_forest_nodes. eauto.
  - intros Hsucc e d He Hhd Hed Hlive. destruct Hcase as [[_ ->]|(m&(Hm&Hmh&Hmo&_)&->)]; [done|].
    apply elem_of_signalled in He as (x&Hx&<-).
    apply (kept_by_prune self h m x d); [done..|by apply Hsucc|done|done|].
    specialize (Hlive (entry m) (entry_of _ _ Hm) Hmh Hmo).
    destruct (signalled_known self (entry m) Hw (entry_of _ _ Hm)) as [_ Hnm].
    destruct (signalled_known self (entry x) Hw (entry_of _ _ Hx)) as [_ Hnx]. cbn in *. lia.
Qed.

Lemma has_started_mono slot slot' e :
  slot ≤ slot' → has_started slot e = true → has_started slot' e = true.
Proof. intros Hle. destruct e; cbn; rewrite !Z.leb_le; lia. Qed.

(** The epoch that covers a child of a descendant of the finalized block is
    live, so it still covers it. *)
Lemma covers_kept self self' h slot d slot' e :
  (∀ e, e ∈ signalled self' → e ∈ signalled self) →
  (∀ e, e ∈ signalled self → le chain e.1.1 d → live self h slot e → e ∈ signalled self') →
  sane self slot → slot ≤ slot' → le chain h d →
  covers chain self d slot' e → covers chain self' d slot' e.
Proof.
  intros Hsub Hkept Hsane Hslot Hhd (He&Hl&Hs&Hmax). split_and!; [|done|done|auto].
  apply Hkept; [done..|]. intros e' He' Ha Ho. apply Hmax; [done| |].
  - eapply le_trans; [right; exact Ha|done].
  - eapply has_started_mono; [done|]. by apply Hsane.
Qed.

Lemma epoch_for_child_of_ok build `{!BuilderLaws chain build} self parent fake slot make_genesis :
  wf_epochs chain self → known chain parent → num chain parent ≠ 0 →
  fake_head_hash parent = Some fake → chain !! fake = None →
  (∃ e, covers chain self parent slot e ∧
     epoch_for_child_of build self parent (num chain parent) slot make_genesis =
       Ok (Some (ViableRegular (epoch_at slot e.2)))) ∨
  (uncovered chain self parent slot ∧
     epoch_for_child_of build self parent (num chain parent) slot make_genesis = Ok None).
Proof using Hchain.
  intros Hw Hp Hn Hfake Hnew. unfold epoch_for_child_of. rewrite Hfake. cbn [expect mbind result_bind].
  rewrite (proj2 (Z.eqb_neq _ _) Hn).
  pose proof (search_ok build self parent fake slot Hw Hp (conj Hnew Hp)) as Hs.
  destruct (find_node_where _ _ _ _ _) as [[m|]| |]; [| |done|done]; cbn; [left|by right].
  by exists (entry m).
Qed.

Lemma epochs_import_ok build `{!BuilderLaws chain build} self h parent p :
  wf_epochs chain self → chain !! h = None → known chain parent →
  let '(self', r) := epochs_import build self h (num chain parent + 1) parent (MkIncrementedEpoch p) in
  r = Ok tt ∧ wf_epochs (extend chain (Some (h, parent))) self' ∧
  signalled self' ≡ₚ (h, num chain parent + 1, p) :: signalled self.
Proof using Hchain.
  intros Hw Hnew Hp. pose proof (build_ancestry (build := build) (Some (h, parent)) (conj Hnew Hp)) as Hanc.
  pose proof (wf_epochs_extend self h parent (conj Hnew Hp) Hw) as [Hw' Hb'].
  assert (∀ m, m ∈ forest_nodes (roots (inner self)) → known chain (ForkTree.hash m)) as Hk.
  { intros m Hm. by apply (signalled_known self (entry m) Hw), entry_of. }
  assert (h ∉ hashes (roots (inner self))) as Hnin.
  { intros (m&Hm&<-)%elem_of_hashes. destruct (Hk m Hm) as [x Hx]. congruence. }
  assert (in_order (anc (extend chain (Some (h, parent)))) h (roots (inner self))) as Hord.
  { intros m Hm [Hle Hne]%anc_le. specialize (Hk m Hm). rewrite extend_le in Hle by done.
    apply (le_known chain Hchain) in Hle as [x Hx]; [congruence|done]. }
  assert (known (extend chain (Some (h, parent))) h) as Hkh by (eexists; simpl; apply lookup_insert_eq).
  pose proof (import_ok (build (Some (h, parent))) _ _ _ (inner self) h p Hkh Hw' Hord) as Hi.
  unfold epochs_import. rewrite (extend_num_new chain h parent) in Hi.
  destruct (import _ _ _ _ _) as [t' r]. destruct Hi as (Hwt&Hbt&Hi).
  unfold reverts in Hi. rewrite Hb', decide_False in Hi by done. destruct Hi as [Hp' ->].
  split_and!; [done|split; cbn; [done|congruence]|done].
Qed.

(** ** Correctness *)

(** C38. [epoch_for_child_of] a known block, the fake head being a hash the chain
    does not have: on top of genesis it is a fresh genesis epoch; otherwise it is
    the epoch of the latest entry signalled at the block or at an ancestor of it
    that has started at the slot, and [None] exactly when there is none.  It
    neither fails nor panics. *)
Theorem epoch_for_child_of_correct build `{!BuilderLaws chain build} self parent fake slot
    make_genesis :
  wf_epochs chain self → known chain parent →
  fake_head_hash parent = Some fake → chain !! fake = None →
  let r := epoch_for_child_of build self parent (num chain parent) slot make_genesis in
  if decide (num chain parent = 0)
  then r = Ok (Some (ViableGenesis (MkUnimportedGenesisEpoch (make_genesis slot))))
  else (∃ e, covers chain self parent slot e ∧
          (∀ e', covers chain self parent slot e' → e' = e) ∧
          r = Ok (Some (ViableRegular (epoch_at slot e.2)))) ∨
       (uncovered chain self parent slot ∧ r = Ok None).
Proof using Hchain.
  intros Hw Hp Hfake Hnew. cbn zeta. case_decide as Hn.
  - unfold epoch_for_child_of. rewrite Hfake. cbn. by rewrite Hn.
  - destruct (epoch_for_child_of_ok build self parent fake slot make_genesis Hw Hp Hn Hfake Hnew)
      as [(e&He&?)|?]; [left|by right].
    exists e. split_and!; [done| |done]. intros e' He'. by apply (covers_unique self parent slot).
Qed.

(** [prune_finalized] at a known block does not fail, keeps the tree
    well-formed and signals nothing new; and it drops nothing that is needed: for
    the finalized block and its descendants, and slots from that of the finalized
    block on, the answers of [epoch_for_child_of] are the same as before, provided
    an epoch that is over at the block has its successor signalled by then. *)
Theorem prune_finalized_correct build `{!BuilderLaws chain build} self h slot :
  wf_epochs chain self → known chain h →
  ∃ self', prune_finalized build self h (num chain h) slot = (self', Ok tt) ∧
    wf_epochs chain self' ∧ (∀ e, e ∈ signalled self' → e ∈ signalled self) ∧
    (sane self slot → successor_signalled self h slot →
     ∀ d fake slot' make_genesis, le chain h d → known chain d → slot ≤ slot' →
       fake_head_hash d = Some fake → chain !! fake = None →
       epoch_for_child_of build self' d (num chain d) slot' make_genesis =
       epoch_for_child_of build self d (num chain d) slot' make_genesis).
Proof using Hchain.
  intros Hw Hh. destruct (prune_finalized_ok build self h slot Hw Hh) as (self'&?&Hw'&Hsub&Hkept).
  exists self'. split_and!; [done..|]. intros Hsane Hsucc d fake slot' mk Hhd Hd Hslot Hfake Hnew.
  destruct (decide (num chain d = 0)) as [Hz|Hz].
  { unfold epoch_for_child_of. rewrite Hfake. cbn. by rewrite Hz. }
  destruct (epoch_for_child_of_ok build self d fake slot' mk Hw Hd Hz Hfake Hnew) as [(e&He&->)|[Hu ->]];
    destruct (epoch_for_child_of_ok build self' d fake slot' mk Hw' Hd Hz Hfake Hnew) as [(e'&He'&->)|[Hu' ->]].
  - assert (covers chain self' d slot' e) as He''.
    { eapply (covers_kept self); [done| |done..]. eauto. }
    by rewrite (covers_unique self' d slot' e e' Hw' He'' He').
  - assert (covers chain self' d slot' e) as (Hin&Hl&Hs&_).
    { eapply (covers_kept self); [done| |done..]. eauto. }
    by rewrite (Hu' e Hin Hl) in Hs.
  - destruct He' as (Hin&Hl&Hs&_). by rewrite (Hu e' (Hsub _ Hin) Hl) in Hs.
  - done.
Qed.

(** [import] of an epoch signalled at a new block on top of a known one
    never fails: it records the epoch, and only it, at the block, and the tree
    is well-formed for the chain with the new block. *)
Theorem epochs_import_correct build `{!BuilderLaws chain build} self h parent p :
  wf_epochs chain self → chain !! h = None → known chain parent →
  let '(self', r) := epochs_import build self h (num chain parent + 1) parent (MkIncrementedEpoch p) in
  r = Ok tt ∧ wf_epochs (extend chain (Some (h, parent))) self' ∧
  signalled self' ≡ₚ (h, num chain parent + 1, p) :: signalled self.
Proof using Hchain. by apply epochs_import_ok. Qed.
End theorems.

(** ** Histories *)

(** The client's builder, [HeaderBackendDescendentBuilder]. *)
Definition descendent_query {S : Type} `{!HeaderMetadata Hash E S} (client : S) : builder :=
  λ current, client_oracle client current.

#[export] Instance descendent_query_laws chain {S : Type} `{!HeaderMetadata Hash E S}
    (good : S → Prop) `{!BackendLaws chain good} client :
  wf_chain chain → good client → BuilderLaws chain (descendent_query client).
Proof. intros Hchain Hgood current Hf. by apply (client_ancestry chain Hchain good). Qed.

(** The chain as blocks arrive, and the epoch changes along it; each call gets a
    builder for the chain of its time. *)
Inductive reach : gmap Hash (Z * Hash) → EpochChanges → Prop :=
| reach_new chain : wf_chain chain → reach chain epochs_new
| reach_block chain self c p :
    reach chain self → fresh chain (Some (c, p)) → reach (extend chain (Some (c, p))) self
| reach_import chain self build c p epoch :
    reach chain self → BuilderLaws chain build → fresh chain (Some (c, p)) →
    reach (extend chain (Some (c, p)))
      (epochs_import build self c (num chain p + 1) p (MkIncrementedEpoch epoch)).1
| reach_prune chain self build h slot :
    reach chain self → BuilderLaws chain build → known chain h →
    reach chain (prune_finalized build self h (num chain h) slot).1
| reach_rebalance chain self : reach chain self → reach chain (epochs_rebalance self).

Lemma epochs_reach_ok chain self : reach chain self → wf_chain chain ∧ wf_epochs chain self.
Proof.
  induction 1 as [chain Hc|chain self c p _ [Hc Hw] Hf|chain self build c p epoch _ [Hc Hw] Hb Hf
                 |chain self build h slot _ [Hc Hw] Hb Hh|chain self _ [Hc Hw]].
  - split; [done|]. split; [|done]. split; [constructor|by intros m ?%not_elem_of_nil].
  - split; [by apply extend_current_wf|by apply wf_epochs_extend].
  - split; [by apply extend_current_wf|]. destruct Hf as [Hc' Hp].
    pose proof (epochs_import_ok chain Hc build self c p epoch Hw Hc' Hp) as Hi.
    destruct (epochs_import _ _ _ _ _ _). by destruct Hi as (_&?&_).
  - split; [done|]. by destruct (prune_finalized_ok chain Hc build self h slot Hw Hh) as (self'&->&?&_).
  - split; [done|]. destruct Hw as [Hw Hb]. split; [by apply wf_rebalance|done].
Qed.

(** Along every history of the chain and of the epoch changes (blocks
    arriving, epochs signalled, finalized blocks pruned, the tree rebalanced),
    the tree of epoch changes is a well-formed fork tree over the blocks of the
    chain. *)
Theorem epochs_invariant chain self : reach chain self → wf_chain chain ∧ wf_epochs chain self.
Proof. apply epochs_reach_ok. Qed.
End epochs.

Arguments PersistedEpoch : clear implicits.
Arguments EpochChanges : clear implicits.
Arguments ViableEpoch : clear implicits.

(** ** A small chain

    Blocks [1], [2] and [3] on top of genesis [0], on the in-memory client.
    Epochs last ten slots: the first block signals epochs 0 and 1, the second
    epoch 2. *)
Module SmallEpochs.
Definition epoch : Type := Z * Z.

#[export] Instance epoch_class : Epoch epoch := {|
  NextEpochDescriptor := Z;
  epoch_increment e len := (e.2, e.2 + len);
  end_slot := snd;
  start_slot := fst;
|}.

Definition genesis_chain : gmap Hash (Z * Hash) := {[ [0] := (0, [9]) ]}.
Definition chain1 := extend genesis_chain (Some ([1], [0])).
Definition chain2 := extend chain1 (Some ([2], [1])).
Definition chain3 := extend chain2 (Some ([3], [2])).

#[export] Instance client_backend : HeaderMetadata Hash Hash (gmap Hash (Header Hash)) :=
  mem_backend id.

Definition client (chain : gmap Hash (Z * Hash)) : gmap Hash (Header Hash) :=
  map_imap (λ h '(n, p), Some (MkHeader h n p)) chain.

Definition build (chain : gmap Hash (Z * Hash)) : option (Hash * Hash) → Hash → Hash → Hash + bool :=
  descendent_query (client chain).

Lemma genesis_wf : wf_chain genesis_chain.
Proof.
  unfold genesis_chain. split.
  - intros h n p [_ [= <- _]]%lookup_singleton_Some. by left.
  - intros h h' p p' [<- _]%lookup_singleton_Some [<- _]%lookup_singleton_Some. done.
Qed.

Ltac compute_fresh := split; [vm_compute; reflexivity|eexists; vm_compute; reflexivity].

Lemma chain1_wf : wf_chain chain1.
Proof. apply extend_current_wf; [apply genesis_wf|compute_fresh]. Qed.

Lemma chain2_wf : wf_chain chain2.
Proof. apply extend_current_wf; [apply chain1_wf|compute_fresh]. Qed.

Lemma chain3_wf : wf_chain chain3.
Proof. apply extend_current_wf; [apply chain2_wf|compute_fresh]. Qed.

Lemma build_laws chain : wf_chain chain → BuilderLaws chain (build chain).
Proof.
  intros Hc. refine (descendent_query_laws chain (holds chain) (client chain) Hc _); [|done].
  by apply mem_backend_laws.
Qed.

Definition epoch_0 : epoch := (5, 15).

Definition first_signal : IncrementedEpoch :=
  increment (ViableGenesis (MkUnimportedGenesisEpoch epoch_0)) (10 : NextEpochDescriptor (T := epoch)).

Definition epochs1 : EpochChanges epoch :=
  (epochs_import (build genesis_chain) epochs_new [1] 1 [0] first_signal).1.

Definition epochs2 : EpochChanges epoch :=
  (epochs_import (build chain1) epochs1 [2] 2 [1] (MkIncrementedEpoch (Regular (25, 35)))).1.

Lemma epochs2_reached : reach (E := Hash) chain3 epochs2.
Proof.
  apply reach_block; [|compute_fresh].
  apply (reach_import chain1 epochs1 (build chain1) [2] [1]); [|apply build_laws, chain1_wf|compute_fresh].
  apply (reach_import genesis_chain epochs_new (build genesis_chain) [1] [0]);
    [apply reach_new, genesis_wf|apply build_laws, genesis_wf|compute_fresh].
Qed.

Lemma epochs_invariant_witness : wf_chain chain3 ∧ wf_epochs chain3 epochs2.
Proof. apply (epochs_invariant (E := Hash)). apply epochs2_reached. Defined.

Lemma epochs2_wf : wf_epochs chain3 epochs2.
Proof. apply (epochs_reach_ok (E := Hash)), epochs2_reached. Qed.

Lemma epochs1_wf : wf_epochs chain1 epochs1.
Proof.
  apply (epochs_reach_ok (E := Hash)).
  apply (reach_import genesis_chain epochs_new (build genesis_chain) [1] [0]);
    [apply reach_new, genesis_wf|apply build_laws, genesis_wf|compute_fresh].
Qed.

Definition make_genesis (slot : Z) : epoch := (slot, slot + 10).

(** A child of the last block at slot 30 is in epoch 2. *)
Lemma epoch_for_child_of_correct_witness :
  ∃ e, covers chain3 epochs2 [3] 30 e ∧ (∀ e', covers chain3 epochs2 [3] 30 e' → e' = e) ∧
    epoch_for_child_of (build chain3) epochs2 [3] 3 30 make_genesis =
      Ok (Some (ViableRegular (epoch_at 30 e.2))).
Proof.
  pose proof (build_laws chain3 chain3_wf) as Hb.
  destruct (epoch_for_child_of_correct chain3 chain3_wf (build chain3) epochs2 [3] [131] 30 make_genesis
    epochs2_wf) as [He|[_ Hnone]].
  - eexists. vm_compute. reflexivity.
  - reflexivity.
  - vm_compute. reflexivity.
  - exact He.
  - discriminate Hnone.
Defined.

Definition node2 : Node Hash (PersistedEpoch epoch) := MkNode [2] 2 (Regular (25, 35)) [].
Definition node1 : Node Hash (PersistedEpoch epoch) :=
  MkNode [1] 1 (Genesis epoch_0 (15, 25)) [node2].

Lemma epochs2_nodes : forest_nodes (roots (inner epochs2)) = [node1; node2].
Proof. vm_compute. reflexivity. Qed.

Lemma epochs2_sane : sane epochs2 26.
Proof.
  intros e (m&Hm&<-)%elem_of_signalled. rewrite epochs2_nodes in Hm.
  apply elem_of_cons in Hm as [->|Hm]; [done|].
  apply elem_of_cons in Hm as [->|Hm]; [done|]. by apply not_elem_of_nil in Hm.
Qed.

Lemma epochs2_successor : successor_signalled chain3 epochs2 [2] 26.
Proof.
  intros m Hm _ Ho c Hc. rewrite epochs2_nodes in Hm.
  apply elem_of_cons in Hm as [->|Hm].
  - apply list_elem_of_singleton in Hc as ->. apply (bool_decide_unpack _). vm_compute. exact I.
  - apply list_elem_of_singleton in Hm as ->. by apply not_elem_of_nil in Hc.
Qed.

(** Finalizing the second block at slot 26, when epoch 1 is over. *)
Lemma prune_finalized_correct_witness :
  ∃ self', prune_finalized (build chain3) epochs2 [2] 2 26 = (self', Ok tt) ∧
    epoch_for_child_of (build chain3) self' [3] 3 30 make_genesis =
    epoch_for_child_of (build chain3) epochs2 [3] 3 30 make_genesis.
Proof.
  pose proof (build_laws chain3 chain3_wf) as Hb.
  destruct (prune_finalized_correct chain3 chain3_wf (build chain3) epochs2 [2] 26 epochs2_wf)
    as (self'&Hp&_&_&Hsame); [eexists; vm_compute; reflexivity|].
  exists self'. split; [exact Hp|].
  apply (Hsame epochs2_sane epochs2_successor [3] [131] 30 make_genesis).
  - apply (bool_decide_unpack _). vm_compute. exact I.
  - eexists. vm_compute. reflexivity.
  - lia.
  - reflexivity.
  - vm_compute. reflexivity.
Defined.

Lemma epochs_import_correct_witness :
  let '(self', r) := epochs_import (build chain2) epochs1 [3] 3 [2] first_signal in
  r = Ok tt ∧ wf_epochs chain3 self' ∧
  entries (roots (inner self')) ≡ₚ ([3], 3, Genesis epoch_0 (15, 25)) :: entries (roots (inner epochs1)).
Proof.
  pose proof (build_laws chain2 chain2_wf) as Hb.
  apply (epochs_import_correct chain2 chain2_wf (build chain2) epochs1 [3] [2]
    (Genesis epoch_0 (15, 25))).
  - apply (wf_epochs_extend chain1 chain1_wf); [compute_fresh|apply epochs1_wf].
  - vm_compute. reflexivity.
  - eexists. vm_compute. reflexivity.
Defined.
End SmallEpochs.
