(* ===== verification/ExtraRequests.v ===== *)
(** * Extra data requests (src/client/network/src/protocol/sync/extra_requests.rs)

    The requests for justifications and finality proofs of blocks: a fork tree
    of the blocks that need one, whose roots are asked for.  A request is pending
    (queued), active (sent to a peer) or importing (answered).  Instants are
    nanoseconds, and the clock is read by the caller; the peers are given in the
    order in which the map of peers is iterated. *)
From stdpp Require Import strings.
From S2P Require Import Prelude ForkTree.

Local Open Scope Z_scope.

Section extra_requests.
Context {H P E : Type} `{Countable H, Countable P}.

(** ** Data *)

Abbreviation ExtraRequest := (H * Z)%type.

(** [Duration::from_secs(10)] *)
Definition EXTRA_RETRY_WAIT : Z := 10 * 10 ^ 9.

Record ExtraRequests : Type := MkExtraRequests {
  tree : ForkTree H unit;
  best_seen_finalized_number : Z;
  pending_requests : list ExtraRequest;
  active_requests : gmap P ExtraRequest;
  failed_requests : gmap ExtraRequest (list (P * Z));
  importing_requests : gset ExtraRequest;
  request_type_name : string;
}.

Record Metrics : Type := MkMetrics {
  pending_requests_count : Z;
  active_requests_count : Z;
  importing_requests_count : Z;
  failed_requests_count : Z;
}.

(** [Matcher]: the requests it works on are threaded as state. *)
Record Matcher : Type := MkMatcher {
  remaining : nat;
  extras : ExtraRequests;
}.

(** What the matcher reads of [PeerSync]: whether the state is [Available], and
    the best number. *)
Record PeerSync : Type := MkPeerSync {
  available : bool;
  best_number : Z;
}.

Definition set_pending (s : ExtraRequests) (l : list ExtraRequest) : ExtraRequests :=
  MkExtraRequests (tree s) (best_seen_finalized_number s) l (active_requests s) (failed_requests s)
    (importing_requests s) (request_type_name s).

Definition set_active (s : ExtraRequests) (m : gmap P ExtraRequest) : ExtraRequests :=
  MkExtraRequests (tree s) (best_seen_finalized_number s) (pending_requests s) m (failed_requests s)
    (importing_requests s) (request_type_name s).

Definition set_failed (s : ExtraRequests) (m : gmap ExtraRequest (list (P * Z))) : ExtraRequests :=
  MkExtraRequests (tree s) (best_seen_finalized_number s) (pending_requests s) (active_requests s) m
    (importing_requests s) (request_type_name s).

Definition set_importing (s : ExtraRequests) (x : gset ExtraRequest) : ExtraRequests :=
  MkExtraRequests (tree s) (best_seen_finalized_number s) (pending_requests s) (active_requests s)
    (failed_requests s) x (request_type_name s).

Definition set_tree (s : ExtraRequests) (t : ForkTree H unit) : ExtraRequests :=
  MkExtraRequests t (best_seen_finalized_number s) (pending_requests s) (active_requests s)
    (failed_requests s) (importing_requests s) (request_type_name s).

Definition set_best_seen (s : ExtraRequests) (n : Z) : ExtraRequests :=
  MkExtraRequests (tree s) n (pending_requests s) (active_requests s)
    (failed_requests s) (importing_requests s) (request_type_name s).

(** ** Operations *)

Definition requests_new (name : string) : ExtraRequests :=
  MkExtraRequests new 0 [] ∅ ∅ ∅ name.

Definition reset (s : ExtraRequests) : ExtraRequests :=
  MkExtraRequests new (best_seen_finalized_number s) [] ∅ ∅ (importing_requests s)
    (request_type_name s).

Definition schedule (isd : H → H → E + bool) (s : ExtraRequests) (request : ExtraRequest) : ExtraRequests :=
  let '(t, r) := import isd (tree s) request.1 request.2 tt in
  let s' := set_tree s t in
  match r with
  | Ok true => set_pending s' (pending_requests s' ++ [request])
  | _ => s'
  end.

Definition peer_disconnected (s : ExtraRequests) (who : P) : ExtraRequests :=
  match active_requests s !! who with
  | Some request =>
      set_pending (set_active s (delete who (active_requests s))) (request :: pending_requests s)
  | None => s
  end.

Definition on_response {R : Type} (now : Z) (s : ExtraRequests) (who : P) (resp : option R) :
    ExtraRequests * option (P * H * Z * R) :=
  match active_requests s !! who with
  | Some request =>
      let s1 := set_active s (delete who (active_requests s)) in
      match resp with
      | Some r =>
          (set_importing s1 ({[request]} ∪ importing_requests s1),
           Some (who, request.1, request.2, r))
      | None =>
          let entry := default [] (failed_requests s1 !! request) in
          let s2 := set_failed s1 (<[request := entry ++ [(who, now)]]> (failed_requests s1)) in
          (set_pending s2 (request :: pending_requests s2), None)
      end
  | None => (s, None)
  end.

(** [self.tree.roots()], as requests *)
Definition root_requests (s : ExtraRequests) : list ExtraRequest :=
  map (λ r, (hash r, number r)) (roots (tree s)).

Definition try_finalize_root {Er : Type} (s : ExtraRequests) (request : ExtraRequest)
    (res : Er + ExtraRequest) (reschedule_on_failure : bool) : ExtraRequests * bool :=
  if decide (request ∈ importing_requests s) then
    let s1 := set_importing s (importing_requests s ∖ {[request]}) in
    match res with
    | inl _ =>
        (if reschedule_on_failure then set_pending s1 (request :: pending_requests s1) else s1, true)
    | inr (finalized_hash, finalized_number) =>
        match finalize_root (tree s1) finalized_hash with
        | None => (s1, true)
        | Some (t, _) =>
            let s2 := set_tree s1 t in
            (MkExtraRequests t finalized_number (root_requests s2) ∅ ∅ (importing_requests s2)
               (request_type_name s2), true)
        end
    end
  else (s, false).

(** The last step of [on_block_finalized]: only requests for roots are kept. *)
Definition retain_roots (s : ExtraRequests) : ExtraRequests :=
  let keep := root_requests s in
  set_failed
    (set_active
       (set_pending s (filter (λ r, r ∈ keep) (pending_requests s)))
       (filter (λ e, e.2 ∈ keep) (active_requests s)))
    (filter (λ e, e.1 ∈ keep) (failed_requests s)).

(** [None] is [finalize_with_ancestors] out of fuel. *)
Definition on_block_finalized (isd : H → H → E + bool) (s : ExtraRequests) (h : H) (n : Z) :
    option (ExtraRequests * result (Error E) unit) :=
  let request := (h, n) in
  match try_finalize_root (Er := unit) s request (inr request) false with
  | (s', true) => Some (s', Ok tt)
  | (s0, false) =>
      if best_seen_finalized_number s0 <? n then
        match finalize_with_ancestors isd (tree s0) h n with
        | None => None
        | Some (t, Ok _) => Some (retain_roots (set_best_seen (set_tree s0 t) n), Ok tt)
        | Some (t, Err Revert) => Some (retain_roots (set_best_seen (set_tree s0 t) n), Ok tt)
        | Some (t, Err e) => Some (set_tree s0 t, Err e)
        | Some (t, Panic) => Some (set_tree s0 t, Panic)
        end
      else Some (retain_roots s0, Ok tt)
  end.

(** [len().try_into().unwrap_or(u32::MAX)] *)
Definition as_u32 (n : nat) : Z :=
  if Z.of_nat n <? 2 ^ 32 then Z.of_nat n else 2 ^ 32 - 1.

Definition metrics (s : ExtraRequests) : Metrics :=
  MkMetrics (as_u32 (length (pending_requests s))) (as_u32 (size (active_requests s)))
    (as_u32 (size (importing_requests s))) (as_u32 (size (failed_requests s))).

(** ** Matching *)

Definition matcher (s : ExtraRequests) : Matcher := MkMatcher (length (pending_requests s)) s.

(** Forget failures that are old enough. *)
Definition expire_failures (now : Z) (s : ExtraRequests) : ExtraRequests :=
  set_failed s (filter (λ e, now - e.2 < EXTRA_RETRY_WAIT) <$> failed_requests s).

(** The tests of the loop over the peers. *)
Definition suits (s : ExtraRequests) (request : ExtraRequest) (p : P * PeerSync) : bool :=
  available p.2 &&
  negb (best_number p.2 <? request.2) &&
  negb (bool_decide (is_Some (active_requests s !! p.1))) &&
  negb (existsb (λ i, bool_decide (i.1 = p.1)) (default [] (failed_requests s !! request))).

Fixpoint next_loop (remaining : nat) (s : ExtraRequests) (peers : list (P * PeerSync)) :
    Matcher * option (P * ExtraRequest) :=
  match pending_requests s with
  | [] => (MkMatcher remaining s, None)
  | request :: rest =>
      match find (suits s request) peers with
      | Some (peer, _) =>
          (MkMatcher remaining
             (set_active (set_pending s rest) (<[peer := request]> (active_requests s))),
           Some (peer, request))
      | None =>
          let s' := set_pending s (rest ++ [request]) in
          match remaining with
          | S (S _ as remaining') => next_loop remaining' s' peers
          | _ => (MkMatcher 0 s', None) (* the loop is not entered with 0 *)
          end
      end
  end.

Definition next (now : Z) (m : Matcher) (peers : list (P * PeerSync)) :
    Matcher * option (P * ExtraRequest) :=
  if decide (remaining m = 0%nat) then (m, None)
  else next_loop (remaining m) (expire_failures now (extras m)) peers.

(** ** Matching is fair and safe *)

(** A peer that may be asked: it is idle and not behind, has no request of this
    kind, and did not fail on this one in the last ten seconds. *)
Definition may_ask (now : Z) (s : ExtraRequests) (peers : list (P * PeerSync))
    (request : ExtraRequest) (peer : P) : Prop :=
  ∃ sync, (peer, sync) ∈ peers ∧ available sync = true ∧ request.2 ≤ best_number sync ∧
    active_requests s !! peer = None ∧
    ∀ t, (peer, t) ∈ default [] (failed_requests s !! request) → EXTRA_RETRY_WAIT ≤ now - t.

Lemma suits_ok now s request p :
  suits (expire_failures now s) request p = true ↔
  available p.2 = true ∧ request.2 ≤ best_number p.2 ∧ active_requests s !! p.1 = None ∧
  ∀ t, (p.1, t) ∈ default [] (failed_requests s !! request) → EXTRA_RETRY_WAIT ≤ now - t.
Proof.
  unfold suits. cbn [active_requests failed_requests expire_failures set_failed].
  rewrite !andb_true_iff, !negb_true_iff, Z.ltb_ge, bool_decide_eq_false, eq_None_not_Some.
  rewrite <- not_true_iff_false, existsb_exists.
  assert ((∃ x, In x (default [] ((filter (λ e, now - e.2 < EXTRA_RETRY_WAIT) <$> failed_requests s)
      !! request)) ∧ bool_decide (x.1 = p.1) = true) ↔
    ∃ t, (p.1, t) ∈ default [] (failed_requests s !! request) ∧ now - t < EXTRA_RETRY_WAIT) as ->.
  { rewrite lookup_fmap. destruct (failed_requests s !! request) as [l|]; cbn.
    - split.
      + intros ([p' t]&[Ht Hin]%list_elem_of_In%list_elem_of_filter&Hp%bool_decide_eq_true).
        cbn in Hp. subst p'. eauto.
      + intros (t&Hin&Ht). exists (p.1, t). rewrite bool_decide_eq_true, <- list_elem_of_In.
        split; [|done]. by apply list_elem_of_filter.
    - split; [by intros (?&[]&_)|by intros (t&?%not_elem_of_nil&_)]. }
  split; [intros (((Ha&Hb)&Hc)&Hd)|intros (Ha&Hb&Hc&Hd)]; split_and!; try done.
  - intros t Ht. destruct (decide (now - t < EXTRA_RETRY_WAIT)); [|lia]. destruct Hd. eauto.
  - intros (t&Ht&Hlt). specialize (Hd t Ht). lia.
Qed.

Lemma find_suits now s peers request :
  match find (suits (expire_failures now s) request) peers with
  | Some (peer, _) => may_ask now s peers request peer
  | None => ∀ peer, ¬ may_ask now s peers request peer
  end.
Proof.
  destruct (find _ peers) as [[peer sync]|] eqn:Hf.
  - apply find_some in Hf as [Hin%list_elem_of_In Hs%suits_ok]. by exists sync.
  - intros peer (sync&Hin%list_elem_of_In&Hs). pose proof (find_none _ _ Hf _ Hin) as Hn.
    apply not_true_iff_false in Hn. by apply Hn, suits_ok.
Qed.

Lemma next_loop_ok n s peers :
  (1 ≤ n)%nat →
  match next_loop n s peers with
  | (m', Some (peer, request)) => ∃ l1 l2 sync,
      pending_requests s = l1 ++ request :: l2 ∧ (length l1 < n)%nat ∧
      remaining m' = (n - length l1)%nat ∧
      extras m' = set_active (set_pending s (l2 ++ l1)) (<[peer := request]> (active_requests s)) ∧
      find (suits s request) peers = Some (peer, sync) ∧
      ∀ r, r ∈ l1 → find (suits s r) peers = None
  | (m', None) => ∃ l,
      (remaining m' = 0%nat ∨ pending_requests s = []) ∧ extras m' = set_pending s l ∧
      l ≡ₚ pending_requests s ∧
      ((n ≤ length (pending_requests s))%nat →
        l = drop n (pending_requests s) ++ take n (pending_requests s)) ∧
      ∀ r, r ∈ take n (pending_requests s) → find (suits s r) peers = None
  end.
Proof.
  revert s. induction n as [|n IH]; intros s Hn; [lia|]. cbn [next_loop].
  destruct (pending_requests s) as [|request rest] eqn:Hp.
  { exists []. split_and!; [by right|destruct s; by simplify_eq/=|done|done|].
    by intros r ?%not_elem_of_nil. }
  destruct (find (suits s request) peers) as [[peer sync]|] eqn:Hf.
  { exists [], rest, sync. rewrite app_nil_r. split_and!; [done|simpl; lia|simpl; lia|done|done|].
    by intros r ?%not_elem_of_nil. }
  destruct n as [|n].
  { exists (rest ++ [request]). cbn. rewrite take_0, drop_0.
    split_and!; [by left|done|solve_Permutation|done|]. by intros r ->%list_elem_of_singleton. }
  specialize (IH (set_pending s (rest ++ [request])) ltac:(lia)).
  cbn [pending_requests set_pending] in IH.
  destruct (next_loop (S n) (set_pending s (rest ++ [request])) peers) as [m' [[peer r]|]].
  - destruct IH as (l1&l2&sync&Hl&Hlen&Hr&Hx&Hfr&Hl1).
    destruct l2 as [|x l2 _] using rev_ind.
    { apply app_inj_tail in Hl as [_ <-]. change (find (suits s request) peers = Some (peer, sync)) in Hfr.
      congruence. }
    rewrite app_comm_cons, app_assoc in Hl. apply app_inj_tail in Hl as [-> <-].
    exists (request :: l1), l2, sync. split_and!; [done|simpl; lia|simpl; lia| |done|].
    + rewrite Hx. unfold set_active, set_pending. cbn. by rewrite <- app_assoc.
    + intros r' [->|Hr']%elem_of_cons; [done|by apply Hl1].
  - destruct IH as (l&Hrem&Hx&Hperm&Hrot&Hl1). exists l. split_and!.
    + destruct Hrem as [|Hnil]; [by left|]. by destruct rest.
    + done.
    + rewrite Hperm. solve_Permutation.
    + intros Hlen. simpl in Hlen. rewrite Hrot by (rewrite length_app; simpl; lia).
      rewrite drop_app_le, take_app_le, <- app_assoc by lia. done.
    + rewrite firstn_cons. intros r [->|Hr]%elem_of_cons; [done|]. apply Hl1.
      rewrite take_app. apply elem_of_app. by left.
Qed.

(** ** Invariant *)

Section invariant.
Context (isd : H → H → E + bool) (anc : H → H → Prop) `{!RelDecision anc} (known : H → Prop) (num : H → Z).
Context `{!Ancestry isd anc known num}.

Abbreviation wf_tree s := (wf_forest anc known num (roots (tree s))).

(** The request is queued, in flight, or being imported. *)
Definition tracked (s : ExtraRequests) (r : ExtraRequest) : Prop :=
  r ∈ pending_requests s ∨ (∃ p, active_requests s !! p = Some r) ∨ r ∈ importing_requests s.

(** Every root of the tree is asked for, but for some that were forgotten. *)
Definition all_tracked (lost : gset ExtraRequest) (s : ExtraRequests) : Prop :=
  ∀ r, r ∈ root_requests s → tracked s r ∨ r ∈ lost.

Lemma elem_of_root_requests s r :
  r ∈ root_requests s ↔ ∃ m, m ∈ roots (tree s) ∧ (hash m, number m) = r.
Proof.
  unfold root_requests. rewrite list_elem_of_In, in_map_iff.
  split; intros (m&Ha&Hb); exists m; by rewrite list_elem_of_In in *.
Qed.

Lemma schedule_ok s h :
  known h → wf_tree s → in_order anc h (roots (tree s)) →
  let s' := schedule isd s (h, num h) in
  wf_tree s' ∧ active_requests s' = active_requests s ∧ importing_requests s' = importing_requests s ∧
  failed_requests s' = failed_requests s ∧
  if decide ((h ∉ hashes (roots (tree s))) ∧ reverts (tree s) (num h) = false)
  then entries (roots (tree s')) ≡ₚ (h, num h, tt) :: entries (roots (tree s)) ∧
    pending_requests s' = pending_requests s ++
      (if decide (Forall (λ m, ¬ anc (hash m) h) (forest_nodes (roots (tree s)))) then [(h, num h)] else [])
  else s' = s.
Proof using Ancestry0.
  intros Hh Hw Ho. pose proof (import_ok isd anc known num (tree s) h tt Hh Hw Ho) as Hi.
  unfold schedule. cbn [fst snd]. destruct (import isd (tree s) h (num h) tt) as [t r].
  destruct Hi as (Hw'&_&Hi). destruct (reverts (tree s) (num h)).
  { destruct Hi as [-> ->]. rewrite decide_False by naive_solver. by destruct s. }
  destruct (decide (h ∈ hashes (roots (tree s)))) as [Hin|Hin].
  { destruct Hi as [-> ->]. rewrite decide_False by naive_solver. by destruct s. }
  rewrite (decide_True (P := _ ∧ _)) by done. destruct Hi as [He ->].
  case_bool_decide as Hf; cbn.
  - rewrite decide_True by done. done.
  - rewrite decide_False by done. by rewrite app_nil_r.
Qed.

(** In a well-formed forest the roots are the blocks without ancestors in it. *)
Lemma root_minimal (l : list (Node H unit)) m :
  wf_forest anc known num l → m ∈ forest_nodes l →
  m ∈ l ↔ ∀ x, x ∈ forest_nodes l → ¬ anc (hash x) (hash m).
Proof using Ancestry0.
  intros Hw Hm. split.
  - intros Hml x Hx Hxm. destruct (wf_root_of isd anc known num l x Hx Hw) as (r&Hr&_&Hrx).
    assert (anc (hash r) (hash m)) as Hrm.
    { destruct Hrx as [->|Hrx]; [done|]. by eapply (anc_trans (isd := isd) (num := num)). }
    destruct (antichain_inv anc l r m (proj1 Hw) Hr Hml) as [->|(_&Hn&_)]; [|done].
    by apply (anc_irrefl isd anc known num) in Hrm.
  - intros Hno. destruct (wf_root_of isd anc known num l m Hm Hw) as (r&Hr&_&[->|Hrm]); [done|].
    by destruct (Hno r (root_in_forest _ _ Hr)).
Qed.

Lemma root_entry s r :
  wf_tree s →
  r ∈ root_requests s ↔
  ∃ e, e ∈ entries (roots (tree s)) ∧ e.1 = r ∧
    ∀ e', e' ∈ entries (roots (tree s)) → ¬ anc e'.1.1 e.1.1.
Proof using Ancestry0.
  intros Hw. rewrite elem_of_root_requests.
  assert (∀ e, e ∈ entries (roots (tree s)) ↔ ∃ m, m ∈ forest_nodes (roots (tree s)) ∧ entry m = e) as He.
  { intros e. unfold entries. rewrite list_elem_of_In, in_map_iff.
    split; intros (m&Ha&Hb); exists m; by rewrite list_elem_of_In in *. }
  split.
  - intros (m&Hm&<-). pose proof (root_in_forest _ _ Hm) as Hf. exists (entry m).
    split_and!; [apply He; eauto|done|]. intros e' (x&Hx&<-)%He.
    exact (proj1 (root_minimal _ m Hw Hf) Hm x Hx).
  - intros (e&(m&Hm&<-)%He&<-&Hno). exists m. split; [|done]. apply root_minimal; [done..|].
    intros x Hx. apply (Hno (entry x)). apply He. eauto.
Qed.

Lemma schedule_tracked lost s h :
  known h → wf_tree s → in_order anc h (roots (tree s)) → all_tracked lost s →
  all_tracked lost (schedule isd s (h, num h)).
Proof using Ancestry0.
  intros Hh Hw Ho Ht. pose proof (schedule_ok s h Hh Hw Ho) as (Hw'&Ha&Hi&_&Hs). cbn zeta in *.
  set (s' := schedule isd s (h, num h)) in *. case_decide as Hc; [|by rewrite Hs].
  destruct Hs as [He Hp]. intros r (e&Hee&<-&Hmin)%root_entry; [|done].
  rewrite He in Hee. apply elem_of_cons in Hee as [->|Hee].
  - left. left. rewrite Hp, decide_True.
    + apply elem_of_app. right. by apply list_elem_of_singleton.
    + apply Forall_forall. intros m Hm. apply (Hmin (entry m)). rewrite He. right.
      unfold entries. apply list_elem_of_In, in_map, list_elem_of_In, Hm.
  - assert (tracked s e.1 ∨ e.1 ∈ lost) as Htr.
    { apply Ht, root_entry; [done|]. exists e. split_and!; [done..|].
      intros e' He'. apply Hmin. rewrite He. by right. }
    unfold tracked in *. rewrite Ha, Hi, Hp, elem_of_app. tauto.
Qed.

Lemma tracked_active_delete s who r r' :
  active_requests s !! who = Some r → r' ≠ r →
  (∃ p, active_requests s !! p = Some r') → ∃ p, delete who (active_requests s) !! p = Some r'.
Proof.
  intros Hw Hne [p Hp]. exists p. rewrite lookup_delete_ne; [done|]. intros ->. congruence.
Qed.

(** Losing the connection to a peer, or its answer, loses no request. *)
Lemma disconnect_tracked s who r : tracked s r → tracked (peer_disconnected s who) r.
Proof.
  unfold peer_disconnected. destruct (active_requests s !! who) as [r'|] eqn:Hw; [|done].
  unfold tracked. cbn. rewrite elem_of_cons. destruct (decide (r = r')) as [|Hne]; [tauto|].
  intros [|[Hp|]]; [tauto| |tauto]. right. left. by eapply tracked_active_delete.
Qed.

Lemma response_tracked {R} now s who (resp : option R) r :
  tracked s r → tracked (on_response now s who resp).1 r.
Proof.
  unfold on_response. destruct (active_requests s !! who) as [r'|] eqn:Hw; [|done].
  destruct resp; unfold tracked; cbn; rewrite ?elem_of_cons, ?elem_of_union, ?elem_of_singleton;
    (destruct (decide (r = r')) as [|Hne]; [tauto|]);
    (intros [|[Hp|]]; [tauto| |tauto]); right; left; by eapply tracked_active_delete.
Qed.

Lemma next_tracked now m peers r :
  tracked (extras m) r → tracked (extras (next now m peers).1) r.
Proof.
  unfold next. case_decide as Hz; [done|]. intros Ht.
  pose proof (next_loop_ok (remaining m) (expire_failures now (extras m)) peers ltac:(lia)) as Hn.
  destruct (next_loop _ _ _) as [m' [[peer req]|]].
  - destruct Hn as (l1&l2&sync&Hp&_&_&Hx&Hf&_). cbn [fst]. rewrite Hx. unfold tracked in *. cbn in *.
    rewrite Hp in Ht. rewrite elem_of_app in *. rewrite elem_of_cons in Ht.
    assert (active_requests (extras m) !! peer = None) as Hnone.
    { pose proof (find_suits now (extras m) peers req) as Hs. rewrite Hf in Hs.
      by destruct Hs as (?&_&_&_&?&_). }
    destruct Ht as [[|[->|]]|[[p Hpr]|]]; [tauto| |tauto| |tauto].
    + right. left. exists peer. by rewrite lookup_insert_eq.
    + right. left. exists p. rewrite lookup_insert_ne; [done|]. intros ->. congruence.
  - destruct Hn as (l&_&Hx&Hl&_). cbn [fst]. rewrite Hx. unfold tracked in *. cbn in *. by rewrite Hl.
Qed.

(** ** Finalizing *)

(** The outcome of finalizing a request being imported, told to succeed. *)
Definition finalized_root (s s' : ExtraRequests) (h : H) : Prop :=
  importing_requests s' = importing_requests s ∖ {[(h, num h)]} ∧
  if decide (Exists (λ r, hash r = h) (roots (tree s)))
  then forest_nodes (roots (tree s')) ≡ₚ below anc h (roots (tree s)) ∧
    pending_requests s' = root_requests s' ∧ active_requests s' = ∅ ∧ failed_requests s' = ∅ ∧
    best_seen_finalized_number s' = num h
  else s' = set_importing s (importing_requests s').

Lemma try_finalize_ok {Er} s h flag :
  wf_tree s → (h, num h) ∈ importing_requests s →
  ∃ s', try_finalize_root (Er := Er) s (h, num h) (inr (h, num h)) flag = (s', true) ∧
    wf_tree s' ∧ finalized_root s s' h.
Proof using Ancestry0.
  intros Hw Hi. unfold try_finalize_root. rewrite decide_True by done.
  pose proof (finalize_root_ok isd anc known num h (tree s) Hw) as Hf.
  cbn [tree set_importing]. destruct (finalize_root (tree s) h) as [[t v]|].
  - destruct Hf as (r&Hr&Hrh&_&Hwt&_&Hn). eexists. split_and!; [done|done|split; [done|]].
    rewrite decide_True by (apply Exists_exists; eauto). done.
  - eexists. split_and!; [done|done|split; [done|]]. rewrite decide_False; [done|].
    intros (r&Hr&Hrh)%Exists_exists. by apply (Hf r).
Qed.

Lemma finalized_root_tracked lost s s' h :
  wf_tree s → finalized_root s s' h → all_tracked lost s → all_tracked lost s'.
Proof.
  intros Hw [Hi Hf] Ht r Hr. case_decide as Hex.
  - destruct Hf as (_&Hp&_). left. left. by rewrite Hp.
  - rewrite Hf in Hr |- *. change (r ∈ root_requests s) in Hr. unfold tracked. cbn. rewrite Hi.
    assert (r ≠ (h, num h)) as Hne.
    { intros ->. apply Hex, Exists_exists. apply elem_of_root_requests in Hr as (m&Hm&Heq).
      exists m. split; [done|]. congruence. }
    rewrite elem_of_difference, elem_of_singleton. specialize (Ht r Hr). unfold tracked in Ht. tauto.
Qed.

(** The outcome of a finalization the import of which was not pending. *)
Definition finalized_elsewhere (s s' : ExtraRequests) (h : H) : Prop :=
  (if decide (best_seen_finalized_number s < num h ∧ reverts (tree s) (num h) = false)
   then forest_nodes (roots (tree s')) ≡ₚ below anc h (roots (tree s))
   else tree s' = tree s) ∧
  best_seen_finalized_number s' = Z.max (best_seen_finalized_number s) (num h) ∧
  pending_requests s' = filter (λ r, r ∈ root_requests s') (pending_requests s) ∧
  active_requests s' = filter (λ e, e.2 ∈ root_requests s') (active_requests s) ∧
  failed_requests s' = filter (λ e, e.1 ∈ root_requests s') (failed_requests s) ∧
  importing_requests s' = importing_requests s.

Lemma on_block_finalized_ok s h :
  known h → wf_tree s →
  ∃ s', on_block_finalized isd s h (num h) = Some (s', Ok tt) ∧ wf_tree s' ∧
    if decide ((h, num h) ∈ importing_requests s) then finalized_root s s' h
    else finalized_elsewhere s s' h.
Proof using Ancestry0.
  intros Hh Hw. unfold on_block_finalized.
  destruct (decide ((h, num h) ∈ importing_requests s)) as [Hi|Hi].
  { destruct (try_finalize_ok (Er := unit) s h false Hw Hi) as (s'&->&?&?). eauto. }
  unfold try_finalize_root. rewrite decide_False by done.
  destruct (Z.ltb_spec (best_seen_finalized_number s) (num h)) as [Hlt|Hle].
  2:{ eexists. split_and!; [done..|]. unfold finalized_elsewhere. rewrite decide_False by lia.
      split_and!; [done|cbn; lia|done..]. }
  destruct (reverts (tree s) (num h)) eqn:Hrev.
  { unfold finalize_with_ancestors. rewrite Hrev. eexists. split_and!; [done|done|].
    unfold finalized_elsewhere. rewrite decide_False by (intros [_ ?]; congruence).
    split_and!; [done|cbn; lia|done..]. }
  destruct (fwa_ok isd anc known num (tree s) h Hh Hw Hrev) as (t'&v&->&Hwt&_&Hn&_).
  eexists. split_and!; [done|done|]. unfold finalized_elsewhere. rewrite decide_True by done.
  split_and!; [done|cbn; lia|done..].
Qed.

(** The requests of the blocks that a finalization makes roots. *)
Definition exposed (s s' : ExtraRequests) : gset ExtraRequest :=
  list_to_set (filter (λ r, r ∉ root_requests s) (root_requests s')).

Lemma finalized_elsewhere_tracked lost s s' h :
  finalized_elsewhere s s' h → all_tracked lost s → all_tracked (lost ∪ exposed s s') s'.
Proof.
  intros (_&_&Hp&Ha&_&Hi) Ht r Hr. rewrite elem_of_union.
  destruct (decide (r ∈ root_requests s)) as [Hrs|Hn].
  2:{ right. right. apply elem_of_list_to_set. by apply list_elem_of_filter. }
  destruct (Ht r Hrs) as [[?|[[p ?]|?]]|?]; [left|left|left|right; by left].
  - left. rewrite Hp. by apply list_elem_of_filter.
  - right. left. exists p. rewrite Ha. by apply map_lookup_filter_Some.
  - right. right. by rewrite Hi.
Qed.

(** ** Histories

    The calls of the sync state machine: results of imports are about the
    request itself, and a failed import is rescheduled.  The set collects the
    requests of the blocks that became roots by a finality notification for a
    block whose data was not being imported. *)
Inductive reach : gset ExtraRequest → ExtraRequests → Prop :=
| reach_new name : reach ∅ (requests_new name)
| reach_reset lost s : reach lost s → reach ∅ (reset s)
| reach_schedule lost s h :
    reach lost s → known h → in_order anc h (roots (tree s)) → reach lost (schedule isd s (h, num h))
| reach_disconnected lost s who : reach lost s → reach lost (peer_disconnected s who)
| reach_response lost s (R : Type) now who (resp : option R) :
    reach lost s → reach lost (on_response now s who resp).1
| reach_next lost s n now peers : reach lost s → reach lost (extras (next now (MkMatcher n s) peers).1)
| reach_imported lost s h (success : bool) :
    reach lost s →
    reach lost (try_finalize_root s (h, num h) (if success then inr (h, num h) else inl ()) true).1
| reach_finalized lost s h s' r :
    reach lost s → known h → on_block_finalized isd s h (num h) = Some (s', r) →
    reach (if decide ((h, num h) ∈ importing_requests s) then lost else lost ∪ exposed s s') s'.

Lemma try_finalize_tracked lost s h (success : bool) :
  wf_tree s → all_tracked lost s →
  let s' := (try_finalize_root s (h, num h) (if success then inr (h, num h) else inl ()) true).1 in
  wf_tree s' ∧ all_tracked lost s'.
Proof using Ancestry0.
  intros Hw Ht. cbn zeta. destruct (decide ((h, num h) ∈ importing_requests s)) as [Hi|Hi].
  2:{ unfold try_finalize_root. by rewrite decide_False. }
  destruct success.
  - destruct (try_finalize_ok (Er := unit) s h true Hw Hi) as (s'&->&?&Hf).
    split; [done|]. by apply (finalized_root_tracked lost s s' h).
  - unfold try_finalize_root. rewrite decide_True by done. split; [done|].
    intros r Hr. specialize (Ht r Hr). unfold tracked in *. cbn.
    rewrite elem_of_cons, elem_of_difference, elem_of_singleton.
    destruct (decide (r = (h, num h))); tauto.
Qed.

Lemma peer_disconnected_tree s who : tree (peer_disconnected s who) = tree s.
Proof. unfold peer_disconnected. by destruct (active_requests s !! who). Qed.

Lemma on_response_tree {R} now s who (resp : option R) : tree (on_response now s who resp).1 = tree s.
Proof. unfold on_response. by destruct (active_requests s !! who), resp. Qed.

Lemma next_tree now m peers : tree (extras (next now m peers).1) = tree (extras m).
Proof.
  unfold next. case_decide; [done|].
  pose proof (next_loop_ok (remaining m) (expire_failures now (extras m)) peers ltac:(lia)) as Hn.
  destruct (next_loop _ _ _) as [m' [[peer req]|]].
  - destruct Hn as (l1&l2&sync&_&_&_&Hx&_). cbn [fst]. by rewrite Hx.
  - destruct Hn as (l&_&Hx&_). cbn [fst]. by rewrite Hx.
Qed.

Lemma tracked_same_tree lost s s' :
  tree s' = tree s → (∀ r, tracked s r → tracked s' r) → all_tracked lost s → all_tracked lost s'.
Proof.
  intros Ht Htr Ha r Hr. destruct (Ha r) as [?|?]; [|left; by apply Htr|by right].
  unfold root_requests in *. by rewrite <- Ht.
Qed.

(** ** Correctness *)


(** A finality notification never fails.  If the import of the block's data
    was pending, the block is finalized as the root it is (or nothing but the
    import is forgotten, when it is no root): what waits for it remains, its new
    roots are queued, everything else is dropped.  Otherwise the tree is reduced
    to what descends from the block, unless that was known already, and the
    requests that are no longer for roots are dropped, and only they. *)
Theorem on_block_finalized_correct s h :
  known h → wf_tree s →
  ∃ s', on_block_finalized isd s h (num h) = Some (s', Ok tt) ∧ wf_tree s' ∧
    if decide ((h, num h) ∈ importing_requests s) then finalized_root s s' h
    else finalized_elsewhere s s' h.
Proof using Ancestry0. apply on_block_finalized_ok. Qed.
End invariant.

(** [Matcher::next] with attempts left, whatever the order of the peers: an
    answer is a queued request, the first among those tried that some peer may
    be asked for, sent to such a peer; it moves from the queue to the requests
    in flight, those tried before go to the end of the queue.  Without an answer
    no request tried can be sent to any peer, and the queue only changed its
    order. *)
Theorem next_correct now m peers :
  (1 ≤ remaining m)%nat →
  let queue := pending_requests (extras m) in
  let clean := expire_failures now (extras m) in
  match next now m peers with
  | (m', Some (peer, request)) => ∃ l1 l2,
      queue = l1 ++ request :: l2 ∧ (length l1 < remaining m)%nat ∧
      remaining m' = (remaining m - length l1)%nat ∧
      extras m' = set_active (set_pending clean (l2 ++ l1))
        (<[peer := request]> (active_requests (extras m))) ∧
      may_ask now (extras m) peers request peer ∧
      ∀ r p, r ∈ l1 → ¬ may_ask now (extras m) peers r p
  | (m', None) => ∃ l,
      (remaining m' = 0%nat ∨ queue = []) ∧ extras m' = set_pending clean l ∧ l ≡ₚ queue ∧
      ∀ r p, r ∈ take (remaining m) queue → ¬ may_ask now (extras m) peers r p
  end.
Proof.
  intros Hn. cbn zeta. unfold next. rewrite decide_False by lia.
  pose proof (next_loop_ok (remaining m) (expire_failures now (extras m)) peers Hn) as Hl.
  assert (∀ r p, find (suits (expire_failures now (extras m)) r) peers = None →
    ¬ may_ask now (extras m) peers r p) as Hnone.
  { intros r p Hf. pose proof (find_suits now (extras m) peers r) as Hs. by rewrite Hf in Hs. }
  destruct (next_loop _ _ _) as [m' [[peer request]|]].
  - destruct Hl as (l1&l2&sync&Hq&Hlen&Hr&Hx&Hf&Hl1). exists l1, l2. split_and!; [done..| |eauto].
    pose proof (find_suits now (extras m) peers request) as Hs. by rewrite Hf in Hs.
  - destruct Hl as (l&Hr&Hx&Hp&_&Hl1). exists l. split_and!; [done..|eauto].
Qed.
End extra_requests.

Arguments ExtraRequests H P {_ _ _ _}.

(** ** A small history

    On the blocks of [ForkTree.Sample]: requests for a block on each side of a
    fork, and for a block on top of the left one. *)
Module SmallRequests.
Abbreviation request_tree := tree.
Import ForkTree.Sample.

Definition left_block : block := [false].
Definition above_left : block := [false; true].
Definition right_block : block := [true].

Definition empty : ExtraRequests block nat := requests_new "justification".
Definition one : ExtraRequests block nat := schedule isd empty (left_block, 1).
Definition two : ExtraRequests block nat := schedule isd one (above_left, 2).
Definition three : ExtraRequests block nat := schedule isd two (right_block, 1).

(** Peer 7 is busy, peer 8 is behind, peer 9 can be asked. *)
Definition peers : list (nat * PeerSync) :=
  [(7%nat, MkPeerSync false 5); (8%nat, MkPeerSync true 0); (9%nat, MkPeerSync true 5)].

Definition sent : ExtraRequests block nat := extras (next 0 (matcher three) peers).1.
Definition answered : ExtraRequests block nat := (on_response 1 sent 9%nat (Some tt)).1.

Lemma in_order_nodes (h : block) (s : ExtraRequests block nat) :
  Forall (λ m, ¬ anc h (hash m)) (forest_nodes (roots (request_tree s))) → in_order anc h (roots (request_tree s)).
Proof. intros Hf m Hm. by apply (proj1 (Forall_forall _ _) Hf). Qed.

Ltac decide_in_order := apply in_order_nodes; apply (bool_decide_unpack _); vm_compute; exact I.

Lemma three_reached : reach isd anc (λ _, True) num ∅ three.
Proof.
  apply (reach_schedule isd anc (λ _, True) num ∅ two right_block); [|exact I|decide_in_order].
  apply (reach_schedule isd anc (λ _, True) num ∅ one above_left); [|exact I|decide_in_order].
  apply (reach_schedule isd anc (λ _, True) num ∅ empty left_block); [|exact I|decide_in_order].
  apply reach_new.
Qed.

Definition finalized : ExtraRequests block nat :=
  match on_block_finalized isd three left_block 1 with Some (s', _) => s' | None => three end.


Lemma empty_wf : wf_forest anc (λ _, True) num (roots (request_tree empty)).
Proof. split; [constructor|by intros m ?%not_elem_of_nil]. Qed.

Lemma one_wf : wf_forest anc (λ _, True) num (roots (request_tree one)).
Proof. by apply (schedule_ok isd anc (λ _, True) num empty left_block I empty_wf); decide_in_order. Qed.

Lemma two_wf : wf_forest anc (λ _, True) num (roots (request_tree two)).
Proof. by apply (schedule_ok isd anc (λ _, True) num one above_left I one_wf); decide_in_order. Qed.

Lemma three_wf : wf_forest anc (λ _, True) num (roots (request_tree three)).
Proof. by apply (schedule_ok isd anc (λ _, True) num two right_block I two_wf); decide_in_order. Qed.

Lemma on_block_finalized_correct_witness :
  ∃ s', on_block_finalized isd three left_block 1 = Some (s', Ok tt) ∧
    wf_forest anc (λ _, True) num (roots (request_tree s')) ∧ finalized_elsewhere anc num three s' left_block.
Proof. exact (on_block_finalized_correct isd anc (λ _, True) num three left_block I three_wf). Defined.

Lemma next_correct_witness :
  ∃ l1 l2, pending_requests three = l1 ++ (left_block, 1) :: l2 ∧ (length l1 < 2)%nat ∧
    2%nat = (2 - length l1)%nat ∧
    sent = set_active (set_pending (expire_failures 0 three) (l2 ++ l1))
      (<[9%nat := (left_block, 1)]> (active_requests three)) ∧
    may_ask 0 three peers (left_block, 1) 9%nat ∧
    ∀ r p, r ∈ l1 → ¬ may_ask 0 three peers r p.
Proof. apply (next_correct 0 (matcher three) peers). vm_compute. lia. Defined.

(** A notification that finalizes a block whose data was only queued makes the
    block on top of it a root that is neither queued, nor in flight, nor being
    imported. *)
Lemma finalization_forgets :
  match on_block_finalized isd three left_block 1 with
  | Some (s', _) =>
      root_requests s' = [(above_left, 2)] ∧ pending_requests s' = [] ∧
      map_to_list (active_requests s') = [] ∧ elements (importing_requests s') = []
  | None => False
  end.
Proof. vm_compute. done. Qed.
End SmallRequests.
