(* ===== verification/BlockCollection.v ===== *)
(** * Blocks being downloaded (src/client/network/src/protocol/sync/blocks.rs)

    The ranges of blocks that are asked from peers or have arrived, by first
    block number.  Block numbers are [u32]s, as in the node's runtime, and the
    arithmetic on them wraps around, as it does in release builds: a peer that
    claims the best block [u32::MAX] makes [needed_blocks] panic
    ([best_block_panics]).  The theorems are about collections whose ranges
    end at most at a number [top] that leaves room for one more request. *)
From S2P Require Import Prelude.

Local Open Scope Z_scope.

(** The entries of a [BTreeMap] in the order of the keys. *)
Definition in_key_order {V : Type} (m : gmap Z V) : list (Z * V) :=
  sort_by (λ a b, a.1 <=? b.1) (map_to_list m).

Section blocks.
Context {B P : Type} `{Countable P}.

(** ** Data *)

Record BlockData : Type := MkBlockData {
  block : B;
  origin : option P;
}.

Inductive BlockRangeState : Type :=
| Downloading (len downloading : Z)
| Complete (blocks : list BlockData).

Record BlockCollection : Type := MkBlockCollection {
  blocks : gmap Z BlockRangeState;
  peer_requests : gmap P Z;
}.

(** [blocks.len() as u32] *)
Definition count_u32 {A} (l : list A) : Z := wrap 32 (Z.of_nat (length l)).

Definition range_len (r : BlockRangeState) : Z :=
  match r with
  | Downloading len _ => len
  | Complete bs => count_u32 bs
  end.

(** ** Operations *)

Definition collection_new : BlockCollection := MkBlockCollection ∅ ∅.

Definition clear (s : BlockCollection) : BlockCollection := MkBlockCollection ∅ ∅.

Definition insert (s : BlockCollection) (start : Z) (bs : list B) (who : P) : BlockCollection :=
  match bs with
  | [] => s
  | _ =>
      let s' := MkBlockCollection
        (<[start := Complete (map (λ b, MkBlockData b (Some who)) bs)]> (blocks s)) (peer_requests s) in
      match blocks s !! start with
      | Some (Complete existing) => if decide (length bs ≤ length existing)%nat then s else s'
      | _ => s'
      end
  end.

(** The loop of [needed_blocks] over the ranges in order: the range to ask for
    (first number and the number after the last), and how many peers are asked
    already. *)
Fixpoint find_range (first_different count max_parallel : Z) (prev : option (Z * BlockRangeState))
    (rest : list (Z * BlockRangeState)) : Z * Z * Z :=
  let next := head rest in
  let continue :=
    match rest with
    | [] => (0, 0, 0) (* not reached: without a next range the loop ends *)
    | e :: rest' => find_range first_different count max_parallel (Some e) rest'
    end in
  match prev, next with
  | Some (start, Downloading len downloading), _ =>
      if downloading <? max_parallel then (start, start +[32] len, downloading)
      else
        match next with
        | Some (next_start, _) =>
            if start +[32] len <? next_start
            then (start +[32] len, Z.min next_start (start +[32] len +[32] count), 0)
            else continue
        | None => (start +[32] len, start +[32] len +[32] count, 0)
        end
  | Some (start, r), Some (next_start, _) =>
      if start +[32] range_len r <? next_start
      then (start +[32] range_len r, Z.min next_start (start +[32] range_len r +[32] count), 0)
      else continue
  | Some (start, r), None => (start +[32] range_len r, start +[32] range_len r +[32] count, 0)
  | None, None => (first_different, first_different +[32] count, 0)
  | None, Some (start, _) =>
      if first_different <? start
      then (first_different, Z.min (first_different +[32] count) start, 0)
      else continue
  end.

Definition needed_blocks (s : BlockCollection) (who : P) (count peer_best common max_parallel
    max_ahead : Z) : BlockCollection * result Empty_set (option (Z * Z)) :=
  if peer_best <=? common then (s, Ok None)
  else
    let first_different := common +[32] 1 in
    let count := wrap 32 count in
    let '(start, stop, downloading) :=
      find_range first_different count max_parallel None (in_key_order (blocks s)) in
    if peer_best <? start then (s, Ok None)
    else
      let stop := Z.min (peer_best +[32] 1) stop in
      if match head (in_key_order (blocks s)) with
         | Some (n, _) => n +[32] max_ahead <? start
         | None => false
         end
      then (s, Ok None)
      else
        let s' := MkBlockCollection
          (<[start := Downloading (wrap 32 (stop - start)) (downloading +[32] 1)]> (blocks s))
          (<[who := start]> (peer_requests s)) in
        (s', if stop <=? start then Panic else Ok (Some (start, stop))).

(** The loop of [drain]: the blocks taken and the ranges emptied. *)
Fixpoint drain_loop (prev : Z) (rest : list (Z * BlockRangeState)) : list BlockData * list Z :=
  match rest with
  | (start, Complete bs) :: rest' =>
      if start <=? prev then
        let '(drained, ranges) := drain_loop (start +[32] count_u32 bs) rest' in
        (bs ++ drained, start :: ranges)
      else ([], [])
  | _ => ([], [])
  end.

Definition drain (s : BlockCollection) (from : Z) : BlockCollection * list BlockData :=
  let '(drained, ranges) := drain_loop from (in_key_order (blocks s)) in
  (MkBlockCollection (foldl (λ m r, delete r m) (blocks s) ranges) (peer_requests s), drained).

Definition clear_peer_download (s : BlockCollection) (who : P) : BlockCollection :=
  match peer_requests s !! who with
  | None => s
  | Some start =>
      MkBlockCollection
        match blocks s !! start with
        | Some (Downloading len downloading) =>
            if 1 <? downloading then <[start := Downloading len (downloading - 1)]> (blocks s)
            else delete start (blocks s)
        | _ => blocks s
        end
        (delete who (peer_requests s))
  end.

(** ** Invariant *)

(** The numbers of the blocks of a range fit a [u32]. *)
Definition bounded (r : BlockRangeState) : Prop :=
  match r with
  | Downloading _ _ => True
  | Complete bs => fits 32 (Z.of_nat (length bs))
  end.

(** Ranges are not empty and end at [top] at most. *)
Definition in_bounds (top : Z) (m : gmap Z BlockRangeState) : Prop :=
  ∀ a r, m !! a = Some r → 0 ≤ a ∧ 0 < range_len r ∧ bounded r ∧ a + range_len r ≤ top.

(** Ranges do not overlap. *)
Definition apart (m : gmap Z BlockRangeState) : Prop :=
  ∀ a ra b rb, m !! a = Some ra → m !! b = Some rb → a < b → a + range_len ra ≤ b.

Lemma in_key_order_elem {V} (m : gmap Z V) k v : (k, v) ∈ in_key_order m ↔ m !! k = Some v.
Proof. unfold in_key_order. rewrite sort_by_perm. apply elem_of_map_to_list. Qed.

Lemma in_key_order_sorted {V} (m : gmap Z V) : StronglySorted (λ a b, a.1 < b.1) (in_key_order m).
Proof.
  assert (StronglySorted (λ a b, (a.1 <=? b.1) = true) (in_key_order m)) as Hs.
  { apply sort_by_sorted.
    - intros a b Hab. apply Z.leb_gt in Hab. apply Z.leb_le. lia.
    - intros a b c. rewrite !Z.leb_le. lia. }
  assert (NoDup (in_key_order m).*1) as Hnd.
  { unfold in_key_order. rewrite sort_by_perm. apply NoDup_fst_map_to_list. }
  induction Hs as [|e l Hs IH He]; constructor.
  - apply IH. by apply NoDup_cons in Hnd as [_ ?].
  - apply NoDup_cons in Hnd as [Hni _]. rewrite Forall_forall in *. intros x Hx.
    specialize (He x Hx). apply Z.leb_le in He. destruct (decide (e.1 = x.1)) as [Heq|]; [|lia].
    destruct Hni. rewrite Heq. apply list_elem_of_fmap. eauto.
Qed.

Section scanning.
Context (m : gmap Z BlockRangeState) (top : Z) (Hm : in_bounds top m).
Context (first_different count max_parallel : Z).
Context (Hcount : 0 < count) (Htop : top + count < 2 ^ 32) (Hfirst : 0 ≤ first_different ≤ top).

(** A range to ask for: one being downloaded by too few peers, or a new one
    that is not longer than asked and that no range starts in. *)
Inductive asks : Z * Z * Z → Prop :=
| asks_again start len downloading :
    m !! start = Some (Downloading len downloading) → downloading < max_parallel →
    asks (start, start + len, downloading)
| asks_new start stop :
    m !! start = None → 0 ≤ start < stop → stop ≤ start + count →
    (∀ a r, m !! a = Some r → a < start ∨ stop ≤ a) →
    (apart m → ∀ a r, m !! a = Some r → a + range_len r ≤ start ∨ stop ≤ a) →
    asks (start, stop, 0).

(** After the last range before the gap. *)
Lemma asks_after a r (rest : list (Z * BlockRangeState)) stop :
  m !! a = Some r → (∀ k v, m !! k = Some v → k ≤ a ∨ (k, v) ∈ rest) →
  (∀ k v, (k, v) ∈ rest → stop ≤ k) → a + range_len r < stop ≤ a + range_len r + count →
  asks (a + range_len r, stop, 0).
Proof using Hm.
  intros Ha Hsplit Hrest Hstop. destruct (Hm a r Ha) as (H0&Hpos&_&_).
  assert (∀ k v, m !! k = Some v → k ≤ a ∨ stop ≤ k) as Hout.
  { intros k v Hk. destruct (Hsplit k v Hk) as [|Hin]; [by left|right; by eapply Hrest]. }
  constructor; [|lia|lia| |].
  - apply eq_None_not_Some. intros [v Hv]. destruct (Hout _ v Hv); lia.
  - intros k v Hk. destruct (Hout k v Hk); [left; lia|by right].
  - intros Hap k v Hk. destruct (Hout k v Hk) as [Hle|]; [left|by right].
    destruct (decide (k = a)) as [->|]; [simplify_eq; lia|].
    assert (k + range_len v ≤ a) by (apply (Hap k v a r); [done..|lia]). lia.
Qed.

Lemma find_range_some a r rest :
  m !! a = Some r → StronglySorted (λ x y, x.1 < y.1) ((a, r) :: rest) →
  (∀ k v, m !! k = Some v ↔ k < a ∧ m !! k = Some v ∨ (k, v) ∈ (a, r) :: rest) →
  asks (find_range first_different count max_parallel (Some (a, r)) rest).
Proof using Hm Hcount Htop.
  revert a r. induction rest as [|[b rb] rest IH]; intros a r Ha Hs Hall;
    destruct (Hm a r Ha) as (H0&Hpos&_&Hend).
  - assert (asks (a +[32] range_len r, a +[32] range_len r +[32] count, 0)) as Hlast.
    { nowrap. apply (asks_after a r []); [done| |by intros k v ?%not_elem_of_nil|lia].
      intros k v Hk. left. apply Hall in Hk as [[? _]|[[= -> ->]|?%not_elem_of_nil]%elem_of_cons]; [lia|lia|done]. }
    cbn [find_range head]. destruct r as [len d|bs]; [|done].
    destruct (Z.ltb_spec d max_parallel); [|done]. cbn [range_len] in *. nowrap. by constructor.
  - apply StronglySorted_inv in Hs as [Hs Hlt].
    assert (m !! b = Some rb) as Hb by (apply Hall; right; right; by left).
    assert (asks (find_range first_different count max_parallel (Some (b, rb)) rest)) as Hcont.
    { apply IH; [done..|]. intros k v. split.
      - intros Hk. pose proof Hk as [[? _]|[[= -> ->]|?]%elem_of_cons]%Hall; [..|by right];
          left; (split; [|done]); rewrite Forall_forall in Hlt;
          specialize (Hlt (b, rb) (list_elem_of_here _ _)); cbn in Hlt; lia.
      - intros [[_ ?]|Hin]; [done|]. apply Hall. right. by right. }
    assert (asks (if a +[32] range_len r <? b
                  then (a +[32] range_len r, Z.min b (a +[32] range_len r +[32] count), 0)
                  else find_range first_different count max_parallel (Some (b, rb)) rest)) as Hgap.
    { nowrap. destruct (Z.ltb_spec (a + range_len r) b); [|done].
      apply (asks_after a r ((b, rb) :: rest)); [done| | |lia].
      - intros k v [[? _]|[[= -> ->]|?]%elem_of_cons]%Hall; [left; lia|left; lia|by right].
      - intros k v [[= -> ->]|Hk]%elem_of_cons; [lia|].
        apply StronglySorted_inv in Hs as [_ Hs]. rewrite Forall_forall in Hs.
        specialize (Hs _ Hk). cbn in Hs. lia. }
    cbn [find_range head]. destruct r as [len d|bs]; [|done].
    destruct (Z.ltb_spec d max_parallel); [|done]. cbn [range_len] in *. nowrap. by constructor.
Qed.

Lemma find_range_ok : asks (find_range first_different count max_parallel None (in_key_order m)).
Proof using Hm Hcount Htop Hfirst.
  pose proof (in_key_order_sorted m) as Hs. pose proof (in_key_order_elem m) as He.
  destruct (in_key_order m) as [|[a r] rest].
  { cbn [find_range head]. nowrap. constructor; [|lia|lia| |];
      [apply eq_None_not_Some; intros [v Hv]|intros k v Hv|intros _ k v Hv];
      by apply He, not_elem_of_nil in Hv. }
  assert (m !! a = Some r) as Ha by (apply He; by left).
  assert (∀ k v, m !! k = Some v → a ≤ k) as Hmin.
  { intros k v [[= -> ->]|Hk]%He%elem_of_cons; [lia|]. apply StronglySorted_inv in Hs as [_ Hs].
    rewrite Forall_forall in Hs. specialize (Hs _ Hk). cbn in Hs. lia. }
  cbn [find_range head]. destruct (Z.ltb_spec first_different a) as [Hlt|].
  - nowrap. constructor; [|lia|lia| |].
    + apply eq_None_not_Some. intros [v Hv%Hmin]. lia.
    + intros k v Hk%Hmin. lia.
    + intros _ k v Hk%Hmin. lia.
  - apply find_range_some; [done..|]. intros k v. rewrite He. tauto.
Qed.
End scanning.

Lemma in_bounds_empty top : in_bounds top ∅.
Proof. intros a r. by rewrite lookup_empty. Qed.

Lemma apart_empty : apart ∅.
Proof. intros a ra b rb. by rewrite lookup_empty. Qed.

Lemma in_bounds_subset top m m' : in_bounds top m → m' ⊆ m → in_bounds top m'.
Proof. intros Hm Hsub a r Ha. apply Hm. by eapply lookup_weaken. Qed.

Lemma apart_subset m m' : apart m → m' ⊆ m → apart m'.
Proof. intros Hm Hsub a ra b rb Ha Hb. apply (Hm a ra b rb); by eapply lookup_weaken. Qed.

Lemma in_bounds_insert top m a r :
  in_bounds top m → 0 ≤ a → 0 < range_len r → bounded r → a + range_len r ≤ top →
  in_bounds top (<[a := r]> m).
Proof. intros Hm ? ? ? ? b rb [[<- <-]|[_ Hb]]%lookup_insert_Some; [done|by apply Hm]. Qed.

(** A range that fits between the others. *)
Lemma apart_insert top m a r :
  in_bounds top m → apart m → 0 < range_len r →
  (∀ b rb, m !! b = Some rb → b ≠ a → b + range_len rb ≤ a ∨ a + range_len r ≤ b) →
  apart (<[a := r]> m).
Proof.
  intros Hb Hm Hr Hfit b rb c rc [[<- <-]|[Hne Hb']]%lookup_insert_Some
    [[<- <-]|[Hne' Hc]]%lookup_insert_Some Hlt.
  - lia.
  - destruct (Hb c rc Hc) as (?&?&?&?). destruct (Hfit c rc Hc); [done|lia|lia].
  - destruct (Hb b rb Hb') as (?&?&?&?). destruct (Hfit b rb Hb'); [done|lia|lia].
  - by apply (Hm b rb c rc).
Qed.

Lemma apart_either m a ra b rb :
  apart m → m !! a = Some ra → m !! b = Some rb → b ≠ a →
  b + range_len rb ≤ a ∨ a + range_len ra ≤ b.
Proof.
  intros Hm Ha Hb Hne. destruct (decide (b < a)).
  - left. by apply (Hm b rb a ra).
  - right. apply (Hm a ra b rb); [done..|lia].
Qed.

(** What a new request looks like, relative to the ranges. *)
Record requested (m : gmap Z BlockRangeState) (count peer_best max_parallel start stop downloading : Z) : Prop := {
  req_range : 0 ≤ start < stop;
  req_best : stop ≤ peer_best + 1;
  req_which :
    (∃ len, m !! start = Some (Downloading len downloading) ∧ downloading < max_parallel ∧ stop ≤ start + len) ∨
    (m !! start = None ∧ downloading = 0 ∧ stop ≤ start + count ∧ ∀ a r, m !! a = Some r → a < start ∨ stop ≤ a);
  req_apart : apart m → ∀ a r, m !! a = Some r → a ≠ start → a + range_len r ≤ start ∨ stop ≤ a;
}.

Lemma asks_requested m top count peer_best max_parallel start stop downloading :
  in_bounds top m → asks m count max_parallel (start, stop, downloading) → start ≤ peer_best →
  requested m count peer_best max_parallel start (Z.min (peer_best + 1) stop) downloading.
Proof.
  intros Hm Ha Hbest. inversion Ha as [? len ? Hst Hpar|? ? Hnone Hlt Hlen Hout Hgap]; subst.
  - destruct (Hm _ _ Hst) as (?&Hpos&_&_). cbn in Hpos. split; [lia|lia|left; exists len; split_and!; [done|done|lia]|].
    intros Hap a r Har Hne. destruct (apart_either m start (Downloading len downloading) a r Hap); [done..|by left|].
    right. cbn in *. lia.
  - split; [lia|lia|right; split_and!; [done|done|lia|]|].
    + intros a r Har. destruct (Hout a r Har); [by left|right; lia].
    + intros Hap a r Har _. destruct (Hgap Hap a r Har); [by left|right; lia].
Qed.

Lemma requested_bounds top m count peer_best max_parallel start stop downloading d :
  in_bounds top m → peer_best < top → requested m count peer_best max_parallel start stop downloading →
  in_bounds top (<[start := Downloading (stop - start) d]> m).
Proof. intros Hm Hbest [? ? _ _]. apply in_bounds_insert; cbn; [done|lia|lia|done|lia]. Qed.

Lemma requested_apart top m count peer_best max_parallel start stop downloading d :
  in_bounds top m → apart m → requested m count peer_best max_parallel start stop downloading →
  apart (<[start := Downloading (stop - start) d]> m).
Proof.
  intros Hm Hap [? ? _ Hdis]. apply (apart_insert top); [done|done|cbn; lia|].
  intros b rb Hb Hne. cbn. destruct (Hdis Hap b rb Hb Hne); [by left|right; lia].
Qed.

Lemma needed_blocks_ok top s who count peer_best common max_parallel max_ahead :
  in_bounds top (blocks s) → 0 < count → top + count < 2 ^ 32 → 0 ≤ common → peer_best < top →
  fits 32 max_ahead →
  match needed_blocks s who count peer_best common max_parallel max_ahead with
  | (s', Ok None) => s' = s
  | (s', Ok (Some (start, stop))) => ∃ downloading,
      requested (blocks s) count peer_best max_parallel start stop downloading ∧
      common < peer_best ∧
      (∀ n r, head (in_key_order (blocks s)) = Some (n, r) → start ≤ n + max_ahead) ∧
      blocks s' = <[start := Downloading (stop - start) (downloading +[32] 1)]> (blocks s) ∧
      peer_requests s' = <[who := start]> (peer_requests s)
  | _ => False
  end.
Proof.
  intros Hm Hcount Htop Hcommon Hbest Hmax. unfold needed_blocks.
  destruct (Z.leb_spec peer_best common) as [|Hpc]; [done|].
  rewrite (wrap_small 32 (common + 1)), (wrap_small 32 count) by auto with words.
  pose proof (find_range_ok (blocks s) top Hm (common + 1) count max_parallel Hcount Htop ltac:(lia)) as Ha.
  destruct (find_range _ _ _ _ _) as [[start stop] downloading].
  destruct (Z.ltb_spec peer_best start) as [|Hstart]; [done|].
  destruct (match head _ with Some (n, _) => n +[32] max_ahead <? start | None => false end) eqn:Hahead; [done|].
  apply (asks_requested _ top _ peer_best) in Ha; [|done|done].
  rewrite (wrap_small 32 (peer_best + 1)) by auto with words.
  destruct (req_range _ _ _ _ _ _ _ Ha) as [Hs0 Hlt]. pose proof (req_best _ _ _ _ _ _ _ Ha) as Hb.
  rewrite (proj2 (Z.leb_gt _ _)) by lia. rewrite (wrap_small 32 (_ - start)) by auto with words.
  exists downloading. split_and!; [done|lia| |done|done].
  intros n r Hhd. rewrite Hhd in Hahead. apply Z.ltb_ge in Hahead.
  assert (0 ≤ n) as Hn.
  { assert ((n, r) ∈ in_key_order (blocks s)) as Hin.
    { destruct (in_key_order (blocks s)); simplify_eq/=. by left. }
    apply in_key_order_elem in Hin. by apply (Hm n r). }
  assert (n +[32] max_ahead ≤ n + max_ahead); [|lia].
  unfold wrap. apply Z.mod_le; [destruct Hmax|]; lia.
Qed.

(** ** Draining *)

(** The ranges as a list in order, without overlaps. *)
Definition row (l : list (Z * BlockRangeState)) : Prop :=
  StronglySorted (λ a b, a.1 + range_len a.2 ≤ b.1) l ∧
  Forall (λ e, 0 < range_len e.2 ∧ bounded e.2 ∧ fits 32 (e.1 + range_len e.2)) l.

Lemma row_in_order top m : top < 2 ^ 32 → in_bounds top m → apart m → row (in_key_order m).
Proof.
  intros Htop Hb Hm. pose proof (in_key_order_elem m) as He. pose proof (in_key_order_sorted m) as Hs. split.
  - assert (∀ a r, (a, r) ∈ in_key_order m → m !! a = Some r) as Hin by (by intros a r ?%He).
    clear He. induction Hs as [|[a ra] l Hs IH Hlt]; constructor.
    + apply IH. intros b rb ?. apply Hin. by right.
    + rewrite Forall_forall in *. intros [b rb] Hin2. specialize (Hlt _ Hin2).
      apply (Hm a ra b rb); [apply Hin; by left|apply Hin; by right|done].
  - apply Forall_forall. intros [a r] Ha%He. destruct (Hb a r Ha) as (?&?&?&?).
    split_and!; [done|done|]. cbn in *. auto with words.
Qed.

(** The block with the given number has arrived. *)
Definition block_at (l : list (Z * BlockRangeState)) (n : Z) (b : BlockData) : Prop :=
  ∃ a bs j, (a, Complete bs) ∈ l ∧ bs !! j = Some b ∧ n = a + Z.of_nat j.

Lemma block_at_cons e l n b : block_at l n b → block_at (e :: l) n b.
Proof. intros (a&bs&j&Hin&?). exists a, bs, j. split; [by right|done]. Qed.

Definition blocks_of (r : BlockRangeState) : list BlockData :=
  match r with Complete bs => bs | Downloading _ _ => [] end.

(** What the loop takes from ranges that do not begin before [prev]: a chain of
    blocks from [prev] on, until a number that has not arrived. *)
Lemma drain_chain prev l :
  row l → Forall (λ e, prev ≤ e.1) l →
  let '(drained, ranges) := drain_loop prev l in
  ∃ taken rest, l = taken ++ rest ∧ ranges = map fst taken ∧
    drained = flat_map (λ e, blocks_of e.2) taken ∧
    (∀ e, e ∈ taken → e.2 = Complete (blocks_of e.2)) ∧
    (∀ i b, drained !! i = Some b → block_at l (prev + Z.of_nat i) b) ∧
    (∀ b, ¬ block_at rest (prev + Z.of_nat (length drained)) b).
Proof.
  revert prev. induction l as [|[start r] l IH]; intros prev [Hs Hb] Hprev.
  { exists [], []. split_and!; try done; [by intros e ?%not_elem_of_nil|].
    by intros b (?&?&?&?%not_elem_of_nil&_). }
  apply StronglySorted_inv in Hs as [Hs Hlt]. apply Forall_cons in Hb as [(Hpos&Hbd&Hend) Hb].
  apply Forall_cons in Hprev as [Hp Hprev]. cbn in Hp, Hlt, Hpos, Hbd, Hend.
  assert (∀ a bs b, (a, Complete bs) ∈ l → b ∈ bs → start + range_len r ≤ a) as Hlater.
  { intros a bs b Hin _. rewrite Forall_forall in Hlt. by specialize (Hlt _ Hin). }
  assert (prev < start ∨ (∃ len d, r = Downloading len d) →
    ∃ taken rest, (start, r) :: l = taken ++ rest ∧ [] = map fst taken ∧
      [] = flat_map (λ e, blocks_of e.2) taken ∧
      (∀ e, e ∈ taken → e.2 = Complete (blocks_of e.2)) ∧
      (∀ i b, ([] : list BlockData) !! i = Some b → block_at ((start, r) :: l) (prev + Z.of_nat i) b) ∧
      (∀ b, ¬ block_at rest (prev + Z.of_nat (length ([] : list BlockData))) b)) as Hstop.
  { intros Hor. exists [], ((start, r) :: l). split_and!; try done; [by intros e ?%not_elem_of_nil|].
    intros b (a&bs&j&Hin&Hj&Hpr). cbn in Hpr. apply elem_of_cons in Hin as [[= -> <-]|Hin].
    - destruct Hor as [|(?&?&?)]; [lia|done].
    - specialize (Hlater a bs b Hin (list_elem_of_lookup_2 _ _ _ Hj)). lia. }
  cbn [drain_loop]. destruct r as [len d|bs]; [apply Hstop; eauto|].
  destruct (Z.leb_spec start prev) as [Hle|Hgt]; [|apply Hstop; by left].
  assert (start = prev) as -> by lia. cbn [range_len] in *.
  assert (count_u32 bs = Z.of_nat (length bs)) as Hlen by (unfold count_u32; auto with words).
  rewrite (wrap_small 32 (prev + count_u32 bs)) by done.
  specialize (IH (prev + count_u32 bs) (conj Hs Hb) Hlt).
  destruct (drain_loop (prev + count_u32 bs) l) as [drained ranges].
  destruct IH as (taken&rest&->&->&->&Htaken&Hnum&Hno). rewrite Hlen in Hnum, Hno.
  exists ((prev, Complete bs) :: taken), rest. split_and!; try done.
  - intros e [->|He]%elem_of_cons; [done|auto].
  - intros i b [Hi|[Hi Hb']]%lookup_app_Some.
    + exists prev, bs, i. split_and!; [by left|done|done].
    + apply block_at_cons. specialize (Hnum _ _ Hb').
      by replace (prev + Z.of_nat i) with (prev + Z.of_nat (length bs) + Z.of_nat (i - length bs)) by lia.
  - intros b Hb'. apply (Hno b). rewrite length_app, Nat2Z.inj_add, Z.add_assoc in Hb'. done.
Qed.

(** [drain] as taking a prefix of the ranges. *)
Lemma drain_ok top s from :
  top < 2 ^ 32 → in_bounds top (blocks s) → apart (blocks s) →
  let '(s', drained) := drain s from in
  peer_requests s' = peer_requests s ∧ blocks s' ⊆ blocks s ∧
  (∀ a r, blocks s !! a = Some r → blocks s' !! a = None →
    ∃ bs, r = Complete bs ∧ ∀ b, b ∈ bs → b ∈ drained) ∧
  (drained = [] ∧ blocks s' = blocks s ∨
   ∃ first, first ≤ from ∧
     (∀ i b, drained !! i = Some b → block_at (in_key_order (blocks s)) (first + Z.of_nat i) b) ∧
     ∀ b, ¬ block_at (in_key_order (blocks s')) (first + Z.of_nat (length drained)) b).
Proof.
  intros Htop Hbd Hap. pose proof (row_in_order top _ Htop Hbd Hap) as Hl. pose proof (in_key_order_elem (blocks s)) as He.
  unfold drain. set (l := in_key_order (blocks s)) in *.
  assert (drain_loop from l = ([], []) ∨ ∃ first, first ≤ from ∧ drain_loop from l = drain_loop first l ∧
    Forall (λ e, first ≤ e.1) l) as [->|(first&Hfirst&->&Hge)].
  { destruct l as [|[start [len d|bs]] l']; [by left..|].
    destruct (decide (start ≤ from)) as [Hle|Hgt].
    - right. exists start. split_and!; [done| |].
      + cbn [drain_loop]. by rewrite (proj2 (Z.leb_le _ _) Hle), Z.leb_refl.
      + constructor; [cbn; lia|]. destruct Hl as [Hs Hb'].
        apply StronglySorted_inv in Hs as [_ Hs]. apply Forall_cons in Hb' as [[Hpos _] _].
        eapply Forall_impl; [exact Hs|]. cbn in *. intros; lia.
    - left. cbn [drain_loop]. by rewrite (proj2 (Z.leb_gt _ _)) by lia. }
  { cbn. split_and!; [done|done|congruence|by left]. }
  pose proof (drain_chain first l Hl Hge) as Hd. destruct (drain_loop first l) as [drained ranges].
  destruct Hd as (taken&rest&Hl'&->&->&Htaken&Hnum&Hno). cbn [peer_requests blocks].
  assert (∀ a, a ∈ map fst taken → ∃ r, (a, r) ∈ taken) as Hkey.
  { intros a ([a' r]&->&Hin)%list_elem_of_fmap. eauto. }
  split_and!; [done| | |right; exists first; split_and!; [done|done|]].
  - apply map_subseteq_spec. intros a r. rewrite foldl_delete_lookup. by case_decide.
  - intros a r Ha. rewrite foldl_delete_lookup. case_decide as Hin; [intros _|congruence].
    destruct (Hkey a Hin) as [r' Hr'].
    assert (blocks s !! a = Some r') as Ha' by (apply He; rewrite Hl'; apply elem_of_app; by left).
    simplify_eq. specialize (Htaken _ Hr'). cbn in Htaken. eexists. split; [exact Htaken|].
    intros b Hb. apply list_elem_of_In, in_flat_map. exists (a, r). split; by apply list_elem_of_In.
  - intros b (a&bs&j&Hin&Hj&Hn). apply (Hno b). exists a, bs, j. split_and!; [|done|done].
    apply in_key_order_elem in Hin. rewrite foldl_delete_lookup in Hin. case_decide as Hni; [done|].
    apply He in Hin. rewrite Hl' in Hin. apply elem_of_app in Hin as [Hin|]; [|done].
    destruct Hni. apply list_elem_of_fmap. by exists (a, Complete bs).
Qed.

(** ** Histories *)

(** [drain] only drops ranges. *)
Lemma drain_subset s from : blocks (drain s from).1 ⊆ blocks s.
Proof.
  unfold drain. destruct (drain_loop _ _) as [drained ranges]. cbn.
  apply map_subseteq_spec. intros a r. rewrite foldl_delete_lookup. by case_decide.
Qed.

(** What arrives for a range does not reach into the next one. *)
Definition fits_gap (s : BlockCollection) (start : Z) (bs : list B) : Prop :=
  ∀ a r, blocks s !! a = Some r → a ≠ start →
    a + range_len r ≤ start ∨ start + Z.of_nat (length bs) ≤ a.

Lemma insert_blocks top s start bs who :
  0 ≤ start → start + Z.of_nat (length bs) ≤ top → top < 2 ^ 32 →
  blocks (insert s start bs who) = blocks s ∨
  ∃ r, blocks (insert s start bs who) = <[start := r]> (blocks s) ∧
    range_len r = Z.of_nat (length bs) ∧ 0 < range_len r ∧ bounded r.
Proof.
  intros Hstart Hend Htop. unfold insert. destruct bs as [|b bs]; [by left|].
  set (r := Complete (map (λ b, MkBlockData b (Some who)) (b :: bs))).
  assert (range_len r = Z.of_nat (length (b :: bs))) as Hr.
  { subst r. cbn [range_len]. unfold count_u32. rewrite length_map. auto with words. }
  assert (0 < range_len r ∧ bounded r) as [Hpos Hbd].
  { rewrite Hr. split; [simpl; lia|]. subst r. cbn [bounded]. rewrite length_map. auto with words. }
  destruct (blocks s !! start) as [[?|existing]|]; [..|case_decide; [by left|]|]; right; by exists r.
Qed.

Lemma clear_peer_download_bounds top s who :
  in_bounds top (blocks s) → in_bounds top (blocks (clear_peer_download s who)).
Proof.
  intros Hm. unfold clear_peer_download. destruct (peer_requests s !! who) as [start|]; [|done]. cbn.
  destruct (blocks s !! start) as [[len d|bs]|] eqn:Hst; [|done..].
  destruct (Hm _ _ Hst) as (?&?&?&?).
  destruct (1 <? d); [by apply in_bounds_insert|eapply in_bounds_subset; [done|apply delete_subseteq]].
Qed.

Lemma clear_peer_download_apart top s who :
  in_bounds top (blocks s) → apart (blocks s) → apart (blocks (clear_peer_download s who)).
Proof.
  intros Hm Hap. unfold clear_peer_download. destruct (peer_requests s !! who) as [start|]; [|done]. cbn.
  destruct (blocks s !! start) as [[len d|bs]|] eqn:Hst; [|done..].
  destruct (1 <? d); [|eapply apart_subset; [done|apply delete_subseteq]].
  apply (apart_insert top); [done|done|by apply (Hm _ _ Hst)|].
  intros b rb Hb Hne. by apply (apart_either (blocks s) start (Downloading len d) b rb).
Qed.

(** The histories of the collection in which all block numbers stay below
    [top], which leaves room for one more request.  [admits] says which
    responses are inserted: a peer may send more blocks than it was asked for. *)
Inductive reach (admits : BlockCollection → Z → list B → Prop) (top : Z) : BlockCollection → Prop :=
| reach_new : reach admits top collection_new
| reach_clear s : reach admits top s → reach admits top (clear s)
| reach_insert s start bs who :
    reach admits top s → 0 ≤ start → start + Z.of_nat (length bs) ≤ top → top < 2 ^ 32 →
    admits s start bs → reach admits top (insert s start bs who)
| reach_needed s who count peer_best common max_parallel max_ahead :
    reach admits top s → 0 < count → top + count < 2 ^ 32 → 0 ≤ common → peer_best < top →
    fits 32 max_ahead →
    reach admits top (needed_blocks s who count peer_best common max_parallel max_ahead).1
| reach_drain s from : reach admits top s → reach admits top (drain s from).1
| reach_clear_peer s who : reach admits top s → reach admits top (clear_peer_download s who).

(** ** Correctness *)

(** Along every history in which all block numbers stay below [top], the ranges
    of the collection are not empty and end at [top] at most, whatever arrives.
    They do not overlap when what arrives for a range does not reach into the
    next one. *)
Theorem ranges_invariant admits top s :
  reach admits top s →
  in_bounds top (blocks s) ∧
  ((∀ s start bs, admits s start bs → fits_gap s start bs) → apart (blocks s)).
Proof.
  induction 1 as [|s _ _|s start bs who _ [IHb IHa] H0 Hend Htop Hadm
    |s who count best common par ahead _ [IHb IHa] Hc Htop Hcom Hbest Hmax
    |s from _ [IHb IHa]|s who _ [IHb IHa]].
  - split; [apply in_bounds_empty|intros _; apply apart_empty].
  - split; [apply in_bounds_empty|intros _; apply apart_empty].
  - destruct (insert_blocks top s start bs who H0 Hend Htop) as [->|(r&->&Hlen&Hpos&Hbd)]; [done|].
    split; [apply in_bounds_insert; [done..|lia]|]. intros Hfit.
    apply (apart_insert top); [done|by apply IHa|done|]. rewrite Hlen. by apply (Hfit _ _ _ Hadm).
  - pose proof (needed_blocks_ok top s who count best common par ahead IHb Hc Htop Hcom Hbest Hmax) as Hn.
    destruct (needed_blocks _ _ _ _ _ _ _) as [s' [[[start stop]|]| |]]; [|by rewrite Hn|done|done].
    destruct Hn as (d&Hreq&_&_&Hb&_). cbn [fst]. rewrite Hb. split.
    + by eapply requested_bounds.
    + intros Hfit. eapply requested_apart; [done|by apply IHa|done].
  - pose proof (drain_subset s from). split; [by eapply in_bounds_subset|].
    intros Hfit. eapply apart_subset; [by apply IHa|done].
  - split; [by apply clear_peer_download_bounds|].
    intros Hfit. apply (clear_peer_download_apart top); [done|by apply IHa].
Qed.

(** C40. Take a collection whose ranges are not empty and end at [top] at most,
    and a request from a peer whose best block is below [top], where
    [top + count] fits the [u32] of a block number.  [needed_blocks] then does
    not panic.  A refusal changes nothing.  Otherwise the range is not empty,
    ends at the peer's best block at the latest, is either (a part of) a range
    that too few peers were asked for or a new one of at most [count] blocks in
    which no other range starts, does not start too far ahead of the first
    range, and is recorded with one more peer; the ranges are still not empty
    and end at [top] at most.  If moreover the ranges of the collection do not
    overlap, the range overlaps no other one and the ranges still do not
    overlap.  The code does not check this itself: it stores whatever a peer
    sends for a range ([ranges_invariant] has both cases).  Without the room
    above [top] the panic is reached ([best_block_panics]). *)
Theorem needed_blocks_correct top s who count peer_best common max_parallel max_ahead :
  in_bounds top (blocks s) → 0 < count → top + count < 2 ^ 32 → 0 ≤ common → peer_best < top →
  fits 32 max_ahead →
  match needed_blocks s who count peer_best common max_parallel max_ahead with
  | (s', Ok None) => s' = s
  | (s', Ok (Some (start, stop))) =>
      (∃ downloading,
        requested (blocks s) count peer_best max_parallel start stop downloading ∧
        common < peer_best ∧
        (∀ n r, head (in_key_order (blocks s)) = Some (n, r) → start ≤ n + max_ahead) ∧
        blocks s' = <[start := Downloading (stop - start) (downloading +[32] 1)]> (blocks s) ∧
        peer_requests s' = <[who := start]> (peer_requests s)) ∧
      in_bounds top (blocks s') ∧ (apart (blocks s) → apart (blocks s'))
  | _ => False
  end.
Proof.
  intros Hm Hc Htop Hcom Hbest Hmax.
  pose proof (needed_blocks_ok top s who count peer_best common max_parallel max_ahead) as Hn.
  specialize (Hn Hm Hc Htop Hcom Hbest Hmax).
  destruct (needed_blocks _ _ _ _ _ _ _) as [s' [[[start stop]|]| |]]; [|done..].
  split; [done|]. destruct Hn as (d&Hreq&_&_&Hb&_). rewrite Hb. split.
  - by eapply requested_bounds.
  - intros Hap. by eapply requested_apart.
Qed.

(** [drain] takes whole ranges that have arrived, leaving the others as they
    are, and what it returns is a chain: blocks with consecutive numbers, the
    first not above [from], up to the first number that has not arrived. *)
Theorem drain_correct top s from :
  top < 2 ^ 32 → in_bounds top (blocks s) → apart (blocks s) →
  let '(s', drained) := drain s from in
  peer_requests s' = peer_requests s ∧ blocks s' ⊆ blocks s ∧
  (∀ a r, blocks s !! a = Some r → blocks s' !! a = None →
    ∃ bs, r = Complete bs ∧ ∀ b, b ∈ bs → b ∈ drained) ∧
  (drained = [] ∧ blocks s' = blocks s ∨
   ∃ first, first ≤ from ∧
     (∀ i b, drained !! i = Some b → block_at (in_key_order (blocks s)) (first + Z.of_nat i) b) ∧
     ∀ b, ¬ block_at (in_key_order (blocks s')) (first + Z.of_nat (length drained)) b).
Proof. apply drain_ok. Qed.
End blocks.

Arguments BlockCollection B P {_ _}.

(** ** A small download: two peers are asked for ten blocks each. *)
Module SmallDownload.
Definition empty : BlockCollection nat nat := collection_new.
Definition asked1 : BlockCollection nat nat := (needed_blocks empty 1%nat 10 30 0 1 100).1.
Definition asked2 : BlockCollection nat nat := (needed_blocks asked1 2%nat 10 30 0 1 100).1.
Definition arrived : BlockCollection nat nat := insert asked2 1 (seq 1 10) 1%nat.

(** A node at genesis connects to a peer that claims the best block [u32::MAX]:
    the range is cropped to [1 .. 0] and the collection panics. *)
Example best_block_panics : (needed_blocks empty 1%nat 128 (2 ^ 32 - 1) 0 5 2048).2 = Panic.
Proof. vm_compute. reflexivity. Qed.

(** A peer is asked for blocks 1 to 10 and sends fifteen: the ranges overlap,
    and blocks 11 to 15 are there while they are asked for. *)
Example long_response_overlaps :
  blocks (insert asked2 1 (seq 1 15) 1%nat) !! 11 = Some (Downloading 10 1) ∧
  option_map range_len (blocks (insert asked2 1 (seq 1 15) 1%nat) !! 1) = Some 15.
Proof. split; vm_compute; reflexivity. Qed.

Lemma asked2_reached : reach fits_gap 100 asked2.
Proof. repeat (apply reach_needed; [|done..]). apply reach_new. Qed.

Lemma arrived_fits : fits_gap asked2 1 (seq 1 10).
Proof.
  intros a r Ha Hne.
  assert (blocks asked2 = {[ 1 := Downloading 10 1; 11 := Downloading 10 1 ]}) as Hb by reflexivity.
  rewrite Hb in Ha. apply lookup_insert_Some in Ha as [[<- _]|[_ Ha]]; [done|].
  apply lookup_singleton_Some in Ha as [<- _]. right. done.
Qed.

Lemma ranges_invariant_witness :
  in_bounds 100 (blocks (drain arrived 1).1) ∧
  ((∀ (s : BlockCollection nat nat) start bs, fits_gap s start bs → fits_gap s start bs) → apart (blocks (drain arrived 1).1)).
Proof.
  apply ranges_invariant. apply reach_drain, reach_insert; [apply asked2_reached|done..|apply arrived_fits].
Defined.

Lemma asked1_bounds : in_bounds 100 (blocks asked1).
Proof.
  assert (blocks asked1 = {[ 1 := Downloading 10 1 ]}) as Hb by reflexivity. rewrite Hb.
  intros a r [<- <-]%lookup_singleton_Some. done.
Qed.

Lemma needed_blocks_correct_witness :
  (∃ downloading, requested (blocks asked1) 10 30 1 11 21 downloading ∧ 0 < 30 ∧
    (∀ n r, head (in_key_order (blocks asked1)) = Some (n, r) → 11 ≤ n + 100) ∧
    blocks asked2 = <[11 := Downloading 10 (downloading +[32] 1)]> (blocks asked1) ∧
    peer_requests asked2 = <[2%nat := 11]> (peer_requests asked1)) ∧
  in_bounds 100 (blocks asked2) ∧ (apart (blocks asked1) → apart (blocks asked2)).
Proof. apply (needed_blocks_correct 100 asked1 2%nat 10 30 0 1 100); [apply asked1_bounds|done..]. Defined.

Lemma arrived_ok : in_bounds 100 (blocks arrived) ∧ apart (blocks arrived).
Proof.
  assert (blocks arrived = {[ 1 := Complete (map (λ b, MkBlockData b (Some 1%nat)) (seq 1 10));
    11 := Downloading 10 1 ]}) as -> by reflexivity.
  split.
  - intros a r [[<- <-]|[_ [<- <-]%lookup_singleton_Some]]%lookup_insert_Some; done.
  - intros a ra b rb [[<- <-]|[_ [<- <-]%lookup_singleton_Some]]%lookup_insert_Some
      [[<- <-]|[_ [<- <-]%lookup_singleton_Some]]%lookup_insert_Some; done.
Qed.

Lemma drain_correct_witness :
  let '(s', drained) := drain arrived 1 in
  length drained = 10%nat ∧
  peer_requests s' = peer_requests arrived ∧ blocks s' ⊆ blocks arrived ∧
  (∀ a r, blocks arrived !! a = Some r → blocks s' !! a = None →
    ∃ bs, r = Complete bs ∧ ∀ b, b ∈ bs → b ∈ drained) ∧
  (drained = [] ∧ blocks s' = blocks arrived ∨
   ∃ first, first ≤ 1 ∧
     (∀ i b, drained !! i = Some b → block_at (in_key_order (blocks arrived)) (first + Z.of_nat i) b) ∧
     ∀ b, ¬ block_at (in_key_order (blocks s')) (first + Z.of_nat (length drained)) b).
Proof. split; [vm_compute; reflexivity|]. apply (drain_correct 100 arrived 1); [done|apply arrived_ok..]. Defined.
End SmallDownload.
