(* ===== verification/Allocator.v ===== *)
(** * Freeing-bump heap allocator (src/primitives/allocator/src/freeing_bump.rs)

    The allocator of the Wasm linear memory: a bump pointer, and one intrusive
    list of free blocks per power-of-two size, threaded through eight-byte block
    headers that are stored in the memory itself. *)
From S2P Require Import Prelude.
From stdpp Require Import strings.

Local Open Scope Z_scope.

(** ** Data *)

Inductive Error : Type :=
| RequestedAllocationTooLarge
| AllocatorOutOfSpace
| Other (msg : string).

Definition ALIGNMENT : Z := 8.
Definition N : Z := 22.
Definition MAX_POSSIBLE_ALLOCATION : Z := 16777216.
Definition MIN_POSSIBLE_ALLOCATION : Z := 8.
Definition HEADER_SIZE : Z := 8.
Definition EMPTY_MARKER : Z := 2 ^ 32 - 1.

(** An order is the [u32] that [Order] wraps. *)
Abbreviation Order := Z (only parsing).

Inductive Link : Type :=
| Null
| Ptr (p : Z).

Inductive Header : Type :=
| Free (l : Link)
| Occupied (o : Order).

Record FreeingBumpHeapAllocator : Type := MkAllocator {
  bumper : Z;
  free_lists : list Link;
  total_size : Z;
}.

#[export] Instance Link_eq_dec : EqDecision Link.
Proof. solve_decision. Defined.

(** ** Linear memory *)

(** The trait [Memory]. *)
Class Memory (M : Type) : Type := {
  read_le_u64 : M → Z → result Error Z;
  write_le_u64 : M → Z → Z → result Error M;
  mem_size : M → result Error Z;
}.

(** What the allocator relies on: a memory of [mem_len] bytes, where eight bytes
    in bounds can be read and written, a write is read back, and it leaves the
    disjoint bytes alone. *)
Class MemoryLaws (M : Type) `{!Memory M} : Type := {
  mem_len : M → Z;
  mem_size_ok : ∀ m, mem_len m < 2 ^ 32 → mem_size m = Ok (mem_len m);
  write_in_bounds : ∀ m p v, 0 ≤ p → p + 8 ≤ mem_len m → mem_len m < 2 ^ 32 → fits 64 v →
    ∃ m', write_le_u64 m p v = Ok m' ∧ mem_len m' = mem_len m ∧
      read_le_u64 m' p = Ok v ∧
      ∀ q, 0 ≤ q → (q + 8 ≤ p ∨ p + 8 ≤ q) → read_le_u64 m' q = read_le_u64 m q;
}.

(** ** Orders *)

Definition order_from_raw (order : Z) : result Error Order :=
  if order <? N then Ok order else Err (Other "invalid order").

(** [u32::next_power_of_two] *)
Definition next_power_of_two (n : Z) : Z := 2 ^ Z.log2_up n.

(** [u32::trailing_zeros] *)
Fixpoint pos_trailing_zeros (p : positive) : Z :=
  match p with
  | xO p' => 1 + pos_trailing_zeros p'
  | _ => 0
  end.
Definition trailing_zeros (n : Z) : Z :=
  match n with
  | Zpos p => pos_trailing_zeros p
  | _ => 32
  end.

Definition order_from_size (size : Z) : result Error Order :=
  if MAX_POSSIBLE_ALLOCATION <? size then Err RequestedAllocationTooLarge
  else
    let clamped_size := if size <? MIN_POSSIBLE_ALLOCATION then MIN_POSSIBLE_ALLOCATION else size in
    let power_of_two_size := next_power_of_two clamped_size in
    Ok (trailing_zeros power_of_two_size - trailing_zeros MIN_POSSIBLE_ALLOCATION).

Definition order_size (o : Order) : Z := wrap 32 (Z.shiftl MIN_POSSIBLE_ALLOCATION o).

(** ** Headers *)

Definition link_from_raw (raw : Z) : Link :=
  if bool_decide (raw ≠ EMPTY_MARKER) then Ptr raw else Null.

Definition link_into_raw (l : Link) : Z :=
  match l with
  | Null => EMPTY_MARKER
  | Ptr p => p
  end.

Definition header_decode (raw_header : Z) : result Error Header :=
  let occupied := negb (Z.land raw_header (2 ^ 32) =? 0) in
  let header_data := wrap 32 raw_header in
  if occupied then o ← order_from_raw header_data; Ok (Occupied o)
  else Ok (Free (link_from_raw header_data)).

Definition header_encode (h : Header) : Z :=
  match h with
  | Occupied order => Z.lor order (2 ^ 32)
  | Free link => Z.lor (link_into_raw link) 0
  end.

Definition into_occupied (h : Header) : option Order :=
  match h with
  | Occupied order => Some order
  | Free _ => None
  end.

Definition into_free (h : Header) : option Link :=
  match h with
  | Free link => Some link
  | Occupied _ => None
  end.

Section allocator.
Context {M : Type} `{!Memory M}.

Definition read_from (m : M) (header_ptr : Z) : result Error Header :=
  raw_header ← read_le_u64 m header_ptr; header_decode raw_header.

Definition write_into (h : Header) (m : M) (header_ptr : Z) : result Error M :=
  write_le_u64 m header_ptr (header_encode h).

(** ** The allocator *)

Definition free_lists_new : list Link := replicate (Z.to_nat N) Null.

Definition new (heap_base : Z) : FreeingBumpHeapAllocator :=
  let aligned_heap_base := wrap 32 (wrap 32 (heap_base + ALIGNMENT - 1) / ALIGNMENT * ALIGNMENT) in
  MkAllocator aligned_heap_base free_lists_new 0.

Definition bump (a : FreeingBumpHeapAllocator) (size heap_end : Z) :
    FreeingBumpHeapAllocator * result Error Z :=
  if heap_end <? bumper a +[32] size then (a, Err AllocatorOutOfSpace)
  else (MkAllocator (bumper a +[32] size) (free_lists a) (total_size a), Ok (bumper a)).

Definition set_free_list (a : FreeingBumpHeapAllocator) (o : Order) (l : Link) :
    FreeingBumpHeapAllocator :=
  MkAllocator (bumper a) (<[Z.to_nat o := l]> (free_lists a)) (total_size a).

(** The block taken from the head of a free list. *)
Definition pop_free (a : FreeingBumpHeapAllocator) (m : M) (o : Order) (header_ptr : Z) :
    FreeingBumpHeapAllocator * result Error Z :=
  match mem_size m with
  | Ok size =>
      if header_ptr +[32] order_size o +[32] HEADER_SIZE <=? size then
        match (h ← read_from m header_ptr;
               ok_or (Other "free list points to a occupied header") (into_free h)) with
        | Ok next_free => (set_free_list a o next_free, Ok header_ptr)
        | Err e => (a, Err e)
        | Panic => (a, Panic)
        end
      else (a, Panic)
  | Err e => (a, Err e)
  | Panic => (a, Panic)
  end.

(** The block where the allocation goes. *)
Definition take_block (a : FreeingBumpHeapAllocator) (m : M) (o : Order) :
    FreeingBumpHeapAllocator * result Error Z :=
  match free_lists a !! Z.to_nat o with
  | None => (a, Panic)
  | Some (Ptr header_ptr) => pop_free a m o header_ptr
  | Some Null =>
      match mem_size m with
      | Ok size => bump a (order_size o +[32] HEADER_SIZE) size
      | Err e => (a, Err e)
      | Panic => (a, Panic)
      end
  end.

Definition allocate (a : FreeingBumpHeapAllocator) (m : M) (size : Z) :
    FreeingBumpHeapAllocator * M * result Error Z :=
  match order_from_size size with
  | Err e => (a, m, Err e)
  | Panic => (a, m, Panic)
  | Ok order =>
      match take_block a m order with
      | (a, Ok header_ptr) =>
          match write_into (Occupied order) m header_ptr with
          | Ok m' =>
              (MkAllocator (bumper a) (free_lists a)
                 (total_size a +[32] (order_size order +[32] HEADER_SIZE)),
               m', Ok (header_ptr +[32] HEADER_SIZE))
          | Err e => (a, m, Err e)
          | Panic => (a, m, Panic)
          end
      | (a, Err e) => (a, m, Err e)
      | (a, Panic) => (a, m, Panic)
      end
  end.

Definition deallocate (a : FreeingBumpHeapAllocator) (m : M) (ptr : Z) :
    FreeingBumpHeapAllocator * M * result Error unit :=
  match (header_ptr ← ok_or (Other "Invalid pointer for deallocation") (checked_sub ptr HEADER_SIZE);
         h ← read_from m header_ptr;
         order ← ok_or (Other "the allocation points to an empty header") (into_occupied h);
         prev_head ← expect (free_lists a !! Z.to_nat order);
         Ok (header_ptr, order, prev_head)) with
  | Err e => (a, m, Err e)
  | Panic => (a, m, Panic)
  | Ok (header_ptr, order, prev_head) =>
      let a1 := set_free_list a order (Ptr header_ptr) in
      match write_into (Free prev_head) m header_ptr with
      | Err e => (a1, m, Err e)
      | Panic => (a1, m, Panic)
      | Ok m' =>
          match checked_sub (total_size a1) (order_size order +[32] HEADER_SIZE) with
          | None => (a1, m', Err (Other "Unable to subtract from total heap size without overflow"))
          | Some total => (MkAllocator (bumper a1) (free_lists a1) total, m', Ok tt)
          end
      end
  end.

(** ** Invariant of the heap *)

Section invariant.
Context `{!MemoryLaws M}.

(** The largest memory for which no bump can wrap around. *)
Definition LIMIT : Z := 2 ^ 32 - MAX_POSSIBLE_ALLOCATION - HEADER_SIZE.

(** A block: the address of its header, and its order. *)
Abbreviation block := (Z * Order)%type.

Definition block_size (b : block) : Z := order_size b.2 + HEADER_SIZE.
Definition total (bs : list block) : Z := foldr (λ b n, block_size b + n) 0 bs.

Definition disjoint (b b' : block) : Prop :=
  b.1 + block_size b ≤ b'.1 ∨ b'.1 + block_size b' ≤ b.1.

(** Blocks of the free lists, one list of headers per order. *)
Definition free_blocks (free : list (list Z)) : list block :=
  concat (imap (λ o l, (λ p, (p, Z.of_nat o)) <$> l) free).

(** The headers met from a link are the listed ones. *)
Fixpoint chain (m : M) (l : Link) (ps : list Z) : Prop :=
  match ps with
  | [] => l = Null
  | p :: ps' => l = Ptr p ∧ ∃ next, read_from m p = Ok (Free next) ∧ chain m next ps'
  end.

Definition in_heap (base top : Z) (b : block) : Prop :=
  base ≤ b.1 ∧ b.1 + block_size b ≤ top ∧ b.1 mod 8 = 0 ∧ 0 ≤ b.2 < N.

(** The blocks tile the heap from [base] to [top]: they are inside, pairwise
    disjoint, and together as large as the heap. *)
Definition layout (base top : Z) (bs : list block) : Prop :=
  Forall (in_heap base top) bs ∧ ForallOrdPairs disjoint bs ∧ total bs = top - base.

Record heap_ok (base : Z) (a : FreeingBumpHeapAllocator) (m : M)
    (live : list block) (free : list (list Z)) : Prop := {
  ok_base : 0 ≤ base < LIMIT ∧ base mod 8 = 0;
  ok_limit : mem_len m < LIMIT;
  ok_top : bumper a = base ∨ bumper a ≤ mem_len m;
  ok_layout : layout base (bumper a) (live ++ free_blocks free);
  ok_total : total_size a = total live;
  ok_live : Forall (λ b, read_from m b.1 = Ok (Occupied b.2)) live;
  ok_free : Forall2 (chain m) (free_lists a) free;
  ok_orders : length free = Z.to_nat N;
}.

(** *** Orders *)

Lemma order_size_pow o : 0 ≤ o < N → order_size o = 2 ^ (o + 3).
Proof.
  intros Ho. unfold order_size, MIN_POSSIBLE_ALLOCATION. rewrite Z.shiftl_mul_pow2 by lia.
  rewrite Z.pow_add_r by lia. rewrite wrap_small; [change (2 ^ 3) with 8; ring|].
  unfold N, fits in *. split; [lia|].
  apply Z.lt_le_trans with (8 * 2 ^ 22); [|done].
  apply Z.mul_lt_mono_pos_l; [lia|]. apply Z.pow_lt_mono_r; lia.
Qed.

Lemma order_size_bounds o : 0 ≤ o < N → 8 ≤ order_size o ≤ MAX_POSSIBLE_ALLOCATION.
Proof.
  intros Ho. rewrite order_size_pow by done. unfold N, MAX_POSSIBLE_ALLOCATION in *.
  change 8 with (2 ^ 3). change 16777216 with (2 ^ 24). split; apply Z.pow_le_mono_r; lia.
Qed.

Lemma order_size_mod o : 0 ≤ o < N → order_size o mod 8 = 0.
Proof.
  intros Ho. rewrite order_size_pow, Z.pow_add_r by lia. apply Z.mod_mul. lia.
Qed.

Lemma trailing_zeros_pow k : 0 ≤ k → trailing_zeros (2 ^ k) = k.
Proof.
  intros Hk. rewrite <- (Z2Nat.id k) by done. generalize (Z.to_nat k) as n. clear.
  induction n as [|n IH]; [done|]. rewrite Nat2Z.inj_succ, Z.pow_succ_r by lia.
  pose proof (Z.pow_pos_nonneg 2 (Z.of_nat n) ltac:(lia) ltac:(lia)) as Hpos.
  destruct (2 ^ Z.of_nat n) as [|p|p] eqn:Hp; [lia| |lia].
  change (1 + pos_trailing_zeros p = Z.succ (Z.of_nat n)).
  change (pos_trailing_zeros p = Z.of_nat n) in IH. lia.
Qed.

Lemma order_from_size_ok size :
  0 ≤ size →
  match order_from_size size with
  | Ok o => 0 ≤ o < N ∧ size ≤ order_size o ∧ ∀ o', 0 ≤ o' < o → order_size o' < size
  | Err e => e = RequestedAllocationTooLarge ∧ MAX_POSSIBLE_ALLOCATION < size
  | Panic => False
  end.
Proof.
  intros H0. unfold order_from_size.
  destruct (Z.ltb_spec MAX_POSSIBLE_ALLOCATION size) as [|Hmax]; [done|].
  set (c := if size <? _ then _ else _).
  assert (8 ≤ c ≤ MAX_POSSIBLE_ALLOCATION ∧ size ≤ c ∧ (c = 8 ∨ c = size)) as (Hc&Hsc&Hcs).
  { unfold c, MIN_POSSIBLE_ALLOCATION, MAX_POSSIBLE_ALLOCATION in *.
    destruct (Z.ltb_spec size 8); lia. }
  clearbody c.
  unfold next_power_of_two. change (trailing_zeros MIN_POSSIBLE_ALLOCATION) with 3.
  rewrite trailing_zeros_pow by apply Z.log2_up_nonneg.
  assert (3 ≤ Z.log2_up c) as Hlo by (change 3 with (Z.log2_up 8); apply Z.log2_up_le_mono; lia).
  assert (Z.log2_up c ≤ 24) as Hhi.
  { change 24 with (Z.log2_up MAX_POSSIBLE_ALLOCATION). apply Z.log2_up_le_mono. lia. }
  destruct (Z.log2_up_spec c) as [Hl Hu]; [lia|].
  assert (0 ≤ Z.log2_up c - 3 < N) as Ho by (unfold N; lia). split_and!; [lia..| |].
  - rewrite order_size_pow by done. replace (Z.log2_up c - 3 + 3) with (Z.log2_up c) by lia. lia.
  - intros o' Ho'. rewrite order_size_pow by lia.
    assert (2 ^ (o' + 3) ≤ 2 ^ Z.pred (Z.log2_up c)) by (apply Z.pow_le_mono_r; lia).
    destruct Hcs as [Hc8|Hc8]; [|lia]. rewrite Hc8 in *. change (Z.log2_up 8) with 3 in *. lia.
Qed.

(** *** Headers *)

Definition valid_header (h : Header) : Prop :=
  match h with
  | Occupied o => 0 ≤ o < N
  | Free Null => True
  | Free (Ptr p) => 0 ≤ p < EMPTY_MARKER
  end.

Lemma land_low p : fits 32 p → Z.land p (2 ^ 32) = 0.
Proof.
  intros Hp. apply Z.bits_inj'. intros n Hn. rewrite Z.land_spec, Z.pow2_bits_eqb, Z.bits_0 by lia.
  destruct (Z.eqb_spec 32 n) as [<-|]; [|by rewrite andb_false_r].
  rewrite Z.testbit_odd, Z.shiftr_div_pow2, Z.div_small by (done || lia). done.
Qed.

Lemma header_roundtrip h :
  valid_header h → header_decode (header_encode h) = Ok h ∧ fits 64 (header_encode h).
Proof.
  destruct h as [[|p]|o]; simpl; intros Hh; [by vm_compute| |].
  - rewrite Z.lor_0_r. unfold EMPTY_MARKER in Hh. assert (fits 32 p) by (unfold fits; lia).
    unfold header_decode. rewrite land_low, wrap_small by done. simpl.
    unfold link_from_raw. rewrite bool_decide_eq_true_2 by (unfold EMPTY_MARKER; lia).
    split; [done|]. unfold fits in *. lia.
  - unfold N in Hh. assert (∃ n, o = Z.of_nat n ∧ (n < 22)%nat) as (n&->&Hn)
      by (exists (Z.to_nat o); lia). clear Hh.
    do 22 (destruct n as [|n]; [by vm_compute|]). lia.
Qed.

Lemma write_into_ok h m p :
  valid_header h → 0 ≤ p → p + 8 ≤ mem_len m → mem_len m < 2 ^ 32 →
  ∃ m', write_into h m p = Ok m' ∧ mem_len m' = mem_len m ∧ read_from m' p = Ok h ∧
    ∀ q, 0 ≤ q → (q + 8 ≤ p ∨ p + 8 ≤ q) → read_from m' q = read_from m q.
Proof.
  intros Hh Hp Hl Hm. destruct (header_roundtrip h Hh) as [Hd Hf].
  destruct (write_in_bounds m p (header_encode h)) as (m'&Hw&Hlen&Hr&Hq); [done..|].
  exists m'. unfold write_into, read_from. split_and!; [done..| |].
  - rewrite Hr. apply Hd.
  - intros q Hq0 Hqp. by rewrite Hq.
Qed.

(** *** Free lists *)

Lemma chain_frame m m' l ps :
  (∀ p, p ∈ ps → read_from m' p = read_from m p) → chain m l ps → chain m' l ps.
Proof.
  revert l. induction ps as [|p ps IH]; intros l Hf; [done|]. intros (->&next&Hr&Hc).
  split; [done|]. exists next. rewrite Hf by (by left). split; [done|].
  apply IH; [|done]. intros q Hq. apply Hf. by right.
Qed.

Lemma free_blocks_elem free p o :
  (p, o) ∈ free_blocks free ↔ ∃ n l, o = Z.of_nat n ∧ free !! n = Some l ∧ p ∈ l.
Proof.
  unfold free_blocks. rewrite list_elem_of_In, in_concat. split.
  - intros (bs&Hbs&Hp). apply list_elem_of_In, elem_of_lookup_imap in Hbs as (n&l&->&Hl).
    apply list_elem_of_In, list_elem_of_fmap in Hp as (p'&[= <- ->]&Hp). eauto.
  - intros (n&l&->&Hl&Hp). eexists. split.
    + apply list_elem_of_In, elem_of_lookup_imap. by eexists n, l.
    + apply list_elem_of_In, list_elem_of_fmap. eauto.
Qed.

Lemma free_blocks_from_app (k : nat) (f1 f2 : list (list Z)) :
  imap (λ o l, (λ p, (p, Z.of_nat (k + o))) <$> l) (f1 ++ f2) =
  imap (λ o l, (λ p, (p, Z.of_nat (k + o))) <$> l) f1 ++
  imap (λ o l, (λ p, (p, Z.of_nat (k + length f1 + o))) <$> l) f2.
Proof.
  rewrite imap_app. f_equal. apply imap_ext. intros i x Hx. simpl. apply list_fmap_ext.
  intros j p Hp. f_equal. lia.
Qed.

(** Replacing one of the lists. *)
Lemma free_blocks_insert free n l l' :
  free !! n = Some l →
  ∃ rest, free_blocks free ≡ₚ ((λ p, (p, Z.of_nat n)) <$> l) ++ rest ∧
    free_blocks (<[n := l']> free) ≡ₚ ((λ p, (p, Z.of_nat n)) <$> l') ++ rest.
Proof.
  intros Hl. pose proof (lookup_lt_Some _ _ _ Hl) as Hn.
  assert (∀ x, free_blocks (take n free ++ x :: drop (S n) free) =
    concat (imap (λ o l, (λ p, (p, Z.of_nat o)) <$> l) (take n free)) ++
    ((λ p, (p, Z.of_nat n)) <$> x) ++
    concat (imap (λ o l, (λ p, (p, Z.of_nat (S n + o))) <$> l) (drop (S n) free))) as Hsplit.
  { intros x. unfold free_blocks. rewrite (free_blocks_from_app 0), concat_app. f_equal.
    rewrite length_take, Nat.min_l by lia. rewrite imap_cons. cbn [concat Nat.add].
    f_equal; [by rewrite Nat.add_0_r|]. f_equal. apply imap_ext. intros i y Hy. simpl.
    apply list_fmap_ext. intros j p Hp. f_equal. lia. }
  eexists. split.
  - rewrite <- (take_drop_middle free n l Hl) at 1. rewrite Hsplit. apply Permutation_app_swap_app.
  - rewrite insert_take_drop by done. rewrite Hsplit. apply Permutation_app_swap_app.
Qed.

Lemma chains_frame m m' fl free :
  (∀ n l q, free !! n = Some l → q ∈ l → read_from m' q = read_from m q) →
  Forall2 (chain m) fl free → Forall2 (chain m') fl free.
Proof.
  rewrite !Forall2_same_length_lookup. intros Hf [Hlen Hc]. split; [done|].
  intros i x l Hx Hl. eapply chain_frame; [|by eapply Hc]. intros p. by eapply Hf.
Qed.

Lemma chains_update m m' fl free n lk ps :
  (∀ i l q, i ≠ n → free !! i = Some l → q ∈ l → read_from m' q = read_from m q) →
  chain m' lk ps → Forall2 (chain m) fl free →
  Forall2 (chain m') (<[n := lk]> fl) (<[n := ps]> free).
Proof.
  rewrite !Forall2_same_length_lookup, !length_insert. intros Hf Hn [Hlen Hc]. split; [done|].
  intros i x l Hx Hl. destruct (decide (i = n)) as [->|Hne].
  - assert (n < length free)%nat by (apply lookup_lt_Some in Hl; by rewrite length_insert in Hl).
    rewrite list_lookup_insert_eq in Hx by lia. rewrite list_lookup_insert_eq in Hl by lia.
    by simplify_eq.
  - rewrite list_lookup_insert_ne in Hx by done. rewrite list_lookup_insert_ne in Hl by done.
    eapply chain_frame; [|by eapply Hc]. intros p. by eapply Hf.
Qed.

(** *** Layouts *)

Lemma total_perm bs bs' : bs ≡ₚ bs' → total bs = total bs'.
Proof. induction 1; simpl; lia. Qed.

Lemma total_app bs bs' : total (bs ++ bs') = total bs + total bs'.
Proof. induction bs; simpl; lia. Qed.

Lemma layout_perm base top bs bs' : bs ≡ₚ bs' → layout base top bs → layout base top bs'.
Proof.
  intros Hp (Hi&Hd&Ht). split_and!.
  - by rewrite <- Hp.
  - eapply ord_pairs_perm; [|done..]. unfold disjoint. tauto.
  - by rewrite <- (total_perm _ _ Hp).
Qed.

Lemma block_size_bounds base top b :
  in_heap base top b → 16 ≤ block_size b ≤ MAX_POSSIBLE_ALLOCATION + HEADER_SIZE.
Proof.
  intros (_&_&_&Ho). pose proof (order_size_bounds b.2 Ho). unfold block_size, HEADER_SIZE. lia.
Qed.

Lemma total_nonneg base top bs : Forall (in_heap base top) bs → 0 ≤ total bs.
Proof. induction 1 as [|b bs Hb _ IH]; simpl; [lia|]. apply block_size_bounds in Hb. lia. Qed.

(** A header write leaves the headers of the other blocks alone. *)
Lemma layout_frame base top b bs m m' :
  0 ≤ base → layout base top (b :: bs) →
  (∀ q, 0 ≤ q → (q + 8 ≤ b.1 ∨ b.1 + 8 ≤ q) → read_from m' q = read_from m q) →
  ∀ b', b' ∈ bs → read_from m' b'.1 = read_from m b'.1.
Proof.
  intros Hbase (Hi&Hd&_) Hf b' Hb'. apply Forall_cons in Hi as [Hb Hi].
  inversion Hd as [|?? Hdb _]; subst. rewrite Forall_forall in Hdb, Hi.
  specialize (Hdb b' Hb'). specialize (Hi b' Hb').
  pose proof (block_size_bounds _ _ _ Hb). pose proof (block_size_bounds _ _ _ Hi).
  destruct Hi as (?&_). apply Hf; [lia|]. unfold disjoint in Hdb. lia.
Qed.

(** Growing the heap by one block at its top. *)
Lemma layout_bump base top o bs :
  layout base top bs → 0 ≤ o < N → base ≤ top → top mod 8 = 0 →
  layout base (top + block_size (top, o)) ((top, o) :: bs).
Proof.
  intros (Hi&Hd&Ht) Ho Htop Hmod.
  pose proof (order_size_bounds o Ho). unfold block_size in *. cbn [snd] in *. unfold HEADER_SIZE in *.
  split_and!.
  - constructor; [unfold in_heap, block_size, HEADER_SIZE; cbn [fst snd]; lia|].
    eapply Forall_impl; [done|]. intros b (?&?&?&?). unfold in_heap. lia.
  - constructor; [|done]. eapply Forall_impl; [done|]. intros b (?&?&?&?).
    right. cbn [fst]. lia.
  - simpl. unfold block_size in *. simpl. unfold HEADER_SIZE in *. lia.
Qed.

Lemma layout_top_mod base top bs : base mod 8 = 0 → layout base top bs → top mod 8 = 0.
Proof.
  intros Hb (Hi&_&Ht). assert (total bs mod 8 = 0) as Hm.
  { clear Ht. induction Hi as [|b bs (_&_&_&Ho) _ IH]; simpl; [done|].
    unfold block_size. rewrite Z.add_mod, IH, (Z.add_mod (order_size _)), order_size_mod by lia. done. }
  replace top with (total bs + base) by lia. rewrite Z.add_mod, Hm, Hb by lia. done.
Qed.

Lemma layout_top base top bs : layout base top bs → base ≤ top.
Proof. intros (Hi&_&Ht). pose proof (total_nonneg _ _ _ Hi). lia. Qed.

(** ** Allocation *)

Lemma limit_lt : LIMIT + MAX_POSSIBLE_ALLOCATION + HEADER_SIZE = 2 ^ 32.
Proof. done. Qed.

(** What remains to be done once the block is found. *)
Lemma occupy_ok base a m live free p o :
  0 ≤ base < LIMIT → base mod 8 = 0 → mem_len m < LIMIT → bumper a ≤ mem_len m →
  layout base (bumper a) ((p, o) :: live ++ free_blocks free) →
  total_size a = total live →
  Forall (λ b, read_from m b.1 = Ok (Occupied b.2)) live →
  Forall2 (chain m) (free_lists a) free → length free = Z.to_nat N →
  ∃ m', write_into (Occupied o) m p = Ok m' ∧
    p +[32] HEADER_SIZE = p + HEADER_SIZE ∧
    heap_ok base
      (MkAllocator (bumper a) (free_lists a)
         (total_size a +[32] (order_size o +[32] HEADER_SIZE)))
      m' ((p, o) :: live) free.
Proof.
  intros Hbase Hmod Hlim Htop Hlay Htot Hlive Hfree Hlen.
  pose proof Hlay as (Hin&_&Hsum). apply Forall_cons in Hin as [Hb Hin].
  pose proof (block_size_bounds _ _ _ Hb) as Hsz. pose proof limit_lt.
  apply Forall_app in Hin as [Hin1 Hin2].
  pose proof (total_nonneg _ _ _ Hin1). pose proof (total_nonneg _ _ _ Hin2).
  simpl in Hsum. rewrite total_app in Hsum. destruct Hb as (Hb1&Hb2&Hb3&Hb4).
  unfold block_size in *. cbn [fst snd] in *. unfold HEADER_SIZE in *.
  destruct (write_into_ok (Occupied o) m p) as (m'&Hw&Hl&Hr&Hf); [done|lia..|].
  exists m'. split_and!; [done|nowrap; lia|].
  pose proof (layout_frame base (bumper a) (p, o) _ m m' (proj1 Hbase) Hlay Hf) as Hframe.
  constructor; cbn [bumper free_lists total_size]; rewrite ?Hl; auto.
  - nowrap. simpl. unfold block_size, HEADER_SIZE. simpl. lia.
  - constructor; [done|]. rewrite Forall_forall in *. intros b Hbl.
    rewrite Hframe by (apply elem_of_app; by left). auto.
  - eapply chains_frame; [|done]. intros n l q Hn Hq.
    apply (Hframe (q, Z.of_nat n)), elem_of_app. right. apply free_blocks_elem. eauto.
Qed.

Lemma pop_free_ok base a m live free o p ps :
  heap_ok base a m live free → 0 ≤ o < N → free !! Z.to_nat o = Some (p :: ps) →
  ∃ next, take_block a m o = (set_free_list a o next, Ok p) ∧ bumper a ≤ mem_len m ∧
    layout base (bumper a) ((p, o) :: live ++ free_blocks (<[Z.to_nat o := ps]> free)) ∧
    Forall2 (chain m) (<[Z.to_nat o := next]> (free_lists a)) (<[Z.to_nat o := ps]> free).
Proof.
  intros Hok Ho Hps. destruct Hok as [Hbase Hlim Htop Hlay _ _ Hfree _].
  destruct (Forall2_lookup_r _ _ _ _ _ Hfree Hps) as (lk&Hlk&->&next&Hnext&Hch).
  destruct (free_blocks_insert free _ _ ps Hps) as (rest&Hp1&Hp2).
  rewrite Z2Nat.id in Hp1, Hp2 by lia.
  assert (layout base (bumper a) ((p, o) :: live ++ free_blocks (<[Z.to_nat o:=ps]> free))) as Hlay'.
  { eapply layout_perm; [|done]. rewrite Hp1, Hp2. simpl. solve_Permutation. }
  pose proof Hlay' as (Hin&_). apply Forall_cons in Hin as [Hb _].
  pose proof (block_size_bounds _ _ _ Hb) as Hsz. destruct Hb as (Hb1&Hb2&Hb3&Hb4).
  assert (bumper a ≤ mem_len m) as Htop' by (destruct Htop; cbn [fst] in *; lia).
  pose proof limit_lt. unfold block_size in *. cbn [fst snd] in *. unfold HEADER_SIZE in *.
  exists next. split_and!; [|done|done|].
  - unfold take_block. rewrite Hlk. unfold pop_free. rewrite mem_size_ok by lia.
    unfold HEADER_SIZE. nowrap. rewrite (proj2 (Z.leb_le _ _)) by lia.
    rewrite Hnext. done.
  - eapply chains_update; [done..|]. done.
Qed.

Lemma bump_ok base a m live free o :
  heap_ok base a m live free → 0 ≤ o < N → free !! Z.to_nat o = Some [] →
  if decide (bumper a + order_size o + HEADER_SIZE ≤ mem_len m) then
    take_block a m o =
      (MkAllocator (bumper a + (order_size o + HEADER_SIZE)) (free_lists a) (total_size a),
       Ok (bumper a)) ∧
    layout base (bumper a + (order_size o + HEADER_SIZE))
      ((bumper a, o) :: live ++ free_blocks free)
  else take_block a m o = (a, Err AllocatorOutOfSpace).
Proof.
  intros Hok Ho Hps. destruct Hok as [[Hbase Hmod] Hlim Htop Hlay _ _ Hfree _].
  destruct (Forall2_lookup_r _ _ _ _ _ Hfree Hps) as (lk&Hlk&->).
  pose proof (layout_top _ _ _ Hlay). pose proof (order_size_bounds o Ho). pose proof limit_lt.
  unfold take_block, bump, HEADER_SIZE in *. rewrite Hlk, mem_size_ok by lia.
  assert (bumper a < LIMIT) by (destruct Htop; lia). nowrap.
  case_decide as Hd.
  - rewrite (proj2 (Z.ltb_ge _ _)) by lia. split; [done|].
    apply (layout_bump base (bumper a) o); [done..|]. by eapply layout_top_mod.
  - by rewrite (proj2 (Z.ltb_lt _ _)) by lia.
Qed.

Lemma allocate_ok base a m live free size :
  heap_ok base a m live free → 0 ≤ size →
  if decide (MAX_POSSIBLE_ALLOCATION < size)
  then allocate a m size = (a, m, Err RequestedAllocationTooLarge)
  else ∃ o, order_from_size size = Ok o ∧
    match free !! Z.to_nat o with
    | Some (p :: ps) => ∃ a' m',
        allocate a m size = (a', m', Ok (p + HEADER_SIZE)) ∧ bumper a' = bumper a ∧
        heap_ok base a' m' ((p, o) :: live) (<[Z.to_nat o := ps]> free)
    | _ =>
        if decide (bumper a + order_size o + HEADER_SIZE ≤ mem_len m) then
          ∃ a' m', allocate a m size = (a', m', Ok (bumper a + HEADER_SIZE)) ∧
            bumper a' = bumper a + order_size o + HEADER_SIZE ∧
            heap_ok base a' m' ((bumper a, o) :: live) free
        else allocate a m size = (a, m, Err AllocatorOutOfSpace)
    end.
Proof.
  intros Hok Hsize. pose proof (order_from_size_ok size Hsize) as Hos. unfold allocate.
  destruct (order_from_size size) as [o|e|]; [|destruct Hos as [-> ?]; by rewrite decide_True|done].
  destruct Hos as (Ho&Hle&_). pose proof (order_size_bounds o Ho).
  rewrite decide_False by lia. exists o. split; [done|].
  pose proof Hok as [[Hbase Hmod] Hlim _ _ Htot Hlive _ Hlen].
  assert (Z.to_nat o < length free)%nat as Hn by (unfold N in *; lia).
  destruct (lookup_lt_is_Some_2 _ _ Hn) as [[|p ps] Hps]; rewrite Hps.
  - pose proof (bump_ok _ _ _ _ _ o Hok Ho Hps) as Hbump. case_decide as Hd; [|by rewrite Hbump].
    destruct Hbump as [-> Hlay].
    edestruct (occupy_ok base (MkAllocator (bumper a + (order_size o + HEADER_SIZE))
      (free_lists a) (total_size a)) m live free (bumper a) o) as (m'&Hw&Hp&Hok'); eauto.
    { cbn [bumper]. lia. }
    { apply Hok. }
    rewrite Hw, Hp. eexists _, _. split_and!; [done|cbn [bumper]; lia|done].
  - destruct (pop_free_ok _ _ _ _ _ o p ps Hok Ho Hps) as (next&->&Htop&Hlay&Hch).
    edestruct (occupy_ok base (set_free_list a o next) m live (<[Z.to_nat o:=ps]> free) p o)
      as (m'&Hw&Hp&Hok'); eauto.
    { by rewrite length_insert. }
    rewrite Hw, Hp. eexists _, _. by split_and!.
Qed.

(** ** Deallocation *)

Lemma deallocate_ok base a m live live' free p o :
  heap_ok base a m live free → live ≡ₚ (p, o) :: live' →
  ∃ a' m' ps, free !! Z.to_nat o = Some ps ∧
    deallocate a m (p + HEADER_SIZE) = (a', m', Ok tt) ∧ bumper a' = bumper a ∧
    heap_ok base a' m' live' (<[Z.to_nat o := p :: ps]> free).
Proof.
  intros Hok Hlive'. destruct Hok as [[Hbase Hmod] Hlim Htop Hlay Htot Hlive Hfree Hlen].
  rewrite Hlive' in Hlive. apply Forall_cons in Hlive as [Hhd Hlive]. cbn [fst snd] in Hhd.
  assert (layout base (bumper a) ((p, o) :: live' ++ free_blocks free)) as Hlay'.
  { eapply layout_perm; [|done]. by rewrite Hlive'. }
  pose proof Hlay' as (Hin&_&Hsum). apply Forall_cons in Hin as [Hb Hin].
  pose proof (block_size_bounds _ _ _ Hb) as Hsz. destruct Hb as (Hb1&Hb2&Hb3&Hb4).
  rewrite (total_perm _ _ Hlive') in Htot. apply Forall_app in Hin as [Hin1 Hin2].
  pose proof (total_nonneg _ _ _ Hin1). pose proof (total_nonneg _ _ _ Hin2).
  simpl in Htot, Hsum. rewrite total_app in Hsum.
  assert (bumper a ≤ mem_len m) as Htop' by (destruct Htop; cbn [fst] in *; lia).
  pose proof limit_lt. unfold block_size in *. cbn [fst snd] in *. unfold HEADER_SIZE in *.
  assert (Z.to_nat o < length free)%nat as Hn by (unfold N in *; lia).
  destruct (lookup_lt_is_Some_2 _ _ Hn) as [ps Hps].
  destruct (Forall2_lookup_r _ _ _ _ _ Hfree Hps) as (lk&Hlk&Hch).
  assert (valid_header (Free lk)) as Hvalid.
  { destruct ps as [|q ps]; [by rewrite Hch|]. destruct Hch as [-> _]. simpl.
    assert ((q, o) ∈ free_blocks free) as Hq.
    { apply free_blocks_elem. exists (Z.to_nat o), (q :: ps).
      split_and!; [lia|done|by left]. }
    rewrite Forall_forall in Hin2. destruct (Hin2 _ Hq) as (?&?&_).
    unfold block_size, EMPTY_MARKER, HEADER_SIZE in *. cbn [fst snd] in *. lia. }
  destruct (write_into_ok (Free lk) m p Hvalid) as (m'&Hw&Hl&Hr&Hf); [lia..|].
  pose proof (layout_frame base (bumper a) (p, o) _ m m' (proj1 Hbase) Hlay' Hf) as Hframe.
  eexists _, m', ps. split_and!; [done| | |].
  - unfold deallocate, HEADER_SIZE. rewrite checked_sub_Some by lia.
    replace (p + 8 - 8) with p by lia. cbn [mbind result_bind ok_or].
    rewrite Hhd. cbn [mbind result_bind ok_or into_occupied]. rewrite Hlk.
    cbn [mbind result_bind expect]. rewrite Hw. cbn [set_free_list total_size].
    nowrap. rewrite checked_sub_Some by lia. done.
  - done.
  - constructor; cbn; rewrite ?Hl, ?length_insert; [lia|lia|lia| |lia| | |done].
    + destruct (free_blocks_insert free _ _ (p :: ps) Hps) as (rest&Hp1&Hp2).
      rewrite Z2Nat.id in Hp1, Hp2 by lia. eapply layout_perm; [|exact Hlay'].
      rewrite Hp1, Hp2. simpl. solve_Permutation.
    + rewrite Forall_forall in *. intros b Hbl.
      rewrite Hframe by (apply elem_of_app; by left). auto.
    + assert (∀ n l q, free !! n = Some l → q ∈ l → read_from m' q = read_from m q) as Hfr.
      { intros n l q Hnl Hq. apply (Hframe (q, Z.of_nat n)), elem_of_app. right.
        apply free_blocks_elem. eauto. }
      apply (chains_update m); [eauto| |done]. split; [done|]. exists lk. split; [done|].
      eapply chain_frame; [|done]. eauto.
Qed.

Lemma chain_free m l ps p : chain m l ps → p ∈ ps → ∃ next, read_from m p = Ok (Free next).
Proof.
  revert l. induction ps as [|q ps IH]; intros l; [by intros _ ?%not_elem_of_nil|].
  intros (->&next&Hr&Hc) [->|Hp]%elem_of_cons; eauto.
Qed.

(** ** Histories of a heap *)

Inductive reach (heap_base : Z) : FreeingBumpHeapAllocator → M → list block → Prop :=
| reach_new m : mem_len m < LIMIT → reach heap_base (new heap_base) m []
| reach_allocate a m live size a' m' ptr o :
    reach heap_base a m live → 0 ≤ size → order_from_size size = Ok o →
    allocate a m size = (a', m', Ok ptr) →
    reach heap_base a' m' ((ptr - HEADER_SIZE, o) :: live)
| reach_refused a m live size a' m' e :
    reach heap_base a m live → 0 ≤ size → allocate a m size = (a', m', Err e) →
    reach heap_base a' m' live
| reach_deallocate a m live live' p o a' m' r :
    reach heap_base a m live → live ≡ₚ (p, o) :: live' →
    deallocate a m (p + HEADER_SIZE) = (a', m', r) → reach heap_base a' m' live'
| reach_user a m live m' :
    (** the program writes to the memory it was given *)
    reach heap_base a m live → mem_len m' = mem_len m →
    (∀ q, 0 ≤ q → (∀ b, b ∈ live → q ≤ b.1 ∨ b.1 + block_size b ≤ q) →
       read_le_u64 m' q = read_le_u64 m q) →
    reach heap_base a m' live.

Definition aligned (heap_base : Z) : Z := (heap_base + 7) / 8 * 8.

Lemma aligned_bounds heap_base : heap_base ≤ aligned heap_base < heap_base + 8.
Proof. unfold aligned. pose proof (Z.div_mod (heap_base + 7) 8). pose proof (Z.mod_pos_bound (heap_base + 7) 8). lia. Qed.

Lemma new_ok heap_base m :
  0 ≤ heap_base < LIMIT - 8 → mem_len m < LIMIT →
  heap_ok (aligned heap_base) (new heap_base) m [] (replicate (Z.to_nat N) []).
Proof.
  intros Hb Hm. pose proof (aligned_bounds heap_base).
  assert (bumper (new heap_base) = aligned heap_base) as Hnew.
  { pose proof limit_lt. unfold MAX_POSSIBLE_ALLOCATION, HEADER_SIZE in *.
    unfold new, ALIGNMENT. cbn [bumper]. unfold aligned in *.
    replace (heap_base + 8 - 1) with (heap_base + 7) by lia. nowrap. done. }
  assert (free_blocks (replicate (Z.to_nat N) []) = []) as Hnil by done.
  constructor; rewrite ?Hnew, ?Hnil; try done.
  - split; [lia|]. unfold aligned. apply Z.mod_mul. lia.
  - by left.
  - split_and!; [constructor..|]. simpl. lia.
  - unfold new, free_lists_new. cbn [free_lists]. generalize (Z.to_nat N) as n.
    intros n. induction n; simpl; by constructor.
Qed.

Lemma user_ok base a m live free m' :
  heap_ok base a m live free → mem_len m' = mem_len m →
  (∀ q, 0 ≤ q → (∀ b, b ∈ live → q ≤ b.1 ∨ b.1 + block_size b ≤ q) →
     read_le_u64 m' q = read_le_u64 m q) →
  heap_ok base a m' live free.
Proof.
  intros [Hbase Hlim Htop Hlay Htot Hlive Hfree Hlen] Hl Hf.
  assert (∀ b, b ∈ live ++ free_blocks free → read_from m' b.1 = read_from m b.1) as Hframe.
  { destruct Hlay as (Hin&Hd&_). rewrite Forall_forall in Hin. intros b Hb. unfold read_from.
    rewrite Hf; [done|destruct (Hin b Hb); lia|]. intros b' Hb'.
    destruct (ForallOrdPairs_In Hd b b') as [->|[Hdis|Hdis]];
      [by apply list_elem_of_In|apply list_elem_of_In, elem_of_app; by left|lia|..];
      pose proof (block_size_bounds _ _ _ (Hin b Hb)); unfold disjoint in Hdis; lia. }
  constructor; rewrite ?Hl; auto.
  - rewrite Forall_forall in *. intros b Hb. rewrite Hframe by (apply elem_of_app; by left). auto.
  - eapply chains_frame; [|done]. intros n l q Hn Hq. apply (Hframe (q, Z.of_nat n)), elem_of_app.
    right. apply free_blocks_elem. eauto.
Qed.

Lemma heap_reach_ok heap_base a m live :
  0 ≤ heap_base < LIMIT - 8 → reach heap_base a m live →
  ∃ free, heap_ok (aligned heap_base) a m live free.
Proof.
  intros Hb. induction 1 as [m Hm|a m live size a' m' ptr o _ [free IH] Hs Ho Ha|
    a m live size a' m' e _ [free IH] Hs Ha|a m live live' p o a' m' r _ [free IH] Hp Hd|
    a m live m' _ [free IH] Hl Hf].
  - eexists. by apply new_ok.
  - pose proof (allocate_ok _ _ _ _ _ size IH Hs) as Hok. rewrite Ha in Hok.
    case_decide; [done|]. destruct Hok as (o'&Ho'&Hok). rewrite Ho in Ho'. injection Ho' as <-.
    unfold HEADER_SIZE. destruct (free !! Z.to_nat o) as [[|p ps]|].
    1,3: case_decide; [|done]; destruct Hok as (a1&m1&[= <- <- ->]&_&Hok); unfold HEADER_SIZE;
      rewrite Z.add_simpl_r; eauto.
    destruct Hok as (a1&m1&[= <- <- ->]&_&Hok). unfold HEADER_SIZE. rewrite Z.add_simpl_r. eauto.
  - pose proof (allocate_ok _ _ _ _ _ size IH Hs) as Hok. rewrite Ha in Hok.
    case_decide; [simplify_eq; eauto|]. destruct Hok as (o&_&Hok).
    repeat (case_match; try case_decide); naive_solver.
  - destruct (deallocate_ok _ _ _ _ _ _ _ _ IH Hp) as (a1&m1&ps&_&Hd'&_&Hok).
    rewrite Hd in Hd'. simplify_eq. eauto.
  - eauto using user_ok.
Qed.

(** ** Correctness of the operations *)

(** C1. Whatever the sequence of allocations, deallocations of live blocks and
    writes of the program to the blocks it holds, from a new allocator on a
    memory that leaves room for one more maximal block below 4 GiB: the live
    blocks are aligned to 8 bytes, lie between the heap base and the end of the
    memory, do not overlap (headers included), and [total_size] is exactly the
    space they take. *)
Theorem heap_safety heap_base a m live :
  0 ≤ heap_base < LIMIT - 8 → reach heap_base a m live →
  Forall (λ b, (b.1 + HEADER_SIZE) mod ALIGNMENT = 0 ∧ heap_base ≤ b.1 ∧
               b.1 + HEADER_SIZE + order_size b.2 ≤ mem_len m) live ∧
  ForallOrdPairs disjoint live ∧
  total_size a = total live.
Proof.
  intros Hb Hr. destruct (heap_reach_ok _ _ _ _ Hb Hr) as [free [_ _ Htop Hlay Htot _ _ _]].
  pose proof Hlay as (Hin&Hd&_). apply Forall_app in Hin as [Hin _].
  apply ord_pairs_app in Hd as [Hd _]. split_and!; [|done..].
  pose proof (aligned_bounds heap_base). eapply Forall_impl; [done|].
  intros b Hbl. pose proof (block_size_bounds _ _ _ Hbl). destruct Hbl as (?&?&Hmod&?).
  unfold block_size, HEADER_SIZE, ALIGNMENT in *. cbn beta.
  split_and!; [by rewrite Z.add_mod, Hmod by lia|lia..].
Qed.

(** [allocate] on a consistent heap: a request above 16 MiB is refused; any
    other takes the first block of the free list of its order, or, when that
    list is empty, the block above the last one; it fails only when that block
    does not fit in the memory, and then changes nothing.  The heap stays
    consistent, with the new block live. *)
Theorem allocate_correct base a m live free size :
  heap_ok base a m live free → 0 ≤ size →
  if decide (MAX_POSSIBLE_ALLOCATION < size)
  then allocate a m size = (a, m, Err RequestedAllocationTooLarge)
  else ∃ o, order_from_size size = Ok o ∧
    match free !! Z.to_nat o with
    | Some (p :: ps) => ∃ a' m',
        allocate a m size = (a', m', Ok (p + HEADER_SIZE)) ∧ bumper a' = bumper a ∧
        heap_ok base a' m' ((p, o) :: live) (<[Z.to_nat o := ps]> free)
    | _ =>
        if decide (bumper a + order_size o + HEADER_SIZE ≤ mem_len m) then
          ∃ a' m', allocate a m size = (a', m', Ok (bumper a + HEADER_SIZE)) ∧
            bumper a' = bumper a + order_size o + HEADER_SIZE ∧
            heap_ok base a' m' ((bumper a, o) :: live) free
        else allocate a m size = (a, m, Err AllocatorOutOfSpace)
    end.
Proof. apply allocate_ok. Qed.

(** [deallocate] of a live block always succeeds and puts the block at the
    head of the free list of its order; the heap stays consistent.  A second
    [deallocate] of a block that is free is refused and changes nothing. *)
Theorem deallocate_correct base a m live free :
  heap_ok base a m live free →
  (∀ p o live', live ≡ₚ (p, o) :: live' →
     ∃ a' m' ps, free !! Z.to_nat o = Some ps ∧
       deallocate a m (p + HEADER_SIZE) = (a', m', Ok tt) ∧ bumper a' = bumper a ∧
       heap_ok base a' m' live' (<[Z.to_nat o := p :: ps]> free)) ∧
  (∀ p o, (p, o) ∈ free_blocks free →
     deallocate a m (p + HEADER_SIZE) =
       (a, m, Err (Other "the allocation points to an empty header"))).
Proof.
  intros Hok. split; [intros p o live'; by apply deallocate_ok|].
  intros p o (n&l&_&Hl&Hp)%free_blocks_elem.
  destruct (Forall2_lookup_r _ _ _ _ _ (ok_free _ _ _ _ _ Hok) Hl) as (lk&_&Hc).
  destruct (chain_free _ _ _ _ Hc Hp) as [next Hr].
  assert (0 ≤ p) as Hp0.
  { destruct (ok_layout _ _ _ _ _ Hok) as (Hin&_). rewrite Forall_forall in Hin.
    destruct (Hin (p, Z.of_nat n)) as [Hb _].
    - apply elem_of_app. right. apply free_blocks_elem. eauto.
    - destruct (ok_base _ _ _ _ _ Hok). cbn [fst] in Hb. lia. }
  unfold deallocate. rewrite checked_sub_Some by (unfold HEADER_SIZE; lia).
  rewrite Z.add_simpl_r. cbn [mbind result_bind ok_or]. by rewrite Hr.
Qed.
End invariant.

(** [Order::from_size] picks the smallest order whose blocks are large
    enough, among the 22 there are, and refuses exactly the sizes above the
    maximum. *)
Theorem order_from_size_correct size :
  0 ≤ size →
  match order_from_size size with
  | Ok o => 0 ≤ o < N ∧ size ≤ order_size o ∧ ∀ o', 0 ≤ o' < o → order_size o' < size
  | Err e => e = RequestedAllocationTooLarge ∧ MAX_POSSIBLE_ALLOCATION < size
  | Panic => False
  end.
Proof. apply order_from_size_ok. Qed.
End allocator.

(** The bound on the memory in the theorems above is needed: when the end of
    the block is beyond 4 GiB the sum wraps around, and [bump] hands out a block
    that does not fit instead of reporting that the heap is full, leaving the
    bump pointer below the block. *)
Theorem bump_wraps a size heap_end :
  fits 32 (bumper a) → 0 < size ≤ MAX_POSSIBLE_ALLOCATION + HEADER_SIZE →
  2 ^ 32 ≤ bumper a + size → MAX_POSSIBLE_ALLOCATION + HEADER_SIZE ≤ heap_end < 2 ^ 32 →
  ∃ a', bump a size heap_end = (a', Ok (bumper a)) ∧
    heap_end < bumper a + size ∧ bumper a' < bumper a.
Proof.
  unfold fits, MAX_POSSIBLE_ALLOCATION, HEADER_SIZE. intros Hb Hs Hw He.
  assert (bumper a +[32] size = bumper a + size - 2 ^ 32) as Hwrap.
  { unfold wrap. symmetry. apply (Zmod_unique _ _ 1); lia. }
  unfold bump. rewrite Hwrap, (proj2 (Z.ltb_ge _ _)) by lia.
  eexists. split_and!; [done|lia|]. cbn [bumper]. lia.
Qed.

(** ** Memory as a slice of bytes *)

Module Slice.

Fixpoint from_le_bytes (bytes : list Z) : Z :=
  match bytes with
  | [] => 0
  | b :: bytes' => b + 256 * from_le_bytes bytes'
  end.

Fixpoint to_le_bytes (n : nat) (v : Z) : list Z :=
  match n with
  | O => []
  | S n' => v mod 256 :: to_le_bytes n' (v / 256)
  end.

Definition heap_range (offset length heap_len : Z) : option (Z * Z) :=
  end_ ← checked_add 32 offset length;
  if end_ <=? heap_len then Some (offset, end_) else None.

Definition len (m : list Z) : Z := Z.of_nat (length m).

Definition slice_read (m : list Z) (ptr : Z) : result Error Z :=
  '(start, end_) ← ok_or (Other "read out of heap bounds") (heap_range ptr 8 (len m));
  Ok (from_le_bytes (take (Z.to_nat (end_ - start)) (drop (Z.to_nat start) m))).

Definition slice_write (m : list Z) (ptr val : Z) : result Error (list Z) :=
  '(start, end_) ← ok_or (Other "write out of heap bounds") (heap_range ptr 8 (len m));
  Ok (take (Z.to_nat start) m ++ to_le_bytes 8 val ++ drop (Z.to_nat end_) m).

Definition slice_size (m : list Z) : result Error Z :=
  if len m <? 2 ^ 32 then Ok (len m) else Panic.

#[export] Instance slice_memory : Memory (list Z) :=
  { read_le_u64 := slice_read; write_le_u64 := slice_write; mem_size := slice_size }.

Lemma from_to_le n v : fits (8 * Z.of_nat n) v → from_le_bytes (to_le_bytes n v) = v.
Proof.
  revert v. induction n as [|n IH]; intros v Hv; cbn [to_le_bytes from_le_bytes].
  - unfold fits in Hv. simpl in Hv. lia.
  - rewrite IH; [pose proof (Z.div_mod v 256); lia|]. unfold fits in *.
    replace (8 * Z.of_nat (S n)) with (8 + 8 * Z.of_nat n) in Hv by lia.
    rewrite Z.pow_add_r in Hv by lia. split; [apply Z.div_pos; lia|].
    apply Z.div_lt_upper_bound; [lia|]. change (2 ^ 8) with 256 in Hv. lia.
Qed.

Lemma length_to_le n v : length (to_le_bytes n v) = n.
Proof. revert v. induction n; intros; simpl; auto. Qed.

Lemma heap_range_ok p l : 0 ≤ p → p + 8 ≤ l → l < 2 ^ 32 → heap_range p 8 l = Some (p, p + 8).
Proof.
  intros. unfold heap_range. rewrite checked_add_Some by lia. simpl.
  by rewrite (proj2 (Z.leb_le _ _)).
Qed.

Lemma take_drop_outer (m l : list Z) p q :
  length l = 8%nat → (p + 8 ≤ length m)%nat → (q + 8 ≤ p ∨ p + 8 ≤ q)%nat →
  take 8 (drop q (take p m ++ l ++ drop (p + 8) m)) = take 8 (drop q m).
Proof.
  intros Hl Hp Hq. apply list_eq. intros i. destruct (decide (i < 8)%nat) as [Hi|Hi].
  - rewrite !lookup_take_lt, !lookup_drop by done. destruct Hq as [Hq|Hq].
    + rewrite lookup_app_l by (rewrite length_take; lia). by rewrite lookup_take_lt by lia.
    + rewrite lookup_app_r by (rewrite length_take; lia).
      rewrite lookup_app_r by (rewrite length_take; lia).
      rewrite lookup_drop, length_take, Hl. f_equal. lia.
  - by rewrite !lookup_take_ge by lia.
Qed.

#[export] Instance slice_laws : MemoryLaws (list Z).
Proof.
  refine {| mem_len := len |}.
  - intros m Hm. simpl. unfold slice_size. by rewrite (proj2 (Z.ltb_lt _ _)).
  - intros m p v Hp Hl Hm Hv. simpl. unfold slice_write, slice_read.
    rewrite (heap_range_ok p) by done. cbn [mbind result_bind ok_or].
    set (m' := take _ m ++ _). assert (len m' = len m) as Hlen.
    { unfold len, m' in *. rewrite !length_app, length_to_le, length_take, length_drop. lia. }
    exists m'. rewrite Hlen. split_and!; [done..| |].
    + rewrite heap_range_ok by done. cbn [mbind result_bind ok_or]. f_equal. unfold m', len in *.
      rewrite drop_app_length' by (rewrite length_take; lia).
      rewrite take_app_length' by (rewrite length_to_le; lia). by apply from_to_le.
    + intros q Hq Hqp. destruct (heap_range q 8 (len m)) as [[s e]|] eqn:Hr; [|done].
      cbn [mbind result_bind ok_or]. unfold heap_range in Hr.
      destruct (checked_add 32 q 8) as [e'|] eqn:He; [|done]. unfold checked_add in He.
      simpl in Hr. destruct (Z.leb_spec e' (len m)) as [Hle|]; [|done].
      destruct (q + 8 <? 2 ^ 32); simplify_eq. f_equal. f_equal. unfold m', len in *.
      replace (Z.to_nat (s + 8 - s)) with 8%nat by lia.
      replace (Z.to_nat (p + 8)) with (Z.to_nat p + 8)%nat by lia.
      apply take_drop_outer; [apply length_to_le|lia|lia].
Defined.
End Slice.

(** ** A concrete heap

    A memory of 64 bytes with the heap from address 13 on: two blocks are
    allocated, the first is freed. *)
Module SmallHeap.
Import Slice.

Definition mem0 : list Z := replicate 64 0.
Definition alloc0 : FreeingBumpHeapAllocator := new 13.

Definition after_one : FreeingBumpHeapAllocator * list Z := (allocate alloc0 mem0 8).1.
Definition after_two : FreeingBumpHeapAllocator * list Z :=
  (allocate after_one.1 after_one.2 8).1.
Definition after_free : FreeingBumpHeapAllocator * list Z :=
  (deallocate after_two.1 after_two.2 24).1.

Lemma after_one_reached : reach 13 after_one.1 after_one.2 [(16, 0)].
Proof.
  refine (reach_allocate 13 alloc0 mem0 [] 8 _ _ 24 0 _ _ _ _);
    [by apply reach_new|lia|by vm_compute|by vm_compute].
Qed.

Lemma after_two_reached : reach 13 after_two.1 after_two.2 [(32, 0); (16, 0)].
Proof.
  refine (reach_allocate 13 after_one.1 after_one.2 _ 8 _ _ 40 0 _ _ _ _);
    [apply after_one_reached|lia|by vm_compute|by vm_compute].
Qed.

Lemma heap_safety_witness :
  Forall (λ b, (b.1 + HEADER_SIZE) mod ALIGNMENT = 0 ∧ 13 ≤ b.1 ∧
               b.1 + HEADER_SIZE + order_size b.2 ≤ mem_len after_free.2) [(32, 0)] ∧
  ForallOrdPairs disjoint [(32, 0)] ∧ total_size after_free.1 = total [(32, 0)].
Proof.
  apply (heap_safety 13 after_free.1 after_free.2 [(32, 0)]); [by vm_compute|].
  eapply (reach_deallocate 13 after_two.1 after_two.2 _ _ 16 0);
    [apply after_two_reached|apply Permutation_swap|by vm_compute].
Defined.

(** A small allocation on top of a heap without free blocks. *)
Lemma grow_ok a m live :
  heap_ok 16 a m live (replicate 22 []) → bumper a + 16 ≤ mem_len m →
  heap_ok 16 (allocate a m 8).1.1 (allocate a m 8).1.2 ((bumper a, 0) :: live) (replicate 22 []).
Proof.
  intros Hok Hfit. pose proof (allocate_ok 16 a m live (replicate 22 []) 8 Hok) as Ha.
  rewrite decide_False in Ha by (by vm_compute). destruct Ha as (o&[= <-]&Ha); [lia|].
  change (order_size _) with 8 in Ha. unfold HEADER_SIZE in Ha. cbn [lookup list_lookup] in Ha.
  rewrite decide_True in Ha by lia. destruct Ha as (a'&m'&->&_&Ha). exact Ha.
Qed.

Lemma after_two_ok : heap_ok 16 after_two.1 after_two.2 [(32, 0); (16, 0)] (replicate 22 []).
Proof.
  apply (grow_ok after_one.1 after_one.2 [(16, 0)]); [|by vm_compute].
  apply (grow_ok alloc0 mem0 []); [|by vm_compute]. apply (new_ok 13 mem0); by vm_compute.
Qed.

Lemma allocate_correct_witness :
  allocate after_two.1 after_two.2 16 = (after_two.1, after_two.2, Err AllocatorOutOfSpace).
Proof.
  destruct (allocate_correct 16 after_two.1 after_two.2 _ _ 16 after_two_ok ltac:(lia))
    as (o&[= <-]&Ha).
  exact Ha.
Defined.

Lemma deallocate_correct_witness :
  ∃ a' m' ps, replicate 22 [] !! 0%nat = Some ps ∧
    deallocate after_two.1 after_two.2 24 = (a', m', Ok tt) ∧
    bumper a' = bumper after_two.1 ∧
    heap_ok 16 a' m' [(32, 0)] (<[0%nat := 16 :: ps]> (replicate 22 [])).
Proof.
  apply (proj1 (deallocate_correct 16 after_two.1 after_two.2 _ _ after_two_ok) 16 0 [(32, 0)]).
  apply Permutation_swap.
Defined.

Lemma order_from_size_correct_witness :
  0 ≤ 2 < N ∧ 17 ≤ order_size 2 ∧ ∀ o', 0 ≤ o' < 2 → order_size o' < 17.
Proof. apply (order_from_size_correct 17). lia. Defined.

Lemma bump_wraps_witness :
  ∃ a', bump (MkAllocator (2 ^ 32 - 16) [] 0) 32 (2 ^ 32 - 8) = (a', Ok (2 ^ 32 - 16)) ∧
    2 ^ 32 - 8 < 2 ^ 32 - 16 + 32 ∧ bumper a' < 2 ^ 32 - 16.
Proof.
  apply (bump_wraps (MkAllocator (2 ^ 32 - 16) [] 0) 32 (2 ^ 32 - 8)); by vm_compute.
Defined.
End SmallHeap.
