(* ===== verification/PeersState.v ===== *)
(** * State of the peers (src/client/peerset/src/peersstate.rs)

    The nodes the peer set manager knows, how we are connected to them, their
    reputation, the priority groups, and the counters of the slots that
    non-priority nodes use.

    The two calls whose outcome the source leaves open are arguments of the
    definitions: the order in which a hash map or a hash set is iterated is an
    [Order], and the instant that [Instant::now()] returns is an argument [now]
    (or [stamp], an instant for each peer, where a loop reads the clock).
    Instants are nanoseconds. *)
From S2P Require Import Prelude.
From stdpp Require Import strings.

Local Open Scope Z_scope.

Inductive ConnectionState : Type :=
| In
| Out
| NotConnected (last_connected : Z).

#[export] Instance ConnectionState_eq_dec : EqDecision ConnectionState.
Proof. solve_decision. Defined.

Record Node : Type := MkNode {
  connection_state : ConnectionState;
  reputation : Z;
}.

Definition node_default (now : Z) : Node := MkNode (NotConnected now) 0.

Definition is_connected (c : ConnectionState) : bool :=
  match c with
  | In => true
  | Out => true
  | NotConnected _ => false
  end.

(** [i32::saturating_add] and [i32::saturating_sub] *)
Definition saturate (x : Z) : Z := Z.max (- 2 ^ 31) (Z.min (2 ^ 31 - 1) x).

Section peersstate.
Context {PeerId : Type} `{Countable PeerId}.

Record PeersState : Type := MkPeersState {
  nodes : gmap PeerId Node;
  num_in : Z;
  num_out : Z;
  max_in : Z;
  max_out : Z;
  priority_nodes : gmap string (gset PeerId);
  priority_only : bool;
}.

(** Iteration order of the hash maps and sets. *)
Record Order : Type := {
  ord_nodes : gmap PeerId Node → list (PeerId * Node);
  ord_groups : gmap string (gset PeerId) → list (string * gset PeerId);
  ord_set : gset PeerId → list PeerId;
}.

(** Iteration visits every entry once. *)
Class OrderLaws (ord : Order) : Prop := {
  ord_nodes_perm : ∀ m, ord_nodes ord m ≡ₚ map_to_list m;
  ord_groups_perm : ∀ m, ord_groups ord m ≡ₚ map_to_list m;
  ord_set_perm : ∀ s, ord_set ord s ≡ₚ elements s;
}.

(** ** Operations *)

Definition new (in_peers out_peers : Z) (only : bool) : PeersState :=
  MkPeersState ∅ 0 0 in_peers out_peers ∅ only.

Definition with_nodes (s : PeersState) (ns : gmap PeerId Node) : PeersState :=
  MkPeersState ns (num_in s) (num_out s) (max_in s) (max_out s) (priority_nodes s)
    (priority_only s).

Definition with_nums (s : PeersState) (n_in n_out : Z) : PeersState :=
  MkPeersState (nodes s) n_in n_out (max_in s) (max_out s) (priority_nodes s) (priority_only s).

Inductive Peer : Type :=
| ConnectedPeer (peer_id : PeerId)
| NotConnectedPeer (peer_id : PeerId)
| UnknownPeer (peer_id : PeerId).

Definition peer (s : PeersState) (peer_id : PeerId) : Peer :=
  match nodes s !! peer_id with
  | None => UnknownPeer peer_id
  | Some p =>
      if is_connected (connection_state p) then ConnectedPeer peer_id
      else NotConnectedPeer peer_id
  end.

Definition into_connected (p : Peer) : option PeerId :=
  match p with
  | ConnectedPeer peer_id => Some peer_id
  | NotConnectedPeer _ => None
  | UnknownPeer _ => None
  end.

Definition peers (ord : Order) (s : PeersState) : list PeerId := map fst (ord_nodes ord (nodes s)).

Definition connected_peers (ord : Order) (s : PeersState) : list PeerId :=
  map fst (filter (λ p, is_connected (connection_state p.2)) (ord_nodes ord (nodes s))).

(** Known, and not connected. *)
Definition is_not_connected (s : PeersState) (id : PeerId) : bool :=
  match nodes s !! id with
  | None => false
  | Some node => negb (is_connected (connection_state node))
  end.

Definition priority_not_connected_peer (ord : Order) (s : PeersState) : option PeerId :=
  find (is_not_connected s)
    (flat_map (ord_set ord) (map snd (ord_groups ord (priority_nodes s)))).

Definition priority_not_connected_peer_from_group (ord : Order) (s : PeersState)
    (group_id : string) : option PeerId :=
  group ← priority_nodes s !! group_id;
  find (is_not_connected s) (ord_set ord group).

Definition highest_not_connected_peer (ord : Order) (s : PeersState) : option PeerId :=
  fst <$>
  fold_left
    (λ cur_node to_try,
       match cur_node with
       | Some cur =>
           if reputation to_try.2 <=? reputation cur.2 then Some cur else Some to_try
       | None => Some to_try
       end)
    (filter (λ p, negb (is_connected (connection_state p.2))) (ord_nodes ord (nodes s)))
    (None : option (PeerId * Node)).

Definition is_priority (ord : Order) (s : PeersState) (peer_id : PeerId) : bool :=
  existsb (λ g, bool_decide (peer_id ∈ g.2)) (ord_groups ord (priority_nodes s)).

Definition disconnect (ord : Order) (now : Z) (s : PeersState) (peer_id : PeerId) : PeersState :=
  match nodes s !! peer_id with
  | None => s
  | Some node =>
      let s1 :=
        if is_priority ord s peer_id then s
        else match connection_state node with
             | In => with_nums s (num_in s +[32] (-1)) (num_out s)
             | Out => with_nums s (num_in s) (num_out s +[32] (-1))
             | NotConnected _ => s
             end in
      with_nodes s1 (<[peer_id := MkNode (NotConnected now) (reputation node)]> (nodes s1))
  end.

Definition try_outgoing (ord : Order) (s : PeersState) (peer_id : PeerId) : PeersState * bool :=
  let priority := is_priority ord s peer_id in
  if negb priority && priority_only s then (s, false)
  else if (max_out s <=? num_out s) && negb priority then (s, false)
  else
    match nodes s !! peer_id with
    | None => (s, false)
    | Some node =>
        let s1 := with_nodes s (<[peer_id := MkNode Out (reputation node)]> (nodes s)) in
        (if priority then s1 else with_nums s1 (num_in s1) (num_out s1 +[32] 1), true)
    end.

Definition try_accept_incoming (ord : Order) (s : PeersState) (peer_id : PeerId) :
    PeersState * bool :=
  let priority := is_priority ord s peer_id in
  if negb priority && priority_only s then (s, false)
  else if (max_in s <=? num_in s) && negb priority then (s, false)
  else
    match nodes s !! peer_id with
    | None => (s, false)
    | Some node =>
        let s1 := with_nodes s (<[peer_id := MkNode In (reputation node)]> (nodes s)) in
        (if priority then s1 else with_nums s1 (num_in s1 +[32] 1) (num_out s1), true)
    end.

(** [match peer.connection_state { In => num_in += d, Out => num_out += d, .. }] *)
Definition count_slot (d : Z) (c : ConnectionState) (s : PeersState) : PeersState :=
  match c with
  | In => with_nums s (num_in s +[32] d) (num_out s)
  | Out => with_nums s (num_in s) (num_out s +[32] d)
  | NotConnected _ => s
  end.

Definition leave_priority (others : gset PeerId) (s : PeersState) (id : PeerId) : PeersState :=
  if decide (id ∈ others) then s
  else match nodes s !! id with
       | None => s
       | Some p => count_slot 1 (connection_state p) s
       end.

(** [self.nodes.entry(id).or_default()] *)
Definition entry_or_default (now : Z) (s : PeersState) (id : PeerId) : PeersState * Node :=
  match nodes s !! id with
  | Some p => (s, p)
  | None => (with_nodes s (<[id := node_default now]> (nodes s)), node_default now)
  end.

Definition enter_priority (stamp : PeerId → Z) (others : gset PeerId) (s : PeersState)
    (id : PeerId) : PeersState :=
  if decide (id ∈ others) then s
  else let '(s1, p) := entry_or_default (stamp id) s id in
       count_slot (-1) (connection_state p) s1.

Definition with_groups (s : PeersState) (g : gmap string (gset PeerId)) : PeersState :=
  MkPeersState (nodes s) (num_in s) (num_out s) (max_in s) (max_out s) g (priority_only s).

(** The members of all the groups but one. *)
Definition other_groups (ord : Order) (s : PeersState) (group_id : string) : gset PeerId :=
  list_to_set
    (flat_map (λ g, ord_set ord g.2)
       (filter (λ g, g.1 ≠ group_id) (ord_groups ord (priority_nodes s)))).

Definition set_priority_group (ord : Order) (stamp : PeerId → Z) (s : PeersState)
    (group_id : string) (ps : gset PeerId) : PeersState :=
  let all_other_groups := other_groups ord s group_id in
  let existing_group := default ∅ (priority_nodes s !! group_id) in
  let s0 := with_groups s (delete group_id (priority_nodes s)) in
  let s1 := fold_left (leave_priority all_other_groups) (ord_set ord existing_group) s0 in
  let s2 := fold_left (enter_priority stamp all_other_groups) (ord_set ord ps) s1 in
  with_groups s2 (<[group_id := ps]> (priority_nodes s2)).

Definition get_priority_group (s : PeersState) (group_id : string) : option (gset PeerId) :=
  priority_nodes s !! group_id.

Definition add_to_priority_group (ord : Order) (stamp : PeerId → Z) (s : PeersState)
    (group_id : string) (peer_id : PeerId) : PeersState :=
  let ps := default ∅ (priority_nodes s !! group_id) in
  set_priority_group ord stamp s group_id ({[peer_id]} ∪ ps).

Definition remove_from_priority_group (ord : Order) (stamp : PeerId → Z) (s : PeersState)
    (group_id : string) (peer_id : PeerId) : PeersState :=
  let ps := default ∅ (priority_nodes s !! group_id) in
  set_priority_group ord stamp s group_id (ps ∖ {[peer_id]}).

Definition set_priority_only (s : PeersState) (priority : bool) : PeersState :=
  MkPeersState (nodes s) (num_in s) (num_out s) (max_in s) (max_out s) (priority_nodes s) priority.

Definition get_reputation (s : PeersState) (peer_id : PeerId) : Z :=
  match nodes s !! peer_id with
  | None => 0
  | Some p => reputation p
  end.

Definition set_reputation (now : Z) (s : PeersState) (peer_id : PeerId) (value : Z) : PeersState :=
  let '(s1, node) := entry_or_default now s peer_id in
  with_nodes s1 (<[peer_id := MkNode (connection_state node) value]> (nodes s1)).

Definition add_reputation (now : Z) (s : PeersState) (peer_id : PeerId) (modifier : Z) :
    PeersState :=
  let '(s1, node) := entry_or_default now s peer_id in
  with_nodes s1
    (<[peer_id := MkNode (connection_state node) (saturate (reputation node + modifier))]> (nodes s1)).

Definition bump_last_connected_or_discovered (now : Z) (s : PeersState) (peer_id : PeerId) :
    PeersState :=
  match nodes s !! peer_id with
  | Some (MkNode (NotConnected _) r) =>
      with_nodes s (<[peer_id := MkNode (NotConnected now) r]> (nodes s))
  | _ => s
  end.

Definition last_connected_or_discovered (now : Z) (s : PeersState) (peer_id : PeerId) : Z :=
  match nodes s !! peer_id with
  | Some (MkNode (NotConnected last_connected) _) => last_connected
  | _ => now
  end.

Definition forget_peer (s : PeersState) (peer_id : PeerId) : PeersState :=
  with_nodes s (delete peer_id (nodes s)).

Definition discover (now : Z) (s : PeersState) (peer_id : PeerId) : PeersState :=
  with_nodes s (<[peer_id := MkNode (NotConnected now) 0]> (nodes s)).

(** ** Slots *)

(** Members of the priority groups. *)
Definition members (groups : gmap string (gset PeerId)) : gset PeerId :=
  ⋃ (map snd (map_to_list groups)).

Definition uses_in (c : ConnectionState) : Z :=
  match c with In => 1 | _ => 0 end.
Definition uses_out (c : ConnectionState) : Z :=
  match c with Out => 1 | _ => 0 end.

Definition slot (u : ConnectionState → Z) (pr : gset PeerId) (id : PeerId) (n : Node) : Z :=
  if decide (id ∈ pr) then 0 else u (connection_state n).

(** Slots used by the nodes outside of [pr]. *)
Definition count (u : ConnectionState → Z) (pr : gset PeerId) (ns : gmap PeerId Node) : Z :=
  map_fold (λ id n acc, slot u pr id n + acc) 0 ns.

(** The counters are right (on 32 bits). *)
Definition slots_ok (s : PeersState) : Prop :=
  num_in s = wrap 32 (count uses_in (members (priority_nodes s)) (nodes s)) ∧
  num_out s = wrap 32 (count uses_out (members (priority_nodes s)) (nodes s)).

Lemma elem_of_members groups id :
  id ∈ members groups ↔ ∃ g ps, groups !! g = Some ps ∧ id ∈ ps.
Proof.
  unfold members. rewrite elem_of_union_list. split.
  - intros (ps&Hps&Hid). apply list_elem_of_In, in_map_iff in Hps as ([g ps']&Heq&Hin).
    simpl in Heq. subst ps'. apply list_elem_of_In, elem_of_map_to_list in Hin. eauto.
  - intros (g&ps&Hg&Hid). exists ps. split; [|done]. apply list_elem_of_In, in_map_iff.
    exists (g, ps). split; [done|]. by apply list_elem_of_In, elem_of_map_to_list.
Qed.

Lemma members_insert groups g ps :
  members (<[g := ps]> groups) = ps ∪ members (delete g groups).
Proof.
  apply set_eq. intros id. rewrite elem_of_union, !elem_of_members. split.
  - intros (g'&ps'&Hg'&Hid). destruct (decide (g = g')) as [<-|Hne].
    + rewrite lookup_insert_eq in Hg'. left. congruence.
    + rewrite lookup_insert_ne in Hg' by done. right. exists g', ps'.
      by rewrite lookup_delete_ne.
  - intros [Hid|(g'&ps'&Hg'&Hid)].
    + exists g, ps. by rewrite lookup_insert_eq.
    + apply lookup_delete_Some in Hg' as [Hne Hg']. exists g', ps'. by rewrite lookup_insert_ne.
Qed.

Lemma members_delete groups g :
  members groups = default ∅ (groups !! g) ∪ members (delete g groups).
Proof.
  destruct (groups !! g) as [ps|] eqn:Hg; simpl.
  - rewrite <- members_insert. by rewrite insert_id.
  - rewrite delete_id by done. by rewrite union_empty_l_L.
Qed.

Lemma count_insert u pr ns id n :
  ns !! id = None → count u pr (<[id := n]> ns) = slot u pr id n + count u pr ns.
Proof. intros Hid. unfold count. rewrite map_fold_insert_L; [done| |done]. intros. lia. Qed.

Lemma count_delete u pr ns id n :
  ns !! id = Some n → count u pr ns = slot u pr id n + count u pr (delete id ns).
Proof.
  intros Hid. rewrite <- (insert_delete_id ns id n Hid) at 1.
  apply count_insert, lookup_delete_eq.
Qed.

Lemma count_update u pr ns id n n' :
  ns !! id = Some n →
  count u pr (<[id := n']> ns) = count u pr ns - slot u pr id n + slot u pr id n'.
Proof.
  intros Hid. rewrite <- insert_delete_eq, count_insert by apply lookup_delete_eq.
  rewrite (count_delete u pr ns id n) by done. lia.
Qed.

Lemma count_ext u pr pr' ns :
  (∀ id n, ns !! id = Some n → slot u pr id n = slot u pr' id n) →
  count u pr ns = count u pr' ns.
Proof.
  unfold count. induction ns as [|id n ns Hid IH] using map_ind; intros Heq; [done|].
  rewrite !map_fold_insert_L by (done || (intros; lia)).
  rewrite (Heq id n) by apply lookup_insert_eq. f_equal. apply IH. intros id' n' Hid'.
  apply Heq. rewrite lookup_insert_ne; [done|]. intros ->. congruence.
Qed.

(** What one node adds to the count when it is not a priority node. *)
Definition node_uses (u : ConnectionState → Z) (ns : gmap PeerId Node) (id : PeerId) : Z :=
  match ns !! id with
  | Some n => u (connection_state n)
  | None => 0
  end.

Lemma count_prio u pr ns id :
  id ∉ pr → count u pr ns = count u ({[id]} ∪ pr) ns + node_uses u ns id.
Proof.
  intros Hid. unfold node_uses.
  assert (count u pr (delete id ns) = count u ({[id]} ∪ pr) (delete id ns)) as Hrest.
  { apply count_ext. intros id' n' [Hne _]%lookup_delete_Some. unfold slot.
    apply decide_ext. set_solver. }
  destruct (ns !! id) as [n|] eqn:Hn.
  - rewrite !(count_delete _ _ ns id n) by done. rewrite Hrest. unfold slot.
    rewrite decide_False, decide_True by set_solver. lia.
  - rewrite delete_id in Hrest by done. lia.
Qed.

Lemma wrap_add w a b : wrap w (wrap w a + b) = wrap w (a + b).
Proof. unfold wrap. apply Zplus_mod_idemp_l. Qed.

Section ordered.
Context (ord : Order) `{!OrderLaws ord}.

Lemma is_priority_ok s id : is_priority ord s id = bool_decide (id ∈ members (priority_nodes s)).
Proof.
  unfold is_priority. apply eq_true_iff_eq. rewrite existsb_exists, bool_decide_eq_true.
  rewrite elem_of_members. split.
  - intros ([g ps]&Hin&Hid%bool_decide_eq_true). exists g, ps.
    apply list_elem_of_In in Hin. rewrite ord_groups_perm in Hin. by apply elem_of_map_to_list in Hin.
  - intros (g&ps&Hg&Hid). exists (g, ps). rewrite bool_decide_eq_true. split; [|done].
    apply list_elem_of_In. rewrite ord_groups_perm. by apply elem_of_map_to_list.
Qed.

Lemma other_groups_ok s g : other_groups ord s g = members (delete g (priority_nodes s)).
Proof.
  apply set_eq. intros id. unfold other_groups. rewrite elem_of_list_to_set, elem_of_members.
  rewrite list_elem_of_In, in_flat_map. split.
  - intros ([g' ps]&Hin&Hid). apply list_elem_of_In, list_elem_of_filter in Hin as [Hne Hin].
    rewrite ord_groups_perm in Hin. apply elem_of_map_to_list in Hin.
    apply list_elem_of_In in Hid. rewrite ord_set_perm, elem_of_elements in Hid.
    exists g', ps. by rewrite lookup_delete_ne.
  - intros (g'&ps&[Hne Hg]%lookup_delete_Some&Hid). exists (g', ps). split.
    + apply list_elem_of_In, list_elem_of_filter. split; [by apply not_eq_sym|].
      rewrite ord_groups_perm. by apply elem_of_map_to_list.
    + apply list_elem_of_In. by rewrite ord_set_perm, elem_of_elements.
Qed.

(** The counters are right when the nodes of [pr] have priority. *)
Definition counts (pr : gset PeerId) (s : PeersState) : Prop :=
  num_in s = wrap 32 (count uses_in pr (nodes s)) ∧
  num_out s = wrap 32 (count uses_out pr (nodes s)).

(** Same configuration: what operations on nodes leave alone. *)
Definition same_config (s s' : PeersState) : Prop :=
  max_in s' = max_in s ∧ max_out s' = max_out s ∧
  priority_nodes s' = priority_nodes s ∧ priority_only s' = priority_only s.

Lemma same_config_refl s : same_config s s.
Proof. done. Qed.

Lemma same_config_trans s1 s2 s3 : same_config s1 s2 → same_config s2 s3 → same_config s1 s3.
Proof. unfold same_config. intuition congruence. Qed.

Lemma counts_update pr s s' id n n' :
  counts pr s → nodes s !! id = Some n → nodes s' = <[id := n']> (nodes s) →
  num_in s' = wrap 32 (num_in s + (slot uses_in pr id n' - slot uses_in pr id n)) →
  num_out s' = wrap 32 (num_out s + (slot uses_out pr id n' - slot uses_out pr id n)) →
  counts pr s'.
Proof.
  intros [Hi Ho] Hn Hns Hin Hout. split; [rewrite Hin, Hi|rewrite Hout, Ho];
    rewrite wrap_add, Hns, (count_update _ _ _ _ n) by done; f_equal; lia.
Qed.

Lemma counts_same pr s s' id n n' :
  counts pr s → nodes s !! id = Some n → nodes s' = <[id := n']> (nodes s) →
  num_in s' = num_in s → num_out s' = num_out s →
  slot uses_in pr id n' = slot uses_in pr id n → slot uses_out pr id n' = slot uses_out pr id n →
  counts pr s'.
Proof.
  intros Hc Hn Hns Hin Hout H1 H2. eapply counts_update; [done..| |].
  - rewrite Hin, H1, (proj1 Hc), wrap_add. f_equal. lia.
  - rewrite Hout, H2, (proj2 Hc), wrap_add. f_equal. lia.
Qed.

Lemma counts_new pr s s' id now r :
  counts pr s → nodes s !! id = None → nodes s' = <[id := MkNode (NotConnected now) r]> (nodes s) →
  num_in s' = num_in s → num_out s' = num_out s → counts pr s'.
Proof.
  intros [Hi Ho] Hn Hns Hin Hout.
  split; [rewrite Hin, Hi|rewrite Hout, Ho]; rewrite Hns, count_insert by done;
    unfold slot; f_equal; destruct (decide _); simpl; lia.
Qed.

Lemma counts_forget pr s id n :
  counts pr s → nodes s !! id = Some n → is_connected (connection_state n) = false →
  counts pr (forget_peer s id).
Proof.
  intros [Hi Ho] Hn Hc. unfold forget_peer, with_nodes, counts. cbn.
  rewrite Hi, Ho, !(count_delete _ pr (nodes s) id n) by done.
  unfold slot. destruct n as [[] r]; try done. simpl.
  split; f_equal; destruct (decide _); lia.
Qed.

Lemma count_slot_counts pr pr' d c s :
  num_in s = wrap 32 (count uses_in pr (nodes s)) →
  num_out s = wrap 32 (count uses_out pr (nodes s)) →
  (∀ u, u = uses_in ∨ u = uses_out → count u pr' (nodes s) = count u pr (nodes s) + d * u c) →
  counts pr' (count_slot d c s).
Proof.
  intros Hi Ho Hu. pose proof (Hu uses_in ltac:(auto)) as Hui.
  pose proof (Hu uses_out ltac:(auto)) as Huo.
  destruct c; unfold count_slot, counts; cbn; rewrite ?Hi, ?Ho, ?wrap_add, ?Hui, ?Huo;
    cbn; rewrite ?Z.mul_0_r, ?Z.mul_1_r, ?Z.add_0_r; done.
Qed.

Lemma leave_priority_ok others L s id :
  id ∉ L → counts (others ∪ ({[id]} ∪ L)) s →
  counts (others ∪ L) (leave_priority others s id) ∧
  nodes (leave_priority others s id) = nodes s ∧ same_config s (leave_priority others s id).
Proof.
  intros HL [Hi Ho]. unfold leave_priority. case_decide as Hid.
  { replace (others ∪ ({[id]} ∪ L)) with (others ∪ L) in * by set_solver. done. }
  assert (∀ u, count u (others ∪ L) (nodes s) =
    count u (others ∪ ({[id]} ∪ L)) (nodes s) + node_uses u (nodes s) id) as Hu.
  { intros u. rewrite (count_prio u (others ∪ L) (nodes s) id) by set_solver. do 2 f_equal. set_solver. }
  unfold node_uses in Hu. destruct (nodes s !! id) as [n|].
  - split; [|by destruct (connection_state n)]. eapply count_slot_counts; [done..|].
    intros u _. rewrite Hu. lia.
  - split; [|done]. split; rewrite ?Hi, ?Ho, Hu; f_equal; lia.
Qed.

Lemma leave_all_ok others l s :
  NoDup l → counts (others ∪ list_to_set l) s →
  let s' := fold_left (leave_priority others) l s in
  counts others s' ∧ nodes s' = nodes s ∧ same_config s s'.
Proof.
  revert s. induction l as [|id l IH]; intros s Hnd Hc; simpl in *.
  - by rewrite union_empty_r_L in Hc.
  - apply NoDup_cons in Hnd as [Hid Hnd].
    destruct (leave_priority_ok others (list_to_set l) s id) as (H1&H2&H3);
      [by rewrite elem_of_list_to_set|done|].
    destruct (IH _ Hnd H1) as (H4&H5&H6). split_and!; [done|congruence|].
    by eapply same_config_trans.
Qed.

(** [ns'] knows the nodes of [ns], and new nodes we are not connected to. *)
Definition extends (ns ns' : gmap PeerId Node) : Prop :=
  ∀ id, ns' !! id = ns !! id ∨ ns !! id = None ∧ ∃ t, ns' !! id = Some (node_default t).

Lemma extends_refl ns : extends ns ns.
Proof. by left. Qed.

Lemma extends_trans ns1 ns2 ns3 : extends ns1 ns2 → extends ns2 ns3 → extends ns1 ns3.
Proof.
  intros H1 H2 id. destruct (H1 id) as [E1|(E1&t&E2)], (H2 id) as [E3|(E3&t'&E4)].
  - left. congruence.
  - right. split; [congruence|eauto].
  - right. split; [done|exists t; congruence].
  - congruence.
Qed.

Lemma extends_insert ns id t : ns !! id = None → extends ns (<[id := node_default t]> ns).
Proof.
  intros Hn id'. destruct (decide (id = id')) as [<-|Hne].
  - right. rewrite lookup_insert_eq. eauto.
  - left. by rewrite lookup_insert_ne.
Qed.

Lemma enter_priority_ok stamp others pr s id :
  others ⊆ pr → (id ∉ pr ∨ id ∈ others) → counts pr s →
  let s' := enter_priority stamp others s id in
  counts ({[id]} ∪ pr) s' ∧ extends (nodes s) (nodes s') ∧
  (id ∉ others → is_Some (nodes s' !! id)) ∧ same_config s s'.
Proof.
  intros Hsub Hid [Hi Ho]. cbn zeta. unfold enter_priority. case_decide as Hoth.
  { replace ({[id]} ∪ pr) with pr by set_solver. split_and!; [done|apply extends_refl|done..]. }
  destruct Hid as [Hid|]; [|done]. unfold entry_or_default.
  assert (∀ u ns, count u ({[id]} ∪ pr) ns = count u pr ns + -1 * node_uses u ns id) as Hu.
  { intros u ns. rewrite (count_prio u pr ns id) by done. lia. }
  destruct (nodes s !! id) as [n|] eqn:Hn.
  - split_and!.
    + eapply count_slot_counts; [done..|]. intros u _. rewrite Hu. unfold node_uses. by rewrite Hn.
    + destruct (connection_state n); apply extends_refl.
    + destruct (connection_state n); cbn; by rewrite Hn.
    + by destruct (connection_state n).
  - split_and!; cbn; [| |by rewrite lookup_insert_eq|done].
    + assert (counts pr (with_nodes s (<[id := node_default (stamp id)]> (nodes s)))) as [Hi' Ho'].
      { eapply counts_new; [by split|done..]. }
      split; cbn in *; rewrite ?Hi', ?Ho', Hu; f_equal; unfold node_uses;
        rewrite lookup_insert_eq; cbn; lia.
    + by apply extends_insert.
Qed.

Lemma enter_all_ok stamp others l pr s :
  others ⊆ pr → NoDup l → (∀ id, id ∈ l → id ∉ pr ∨ id ∈ others) → counts pr s →
  let s' := fold_left (enter_priority stamp others) l s in
  counts (pr ∪ list_to_set l) s' ∧ extends (nodes s) (nodes s') ∧
  (∀ id, id ∈ l → id ∉ others → is_Some (nodes s' !! id)) ∧ same_config s s'.
Proof.
  revert pr s. induction l as [|id l IH]; intros pr s Hsub Hnd Hl Hc; simpl.
  - rewrite union_empty_r_L. split_and!; [done|apply extends_refl|by intros ? ?%not_elem_of_nil|done].
  - apply NoDup_cons in Hnd as [Hid Hnd].
    destruct (enter_priority_ok stamp others pr s id Hsub) as (H1&H2&H3&H4); [apply Hl; by left|done|].
    destruct (IH ({[id]} ∪ pr) (enter_priority stamp others s id)) as (H5&H6&H7&H8);
      [set_solver|done| |done|].
    { intros id' Hid'. destruct (Hl id') as [Hn|]; [by right| |by right]. left.
      intros [->%elem_of_singleton|]%elem_of_union; done. }
    split_and!.
    + by replace (pr ∪ ({[id]} ∪ list_to_set l)) with ({[id]} ∪ pr ∪ list_to_set l) by set_solver.
    + by eapply extends_trans.
    + intros id' [->|Hid']%elem_of_cons Hno; [|auto]. specialize (H3 Hno).
      destruct (H6 id) as [->|(Hn&t&Ht)]; [done|by rewrite Ht].
    + by eapply same_config_trans.
Qed.

Lemma set_priority_group_ok stamp s g ps :
  slots_ok s →
  let s' := set_priority_group ord stamp s g ps in
  slots_ok s' ∧ extends (nodes s) (nodes s') ∧
  priority_nodes s' = <[g := ps]> (priority_nodes s) ∧
  max_in s' = max_in s ∧ max_out s' = max_out s ∧ priority_only s' = priority_only s ∧
  (∀ id, id ∈ ps → id ∉ members (delete g (priority_nodes s)) → is_Some (nodes s' !! id)).
Proof using OrderLaws0.
  intros Hs. cbn zeta. unfold set_priority_group. rewrite other_groups_ok.
  set (others := members (delete g (priority_nodes s))).
  set (old := default ∅ (priority_nodes s !! g)).
  assert (NoDup (ord_set ord old)) as Hnd1 by (rewrite ord_set_perm; apply NoDup_elements).
  assert (NoDup (ord_set ord ps)) as Hnd2 by (rewrite ord_set_perm; apply NoDup_elements).
  assert (∀ X : gset PeerId, list_to_set (ord_set ord X) = X) as Hset.
  { intros X. apply set_eq. intros id. by rewrite elem_of_list_to_set, ord_set_perm, elem_of_elements. }
  destruct (leave_all_ok others (ord_set ord old)
    (with_groups s (delete g (priority_nodes s)))) as (H1&H2&H3); [done| |].
  { rewrite Hset, union_comm_L. unfold others, old. rewrite <- members_delete. apply Hs. }
  set (s1 := fold_left _ _ _) in *.
  destruct (enter_all_ok stamp others (ord_set ord ps) others s1) as (H4&H5&H6&H7);
    [done|done| |done|].
  { intros id _. destruct (decide (id ∈ others)); auto. }
  set (s2 := fold_left _ _ s1) in *. rewrite Hset in H4.
  destruct (same_config_trans _ _ _ H3 H7) as (E1&E2&E3&E4). cbn in *.
  unfold slots_ok. cbn. rewrite E3, insert_delete_eq. split_and!.
  - rewrite members_insert. fold others. rewrite union_comm_L. apply H4.
  - rewrite members_insert. fold others. rewrite union_comm_L. apply H4.
  - by rewrite <- H2.
  - done.
  - done.
  - done.
  - done.
  - intros id Hid. apply H6. by rewrite ord_set_perm, elem_of_elements.
Qed.

Lemma alter_known (f : Node → Node) (ns : gmap PeerId Node) id n :
  ns !! id = Some n → alter f id ns = <[id := f n]> ns.
Proof.
  intros Hn. apply map_eq. intros id'. rewrite lookup_alter, lookup_insert.
  case_decide; [subst; by rewrite Hn|done].
Qed.

Lemma slots_counts s : slots_ok s ↔ counts (members (priority_nodes s)) s.
Proof. done. Qed.

Lemma disconnect_ok now s id :
  slots_ok s →
  let s' := disconnect ord now s id in
  slots_ok s' ∧ same_config s s' ∧
  nodes s' = alter (λ n, MkNode (NotConnected now) (reputation n)) id (nodes s).
Proof using OrderLaws0.
  intros Hs. cbn zeta. unfold disconnect. destruct (nodes s !! id) as [n|] eqn:Hn.
  - rewrite is_priority_ok. set (s1 := if bool_decide _ then _ else _).
    assert (nodes s1 = nodes s ∧ same_config s s1 ∧
      num_in s1 = wrap 32 (num_in s + - slot uses_in (members (priority_nodes s)) id n) ∧
      num_out s1 = wrap 32 (num_out s + - slot uses_out (members (priority_nodes s)) id n))
      as (E1&E2&E3&E4).
    { destruct Hs as [Hi Ho].
      unfold s1, slot. case_bool_decide as Hp; [rewrite !decide_True by done|rewrite !decide_False by done].
      - split_and!; [done..| |]; rewrite ?Hi, ?Ho, wrap_add; f_equal; lia.
      - destruct (connection_state n); cbn; split_and!; try done;
          rewrite ?Hi, ?Ho, wrap_add; f_equal; lia. }
    split_and!.
    + rewrite slots_counts. cbn. destruct E2 as (_&_&E5&_). rewrite E5.
      eapply (counts_update _ s _ id n); [done|done|cbn; by rewrite E1|cbn; rewrite E3|cbn; rewrite E4];
        f_equal; f_equal; unfold slot; case_decide; cbn; lia.
    + done.
    + cbn. rewrite E1. by rewrite (alter_known _ _ _ n).
  - split_and!; [done..|]. apply map_eq. intros id'. rewrite lookup_alter.
    case_decide; [subst; by rewrite Hn|done].
Qed.

(** Common part of the two ways to connect. *)
Lemma connect_ok s s' id n c :
  slots_ok s → nodes s !! id = Some n → is_connected (connection_state n) = false →
  nodes s' = <[id := MkNode c (reputation n)]> (nodes s) → same_config s s' →
  (if decide (id ∈ members (priority_nodes s)) then num_in s' = num_in s ∧ num_out s' = num_out s
   else num_in s' = wrap 32 (num_in s + uses_in c) ∧ num_out s' = wrap 32 (num_out s + uses_out c)) →
  slots_ok s'.
Proof.
  intros [Hi Ho] Hn Hc Hns (_&_&Hg&_) Hnum. rewrite slots_counts, Hg.
  destruct n as [[| |t] r]; try done.
  eapply (counts_update _ s _ id); [done..| |]; unfold slot;
    case_decide; destruct Hnum as [Hni Hno]; rewrite ?Hni, ?Hno; cbn;
    rewrite ?Hi, ?Ho, ?wrap_add; f_equal; lia.
Qed.

(** [true] when the node is connected, [false] and no change when it cannot be:
    it is unknown, or a non-priority node without a free slot or in priority-only
    mode. *)
Lemma try_outgoing_ok s id :
  slots_ok s → is_not_connected s id = true →
  let '(s', ok) := try_outgoing ord s id in
  slots_ok s' ∧ same_config s s' ∧
  (if ok then
     nodes s' = alter (λ n, MkNode Out (reputation n)) id (nodes s) ∧
     (id ∉ members (priority_nodes s) → priority_only s = false ∧ num_out s < max_out s)
   else s' = s ∧ (id ∉ members (priority_nodes s)) ∧
     (priority_only s = true ∨ max_out s ≤ num_out s)).
Proof using OrderLaws0.
  intros Hs Hid. unfold try_outgoing. rewrite is_priority_ok. unfold is_not_connected in Hid.
  destruct (nodes s !! id) as [n|] eqn:Hn; [|done]. apply negb_true_iff in Hid.
  assert (<[id := MkNode Out (reputation n)]> (nodes s) =
    alter (λ n, MkNode Out (reputation n)) id (nodes s)) as Halter
    by (by rewrite (alter_known _ _ _ n)).
  case_bool_decide as Hp; cbn [negb andb].
  - rewrite andb_false_r. split_and!; [|done|by rewrite <- Halter|done].
    eapply (connect_ok s _ id n Out); [done..|by rewrite decide_True].
  - destruct (priority_only s) eqn:Hpo; [split_and!; auto using same_config_refl|].
    rewrite andb_true_r. destruct (Z.leb_spec (max_out s) (num_out s));
      [split_and!; auto using same_config_refl|].
    split_and!; [|done|by rewrite <- Halter|done].
    eapply (connect_ok s _ id n Out); [done..|rewrite decide_False by done].
    split; [|done]. cbn. rewrite Z.add_0_r, (proj1 Hs). symmetry. apply Zmod_mod.
Qed.

Lemma try_accept_incoming_ok s id :
  slots_ok s → is_not_connected s id = true →
  let '(s', ok) := try_accept_incoming ord s id in
  slots_ok s' ∧ same_config s s' ∧
  (if ok then
     nodes s' = alter (λ n, MkNode In (reputation n)) id (nodes s) ∧
     (id ∉ members (priority_nodes s) → priority_only s = false ∧ num_in s < max_in s)
   else s' = s ∧ (id ∉ members (priority_nodes s)) ∧
     (priority_only s = true ∨ max_in s ≤ num_in s)).
Proof using OrderLaws0.
  intros Hs Hid. unfold try_accept_incoming. rewrite is_priority_ok. unfold is_not_connected in Hid.
  destruct (nodes s !! id) as [n|] eqn:Hn; [|done]. apply negb_true_iff in Hid.
  assert (<[id := MkNode In (reputation n)]> (nodes s) =
    alter (λ n, MkNode In (reputation n)) id (nodes s)) as Halter
    by (by rewrite (alter_known _ _ _ n)).
  case_bool_decide as Hp; cbn [negb andb].
  - rewrite andb_false_r. split_and!; [|done|by rewrite <- Halter|done].
    eapply (connect_ok s _ id n In); [done..|by rewrite decide_True].
  - destruct (priority_only s) eqn:Hpo; [split_and!; auto using same_config_refl|].
    rewrite andb_true_r. destruct (Z.leb_spec (max_in s) (num_in s));
      [split_and!; auto using same_config_refl|].
    split_and!; [|done|by rewrite <- Halter|done].
    eapply (connect_ok s _ id n In); [done..|rewrite decide_False by done].
    split; [done|]. cbn. rewrite Z.add_0_r, (proj2 Hs). symmetry. apply Zmod_mod.
Qed.

(** *** Selection of peers *)

Lemma is_not_connected_spec s id :
  is_not_connected s id = true ↔
  ∃ n, nodes s !! id = Some n ∧ is_connected (connection_state n) = false.
Proof.
  unfold is_not_connected. destruct (nodes s !! id) as [n|]; [|naive_solver].
  rewrite negb_true_iff. naive_solver.
Qed.

Lemma find_spec {T} (p : T → bool) l :
  match find p l with
  | Some x => x ∈ l ∧ p x = true
  | None => ∀ x, x ∈ l → p x = false
  end.
Proof.
  destruct (find p l) as [x|] eqn:Hf.
  - apply find_some in Hf. by rewrite list_elem_of_In.
  - intros x Hx%list_elem_of_In. by eapply find_none.
Qed.

Lemma priority_not_connected_ok s :
  match priority_not_connected_peer ord s with
  | Some id => id ∈ members (priority_nodes s) ∧ is_not_connected s id = true
  | None => ∀ id, id ∈ members (priority_nodes s) → is_not_connected s id = false
  end.
Proof using OrderLaws0.
  unfold priority_not_connected_peer.
  assert (∀ id, id ∈ flat_map (ord_set ord) (map snd (ord_groups ord (priority_nodes s))) ↔
    id ∈ members (priority_nodes s)) as Hm.
  { intros id. rewrite list_elem_of_In, in_flat_map, elem_of_members. split.
    - intros (ps&Hps&Hid). apply in_map_iff in Hps as ([g ps']&<-&Hin).
      apply list_elem_of_In in Hin, Hid. rewrite ord_groups_perm in Hin.
      rewrite ord_set_perm, elem_of_elements in Hid. apply elem_of_map_to_list in Hin. eauto.
    - intros (g&ps&Hg&Hid). exists ps. rewrite in_map_iff. split.
      + exists (g, ps). split; [done|]. apply list_elem_of_In. rewrite ord_groups_perm.
        by apply elem_of_map_to_list.
      + apply list_elem_of_In. by rewrite ord_set_perm, elem_of_elements. }
  pose proof (find_spec (is_not_connected s)
    (flat_map (ord_set ord) (map snd (ord_groups ord (priority_nodes s))))) as Hf.
  destruct (find _ _) as [id|]; [by rewrite <- Hm|]. intros id Hid. by apply Hf, Hm.
Qed.

Lemma group_not_connected_ok s g :
  match priority_not_connected_peer_from_group ord s g with
  | Some id => id ∈ default ∅ (priority_nodes s !! g) ∧ is_not_connected s id = true
  | None => ∀ id, id ∈ default ∅ (priority_nodes s !! g) → is_not_connected s id = false
  end.
Proof using OrderLaws0.
  unfold priority_not_connected_peer_from_group.
  destruct (priority_nodes s !! g) as [ps|]; simpl; [|set_solver].
  pose proof (find_spec (is_not_connected s) (ord_set ord ps)) as Hf.
  destruct (find _ _) as [id|].
  - by rewrite ord_set_perm, elem_of_elements in Hf.
  - intros id Hid. apply Hf. by rewrite ord_set_perm, elem_of_elements.
Qed.

Abbreviation better := (λ (cur_node : option (PeerId * Node)) to_try,
  match cur_node with
  | Some cur => if reputation to_try.2 <=? reputation cur.2 then Some cur else Some to_try
  | None => Some to_try
  end).

Lemma fold_better_ok l cur :
  match fold_left better l cur with
  | Some x => (x ∈ l ∨ cur = Some x) ∧
      (∀ y, y ∈ l ∨ cur = Some y → reputation y.2 ≤ reputation x.2)
  | None => l = [] ∧ cur = None
  end.
Proof.
  revert cur. induction l as [|z l IH]; intros cur; simpl.
  - destruct cur as [x|]; [|done]. split; [by right|].
    intros y [?%not_elem_of_nil|[= ->]]; [done|lia].
  - specialize (IH (better cur z)). destruct (fold_left better l (better cur z)) as [x|].
    + destruct IH as [Hx Hmax]. split.
      * destruct Hx as [Hx|Hx]; [left; by right|].
        destruct cur as [c|]; [|simplify_eq; left; by left].
        destruct (reputation z.2 <=? reputation c.2); simplify_eq; [by right|left; by left].
      * assert (∀ y, better cur z = Some y → reputation y.2 ≤ reputation x.2) as Hb by eauto.
        intros y [[->|Hy]%elem_of_cons|Hy]; [|by apply Hmax; left|]; simplify_eq.
        -- destruct cur as [c|]; [|by apply Hb]. revert Hb.
           destruct (Z.leb_spec (reputation z.2) (reputation c.2)); intros Hb; [|by apply Hb].
           etrans; [done|]. by apply Hb.
        -- revert Hb. destruct (Z.leb_spec (reputation z.2) (reputation y.2)); intros Hb; [by apply Hb|].
           specialize (Hb z eq_refl). lia.
    + destruct IH as [_ IH]. destruct cur as [c|]; [|done]. by destruct (_ <=? _).
Qed.

Lemma highest_ok s :
  match highest_not_connected_peer ord s with
  | Some id => is_not_connected s id = true ∧
      ∀ id', is_not_connected s id' = true → get_reputation s id' ≤ get_reputation s id
  | None => ∀ id, is_not_connected s id = false
  end.
Proof using OrderLaws0.
  unfold highest_not_connected_peer. set (l := filter _ _).
  assert (∀ id n, (id, n) ∈ l ↔ nodes s !! id = Some n ∧ is_connected (connection_state n) = false)
    as Hl.
  { intros id n. unfold l. rewrite list_elem_of_filter, ord_nodes_perm, elem_of_map_to_list. cbn.
    rewrite Is_true_true, negb_true_iff. tauto. }
  pose proof (fold_better_ok l None) as Hf. destruct (fold_left _ l None) as [[id n]|]; simpl.
  - destruct Hf as [[Hin|] Hmax]; [|done]. apply Hl in Hin as [Hn Hc]. split.
    + apply is_not_connected_spec. eauto.
    + intros id' (n'&Hn'&Hc')%is_not_connected_spec. unfold get_reputation. rewrite Hn, Hn'.
      apply (Hmax (id', n')). left. by apply Hl.
  - destruct Hf as [Hl' _]. intros id. apply not_true_iff_false.
    intros (n&Hn)%is_not_connected_spec. apply Hl in Hn. rewrite Hl' in Hn.
    by apply not_elem_of_nil in Hn.
Qed.
End ordered.
End peersstate.

Arguments PeersState PeerId {_ _}.
Arguments Order PeerId {_ _}.
Arguments Peer : clear implicits.
