(* ===== verification/Peerset.v ===== *)
(** * Peer set manager (src/client/peerset/src/lib.rs)

    The strategy that decides which nodes the network should be connected to.
    Handlers return [Panic] where the code would unwind, and also where a loop
    would run out of fuel; the theorems exclude both. *)
From stdpp Require Import strings.
From S2P Require Import Prelude PeersState.

Local Open Scope Z_scope.

Definition BANNED_THRESHOLD : Z := 82 * Z.quot (- 2 ^ 31) 100.
Definition DISCONNECT_REPUTATION_CHANGE : Z := -256.
Definition RESERVED_NODES : string := "reserved".
(** 3600 seconds, in nanoseconds. *)
Definition FORGET_AFTER : Z := 3600 * 10 ^ 9.

Record ReputationChange : Type := MkReputationChange {
  value : Z;
  reason : string;
}.

Definition new_fatal (r : string) : ReputationChange := MkReputationChange (- 2 ^ 31) r.

(** [Duration::as_secs] *)
Definition as_secs (d : Z) : Z := d / 10 ^ 9.

(** One second of fading of a reputation. *)
Definition reput_tick (reput : Z) : Z :=
  let diff := Z.quot reput 50 in
  let diff :=
    if (diff =? 0) && (reput <? 0) then -1
    else if (diff =? 0) && (0 <? reput) then 1
    else diff in
  saturate (reput - diff).

Section peerset.
Context {PeerId : Type} `{Countable PeerId}.

Inductive Action : Type :=
| AddReservedPeer (p : PeerId)
| RemoveReservedPeer (p : PeerId)
| SetReservedOnly (b : bool)
| ReportPeer (p : PeerId) (c : ReputationChange)
| SetPriorityGroup (g : string) (ps : gset PeerId)
| AddToPriorityGroup (g : string) (p : PeerId)
| RemoveFromPriorityGroup (g : string) (p : PeerId).

Inductive Message : Type :=
| Connect (p : PeerId)
| Drop (p : PeerId)
| Accept (i : Z)
| Reject (i : Z).

Record PeersetConfig : Type := MkPeersetConfig {
  in_peers : Z;
  out_peers : Z;
  bootnodes : list PeerId;
  cfg_reserved_only : bool;
  reserved_nodes : list PeerId;
}.

Record Peerset : Type := MkPeerset {
  data : PeersState PeerId;
  reserved_only : bool;
  rx : list Action;
  message_queue : list Message;
  created : Z;
  latest_time_update : Z;
}.

(** The iteration order, and the instants a handler reads: [now] in its first
    [update_time], [now'] in the second if there is one, [stamp] when it stamps a
    peer. *)
Record Env : Type := MkEnv {
  ord : Order PeerId;
  now : Z;
  now' : Z;
  stamp : PeerId → Z;
}.

Definition with_data (ps : Peerset) (d : PeersState PeerId) : Peerset :=
  MkPeerset d (reserved_only ps) (rx ps) (message_queue ps) (created ps) (latest_time_update ps).

Definition push_back (ps : Peerset) (m : Message) : Peerset :=
  MkPeerset (data ps) (reserved_only ps) (rx ps) (message_queue ps ++ [m]) (created ps)
    (latest_time_update ps).

(** [self.tx.unbounded_send(action)], from the manager or from a handle. *)
Definition send (ps : Peerset) (a : Action) : Peerset :=
  MkPeerset (data ps) (reserved_only ps) (rx ps ++ [a]) (message_queue ps) (created ps)
    (latest_time_update ps).

(** ** Fading of reputations *)

Definition tick_peer (now : Z) (s : PeersState PeerId) (peer_id : PeerId) :
    run (PeersState PeerId) :=
  match peer s peer_id with
  | ConnectedPeer id => Ok (set_reputation now s id (reput_tick (get_reputation s id)))
  | NotConnectedPeer id =>
      if (get_reputation s id =? 0) &&
         (last_connected_or_discovered now s id + FORGET_AFTER <? now)
      then Ok (forget_peer s id)
      else Ok (set_reputation now s id (reput_tick (get_reputation s id)))
  | UnknownPeer _ => Panic
  end.

Fixpoint tick_all (now : Z) (s : PeersState PeerId) (ids : list PeerId) :
    run (PeersState PeerId) :=
  match ids with
  | [] => Ok s
  | id :: ids' => s' ← tick_peer now s id; tick_all now s' ids'
  end.

Fixpoint tick_secs (ord : Order PeerId) (now : Z) (secs : nat) (s : PeersState PeerId) :
    run (PeersState PeerId) :=
  match secs with
  | O => Ok s
  | S secs' => s' ← tick_all now s (peers ord s); tick_secs ord now secs' s'
  end.

Definition update_time (ord : Order PeerId) (now : Z) (ps : Peerset) : run Peerset :=
  let elapsed_latest := latest_time_update ps - created ps in
  let elapsed_now := now - created ps in
  let secs_diff := as_secs elapsed_now - as_secs elapsed_latest in
  d ← tick_secs ord now (Z.to_nat secs_diff) (data ps);
  Ok (MkPeerset d (reserved_only ps) (rx ps) (message_queue ps) (created ps) now).

(** ** Filling the slots *)

(** [while let Some(next) = .. { match next.try_outgoing() { .. } }] *)
Fixpoint connect_priority (ord : Order PeerId) (fuel : nat) (ps : Peerset) : run Peerset :=
  match fuel with
  | O => Panic
  | S fuel' =>
      match (if reserved_only ps
             then priority_not_connected_peer_from_group ord (data ps) RESERVED_NODES
             else priority_not_connected_peer ord (data ps)) with
      | None => Ok ps
      | Some next =>
          match try_outgoing ord (data ps) next with
          | (d, true) => connect_priority ord fuel' (push_back (with_data ps d) (Connect next))
          | (d, false) => Ok (with_data ps d)
          end
      end
  end.

Fixpoint connect_best (ord : Order PeerId) (fuel : nat) (ps : Peerset) : run Peerset :=
  match fuel with
  | O => Panic
  | S fuel' =>
      if reserved_only ps then Ok ps
      else
        match highest_not_connected_peer ord (data ps) with
        | None => Ok ps
        | Some next =>
            if get_reputation (data ps) next <? BANNED_THRESHOLD then Ok ps
            else
              match try_outgoing ord (data ps) next with
              | (d, true) => connect_best ord fuel' (push_back (with_data ps d) (Connect next))
              | (d, false) => Ok (with_data ps d)
              end
        end
  end.

(** Each turn of the loops but the last connects one more node. *)
Definition loop_fuel (ps : Peerset) : nat := S (size (nodes (data ps))).

Definition alloc_slots (ord : Order PeerId) (now : Z) (ps : Peerset) : run Peerset :=
  ps1 ← update_time ord now ps;
  ps2 ← connect_priority ord (loop_fuel ps1) ps1;
  connect_best ord (loop_fuel ps2) ps2.

(** ** Actions *)

Definition on_add_reserved_peer (e : Env) (ps : Peerset) (peer_id : PeerId) : run Peerset :=
  let reserved := default ∅ (get_priority_group (data ps) RESERVED_NODES) in
  let d := set_priority_group (ord e) (stamp e) (data ps) RESERVED_NODES ({[peer_id]} ∪ reserved) in
  alloc_slots (ord e) (now e) (with_data ps d).

Definition on_remove_reserved_peer (e : Env) (ps : Peerset) (peer_id : PeerId) : run Peerset :=
  let reserved := default ∅ (get_priority_group (data ps) RESERVED_NODES) in
  let d := set_priority_group (ord e) (stamp e) (data ps) RESERVED_NODES (reserved ∖ {[peer_id]}) in
  match peer d peer_id with
  | ConnectedPeer id =>
      if reserved_only ps
      then Ok (push_back (with_data ps (disconnect (ord e) (stamp e id) d id)) (Drop peer_id))
      else Ok (with_data ps d)
  | NotConnectedPeer _ => Ok (with_data ps d)
  | UnknownPeer _ => Ok (with_data ps d)
  end.

(** The loop that disconnects the nodes that are not reserved. *)
Fixpoint drop_others (e : Env) (reserved : gset PeerId) (ids : list PeerId) (ps : Peerset) :
    run Peerset :=
  match ids with
  | [] => Ok ps
  | peer_id :: ids' =>
      id ← expect (into_connected (peer (data ps) peer_id));
      if decide (peer_id ∈ reserved) then drop_others e reserved ids' ps
      else
        drop_others e reserved ids'
          (push_back (with_data ps (disconnect (ord e) (stamp e id) (data ps) id)) (Drop peer_id))
  end.

Definition on_set_reserved_only (e : Env) (ps : Peerset) (only : bool) : run Peerset :=
  let ps1 := MkPeerset (set_priority_only (data ps) only) only (rx ps) (message_queue ps)
               (created ps) (latest_time_update ps) in
  if only then
    let reserved := default ∅ (get_priority_group (data ps1) RESERVED_NODES) in
    drop_others e reserved (connected_peers (ord e) (data ps1)) ps1
  else alloc_slots (ord e) (now e) ps1.

Definition on_set_priority_group (e : Env) (ps : Peerset) (g : string) (ids : gset PeerId) :
    run Peerset :=
  alloc_slots (ord e) (now e)
    (with_data ps (set_priority_group (ord e) (stamp e) (data ps) g ids)).

Definition on_add_to_priority_group (e : Env) (ps : Peerset) (g : string) (id : PeerId) :
    run Peerset :=
  alloc_slots (ord e) (now e)
    (with_data ps (add_to_priority_group (ord e) (stamp e) (data ps) g id)).

Definition on_remove_from_priority_group (e : Env) (ps : Peerset) (g : string) (id : PeerId) :
    run Peerset :=
  alloc_slots (ord e) (now e)
    (with_data ps (remove_from_priority_group (ord e) (stamp e) (data ps) g id)).

Definition on_report_peer (e : Env) (ps : Peerset) (peer_id : PeerId) (change : ReputationChange) :
    run Peerset :=
  ps1 ← update_time (ord e) (now e) ps;
  match peer (data ps1) peer_id with
  | ConnectedPeer id =>
      let d := add_reputation (stamp e id) (data ps1) id (value change) in
      if get_reputation d id <? BANNED_THRESHOLD
      then Ok (push_back (with_data ps1 (disconnect (ord e) (stamp e id) d id)) (Drop peer_id))
      else Ok (with_data ps1 d)
  | NotConnectedPeer id =>
      Ok (with_data ps1 (add_reputation (stamp e id) (data ps1) id (value change)))
  | UnknownPeer id =>
      Ok (with_data ps1
            (add_reputation (stamp e id) (discover (stamp e id) (data ps1) id) id (value change)))
  end.

Definition on_action (e : Env) (ps : Peerset) (a : Action) : run Peerset :=
  match a with
  | AddReservedPeer peer_id => on_add_reserved_peer e ps peer_id
  | RemoveReservedPeer peer_id => on_remove_reserved_peer e ps peer_id
  | SetReservedOnly reserved => on_set_reserved_only e ps reserved
  | ReportPeer peer_id score_diff => on_report_peer e ps peer_id score_diff
  | SetPriorityGroup group_id ids => on_set_priority_group e ps group_id ids
  | AddToPriorityGroup group_id peer_id => on_add_to_priority_group e ps group_id peer_id
  | RemoveFromPriorityGroup group_id peer_id => on_remove_from_priority_group e ps group_id peer_id
  end.

(** ** Events of the network *)

Definition incoming (e : Env) (ps : Peerset) (peer_id : PeerId) (index : Z) : run Peerset :=
  ps1 ← update_time (ord e) (now e) ps;
  let answer (d : PeersState PeerId) (id : PeerId) : Peerset :=
    if get_reputation d id <? BANNED_THRESHOLD
    then push_back (with_data ps1 d) (Reject index)
    else match try_accept_incoming (ord e) d id with
         | (d', true) => push_back (with_data ps1 d') (Accept index)
         | (d', false) => push_back (with_data ps1 d') (Reject index)
         end in
  match peer (data ps1) peer_id with
  | ConnectedPeer _ => Ok ps1
  | NotConnectedPeer id =>
      Ok (answer (bump_last_connected_or_discovered (stamp e id) (data ps1) id) id)
  | UnknownPeer id => Ok (answer (discover (stamp e id) (data ps1) id) id)
  end.

Definition dropped (e : Env) (ps : Peerset) (peer_id : PeerId) : run Peerset :=
  ps1 ← update_time (ord e) (now e) ps;
  let ps2 :=
    match peer (data ps1) peer_id with
    | ConnectedPeer id =>
        let d := add_reputation (stamp e id) (data ps1) id DISCONNECT_REPUTATION_CHANGE in
        with_data ps1 (disconnect (ord e) (stamp e id) d id)
    | NotConnectedPeer _ => ps1
    | UnknownPeer _ => ps1
    end in
  alloc_slots (ord e) (now' e) ps2.

(** The loop of [discovered], which tells whether a peer is new. *)
Fixpoint discover_all (e : Env) (ids : list PeerId) (d : PeersState PeerId)
    (discovered_any : bool) : PeersState PeerId * bool :=
  match ids with
  | [] => (d, discovered_any)
  | peer_id :: ids' =>
      match peer d peer_id with
      | UnknownPeer id => discover_all e ids' (discover (stamp e id) d id) true
      | _ => discover_all e ids' d discovered_any
      end
  end.

Definition discovered (e : Env) (ps : Peerset) (peer_ids : list PeerId) : run Peerset :=
  match discover_all e peer_ids (data ps) false with
  | (d, true) => alloc_slots (ord e) (now e) (with_data ps d)
  | (d, false) => Ok (with_data ps d)
  end.

Definition report_peer (ps : Peerset) (peer_id : PeerId) (score_diff : ReputationChange) : Peerset :=
  send ps (ReportPeer peer_id score_diff).

Definition num_discovered_peers (ps : Peerset) : nat := size (nodes (data ps)).

Definition from_config (e : Env) (created : Z) (config : PeersetConfig) : run Peerset :=
  let d0 := new (in_peers config) (out_peers config) (cfg_reserved_only config) in
  let d1 := set_priority_group (ord e) (stamp e) d0 RESERVED_NODES
              (list_to_set (reserved_nodes config)) in
  let d2 := (discover_all e (bootnodes config) d1 false).1 in
  alloc_slots (ord e) (now e)
    (MkPeerset d2 (cfg_reserved_only config) [] [] created created).

(** [Stream::poll_next]: [Some] a message, or [None] when it is pending.  Each
    action it processes, the [n]th from the end of the queue, has its own
    environment. *)
Fixpoint poll_actions (env : nat → Env) (actions : list Action) (ps : Peerset) :
    run (Peerset * option Message) :=
  match message_queue ps with
  | message :: q =>
      Ok (MkPeerset (data ps) (reserved_only ps) actions q (created ps) (latest_time_update ps),
          Some message)
  | [] =>
      match actions with
      | [] => Ok (MkPeerset (data ps) (reserved_only ps) [] [] (created ps) (latest_time_update ps),
                  None)
      | action :: actions' =>
          ps' ← on_action (env (length actions')) ps action; poll_actions env actions' ps'
      end
  end.

Definition poll_next (env : nat → Env) (ps : Peerset) : run (Peerset * option Message) :=
  poll_actions env (rx ps) ps.

(** ** Invariant *)

(** Nodes we are connected to. *)
Definition conn (s : PeersState PeerId) : gset PeerId :=
  dom (filter (λ p, is_connected (connection_state p.2) = true) (nodes s)).

Definition rep_ok (s : PeersState PeerId) : Prop :=
  ∀ id n, nodes s !! id = Some n → - 2 ^ 31 ≤ reputation n < 2 ^ 31.

(** The counters are right, the reputations and the limits are in range. *)
Record good (s : PeersState PeerId) : Prop := {
  good_slots : slots_ok s;
  good_rep : rep_ok s;
  good_max : fits 32 (max_in s) ∧ fits 32 (max_out s);
}.

Lemma elem_of_conn s id :
  id ∈ conn s ↔ ∃ n, nodes s !! id = Some n ∧ is_connected (connection_state n) = true.
Proof. unfold conn. rewrite elem_of_dom. unfold is_Some. setoid_rewrite map_lookup_filter_Some. done. Qed.

Lemma conn_ext s s' :
  (∀ id, (∃ n, nodes s' !! id = Some n ∧ is_connected (connection_state n) = true) ↔
         ∃ n, nodes s !! id = Some n ∧ is_connected (connection_state n) = true) →
  conn s' = conn s.
Proof. intros Hs. apply set_eq. intros id. by rewrite !elem_of_conn. Qed.

(** Replacing a node. *)
Lemma conn_insert s s' id n' :
  nodes s' = <[id := n']> (nodes s) →
  conn s' = if is_connected (connection_state n') then {[id]} ∪ conn s else conn s ∖ {[id]}.
Proof.
  intros Hns. apply set_eq. intros id'. rewrite elem_of_conn, Hns.
  destruct (decide (id = id')) as [<-|Hne].
  - rewrite lookup_insert_eq. destruct (is_connected (connection_state n')) eqn:Hc.
    + split; [set_solver|eauto].
    + split; [intros (n&[= <-]&Hn); congruence|set_solver].
  - rewrite lookup_insert_ne by done. rewrite <- elem_of_conn.
    destruct (is_connected _); set_solver.
Qed.

Lemma conn_insert_same s s' id n n' :
  nodes s !! id = Some n → nodes s' = <[id := n']> (nodes s) →
  is_connected (connection_state n') = is_connected (connection_state n) → conn s' = conn s.
Proof.
  intros Hn Hns Hc. rewrite (conn_insert s s' id n' Hns), Hc. apply set_eq. intros id'.
  destruct (decide (id = id')) as [<-|Hne].
  - rewrite elem_of_conn. destruct (is_connected (connection_state n)) eqn:Hcn.
    + split; [eauto|set_solver].
    + split; [set_solver|]. intros (n1&Hn1&Hc1). congruence.
  - destruct (is_connected (connection_state n)); set_solver.
Qed.

Lemma conn_not_known s id : nodes s !! id = None → id ∉ conn s.
Proof. rewrite elem_of_conn. naive_solver. Qed.

Lemma conn_extends s s' : extends (nodes s) (nodes s') → conn s' = conn s.
Proof.
  intros He. apply conn_ext. intros id. destruct (He id) as [->|(->&t&->)]; [done|].
  split; [|naive_solver]. intros (n&[= <-]&Hc). done.
Qed.

Lemma conn_forget s id n :
  nodes s !! id = Some n → is_connected (connection_state n) = false →
  conn (forget_peer s id) = conn s.
Proof.
  intros Hn Hc. apply conn_ext. intros id'. cbn. rewrite lookup_delete.
  case_decide; [subst|done]. split; [naive_solver|]. intros (n1&Hn1&Hc1). congruence.
Qed.

Lemma peer_spec s id :
  match peer s id with
  | ConnectedPeer id' => id' = id ∧ id ∈ conn s
  | NotConnectedPeer id' => id' = id ∧ (id ∉ conn s) ∧ is_not_connected s id = true
  | UnknownPeer id' => id' = id ∧ nodes s !! id = None
  end.
Proof.
  pose proof (elem_of_conn s id) as Hiff. unfold peer, is_not_connected. destruct (nodes s !! id) as [n|]; [|done].
  destruct (is_connected (connection_state n)) eqn:Hc.
  - split; [done|]. apply Hiff. eauto.
  - split_and!; [done| |done]. intros (n1&[= <-]&Hc1)%Hiff. congruence.
Qed.

Lemma not_connected_conn s id : is_not_connected s id = true → id ∉ conn s.
Proof. rewrite is_not_connected_spec, elem_of_conn. intros (n&Hn&Hc) (n1&Hn1&Hc1). congruence. Qed.

Lemma saturate_bounds x : - 2 ^ 31 ≤ saturate x < 2 ^ 31.
Proof. unfold saturate. lia. Qed.

(** Replacing the reputation of a known node. *)
Lemma good_rep_update s s' id n r :
  good s → nodes s !! id = Some n → nodes s' = <[id := MkNode (connection_state n) r]> (nodes s) →
  num_in s' = num_in s → num_out s' = num_out s → same_config s s' → - 2 ^ 31 ≤ r < 2 ^ 31 →
  good s' ∧ conn s' = conn s.
Proof.
  intros [Hs Hr Hm] Hn Hns Hi Ho Hcfg Hb. split; [|by eapply conn_insert_same]. constructor.
  - rewrite slots_counts. destruct Hcfg as (_&_&->&_).
    eapply (counts_same _ s); [apply Hs|done..].
  - intros id' n'. rewrite Hns, lookup_insert. case_decide; [naive_solver|apply Hr].
  - by destruct Hcfg as (->&->&_).
Qed.

Lemma entry_known t (s : PeersState PeerId) id n : nodes s !! id = Some n → entry_or_default t s id = (s, n).
Proof. intros Hn. unfold entry_or_default. by rewrite Hn. Qed.

Lemma set_reputation_ok t s id n r :
  good s → nodes s !! id = Some n → - 2 ^ 31 ≤ r < 2 ^ 31 →
  good (set_reputation t s id r) ∧ conn (set_reputation t s id r) = conn s ∧
  same_config s (set_reputation t s id r) ∧
  nodes (set_reputation t s id r) = <[id := MkNode (connection_state n) r]> (nodes s).
Proof.
  intros Hs Hn Hr. unfold set_reputation. rewrite (entry_known t s id n Hn).
  destruct (good_rep_update s (with_nodes s (<[id:=MkNode (connection_state n) r]> (nodes s)))
    id n r) as [H1 H2]; try done.
Qed.

Lemma add_reputation_ok t s id n r :
  good s → nodes s !! id = Some n →
  good (add_reputation t s id r) ∧ conn (add_reputation t s id r) = conn s ∧
  same_config s (add_reputation t s id r) ∧
  nodes (add_reputation t s id r) =
    <[id := MkNode (connection_state n) (saturate (reputation n + r))]> (nodes s).
Proof.
  intros Hs Hn. unfold add_reputation. rewrite (entry_known t s id n Hn).
  destruct (good_rep_update s (with_nodes s (<[id:=MkNode (connection_state n)
    (saturate (reputation n + r))]> (nodes s))) id n (saturate (reputation n + r))) as [H1 H2];
    try done. apply saturate_bounds.
Qed.

Lemma discover_ok t s id :
  good s → nodes s !! id = None →
  good (discover t s id) ∧ conn (discover t s id) = conn s ∧ same_config s (discover t s id) ∧
  is_not_connected (discover t s id) id = true.
Proof.
  intros [Hs Hr Hm] Hn.
  assert (extends (nodes s) (nodes (discover t s id))) as He by by apply extends_insert.
  split_and!; [constructor| | |].
  - by eapply (counts_new _ s).
  - intros id' n'. cbn. rewrite lookup_insert. case_decide; [intros [= <-]; simpl; lia|apply Hr].
  - done.
  - by apply conn_extends.
  - done.
  - apply is_not_connected_spec. cbn. rewrite lookup_insert_eq. eauto.
Qed.

Lemma good_extends s s' :
  good s → slots_ok s' → extends (nodes s) (nodes s') → max_in s' = max_in s →
  max_out s' = max_out s → good s'.
Proof.
  intros [Hs Hr Hm] Hs' He Hi Ho. constructor; [done| |by rewrite Hi, Ho].
  intros id n Hn. destruct (He id) as [Heq|(_&t&Ht)].
  - apply (Hr id). by rewrite <- Heq.
  - rewrite Ht in Hn. injection Hn as <-. simpl. lia.
Qed.

Section ordered.
Context (o : Order PeerId) `{!OrderLaws o}.

Lemma disconnect_good t s id :
  good s → good (disconnect o t s id) ∧ conn (disconnect o t s id) = conn s ∖ {[id]} ∧
    same_config s (disconnect o t s id).
Proof using OrderLaws0.
  intros [Hs Hr Hm]. destruct (disconnect_ok o t s id Hs) as (H1&H2&H3).
  destruct (nodes s !! id) as [n|] eqn:Hn.
  - rewrite (alter_known _ _ _ n Hn) in H3. split_and!; [constructor| |done].
    + done.
    + intros id' n'. rewrite H3, lookup_insert. case_decide; [|apply Hr].
      intros [= <-]. exact (Hr id n Hn).
    + by destruct H2 as (->&->&_).
    + by rewrite (conn_insert _ _ _ _ H3).
  - assert (disconnect o t s id = s) as -> by (unfold disconnect; by rewrite Hn).
    split_and!; [done| |done]. apply conn_not_known in Hn. set_solver.
Qed.

(** *** Time *)

Definition same_nums (s s' : PeersState PeerId) : Prop :=
  num_in s' = num_in s ∧ num_out s' = num_out s.

Lemma tick_peer_ok t s id :
  good s → is_Some (nodes s !! id) →
  ∃ s', tick_peer t s id = Ok s' ∧ good s' ∧ conn s' = conn s ∧ same_config s s' ∧
    same_nums s s' ∧ ∀ id', id' ≠ id → nodes s' !! id' = nodes s !! id'.
Proof.
  intros Hs [n Hn].
  destruct (set_reputation_ok t s id n (reput_tick (get_reputation s id)) Hs Hn)
    as (H1&H2&H3&H4); [apply saturate_bounds|].
  assert (∀ id', id' ≠ id →
    nodes (set_reputation t s id (reput_tick (get_reputation s id))) !! id' = nodes s !! id') as H5
    by (intros id' Hne; rewrite H4; by apply lookup_insert_ne).
  assert (same_nums s (set_reputation t s id (reput_tick (get_reputation s id)))) as H6.
  { unfold set_reputation. by rewrite (entry_known t s id n Hn). }
  unfold tick_peer, peer. rewrite Hn. destruct (is_connected (connection_state n)) eqn:Hc; [eauto 10|].
  destruct (_ && _); [|eauto 10]. exists (forget_peer s id). split_and!; [done| | |done|done|].
  - destruct Hs as [Hs Hr Hm]. constructor; [by eapply counts_forget| |done].
    intros id' n'. cbn. intros [_ Hn']%lookup_delete_Some. by eapply Hr.
  - by eapply conn_forget.
  - intros id' Hne. by apply lookup_delete_ne.
Qed.

Lemma tick_all_ok t ids s :
  good s → NoDup ids → (∀ id, id ∈ ids → is_Some (nodes s !! id)) →
  ∃ s', tick_all t s ids = Ok s' ∧ good s' ∧ conn s' = conn s ∧ same_config s s' ∧
    same_nums s s'.
Proof.
  revert s. induction ids as [|id ids IH]; intros s Hs Hnd Hk; [by eexists|].
  apply NoDup_cons in Hnd as [Hid Hnd].
  destruct (tick_peer_ok t s id Hs) as (s1&E1&H1&H2&H3&H3'&H4); [apply Hk; by left|].
  destruct (IH s1 H1 Hnd) as (s2&E2&H5&H6&H7&H7').
  { intros id' Hid'. rewrite H4 by (by intros ->). apply Hk. by right. }
  exists s2. cbn [tick_all]. rewrite E1. cbn [mbind result_bind]. rewrite E2.
  split_and!; [done|done|congruence|by eapply same_config_trans|].
  unfold same_nums in *. intuition congruence.
Qed.

Lemma peers_ok s : NoDup (peers o s) ∧ ∀ id, id ∈ peers o s → is_Some (nodes s !! id).
Proof using OrderLaws0.
  unfold peers. split.
  - rewrite ord_nodes_perm. apply NoDup_fst_map_to_list.
  - intros id. rewrite list_elem_of_In, in_map_iff. intros ([id' n]&<-&Hin).
    apply list_elem_of_In in Hin. rewrite ord_nodes_perm in Hin. apply elem_of_map_to_list in Hin.
    eauto.
Qed.

Lemma tick_secs_ok t secs s :
  good s → ∃ s', tick_secs o t secs s = Ok s' ∧ good s' ∧ conn s' = conn s ∧ same_config s s' ∧
    same_nums s s'.
Proof using OrderLaws0.
  revert s. induction secs as [|secs IH]; intros s Hs; [by eexists|].
  destruct (peers_ok s) as [Hnd Hk].
  destruct (tick_all_ok t (peers o s) s Hs Hnd Hk) as (s1&E1&H1&H2&H3&H3').
  destruct (IH s1 H1) as (s2&E2&H4&H5&H6&H6'). exists s2. cbn [tick_secs]. rewrite E1.
  cbn [mbind result_bind]. rewrite E2. split_and!; [done|done|congruence|by eapply same_config_trans|].
  unfold same_nums in *. intuition congruence.
Qed.

(** What the handlers never touch. *)
Definition same_frame (ps ps' : Peerset) : Prop :=
  reserved_only ps' = reserved_only ps ∧ rx ps' = rx ps ∧ created ps' = created ps.

Lemma update_time_ok t ps :
  good (data ps) →
  ∃ ps', update_time o t ps = Ok ps' ∧ good (data ps') ∧ conn (data ps') = conn (data ps) ∧
    same_config (data ps) (data ps') ∧ same_nums (data ps) (data ps') ∧ same_frame ps ps' ∧
    message_queue ps' = message_queue ps ∧ latest_time_update ps' = t.
Proof using OrderLaws0.
  intros Hs. unfold update_time.
  destruct (tick_secs_ok t (Z.to_nat (as_secs (t - created ps) -
    as_secs (latest_time_update ps - created ps))) (data ps) Hs) as (d&->&H1&H2&H3&H4).
  eexists. by split_and!.
Qed.

(** *** Loops *)

(** Nodes we know and are not connected to. *)
Definition idle (s : PeersState PeerId) : gset PeerId := dom (nodes s) ∖ conn s.

(** The nodes [ids] were connected, one after the other. *)
Record connects (ps ps' : Peerset) (ids : list PeerId) : Prop := {
  cn_good : good (data ps');
  cn_config : same_config (data ps) (data ps');
  cn_frame : same_frame ps ps';
  cn_time : latest_time_update ps' = latest_time_update ps;
  cn_queue : message_queue ps' = message_queue ps ++ map Connect ids;
  cn_conn : conn (data ps') = conn (data ps) ∪ list_to_set ids;
  cn_fresh : NoDup ids ∧ ∀ id, id ∈ ids → id ∉ conn (data ps);
  cn_dom : dom (nodes (data ps')) = dom (nodes (data ps));
  cn_out : num_out (data ps') ≤ Z.max (num_out (data ps)) (max_out (data ps));
  cn_rep : ∀ id, get_reputation (data ps') id = get_reputation (data ps) id;
}.

Lemma connects_refl ps : good (data ps) → connects ps ps [].
Proof.
  intros Hs. constructor; try done; [by rewrite app_nil_r|set_solver| |lia].
  split; [constructor|set_solver].
Qed.

Lemma connects_cons ps1 ps2 ps3 id ids :
  connects ps1 ps2 [id] → connects ps2 ps3 ids → connects ps1 ps3 (id :: ids).
Proof.
  intros [] []. constructor; try done; try congruence.
  - by eapply same_config_trans.
  - unfold same_frame in *. intuition congruence.
  - rewrite cn_queue1, cn_queue0, <- app_assoc. done.
  - rewrite cn_conn1, cn_conn0. set_solver.
  - destruct cn_fresh0 as [_ Hf0], cn_fresh1 as [Hnd1 Hf1]. rewrite cn_conn0 in Hf1. split.
    + constructor; [|done]. intros Hin. apply (Hf1 _ Hin). set_solver.
    + intros id' [->|Hin]%elem_of_cons; [apply Hf0; by left|]. specialize (Hf1 _ Hin). set_solver.
  - destruct cn_config0 as (_&E&_). rewrite E in cn_out1. lia.
Qed.

Lemma connects_trans ps1 ps2 ps3 ids ids' :
  connects ps1 ps2 ids → connects ps2 ps3 ids' → connects ps1 ps3 (ids ++ ids').
Proof.
  intros [] []. constructor; try done; try congruence.
  - by eapply same_config_trans.
  - unfold same_frame in *. intuition congruence.
  - rewrite map_app, cn_queue1, cn_queue0, <- app_assoc. done.
  - rewrite list_to_set_app_L, cn_conn1, cn_conn0. set_solver.
  - destruct cn_fresh0 as [Hnd0 Hf0], cn_fresh1 as [Hnd1 Hf1]. rewrite cn_conn0 in Hf1.
    assert (∀ id, id ∈ ids' → (id ∉ conn (data ps1)) ∧ id ∉ ids) as Hf.
    { intros id Hid. specialize (Hf1 id Hid). rewrite elem_of_union, elem_of_list_to_set in Hf1. tauto. }
    split; [apply NoDup_app; split_and!; naive_solver|].
    intros id [Hin|Hin]%elem_of_app; [by apply Hf0|by apply Hf].
  - destruct cn_config0 as (_&E&_). rewrite E in cn_out1. lia.
Qed.

(** One turn of a loop. *)
Lemma try_outgoing_connects ps id :
  good (data ps) → is_not_connected (data ps) id = true →
  let '(d, ok) := try_outgoing o (data ps) id in
  if ok then
    connects ps (push_back (with_data ps d) (Connect id)) [id] ∧
    (size (idle d) < size (idle (data ps)))%nat
  else d = data ps ∧ (id ∉ members (priority_nodes (data ps))) ∧
    (priority_only (data ps) = true ∨ max_out (data ps) ≤ num_out (data ps)).
Proof using OrderLaws0.
  intros Hs Hid. pose proof (try_outgoing_ok o (data ps) id (good_slots _ Hs) Hid) as Hto.
  destruct (try_outgoing o (data ps) id) as [d ok] eqn:Hd. destruct Hto as (H1&H2&H3).
  destruct ok; [|done]. destruct H3 as [Hns Hlim].
  pose proof Hid as (n&Hn&Hc)%is_not_connected_spec. pose proof (not_connected_conn _ _ Hid) as Hnc.
  rewrite (alter_known _ _ _ n Hn) in Hns. pose proof (conn_insert _ _ _ _ Hns) as Hconn. cbn in Hconn.
  assert (dom (nodes d) = dom (nodes (data ps))) as Hdom.
  { rewrite Hns. apply dom_insert_lookup_L. eauto. }
  assert (id ∈ dom (nodes (data ps))) as Hin by (apply elem_of_dom; eauto).
  split.
  - constructor; cbn; try done.
    + constructor; [done| |by destruct H2 as (->&->&_); apply Hs].
      intros id' n'. rewrite Hns, lookup_insert. case_decide; [|apply Hs].
      intros [= <-]. exact (good_rep _ Hs id n Hn).
    + rewrite Hconn. set_solver.
    + split; [apply NoDup_singleton|]. by intros id' ->%list_elem_of_singleton.
    + unfold try_outgoing in Hd. rewrite (is_priority_ok o) in Hd.
      destruct (good_max _ Hs) as [_ Hmax]. unfold fits in Hmax. case_bool_decide as Hp; cbn in Hd.
      * rewrite andb_false_r, Hn in Hd. simplify_eq. cbn. lia.
      * destruct (Hlim Hp) as [Hpo Hlt]. rewrite Hpo, andb_true_r, Hn in Hd.
        rewrite (proj2 (Z.leb_gt _ _)) in Hd by done. simplify_eq. cbn.
        rewrite (proj2 (good_slots _ Hs)) in *.
        pose proof (wrap_fits 32 (count uses_out (members (priority_nodes (data ps)))
          (nodes (data ps))) ltac:(lia)) as Hf. unfold fits in Hf. nowrap. lia.
    + intros id'. unfold get_reputation. rewrite Hns, lookup_insert.
      case_decide; [subst; by rewrite Hn|done].
  - unfold idle. rewrite Hdom, Hconn. apply subset_size. set_solver.
Qed.

Definition wanted (ps : Peerset) : gset PeerId :=
  if reserved_only ps then default ∅ (priority_nodes (data ps) !! RESERVED_NODES)
  else members (priority_nodes (data ps)).

Lemma wanted_members ps : wanted ps ⊆ members (priority_nodes (data ps)).
Proof.
  unfold wanted. destruct (reserved_only ps); [|done].
  rewrite (members_delete _ RESERVED_NODES). set_solver.
Qed.

Lemma select_priority_ok ps :
  match (if reserved_only ps
         then priority_not_connected_peer_from_group o (data ps) RESERVED_NODES
         else priority_not_connected_peer o (data ps)) with
  | Some id => id ∈ wanted ps ∧ is_not_connected (data ps) id = true
  | None => ∀ id, id ∈ wanted ps → is_not_connected (data ps) id = false
  end.
Proof using OrderLaws0.
  unfold wanted. destruct (reserved_only ps); [apply group_not_connected_ok, _|
    apply priority_not_connected_ok, _].
Qed.

Lemma connect_priority_ok fuel ps :
  good (data ps) → (size (idle (data ps)) < fuel)%nat →
  ∃ ps' ids, connect_priority o fuel ps = Ok ps' ∧ connects ps ps' ids ∧
    (∀ id, id ∈ wanted ps → is_not_connected (data ps') id = false).
Proof using OrderLaws0.
  revert ps. induction fuel as [|fuel IH]; intros ps Hs Hf; [lia|]. cbn [connect_priority].
  pose proof (select_priority_ok ps) as Hsel. destruct (if reserved_only ps then _ else _) as [id|].
  2:{ exists ps, []. split_and!; [done|by apply connects_refl|done]. }
  destruct Hsel as [Hw Hid]. pose proof (try_outgoing_connects ps id Hs Hid) as Hto.
  destruct (try_outgoing o (data ps) id) as [d []].
  - destruct Hto as [Hcn Hsz].
    destruct (IH (push_back (with_data ps d) (Connect id))) as (ps'&ids&E&H1&H2);
      [apply Hcn|cbn; lia|].
    exists ps', (id :: ids). split_and!; [done|by eapply connects_cons|].
    intros id' Hw'. apply H2. unfold wanted in *. cbn in *.
    destruct (cn_config _ _ _ Hcn) as (_&_&Eg&_). cbn in Eg. by rewrite Eg.
  - destruct Hto as (_&Hm&_). by apply wanted_members in Hw.
Qed.

Lemma connect_best_ok fuel ps :
  good (data ps) → (size (idle (data ps)) < fuel)%nat →
  ∃ ps' ids, connect_best o fuel ps = Ok ps' ∧ connects ps ps' ids ∧
    (reserved_only ps = false → ∀ id, is_not_connected (data ps') id = true →
       get_reputation (data ps') id < BANNED_THRESHOLD ∨
       priority_only (data ps') = true ∨ max_out (data ps') ≤ num_out (data ps')).
Proof using OrderLaws0.
  revert ps. induction fuel as [|fuel IH]; intros ps Hs Hf; [lia|]. cbn [connect_best].
  destruct (reserved_only ps) eqn:Hro.
  { exists ps, []. split_and!; [done|by apply connects_refl|done]. }
  pose proof (highest_ok o (data ps)) as Hh.
  destruct (highest_not_connected_peer o (data ps)) as [id|].
  2:{ exists ps, []. split_and!; [done|by apply connects_refl|]. intros _ id. by rewrite Hh. }
  destruct Hh as [Hid Hmax]. destruct (Z.ltb_spec (get_reputation (data ps) id) BANNED_THRESHOLD).
  { exists ps, []. split_and!; [done|by apply connects_refl|]. intros _ id' Hid'.
    specialize (Hmax id' Hid'). left. lia. }
  pose proof (try_outgoing_connects ps id Hs Hid) as Hto.
  destruct (try_outgoing o (data ps) id) as [d []].
  - destruct Hto as [Hcn Hsz].
    destruct (IH (push_back (with_data ps d) (Connect id))) as (ps'&ids&E&H1&H2);
      [apply Hcn|cbn; lia|].
    exists ps', (id :: ids). split_and!; [done|by eapply connects_cons|]. intros _. by apply H2.
  - destruct Hto as (->&_&Hlim). exists ps, [].
    split_and!; [by destruct ps|by apply connects_refl|auto].
Qed.

Lemma idle_spec s id : is_not_connected s id = true ↔ id ∈ idle s.
Proof.
  unfold idle. rewrite elem_of_difference, elem_of_dom, elem_of_conn, is_not_connected_spec.
  split.
  - intros (n&Hn&Hc). split; [eauto|]. intros (n1&Hn1&Hc1). congruence.
  - intros [[n Hn] Hnc]. exists n. split; [done|].
    destruct (is_connected (connection_state n)) eqn:Hc; [|done]. destruct Hnc. eauto.
Qed.

Lemma connects_idle ps ps' ids id :
  connects ps ps' ids → is_not_connected (data ps) id = false →
  is_not_connected (data ps') id = false.
Proof.
  intros Hcn. rewrite <- !not_true_iff_false, !idle_spec. unfold idle.
  rewrite (cn_dom _ _ _ Hcn), (cn_conn _ _ _ Hcn). set_solver.
Qed.

(** Every node that should be connected is, and the free slots are used as long
    as there is an acceptable node. *)
Definition filled (ps : Peerset) : Prop :=
  (∀ id, id ∈ wanted ps → is_not_connected (data ps) id = false) ∧
  (reserved_only ps = false → ∀ id, is_not_connected (data ps) id = true →
     get_reputation (data ps) id < BANNED_THRESHOLD ∨ max_out (data ps) ≤ num_out (data ps)).

(** The manager accepts only priority nodes exactly in reserved-only mode. *)
Definition ps_ok (ps : Peerset) : Prop :=
  good (data ps) ∧ priority_only (data ps) = reserved_only ps.

Lemma wanted_same ps ps' :
  same_config (data ps) (data ps') → same_frame ps ps' → wanted ps' = wanted ps.
Proof. intros (_&_&E1&_) (E2&_). unfold wanted. by rewrite E1, E2. Qed.

Lemma idle_size s : (size (idle s) < S (size (nodes s)))%nat.
Proof.
  unfold idle. assert (size (dom (nodes s) ∖ conn s) ≤ size (dom (nodes s)))%nat.
  { apply subseteq_size. set_solver. }
  rewrite size_dom in *. lia.
Qed.

Lemma alloc_slots_ok t ps :
  ps_ok ps →
  ∃ ps' ids, alloc_slots o t ps = Ok ps' ∧ ps_ok ps' ∧ filled ps' ∧
    same_config (data ps) (data ps') ∧ same_frame ps ps' ∧ latest_time_update ps' = t ∧
    message_queue ps' = message_queue ps ++ map Connect ids ∧
    conn (data ps') = conn (data ps) ∪ list_to_set ids ∧
    NoDup ids ∧ (∀ id, id ∈ ids → id ∉ conn (data ps)) ∧
    num_out (data ps') ≤ Z.max (num_out (data ps)) (max_out (data ps)).
Proof using OrderLaws0.
  intros [Hs Hm]. unfold alloc_slots.
  destruct (update_time_ok t ps Hs) as (ps1&->&H1&H2&H3&[_ Hn1]&H4&H5&H6). cbn [mbind result_bind].
  destruct (connect_priority_ok (loop_fuel ps1) ps1 H1) as (ps2&ids&->&Hc1&Hw); [apply idle_size|].
  cbn [mbind result_bind].
  destruct (connect_best_ok (loop_fuel ps2) ps2 (cn_good _ _ _ Hc1)) as (ps3&ids'&->&Hc2&Hb);
    [apply idle_size|].
  pose proof (connects_trans _ _ _ _ _ Hc1 Hc2) as Hc. exists ps3, (ids ++ ids').
  pose proof (same_config_trans _ _ _ H3 (cn_config _ _ _ Hc)) as Hcfg.
  pose proof (cn_frame _ _ _ Hc) as Hf. pose proof (cn_frame _ _ _ Hc1) as Hf1.
  pose proof (cn_frame _ _ _ Hc2) as Hf2. pose proof (cn_config _ _ _ Hc2) as Hg2.
  split_and!; try done.
  - split; [apply Hc|]. destruct Hcfg as (_&_&_&->), H4 as (Hr&_), Hf as (->&_). congruence.
  - split.
    + intros id Hid. eapply connects_idle; [exact Hc2|]. apply Hw.
      by rewrite <- (wanted_same ps1 ps3 (cn_config _ _ _ Hc) Hf).
    + intros Hro id Hid. destruct Hf2 as (Hro2&_). rewrite Hro in Hro2.
      destruct (Hb (eq_sym Hro2) id Hid) as [|[Hpo|]]; [by left| |by right].
      destruct Hcfg as (_&_&_&Hpo'), H4 as (Hr&_), Hf as (Hr'&_). congruence.
  - destruct H4 as (E1&E2&E3), Hf as (F1&F2&F3). unfold same_frame. intuition congruence.
  - rewrite (cn_time _ _ _ Hc). done.
  - by rewrite (cn_queue _ _ _ Hc), H5.
  - by rewrite (cn_conn _ _ _ Hc), H2.
  - apply Hc.
  - intros id Hid. rewrite <- H2. by apply (cn_fresh _ _ _ Hc).
  - pose proof (cn_out _ _ _ Hc) as Ho. rewrite Hn1 in Ho. destruct H3 as (_&E&_). by rewrite E in Ho.
Qed.

(** ** Messages *)

(** [trace req C ms C']: the messages [ms] take the network from the connections
    [C] to [C'], each of them being about a node in the right state; [req] is the
    incoming connection being answered. *)
Inductive trace (req : option (PeerId * Z)) : gset PeerId → list Message → gset PeerId → Prop :=
| trace_nil C : trace req C [] C
| trace_connect C p ms C' :
    p ∉ C → trace req ({[p]} ∪ C) ms C' → trace req C (Connect p :: ms) C'
| trace_drop C p ms C' :
    p ∈ C → trace req (C ∖ {[p]}) ms C' → trace req C (Drop p :: ms) C'
| trace_accept C p i ms C' :
    req = Some (p, i) → p ∉ C → trace req ({[p]} ∪ C) ms C' → trace req C (Accept i :: ms) C'
| trace_reject C p i ms C' :
    req = Some (p, i) → p ∉ C → trace req C ms C' → trace req C (Reject i :: ms) C'.

Lemma trace_app req C1 C2 C3 ms ms' :
  trace req C1 ms C2 → trace req C2 ms' C3 → trace req C1 (ms ++ ms') C3.
Proof.
  induction 1; intros; simpl;
    [done|eapply trace_connect|eapply trace_drop|eapply trace_accept|eapply trace_reject]; eauto.
Qed.

Lemma trace_connects req C ids :
  NoDup ids → (∀ id, id ∈ ids → id ∉ C) → trace req C (map Connect ids) (C ∪ list_to_set ids).
Proof.
  revert C. induction ids as [|id ids IH]; intros C Hnd Hf; simpl.
  - rewrite union_empty_r_L. constructor.
  - apply NoDup_cons in Hnd as [Hid Hnd]. constructor; [apply Hf; by left|].
    replace (C ∪ ({[id]} ∪ list_to_set ids)) with ({[id]} ∪ C ∪ list_to_set ids) by set_solver.
    apply IH; [done|]. intros id' Hid'. assert (id' ∉ C) by (apply Hf; by right).
    assert (id' ≠ id) by (by intros ->). set_solver.
Qed.

(** What a handler does: it keeps the invariant, leaves the queue of actions
    alone, and announces every change of the connections, that were [C] when it
    started. *)
Record handled (req : option (PeerId * Z)) (C : gset PeerId) (ps ps' : Peerset) : Prop := {
  hd_ok : ps_ok ps';
  hd_rx : rx ps' = rx ps;
  hd_created : created ps' = created ps;
  hd_queue : ∃ ms, message_queue ps' = message_queue ps ++ ms ∧ trace req C ms (conn (data ps'));
}.

Lemma alloc_slots_handled req t ps0 ps :
  ps_ok ps → rx ps = rx ps0 → created ps = created ps0 → message_queue ps = message_queue ps0 →
  ∃ ps', alloc_slots o t ps = Ok ps' ∧ handled req (conn (data ps)) ps0 ps' ∧ filled ps'.
Proof using OrderLaws0.
  intros Hs Hrx Hcr Hq.
  destruct (alloc_slots_ok t ps Hs) as (ps'&ids&E&H1&H2&H3&(_&H4&H5)&_&H6&H7&H8&H9&_).
  exists ps'. split_and!; [done| |done]. constructor; [done|congruence|congruence|].
  exists (map Connect ids). rewrite H6, Hq, H7. split; [done|]. by apply trace_connects.
Qed.

Lemma set_group_ok f ps g ids :
  ps_ok ps →
  let d := set_priority_group o f (data ps) g ids in
  ps_ok (with_data ps d) ∧ conn d = conn (data ps).
Proof using OrderLaws0.
  intros [Hs Hm]. cbn zeta. destruct (set_priority_group_ok o f (data ps) g ids (good_slots _ Hs))
    as (H1&H2&H3&H4&H5&H6&_).
  split; [split|]; cbn [with_data data reserved_only];
    [by eapply good_extends|by rewrite H6|by apply conn_extends].
Qed.

Lemma discover_all_ok e ids s any :
  good s →
  let '(s', any') := discover_all e ids s any in
  good s' ∧ conn s' = conn s ∧ same_config s s' ∧ same_nums s s' ∧
  (any' = false → any = false ∧ s' = s).
Proof.
  revert s any. induction ids as [|id ids IH]; intros s any Hs; cbn [discover_all]; [done|].
  pose proof (peer_spec s id) as Hp. destruct (peer s id) as [id'|id'|id']; [by apply IH..|].
  destruct Hp as [-> Hn]. destruct (discover_ok (stamp e id) s id Hs Hn) as (H1&H2&H3&_).
  specialize (IH (discover (stamp e id) s id) true H1).
  destruct (discover_all e ids (discover (stamp e id) s id) true) as [s' any'].
  destruct IH as (H4&H5&H6&H7&H8). split_and!; [done|congruence|by eapply same_config_trans|done|].
  intros Hany. by destruct (H8 Hany).
Qed.
End ordered.

(** ** Handlers *)

Section handlers.
Context (e : Env) `{!OrderLaws (ord e)}.

Lemma handled_same req ps ps' :
  ps_ok ps' → rx ps' = rx ps → created ps' = created ps → message_queue ps' = message_queue ps →
  conn (data ps') = conn (data ps) → handled req (conn (data ps)) ps ps'.
Proof.
  intros Hok Hrx Hcr Hq Hc. constructor; [done..|]. exists []. rewrite app_nil_r, Hc.
  split; [done|constructor].
Qed.

Lemma drop_ok req ps ps1 id t :
  ps_ok ps1 → rx ps1 = rx ps → created ps1 = created ps → message_queue ps1 = message_queue ps →
  id ∈ conn (data ps1) →
  handled req (conn (data ps1)) ps
    (push_back (with_data ps1 (disconnect (ord e) t (data ps1) id)) (Drop id)).
Proof using OrderLaws0.
  intros [Hs Hm] Hrx Hcr Hq Hid.
  destruct (disconnect_good (ord e) t (data ps1) id Hs) as (H1&H2&H3). constructor; cbn; [|done..|].
  - split; [done|]. cbn. destruct H3 as (_&_&_&->). done.
  - exists [Drop id]. rewrite Hq, H2. split; [done|]. constructor; [done|constructor].
Qed.

Lemma drop_others_ok req reserved ids ps :
  ps_ok ps → NoDup ids → (∀ id, id ∈ ids → id ∈ conn (data ps)) →
  ∃ ps', drop_others e reserved ids ps = Ok ps' ∧ handled req (conn (data ps)) ps ps' ∧
    (∀ id, id ∈ ids → id ∈ conn (data ps') → id ∈ reserved) ∧
    conn (data ps') ⊆ conn (data ps) ∧ reserved_only ps' = reserved_only ps.
Proof using OrderLaws0.
  revert ps. induction ids as [|id ids IH]; intros ps Hok Hnd Hc.
  { exists ps. split_and!; [done|by apply handled_same|by intros id ?%not_elem_of_nil|done|done]. }
  apply NoDup_cons in Hnd as [Hid Hnd]. cbn [drop_others].
  assert (id ∈ conn (data ps)) as Hin by (apply Hc; by left).
  pose proof (peer_spec (data ps) id) as Hp. destruct (peer (data ps) id) as [id'|id'|id'].
  2:{ naive_solver. }
  2:{ destruct Hp as [-> Hn]. by apply conn_not_known in Hn. }
  destruct Hp as [-> _]. cbn [into_connected expect mbind result_bind].
  case_decide as Hr.
  - destruct (IH ps Hok Hnd) as (ps'&E&H1&H2&H3&H4); [intros; apply Hc; by right|].
    exists ps'. split_and!; try done. intros id' [->|Hid']%elem_of_cons; eauto.
  - pose proof (drop_ok req ps ps id (stamp e id) Hok eq_refl eq_refl eq_refl Hin) as Hd.
    destruct (disconnect_good (ord e) (stamp e id) (data ps) id (proj1 Hok)) as (_&Hconn&_).
    set (ps1 := push_back _ _) in *.
    destruct (IH ps1 (hd_ok _ _ _ _ Hd) Hnd) as (ps'&E&H1&H2&H3&H4).
    { intros id' Hid'. cbn. rewrite Hconn. assert (id' ≠ id) by (by intros ->).
      assert (id' ∈ conn (data ps)) by (apply Hc; by right). set_solver. }
    cbn [ps1 push_back with_data data] in H1, H3. rewrite Hconn in H1, H3.
    exists ps'. split_and!; [done| | |set_solver|done].
    + destruct H1 as [A1 A2 A3 (ms&A4&A5)]. constructor; [done|done|done|].
      exists (Drop id :: ms). rewrite A4. cbn. rewrite <- app_assoc. split; [done|].
      by constructor.
    + intros id' [->|Hid']%elem_of_cons Hin'; [set_solver|eauto].
Qed.

Lemma connected_peers_ok s :
  NoDup (connected_peers (ord e) s) ∧ ∀ id, id ∈ connected_peers (ord e) s ↔ id ∈ conn s.
Proof using OrderLaws0.
  unfold connected_peers. split.
  - rewrite ord_nodes_perm. eapply sublist_NoDup; [apply (NoDup_fst_map_to_list (nodes s))|].
    apply fmap_sublist, sublist_filter.
  - intros id. rewrite list_elem_of_In, in_map_iff, elem_of_conn. split.
    + intros ([id' n]&<-&Hin). apply list_elem_of_In, list_elem_of_filter in Hin as [Hc Hin].
      rewrite ord_nodes_perm in Hin. apply elem_of_map_to_list in Hin. exists n.
      by apply Is_true_true in Hc.
    + intros (n&Hn&Hc). exists (id, n). split; [done|].
      apply list_elem_of_In, list_elem_of_filter. split; [by apply Is_true_true|].
      rewrite ord_nodes_perm. by apply elem_of_map_to_list.
Qed.

Lemma on_report_ok ps id c :
  ps_ok ps →
  ∃ ps', on_report_peer e ps id c = Ok ps' ∧ handled None (conn (data ps)) ps ps' ∧
    (id ∈ conn (data ps') → BANNED_THRESHOLD ≤ get_reputation (data ps') id).
Proof using OrderLaws0.
  intros [Hs Hm]. unfold on_report_peer.
  destruct (update_time_ok (ord e) (now e) ps Hs) as (ps1&->&H1&H2&H3&H4&(F1&F2&F3)&H5&H6).
  cbn [mbind result_bind]. pose proof (peer_spec (data ps1) id) as Hp.
  assert (priority_only (data ps1) = reserved_only ps1) as Hm1
    by (destruct H3 as (_&_&_&->); congruence).
  destruct (peer (data ps1) id) as [id'|id'|id']; destruct Hp as [-> Hp].
  - pose proof Hp as (n&Hn&Hc)%elem_of_conn.
    destruct (add_reputation_ok (stamp e id) (data ps1) id n (value c) H1 Hn) as (G1&G2&G3&G4).
    assert (ps_ok (with_data ps1 (add_reputation (stamp e id) (data ps1) id (value c)))) as Hok.
    { split; [done|]. cbn. destruct G3 as (_&_&_&->). done. }
    rewrite <- H2, <- G2 in *. destruct (Z.ltb_spec (get_reputation
      (add_reputation (stamp e id) (data ps1) id (value c)) id) BANNED_THRESHOLD).
    + eexists. split_and!; [done|by apply (drop_ok None ps _ id (stamp e id) Hok)|].
      cbn. destruct (disconnect_good (ord e) (stamp e id)
        (add_reputation (stamp e id) (data ps1) id (value c)) id G1) as (_&->&_). set_solver.
    + eexists. split_and!; [done|rewrite H2; by apply handled_same|done].
  - destruct Hp as [Hnc Hid]. apply is_not_connected_spec in Hid as (n&Hn&Hc).
    destruct (add_reputation_ok (stamp e id) (data ps1) id n (value c) H1 Hn) as (G1&G2&G3&G4).
    eexists. split_and!; [done|apply handled_same; cbn; [|done..|congruence]|cbn; by rewrite G2].
    split; [done|]. cbn. destruct G3 as (_&_&_&->). done.
  - destruct (discover_ok (stamp e id) (data ps1) id H1 Hp) as (D1&D2&D3&D4).
    apply is_not_connected_spec in D4 as D5. destruct D5 as (n&Hn&Hc).
    destruct (add_reputation_ok (stamp e id) (discover (stamp e id) (data ps1) id) id n (value c) D1 Hn)
      as (G1&G2&G3&G4).
    eexists. split_and!; [done|apply handled_same; cbn; [|done..|congruence]|cbn; rewrite G2].
    + split; [done|]. cbn. destruct (same_config_trans _ _ _ D3 G3) as (_&_&_&->). done.
    + by apply not_connected_conn in D4.
Qed.

Lemma on_action_ok ps a :
  ps_ok ps →
  ∃ ps', on_action e ps a = Ok ps' ∧ handled None (conn (data ps)) ps ps'.
Proof using OrderLaws0.
  intros Hok.
  assert (∀ g ids, ∃ ps', alloc_slots (ord e) (now e)
    (with_data ps (set_priority_group (ord e) (stamp e) (data ps) g ids)) = Ok ps' ∧
    handled None (conn (data ps)) ps ps') as Hset.
  { intros g ids. destruct (set_group_ok (ord e) (stamp e) ps g ids Hok) as [H1 H2].
    destruct (alloc_slots_handled (ord e) None (now e) ps _ H1 eq_refl eq_refl eq_refl)
      as (ps'&E&H3&_).
    exists ps'. cbn in H3. by rewrite H2 in H3. }
  destruct a as [id|id|b|id c|g ids|g id|g id]; cbn [on_action];
    try (unfold on_add_reserved_peer, on_set_priority_group, on_add_to_priority_group,
         on_remove_from_priority_group; apply Hset).
  - unfold on_remove_reserved_peer. set (d := set_priority_group _ _ _ _ _).
    destruct (set_group_ok (ord e) (stamp e) ps RESERVED_NODES
      (default ∅ (get_priority_group (data ps) RESERVED_NODES) ∖ {[id]}) Hok) as [H1 H2].
    fold d in H1, H2. pose proof (peer_spec d id) as Hp.
    destruct (peer d id) as [id'|id'|id']; destruct Hp as [-> Hp].
    2,3: eexists; split; [done|by apply handled_same].
    destruct (reserved_only ps); [|eexists; split; [done|by apply handled_same]].
    eexists. split; [done|]. rewrite <- H2.
    by apply (drop_ok None ps (with_data ps d) id (stamp e id) H1).
  - unfold on_set_reserved_only. set (ps1 := MkPeerset _ b _ _ _ _).
    assert (ps_ok ps1) as Hok1 by (destruct Hok as [[] _]; split; [by constructor|done]).
    destruct b.
    + destruct (connected_peers_ok (data ps1)) as [Hnd Hc].
      destruct (drop_others_ok None (default ∅ (get_priority_group (data ps1) RESERVED_NODES))
        (connected_peers (ord e) (data ps1)) ps1 Hok1 Hnd) as (ps'&E&H1&_); [apply Hc|].
      exists ps'. split; [done|]. destruct H1. by constructor.
    + destruct (alloc_slots_handled (ord e) None (now e) ps ps1 Hok1 eq_refl eq_refl eq_refl)
        as (ps'&E&H1&_). by exists ps'.
  - destruct (on_report_ok ps id c Hok) as (ps'&E&H1&_). by exists ps'.
Qed.

Lemma bump_rep_ok t s id :
  good s → is_not_connected s id = true →
  let s' := bump_last_connected_or_discovered t s id in
  good s' ∧ conn s' = conn s ∧ same_config s s' ∧ same_nums s s' ∧
  is_not_connected s' id = true ∧ get_reputation s' id = get_reputation s id.
Proof.
  intros [Hs Hr Hm] (n&Hn&Hc)%is_not_connected_spec. cbn zeta.
  unfold bump_last_connected_or_discovered. rewrite Hn. destruct n as [[| |t0] r]; try done.
  split_and!; [constructor| | | | |]; try done.
  - rewrite slots_counts. by eapply (counts_same _ s).
  - intros id' n'. cbn. rewrite lookup_insert. case_decide; [|apply Hr].
    intros [= <-]. exact (Hr id _ Hn).
  - by eapply conn_insert_same.
  - apply is_not_connected_spec. cbn. rewrite lookup_insert_eq. eauto.
  - unfold get_reputation. cbn. by rewrite lookup_insert_eq, Hn.
Qed.

(** The answer to an incoming connection of a node we are not connected to. *)
Definition refused (ps : Peerset) (id : PeerId) : Prop :=
  get_reputation (data ps) id < BANNED_THRESHOLD ∨
  ((id ∉ members (priority_nodes (data ps))) ∧
   (reserved_only ps = true ∨ max_in (data ps) ≤ num_in (data ps))).

Lemma answer_ok ps ps1 id i d :
  good d → priority_only d = reserved_only ps1 → is_not_connected d id = true →
  conn d = conn (data ps) → rx ps1 = rx ps → created ps1 = created ps →
  message_queue ps1 = message_queue ps →
  let ps' :=
    if get_reputation d id <? BANNED_THRESHOLD
    then push_back (with_data ps1 d) (Reject i)
    else match try_accept_incoming (ord e) d id with
         | (d', true) => push_back (with_data ps1 d') (Accept i)
         | (d', false) => push_back (with_data ps1 d') (Reject i)
         end in
  handled (Some (id, i)) (conn (data ps)) ps ps' ∧
  ((message_queue ps' = message_queue ps ++ [Accept i] ∧ id ∈ conn (data ps')) ∨
   (message_queue ps' = message_queue ps ++ [Reject i] ∧ (id ∉ conn (data ps')) ∧ refused ps' id)).
Proof using OrderLaws0.
  intros Hs Hm Hid Hc Hrx Hcr Hq. cbn zeta. pose proof (not_connected_conn _ _ Hid) as Hnc.
  assert (∀ d', good d' → priority_only d' = reserved_only ps1 → conn d' = conn d →
    handled (Some (id, i)) (conn (data ps)) ps (push_back (with_data ps1 d') (Reject i))) as Hrej.
  { intros d' Hg Hp Hcd. constructor; [done..|]. exists [Reject i]. cbn. rewrite Hq, Hcd, Hc.
    split; [done|]. eapply trace_reject; [done|by rewrite <- Hc|constructor]. }
  destruct (Z.ltb_spec (get_reputation d id) BANNED_THRESHOLD) as [Hb|Hb].
  { split; [by apply Hrej|]. right. cbn. rewrite Hq. split_and!; [done|done|by left]. }
  pose proof (try_accept_incoming_ok (ord e) d id (good_slots _ Hs) Hid) as Hto.
  destruct (try_accept_incoming (ord e) d id) as [d' []]; destruct Hto as (H1&H2&H3).
  - destruct H3 as [Hns _]. pose proof Hid as (n&Hn&_)%is_not_connected_spec.
    rewrite (alter_known _ _ _ n Hn) in Hns. pose proof (conn_insert _ _ _ _ Hns) as Hcd. cbn in Hcd.
    split; [constructor; cbn; [|done..|]|].
    + split; [constructor; [done| |cbn; destruct H2 as (->&->&_); apply Hs]|].
      * intros id' n'. cbn. rewrite Hns, lookup_insert. case_decide; [|apply Hs].
        intros [= <-]. exact (good_rep _ Hs id n Hn).
      * cbn. destruct H2 as (_&_&_&->). done.
    + exists [Accept i]. rewrite Hq, Hcd, <- Hc. split; [done|].
      eapply trace_accept; [done|done|constructor].
    + left. cbn. rewrite Hq, Hcd. split; [done|set_solver].
  - destruct H3 as (->&Hp&Hlim). split; [by apply Hrej|]. right. cbn. rewrite Hq.
    split_and!; [done..|]. right. cbn. rewrite <- Hm. done.
Qed.

Lemma incoming_ok ps id i :
  ps_ok ps →
  ∃ ps', incoming e ps id i = Ok ps' ∧ handled (Some (id, i)) (conn (data ps)) ps ps' ∧
    if decide (id ∈ conn (data ps)) then message_queue ps' = message_queue ps
    else
      (message_queue ps' = message_queue ps ++ [Accept i] ∧ id ∈ conn (data ps')) ∨
      (message_queue ps' = message_queue ps ++ [Reject i] ∧ (id ∉ conn (data ps')) ∧ refused ps' id).
Proof using OrderLaws0.
  intros [Hs Hm]. unfold incoming.
  destruct (update_time_ok (ord e) (now e) ps Hs) as (ps1&->&H1&H2&H3&H4&(F1&F2&F3)&H5&H6).
  cbn [mbind result_bind]. pose proof (peer_spec (data ps1) id) as Hp.
  assert (priority_only (data ps1) = reserved_only ps1) as Hm1
    by (destruct H3 as (_&_&_&->); congruence).
  destruct (peer (data ps1) id) as [id'|id'|id']; destruct Hp as [-> Hp].
  - exists ps1. rewrite decide_True by (by rewrite <- H2).
    split_and!; [done| |done]. by apply handled_same.
  - destruct Hp as [Hnc Hid].
    destruct (bump_rep_ok (stamp e id) (data ps1) id H1 Hid) as (B1&B2&(_&_&_&B3)&_&B4&_).
    eexists. split; [done|]. rewrite decide_False by (by rewrite <- H2). apply answer_ok; congruence.
  - apply conn_not_known in Hp as Hnc.
    destruct (discover_ok (stamp e id) (data ps1) id H1 Hp) as (D1&D2&(_&_&_&D3)&D4).
    eexists. split; [done|]. rewrite decide_False by (by rewrite <- H2). apply answer_ok; congruence.
Qed.

Lemma dropped_ok ps id :
  ps_ok ps →
  ∃ ps', dropped e ps id = Ok ps' ∧ handled None (conn (data ps) ∖ {[id]}) ps ps' ∧ filled ps'.
Proof using OrderLaws0.
  intros [Hs Hm]. unfold dropped.
  destruct (update_time_ok (ord e) (now e) ps Hs) as (ps1&->&H1&H2&H3&H4&(F1&F2&F3)&H5&H6).
  cbn [mbind result_bind]. pose proof (peer_spec (data ps1) id) as Hp.
  assert (priority_only (data ps1) = reserved_only ps1) as Hm1
    by (destruct H3 as (_&_&_&->); congruence).
  destruct (peer (data ps1) id) as [id'|id'|id']; destruct Hp as [-> Hp]; rewrite <- H2.
  - pose proof Hp as (n&Hn&Hc)%elem_of_conn.
    destruct (add_reputation_ok (stamp e id) (data ps1) id n DISCONNECT_REPUTATION_CHANGE H1 Hn)
      as (G1&G2&G3&G4).
    destruct (disconnect_good (ord e) (stamp e id) _ id G1) as (D1&D2&D3). rewrite G2 in D2.
    rewrite <- D2. apply (alloc_slots_handled (ord e)); [split; [done|]|done..]. cbn.
    destruct (same_config_trans _ _ _ G3 D3) as (_&_&_&->). done.
  - destruct Hp as [Hnc _]. replace (conn (data ps1) ∖ {[id]}) with (conn (data ps1)) by set_solver.
    by apply (alloc_slots_handled (ord e)).
  - apply conn_not_known in Hp.
    replace (conn (data ps1) ∖ {[id]}) with (conn (data ps1)) by set_solver.
    by apply (alloc_slots_handled (ord e)).
Qed.

Lemma discovered_ok ps ids :
  ps_ok ps →
  ∃ ps', discovered e ps ids = Ok ps' ∧ handled None (conn (data ps)) ps ps'.
Proof using OrderLaws0.
  intros [Hs Hm]. unfold discovered. pose proof (discover_all_ok e ids (data ps) false Hs) as Hd.
  destruct (discover_all e ids (data ps) false) as [d any].
  destruct Hd as (H1&H2&(_&_&_&H3)&H4&H5). destruct any.
  - destruct (alloc_slots_handled (ord e) None (now e) ps (with_data ps d)) as (ps'&E&H6&_);
      [split; [done|]; cbn; congruence|done..|].
    exists ps'. split; [done|]. cbn in H6. by rewrite H2 in H6.
  - eexists. split; [done|]. apply handled_same; [|done..]. split; [done|]. cbn. congruence.
Qed.

Lemma new_good config :
  fits 32 (in_peers config) → fits 32 (out_peers config) →
  good (new (PeerId := PeerId) (in_peers config) (out_peers config) (cfg_reserved_only config)).
Proof. intros Hi Ho. by constructor. Qed.

Lemma from_config_ok t config :
  fits 32 (in_peers config) → fits 32 (out_peers config) →
  ∃ ps', from_config e t config = Ok ps' ∧ ps_ok ps' ∧ filled ps' ∧
    rx ps' = [] ∧ trace None ∅ (message_queue ps') (conn (data ps')).
Proof using OrderLaws0.
  intros Hi Ho. pose proof (new_good config Hi Ho) as Hs. unfold from_config.
  set (d0 := new _ _ _) in *.
  set (d1 := set_priority_group _ _ _ _ _).
  destruct (set_priority_group_ok (ord e) (stamp e) d0 RESERVED_NODES
    (list_to_set (reserved_nodes config)) (good_slots _ Hs)) as (H1&H2&H3&H4&H5&H6&_).
  change (slots_ok d1) in H1. change (extends (nodes d0) (nodes d1)) in H2.
  assert (good d1) as Hd1 by (by eapply good_extends).
  pose proof (discover_all_ok e (bootnodes config) d1 false Hd1) as Hd.
  destruct (discover_all e (bootnodes config) d1 false) as [d2 any].
  destruct Hd as (G1&G2&(_&_&_&G3)&_). cbn [fst].
  set (ps0 := MkPeerset d2 _ [] [] t t).
  destruct (alloc_slots_handled (ord e) None (now e) ps0 ps0) as (ps'&E&A1&A2); [|done..|].
  { split; [done|]. cbn. rewrite G3. done. }
  exists ps'. destruct A1 as [B1 B2 B3 (ms&B4&B5)]. split_and!; try done.
  cbn in B4. rewrite B4. cbn in B5. rewrite G2, (conn_extends _ _ H2) in B5. exact B5.
Qed.
End handlers.

Lemma poll_actions_ok env actions ps :
  (∀ n, OrderLaws (ord (env n))) → ps_ok ps →
  ∃ ps' m ms, poll_actions env actions ps = Ok (ps', m) ∧ ps_ok ps' ∧
    message_queue ps ++ ms = option_list m ++ message_queue ps' ∧
    trace None (conn (data ps)) ms (conn (data ps')) ∧
    (m = None → rx ps' = [] ∧ message_queue ps' = []).
Proof.
  intros He. revert ps. induction actions as [|a actions IH]; intros ps Hok; cbn [poll_actions];
    destruct (message_queue ps) as [|m q] eqn:Hq.
  - eexists _, None, []. split_and!; [done|done|done|constructor|done].
  - eexists _, (Some m), []. split_and!; [done|done|by rewrite app_nil_r|constructor|done].
  - destruct (on_action_ok (env (length actions)) ps a Hok) as (ps1&->&[H1 _ _ (ms1&H2&H3)]).
    cbn [mbind result_bind]. destruct (IH ps1 H1) as (ps'&m&ms2&E&H4&H5&H6&H7).
    exists ps', m, (ms1 ++ ms2). split_and!; [done|done| |by eapply trace_app|done].
    rewrite Hq in H2. rewrite <- H5, H2. done.
  - eexists _, (Some m), []. split_and!; [done|done|by rewrite app_nil_r|constructor|done].
Qed.

(** ** Histories *)

Inductive reach : Peerset → Prop :=
| reach_config e t config ps :
    OrderLaws (ord e) → fits 32 (in_peers config) → fits 32 (out_peers config) →
    from_config e t config = Ok ps → reach ps
| reach_send ps a : reach ps → reach (send ps a)
| reach_poll env ps ps' m :
    reach ps → (∀ n, OrderLaws (ord (env n))) → poll_next env ps = Ok (ps', m) → reach ps'
| reach_incoming e ps id i ps' :
    reach ps → OrderLaws (ord e) → incoming e ps id i = Ok ps' → reach ps'
| reach_dropped e ps id ps' :
    reach ps → OrderLaws (ord e) → dropped e ps id = Ok ps' → reach ps'
| reach_discovered e ps ids ps' :
    reach ps → OrderLaws (ord e) → discovered e ps ids = Ok ps' → reach ps'.

Lemma peerset_reach_ok ps : reach ps → ps_ok ps.
Proof.
  induction 1 as [e t config ps Ho Hi Hout Hc|ps a _ IH|env ps ps' m _ IH Ho Hp|
    e ps id i ps' _ IH Ho Hi|e ps id ps' _ IH Ho Hd|e ps ids ps' _ IH Ho Hd].
  - destruct (from_config_ok e t config Hi Hout) as (ps'&E&Hok&_). congruence.
  - exact IH.
  - destruct (poll_actions_ok env (rx ps) ps Ho IH) as (ps1&m1&ms&E&Hok&_).
    unfold poll_next in Hp. congruence.
  - destruct (incoming_ok e ps id i IH) as (ps1&E&[Hok _ _ _]&_). congruence.
  - destruct (dropped_ok e ps id IH) as (ps1&E&[Hok _ _ _]&_). congruence.
  - destruct (discovered_ok e ps ids IH) as (ps1&E&[Hok _ _ _]). congruence.
Qed.

(** Non-priority nodes connected in a given way. *)
Definition slot_users (c : ConnectionState) (s : PeersState PeerId) : gmap PeerId Node :=
  filter (λ p, (p.1 ∉ members (priority_nodes s)) ∧ connection_state p.2 = c) (nodes s).

Lemma count_size u c pr (ns : gmap PeerId Node) :
  (∀ c', u c' = if decide (c' = c) then 1 else 0) →
  count u pr ns = Z.of_nat (size (filter (λ p, (p.1 ∉ pr) ∧ connection_state p.2 = c) ns)).
Proof.
  intros Hu. induction ns as [|id n ns Hid IH] using map_ind.
  - by rewrite map_filter_empty, map_size_empty.
  - rewrite count_insert by done. rewrite IH. unfold slot. rewrite Hu.
    destruct (decide ((id ∉ pr) ∧ connection_state n = c)) as [[H1 H2]|Hn].
    + rewrite map_filter_insert_True by done.
      rewrite map_size_insert_None by (apply map_lookup_filter_None; by left).
      rewrite decide_False, decide_True by done. lia.
    + rewrite map_filter_insert_False, delete_id by done.
      destruct (decide (id ∈ pr)); [lia|]. rewrite decide_False by (intros Hc; by apply Hn). lia.
Qed.

(** ** Correctness *)

(** In every state the manager can be in, whatever the iteration order of the
    hash maps and the instants read: the counters [num_in] and [num_out] are the
    numbers of non-priority nodes with an ingoing and an outgoing connection (on
    32 bits), reputations are in the range of [i32], and only-priority mode is on
    exactly in reserved-only mode. *)
Theorem slots_invariant ps :
  reach ps →
  num_in (data ps) = wrap 32 (Z.of_nat (size (slot_users In (data ps)))) ∧
  num_out (data ps) = wrap 32 (Z.of_nat (size (slot_users Out (data ps)))) ∧
  (∀ id n, nodes (data ps) !! id = Some n → - 2 ^ 31 ≤ reputation n < 2 ^ 31) ∧
  priority_only (data ps) = reserved_only ps.
Proof.
  intros [[[Hi Ho] Hr _] Hm]%peerset_reach_ok. split_and!; [| |done|done].
  - rewrite Hi. f_equal. apply count_size. by intros [].
  - rewrite Ho. f_equal. apply count_size. by intros [].
Qed.

(** C30. No handler of a reachable manager panics, and its loops end: every event
    is handled.  The messages it queues announce exactly the changes of the
    connections, in order: [Connect] and [Accept] are sent for a node that is not
    connected, [Drop] for a node that is, and after the last of them the network
    has the connections of the manager.  Polling returns the first queued message
    and is pending only when no action and no message is left. *)
Theorem handlers_announce ps :
  reach ps →
  (∀ e a, OrderLaws (ord e) →
     ∃ ps', on_action e ps a = Ok ps' ∧ handled None (conn (data ps)) ps ps') ∧
  (∀ e id i, OrderLaws (ord e) →
     ∃ ps', incoming e ps id i = Ok ps' ∧ handled (Some (id, i)) (conn (data ps)) ps ps') ∧
  (∀ e id, OrderLaws (ord e) →
     ∃ ps', dropped e ps id = Ok ps' ∧ handled None (conn (data ps) ∖ {[id]}) ps ps') ∧
  (∀ e ids, OrderLaws (ord e) →
     ∃ ps', discovered e ps ids = Ok ps' ∧ handled None (conn (data ps)) ps ps') ∧
  (∀ env, (∀ n, OrderLaws (ord (env n))) →
     ∃ ps' m ms, poll_next env ps = Ok (ps', m) ∧
       message_queue ps ++ ms = option_list m ++ message_queue ps' ∧
       trace None (conn (data ps)) ms (conn (data ps')) ∧
       (m = None → rx ps' = [] ∧ message_queue ps' = [])).
Proof.
  intros Hok%peerset_reach_ok. split_and!.
  - intros e a Ho. by apply on_action_ok.
  - intros e id i Ho. destruct (incoming_ok e ps id i Hok) as (ps'&?&?&_). eauto.
  - intros e id Ho. destruct (dropped_ok e ps id Hok) as (ps'&?&?&_). eauto.
  - intros e ids Ho. by apply discovered_ok.
  - intros env Ho. destruct (poll_actions_ok env (rx ps) ps Ho Hok) as (ps'&m&ms&?&_&?&?&?).
    exists ps', m, ms. done.
Qed.

(** [alloc_slots] ends, only opens connections, never beyond the limit on
    outgoing slots, and afterwards the slots are filled: in reserved-only mode
    every known reserved node is connected; otherwise every known priority node
    is, and a known node is left unconnected only if its reputation is below the
    ban threshold or no outgoing slot is free. *)
Theorem alloc_slots_correct (o : Order PeerId) t ps :
  OrderLaws o → reach ps →
  ∃ ps' ids, alloc_slots o t ps = Ok ps' ∧
    message_queue ps' = message_queue ps ++ map Connect ids ∧
    conn (data ps') = conn (data ps) ∪ list_to_set ids ∧
    num_out (data ps') ≤ Z.max (num_out (data ps)) (max_out (data ps)) ∧
    (if reserved_only ps
     then ∀ id, id ∈ default ∅ (priority_nodes (data ps) !! RESERVED_NODES) →
       is_not_connected (data ps') id = false
     else
       (∀ id, id ∈ members (priority_nodes (data ps)) → is_not_connected (data ps') id = false) ∧
       (∀ id, is_not_connected (data ps') id = true →
          get_reputation (data ps') id < BANNED_THRESHOLD ∨
          max_out (data ps) ≤ num_out (data ps'))).
Proof.
  intros Ho Hok%peerset_reach_ok.
  destruct (alloc_slots_ok o t ps Hok) as (ps'&ids&E&_&[F1 F2]&Hcfg&Hfr&_&Hq&Hc&_&_&Hout).
  exists ps', ids. split_and!; [done..|]. rewrite (wanted_same ps ps' Hcfg Hfr) in F1.
  unfold wanted in F1. destruct Hfr as (Hro&_). rewrite Hro in F2.
  destruct (reserved_only ps); [done|]. split; [done|]. intros id Hid.
  destruct Hcfg as (_&<-&_). by apply F2.
Qed.

(** [incoming] answers the connection of a node that is not connected with
    exactly one message for its index, and does not answer when the node already
    is.  It accepts and connects the node, unless its reputation is below the ban
    threshold or it is not a priority node and there is no free ingoing slot or
    only reserved nodes are allowed. *)
Theorem incoming_correct e ps id i :
  OrderLaws (ord e) → reach ps →
  ∃ ps', incoming e ps id i = Ok ps' ∧
    if decide (id ∈ conn (data ps)) then message_queue ps' = message_queue ps
    else
      (message_queue ps' = message_queue ps ++ [Accept i] ∧ id ∈ conn (data ps')) ∨
      (message_queue ps' = message_queue ps ++ [Reject i] ∧ (id ∉ conn (data ps')) ∧ refused ps' id).
Proof.
  intros Ho Hok%peerset_reach_ok. destruct (incoming_ok e ps id i Hok) as (ps'&?&_&?). eauto.
Qed.

(** After [on_report_peer], the reported node is connected only if its
    reputation is not below the ban threshold. *)
Theorem on_report_peer_bans e ps id c :
  OrderLaws (ord e) → reach ps →
  ∃ ps', on_report_peer e ps id c = Ok ps' ∧
    (id ∈ conn (data ps') → BANNED_THRESHOLD ≤ get_reputation (data ps') id).
Proof.
  intros Ho Hok%peerset_reach_ok. destruct (on_report_ok e ps id c Hok) as (ps'&?&_&?). eauto.
Qed.
End peerset.

(** A second of fading moves a reputation towards zero without crossing it,
    by at least a fiftieth (rounded down) and by at least one, so that the
    reputation is back to zero in the end. *)
Theorem reput_tick_correct r :
  - 2 ^ 31 ≤ r < 2 ^ 31 →
  (r = 0 → reput_tick r = 0) ∧ (0 < r → 0 ≤ reput_tick r < r) ∧ (r < 0 → r < reput_tick r ≤ 0) ∧
  50 * Z.abs (reput_tick r) ≤ 49 * Z.abs r + 49 ∧
  Nat.iter (Z.to_nat (Z.abs r)) reput_tick r = 0.
Proof.
  assert (∀ r, - 2 ^ 31 ≤ r < 2 ^ 31 →
    (r = 0 → reput_tick r = 0) ∧ (0 < r → 0 ≤ reput_tick r < r) ∧ (r < 0 → r < reput_tick r ≤ 0) ∧
    50 * Z.abs (reput_tick r) ≤ 49 * Z.abs r + 49) as Htick.
  { intros x Hx. unfold reput_tick, saturate. pose proof (Z.quot_rem' x 50) as Hqr.
    pose proof (Z.rem_bound_abs x 50 ltac:(lia)) as Hb.
    assert (0 < x → 0 ≤ Z.rem x 50) by (intros; apply Z.rem_nonneg; lia).
    assert (x < 0 → Z.rem x 50 ≤ 0) by (intros; apply Z.rem_nonpos; lia).
    destruct (Z.eqb_spec (Z.quot x 50) 0), (Z.ltb_spec x 0), (Z.ltb_spec 0 x); cbn [andb]; lia. }
  intros Hr. split_and!; try apply Htick; try done.
  assert (∀ n x, - 2 ^ 31 ≤ x < 2 ^ 31 → Z.abs x ≤ Z.of_nat n → Nat.iter n reput_tick x = 0) as Hiter.
  { induction n as [|n IH]; intros x Hx Hn; [simpl; lia|]. rewrite Nat.iter_succ_r.
    destruct (Htick x Hx) as (H1&H2&H3&_). apply IH; lia. }
  apply Hiter; lia.
Qed.

Arguments Peerset PeerId {_ _}.
Arguments Env PeerId {_ _}.
Arguments PeersetConfig : clear implicits.

(** ** A concrete manager

    Nodes are numbers; one ingoing and one outgoing slot, two boot nodes and a
    reserved node. *)
Module SmallNetwork.

Definition plain : Order nat := {|
  ord_nodes := map_to_list;
  ord_groups := map_to_list;
  ord_set := elements;
|}.
#[export] Instance plain_laws : OrderLaws plain.
Proof. by split. Qed.

Definition env (t : Z) : Env nat := MkEnv plain t t (λ _, t).
#[export] Instance env_laws t : OrderLaws (ord (env t)).
Proof. apply plain_laws. Qed.

Definition config : PeersetConfig nat := MkPeersetConfig 1 1 [1%nat; 2%nat] false [7%nat].

Definition nothing : Peerset nat := MkPeerset (new 0 0 false) false [] [] 0 0.
Definition get (r : result Empty_set (Peerset nat)) : Peerset nat :=
  match r with Ok ps => ps | _ => nothing end.

Definition start : Peerset nat := get (from_config (env 0) 0 config).
Definition later : Peerset nat := get (incoming (env (2 * 10 ^ 9)) start 1%nat 40).

(** The reserved node and one boot node are connected at once, the other boot
    node takes the ingoing slot. *)
Lemma later_queue : message_queue later = [Connect 7%nat; Connect 2%nat; Accept 40].
Proof. by vm_compute. Qed.

Lemma start_reached : reach start.
Proof.
  apply (reach_config (env 0) 0 config); [apply _|by vm_compute|by vm_compute|by vm_compute].
Qed.

Lemma later_reached : reach later.
Proof.
  apply (reach_incoming (env (2 * 10 ^ 9)) start 1%nat 40); [apply start_reached|apply _|by vm_compute].
Qed.

Lemma slots_invariant_witness :
  num_in (data later) = wrap 32 (Z.of_nat (size (slot_users In (data later)))) ∧
  num_out (data later) = wrap 32 (Z.of_nat (size (slot_users Out (data later)))) ∧
  (∀ id n, nodes (data later) !! id = Some n → - 2 ^ 31 ≤ reputation n < 2 ^ 31) ∧
  priority_only (data later) = reserved_only later.
Proof. exact (slots_invariant later later_reached). Defined.

Lemma handlers_announce_witness :
  ∃ ps', on_action (env (3 * 10 ^ 9)) later (ReportPeer 1%nat (new_fatal "bad")) = Ok ps' ∧
    handled None (conn (data later)) later ps'.
Proof.
  exact (proj1 (handlers_announce later later_reached) (env (3 * 10 ^ 9))
    (ReportPeer 1%nat (new_fatal "bad")) (env_laws _)).
Defined.

Lemma alloc_slots_correct_witness :
  ∃ ps' ids, alloc_slots plain (3 * 10 ^ 9) later = Ok ps' ∧
    message_queue ps' = message_queue later ++ map Connect ids.
Proof.
  destruct (alloc_slots_correct plain (3 * 10 ^ 9) later plain_laws later_reached)
    as (ps'&ids&E&Hq&_).
  exists ps', ids. exact (conj E Hq).
Defined.

Lemma incoming_correct_witness :
  ∃ ps', incoming (env (3 * 10 ^ 9)) later 9%nat 41 = Ok ps' ∧
    if decide (9%nat ∈ conn (data later)) then message_queue ps' = message_queue later
    else
      (message_queue ps' = message_queue later ++ [Accept 41] ∧ 9%nat ∈ conn (data ps')) ∨
      (message_queue ps' = message_queue later ++ [Reject 41] ∧ (9%nat ∉ conn (data ps')) ∧
       refused ps' 9%nat).
Proof. exact (incoming_correct (env (3 * 10 ^ 9)) later 9%nat 41 (env_laws _) later_reached). Defined.

Lemma on_report_peer_bans_witness :
  ∃ ps', on_report_peer (env (3 * 10 ^ 9)) later 1%nat (new_fatal "bad") = Ok ps' ∧
    (1%nat ∈ conn (data ps') → BANNED_THRESHOLD ≤ get_reputation (data ps') 1%nat).
Proof.
  exact (on_report_peer_bans (env (3 * 10 ^ 9)) later 1%nat (new_fatal "bad") (env_laws _)
    later_reached).
Defined.

Lemma reput_tick_correct_witness :
  0 ≤ reput_tick 130 < 130 ∧ Nat.iter (Z.to_nat (Z.abs 130)) reput_tick 130 = 0.
Proof.
  destruct (reput_tick_correct 130) as (_&H1&_&_&H2); [lia|]. split; [apply H1; lia|exact H2].
Defined.
End SmallNetwork.
