(* ===== verification/StateDbBase.v ===== *)
(** * Common data of the state database (src/client/state-db/src/lib.rs)

    Change sets, commit sets, errors and metadata keys.  The SCALE codec is a
    library the sources only call: a [Codec] is a way to encode a type in bytes
    that decodes what it encoded. *)
From stdpp Require Import strings.
From S2P Require Import Prelude.
From Stdlib Require Import Ascii.

Local Open Scope Z_scope.

Abbreviation bytes := (list Z).
Abbreviation DBValue := (list Z).

Class Codec (A : Type) : Type := {
  encode : A → bytes;
  decode : bytes → option A;
  decode_encode : ∀ x, decode (encode x) = Some x;
}.

Lemma encode_inj {A} `{!Codec A} x y : encode x = encode y → x = y.
Proof. intros Hxy. apply (f_equal decode) in Hxy. rewrite !decode_encode in Hxy. congruence. Qed.

(** Bytes of a byte-string literal. *)
Fixpoint byte_string (s : string) : bytes :=
  match s with
  | EmptyString => []
  | String.String c s' => Z.of_nat (nat_of_ascii c) :: byte_string s'
  end.

Inductive Error (E : Type) : Type :=
| Db (e : E)
| Decoding
| InvalidBlock
| InvalidBlockNumber
| InvalidParent
| InvalidPruningMode (expected : bytes).
Arguments Db {E} e.
Arguments Decoding {E}.
Arguments InvalidBlock {E}.
Arguments InvalidBlockNumber {E}.
Arguments InvalidParent {E}.
Arguments InvalidPruningMode {E} expected.

Record ChangeSet (K : Type) : Type := MkChangeSet {
  inserted : list (K * DBValue);
  deleted : list K;
}.
Arguments MkChangeSet {K} inserted deleted.
Arguments inserted {K} c.
Arguments deleted {K} c.

Record CommitSet (K : Type) : Type := MkCommitSet {
  cs_data : ChangeSet K;
  cs_meta : ChangeSet bytes;
}.
Arguments MkCommitSet {K} cs_data cs_meta.
Arguments cs_data {K} c.
Arguments cs_meta {K} c.

Definition commit_default {K} : CommitSet K :=
  MkCommitSet (MkChangeSet [] []) (MkChangeSet [] []).

Definition to_meta_key {S} `{!Codec S} (suffix : bytes) (data : S) : bytes := encode data ++ suffix.

(** [db.get_meta(key).map_err(Error::Db)?], then decoding. *)
Definition read_meta {E A} `{!Codec A} (get_meta : bytes → E + option DBValue) (key : bytes) :
    result (Error E) (option A) :=
  match get_meta key with
  | inl e => Err (Db e)
  | inr None => Ok None
  | inr (Some buffer) =>
      match decode buffer with
      | Some x => Ok (Some x)
      | None => Err Decoding
      end
  end.

(** The two columns of the database after a commit. *)
Section commits.
Context {K : Type} `{Countable K}.

Definition put_all {L : Type} `{Countable L} (m : gmap L DBValue) (kvs : list (L * DBValue)) :
    gmap L DBValue :=
  foldl (λ m kv, <[kv.1 := kv.2]> m) m kvs.

Definition delete_all {L : Type} `{Countable L} (m : gmap L DBValue) (ks : list L) :
    gmap L DBValue :=
  foldl (λ m k, delete k m) m ks.

Definition apply_changes {L : Type} `{Countable L} (m : gmap L DBValue) (c : ChangeSet L) :
    gmap L DBValue :=
  delete_all (put_all m (inserted c)) (deleted c).

Definition apply_state_commit (state : gmap K DBValue) (meta : gmap bytes DBValue)
    (c : CommitSet K) : gmap K DBValue * gmap bytes DBValue :=
  (apply_changes state (cs_data c), apply_changes meta (cs_meta c)).
End commits.

Arguments put_all : simpl never.
Arguments delete_all : simpl never.
Arguments apply_changes : simpl never.
Arguments to_meta_key : simpl never.
Arguments byte_string : simpl never.

Lemma lookup_delete_all {L : Type} `{Countable L} (m : gmap L DBValue) ks k :
  delete_all m ks !! k = if decide (k ∈ ks) then None else m !! k.
Proof.
  unfold delete_all. revert m. induction ks as [|k' ks IH]; intros m; simpl; [done|].
  rewrite IH, lookup_delete. repeat case_decide; set_solver.
Qed.

Lemma lookup_put_all {L : Type} `{Countable L} (m : gmap L DBValue) kvs k :
  k ∉ map fst kvs → put_all m kvs !! k = m !! k.
Proof.
  unfold put_all. revert m. induction kvs as [|[k' v] kvs IH]; intros m Hk; simpl in *; [done|].
  rewrite IH by set_solver. apply lookup_insert_ne. set_solver.
Qed.

Lemma put_all_app {L : Type} `{Countable L} (m : gmap L DBValue) kvs kvs' :
  put_all m (kvs ++ kvs') = put_all (put_all m kvs) kvs'.
Proof. unfold put_all. apply foldl_app. Qed.

(** A further [put], a further deletion. *)
Lemma apply_put {L : Type} `{Countable L} (m : gmap L DBValue) ins del k v k' :
  apply_changes m (MkChangeSet (ins ++ [(k, v)]) del) !! k' =
  if decide (k' ∈ del) then None
  else if decide (k' = k) then Some v else apply_changes m (MkChangeSet ins del) !! k'.
Proof.
  unfold apply_changes. cbn [inserted deleted]. rewrite !lookup_delete_all. case_decide; [done|].
  rewrite put_all_app. unfold put_all at 1. cbn [foldl fst snd]. rewrite lookup_insert.
  repeat case_decide; naive_solver.
Qed.

Lemma apply_del {L : Type} `{Countable L} (m : gmap L DBValue) ins del k k' :
  apply_changes m (MkChangeSet ins (del ++ [k])) !! k' =
  if decide (k' = k) then None else apply_changes m (MkChangeSet ins del) !! k'.
Proof.
  unfold apply_changes. cbn [inserted deleted]. rewrite !lookup_delete_all.
  repeat case_decide; set_solver.
Qed.

(** Changes to other keys. *)
Lemma apply_foreign {L : Type} `{Countable L} (m : gmap L DBValue) ins del kvs ks k :
  k ∉ map fst kvs → k ∉ ks →
  apply_changes m (MkChangeSet (ins ++ kvs) (del ++ ks)) !! k =
  apply_changes m (MkChangeSet ins del) !! k.
Proof.
  intros Hkvs Hks. unfold apply_changes. cbn [inserted deleted]. rewrite !lookup_delete_all, put_all_app.
  rewrite lookup_put_all by done. repeat case_decide; set_solver.
Qed.

(** Keys that end in different bytes are different. *)
Lemma app_last_ne (a b s t : bytes) x y : x ≠ y → a ++ s ++ [x] ≠ b ++ t ++ [y].
Proof.
  intros Hne Heq. apply Hne. apply (f_equal last) in Heq.
  rewrite !app_assoc, !last_snoc in Heq. congruence.
Qed.

