(* ===== verification/Pruning.v ===== *)
(** * Pruning window (src/client/state-db/src/pruning.rs)

    The canonical blocks whose states are kept, with the keys each of them makes
    obsolete: a key is deleted from the database when the block that deleted it
    leaves the window, unless a later block of the window inserted it again.  The
    window is journaled in the database and read back from it. *)
From stdpp Require Import strings.
From S2P Require Import Prelude StateDbBase.

Local Open Scope Z_scope.

Definition LAST_PRUNED : bytes := byte_string "last_pruned".
Definition PRUNING_JOURNAL : bytes := byte_string "pruning_journal".

Section pruning.
Context {BlockHash Key : Type} `{!EqDecision BlockHash} `{Countable Key}.

Record DeathRow : Type := MkDeathRow {
  dr_hash : BlockHash;
  journal_key : bytes;
  dr_deleted : gset Key;
}.

Record RefWindow : Type := MkRefWindow {
  death_rows : list DeathRow;
  death_index : gmap Key Z;
  pending_number : Z;
  pending_canonicalizations : nat;
  pending_prunings : nat;
}.

Record JournalRecord : Type := MkJournalRecord {
  jr_hash : BlockHash;
  jr_inserted : list Key;
  jr_deleted : list Key;
}.

Context `{!Codec unit} `{!Codec Z} `{!Codec JournalRecord}.

(** The order in which a hash set of keys is iterated. *)
Context (ord : gset Key → list Key).

Definition to_journal_key (block : Z) : bytes := to_meta_key PRUNING_JOURNAL block.

(** The loop that takes the re-inserted keys off the death rows. *)
Fixpoint revive (pending : Z) (ks : list Key) (rows : list DeathRow) (index : gmap Key Z) :
    run (list DeathRow * gmap Key Z) :=
  match ks with
  | [] => Ok (rows, index)
  | k :: ks' =>
      match index !! k with
      | None => revive pending ks' rows index
      | Some block =>
          let i := Z.to_nat (block - pending) in
          row ← expect (rows !! i);
          let row' := MkDeathRow (dr_hash row) (journal_key row) (dr_deleted row ∖ {[k]}) in
          revive pending ks' (<[i := row']> rows) (delete k index)
      end
  end.

Definition import (w : RefWindow) (hash : BlockHash) (jkey : bytes) (ins : list Key)
    (del : list Key) : run RefWindow :=
  '(rows, index) ← revive (pending_number w) ins (death_rows w) (death_index w);
  let imported_block := pending_number w + Z.of_nat (length rows) in
  let index' := fold_left (λ m k, <[k := imported_block]> m) del index in
  Ok (MkRefWindow (rows ++ [MkDeathRow hash jkey (list_to_set del)]) index' (pending_number w)
        (pending_canonicalizations w) (pending_prunings w)).

(** The loop of [new] that reads the journal. *)
Fixpoint read_journal {E} (get_meta : bytes → E + option DBValue) (fuel : nat) (block : Z)
    (w : RefWindow) : option (result (Error E) RefWindow) :=
  match fuel with
  | O => None
  | S fuel' =>
      match read_meta (A := JournalRecord) get_meta (to_journal_key block) with
      | Err e => Some (Err e)
      | Panic => Some Panic
      | Ok None => Some (Ok w)
      | Ok (Some record) =>
          match import w (jr_hash record) (to_journal_key block) (jr_inserted record)
                  (jr_deleted record) with
          | Ok w' => read_journal get_meta fuel' (block + 1) w'
          | _ => Some Panic
          end
      end
  end.

Definition new {E} (get_meta : bytes → E + option DBValue) (fuel : nat) :
    option (result (Error E) RefWindow) :=
  match read_meta (A := Z) get_meta (to_meta_key LAST_PRUNED tt) with
  | Err e => Some (Err e)
  | Panic => Some Panic
  | Ok last_pruned =>
      let pending := match last_pruned with Some n => n + 1 | None => 0 end in
      read_journal get_meta fuel pending (MkRefWindow [] ∅ pending 0 0)
  end.

Definition window_size (w : RefWindow) : Z :=
  wrap 64 (Z.of_nat (length (death_rows w)) - Z.of_nat (pending_prunings w)).

Definition next_hash (w : RefWindow) : option BlockHash :=
  dr_hash <$> death_rows w !! pending_prunings w.

Definition mem_used (w : RefWindow) : Z := 0.

Definition pending (w : RefWindow) : Z := pending_number w + Z.of_nat (pending_prunings w).

Definition have_block (w : RefWindow) (hash : BlockHash) : bool :=
  existsb (λ r, bool_decide (dr_hash r = hash)) (drop (pending_prunings w) (death_rows w)).

Definition prune_one (w : RefWindow) (c : CommitSet Key) : RefWindow * CommitSet Key :=
  match death_rows w !! pending_prunings w with
  | None => (w, c)
  | Some pruned =>
      let index := pending_number w + Z.of_nat (pending_prunings w) in
      (MkRefWindow (death_rows w) (death_index w) (pending_number w)
         (pending_canonicalizations w) (S (pending_prunings w)),
       MkCommitSet
         (MkChangeSet (inserted (cs_data c)) (deleted (cs_data c) ++ ord (dr_deleted pruned)))
         (MkChangeSet
            (inserted (cs_meta c) ++ [(to_meta_key LAST_PRUNED tt, encode index)])
            (deleted (cs_meta c) ++ [journal_key pruned])))
  end.

Definition note_canonical (w : RefWindow) (hash : BlockHash) (c : CommitSet Key) :
    run (RefWindow * CommitSet Key) :=
  let record := MkJournalRecord hash (map fst (inserted (cs_data c))) (deleted (cs_data c)) in
  let block := pending_number w + Z.of_nat (length (death_rows w)) in
  let jkey := to_journal_key block in
  let c' := MkCommitSet (MkChangeSet (inserted (cs_data c)) [])
              (MkChangeSet (inserted (cs_meta c) ++ [(jkey, encode record)])
                 (deleted (cs_meta c))) in
  w' ← import w (jr_hash record) jkey (jr_inserted record) (jr_deleted record);
  Ok (MkRefWindow (death_rows w') (death_index w') (pending_number w')
        (S (pending_canonicalizations w')) (pending_prunings w'), c').

(** One turn of the loop of [apply_pending]. *)
Definition pop_pruned (w : RefWindow) : run RefWindow :=
  match death_rows w with
  | [] => Panic
  | pruned :: rows =>
      Ok (MkRefWindow rows
            (fold_left (λ m k, delete k m) (ord (dr_deleted pruned)) (death_index w))
            (pending_number w + 1) (pending_canonicalizations w) (pending_prunings w))
  end.

Fixpoint pop_times (n : nat) (w : RefWindow) : run RefWindow :=
  match n with
  | O => Ok w
  | S n' => w' ← pop_pruned w; pop_times n' w'
  end.

Definition apply_pending (w : RefWindow) : run RefWindow :=
  w' ← pop_times (pending_prunings w)
         (MkRefWindow (death_rows w) (death_index w) (pending_number w) 0 (pending_prunings w));
  Ok (MkRefWindow (death_rows w') (death_index w') (pending_number w')
        (pending_canonicalizations w') 0).

(** [Vec::truncate]: no effect when the length is not reached. *)
Definition revert_pending (w : RefWindow) : RefWindow :=
  let rows :=
    if (pending_canonicalizations w <=? length (death_rows w))%nat
    then take (length (death_rows w) - pending_canonicalizations w) (death_rows w)
    else death_rows w in
  let new_max_block := Z.of_nat (length rows) + pending_number w in
  MkRefWindow rows (filter (λ p, p.2 < new_max_block) (death_index w)) (pending_number w) 0 0.

(** ** Specification *)

(** Keys that a list of records inserts. *)
Definition reinserted (rs : list JournalRecord) : gset Key := list_to_set (flat_map jr_inserted rs).

(** The death rows of the records [rs] of consecutive blocks from [block] on: each
    block has the keys it deleted that no later one inserted again. *)
Fixpoint rows_of (block : Z) (rs : list JournalRecord) : list DeathRow :=
  match rs with
  | [] => []
  | r :: rs' =>
      MkDeathRow (jr_hash r) (to_journal_key block) (list_to_set (jr_deleted r) ∖ reinserted rs')
      :: rows_of (block + 1) rs'
  end.

(** A key that is deleted by two blocks was inserted again after the first. *)
Definition alternating (rs : list JournalRecord) : Prop :=
  ∀ i j r r' k, rs !! i = Some r → rs !! j = Some r' → (i < j)%nat →
    k ∈ jr_deleted r → k ∈ jr_deleted r' →
    ∃ l r'', (i < l ≤ j)%nat ∧ rs !! l = Some r'' ∧ k ∈ jr_inserted r''.

(** [ex]: the rows are exactly the specified ones; otherwise keys may have been
    taken off them. *)
Definition row_match (ex : bool) (a b : DeathRow) : Prop :=
  dr_hash a = dr_hash b ∧ journal_key a = journal_key b ∧ dr_deleted a ⊆ dr_deleted b ∧
  (ex = true → dr_deleted a = dr_deleted b).

(** The index lists the keys of the rows, each key being in one row. *)
Definition index_ok (p : Z) (rows : list DeathRow) (index : gmap Key Z) : Prop :=
  ∀ k b, index !! k = Some b ↔
    ∃ i row, rows !! i = Some row ∧ b = p + Z.of_nat i ∧ k ∈ dr_deleted row.

Record window_ok (ex : bool) (w : RefWindow) (rs : list JournalRecord) : Prop := {
  wo_rows : Forall2 (row_match ex) (death_rows w) (rows_of (pending_number w) rs);
  wo_index : index_ok (pending_number w) (death_rows w) (death_index w);
  wo_alternating : alternating rs;
  wo_canon : (pending_canonicalizations w ≤ length rs)%nat;
  wo_prune : (pending_prunings w ≤ length rs)%nat;
}.

Hypothesis Hord : ∀ s, ord s ≡ₚ elements s.

Definition minus (ks : gset Key) (row : DeathRow) : DeathRow :=
  MkDeathRow (dr_hash row) (journal_key row) (dr_deleted row ∖ ks).

Lemma index_unique p rows index i j row row' k :
  index_ok p rows index → rows !! i = Some row → rows !! j = Some row' →
  k ∈ dr_deleted row → k ∈ dr_deleted row' → i = j.
Proof.
  intros Hok Hi Hj Hk Hk'.
  assert (index !! k = Some (p + Z.of_nat i)) as H1 by (apply Hok; eauto).
  assert (index !! k = Some (p + Z.of_nat j)) as H2 by (apply Hok; eauto).
  rewrite H1 in H2. injection H2. lia.
Qed.

Lemma minus_minus a b row : minus a (minus b row) = minus (b ∪ a) row.
Proof. unfold minus. cbn. f_equal. set_solver. Qed.

Lemma index_minus p rows index ks :
  index_ok p rows index →
  index_ok p (map (minus ks) rows) (filter (λ q, q.1 ∉ ks) index).
Proof.
  intros Hok k b. rewrite map_lookup_filter_Some. cbn. rewrite (Hok k b). split.
  - intros [(i&row&Hi&->&Hk) Hks]. exists i, (minus ks row).
    change (map (minus ks) rows) with (minus ks <$> rows). rewrite list_lookup_fmap, Hi.
    split_and!; [done..|]. cbn. set_solver.
  - change (map (minus ks) rows) with (minus ks <$> rows).
    intros (i&row'&Hi&->&Hk). rewrite list_lookup_fmap in Hi.
    destruct (rows !! i) as [row|] eqn:Hrow; [|done]. injection Hi as <-. cbn in Hk.
    split; [exists i, row; split_and!; [done..|set_solver]|set_solver].
Qed.

(** The key of one turn of [revive]. *)
Lemma revive_step p rows index k i row :
  index_ok p rows index → index !! k = Some (p + Z.of_nat i) → rows !! i = Some row →
  <[i := minus {[k]} row]> rows = map (minus {[k]}) rows.
Proof.
  intros Hok Hk Hi. apply list_eq. intros j.
  change (map (minus {[k]}) rows) with (minus {[k]} <$> rows). rewrite list_lookup_fmap.
  destruct (decide (i = j)) as [<-|Hne].
  - rewrite list_lookup_insert_eq by (by eapply lookup_lt_Some). by rewrite Hi.
  - rewrite list_lookup_insert_ne by done. destruct (rows !! j) as [row'|] eqn:Hj; [|done].
    simpl. f_equal. destruct row' as [h jk d]. unfold minus. cbn. f_equal.
    assert (k ∉ d); [|set_solver]. intros Hd.
    assert (index !! k = Some (p + Z.of_nat j)) as H2 by (apply Hok; eauto).
    rewrite Hk in H2. injection H2. lia.
Qed.

Lemma minus_absent p rows index k :
  index_ok p rows index → index !! k = None → map (minus {[k]}) rows = rows.
Proof.
  intros Hok Hk. apply list_eq. intros j.
  change (map (minus {[k]}) rows) with (minus {[k]} <$> rows). rewrite list_lookup_fmap.
  destruct (rows !! j) as [[h jk d]|] eqn:Hj; [|done]. simpl. unfold minus. cbn.
  do 2 f_equal. assert (k ∉ d); [|set_solver]. intros Hd.
  assert (index !! k = Some (p + Z.of_nat j)) as H2 by (apply Hok; eauto). congruence.
Qed.

Lemma filter_delete (ks : gset Key) (index : gmap Key Z) k :
  filter (λ q, q.1 ∉ ks) (delete k index) = filter (λ q, q.1 ∉ {[k]} ∪ ks) index.
Proof.
  apply map_eq. intros k'. apply option_eq. intros b.
  rewrite !map_lookup_filter_Some, lookup_delete_Some. cbn. set_solver.
Qed.

Lemma revive_ok p ks rows index :
  index_ok p rows index →
  revive p ks rows index =
    Ok (map (minus (list_to_set ks)) rows, filter (λ q, q.1 ∉ (list_to_set ks : gset Key)) index).
Proof.
  revert rows index. induction ks as [|k ks IH]; intros rows index Hok; cbn [revive list_to_set].
  - f_equal. f_equal.
    + symmetry. etrans; [|apply map_id]. apply map_ext. intros [h jk d]. unfold minus. cbn. f_equal.
      set_solver.
    + symmetry. apply map_filter_id. intros. cbn. set_solver.
  - assert (∀ l : list DeathRow, map (minus (list_to_set ks)) (map (minus {[k]}) l) =
      map (minus ({[k]} ∪ list_to_set ks)) l) as Hmm.
    { intros l. rewrite map_map. apply map_ext. intros row. apply minus_minus. }
    destruct (index !! k) as [b|] eqn:Hk.
    + destruct (proj1 (Hok k b) Hk) as (i&row&Hi&->&Hkr).
      replace (Z.to_nat (p + Z.of_nat i - p)) with i by lia. rewrite Hi.
      cbn [expect mbind result_bind]. change (MkDeathRow _ _ _) with (minus {[k]} row).
      rewrite (revive_step p rows index k i row Hok Hk Hi).
      assert (delete k index = filter (λ q, q.1 ∉ ({[k]} : gset Key)) index) as Hdel.
      { apply map_eq. intros k'. apply option_eq. intros b.
        rewrite map_lookup_filter_Some, lookup_delete_Some. cbn. set_solver. }
      rewrite IH by (rewrite Hdel; by apply index_minus).
      by rewrite Hmm, filter_delete.
    + rewrite IH by done. rewrite <- Hmm, (minus_absent p rows index k Hok Hk).
      f_equal. f_equal. rewrite <- filter_delete, delete_id by done. done.
Qed.

Lemma rows_of_length p rs : length (rows_of p rs) = length rs.
Proof. revert p. induction rs; intros p; simpl; auto. Qed.

Lemma rows_of_lookup p rs i row :
  rows_of p rs !! i = Some row →
  ∃ r, rs !! i = Some r ∧ row = MkDeathRow (jr_hash r) (to_journal_key (p + Z.of_nat i))
    (list_to_set (jr_deleted r) ∖ reinserted (drop (S i) rs)).
Proof.
  revert p i. induction rs as [|r rs IH]; intros p [|i] Hrow; simplify_eq/=.
  - exists r. split; [done|]. by rewrite Z.add_0_r.
  - apply IH in Hrow as (r'&?&->). exists r'. split; [done|].
    by replace (p + Z.of_nat (S i)) with (p + 1 + Z.of_nat i) by lia.
Qed.

Lemma rows_of_drop p n rs : drop n (rows_of p rs) = rows_of (p + Z.of_nat n) (drop n rs).
Proof.
  revert p n. induction rs as [|r rs IH]; intros p [|n]; try done.
  - cbn [drop]. by rewrite Z.add_0_r.
  - cbn [rows_of drop]. rewrite IH.
    by replace (p + Z.of_nat (S n)) with (p + 1 + Z.of_nat n) by lia.
Qed.

Lemma rows_of_snoc p rs r :
  rows_of p (rs ++ [r]) =
  map (minus (list_to_set (jr_inserted r))) (rows_of p rs) ++
  [MkDeathRow (jr_hash r) (to_journal_key (p + Z.of_nat (length rs))) (list_to_set (jr_deleted r))].
Proof.
  revert p. induction rs as [|r' rs IH]; intros p; simpl.
  - f_equal. rewrite Z.add_0_r. f_equal. unfold reinserted. simpl. set_solver.
  - f_equal.
    + unfold minus, reinserted. cbn. f_equal. rewrite flat_map_app, list_to_set_app_L. simpl.
      rewrite app_nil_r. set_solver.
    + rewrite IH. by replace (p + Z.of_nat (S (length rs))) with (p + 1 + Z.of_nat (length rs)) by lia.
Qed.

Lemma index_insert_all (b : Z) ks (index : gmap Key Z) k :
  fold_left (λ m k, <[k := b]> m) ks index !! k = if decide (k ∈ ks) then Some b else index !! k.
Proof.
  revert index. induction ks as [|k' ks IH]; intros index; simpl; [done|].
  rewrite IH, lookup_insert. repeat case_decide; set_solver.
Qed.

Lemma index_delete_all ks (index : gmap Key Z) k :
  fold_left (λ m k, delete k m) ks index !! k = if decide (k ∈ ks) then None else index !! k.
Proof.
  revert index. induction ks as [|k' ks IH]; intros index; simpl; [done|].
  rewrite IH, lookup_delete. repeat case_decide; set_solver.
Qed.

Lemma alternating_fresh rs r i r' k :
  alternating (rs ++ [r]) → rs !! i = Some r' → k ∈ jr_deleted r' → k ∈ jr_deleted r →
  k ∈ jr_inserted r ∨ k ∈ reinserted (drop (S i) rs).
Proof.
  intros Ha Hi Hk Hk'. pose proof (lookup_lt_Some _ _ _ Hi) as Hlt.
  destruct (Ha i (length rs) r' r k) as (l&r''&Hl&Hr''&Hin); [by apply lookup_app_l_Some| |lia|done..|].
  { rewrite lookup_app_r, Nat.sub_diag by lia. done. }
  destruct (decide (l = length rs)) as [->|].
  - rewrite lookup_app_r, Nat.sub_diag in Hr'' by lia. injection Hr'' as <-. by left.
  - right. rewrite lookup_app_l in Hr'' by lia. unfold reinserted. apply elem_of_list_to_set.
    rewrite list_elem_of_In. apply in_flat_map. exists r''. rewrite <- !list_elem_of_In.
    split; [|done]. apply list_elem_of_lookup. exists (l - S i)%nat. rewrite lookup_drop.
    rewrite <- Hr''. f_equal. lia.
Qed.

Lemma row_match_minus ex ks a b : row_match ex a b → row_match ex (minus ks a) (minus ks b).
Proof.
  intros (H1&H2&H3&H4). split_and!; [done..|cbn; set_solver|]. cbn. intros He. by rewrite H4.
Qed.

Lemma row_import_ok ex w rs r :
  window_ok ex w rs → alternating (rs ++ [r]) →
  ∃ w', import w (jr_hash r) (to_journal_key (pending_number w + Z.of_nat (length rs)))
      (jr_inserted r) (jr_deleted r) = Ok w' ∧
    window_ok ex w' (rs ++ [r]) ∧ pending_number w' = pending_number w ∧
    pending_canonicalizations w' = pending_canonicalizations w ∧
    pending_prunings w' = pending_prunings w.
Proof.
  intros [Hrows Hidx _ Hc Hp] Ha. unfold import. rewrite revive_ok by done.
  cbn [mbind result_bind]. eexists. split; [done|]. split; [|done].
  pose proof (index_minus _ _ _ (list_to_set (jr_inserted r)) Hidx) as Hidx'.
  set (rows' := map (minus (list_to_set (jr_inserted r))) (death_rows w)) in *.
  assert (length rows' = length rs) as Hlen.
  { unfold rows'. rewrite length_map. apply Forall2_length in Hrows.
    by rewrite rows_of_length in Hrows. }
  assert (Forall2 (row_match ex) rows'
    (map (minus (list_to_set (jr_inserted r))) (rows_of (pending_number w) rs))) as Hrows'.
  { apply Forall2_fmap. eapply Forall2_impl; [exact Hrows|]. intros. by apply row_match_minus. }
  rewrite Hlen. constructor; cbn.
  - rewrite rows_of_snoc. apply Forall2_app; [done|]. constructor; [|constructor].
    split_and!; [done..|cbn; set_solver|done].
  - intros k b. rewrite index_insert_all. case_decide as Hk.
    + split.
      * intros [= <-]. eexists (length rs), _. split_and!; [|done|].
        -- rewrite lookup_app_r, Hlen, Nat.sub_diag by lia. done.
        -- cbn. by apply elem_of_list_to_set.
      * intros (i&row&Hi&->&Hkr). destruct (decide (i < length rs)%nat) as [Hlt|Hge].
        -- exfalso. rewrite lookup_app_l in Hi by lia.
           destruct (Forall2_lookup_l _ _ _ _ _ Hrows' Hi) as (row'&Hi'&Hm).
           change (map ?f ?l) with (f <$> l) in Hi'. rewrite list_lookup_fmap in Hi'.
           destruct (rows_of (pending_number w) rs !! i) as [row''|] eqn:Hr''; [|done].
           injection Hi' as <-. apply rows_of_lookup in Hr'' as (r'&Hr'&->).
           destruct Hm as (_&_&Hsub&_). apply Hsub in Hkr. cbn in Hkr.
           destruct (alternating_fresh rs r i r' k Ha Hr') as [|]; set_solver.
        -- apply lookup_lt_Some in Hi as Hlt. rewrite length_app, Hlen in Hlt. simpl in Hlt.
           replace i with (length rs) by lia. done.
    + rewrite (Hidx' k b). split.
      * intros (i&row&Hi&->&Hkr). exists i, row. split_and!; [|done..]. by apply lookup_app_l_Some.
      * intros (i&row&Hi&->&Hkr). destruct (decide (i < length rs)%nat) as [Hlt|Hge].
        -- rewrite lookup_app_l in Hi by lia. eauto.
        -- exfalso. rewrite lookup_app_r in Hi by lia. rewrite Hlen in Hi.
           destruct (i - length rs)%nat; [|done]. injection Hi as <-. cbn in Hkr. set_solver.
  - done.
  - rewrite length_app. lia.
  - rewrite length_app. lia.
Qed.

Lemma alternating_drop n rs : alternating rs → alternating (drop n rs).
Proof.
  intros Ha i j r r' k Hi Hj Hij Hk Hk'. rewrite lookup_drop in Hi, Hj.
  destruct (Ha (n + i)%nat (n + j)%nat r r' k Hi Hj) as (l&r''&Hl&Hr''&Hin); [lia|done..|].
  exists (l - n)%nat, r''. rewrite lookup_drop. split_and!; [lia..| |done].
  rewrite <- Hr''. f_equal. lia.
Qed.

Lemma alternating_take n rs : alternating rs → alternating (take n rs).
Proof.
  intros Ha i j r r' k Hi Hj Hij Hk Hk'. apply lookup_take_Some in Hi as [Hi Hin].
  apply lookup_take_Some in Hj as [Hj Hjn].
  destruct (Ha i j r r' k Hi Hj Hij Hk Hk') as (l&r''&Hl&Hr''&Hins).
  exists l, r''. split_and!; [lia..| |done]. apply lookup_take_Some. split; [done|lia].
Qed.

(** Popping the oldest row. *)
Lemma pop_pruned_ok ex w r rs :
  Forall2 (row_match ex) (death_rows w) (rows_of (pending_number w) (r :: rs)) →
  index_ok (pending_number w) (death_rows w) (death_index w) →
  ∃ w', pop_pruned w = Ok w' ∧ pending_number w' = pending_number w + 1 ∧
    pending_canonicalizations w' = pending_canonicalizations w ∧
    Forall2 (row_match ex) (death_rows w') (rows_of (pending_number w') rs) ∧
    index_ok (pending_number w') (death_rows w') (death_index w').
Proof using Hord.
  intros Hrows Hidx. unfold pop_pruned. simpl in Hrows.
  inversion Hrows as [|row ? rows ? Hrow Hrest Heq]; subst. eexists. split; [done|].
  split_and!; cbn; [done..|].
  intros k b. rewrite index_delete_all.
  assert (∀ i row', rows !! i = Some row' → k ∈ dr_deleted row' → k ∉ dr_deleted row) as Hdisj.
  { intros i row' Hi Hk Hk'. pose proof (index_unique _ _ _ 0 (S i) row row' k Hidx) as Hu.
    rewrite <- Heq in Hu. specialize (Hu eq_refl Hi Hk' Hk). done. }
  assert (k ∈ ord (dr_deleted row) ↔ k ∈ dr_deleted row) as Hin by (by rewrite Hord, elem_of_elements).
  case_decide as Hk; [split; [done|]|].
  - intros (i&row'&Hi&_&Hkr). apply Hin in Hk. by destruct (Hdisj i row' Hi Hkr).
  - rewrite (Hidx k b), <- Heq. split.
    + intros ([|i]&row'&Hi&->&Hkr); simplify_eq/=; [by apply Hin in Hkr|].
      exists i, row'. split_and!; [done|lia|done].
    + intros (i&row'&Hi&->&Hkr). exists (S i), row'. split_and!; [done|lia|done].
Qed.

Lemma pop_times_ok ex n w rs :
  Forall2 (row_match ex) (death_rows w) (rows_of (pending_number w) rs) →
  index_ok (pending_number w) (death_rows w) (death_index w) → (n ≤ length rs)%nat →
  ∃ w', pop_times n w = Ok w' ∧ pending_number w' = pending_number w + Z.of_nat n ∧
    pending_canonicalizations w' = pending_canonicalizations w ∧
    Forall2 (row_match ex) (death_rows w') (rows_of (pending_number w') (drop n rs)) ∧
    index_ok (pending_number w') (death_rows w') (death_index w').
Proof using Hord.
  revert w rs. induction n as [|n IH]; intros w rs Hrows Hidx Hn.
  - exists w. split_and!; [done|lia|done|by rewrite drop_0|done].
  - destruct rs as [|r rs]; simpl in Hn; [lia|].
    destruct (pop_pruned_ok ex w r rs Hrows Hidx) as (w1&E&H1&H2&H3&H4).
    destruct (IH w1 rs H3 H4) as (w2&E2&H5&H6&H7&H8); [lia|].
    exists w2. cbn [pop_times]. rewrite E. cbn [mbind result_bind].
    split_and!; [done|lia|congruence|done|done].
Qed.

Lemma window_apply_ok ex w rs :
  window_ok ex w rs →
  ∃ w', apply_pending w = Ok w' ∧ window_ok ex w' (drop (pending_prunings w) rs) ∧
    pending_number w' = pending w ∧ pending_canonicalizations w' = 0%nat ∧
    pending_prunings w' = 0%nat.
Proof using Hord.
  intros [Hrows Hidx Ha Hc Hp]. unfold apply_pending.
  destruct (pop_times_ok ex (pending_prunings w) (MkRefWindow (death_rows w) (death_index w)
    (pending_number w) 0 (pending_prunings w)) rs Hrows Hidx Hp) as (w'&->&H1&H2&H3&H4).
  cbn [mbind result_bind]. cbn in H2. eexists. split; [done|].
  split_and!; [constructor; cbn; [done|done|by apply alternating_drop|lia|lia]|done..].
Qed.

Lemma row_match_weak ex a b b' :
  row_match ex a b → dr_hash b = dr_hash b' → journal_key b = journal_key b' →
  dr_deleted b ⊆ dr_deleted b' → row_match false a b'.
Proof. intros (H1&H2&H3&_) E1 E2 E3. split_and!; [congruence..|set_solver|done]. Qed.

Lemma rows_of_take ex p n rows rs :
  Forall2 (row_match ex) rows (rows_of p rs) →
  Forall2 (row_match (ex && bool_decide (length rs ≤ n)%nat)) (take n rows) (rows_of p (take n rs)).
Proof.
  revert p n rows. induction rs as [|r rs IH]; intros p [|n] rows; cbn [rows_of take];
    inversion_clear 1 as [|row ? rows' ? Hrow Hrest]; try by constructor.
  cbn [take]. constructor.
  - case_bool_decide as Hn; simpl in Hn.
    + rewrite andb_true_r, take_ge by (simpl in *; lia). done.
    + rewrite andb_false_r. eapply row_match_weak; [done..|]. cbn.
      unfold reinserted. intros k. rewrite !elem_of_difference, !elem_of_list_to_set.
      rewrite !list_elem_of_In, !in_flat_map. intros [Hk Hnk]. split; [done|].
      intros (r'&Hr'&Hk'). apply Hnk. exists r'. split; [|done].
      apply list_elem_of_In. apply list_elem_of_In, list_elem_of_lookup in Hr' as [i Hi].
      apply lookup_take_Some in Hi as [Hi _]. by eapply list_elem_of_lookup_2.
  - replace (ex && bool_decide (length (r :: rs) ≤ S n)%nat) with
      (ex && bool_decide (length rs ≤ n)%nat); [by apply IH|].
    f_equal. apply bool_decide_ext. simpl. lia.
Qed.

Lemma window_revert_ok ex w rs :
  window_ok ex w rs →
  let n := (length rs - pending_canonicalizations w)%nat in
  window_ok (ex && bool_decide (pending_canonicalizations w = 0)%nat) (revert_pending w) (take n rs) ∧
  pending_number (revert_pending w) = pending_number w ∧
  pending_canonicalizations (revert_pending w) = 0%nat ∧ pending_prunings (revert_pending w) = 0%nat.
Proof.
  intros [Hrows Hidx Ha Hc Hp] n. split; [|done]. pose proof (Forall2_length _ _ _ Hrows) as Hlen.
  rewrite rows_of_length in Hlen. unfold revert_pending. rewrite Hlen.
  rewrite (proj2 (Nat.leb_le _ _)) by done. fold n.
  constructor; cbn; [| |by apply alternating_take|lia|lia].
  - replace (bool_decide (pending_canonicalizations w = 0)%nat) with
      (bool_decide (length rs ≤ n)%nat) by (apply bool_decide_ext; unfold n; lia).
    by apply rows_of_take.
  - intros k b. rewrite map_lookup_filter_Some. cbn. rewrite (Hidx k b), length_take. split.
    + intros [(i&row&Hi&->&Hk) Hlt]. exists i, row. split_and!; [|done..].
      apply lookup_take_Some. split; [done|]. lia.
    + intros (i&row&[Hi Hin]%lookup_take_Some&->&Hk). apply lookup_lt_Some in Hi as Hlt.
      split; [eauto|lia].
Qed.

(** ** Journal *)

Abbreviation last_pruned_key := (to_meta_key LAST_PRUNED tt).

Lemma window_journal_key_inj b b' : to_journal_key b = to_journal_key b' → b = b'.
Proof. unfold to_journal_key, to_meta_key. intros Heq. by apply encode_inj, (app_inv_tail PRUNING_JOURNAL). Qed.

Lemma journal_key_not_last b : to_journal_key b ≠ last_pruned_key.
Proof.
  apply (app_last_ne (encode b) (encode tt) (byte_string "pruning_journa")
    (byte_string "last_prune") 108 100). done.
Qed.

(** Once the commit [c] is written, the journal of [db] describes the window. *)
Record journaled (db : gmap bytes DBValue) (c : CommitSet Key) (w : RefWindow)
    (rs : list JournalRecord) : Prop := {
  jd_pos : 0 ≤ pending_number w;
  jd_last : apply_changes db (cs_meta c) !! last_pruned_key =
    if decide (pending w = 0) then None else Some (encode (pending w - 1));
  jd_rec : ∀ i r, rs !! i = Some r → (pending_prunings w ≤ i)%nat →
    apply_changes db (cs_meta c) !! to_journal_key (pending_number w + Z.of_nat i) =
      Some (encode r);
  jd_none : ∀ b, pending_number w + Z.of_nat (length rs) ≤ b →
    apply_changes db (cs_meta c) !! to_journal_key b = None;
  jd_del_last : last_pruned_key ∉ deleted (cs_meta c);
  jd_del : ∀ b, pending_number w + Z.of_nat (length rs) ≤ b →
    to_journal_key b ∉ deleted (cs_meta c);
}.

Definition record_of (hash : BlockHash) (c : CommitSet Key) : JournalRecord :=
  MkJournalRecord hash (map fst (inserted (cs_data c))) (deleted (cs_data c)).

(** [note_canonical], without the journal. *)
Lemma note_canonical_window ex w rs hash c :
  window_ok ex w rs → alternating (rs ++ [record_of hash c]) →
  ∃ w' c', note_canonical w hash c = Ok (w', c') ∧ window_ok ex w' (rs ++ [record_of hash c]) ∧
    cs_data c' = MkChangeSet (inserted (cs_data c)) [] ∧
    pending_number w' = pending_number w ∧ pending_prunings w' = pending_prunings w ∧
    pending_canonicalizations w' = S (pending_canonicalizations w).
Proof.
  intros Hw Ha. unfold note_canonical.
  assert (length (death_rows w) = length rs) as Hlen.
  { rewrite <- (rows_of_length (pending_number w) rs). apply (Forall2_length _ _ _ (wo_rows _ _ _ Hw)). }
  rewrite Hlen. change (MkJournalRecord _ _ _) with (record_of hash c).
  destruct (row_import_ok ex w rs (record_of hash c) Hw Ha) as (w'&->&Hw'&E1&E2&E3).
  cbn [mbind result_bind]. eexists _, _. split; [done|]. split_and!; cbn; [|done|done|done|by rewrite E2].
  destruct Hw' as [H1 H2 H3 H4 H5]. constructor; cbn; try done. rewrite E2, length_app. simpl.
  pose proof (wo_canon _ _ _ Hw). lia.
Qed.

Lemma note_canonical_ok ex db w rs hash c :
  window_ok ex w rs → journaled db c w rs → alternating (rs ++ [record_of hash c]) →
  ∃ w' c', note_canonical w hash c = Ok (w', c') ∧
    window_ok ex w' (rs ++ [record_of hash c]) ∧ journaled db c' w' (rs ++ [record_of hash c]) ∧
    cs_data c' = MkChangeSet (inserted (cs_data c)) [] ∧
    pending_number w' = pending_number w ∧ pending_prunings w' = pending_prunings w ∧
    pending_canonicalizations w' = S (pending_canonicalizations w).
Proof.
  intros Hw Hj Ha. unfold note_canonical.
  assert (length (death_rows w) = length rs) as Hlen.
  { rewrite <- (rows_of_length (pending_number w) rs). apply (Forall2_length _ _ _ (wo_rows _ _ _ Hw)). }
  rewrite Hlen. change (MkJournalRecord _ _ _) with (record_of hash c).
  destruct (row_import_ok ex w rs (record_of hash c) Hw Ha) as (w'&->&Hw'&E1&E2&E3).
  cbn [mbind result_bind]. eexists _, _. split; [done|]. split_and!; cbn; [| |done|done|done|by rewrite E2].
  - destruct Hw' as [H1 H2 H3 H4 H5]. constructor; cbn; try done. rewrite E2, length_app. simpl.
    pose proof (wo_canon _ _ _ Hw). lia.
  - destruct Hj as [J1 J2 J3 J4 J5 J6]. destruct c as [cd [ins del]]. cbn in *.
    set (nb := pending_number w + Z.of_nat (length rs)) in *.
    constructor; unfold pending in *; cbn; rewrite ?E1, ?E3, ?length_app; cbn.
    + done.
    + rewrite apply_put, decide_False by done.
      rewrite decide_False by (by apply not_eq_sym, journal_key_not_last). done.
    + intros i r Hi Hpi. rewrite apply_put. destruct (decide (i = length rs)) as [->|Hne].
      * rewrite lookup_app_r, Nat.sub_diag in Hi by lia. injection Hi as <-.
        rewrite decide_False by (apply J6; unfold nb; lia). by rewrite decide_True by done.
      * apply lookup_lt_Some in Hi as Hlt. rewrite length_app in Hlt. simpl in Hlt.
        rewrite lookup_app_l in Hi by lia. pose proof (J3 i r Hi Hpi) as Hrec.
        rewrite decide_False.
        -- rewrite decide_False; [done|]. intros Heq%window_journal_key_inj. unfold nb in Heq. lia.
        -- intros Hin. unfold apply_changes in Hrec. cbn [inserted deleted] in Hrec.
           rewrite lookup_delete_all, decide_True in Hrec by done. done.
    + intros b Hb. rewrite apply_put, decide_False by (apply J6; unfold nb; lia).
      rewrite decide_False by (intros Heq%window_journal_key_inj; unfold nb in Heq; lia).
      apply J4. unfold nb. lia.
    + done.
    + intros b Hb. apply J6. unfold nb. lia.
Qed.

Lemma prune_one_window ex w rs c r :
  window_ok ex w rs → rs !! pending_prunings w = Some r →
  ∃ ks, prune_one w c =
      (MkRefWindow (death_rows w) (death_index w) (pending_number w) (pending_canonicalizations w)
         (S (pending_prunings w)),
       MkCommitSet (MkChangeSet (inserted (cs_data c)) (deleted (cs_data c) ++ ks))
         (MkChangeSet (inserted (cs_meta c) ++ [(last_pruned_key, encode (pending w))])
            (deleted (cs_meta c) ++ [to_journal_key (pending w)]))) ∧
    window_ok ex (prune_one w c).1 rs ∧
    (∀ k, k ∈ ks → k ∈ jr_deleted r ∧ k ∉ reinserted (drop (S (pending_prunings w)) rs)) ∧
    (ex = true → ∀ k, k ∈ jr_deleted r → k ∉ reinserted (drop (S (pending_prunings w)) rs) → k ∈ ks).
Proof using Hord.
  intros [Hrows Hidx Ha Hc Hp] Hr. apply lookup_lt_Some in Hr as Hlt.
  destruct (lookup_lt_is_Some_2 (rows_of (pending_number w) rs) (pending_prunings w)) as [b Hb];
    [by rewrite rows_of_length|].
  destruct (Forall2_lookup_r _ _ _ _ _ Hrows Hb) as (row&Hrow&Hm).
  apply rows_of_lookup in Hb as (r'&Hr'&->). rewrite Hr in Hr'. injection Hr' as <-.
  destruct Hm as (_&Hjk&Hsub&Heq). cbn in Hjk, Hsub, Heq.
  exists (ord (dr_deleted row)). unfold prune_one. rewrite Hrow, Hjk.
  assert (∀ k, k ∈ ord (dr_deleted row) ↔ k ∈ dr_deleted row) as Hin
    by (intros k; by rewrite Hord, elem_of_elements).
  split_and!; try done.
  - intros k Hk%Hin. apply Hsub in Hk. set_solver.
  - intros He k Hk Hnk. apply Hin. rewrite (Heq He). set_solver.
Qed.

Lemma prune_one_ok ex db w rs c r :
  window_ok ex w rs → journaled db c w rs → rs !! pending_prunings w = Some r →
  ∃ ks, let '(w', c') := prune_one w c in
    window_ok ex w' rs ∧ journaled db c' w' rs ∧
    cs_data c' = MkChangeSet (inserted (cs_data c)) (deleted (cs_data c) ++ ks) ∧
    (∀ k, k ∈ ks → k ∈ jr_deleted r ∧ k ∉ reinserted (drop (S (pending_prunings w)) rs)) ∧
    (ex = true → ∀ k, k ∈ jr_deleted r → k ∉ reinserted (drop (S (pending_prunings w)) rs) → k ∈ ks) ∧
    pending_number w' = pending_number w ∧ pending_prunings w' = S (pending_prunings w) ∧
    pending_canonicalizations w' = pending_canonicalizations w.
Proof using Hord.
  intros Hw Hj Hr. destruct (prune_one_window ex w rs c r Hw Hr) as (ks&Heq&Hw'&Hsub&Hex).
  exists ks. rewrite Heq in *. apply lookup_lt_Some in Hr as Hlt. split_and!; try done.
  destruct Hj as [J1 J2 J3 J4 J5 J6]. destruct c as [cd [ins del]]. cbn in *.
  unfold pending in *. set (n := pending_prunings w) in *.
  constructor; unfold pending; cbn; fold n.
  - done.
  - rewrite apply_del, decide_False by apply not_eq_sym, journal_key_not_last.
    rewrite apply_put, decide_False, decide_True by done.
    rewrite decide_False by lia. do 2 f_equal. lia.
  - intros i r' Hi Hpi. rewrite apply_del.
    rewrite decide_False by (intros Heq'%window_journal_key_inj; lia).
    rewrite apply_put. pose proof (J3 i r' Hi ltac:(lia)) as Hrec.
    rewrite decide_False.
    + rewrite decide_False by apply journal_key_not_last. done.
    + intros Hin'. unfold apply_changes in Hrec. cbn [inserted deleted] in Hrec.
      rewrite lookup_delete_all, decide_True in Hrec by done. done.
  - intros b Hb. rewrite apply_del.
    rewrite decide_False by (intros Heq'%window_journal_key_inj; lia).
    rewrite apply_put, decide_False by (apply J6; lia).
    rewrite decide_False by apply journal_key_not_last. apply J4. lia.
  - intros [Hd|Hd%list_elem_of_singleton]%elem_of_app; [done|].
    symmetry in Hd. by apply journal_key_not_last in Hd.
  - intros b Hb [Hd|Hd%list_elem_of_singleton]%elem_of_app; [by eapply J6|].
    apply window_journal_key_inj in Hd. lia.
Qed.

(** *** Transactions *)

(** Keys of other components in the same commit. *)
Definition foreign (k : bytes) : Prop := k ≠ last_pruned_key ∧ ∀ b, k ≠ to_journal_key b.

(** The calls between two calls of [apply_pending] or [revert_pending]: the state
    is the window, the commit being built, and the records of the blocks of the
    window.  Other components also add to the commit. *)
Inductive tx : RefWindow * CommitSet Key * list JournalRecord →
    RefWindow * CommitSet Key * list JournalRecord → Prop :=
| tx_refl s : tx s s
| tx_note s w c rs hash w' c' :
    tx s (w, c, rs) → alternating (rs ++ [record_of hash c]) →
    note_canonical w hash c = Ok (w', c') → tx s (w', c', rs ++ [record_of hash c])
| tx_prune s w c rs :
    tx s (w, c, rs) → (pending_prunings w < length rs)%nat →
    tx s ((prune_one w c).1, (prune_one w c).2, rs)
| tx_other s w c rs d kvs ks :
    tx s (w, c, rs) → Forall foreign (map fst kvs) → Forall foreign ks →
    tx s (w, MkCommitSet d (MkChangeSet (inserted (cs_meta c) ++ kvs) (deleted (cs_meta c) ++ ks)), rs).

Lemma journaled_other db c w rs d kvs ks :
  journaled db c w rs → Forall foreign (map fst kvs) → Forall foreign ks →
  journaled db
    (MkCommitSet d (MkChangeSet (inserted (cs_meta c) ++ kvs) (deleted (cs_meta c) ++ ks))) w rs.
Proof.
  intros [J1 J2 J3 J4 J5 J6] Hkvs Hks. destruct c as [cd [ins del]]. cbn in *.
  rewrite Forall_forall in Hkvs, Hks.
  assert (∀ k, k = last_pruned_key ∨ (∃ b, k = to_journal_key b) → (k ∉ map fst kvs) ∧ k ∉ ks) as Hf.
  { intros k Hk. split; intros Hin; [destruct (Hkvs k Hin) as [H1 H2]|destruct (Hks k Hin) as [H1 H2]];
      destruct Hk as [->|[b ->]]; naive_solver. }
  assert (∀ k, k = last_pruned_key ∨ (∃ b, k = to_journal_key b) →
    apply_changes db (MkChangeSet (ins ++ kvs) (del ++ ks)) !! k =
    apply_changes db (MkChangeSet ins del) !! k) as Ha.
  { intros k Hk. apply apply_foreign; by apply Hf. }
  constructor; cbn; [done| | | | |].
  - rewrite Ha by (by left). done.
  - intros i r Hi Hp. rewrite Ha by eauto. by apply J3.
  - intros b Hb. rewrite Ha by eauto. by apply J4.
  - rewrite not_elem_of_app. split; [done|]. apply Hf. by left.
  - intros b Hb. rewrite not_elem_of_app. split; [by apply J6|]. apply Hf. eauto.
Qed.

Lemma tx_ok ex db s s' :
  tx s s' → window_ok ex s.1.1 s.2 → journaled db s.1.2 s.1.1 s.2 →
  pending_canonicalizations s.1.1 = 0%nat →
  window_ok ex s'.1.1 s'.2 ∧ journaled db s'.1.2 s'.1.1 s'.2 ∧
  pending_number s'.1.1 = pending_number s.1.1 ∧
  ∃ rs', s'.2 = s.2 ++ rs' ∧ pending_canonicalizations s'.1.1 = length rs'.
Proof using Hord.
  intros Htx Hw Hj Hc.
  induction Htx as [s|s w c rs hash w' c' _ IH Ha Hn|s w c rs _ IH Hp|s w c rs d kvs ks _ IH Hk1 Hk2];
    cbn [fst snd] in *.
  - split_and!; [done..|]. exists []. by rewrite app_nil_r.
  - destruct (IH Hw Hj Hc) as (H1&H2&H3&rs'&H4&H5).
    destruct (note_canonical_ok ex db w rs hash c H1 H2 Ha) as (w1&c1&E&G1&G2&_&G3&G4&G5).
    rewrite Hn in E. injection E as <- <-. split_and!; [done|done|congruence|].
    exists (rs' ++ [record_of hash c]). rewrite H4, app_assoc, length_app. simpl. split; [done|lia].
  - destruct (IH Hw Hj Hc) as (H1&H2&H3&H4).
    destruct (lookup_lt_is_Some_2 rs (pending_prunings w) Hp) as [r Hr].
    destruct (prune_one_ok ex db w rs c r H1 H2 Hr) as (ks&G).
    destruct (prune_one w c) as [w' c']. cbn [fst snd]. destruct G as (G1&G2&_&_&_&G3&_&G4).
    split_and!; [done|done|congruence|]. by rewrite G4.
  - destruct (IH Hw Hj Hc) as (H1&H2&H3&H4). split_and!; [done| |done|done].
    by apply journaled_other.
Qed.

(** *** Histories *)

(** The database, the window and its records after a number of transactions, each
    written to the database and applied, or reverted. *)
Inductive reach : bool → gmap bytes DBValue → RefWindow → list JournalRecord → Prop :=
| reach_empty db :
    db !! last_pruned_key = None → (∀ b, db !! to_journal_key b = None) →
    reach true db (MkRefWindow [] ∅ 0 0 0) []
| reach_commit ex db w rs w1 c1 rs1 w2 :
    reach ex db w rs → tx (w, commit_default, rs) (w1, c1, rs1) → apply_pending w1 = Ok w2 →
    reach ex (apply_changes db (cs_meta c1)) w2 (drop (pending_prunings w1) rs1)
| reach_revert ex db w rs w1 c1 rs1 :
    reach ex db w rs → tx (w, commit_default, rs) (w1, c1, rs1) →
    reach (ex && bool_decide (pending_canonicalizations w1 = 0)%nat) db (revert_pending w1) rs.

Lemma journaled_applied db c w rs w' :
  journaled db c w rs → pending_number w' = pending w → pending_prunings w' = 0%nat →
  (pending_prunings w ≤ length rs)%nat →
  journaled (apply_changes db (cs_meta c)) commit_default w' (drop (pending_prunings w) rs).
Proof.
  intros [J1 J2 J3 J4 _ _] E1 E2 Hp. unfold pending in *.
  assert (∀ m : gmap bytes DBValue, apply_changes m (cs_meta (K := Key) commit_default) = m) as Hid
    by done.
  constructor; unfold pending; rewrite ?Hid, ?E1, ?E2; cbn.
  - lia.
  - by rewrite Z.add_0_r.
  - intros i r Hi _. rewrite lookup_drop in Hi. rewrite <- (J3 _ _ Hi) by lia. do 2 f_equal. lia.
  - intros b Hb. apply J4. rewrite length_drop in Hb. lia.
  - apply not_elem_of_nil.
  - intros b _. apply not_elem_of_nil.
Qed.

Lemma window_reach_ok ex db w rs :
  reach ex db w rs →
  window_ok ex w rs ∧ journaled db commit_default w rs ∧
  pending_canonicalizations w = 0%nat ∧ pending_prunings w = 0%nat.
Proof using Hord.
  induction 1 as [db Hl Hj|ex db w rs w1 c1 rs1 w2 _ (IH1&IH2&IH3&IH4) Htx Hap|
    ex db w rs w1 c1 rs1 _ (IH1&IH2&IH3&IH4) Htx].
  - split_and!; [constructor; cbn| |done|done].
    + constructor.
    + intros k b. rewrite lookup_empty. split; [done|]. intros (i&row&Hi&_). done.
    + intros i j r r' k Hi. done.
    + lia.
    + lia.
    + constructor; unfold pending;
        change (apply_changes db (cs_meta commit_default)) with db; cbn [pending_number].
      * done.
      * by rewrite decide_True.
      * by intros i r ?.
      * auto.
      * apply not_elem_of_nil.
      * intros b _. apply not_elem_of_nil.
  - destruct (tx_ok ex db _ _ Htx IH1 IH2 IH3) as (H1&H2&_). cbn [fst snd] in *.
    destruct (window_apply_ok ex w1 rs1 H1) as (w'&E&G1&G2&G3&G4).
    rewrite Hap in E. injection E as <-. split_and!; [done| |done|done].
    apply journaled_applied; [done..|]. apply H1.
  - destruct (tx_ok ex db _ _ Htx IH1 IH2 IH3) as (H1&_&H3&rs'&H4&H5). cbn [fst snd] in *.
    destruct (window_revert_ok ex w1 rs1 H1) as (G1&G2&G3&G4).
    rewrite H4, H5 in G1. rewrite length_app, Nat.add_sub, take_app_length in G1.
    rewrite H5. split_and!; [done| |done|done].
    destruct IH2 as [J1 J2 J3 J4 J5 J6]. unfold pending in *.
    constructor; unfold pending; rewrite ?G2, ?G4, ?H3 in *; try done.
    + by rewrite IH4 in J2.
    + intros i r Hi _. apply J3; [done|]. lia.
Qed.

(** *** Reading the journal back *)

Definition get_meta (db : gmap bytes DBValue) (key : bytes) : Empty_set + option DBValue :=
  inr (db !! key).

Lemma read_journal_ok db todo : ∀ fuel w rs,
  window_ok true w rs → alternating (rs ++ todo) →
  (∀ i r, todo !! i = Some r →
     db !! to_journal_key (pending_number w + Z.of_nat (length rs + i)) = Some (encode r)) →
  db !! to_journal_key (pending_number w + Z.of_nat (length rs + length todo)) = None →
  (length todo < fuel)%nat →
  ∃ w', read_journal (get_meta db) fuel (pending_number w + Z.of_nat (length rs)) w =
      Some (Ok w') ∧ window_ok true w' (rs ++ todo) ∧ pending_number w' = pending_number w ∧
    pending_canonicalizations w' = pending_canonicalizations w ∧
    pending_prunings w' = pending_prunings w.
Proof.
  induction todo as [|r todo IH]; intros [|fuel] w rs Hw Ha Hrec Hnone Hf; simpl in Hf; try lia;
    cbn [read_journal]; unfold read_meta, get_meta.
  - rewrite Nat.add_0_r in Hnone. rewrite Hnone. exists w. by rewrite app_nil_r.
  - pose proof (Hrec 0%nat r eq_refl) as Hr. rewrite Nat.add_0_r in Hr. rewrite Hr, decode_encode.
    assert (alternating (rs ++ [r])) as Ha1.
    { replace (rs ++ [r]) with (take (S (length rs)) (rs ++ r :: todo)); [by apply alternating_take|].
      rewrite take_app_ge by lia. by replace (S (length rs) - length rs)%nat with 1%nat by lia. }
    destruct (row_import_ok true w rs r Hw Ha1) as (w1&->&Hw1&E1&E2&E3).
    destruct (IH fuel w1 (rs ++ [r])) as (w2&E&G1&G2&G3&G4); rewrite <- ?app_assoc; [done..| | |lia|].
    + intros i r' Hi. rewrite E1, length_app. simpl. rewrite <- (Hrec (S i) r' Hi). do 3 f_equal. lia.
    + rewrite E1, length_app. simpl. rewrite <- Hnone. do 3 f_equal. simpl. lia.
    + rewrite E1, length_app in E. exists w2. rewrite <- app_assoc in G1.
      replace (pending_number w + Z.of_nat (length rs) + 1) with
        (pending_number w + Z.of_nat (length rs + length [r])) by (simpl; lia).
      split_and!; [done|done|congruence..].
Qed.

Lemma index_ok_unique p rows index index' :
  index_ok p rows index → index_ok p rows index' → index = index'.
Proof.
  intros H1 H2. apply map_eq. intros k. apply option_eq. intros b. by rewrite (H1 k b), (H2 k b).
Qed.

Lemma rows_unique rows rows' spec :
  Forall2 (row_match true) rows spec → Forall2 (row_match true) rows' spec → rows = rows'.
Proof.
  intros H1. revert rows'. induction H1 as [|a b rows spec Hab _ IH]; intros rows' H2;
    inversion_clear H2 as [|a' ? rows'' ? Ha' Hr]; [done|]. f_equal; [|by apply IH].
  destruct a, a', b, Hab as (?&?&_&Hd), Ha' as (?&?&_&Hd'). cbn in *.
  specialize (Hd eq_refl). specialize (Hd' eq_refl). congruence.
Qed.

(** ** Correctness *)

(** The journal in the database describes the window: after any number of
    transactions, committed or reverted, reading it back ends and gives a window
    with the same pending number and the same blocks.  If no canonicalization was
    reverted it is the very same window; otherwise it may list more keys to
    delete, those that the reverted blocks had inserted again. *)
Theorem restore_correct ex db w rs fuel :
  reach ex db w rs → (length rs < fuel)%nat →
  ∃ w', new (get_meta db) fuel = Some (Ok w') ∧ pending_number w' = pending_number w ∧
    Forall2 (row_match false) (death_rows w) (death_rows w') ∧ (ex = true → w' = w).
Proof using Hord.
  intros Hr Hf. destruct (window_reach_ok _ _ _ _ Hr) as ([Hrows Hidx Ha _ _]&Hj&Hc&Hp).
  destruct Hj as [J1 J2 J3 J4 _ _]. change (apply_changes db _) with db in *.
  unfold pending in J2. rewrite Hp, Z.add_0_r in J2.
  set (w0 := MkRefWindow [] ∅ (pending_number w) 0 0).
  assert (window_ok true w0 []) as Hw0.
  { constructor; cbn; [constructor| | |lia|lia].
    - intros k b. rewrite lookup_empty. split; [done|]. by intros (i&row&Hi&_).
    - by intros i j r r' k Hi. }
  destruct (read_journal_ok db rs fuel w0 [] Hw0 Ha) as (w'&E&G1&G2&G3&G4); [| |done|].
  { intros i r Hi. cbn. apply J3; [done|lia]. }
  { cbn. apply J4. lia. }
  exists w'. cbn in G1. split_and!.
  - unfold new, read_meta, get_meta. rewrite J2. cbn in E. rewrite Z.add_0_r in E.
    case_decide as Hz; [|rewrite decode_encode]; cbn [mbind]; fold (get_meta db).
    + unfold w0 in E. by rewrite Hz in E.
    + replace (pending_number w - 1 + 1) with (pending_number w) by lia. done.
  - done.
  - destruct G1 as [R1 _ _ _ _]. rewrite G2 in R1. cbn in R1.
    clear -Hrows R1. revert R1. generalize (death_rows w') as rows'. revert Hrows.
    generalize (death_rows w) (rows_of (pending_number w) rs).
    induction 1 as [|a b l1 l2 Hab _ IH]; intros rows'; inversion_clear 1 as [|a' ? ? ? Ha' Hl];
      constructor; [|by apply IH].
    destruct Hab as (?&?&?&_), Ha' as (?&?&_&Hd). specialize (Hd eq_refl).
    split_and!; [congruence..|set_solver|done].
  - intros ->. destruct G1 as [R1 I1 _ _ _]. rewrite G2 in R1, I1. cbn in R1, I1.
    pose proof (rows_unique _ _ _ Hrows R1) as Erows. rewrite <- Erows in I1.
    pose proof (index_ok_unique _ _ _ _ Hidx I1) as Eidx.
    destruct w as [rows index p pc pp], w' as [rows' index' p' pc' pp']. cbn in *. congruence.
Qed.

(** During a transaction no call of the window panics: a canonicalized block
    can be noted, provided its keys alternate, and the pending changes can be
    applied. *)
Theorem window_never_panics ex db w rs w1 c1 rs1 :
  reach ex db w rs → tx (w, commit_default, rs) (w1, c1, rs1) →
  (∀ hash c, alternating (rs1 ++ [record_of hash c]) →
     ∃ w' c', note_canonical w1 hash c = Ok (w', c')) ∧
  (∃ w', apply_pending w1 = Ok w').
Proof using Hord.
  intros Hr Htx. destruct (window_reach_ok _ _ _ _ Hr) as (Hw&Hj&Hc&_).
  destruct (tx_ok ex db _ _ Htx Hw Hj Hc) as (H1&_). cbn [fst snd] in H1. split.
  - intros hash c Ha. unfold note_canonical.
    assert (length (death_rows w1) = length rs1) as Hlen.
    { rewrite <- (rows_of_length (pending_number w1) rs1).
      apply (Forall2_length _ _ _ (wo_rows _ _ _ H1)). }
    rewrite Hlen. change (MkJournalRecord _ _ _) with (record_of hash c).
    destruct (row_import_ok ex w1 rs1 (record_of hash c) H1 Ha) as (w'&->&_). cbn. eauto.
  - destruct (window_apply_ok ex w1 rs1 H1) as (w'&E&_). eauto.
Qed.

(** Pruning the next block adds to the commit the deletion of keys that this
    block deleted and that no later block of the window inserted again; of all of
    them, if no canonicalization was reverted. *)
Theorem prune_one_correct ex db w rs w1 c1 rs1 r :
  reach ex db w rs → tx (w, commit_default, rs) (w1, c1, rs1) →
  rs1 !! pending_prunings w1 = Some r →
  ∃ ks, cs_data (prune_one w1 c1).2 =
      MkChangeSet (inserted (cs_data c1)) (deleted (cs_data c1) ++ ks) ∧
    (∀ k, k ∈ ks → k ∈ jr_deleted r ∧ k ∉ reinserted (drop (S (pending_prunings w1)) rs1)) ∧
    (ex = true → ∀ k, k ∈ jr_deleted r →
       k ∉ reinserted (drop (S (pending_prunings w1)) rs1) → k ∈ ks).
Proof using Hord.
  intros Hr Htx Hn. destruct (window_reach_ok _ _ _ _ Hr) as (Hw&Hj&Hc&_).
  destruct (tx_ok ex db _ _ Htx Hw Hj Hc) as (H1&H2&_). cbn [fst snd] in H1, H2.
  destruct (prune_one_ok ex db w1 rs1 c1 r H1 H2 Hn) as (ks&G).
  exists ks. destruct (prune_one w1 c1) as [w' c']. cbn [fst snd] in *.
  destruct G as (_&_&G1&G2&G3&_). done.
Qed.
End pruning.

Arguments RefWindow BlockHash Key {_ _}.
Arguments JournalRecord : clear implicits.

(** ** A concrete window

    Hashes and keys are numbers.  Block 1 deletes the key 10, block 2 inserts it
    again and deletes the key 20. *)
Module SmallWindow.

#[export] Instance unit_codec : Codec unit.
Proof. refine {| encode := λ _, []; decode := λ _, Some tt |}. by intros []. Defined.

#[export] Instance number_codec : Codec Z.
Proof. refine {| encode := λ z, [z]; decode := head |}. done. Defined.

#[export] Instance record_codec : Codec (JournalRecord Z Z).
Proof.
  refine {|
    encode := λ r, jr_hash r :: Z.of_nat (length (jr_inserted r)) :: jr_inserted r ++ jr_deleted r;
    decode := λ l, match l with
                   | h :: n :: l' => Some (MkJournalRecord h (take (Z.to_nat n) l') (drop (Z.to_nat n) l'))
                   | _ => None
                   end |}.
  intros [h ins del]. cbn. rewrite Nat2Z.id, take_app_length, drop_app_length. done.
Defined.

Definition ord (s : gset Z) : list Z := elements s.

Definition empty_window : RefWindow Z Z := MkRefWindow [] ∅ 0 0 0.

(** The commits of the two blocks as the overlay of non-canonical blocks would
    build them. *)
Definition commit1 : CommitSet Z := MkCommitSet (MkChangeSet [] [10]) (MkChangeSet [] []).
Definition commit2 : CommitSet Z := MkCommitSet (MkChangeSet [(10, [7])] [20]) (MkChangeSet [] []).

Definition get (r : result Empty_set (RefWindow Z Z * CommitSet Z)) : RefWindow Z Z * CommitSet Z :=
  match r with Ok x => x | _ => (empty_window, commit_default) end.

Definition noted1 := get (note_canonical empty_window 1 commit1).
Definition window1 : RefWindow Z Z :=
  match apply_pending ord noted1.1 with Ok w => w | _ => empty_window end.
Definition db1 : gmap bytes DBValue := apply_changes ∅ (cs_meta noted1.2).
Definition noted2 := get (note_canonical window1 2 commit2).

Definition record1 : JournalRecord Z Z := record_of 1 commit1.
Definition record2 : JournalRecord Z Z := record_of 2 commit2.

Lemma one_alternates : alternating [record1].
Proof. intros [|i] [|j] r r' k; simpl; try done; lia. Qed.

Lemma two_alternate : alternating [record1; record2].
Proof.
  intros [|[|i]] [|[|j]] r r' k; simpl; try done; try lia.
  intros [= <-] [= <-] _ Hk Hk'. cbn in *.
  apply list_elem_of_singleton in Hk. apply list_elem_of_singleton in Hk'. lia.
Qed.

Lemma window1_reached : reach ord true db1 window1 [record1].
Proof.
  refine (reach_commit ord true ∅ empty_window [] noted1.1 noted1.2 [record1] window1 _ _ _).
  - apply reach_empty; [done|]. intros b. apply lookup_empty.
  - apply (tx_note ord _ empty_window commit1 [] 1).
    + apply (tx_other ord _ empty_window commit_default [] (cs_data commit1) [] []);
        [apply tx_refl|constructor..].
    + apply one_alternates.
    + by vm_compute.
  - by vm_compute.
Qed.

Lemma noted2_tx :
  tx ord (window1, commit_default, [record1]) (noted2.1, noted2.2, [record1; record2]).
Proof.
  apply (tx_note ord _ window1 commit2 [record1] 2).
  - apply (tx_other ord _ window1 commit_default [record1] (cs_data commit2) [] []);
      [apply tx_refl|constructor..].
  - apply two_alternate.
  - by vm_compute.
Qed.

Lemma restore_correct_witness : ∃ w', new (get_meta db1) 2 = Some (Ok w') ∧ w' = window1.
Proof.
  destruct (restore_correct ord (λ _, reflexivity _) true db1 window1 [record1] 2 window1_reached)
    as (w'&E&_&_&Hw); [simpl; lia|].
  exists w'. exact (conj E (Hw eq_refl)).
Defined.

Lemma window_never_panics_witness :
  (∀ hash c, alternating ([record1; record2] ++ [record_of hash c]) →
     ∃ w' c', note_canonical noted2.1 hash c = Ok (w', c')) ∧
  (∃ w', apply_pending ord noted2.1 = Ok w').
Proof.
  exact (window_never_panics ord (λ _, reflexivity _) true db1 window1 [record1] _ noted2.2 _
    window1_reached noted2_tx).
Defined.

(** Pruning block 1 deletes nothing: block 2 inserted its key again. *)
Lemma prune_one_correct_witness :
  ∃ ks, cs_data (prune_one ord noted2.1 noted2.2).2 =
      MkChangeSet (inserted (cs_data noted2.2)) (deleted (cs_data noted2.2) ++ ks) ∧
    ∀ k, k ∈ ks → k ∈ [10] ∧ k ∉ reinserted [record2].
Proof.
  destruct (prune_one_correct ord (λ _, reflexivity _) true db1 window1 [record1] noted2.1 noted2.2
    [record1; record2] record1 window1_reached noted2_tx eq_refl) as (ks&E&Hk&_).
  exists ks. exact (conj E Hk).
Defined.
End SmallWindow.
