(* ===== verification/NonCanonical.v ===== *)
(** * Non-canonical overlay (src/client/state-db/src/noncanonical.rs)

    The states of the blocks that are not canonical yet: a level of overlays per
    block number, the values they insert, reference counted, and the states that
    are kept only because they are pinned.  Reference counts are unbounded. *)
From stdpp Require Import strings.
From S2P Require Import Prelude StateDbBase.

Local Open Scope Z_scope.

Definition NON_CANONICAL_JOURNAL : bytes := byte_string "noncanonical_journal".
Definition LAST_CANONICAL : bytes := byte_string "last_canonical".

Section noncanonical.
Context {BlockHash Key : Type} `{Countable BlockHash, Countable Key}.

(** ** Data *)

Record BlockOverlay : Type := MkBlockOverlay {
  bo_hash : BlockHash;
  bo_journal_key : bytes;
  bo_inserted : list Key;
  bo_deleted : list Key;
}.

Record NonCanonicalOverlay : Type := MkNonCanonicalOverlay {
  last_canonicalized : option (BlockHash * Z);
  levels : list (list BlockOverlay);
  parents : gmap BlockHash BlockHash;
  pending_canonicalizations : list BlockHash;
  pending_insertions : list BlockHash;
  values : gmap Key (Z * DBValue);
  pinned : gmap BlockHash Z;
  pinned_insertions : gmap BlockHash (list Key);
}.

Record JournalRecord : Type := MkJournalRecord {
  jr_hash : BlockHash;
  jr_parent_hash : BlockHash;
  jr_inserted : list (Key * DBValue);
  jr_deleted : list Key;
}.

Context `{!Codec unit} `{!Codec (Z * Z)} `{!Codec (BlockHash * Z)} `{!Codec JournalRecord}.

Definition set_last (o : NonCanonicalOverlay) x : NonCanonicalOverlay :=
  MkNonCanonicalOverlay x (levels o) (parents o) (pending_canonicalizations o)
    (pending_insertions o) (values o) (pinned o) (pinned_insertions o).
Definition set_levels (o : NonCanonicalOverlay) x : NonCanonicalOverlay :=
  MkNonCanonicalOverlay (last_canonicalized o) x (parents o) (pending_canonicalizations o)
    (pending_insertions o) (values o) (pinned o) (pinned_insertions o).
Definition set_parents (o : NonCanonicalOverlay) x : NonCanonicalOverlay :=
  MkNonCanonicalOverlay (last_canonicalized o) (levels o) x (pending_canonicalizations o)
    (pending_insertions o) (values o) (pinned o) (pinned_insertions o).
Definition set_pending_canonicalizations (o : NonCanonicalOverlay) x : NonCanonicalOverlay :=
  MkNonCanonicalOverlay (last_canonicalized o) (levels o) (parents o) x
    (pending_insertions o) (values o) (pinned o) (pinned_insertions o).
Definition set_pending_insertions (o : NonCanonicalOverlay) x : NonCanonicalOverlay :=
  MkNonCanonicalOverlay (last_canonicalized o) (levels o) (parents o) (pending_canonicalizations o)
    x (values o) (pinned o) (pinned_insertions o).
Definition set_values (o : NonCanonicalOverlay) x : NonCanonicalOverlay :=
  MkNonCanonicalOverlay (last_canonicalized o) (levels o) (parents o) (pending_canonicalizations o)
    (pending_insertions o) x (pinned o) (pinned_insertions o).
Definition set_pinned (o : NonCanonicalOverlay) x : NonCanonicalOverlay :=
  MkNonCanonicalOverlay (last_canonicalized o) (levels o) (parents o) (pending_canonicalizations o)
    (pending_insertions o) (values o) x (pinned_insertions o).
Definition set_pinned_insertions (o : NonCanonicalOverlay) x : NonCanonicalOverlay :=
  MkNonCanonicalOverlay (last_canonicalized o) (levels o) (parents o) (pending_canonicalizations o)
    (pending_insertions o) (values o) (pinned o) x.

Definition to_journal_key (block index : Z) : bytes :=
  to_meta_key NON_CANONICAL_JOURNAL (block, index).

(** ** Reference counted values *)

Definition insert_value (values : gmap Key (Z * DBValue)) (kv : Key * DBValue) : gmap Key (Z * DBValue) :=
  let '(counter, v) := default (0, kv.2) (values !! kv.1) in
  <[kv.1 := (counter + 1, v)]> values.

Definition insert_values (values : gmap Key (Z * DBValue)) (inserted : list (Key * DBValue)) :
    gmap Key (Z * DBValue) :=
  foldl insert_value values inserted.

Definition discard_value (values : gmap Key (Z * DBValue)) (k : Key) : gmap Key (Z * DBValue) :=
  match values !! k with
  | Some (counter, v) =>
      if counter - 1 =? 0 then delete k values else <[k := (counter - 1, v)]> values
  | None => values
  end.

Definition discard_values (values : gmap Key (Z * DBValue)) (inserted : list Key) :
    gmap Key (Z * DBValue) :=
  foldl discard_value values inserted.

(** ** Discarding *)

(** An overlay leaves the levels: its values are discarded, unless the block is
    pinned. *)
Definition release (o : NonCanonicalOverlay) (overlay : BlockOverlay) : NonCanonicalOverlay :=
  if decide (is_Some (pinned o !! bo_hash overlay)) then
    set_pinned_insertions o (<[bo_hash overlay := bo_inserted overlay]> (pinned_insertions o))
  else
    set_values (set_parents o (delete (bo_hash overlay) (parents o)))
      (discard_values (values o) (bo_inserted overlay)).

(** The [filter_map] over a level: what stays, and the blocks discarded. *)
Fixpoint drain_level (o : NonCanonicalOverlay) (hash : BlockHash) (level : list BlockOverlay) :
    run (NonCanonicalOverlay * list BlockOverlay * list BlockHash) :=
  match level with
  | [] => Ok (o, [], [])
  | overlay :: level' =>
      parent ← expect (parents o !! bo_hash overlay);
      if decide (parent = hash) then
        '(o', kept, discarded) ← drain_level (release o overlay) hash level';
        Ok (o', kept, bo_hash overlay :: discarded)
      else
        '(o', kept, discarded) ← drain_level o hash level';
        Ok (o', overlay :: kept, discarded)
  end.

(** Runs a step for each element, in order. *)
Fixpoint for_each {A} (f : NonCanonicalOverlay → A → run NonCanonicalOverlay)
    (o : NonCanonicalOverlay) (l : list A) : run NonCanonicalOverlay :=
  match l with
  | [] => Ok o
  | x :: l' => o' ← f o x; for_each f o' l'
  end.

(** The fuel is the number of levels from [index] on: without fuel there is no
    level at [index], and nothing to do. *)
Fixpoint discard_descendants (fuel : nat) (index : nat) (o : NonCanonicalOverlay) (hash : BlockHash) :
    run NonCanonicalOverlay :=
  match fuel, levels o !! index with
  | S fuel', Some level =>
      '(o', kept, discarded) ← drain_level o hash level;
      for_each (discard_descendants fuel' (S index)) (set_levels o' (<[index := kept]> (levels o')))
        discarded
  | _, _ => Ok o
  end.

(** ** Reading the journal back *)

(** The inner loop of [new]: the records of a block number. *)
Fixpoint read_level {E} (get_meta : bytes → E + option DBValue) (fuel : nat) (block index : Z)
    (level : list BlockOverlay) (parents : gmap BlockHash BlockHash) (values : gmap Key (Z * DBValue)) :
    option (result (Error E)
      (list BlockOverlay * gmap BlockHash BlockHash * gmap Key (Z * DBValue))) :=
  match fuel with
  | O => None
  | S fuel' =>
      let journal_key := to_journal_key block index in
      match read_meta (A := JournalRecord) get_meta journal_key with
      | Err e => Some (Err e)
      | Panic => Some Panic
      | Ok None => Some (Ok (level, parents, values))
      | Ok (Some record) =>
          let overlay := MkBlockOverlay (jr_hash record) journal_key (map fst (jr_inserted record))
            (jr_deleted record) in
          read_level get_meta fuel' block (index + 1) (level ++ [overlay])
            (<[jr_hash record := jr_parent_hash record]> parents)
            (insert_values values (jr_inserted record))
      end
  end.

(** The outer loop: until a block number without records. *)
Fixpoint read_levels {E} (get_meta : bytes → E + option DBValue) (fuel : nat) (block : Z)
    (levels : list (list BlockOverlay)) (parents : gmap BlockHash BlockHash)
    (values : gmap Key (Z * DBValue)) :
    option (result (Error E)
      (list (list BlockOverlay) * gmap BlockHash BlockHash * gmap Key (Z * DBValue))) :=
  match fuel with
  | O => None
  | S fuel' =>
      match read_level get_meta fuel block 0 [] parents values with
      | None => None
      | Some (Err e) => Some (Err e)
      | Some Panic => Some Panic
      | Some (Ok ([], parents', values')) => Some (Ok (levels, parents', values'))
      | Some (Ok (level, parents', values')) =>
          read_levels get_meta fuel' (block + 1) (levels ++ [level]) parents' values'
      end
  end.

Definition new {E} (get_meta : bytes → E + option DBValue) (fuel : nat) :
    option (result (Error E) NonCanonicalOverlay) :=
  match read_meta (A := BlockHash * Z) get_meta (to_meta_key LAST_CANONICAL tt) with
  | Err e => Some (Err e)
  | Panic => Some Panic
  | Ok None => Some (Ok (MkNonCanonicalOverlay None [] ∅ [] [] ∅ ∅ ∅))
  | Ok (Some (hash, block)) =>
      match read_levels get_meta fuel (block + 1) [] ∅ ∅ with
      | None => None
      | Some (Err e) => Some (Err e)
      | Some Panic => Some Panic
      | Some (Ok (ls, ps, vs)) =>
          Some (Ok (MkNonCanonicalOverlay (Some (hash, block)) ls ps [] [] vs ∅ ∅))
      end
  end.

(** ** Operations *)

Definition front_block_number (o : NonCanonicalOverlay) : Z :=
  match last_canonicalized o with
  | Some (_, n) => n + 1
  | None => 0
  end.

Definition last_canonicalized_block_number (o : NonCanonicalOverlay) : option Z :=
  match last_canonicalized o, pending_canonicalizations o with
  | Some (_, n), p => Some (n + Z.of_nat (length p))
  | None, (_ :: _) as p => Some (Z.of_nat (length p))
  | None, [] => None
  end.

Definition last_canonicalized_hash (o : NonCanonicalOverlay) : option BlockHash :=
  fst <$> last_canonicalized o.

Definition top_level (o : NonCanonicalOverlay) : list (BlockHash * Z) :=
  let start := default 0 (last_canonicalized_block_number o) in
  match levels o !! length (pending_canonicalizations o) with
  | Some level => map (λ r, (bo_hash r, start)) level
  | None => []
  end.

(** The checks of [insert], the last canonicalized block it assumes, and the
    metadata to write for it. *)
Definition check_insert {E} (o : NonCanonicalOverlay) (number : Z) (parent_hash : BlockHash) :
    result (Error E) (NonCanonicalOverlay * list (bytes * DBValue)) :=
  let front := front_block_number o in
  let len := Z.of_nat (length (levels o)) in
  match levels o, last_canonicalized o with
  | [], None =>
      if 0 <? number then
        let last := (parent_hash, number - 1) in
        Ok (set_last o (Some last), [(to_meta_key LAST_CANONICAL tt, encode last)])
      else Ok (o, [])
  | _, Some (h, n) =>
      if (number <? front) || (front + len + 1 <=? number) then Err InvalidBlockNumber
      else if number =? front then
        if bool_decide (h = parent_hash) && (n =? number - 1) then Ok (o, []) else Err InvalidParent
      else if decide (is_Some (parents o !! parent_hash)) then Ok (o, [])
      else Err InvalidParent
  | _, None => Ok (o, [])
  end.

(** [front_block_number] is read before the checks. *)
Definition insert {E} (o : NonCanonicalOverlay) (hash : BlockHash) (number : Z)
    (parent_hash : BlockHash) (changeset : ChangeSet Key) :
    NonCanonicalOverlay * result (Error E) (CommitSet Key) :=
  let front := front_block_number o in
  match check_insert (E := E) o number parent_hash with
  | Err e => (o, Err e)
  | Panic => (o, Panic)
  | Ok (o1, meta) =>
      let len := Z.of_nat (length (levels o1)) in
      let '(ls, i) :=
        if bool_decide (levels o1 = []) || (number =? front + len)
        then (levels o1 ++ [[]], length (levels o1))
        else (levels o1, Z.to_nat (number - front)) in
      match ls !! i with
      | None => (o1, Panic)
      | Some level =>
          let index := Z.of_nat (length level) in
          let journal_key := to_journal_key number index in
          let overlay := MkBlockOverlay hash journal_key (map fst (inserted changeset))
            (deleted changeset) in
          let journal_record := MkJournalRecord hash parent_hash (inserted changeset)
            (deleted changeset) in
          (MkNonCanonicalOverlay (last_canonicalized o1) (<[i := level ++ [overlay]]> ls)
             (<[hash := parent_hash]> (parents o1)) (pending_canonicalizations o1)
             (pending_insertions o1 ++ [hash]) (insert_values (values o1) (inserted changeset))
             (pinned o1) (pinned_insertions o1),
           Ok (MkCommitSet (MkChangeSet [] [])
                 (MkChangeSet (meta ++ [(journal_key, encode journal_record)]) [])))
      end
  end.

(** The closure of [discard_journals] for each overlay of the level. *)
Fixpoint discard_children (discard : BlockHash → run (list bytes * list BlockHash))
    (o : NonCanonicalOverlay) (hash : BlockHash) (l : list BlockOverlay) :
    run (list bytes * list BlockHash) :=
  match l with
  | [] => Ok ([], [])
  | overlay :: l' =>
      parent ← expect (parents o !! bo_hash overlay);
      if decide (parent = hash) then
        '(js, bs) ← discard (bo_hash overlay);
        '(js', bs') ← discard_children discard o hash l';
        Ok (bo_journal_key overlay :: js ++ js', bo_hash overlay :: bs ++ bs')
      else discard_children discard o hash l'
  end.

(** The fuel is the number of levels from [level_index] on. *)
Fixpoint discard_journals (fuel : nat) (o : NonCanonicalOverlay) (level_index : nat)
    (hash : BlockHash) : run (list bytes * list BlockHash) :=
  match fuel, levels o !! level_index with
  | S fuel', Some level => discard_children (discard_journals fuel' o (S level_index)) o hash level
  | _, _ => Ok ([], [])
  end.

(** The loop of [canonicalize] over the overlays of the level. *)
Fixpoint discard_level (o : NonCanonicalOverlay) (level_index index i : nat) (l : list BlockOverlay) :
    run (list bytes * list BlockHash) :=
  match l with
  | [] => Ok ([], [])
  | overlay :: l' =>
      '(js, bs) ← (if decide (i = index) then Ok ([], [])
                   else discard_journals (length (levels o) - level_index) o level_index
                          (bo_hash overlay));
      '(js', bs') ← discard_level o level_index index (S i) l';
      Ok (js ++ bo_journal_key overlay :: js', bs ++ bo_hash overlay :: bs')
  end.

(** [commit.data.inserted.extend(..)]: each key with its value. *)
Fixpoint with_values (values : gmap Key (Z * DBValue)) (keys : list Key) : run (list (Key * DBValue)) :=
  match keys with
  | [] => Ok []
  | k :: keys' =>
      '(_, v) ← expect (values !! k);
      kvs ← with_values values keys';
      Ok ((k, v) :: kvs)
  end.

Definition canonicalize {E} (o : NonCanonicalOverlay) (hash : BlockHash) (commit : CommitSet Key) :
    NonCanonicalOverlay * CommitSet Key * result (Error E) unit :=
  let n := length (pending_canonicalizations o) in
  match levels o !! n with
  | None => (o, commit, Err InvalidBlock)
  | Some level =>
      match position (λ overlay, bool_decide (bo_hash overlay = hash)) level with
      | None => (o, commit, Err InvalidBlock)
      | Some index =>
          match
            ('(discarded_journals, _) ← discard_level o (S n) index 0 level;
             overlay ← expect (level !! index);
             kvs ← with_values (values o) (bo_inserted overlay);
             Ok (discarded_journals, overlay, kvs)) : run _
          with
          | Ok (discarded_journals, overlay, kvs) =>
              let canonicalized := (hash, front_block_number o + Z.of_nat n) in
              (set_pending_canonicalizations o (pending_canonicalizations o ++ [hash]),
               MkCommitSet
                 (MkChangeSet (inserted (cs_data commit) ++ kvs)
                    (deleted (cs_data commit) ++ bo_deleted overlay))
                 (MkChangeSet
                    (inserted (cs_meta commit) ++
                       [(to_meta_key LAST_CANONICAL tt, encode canonicalized)])
                    (deleted (cs_meta commit) ++ discarded_journals)),
               Ok tt)
          | _ => (o, commit, Panic)
          end
      end
  end.

(** One overlay of the level that leaves the window. *)
Definition leave_level (index : nat) (o : NonCanonicalOverlay) (e : nat * BlockOverlay) :
    run NonCanonicalOverlay :=
  o' ← (if decide (e.1 = index) then Ok o
        else discard_descendants (length (levels o)) 0 o (bo_hash e.2));
  Ok (release o' e.2).

(** One turn of the loop of [apply_canonicalizations]. *)
Definition apply_canonicalization (o : NonCanonicalOverlay) (hash : BlockHash) : run NonCanonicalOverlay :=
  match levels o with
  | [] => Panic
  | level :: rest =>
      index ← expect (position (λ overlay, bool_decide (bo_hash overlay = hash)) level);
      for_each (leave_level index) (set_levels o rest) (imap pair level)
  end.

Definition apply_canonicalizations (o : NonCanonicalOverlay) : run NonCanonicalOverlay :=
  let pending := pending_canonicalizations o in
  let count := Z.of_nat (length pending) in
  o' ← for_each apply_canonicalization (set_pending_canonicalizations o []) pending;
  match last pending with
  | Some hash =>
      Ok (set_last o' (Some (hash,
        match last_canonicalized o' with Some (_, n) => n + count | None => count - 1 end)))
  | None => Ok o'
  end.

Definition get (o : NonCanonicalOverlay) (key : Key) : option DBValue := snd <$> values o !! key.

Definition have_block (o : NonCanonicalOverlay) (hash : BlockHash) : bool :=
  (bool_decide (is_Some (parents o !! hash)) || bool_decide (hash ∈ pending_insertions o))
  && negb (bool_decide (hash ∈ pending_canonicalizations o)).

Definition drop_overlay (o : NonCanonicalOverlay) (overlay : BlockOverlay) : NonCanonicalOverlay :=
  set_values (set_parents o (delete (bo_hash overlay) (parents o)))
    (discard_values (values o) (bo_inserted overlay)).

Definition revert_one (o : NonCanonicalOverlay) : NonCanonicalOverlay * option (CommitSet Key) :=
  match last (levels o) with
  | None => (o, None)
  | Some level =>
      let o1 := set_levels o (take (pred (length (levels o))) (levels o)) in
      (foldl drop_overlay o1 level,
       Some (MkCommitSet (MkChangeSet [] []) (MkChangeSet [] (map bo_journal_key level))))
  end.

(** The level whose last overlay is the block; an empty level before it is a
    panic. *)
Fixpoint find_last (hash : BlockHash) (i : nat) (ls : list (list BlockOverlay)) : run (option nat) :=
  match ls with
  | [] => Ok None
  | level :: ls' =>
      overlay ← expect (last level);
      if decide (bo_hash overlay = hash) then Ok (Some i) else find_last hash (S i) ls'
  end.

(** One turn of the loop of [revert_insertions]. *)
Definition revert_insertion (o : NonCanonicalOverlay) (hash : BlockHash) : run NonCanonicalOverlay :=
  let o1 := set_parents o (delete hash (parents o)) in
  found ← find_last hash 0 (levels o1);
  level_index ← expect found;
  level ← expect (levels o1 !! level_index);
  overlay ← expect (last level);
  let level' := take (pred (length level)) level in
  let ls := <[level_index := level']> (levels o1) in
  let o2 := set_values o1 (discard_values (values o1) (bo_inserted overlay)) in
  Ok (set_levels o2 (if bool_decide (level' = []) then take (pred (length ls)) ls else ls)).

Definition revert_insertions (o : NonCanonicalOverlay) : run NonCanonicalOverlay :=
  for_each revert_insertion (set_pending_insertions o []) (reverse (pending_insertions o)).

Definition apply_pending (o : NonCanonicalOverlay) : run NonCanonicalOverlay :=
  o' ← apply_canonicalizations o; Ok (set_pending_insertions o' []).

Definition revert_pending (o : NonCanonicalOverlay) : run NonCanonicalOverlay :=
  revert_insertions (set_pending_canonicalizations o []).

(** The loop of [pin] up the parents; [None] is running out of fuel. *)
Fixpoint pin_loop (fuel : nat) (o : NonCanonicalOverlay) (hash : option BlockHash) :
    option NonCanonicalOverlay :=
  match hash with
  | None => Some o
  | Some h =>
      match fuel with
      | O => None
      | S fuel' =>
          let refs := default 0 (pinned o !! h) in
          pin_loop fuel' (set_pinned o (<[h := refs + 1]> (pinned o))) (parents o !! h)
      end
  end.

Definition pin (o : NonCanonicalOverlay) (hash : BlockHash) : option NonCanonicalOverlay :=
  if decide (hash ∈ pending_insertions o) then Some o
  else pin_loop (S (size (parents o))) o (Some hash).

(** One block on the way up of [unpin]. *)
Definition unpin_one (o : NonCanonicalOverlay) (h : BlockHash) : NonCanonicalOverlay :=
  match pinned o !! h with
  | Some refs =>
      if refs - 1 =? 0 then
        let o1 := set_pinned o (delete h (pinned o)) in
        match pinned_insertions o1 !! h with
        | Some ks =>
            set_parents
              (set_values (set_pinned_insertions o1 (delete h (pinned_insertions o1)))
                 (discard_values (values o1) ks))
              (delete h (parents o1))
        | None => o1
        end
      else set_pinned o (<[h := refs - 1]> (pinned o))
  | None => o
  end.

Fixpoint unpin_loop (fuel : nat) (o : NonCanonicalOverlay) (hash : option BlockHash) :
    option NonCanonicalOverlay :=
  match hash with
  | None => Some o
  | Some h =>
      match fuel with
      | O => None
      | S fuel' => unpin_loop fuel' (unpin_one o h) (parents o !! h)
      end
  end.

Definition unpin (o : NonCanonicalOverlay) (hash : BlockHash) : option NonCanonicalOverlay :=
  unpin_loop (S (size (parents o))) o (Some hash).
End noncanonical.
