(* ===== verification/NonCanonicalFacts.v ===== *)
(** * Correctness of the non-canonical overlay *)
From stdpp Require Import strings.
From S2P Require Import Prelude StateDbBase NonCanonical.

Local Open Scope Z_scope.

Section facts.
Context {BlockHash Key : Type} `{Countable BlockHash, Countable Key}.
Context `{!Codec unit} `{!Codec (Z * Z)} `{!Codec (BlockHash * Z)}
  `{!Codec (JournalRecord (BlockHash := BlockHash) (Key := Key))}.

Abbreviation overlay_state := (NonCanonicalOverlay (BlockHash := BlockHash) (Key := Key)).
Abbreviation overlay := (BlockOverlay (BlockHash := BlockHash) (Key := Key)).

(** The states are tries: a key is the hash of its value, and a block hash
    determines the number and the parent of the block and the keys it inserts. *)
Context (val : Key → DBValue) (num : BlockHash → Z) (par : BlockHash → BlockHash)
  (keys : BlockHash → list Key).

(** ** Reference counts *)

(** The map counts the occurrences of each key in the list. *)
Definition counted (vs : gmap Key (Z * DBValue)) (l : list Key) : Prop :=
  ∀ k, vs !! k = if occ k l =? 0 then None else Some (occ k l, val k).

#[export] Instance counted_perm vs : Proper ((≡ₚ) ==> (↔)) (counted vs).
Proof. intros l l' Hl. split; intros Hv k; rewrite Hv; by rewrite (occ_perm k _ _ Hl). Qed.

Lemma counted_unique vs vs' l : counted vs l → counted vs' l → vs = vs'.
Proof. intros Hv Hv'. apply map_eq. intros k. by rewrite Hv, Hv'. Qed.

Lemma counted_get vs l k : counted vs l → k ∈ l → ∃ c, vs !! k = Some (c, val k).
Proof.
  intros Hv Hk%occ_pos. rewrite Hv. destruct (Z.eqb_spec (occ k l) 0); [lia|by eexists].
Qed.

Lemma insert_value_counted vs l k :
  counted vs l → counted (insert_value vs (k, val k)) (k :: l).
Proof.
  intros Hv k'. unfold insert_value. cbn [fst snd]. pose proof (occ_nonneg k l).
  rewrite (Hv k), occ_cons. destruct (Z.eqb_spec (occ k l) 0) as [Hz|Hz]; cbn [from_option id].
  all: rewrite lookup_insert; destruct (decide (k = k')) as [<-|];
    [|by rewrite Hv, Z.add_0_l].
  all: replace (1 + occ k l =? 0) with false by (symmetry; apply Z.eqb_neq; lia).
  all: by rewrite ?Hz, Z.add_comm.
Qed.

Definition content_addressed (ins : list (Key * DBValue)) : Prop := Forall (λ kv, kv.2 = val kv.1) ins.

Lemma insert_values_counted vs l ins :
  content_addressed ins → counted vs l → counted (insert_values vs ins) (map fst ins ++ l).
Proof.
  intros Hins. revert vs l. induction Hins as [|[k v] ins Hkv _ IH]; intros vs l Hv; [done|].
  cbn [map app fst]. cbn in Hkv. subst v. cbn [insert_values foldl].
  rewrite Permutation_middle. apply IH. by apply insert_value_counted.
Qed.

Lemma discard_value_counted vs l k : counted vs (k :: l) → counted (discard_value vs k) l.
Proof.
  intros Hv k'. unfold discard_value. pose proof (occ_nonneg k l).
  rewrite (Hv k), occ_cons, decide_True by done.
  destruct (Z.eqb_spec (1 + occ k l) 0); [lia|]. specialize (Hv k'). rewrite occ_cons in Hv.
  destruct (Z.eqb_spec (1 + occ k l - 1) 0).
  - rewrite lookup_delete. destruct (decide (k = k')) as [<-|]; [|done].
    by rewrite (proj2 (Z.eqb_eq (occ k l) 0)) by lia.
  - rewrite lookup_insert. destruct (decide (k = k')) as [<-|]; [|done].
    rewrite (proj2 (Z.eqb_neq (occ k l) 0)) by lia. do 2 f_equal; lia.
Qed.

Lemma discard_values_counted vs l ks : counted vs (ks ++ l) → counted (discard_values vs ks) l.
Proof.
  revert vs. induction ks as [|k ks IH]; intros vs Hv; [done|].
  cbn [discard_values foldl]. apply IH. by apply discard_value_counted.
Qed.

(** ** What is stored for the blocks *)

Abbreviation hashes := (map bo_hash).

(** The keys the overlays and the pinned states hold. *)
Definition held (live : list overlay) (pins : gmap BlockHash (list Key)) : list Key :=
  flat_map bo_inserted live ++ flat_map snd (map_to_list pins).

(** The maps describe the overlays [live], wherever those are kept, and the
    states that are only pinned. *)
Record store (live : list overlay) (o : overlay_state) : Prop := {
  s_nodup : NoDup (hashes live);
  s_parents : ∀ h, parents o !! h =
    if decide (h ∈ hashes live ∨ is_Some (pinned_insertions o !! h)) then Some (par h) else None;
  s_num : ∀ h, is_Some (parents o !! h) → num h = num (par h) + 1;
  s_disjoint : ∀ h, h ∈ hashes live → pinned_insertions o !! h = None;
  s_pinned : ∀ h, is_Some (pinned_insertions o !! h) → is_Some (pinned o !! h);
  s_values : counted (values o) (held live (pinned_insertions o));
  s_refs : ∀ h n, pinned o !! h = Some n → 1 ≤ n;
  s_live_keys : Forall (λ ov, bo_inserted ov = keys (bo_hash ov)) live;
  s_pin_keys : ∀ h ks, pinned_insertions o !! h = Some ks → ks = keys h;
}.

(** What discarding blocks leaves alone. *)
Record frame (o o' : overlay_state) : Prop := {
  f_last : last_canonicalized o' = last_canonicalized o;
  f_canon : pending_canonicalizations o' = pending_canonicalizations o;
  f_ins : pending_insertions o' = pending_insertions o;
  f_pinned : pinned o' = pinned o;
  f_parents : parents o' ⊆ parents o;
  f_kept : ∀ h, is_Some (pinned o !! h) → parents o' !! h = parents o !! h;
}.

#[export] Instance frame_preorder : PreOrder frame.
Proof.
  split; [intros o; by constructor|]. intros o1 o2 o3 [? ? ? Hp2 ? ?] [? ? ? Hp3 ? Hk].
  constructor; [congruence..|by etrans|]. intros h Hh. rewrite Hk by (by rewrite Hp2). auto.
Qed.

#[export] Instance held_perm : Proper ((≡ₚ) ==> (=) ==> (≡ₚ)) held.
Proof. intros l l' Hl m _ <-. unfold held. by rewrite Hl. Qed.

Lemma held_pin ov live pins :
  pins !! bo_hash ov = None →
  held live (<[bo_hash ov := bo_inserted ov]> pins) ≡ₚ held (ov :: live) pins.
Proof.
  intros Hn. unfold held. rewrite map_to_list_insert by done. cbn [flat_map snd].
  rewrite !app_assoc. f_equiv. apply Permutation_app_comm.
Qed.

Lemma store_perm live live' o : live ≡ₚ live' → store live o → store live' o.
Proof.
  intros Hp [? Hpar ? Hd ? ? ? Hk ?].
  assert (∀ h, h ∈ hashes live ↔ h ∈ hashes live') as Hin by (intros h; by rewrite Hp).
  constructor; try done; rewrite <- ?Hp; try done.
  - intros h. rewrite Hpar. apply decide_ext. by rewrite Hin.
  - intros h. rewrite <- Hin. apply Hd.
Qed.

(** The maps do not depend on the levels or the pending operations. *)
Lemma store_same live o o' :
  parents o' = parents o → pinned o' = pinned o → pinned_insertions o' = pinned_insertions o →
  values o' = values o → store live o → store live o'.
Proof. intros Hp Hq Hr Hv [? ? ? ? ? ? ? ? ?]. by constructor; rewrite ?Hp, ?Hq, ?Hr, ?Hv. Qed.

Lemma drop_store ov live o : store (ov :: live) o → store live (drop_overlay o ov).
Proof.
  intros Hs. pose proof Hs as [Hn Hpar Hnum Hd Hpin Hv Hr Hk Hpk]. cbn [map] in *.
  apply Forall_cons in Hk as [Hkov Hk]. apply NoDup_cons in Hn as [Hov Hn].
  assert (pinned_insertions o !! bo_hash ov = None) as Hnone by (apply Hd; by left).
  constructor; cbn [parents pinned pinned_insertions values set_values set_parents drop_overlay]; try done.
  - intros h. rewrite lookup_delete, Hpar. destruct (decide (bo_hash ov = h)) as [<-|Hne].
    + rewrite decide_False; [done|]. rewrite Hnone. intros [|[? ?]]; done.
    + apply decide_ext. rewrite elem_of_cons. naive_solver.
  - intros h [p Hp']. apply lookup_delete_Some in Hp' as [_ ?]. apply Hnum. by eexists.
  - intros h Hh. apply Hd. by right.
  - apply discard_values_counted. unfold held in *. cbn [flat_map] in Hv. by rewrite <- app_assoc in Hv.
Qed.

Lemma release_store ov live o : store (ov :: live) o → store live (release o ov).
Proof.
  intros Hs. unfold release. case_decide as Hp; [|by apply drop_store].
  pose proof Hs as [Hn Hpar Hnum Hd Hpin Hv Hr Hk Hpk]. cbn [map] in *.
  apply Forall_cons in Hk as [Hkov Hk]. apply NoDup_cons in Hn as [Hov Hn].
  assert (pinned_insertions o !! bo_hash ov = None) as Hnone by (apply Hd; by left).
  constructor; cbn [parents pinned pinned_insertions values set_pinned_insertions]; try done.
  - intros h. rewrite Hpar. apply decide_ext. rewrite lookup_insert, elem_of_cons.
    destruct (decide (bo_hash ov = h)) as [<-|]; [|naive_solver].
    split; intros; [right; by eexists|left; by left].
  - intros h Hh. rewrite lookup_insert_ne by (by intros <-). apply Hd. by right.
  - intros h [ks Hks]. apply lookup_insert_Some in Hks as [[<- _]|[_ ?]]; [done|]. apply Hpin. by eexists.
  - by rewrite held_pin.
  - intros h ks Hks. apply lookup_insert_Some in Hks as [[<- <-]|[_ ?]]; [done|]. by apply Hpk.
Qed.

Lemma release_levels o (ov : overlay) : levels (release o ov) = levels o.
Proof. unfold release. by case_decide. Qed.

Lemma release_frame ov live o : store (ov :: live) o → frame o (release o ov).
Proof.
  intros Hs. unfold release. case_decide as Hp; [by constructor|].
  constructor; try done; cbn [parents set_values set_parents]; [apply delete_subseteq|].
  intros h Hh. apply lookup_delete_ne. by intros <-.
Qed.

Lemma store_parent live o ov : store live o → ov ∈ live → parents o !! bo_hash ov = Some (par (bo_hash ov)).
Proof.
  intros Hs Hov. rewrite (s_parents _ _ Hs), decide_True; [done|]. left. by apply list_elem_of_fmap_2.
Qed.

(** ** Discarding *)

Definition parent_in (S : list BlockHash) (ov : overlay) : Prop := par (bo_hash ov) ∈ S.

#[export] Instance parent_in_dec S ov : Decision (parent_in S ov).
Proof. unfold parent_in. apply _. Defined.

(** What is left of the levels without the descendants of the blocks [S], and
    the descendants. *)
Fixpoint sweep (S : list BlockHash) (ls : list (list overlay)) : list (list overlay) :=
  match ls with
  | [] => []
  | l :: ls' => filter (λ ov, ¬ parent_in S ov) l :: sweep (hashes (filter (parent_in S) l)) ls'
  end.

Fixpoint keep (S : list BlockHash) (ls : list (list overlay)) : list (list overlay) :=
  match ls with
  | [] => []
  | l :: ls' => filter (parent_in S) l :: keep (hashes (filter (parent_in S) l)) ls'
  end.

Lemma sweep_ext S S' ls : (∀ h, h ∈ S ↔ h ∈ S') → sweep S ls = sweep S' ls.
Proof.
  revert S S'. induction ls as [|l ls IH]; intros S S' HS; [done|]. cbn [sweep].
  assert (∀ ov, parent_in S ov ↔ parent_in S' ov) as Hp by (intros ov; apply HS). f_equal.
  - apply list_filter_iff. intros ov. by rewrite Hp.
  - apply IH. intros h. by rewrite (list_filter_iff _ _ l Hp).
Qed.

Lemma sweep_nil ls : sweep [] ls = ls.
Proof.
  induction ls as [|l ls IH]; [done|]. cbn [sweep]. f_equal.
  - apply filter_all. intros ov _ Hov. by apply not_elem_of_nil in Hov.
  - rewrite filter_none; [done|]. intros ov _ Hov. by apply not_elem_of_nil in Hov.
Qed.

Lemma sweep_app S S' ls : sweep S' (sweep S ls) = sweep (S ++ S') ls.
Proof.
  revert S S'. induction ls as [|l ls IH]; intros S S'; [done|]. cbn [sweep]. f_equal.
  - rewrite list_filter_filter. apply list_filter_iff. intros ov. unfold parent_in.
    rewrite elem_of_app. tauto.
  - rewrite IH. apply sweep_ext. intros h. rewrite elem_of_app, !list_elem_of_fmap.
    setoid_rewrite list_elem_of_filter. setoid_rewrite list_elem_of_filter. unfold parent_in.
    setoid_rewrite elem_of_app. split.
    + intros [(ov&->&?&?)|(ov&->&?&?&?)]; exists ov; tauto.
    + intros (ov&->&?&?). destruct (decide (par (bo_hash ov) ∈ S)); [left|right]; exists ov; tauto.
Qed.

Lemma sweep_sublist S ls : sublist (concat (sweep S ls)) (concat ls).
Proof.
  revert S. induction ls as [|l ls IH]; intros S; [done|]. cbn [sweep concat].
  apply sublist_app; [apply sublist_filter|apply IH].
Qed.

Lemma length_sweep S ls : length (sweep S ls) = length ls.
Proof. revert S. induction ls as [|l ls IH]; intros S; [done|]. cbn. by rewrite IH. Qed.

Lemma drain_level_ok hash level rest o :
  store (level ++ rest) o →
  ∃ o', drain_level o hash level =
      Ok (o', filter (λ ov, ¬ parent_in [hash] ov) level, hashes (filter (parent_in [hash]) level)) ∧
    store (filter (λ ov, ¬ parent_in [hash] ov) level ++ rest) o' ∧ frame o o' ∧ levels o' = levels o.
Proof.
  revert rest o. induction level as [|ov level IH]; intros rest o Hs; [by exists o|].
  cbn [drain_level]. rewrite (store_parent _ _ _ Hs) by (by left). cbn [expect mbind result_bind].
  assert (parent_in [hash] ov ↔ par (bo_hash ov) = hash) as Hiff by apply list_elem_of_singleton.
  rewrite !filter_cons. destruct (decide (par (bo_hash ov) = hash)) as [Hp|Hp].
  - rewrite (decide_False (P := ¬ _)) by tauto. rewrite decide_True by tauto.
    destruct (IH rest (release o ov)) as (o'&->&Hs'&Hf&Hl); [by apply release_store|].
    exists o'. split_and!; [done|done| |by rewrite Hl, release_levels].
    etrans; [by eapply release_frame|done].
  - rewrite decide_True, decide_False by tauto.
    destruct (IH (ov :: rest) o) as (o'&->&Hs'&Hf&Hl).
    { eapply store_perm; [|done]. by rewrite <- Permutation_middle. }
    exists o'. split_and!; try done.
    eapply store_perm; [|done]. by rewrite <- Permutation_middle.
Qed.

(** The result of discarding the descendants of [S] from the level [i] on. *)
Definition swept (i : nat) (S : list BlockHash) (hand : list overlay) (o o' : overlay_state) : Prop :=
  levels o' = take i (levels o) ++ sweep S (drop i (levels o)) ∧
  store (concat (levels o') ++ hand) o' ∧ frame o o'.

Lemma swept_trans i S S' hand o1 o2 o3 :
  swept i S hand o1 o2 → swept i S' hand o2 o3 → swept i (S ++ S') hand o1 o3.
Proof.
  intros (Hl&_&Hf) (Hl'&Hs&Hf'). split_and!; [|done|by etrans]. rewrite Hl', Hl.
  destruct (decide (i ≤ length (levels o1))%nat) as [Hi|Hi].
  - rewrite take_app_length', drop_app_length' by (rewrite length_take; lia). by rewrite sweep_app.
  - rewrite (drop_ge (levels o1)), (take_ge (levels o1)) by lia. cbn [sweep].
    rewrite !app_nil_r, take_ge, drop_ge by lia. apply app_nil_r.
Qed.

Lemma swept_length i S hand o o' : swept i S hand o o' → length (levels o') = length (levels o).
Proof.
  intros (->&_). rewrite length_app, length_sweep, <- length_app. by rewrite take_drop.
Qed.

Lemma for_each_swept i n hand f hs o :
  (∀ o h, store (concat (levels o) ++ hand) o → length (levels o) = n →
    ∃ o', f o h = Ok o' ∧ swept i [h] hand o o') →
  store (concat (levels o) ++ hand) o → length (levels o) = n →
  ∃ o', for_each f o hs = Ok o' ∧ swept i hs hand o o'.
Proof.
  intros Hf. revert o. induction hs as [|h hs IH]; intros o Hs Hn.
  - exists o. split; [done|]. split_and!; [|done|done]. by rewrite sweep_nil, take_drop.
  - cbn [for_each]. destruct (Hf o h Hs Hn) as (o1&->&H1). cbn [mbind result_bind].
    destruct (IH o1) as (o2&->&H2); [apply H1|by rewrite (swept_length _ _ _ _ _ H1)|].
    exists o2. split; [done|]. by apply (swept_trans i [h] hs hand o o1 o2).
Qed.

(** One level of [discard_descendants], before the recursion. *)
Lemma drained_store i o level kept hand o1 :
  levels o !! i = Some level → levels o1 = levels o →
  store (kept ++ concat (take i (levels o)) ++ concat (drop (S i) (levels o)) ++ hand) o1 →
  store (concat (<[i := kept]> (levels o)) ++ hand) (set_levels o1 (<[i := kept]> (levels o))).
Proof.
  intros Hi Hl Hs. apply (store_same _ o1); [done..|]. eapply store_perm; [|done].
  rewrite insert_take_drop by (by apply lookup_lt_Some in Hi). rewrite concat_app. cbn [concat].
  rewrite <- !app_assoc. rewrite (app_assoc kept), (Permutation_app_comm kept), <- app_assoc. done.
Qed.

Lemma discard_descendants_ok fuel i o h hand :
  (length (levels o) ≤ i + fuel)%nat → store (concat (levels o) ++ hand) o →
  ∃ o', discard_descendants fuel i o h = Ok o' ∧ swept i [h] hand o o'.
Proof.
  revert i o h. induction fuel as [|fuel IH]; intros i o h Hlen Hs; cbn [discard_descendants].
  { exists o. split; [done|]. split_and!; [|done|done].
    rewrite drop_ge, take_ge by lia. by rewrite app_nil_r. }
  destruct (levels o !! i) as [level|] eqn:Hi; cycle 1.
  { apply lookup_ge_None in Hi. exists o. split; [done|]. split_and!; [|done|done].
    rewrite drop_ge, take_ge by lia. by rewrite app_nil_r. }
  set (rest := concat (take i (levels o)) ++ concat (drop (S i) (levels o)) ++ hand).
  destruct (drain_level_ok h level rest o) as (o1&->&Hs1&Hf1&Hl1).
  { eapply store_perm; [|done]. rewrite <- (take_drop_middle _ _ _ Hi) at 1. rewrite concat_app.
    cbn [concat]. unfold rest. rewrite <- !app_assoc.
    by rewrite (app_assoc _ level), (Permutation_app_comm _ level), <- app_assoc. }
  cbn [mbind result_bind]. rewrite Hl1.
  set (kept := filter (λ ov, ¬ parent_in [h] ov) level) in *.
  set (o2 := set_levels o1 (<[i := kept]> (levels o))).
  assert (store (concat (levels o2) ++ hand) o2) as Hs2 by (by eapply drained_store).
  assert (length (levels o2) = length (levels o)) as Hn2 by apply length_insert.
  destruct (for_each_swept (S i) (length (levels o)) hand (discard_descendants fuel (S i))
              (hashes (filter (parent_in [h]) level)) o2) as (o3&->&Hl3&Hs3&Hf3); [|done|done|].
  { intros o' h' Hs' Hn'. apply IH; [lia|done]. }
  exists o3. split; [done|]. split_and!; [|done|]; cycle 1.
  { etrans; [exact Hf1|]. etrans; [|exact Hf3]. by constructor. }
  apply lookup_lt_Some in Hi as Hlt. rewrite Hl3. cbn [o2 levels set_levels].
  rewrite (drop_S _ _ _ Hi). cbn [sweep]. fold kept.
  rewrite (insert_take_drop (levels o) i kept) by done. rewrite (cons_middle kept), app_assoc.
  rewrite take_app_length', drop_app_length' by (rewrite length_app, length_take; cbn [length]; lia).
  by rewrite <- app_assoc.
Qed.

(** ** Shape of the levels *)

(** Every block is above a block of the level before. *)
Fixpoint linked (prev : BlockHash → Prop) (ls : list (list overlay)) : Prop :=
  match ls with
  | [] => True
  | l :: ls' => Forall (λ ov, prev (par (bo_hash ov))) l ∧ linked (λ h, h ∈ hashes l) ls'
  end.

(** The level [i] has the blocks of number [n + i]. *)
Fixpoint numbered (n : Z) (ls : list (list overlay)) : Prop :=
  match ls with
  | [] => True
  | l :: ls' => Forall (λ ov, num (bo_hash ov) = n) l ∧ numbered (n + 1) ls'
  end.

(** The blocks [cs] are a chain through the first levels. *)
Fixpoint chained (prev : BlockHash → Prop) (cs : list BlockHash) (ls : list (list overlay)) : Prop :=
  match cs, ls with
  | [], _ => True
  | c :: cs', l :: ls' => c ∈ hashes l ∧ prev (par c) ∧ chained (λ h, h = c) cs' ls'
  | _ :: _, [] => False
  end.

Lemma linked_mono (P Q : BlockHash → Prop) ls : (∀ h, P h → Q h) → linked P ls → linked Q ls.
Proof. destruct ls; [done|]. intros HPQ [Hl ?]. split; [|done]. eapply Forall_impl; [done|naive_solver]. Qed.

Lemma linked_keep K ls : linked (λ h, h ∈ K) (keep K ls).
Proof.
  revert K. induction ls as [|l ls IH]; intros K; [done|]. cbn [keep linked]. split; [|apply IH].
  apply Forall_forall. intros ov Hov. by apply list_elem_of_filter in Hov as [? _].
Qed.

Lemma numbered_keep n K ls : numbered n ls → numbered n (keep K ls).
Proof.
  revert n K. induction ls as [|l ls IH]; intros n K; [done|]. cbn [keep numbered].
  intros [Hl ?]. split; [|auto].
  rewrite Forall_forall in *. intros ov [_ Hov]%list_elem_of_filter. auto.
Qed.

Lemma numbered_drop n k ls : numbered n ls → numbered (n + Z.of_nat k) (drop k ls).
Proof.
  revert n k. induction ls as [|l ls IH]; intros n [|k]; cbn [drop]; try done.
  - by rewrite Z.add_0_r.
  - intros [_ Hls]. specialize (IH (n + 1) k Hls). by replace (n + Z.of_nat (S k)) with (n + 1 + Z.of_nat k) by lia.
Qed.

Lemma keep_sublist K ls : sublist (concat (keep K ls)) (concat ls).
Proof.
  revert K. induction ls as [|l ls IH]; intros K; [done|]. cbn [keep concat].
  apply sublist_app; [apply sublist_filter|apply IH].
Qed.

Lemma elem_of_overlay_hashes h (l : list overlay) : h ∈ hashes l ↔ ∃ ov, h = bo_hash ov ∧ ov ∈ l.
Proof. apply list_elem_of_fmap. Qed.

Lemma elem_of_kept K h (l : list overlay) : h ∈ hashes (filter (parent_in K) l) ↔ h ∈ hashes l ∧ par h ∈ K.
Proof.
  rewrite !elem_of_overlay_hashes. setoid_rewrite list_elem_of_filter. unfold parent_in. split.
  - intros (ov&->&?&?). split; [by exists ov|done].
  - intros [(ov&->&?) ?]. by exists ov.
Qed.

Lemma keep_keep S K ls : (∀ h, h ∈ S → h ∈ K) → keep S (keep K ls) = keep S ls.
Proof.
  revert S K. induction ls as [|l ls IH]; intros S K HSK; [done|]. cbn [keep].
  assert (filter (parent_in S) (filter (parent_in K) l) = filter (parent_in S) l) as Hl.
  { rewrite list_filter_filter. apply list_filter_iff. intros ov. unfold parent_in. naive_solver. }
  rewrite Hl. f_equal. apply IH. intros h. rewrite !elem_of_kept. naive_solver.
Qed.

(** Without the descendants of some blocks of a level, the descendants of the
    others are left. *)
Lemma sweep_keep (P : BlockHash → Prop) S K ls :
  linked P ls → (∀ h, P h → h ∈ S ∨ h ∈ K) → (∀ h, h ∈ S → h ∉ K) → sweep S ls = keep K ls.
Proof.
  revert P S K. induction ls as [|l ls IH]; intros P S K Hlk Hcover Hdis; [done|].
  destruct Hlk as [Hl Hls]. cbn [sweep keep]. rewrite Forall_forall in Hl. f_equal.
  - clear IH Hls. induction l as [|ov l IHl]; [done|]. rewrite !filter_cons.
    rewrite IHl by (intros; apply Hl; by right).
    specialize (Hcover _ (Hl ov ltac:(by left))). unfold parent_in.
    destruct (decide (par (bo_hash ov) ∈ S)) as [HS|HS].
    + rewrite decide_False by tauto. rewrite decide_False by (by apply Hdis). done.
    + rewrite !decide_True by tauto. done.
  - apply (IH _ _ _ Hls); intros h.
    + rewrite !elem_of_kept. intros Hh. assert (P (par h)) as HP.
      { apply elem_of_overlay_hashes in Hh as (ov&->&?). by apply Hl. }
      destruct (Hcover _ HP); tauto.
    + rewrite !elem_of_kept. naive_solver.
Qed.

Lemma chained_keep prev K cs ls :
  (∀ h, prev h → h ∈ K) → chained prev cs ls → chained prev cs (keep K ls).
Proof.
  revert prev K cs. induction ls as [|l ls IH]; intros prev K [|c cs] HK; try done.
  cbn [chained keep]. intros (Hc&Hp&Hcs). split_and!; [|done|].
  - rewrite elem_of_kept. auto.
  - apply IH; [|done]. intros h ->. rewrite elem_of_kept. auto.
Qed.

(** The descendants of the end of a chain. *)
Lemma keep_drop prev K cs ls c :
  (∀ h, prev h → h ∈ K) → chained prev cs ls → last cs = Some c →
  keep [c] (drop (length cs) (keep K ls)) = keep [c] (drop (length cs) ls).
Proof.
  revert prev K cs. induction ls as [|l ls IH]; intros prev K [|c' cs] HK Hch Hlast; try done.
  cbn [length drop keep]. destruct Hch as (Hc'&Hp&Hcs).
  assert (c' ∈ hashes (filter (parent_in K) l)) as Hc'' by (rewrite elem_of_kept; auto).
  destruct cs as [|c'' cs].
  - injection Hlast as <-. cbn [length drop]. apply keep_keep. by intros h ->%list_elem_of_singleton.
  - apply (IH (λ h, h = c')); [by intros h ->|done|done].
Qed.

(** ** Applying canonicalizations *)

Lemma leave_level_ok index e hand o :
  store (concat (levels o) ++ e.2 :: hand) o →
  ∃ o', leave_level index o e = Ok o' ∧
    swept 0 (if decide (e.1 = index) then [] else [bo_hash e.2]) hand o o'.
Proof.
  intros Hs. unfold leave_level.
  assert (∃ o', (if decide (e.1 = index) then Ok o
      else discard_descendants (length (levels o)) 0 o (bo_hash e.2)) = Ok o' ∧
    swept 0 (if decide (e.1 = index) then [] else [bo_hash e.2]) (e.2 :: hand) o o') as (o'&->&Hl&Hs'&Hf).
  { case_decide; [|by apply discard_descendants_ok; [lia|]].
    exists o. split; [done|]. split_and!; [by rewrite sweep_nil|done|done]. }
  cbn [mbind result_bind]. exists (release o' e.2). split; [done|].
  assert (store (e.2 :: concat (levels o') ++ hand) o') as Hs''.
  { eapply store_perm; [|exact Hs']. by rewrite <- Permutation_middle. }
  pose proof (release_levels o' e.2) as Hlr.
  split_and!; rewrite ?Hlr; [done|by apply release_store|]. etrans; [done|by eapply release_frame].
Qed.

Definition siblings (index : nat) (es : list (nat * overlay)) : list BlockHash :=
  flat_map (λ e, if decide (e.1 = index) then [] else [bo_hash e.2]) es.

Lemma leave_levels_ok index es o :
  store (concat (levels o) ++ map snd es) o →
  ∃ o', for_each (leave_level index) o es = Ok o' ∧ levels o' = sweep (siblings index es) (levels o) ∧
    store (concat (levels o')) o' ∧ frame o o'.
Proof.
  revert o. induction es as [|e es IH]; intros o Hs; cbn [map] in Hs.
  - rewrite app_nil_r in Hs. exists o. split_and!; try done. by rewrite sweep_nil.
  - cbn [for_each]. destruct (leave_level_ok index e (map snd es) o Hs) as (o1&->&Hl1&Hs1&Hf1).
    cbn [mbind result_bind]. destruct (IH o1 Hs1) as (o2&->&Hl2&Hs2&Hf2). exists o2.
    split_and!; [done| |done|by etrans]. rewrite Hl2, Hl1. cbn [take drop app]. apply sweep_app.
Qed.

(** All the blocks of the level but one. *)
Lemma elem_of_siblings index (l : list overlay) ov h :
  NoDup (hashes l) → l !! index = Some ov →
  h ∈ siblings index (imap pair l) ↔ h ∈ hashes l ∧ h ≠ bo_hash ov.
Proof.
  intros Hn Hi. unfold siblings. rewrite elem_of_overlay_hashes, list_elem_of_In, in_flat_map.
  setoid_rewrite <- list_elem_of_In. setoid_rewrite elem_of_lookup_imap. split.
  - intros ([i ov']&(j&ov''&[= -> ->]&Hj)&Hh). cbn [fst snd] in Hh.
    case_decide as Hji; [by apply not_elem_of_nil in Hh|]. apply list_elem_of_singleton in Hh as ->.
    split; [eexists; split; [done|by eapply list_elem_of_lookup_2]|]. intros Heq. apply Hji.
    eapply (NoDup_lookup (hashes l)); [done|rewrite list_lookup_fmap; by rewrite Hj|].
    rewrite list_lookup_fmap, Hi. cbn. by rewrite Heq.
  - intros [(ov'&->&Hov) Hne]. apply list_elem_of_lookup in Hov as [j Hj].
    exists (j, ov'). split; [by exists j, ov'|]. cbn [fst snd]. rewrite decide_False; [by left|].
    intros ->. congruence.
Qed.

Lemma map_snd_imap {A} (l : list A) : map snd (imap pair l) = l.
Proof.
  change (snd <$> imap pair l = l). apply list_eq. intros i. rewrite list_lookup_fmap, list_lookup_imap.
  by destruct (l !! i).
Qed.

Lemma apply_canonicalization_ok P c o l rest :
  store (concat (levels o)) o → levels o = l :: rest → linked P (levels o) → c ∈ hashes l →
  ∃ o', apply_canonicalization o c = Ok o' ∧ levels o' = keep [c] rest ∧
    store (concat (levels o')) o' ∧ frame o o'.
Proof.
  intros Hs Hl Hlk Hc. unfold apply_canonicalization. rewrite Hl in *. cbn [concat] in Hs.
  destruct (position (λ ov, bool_decide (bo_hash ov = c)) l) as [index|] eqn:Hpos; cycle 1.
  { apply elem_of_overlay_hashes in Hc as (ov&->&Hov). rewrite position_None in Hpos.
    specialize (Hpos ov Hov). by rewrite bool_decide_eq_false in Hpos. }
  apply position_Some in Hpos as [(ov&Hi&Hov) _]. apply bool_decide_eq_true in Hov.
  assert (NoDup (hashes l)) as Hn.
  { pose proof (s_nodup _ _ Hs) as Hn. rewrite map_app in Hn. by apply NoDup_app in Hn as [? _]. }
  cbn [expect mbind result_bind].
  destruct (leave_levels_ok index (imap pair l) (set_levels o rest)) as (o'&->&Hl'&Hs'&Hf).
  { cbn [levels set_levels]. apply (store_same _ o); [done..|]. rewrite map_snd_imap.
    eapply store_perm; [|done]. apply Permutation_app_comm. }
  exists o'. split_and!; [done| |done|].
  - rewrite Hl'. cbn [levels set_levels]. destruct Hlk as [_ Hlk]. apply (sweep_keep _ _ _ _ Hlk).
    + intros h Hh. rewrite list_elem_of_singleton, (elem_of_siblings _ _ _ _ Hn Hi), Hov.
      destruct (decide (h = c)); tauto.
    + intros h. rewrite list_elem_of_singleton, (elem_of_siblings _ _ _ _ Hn Hi), Hov. tauto.
  - etrans; [|done]. by constructor.
Qed.

Lemma apply_chain_ok P cs o :
  store (concat (levels o)) o → linked P (levels o) → chained P cs (levels o) →
  ∃ o', for_each apply_canonicalization o cs = Ok o' ∧
    levels o' = match last cs with Some c => keep [c] (drop (length cs) (levels o)) | None => levels o end ∧
    store (concat (levels o')) o' ∧ frame o o'.
Proof.
  revert P o. induction cs as [|c cs IH]; intros P o Hs Hlk Hch; [by exists o|].
  cbn [chained] in Hch. destruct (levels o) as [|l rest] eqn:Hl; [done|].
  destruct Hch as (Hc&_&Hch). rewrite <- Hl in Hs. cbn [for_each].
  destruct (apply_canonicalization_ok P c o l rest) as (o1&->&Hl1&Hs1&Hf1); [done|done|by rewrite Hl|done|].
  cbn [mbind result_bind]. destruct (IH (λ h, h = c) o1) as (o2&->&Hl2&Hs2&Hf2); [done| | |].
  { rewrite Hl1. eapply linked_mono; [|apply linked_keep]. intros h. cbn beta.
    by rewrite list_elem_of_singleton. }
  { rewrite Hl1. apply chained_keep; [|done]. intros h ->. by left. }
  exists o2. split_and!; [done| |done|by etrans]. rewrite Hl2, Hl1. cbn [length drop].
  destruct cs as [|c' cs]; [done|]. rewrite last_cons_cons.
  destruct (last (c' :: cs)) as [c''|] eqn:Hlast; [|by apply last_None in Hlast].
  eapply keep_drop; [|done|done]. cbn beta. intros h ->. by left.
Qed.

(** ** Invariant *)

(** The parents of the blocks of the first level. *)
Definition before (o : overlay_state) (p : BlockHash) : Prop :=
  match last_canonicalized o with
  | Some (h, _) => p = h
  | None => True
  end.

(** The pending insertions can be undone from the last: each block is last in
    its level and has no children, up to the blocks inserted after it. *)
Definition undoable (ls : list (list overlay)) (pend : list BlockHash) : Prop :=
  NoDup pend ∧ ∀ p1 h p2, pend = p1 ++ h :: p2 →
    (∃ i l ov l', ls !! i = Some (l ++ ov :: l') ∧ bo_hash ov = h ∧ ∀ x, x ∈ hashes l' → x ∈ p2) ∧
    (∀ x, x ∈ hashes (concat ls) → par x = h → x ∈ p2).

Record wf (o : overlay_state) : Prop := {
  w_store : store (concat (levels o)) o;
  w_linked : linked (before o) (levels o);
  w_numbered : numbered (front_block_number o) (levels o);
  w_canon : chained (before o) (pending_canonicalizations o) (levels o);
  w_undo : undoable (levels o) (pending_insertions o);
}.

(** ** Insertion *)

Fixpoint place (i : nat) (ov : overlay) (ls : list (list overlay)) : list (list overlay) :=
  match i, ls with
  | O, [] => [[ov]]
  | O, l :: ls' => (l ++ [ov]) :: ls'
  | S i', l :: ls' => l :: place i' ov ls'
  | S _, [] => []
  end.

Definition rests_on (prev : BlockHash → Prop) (ls : list (list overlay)) (i : nat) (p : BlockHash) : Prop :=
  match i with
  | O => prev p
  | S j => ∃ l, ls !! j = Some l ∧ p ∈ hashes l
  end.

Lemma place_concat i ov ls : (i ≤ length ls)%nat → concat (place i ov ls) ≡ₚ ov :: concat ls.
Proof.
  revert i. induction ls as [|l ls IH]; intros [|i] Hi; cbn [place concat length] in *; [done|lia| |].
  - rewrite <- app_assoc. cbn [app]. by rewrite <- Permutation_middle.
  - rewrite IH by lia. by rewrite <- Permutation_middle.
Qed.

Lemma place_lookup i ov ls l :
  ls !! i = Some l → place i ov ls = <[i := l ++ [ov]]> ls.
Proof.
  revert i. induction ls as [|l' ls IH]; intros [|i] Hi; try done; cbn in Hi |- *; [by injection Hi as ->|].
  f_equal. by apply IH.
Qed.

Lemma place_end ov ls : place (length ls) ov ls = <[length ls := [ov]]> (ls ++ [[]]).
Proof. induction ls as [|l ls IH]; [done|]. cbn. by rewrite IH. Qed.

Lemma linked_place prev i ov ls :
  linked prev ls → rests_on prev ls i (par (bo_hash ov)) → linked prev (place i ov ls).
Proof.
  revert prev i. induction ls as [|l ls IH]; intros prev [|i] Hl Hp; cbn [place].
  - split; [by constructor|done].
  - done.
  - destruct Hl as [Hl Hls]. split; [by apply Forall_app; split; [|constructor]|].
    eapply linked_mono; [|done]. intros h Hh. rewrite map_app. apply elem_of_app. by left.
  - destruct Hl as [Hl Hls]. split; [done|]. apply IH; [done|]. destruct Hp as (l'&Hl'&Hp).
    destruct i; cbn in *; [by injection Hl' as ->|by exists l'].
Qed.

Lemma numbered_place n i ov ls :
  numbered n ls → num (bo_hash ov) = n + Z.of_nat i → numbered n (place i ov ls).
Proof.
  revert n i. induction ls as [|l ls IH]; intros n [|i] Hl Hn; cbn [place].
  - split; [constructor; [lia|done]|done].
  - done.
  - destruct Hl as [Hl Hls]. split; [|done]. apply Forall_app; split; [done|]. constructor; [lia|done].
  - destruct Hl as [Hl Hls]. split; [done|]. apply IH; [done|lia].
Qed.

Lemma chained_place prev cs i ov ls : chained prev cs ls → chained prev cs (place i ov ls).
Proof.
  revert prev cs i. induction ls as [|l ls IH]; intros prev [|c cs] [|i]; cbn [place chained]; try done.
  - intros (?&?&?). rewrite map_app, elem_of_app. auto.
  - intros (?&?&?). auto.
Qed.

Lemma numbered_lookup n ls j l h :
  numbered n ls → ls !! j = Some l → h ∈ hashes l → num h = n + Z.of_nat j.
Proof.
  revert n j. induction ls as [|l' ls IH]; intros n [|j] Hnum Hj Hh; try done; cbn in Hj;
    destruct Hnum as [Hn Hls].
  - injection Hj as ->. rewrite Forall_forall in Hn. apply elem_of_overlay_hashes in Hh as (ov&->&?).
    rewrite (Hn ov) by done. lia.
  - rewrite (IH (n + 1) j) by done. lia.
Qed.

Lemma elem_of_levels (ls : list (list overlay)) h :
  h ∈ hashes (concat ls) ↔ ∃ i l, ls !! i = Some l ∧ h ∈ hashes l.
Proof.
  rewrite elem_of_overlay_hashes. setoid_rewrite list_elem_of_In. setoid_rewrite in_concat.
  setoid_rewrite <- list_elem_of_In. split.
  - intros (ov&->&l&[i Hi]%list_elem_of_lookup&Hov). exists i, l. split; [done|].
    apply elem_of_overlay_hashes. by exists ov.
  - intros (i&l&Hi&(ov&->&Hov)%elem_of_overlay_hashes). exists ov. split; [done|]. exists l. split; [|done].
    by eapply list_elem_of_lookup_2.
Qed.

Lemma place_lookup_full i ov ls :
  (i ≤ length ls)%nat → ∃ l, place i ov ls !! i = Some (l ++ [ov]) ∧
    (∀ j, j ≠ i → place i ov ls !! j = ls !! j) ∧ (ls !! i = Some l ∨ ls !! i = None ∧ l = []).
Proof.
  revert i. induction ls as [|l ls IH]; intros [|i] Hi; cbn [length place] in *; [|lia| |].
  - exists []. split_and!; [done| |by right]. intros [|j] ?; done.
  - exists l. split_and!; [done| |by left]. intros [|j] ?; done.
  - destruct (IH i) as (l'&?&Hj&?); [lia|]. exists l'. split_and!; [done| |done].
    intros [|j] Hne; [done|]. apply Hj. congruence.
Qed.

Lemma undoable_place i ov ls pend :
  undoable ls pend → (i ≤ length ls)%nat → bo_hash ov ∉ hashes (concat ls) →
  (∀ x, x ∈ hashes (concat ls) → par x ≠ bo_hash ov) → par (bo_hash ov) ≠ bo_hash ov →
  undoable (place i ov ls) (pend ++ [bo_hash ov]).
Proof.
  intros [Hn Hu] Hi Hfresh Hchild Hself.
  destruct (place_lookup_full i ov ls Hi) as (l0&Hi0&Hj0&Hl0).
  assert (bo_hash ov ∉ pend) as Hnp.
  { intros Hin. apply list_elem_of_split in Hin as (p1&p2&Hp).
    destruct (Hu p1 (bo_hash ov) p2 Hp) as [(j&l&ov'&l'&Hj&Hov'&_) _]. apply Hfresh. apply elem_of_levels.
    exists j, (l ++ ov' :: l'). split; [done|]. rewrite map_app, elem_of_app. rewrite <- Hov'. right. left. }
  assert (∀ x, x ∈ hashes (concat (place i ov ls)) ↔ x = bo_hash ov ∨ x ∈ hashes (concat ls)) as Hin.
  { intros x. rewrite (place_concat i ov ls) by done. cbn [map]. by rewrite elem_of_cons. }
  split.
  { apply NoDup_app. split_and!; [done| |apply NoDup_singleton].
    intros x Hx ->%list_elem_of_singleton. done. }
  intros p1 h p2 Hp. destruct p2 as [|x p2 _] using rev_ind.
  - apply app_inj_tail in Hp as [-> <-]. split.
    + exists i, l0, ov, []. split_and!; [done|done|]. intros x Hx. by apply not_elem_of_nil in Hx.
    + intros x [->|Hx]%Hin Hpar; [done|]. by destruct (Hchild x Hx).
  - rewrite app_comm_cons, app_assoc in Hp. apply app_inj_tail in Hp as [-> <-].
    destruct (Hu p1 h p2 eq_refl) as [(j&l&ov'&l'&Hj&Hov'&Hl') Hc]. split.
    + destruct (decide (j = i)) as [->|Hne].
      * destruct Hl0 as [Hl0|[Hl0 _]]; [|congruence]. rewrite Hj in Hl0. injection Hl0 as <-.
        exists i, l, ov', (l' ++ [ov]). rewrite Hi0, <- app_assoc. split_and!; [done|done|].
        intros x. rewrite map_app, !elem_of_app. intros [Hx|Hx]; [left; auto|by right].
      * exists j, l, ov', l'. rewrite Hj0 by done. split_and!; [done|done|].
        intros x Hx. apply elem_of_app. auto.
    + intros x [->|Hx]%Hin Hpar; apply elem_of_app; [right; by left|left; auto].
Qed.

(** What the caller of [insert] knows of the block: its header, that it is not
    in the overlay, that its values are those of its keys and that its parent
    was not discarded.  Before anything is canonicalized, [insert] checks
    nothing: the parent is then in the overlay. *)
Record insertable (o : overlay_state) (hash : BlockHash) (number : Z) (parent_hash : BlockHash)
    (changeset : ChangeSet Key) : Prop := {
  i_par : par hash = parent_hash;
  i_num : num hash = number;
  i_num_parent : num parent_hash = number - 1;
  i_nonneg : 0 ≤ number;
  i_fresh : parents o !! hash = None;
  i_content : content_addressed (inserted changeset);
  i_keys : map fst (inserted changeset) = keys hash;
  i_kept : pinned_insertions o !! parent_hash = None;
  i_start : last_canonicalized o = None → levels o ≠ [] →
    number = 0 ∨ number ≤ Z.of_nat (length (levels o)) ∧ is_Some (parents o !! parent_hash);
}.

Lemma store_level o live h :
  store live o → is_Some (parents o !! h) → pinned_insertions o !! h = None → h ∈ hashes live.
Proof.
  intros Hs [p Hp] Hn. rewrite (s_parents _ _ Hs) in Hp. case_decide as Hd; [|done].
  rewrite Hn in Hd. destruct Hd as [|[? ?]]; done.
Qed.

(** A parent in the overlay is one level below. *)
Lemma parent_level o n p j :
  store (concat (levels o)) o → numbered n (levels o) → is_Some (parents o !! p) →
  pinned_insertions o !! p = None → num p = n + Z.of_nat j →
  ∃ l, levels o !! j = Some l ∧ p ∈ hashes l.
Proof.
  intros Hs Hn Hp Hk Hj. pose proof (store_level _ _ _ Hs Hp Hk) as Hin.
  apply elem_of_levels in Hin as (j'&l&Hl&Hin).
  assert (j' = j) as -> by (pose proof (numbered_lookup _ _ _ _ _ Hn Hl Hin); lia). by exists l.
Qed.

(** Where a block that passes the checks goes. *)
Definition position_of (o : overlay_state) (number : Z) : nat := Z.to_nat (number - front_block_number o).

Lemma check_insert_ok {E} o hash number parent cs o1 meta :
  wf o → insertable o hash number parent cs →
  check_insert (E := E) o number parent = Ok (o1, meta) →
  levels o1 = levels o ∧ set_last o (last_canonicalized o1) = o1 ∧
  wf o1 ∧ insertable o1 hash number parent cs ∧
  0 ≤ number - front_block_number o1 ≤ Z.of_nat (length (levels o1)) ∧
  rests_on (before o1) (levels o1) (position_of o1 number) parent ∧
  (levels o = [] ∨ front_block_number o1 = front_block_number o).
Proof.
  intros Hw Hi. pose proof Hw as [Hs Hlk Hnum Hc Hu]. pose proof Hi as [Hpar Hn Hnp H0' Hf Hct Hky Hk Hst].
  unfold check_insert. destruct (last_canonicalized o) as [[h n]|] eqn:Hlast.
  - assert (front_block_number o = n + 1) as Hfront by (unfold front_block_number; by rewrite Hlast).
    intros Hok. assert (o1 = o ∧ ((number = n + 1 ∧ parent = h) ∨ (n + 1 < number ∧ is_Some (parents o !! parent)))
      ∧ number ≤ n + 1 + Z.of_nat (length (levels o))) as (->&Hcase&Hle).
    { destruct (levels o) eqn:Hlv; rewrite Hfront in Hok; cbn [length] in *.
      all: destruct (number <? n + 1) eqn:H1; [done|]; apply Z.ltb_ge in H1; cbn [orb] in Hok;
        destruct (_ <=? number) eqn:H2; [done|]; apply Z.leb_gt in H2;
        destruct (number =? n + 1) eqn:H3; [apply Z.eqb_eq in H3|apply Z.eqb_neq in H3].
      all: first [case_bool_decide as Hh; destruct (n =? number - 1); try done; injection Hok as <- <-|
                  destruct (decide (is_Some _)) as [Hp|]; [|done]; injection Hok as <- <-].
      all: split_and!; try done; try lia; first [by left|right; split; [lia|done]]. }
    split_and!; try done; [by destruct o|lia|lia| |by right]. unfold position_of. rewrite Hfront.
    destruct Hcase as [[-> ->]|[Hlt Hp]].
    + rewrite Z.sub_diag. cbn. unfold before. by rewrite Hlast.
    + replace (Z.to_nat (number - (n + 1))) with (S (Z.to_nat (number - n - 2))) by lia. cbn [rests_on].
      apply (parent_level _ (n + 1)); [done|by rewrite <- Hfront|done|done|lia].
  - assert (front_block_number o = 0) as Hfront by (unfold front_block_number; by rewrite Hlast).
    assert (∀ p, before o p) as Hany by (unfold before; by rewrite Hlast).
    destruct (levels o) as [|l ls] eqn:Hlv.
    + assert (pending_canonicalizations o = []) as Hpc by (by destruct (pending_canonicalizations o)).
      destruct (Z.ltb_spec 0 number); intros [= <- <-].
      * cbn [levels set_last last_canonicalized]. split_and!; try done.
        { constructor; cbn [levels set_last pending_canonicalizations pending_insertions];
            rewrite ?Hlv, ?Hpc; try done. by apply (store_same _ o). }
        all: unfold position_of, front_block_number; cbn [last_canonicalized set_last levels].
        all: replace (number - (number - 1 + 1)) with 0 by lia; rewrite ?Hlv; try done; by left.
      * rewrite Hlv. split_and!; try done; rewrite ?Hfront; cbn [length]; [by destruct o|lia|lia| |by left].
        unfold position_of. rewrite Hfront. replace number with 0 by lia. cbn. apply Hany.
    + intros [= <- <-]. rewrite Hlv. split_and!; try done; rewrite ?Hfront; [by destruct o|lia| | |by right].
      * destruct Hst as [->|[? _]]; [done|done| |]; lia.
      * unfold position_of. rewrite Hfront. destruct Hst as [->|[_ Hp]]; [done|done|cbn; apply Hany|].
        destruct (Z.to_nat (number - 0)) as [|j] eqn:Hj; [apply Hany|]. rewrite <- Hlv.
        apply (parent_level _ 0); [by rewrite Hlv|by rewrite Hlv, <- Hfront|done|done|lia].
Qed.

Lemma store_insert live o ov parent kvs ls pend :
  store live o → parents o !! bo_hash ov = None → par (bo_hash ov) = parent →
  num (bo_hash ov) = num parent + 1 → content_addressed kvs → bo_inserted ov = map fst kvs →
  map fst kvs = keys (bo_hash ov) →
  store (ov :: live) (MkNonCanonicalOverlay (last_canonicalized o) ls (<[bo_hash ov := parent]> (parents o))
    (pending_canonicalizations o) pend (insert_values (values o) kvs) (pinned o) (pinned_insertions o)).
Proof.
  intros Hs Hf Hp Hn Hc Hi Hkey. pose proof Hs as [Hnd Hpar Hnum Hd Hpin Hv Hr Hk Hpk].
  rewrite Hpar in Hf. case_decide as Hfr; [done|]. clear Hf.
  constructor; cbn [parents pinned_insertions values pinned map].
  - constructor; [|done]. tauto.
  - intros h. rewrite lookup_insert, Hpar. destruct (decide (bo_hash ov = h)) as [<-|Hne].
    + rewrite decide_True by (left; by left). by rewrite Hp.
    + apply decide_ext. rewrite elem_of_cons. naive_solver.
  - intros h [q Hq]. apply lookup_insert_Some in Hq as [[<- _]|[_ ?]]; [by rewrite Hp|].
    apply Hnum. by eexists.
  - intros h [->|Hh]%elem_of_cons; [|by apply Hd]. apply eq_None_not_Some. tauto.
  - done.
  - unfold held in *. cbn [flat_map]. rewrite Hi, <- app_assoc. by apply insert_values_counted.
  - done.
  - constructor; [by rewrite Hi|done].
  - done.
Qed.

(** The caller's block has no children in the overlay yet. *)
Lemma no_children o hash number parent cs x :
  wf o → insertable o hash number parent cs → front_block_number o ≤ number →
  x ∈ hashes (concat (levels o)) → par x ≠ hash.
Proof.
  intros Hw Hi Hle Hx Hpx. pose proof Hw as [Hs Hlk Hnum _ _].
  assert (num x = num hash + 1) as Hnx.
  { rewrite <- Hpx. apply (s_num _ _ Hs). rewrite (s_parents _ _ Hs), decide_True by (by left). by eexists. }
  rewrite (i_num _ _ _ _ _ Hi) in Hnx. apply elem_of_levels in Hx as (i&l&Hl&Hx).
  pose proof (numbered_lookup _ _ _ _ _ Hnum Hl Hx) as Hn. destruct i as [|i]; [lia|].
  assert (∃ l', levels o !! i = Some l' ∧ par x ∈ hashes l') as (l'&Hl'&Hin).
  { clear -Hlk Hl Hx. revert i l Hl Hlk Hx. generalize (before o) as prev.
    induction (levels o) as [|l0 ls IH]; intros prev i l Hl Hlk Hx; [done|]. destruct Hlk as [_ Hlk].
    destruct i as [|i]; [|by apply (IH _ i l Hl Hlk Hx)]. exists l0. split; [done|].
    cbn in Hl. destruct ls as [|l1 ls]; [done|]. injection Hl as ->. destruct Hlk as [Hf _].
    rewrite Forall_forall in Hf. apply elem_of_overlay_hashes in Hx as (ov&->&?). by apply Hf. }
  rewrite Hpx in Hin. pose proof (i_fresh _ _ _ _ _ Hi) as Hf. rewrite (s_parents _ _ Hs) in Hf.
  rewrite decide_True in Hf; [done|]. left. apply elem_of_levels. by exists i, l'.
Qed.

Definition new_overlay (o : overlay_state) hash number (cs : ChangeSet Key) (i : nat) : overlay :=
  MkBlockOverlay hash
    (to_journal_key number (Z.of_nat (length (default [] (levels o !! i)))))
    (map fst (inserted cs)) (deleted cs).

(** The level [insert] appends to. *)
Lemma insert_slot o o1 number ov :
  levels o1 = levels o → 0 ≤ number - front_block_number o1 ≤ Z.of_nat (length (levels o1)) →
  (levels o = [] ∨ front_block_number o1 = front_block_number o) →
  let i := position_of o1 number in
  ∃ level ls,
    (if bool_decide (levels o = []) || (number =? front_block_number o + Z.of_nat (length (levels o)))
     then (levels o ++ [[]], length (levels o))
     else (levels o, Z.to_nat (number - front_block_number o))) = (ls, i) ∧
    ls !! i = Some level ∧ <[i := level ++ [ov]]> ls = place i ov (levels o) ∧
    level = default [] (levels o !! i) ∧ (i ≤ length (levels o))%nat.
Proof.
  intros Hlv [Hlo Hhi] Hfront i. rewrite Hlv in Hhi.
  case_bool_decide as Hnil; [|destruct Hfront as [|Hfront]; [done|]]; cbn [orb].
  - assert (i = 0%nat) as -> by (unfold i, position_of; rewrite Hnil in Hhi; cbn in Hhi; lia).
    rewrite Hnil. by exists [], [[]].
  - destruct (Z.eqb_spec number (front_block_number o + Z.of_nat (length (levels o)))) as [He|He].
    + assert (i = length (levels o)) as -> by (unfold i, position_of; lia).
      exists [], (levels o ++ [[]]). split_and!; [done| |by rewrite place_end| |done].
      { by rewrite lookup_app_r, Nat.sub_diag by lia. }
      by rewrite lookup_ge_None_2 by lia.
    + assert (i < length (levels o))%nat as Hlt by (unfold i, position_of; lia).
      destruct (lookup_lt_is_Some_2 _ _ Hlt) as [level Hlevel]. exists level, (levels o).
      split_and!; [|done|by rewrite (place_lookup _ _ _ _ Hlevel)|by rewrite Hlevel|lia].
      f_equal. unfold i, position_of. by rewrite Hfront.
Qed.

(** The overlay after a block was placed on a level. *)
Lemma placed_wf o ov cs i :
  wf o → insertable o (bo_hash ov) (num (bo_hash ov)) (par (bo_hash ov)) cs →
  bo_inserted ov = map fst (inserted cs) → (i ≤ length (levels o))%nat →
  num (bo_hash ov) = front_block_number o + Z.of_nat i →
  rests_on (before o) (levels o) i (par (bo_hash ov)) →
  wf (MkNonCanonicalOverlay (last_canonicalized o) (place i ov (levels o))
        (<[bo_hash ov := par (bo_hash ov)]> (parents o)) (pending_canonicalizations o)
        (pending_insertions o ++ [bo_hash ov]) (insert_values (values o) (inserted cs))
        (pinned o) (pinned_insertions o)).
Proof.
  intros Hw Hi Hins Hlen Hn Hrest. pose proof Hw as [Hs Hlk Hnum Hc Hu].
  pose proof (i_num_parent _ _ _ _ _ Hi) as Hnp.
  constructor; cbn [levels last_canonicalized pending_canonicalizations pending_insertions].
  - eapply store_perm; [symmetry; by apply place_concat|].
    apply store_insert; try done; [apply Hi|lia|apply Hi|apply Hi].
  - by apply linked_place.
  - by apply numbered_place.
  - by apply chained_place.
  - apply undoable_place; [done|done| | |].
    + intros Hin. pose proof (i_fresh _ _ _ _ _ Hi) as Hf. rewrite (s_parents _ _ Hs) in Hf.
      rewrite decide_True in Hf; [done|by left].
    + intros x Hx. apply (no_children o (bo_hash ov) (num (bo_hash ov)) (par (bo_hash ov)) cs); try done. lia.
    + intros Heq. rewrite Heq in Hnp. lia.
Qed.

(** The journal record of an overlay. *)
Definition record_of (ov : overlay) : JournalRecord :=
  MkJournalRecord (bo_hash ov) (par (bo_hash ov)) (map (λ k, (k, val k)) (bo_inserted ov)) (bo_deleted ov).

Lemma content_keys ins : content_addressed ins → map (λ k, (k, val k)) (map fst ins) = ins.
Proof. induction 1 as [|[k v] ins Hkv _ IH]; [done|]. cbn in *. by rewrite IH, Hkv. Qed.

Lemma insert_ok {E} o hash number parent cs :
  wf o → insertable o hash number parent cs →
  match insert (E := E) o hash number parent cs with
  | (o', Ok c) => wf o' ∧
      parents o' = <[hash := parent]> (parents o) ∧
      (∃ o1 meta, check_insert (E := E) o number parent = Ok (o1, meta) ∧
        last_canonicalized o' = last_canonicalized o1 ∧
        let ov := new_overlay o hash number cs (position_of o1 number) in
        levels o' = place (position_of o1 number) ov (levels o) ∧
        c = MkCommitSet (MkChangeSet [] [])
              (MkChangeSet (meta ++ [(bo_journal_key ov, encode (record_of ov))]) [])) ∧
      pending_insertions o' = pending_insertions o ++ [hash] ∧
      pending_canonicalizations o' = pending_canonicalizations o ∧
      pinned o' = pinned o ∧ pinned_insertions o' = pinned_insertions o
  | (o', Err e) => o' = o ∧ check_insert o number parent = Err e
  | (_, Panic) => False
  end.
Proof.
  intros Hw Hi. unfold insert. destruct (check_insert o number parent) as [[o1 meta]|e|] eqn:Hchk; [|done|].
  2: { unfold check_insert in Hchk. destruct (levels o), (last_canonicalized o) as [[??]|];
         repeat (case_decide || case_match); done. }
  destruct (check_insert_ok _ _ _ _ _ _ _ Hw Hi Hchk) as (Hlv&Ho1&Hw1&Hi1&Hrange&Hrest&Hfront).
  set (i := position_of o1 number) in *. set (ov := new_overlay o hash number cs i).
  destruct (insert_slot o o1 number ov Hlv Hrange Hfront) as (level&ls&Hif&Hlev&Hplace&Hdef&Hlen).
  fold i in Hif, Hlev, Hplace, Hdef, Hlen. rewrite Hlv, Hif, Hlev, Hdef in *. fold ov.
  replace (MkBlockOverlay hash _ _ _) with ov by done. rewrite Hplace.
  pose proof (i_par _ _ _ _ _ Hi) as <-. pose proof (i_num _ _ _ _ _ Hi) as <-.
  split_and!; [| | |..]; cbn; try by rewrite <- Ho1.
  2: { exists o1, meta. split_and!; [done..|]. fold i ov. unfold record_of. cbn [ov new_overlay bo_hash bo_inserted bo_deleted].
       by rewrite content_keys by apply Hi. }
  rewrite <- Hlv. apply (placed_wf o1 ov cs i); try done; rewrite ?Hlv; [done| |done].
  unfold i, position_of. cbn [ov new_overlay bo_hash]. lia.
Qed.

(** ** Canonicalization *)

Lemma keep_ext S S' ls : (∀ h, h ∈ S ↔ h ∈ S') → keep S ls = keep S' ls.
Proof.
  revert S S'. induction ls as [|l ls IH]; intros S S' HS; [done|]. cbn [keep].
  assert (filter (parent_in S) l = filter (parent_in S') l) as ->; [|done].
  apply list_filter_iff. intros ov. apply HS.
Qed.

Lemma keep_linked S ls : linked (λ h, h ∈ S) ls → keep S ls = ls.
Proof.
  revert S. induction ls as [|l ls IH]; intros S; [done|]. intros [Hl Hls]. cbn [keep].
  rewrite Forall_forall in Hl. rewrite (filter_all (parent_in S)) by exact Hl. by rewrite IH.
Qed.

Lemma keep_app_perm S S' ls :
  (∀ h, h ∈ S → h ∉ S') → concat (keep (S ++ S') ls) ≡ₚ concat (keep S ls) ++ concat (keep S' ls).
Proof.
  revert S S'. induction ls as [|l ls IH]; intros S S' Hd; [done|]. cbn [keep concat].
  rewrite (keep_ext (hashes (filter (parent_in (S ++ S')) l))
             (hashes (filter (parent_in S) l) ++ hashes (filter (parent_in S') l))).
  2: { intros h. rewrite elem_of_app, !elem_of_kept, elem_of_app. tauto. }
  rewrite IH by (intros h; rewrite !elem_of_kept; naive_solver).
  assert (filter (parent_in (S ++ S')) l ≡ₚ filter (parent_in S) l ++ filter (parent_in S') l) as ->.
  { clear IH. induction l as [|ov l IHl]; [done|]. rewrite !filter_cons.
    assert (parent_in (S ++ S') ov ↔ parent_in S ov ∨ parent_in S' ov) as Hiff by apply elem_of_app.
    specialize (Hd (par (bo_hash ov))). fold (parent_in S ov) (parent_in S' ov) in Hd.
    repeat case_decide; try tauto; rewrite IHl; try done. by rewrite <- Permutation_middle. }
  rewrite <- !app_assoc. f_equiv. rewrite !app_assoc. f_equiv. apply Permutation_app_comm.
Qed.

Lemma keep_nil ls : concat (keep [] ls) = [].
Proof.
  induction ls as [|l ls IH]; [done|]. cbn [keep concat].
  rewrite (filter_none (parent_in [])); [done|]. intros ov _ Hov. by apply not_elem_of_nil in Hov.
Qed.

Lemma discard_journals_ok fuel o i h :
  (length (levels o) ≤ i + fuel)%nat → store (concat (levels o)) o →
  ∃ ovs, discard_journals fuel o i h = Ok (map bo_journal_key ovs, hashes ovs) ∧
    ovs ≡ₚ concat (keep [h] (drop i (levels o))).
Proof.
  intros Hlen Hs. revert i h Hlen. induction fuel as [|fuel IH]; intros i h Hlen; cbn [discard_journals].
  { exists []. by rewrite drop_ge by lia. }
  destruct (levels o !! i) as [level|] eqn:Hi; cycle 1.
  { apply lookup_ge_None in Hi. exists []. by rewrite drop_ge by lia. }
  rewrite (drop_S _ _ _ Hi). cbn [keep concat].
  assert (NoDup (hashes level) ∧ ∀ ov, ov ∈ level → ov ∈ concat (levels o)) as [Hn Hin].
  { split.
    - pose proof (s_nodup _ _ Hs) as Hn. rewrite <- (take_drop_middle _ _ _ Hi), concat_app in Hn.
      cbn [concat] in Hn. rewrite !map_app in Hn. apply NoDup_app in Hn as (_&_&Hn).
      by apply NoDup_app in Hn as [? _].
    - intros ov Hov. apply list_elem_of_In, in_concat. exists level. rewrite <- !list_elem_of_In.
      split; [by eapply list_elem_of_lookup_2|done]. }
  clear Hi. induction level as [|ov level IHl]; [exists []; split; [done|]; cbn; by rewrite keep_nil|].
  apply NoDup_cons in Hn as [Hov Hn].
  destruct IHl as (ovs2&Hgo&Hp2); [done|intros; apply Hin; by right|].
  cbn [discard_children].
  rewrite (store_parent _ _ _ Hs) by (apply Hin; by left). cbn [expect mbind result_bind].
  assert (parent_in [h] ov ↔ par (bo_hash ov) = h) as Hiff by apply list_elem_of_singleton.
  rewrite filter_cons. destruct (decide (par (bo_hash ov) = h)) as [He|He].
  - destruct (IH (S i) (bo_hash ov)) as (ovs1&->&Hp1); [lia|]. cbn [mbind result_bind].
    rewrite Hgo. cbn [mbind result_bind]. exists ((ov :: ovs1) ++ ovs2).
    split; [cbn; by rewrite !map_app|]. rewrite decide_True by tauto. cbn [map app]. rewrite Hp1, Hp2.
    pose proof (keep_app_perm [bo_hash ov] (hashes (filter (parent_in [h]) level))
                  (drop (S i) (levels o))) as Hk. cbn [app] in Hk. rewrite Hk; clear Hk.
    + rewrite !app_assoc. f_equiv. f_equiv. by rewrite Permutation_app_comm.
    + intros x ->%list_elem_of_singleton. rewrite elem_of_kept. tauto.
  - rewrite Hgo. exists ovs2. by rewrite decide_False by tauto.
Qed.

Lemma discard_level_ok o n index i l :
  store (concat (levels o)) o → NoDup (hashes l) →
  ∃ ovs, discard_level o n index i l = Ok (map bo_journal_key ovs, hashes ovs) ∧
    ovs ≡ₚ l ++ concat (keep (siblings index (imap (λ j ov, ((i + j)%nat, ov)) l)) (drop n (levels o))).
Proof.
  intros Hs. revert i. induction l as [|ov l IH]; intros i Hn; cbn [discard_level].
  { exists []. split; [done|]. cbn. by rewrite keep_nil. }
  apply NoDup_cons in Hn as [Hov Hn].
  assert (∃ ovs, (if decide (i = index) then Ok ([], [])
      else discard_journals (length (levels o) - n) o n (bo_hash ov)) = Ok (map bo_journal_key ovs, hashes ovs) ∧
    ovs ≡ₚ concat (keep (if decide (i = index) then [] else [bo_hash ov]) (drop n (levels o))))
    as (ovs1&->&Hp1).
  { case_decide; [by exists []; rewrite keep_nil|]. apply discard_journals_ok; [lia|done]. }
  cbn [mbind result_bind]. destruct (IH (S i) Hn) as (ovs2&->&Hp2). cbn [mbind result_bind].
  exists (ovs1 ++ ov :: ovs2). split; [by rewrite !map_app|].
  rewrite imap_cons. unfold siblings at 1. cbn [flat_map fst snd]. rewrite Nat.add_0_r.
  rewrite keep_app_perm.
  - rewrite Hp1, Hp2. rewrite <- Permutation_middle. cbn [app]. f_equiv.
    rewrite !app_assoc. f_equiv; [by rewrite Permutation_app_comm|].
    f_equiv. f_equiv. unfold siblings. f_equiv. apply imap_ext. intros j ov' _. cbn. f_equal. lia.
  - intros h Hh. case_decide; [by apply not_elem_of_nil in Hh|]. apply list_elem_of_singleton in Hh as ->.
    intros Hin. apply Hov. apply list_elem_of_In, in_flat_map in Hin as ([j ov']&Hin&Hh).
    rewrite <- list_elem_of_In in Hin. rewrite <- list_elem_of_In in Hh. apply elem_of_lookup_imap in Hin as (j'&ov''&[= -> ->]&Hl).
    cbn [fst snd] in Hh. case_decide; [by apply not_elem_of_nil in Hh|].
    apply list_elem_of_singleton in Hh as ->. apply elem_of_overlay_hashes. exists ov''. split; [done|].
    by eapply list_elem_of_lookup_2.
Qed.

Lemma with_values_ok vs l ks :
  counted vs l → (∀ k, k ∈ ks → k ∈ l) → with_values vs ks = Ok (map (λ k, (k, val k)) ks).
Proof.
  intros Hv. induction ks as [|k ks IH]; intros Hk; [done|]. cbn [with_values map].
  destruct (counted_get vs l k Hv) as [c ->]; [apply Hk; by left|]. cbn [expect mbind result_bind].
  by rewrite IH by (intros; apply Hk; by right).
Qed.

Lemma chained_snoc prev cs ls c l :
  chained prev cs ls → ls !! length cs = Some l → c ∈ hashes l →
  match last cs with Some p => par c = p | None => prev (par c) end → chained prev (cs ++ [c]) ls.
Proof.
  revert prev ls. induction cs as [|c' cs IH]; intros prev ls Hch Hl Hc Hp.
  - destruct ls as [|l' ls]; [done|]. injection Hl as ->. done.
  - destruct ls as [|l' ls]; [done|]. destruct Hch as (?&?&Hch). cbn [app chained]. split_and!; [done|done|].
    apply IH; [done|done|done|]. destruct cs as [|c'' cs]; [done|]. rewrite last_cons_cons in Hp.
    destruct (last (c'' :: cs)) eqn:Hlast; [done|]. by apply last_None in Hlast.
Qed.

(** The next block to canonicalize continues the pending ones. *)
Definition continues (o : overlay_state) (hash : BlockHash) : Prop :=
  match last (pending_canonicalizations o) with
  | Some p => par hash = p
  | None => before o (par hash)
  end.

Lemma linked_drop prev ls n l :
  linked prev ls → ls !! n = Some l → linked (λ h, h ∈ hashes l) (drop (S n) ls).
Proof.
  revert prev ls. induction n as [|n IH]; intros prev [|l' ls] Hlk Hl; try done; destruct Hlk as [_ Hlk].
  - by injection Hl as ->.
  - by apply (IH _ ls Hlk).
Qed.

Lemma level_nodup ls i (l : list overlay) : NoDup (hashes (concat ls)) → ls !! i = Some l → NoDup (hashes l).
Proof.
  intros Hn Hi. rewrite <- (take_drop_middle _ _ _ Hi), concat_app in Hn. cbn [concat] in Hn.
  rewrite !map_app in Hn. apply NoDup_app in Hn as (_&_&Hn). by apply NoDup_app in Hn as [? _].
Qed.

Lemma level_incl ls i (l : list overlay) ov : ls !! i = Some l → ov ∈ l → ov ∈ concat ls.
Proof.
  intros Hi Hov. apply list_elem_of_In, in_concat. exists l. rewrite <- !list_elem_of_In.
  split; [by eapply list_elem_of_lookup_2|done].
Qed.

Lemma held_incl live pins ov k : ov ∈ live → k ∈ bo_inserted ov → k ∈ held live pins.
Proof.
  intros Hov Hk. unfold held. apply elem_of_app. left. apply list_elem_of_In, in_flat_map.
  exists ov. by rewrite <- !list_elem_of_In.
Qed.

Lemma canonicalize_ok {E} o hash c :
  wf o → let n := length (pending_canonicalizations o) in
  match canonicalize (E := E) o hash c with
  | (o', c', Ok _) =>
      o' = set_pending_canonicalizations o (pending_canonicalizations o ++ [hash]) ∧
      (continues o hash → wf o') ∧
      ∃ level ov ovs, levels o !! n = Some level ∧ ov ∈ level ∧ bo_hash ov = hash ∧
        ovs ++ concat (keep [hash] (drop (S n) (levels o))) ≡ₚ concat (drop n (levels o)) ∧
        cs_data c' = MkChangeSet (inserted (cs_data c) ++ map (λ k, (k, val k)) (bo_inserted ov))
          (deleted (cs_data c) ++ bo_deleted ov) ∧
        cs_meta c' = MkChangeSet
          (inserted (cs_meta c) ++ [(to_meta_key LAST_CANONICAL tt,
             encode (hash, front_block_number o + Z.of_nat n))])
          (deleted (cs_meta c) ++ map bo_journal_key ovs)
  | (o', c', Err e) => o' = o ∧ c' = c ∧ e = InvalidBlock ∧ hash ∉ hashes (default [] (levels o !! n))
  | (_, _, Panic) => False
  end.
Proof.
  intros Hw n. pose proof Hw as [Hs Hlk Hnum Hc Hu]. unfold canonicalize. fold n.
  destruct (levels o !! n) as [level|] eqn:Hl; [|split_and!; try done; apply not_elem_of_nil].
  destruct (position _ level) as [index|] eqn:Hpos; cycle 1.
  { split_and!; try done. cbn. intros (ov&->&Hov)%elem_of_overlay_hashes. rewrite position_None in Hpos.
    specialize (Hpos ov Hov). by rewrite bool_decide_eq_false in Hpos. }
  apply position_Some in Hpos as [(ov&Hi&Hov) _]. apply bool_decide_eq_true in Hov.
  pose proof (level_nodup _ _ _ (s_nodup _ _ Hs) Hl) as Hn.
  pose proof (list_elem_of_lookup_2 _ _ _ Hi) as Hin.
  destruct (discard_level_ok o (S n) index 0 level Hs Hn) as (ovs&->&Hovs). cbn [mbind result_bind].
  rewrite Hi. cbn [expect mbind result_bind].
  rewrite (with_values_ok _ _ _ (s_values _ _ Hs)) by
    (intros k Hk; eapply held_incl; [by eapply level_incl|done]).
  cbn [mbind result_bind]. split_and!; [done| |].
  - intros Hcont. constructor; cbn; try done; [by apply (store_same _ o)|].
    eapply chained_snoc; try done. rewrite <- Hov. by apply list_elem_of_fmap_2.
  - exists level, ov, ovs. split_and!; try done. rewrite Hovs, <- app_assoc, (drop_S _ _ _ Hl). cbn [concat].
    f_equiv. rewrite <- keep_app_perm.
    + rewrite keep_linked; [done|]. eapply linked_mono; [|by eapply linked_drop]. intros h Hh. cbn beta.
      rewrite elem_of_app, list_elem_of_singleton, (elem_of_siblings _ _ _ _ Hn Hi), Hov.
      destruct (decide (h = hash)); tauto.
    + intros h. rewrite list_elem_of_singleton, (elem_of_siblings _ _ _ _ Hn Hi), Hov. tauto.
Qed.

(** ** Applying and reverting *)

Lemma undoable_nil ls : undoable ls [].
Proof. split; [constructor|]. intros [|? ?] ? ?; done. Qed.

Lemma apply_pending_ok o :
  wf o →
  ∃ o', apply_pending o = Ok o' ∧ wf o' ∧
    pending_canonicalizations o' = [] ∧ pending_insertions o' = [] ∧
    pinned o' = pinned o ∧ parents o' ⊆ parents o ∧
    (∀ h, is_Some (pinned o !! h) → parents o' !! h = parents o !! h) ∧
    front_block_number o' = front_block_number o + Z.of_nat (length (pending_canonicalizations o)) ∧
    match last (pending_canonicalizations o) with
    | Some c => (last_canonicalized_hash o' = Some c ∧
        levels o' = keep [c] (drop (length (pending_canonicalizations o)) (levels o)))
    | None => (last_canonicalized o' = last_canonicalized o ∧ levels o' = levels o)
    end.
Proof.
  intros [Hs Hlk Hnum Hc Hu]. set (cs := pending_canonicalizations o) in *.
  destruct (apply_chain_ok (before o) cs (set_pending_canonicalizations o [])) as (o1&Hrun&Hl1&Hs1&Hf1);
    [by apply (store_same _ o)|done|done|].
  unfold apply_pending, apply_canonicalizations. fold cs. rewrite Hrun. cbn [mbind result_bind].
  pose proof Hf1 as [Hlast Hpc _ Hpin Hsub Hkept]. cbn in Hlast, Hpc, Hpin, Hsub, Hkept, Hl1.
  destruct (last cs) as [c|] eqn:Hcs; cbn [mbind result_bind].
  - eexists. split; [done|].
    assert (front_block_number (set_last o1 (Some (c, match last_canonicalized o1 with
        | Some (_, n) => n + Z.of_nat (length cs) | None => Z.of_nat (length cs) - 1 end))) =
      front_block_number o + Z.of_nat (length cs)) as Hfront.
    { unfold front_block_number. cbn [last_canonicalized set_last]. rewrite Hlast.
      destruct (last_canonicalized o) as [[??]|]; lia. }
    split_and!; try done. constructor; cbn [levels set_last set_pending_insertions].
    + by apply (store_same _ o1).
    + rewrite Hl1. eapply linked_mono; [|apply linked_keep]. intros h. cbn. by rewrite list_elem_of_singleton.
    + change (numbered (front_block_number (set_last o1 (Some (c, match last_canonicalized o1 with
        | Some (_, n) => n + Z.of_nat (length cs) | None => Z.of_nat (length cs) - 1 end)))) (levels o1)).
      rewrite Hfront, Hl1. by apply numbered_keep, numbered_drop.
    + cbn. by rewrite Hpc.
    + apply undoable_nil.
  - apply last_None in Hcs. eexists. split; [done|].
    assert (front_block_number (set_pending_insertions o1 []) = front_block_number o) as Hfront.
    { unfold front_block_number. cbn. by rewrite Hlast. }
    split_and!; try done; [|rewrite Hfront, Hcs; cbn; lia]. constructor; cbn [levels set_pending_insertions].
    + by apply (store_same _ o1).
    + unfold before. cbn. rewrite Hlast, Hl1. done.
    + by rewrite Hfront, Hl1.
    + cbn. by rewrite Hpc.
    + apply undoable_nil.
Qed.

Lemma linked_take prev ls k : linked prev ls → linked prev (take k ls).
Proof.
  revert prev k. induction ls as [|l ls IH]; intros prev [|k]; cbn; try done. intros [? ?]. auto.
Qed.

Lemma numbered_take n ls k : numbered n ls → numbered n (take k ls).
Proof.
  revert n k. induction ls as [|l ls IH]; intros n [|k]; cbn; try done. intros [? ?]. auto.
Qed.

Lemma drop_level_store level live o :
  store (level ++ live) o →
  store live (foldl drop_overlay o level) ∧ levels (foldl drop_overlay o level) = levels o ∧
  last_canonicalized (foldl drop_overlay o level) = last_canonicalized o ∧
  pending_canonicalizations (foldl drop_overlay o level) = pending_canonicalizations o ∧
  pending_insertions (foldl drop_overlay o level) = pending_insertions o.
Proof.
  revert o. induction level as [|ov level IH]; intros o Hs; [done|]. cbn [foldl].
  apply drop_store in Hs. by destruct (IH _ Hs) as (?&?&?&?&?).
Qed.

Lemma revert_one_ok o :
  wf o → pending_canonicalizations o = [] → pending_insertions o = [] →
  let '(o', c) := revert_one o in
  wf o' ∧ levels o' = take (pred (length (levels o))) (levels o) ∧
  last_canonicalized o' = last_canonicalized o ∧
  pending_canonicalizations o' = [] ∧ pending_insertions o' = [].
Proof.
  intros Hw Hpc Hpi. pose proof Hw as [Hs Hlk Hnum Hc Hu]. unfold revert_one.
  destruct (last (levels o)) as [level|] eqn:Hlast; cycle 1.
  { apply last_None in Hlast. split_and!; try done. by rewrite Hlast. }
  apply last_Some in Hlast as [ls Hls].
  assert (take (pred (length (levels o))) (levels o) = ls) as Htake.
  { rewrite Hls, length_app. cbn [length]. rewrite Nat.add_1_r. cbn [pred]. by rewrite take_app_length. }
  rewrite Htake.
  destruct (drop_level_store level (concat ls) (set_levels o ls)) as (Hs'&Hl'&Hla&Hpc'&Hpi').
  { apply (store_same _ o); [done..|]. eapply store_perm; [|done]. rewrite Hls, concat_app. cbn [concat].
    rewrite app_nil_r. apply Permutation_app_comm. }
  cbn in Hl', Hla, Hpc', Hpi'. rewrite Hpc in Hpc'. rewrite Hpi in Hpi'.
  assert (before (foldl drop_overlay (set_levels o ls) level) = before o) as Hb
    by (unfold before; by rewrite Hla).
  assert (front_block_number (foldl drop_overlay (set_levels o ls) level) = front_block_number o) as Hfr
    by (unfold front_block_number; by rewrite Hla).
  split_and!; try done. constructor; rewrite ?Hl', ?Hpc', ?Hpi', ?Hb, ?Hfr; try done.
  - rewrite <- Htake. by apply linked_take.
  - rewrite <- Htake. by apply numbered_take.
  - apply undoable_nil.
Qed.

(** ** Reverting insertions *)

(** A block of a level has blocks of every level before it. *)
Lemma linked_nonempty prev ls i j l l' :
  linked prev ls → ls !! i = Some l → l ≠ [] → (j ≤ i)%nat → ls !! j = Some l' → l' ≠ [].
Proof.
  revert prev i j l'. induction ls as [|l0 ls IH]; intros prev i j l' Hlk Hi Hl Hj Hl'; [done|].
  destruct Hlk as [_ Hlk]. destruct j as [|j]; cycle 1.
  { destruct i as [|i]; [lia|]. by apply (IH _ i j l' Hlk Hi Hl ltac:(lia)). }
  injection Hl' as ->. destruct i as [|i]; [by injection Hi as ->|]. cbn in Hi.
  destruct ls as [|l1 ls]; [done|].
  assert (l1 ≠ []) as Hl1 by (by apply (IH _ i 0%nat l1 Hlk Hi Hl ltac:(lia))).
  destruct l1 as [|ov l1]; [done|]. destruct Hlk as [Hf _]. apply Forall_cons in Hf as [Hf _].
  intros ->. by apply not_elem_of_nil in Hf.
Qed.

Lemma find_last_ok h i k ls (l : list overlay) ov :
  ls !! i = Some (l ++ [ov]) → bo_hash ov = h →
  (∀ j l', (j < i)%nat → ls !! j = Some l' → l' ≠ [] ∧ h ∉ hashes l') →
  find_last h k ls = Ok (Some (k + i)%nat).
Proof.
  revert i k. induction ls as [|l0 ls IH]; intros i k Hi Hov Hb; [done|]. cbn [find_last].
  destruct i as [|i]; cbn in Hi.
  { injection Hi as ->. rewrite last_snoc. cbn [expect mbind result_bind].
    by rewrite decide_True, Nat.add_0_r by done. }
  destruct (Hb 0%nat l0 ltac:(lia) eq_refl) as [Hne Hh].
  destruct (last l0) as [ov0|] eqn:Hl0; [|by apply last_None in Hl0]. cbn [expect mbind result_bind].
  rewrite decide_False; cycle 1.
  { intros <-. apply Hh. apply list_elem_of_fmap_2. apply last_Some in Hl0 as [? ->].
    apply elem_of_app. right. by left. }
  rewrite (IH i (S k)); [do 2 f_equal; lia|done|done|].
  intros j l' Hj Hl'. apply (Hb (S j) l'); [lia|done].
Qed.

Lemma levels_disjoint ls p q (a b : list overlay) y :
  NoDup (hashes (concat ls)) → ls !! p = Some a → ls !! q = Some b → p ≠ q →
  y ∈ hashes a → y ∈ hashes b → False.
Proof.
  revert p q. induction ls as [|l ls IH]; intros p q Hn Ha Hb Hpq Hya Hyb; [done|]. cbn [concat] in Hn.
  rewrite map_app in Hn. apply NoDup_app in Hn as (_&Hd&Hn). destruct p as [|p], q as [|q]; try done.
  - injection Ha as ->. apply (Hd y Hya). apply elem_of_levels. by exists q, b.
  - injection Hb as ->. apply (Hd y Hyb). apply elem_of_levels. by exists p, a.
  - apply (IH p q); try done. congruence.
Qed.

(** The levels without some blocks. *)
Definition without (pend : list BlockHash) (ls : list (list overlay)) : list (list overlay) :=
  map (filter (λ ov, bo_hash ov ∉ pend)) ls.

Lemma without_lookup ls i l ov :
  NoDup (hashes (concat ls)) → ls !! i = Some (l ++ [ov]) → without [bo_hash ov] ls = <[i := l]> ls.
Proof.
  intros Hn Hi. unfold without. apply list_eq. intros j.
  change (map _ ls) with (filter (λ x : overlay, bo_hash x ∉ [bo_hash ov]) <$> ls).
  rewrite list_lookup_fmap. destruct (decide (i = j)) as [<-|Hne].
  - rewrite list_lookup_insert_eq by (by eapply lookup_lt_Some). rewrite Hi. cbn. f_equal.
    rewrite filter_app, filter_cons, decide_False by (intros Hx; apply Hx; by left). cbn. rewrite app_nil_r.
    apply filter_all. intros x Hx Hin%list_elem_of_singleton.
    pose proof (level_nodup _ _ _ Hn Hi) as Hl. rewrite map_app in Hl. apply NoDup_app in Hl as (_&Hl&_).
    apply (Hl (bo_hash x)); [by apply list_elem_of_fmap_2|]. rewrite Hin. by left.
  - rewrite list_lookup_insert_ne by done. destruct (ls !! j) as [l'|] eqn:Hj; [|done]. cbn. f_equal.
    apply filter_all. intros x Hx Hin%list_elem_of_singleton.
    assert (bo_hash ov ∈ hashes (l ++ [ov])) as Hin1.
    { apply list_elem_of_fmap_2. apply elem_of_app. right. by left. }
    assert (bo_hash ov ∈ hashes l') as Hin2 by (rewrite <- Hin; by apply list_elem_of_fmap_2).
    by eapply (levels_disjoint ls i j).
Qed.

Lemma linked_remove prev ls i l ov :
  linked prev ls → ls !! i = Some (l ++ [ov]) → (∀ x, x ∈ hashes (concat ls) → par x ≠ bo_hash ov) →
  linked prev (<[i := l]> ls).
Proof.
  revert prev i. induction ls as [|l0 ls IH]; intros prev i Hlk Hi Hch; [done|]. destruct Hlk as [Hl Hlk].
  assert (∀ x, x ∈ hashes (concat ls) → par x ≠ bo_hash ov) as Hch'.
  { intros x Hx. apply Hch. cbn [concat]. rewrite map_app. apply elem_of_app. by right. }
  destruct i as [|i]; cycle 1; cbn in Hi |- *.
  { split; [done|]. by apply IH. }
  injection Hi as ->. apply Forall_app in Hl as [Hl _]. split; [done|].
  destruct ls as [|l1 ls]; [done|]. destruct Hlk as [Hf Hlk]. split; [|done].
  rewrite Forall_forall in *. intros x Hx. specialize (Hf x Hx). rewrite map_app in Hf.
  apply elem_of_app in Hf as [?|Heq%list_elem_of_singleton]; [done|].
  destruct (Hch' (bo_hash x)); [|done]. cbn [concat]. rewrite map_app. apply elem_of_app. left.
  by apply list_elem_of_fmap_2.
Qed.

Lemma numbered_remove n ls i l ov :
  numbered n ls → ls !! i = Some (l ++ [ov]) → numbered n (<[i := l]> ls).
Proof.
  revert n i. induction ls as [|l0 ls IH]; intros n i Hn Hi; [done|]. destruct Hn as [Hl Hn].
  destruct i as [|i]; cbn in Hi |- *; [|split; [done|by apply IH]].
  injection Hi as ->. apply Forall_app in Hl as [Hl _]. by split.
Qed.

Lemma undoable_remove ls i l ov pend :
  NoDup (hashes (concat ls)) → undoable ls (pend ++ [bo_hash ov]) → ls !! i = Some (l ++ [ov]) →
  undoable (<[i := l]> ls) pend.
Proof.
  intros Hnd [Hn Hu] Hi. apply NoDup_app in Hn as (Hn&Hnp&_). split; [done|]. intros p1 h p2 Hp.
  destruct (Hu p1 h (p2 ++ [bo_hash ov])) as [(j&l1&ov1&l2&Hj&Hh&Hl2) Hc]; [by rewrite Hp, <- app_assoc|].
  assert (h ≠ bo_hash ov) as Hne.
  { intros ->. apply (Hnp (bo_hash ov)); [|by left]. rewrite Hp. apply elem_of_app. right. by left. }
  assert (∀ x, x ∈ p2 ++ [bo_hash ov] → x ≠ bo_hash ov → x ∈ p2) as Hlast.
  { intros x [?|?%list_elem_of_singleton]%elem_of_app; done. }
  pose proof (without_lookup _ _ _ _ Hnd Hi) as Hwo. split.
  - destruct (decide (j = i)) as [->|Hji].
    + rewrite Hi in Hj. injection Hj as Hj. destruct l2 as [|ov2 l2 _] using rev_ind.
      { apply app_inj_tail in Hj as [_ <-]. done. }
      rewrite app_comm_cons, app_assoc in Hj. apply app_inj_tail in Hj as [-> <-].
      exists i, l1, ov1, l2. split_and!; [by rewrite list_lookup_insert_eq by (by eapply lookup_lt_Some)|done|].
      intros x Hx. apply Hlast; [apply Hl2; rewrite map_app; apply elem_of_app; by left|]. intros ->.
      pose proof (level_nodup _ _ _ Hnd Hi) as Hl. rewrite map_app in Hl. apply NoDup_app in Hl as (_&Hl&_).
      apply (Hl (bo_hash ov)); [|by left]. rewrite map_app. apply elem_of_app. right. by right.
    + exists j, l1, ov1, l2. split_and!; [by rewrite list_lookup_insert_ne by done|done|].
      intros x Hx. apply Hlast; [by apply Hl2|]. intros ->.
      apply (levels_disjoint ls j i _ _ (bo_hash ov) Hnd Hj Hi Hji).
      * rewrite map_app. apply elem_of_app. right. by right.
      * rewrite map_app. apply elem_of_app. right. by left.
  - intros x Hx Hpx. rewrite <- Hwo in Hx. apply elem_of_levels in Hx as (j'&l'&Hj'&Hx).
    unfold without in Hj'. change (map ?f ls) with (f <$> ls) in Hj'. rewrite list_lookup_fmap in Hj'.
    destruct (ls !! j') as [l0|] eqn:Hl0; [|done]. injection Hj' as <-.
    apply elem_of_overlay_hashes in Hx as (y&->&[Hy Hin]%list_elem_of_filter). apply Hlast.
    + apply Hc; [|done]. apply list_elem_of_fmap_2. by eapply level_incl.
    + intros Heq. apply Hy. rewrite Heq. by left.
Qed.

Lemma concat_app_nil (ls : list (list overlay)) k : concat (ls ++ replicate k []) = concat ls.
Proof. rewrite concat_app. induction k; [apply app_nil_r|done]. Qed.

Lemma undoable_app_nil ls k pend : undoable (ls ++ replicate k []) pend → undoable ls pend.
Proof.
  intros [Hn Hu]. split; [done|]. intros p1 h p2 Hp. rewrite concat_app_nil in Hu.
  destruct (Hu p1 h p2 Hp) as [(i&l&ov&l'&Hi&?&?) ?]. split; [|done]. exists i, l, ov, l'. split; [|done].
  apply lookup_app_Some in Hi as [?|[_ Hi]]; [done|]. apply lookup_replicate in Hi as [Hi _].
  by destruct l.
Qed.

(** What the loop of [revert_insertions] needs. *)
Definition undo_ready (prev : BlockHash → Prop) (n : Z) (pend : list BlockHash) (o : overlay_state) : Prop :=
  store (concat (levels o)) o ∧ linked prev (levels o) ∧ numbered n (levels o) ∧ undoable (levels o) pend.

(** What it leaves alone. *)
Definition same_rest (o o' : overlay_state) : Prop :=
  last_canonicalized o' = last_canonicalized o ∧
  pending_canonicalizations o' = pending_canonicalizations o ∧
  pending_insertions o' = pending_insertions o ∧
  pinned o' = pinned o ∧ pinned_insertions o' = pinned_insertions o.

(** [levels.pop_back()] when the level became empty. *)
Lemma pop_empty prev ls i (l : list overlay) :
  linked prev ls → ls !! i = Some l →
  ∃ ls' k, (if bool_decide (l = []) then take (pred (length ls)) ls else ls) = ls' ∧
    ls' ++ replicate k [] = ls.
Proof.
  intros Hlk Hi. case_bool_decide as Hl; [|exists ls, 0%nat; split; [done|apply app_nil_r]].
  destruct (last ls) as [lst|] eqn:Hlast; cycle 1.
  { apply last_None in Hlast. exists [], 0%nat. by rewrite Hlast. }
  apply last_Some in Hlast as [ls0 Hls0]. exists ls0, 1%nat.
  assert (lst = []) as ->.
  { destruct lst as [|x lst]; [done|].
    assert (ls !! length ls0 = Some (x :: lst)) as Hend
      by (rewrite Hls0, lookup_app_r, Nat.sub_diag by lia; done).
    destruct (linked_nonempty prev ls (length ls0) i (x :: lst) l Hlk Hend ltac:(done)); [|done|done].
    apply lookup_lt_Some in Hi. rewrite Hls0, length_app in Hi. cbn in Hi. lia. }
  split; [|by rewrite Hls0]. rewrite Hls0, length_app, Nat.add_1_r. cbn [pred]. apply take_app_length.
Qed.

Lemma revert_insertion_ok prev n pend h o :
  undo_ready prev n (pend ++ [h]) o →
  ∃ o' k, revert_insertion o h = Ok o' ∧ undo_ready prev n pend o' ∧ same_rest o o' ∧
    levels o' ++ replicate k [] = without [h] (levels o).
Proof.
  intros (Hs&Hlk&Hnum&Hu). pose proof (s_nodup _ _ Hs) as Hnd.
  destruct (proj2 Hu pend h [] eq_refl) as [(i&l&ov&l'&Hi&<-&Hl') Hc].
  assert (l' = []) as ->.
  { destruct l' as [|x l']; [done|]. by destruct (not_elem_of_nil (bo_hash x) (Hl' (bo_hash x) ltac:(by left))). }
  assert (∀ x, x ∈ hashes (concat (levels o)) → par x ≠ bo_hash ov) as Hch.
  { intros x Hx Hpx. by apply (not_elem_of_nil x), Hc. }
  unfold revert_insertion. cbn [levels set_parents].
  rewrite (find_last_ok (bo_hash ov) i 0 (levels o) l ov); [|done|done|]; cycle 1.
  { intros j l' Hj Hl0. split.
    - eapply (linked_nonempty prev (levels o) i j); [done|done|by destruct l|lia|done].
    - intros Hin. eapply (levels_disjoint (levels o) j i _ _ (bo_hash ov) Hnd Hl0 Hi); [lia|done|].
      rewrite map_app. apply elem_of_app. right. by left. }
  cbn [mbind result_bind expect]. rewrite Nat.add_0_l, Hi. cbn [mbind result_bind expect].
  rewrite last_snoc. cbn [mbind result_bind expect]. rewrite length_app, Nat.add_1_r. cbn [pred].
  rewrite take_app_length. pose proof (without_lookup _ _ _ _ Hnd Hi) as Hwo.
  pose proof (linked_remove _ _ _ _ _ Hlk Hi Hch) as Hlk'.
  pose proof (numbered_remove _ _ _ _ _ Hnum Hi) as Hnum'.
  pose proof (undoable_remove _ _ _ _ _ Hnd Hu Hi) as Hu'.
  assert (store (concat (<[i := l]> (levels o))) (drop_overlay o ov)) as Hs'.
  { apply drop_store. eapply store_perm; [|exact Hs].
    rewrite <- (take_drop_middle _ _ _ Hi) at 1. rewrite insert_take_drop by (by eapply lookup_lt_Some).
    rewrite !concat_app. cbn [concat]. rewrite <- app_assoc. cbn [app]. rewrite <- !Permutation_middle. done. }
  set (ls := <[i := l]> (levels o)) in *.
  assert (ls !! i = Some l) as Hls by (apply list_lookup_insert_eq; by eapply lookup_lt_Some).
  destruct (pop_empty prev ls i l Hlk' Hls) as (ls'&k&->&Hk).
  unfold undo_ready. eexists _, k. split; [done|]. rewrite <- Hk in *. split_and!; try done; cbn [levels set_levels].
  - rewrite concat_app_nil in Hs'. by apply (store_same _ (drop_overlay o ov)).
  - rewrite <- (take_app_length ls' (replicate k [])). by apply linked_take.
  - rewrite <- (take_app_length ls' (replicate k [])). by apply numbered_take.
  - by eapply undoable_app_nil.
Qed.

Lemma without_app ls pend pend' : without pend (without pend' ls) = without (pend ++ pend') ls.
Proof.
  unfold without. rewrite map_map. apply map_ext. intros l. rewrite list_filter_filter.
  apply list_filter_iff. intros ov. rewrite elem_of_app. tauto.
Qed.

Lemma without_app_nil ls k pend : without pend (ls ++ replicate k []) = without pend ls ++ replicate k [].
Proof. unfold without. rewrite map_app. f_equal. induction k; cbn; by f_equal. Qed.

Lemma revert_insertions_ok prev n pend o :
  undo_ready prev n pend o →
  ∃ o' k, for_each revert_insertion o (reverse pend) = Ok o' ∧ undo_ready prev n [] o' ∧ same_rest o o' ∧
    levels o' ++ replicate k [] = without pend (levels o).
Proof.
  revert o. induction pend as [|h pend IH] using rev_ind; intros o Ho.
  - exists o, 0%nat. split_and!; try done. rewrite app_nil_r. unfold without. symmetry.
    rewrite <- (map_id (levels o)) at 2. apply map_ext. intros l. apply filter_all.
    intros ov _ Hov. by apply not_elem_of_nil in Hov.
  - rewrite reverse_snoc. cbn [for_each].
    destruct (revert_insertion_ok prev n pend h o Ho) as (o1&k1&->&Ho1&Hr1&Hl1). cbn [mbind result_bind].
    destruct (IH o1 Ho1) as (o2&k2&->&Ho2&Hr2&Hl2). exists o2, (k2 + k1)%nat. split_and!; try done.
    + destruct Hr1 as (?&?&?&?&?), Hr2 as (?&?&?&?&?). unfold same_rest. split_and!; congruence.
    + rewrite replicate_add, app_assoc, Hl2, <- without_app_nil, Hl1. apply without_app.
Qed.

Lemma revert_pending_ok o :
  wf o →
  ∃ o' k, revert_pending o = Ok o' ∧ wf o' ∧
    pending_canonicalizations o' = [] ∧ pending_insertions o' = [] ∧
    last_canonicalized o' = last_canonicalized o ∧
    pinned o' = pinned o ∧ pinned_insertions o' = pinned_insertions o ∧
    levels o' ++ replicate k [] = without (pending_insertions o) (levels o).
Proof.
  intros [Hs Hlk Hnum Hc Hu]. unfold revert_pending, revert_insertions.
  set (o0 := set_pending_insertions (set_pending_canonicalizations o []) []).
  destruct (revert_insertions_ok (before o) (front_block_number o) (pending_insertions o) o0)
    as (o'&k&Hrun&(Hs'&Hlk'&Hnum'&Hu')&(Hla&Hpc&Hpi&Hpin&Hpins)&Hl').
  { unfold undo_ready. split_and!; try done. by apply (store_same _ o). }
  exists o', k. split_and!; try done. cbn in Hla, Hpc, Hpi. constructor.
  - done.
  - unfold before in *. by rewrite Hla.
  - unfold front_block_number in *. by rewrite Hla.
  - by rewrite Hpc.
  - by rewrite Hpi.
Qed.

(** ** Pinning *)

(** The blocks of the overlay at or below a number: how far [pin] and [unpin]
    can still climb. *)
Definition below (o : overlay_state) (n : Z) : gset BlockHash := filter (λ h, num h ≤ n) (dom (parents o)).

Lemma below_parent live o o' h p :
  store live o → parents o !! h = Some p → parents o' ⊆ parents o →
  (size (below o' (num p)) < size (below o (num h)))%nat.
Proof.
  intros Hs Hp Hsub. assert (num h = num p + 1) as Hnum.
  { assert (p = par h) as ->; [|by apply (s_num _ _ Hs)].
    rewrite (s_parents _ _ Hs) in Hp. case_decide; [by injection Hp as <-|done]. }
  apply subset_size. split.
  - intros x. unfold below. rewrite !elem_of_filter. intros [? Hx]. split; [lia|].
    apply subseteq_dom in Hsub. auto.
  - intros Hs'. assert (h ∈ below o' (num p)) as Hh.
    { apply Hs'. unfold below. apply elem_of_filter. split; [lia|]. apply elem_of_dom. by eexists. }
    unfold below in Hh. apply elem_of_filter in Hh as [? _]. lia.
Qed.

Lemma below_size o n : (size (below o n) ≤ size (parents o))%nat.
Proof. rewrite <- size_dom. apply subseteq_size. unfold below. set_solver. Qed.

Lemma pin_store live o h refs :
  store live o → 0 ≤ refs → store live (set_pinned o (<[h := refs + 1]> (pinned o))).
Proof.
  intros [? ? ? ? Hpin ? Hr ? ?] Hn. constructor; cbn [parents pinned pinned_insertions values set_pinned]; try done.
  - intros x Hx. rewrite lookup_insert. case_decide; [by eexists|auto].
  - intros x n Hx. apply lookup_insert_Some in Hx as [[_ <-]|[_ Hx]]; [lia|by eapply Hr].
Qed.

Lemma unpin_one_store live o h : store live o → store live (unpin_one o h) ∧ parents (unpin_one o h) ⊆ parents o.
Proof.
  intros Hs. pose proof Hs as [Hn Hpar Hnum Hd Hpin Hv Hr Hk Hpk]. unfold unpin_one.
  destruct (pinned o !! h) as [refs|] eqn:Hrefs; [|done].
  destruct (Z.eqb_spec (refs - 1) 0) as [Hz|Hz]; cycle 1.
  { split; [|done]. pose proof (Hr h refs Hrefs) as Hpos.
    replace (refs - 1) with (refs - 2 + 1) by lia. apply pin_store; [done|lia]. }
  cbn [pinned_insertions set_pinned parents values].
  destruct (pinned_insertions o !! h) as [ks|] eqn:Hks; cycle 1.
  { split; [|done]. constructor; cbn [parents pinned pinned_insertions values set_pinned]; try done.
    - intros x Hx. rewrite lookup_delete_ne; [auto|]. intros <-. rewrite Hks in Hx. by destruct Hx.
    - intros x n Hx. apply lookup_delete_Some in Hx as [_ Hx]. by eapply Hr. }
  split; cbn [parents set_parents]; [|apply delete_subseteq].
  constructor; cbn [parents pinned pinned_insertions values set_pinned set_parents set_values set_pinned_insertions];
    try done.
  - intros x. rewrite lookup_delete, Hpar. destruct (decide (h = x)) as [<-|Hne].
    + rewrite decide_False; [done|]. rewrite lookup_delete_eq. intros [Hx|[? ?]]; [|done].
      specialize (Hd h Hx). congruence.
    + apply decide_ext. by rewrite lookup_delete_ne.
  - intros x [p Hp]. apply lookup_delete_Some in Hp as [_ ?]. apply Hnum. by eexists.
  - intros x Hx. apply lookup_delete_None. right. by apply Hd.
  - intros x [ks' Hx]. apply lookup_delete_Some in Hx as [Hne Hx]. rewrite lookup_delete_ne by done.
    apply Hpin. by eexists.
  - apply discard_values_counted. unfold held in *.
    rewrite <- (insert_delete_id (pinned_insertions o) h ks Hks) in Hv at 1.
    rewrite map_to_list_insert in Hv by apply lookup_delete_eq. cbn [flat_map snd] in Hv.
    rewrite app_assoc, (Permutation_app_comm ks), <- app_assoc. exact Hv.
  - intros x n Hx. apply lookup_delete_Some in Hx as [_ Hx]. by eapply Hr.
  - intros x ks' Hx. apply lookup_delete_Some in Hx as [_ Hx]. by apply Hpk.
Qed.

(** The block and its ancestors in the overlay, as [pin] and [unpin] visit them. *)
Fixpoint path (fuel : nat) (o : overlay_state) (h : BlockHash) : option (list BlockHash) :=
  match fuel with
  | O => None
  | S fuel' =>
      match parents o !! h with
      | None => Some [h]
      | Some p => cons h <$> path fuel' o p
      end
  end.

Definition incr (m : gmap BlockHash Z) (h : BlockHash) : gmap BlockHash Z :=
  <[h := default 0 (m !! h) + 1]> m.
Definition decr (m : gmap BlockHash Z) (h : BlockHash) : gmap BlockHash Z :=
  match m !! h with
  | Some refs => if refs - 1 =? 0 then delete h m else <[h := refs - 1]> m
  | None => m
  end.

Lemma path_ok live fuel o h :
  store live o → (size (below o (num h)) < fuel)%nat →
  ∃ l, path fuel o h = Some l ∧ NoDup l ∧ ∀ x, x ∈ l → num x ≤ num h.
Proof.
  intros Hs. revert h. induction fuel as [|fuel IH]; intros h Hf; [lia|]. cbn [path].
  destruct (parents o !! h) as [p|] eqn:Hp; cycle 1.
  { exists [h]. split_and!; [done|apply NoDup_singleton|]. by intros x ->%list_elem_of_singleton. }
  pose proof (below_parent live o o h p Hs Hp ltac:(done)) as Hlt.
  destruct (IH p) as (l&->&Hn&Hl); [lia|]. exists (h :: l).
  assert (num h = num p + 1) as Hnum.
  { assert (p = par h) as ->; [|by apply (s_num _ _ Hs)].
    rewrite (s_parents _ _ Hs) in Hp. case_decide; [by injection Hp as <-|done]. }
  split_and!; [done| |].
  - constructor; [|done]. intros Hin. specialize (Hl h Hin). lia.
  - intros x [->|Hx]%elem_of_cons; [done|]. specialize (Hl x Hx). lia.
Qed.

Lemma pin_loop_path fuel o h l m :
  path fuel o h = Some l → pin_loop fuel (set_pinned o m) (Some h) = Some (set_pinned o (foldl incr m l)).
Proof.
  revert h l m. induction fuel as [|fuel IH]; intros h l m Hl; [done|]. cbn [path] in Hl.
  cbn [pin_loop pinned parents set_pinned]. destruct (parents o !! h) as [p|] eqn:Hp; cycle 1.
  { injection Hl as <-. by destruct fuel. }
  destruct (path fuel o p) as [l'|] eqn:Hl'; [|done]. injection Hl as <-. cbn [foldl].
  by rewrite <- (IH p l' (incr m h) Hl').
Qed.

Lemma unpin_loop_path fuel o h l m :
  path fuel o h = Some l → NoDup l → (∀ x, x ∈ l → m !! x = Some 1 → pinned_insertions o !! x = None) →
  unpin_loop fuel (set_pinned o m) (Some h) = Some (set_pinned o (foldl decr m l)).
Proof.
  revert h l m. induction fuel as [|fuel IH]; intros h l m Hl Hn Hm; [done|]. cbn [path] in Hl.
  cbn [unpin_loop parents set_pinned].
  assert (h ∈ l → unpin_one (set_pinned o m) h = set_pinned o (decr m h)) as Hone.
  { intros Hin. unfold unpin_one, decr. cbn [pinned set_pinned]. destruct (m !! h) as [refs|] eqn:Hr; [|done].
    destruct (Z.eqb_spec (refs - 1) 0) as [Hz|]; [|done]. cbn [pinned_insertions set_pinned].
    rewrite Hm; [done|done|]. rewrite Hr. f_equal. lia. }
  destruct (parents o !! h) as [p|] eqn:Hp; cycle 1.
  { injection Hl as <-. rewrite Hone by (by left). by destruct fuel. }
  destruct (path fuel o p) as [l'|] eqn:Hl'; [|done]. injection Hl as <-. apply NoDup_cons in Hn as [Hh Hn].
  rewrite Hone by (by left). cbn [foldl]. apply IH; [done|done|].
  intros x Hx. unfold decr. destruct (m !! h) as [refs|]; [|by apply Hm; right].
  assert (h ≠ x) by (by intros ->). destruct (refs - 1 =? 0); rewrite ?lookup_delete_ne, ?lookup_insert_ne by done; by apply Hm; right.
Qed.

Lemma lookup_incr m h x : incr m h !! x = if decide (h = x) then Some (default 0 (m !! h) + 1) else m !! x.
Proof. apply lookup_insert. Qed.

Lemma lookup_incrs m l x :
  NoDup l → foldl incr m l !! x = if decide (x ∈ l) then Some (default 0 (m !! x) + 1) else m !! x.
Proof.
  revert m. induction l as [|h l IH]; intros m Hn; cbn [foldl].
  { rewrite decide_False by apply not_elem_of_nil. done. }
  apply NoDup_cons in Hn as [Hh Hn]. rewrite IH, !lookup_incr by done.
  destruct (decide (h = x)) as [->|Hne].
  - rewrite decide_False by done. rewrite decide_True by (by left). done.
  - apply decide_ext. rewrite elem_of_cons. naive_solver.
Qed.

Lemma lookup_decrs m l x : NoDup l → foldl decr m l !! x = if decide (x ∈ l) then decr m x !! x else m !! x.
Proof.
  revert m. induction l as [|h l IH]; intros m Hn; cbn [foldl].
  { rewrite decide_False by apply not_elem_of_nil. done. }
  apply NoDup_cons in Hn as [Hh Hn]. rewrite IH by done.
  assert (∀ y, h ≠ y → decr m h !! y = m !! y) as Hother.
  { intros y Hy. unfold decr. destruct (m !! h) as [refs|]; [|done].
    destruct (refs - 1 =? 0); [by apply lookup_delete_ne|by apply lookup_insert_ne]. }
  destruct (decide (h = x)) as [->|Hne].
  - rewrite decide_False by done. by rewrite decide_True by (by left).
  - assert (decr (decr m h) x !! x = decr m x !! x) as ->.
    { unfold decr at 1 3. rewrite Hother by done. destruct (m !! x) as [refs|]; [|by apply Hother].
      destruct (refs - 1 =? 0); by rewrite ?lookup_delete_eq, ?lookup_insert_eq. }
    rewrite Hother by done. apply decide_ext. rewrite elem_of_cons. naive_solver.
Qed.

Lemma decr_incr m l : (∀ x n, m !! x = Some n → 1 ≤ n) → NoDup l → foldl decr (foldl incr m l) l = m.
Proof.
  intros Hm Hn. apply map_eq. intros x. rewrite lookup_decrs by done. case_decide as Hx.
  - unfold decr. rewrite lookup_incrs, decide_True by done. destruct (m !! x) as [n|] eqn:Hmx; cbn [default from_option id].
    + specialize (Hm x n Hmx). rewrite (proj2 (Z.eqb_neq _ 0)) by lia. rewrite lookup_insert_eq. f_equal. lia.
    + simpl. by rewrite lookup_delete_eq.
  - by rewrite lookup_incrs, decide_False by done.
Qed.

Lemma set_pinned_id (o : overlay_state) : set_pinned o (pinned o) = o.
Proof. by destruct o. Qed.

Lemma incrs_store live o m l :
  store live (set_pinned o m) → store live (set_pinned o (foldl incr m l)).
Proof.
  revert m. induction l as [|h l IH]; intros m Hs; [done|]. cbn [foldl]. apply IH.
  apply (pin_store live (set_pinned o m) h (default 0 (m !! h))); [done|].
  destruct (m !! h) as [n|] eqn:Hm; [|done]. pose proof (s_refs _ _ Hs h n Hm). cbn. lia.
Qed.

(** [wf] does not depend on the pins beyond [store]. *)
Lemma wf_same o o' :
  wf o → levels o' = levels o → last_canonicalized o' = last_canonicalized o →
  pending_canonicalizations o' = pending_canonicalizations o →
  pending_insertions o' = pending_insertions o → store (concat (levels o)) o' → wf o'.
Proof.
  intros [Hs Hlk Hnum Hc Hu] Hl Hla Hpc Hpi Hs'.
  assert (before o' = before o) as Hb by (unfold before; by rewrite Hla).
  assert (front_block_number o' = front_block_number o) as Hf by (unfold front_block_number; by rewrite Hla).
  by constructor; rewrite ?Hl, ?Hpc, ?Hpi, ?Hb, ?Hf.
Qed.

Lemma pin_ok o h :
  wf o →
  ∃ o', pin o h = Some o' ∧ wf o' ∧
    if decide (h ∈ pending_insertions o) then o' = o
    else ∃ l, path (S (size (parents o))) o h = Some l ∧ NoDup l ∧
      o' = set_pinned o (foldl incr (pinned o) l) ∧ unpin o' h = Some o.
Proof.
  intros Hw. pose proof (w_store _ Hw) as Hs. unfold pin.
  destruct (decide (h ∈ pending_insertions o)); [by exists o|].
  destruct (path_ok _ (S (size (parents o))) o h Hs) as (l&Hl&Hn&_).
  { pose proof (below_size o (num h)). lia. }
  pose proof (pin_loop_path _ o h l (pinned o) Hl) as Hrun. rewrite set_pinned_id in Hrun.
  exists (set_pinned o (foldl incr (pinned o) l)). split_and!; [done| |].
  - apply (wf_same o); try done. apply incrs_store. by rewrite set_pinned_id.
  - exists l. split_and!; [done..|]. unfold unpin. cbn [parents set_pinned].
    rewrite (unpin_loop_path _ o h l) by
      (done || (intros x Hx; rewrite lookup_incrs, decide_True by done; intros [= Hx1];
        apply eq_None_not_Some; intros Hx2; apply (s_pinned _ _ Hs) in Hx2 as [n0 Hx2];
        rewrite Hx2 in Hx1; cbn in Hx1; pose proof (s_refs _ _ Hs x n0 Hx2); lia)).
    rewrite decr_incr; [by rewrite set_pinned_id|apply Hs|done].
Qed.

Lemma unpin_loop_ok live fuel o h :
  store live o → (size (below o (num h)) < fuel)%nat →
  ∃ o', unpin_loop fuel o (Some h) = Some o' ∧ store live o' ∧ parents o' ⊆ parents o ∧
    levels o' = levels o ∧ last_canonicalized o' = last_canonicalized o ∧
    pending_canonicalizations o' = pending_canonicalizations o ∧
    pending_insertions o' = pending_insertions o.
Proof.
  revert o h. induction fuel as [|fuel IH]; intros o h Hs Hf; [lia|]. cbn [unpin_loop].
  destruct (unpin_one_store live o h Hs) as [Hs1 Hsub].
  assert (levels (unpin_one o h) = levels o ∧ last_canonicalized (unpin_one o h) = last_canonicalized o ∧
    pending_canonicalizations (unpin_one o h) = pending_canonicalizations o ∧
    pending_insertions (unpin_one o h) = pending_insertions o) as (Hl&Hla&Hpc&Hpi).
  { unfold unpin_one. destruct (pinned o !! h) as [refs|]; [|done].
    destruct (refs - 1 =? 0); [|done]. cbn. by destruct (pinned_insertions o !! h). }
  destruct (parents o !! h) as [p|] eqn:Hp; [|exists (unpin_one o h); by destruct fuel].
  destruct (IH (unpin_one o h) p Hs1) as (o'&->&?&?&?&?&?&?).
  { pose proof (below_parent live o (unpin_one o h) h p Hs Hp Hsub). lia. }
  exists o'. split_and!; try done; [by etrans|congruence..].
Qed.

Lemma unpin_ok o h :
  wf o →
  ∃ o', unpin o h = Some o' ∧ wf o' ∧ parents o' ⊆ parents o ∧
    levels o' = levels o ∧ last_canonicalized o' = last_canonicalized o ∧
    pending_canonicalizations o' = pending_canonicalizations o ∧
    pending_insertions o' = pending_insertions o.
Proof.
  intros Hw. pose proof (w_store _ Hw) as Hs. unfold unpin.
  destruct (unpin_loop_ok _ (S (size (parents o))) o h Hs) as (o'&->&?&?&?&?&?&?).
  { pose proof (below_size o (num h)). lia. }
  exists o'. split_and!; try done. by apply (wf_same o).
Qed.

(** The checks of [insert], once a block is canonicalized. *)
Lemma check_insert_spec {E} (o : overlay_state) (number : Z) (parent : BlockHash) :
  match last_canonicalized o, check_insert (E := E) o number parent with
  | Some (h, n), Ok (o1, _) => o1 = o ∧ n < number ≤ n + 1 + Z.of_nat (length (levels o)) ∧
      (number = n + 1 ∧ parent = h ∨ is_Some (parents o !! parent))
  | Some (h, n), Err InvalidBlockNumber => number ≤ n ∨ n + 1 + Z.of_nat (length (levels o)) < number
  | Some (h, n), Err InvalidParent =>
      (number = n + 1 → parent ≠ h) ∧ (number ≠ n + 1 → parents o !! parent = None)
  | None, Ok _ => True
  | _, _ => False
  end.
Proof.
  unfold check_insert. destruct (last_canonicalized o) as [[h n]|] eqn:Hlast; cycle 1.
  { destruct (levels o); [|done]. by destruct (0 <? number). }
  assert (front_block_number o = n + 1) as -> by (unfold front_block_number; by rewrite Hlast).
  assert (∀ len : Z,
    match (if (number <? n + 1) || (n + 1 + len + 1 <=? number) then Err InvalidBlockNumber
      else if number =? n + 1 then
        if bool_decide (h = parent) && (n =? number - 1) then Ok (o, []) else Err InvalidParent
      else if decide (is_Some (parents o !! parent)) then Ok (o, []) else Err InvalidParent)
      : result (Error E) (overlay_state * list (bytes * DBValue)) with
    | Ok (o1, _) => o1 = o ∧ n < number ≤ n + 1 + len ∧ (number = n + 1 ∧ parent = h ∨ is_Some (parents o !! parent))
    | Err InvalidBlockNumber => number ≤ n ∨ n + 1 + len < number
    | Err InvalidParent => (number = n + 1 → parent ≠ h) ∧ (number ≠ n + 1 → parents o !! parent = None)
    | _ => False
    end) as Hgen; [|destruct (levels o); apply Hgen].
  intros len. destruct (Z.ltb_spec number (n + 1)); cbn [orb]; [lia|].
  destruct (Z.leb_spec (n + 1 + len + 1) number); [lia|].
  destruct (Z.eqb_spec number (n + 1)) as [He|He].
  - case_bool_decide as Hp; cbn [andb]; [|split; [congruence|done]].
    rewrite (proj2 (Z.eqb_eq n (number - 1))) by lia. split_and!; [done|lia|lia|left; done].
  - case_decide as Hp; [split_and!; [done|lia|lia|by right]|].
    split; [done|]. intros _. by apply eq_None_not_Some.
Qed.

(** ** Histories *)

Inductive reach : overlay_state → Prop :=
| reach_new last : reach (MkNonCanonicalOverlay last [] ∅ [] [] ∅ ∅ ∅)
| reach_insert o hash number parent_hash changeset :
    reach o → insertable o hash number parent_hash changeset →
    reach (insert (E := Empty_set) o hash number parent_hash changeset).1
| reach_canonicalize o hash commit :
    reach o → continues o hash → reach (canonicalize (E := Empty_set) o hash commit).1.1
| reach_apply o o' : reach o → apply_pending o = Ok o' → reach o'
| reach_revert o o' : reach o → revert_pending o = Ok o' → reach o'
| reach_revert_one o :
    reach o → pending_canonicalizations o = [] → pending_insertions o = [] → reach (revert_one o).1
| reach_pin o h o' : reach o → pin o h = Some o' → reach o'
| reach_unpin o h o' : reach o → unpin o h = Some o' → reach o'.

Lemma reach_wf o : reach o → wf o.
Proof.
  induction 1 as [last|o hash number p cs _ IH Hi|o hash c _ IH Hc|o o' _ IH Ho|o o' _ IH Ho|o _ IH Hpc Hpi
                 |o h o' _ IH Ho|o h o' _ IH Ho].
  - constructor; try done; [|apply undoable_nil]. constructor;
      cbn [parents pinned_insertions values pinned levels concat map]; try done; [constructor|..].
    all: intros h [? Hh]; by rewrite lookup_empty in Hh.
  - pose proof (insert_ok (E := Empty_set) _ _ _ _ _ IH Hi) as Ho.
    destruct (insert _ _ _ _ _) as [o' [c|e|]]; [by destruct Ho|by destruct Ho as [-> _]|done].
  - pose proof (canonicalize_ok (E := Empty_set) o hash c IH) as Ho.
    destruct (canonicalize _ _ _) as [[o' c'] [u|e|]]; cbn in *; [by apply Ho|by destruct Ho as [-> _]|done].
  - destruct (apply_pending_ok o IH) as (o''&Ho'&?&_). congruence.
  - destruct (revert_pending_ok o IH) as (o''&k&Ho'&?&_). congruence.
  - pose proof (revert_one_ok o IH Hpc Hpi) as Ho. destruct (revert_one o). by destruct Ho.
  - destruct (pin_ok o h IH) as (o''&Ho'&?&_). congruence.
  - destruct (unpin_ok o h IH) as (o''&Ho'&?&_). congruence.
Qed.

Lemma held_keys live o k :
  store live o → k ∈ held live (pinned_insertions o) ↔ ∃ h, is_Some (parents o !! h) ∧ k ∈ keys h.
Proof.
  intros Hs. pose proof (s_live_keys _ _ Hs) as Hl. rewrite Forall_forall in Hl. unfold held.
  rewrite elem_of_app, !list_elem_of_In, !in_flat_map. split.
  - intros [(ov&Hov&Hk)|([h ks]&Hin&Hk)]; rewrite <- list_elem_of_In in Hk.
    + rewrite <- list_elem_of_In in Hov. exists (bo_hash ov). split; [|by rewrite <- Hl].
      rewrite (store_parent _ _ _ Hs Hov). by eexists.
    + rewrite <- list_elem_of_In in Hin. apply elem_of_map_to_list in Hin. cbn in Hk. exists h.
      split; [|by rewrite <- (s_pin_keys _ _ Hs h ks Hin)].
      rewrite (s_parents _ _ Hs), decide_True; [by eexists|]. right. by eexists.
  - intros (h&[p Hp]&Hk). rewrite (s_parents _ _ Hs) in Hp. case_decide as Hd; [|done].
    destruct Hd as [(ov&->&Hov)%elem_of_overlay_hashes|[ks Hks]].
    + left. exists ov. rewrite <- !list_elem_of_In. split; [done|by rewrite Hl].
    + right. exists (h, ks). rewrite <- !list_elem_of_In. split; [by apply elem_of_map_to_list|].
      cbn. by rewrite (s_pin_keys _ _ Hs h ks Hks).
Qed.

Lemma get_iff o k v :
  wf o → get o k = Some v ↔ v = val k ∧ ∃ h, is_Some (parents o !! h) ∧ k ∈ keys h.
Proof.
  intros [Hs _ _ _ _]. rewrite <- (held_keys _ _ _ Hs). unfold get.
  pose proof (s_values _ _ Hs k) as Hv. rewrite Hv.
  destruct (Z.eqb_spec (occ k (held (concat (levels o)) (pinned_insertions o))) 0) as [Hz|Hz].
  - split; [done|]. intros [_ Hin%occ_pos]. lia.
  - cbn. split; [|by intros [-> _]]. intros [= <-]. split; [done|].
    destruct (decide (k ∈ held (concat (levels o)) (pinned_insertions o))) as [|Hn]; [done|]. destruct Hz.
    unfold occ. rewrite (filter_none (λ k', k' = k)); [done|]. by intros x Hx ->.
Qed.

(** The block so many generations above. *)
Definition ancestor (n : nat) (h : BlockHash) : BlockHash := Nat.iter n par h.

Lemma ancestor_level prev ls j l (ov : overlay) :
  linked prev ls → ls !! j = Some l → ov ∈ l → prev (ancestor (S j) (bo_hash ov)).
Proof.
  revert prev j l. induction ls as [|l0 ls IH]; intros prev j l Hlk Hj Hov; [done|]. destruct Hlk as [Hf Hlk].
  rewrite Forall_forall in Hf. destruct j as [|j]; [injection Hj as ->; by apply Hf|].
  specialize (IH _ j l Hlk Hj Hov). cbn beta in IH. apply elem_of_overlay_hashes in IH as (ov'&Heq&Hov').
  unfold ancestor in *. rewrite Nat.iter_succ, Heq. by apply Hf.
Qed.

(** The descendants of a block, level by level. *)
Lemma keep_lookup prev K ls j :
  linked prev ls →
  keep K ls !! j = filter (λ ov, ancestor (S j) (bo_hash ov) ∈ K) <$> ls !! j.
Proof.
  revert prev K j. induction ls as [|l ls IH]; intros prev K j Hlk; [done|]. destruct Hlk as [_ Hlk].
  destruct j as [|j]; [done|]. cbn [keep lookup list_lookup]. change (keep ?A ls !! j) with (keep A ls !! j).
  rewrite (IH (λ h, h ∈ hashes l)) by done. destruct (ls !! j) as [l'|] eqn:Hj; [|done]. cbn. f_equal.
  assert (∀ ov, ov ∈ l' → ancestor (S j) (bo_hash ov) ∈ hashes l) as Hin.
  { intros ov Hov. by apply (ancestor_level _ ls j l' ov Hlk Hj). }
  clear IH Hj. induction l' as [|ov l' IHl]; [done|]. rewrite !filter_cons.
  rewrite IHl by (intros; apply Hin; by right). apply decide_ext. rewrite elem_of_kept.
  specialize (Hin ov ltac:(by left)). unfold ancestor in *. cbn [Nat.iter nat_rect] in *. tauto.
Qed.

(** ** Correctness *)


(** [insert] never panics on the caller's blocks; it refuses exactly the
    blocks whose number is outside the window or whose parent is not there, and
    then changes nothing; otherwise the block becomes the last of its level and
    its journal record is written. *)
Theorem insert_correct {E} o hash number parent_hash changeset :
  reach o → insertable o hash number parent_hash changeset →
  match insert (E := E) o hash number parent_hash changeset with
  | (o', Ok c) =>
      wf o' ∧ have_block o' hash = negb (bool_decide (hash ∈ pending_canonicalizations o)) ∧
      pending_insertions o' = pending_insertions o ++ [hash] ∧
      concat (levels o') ≡ₚ
        new_overlay o hash number changeset (Z.to_nat (number - front_block_number o')) :: concat (levels o) ∧
      (∀ h n, last_canonicalized o = Some (h, n) →
         n < number ≤ n + 1 + Z.of_nat (length (levels o)) ∧
         (number = n + 1 ∧ parent_hash = h ∨ is_Some (parents o !! parent_hash)))
  | (o', Err e) => o' = o ∧ ∃ h n, last_canonicalized o = Some (h, n) ∧
      match e with
      | InvalidBlockNumber => number ≤ n ∨ n + 1 + Z.of_nat (length (levels o)) < number
      | InvalidParent => (number = n + 1 → parent_hash ≠ h) ∧ (number ≠ n + 1 → parents o !! parent_hash = None)
      | _ => False
      end
  | (_, Panic) => False
  end.
Proof.
  intros Ho%reach_wf Hi. pose proof (insert_ok (E := E) _ _ _ _ _ Ho Hi) as Hins.
  pose proof (check_insert_spec (E := E) o number parent_hash) as Hspec.
  destruct (insert o hash number parent_hash changeset) as [o' [c|e|]]; [| |done].
  - destruct Hins as (Hw&Hpar&(o1&meta&Hchk&Hlast&Hlev&Hcm)&Hpi&Hpc&_). split_and!; try done.
    + unfold have_block. rewrite Hpar, Hpc, lookup_insert_eq. done.
    + destruct (check_insert_ok _ _ _ _ _ _ _ Ho Hi Hchk) as (Hlv&_&_&_&Hrange&_).
      assert (front_block_number o' = front_block_number o1) as Hf
        by (unfold front_block_number; by rewrite Hlast).
      rewrite Hlev, place_concat; [by rewrite Hf|]. unfold position_of. rewrite Hlv in Hrange. lia.
    + intros h n Hl. rewrite Hl in Hspec. rewrite Hchk in Hspec. destruct Hspec as (_&?&?). done.
  - destruct Hins as [-> Hchk]. split; [done|]. rewrite Hchk in Hspec.
    destruct (last_canonicalized o) as [[h n]|]; [|done]. by exists h, n.
Qed.

(** [canonicalize] selects a block of the first level that is not pending,
    or fails and changes nothing.  The commit gets the values and the deletions
    of the block, the record of the last canonicalized block, and the deletion of
    the journal records of exactly the blocks from this level on that do not
    descend from the block. *)
Theorem canonicalize_correct {E} o hash c :
  reach o → let n := length (pending_canonicalizations o) in
  match canonicalize (E := E) o hash c with
  | (o', c', Ok _) =>
      o' = set_pending_canonicalizations o (pending_canonicalizations o ++ [hash]) ∧
      ∃ level ov gone kept, levels o !! n = Some level ∧ ov ∈ level ∧ bo_hash ov = hash ∧
        (∀ j, kept !! j = filter (λ ov', ancestor (S j) (bo_hash ov') = hash) <$> levels o !! (S n + j)%nat) ∧
        gone ++ concat kept ≡ₚ concat (drop n (levels o)) ∧
        cs_data c' = MkChangeSet (inserted (cs_data c) ++ map (λ k, (k, val k)) (bo_inserted ov))
          (deleted (cs_data c) ++ bo_deleted ov) ∧
        cs_meta c' = MkChangeSet
          (inserted (cs_meta c) ++ [(to_meta_key LAST_CANONICAL tt,
             encode (hash, front_block_number o + Z.of_nat n))])
          (deleted (cs_meta c) ++ map bo_journal_key gone)
  | (o', c', Err e) => o' = o ∧ c' = c ∧ e = InvalidBlock ∧ hash ∉ hashes (default [] (levels o !! n))
  | (_, _, Panic) => False
  end.
Proof.
  intros Ho%reach_wf n. pose proof (canonicalize_ok (E := E) o hash c Ho) as Hc. cbn zeta in Hc. fold n in Hc.
  destruct (canonicalize o hash c) as [[o' c'] [u|e|]]; [|done|done].
  destruct Hc as (->&_&level&ov&ovs&Hl&Hov&Hh&Hp&Hd&Hm). split; [done|].
  exists level, ov, ovs, (keep [hash] (drop (S n) (levels o))). split_and!; try done. intros j.
  rewrite (keep_lookup (λ h, h ∈ hashes level)) by (eapply linked_drop; [apply Ho|done]).
  rewrite lookup_drop. destruct (levels o !! (S n + j)%nat); [|done]. cbn. f_equal.
  apply list_filter_iff. intros ov'. apply list_elem_of_singleton.
Qed.


(** Reverting the pending operations never panics and removes exactly the
    blocks inserted since the last [apply_pending], up to empty levels at the end
    of the window. *)
Theorem revert_pending_correct o :
  reach o →
  ∃ o' k, revert_pending o = Ok o' ∧ wf o' ∧
    pending_canonicalizations o' = [] ∧ pending_insertions o' = [] ∧
    last_canonicalized o' = last_canonicalized o ∧
    pinned o' = pinned o ∧ pinned_insertions o' = pinned_insertions o ∧
    levels o' ++ replicate k [] =
      map (filter (λ ov, bo_hash ov ∉ pending_insertions o)) (levels o).
Proof. intros Ho%reach_wf. by apply revert_pending_ok. Qed.

(** [pin] ends and increments the count of the block and of each of its
    ancestors in the overlay, once; a block that is being inserted cannot be
    pinned.  [unpin] undoes it exactly. *)
Theorem pin_correct o h :
  reach o →
  ∃ o', pin o h = Some o' ∧ wf o' ∧
    if decide (h ∈ pending_insertions o) then o' = o
    else unpin o' h = Some o ∧ ∃ l, NoDup l ∧ head l = Some h ∧
      (∀ i a, l !! i = Some a → a = ancestor i h ∧ (is_Some (parents o !! a) ↔ is_Some (l !! S i))) ∧
      o' = set_pinned o (pinned o') ∧
      ∀ x, pinned o' !! x = if decide (x ∈ l) then Some (default 0 (pinned o !! x) + 1) else pinned o !! x.
Proof.
  intros Ho%reach_wf. destruct (pin_ok o h Ho) as (o'&Hpin&Hw&Hd). exists o'. split_and!; [done|done|].
  destruct (decide (h ∈ pending_insertions o)); [done|]. destruct Hd as (l&Hl&Hn&->&Hun). split; [done|].
  exists l. split_and!; [done|..].
  - cbn [path] in Hl. destruct (parents o !! h); [|by injection Hl as <-].
    by destruct (path _ o b) as [l'|]; [injection Hl as <-|].
  - clear Hn Hun Hpin Hw n. pose proof (w_store _ Ho) as Hs. revert h l Hl.
    induction (S (size (parents o))) as [|fuel IH]; intros h l Hl; [done|]. cbn [path] in Hl.
    destruct (parents o !! h) as [p|] eqn:Hp; cycle 1.
    { injection Hl as <-. intros [|i] a Ha; [|done]. injection Ha as <-. rewrite Hp. split; [done|].
      split; intros [? ?]; done. }
    destruct (path fuel o p) as [l'|] eqn:Hl'; [|done]. injection Hl as <-.
    assert (p = par h) as ->.
    { rewrite (s_parents _ _ Hs) in Hp. case_decide; [by injection Hp as <-|done]. }
    intros [|i] a Ha; cbn in Ha.
    + injection Ha as <-. split; [done|]. rewrite Hp. split; [|by eexists]. intros _.
      destruct l'; [|by eexists]. destruct fuel; cbn in Hl'; [done|].
      by destruct (parents o !! par h); [destruct (path fuel o _)|].
    + destruct (IH (par h) l' Hl' i a Ha) as [-> ?]. split; [|done]. unfold ancestor. by rewrite Nat.iter_succ_r.
  - done.
  - intros x. cbn. by apply lookup_incrs.
Qed.

(** ** Restarting from the journal *)

Definition get_meta (meta : gmap bytes DBValue) (key : bytes) : Empty_set + option DBValue := inr (meta !! key).

(** The records of a level are stored without gaps, from index [i] on. *)
Fixpoint level_stored (meta : gmap bytes DBValue) (block : Z) (i : Z) (l : list overlay) : Prop :=
  match l with
  | [] => meta !! to_journal_key block i = None
  | ov :: l' =>
      bo_journal_key ov = to_journal_key block i ∧
      meta !! to_journal_key block i = Some (encode (record_of ov)) ∧ level_stored meta block (i + 1) l'
  end.

Fixpoint levels_stored (meta : gmap bytes DBValue) (block : Z) (ls : list (list overlay)) : Prop :=
  match ls with
  | [] => meta !! to_journal_key block 0 = None
  | l :: ls' => l ≠ [] ∧ level_stored meta block 0 l ∧ levels_stored meta (block + 1) ls'
  end.

(** The database has the journal of the overlay. *)
Definition journaled (meta : gmap bytes DBValue) (o : overlay_state) : Prop :=
  meta !! to_meta_key LAST_CANONICAL tt = encode <$> last_canonicalized o ∧
  match last_canonicalized o with
  | Some (_, n) => levels_stored meta (n + 1) (levels o)
  | None => levels o = []
  end.

Definition put_parent (m : gmap BlockHash BlockHash) (ov : overlay) : gmap BlockHash BlockHash :=
  <[bo_hash ov := par (bo_hash ov)]> m.
Definition put_values (vs : gmap Key (Z * DBValue)) (ov : overlay) : gmap Key (Z * DBValue) :=
  insert_values vs (map (λ k, (k, val k)) (bo_inserted ov)).

Lemma map_fst_val (ks : list Key) : map fst (map (λ k, (k, val k)) ks) = ks.
Proof. rewrite map_map. cbn. apply map_id. Qed.

Lemma read_level_ok meta fuel block i acc ps vs l :
  level_stored meta block i l → (length l < fuel)%nat →
  read_level (get_meta meta) fuel block i acc ps vs =
  Some (Ok (acc ++ l, foldl put_parent ps l, foldl put_values vs l)).
Proof.
  revert fuel i acc ps vs. induction l as [|ov l IH]; intros [|fuel] i acc ps vs Hl Hf; cbn [length] in Hf; try lia;
    cbn [read_level level_stored] in *; unfold read_meta, get_meta.
  - by rewrite Hl, app_nil_r.
  - destruct Hl as (Hkey&Hm&Hl). rewrite Hm, decode_encode. cbn [record_of jr_hash jr_parent_hash jr_inserted jr_deleted].
    rewrite map_fst_val. change (λ key : bytes, inr (meta !! key)) with (get_meta meta).
    rewrite (IH fuel) by (done || lia). rewrite <- Hkey. cbn [foldl]. rewrite <- app_assoc. cbn [app].
    by destruct ov.
Qed.

Lemma read_levels_ok meta fuel block acc ps vs ls :
  levels_stored meta block ls → (length ls < fuel)%nat → Forall (λ l, (length l < fuel - length ls)%nat) ls →
  read_levels (get_meta meta) fuel block acc ps vs =
  Some (Ok (acc ++ ls, foldl put_parent ps (concat ls), foldl put_values vs (concat ls))).
Proof.
  revert fuel block acc ps vs. induction ls as [|l ls IH]; intros [|fuel] block acc ps vs Hls Hf Hl;
    cbn [length] in Hf; try lia; cbn [read_levels levels_stored] in *.
  - rewrite (read_level_ok _ _ _ _ _ _ _ []) by (done || cbn; lia). by rewrite !app_nil_r.
  - destruct Hls as (Hne&Hl0&Hls). apply Forall_cons in Hl as [Hlen Hl]. cbn [length] in Hlen.
    rewrite (read_level_ok _ _ _ _ _ _ _ l) by (done || lia). cbn [app]. destruct l as [|ov l]; [done|].
    rewrite IH; [|done|lia|]; cycle 1.
    { eapply Forall_impl; [exact Hl|]. intros l' Hl'. cbn in *. lia. }
    cbn [concat]. by rewrite !foldl_app, <- app_assoc.
Qed.

(** The maps read back are those of the overlay. *)
Lemma read_store got live o ps vs :
  store (got ++ live) o → pinned_insertions o = ∅ →
  store got (MkNonCanonicalOverlay None [] ps [] [] vs ∅ ∅) →
  store (got ++ live) (MkNonCanonicalOverlay None [] (foldl put_parent ps live) [] []
    (foldl put_values vs live) ∅ ∅).
Proof.
  revert got ps vs. induction live as [|ov live IH]; intros got ps vs Ho Hpi Hd; [by rewrite app_nil_r|].
  cbn [foldl]. assert (ov ∈ got ++ ov :: live) as Hov by (apply elem_of_app; right; by left).
  rewrite (cons_middle ov), app_assoc in *. apply IH; [done|done|].
  apply (store_perm (ov :: got)); [by rewrite Permutation_app_comm|].
  pose proof (s_nodup _ _ Ho) as Hn. rewrite !map_app in Hn. apply NoDup_app in Hn as (Hn&_&_).
  apply NoDup_app in Hn as (_&Hn&_).
  apply (store_insert got (MkNonCanonicalOverlay None [] ps [] [] vs ∅ ∅)); try done.
  - cbn. pose proof (s_parents _ _ Hd (bo_hash ov)) as Hp. cbn in Hp. rewrite Hp, decide_False; [done|].
    intros [Hin|[? Hin]]; [by apply (Hn _ Hin); left|]. by rewrite lookup_empty in Hin.
  - rewrite (s_num _ _ Ho); [done|]. rewrite (store_parent _ _ _ Ho); [by eexists|].
    apply elem_of_app. left. apply elem_of_app. right. by left.
  - unfold content_addressed. apply Forall_forall. intros kv (k&->&_)%list_elem_of_fmap. done.
  - by rewrite map_fst_val.
  - rewrite map_fst_val. pose proof (s_live_keys _ _ Ho) as Hk. rewrite Forall_forall in Hk. apply Hk.
    apply elem_of_app. left. apply elem_of_app. right. by left.
Qed.

Lemma overlay_new_ok meta o fuel :
  wf o → pinned_insertions o = ∅ → journaled meta o →
  (length (levels o) < fuel)%nat → Forall (λ l, (length l < fuel - length (levels o))%nat) (levels o) →
  new (get_meta meta) fuel =
  Some (Ok (MkNonCanonicalOverlay (last_canonicalized o) (levels o) (parents o) [] [] (values o) ∅ ∅)).
Proof.
  intros Hw Hpi [Hlast Hls] Hf Hl. pose proof (w_store _ Hw) as Hs. unfold new, read_meta.
  unfold get_meta at 1. rewrite Hlast. destruct (last_canonicalized o) as [[h n]|]; cbn [fmap option_fmap option_map].
  - rewrite decode_encode, (read_levels_ok _ _ _ _ _ _ (levels o)) by done. cbn [app].
    pose proof (read_store [] (concat (levels o)) o ∅ ∅ Hs Hpi) as Hr.
    match type of Hr with ?P → _ => assert P as Hnil end.
    { pose proof (w_store _ (reach_wf _ (reach_new None))) as Hnil. exact Hnil. }
    specialize (Hr Hnil). cbn [app] in Hr. do 3 f_equal.
    + apply map_eq. intros x. pose proof (s_parents _ _ Hr x) as Hx. cbn in Hx. rewrite Hx.
      by rewrite (s_parents _ _ Hs), Hpi.
    + eapply counted_unique; [apply (s_values _ _ Hr)|]. cbn. rewrite <- Hpi. apply Hs.
  - assert (parents o = ∅ ∧ values o = ∅) as [-> ->]; [|by rewrite Hls].
    rewrite Hls in Hs. split.
    + apply map_empty. intros x. rewrite (s_parents _ _ Hs), Hpi, decide_False; [done|].
      intros [Hx|[? Hx]]; [by apply not_elem_of_nil in Hx|by rewrite lookup_empty in Hx].
    + apply map_empty. intros k. rewrite (s_values _ _ Hs k), Hpi. done.
Qed.

Lemma to_journal_key_inj b i b' i' : to_journal_key b i = to_journal_key b' i' → b = b' ∧ i = i'.
Proof.
  unfold to_journal_key, to_meta_key. intros Hk%app_inv_tail%encode_inj. by injection Hk as -> ->.
Qed.

Lemma journal_key_last b i : to_journal_key b i ≠ to_meta_key LAST_CANONICAL tt.
Proof.
  unfold to_journal_key, to_meta_key. intros Hk%(f_equal reverse). rewrite !reverse_app in Hk.
  by injection Hk.
Qed.

Lemma level_stored_insert meta block i l b j v :
  level_stored meta block i l → (b ≠ block ∨ j < i ∨ i + Z.of_nat (length l) < j) →
  level_stored (<[to_journal_key b j := v]> meta) block i l.
Proof.
  revert i. induction l as [|ov l IH]; intros i Hl Hb; cbn [level_stored length] in *.
  - rewrite lookup_insert_ne; [done|]. intros [-> ->]%to_journal_key_inj. lia.
  - destruct Hl as (?&?&Hl). split_and!; [done| |apply IH; [done|lia]].
    rewrite lookup_insert_ne; [done|]. intros [-> ->]%to_journal_key_inj. lia.
Qed.

Lemma levels_stored_insert meta block ls b j v :
  levels_stored meta block ls → (b < block ∨ block + Z.of_nat (length ls) < b) →
  levels_stored (<[to_journal_key b j := v]> meta) block ls.
Proof.
  revert block. induction ls as [|l ls IH]; intros block Hl Hb; cbn [levels_stored length] in *.
  - rewrite lookup_insert_ne; [done|]. intros [-> _]%to_journal_key_inj. lia.
  - destruct Hl as (?&?&?). split_and!; [done|apply level_stored_insert; [done|lia]|apply IH; [done|lia]].
Qed.

Lemma level_stored_snoc meta block i l ov :
  level_stored meta block i l → bo_journal_key ov = to_journal_key block (i + Z.of_nat (length l)) →
  meta !! to_journal_key block (i + Z.of_nat (length l) + 1) = None →
  level_stored (<[bo_journal_key ov := encode (record_of ov)]> meta) block i (l ++ [ov]).
Proof.
  intros Hl Hk Hnone. rewrite Hk. revert i Hl Hk Hnone. induction l as [|ov' l IH]; intros i Hl Hk Hnone;
    cbn [level_stored length app] in *.
  - rewrite Z.add_0_r in *. split_and!; [done|by rewrite lookup_insert_eq|].
    rewrite lookup_insert_ne; [done|]. intros [_ ?]%to_journal_key_inj. lia.
  - destruct Hl as (?&?&Hl). split_and!; [done| |].
    + rewrite lookup_insert_ne; [done|]. intros [_ ?]%to_journal_key_inj. lia.
    + replace (i + Z.of_nat (S (length l))) with (i + 1 + Z.of_nat (length l)) in * by lia. by apply IH.
Qed.

Lemma levels_stored_place meta block ls i ov :
  levels_stored meta block ls → (i ≤ length ls)%nat →
  bo_journal_key ov =
    to_journal_key (block + Z.of_nat i) (Z.of_nat (length (default [] (ls !! i)))) →
  meta !! to_journal_key (block + Z.of_nat i) (Z.of_nat (length (default [] (ls !! i))) + 1) = None →
  meta !! to_journal_key (block + Z.of_nat (S i)) 0 = None ∨ (i < length ls)%nat →
  levels_stored (<[bo_journal_key ov := encode (record_of ov)]> meta) block (place i ov ls).
Proof.
  revert block i. induction ls as [|l ls IH]; intros block [|i] Hls Hi Hk Hn Hnext; cbn [length] in *; try lia;
    cbn [place levels_stored lookup list_lookup default from_option id] in *.
  - rewrite Z.add_0_r in *. split_and!; [done| |].
    + apply (level_stored_snoc meta block 0 [] ov Hls Hk Hn).
    + rewrite Hk, lookup_insert_ne by (intros [? _]%to_journal_key_inj; lia).
      destruct Hnext as [Hnext|?]; [|lia]. by replace (block + 1) with (block + Z.of_nat 1) by lia.
  - rewrite Z.add_0_r in *. destruct Hls as (?&Hl&Hls). split_and!; [by destruct l| |].
    + by apply level_stored_snoc.
    + rewrite Hk. apply levels_stored_insert; [done|lia].
  - destruct Hls as (?&Hl&Hls). split_and!; [done| |].
    + rewrite Hk. apply level_stored_insert; [done|lia].
    + replace (block + Z.of_nat (S i)) with (block + 1 + Z.of_nat i) in * by lia.
      replace (block + Z.of_nat (S (S i))) with (block + 1 + Z.of_nat (S i)) in * by lia.
      apply IH; [done|lia|done|done|]. destruct Hnext; [by left|right; lia].
Qed.

(** No other journal records. *)
Definition clean (meta : gmap bytes DBValue) (block : Z) (ls : list (list overlay)) : Prop :=
  ∀ b i, is_Some (meta !! to_journal_key b i) →
    ∃ j l, ls !! j = Some l ∧ b = block + Z.of_nat j ∧ 0 ≤ i < Z.of_nat (length l).

Lemma clean_place meta block ls i ov :
  clean meta block ls → (i ≤ length ls)%nat →
  bo_journal_key ov =
    to_journal_key (block + Z.of_nat i) (Z.of_nat (length (default [] (ls !! i)))) →
  clean (<[bo_journal_key ov := encode (record_of ov)]> meta) block (place i ov ls).
Proof.
  intros Hc Hi Hk b x Hx. destruct (place_lookup_full i ov ls Hi) as (l0&Hi0&Hj0&Hl0).
  assert (default [] (ls !! i) = l0) as Hdef by (destruct Hl0 as [->|[-> ->]]; done).
  rewrite Hdef in Hk. rewrite Hk in Hx. rewrite lookup_insert in Hx.
  destruct (decide (to_journal_key (block + Z.of_nat i) (Z.of_nat (length l0)) = to_journal_key b x))
    as [[<- <-]%to_journal_key_inj|Hne].
  - exists i, (l0 ++ [ov]). split_and!; [done|done|lia|rewrite length_app; cbn; lia].
  - destruct (Hc b x Hx) as (j&l&Hj&->&Hr). destruct (decide (j = i)) as [->|Hji].
    + exists i, (l0 ++ [ov]). destruct Hl0 as [Hl0|[? _]]; [|congruence].
      assert (l0 = l) as -> by congruence. split_and!; [done|done|lia|rewrite length_app; lia].
    + exists j, l. rewrite Hj0 by done. done.
Qed.

(** Blocks are inserted on top of a canonicalized block, each commit written to
    the database and the insertion applied. *)
Inductive journaling : gmap bytes DBValue → overlay_state → Prop :=
| journal_start h n :
    journaling {[to_meta_key LAST_CANONICAL tt := encode (h, n)]}
      (MkNonCanonicalOverlay (Some (h, n)) [] ∅ [] [] ∅ ∅ ∅)
| journal_insert meta o hash number parent_hash changeset o1 c o' :
    journaling meta o → insertable o hash number parent_hash changeset →
    insert (E := Empty_set) o hash number parent_hash changeset = (o1, Ok c) → apply_pending o1 = Ok o' →
    journaling (apply_changes meta (cs_meta c)) o'.

(** [apply_pending] without canonicalizations. *)
Lemma apply_insertions (o : overlay_state) :
  pending_canonicalizations o = [] → apply_pending o = Ok (set_pending_insertions o []).
Proof. intros Hpc. unfold apply_pending, apply_canonicalizations. rewrite Hpc. cbn. by destruct o; cbn in *; subst. Qed.

Lemma journaling_ok meta o :
  journaling meta o →
  wf o ∧ pending_canonicalizations o = [] ∧ pending_insertions o = [] ∧ pinned o = ∅ ∧ pinned_insertions o = ∅ ∧
  ∃ h n, last_canonicalized o = Some (h, n) ∧ journaled meta o ∧ clean meta (n + 1) (levels o).
Proof.
  induction 1 as [h n|meta o hash number p cs o1 c o' _ (Hw&Hpc&Hpi&Hpn&Hpin&h&n&Hlast&[Hm Hls]&Hc) Hi Hins Happ].
  - split_and!; [apply reach_wf, reach_new|done..|]. exists h, n. split_and!; [done|split|].
    + apply lookup_singleton_eq.
    + cbn. rewrite lookup_singleton_ne; [done|]. intros Heq. by apply (journal_key_last (n + 1) 0).
    + intros b i [? Hx]. rewrite lookup_singleton_ne in Hx; [done|]. intros Heq. by apply (journal_key_last b i).
  - pose proof (insert_ok (E := Empty_set) _ _ _ _ _ Hw Hi) as Ho. rewrite Hins in Ho.
    destruct Ho as (Hw1&_&(o0&m0&Hchk&Hla1&Hlv&->)&_&Hpc1&Hpn1&Hpin1). cbn zeta in Hlv.
    assert (o0 = o ∧ m0 = []) as [-> ->].
    { unfold check_insert in Hchk. rewrite Hlast in Hchk.
      destruct (levels o); repeat (case_decide || case_match || case_bool_decide); by simplify_eq. }
    destruct (check_insert_ok _ _ _ _ _ _ _ Hw Hi Hchk) as (_&_&_&_&Hrange&_).
    set (i := position_of o number) in *. set (ov := new_overlay o hash number cs i) in *.
    assert (front_block_number o = n + 1) as Hf by (unfold front_block_number; by rewrite Hlast).
    assert (i ≤ length (levels o))%nat as Hlen by (unfold i, position_of; lia).
    assert (bo_journal_key ov = to_journal_key (n + 1 + Z.of_nat i)
      (Z.of_nat (length (default [] (levels o !! i))))) as Hk.
    { unfold ov, new_overlay. cbn. f_equal. unfold i, position_of. lia. }
    rewrite Hpc in Hpc1. rewrite (apply_insertions o1 Hpc1) in Happ. injection Happ as <-.
    destruct (apply_pending_ok o1 Hw1) as (o2&Ho2&Hw2&_). rewrite (apply_insertions o1 Hpc1) in Ho2.
    injection Ho2 as <-. cbn [levels set_pending_insertions last_canonicalized pinned pinned_insertions].
    cbn [cs_meta app]. unfold apply_changes. cbn [inserted deleted]. unfold delete_all, put_all. cbn [foldl fst snd].
    rewrite Hlast in Hls, Hla1. split_and!; [done..|by rewrite Hpn1|by rewrite Hpin1|]. exists h, n.
    split_and!; [done|split|by rewrite Hlv; apply clean_place];
      cbn [levels set_pending_insertions last_canonicalized].
    + rewrite lookup_insert_ne; [by rewrite Hm, Hlast, Hla1|]. rewrite Hk. apply journal_key_last.
    + rewrite Hla1, Hlv. apply levels_stored_place; try done.
      * apply eq_None_not_Some. intros (j&l&Hj&Hij&Hr)%Hc. assert (j = i) as -> by lia.
        rewrite Hj in Hr. cbn in Hr. lia.
      * destruct (decide (i < length (levels o))%nat); [by right|left].
        apply eq_None_not_Some. intros (j&l&Hj%lookup_lt_Some&Hij&Hr)%Hc. lia.
Qed.

(** The journal restores the overlay: after any sequence of committed
    insertions on top of a canonicalized block, [new] reads back from the
    database exactly the overlay in memory.  The fuel is more than the number of
    levels and blocks. *)
Theorem restart_correct meta o fuel :
  journaling meta o → (length (levels o) + length (concat (levels o)) < fuel)%nat →
  new (get_meta meta) fuel = Some (Ok o).
Proof.
  intros Hj Hf. destruct (journaling_ok meta o Hj) as (Hw&Hpc&Hpi&Hpn&Hpin&h&n&Hlast&Hm&_).
  rewrite (overlay_new_ok meta o fuel Hw Hpin Hm) by first [lia|apply Forall_forall; intros l Hl;
    assert (length l ≤ length (concat (levels o)))%nat; [|lia]; apply list_elem_of_split in Hl as (l1&l2&->);
    rewrite concat_app, length_app; cbn [concat]; rewrite length_app; lia].
  do 2 f_equal. destruct o; cbn in *. by subst.
Qed.
End facts.

Arguments wf {BlockHash Key _ _ _ _} val num par keys o.
Arguments reach {BlockHash Key _ _ _ _ _ _ _ _} val num par keys _.
Arguments journaling {BlockHash Key _ _ _ _ _ _ _ _} val num par keys _ _.

(** ** Two forks of two blocks *)

Module SmallOverlay.
(** Block [21] is above block [2], which is above block [0]. *)
Definition par (h : Z) : Z := h / 10.
Definition num (h : Z) : Z := if h =? 0 then 0 else if h <? 10 then 1 else if h <? 100 then 2 else 3.
Definition keys (h : Z) : list Z := [h].
Definition val (k : Z) : DBValue := [k].

#[export] Instance unit_codec : Codec unit.
Proof. refine {| encode := λ _, []; decode := λ _, Some tt |}. by intros []. Defined.

#[export] Instance pair_codec : Codec (Z * Z).
Proof.
  refine {| encode := λ p, [p.1; p.2];
            decode := λ l, match l with [a; b] => Some (a, b) | _ => None end |}.
  by intros [? ?].
Defined.

(** The values of a record are those of its keys, one byte each; other records
    are not stored here. *)
Definition record_bytes (r : JournalRecord (BlockHash := Z) (Key := Z)) : bytes :=
  [Zpos (countable.encode (jr_hash r, jr_parent_hash r, jr_inserted r, jr_deleted r))].

#[export] Instance record_codec : Codec (JournalRecord (BlockHash := Z) (Key := Z)).
Proof.
  refine {| encode := record_bytes;
            decode := λ l, match l with
              | [Zpos p] => (λ '(h, q, ins, del), MkJournalRecord h q ins del) <$> countable.decode p
              | _ => None
              end |}.
  intros [h q ins del]. unfold record_bytes. by rewrite countable.decode_encode.
Defined.

Definition change (h : Z) : ChangeSet Z := MkChangeSet [(h, [h])] [].

Abbreviation small := (NonCanonicalOverlay (BlockHash := Z) (Key := Z)).

Definition started : small :=
  MkNonCanonicalOverlay (Some (0, 0)) [] ∅ [] [] ∅ ∅ ∅.
Definition inserting (o : small) (h : Z) : small * result (Error Empty_set) (CommitSet Z) :=
  insert (E := Empty_set) o h (num h) (par h) (change h).
Definition grow (o : small) (hs : list Z) : small := foldl (λ o h, (inserting o h).1) o hs.

Definition forked := grow started [1; 2; 11; 21].
Definition selected := (canonicalize (E := Empty_set) forked 2 commit_default).1.1.

Lemma reach_started : reach val num par keys started.
Proof. apply (reach_new val num par keys (Some (0, 0))). Qed.

Lemma grow_step o h :
  reach val num par keys o → insertable val num par keys o h (num h) (par h) (change h) →
  reach val num par keys (grow o [h]).
Proof. intros. by apply reach_insert. Qed.

Ltac insertable_now := constructor;
  first [by vm_compute | by repeat constructor | (intros ?; by vm_compute)].

Lemma reach_forked : reach val num par keys forked.
Proof.
  apply (grow_step (grow started [1; 2; 11]) 21); [|insertable_now].
  apply (grow_step (grow started [1; 2]) 11); [|insertable_now].
  apply (grow_step (grow started [1]) 2); [|insertable_now].
  apply (grow_step started 1); [apply reach_started|insertable_now].
Qed.


Lemma insert_correct_witness :
  ∃ o' c, inserting forked 12 = (o', Ok c) ∧ wf val num par keys o'.
Proof.
  pose proof (insert_correct val num par keys (E := Empty_set) forked 12 2 1 (change 12) reach_forked
    ltac:(insertable_now)) as Hi.
  unfold inserting. change (num 12) with 2. change (par 12) with 1.
  assert (is_ok (insert (E := Empty_set) forked 12 2 1 (change 12)).2 = true) as Hok by (by vm_compute).
  destruct (insert (E := Empty_set) forked 12 2 1 (change 12)) as [o' [c|e|]]; [|done|done].
  exists o', c. exact (conj eq_refl (proj1 Hi)).
Defined.

(** Selecting block 2 discards the records of 1, 2 and 11. *)
Lemma canonicalize_correct_witness :
  ∃ level ov gone kept, levels forked !! 0%nat = Some level ∧ ov ∈ level ∧ bo_hash ov = 2 ∧
    gone ++ concat kept ≡ₚ concat (levels forked) ∧ kept !! 0%nat = Some (filter (λ ov', par (bo_hash ov') = 2)
      (default [] (levels forked !! 1%nat))).
Proof.
  pose proof (canonicalize_correct val num par keys (E := Empty_set) forked 2 commit_default reach_forked) as Hc.
  assert (is_ok (canonicalize (E := Empty_set) forked 2 commit_default).2 = true) as Hok by (by vm_compute).
  cbn zeta in Hc. destruct (canonicalize forked 2 commit_default) as [[o' c'] [u|e|]]; [|done|done].
  destruct Hc as (_&level&ov&gone&kept&Hl&Hov&Hh&Hk&Hg&_). exists level, ov, gone, kept.
  specialize (Hk 0%nat). exact (conj Hl (conj Hov (conj Hh (conj Hg Hk)))).
Defined.

Lemma reach_selected : reach val num par keys selected.
Proof. apply reach_canonicalize; [apply reach_forked|by vm_compute]. Qed.


Lemma revert_pending_correct_witness :
  ∃ o' k, revert_pending selected = Ok o' ∧ levels o' ++ replicate k [] = [[]; []].
Proof.
  destruct (revert_pending_correct val num par keys selected reach_selected) as (o'&k&Ho&_&_&_&_&_&_&Hl).
  exists o', k. exact (conj Ho Hl).
Defined.

Definition settled : small := match apply_pending forked with Ok o => o | _ => started end.

Lemma reach_settled : reach val num par keys settled.
Proof. apply (reach_apply _ _ _ _ forked); [apply reach_forked|by vm_compute]. Qed.

Lemma pin_correct_witness : ∃ o', pin settled 21 = Some o' ∧ unpin o' 21 = Some settled.
Proof.
  destruct (pin_correct val num par keys settled 21 reach_settled) as (o'&Ho&_&Hd).
  exists o'. exact (conj Ho (proj1 Hd)).
Defined.

(** *** The journal *)

(** Insert, write the commit, apply. *)
Definition commit_insert (s : gmap bytes DBValue * small) (h : Z) : gmap bytes DBValue * small :=
  match inserting s.2 h with
  | (o1, Ok c) =>
      match apply_pending o1 with
      | Ok o' => (apply_changes s.1 (cs_meta c), o')
      | _ => s
      end
  | _ => s
  end.

Definition database : gmap bytes DBValue := {[to_meta_key LAST_CANONICAL tt := encode (0, 0)]}.
Definition stored (hs : list Z) : gmap bytes DBValue * small := foldl commit_insert (database, started) hs.

Lemma commit_insert_journaling s h :
  journaling val num par keys s.1 s.2 → insertable val num par keys s.2 h (num h) (par h) (change h) →
  journaling val num par keys (commit_insert s h).1 (commit_insert s h).2.
Proof.
  intros Hs Hi. unfold commit_insert. destruct (inserting s.2 h) as [o1 [c|e|]] eqn:Hins; [|done|done].
  destruct (apply_pending o1) as [o'|e|] eqn:Happ; [|done|done]. by eapply journal_insert.
Qed.

Lemma restart_correct_witness : new (get_meta (stored [1; 2; 11]).1) 6 = Some (Ok (stored [1; 2; 11]).2).
Proof.
  apply (restart_correct val num par keys); [|vm_compute; lia].
  apply (commit_insert_journaling (stored [1; 2]) 11); [|insertable_now].
  apply (commit_insert_journaling (stored [1]) 2); [|insertable_now].
  apply (commit_insert_journaling (database, started) 1); [|insertable_now].
  apply journal_start.
Defined.

(** Selecting a block that is not the first of its level leaves records that
    [new] does not find: block 21 has index 1 on its level, and the record with
    index 0 is gone. *)
Definition selecting : small * CommitSet Z * result (Error Empty_set) unit :=
  canonicalize (stored [1; 2; 11; 21]).2 2 commit_default.

Lemma restart_loses_block :
  match apply_pending selecting.1.1,
        new (get_meta (apply_changes (stored [1; 2; 11; 21]).1 (cs_meta selecting.1.2))) 6 with
  | Ok o', Some (Ok o'') =>
      map (map bo_hash) (levels o') = [[21]] ∧ get o' 21 = Some [21] ∧
      map (map bo_hash) (levels o'') = [] ∧ get o'' 21 = None
  | _, _ => False
  end.
Proof. vm_compute. done. Qed.

(** Its number is the index of the next insertion on the level too, whose record
    then replaces it. *)
Lemma journal_keys_collide :
  match apply_pending selecting.1.1 with
  | Ok o' =>
      match inserting o' 22 with
      | (o'', Ok _) => map (map bo_journal_key) (levels o'') =
          [[to_journal_key 2 1; to_journal_key 2 1]]
      | _ => False
      end
  | _ => False
  end.
Proof. vm_compute. done. Qed.

(** Applying a canonicalization can leave empty levels.  An insertion on the
    first of them that is reverted pops the last level: the assertion that the
    emptied level is the last one does not hold. *)
Definition above_empty : small :=
  match apply_pending (canonicalize (E := Empty_set) (grow started [1; 2; 11; 111]) 2 commit_default).1.1 with
  | Ok o => (inserting o 21).1
  | _ => started
  end.

Lemma emptied_level_not_last :
  map (map bo_hash) (levels above_empty) = [[21]; []] ∧
  match revert_pending above_empty with Ok o => levels o = [[]] | _ => False end.
Proof. vm_compute. done. Qed.

(** The number of the first canonical block is one too high until the
    canonicalization is applied. *)
Definition first_selected : small :=
  (canonicalize (E := Empty_set)
     (insert (E := Empty_set) (MkNonCanonicalOverlay None [] ∅ [] [] ∅ ∅ ∅) 1 0 0 (change 1)).1 1 commit_default).1.1.

Lemma first_canonical_number :
  last_canonicalized_block_number first_selected = Some 1 ∧
  match apply_pending first_selected with
  | Ok o => last_canonicalized_block_number o = Some 0
  | _ => False
  end.
Proof. vm_compute. done. Qed.

(** Reverting the first insertion keeps the last canonical block it assumed. *)
Lemma revert_keeps_last :
  match revert_pending
    (insert (E := Empty_set) (MkNonCanonicalOverlay None [] ∅ [] [] ∅ ∅ ∅) 21 2 2 (change 21)).1 with
  | Ok o => last_canonicalized o = Some (2, 1) ∧ levels o = []
  | _ => False
  end.
Proof. vm_compute. done. Qed.
End SmallOverlay.
