(* ===== verification/StateDb.v ===== *)
(** * State database (src/client/state-db/src/lib.rs)

    Composes the overlay of the blocks that are not canonical yet with the
    pruning window of the canonical ones.  [StateDb] is a lock around
    [StateDbSync]; every method is one critical section. *)
From stdpp Require Import strings.
From S2P Require Import Prelude StateDbBase Pruning NonCanonical.

Local Open Scope Z_scope.

Definition PRUNING_MODE : bytes := byte_string "mode".
Definition PRUNING_MODE_ARCHIVE : bytes := byte_string "archive".
Definition PRUNING_MODE_ARCHIVE_CANON : bytes := byte_string "archive_canonical".
Definition PRUNING_MODE_CONSTRAINED : bytes := byte_string "constrained".

Record Constraints : Type := MkConstraints {
  max_blocks : option Z;
  max_mem : option Z;
}.

Inductive PruningMode : Type :=
| Constrained (c : Constraints)
| ArchiveAll
| ArchiveCanonical.

Definition keep_blocks (n : Z) : PruningMode := Constrained (MkConstraints (Some n) None).

Definition is_archive (m : PruningMode) : bool :=
  match m with
  | ArchiveAll | ArchiveCanonical => true
  | Constrained _ => false
  end.

Definition mode_id (m : PruningMode) : bytes :=
  match m with
  | ArchiveAll => PRUNING_MODE_ARCHIVE
  | ArchiveCanonical => PRUNING_MODE_ARCHIVE_CANON
  | Constrained _ => PRUNING_MODE_CONSTRAINED
  end.

Definition default_mode : PruningMode := keep_blocks 256.

Inductive PinError : Type :=
| PinInvalidBlock.

Section state_db.
Context {BlockHash Key : Type} `{Countable BlockHash, Countable Key}.
Context `{!Codec unit} `{!Codec Z} `{!Codec (Z * Z)} `{!Codec (BlockHash * Z)}
  `{!Codec (NonCanonical.JournalRecord (BlockHash := BlockHash) (Key := Key))}
  `{!Codec (Pruning.JournalRecord BlockHash Key)}.

(** The order in which a hash set of keys is iterated. *)
Context (ord : gset Key → list Key).

Abbreviation Overlay := (NonCanonicalOverlay (BlockHash := BlockHash) (Key := Key)).
Abbreviation Window := (RefWindow BlockHash Key).

Record StateDbSync : Type := MkStateDbSync {
  mode : PruningMode;
  non_canonical : Overlay;
  pruning : option Window;
  sd_pinned : gmap BlockHash Z;
}.

Definition with_overlay (s : StateDbSync) (o : Overlay) : StateDbSync :=
  MkStateDbSync (mode s) o (pruning s) (sd_pinned s).
Definition with_window (s : StateDbSync) (w : option Window) : StateDbSync :=
  MkStateDbSync (mode s) (non_canonical s) w (sd_pinned s).
Definition with_pins (s : StateDbSync) (m : gmap BlockHash Z) : StateDbSync :=
  MkStateDbSync (mode s) (non_canonical s) (pruning s) m.

Definition check_meta {E} (m : PruningMode) (get_meta : bytes → E + option DBValue) :
    result (Error E) unit :=
  match get_meta (to_meta_key PRUNING_MODE tt) with
  | inl e => Err (Db e)
  | inr (Some v) => if decide (v = mode_id m) then Ok tt else Err (InvalidPruningMode v)
  | inr None => Ok tt
  end.

(** [None] is running out of fuel while a journal is read. *)
Definition state_db_new {E} (m : PruningMode) (get_meta : bytes → E + option DBValue) (fuel : nat) :
    option (result (Error E) StateDbSync) :=
  match check_meta m get_meta with
  | Err e => Some (Err e)
  | Panic => Some Panic
  | Ok _ =>
      match NonCanonical.new get_meta fuel with
      | None => None
      | Some (Err e) => Some (Err e)
      | Some Panic => Some Panic
      | Some (Ok o) =>
          match m with
          | Constrained (MkConstraints _ (Some _)) => Some Panic
          | Constrained _ =>
              match Pruning.new get_meta fuel with
              | None => None
              | Some (Err e) => Some (Err e)
              | Some Panic => Some Panic
              | Some (Ok w) => Some (Ok (MkStateDbSync m o (Some w) ∅))
              end
          | ArchiveAll | ArchiveCanonical => Some (Ok (MkStateDbSync m o None ∅))
          end
      end
  end.

Definition insert_block {E} (s : StateDbSync) (hash : BlockHash) (number : Z) (parent_hash : BlockHash)
    (changeset : ChangeSet Key) : StateDbSync * result (Error E) (CommitSet Key) :=
  let meta := if number =? 0 then [(to_meta_key PRUNING_MODE tt, mode_id (mode s))] else [] in
  match mode s with
  | ArchiveAll => (s, Ok (MkCommitSet (MkChangeSet (inserted changeset) []) (MkChangeSet meta [])))
  | Constrained _ | ArchiveCanonical =>
      let '(o, r) := NonCanonical.insert (E := E) (non_canonical s) hash number parent_hash changeset in
      (with_overlay s o,
       c ← r;
       Ok (MkCommitSet (cs_data c)
             (MkChangeSet (inserted (cs_meta c) ++ meta) (deleted (cs_meta c)))))
  end.

(** The loop of [prune]; [None] is running out of fuel. *)
Fixpoint prune_loop (fuel : nat) (constraints : Constraints) (pins : gmap BlockHash Z) (w : Window)
    (c : CommitSet Key) : option (Window * CommitSet Key) :=
  match fuel with
  | O => None
  | S fuel' =>
      if window_size w <=? default 0 (max_blocks constraints) then Some (w, c)
      else if (match max_mem constraints with Some m => m <? mem_used w | None => false end) then Some (w, c)
      else if (match next_hash w with
               | Some h => bool_decide (is_Some (pins !! h))
               | None => false
               end) then Some (w, c)
      else let '(w', c') := prune_one ord w c in prune_loop fuel' constraints pins w' c'
  end.

Definition prune (s : StateDbSync) (c : CommitSet Key) : option (StateDbSync * CommitSet Key) :=
  match pruning s, mode s with
  | Some w, Constrained constraints =>
      '(w', c') ← prune_loop (S (length (death_rows w))) constraints (sd_pinned s) w c;
      Some (with_window s (Some w'), c')
  | _, _ => Some (s, c)
  end.

Definition is_archive_all (m : PruningMode) : bool := match m with ArchiveAll => true | _ => false end.
Definition is_archive_canonical (m : PruningMode) : bool :=
  match m with ArchiveCanonical => true | _ => false end.

Definition canonicalize_block {E} (s : StateDbSync) (hash : BlockHash) :
    option (StateDbSync * result (Error E) (CommitSet Key)) :=
  if is_archive_all (mode s) then Some (s, Ok commit_default)
  else
    match NonCanonical.canonicalize (E := E) (non_canonical s) hash commit_default with
    | (o, _, Err e) => Some (with_overlay s o, Err e)
    | (o, _, Panic) => Some (with_overlay s o, Panic)
    | (o, c, Ok _) =>
        let c1 :=
          if is_archive_canonical (mode s)
          then MkCommitSet (MkChangeSet (inserted (cs_data c)) []) (cs_meta c)
          else c in
        let s1 := with_overlay s o in
        match
          match pruning s1 with
          | Some w =>
              match note_canonical w hash c1 with
              | Ok (w', c2) => Some (with_window s1 (Some w'), c2)
              | _ => None
              end
          | None => Some (s1, c1)
          end
        with
        | None => Some (s1, Panic)
        | Some (s2, c2) => '(s3, c3) ← prune s2 c2; Some (s3, Ok c3)
        end
    end.

Definition best_canonical (s : StateDbSync) : option Z := last_canonicalized_block_number (non_canonical s).

Definition is_pruned (s : StateDbSync) (hash : BlockHash) (number : Z) : bool :=
  match mode s with
  | ArchiveAll => false
  | ArchiveCanonical | Constrained _ =>
      if match best_canonical s with Some c => c <? number | None => true end
      then negb (NonCanonical.have_block (non_canonical s) hash)
      else
        match pruning s with
        | Some w => (number <? pending w) || negb (Pruning.have_block w hash)
        | None => false
        end
  end.

Definition revert_one (s : StateDbSync) : StateDbSync * option (CommitSet Key) :=
  match mode s with
  | ArchiveAll => (s, Some commit_default)
  | ArchiveCanonical | Constrained _ =>
      let '(o, c) := NonCanonical.revert_one (non_canonical s) in (with_overlay s o, c)
  end.

(** [None] is running out of fuel. *)
Definition pin (s : StateDbSync) (hash : BlockHash) : option (StateDbSync * result PinError unit) :=
  match mode s with
  | ArchiveAll => Some (s, Ok tt)
  | ArchiveCanonical | Constrained _ =>
      if NonCanonical.have_block (non_canonical s) hash ||
         match pruning s with Some w => Pruning.have_block w hash | None => false end
      then
        let refs := default 0 (sd_pinned s !! hash) in
        o ← (if refs =? 0 then NonCanonical.pin (non_canonical s) hash else Some (non_canonical s));
        Some (with_pins (with_overlay s o) (<[hash := refs + 1]> (sd_pinned s)), Ok tt)
      else Some (s, Err PinInvalidBlock)
  end.

Definition unpin (s : StateDbSync) (hash : BlockHash) : option StateDbSync :=
  match sd_pinned s !! hash with
  | Some refs =>
      if refs - 1 =? 0 then
        o ← NonCanonical.unpin (non_canonical s) hash;
        Some (with_pins (with_overlay s o) (delete hash (sd_pinned s)))
      else Some (with_pins s (<[hash := refs - 1]> (sd_pinned s)))
  | None => Some s
  end.

(** The backing database is a parameter of [get]. *)
Definition get {E} (s : StateDbSync) (key : Key) (db : Key → E + option DBValue) :
    result (Error E) (option DBValue) :=
  match NonCanonical.get (non_canonical s) key with
  | Some value => Ok (Some value)
  | None =>
      match db key with
      | inl e => Err (Db e)
      | inr v => Ok v
      end
  end.

Definition apply_pending (s : StateDbSync) : result Empty_set StateDbSync :=
  o ← NonCanonical.apply_pending (non_canonical s);
  match pruning s with
  | Some w => w' ← Pruning.apply_pending ord w; Ok (with_window (with_overlay s o) (Some w'))
  | None => Ok (with_overlay s o)
  end.

Definition revert_pending (s : StateDbSync) : result Empty_set StateDbSync :=
  o ← NonCanonical.revert_pending (non_canonical s);
  Ok (with_overlay (with_window s (Pruning.revert_pending <$> pruning s)) o).
End state_db.
