(* ===== verification/StateDbFacts.v ===== *)
(** * Correctness of the state database

    The states of the blocks that are not pruned can be read: a block's state is
    the set of the trie nodes it needs, and each of them is in the overlay or in
    the database. *)
From stdpp Require Import strings.
From S2P Require Import Prelude StateDbBase Pruning NonCanonical NonCanonicalFacts StateDb.

Local Open Scope Z_scope.

Section facts.
Context {BlockHash Key : Type} `{Countable BlockHash, Countable Key}.
Context `{!Codec unit} `{!Codec Z} `{!Codec (Z * Z)} `{!Codec (BlockHash * Z)}
  `{!Codec (NonCanonical.JournalRecord (BlockHash := BlockHash) (Key := Key))}
  `{!Codec (Pruning.JournalRecord BlockHash Key)}.
Context (ord : gset Key → list Key).
Hypothesis Hord : ∀ s, ord s ≡ₚ elements s.

Abbreviation sync := (StateDbSync (BlockHash := BlockHash) (Key := Key)).
Abbreviation window := (RefWindow BlockHash Key).
Abbreviation record := (Pruning.JournalRecord BlockHash Key).
Abbreviation jr_hash := Pruning.jr_hash.
Abbreviation jr_inserted := Pruning.jr_inserted.
Abbreviation jr_deleted := Pruning.jr_deleted.

(** A block hash determines the number and the parent of the block, the nodes it
    inserts and deletes, and the nodes of its state. *)
Context (val : Key → DBValue) (num : BlockHash → Z) (par : BlockHash → BlockHash)
  (keys dels : BlockHash → list Key) (state : BlockHash → gset Key).

(** The state before the first block. *)
Context (root : BlockHash) (root_empty : state root = ∅).

(** The changes of a block lead from the state of its parent to its own. *)
Record valid (h : BlockHash) : Prop := {
  v_state : ∀ k, k ∈ state h ↔ k ∈ keys h ∨ k ∈ state (par h) ∧ k ∉ dels h;
  v_new : ∀ k, k ∈ keys h → k ∉ state (par h);
  v_old : ∀ k, k ∈ dels h → k ∈ state (par h);
}.

Definition rec (h : BlockHash) : record := Pruning.MkJournalRecord h (keys h) (dels h).

(** ** Canonical chains *)

(** Each block is on top of the one before, the first on top of [base]. *)
Fixpoint chain (base : BlockHash) (cs : list BlockHash) : Prop :=
  match cs with
  | [] => True
  | c :: cs' => par c = base ∧ valid c ∧ chain c cs'
  end.

Fixpoint tip (base : BlockHash) (cs : list BlockHash) : BlockHash :=
  match cs with
  | [] => base
  | c :: cs' => tip c cs'
  end.

Lemma chain_app base cs cs' : chain base (cs ++ cs') ↔ chain base cs ∧ chain (tip base cs) cs'.
Proof. revert base. induction cs as [|c cs IH]; intros base; cbn; [tauto|]. rewrite IH. tauto. Qed.

Lemma tip_app base cs cs' : tip base (cs ++ cs') = tip (tip base cs) cs'.
Proof. revert base. induction cs as [|c cs IH]; intros base; [done|]. apply IH. Qed.

Lemma tip_elem base cs : tip base cs ∈ base :: cs.
Proof. revert base. induction cs as [|c cs IH]; intros base; [by left|]. right. apply IH. Qed.

(** A node that appears along a chain was inserted by one of its blocks. *)
Lemma appears base cs k :
  chain base cs → k ∉ state base → k ∈ state (tip base cs) → ∃ c, c ∈ cs ∧ k ∈ keys c.
Proof.
  revert base. induction cs as [|c cs IH]; intros base Hc Hb Ht; [done|]. destruct Hc as (<-&Hv&Hc).
  cbn [tip] in Ht. destruct (decide (k ∈ state c)) as [Hk|Hk].
  - exists c. split; [by left|]. apply (v_state _ Hv) in Hk as [?|[? _]]; done.
  - destruct (IH c Hc Hk Ht) as (c'&?&?). exists c'. split; [by right|done].
Qed.

(** The nodes that some state of a chain has, the base included. *)
Definition in_states (base : BlockHash) (cs : list BlockHash) (k : Key) : Prop :=
  ∃ h, h ∈ base :: cs ∧ k ∈ state h.

Lemma in_states_cons base c cs k : in_states base (c :: cs) k ↔ k ∈ state base ∨ in_states c cs k.
Proof.
  unfold in_states. split.
  - intros (h&[->|?]%elem_of_cons&?); [by left|right; by exists h].
  - intros [?|(h&?&?)]; [exists base; split; [by left|done]|exists h; split; [by right|done]].
Qed.

(** What a block leaves behind: the nodes it deleted that no later block of the
    chain inserts again. *)
Lemma dead_nodes base c cs k :
  chain base (c :: cs) →
  (k ∈ state base ∧ ¬ in_states c cs k ↔ k ∈ dels c ∧ ∀ c', c' ∈ cs → k ∉ keys c').
Proof.
  intros (<-&Hv&Hc).
  assert (k ∉ state c → (in_states c cs k ↔ ∃ c', c' ∈ cs ∧ k ∈ keys c')) as Hlate.
  { clear Hv. revert c Hc. induction cs as [|c' cs IH]; intros c Hc Hk.
    { unfold in_states. split; [intros (h&->%list_elem_of_singleton&?); done|].
      intros (c'&Hin&_). by apply not_elem_of_nil in Hin. }
    destruct Hc as (<-&Hv'&Hc). rewrite in_states_cons. setoid_rewrite elem_of_cons.
    destruct (decide (k ∈ keys c')) as [Hk'|Hk'].
    - split; [intros _; by exists c'; auto|]. intros _. right. exists c'. split; [by left|].
      apply (v_state _ Hv'). by left.
    - assert (k ∉ state c') as Hn by (intros [?|[? _]]%(v_state _ Hv'); done).
      rewrite (IH c' Hc Hn). split; [intros [?|(c''&?&?)]; [done|exists c''; auto]|].
      intros (c''&[->|?]&?); [done|right; by exists c'']. }
  split.
  - intros [Hb Hn]. assert (k ∉ state c) as Hnc by (intros ?; apply Hn; exists c; split; [by left|done]).
    split; [|intros c' Hin Hk; apply Hn, Hlate; [done|by exists c']].
    destruct (decide (k ∈ dels c)); [done|]. destruct Hnc. apply (v_state _ Hv). by right.
  - intros [Hd Hl]. split; [by apply (v_old _ Hv)|].
    assert (k ∉ state c) as Hnc.
    { intros [Hk|[_ ?]]%(v_state _ Hv); [|done]. by apply (v_new _ Hv k Hk), (v_old _ Hv). }
    rewrite Hlate by done. intros (c'&Hin&Hk). by apply (Hl c' Hin).
Qed.

Lemma chain_alternating base cs : chain base cs → alternating (map rec cs).
Proof.
  intros Hc i j r r' k Hi Hj Hij Hk Hk'. change (map rec cs) with (rec <$> cs) in *.
  rewrite list_lookup_fmap in Hi, Hj.
  destruct (cs !! i) as [ci|] eqn:Hci; [|done]. destruct (cs !! j) as [cj|] eqn:Hcj; [|done].
  injection Hi as <-. injection Hj as <-. cbn in Hk, Hk'.
  rewrite <- (take_drop_middle cs i ci Hci), chain_app in Hc. destruct Hc as [_ (Hp&Hv&Hc)].
  assert (drop (S i) cs !! (j - S i)%nat = Some cj) as Hd by (rewrite lookup_drop; by replace (S i + (j - S i))%nat with j by lia).
  rewrite <- (take_drop_middle _ _ _ Hd), chain_app in Hc. destruct Hc as [Hc (Hp'&Hv'&_)].
  destruct (appears ci (take (j - S i) (drop (S i) cs)) k Hc) as (c&Hin&Hkc).
  - intros [Hks|[_ ?]]%(v_state _ Hv); [|done]. by apply (v_new _ Hv k Hks), (v_old _ Hv).
  - rewrite <- Hp'. by apply (v_old _ Hv').
  - apply list_elem_of_lookup in Hin as [l Hl]. apply lookup_take_Some in Hl as [Hl Hlt].
    rewrite lookup_drop in Hl. exists (S i + l)%nat, (rec c). split_and!; [lia|lia| |done].
    rewrite list_lookup_fmap, Hl. done.
Qed.

(** ** Pruning *)

Lemma window_rows ex (w : window) rs i r :
  window_ok ex w rs → rs !! i = Some r → dr_hash <$> death_rows w !! i = Some (jr_hash r).
Proof.
  intros Hw Hr. pose proof (wo_rows _ _ _ Hw) as Hrows.
  destruct (lookup_lt_is_Some_2 (rows_of (pending_number w) rs) i) as [b Hb].
  { rewrite rows_of_length. by eapply lookup_lt_Some. }
  destruct (Forall2_lookup_r _ _ _ _ _ Hrows Hb) as (row&->&Hm&_).
  apply rows_of_lookup in Hb as (r'&Hr'&->). cbn in *. congruence.
Qed.

Lemma window_length ex (w : window) rs : window_ok ex w rs → length (death_rows w) = length rs.
Proof.
  intros Hw. rewrite <- (rows_of_length (pending_number w) rs). apply (Forall2_length _ _ _ (wo_rows _ _ _ Hw)).
Qed.

(** What pruning the records from [q] up to [n] deletes. *)
Definition deletes (ex : bool) (rs : list record) (q n : nat) (ks : list Key) : Prop :=
  (∀ k, k ∈ ks → ∃ i r, (q ≤ i < n)%nat ∧ rs !! i = Some r ∧ k ∈ jr_deleted r ∧
     k ∉ reinserted (drop (S i) rs)) ∧
  (ex = true → ∀ i r k, (q ≤ i < n)%nat → rs !! i = Some r → k ∈ jr_deleted r →
     k ∉ reinserted (drop (S i) rs) → k ∈ ks).

Lemma deletes_step ex rs q n ks ks' r :
  rs !! q = Some r → (q < n)%nat →
  (∀ k, k ∈ ks → k ∈ jr_deleted r ∧ k ∉ reinserted (drop (S q) rs)) →
  (ex = true → ∀ k, k ∈ jr_deleted r → k ∉ reinserted (drop (S q) rs) → k ∈ ks) →
  deletes ex rs (S q) n ks' → deletes ex rs q n (ks ++ ks').
Proof.
  intros Hr Hq Hsub Hex [Hs He]. split.
  - intros k [Hk|Hk]%elem_of_app.
    + destruct (Hsub k Hk). exists q, r. split_and!; [lia|lia|done..].
    + destruct (Hs k Hk) as (i&r'&?&?&?&?). exists i, r'. split_and!; [lia|lia|done..].
  - intros Ht i r' k Hi Hr' Hk Hn. apply elem_of_app. destruct (decide (i = q)) as [->|].
    + assert (r' = r) as -> by congruence. left. auto.
    + right. apply (He Ht i r'); [lia|done..].
Qed.

(** The loop ends with a window that is small enough, or at a pinned block; it
    prunes no pinned block and no block of a window that is small enough. *)
Lemma prune_loop_ok ex constraints pins rs fuel w c :
  max_mem constraints = None → 0 ≤ default 0 (max_blocks constraints) → Z.of_nat (length rs) < 2 ^ 64 →
  window_ok ex w rs → (length rs - pending_prunings w < fuel)%nat →
  ∃ n ks w' c', prune_loop ord fuel constraints pins w c = Some (w', c') ∧
    (pending_prunings w ≤ n ≤ length rs)%nat ∧ pending_prunings w' = n ∧ window_ok ex w' rs ∧
    pending_number w' = pending_number w ∧
    Pruning.pending_canonicalizations w' = Pruning.pending_canonicalizations w ∧
    cs_data c' = MkChangeSet (inserted (cs_data c)) (deleted (cs_data c) ++ ks) ∧
    deletes ex rs (pending_prunings w) n ks ∧
    (Z.of_nat (length rs - n) ≤ default 0 (max_blocks constraints) ∨
     ∃ r, rs !! n = Some r ∧ is_Some (pins !! jr_hash r)) ∧
    ∀ i r, (pending_prunings w ≤ i < n)%nat → rs !! i = Some r →
      pins !! jr_hash r = None ∧ default 0 (max_blocks constraints) < Z.of_nat (length rs - i).
Proof using Hord.
  intros Hmem Hmax Hlen. revert w c. induction fuel as [|fuel IH]; intros w c Hw Hf; [lia|].
  cbn [prune_loop]. rewrite Hmem. pose proof (wo_prune _ _ _ Hw) as Hp.
  pose proof (window_length _ _ _ Hw) as Hwl.
  assert (window_size w = Z.of_nat (length rs - pending_prunings w)) as ->.
  { unfold window_size. rewrite Hwl. rewrite wrap_small by (unfold fits; lia). lia. }
  destruct (Z.leb_spec (Z.of_nat (length rs - pending_prunings w)) (default 0 (max_blocks constraints))) as [Hle|Hgt].
  { exists (pending_prunings w), [], w, c. split_and!; try done; [| |by left|intros; lia].
    - rewrite app_nil_r. by destruct (cs_data c).
    - split; [intros k Hk; by apply not_elem_of_nil in Hk|intros _ i r k ?; lia]. }
  destruct (lookup_lt_is_Some_2 rs (pending_prunings w)) as [r Hr]; [lia|].
  unfold next_hash. rewrite (window_rows _ _ _ _ _ Hw Hr). case_bool_decide as Hpin.
  { exists (pending_prunings w), [], w, c. split_and!; try done; [| | |intros; lia].
    - rewrite app_nil_r. by destruct (cs_data c).
    - split; [intros k Hk; by apply not_elem_of_nil in Hk|intros _ i r' k ?; lia].
    - right. by exists r. }
  destruct (prune_one_window ord Hord ex w rs c r Hw Hr) as (ks&Heq&Hw'&Hsub&Hex).
  rewrite Heq in *. cbn [fst] in Hw'.
  match type of Hw' with window_ok _ ?x _ => destruct (IH x (MkCommitSet
    (MkChangeSet (inserted (cs_data c)) (deleted (cs_data c) ++ ks))
    (MkChangeSet (inserted (cs_meta c) ++ [(to_meta_key LAST_PRUNED tt, encode (pending w))])
       (deleted (cs_meta c) ++ [Pruning.to_journal_key (pending w)]))) Hw')
    as (n&ks'&w'&c'&->&Hn&Hn'&Hw''&Hnum&Hcan&Hdata&Hdel&Hstop&Hpr) end; [cbn; lia|].
  cbn [pending_prunings pending_number Pruning.pending_canonicalizations cs_data inserted deleted] in *.
  exists n, (ks ++ ks'), w', c'. split_and!; try done; [lia|lia|by rewrite Hdata, app_assoc|by eapply deletes_step; [|lia|..]|].
  intros i r' Hi Hr'. destruct (decide (i = pending_prunings w)) as [->|].
  - assert (r' = r) as -> by congruence. split; [|lia]. by apply eq_None_not_Some.
  - apply Hpr; [lia|done].
Qed.

(** ** What pruning deletes *)

#[export] Instance in_states_dec base cs k : Decision (in_states base cs k).
Proof.
  refine (cast_if (decide (Exists (λ h, k ∈ state h) (base :: cs)))); unfold in_states;
    rewrite <- Exists_exists; done.
Defined.

(** Pruned with one of the first [n] blocks. *)
Definition dead (cs : list BlockHash) (n : nat) (k : Key) : Prop :=
  ∃ i c, (i < n)%nat ∧ cs !! i = Some c ∧ k ∈ dels c ∧ ∀ c', c' ∈ drop (S i) cs → k ∉ keys c'.

Lemma dead_cons c cs n k :
  dead (c :: cs) (S n) k ↔ (k ∈ dels c ∧ ∀ c', c' ∈ cs → k ∉ keys c') ∨ dead cs n k.
Proof.
  split.
  - intros ([|i]&c'&Hi&Hc&Hk&Hl).
    + injection Hc as ->. left. split; [done|]. by rewrite <- (drop_0 cs).
    + right. exists i, c'. split_and!; [lia|done..].
  - intros [[Hk Hl]|(i&c'&Hi&Hc&Hk&Hl)].
    + exists 0%nat, c. split_and!; [lia|done|done|]. cbn. by rewrite drop_0.
    + exists (S i), c'. split_and!; [lia|done..].
Qed.

Lemma live_states base cs n k :
  chain base cs → (n ≤ length cs)%nat →
  in_states (tip base (take n cs)) (drop n cs) k ↔ in_states base cs k ∧ ¬ dead cs n k.
Proof.
  revert base n. induction cs as [|c cs IH]; intros base n Hc Hn.
  { destruct n; [|cbn in Hn; lia]. cbn. split; [|tauto]. intros ?. split; [done|].
    intros (i&c&?&?&_). lia. }
  destruct n as [|n]; cbn [take drop tip].
  { split; [|tauto]. intros ?. split; [done|]. intros (i&c'&?&_). lia. }
  pose proof (dead_nodes base c cs k Hc) as Hdead. destruct Hc as (Hp&Hv&Hc).
  rewrite (IH c n Hc) by (cbn in Hn; lia). rewrite in_states_cons, dead_cons, <- Hdead.
  destruct (decide (in_states c cs k)); tauto.
Qed.

Lemma rec_drop n cs : map rec (drop n cs) = drop n (map rec cs).
Proof. apply (fmap_drop rec). Qed.

Lemma elem_of_reinserted cs k : k ∈ reinserted (map rec cs) ↔ ∃ c, c ∈ cs ∧ k ∈ keys c.
Proof.
  unfold reinserted. rewrite elem_of_list_to_set, list_elem_of_In, in_flat_map.
  setoid_rewrite in_map_iff. split.
  - intros (r&(c&<-&Hc)&Hk). exists c. by rewrite !list_elem_of_In.
  - intros (c&Hc&Hk). exists (rec c). rewrite !list_elem_of_In in *. split; [by exists c|done].
Qed.

Lemma deletes_dead ex cs n ks k :
  deletes ex (map rec cs) 0 n ks → (k ∈ ks → dead cs n k) ∧ (ex = true → dead cs n k → k ∈ ks).
Proof.
  intros [Hs He]. split.
  - intros Hk. destruct (Hs k Hk) as (i&r&Hi&Hr&Hd&Hn). change (map rec cs) with (rec <$> cs) in Hr.
    rewrite list_lookup_fmap in Hr. destruct (cs !! i) as [c|] eqn:Hc; [|done]. injection Hr as <-.
    exists i, c. split_and!; [lia|done|done|]. intros c' Hc' Hk'. apply Hn.
    rewrite <- rec_drop. apply elem_of_reinserted. by exists c'.
  - intros Ht (i&c&Hi&Hc&Hd&Hn). apply (He Ht i (rec c)); [lia| |done|].
    + change (map rec cs) with (rec <$> cs). rewrite list_lookup_fmap, Hc. done.
    + rewrite <- rec_drop, elem_of_reinserted. intros (c'&Hc'&Hk). by apply (Hn c' Hc').
Qed.

Definition put_keys (h : BlockHash) : list (Key * DBValue) := map (λ k, (k, val k)) (keys h).

Lemma put_keys_lookup D h k :
  (k ∈ keys h → put_all D (put_keys h) !! k = Some (val k)) ∧
  (k ∉ keys h → put_all D (put_keys h) !! k = D !! k).
Proof.
  unfold put_keys. split.
  - generalize (keys h) as l. intros l. revert D. induction l as [|k' l IH] using rev_ind; intros D Hk;
      [by apply not_elem_of_nil in Hk|].
    rewrite map_app, put_all_app. unfold put_all at 1. cbn [map foldl fst snd]. rewrite lookup_insert.
    case_decide as Heq; [by rewrite Heq|]. apply IH. apply elem_of_app in Hk as [|Hk%list_elem_of_singleton]; congruence.
  - intros Hk. apply lookup_put_all. rewrite map_map. cbn. by rewrite map_id.
Qed.

(** The states that are left after a block is canonicalized and [n] are pruned. *)
Lemma data_step ex base cs h n ks D :
  chain base (cs ++ [h]) → (n ≤ length (cs ++ [h]))%nat → deletes ex (map rec (cs ++ [h])) 0 n ks →
  (∀ k, in_states base cs k → D !! k = Some (val k)) →
  (ex = true → ∀ k v, D !! k = Some v → in_states base cs k) →
  let D' := apply_changes D (MkChangeSet (put_keys h) ks) in
  let l := cs ++ [h] in
  (∀ k, in_states (tip base (take n l)) (drop n l) k → D' !! k = Some (val k)) ∧
  (ex = true → ∀ k v, D' !! k = Some v → in_states (tip base (take n l)) (drop n l) k).
Proof.
  intros Hc Hn Hdel Hdata Hexact D' l.
  assert (∀ k, in_states base l k ↔ in_states base cs k ∨ k ∈ keys h) as Hl.
  { intros k. apply chain_app in Hc as [_ (Hp&Hv&_)]. unfold l, in_states. split.
    - intros (x&[->|[Hx| ->%list_elem_of_singleton]%elem_of_app]%elem_of_cons&Hk).
      + left. exists base. split; [by left|done].
      + left. exists x. split; [by right|done].
      + apply (v_state _ Hv) in Hk as [?|[Hk _]]; [by right|]. left. exists (tip base cs).
        split; [apply tip_elem|]. by rewrite <- Hp.
    - intros [(x&[->|?]%elem_of_cons&?)|?].
      + exists base. split; [by left|done].
      + exists x. split; [right; apply elem_of_app; by left|done].
      + exists h. split; [right; apply elem_of_app; right; by left|]. apply (v_state _ Hv). by left. }
  assert (∀ k, D' !! k = if decide (k ∈ ks) then None else put_all D (put_keys h) !! k) as HD'.
  { intros k. unfold D', apply_changes. cbn [inserted deleted]. apply lookup_delete_all. }
  split.
  - intros k Hk. apply (live_states base l n k Hc Hn) in Hk as [Hk Hd]. rewrite HD', decide_False.
    + destruct (put_keys_lookup D h k) as [H1 H2]. destruct (decide (k ∈ keys h)); [auto|].
      rewrite H2 by done. apply Hdata. apply Hl in Hk. tauto.
    + intros Hin. by apply Hd, (deletes_dead ex l n ks k Hdel).
  - intros Ht k v Hk. rewrite HD' in Hk. case_decide as Hin; [done|].
    apply (live_states base l n k Hc Hn). split.
    + apply Hl. destruct (put_keys_lookup D h k) as [_ H2]. destruct (decide (k ∈ keys h)); [by right|].
      rewrite H2 in Hk by done. left. by eapply Hexact.
    + intros Hd. by apply Hin, (deletes_dead ex l n ks k Hdel).
Qed.

(** ** Invariant *)

Definition block_ok (ov : BlockOverlay (BlockHash := BlockHash) (Key := Key)) : Prop :=
  bo_deleted ov = dels (bo_hash ov) ∧ valid (bo_hash ov).

(** Between two transactions: [cs] are the canonical blocks, the first [p] of
    them pruned, and [D] is the column of the trie nodes.  With [ex] the column
    has nothing else. *)
Record consistent (ex : bool) (s : sync) (D : gmap Key DBValue) (p : nat) (cs : list BlockHash) : Prop := {
  c_wf : wf val num par keys (non_canonical s);
  c_canon : NonCanonical.pending_canonicalizations (non_canonical s) = [];
  c_ins : pending_insertions (non_canonical s) = [];
  c_blocks : Forall block_ok (concat (levels (non_canonical s)));
  c_linked : linked par (λ h, h = tip root cs) (levels (non_canonical s));
  c_last : last_canonicalized (non_canonical s) =
    match cs with [] => None | _ => Some (tip root cs, Z.of_nat (length cs) - 1) end;
  c_chain : chain root cs;
  c_pruned : (p ≤ length cs)%nat;
  c_window : ∃ w, pruning s = Some w ∧ window_ok ex w (map rec (drop p cs)) ∧
    pending_number w = Z.of_nat p ∧ Pruning.pending_canonicalizations w = 0%nat ∧ pending_prunings w = 0%nat;
  c_data : ∀ k, in_states (tip root (take p cs)) (drop p cs) k → D !! k = Some (val k);
  c_numbers : ∀ i c, cs !! i = Some c → num c = Z.of_nat i;
  c_exact : ex = true → ∀ k v, D !! k = Some v → in_states (tip root (take p cs)) (drop p cs) k;
}.

(** The mode the invariant is for. *)
Definition constrained (s : sync) : Prop :=
  ∃ constraints, mode s = Constrained constraints ∧ max_mem constraints = None ∧
    0 ≤ default 0 (max_blocks constraints).

(** The invariant does not depend on how the rest of the overlay changes. *)
Lemma consistent_overlay ex s D p cs o' :
  consistent ex s D p cs → wf val num par keys o' →
  NonCanonical.pending_canonicalizations o' = [] → pending_insertions o' = [] →
  last_canonicalized o' = last_canonicalized (non_canonical s) →
  Forall block_ok (concat (levels o')) → linked par (λ h, h = tip root cs) (levels o') →
  consistent ex (with_overlay s o') D p cs.
Proof. intros [] ? ? ? Hl ? ?. constructor; cbn; try done. by rewrite Hl. Qed.

(** *** Inserting *)

(** What the caller knows of a block. *)
Record new_block (s : sync) (hash : BlockHash) (number : Z) (parent_hash : BlockHash)
    (changeset : ChangeSet Key) : Prop := {
  nb_insertable : insertable val num par keys (non_canonical s) hash number parent_hash changeset;
  nb_deleted : deleted changeset = dels hash;
  nb_valid : valid hash;
  nb_first : number = 0 → parent_hash = root;
  nb_start : last_canonicalized (non_canonical s) = None → levels (non_canonical s) = [] → number = 0;
}.

Lemma inserted_blocks {E} ex s D p cs hash number parent_hash changeset o' c :
  consistent ex s D p cs → new_block s hash number parent_hash changeset →
  NonCanonical.insert (E := E) (non_canonical s) hash number parent_hash changeset = (o', Ok c) →
  wf val num par keys o' ∧ last_canonicalized o' = last_canonicalized (non_canonical s) ∧
  NonCanonical.pending_canonicalizations o' = [] ∧ pending_insertions o' = [hash] ∧
  Forall block_ok (concat (levels o')) ∧ linked par (λ h, h = tip root cs) (levels o') ∧
  cs_data c = MkChangeSet [] [].
Proof.
  intros Hc [Hi Hd Hv Hf Hs0] Hins. destruct Hc as [Hw Hpc Hpi Hb Hlk Hlast _ _ _ _ _ _].
  pose proof (insert_ok val num par keys (E := E) _ _ _ _ _ Hw Hi) as Ho. rewrite Hins in Ho.
  destruct Ho as (Hw'&_&(o1&meta&Hchk&Hla&Hlv&->)&Hpi'&Hpc'&_). cbn zeta in Hlv.
  destruct (check_insert_ok val num par keys _ _ _ _ _ _ _ Hw Hi Hchk) as (Hlv1&Ho1&Hw1&Hi1&Hrange&Hrest&_).
  rewrite Hlv1 in *.
  assert (last_canonicalized o1 = last_canonicalized (non_canonical s)) as Hla1.
  { pose proof (check_insert_spec (E := E) (non_canonical s) number parent_hash) as Hsp. rewrite Hchk in Hsp.
    destruct (last_canonicalized (non_canonical s)) as [[h n]|] eqn:Hl; [by destruct Hsp as [-> _]|].
    unfold check_insert in Hchk. rewrite Hl in Hchk. destruct (levels (non_canonical s)) eqn:Hlev.
    - rewrite Hs0 in Hchk by done. by injection Hchk as <- <-.
    - by injection Hchk as <- <-. }
  assert (place_le : (position_of o1 number ≤ length (levels (non_canonical s)))%nat)
    by (unfold position_of; lia).
  split_and!; [done|congruence|by rewrite Hpc'|by rewrite Hpi', Hpi| | |done].
  - rewrite Hlv, place_concat by done. constructor; [|done]. by split.
  - rewrite Hlv. apply linked_place; [done|]. cbn [new_overlay bo_hash]. rewrite (i_par _ _ _ _ _ _ _ _ _ Hi).
    destruct (position_of o1 number) as [|j] eqn:Hpos; [|done]. cbn [rests_on] in *.
    unfold before in Hrest. rewrite Hla1, Hlast in Hrest. destruct cs as [|c0 cs]; [|done].
    apply Hf. unfold position_of, front_block_number in *. rewrite Hla1, Hlast in *. lia.
Qed.

(** The levels without the blocks of a reverted transaction. *)
Lemma without_blocks pend ls ls' k :
  ls' ++ replicate k [] = without pend ls → Forall block_ok (concat ls) → Forall block_ok (concat ls').
Proof.
  intros Hk Hb. rewrite <- (concat_app_nil ls' k), Hk. unfold without. rewrite Forall_forall in *.
  intros ov Hov. apply Hb. apply list_elem_of_In, in_concat in Hov as (l&Hl&Hov).
  apply in_map_iff in Hl as (l0&<-&Hl0). rewrite <- list_elem_of_In in Hov.
  apply list_elem_of_filter in Hov as [_ Hov]. apply list_elem_of_In, in_concat.
  exists l0. by rewrite <- !list_elem_of_In in *.
Qed.

Lemma without_linked (P Q : BlockHash → Prop) pend
    (ls ls' : list (list (BlockOverlay (BlockHash := BlockHash) (Key := Key)))) k :
  linked par Q ls' → ls' ++ replicate k [] = without pend ls → linked par P ls → linked par P ls'.
Proof.
  destruct ls' as [|l' ls']; [done|]. intros [_ Hl'] Hk Hl. destruct ls as [|l ls]; [done|].
  injection Hk as -> _. destruct Hl as [Hl _]. split; [|done]. rewrite Forall_forall in *.
  intros ov [_ Hov]%list_elem_of_filter. auto.
Qed.

Lemma insert_consistent {E} ex s D p cs hash number parent_hash changeset :
  consistent ex s D p cs → constrained s → new_block s hash number parent_hash changeset →
  match insert_block (E := E) s hash number parent_hash changeset with
  | (s1, Ok c) => cs_data c = MkChangeSet [] [] ∧
      (∃ s2, apply_pending ord s1 = Ok s2 ∧ consistent ex s2 D p cs ∧ mode s2 = mode s) ∧
      (∃ s2, revert_pending s1 = Ok s2 ∧ consistent ex s2 D p cs ∧ mode s2 = mode s)
  | (s1, Err _) => s1 = s
  | (_, Panic) => False
  end.
Proof using Hord.
  intros Hc (constraints&Hmode&_) Hnb. unfold insert_block. rewrite Hmode.
  pose proof (insert_ok val num par keys (E := E) _ _ _ _ _ (c_wf _ _ _ _ _ Hc) (nb_insertable _ _ _ _ _ Hnb)) as Ho.
  destruct (NonCanonical.insert _ hash number parent_hash changeset) as [o' [c|e|]] eqn:Hins;
    cbn [mbind result_bind]; [|destruct Ho as [-> _]; by destruct s|done].
  destruct (inserted_blocks _ _ _ _ _ _ _ _ _ _ _ Hc Hnb Hins) as (Hw&Hla&Hpc&Hpi&Hb&Hlk&Hdata).
  pose proof Hc as [_ _ _ _ _ _ _ _ (w&Hwin&Hwok&Hnum&Hcan&Hpru) _ _ _]. split; [done|]. split.
  - unfold apply_pending. cbn [non_canonical with_overlay pruning].
    destruct (apply_pending_ok val num par keys o' Hw) as (o''&Happ&Hw'&Hpc'&Hpi'&_&_&_&_&Hl).
    rewrite Hpc in Hl. cbn in Hl. destruct Hl as [Hla' Hlv'].
    rewrite Happ, Hwin. cbn [mbind result_bind].
    destruct (window_apply_ok ord Hord ex w _ Hwok) as (w'&->&Hwok'&Hnum'&Hcan'&Hpru').
    cbn [mbind result_bind]. eexists. split; [done|]. split; [|done].
    rewrite Hpru, drop_0 in Hwok'. unfold pending in Hnum'. rewrite Hpru in Hnum'.
    pose proof (consistent_overlay _ _ _ _ _ o'' Hc Hw' Hpc' Hpi') as Hc'.
    destruct Hc' as []; [congruence|by rewrite Hlv'|by rewrite Hlv'|].
    constructor; cbn; try done. exists w'. split_and!; [done|done|lia|done|done].
  - unfold revert_pending. cbn [non_canonical with_overlay pruning mode with_window].
    destruct (revert_pending_ok val num par keys o' Hw) as (o''&k&Hrev&Hw'&Hpc'&Hpi'&Hla'&_&_&Hlv').
    rewrite Hrev, Hwin. cbn [mbind result_bind fmap option_fmap option_map].
    eexists. split; [done|]. split; [|done].
    pose proof (window_revert_ok ord Hord ex w _ Hwok) as (Hwok'&Hnum'&Hcan'&Hpru').
    rewrite Hcan, Nat.sub_0_r, take_ge, bool_decide_true, andb_true_r in Hwok' by done.
    pose proof (consistent_overlay _ _ _ _ _ o'' Hc Hw' Hpc' Hpi') as Hc'.
    destruct Hc' as []; [congruence|by eapply without_blocks|eapply without_linked; [apply Hw'|done|done]|].
    constructor; cbn; try done. exists (Pruning.revert_pending w). split_and!; [done|done|lia|done|done].
Qed.

(** *** Canonicalizing *)

Lemma consistent_front ex s D p cs : consistent ex s D p cs → front_block_number (non_canonical s) = Z.of_nat (length cs).
Proof. intros Hc. unfold front_block_number. rewrite (c_last _ _ _ _ _ Hc). destruct cs; cbn [length]; lia. Qed.

Lemma consistent_weaken ex s D p cs : consistent ex s D p cs → consistent false s D p cs.
Proof.
  intros [? ? ? ? ? ? ? ? (w&Hw&[Hr ? ? ? ?]&?&?&?) ? ? ?]. constructor; try done. exists w. split_and!; [done| |done..].
  constructor; try done. eapply Forall2_impl; [exact Hr|]. intros a b (?&?&?&?). unfold row_match. split_and!; done.
Qed.

(** The part of [canonicalize_block] on the overlay. *)
Lemma canonicalize_overlay {E} ex s D p cs hash :
  consistent ex s D p cs →
  match NonCanonical.canonicalize (E := E) (non_canonical s) hash commit_default with
  | (o', c, Ok _) => o' = set_pending_canonicalizations (non_canonical s) [hash] ∧
      wf val num par keys o' ∧ par hash = tip root cs ∧ valid hash ∧
      cs_data c = MkChangeSet (put_keys hash) (dels hash) ∧
      ∃ level rest, levels (non_canonical s) = level :: rest ∧ hash ∈ map bo_hash level
  | (o', _, Err e) => o' = non_canonical s ∧ e = InvalidBlock ∧
      hash ∉ map bo_hash (default [] (head (levels (non_canonical s))))
  | (_, _, Panic) => False
  end.
Proof.
  intros Hc. pose proof Hc as [Hw Hpc Hpi Hb Hlk Hlast Hch _ _ _ _ _].
  pose proof (canonicalize_ok val num par keys (E := E) _ hash commit_default Hw) as Hok.
  rewrite Hpc in Hok. cbn zeta in Hok. cbn [length app] in Hok.
  destruct (NonCanonical.canonicalize _ hash commit_default) as [[o' c] [u|e|]]; [| |done].
  - destruct Hok as (->&Hwf&level&ov&ovs&Hl&Hov&Hh&_&Hd&_).
    destruct (levels (non_canonical s)) as [|l0 rest] eqn:Hlv; [done|]. injection Hl as ->.
    destruct Hlk as [Hpar _]. rewrite Forall_forall in Hpar. specialize (Hpar ov Hov). cbn beta in Hpar.
    rewrite Hh in Hpar.
    assert (block_ok ov) as [Hdel Hval].
    { rewrite Forall_forall in Hb. apply Hb. cbn [concat]. apply elem_of_app. by left. }
    assert (bo_inserted ov = keys hash) as Hkeys.
    { pose proof (s_live_keys _ _ _ _ _ _ (w_store _ _ _ _ _ Hw)) as Hk. rewrite Forall_forall in Hk.
      rewrite <- Hh. apply Hk. rewrite Hlv. cbn [concat]. apply elem_of_app. by left. }
    split_and!; [done| |done|by rewrite <- Hh| |].
    + apply Hwf. unfold continues. rewrite Hpc. cbn [last]. unfold before. rewrite Hlast. by destruct cs.
    + rewrite Hd, Hkeys, Hdel, Hh. done.
    + exists level, rest. split; [done|]. rewrite <- Hh. by apply list_elem_of_fmap_2.
  - destruct Hok as (->&_&->&Hn). split_and!; [done|done|]. by destruct (levels (non_canonical s)).
Qed.

Lemma chain_window cs p h :
  chain root cs → par h = tip root cs → valid h → (p ≤ length cs)%nat →
  chain (tip root (take p cs)) (drop p cs ++ [h]).
Proof.
  intros Hc Hp Hv Hlen. rewrite <- (take_drop p cs), chain_app in Hc. destruct Hc as [_ Hc].
  rewrite chain_app. split; [done|]. cbn. split_and!; [|done|done].
  rewrite Hp, <- tip_app, take_drop. done.
Qed.

(** The whole of [canonicalize_block]: what is pruned, and the commit. *)
Lemma canonicalize_block_ok {E} ex s D p cs hash constraints :
  consistent ex s D p cs → mode s = Constrained constraints → max_mem constraints = None →
  0 ≤ default 0 (max_blocks constraints) → Z.of_nat (S (length cs)) < 2 ^ 64 →
  let rs := map rec (drop p cs ++ [hash]) in
  ∃ s1 r, canonicalize_block ord (E := E) s hash = Some (s1, r) ∧
  match r with
  | Ok c => ∃ n ks w,
      s1 = with_window (with_overlay s (set_pending_canonicalizations (non_canonical s) [hash])) (Some w) ∧
      wf val num par keys (non_canonical s1) ∧ par hash = tip root cs ∧ valid hash ∧
      (∃ level rest, levels (non_canonical s) = level :: rest ∧ hash ∈ map bo_hash level) ∧
      (n ≤ length rs)%nat ∧ pending_prunings w = n ∧ window_ok ex w rs ∧
      pending_number w = Z.of_nat p ∧ Pruning.pending_canonicalizations w = 1%nat ∧
      cs_data c = MkChangeSet (put_keys hash) ks ∧ deletes ex rs 0 n ks ∧
      (Z.of_nat (length rs - n) ≤ default 0 (max_blocks constraints) ∨
       ∃ r, rs !! n = Some r ∧ is_Some (sd_pinned s !! jr_hash r)) ∧
      ∀ i r, (i < n)%nat → rs !! i = Some r →
        sd_pinned s !! jr_hash r = None ∧ default 0 (max_blocks constraints) < Z.of_nat (length rs - i)
  | Err e => s1 = s ∧ e = InvalidBlock ∧ hash ∉ map bo_hash (default [] (head (levels (non_canonical s))))
  | Panic => False
  end.
Proof using Hord.
  intros Hc Hmode Hmem Hmax Hlen rs. unfold canonicalize_block. rewrite Hmode. cbn [is_archive_all is_archive_canonical].
  pose proof (canonicalize_overlay (E := E) _ _ _ _ _ hash Hc) as Ho.
  destruct (NonCanonical.canonicalize _ hash commit_default) as [[o' c] [u|e|]]; [| |done]; cycle 1.
  { destruct Ho as (->&->&Hn). eexists _, _. split; [done|]. split_and!; [by destruct s|done|done]. }
  destruct Ho as (->&Hw&Hpar&Hval&Hdata&Hlevel).
  pose proof Hc as [_ _ _ _ _ _ Hch Hp (w&Hwin&Hwok&Hnum&Hcan&Hpru) _ _ _].
  cbn [pruning with_overlay]. rewrite Hwin.
  assert (Pruning.record_of hash c = rec hash) as Hrec.
  { unfold Pruning.record_of, rec. rewrite Hdata. cbn [inserted deleted]. unfold put_keys.
    rewrite map_map. cbn. by rewrite map_id. }
  assert (map rec (drop p cs) ++ [Pruning.record_of hash c] = rs) as Hrs by (unfold rs; by rewrite map_app, Hrec).
  destruct (note_canonical_window ord Hord ex w (map rec (drop p cs)) hash c Hwok) as (w1&c1&->&Hw1&Hd1&Hn1&Hp1&Hc1).
  { rewrite Hrs. eapply chain_alternating. by apply chain_window. }
  rewrite Hrs in Hw1. unfold prune. cbn [pruning with_window mode with_overlay sd_pinned]. rewrite Hmode.
  destruct (prune_loop_ok ex constraints (sd_pinned s) rs (S (length (death_rows w1))) w1 c1)
    as (n&ks&w2&c2&->&Hn&Hpn&Hw2&Hn2&Hc2&Hd2&Hdel&Hstop&Hpr); try done.
  { unfold rs. rewrite length_map, length_app, length_drop. cbn [length]. lia. }
  { rewrite (window_length _ _ _ Hw1). lia. }
  cbn [mbind option_bind]. eexists _, _. split; [done|]. exists n, ks, w2.
  rewrite Hp1, Hpru in Hdel, Hpr. split_and!; try done; [lia|congruence|congruence|..].
  - rewrite Hd2, Hd1, Hdata. done.
  - intros i r Hi Hr. apply Hpr; [lia|done].
Qed.

Lemma drop_pruned cs p n (h : BlockHash) :
  (p ≤ length cs)%nat → drop (p + n) (cs ++ [h]) = drop n (drop p cs ++ [h]).
Proof. intros Hp. rewrite <- drop_drop, drop_app_le by lia. done. Qed.

Lemma tip_pruned cs p n (h : BlockHash) :
  (p ≤ length cs)%nat → tip root (take (p + n) (cs ++ [h])) = tip (tip root (take p cs)) (take n (drop p cs ++ [h])).
Proof.
  intros Hp. rewrite <- tip_app. f_equal. rewrite <- (take_drop p cs) at 1. rewrite <- app_assoc.
  rewrite take_app_ge by (rewrite length_take; lia). rewrite length_take. do 2 f_equal. lia.
Qed.

Lemma sublist_blocks (l l' : list (BlockOverlay (BlockHash := BlockHash) (Key := Key))) :
  sublist l l' → Forall block_ok l' → Forall block_ok l.
Proof. intros Hs. rewrite !Forall_forall. intros Hb ov Hov. apply Hb. by eapply elem_of_sublist. Qed.

Lemma keep_blocks_ok K ls : Forall block_ok (concat ls) → Forall block_ok (concat (keep par K ls)).
Proof. intros Hb. eapply sublist_blocks; [apply keep_sublist|done]. Qed.

(** A transaction that canonicalizes a block. *)
Lemma canonicalize_consistent {E} ex s D p cs hash s1 c :
  consistent ex s D p cs → constrained s → Z.of_nat (S (length cs)) < 2 ^ 64 →
  canonicalize_block ord (E := E) s hash = Some (s1, Ok c) →
  (∃ s2 w, apply_pending ord s1 = Ok s2 ∧ pruning s1 = Some w ∧ mode s2 = mode s ∧
     consistent ex s2 (apply_changes D (cs_data c)) (p + pending_prunings w) (cs ++ [hash])) ∧
  (∃ s2, revert_pending s1 = Ok s2 ∧ consistent false s2 D p cs ∧ mode s2 = mode s).
Proof using Hord.
  intros Hc (constraints&Hmode&Hmem&Hmax) Hlen Hrun.
  destruct (canonicalize_block_ok (E := E) _ _ _ _ _ hash _ Hc Hmode Hmem Hmax Hlen) as (s1'&r&Hrun'&Hr).
  rewrite Hrun in Hrun'. injection Hrun' as <- <-.
  destruct Hr as (n&ks&w&->&Hw&Hpar&Hval&(level&rest&Hlv&Hin)&Hn&Hpn&Hwok&Hnum&Hcan&Hdata&Hdel&_&_).
  set (rs := map rec (drop p cs ++ [hash])) in *. cbn [non_canonical with_overlay with_window] in Hw.
  pose proof Hc as [_ Hpc Hpi Hb Hlk Hlast Hch Hp _ Hdt Hcn Hex].
  assert (chain (tip root (take p cs)) (drop p cs ++ [hash])) as Hchain by (by apply chain_window).
  assert (length rs = S (length cs - p)) as Hrsl.
  { unfold rs. rewrite length_map, length_app, length_drop. cbn [length]. lia. }
  split.
  - destruct (apply_pending_ok val num par keys _ Hw) as (o''&Happ&Hw'&Hpc'&Hpi'&_&_&_&Hf&Hl).
    cbn [NonCanonical.pending_canonicalizations set_pending_canonicalizations last length levels] in Hl, Hf.
    destruct Hl as [Hlh Hlv']. rewrite Hlv in Hlv'. cbn [drop] in Hlv'. rewrite drop_0 in Hlv'.
    destruct (window_apply_ok ord Hord ex w _ Hwok) as (w'&Hwapp&Hwok'&Hnum'&Hcan'&Hpru').
    unfold apply_pending. cbn [non_canonical with_overlay with_window pruning]. rewrite Happ.
    cbn [mbind result_bind]. rewrite Hwapp. cbn [mbind result_bind].
    eexists _, w. split_and!; [done..|]. rewrite Hpn.
    assert (n ≤ length (drop p cs ++ [hash]))%nat as Hn' by (unfold rs in Hn; by rewrite length_map in Hn).
    destruct (data_step ex _ (drop p cs) hash n ks D Hchain Hn' Hdel Hdt Hex) as [Hdt' Hex'].
    rewrite Hlv in Hb. cbn [concat] in Hb. apply Forall_app in Hb as [_ Hb].
    constructor; cbn [non_canonical pruning with_overlay with_window]; try done.
    + rewrite Hlv'. by apply keep_blocks_ok.
    + rewrite Hlv', tip_app. cbn [tip]. eapply linked_mono; [|apply linked_keep].
      intros h. cbn beta. by rewrite list_elem_of_singleton.
    + pose proof (consistent_front _ _ _ _ _ Hc) as Hfr. cbn in Hf.
      unfold last_canonicalized_hash in Hlh. unfold front_block_number at 1 in Hf.
      destruct (last_canonicalized o'') as [[h m]|]; [|done]. injection Hlh as ->.
      change (front_block_number (set_pending_canonicalizations (non_canonical s) [hash]))
        with (front_block_number (non_canonical s)) in Hf.
      rewrite tip_app, length_app. cbn [tip length]. destruct cs; cbn [app length] in *; do 2 f_equal; lia.
    + rewrite chain_app. split; [done|]. by split_and!.
    + rewrite length_app, length_drop in *. cbn [length] in *. lia.
    + exists w'. split_and!; [done| | |done|done].
      * rewrite drop_pruned, rec_drop by done. by rewrite Hpn in Hwok'.
      * rewrite Hnum'. unfold pending. lia.
    + intros k Hk. rewrite drop_pruned, tip_pruned in Hk by done. rewrite Hdata. by apply Hdt'.
    + intros i c' [Hi|[Hi [Hz <-]%list_lookup_singleton_Some]]%lookup_app_Some; [by apply Hcn|].
      pose proof (w_numbered _ _ _ _ _ (c_wf _ _ _ _ _ Hc)) as Hnums. rewrite Hlv in Hnums.
      rewrite (numbered_lookup num _ _ 0 level hash Hnums), (consistent_front _ _ _ _ _ Hc) by done. lia.
    + intros Ht k v Hk. rewrite drop_pruned, tip_pruned by done. rewrite Hdata in Hk. by apply (Hex' Ht k v).
  - destruct (revert_pending_ok val num par keys _ Hw) as (o''&k&Hrev&Hw'&Hpc'&Hpi'&Hla'&_&_&Hlv').
    pose proof (window_revert_ok ord Hord ex w _ Hwok) as (Hwok'&Hnum'&Hcan'&Hpru').
    unfold revert_pending. cbn [non_canonical with_overlay with_window pruning]. rewrite Hrev.
    cbn [mbind result_bind fmap option_fmap option_map]. eexists. split; [done|]. split; [|done].
    cbn [levels set_pending_canonicalizations pending_insertions last_canonicalized] in Hlv', Hla'.
    pose proof (consistent_overlay false s D p cs o'' (consistent_weaken _ _ _ _ _ Hc) Hw' Hpc' Hpi' Hla') as Hc'.
    destruct Hc' as []; [by eapply without_blocks|eapply without_linked; [apply Hw'|done|done]|].
    constructor; cbn; try done. exists (Pruning.revert_pending w). split_and!; [done| |lia|done|done].
    rewrite Hcan in Hwok'. replace (length rs - 1)%nat with (length (map rec (drop p cs))) in Hwok'
      by (rewrite length_map, length_drop; lia).
    unfold rs in Hwok'. rewrite map_app, take_app_length in Hwok'. by rewrite andb_false_r in Hwok'.
Qed.

(** *** Pinning and reverting *)

Lemma pin_consistent ex s D p cs h :
  consistent ex s D p cs → constrained s →
  ∃ s' r, pin s h = Some (s', r) ∧ consistent ex s' D p cs ∧ mode s' = mode s.
Proof.
  intros Hc (constraints&Hmode&_). unfold pin. rewrite Hmode.
  destruct (_ || _); [|exists s, (Err PinInvalidBlock); split_and!; done].
  assert (∃ o, (if default 0 (sd_pinned s !! h) =? 0 then NonCanonical.pin (non_canonical s) h
      else Some (non_canonical s)) = Some o ∧ consistent ex (with_overlay s o) D p cs) as (o&->&Ho).
  { destruct (_ =? 0); [|exists (non_canonical s); split; [done|]; by destruct s].
    destruct (pin_ok val num par keys _ h (c_wf _ _ _ _ _ Hc)) as (o'&->&Hw&Hd). exists o'. split; [done|].
    destruct (decide (h ∈ pending_insertions (non_canonical s))).
    { subst o'. by destruct s. }
    destruct Hd as (l&_&_&->&_). apply consistent_overlay; try done; apply Hc. }
  cbn [mbind option_bind]. eexists _, _. split; [done|]. split; [|done]. destruct Ho as []. by constructor.
Qed.

Lemma unpin_consistent ex s D p cs h :
  consistent ex s D p cs → ∃ s', unpin s h = Some s' ∧ consistent ex s' D p cs ∧ mode s' = mode s.
Proof.
  intros Hc. unfold unpin. destruct (sd_pinned s !! h) as [refs|]; [|by exists s].
  destruct (refs - 1 =? 0); [|eexists; split; [done|]; split; [|done]; destruct Hc; by constructor].
  destruct (unpin_ok val num par keys _ h (c_wf _ _ _ _ _ Hc)) as (o'&->&Hw&_&Hl&Hla&Hpc&Hpi).
  cbn [mbind option_bind]. eexists. split; [done|]. split; [|done].
  assert (consistent ex (with_overlay s o') D p cs) as [].
  { apply consistent_overlay; rewrite ?Hl, ?Hla, ?Hpc, ?Hpi; try done; apply Hc. }
  by constructor.
Qed.

Lemma revert_one_consistent ex s D p cs :
  consistent ex s D p cs → constrained s →
  consistent ex (revert_one s).1 D p cs ∧ mode (revert_one s).1 = mode s.
Proof.
  intros Hc (constraints&Hmode&_). unfold revert_one. rewrite Hmode.
  pose proof (revert_one_ok val num par keys _ (c_wf _ _ _ _ _ Hc) (c_canon _ _ _ _ _ Hc) (c_ins _ _ _ _ _ Hc)) as Ho.
  assert (consistent ex (with_overlay s (NonCanonical.revert_one (non_canonical s)).1) D p cs) as Hc'.
  { destruct (NonCanonical.revert_one (non_canonical s)) as [o' c]. destruct Ho as (Hw&Hl&Hla&Hpc&Hpi). cbn [fst].
    apply consistent_overlay; try done; rewrite Hl; [|apply linked_take, Hc].
    eapply sublist_blocks; [|apply Hc]. rewrite <- (take_drop (pred (length (levels (non_canonical s)))) (levels _)) at 3.
    rewrite concat_app. apply sublist_inserts_r. done. }
  by destruct (NonCanonical.revert_one (non_canonical s)).
Qed.

(** *** Starting *)

Lemma state_db_new_consistent {E} constraints fuel s :
  max_mem constraints = None →
  state_db_new (E := E) (Constrained constraints) (λ _, inr None) fuel = Some (Ok s) →
  consistent true s ∅ 0 [] ∧ mode s = Constrained constraints.
Proof using root_empty.
  destruct constraints as [mb mm]. cbn [max_mem]. intros -> Hs. unfold state_db_new, check_meta in Hs.
  destruct fuel as [|fuel]; [done|]. cbn in Hs. injection Hs as <-. split; [|done].
  constructor; cbn [non_canonical pruning levels last_canonicalized concat]; try done.
  - apply reach_wf. constructor.
  - exists (MkRefWindow [] ∅ 0 0 0). split_and!; try done. constructor; try done.
    intros k b. cbn [death_index death_rows pending_number]. rewrite lookup_empty. split; [done|]. by intros (i&row&?&_).
  - intros k (h&->%list_elem_of_singleton&Hk). cbn in Hk. by rewrite root_empty in Hk.
Qed.

(** ** Histories *)

(** The blocks that were pruned. *)
Definition pruned (s : sync) : nat :=
  match pruning s with Some w => Z.to_nat (pending_number w) | None => 0 end.

(** The states of a database that starts empty: [D] is the column of the trie
    nodes and [cs] the canonical blocks.  A transaction inserts or canonicalizes
    a block and is committed or aborted; the index is whether no
    canonicalization was aborted. *)
Inductive history : bool → sync → gmap Key DBValue → list BlockHash → Prop :=
| h_new constraints fuel s :
    max_mem constraints = None → 0 ≤ default 0 (max_blocks constraints) →
    state_db_new (E := Empty_set) (Constrained constraints) (λ _, inr None) fuel = Some (Ok s) →
    history true s ∅ []
| h_insert ex s D cs hash number parent_hash changeset s1 c s2 :
    history ex s D cs → new_block s hash number parent_hash changeset →
    insert_block (E := Empty_set) s hash number parent_hash changeset = (s1, Ok c) →
    apply_pending ord s1 = Ok s2 → history ex s2 (apply_changes D (cs_data c)) cs
| h_insert_abort ex s D cs hash number parent_hash changeset s1 c s2 :
    history ex s D cs → new_block s hash number parent_hash changeset →
    insert_block (E := Empty_set) s hash number parent_hash changeset = (s1, Ok c) →
    revert_pending s1 = Ok s2 → history ex s2 D cs
| h_canonicalize ex s D cs hash s1 c s2 :
    history ex s D cs → Z.of_nat (S (length cs)) < 2 ^ 64 →
    canonicalize_block ord (E := Empty_set) s hash = Some (s1, Ok c) →
    apply_pending ord s1 = Ok s2 → history ex s2 (apply_changes D (cs_data c)) (cs ++ [hash])
| h_canonicalize_abort ex s D cs hash s1 c s2 :
    history ex s D cs → Z.of_nat (S (length cs)) < 2 ^ 64 →
    canonicalize_block ord (E := Empty_set) s hash = Some (s1, Ok c) →
    revert_pending s1 = Ok s2 → history false s2 D cs
| h_pin ex s D cs h s' r : history ex s D cs → pin s h = Some (s', r) → history ex s' D cs
| h_unpin ex s D cs h s' : history ex s D cs → unpin s h = Some s' → history ex s' D cs
| h_revert_one ex s D cs : history ex s D cs → history ex (revert_one s).1 D cs.

Lemma consistent_pruned ex s D p cs : consistent ex s D p cs → p = pruned s.
Proof. intros Hc. destruct (c_window _ _ _ _ _ Hc) as (w&Hw&_&Hn&_). unfold pruned. rewrite Hw, Hn. lia. Qed.

Lemma constrained_mode s s' : mode s' = mode s → constrained s → constrained s'.
Proof. intros Hm (c&?&?&?). exists c. by rewrite Hm. Qed.

Lemma apply_nothing (D : gmap Key DBValue) : apply_changes D (MkChangeSet [] []) = D.
Proof. done. Qed.

Lemma history_consistent ex s D cs : history ex s D cs → (∃ p, consistent ex s D p cs) ∧ constrained s.
Proof using Hord root_empty.
  induction 1 as [constraints fuel s Hmem Hmax Hs
    |ex s D cs h n ph ch s1 c s2 _ [[p IH] Hm] Hnb Hi Ha|ex s D cs h n ph ch s1 c s2 _ [[p IH] Hm] Hnb Hi Ha
    |ex s D cs h s1 c s2 _ [[p IH] Hm] Hlen Hcan Ha|ex s D cs h s1 c s2 _ [[p IH] Hm] Hlen Hcan Ha
    |ex s D cs h s' r _ [[p IH] Hm] Hp|ex s D cs h s' _ [[p IH] Hm] Hp|ex s D cs _ [[p IH] Hm]].
  - destruct (state_db_new_consistent _ _ _ Hmem Hs) as [Hc Hmode]. split; [by exists 0%nat|]. by exists constraints.
  - pose proof (insert_consistent (E := Empty_set) _ _ _ _ _ _ _ _ _ IH Hm Hnb) as Ho. rewrite Hi in Ho.
    destruct Ho as (->&(s2'&Ha'&Hc&Hmode)&_). assert (s2' = s2) as -> by congruence.
    split; [by exists p|by eapply constrained_mode].
  - pose proof (insert_consistent (E := Empty_set) _ _ _ _ _ _ _ _ _ IH Hm Hnb) as Ho. rewrite Hi in Ho.
    destruct Ho as (_&_&(s2'&Ha'&Hc&Hmode)). assert (s2' = s2) as -> by congruence.
    split; [by exists p|by eapply constrained_mode].
  - destruct (canonicalize_consistent _ _ _ _ _ _ _ _ IH Hm Hlen Hcan) as [(s2'&w&Ha'&_&Hmode&Hc) _].
    assert (s2' = s2) as -> by congruence. split; [by eexists|by eapply constrained_mode].
  - destruct (canonicalize_consistent _ _ _ _ _ _ _ _ IH Hm Hlen Hcan) as [_ (s2'&Ha'&Hc&Hmode)].
    assert (s2' = s2) as -> by congruence. split; [by eexists|by eapply constrained_mode].
  - destruct (pin_consistent _ _ _ _ _ h IH Hm) as (s2'&r'&Ha'&Hc&Hmode).
    assert (s2' = s') as -> by congruence. split; [by eexists|by eapply constrained_mode].
  - destruct (unpin_consistent _ _ _ _ _ h IH) as (s2'&Ha'&Hc&Hmode).
    assert (s2' = s') as -> by congruence. split; [by eexists|by eapply constrained_mode].
  - destruct (revert_one_consistent _ _ _ _ _ IH Hm). split; [by eexists|by eapply constrained_mode].
Qed.

(** ** What is available *)

Lemma window_have_block ex (w : window) cs h :
  window_ok ex w (map rec cs) → pending_prunings w = 0%nat → Pruning.have_block w h = true ↔ h ∈ cs.
Proof.
  intros Hw Hp. unfold Pruning.have_block. rewrite Hp, drop_0, existsb_exists.
  pose proof (window_length _ _ _ Hw) as Hl. rewrite length_map in Hl. split.
  - intros (row&Hrow&Hh%bool_decide_eq_true_1). rewrite <- list_elem_of_In in Hrow.
    apply list_elem_of_lookup in Hrow as [i Hi].
    destruct (lookup_lt_is_Some_2 cs i) as [c Hc]; [rewrite <- Hl; by eapply lookup_lt_Some|].
    pose proof (window_rows _ _ _ i (rec c) Hw) as Hr. change (map rec cs) with (rec <$> cs) in Hr.
    rewrite list_lookup_fmap, Hc, Hi in Hr. specialize (Hr eq_refl). cbn in Hr. injection Hr as Hr.
    apply list_elem_of_lookup. exists i. congruence.
  - intros [i Hc]%list_elem_of_lookup.
    destruct (lookup_lt_is_Some_2 (death_rows w) i) as [row Hrow]; [rewrite Hl; by eapply lookup_lt_Some|].
    pose proof (window_rows _ _ _ i (rec h) Hw) as Hr. change (map rec cs) with (rec <$> cs) in Hr.
    rewrite list_lookup_fmap, Hc, Hrow in Hr. specialize (Hr eq_refl). cbn in Hr. injection Hr as Hr.
    exists row. split; [|by apply bool_decide_eq_true]. apply list_elem_of_In. by eapply list_elem_of_lookup_2.
Qed.

Lemma best_canonical_ok ex s D p cs :
  consistent ex s D p cs →
  best_canonical s = match cs with [] => None | _ => Some (Z.of_nat (length cs) - 1) end.
Proof.
  intros Hc. unfold best_canonical, last_canonicalized_block_number.
  rewrite (c_canon _ _ _ _ _ Hc), (c_last _ _ _ _ _ Hc). destruct cs; [done|]. cbn [length]. f_equal. lia.
Qed.

Lemma is_pruned_ok ex s D p cs h :
  consistent ex s D p cs → constrained s → pinned_insertions (non_canonical s) !! h = None →
  is_pruned s h (num h) = false ↔ h ∈ map bo_hash (concat (levels (non_canonical s))) ∨ h ∈ drop p cs.
Proof.
  intros Hc (constraints&Hmode&_) Hpin. pose proof Hc as [Hw Hpc Hpi _ _ Hlast _ Hp (w&Hwin&Hwok&Hnum&Hcan&Hpru) _ Hcn _].
  assert (NonCanonical.have_block (non_canonical s) h = true ↔ h ∈ map bo_hash (concat (levels (non_canonical s)))) as Hov.
  { unfold NonCanonical.have_block. rewrite Hpc, Hpi.
    rewrite (bool_decide_false (h ∈ [])), orb_false_r, andb_true_r, bool_decide_eq_true by apply not_elem_of_nil.
    rewrite (s_parents _ _ _ _ _ _ (w_store _ _ _ _ _ Hw)), Hpin. split.
    - case_decide as Hd; [|by intros []]. by destruct Hd as [|[]].
    - intros Hin. rewrite decide_True by (by left). by eexists. }
  assert (h ∈ map bo_hash (concat (levels (non_canonical s))) → Z.of_nat (length cs) ≤ num h) as Hlow.
  { intros (j&l&Hj&Hl)%elem_of_levels.
    rewrite (numbered_lookup num _ _ j l h (w_numbered _ _ _ _ _ Hw) Hj Hl), (consistent_front _ _ _ _ _ Hc). lia. }
  assert (h ∈ drop p cs → Z.of_nat p ≤ num h < Z.of_nat (length cs)) as Hhigh.
  { intros [i Hi]%list_elem_of_lookup. rewrite lookup_drop in Hi. rewrite (Hcn _ _ Hi).
    apply lookup_lt_Some in Hi. lia. }
  unfold is_pruned. rewrite Hmode, Hwin, (best_canonical_ok _ _ _ _ _ Hc).
  assert (pending w = Z.of_nat p) as -> by (unfold pending; lia).
  rewrite <- Hov, <- (window_have_block _ _ _ h Hwok Hpru) in *.
  destruct (NonCanonical.have_block _ h), (Pruning.have_block w h), cs as [|c cs]; cbn [negb];
    repeat match goal with |- context [?a <? ?b] => destruct (Z.ltb_spec a b) end; cbn [orb];
    naive_solver lia.
Qed.

(** A node of the state of a block in the overlay was inserted there, or is a
    node of the state of the last canonical block. *)
Lemma overlay_states (P : BlockHash → Prop) (ls : list (list (BlockOverlay (BlockHash := BlockHash) (Key := Key)))) h k :
  linked par P ls → Forall block_ok (concat ls) → h ∈ map bo_hash (concat ls) → k ∈ state h →
  (∃ h', h' ∈ map bo_hash (concat ls) ∧ k ∈ keys h') ∨ ∃ b, P b ∧ k ∈ state b.
Proof.
  revert P. induction ls as [|l ls IH]; intros P Hl Hb Hh Hk; [by apply not_elem_of_nil in Hh|].
  destruct Hl as [Hf Hl]. cbn [concat] in *. apply Forall_app in Hb as [Hbl Hb].
  rewrite map_app, elem_of_app in Hh.
  assert (∀ x, x ∈ map bo_hash l → k ∈ state x →
    (∃ h', h' ∈ map bo_hash (l ++ concat ls) ∧ k ∈ keys h') ∨ ∃ b, P b ∧ k ∈ state b) as Hlevel.
  { intros x (ov&->&Hov)%list_elem_of_fmap Hx. rewrite Forall_forall in Hbl, Hf.
    destruct (Hbl ov Hov) as [_ Hv]. apply (v_state _ Hv) in Hx as [Hx|[Hx _]].
    - left. exists (bo_hash ov). split; [|done]. rewrite map_app. apply elem_of_app. left. by apply list_elem_of_fmap_2.
    - right. exists (par (bo_hash ov)). split; [by apply Hf|done]. }
  destruct Hh as [Hh|Hh]; [by apply (Hlevel h)|].
  destruct (IH _ Hl Hb Hh Hk) as [(h'&?&?)|(b&Hbl'&Hkb)].
  - left. exists h'. split; [|done]. rewrite map_app. apply elem_of_app. by right.
  - by apply (Hlevel b).
Qed.

Lemma read_ok {E} ex s D p cs k :
  consistent ex s D p cs →
  get (E := E) s k (λ k, inr (D !! k)) =
  Ok (if bool_decide (is_Some (NonCanonical.get (non_canonical s) k)) then Some (val k) else D !! k).
Proof.
  intros Hc. unfold get. destruct (NonCanonical.get (non_canonical s) k) as [v|] eqn:Hg; [|by case_bool_decide as Hs; [destruct Hs|]].
  apply (get_iff val num par keys _ _ _ (c_wf _ _ _ _ _ Hc)) in Hg as [-> _]. rewrite bool_decide_true by (by eexists). done.
Qed.

Lemma available_ok {E} ex s D p cs h k :
  consistent ex s D p cs → h ∈ map bo_hash (concat (levels (non_canonical s))) ∨ h ∈ drop p cs → k ∈ state h →
  get (E := E) s k (λ k, inr (D !! k)) = Ok (Some (val k)).
Proof.
  intros Hc Hh Hk. rewrite (read_ok _ _ _ _ _ _ Hc). case_bool_decide as Hg; [done|]. f_equal.
  assert (∀ x, (x ∈ drop p cs ∨ x = tip root cs) → k ∈ state x → D !! k = Some (val k)) as Hdb.
  { intros x Hx Hkx. apply (c_data _ _ _ _ _ Hc). exists x. split; [|done].
    destruct Hx as [Hx| ->]; [by right|].
    rewrite <- (take_drop p cs) at 1. rewrite tip_app. apply tip_elem. }
  destruct Hh as [Hh|Hh]; [|by apply (Hdb h); [left|]].
  destruct (overlay_states _ _ _ _ (c_linked _ _ _ _ _ Hc) (c_blocks _ _ _ _ _ Hc) Hh Hk) as [(h'&Hh'&Hk')|(b&->&Hb)].
  - destruct Hg. exists (val k). apply (get_iff val num par keys _ _ _ (c_wf _ _ _ _ _ Hc)). split; [done|].
    exists h'. split; [|done]. rewrite (s_parents _ _ _ _ _ _ (w_store _ _ _ _ _ (c_wf _ _ _ _ _ Hc))).
    rewrite decide_True by (by left). by eexists.
  - by apply (Hdb (tip root cs)); [right|].
Qed.

(** ** Correctness *)

(** The database says that the state of a block is available exactly for the
    blocks in the overlay and for the canonical blocks that are not pruned (a
    discarded block that is only kept because it is pinned aside). *)
Theorem is_pruned_correct ex s D cs h :
  history ex s D cs → pinned_insertions (non_canonical s) !! h = None →
  is_pruned s h (num h) = false ↔ h ∈ map bo_hash (concat (levels (non_canonical s))) ∨ h ∈ drop (pruned s) cs.
Proof using Hord root_empty.
  intros [[p Hc] Hm]%history_consistent Hpin. rewrite <- (consistent_pruned _ _ _ _ _ Hc).
  by eapply is_pruned_ok.
Qed.



(** C31. Canonicalizing a block ends, without a panic: it fails, changing nothing,
    exactly for a block that is not in the first level of the overlay; otherwise
    it writes the nodes of the block and prunes [n] canonical blocks, none of
    them pinned and none that the limit has room for, and stops because the limit
    is met or because the next block is pinned. *)
Theorem canonicalize_block_correct {E} ex s D cs hash constraints :
  history ex s D cs → Z.of_nat (S (length cs)) < 2 ^ 64 → mode s = Constrained constraints →
  let blocks := drop (pruned s) cs ++ [hash] in
  let limit := default 0 (max_blocks constraints) in
  ∃ s1 r, canonicalize_block ord (E := E) s hash = Some (s1, r) ∧
  match r with
  | Ok c => par hash = tip root cs ∧ hash ∈ map bo_hash (default [] (head (levels (non_canonical s)))) ∧
      inserted (cs_data c) = put_keys hash ∧
      ∃ n s2, apply_pending ord s1 = Ok s2 ∧ pruned s2 = (pruned s + n)%nat ∧
      (Z.of_nat (length blocks - n) ≤ limit ∨ ∃ h, blocks !! n = Some h ∧ is_Some (sd_pinned s !! h)) ∧
      ∀ i h, (i < n)%nat → blocks !! i = Some h → sd_pinned s !! h = None ∧ limit < Z.of_nat (length blocks - i)
  | Err e => s1 = s ∧ e = InvalidBlock ∧ hash ∉ map bo_hash (default [] (head (levels (non_canonical s))))
  | Panic => False
  end.
Proof using Hord root_empty.
  intros [[p Hc] Hm]%history_consistent Hlen Hmode blocks limit.
  pose proof (consistent_pruned _ _ _ _ _ Hc) as ->. pose proof Hm as (constraints'&Hmode'&Hmem&Hmax).
  assert (constraints' = constraints) as -> by congruence.
  destruct (canonicalize_block_ok (E := E) _ _ _ _ _ hash _ Hc Hmode Hmem Hmax Hlen) as (s1&r&Hrun&Hr).
  exists s1, r. split; [done|]. destruct r as [c|e|]; [|done|done].
  destruct (canonicalize_consistent _ _ _ _ _ _ _ _ Hc Hm Hlen Hrun) as [(s2&w&Happ&Hwin&_&Hc2) _].
  destruct Hr as (n&ks&w'&->&_&Hpar&_&(level&rest&Hlv&Hin)&_&Hpn&_&_&_&Hdata&_&Hstop&Hpins).
  injection Hwin as ->. rewrite Hpn in Hc2. rewrite Hlv, Hdata.
  assert (∀ i h, blocks !! i = Some h ↔ ∃ r, map rec blocks !! i = Some r ∧ jr_hash r = h) as Hblocks.
  { intros i h. change (map rec blocks) with (rec <$> blocks). rewrite list_lookup_fmap.
    destruct (blocks !! i); cbn; naive_solver. }
  split_and!; [done..|]. exists n, s2. split_and!; [done|symmetry; by eapply consistent_pruned| |].
  - rewrite length_map in Hstop. destruct Hstop as [|(r&Hr&Hpin)]; [by left|right].
    exists (jr_hash r). split; [|done]. apply Hblocks. by exists r.
  - intros i h Hi (r&Hr&<-)%Hblocks. rewrite length_map in Hpins. by apply Hpins.
Qed.
End facts.

(** ** A chain with a fork *)

Module SmallDb.
Import SmallOverlay.

(** Block [111] is on top of [11], which is on top of [1], the first block; [0]
    stands for the state before it.  Each block replaces the node of its parent
    by its own, and [111] brings the node of [1] back. *)
Definition number (h : Z) : Z := if h =? 0 then -1 else if h <? 10 then 0 else if h <? 100 then 1 else 2.
Definition nodes (h : Z) : list Z := if h =? 111 then [1; 111] else [h].
Definition replaced (h : Z) : list Z := if par h =? 0 then [] else [par h].
Definition trie (h : Z) : gset Z := if h =? 0 then ∅ else list_to_set (nodes h).
Definition order (s : gset Z) : list Z := elements s.

#[export] Instance z_codec : Codec Z.
Proof. refine {| encode := λ z, [z]; decode := λ l, match l with [z] => Some z | _ => None end |}. done. Defined.

#[export] Instance pruning_codec : Codec (Pruning.JournalRecord Z Z).
Proof.
  refine {| encode := λ r, [Zpos (countable.encode (Pruning.jr_hash r, Pruning.jr_inserted r, Pruning.jr_deleted r))];
            decode := λ l, match l with
              | [Zpos p] => (λ '(h, ins, del), Pruning.MkJournalRecord h ins del) <$> countable.decode p
              | _ => None
              end |}.
  intros [h ins del]. by rewrite countable.decode_encode.
Defined.

Definition changes (h : Z) : ChangeSet Z := MkChangeSet (map (λ k, (k, val k)) (nodes h)) (replaced h).

Abbreviation db := (StateDbSync (BlockHash := Z) (Key := Z)).
Abbreviation past := (history order val number par nodes replaced trie 0).

(** The database in use: its state, the column of the nodes, the canonical blocks. *)
Definition use : Type := db * gmap Z DBValue * list Z.

Definition constraints : Constraints := MkConstraints (Some 1) None.
Definition started : use :=
  (MkStateDbSync (Constrained constraints) (MkNonCanonicalOverlay None [] ∅ [] [] ∅ ∅ ∅)
     (Some (MkRefWindow [] ∅ 0 0 0)) ∅, ∅, []).

Definition insert_commit (u : use) (h : Z) : use :=
  let '(s, D, cs) := u in
  match insert_block (E := Empty_set) s h (number h) (par h) (changes h) with
  | (s1, Ok c) =>
      match apply_pending order s1 with Ok s2 => (s2, apply_changes D (cs_data c), cs) | _ => u end
  | _ => u
  end.

Definition canonicalize_commit (u : use) (h : Z) : use :=
  let '(s, D, cs) := u in
  match canonicalize_block order (E := Empty_set) s h with
  | Some (s1, Ok c) =>
      match apply_pending order s1 with
      | Ok s2 => (s2, apply_changes D (cs_data c), cs ++ [h])
      | _ => u
      end
  | _ => u
  end.

Definition canonicalize_abort (u : use) (h : Z) : use :=
  let '(s, D, cs) := u in
  match canonicalize_block order (E := Empty_set) s h with
  | Some (s1, Ok c) => match revert_pending s1 with Ok s2 => (s2, D, cs) | _ => u end
  | _ => u
  end.

Definition pin_block (u : use) (h : Z) : use :=
  match pin u.1.1 h with Some (s, _) => (s, u.1.2, u.2) | None => u end.

Definition followed (ex : bool) (u : use) : Prop := past ex u.1.1 u.1.2 u.2.

Lemma followed_started : followed true started.
Proof. by apply (h_new order val number par nodes replaced trie 0 constraints 1). Qed.

Lemma followed_insert ex u h :
  followed ex u → new_block val number par nodes replaced trie 0 u.1.1 h (number h) (par h) (changes h) →
  followed ex (insert_commit u h).
Proof.
  destruct u as [[s D] cs]. intros Hu Hn. unfold insert_commit.
  destruct (insert_block _ _ _ _ _) as [s1 [c|e|]] eqn:Hi; [|done|done].
  destruct (apply_pending order s1) as [s2|e|] eqn:Ha; [|done|done]. by eapply h_insert.
Qed.

Lemma followed_canonicalize ex u h :
  followed ex u → Z.of_nat (S (length u.2)) < 2 ^ 64 → followed ex (canonicalize_commit u h).
Proof.
  destruct u as [[s D] cs]. intros Hu Hl. unfold canonicalize_commit.
  destruct (canonicalize_block order s h) as [[s1 [c|e|]]|] eqn:Hi; try done.
  destruct (apply_pending order s1) as [s2|e|] eqn:Ha; [|done|done]. by eapply h_canonicalize.
Qed.

Lemma followed_pin ex u h : followed ex u → followed ex (pin_block u h).
Proof.
  destruct u as [[s D] cs]. intros Hu. unfold pin_block. cbn [fst snd].
  destruct (pin s h) as [[s' r]|] eqn:Hp; [|done]. by eapply h_pin.
Qed.

Ltac valid_now := constructor; intros k; unfold trie, nodes, replaced, par; simpl;
  rewrite ?elem_of_union, ?elem_of_singleton, ?elem_of_cons, ?elem_of_empty, ?elem_of_nil;
  Z.to_euclidean_division_equations; lia.
Ltac insertable_small := constructor;
  first [by vm_compute | (vm_compute; by repeat constructor) | (intros ?; by vm_compute)].
Ltac new_block_now := constructor; [insertable_small|done|valid_now|by vm_compute|by vm_compute].

(** Blocks 1 and 11 are canonical, and 1 is pruned. *)
Definition forked : use :=
  foldl insert_commit (canonicalize_commit (insert_commit (canonicalize_commit
    (insert_commit started 1) 1) 11) 11) [111; 112].

Lemma followed_forked : followed true forked.
Proof.
  apply followed_insert; [|new_block_now]. apply followed_insert; [|new_block_now].
  apply followed_canonicalize; [|by vm_compute]. apply followed_insert; [|new_block_now].
  apply followed_canonicalize; [|by vm_compute]. apply followed_insert; [|new_block_now].
  apply followed_started.
Qed.

Lemma is_pruned_correct_witness :
  is_pruned forked.1.1 112 2 = false ∧ is_pruned forked.1.1 11 1 = false ∧ is_pruned forked.1.1 1 0 = true.
Proof.
  assert (∀ s, order s ≡ₚ elements s) as Hord by done.
  pose proof (λ h, is_pruned_correct order Hord val number par nodes replaced trie 0 eq_refl true
    forked.1.1 forked.1.2 forked.2 h followed_forked) as Hp.
  split_and!; [| |by vm_compute].
  - apply (Hp 112); [by vm_compute|]. left. vm_compute. repeat constructor.
  - apply (Hp 11); [by vm_compute|]. right. vm_compute. repeat constructor.
Defined.

(** Block 12 is pinned when the fork of block 11 becomes canonical. *)
Definition pinned_fork : use :=
  canonicalize_commit (pin_block (insert_commit (insert_commit (canonicalize_commit
    (insert_commit started 1) 1) 11) 12) 12) 11.

Lemma followed_pinned_fork : followed true pinned_fork.
Proof.
  apply followed_canonicalize; [|by vm_compute]. apply followed_pin. apply followed_insert; [|new_block_now]. apply followed_insert; [|new_block_now].
  apply followed_canonicalize; [|by vm_compute]. apply followed_insert; [|new_block_now].
  apply followed_started.
Qed.



Lemma canonicalize_block_correct_witness :
  ∃ s1 r, canonicalize_block order (E := Empty_set) forked.1.1 112 = Some (s1, r) ∧ r ≠ Panic.
Proof.
  destruct (canonicalize_block_correct order (λ _, reflexivity _) val number par nodes replaced trie 0 eq_refl
    (E := Empty_set) true forked.1.1 forked.1.2 forked.2 112 constraints followed_forked) as (s1&r&Hr&Hm);
    [by vm_compute..|].
  exists s1, r. split; [done|]. by intros ->.
Defined.

(** A transaction of the database, with any changes. *)
Definition insert_with (u : use) (h n p : Z) (c : ChangeSet Z) : use :=
  match insert_block (E := Empty_set) u.1.1 h n p c with
  | (s1, Ok cs) => match apply_pending order s1 with Ok s2 => (s2, apply_changes u.1.2 (cs_data cs), u.2) | _ => u end
  | _ => u
  end.

(** Blocks 12 and 121 are built on block 1 and keep the node 5 of its state; block
    11 removes it.  Block 121 is pinned, and not reported as pruned after block
    11 was made canonical and its parent pruned; the node is gone. *)
Lemma pinned_fork_loses_nodes :
  let u0 : use := (MkStateDbSync (Constrained (MkConstraints (Some 0) None)) (MkNonCanonicalOverlay None [] ∅ [] [] ∅ ∅ ∅)
    (Some (MkRefWindow [] ∅ 0 0 0)) ∅, ∅, []) in
  let u1 := canonicalize_commit (insert_with u0 1 0 0 (MkChangeSet [(1, [1]); (5, [5])] [])) 1 in
  let u2 := insert_with (insert_with u1 11 1 1 (MkChangeSet [(11, [11])] [5])) 12 1 1 (MkChangeSet [(12, [12])] [1]) in
  let u3 := pin_block (insert_with u2 121 2 12 (MkChangeSet [(121, [121])] [12])) 121 in
  let u := canonicalize_commit u3 11 in
  get (E := Empty_set) u3.1.1 5 (λ k, inr (u3.1.2 !! k)) = Ok (Some [5]) ∧ is_pruned u.1.1 121 2 = false ∧
  get (E := Empty_set) u.1.1 5 (λ k, inr (u.1.2 !! k)) = Ok None.
Proof. vm_compute. done. Qed.

(** A canonicalization that is aborted leaves garbage behind: [111] would have
    brought the node of block 1 back, so that it was taken off the nodes to
    delete; after the other fork was taken and everything but its block pruned, no
    state has the node, and it is in the database. *)
Lemma abort_leaks :
  let u := canonicalize_commit (canonicalize_abort forked 111) 112 in
  (canonicalize_commit forked 112).1.2 !! 1 = None ∧ u.1.2 !! 1 = Some [1] ∧
  u.2 = [1; 11; 112] ∧ pruned u.1.1 = 2%nat.
Proof. vm_compute. done. Qed.
End SmallDb.
