(* ===== verification/TxFuture.v ===== *)
(** * Transactions that wait (src/client/transaction-pool/graph/src/future.rs)

    A transaction requires and provides tags.  The future queue keeps the
    transactions with tags that nothing in the pool provides, and an index from
    each such tag to the transactions that wait for it. *)
From S2P Require Import Prelude.

Local Open Scope Z_scope.

Section future.
Context {Hash Tag Ex : Type} `{Countable Hash, Countable Tag}.

(** The orders in which hash sets of hashes and of tags are iterated. *)
Context (hash_order : gset Hash → list Hash) (tag_order : gset Tag → list Tag).

(** ** Data *)

Record Transaction : Type := MkTransaction {
  data : Ex;
  tx_bytes : Z;
  tx_hash : Hash;
  priority : Z;
  valid_till : Z;
  requires : list Tag;
  provides : list Tag;
  propagate : bool;
}.

(** [Instant]s are numbers. *)
Record WaitingTransaction : Type := MkWaitingTransaction {
  wt_transaction : Transaction;
  missing_tags : gset Tag;
  imported_at : Z;
}.

Record FutureTransactions : Type := MkFutureTransactions {
  wanted_tags : gmap Tag (gset Hash);
  waiting : gmap Hash WaitingTransaction;
}.

(** ** Waiting transactions *)

Definition is_provided (provided : gmap Tag Hash) (recently_pruned : list (gset Tag)) (tag : Tag) : bool :=
  bool_decide (is_Some (provided !! tag)) || existsb (λ x, bool_decide (tag ∈ x)) recently_pruned.

(** [Instant::now] is an argument. *)
Definition waiting_new (now : Z) (tx : Transaction) (provided : gmap Tag Hash)
    (recently_pruned : list (gset Tag)) : WaitingTransaction :=
  MkWaitingTransaction tx
    (list_to_set (filter (λ tag, is_provided provided recently_pruned tag = false) (requires tx))) now.

Definition satisfy_tag (w : WaitingTransaction) (tag : Tag) : WaitingTransaction :=
  MkWaitingTransaction (wt_transaction w) (missing_tags w ∖ {[tag]}) (imported_at w).

Definition is_ready (w : WaitingTransaction) : bool := bool_decide (missing_tags w = ∅).

(** ** The queue *)

Definition future_default : FutureTransactions := MkFutureTransactions ∅ ∅.

(** [wanted_tags.entry(tag).or_insert_with(HashSet::new).insert(hash)] *)
Definition want (hash : Hash) (wanted : gmap Tag (gset Hash)) (tag : Tag) : gmap Tag (gset Hash) :=
  <[tag := {[hash]} ∪ default ∅ (wanted !! tag)]> wanted.

Definition future_import (f : FutureTransactions) (tx : WaitingTransaction) : run FutureTransactions :=
  let hash := tx_hash (wt_transaction tx) in
  if is_ready tx then Panic
  else if bool_decide (is_Some (waiting f !! hash)) then Panic
  else Ok (MkFutureTransactions (foldl (want hash) (wanted_tags f) (tag_order (missing_tags tx)))
             (<[hash := tx]> (waiting f))).

Definition future_contains (f : FutureTransactions) (hash : Hash) : bool :=
  bool_decide (is_Some (waiting f !! hash)).

Definition future_by_hashes (f : FutureTransactions) (hashes : list Hash) : list (option Transaction) :=
  map (λ h, wt_transaction <$> waiting f !! h) hashes.

(** The transactions that waited for a tag, one after the other. *)
Fixpoint satisfy_hashes (tag : Tag) (f : FutureTransactions) (hashes : list Hash) :
    run (FutureTransactions * list WaitingTransaction) :=
  match hashes with
  | [] => Ok (f, [])
  | hash :: hashes' =>
      tx ← expect (waiting f !! hash);
      let tx' := satisfy_tag tx tag in
      if is_ready tx' then
        '(f', ready) ← satisfy_hashes tag (MkFutureTransactions (wanted_tags f) (delete hash (waiting f))) hashes';
        Ok (f', tx' :: ready)
      else satisfy_hashes tag (MkFutureTransactions (wanted_tags f) (<[hash := tx']> (waiting f))) hashes'
  end.

Fixpoint satisfy_tags (f : FutureTransactions) (tags : list Tag) :
    run (FutureTransactions * list WaitingTransaction) :=
  match tags with
  | [] => Ok (f, [])
  | tag :: tags' =>
      '(f1, ready) ←
        match wanted_tags f !! tag with
        | Some hashes =>
            satisfy_hashes tag (MkFutureTransactions (delete tag (wanted_tags f)) (waiting f)) (hash_order hashes)
        | None => Ok (f, [])
        end;
      '(f2, ready') ← satisfy_tags f1 tags';
      Ok (f2, ready ++ ready')
  end.

(** The transaction no longer waits for the tag. *)
Definition unwant (hash : Hash) (wanted : gmap Tag (gset Hash)) (tag : Tag) : gmap Tag (gset Hash) :=
  match wanted !! tag with
  | Some hashes =>
      let hashes' := hashes ∖ {[hash]} in
      if decide (hashes' = ∅) then delete tag wanted else <[tag := hashes']> wanted
  | None => wanted
  end.

Fixpoint future_remove (f : FutureTransactions) (hashes : list Hash) : FutureTransactions * list Transaction :=
  match hashes with
  | [] => (f, [])
  | hash :: hashes' =>
      match waiting f !! hash with
      | Some tx =>
          let '(f', removed) :=
            future_remove
              (MkFutureTransactions (foldl (unwant hash) (wanted_tags f) (tag_order (missing_tags tx)))
                 (delete hash (waiting f))) hashes' in
          (f', wt_transaction tx :: removed)
      | None => future_remove f hashes'
      end
  end.

(** The values of a hash map come in the order of its keys. *)
Definition waiting_values (f : FutureTransactions) : list WaitingTransaction :=
  omap (λ h, waiting f !! h) (hash_order (dom (waiting f))).

Definition future_fold {R} (f : FutureTransactions) (g : option R → WaitingTransaction → option R) : option R :=
  foldl g None (waiting_values f).

Definition future_all (f : FutureTransactions) : list Transaction := map wt_transaction (waiting_values f).

Definition future_clear (f : FutureTransactions) : FutureTransactions * list Transaction :=
  (future_default, future_all f).

Definition future_len (f : FutureTransactions) : Z := Z.of_nat (size (waiting f)).

Definition future_bytes (f : FutureTransactions) : Z :=
  foldl (λ acc tx, acc + tx_bytes (wt_transaction tx)) 0 (waiting_values f).
End future.

(** ** Correctness *)

Section future_facts.
Context {Hash Tag Ex : Type} `{Countable Hash, Countable Tag}.
Context (hash_order : gset Hash → list Hash) (tag_order : gset Tag → list Tag).

Abbreviation queue := (FutureTransactions (Hash := Hash) (Tag := Tag) (Ex := Ex)).
Abbreviation wtx := (WaitingTransaction (Hash := Hash) (Tag := Tag) (Ex := Ex)).

(** The index is the inverse of the missing tags. *)
Definition indexed (wanted : gmap Tag (gset Hash)) (missing : Hash → Tag → Prop) : Prop :=
  (∀ t hs, wanted !! t = Some hs → hs ≠ ∅) ∧
  ∀ t h, h ∈ default ∅ (wanted !! t) ↔ missing h t.

Definition misses (ws : gmap Hash wtx) (h : Hash) (t : Tag) : Prop :=
  ∃ w, ws !! h = Some w ∧ t ∈ missing_tags w.

Record future_ok (f : queue) : Prop := {
  fo_index : indexed (wanted_tags f) (misses (waiting f));
  fo_waiting : ∀ h w, waiting f !! h = Some w → tx_hash (wt_transaction w) = h ∧ missing_tags w ≠ ∅;
}.

Lemma future_default_ok : future_ok future_default.
Proof.
  constructor; cbn; [split|].
  - intros t hs Hs. by rewrite lookup_empty in Hs.
  - intros t h. rewrite lookup_empty. split; [intros Hs; by apply not_elem_of_empty in Hs|].
    intros (w&Hw&_). by rewrite lookup_empty in Hw.
  - intros h w Hw. by rewrite lookup_empty in Hw.
Qed.

Lemma want_indexed wanted missing h tags :
  indexed wanted missing → indexed (foldl (want h) wanted tags) (λ x t, missing x t ∨ x = h ∧ t ∈ tags).
Proof.
  revert wanted missing. induction tags as [|t0 tags IH]; intros wanted missing Hi.
  { destruct Hi as [Hne Hi]. split; [done|]. intros t x. rewrite Hi. split; [by left|].
    intros [?|[_ Ht]]; [done|by apply not_elem_of_nil in Ht]. }
  cbn [foldl]. destruct (IH (want h wanted t0) (λ x t, missing x t ∨ x = h ∧ t = t0)) as [Hne' Hi'].
  { destruct Hi as [Hne Hi]. unfold want. split.
    - intros t hs. rewrite lookup_insert. case_decide; [intros [= <-]; set_solver|by apply Hne].
    - intros t x. rewrite lookup_insert. destruct (decide (t0 = t)) as [<-|Ht]; cbn.
      + rewrite elem_of_union, elem_of_singleton, Hi. naive_solver.
      + rewrite Hi. naive_solver. }
  split; [done|]. intros t x. rewrite Hi', elem_of_cons. naive_solver.
Qed.

Lemma unwant_indexed wanted missing h tags :
  indexed wanted missing → indexed (foldl (unwant h) wanted tags) (λ x t, missing x t ∧ ¬ (x = h ∧ t ∈ tags)).
Proof.
  revert wanted missing. induction tags as [|t0 tags IH]; intros wanted missing Hi.
  { destruct Hi as [Hne Hi]. split; [done|]. intros t x. rewrite Hi. split; [|by intros [? _]].
    intros ?. split; [done|]. intros [_ Ht]. by apply not_elem_of_nil in Ht. }
  cbn [foldl]. destruct (IH (unwant h wanted t0) (λ x t, missing x t ∧ ¬ (x = h ∧ t = t0))) as [Hne' Hi'].
  { destruct Hi as [Hne Hi]. pose proof (Hi t0) as Hi0. unfold unwant.
    destruct (wanted !! t0) as [hs|] eqn:Hw; cbn in Hi0; [case_decide as Hd|]; split.
    - intros t hs'. rewrite lookup_delete. case_decide; [done|by apply Hne].
    - intros t x. rewrite lookup_delete. destruct (decide (t0 = t)) as [<-|Ht]; cbn.
      + rewrite <- Hi0. set_solver.
      + rewrite Hi. naive_solver.
    - intros t hs'. rewrite lookup_insert. case_decide; [intros [= <-]; done|by apply Hne].
    - intros t x. rewrite lookup_insert. destruct (decide (t0 = t)) as [<-|Ht]; cbn.
      + rewrite <- Hi0. set_solver.
      + rewrite Hi. naive_solver.
    - done.
    - intros t x. rewrite Hi. destruct (decide (t0 = t)) as [<-|Ht]; [|naive_solver].
      rewrite <- Hi0. set_solver. }
  split; [done|]. intros t x. rewrite Hi', elem_of_cons. naive_solver.
Qed.

Lemma indexed_ext wanted (m m' : Hash → Tag → Prop) :
  (∀ h t, m h t ↔ m' h t) → indexed wanted m → indexed wanted m'.
Proof. intros Hm [Hne Hi]. split; [done|]. intros t h. by rewrite Hi, Hm. Qed.

(** A transaction without the given tags to wait for. *)
Definition satisfied (w : wtx) (tags : list Tag) : wtx :=
  MkWaitingTransaction (wt_transaction w) (missing_tags w ∖ list_to_set tags) (imported_at w).

(** What the queue keeps of a transaction. *)
Definition still_waiting (w : wtx) : option wtx := if is_ready w then None else Some w.
Definition now_ready (w : wtx) : option wtx := if is_ready w then Some w else None.

Lemma satisfy_hashes_ok tag (f : queue) hs :
  NoDup hs → (∀ h, h ∈ hs → is_Some (waiting f !! h)) →
  ∃ f' ws, satisfy_hashes tag f hs = Ok (f', ws) ∧ wanted_tags f' = wanted_tags f ∧
    (∀ h, waiting f' !! h = w ← waiting f !! h; if decide (h ∈ hs) then still_waiting (satisfy_tag w tag) else Some w) ∧
    ws = omap (λ h, w ← waiting f !! h; now_ready (satisfy_tag w tag)) hs.
Proof.
  intros Hnd. revert f. induction Hnd as [|h hs Hh Hnd IH]; intros f Hin; cbn [satisfy_hashes omap list_omap].
  { eexists _, _. split_and!; [done|done| |done]. intros h. by destruct (waiting f !! h). }
  destruct (Hin h ltac:(by left)) as [w Hw]. rewrite Hw. cbn [expect mbind result_bind option_bind].
  set (w' := satisfy_tag w tag).
  set (f1 := MkFutureTransactions (wanted_tags f) (partial_alter (λ _, still_waiting w') h (waiting f))).
  destruct (IH f1) as (f'&ws&Hrun&Hwt&Hwait&Hws).
  { intros x Hx. cbn. rewrite lookup_partial_alter_ne by (by intros ->). apply Hin. by right. }
  exists f', (match now_ready w' with Some x => x :: ws | None => ws end). split_and!.
  - unfold now_ready. unfold f1, still_waiting in Hrun. destruct (is_ready w').
    + change (partial_alter (λ _, None) h (waiting f)) with (delete h (waiting f)) in Hrun. by rewrite Hrun.
    + exact Hrun.
  - done.
  - intros x. rewrite Hwait. unfold f1. cbn [waiting]. destruct (decide (x = h)) as [->|Hx].
    + rewrite lookup_partial_alter_eq, Hw. cbn. rewrite decide_True by (by left).
      unfold still_waiting at 1. destruct (still_waiting w') as [y|] eqn:Hy; cbn; [by rewrite decide_False|done].
    + rewrite lookup_partial_alter_ne by done. destruct (waiting f !! x); cbn; [|done].
      destruct (decide (x ∈ hs)); [by rewrite decide_True by (by right)|].
      rewrite decide_False; [done|]. by intros [|]%elem_of_cons.
  - rewrite Hws. cbn. replace (omap (λ h0, waiting f1 !! h0 ≫= λ w0, now_ready (satisfy_tag w0 tag)) hs)
      with (omap (λ h0, waiting f !! h0 ≫= λ w0, now_ready (satisfy_tag w0 tag)) hs); [done|].
    apply list_omap_ext. apply Forall_Forall2_diag, Forall_forall. intros x Hx. unfold f1. cbn [waiting].
    rewrite lookup_partial_alter_ne; [done|]. by intros ->.
Qed.

Lemma satisfied_nil w : satisfied w [] = w.
Proof. destruct w. unfold satisfied. cbn. f_equal. set_solver. Qed.

Lemma satisfied_cons w t tags : satisfied w (t :: tags) = satisfied (satisfy_tag w t) tags.
Proof. unfold satisfied, satisfy_tag. cbn. f_equal. set_solver. Qed.

Lemma satisfied_absent w t tags : t ∉ missing_tags w → satisfied w (t :: tags) = satisfied w tags.
Proof. intros Ht. unfold satisfied. f_equal. set_solver. Qed.

Lemma is_ready_mono w tags : is_ready w = true → is_ready (satisfied w tags) = true.
Proof. unfold is_ready, satisfied. rewrite !bool_decide_eq_true. cbn. intros ->. set_solver. Qed.

Lemma still_waiting_Some w w' : still_waiting w = Some w' ↔ w' = w ∧ is_ready w = false.
Proof. unfold still_waiting. destruct (is_ready w); naive_solver. Qed.

Lemma now_ready_Some w w' : now_ready w = Some w' ↔ w' = w ∧ is_ready w = true.
Proof. unfold now_ready. destruct (is_ready w); naive_solver. Qed.

(** The keys of what a partial function finds under distinct keys. *)
Lemma omap_nodup {A B} (key : B → A) (g : A → option B) l :
  NoDup l → (∀ a b, g a = Some b → key b = a) → NoDup (map key (omap g l)).
Proof.
  intros Hnd Hkey. induction Hnd as [|a l Ha Hnd IH]; cbn; [constructor|].
  destruct (g a) as [b|] eqn:Hb; [|done]. cbn. constructor; [|done].
  rewrite (Hkey a b Hb). intros (b'&Heq&Hb')%list_elem_of_fmap. apply list_elem_of_omap in Hb' as (a'&Ha'&Hg).
  apply Hkey in Hg. congruence.
Qed.

Hypothesis Hhash : ∀ s, hash_order s ≡ₚ elements s.
Hypothesis Htag : ∀ s, tag_order s ≡ₚ elements s.

Lemma elem_of_tag_order t s : t ∈ tag_order s ↔ t ∈ s.
Proof using Htag. by rewrite Htag, elem_of_elements. Qed.

Lemma elem_of_hash_order h s : h ∈ hash_order s ↔ h ∈ s.
Proof using Hhash. by rewrite Hhash, elem_of_elements. Qed.

Lemma future_import_ok f tx :
  future_ok f → is_ready tx = false → waiting f !! tx_hash (wt_transaction tx) = None →
  ∃ f', future_import tag_order f tx = Ok f' ∧ future_ok f' ∧
    waiting f' = <[tx_hash (wt_transaction tx) := tx]> (waiting f).
Proof using Htag.
  intros [Hi Hw] Hr Hn. unfold future_import. rewrite Hr, Hn, bool_decide_false by (by intros []).
  eexists. split; [done|]. split; [|done]. constructor; cbn.
  - eapply indexed_ext; [|by apply want_indexed]. intros h t. cbn beta. unfold misses.
    rewrite elem_of_tag_order. split.
    + intros [(w&Hw'&Ht)|[-> Ht]]; [|exists tx; by rewrite lookup_insert_eq].
      exists w. split; [|done]. rewrite lookup_insert_ne; [done|]. intros <-. by rewrite Hn in Hw'.
    + intros (w&Hw'&Ht). rewrite lookup_insert in Hw'. case_decide; [simplify_eq; by right|left; by exists w].
  - intros h w. rewrite lookup_insert. case_decide; [|by apply Hw]. intros [= <-]. split; [done|].
    unfold is_ready in Hr. by apply bool_decide_eq_false in Hr.
Qed.

(** One tag. *)
Lemma satisfy_one (f : queue) t :
  future_ok f →
  ∃ f1 ws,
    match wanted_tags f !! t with
    | Some hashes =>
        satisfy_hashes t (MkFutureTransactions (delete t (wanted_tags f)) (waiting f)) (hash_order hashes)
    | None => Ok (f, [])
    end = Ok (f1, ws) ∧ future_ok f1 ∧
    (∀ h, waiting f1 !! h = w ← waiting f !! h; still_waiting (satisfied w [t])) ∧
    NoDup (map (tx_hash ∘ wt_transaction) ws) ∧
    ∀ w', w' ∈ ws ↔ ∃ h w, waiting f !! h = Some w ∧ w' = satisfied w [t] ∧ is_ready w' = true.
Proof using Hhash Htag.
  intros [[Hne Hi] Hw].
  assert (∀ h w, waiting f !! h = Some w → t ∉ missing_tags w → satisfied w [t] = w ∧ is_ready w = false) as Hno.
  { intros h w Hh Ht. rewrite satisfied_absent, satisfied_nil by done. split; [done|].
    unfold is_ready. apply bool_decide_eq_false. by apply (Hw h w Hh). }
  pose proof (Hi t) as Hit. destruct (wanted_tags f !! t) as [hs|] eqn:Ht; cbn in Hit.
  2:{ exists f, []. split_and!; [done|by constructor| |constructor|].
    - intros h. destruct (waiting f !! h) as [w|] eqn:Hh; [|done]. cbn.
      destruct (Hno h w Hh) as [-> Hr]; [|symmetry; by apply still_waiting_Some].
      intros Hm. apply (not_elem_of_empty (C := gset Hash) h), Hit. by exists w.
    - intros w'. split; [intros Hx; by apply not_elem_of_nil in Hx|]. intros (h&w&Hh&->&Hr).
      destruct (Hno h w Hh) as [He Hr']; [|congruence].
      intros Hm. apply (not_elem_of_empty (C := gset Hash) h), Hit. by exists w. }
  destruct (satisfy_hashes_ok t (MkFutureTransactions (delete t (wanted_tags f)) (waiting f)) (hash_order hs))
    as (f1&ws&Hrun&Hwt&Hwait&Hws).
  { rewrite Hhash. apply NoDup_elements. }
  { intros h Hh%elem_of_hash_order. apply Hit in Hh as (w&?&_). by exists w. }
  cbn [waiting wanted_tags] in *.
  assert (∀ h, waiting f1 !! h = w ← waiting f !! h; still_waiting (satisfied w [t])) as Hwait'.
  { intros h. rewrite Hwait. destruct (waiting f !! h) as [w|] eqn:Hh; [|done]. cbn.
    case_decide as Hd; [by rewrite satisfied_cons, satisfied_nil|].
    destruct (Hno h w Hh) as [-> Hr]; [|symmetry; by apply still_waiting_Some].
    intros Hm. apply Hd, elem_of_hash_order, Hit. by exists w. }
  exists f1, ws. split_and!; [done| |done| |].
  - constructor.
    + rewrite Hwt. split; [intros t' hs'; rewrite lookup_delete; case_decide; [done|apply Hne]|].
      intros t' h. unfold misses. rewrite Hwait'. rewrite lookup_delete. destruct (decide (t = t')) as [<-|Htt].
      * cbn. split; [intros Hx; by apply not_elem_of_empty in Hx|].
        intros (w'&Hw'&Hm). destruct (waiting f !! h) as [w|]; [|done]. cbn in Hw'.
        apply still_waiting_Some in Hw' as [-> _]. cbn in Hm. set_solver.
      * rewrite Hi. unfold misses. destruct (waiting f !! h) as [w|] eqn:Hh; cbn; [|naive_solver]. split.
        -- intros (?&[= <-]&Hm). exists (satisfied w [t]). split; [|cbn; set_solver].
           apply still_waiting_Some. split; [done|]. unfold is_ready. apply bool_decide_eq_false.
           cbn. set_solver.
        -- intros (w'&[-> _]%still_waiting_Some&Hm). exists w. split; [done|]. cbn in Hm. set_solver.
    + intros h w'. rewrite Hwait'. destruct (waiting f !! h) as [w|] eqn:Hh; [|done]. cbn.
      intros [-> Hr]%still_waiting_Some. split; [by apply (Hw h w)|]. unfold is_ready in Hr.
      by apply bool_decide_eq_false in Hr.
  - rewrite Hws. clear Hws Hrun Hwait. assert (NoDup (hash_order hs)) as Hnd by (rewrite Hhash; apply NoDup_elements).
    apply omap_nodup; [done|]. intros h w'. destruct (waiting f !! h) as [w|] eqn:Hh; [|done]. cbn.
    intros [-> _]%now_ready_Some. by apply (Hw h w).
  - intros w'. rewrite Hws, list_elem_of_omap. split.
    + intros (h&Hh&Hx). destruct (waiting f !! h) as [w|] eqn:Hwh; [|done]. cbn in Hx.
      apply now_ready_Some in Hx as [-> Hr]. exists h, w.
      rewrite satisfied_cons, satisfied_nil. done.
    + intros (h&w&Hwh&->&Hr). exists h. rewrite Hwh. cbn. rewrite satisfied_cons, satisfied_nil in *. split.
      * apply elem_of_hash_order, Hit. exists w. split; [done|]. destruct (decide (t ∈ missing_tags w)); [done|].
        destruct (Hno h w Hwh) as [He Hr']; [done|]. rewrite satisfied_cons, satisfied_nil in He. congruence.
      * by apply now_ready_Some.
Qed.

Lemma satisfied_step w t tags : satisfied (satisfied w [t]) tags = satisfied w (t :: tags).
Proof. unfold satisfied. cbn. f_equal. set_solver. Qed.

Lemma satisfy_tags_ok (f : queue) tags :
  future_ok f →
  ∃ f' ws, satisfy_tags hash_order f tags = Ok (f', ws) ∧ future_ok f' ∧
    (∀ h, waiting f' !! h = w ← waiting f !! h; still_waiting (satisfied w tags)) ∧
    NoDup (map (tx_hash ∘ wt_transaction) ws) ∧ Forall (λ w, is_ready w = true) ws ∧
    ∀ tx, tx ∈ map wt_transaction ws ↔
      ∃ h w, waiting f !! h = Some w ∧ tx = wt_transaction w ∧ is_ready (satisfied w tags) = true.
Proof using Hhash Htag.
  revert f. induction tags as [|t tags IH]; intros f Hf; cbn [satisfy_tags].
  { assert (∀ h w, waiting f !! h = Some w → is_ready (satisfied w []) = false) as Hno.
    { intros h w Hh. rewrite satisfied_nil. apply bool_decide_eq_false. by apply (fo_waiting _ Hf h). }
    exists f, []. split_and!; [done|done| |constructor|constructor|].
    - intros h. destruct (waiting f !! h) as [w|] eqn:Hh; [|done]. cbn. symmetry. apply still_waiting_Some.
      split; [by rewrite satisfied_nil|by eapply Hno].
    - intros tx. split; [intros Hx; by apply not_elem_of_nil in Hx|].
      intros (h&w&Hh&_&Hr). by rewrite (Hno h w Hh) in Hr. }
  destruct (satisfy_one f t Hf) as (f1&ws1&->&Hf1&Hw1&Hn1&Hr1). cbn [mbind result_bind].
  destruct (IH f1 Hf1) as (f2&ws2&->&Hf2&Hw2&Hn2&Ha2&Hr2). cbn [mbind result_bind].
  exists f2, (ws1 ++ ws2). split_and!; [done|done| | | |].
  - intros h. rewrite Hw2, Hw1. destruct (waiting f !! h) as [w|]; [|done]. cbn. rewrite <- (satisfied_step w t tags).
    destruct (still_waiting (satisfied w [t])) as [w'|] eqn:Hs; cbn.
    + by apply still_waiting_Some in Hs as [-> _].
    + unfold still_waiting in *. rewrite is_ready_mono; [done|]. by destruct (is_ready _).
  - rewrite map_app. apply NoDup_app. split_and!; [done| |done].
    intros x (w1&->&Hx1)%list_elem_of_fmap (w2&Heq&Hx2)%list_elem_of_fmap.
    apply Hr1 in Hx1 as (h1&v1&Hv1&->&Hr).
    apply (list_elem_of_fmap_2 wt_transaction), Hr2 in Hx2 as (h2&v2&Hv2&Ht2&_).
    cbn in Heq. rewrite Ht2 in Heq. rewrite Hw1 in Hv2.
    destruct (waiting f !! h2) as [v2'|] eqn:Hv2'; [|done]. cbn in Hv2.
    apply still_waiting_Some in Hv2 as [-> Hs]. cbn in Heq.
    destruct (fo_waiting _ Hf h1 v1 Hv1) as [E1 _]. destruct (fo_waiting _ Hf h2 v2' Hv2') as [E2 _].
    rewrite E1, E2 in Heq. subst h2. assert (v2' = v1) as -> by congruence. congruence.
  - apply Forall_app. split; [|done]. apply Forall_forall. intros w (h&v&_&_&Hr)%Hr1. done.
  - intros tx. rewrite map_app, elem_of_app, Hr2. setoid_rewrite <- satisfied_step. split.
    + intros [(w'&->&(h&w&Hh&->&Hr)%Hr1)%list_elem_of_fmap|(h&w&Hh&->&Hr)].
      * exists h, w. split_and!; [done|done|by apply is_ready_mono].
      * rewrite Hw1 in Hh. destruct (waiting f !! h) as [v|] eqn:Hv; [|done]. cbn in Hh.
        apply still_waiting_Some in Hh as [-> _]. by exists h, v.
    + intros (h&w&Hh&->&Hr). destruct (is_ready (satisfied w [t])) eqn:Hr'.
      * left. apply list_elem_of_fmap. exists (satisfied w [t]). split; [done|]. apply Hr1. by exists h, w.
      * right. exists h, (satisfied w [t]). split_and!; [|done|done]. rewrite Hw1, Hh. cbn.
        by apply still_waiting_Some.
Qed.

(** *** Removing *)

Lemma future_remove_ok (f : queue) hs :
  future_ok f →
  let '(f', txs) := future_remove tag_order f hs in
  future_ok f' ∧ waiting f' = filter (λ kv, kv.1 ∉ hs) (waiting f) ∧
  NoDup (map tx_hash txs) ∧
  ∀ tx, tx ∈ txs ↔ ∃ w, waiting f !! tx_hash tx = Some w ∧ tx = wt_transaction w ∧ tx_hash tx ∈ hs.
Proof using Hhash Htag.
  revert f. induction hs as [|h hs IH]; intros f Hf; cbn [future_remove].
  { split_and!; [done| |constructor|].
    - symmetry. apply map_filter_id. intros. apply not_elem_of_nil.
    - intros tx. split; [intros Hx; by apply not_elem_of_nil in Hx|].
      intros (w&_&_&Hx). by apply not_elem_of_nil in Hx. }
  destruct (waiting f !! h) as [w|] eqn:Hw.
  2:{ specialize (IH f Hf). destruct (future_remove _ f hs) as [f' txs]. destruct IH as (IH1&->&IH3&IH4).
    split_and!; [done| |done|].
    - apply map_filter_ext. intros k v Hk. cbn. rewrite elem_of_cons. split; [|tauto].
      intros Hn [->|?]; [congruence|done].
    - intros tx. rewrite IH4. setoid_rewrite elem_of_cons. split; [naive_solver|].
      intros (v&Hv&->&[Hx|Hx]); [|by exists v]. by rewrite Hx, Hw in Hv. }
  destruct (fo_waiting _ Hf h w Hw) as [Hhash_w Hmiss].
  match goal with |- context [future_remove _ ?x hs] => set (f1 := x); assert (future_ok f1) as Hf1 end.
  { destruct Hf as [Hi Hwt]. constructor; cbn.
    - eapply indexed_ext; [|by apply unwant_indexed]. intros x t. cbn beta. unfold misses.
      rewrite elem_of_tag_order, lookup_delete. destruct (decide (h = x)) as [<-|Hx]; [|naive_solver].
      rewrite Hw. naive_solver.
    - intros x v. rewrite lookup_delete. case_decide; [done|apply Hwt]. }
  specialize (IH f1 Hf1). destruct (future_remove _ f1 hs) as [f' txs]. destruct IH as (IH1&->&IH3&IH4).
  cbn [f1 waiting] in *. split_and!; [done| | |].
  - apply map_eq. intros k. apply option_eq. intros v.
    rewrite !map_lookup_filter_Some, lookup_delete_Some, elem_of_cons. cbn. naive_solver.
  - cbn [map]. constructor; [|done]. intros (tx&Heq&Hx)%list_elem_of_fmap. apply IH4 in Hx as (v&Hv&_).
    rewrite <- Heq, Hhash_w, lookup_delete_eq in Hv. done.
  - intros tx. rewrite elem_of_cons, IH4. setoid_rewrite elem_of_cons. split.
    + intros [->|(v&Hv&->&Hx)]; [exists w; rewrite Hhash_w; naive_solver|].
      apply lookup_delete_Some in Hv as [_ Hv]. exists v. naive_solver.
    + intros (v&Hv&->&Hx). destruct (decide (tx_hash (wt_transaction v) = h)) as [He|He].
      * left. rewrite He in Hv. congruence.
      * right. exists v. split_and!; [by apply lookup_delete_Some|done|naive_solver].
Qed.
End future_facts.
