(* ===== verification/TxReady.v ===== *)
(** * Transactions that are ready (src/client/transaction-pool/graph/src/ready.rs)

    The ready queue is a graph: each transaction lists the transactions it
    unlocks, and counts the required tags that nothing in the queue provides.  The
    iterator walks the graph from the transactions that need no other. *)
From S2P Require Import Prelude TxFuture.

Local Open Scope Z_scope.

Section ready.
Context {Hash Tag Ex : Type} `{Countable Hash, Countable Tag}.

(** The order in which a hash set of hashes is iterated. *)
Context (hash_order : gset Hash → list Hash).

Abbreviation tx := (Transaction (Hash := Hash) (Tag := Tag) (Ex := Ex)).
Abbreviation wtx := (WaitingTransaction (Hash := Hash) (Tag := Tag) (Ex := Ex)).

(** ** Data *)

(** The errors of the pool (src/primitives/transaction-pool/src/error.rs) that
    the queues give. *)
Inductive PoolError : Type :=
| AlreadyImported (h : Hash)
| TooLowPriority (old new : Z)
| CycleDetected
| RejectedFutureTransaction.

Record TransactionRef : Type := MkTransactionRef {
  tr_transaction : tx;
  insertion_id : Z;
}.

Definition then_with (c c' : comparison) : comparison := match c with Eq => c' | _ => c end.

Definition ref_cmp (a b : TransactionRef) : comparison :=
  then_with (priority (tr_transaction a) ?= priority (tr_transaction b))
    (then_with (valid_till (tr_transaction b) ?= valid_till (tr_transaction a))
       (insertion_id b ?= insertion_id a)).

Record ReadyTx : Type := MkReadyTx {
  rt_transaction : TransactionRef;
  unlocks : list Hash;
  requires_offset : Z;
}.

(** The ordered set [best] is the list of its elements, in increasing order. *)
Record ReadyTransactions : Type := MkReadyTransactions {
  next_id : Z;
  provided_tags : gmap Tag Hash;
  ready : gmap Hash ReadyTx;
  best : list TransactionRef;
}.

Definition ready_default : ReadyTransactions := MkReadyTransactions 0 ∅ ∅ [].

Definition tx_of (r : ReadyTx) : tx := tr_transaction (rt_transaction r).

(** ** Ordered sets *)

(** [BTreeSet::insert] keeps an element that is there already. *)
Fixpoint set_insert (x : TransactionRef) (l : list TransactionRef) : list TransactionRef :=
  match l with
  | [] => [x]
  | y :: l' =>
      match ref_cmp x y with
      | Lt => x :: l
      | Eq => l
      | Gt => y :: set_insert x l'
      end
  end.

Fixpoint set_remove (x : TransactionRef) (l : list TransactionRef) : list TransactionRef :=
  match l with
  | [] => []
  | y :: l' =>
      match ref_cmp x y with
      | Lt => l
      | Eq => l'
      | Gt => y :: set_remove x l'
      end
  end.

(** ** Vectors *)

Definition remove_item (l : list Hash) (item : Hash) : list Hash :=
  match position (λ i, bool_decide (i = item)) l with
  | Some idx => match swap_remove idx l with Some (_, l') => l' | None => l end
  | None => l
  end.

Definition set_unlocks (r : ReadyTx) (l : list Hash) : ReadyTx :=
  MkReadyTx (rt_transaction r) l (requires_offset r).

(** ** Removing *)

(** The loop over the required tags of a removed transaction: it removes the
    hash of the transaction that provides the tag from its own list. *)
Definition drop_unlock (provided : gmap Tag Hash) (m : gmap Hash ReadyTx) (tag : Tag) : gmap Hash ReadyTx :=
  match provided !! tag with
  | Some hash => alter (λ r, set_unlocks r (remove_item (unlocks r) hash)) hash m
  | None => m
  end.

(** A tag of a removed transaction that does not stay in the queue. *)
Definition invalidates (filtered : option (gset Tag)) (tag : Tag) : bool :=
  match filtered with Some f => negb (bool_decide (tag ∈ f)) | None => true end.

(** One transaction leaves the queue; the flag tells whether its tags are gone. *)
Definition detach (q : ReadyTransactions) (filtered : option (gset Tag)) (hash : Hash) (r : ReadyTx) :
    ReadyTransactions * bool :=
  let invalidated := filter (λ tag, invalidates filtered tag = true) (provides (tx_of r)) in
  let provided := foldl (λ m tag, delete tag m) (provided_tags q) invalidated in
  (MkReadyTransactions (next_id q) provided
     (foldl (drop_unlock provided) (delete hash (ready q)) (requires (tx_of r)))
     (set_remove (rt_transaction r) (best q)),
   negb (bool_decide (invalidated = []))).

(** The loop; the vector [to_remove] is kept with its last element first.
    [None] is running out of fuel. *)
Fixpoint remove_loop (fuel : nat) (q : ReadyTransactions) (filtered : option (gset Tag))
    (to_remove : list Hash) (removed : list tx) : option (ReadyTransactions * list tx) :=
  match to_remove with
  | [] => Some (q, removed)
  | hash :: to_remove' =>
      match fuel with
      | O => None
      | S fuel' =>
          match ready q !! hash with
          | Some r =>
              let '(q', gone) := detach q filtered hash r in
              remove_loop fuel' q' filtered (if gone then reverse (unlocks r) ++ to_remove' else to_remove')
                (removed ++ [tx_of r])
          | None => remove_loop fuel' q filtered to_remove' removed
          end
      end
  end.

(** The number of unlocked transactions in the queue. *)
Definition total_unlocks (q : ReadyTransactions) : nat :=
  length (flat_map (λ kv, unlocks kv.2) (map_to_list (ready q))).

Definition remove_subtree_with_tag_filter (q : ReadyTransactions) (to_remove : list Hash)
    (filtered : option (gset Tag)) : option (ReadyTransactions * list tx) :=
  remove_loop (length to_remove + total_unlocks q) q filtered (reverse to_remove) [].

Definition remove_subtree (q : ReadyTransactions) (hashes : list Hash) :
    option (ReadyTransactions * list tx) :=
  remove_subtree_with_tag_filter q hashes None.

(** ** Importing *)

Definition saturating_add (w a b : Z) : Z := Z.min (2 ^ w - 1) (a + b).

Definition replace_hashes (q : ReadyTransactions) (t : tx) : gset Hash :=
  list_to_set (omap (λ tag, provided_tags q !! tag) (provides t)).

(** The transactions the new one takes the tags of. *)
Definition replaced_txs (q : ReadyTransactions) (t : tx) : list ReadyTx :=
  omap (λ h, ready q !! h) (hash_order (replace_hashes q t)).

Definition replace_previous (q : ReadyTransactions) (t : tx) :
    option (ReadyTransactions * result PoolError (list tx * list Hash)) :=
  let hashes := replace_hashes q t in
  if decide (hashes = ∅) then Some (q, Ok ([], []))
  else
    let old_priority := foldl (λ total r, saturating_add 64 total (priority (tx_of r))) 0 (replaced_txs q t) in
    if priority t <=? old_priority then Some (q, Err (TooLowPriority old_priority (priority t)))
    else
      let unlocked := flat_map unlocks (replaced_txs q t) in
      '(q', removed) ← remove_subtree_with_tag_filter q (hash_order hashes) (Some (list_to_set (provides t)));
      Some (q', Ok (removed, unlocked)).

(** The loop over the required tags: the links, whether one was made, and the
    number of tags that nothing in the queue provides. *)
Fixpoint link_requires (provided : gmap Tag Hash) (hash : Hash) (m : gmap Hash ReadyTx) (tags : list Tag) :
    run (gmap Hash ReadyTx * bool * Z) :=
  match tags with
  | [] => Ok (m, true, 0)
  | tag :: tags' =>
      match provided !! tag with
      | Some other =>
          r ← expect (m !! other);
          '(m', _, offset) ← link_requires provided hash (<[other := set_unlocks r (unlocks r ++ [hash])]> m) tags';
          Ok (m', false, offset)
      | None =>
          '(m', goes_to_best, offset) ← link_requires provided hash m tags';
          Ok (m', goes_to_best, offset + 1)
      end
  end.

Definition ready_import (q : ReadyTransactions) (w : wtx) :
    option (ReadyTransactions * result PoolError (list tx)) :=
  let t := wt_transaction w in
  let hash := tx_hash t in
  if negb (is_ready w) then Some (q, Panic)
  else if bool_decide (is_Some (ready q !! hash)) then Some (q, Panic)
  else
    let id := next_id q +[64] 1 in
    let q1 := MkReadyTransactions id (provided_tags q) (ready q) (best q) in
    '(q2, r) ← replace_previous q1 t;
    match r with
    | Err e => Some (q2, Err e)
    | Panic => Some (q2, Panic)
    | Ok (replaced, unlocked) =>
        match link_requires (provided_tags q2) hash (ready q2) (requires t) with
        | Ok (m, goes_to_best, offset) =>
            let ref := MkTransactionRef t id in
            Some (MkReadyTransactions id
                    (foldl (λ p tag, <[tag := hash]> p) (provided_tags q2) (provides t))
                    (<[hash := MkReadyTx ref unlocked offset]> m)
                    (if goes_to_best : bool then set_insert ref (best q2) else best q2),
                  Ok replaced)
        | _ => Some (q2, Panic)
        end
    end.

(** ** Pruning *)

(** [find_previous] for each required tag; the tags to remove too are collected. *)
Fixpoint find_previous (provided : gmap Tag Hash) (hash : Hash) (m : gmap Hash ReadyTx) (tags : list Tag) :
    gmap Hash ReadyTx * list Tag :=
  match tags with
  | [] => (m, [])
  | tag :: tags' =>
      match (prev ← provided !! tag; r ← m !! prev; Some (prev, r)) with
      | Some (prev, r) =>
          let r' := set_unlocks r (remove_item (unlocks r) hash) in
          let '(m', more) := find_previous provided hash (<[prev := r']> m) tags' in
          (m', (if bool_decide (unlocks r' = []) then provides (tx_of r') else []) ++ more)
      | None => find_previous provided hash m tags'
      end
  end.

(** The transactions that were unlocked by a pruned one. *)
Definition unlock_one (s : gmap Hash ReadyTx * list TransactionRef) (hash : Hash) :
    gmap Hash ReadyTx * list TransactionRef :=
  let '(m, b) := s in
  match m !! hash with
  | Some r =>
      let r' := MkReadyTx (rt_transaction r) (unlocks r) (requires_offset r + 1) in
      (<[hash := r']> m,
       if requires_offset r' =? Z.of_nat (length (requires (tx_of r'))) then set_insert (rt_transaction r') b
       else b)
  | None => s
  end.

(** Clears the other tags of a pruned transaction; each must be mapped to it. *)
Fixpoint clear_provided (current : Tag) (hash : Hash) (provided : gmap Tag Hash) (tags : list Tag) :
    run (gmap Tag Hash) :=
  match tags with
  | [] => Ok provided
  | tag :: tags' =>
      if decide (provided !! tag = if decide (current = tag) then None else Some hash)
      then clear_provided current hash (delete tag provided) tags'
      else Panic
  end.

(** The loop; the vector [to_remove] is kept with its last element first.
    [None] is running out of fuel. *)
Fixpoint prune_loop (fuel : nat) (q : ReadyTransactions) (to_remove : list Tag) (removed : list tx) :
    option (run (ReadyTransactions * list tx)) :=
  match to_remove with
  | [] => Some (Ok (q, removed))
  | tag :: to_remove' =>
      match fuel with
      | O => None
      | S fuel' =>
          match provided_tags q !! tag with
          | None => prune_loop fuel' q to_remove' removed
          | Some hash =>
              let provided := delete tag (provided_tags q) in
              match ready q !! hash with
              | None => prune_loop fuel' (MkReadyTransactions (next_id q) provided (ready q) (best q)) to_remove' removed
              | Some r =>
                  let t := tx_of r in
                  let '(m1, more) := find_previous provided (tx_hash t) (delete hash (ready q)) (requires t) in
                  let '(m2, best') := foldl unlock_one (m1, best q) (unlocks r) in
                  match clear_provided tag (tx_hash t) provided (provides t) with
                  | Ok provided' =>
                      prune_loop fuel' (MkReadyTransactions (next_id q) provided' m2 best')
                        (reverse more ++ to_remove') (removed ++ [t])
                  | _ => Some Panic
                  end
              end
          end
      end
  end.

(** How many tags the loop can take from [to_remove]. *)
Definition prune_fuel (q : ReadyTransactions) : nat :=
  let txs := map (λ kv, tx_of kv.2) (map_to_list (ready q)) in
  S (length (flat_map requires txs) * length (flat_map provides txs)).

Definition ready_prune_tags (q : ReadyTransactions) (tag : Tag) : option (run (ReadyTransactions * list tx)) :=
  prune_loop (prune_fuel q) q [tag] [].

(** ** Queries *)

Definition ready_contains (q : ReadyTransactions) (hash : Hash) : bool :=
  bool_decide (is_Some (ready q !! hash)).

Definition ready_by_hashes (q : ReadyTransactions) (hashes : list Hash) : list (option tx) :=
  map (λ h, tx_of <$> ready q !! h) hashes.

Definition ready_by_hash (q : ReadyTransactions) (hash : Hash) : option tx :=
  match ready_by_hashes q [hash] with
  | x :: _ => x
  | [] => None
  end.

Definition ready_values (q : ReadyTransactions) : list ReadyTx :=
  omap (λ h, ready q !! h) (hash_order (dom (ready q))).

Definition ready_fold {R} (q : ReadyTransactions) (g : option R → ReadyTx → option R) : option R :=
  foldl g None (ready_values q).

Definition ready_len (q : ReadyTransactions) : Z := Z.of_nat (size (ready q)).

Definition ready_bytes (q : ReadyTransactions) : Z :=
  foldl (λ acc r, acc + tx_bytes (tx_of r)) 0 (ready_values q).

(** ** The iterator *)

(** The map of all transactions is shared with the queue: each step is given the
    map of that moment. *)
Record BestIterator : Type := MkBestIterator {
  awaiting : gmap Hash (Z * TransactionRef);
  it_best : list TransactionRef;
}.

Definition iter_get (q : ReadyTransactions) : BestIterator := MkBestIterator ∅ (best q).

Definition best_or_awaiting (it : BestIterator) (satisfied : Z) (ref : TransactionRef) : BestIterator :=
  if Z.of_nat (length (requires (tr_transaction ref))) <=? satisfied
  then MkBestIterator (awaiting it) (set_insert ref (it_best it))
  else MkBestIterator (<[tx_hash (tr_transaction ref) := (satisfied, ref)]> (awaiting it)) (it_best it).

(** One transaction that a returned one unlocks. *)
Definition iter_unlock (all : gmap Hash ReadyTx) (it : BestIterator) (hash : Hash) : BestIterator :=
  match awaiting it !! hash with
  | Some (satisfied, ref) =>
      best_or_awaiting (MkBestIterator (delete hash (awaiting it)) (it_best it)) (satisfied + 1) ref
  | None =>
      match all !! hash with
      | Some next => best_or_awaiting it (requires_offset next + 1) (rt_transaction next)
      | None => it
      end
  end.

(** [next]: the recursion is on the number of elements of [it_best]. *)
Fixpoint iter_next_loop (n : nat) (all : gmap Hash ReadyTx) (it : BestIterator) : BestIterator * option tx :=
  match n, last (it_best it) with
  | S n', Some b =>
      let it' := MkBestIterator (awaiting it) (set_remove b (it_best it)) in
      match all !! tx_hash (tr_transaction b) with
      | Some r => (foldl (iter_unlock all) it' (unlocks r), Some (tr_transaction b))
      | None => iter_next_loop n' all it'
      end
  | _, _ => (it, None)
  end.

Definition iter_next (all : gmap Hash ReadyTx) (it : BestIterator) : BestIterator * option tx :=
  iter_next_loop (length (it_best it)) all it.

(** What the iterator returns while the queue does not change, at most [fuel]
    transactions. *)
Fixpoint iter_take (fuel : nat) (all : gmap Hash ReadyTx) (it : BestIterator) : list tx :=
  match fuel with
  | O => []
  | S fuel' =>
      match iter_next all it with
      | (it', Some t) => t :: iter_take fuel' all it'
      | (_, None) => []
      end
  end.
End ready.
