(* ===== verification/TxReadyFacts.v ===== *)
(** * Correctness of the ready queue *)
From S2P Require Import Prelude TxFuture TxReady.

Local Open Scope Z_scope.

Section ready_facts.
Context {Hash Tag Ex : Type} `{Countable Hash, Countable Tag}.

Abbreviation tx := (Transaction (Hash := Hash) (Tag := Tag) (Ex := Ex)).
Abbreviation wtx := (WaitingTransaction (Hash := Hash) (Tag := Tag) (Ex := Ex)).
Abbreviation ref := (TransactionRef (Hash := Hash) (Tag := Tag) (Ex := Ex)).
Abbreviation rtx := (ReadyTx (Hash := Hash) (Tag := Tag) (Ex := Ex)).
Abbreviation queue := (ReadyTransactions (Hash := Hash) (Tag := Tag) (Ex := Ex)).

(** ** Ordered sets *)

Definition ref_lt (a b : ref) : Prop := ref_cmp a b = Lt.

Lemma ref_cmp_spec (a b : ref) :
  let p := priority ∘ tr_transaction in let v := valid_till ∘ tr_transaction in
  match ref_cmp a b with
  | Lt => p a < p b ∨ p a = p b ∧ (v b < v a ∨ v a = v b ∧ insertion_id b < insertion_id a)
  | Eq => p a = p b ∧ v a = v b ∧ insertion_id a = insertion_id b
  | Gt => p b < p a ∨ p a = p b ∧ (v a < v b ∨ v a = v b ∧ insertion_id a < insertion_id b)
  end.
Proof.
  cbn. unfold ref_cmp, then_with.
  destruct (Z.compare_spec (priority (tr_transaction a)) (priority (tr_transaction b))); [|lia|lia].
  destruct (Z.compare_spec (valid_till (tr_transaction b)) (valid_till (tr_transaction a))); [|lia|lia].
  destruct (Z.compare_spec (insertion_id b) (insertion_id a)); lia.
Qed.

Ltac ref_order :=
  unfold ref_lt in *;
  repeat match goal with
  | H : ref_cmp ?a ?b = _ |- _ => let S := fresh "S" in
      pose proof (ref_cmp_spec a b) as S; rewrite H in S; clear H
  end;
  try match goal with
  | |- ref_cmp ?a ?b = _ => let S := fresh "S" in
      pose proof (ref_cmp_spec a b) as S; destruct (ref_cmp a b)
  end; cbn in *; first [lia | reflexivity].

Lemma ref_lt_trans a b c : ref_lt a b → ref_lt b c → ref_lt a c.
Proof. intros. ref_order. Qed.

Lemma ref_lt_irrefl a : ¬ ref_lt a a.
Proof. intros Ha. ref_order. Qed.

Lemma ref_cmp_refl (a : ref) : ref_cmp a a = Eq.
Proof. ref_order. Qed.

Lemma ref_cmp_gt (a b : ref) : ref_cmp a b = Gt → ref_lt b a.
Proof. intros. ref_order. Qed.

Abbreviation sorted := (StronglySorted ref_lt).

(** No other element of the set has the same place in the order. *)
Definition separate (x : ref) (l : list ref) : Prop := ∀ y, y ∈ l → ref_cmp x y = Eq → y = x.

Lemma set_insert_elem x l y : separate x l → y ∈ set_insert x l ↔ y = x ∨ y ∈ l.
Proof.
  intros Hs. induction l as [|z l IH]; cbn [set_insert]; [by rewrite list_elem_of_singleton, elem_of_nil; tauto|].
  destruct (ref_cmp x z) eqn:Hc; [|by rewrite elem_of_cons|].
  - rewrite (Hs z) in * by (done || by left). rewrite elem_of_cons. tauto.
  - rewrite !elem_of_cons, IH by (intros w Hw; apply Hs; by right). tauto.
Qed.

Lemma set_insert_forall (P : ref → Prop) x l : P x → Forall P l → Forall P (set_insert x l).
Proof. intros Hx. induction 1 as [|y l Hy Hl IH]; cbn [set_insert]; [auto|]. destruct (ref_cmp x y); auto. Qed.

Lemma set_insert_sorted x l : sorted l → sorted (set_insert x l).
Proof.
  induction 1 as [|y l Hl IH Hy]; cbn [set_insert]; [by repeat constructor|].
  destruct (ref_cmp x y) eqn:Hc; [by constructor| |].
  - constructor; [by constructor|]. constructor; [done|].
    eapply Forall_impl; [exact Hy|]. intros z Hz. by eapply ref_lt_trans.
  - constructor; [done|]. apply set_insert_forall; [by apply ref_cmp_gt|done].
Qed.

Lemma set_remove_sublist (x : ref) l : sublist (set_remove x l) l.
Proof.
  induction l as [|y l IH]; cbn [set_remove]; [done|]. destruct (ref_cmp x y); [by apply sublist_cons|done|].
  by apply sublist_skip.
Qed.

Lemma set_remove_sorted x l : sorted l → sorted (set_remove x l).
Proof.
  induction 1 as [|y l Hl IH Hy]; cbn [set_remove]; [constructor|].
  destruct (ref_cmp x y); [done|by constructor|]. constructor; [done|].
  rewrite Forall_forall in *. intros z Hz. apply Hy. eapply elem_of_sublist; [exact Hz|apply set_remove_sublist].
Qed.

Lemma set_remove_elem x l y : sorted l → separate x l → y ∈ set_remove x l ↔ y ∈ l ∧ y ≠ x.
Proof.
  intros Hl Hs. induction Hl as [|z l Hl IH Hz]; cbn [set_remove]; [rewrite elem_of_nil; tauto|].
  rewrite Forall_forall in Hz. destruct (ref_cmp x z) eqn:Hc.
  - pose proof (Hs z ltac:(by left) Hc) as ->. rewrite elem_of_cons. split; [|tauto].
    intros Hy. split; [by right|]. intros ->. by apply (ref_lt_irrefl x), Hz.
  - rewrite elem_of_cons. split; [|tauto]. intros Hy. split; [done|]. intros ->.
    apply (ref_lt_irrefl x). destruct Hy as [->|Hy]; [done|]. eapply ref_lt_trans; [exact Hc|]. by apply Hz.
  - rewrite !elem_of_cons, IH by (intros w Hw; apply Hs; by right). split; [|tauto].
    intros [->|[? ?]]; [|tauto]. split; [by left|]. intros ->. by rewrite ref_cmp_refl in Hc.
Qed.

(** The last element of a sorted set is above the others. *)
Lemma last_greatest l b y : sorted l → last l = Some b → y ∈ l → y = b ∨ ref_lt y b.
Proof.
  intros Hl [l' ->]%last_Some [Hy|Hy%list_elem_of_singleton]%elem_of_app; [right|by left].
  apply list_elem_of_lookup in Hy as [i Hi].
  eapply (strongly_sorted_lookup _ (l' ++ [b]) i (length l')); [done| | |].
  - rewrite lookup_app_l by (by eapply lookup_lt_Some). done.
  - by rewrite lookup_app_r, Nat.sub_diag by lia.
  - by eapply lookup_lt_Some.
Qed.

Lemma sorted_NoDup l : sorted l → NoDup l.
Proof.
  induction 1 as [|x l Hl IH Hx]; constructor; [|done]. intros Hin. rewrite Forall_forall in Hx.
  by apply (ref_lt_irrefl x), Hx.
Qed.

(** ** Links *)

(** How often a transaction is listed by another one. *)
Definition weight (m : gmap Hash rtx) (x h : Hash) : Z :=
  match m !! h with Some r => occ x (unlocks r) | None => 0 end.

(** How often it is listed in the queue. *)
Definition links (m : gmap Hash rtx) (x : Hash) : Z := sum_of (weight m x) (elements (dom m)).

Lemma weight_nonneg m x h : 0 ≤ weight m x h.
Proof. unfold weight. destruct (m !! h); [apply occ_nonneg|done]. Qed.

Lemma links_nonneg m x : 0 ≤ links m x.
Proof. apply sum_of_nonneg. intros. apply weight_nonneg. Qed.

(** Transactions that are not in the queue do not count. *)
Lemma links_superset m x (S : gset Hash) : dom m ⊆ S → links m x = sum_of (weight m x) (elements S).
Proof.
  intros Hd. rewrite (union_difference_L _ _ Hd), elements_disj_union by set_solver.
  rewrite sum_of_app. rewrite (sum_of_zero _ (elements (S ∖ dom m))); [unfold links; lia|].
  intros h Hh%elem_of_elements. apply elem_of_difference in Hh as [_ Hh].
  apply not_elem_of_dom in Hh. unfold weight. by rewrite Hh.
Qed.

(** The links of two parts of a queue. *)
Lemma links_split m x (S : gset Hash) :
  links m x = sum_of (weight m x) (elements S) + links (filter (λ kv, kv.1 ∉ S) m) x.
Proof.
  rewrite (links_superset m x (S ∪ dom m)), (links_superset (filter _ m) x (S ∪ dom m)); [| |set_solver].
  2:{ etrans; [apply dom_filter_subseteq|set_solver]. }
  rewrite (union_difference_L S (S ∪ dom m)) by set_solver.
  rewrite elements_disj_union, !sum_of_app by set_solver.
  rewrite (sum_of_zero (weight (filter _ m) x) (elements S)).
  - f_equal. rewrite Z.add_0_l. apply sum_of_ext. intros h Hh%elem_of_elements. unfold weight.
    apply elem_of_difference in Hh as [_ Hh]. destruct (m !! h) as [r|] eqn:Hm.
    + by rewrite (proj2 (map_lookup_filter_Some _ _ _ _) (conj Hm Hh)).
    + by rewrite (map_lookup_filter_None_2 _ _ _ (or_introl Hm)).
  - intros h Hh%elem_of_elements. unfold weight. rewrite map_lookup_filter_None_2; [done|].
    right. intros r _ Hn. by apply Hn.
Qed.

(** Changing one transaction. *)
Lemma links_insert m x h r :
  links (<[h := r]> m) x = links m x - weight m x h + occ x (unlocks r).
Proof.
  rewrite (links_superset _ x ({[h]} ∪ dom m)), (links_superset m x ({[h]} ∪ dom m))
    by (rewrite ?dom_insert_L; set_solver).
  rewrite (union_difference_L {[h]} ({[h]} ∪ dom m)) by set_solver.
  rewrite elements_disj_union, !sum_of_app, elements_singleton by set_solver. cbn.
  unfold weight at 1. rewrite lookup_insert_eq.
  rewrite (sum_of_ext (weight (<[h := r]> m) x) (weight m x)); [lia|].
  intros y Hy%elem_of_elements. unfold weight. rewrite lookup_insert_ne; [done|set_solver].
Qed.

Lemma links_delete m x h : links m x = weight m x h + links (delete h m) x.
Proof.
  rewrite (links_split m x {[h]}), elements_singleton. cbn. rewrite Z.add_0_r. f_equal. f_equal.
  apply map_eq. intros y. rewrite lookup_delete. destruct (decide (h = y)) as [->|Hy].
  - apply map_lookup_filter_None_2. right. intros ? _ Hn. apply Hn. cbn. set_solver.
  - destruct (m !! y) as [r|] eqn:Hm.
    + apply map_lookup_filter_Some. split; [done|cbn; set_solver].
    + apply map_lookup_filter_None_2. by left.
Qed.

(** ** Invariant *)

(** What the pool relies on: a transaction provides no tag twice, and none that
    it requires; its priority is a machine integer. *)
Definition good (t : tx) : Prop :=
  NoDup (provides t) ∧ (∀ tag, tag ∈ provides t → tag ∉ requires t) ∧ fits 64 (priority t).

(** The references in the queue. *)
Definition known (q : queue) (a : ref) : Prop :=
  a ∈ best q ∨ ∃ h r, ready q !! h = Some r ∧ a = rt_transaction r.

(** What holds whatever was imported before: the transactions of the queue are
    among [seen], the references have different ids, and the index of the
    provided tags is exact.  Nothing is said of the links. *)
Record loose_ok (seen : gset Hash) (q : queue) : Prop := {
  ls_next : 0 ≤ next_id q;
  ls_ready : ∀ h r, ready q !! h = Some r →
    tx_hash (tx_of r) = h ∧ h ∈ seen ∧ good (tx_of r) ∧ 0 ≤ requires_offset r;
  ls_known : ∀ a b, known q a → known q b → insertion_id a = insertion_id b → a = b;
  ls_id : ∀ a, known q a → insertion_id a ≤ next_id q;
  ls_sorted : sorted (best q);
  ls_provided : ∀ tag h, provided_tags q !! tag = Some h ↔ ∃ r, ready q !! h = Some r ∧ tag ∈ provides (tx_of r);
}.

(** The links are exact.  The lists of unlocked transactions and the set of the
    best ones may still have transactions that were removed: [seen] has these
    too, and none of [seen] is imported. *)
Record ready_ok (seen : gset Hash) (q : queue) : Prop := {
  ro_loose :> loose_ok seen q;
  ro_unlocks : ∀ h r x, ready q !! h = Some r → x ∈ unlocks r → x ∈ seen;
  ro_seen : ∀ a, a ∈ best q → tx_hash (tr_transaction a) ∈ seen;
  ro_best : ∀ h r, ready q !! h = Some r →
    rt_transaction r ∈ best q ↔ requires_offset r = Z.of_nat (length (requires (tx_of r)));
  ro_current : ∀ a r, a ∈ best q → ready q !! tx_hash (tr_transaction a) = Some r → a = rt_transaction r;
  ro_balance : ∀ h r, ready q !! h = Some r →
    Z.of_nat (length (requires (tx_of r))) = requires_offset r + links (ready q) h;
  ro_links : ∀ h r x r', ready q !! h = Some r → ready q !! x = Some r' → x ∈ unlocks r →
    ∃ tag, tag ∈ provides (tx_of r) ∧ tag ∈ requires (tx_of r');
  ro_complete : ∀ tag h r x r', ready q !! h = Some r → ready q !! x = Some r' →
    tag ∈ provides (tx_of r) → tag ∈ requires (tx_of r') →
    insertion_id (rt_transaction r) < insertion_id (rt_transaction r') → x ∈ unlocks r;
}.

Lemma loose_default_ok seen : loose_ok seen ready_default.
Proof.
  assert (∀ a, ¬ known ready_default a) as Hk.
  { intros a [Ha|(h&r&Ha&_)]; [by apply not_elem_of_nil in Ha|cbn in Ha; by rewrite lookup_empty in Ha]. }
  constructor; cbn; try (intros; by rewrite lookup_empty in *);
    try (intros a Ha; by destruct (Hk a)); try (intros a b Ha; by destruct (Hk a)).
  - done.
  - constructor.
  - intros tag h. rewrite lookup_empty. split; [done|]. intros (r&Hr&_). by rewrite lookup_empty in Hr.
Qed.

Lemma ready_default_ok seen : ready_ok seen ready_default.
Proof.
  constructor; [apply loose_default_ok|..]; cbn; try (intros; by rewrite lookup_empty in *);
    try (intros a Ha; by apply not_elem_of_nil in Ha); intros a r Ha; by apply not_elem_of_nil in Ha.
Qed.

Lemma known_separate seen q x : loose_ok seen q → known q x → separate x (best q).
Proof.
  intros Hq Hx y Hy Hc. apply (ls_known _ _ Hq); [by left|done|]. pose proof (ref_cmp_spec x y) as Hs.
  rewrite Hc in Hs. cbn in Hs. lia.
Qed.

(** No transaction lists itself. *)
Lemma no_self seen q h r : ready_ok seen q → ready q !! h = Some r → h ∉ unlocks r.
Proof.
  intros Hq Hr Hin. destruct (ro_links _ _ Hq h r h r Hr Hr Hin) as (tag&Hp&Hq').
  destruct (ls_ready _ _ Hq h r Hr) as (_&_&(_&Hg&_)&_). by apply (Hg tag Hp).
Qed.

(** ** Removing *)

Lemma remove_item_absent l (h : Hash) : h ∉ l → remove_item l h = l.
Proof.
  intros Hh. unfold remove_item. replace (position _ l) with (@None nat); [done|].
  symmetry. apply position_None. intros x Hx. apply bool_decide_eq_false. by intros ->.
Qed.

Lemma set_unlocks_id (r : rtx) : set_unlocks r (unlocks r) = r.
Proof. by destruct r. Qed.

Lemma remove_item_perm l (h : Hash) : h ∈ l → h :: remove_item l h ≡ₚ l.
Proof.
  intros Hh. unfold remove_item.
  destruct (position (λ i, bool_decide (i = h)) l) as [i|] eqn:Hp.
  - apply position_Some in Hp as [(x&Hx&->%bool_decide_eq_true) _].
    destruct (swap_remove_is_Some i l) as [[y l'] Hs]; [by eapply lookup_lt_Some|]. rewrite Hs.
    pose proof (swap_remove_lookup _ _ _ _ Hs). rewrite (swap_remove_perm _ _ _ _ Hs). by simplify_eq.
  - rewrite position_None in Hp. specialize (Hp h Hh). by apply bool_decide_eq_false in Hp.
Qed.

Lemma remove_item_spec l (h : Hash) :
  (∀ y, y ≠ h → occ y (remove_item l h) = occ y l) ∧ (∀ y, y ∈ remove_item l h → y ∈ l) ∧
  (length (remove_item l h) ≤ length l)%nat.
Proof.
  destruct (decide (h ∈ l)) as [Hh|Hh]; [|by rewrite remove_item_absent].
  pose proof (remove_item_perm l h Hh) as Hp. split_and!.
  - intros y Hy. rewrite <- Hp at 2. rewrite occ_cons, decide_False by done. lia.
  - intros y Hy. rewrite <- Hp. by right.
  - apply Permutation_length in Hp. cbn in Hp. lia.
Qed.

(** The transactions of [R] are gone, and the others stay as they were, but for
    one that lists itself and may be taken off its own list. *)
Definition left_by (R : gset Hash) (m m' : gmap Hash rtx) : Prop :=
  ∀ x, match m !! x with
  | Some r =>
      if decide (x ∈ R) then m' !! x = None
      else ∃ l, m' !! x = Some (set_unlocks r l) ∧ (x ∉ unlocks r → l = unlocks r) ∧
        ∀ y, y ≠ x → y ∈ l ↔ y ∈ unlocks r
  | None => m' !! x = None
  end.

Lemma left_by_inv R m m' x r' :
  left_by R m m' → m' !! x = Some r' →
  ∃ r l, m !! x = Some r ∧ (x ∉ R) ∧ r' = set_unlocks r l ∧ (x ∉ unlocks r → l = unlocks r) ∧
    (∀ y, y ≠ x → y ∈ l ↔ y ∈ unlocks r) ∧ ∀ y, y ∈ l → y ∈ unlocks r.
Proof.
  intros Hl Hx. specialize (Hl x). destruct (m !! x) as [r|]; [|congruence]. case_decide; [congruence|].
  destruct Hl as (l&Hl&HA&HB). exists r, l. split_and!; [done..|congruence|done|done|].
  intros y Hy. destruct (decide (y = x)) as [->|Hne]; [|by apply HB].
  destruct (decide (x ∈ unlocks r)) as [|Hn]; [done|]. by rewrite (HA Hn) in Hy.
Qed.

Lemma left_by_lookup R m m' x r :
  left_by R m m' → m !! x = Some r → x ∉ R →
  ∃ l, m' !! x = Some (set_unlocks r l) ∧ (x ∉ unlocks r → l = unlocks r) ∧ ∀ y, y ≠ x → y ∈ l ↔ y ∈ unlocks r.
Proof. intros Hl Hx Hn. specialize (Hl x). rewrite Hx in Hl. by rewrite decide_False in Hl. Qed.

Lemma left_by_refs R m m' x :
  left_by R m m' → rt_transaction <$> m' !! x = if decide (x ∈ R) then None else rt_transaction <$> m !! x.
Proof.
  intros Hl. specialize (Hl x). destruct (m !! x) as [r|]; [|rewrite Hl; by case_decide].
  case_decide; [by rewrite Hl|]. by destruct Hl as (l&->&_).
Qed.

Lemma left_by_refl m : left_by ∅ m m.
Proof.
  intros x. destruct (m !! x) as [r|]; [|done]. rewrite decide_False by set_solver. exists (unlocks r).
  by rewrite set_unlocks_id.
Qed.

Lemma left_by_trans R S m1 m2 m3 : left_by R m1 m2 → left_by S m2 m3 → left_by (R ∪ S) m1 m3.
Proof.
  intros Hm1 Hm2 x. specialize (Hm1 x). specialize (Hm2 x). destruct (m1 !! x) as [r|]; [|by rewrite Hm1 in Hm2].
  destruct (decide (x ∈ R)) as [HR|HR]; [rewrite decide_True by set_solver; by rewrite Hm1 in Hm2|].
  destruct Hm1 as (l1&E1&A1&B1). rewrite E1 in Hm2.
  destruct (decide (x ∈ S)) as [HS|HS]; [by rewrite decide_True by set_solver|]. rewrite decide_False by set_solver.
  destruct Hm2 as (l2&E2&A2&B2). exists l2. split_and!; [done| |].
  - intros Hx. rewrite A2; cbn; rewrite (A1 Hx); done.
  - intros y Hy. rewrite B2 by done. by apply B1.
Qed.

Lemma left_by_delete h m : left_by {[h]} m (delete h m).
Proof.
  intros x. rewrite lookup_delete. destruct (decide (h = x)) as [<-|Hne].
  - destruct (m !! h); [|done]. by rewrite decide_True by set_solver.
  - destruct (m !! x) as [r|]; [|done]. rewrite decide_False by set_solver. exists (unlocks r). by rewrite set_unlocks_id.
Qed.

Definition unlocks_total (m : gmap Hash rtx) : nat := length (flat_map (λ kv, unlocks kv.2) (map_to_list m)).

Lemma unlocks_total_delete m h (r : rtx) : m !! h = Some r → unlocks_total m = (length (unlocks r) + unlocks_total (delete h m))%nat.
Proof. intros Hr. unfold unlocks_total. rewrite <- length_app, <- (map_to_list_delete m h r Hr). done. Qed.

(** The loop that is meant to take the removed transaction off the lists of the
    transactions it depends on takes these off their own lists. *)
Lemma drop_unlock_left provided m tag :
  left_by ∅ m (drop_unlock provided m tag) ∧ (unlocks_total (drop_unlock provided m tag) ≤ unlocks_total m)%nat.
Proof.
  unfold drop_unlock. destruct (provided !! tag) as [h|]; [|split; [apply left_by_refl|lia]].
  destruct (m !! h) as [r|] eqn:Hr.
  2:{ assert (alter (λ r, set_unlocks r (remove_item (unlocks r) h)) h m = m) as ->; [|split; [apply left_by_refl|lia]].
    apply map_eq. intros x. destruct (decide (h = x)) as [<-|Hx]; [by rewrite lookup_alter_eq, Hr|by rewrite lookup_alter_ne]. }
  destruct (remove_item_spec (unlocks r) h) as (Ho&Hi&Hlen). split.
  - intros x. destruct (m !! x) as [rx|] eqn:Hx.
    2:{ destruct (decide (h = x)) as [<-|Hne]; [by rewrite lookup_alter_eq, Hx|by rewrite lookup_alter_ne]. }
    rewrite decide_False by set_solver. destruct (decide (h = x)) as [<-|Hne].
    + assert (rx = r) as -> by congruence. exists (remove_item (unlocks r) h). split_and!; [by rewrite lookup_alter_eq, Hr|by apply remove_item_absent|].
      intros y Hy. split; [apply Hi|]. intros Hin%occ_pos. destruct (decide (y ∈ remove_item (unlocks r) h)) as [|Hn]; [done|].
      apply occ_zero in Hn. rewrite Ho in Hn by done. lia.
    + exists (unlocks rx). by rewrite lookup_alter_ne, set_unlocks_id.
  - rewrite (unlocks_total_delete m h r Hr), (unlocks_total_delete _ h (set_unlocks r (remove_item (unlocks r) h))).
    + rewrite delete_alter_eq. cbn [unlocks set_unlocks]. lia.
    + by rewrite lookup_alter_eq, Hr.
Qed.

Lemma drop_unlocks_left provided tags m :
  left_by ∅ m (foldl (drop_unlock provided) m tags) ∧ (unlocks_total (foldl (drop_unlock provided) m tags) ≤ unlocks_total m)%nat.
Proof.
  revert m. induction tags as [|tag tags IH]; intros m; cbn [foldl]; [split; [apply left_by_refl|lia]|].
  destruct (drop_unlock_left provided m tag) as [Hd1 Hd2], (IH (drop_unlock provided m tag)) as [Hd3 Hd4]. split; [|lia].
  rewrite <- (left_id_L ∅ (∪) ∅). by eapply left_by_trans.
Qed.

(** The queue after the transactions of a set were removed. *)
Record after (filtered : option (gset Tag)) (q : queue) (R : gset Hash) (q' : queue) : Prop := {
  af_id : next_id q' = next_id q;
  af_ready : left_by R (ready q) (ready q');
  af_provided : ∀ tag, provided_tags q' !! tag =
    h ← provided_tags q !! tag; if decide (h ∈ R ∧ invalidates filtered tag = true) then None else Some h;
  af_sorted : sorted (best q');
  af_best : ∀ a, a ∈ best q' ↔ a ∈ best q ∧ ∀ h r, h ∈ R → ready q !! h = Some r → a ≠ rt_transaction r;
}.

(** The transactions that fall with another one. *)
Definition falls (filtered : option (gset Tag)) (q : queue) (x y : Hash) : Prop :=
  ∃ r, ready q !! x = Some r ∧ (∃ tag, tag ∈ provides (tx_of r) ∧ invalidates filtered tag = true) ∧ y ∈ unlocks r.

Lemma foldl_delete (p : gmap Tag Hash) tags tag :
  foldl (λ m t, delete t m) p tags !! tag = if decide (tag ∈ tags) then None else p !! tag.
Proof.
  revert p. induction tags as [|t tags IH]; intros p; cbn [foldl].
  { by rewrite decide_False by apply not_elem_of_nil. }
  rewrite IH, lookup_delete. repeat case_decide; set_solver.
Qed.

Lemma after_nothing filtered seen q : loose_ok seen q → after filtered q ∅ q.
Proof.
  intros Hq. constructor; [done|apply left_by_refl| |by apply Hq|].
  - intros tag. destruct (provided_tags q !! tag); cbn; [|done]. rewrite decide_False; [done|set_solver].
  - intros a. split; [|tauto]. intros Ha. split; [done|]. set_solver.
Qed.

(** With exact links the transactions that stay are as they were. *)
Lemma after_ready seen filtered q R q' h r :
  ready_ok seen q → after filtered q R q' → ready q' !! h = Some r ↔ ready q !! h = Some r ∧ h ∉ R.
Proof.
  intros Hq Ha. split.
  - intros (r0&l&Hr&HnR&->&Hl&_)%(left_by_inv _ _ _ _ _ (af_ready _ _ _ _ Ha)).
    by rewrite (Hl (no_self _ _ _ _ Hq Hr)), set_unlocks_id.
  - intros [Hr HnR]. destruct (left_by_lookup _ _ _ _ _ (af_ready _ _ _ _ Ha) Hr HnR) as (l&->&Hl&_).
    by rewrite (Hl (no_self _ _ _ _ Hq Hr)), set_unlocks_id.
Qed.

Lemma after_filter seen filtered q R q' :
  ready_ok seen q → after filtered q R q' → ready q' = filter (λ kv, kv.1 ∉ R) (ready q).
Proof.
  intros Hq Ha. apply map_eq. intros x. apply option_eq. intros r.
  by rewrite (after_ready _ _ _ _ _ _ _ Hq Ha), map_lookup_filter_Some.
Qed.

Lemma detach_after filtered seen q R q' h r :
  loose_ok seen q → after filtered q R q' → ready q' !! h = Some r →
  let '(q'', gone) := detach q' filtered h r in
  after filtered q ({[h]} ∪ R) q'' ∧ (length (unlocks r) + total_unlocks q'' ≤ total_unlocks q')%nat ∧
  (gone = true ↔ ∃ tag, tag ∈ provides (tx_of r) ∧ invalidates filtered tag = true).
Proof.
  intros Hq Ha Hr. unfold detach.
  destruct (left_by_inv _ _ _ _ _ (af_ready _ _ _ _ Ha) Hr) as (r0&l&Hr0&HnR&Heq&_).
  assert (tx_of r = tx_of r0 ∧ rt_transaction r = rt_transaction r0) as [Etx Ert] by (by rewrite Heq). clear Heq.
  set (inv := filter _ _). set (provided := foldl _ _ inv).
  destruct (drop_unlocks_left provided (requires (tx_of r)) (delete h (ready q'))) as [Hleft Htotal]. split_and!.
  - constructor; cbn [next_id ready provided_tags best].
    + apply Ha.
    + replace ({[h]} ∪ R) with (R ∪ {[h]} ∪ ∅) by set_solver. eapply left_by_trans; [|exact Hleft].
      eapply left_by_trans; [apply Ha|apply left_by_delete].
    + intros tag. unfold provided. rewrite foldl_delete, (af_provided _ _ _ _ Ha). unfold inv. rewrite Etx.
      pose proof (ls_provided _ _ Hq tag h) as Hp.
      destruct (provided_tags q !! tag) as [h'|] eqn:Hpt; cbn.
      2:{ by case_decide. }
      assert (tag ∈ provides (tx_of r0) ↔ h' = h) as Ht.
      { split; [|intros ->; destruct (proj1 Hp eq_refl) as (r'&?&?); congruence].
        intros Ht. assert (Some h' = Some h) as [= ->] by (apply Hp; by exists r0). done. }
      destruct (decide (tag ∈ filter _ _)) as [Hin|Hin]; rewrite list_elem_of_filter, Ht in Hin.
      * destruct Hin as [Hi ->]. rewrite decide_True; [done|]. set_solver.
      * repeat case_decide; set_solver.
    + apply set_remove_sorted, Ha.
    + intros a. rewrite Ert. rewrite set_remove_elem; [|apply Ha|].
      * rewrite (af_best _ _ _ _ Ha). split.
        -- intros [[Hb Hn] Hne]. split; [done|]. intros x y [->%elem_of_singleton|Hx]%elem_of_union Hy; [|by eapply Hn].
           congruence.
        -- intros [Hb Hn]. split; [split; [done|]|].
           ++ intros x y Hx. apply Hn. set_solver.
           ++ apply (Hn h r0); [set_solver|done].
      * intros y Hy. apply (known_separate seen q); [done|right; by exists h, r0|by apply (af_best _ _ _ _ Ha)].
  - change (total_unlocks q') with (unlocks_total (ready q')). rewrite (unlocks_total_delete _ h r Hr).
    unfold total_unlocks. cbn [ready]. unfold unlocks_total in Htotal at 1. lia.
  - rewrite negb_true_iff, bool_decide_eq_false. unfold inv. split.
    + destruct (filter _ _) as [|tag l'] eqn:Hf; [done|]. intros _. exists tag.
      assert (tag ∈ filter (λ t, invalidates filtered t = true) (provides (tx_of r))) as Hin by (rewrite Hf; by left).
      by apply list_elem_of_filter in Hin as [? ?].
    + intros (tag&Ht&Hi) Hf. assert (tag ∈ (@nil Tag)) as Hin; [|by apply not_elem_of_nil in Hin].
      rewrite <- Hf. by apply list_elem_of_filter.
Qed.

(** The transactions of a list are those that were removed, once each. *)
Definition collected (q : queue) (R : gset Hash) (txs : list tx) : Prop :=
  NoDup (map tx_hash txs) ∧
  ∀ t, t ∈ txs ↔ ∃ r, ready q !! tx_hash t = Some r ∧ t = tx_of r ∧ tx_hash t ∈ R.

Lemma collected_snoc seen q R txs h r :
  loose_ok seen q → ready q !! h = Some r → h ∉ R → collected q R txs → collected q ({[h]} ∪ R) (txs ++ [tx_of r]).
Proof.
  intros Hq Hr Hn [Hnd Hc]. destruct (ls_ready _ _ Hq h r Hr) as [Hh _]. split.
  - rewrite map_app. apply NoDup_app. split_and!; [done| |apply NoDup_singleton].
    intros x (t&->&Ht)%list_elem_of_fmap Hx%list_elem_of_singleton. apply Hc in Ht as (_&_&_&Ht).
    rewrite Hx, Hh in Ht. done.
  - intros t. rewrite elem_of_app, list_elem_of_singleton, Hc. split.
    + intros [(r'&?&?&?)| ->]; [exists r'; set_solver|]. exists r. rewrite Hh. set_solver.
    + intros (r'&Hr'&->&[Hx%elem_of_singleton|Hx]%elem_of_union); [right|left; by exists r'].
      rewrite Hx in Hr'. congruence.
Qed.

Lemma closed_complete filtered (q : queue) (roots : list Hash) R :
  R ⊆ dom (ready q) →
  (∀ x, x ∈ roots → x ∈ R ∨ ready q !! x = None) →
  (∀ x y, x ∈ R → falls filtered q x y → y ∈ R ∨ ready q !! y = None) →
  (∀ y, y ∈ R → ∃ x, x ∈ roots ∧ rtc (falls filtered q) x y) →
  ∀ y, y ∈ R ↔ is_Some (ready q !! y) ∧ ∃ x, x ∈ roots ∧ rtc (falls filtered q) x y.
Proof.
  intros Hdom Hroots Hclosed Hsound y. split; [intros Hy; split; [by apply elem_of_dom, Hdom|by apply Hsound]|].
  intros [Hr (x&Hx&Hxy)]. apply Hroots in Hx. clear Hroots.
  induction Hxy as [x|x z y Hxz Hzy IH]; [destruct Hx as [?|Hx]; [done|rewrite Hx in Hr; by destruct Hr]|].
  apply IH; [done|]. destruct Hx as [Hx|Hx]; [by eapply Hclosed|].
  destruct Hxz as (r&Hr'&_). congruence.
Qed.

Lemma remove_loop_ok filtered seen q (roots : list Hash) fuel R q' st txs :
  loose_ok seen q → after filtered q R q' → (length st + total_unlocks q' ≤ fuel)%nat →
  R ⊆ dom (ready q) →
  (∀ x, x ∈ roots → x ∈ R ∨ x ∈ st ∨ ready q !! x = None) →
  (∀ x y, x ∈ R → falls filtered q x y → y ∈ R ∨ y ∈ st ∨ ready q !! y = None) →
  (∀ y, y ∈ R ∨ y ∈ st → ∃ x, x ∈ roots ∧ rtc (falls filtered q) x y) →
  collected q R txs →
  ∃ q'' txs' R', remove_loop fuel q' filtered st txs = Some (q'', txs') ∧ after filtered q R' q'' ∧
    collected q R' txs' ∧
    ∀ y, y ∈ R' ↔ is_Some (ready q !! y) ∧ ∃ x, x ∈ roots ∧ rtc (falls filtered q) x y.
Proof.
  intros Hq. revert R q' st txs. induction fuel as [|fuel IH]; intros R q' st txs Ha Hf Hdom Hroots Hclosed Hsound Hcol.
  all: destruct st as [|h st]; cbn [remove_loop].
  1,3: exists q', txs, R; split_and!; [done..|].
  1,2: apply closed_complete; [done|..].
  1,4: intros x Hx; destruct (Hroots x Hx) as [?|[Hxs|?]]; [by left|by apply not_elem_of_nil in Hxs|by right].
  1,3: intros x y Hx Hxy; destruct (Hclosed x y Hx Hxy) as [?|[Hys|?]]; [by left|by apply not_elem_of_nil in Hys|by right].
  1,2: intros y Hy; apply Hsound; by left.
  { cbn [length] in Hf. lia. }
  destruct (ready q' !! h) as [r|] eqn:Hr.
  - pose proof (detach_after filtered seen q R q' h r Hq Ha Hr) as Hd.
    destruct (detach q' filtered h r) as [q'' gone] eqn:Hdet. destruct Hd as (Ha'&Htotal&Hgone).
    destruct (left_by_inv _ _ _ _ _ (af_ready _ _ _ _ Ha) Hr) as (r0&l&Hr0&HnR&Heq&_&Hin&Hsub).
    assert (tx_of r = tx_of r0 ∧ unlocks r = l) as [Etx Eun] by (by rewrite Heq). clear Heq. rewrite Etx in *.
    destruct (IH ({[h]} ∪ R) q'' (if gone then reverse (unlocks r) ++ st else st) (txs ++ [tx_of r0]))
      as (q3&txs3&R3&->&H3); [done|..|by exists q3, txs3, R3].
    + cbn [length] in Hf. destruct gone; [rewrite length_app, length_reverse|]; lia.
    + apply elem_of_dom_2 in Hr0. set_solver.
    + intros x Hx. destruct (Hroots x Hx) as [?|[[->|?]%elem_of_cons|?]]; [set_solver..| |by auto].
      right; left. destruct gone; [apply elem_of_app; by right|done].
    + intros x y [->%elem_of_singleton|Hx]%elem_of_union Hxy.
      * destruct (decide (y = h)) as [->|Hne]; [set_solver|]. right; left.
        destruct Hxy as (r'&Hr'&Htags&Hy). assert (r' = r0) as -> by congruence.
        rewrite (proj2 Hgone Htags). apply elem_of_app. left. apply elem_of_reverse. rewrite Eun. by apply Hin.
      * destruct (Hclosed x y Hx Hxy) as [?|[[->|?]%elem_of_cons|?]]; [set_solver..| |by auto].
        right; left. destruct gone; [apply elem_of_app; by right|done].
    + assert (∃ x, x ∈ roots ∧ rtc (falls filtered q) x h) as (x0&Hx0&Hx0h) by (apply Hsound; right; by left).
      intros y [[->%elem_of_singleton|Hy]%elem_of_union|Hy]; [by exists x0|apply Hsound; by left|].
      destruct gone; [|apply Hsound; right; by right].
      apply elem_of_app in Hy as [Hy|Hy]; [|apply Hsound; right; by right].
      exists x0. split; [done|]. eapply rtc_r; [exact Hx0h|]. exists r0. split_and!; [done|by apply Hgone|].
      apply Hsub. by rewrite elem_of_reverse, Eun in Hy.
    + by eapply collected_snoc.
  - assert (h ∈ R ∨ ready q !! h = None) as Hh.
    { destruct (decide (h ∈ R)); [by left|right]. destruct (ready q !! h) as [r|] eqn:Hr'; [|done].
      destruct (left_by_lookup _ _ _ _ _ (af_ready _ _ _ _ Ha) Hr' ltac:(done)) as (l&?&_). congruence. }
    destruct (IH R q' st txs) as (q3&txs3&R3&->&H3); [done|..|by exists q3, txs3, R3]; try done.
    + cbn [length] in Hf. lia.
    + intros x Hx. destruct (Hroots x Hx) as [?|[[->|?]%elem_of_cons|?]]; auto. destruct Hh; auto.
    + intros x y Hx Hxy. destruct (Hclosed x y Hx Hxy) as [?|[[->|?]%elem_of_cons|?]]; auto. destruct Hh; auto.
    + intros y [Hy|Hy]; apply Hsound; [by left|right; by right].
Qed.

Lemma remove_filter_ok filtered seen q roots :
  loose_ok seen q →
  ∃ q' txs R, remove_subtree_with_tag_filter q roots filtered = Some (q', txs) ∧ after filtered q R q' ∧
    collected q R txs ∧
    ∀ y, y ∈ R ↔ is_Some (ready q !! y) ∧ ∃ x, x ∈ roots ∧ rtc (falls filtered q) x y.
Proof.
  intros Hq. unfold remove_subtree_with_tag_filter. eapply remove_loop_ok; [done|by eapply after_nothing|..].
  - rewrite length_reverse. lia.
  - set_solver.
  - intros x Hx. right; left. by apply elem_of_reverse.
  - set_solver.
  - intros y [?|Hy]; [set_solver|]. exists y. rewrite elem_of_reverse in Hy. split; [done|]. apply rtc_refl.
  - split; [constructor|]. intros t. split; [intros Ht; by apply not_elem_of_nil in Ht|].
    intros (r&_&_&?). set_solver.
Qed.

Lemma after_known filtered q R q' a : after filtered q R q' → known q' a → known q a.
Proof.
  intros Ha [[Hb _]%(af_best _ _ _ _ Ha)|(h&r&Hr&->)]; [by left|].
  destruct (left_by_inv _ _ _ _ _ (af_ready _ _ _ _ Ha) Hr) as (r0&l&Hr0&_&->&_). right. by exists h, r0.
Qed.

Lemma after_loose seen q R q' : loose_ok seen q → after None q R q' → loose_ok seen q'.
Proof.
  intros Hq Ha. pose proof (af_ready _ _ _ _ Ha) as Hl. constructor.
  - rewrite (af_id _ _ _ _ Ha). apply Hq.
  - intros h r (r0&l&Hr0&_&->&_)%(left_by_inv _ _ _ _ _ Hl). exact (ls_ready _ _ Hq h r0 Hr0).
  - intros a b Hka%(after_known _ _ _ _ _ Ha) Hkb%(after_known _ _ _ _ _ Ha). by apply (ls_known _ _ Hq).
  - intros a Hka%(after_known _ _ _ _ _ Ha). rewrite (af_id _ _ _ _ Ha). by apply (ls_id _ _ Hq).
  - apply Ha.
  - intros tag h. rewrite (af_provided _ _ _ _ Ha). pose proof (ls_provided _ _ Hq tag h) as Hp.
    assert ((∃ r, ready q' !! h = Some r ∧ tag ∈ provides (tx_of r)) ↔
      (h ∉ R) ∧ ∃ r, ready q !! h = Some r ∧ tag ∈ provides (tx_of r)) as ->.
    { split.
      - intros (r&(r0&l&Hr0&HnR&->&_)%(left_by_inv _ _ _ _ _ Hl)&Ht). split; [done|]. by exists r0.
      - intros (HnR&r&Hr&Ht). destruct (left_by_lookup _ _ _ _ _ Hl Hr HnR) as (l&?&_). by eexists. }
    rewrite <- Hp. destruct (provided_tags q !! tag) as [h'|]; cbn; [|by split; [|intros [_ ?]]]. case_decide as Hd.
    + split; [done|]. intros [HnR [= ->]]. tauto.
    + split; [|tauto]. intros [= ->]. split; [|done]. intros HR. by apply Hd.
Qed.

Section after.
Context (filtered : option (gset Tag)) (seen : gset Hash) (q : queue) (R : gset Hash) (q' : queue).
Context (Hq : ready_ok seen q) (Ha : after filtered q R q').

Lemma after_best h r :
  ready q' !! h = Some r →
  rt_transaction r ∈ best q' ↔ requires_offset r = Z.of_nat (length (requires (tx_of r))).
Proof using Hq Ha.
  intros [Hr HnR]%(after_ready _ _ _ _ _ _ _ Hq Ha). rewrite <- (ro_best _ _ Hq h r Hr), (af_best _ _ _ _ Ha).
  split; [tauto|]. intros Hb. split; [done|]. intros x y Hx Hy Heq.
  destruct (ls_ready _ _ Hq h r Hr) as [E1 _]. destruct (ls_ready _ _ Hq x y Hy) as [E2 _].
  unfold tx_of in *. congruence.
Qed.

Lemma after_current a r : a ∈ best q' → ready q' !! tx_hash (tr_transaction a) = Some r → a = rt_transaction r.
Proof using Hq Ha.
  intros Hb%(af_best _ _ _ _ Ha) Hr%(after_ready _ _ _ _ _ _ _ Hq Ha). destruct Hb, Hr. by eapply (ro_current _ _ Hq).
Qed.

(** A transaction that stays lost the links of the removed ones. *)
Lemma after_links x : links (ready q) x = sum_of (weight (ready q) x) (elements R) + links (ready q') x.
Proof using Hq Ha. rewrite (after_filter _ _ _ _ _ Hq Ha). apply links_split. Qed.

(** A transaction that stays was listed by a removed one only if that one fell
    without the others. *)
Lemma after_listed x rx y ry :
  (∀ x y, x ∈ R → falls filtered q x y → y ∈ R ∨ ready q !! y = None) →
  ready q' !! x = Some rx → y ∈ R → ready q !! y = Some ry → x ∈ unlocks ry →
  ∀ tag, tag ∈ provides (tx_of ry) → invalidates filtered tag = false.
Proof using Hq Ha.
  intros Hclosed [Hx HnR]%(after_ready _ _ _ _ _ _ _ Hq Ha) Hy Hry Hu tag Htag.
  destruct (invalidates filtered tag) eqn:Hi; [|done]. destruct (Hclosed y x Hy) as [|Hn]; [|done|congruence].
  exists ry. split_and!; [done|by exists tag|done].
Qed.
End after.

Lemma after_ok seen q R q' :
  ready_ok seen q → after None q R q' →
  (∀ x y, x ∈ R → falls None q x y → y ∈ R ∨ ready q !! y = None) → ready_ok seen q'.
Proof.
  intros Hq Ha Hclosed.
  assert (∀ h r, ready q' !! h = Some r → ready q !! h = Some r ∧ h ∉ R) as Hr'
    by (intros h r; by apply (after_ready _ _ _ _ _ _ _ Hq Ha)).
  constructor.
  - by apply (after_loose seen q R q' Hq).
  - intros h r x [Hr _]%Hr'. by apply (ro_unlocks _ _ Hq h).
  - intros a [Hb _]%(af_best _ _ _ _ Ha). by apply (ro_seen _ _ Hq).
  - by eapply after_best.
  - by eapply after_current.
  - intros h r Hr0. pose proof Hr0 as [Hr HnR]%Hr'. rewrite (ro_balance _ _ Hq h r Hr), (after_links _ _ _ _ _ Hq Ha).
    rewrite sum_of_zero; [lia|]. intros y Hy%elem_of_elements. unfold weight.
    destruct (ready q !! y) as [ry|] eqn:Hry; [|done]. apply occ_zero. intros Hin.
    pose proof (after_listed _ _ _ _ _ Hq Ha h r y ry Hclosed Hr0 Hy Hry Hin) as Hno.
    destruct (ro_links _ _ Hq y ry h r Hry Hr Hin) as (tag&Htag&_). by specialize (Hno tag Htag).
  - intros h r x r' [Hr _]%Hr' [Hx _]%Hr'. by apply (ro_links _ _ Hq h r x r').
  - intros tag h r x r' [Hr _]%Hr' [Hx _]%Hr'. by apply (ro_complete _ _ Hq tag h r x r').
Qed.

(** Every transaction that is listed by a removed one is removed, and no other. *)
Lemma remove_subtree_ok seen q hashes :
  loose_ok seen q →
  ∃ q' txs R, remove_subtree q hashes = Some (q', txs) ∧ loose_ok seen q' ∧ (ready_ok seen q → ready_ok seen q') ∧
    next_id q' = next_id q ∧ left_by R (ready q) (ready q') ∧ collected q R txs ∧
    ∀ y, y ∈ R ↔ is_Some (ready q !! y) ∧ ∃ x, x ∈ hashes ∧ rtc (falls None q) x y.
Proof.
  intros Hq. destruct (remove_filter_ok None seen q hashes Hq) as (q'&txs&R&Hrun&Ha&Hc&HR).
  exists q', txs, R. split_and!; [done|by apply (after_loose seen q R q')| |apply Ha|apply Ha|done|done].
  intros Hq2. apply (after_ok seen q R q'); [done..|]. intros x y [Hx (x0&Hx0&Hxx)]%HR Hxy.
  destruct (ready q !! y) eqn:Hy; [left|by right]. apply HR. split; [by eexists|]. exists x0. split; [done|].
  by eapply rtc_r.
Qed.

(** ** Pruning *)

(** A transaction was taken off some lists. *)
Definition thinned (p : Hash) (m m' : gmap Hash rtx) : Prop :=
  ∀ x, match m !! x with
  | Some r => ∃ l, m' !! x = Some (set_unlocks r l) ∧ (∀ y, y ≠ p → occ y l = occ y (unlocks r)) ∧
      ∀ y, y ∈ l → y ∈ unlocks r
  | None => m' !! x = None
  end.

Lemma find_previous_ok provided p m tags P :
  (∀ x r, m !! x = Some r → (length (provides (tx_of r)) ≤ P)%nat) →
  let '(m', more) := find_previous provided p m tags in
  thinned p m m' ∧ (length more ≤ length tags * P)%nat ∧
  ∀ t, t ∈ more → ∃ x r t', m !! x = Some r ∧ t ∈ provides (tx_of r) ∧ t' ∈ tags ∧ provided !! t' = Some x.
Proof.
  revert m. induction tags as [|t0 tags IH]; intros m HP; cbn [find_previous].
  { split_and!; [|cbn; lia|intros t Ht; by apply not_elem_of_nil in Ht].
    intros x. destruct (m !! x) as [r|]; [|done]. exists (unlocks r). by rewrite set_unlocks_id. }
  destruct (provided !! t0) as [prev|] eqn:Hp; cbn [mbind option_bind].
  2:{ specialize (IH m HP). destruct (find_previous provided p m tags) as [m' more]. destruct IH as (H1&H2&H3).
    split_and!; [done|cbn; lia|]. intros t Ht. destruct (H3 t Ht) as (x&r&t'&?&?&?&?). exists x, r, t'. set_solver. }
  destruct (m !! prev) as [r|] eqn:Hr; cbn [mbind option_bind].
  2:{ specialize (IH m HP). destruct (find_previous provided p m tags) as [m' more]. destruct IH as (H1&H2&H3).
    split_and!; [done|cbn; lia|]. intros t Ht. destruct (H3 t Ht) as (x&r&t'&?&?&?&?). exists x, r, t'. set_solver. }
  set (r' := set_unlocks r (remove_item (unlocks r) p)).
  assert (∀ x y, <[prev := r']> m !! x = Some y → ∃ y', m !! x = Some y' ∧ tx_of y = tx_of y') as Hsame.
  { intros x y. rewrite lookup_insert. case_decide as Hx; [|by exists y]. intros [= <-]. subst x. by exists r. }
  specialize (IH (<[prev := r']> m)). destruct (find_previous provided p (<[prev := r']> m) tags) as [m' more].
  destruct IH as (H1&H2&H3).
  { intros x y Hy. destruct (Hsame x y Hy) as (y'&Hy'&->). by eapply HP. }
  destruct (remove_item_spec (unlocks r) p) as (Ho&Hi&_). split_and!.
  - intros x. specialize (H1 x). rewrite lookup_insert in H1. destruct (decide (prev = x)) as [<-|Hx].
    + rewrite Hr. destruct H1 as (l&->&Hl1&Hl2). exists l. split_and!; [done| |].
      * intros y Hy. rewrite Hl1 by done. by apply Ho.
      * intros y Hy. by apply Hi, Hl2.
    + done.
  - rewrite length_app. cbn [length]. specialize (HP prev r Hr). case_bool_decide; cbn [length]; [|lia].
    change (tx_of r') with (tx_of r). lia.
  - intros t [Ht|Ht]%elem_of_app.
    + case_bool_decide; [|by apply not_elem_of_nil in Ht]. exists prev, r, t0. split_and!; [done|done|by left|done].
    + destruct (H3 t Ht) as (x&y&t'&Hy&?&?&?). destruct (Hsame x y Hy) as (y'&Hy'&Heq).
      exists x, y', t'. rewrite <- Heq. set_solver.
Qed.

(** The counters of the unlocked transactions. *)
Definition unlocked_by (l : list Hash) (x : Hash) (r : rtx) : rtx :=
  MkReadyTx (rt_transaction r) (unlocks r) (requires_offset r + occ x l).

Lemma unlocks_loose l (m : gmap Hash rtx) b :
  sorted b →
  let '(m', b') := foldl unlock_one (m, b) l in
  (∀ x, m' !! x = unlocked_by l x <$> m !! x) ∧ sorted b' ∧
  ∀ a, a ∈ b' → a ∈ b ∨ ∃ x r, m !! x = Some r ∧ a = rt_transaction r.
Proof.
  revert m b. induction l as [|h l IH]; intros m b Hs; cbn [foldl].
  { split_and!; [|done|by left]. intros x. destruct (m !! x) as [[rr ul off]|]; [|done]. cbn. unfold unlocked_by. cbn.
    do 2 f_equal. change (occ x []) with 0. lia. }
  unfold unlock_one at 2. destruct (m !! h) as [r|] eqn:Hr.
  2:{ specialize (IH m b Hs). destruct (foldl unlock_one (m, b) l) as [m' b']. destruct IH as (Hm'&Hs'&Hb').
    split_and!; [|done|done]. intros x. rewrite Hm'. destruct (m !! x) as [y|] eqn:Hy; [|done]. cbn. unfold unlocked_by.
    rewrite occ_cons, decide_False; [done|]. intros ->. congruence. }
  set (r' := MkReadyTx (rt_transaction r) (unlocks r) (requires_offset r + 1)). set (b1 := if _ =? _ then _ else b).
  specialize (IH (<[h := r']> m) b1). destruct (foldl unlock_one (<[h := r']> m, b1) l) as [m' b'].
  destruct IH as (Hm'&Hs'&Hb').
  { unfold b1. destruct (_ =? _); [by apply set_insert_sorted|done]. }
  split_and!; [|done|].
  - intros x. rewrite Hm', lookup_insert. destruct (decide (h = x)) as [<-|Hx].
    + rewrite Hr. cbn. unfold unlocked_by. cbn. rewrite occ_cons, decide_True by done. do 2 f_equal. lia.
    + destruct (m !! x); [|done]. cbn. unfold unlocked_by. by rewrite occ_cons, decide_False.
  - intros a [Ha|(x&y&Hy&->)]%Hb'.
    + unfold b1 in Ha. destruct (_ =? _); [|by left]. assert (Forall (λ a, a = rt_transaction r ∨ a ∈ b) (set_insert (rt_transaction r) b)) as Hf.
      { apply set_insert_forall; [by left|]. apply Forall_forall. by right. }
      rewrite Forall_forall in Hf. destruct (Hf a Ha) as [->|?]; [right; by exists h, r|by left].
    + right. rewrite lookup_insert in Hy. case_decide as Hx; [|by exists x, y]. injection Hy as <-. by exists h, r.
Qed.

Lemma unlocks_ok l (m : gmap Hash rtx) b (K : ref → Prop) :
  (∀ a a', K a → K a' → insertion_id a = insertion_id a' → a = a') →
  (∀ a, a ∈ b → K a) → (∀ x r, m !! x = Some r → K (rt_transaction r)) →
  (∀ x r, m !! x = Some r → requires_offset r + occ x l ≤ Z.of_nat (length (requires (tx_of r)))) →
  ∀ a, a ∈ (foldl unlock_one (m, b) l).2 ↔ a ∈ b ∨ ∃ x r, m !! x = Some r ∧ a = rt_transaction r ∧ x ∈ l ∧
    requires_offset r + occ x l = Z.of_nat (length (requires (tx_of r))).
Proof.
  intros Hinj. revert m b. induction l as [|h l IH]; intros m b Hb Hm Hle a; cbn [foldl].
  { split; [by left|]. intros [?|(x&r&_&_&Hx&_)]; [done|by apply not_elem_of_nil in Hx]. }
  unfold unlock_one at 2. destruct (m !! h) as [r|] eqn:Hr.
  2:{ assert (∀ x y, m !! x = Some y → occ x (h :: l) = occ x l) as Ho.
    { intros x y Hy. rewrite occ_cons, decide_False; [done|]. intros ->. congruence. }
    rewrite (IH m b Hb Hm).
    2:{ intros x y Hy. rewrite <- (Ho x y Hy). by apply Hle. }
    setoid_rewrite elem_of_cons. split.
    - intros [?|(x&y&Hy&?&?&?)]; [by left|right]. exists x, y. rewrite (Ho x y Hy). naive_solver.
    - intros [?|(x&y&Hy&?&[->|?]&?)]; [by left|congruence|right]. exists x, y. rewrite <- (Ho x y Hy). done. }
  set (r' := MkReadyTx (rt_transaction r) (unlocks r) (requires_offset r + 1)).
  set (b1 := if requires_offset r' =? _ then _ else b).
  assert (∀ a, a ∈ b1 ↔ a ∈ b ∨ a = rt_transaction r ∧ requires_offset r + 1 = Z.of_nat (length (requires (tx_of r)))) as Hb1.
  { intros a'. unfold b1. cbn [requires_offset r' rt_transaction]. change (tx_of r') with (tx_of r).
    destruct (Z.eqb_spec (requires_offset r + 1) (Z.of_nat (length (requires (tx_of r))))) as [He|He]; [|tauto].
    rewrite set_insert_elem; [tauto|]. intros y Hy Hc. apply Hinj; [by apply Hb|by eapply Hm|].
    pose proof (ref_cmp_spec (rt_transaction r) y) as Hsp. rewrite Hc in Hsp. cbn in Hsp. lia. }
  rewrite (IH (<[h := r']> m) b1).
  - rewrite Hb1. pose proof (Hle h r Hr) as Hleh. rewrite occ_cons, decide_True in Hleh by done.
    pose proof (occ_nonneg h l). split.
    + intros [[?|[-> He]]|(x&y&Hy&->&Hx&He)]; [by left|right|right].
      * exists h, r. split_and!; [done|done|by left|]. rewrite occ_cons, decide_True by done. lia.
      * rewrite lookup_insert in Hy. destruct (decide (h = x)) as [<-|Hne].
        -- injection Hy as <-. exists h, r. split_and!; [done|done|by left|].
           change (tx_of r') with (tx_of r) in He. change (requires_offset r') with (requires_offset r + 1) in He.
           rewrite occ_cons, decide_True by done. lia.
        -- exists x, y. split_and!; [done|done|by right|]. by rewrite occ_cons, decide_False.
    + intros [?|(x&y&Hy&->&Hx&He)]; [left; by left|]. destruct (decide (h = x)) as [<-|Hne].
      * assert (y = r) as -> by congruence. rewrite occ_cons, decide_True in He by done.
        destruct (decide (h ∈ l)) as [Hin|Hin].
        -- right. exists h, r'. rewrite lookup_insert_eq. split_and!; [done|done|done|].
           change (tx_of r') with (tx_of r). change (requires_offset r') with (requires_offset r + 1). lia.
        -- left. right. rewrite (occ_zero h l Hin) in He. split; [done|lia].
      * right. exists x, y. rewrite lookup_insert_ne by done. rewrite occ_cons, decide_False in He by done.
        split_and!; [done|done|set_solver|lia].
  - intros a' [?|[-> _]]%Hb1; [by apply Hb|by eapply Hm].
  - intros x y. rewrite lookup_insert. case_decide; [intros [= <-]; exact (Hm h r Hr)|apply Hm].
  - intros x y. rewrite lookup_insert. case_decide as Hx.
    + intros [= <-]. subst x. specialize (Hle h r Hr). rewrite occ_cons, decide_True in Hle by done.
      change (tx_of r') with (tx_of r). change (requires_offset r') with (requires_offset r + 1). lia.
    + intros Hy. specialize (Hle x y Hy). rewrite occ_cons, decide_False in Hle by done. lia.
Qed.

Lemma clear_provided_ok current hash (provided : gmap Tag Hash) tags :
  NoDup tags → (∀ t, t ∈ tags → provided !! t = if decide (current = t) then None else Some hash) →
  clear_provided current hash provided tags = Ok (foldl (λ m t, delete t m) provided tags).
Proof.
  intros Hnd. revert provided. induction Hnd as [|t tags Ht Hnd IH]; intros provided Hp; [done|].
  cbn [clear_provided foldl]. rewrite decide_True by (apply Hp; by left). apply IH.
  intros t' Ht'. rewrite lookup_delete_ne by (by intros ->). apply Hp. by right.
Qed.

Lemma thinned_links p m m' x : thinned p m m' → x ≠ p → links m' x = links m x.
Proof.
  intros Ht Hx. assert (dom m' = dom m) as Hd.
  { apply set_eq. intros y. rewrite !elem_of_dom. specialize (Ht y).
    destruct (m !! y); [destruct Ht as (l&->&_)|rewrite Ht]; split; intros []; by eexists || done. }
  unfold links. rewrite Hd. apply sum_of_ext. intros y _. unfold weight. specialize (Ht y).
  destruct (m !! y) as [r|]; [|by rewrite Ht]. destruct Ht as (l&->&Hl&_). by apply Hl.
Qed.

Lemma unlocked_links l (m m' : gmap Hash rtx) x : (∀ x, m' !! x = unlocked_by l x <$> m !! x) → links m' x = links m x.
Proof.
  intros Hm. assert (dom m' = dom m) as Hd.
  { apply set_eq. intros y. rewrite !elem_of_dom, Hm. by destruct (m !! y). }
  unfold links. rewrite Hd. apply sum_of_ext. intros y _. unfold weight. rewrite Hm. by destruct (m !! y).
Qed.

(** A pruned transaction left the queue: the transactions it unlocked count one
    more tag for each time it listed them. *)
Definition pruned (q : queue) (p : Hash) (r : rtx) (m2 : gmap Hash rtx) : Prop :=
  ∀ x y2, m2 !! x = Some y2 → ∃ y l, ready q !! x = Some y ∧ x ≠ p ∧
    y2 = MkReadyTx (rt_transaction y) l (requires_offset y + occ x (unlocks r)) ∧
    (∀ z, z ≠ p → occ z l = occ z (unlocks y)) ∧ ∀ z, z ∈ l → z ∈ unlocks y.

Definition promoted (q : queue) (p : Hash) (r : rtx) (a : ref) : Prop :=
  ∃ x y, ready q !! x = Some y ∧ x ≠ p ∧ a = rt_transaction y ∧ x ∈ unlocks r ∧
    requires_offset y + occ x (unlocks r) = Z.of_nat (length (requires (tx_of y))).

Lemma pruned_provided seen q tag p r m2 t h :
  loose_ok seen q → provided_tags q !! tag = Some p → ready q !! p = Some r → pruned q p r m2 →
  (∀ x, is_Some (m2 !! x) ↔ x ≠ p ∧ is_Some (ready q !! x)) →
  foldl (λ m t, delete t m) (delete tag (provided_tags q)) (provides (tx_of r)) !! t = Some h ↔
  ∃ y, m2 !! h = Some y ∧ t ∈ provides (tx_of y).
Proof.
  intros Hq Hp Hr Hm2 Hdom. rewrite foldl_delete, lookup_delete.
  assert (tag ∈ provides (tx_of r)) as Htag.
  { apply (ls_provided _ _ Hq) in Hp as (r'&?&?). congruence. }
  split.
  - case_decide as Ht; [done|]. rewrite decide_False by (by intros ->). intros Hth.
    apply (ls_provided _ _ Hq) in Hth as (y&Hy&Hty).
    destruct (proj2 (Hdom h)) as [y2 Hy2].
    { split; [|by eexists]. intros ->. assert (y = r) as -> by congruence. done. }
    exists y2. split; [done|]. destruct (Hm2 h y2 Hy2) as (y'&l&Hy'&_&->&_). assert (y' = y) as -> by congruence. done.
  - intros (y2&Hy2&Hty). destruct (Hm2 h y2 Hy2) as (y&l&Hy&Hne&->&_).
    assert (provided_tags q !! t = Some h) as Hth by (apply (ls_provided _ _ Hq); by exists y).
    rewrite decide_False.
    2:{ intros Ht. apply Hne. assert (Some h = Some p) by (rewrite <- Hth; apply (ls_provided _ _ Hq); by exists r).
      congruence. }
    rewrite decide_False; [done|]. intros <-. congruence.
Qed.

Lemma pruned_loose seen q tag p r m2 best' :
  loose_ok seen q → provided_tags q !! tag = Some p → ready q !! p = Some r → pruned q p r m2 →
  (∀ x, is_Some (m2 !! x) ↔ x ≠ p ∧ is_Some (ready q !! x)) → sorted best' → (∀ a, a ∈ best' → known q a) →
  loose_ok seen (MkReadyTransactions (next_id q)
    (foldl (λ m t, delete t m) (delete tag (provided_tags q)) (provides (tx_of r))) m2 best').
Proof.
  intros Hq Hp Hr Hm2 Hdom Hsorted Hbest.
  assert (∀ a m3 pr, known (MkReadyTransactions m3 pr m2 best') a → known q a) as Hkn.
  { intros a m3 pr [?|(x&y2&(y&l&Hy&_&->&_)%Hm2&->)]; [by apply Hbest|right; by exists x, y]. }
  constructor; cbn [next_id ready best].
  - apply Hq.
  - intros x y2 (y&l&Hy&_&->&_)%Hm2. destruct (ls_ready _ _ Hq x y Hy) as (?&?&?&?).
    pose proof (occ_nonneg x (unlocks r)). split_and!; [done..|cbn [requires_offset]; lia].
  - intros a b Ha%Hkn Hb%Hkn. by apply (ls_known _ _ Hq).
  - intros a Ha%Hkn. by apply (ls_id _ _ Hq).
  - done.
  - intros t h. by eapply pruned_provided.
Qed.

Lemma pruned_ok seen q p r m2 best' pr :
  ready_ok seen q → ready q !! p = Some r → pruned q p r m2 → loose_ok seen (MkReadyTransactions (next_id q) pr m2 best') →
  (∀ a, a ∈ best' ↔ a ∈ best q ∨ promoted q p r a) →
  (∀ x, x ≠ p → links m2 x = links (delete p (ready q)) x) →
  ready_ok seen (MkReadyTransactions (next_id q) pr m2 best').
Proof.
  intros Hq Hr Hm2 Hloose Hbest Hlinks.
  assert (∀ x y, ready q !! x = Some y → x ≠ p →
    Z.of_nat (length (requires (tx_of y))) = requires_offset y + occ x (unlocks r) + links (delete p (ready q)) x) as Hbal.
  { intros x y Hy Hne. rewrite (ro_balance _ _ Hq x y Hy), (links_delete (ready q) x p). unfold weight. rewrite Hr. lia. }
  constructor; cbn [next_id ready best].
  - done.
  - intros x y2 z (y&l&Hy&_&->&_&Hl)%Hm2 Hz. apply (ro_unlocks _ _ Hq x y); [done|]. by apply Hl.
  - intros a [Ha|(x&y&Hy&_&->&_)]%Hbest; [by apply (ro_seen _ _ Hq)|].
    destruct (ls_ready _ _ Hq x y Hy) as (<-&?&_). done.
  - intros x y2 (y&l&Hy&Hne&->&_)%Hm2. rewrite Hbest. cbn [rt_transaction requires_offset].
    change (tx_of (MkReadyTx (rt_transaction y) l _)) with (tx_of y).
    pose proof (Hbal x y Hy Hne) as Hb. pose proof (links_nonneg (delete p (ready q)) x).
    pose proof (occ_nonneg x (unlocks r)). rewrite (ro_best _ _ Hq x y Hy). split.
    + intros [He|(x'&y'&Hy'&_&Heq&_&He)]; [lia|].
      assert (x' = x) as ->.
      { destruct (ls_ready _ _ Hq x y Hy) as [<- _]. destruct (ls_ready _ _ Hq x' y' Hy') as [<- _].
        unfold tx_of. by rewrite Heq. }
      by assert (y' = y) as -> by congruence.
    + intros He. destruct (decide (x ∈ unlocks r)) as [Hin|Hin]; [right; by exists x, y|left].
      rewrite (occ_zero x _ Hin) in He. lia.
  - intros a y2 Ha (y&l&Hy&Hne&->&_)%Hm2. apply Hbest in Ha as [Ha|(x&y'&Hy'&_&->&_)].
    + change (a = rt_transaction y). by eapply (ro_current _ _ Hq).
    + destruct (ls_ready _ _ Hq x y' Hy') as [Hx _]. unfold tx_of in Hx. rewrite Hx in Hy. by assert (y' = y) as -> by congruence.
  - intros x y2 (y&l&Hy&Hne&->&_)%Hm2. change (tx_of (MkReadyTx (rt_transaction y) l _)) with (tx_of y).
    cbn [requires_offset]. by rewrite Hlinks, (Hbal x y Hy Hne).
  - intros x y2 z z2 (y&l&Hy&_&->&_&Hl)%Hm2 (y'&l'&Hy'&_&->&_)%Hm2 Hz. by apply (ro_links _ _ Hq x y z y'), Hl.
  - intros t x y2 z z2 (y&l&Hy&_&->&Ho&_)%Hm2 (y'&l'&Hy'&Hne&->&_)%Hm2 Hp1 Hp2 Hlt. cbn [unlocks].
    assert (z ∈ unlocks y) as Hin by (by apply (ro_complete _ _ Hq t x y z y')).
    destruct (decide (z ∈ l)) as [|Hn]; [done|]. apply occ_zero in Hn. rewrite Ho in Hn by done.
    apply occ_pos in Hin. lia.
Qed.

(** One transaction is pruned. *)
Lemma prune_step_ok seen q tag p r P :
  loose_ok seen q → provided_tags q !! tag = Some p → ready q !! p = Some r →
  (∀ x y, ready q !! x = Some y → (length (provides (tx_of y)) ≤ P)%nat) →
  let provided := delete tag (provided_tags q) in
  let '(m1, more) := find_previous provided (tx_hash (tx_of r)) (delete p (ready q)) (requires (tx_of r)) in
  let '(m2, best') := foldl unlock_one (m1, best q) (unlocks r) in
  ∃ provided', clear_provided tag (tx_hash (tx_of r)) provided (provides (tx_of r)) = Ok provided' ∧
    let q' := MkReadyTransactions (next_id q) provided' m2 best' in
    loose_ok seen q' ∧ (ready_ok seen q → ready_ok seen q') ∧
    (∀ x, rt_transaction <$> m2 !! x = if decide (x = p) then None else rt_transaction <$> ready q !! x) ∧
    (length more ≤ length (requires (tx_of r)) * P)%nat ∧
    ∀ t, t ∈ more → ∃ x y t', ready q !! x = Some y ∧ t ∈ provides (tx_of y) ∧
      t' ∈ requires (tx_of r) ∧ t' ∈ provides (tx_of y).
Proof.
  intros Hq Hp Hr HP. destruct (ls_ready _ _ Hq p r Hr) as (Hph&Hps&(Hnd&Hdisj&_)&_). rewrite Hph. intros provided.
  pose proof (find_previous_ok provided p (delete p (ready q)) (requires (tx_of r)) P) as Hfind.
  destruct (find_previous provided p _ _) as [m1 more].
  destruct Hfind as (Hthin&Hmore&Hleads); [by intros x y [_ Hy]%lookup_delete_Some; eapply HP|].
  assert (∀ x y1, m1 !! x = Some y1 → ∃ y l, ready q !! x = Some y ∧ x ≠ p ∧ y1 = set_unlocks y l ∧
    (∀ z, z ≠ p → occ z l = occ z (unlocks y)) ∧ ∀ z, z ∈ l → z ∈ unlocks y) as Hm1.
  { intros x y1 Hy1. specialize (Hthin x). destruct (delete p (ready q) !! x) as [y|] eqn:Hy; [|congruence].
    apply lookup_delete_Some in Hy as [Hne Hy]. destruct Hthin as (l&Hl&?&?). exists y, l. naive_solver congruence. }
  pose proof (unlocks_loose (unlocks r) m1 (best q) ltac:(apply Hq)) as Hun.
  pose proof (unlocks_ok (unlocks r) m1 (best q) (known q)) as Hbest.
  destruct (foldl unlock_one (m1, best q) (unlocks r)) as [m2 best']. cbn [snd] in Hbest.
  destruct Hun as (Hm2&Hsorted&Hb').
  assert (∀ x, rt_transaction <$> m2 !! x = if decide (x = p) then None else rt_transaction <$> ready q !! x) as Hrt.
  { intros x. rewrite Hm2. specialize (Hthin x). rewrite lookup_delete in Hthin.
    destruct (decide (p = x)) as [<-|Hne]; [by rewrite Hthin, decide_True|]. rewrite decide_False by done.
    destruct (ready q !! x); [by destruct Hthin as (l&->&_)|by rewrite Hthin]. }
  assert (pruned q p r m2) as Hpr.
  { intros x y2. rewrite Hm2. destruct (m1 !! x) as [y1|] eqn:Hy1; [|done]. intros [= <-].
    destruct (Hm1 x y1 Hy1) as (y&l&?&?&->&?&?). by exists y, l. }
  assert (loose_ok seen (MkReadyTransactions (next_id q)
    (foldl (λ m t, delete t m) (delete tag (provided_tags q)) (provides (tx_of r))) m2 best')) as Hloose.
  { apply (pruned_loose seen q tag p r m2 best'); try done.
    - intros x. specialize (Hrt x). destruct (m2 !! x), (ready q !! x); cbn in Hrt; case_decide; naive_solver.
    - intros a [?|(x&y1&(y&l&Hy&_&->&_)%Hm1&->)]%Hb'; [by left|right; by exists x, y]. }
  eexists. split; [|split; [exact Hloose|split_and!; [|done|done|]]].
  - apply clear_provided_ok; [done|]. intros t Ht. unfold provided. rewrite lookup_delete. repeat case_decide; [done|].
    apply (ls_provided _ _ Hq). by exists r.
  - intros Hq2. apply (pruned_ok seen q p r m2 best'); try done.
    + intros a. rewrite Hbest; clear Hbest.
      * unfold promoted. split.
        -- intros [?|(x&y1&(y&l&Hy&Hne&->&_)%Hm1&->&Hx&He)]; [by left|right]. by exists x, y.
        -- intros [?|(x&y&Hy&Hne&->&Hx&He)]; [by left|right].
           specialize (Hthin x). rewrite lookup_delete_ne, Hy in Hthin by done. destruct Hthin as (l&Hl&_).
           by exists x, (set_unlocks y l).
      * apply (ls_known _ _ Hq).
      * intros b Hb. by left.
      * intros x y1 (y&l&Hy&_&->&_)%Hm1. right. by exists x, y.
      * intros x y1 (y&l&Hy&Hne&->&_)%Hm1.
        change (requires_offset y + occ x (unlocks r) ≤ Z.of_nat (length (requires (tx_of y)))).
        pose proof (links_nonneg (delete p (ready q)) x).
        rewrite (ro_balance _ _ Hq2 x y Hy), (links_delete (ready q) x p). unfold weight. rewrite Hr. lia.
    + intros x Hx. rewrite (unlocked_links _ _ _ x Hm2). by apply (thinned_links p).
  - intros t Ht. destruct (Hleads t Ht) as (x&y&t'&[_ Hy]%lookup_delete_Some&?&?&Hprov). exists x, y, t'.
    split_and!; [done..|]. unfold provided in Hprov. apply lookup_delete_Some in Hprov as [_ Hprov].
    apply (ls_provided _ _ Hq) in Hprov as (y'&?&?). congruence.
Qed.

(** A transaction provides a tag that another one requires. *)
Definition leads (q : queue) (x y : Hash) : Prop :=
  ∃ rx ry t, ready q !! x = Some rx ∧ ready q !! y = Some ry ∧ t ∈ provides (tx_of rx) ∧ t ∈ requires (tx_of ry).

Definition txs_of (m : gmap Hash rtx) : list tx := map (λ kv, tx_of kv.2) (map_to_list m).

Lemma txs_of_refs m m' : (∀ x : Hash, rt_transaction <$> m !! x = rt_transaction <$> m' !! x) → txs_of m = txs_of m'.
Proof.
  intros Hm. assert (tx_of <$> m = tx_of <$> m') as He.
  { apply map_eq. intros x. rewrite !lookup_fmap. specialize (Hm x).
    destruct (m !! x), (m' !! x); cbn in *; try done. injection Hm as Hm. unfold tx_of. by rewrite Hm. }
  assert (∀ m0, txs_of m0 = map snd (map_to_list (tx_of <$> m0))) as Ht.
  { intros m0. unfold txs_of. rewrite map_to_list_fmap. change (map snd (prod_map id tx_of <$> map_to_list m0))
      with (snd <$> (prod_map id tx_of <$> map_to_list m0)). by rewrite <- list_fmap_compose. }
  by rewrite !Ht, He.
Qed.

Lemma txs_of_delete m p (r : rtx) : m !! p = Some r → txs_of m ≡ₚ tx_of r :: txs_of (delete p m).
Proof. intros Hr. unfold txs_of. by rewrite <- (map_to_list_delete m p r Hr). Qed.

Lemma elem_of_txs_of m x (r : rtx) : m !! x = Some r → tx_of r ∈ txs_of m.
Proof. intros Hr. rewrite (txs_of_delete m x r Hr). by left. Qed.

Lemma length_flat_map_elem {A B} (f : A → list B) l a : a ∈ l → (length (f a) ≤ length (flat_map f l))%nat.
Proof. intros [l1 [l2 ->]]%list_elem_of_split. rewrite flat_map_app, length_app. cbn. rewrite length_app. lia. Qed.

Lemma ready_prune_loop_ok seen q0 h0 fuel P : loose_ok seen q0 →
  ∀ q st txs R,
  loose_ok seen q → (∀ x, rt_transaction <$> ready q !! x = if decide (x ∈ R) then None else rt_transaction <$> ready q0 !! x) →
  next_id q = next_id q0 → collected q0 R txs →
  (∀ y, y ∈ R → rtc (leads q0) y h0) →
  (∀ t x, t ∈ st → provided_tags q0 !! t = Some x → rtc (leads q0) x h0) →
  (∀ x y, ready q !! x = Some y → (length (provides (tx_of y)) ≤ P)%nat) →
  (length st + length (flat_map requires (txs_of (ready q))) * P ≤ fuel)%nat →
  ∃ q' txs' R', prune_loop fuel q st txs = Some (Ok (q', txs')) ∧ loose_ok seen q' ∧ (ready_ok seen q → ready_ok seen q') ∧ next_id q' = next_id q0 ∧
    collected q0 R' txs' ∧ R ⊆ R' ∧ (∀ y, y ∈ R' → rtc (leads q0) y h0) ∧
    (∀ x, rt_transaction <$> ready q' !! x = if decide (x ∈ R') then None else rt_transaction <$> ready q0 !! x) ∧
    ∀ t x, t ∈ st → provided_tags q0 !! t = Some x → x ∈ R'.
Proof.
  intros Hq0. induction fuel as [|fuel IH]; intros q st txs R Hq Hrt Hid Hcol Hlead Hst HP Hf;
    destruct st as [|t st]; cbn [prune_loop].
  1,3: exists q, txs, R; split_and!; try done; intros t x Ht; by apply not_elem_of_nil in Ht.
  { cbn [length] in Hf. lia. }
  assert (∀ x y, ready q !! x = Some y → ∃ y0, ready q0 !! x = Some y0 ∧ tx_of y = tx_of y0 ∧ x ∉ R) as Hold.
  { intros x y Hy. specialize (Hrt x). rewrite Hy in Hrt. case_decide; [done|].
    destruct (ready q0 !! x) as [y0|]; [|done]. cbn in Hrt. injection Hrt as Hrt. exists y0. unfold tx_of. by rewrite Hrt. }
  assert (∀ t x, provided_tags q !! t = Some x → provided_tags q0 !! t = Some x) as Hprov.
  { intros t' x (y&Hy&Hty)%(ls_provided _ _ Hq). destruct (Hold x y Hy) as (y0&Hy0&He&_). rewrite He in Hty.
    apply (ls_provided _ _ Hq0). by exists y0. }
  destruct (provided_tags q !! t) as [p|] eqn:Hp.
  2:{ destruct (IH q st txs R) as (q'&txs'&R'&->&G1&Gx&G2&G3&HRR&G4&G5&G6); try done.
    { intros t' x Ht'. apply Hst. by right. } { cbn [length] in Hf. lia. }
    exists q', txs', R'. split_and!; try done. intros t' x [->|Ht']%elem_of_cons Hx; [|by eapply G6].
    apply HRR. destruct (decide (x ∈ R)) as [|HnR]; [done|]. exfalso.
    apply (ls_provided _ _ Hq0) in Hx as (y0&Hy0&Ht0). specialize (Hrt x). rewrite decide_False, Hy0 in Hrt by done.
    destruct (ready q !! x) as [y|] eqn:Hy; [|done]. cbn in Hrt. injection Hrt as Hrt.
    assert (provided_tags q !! t = Some x) by (apply (ls_provided _ _ Hq); exists y; unfold tx_of in *; by rewrite Hrt).
    congruence. }
  pose proof Hp as (r&Hr&Htr)%(ls_provided _ _ Hq). rewrite Hr.
  pose proof (prune_step_ok seen q t p r P Hq Hp Hr HP) as Hstep. cbn zeta in Hstep.
  destruct (find_previous _ _ _ _) as [m1 more]. destruct (foldl unlock_one _ _) as [m2 best'].
  destruct Hstep as (provided'&->&Hq'&Hex'&Hrt'&Hmore&Hmore').
  destruct (Hold p r Hr) as (r0&Hr0&Htx&HpR).
  assert (rtc (leads q0) p h0) as Hph by (eapply Hst; [by left|by apply Hprov]).
  destruct (IH (MkReadyTransactions (next_id q) provided' m2 best') (reverse more ++ st) (txs ++ [tx_of r]) ({[p]} ∪ R))
    as (q'&txs'&R'&->&G1&Gx&G2&G3&HRR&G4&G5&G6); try done.
  - intros x. cbn [ready]. rewrite Hrt'. destruct (decide (x = p)) as [->|Hne].
    + rewrite decide_True by set_solver. done.
    + rewrite Hrt. repeat case_decide; set_solver.
  - rewrite Htx. by eapply collected_snoc.
  - intros y [->%elem_of_singleton|Hy]%elem_of_union; [done|by apply Hlead].
  - intros t' x [Ht'|Ht']%elem_of_app Hx; [|by eapply Hst; [right|]]. rewrite elem_of_reverse in Ht'.
    destruct (Hmore' t' Ht') as (z&y&t2&Hy&Hz&Hreq&Hprv). destruct (Hold z y Hy) as (y0&Hy0&He&_).
    assert (Some x = Some z) as [= ->].
    { rewrite <- Hx. apply (ls_provided _ _ Hq0). exists y0. by rewrite <- He. }
    eapply rtc_l; [|exact Hph]. exists y0, r0, t2. rewrite <- He, <- Htx. done.
  - cbn [ready]. intros x y2 Hy2. specialize (Hrt' x). rewrite Hy2 in Hrt'. case_decide; [done|].
    destruct (ready q !! x) as [y|] eqn:Hy; [|done]. cbn in Hrt'. injection Hrt' as Hrt'. specialize (HP x y Hy).
    unfold tx_of in *. by rewrite Hrt'.
  - cbn [ready]. rewrite (txs_of_refs m2 (delete p (ready q))).
    2:{ intros x. rewrite Hrt', lookup_delete. repeat case_decide; done. }
    rewrite (txs_of_delete _ p r Hr) in Hf. cbn [flat_map length] in Hf. rewrite length_app in Hf.
    rewrite length_app, length_reverse. nia.
  - exists q', txs', R'. split_and!; try done; [by auto|set_solver|].
    intros t' x [->|Ht']%elem_of_cons Hx; [|eapply G6; [apply elem_of_app; by right|done]].
    assert (x = p) as -> by (apply Hprov in Hp; congruence). set_solver.
Qed.

(** Pruning a tag removes the transaction that provides it, possibly
    transactions that lead to it, and no other. *)
Lemma ready_prune_tags_ok seen q tag :
  loose_ok seen q →
  ∃ q' txs R, ready_prune_tags q tag = Some (Ok (q', txs)) ∧ loose_ok seen q' ∧ (ready_ok seen q → ready_ok seen q') ∧ next_id q' = next_id q ∧
    collected q R txs ∧
    (∀ x, rt_transaction <$> ready q' !! x = if decide (x ∈ R) then None else rt_transaction <$> ready q !! x) ∧
    match provided_tags q !! tag with
    | Some h => h ∈ R ∧ ∀ y, y ∈ R → rtc (leads q) y h
    | None => R = ∅
    end.
Proof.
  intros Hq. unfold ready_prune_tags. destruct (provided_tags q !! tag) as [h|] eqn:Hp.
  - destruct (ready_prune_loop_ok seen q h (prune_fuel q) (length (flat_map provides (txs_of (ready q)))) Hq q [tag] [] ∅)
      as (q'&txs&R&->&G1&Gx&G2&G3&_&G4&G5&G6); try done.
    + split; [constructor|]. intros t. split; [intros Ht; by apply not_elem_of_nil in Ht|]. intros (r&_&_&?). set_solver.
    + intros t x Ht Hx. apply list_elem_of_singleton in Ht as ->. assert (x = h) as -> by congruence. apply rtc_refl.
    + intros x y Hy. by apply (length_flat_map_elem provides), (elem_of_txs_of _ x).
    + exists q', txs, R. split_and!; try done. apply (G6 tag h); [by left|done].
  - unfold prune_fuel. cbn [prune_loop]. rewrite Hp. exists q, [], ∅. split_and!; try done.
    + by destruct (_ * _)%nat.
    + split; [constructor|]. intros t. split; [intros Ht; by apply not_elem_of_nil in Ht|]. intros (r&_&_&?). set_solver.
Qed.

(** ** The iterator *)

Section iterator.
Context (seen : gset Hash) (q : queue) (Hq : ready_ok seen q).
Let m := ready q.

Definition needs (r : rtx) : Z := Z.of_nat (length (requires (tx_of r))).

(** [c x] links to [x] were followed, and the transactions [Y] were returned. *)
Record credited (c : Hash → Z) (Y : list Hash) (it : BestIterator (Hash := Hash) (Tag := Tag) (Ex := Ex)) : Prop := {
  cr_awaiting : ∀ x, awaiting it !! x =
    r ← m !! x; if (0 <? c x) && (requires_offset r + c x <? needs r)
                then Some (requires_offset r + c x, rt_transaction r) else None;
  cr_sorted : sorted (it_best it);
  cr_known : ∀ a, a ∈ it_best it → known q a;
  cr_current : ∀ a r, a ∈ it_best it → m !! tx_hash (tr_transaction a) = Some r → a = rt_transaction r;
  cr_best : ∀ x r, m !! x = Some r → rt_transaction r ∈ it_best it ↔ (x ∉ Y) ∧ requires_offset r + c x = needs r;
  cr_done : ∀ x r, m !! x = Some r → x ∈ Y → requires_offset r + c x = needs r;
  cr_nonneg : ∀ x, 0 ≤ c x;
}.

Lemma credited_ext c c' Y it : (∀ x, c x = c' x) → credited c Y it → credited c' Y it.
Proof.
  intros Hc []. constructor; try done; intros x; rewrite <- Hc; auto.
Qed.

Lemma it_separate it c Y a : credited c Y it → known q a → separate a (it_best it).
Proof using Hq.
  intros Hi Ha y Hy Hc. apply (ls_known _ _ Hq); [by apply (cr_known _ _ _ Hi)|done|].
  pose proof (ref_cmp_spec a y) as Hs. rewrite Hc in Hs. cbn in Hs. lia.
Qed.

Lemma m_known x r : m !! x = Some r → known q (rt_transaction r).
Proof. intros Hr. right. by exists x, r. Qed.

Lemma m_inj x r x' r' : m !! x = Some r → m !! x' = Some r' → rt_transaction r = rt_transaction r' → x = x'.
Proof using Hq.
  intros Hr Hr' He. destruct (ls_ready _ _ Hq x r Hr) as [<- _]. destruct (ls_ready _ _ Hq x' r' Hr') as [<- _].
  unfold tx_of. by rewrite He.
Qed.

(** One more link to [h]. *)
Lemma iter_unlock_ok c Y it h :
  credited c Y it → (∀ r, m !! h = Some r → requires_offset r + c h + 1 ≤ needs r) →
  credited (λ x, c x + (if decide (x = h) then 1 else 0)) Y (iter_unlock m it h).
Proof using Hq.
  intros Hi Hle. pose proof (cr_nonneg _ _ _ Hi) as Hc0. pose proof (cr_awaiting _ _ _ Hi) as Haw.
  assert (∀ x, 0 ≤ c x + (if decide (x = h) then 1 else 0)) as Hn by (intros x; specialize (Hc0 x); case_decide; lia).
  unfold iter_unlock. destruct (m !! h) as [r|] eqn:Hr.
  2:{ rewrite Haw, Hr. cbn. destruct Hi. constructor; try done.
    - intros x. rewrite cr_awaiting0. destruct (decide (x = h)) as [->|Hx]; [by rewrite Hr|].
      by rewrite Z.add_0_r.
    - intros x r Hx. rewrite decide_False by congruence. rewrite Z.add_0_r. auto.
    - intros x r Hx. rewrite decide_False by congruence. rewrite Z.add_0_r. auto. }
  specialize (Hle r eq_refl).
  assert (iter_unlock m it h = best_or_awaiting (MkBestIterator (delete h (awaiting it)) (it_best it))
    (requires_offset r + c h + 1) (rt_transaction r)) as Heq.
  { unfold iter_unlock. rewrite Haw, Hr. cbn. destruct (Z.ltb_spec 0 (c h)) as [Hpos|Hz]; cbn.
    - destruct (Z.ltb_spec (requires_offset r + c h) (needs r)); [done|lia].
    - assert (c h = 0) as Hch by (specialize (Hc0 h); lia). rewrite Hch, Z.add_0_r.
      rewrite delete_id; [by destruct it|]. rewrite Haw, Hr. cbn. by rewrite Hch. }
  unfold iter_unlock in Heq. rewrite Hr in Heq. rewrite Heq. clear Heq. unfold best_or_awaiting.
  change (Z.of_nat (length (requires (tr_transaction (rt_transaction r))))) with (needs r).
  assert (h ∉ Y) as HhY by (intros HY; pose proof (cr_done _ _ _ Hi h r Hr HY); lia).
  destruct (Z.leb_spec (needs r) (requires_offset r + c h + 1)) as [Hge|Hlt]; cbn [awaiting it_best].
  - assert (∀ a, a ∈ set_insert (rt_transaction r) (it_best it) ↔ a = rt_transaction r ∨ a ∈ it_best it) as Hins.
    { intros a. apply set_insert_elem. eapply it_separate; [done|by eapply m_known]. }
    constructor; cbn [awaiting it_best].
    + intros x. rewrite lookup_delete. destruct (decide (x = h)) as [->|Hx].
      * rewrite decide_True, Hr by done. cbn. rewrite andb_comm.
        destruct (Z.ltb_spec (requires_offset r + (c h + 1)) (needs r)); [lia|done].
      * rewrite decide_False, Haw by done. by rewrite Z.add_0_r.
    + apply set_insert_sorted, Hi.
    + intros a [->|Ha]%Hins; [by eapply m_known|by apply (cr_known _ _ _ Hi)].
    + intros a r' [->|Ha]%Hins Hr'; [|by apply (cr_current _ _ _ Hi)].
      destruct (ls_ready _ _ Hq h r Hr) as [Hh _]. unfold tx_of in Hh. rewrite Hh in Hr'. congruence.
    + intros x r' Hr'. rewrite Hins, (cr_best _ _ _ Hi x r' Hr'). destruct (decide (x = h)) as [->|Hx].
      * assert (r' = r) as -> by congruence. split; [intros _; split; [done|lia]|by left].
      * rewrite Z.add_0_r. split; [|by right]. intros [He|?]; [|done]. destruct Hx. by eapply m_inj.
    + intros x r' Hr' HY. rewrite decide_False by congruence. rewrite Z.add_0_r. by apply (cr_done _ _ _ Hi).
    + done.
  - destruct (ls_ready _ _ Hq h r Hr) as [Hh _]. unfold tx_of in Hh. rewrite Hh. rewrite insert_delete_eq.
    constructor; cbn [awaiting it_best]; try apply Hi; [| | |done].
    + intros x. rewrite lookup_insert. destruct (decide (x = h)) as [->|Hx].
      * rewrite decide_True, Hr by done. cbn. specialize (Hc0 h).
        destruct (Z.ltb_spec 0 (c h + 1)); [|lia]. destruct (Z.ltb_spec (requires_offset r + (c h + 1)) (needs r)); [|lia].
        cbn. do 2 f_equal. lia.
      * rewrite decide_False, Haw by done. by rewrite Z.add_0_r.
    + intros x r' Hr'. rewrite (cr_best _ _ _ Hi x r' Hr'). destruct (decide (x = h)) as [->|Hx]; [|by rewrite Z.add_0_r].
      assert (r' = r) as -> by congruence. split; intros [_ ?]; lia.
    + intros x r' Hr' HY. rewrite decide_False by congruence. rewrite Z.add_0_r. by apply (cr_done _ _ _ Hi).
Qed.

Lemma iter_unlocks_ok l c Y it :
  credited c Y it → (∀ x r, m !! x = Some r → requires_offset r + c x + occ x l ≤ needs r) →
  credited (λ x, c x + occ x l) Y (foldl (iter_unlock m) it l).
Proof using Hq.
  revert c it. induction l as [|h l IH]; intros c it Hi Hle; cbn [foldl].
  { eapply credited_ext; [|done]. intros x. change (occ x []) with 0. lia. }
  eapply credited_ext; [|apply (IH (λ x, c x + (if decide (x = h) then 1 else 0)))].
  - intros x. cbn beta. rewrite occ_cons. repeat case_decide; try lia; congruence.
  - apply iter_unlock_ok; [done|]. intros r Hr. specialize (Hle h r Hr). rewrite occ_cons, decide_True in Hle by done.
    pose proof (occ_nonneg h l). lia.
  - intros x r Hr. specialize (Hle x r Hr). rewrite occ_cons in Hle. cbn beta. repeat case_decide; try lia; congruence.
Qed.

Definition credits (Y : list Hash) (x : Hash) : Z := sum_of (weight m x) Y.

(** The links split into those from [Y] and the others. *)
Lemma credits_links Y x :
  NoDup Y → (∀ y, y ∈ Y → is_Some (m !! y)) →
  links m x = credits Y x + sum_of (weight m x) (elements (dom m ∖ list_to_set Y)).
Proof.
  intros Hnd HY. unfold links, credits.
  assert (list_to_set Y ⊆ dom m) as Hsub.
  { intros y Hy%elem_of_list_to_set. by apply elem_of_dom, HY. }
  rewrite (union_difference_L _ _ Hsub) at 1. rewrite elements_disj_union, sum_of_app by set_solver.
  by rewrite elements_list_to_set.
Qed.

(** A transaction that can be returned: everything that unlocks it was. *)
Definition available (Y : list Hash) (x : Hash) : Prop :=
  is_Some (m !! x) ∧ (x ∉ Y) ∧ ∀ y r, m !! y = Some r → x ∈ unlocks r → y ∈ Y.

Lemma credits_full Y x r :
  NoDup Y → (∀ y, y ∈ Y → is_Some (m !! y)) → m !! x = Some r →
  requires_offset r + credits Y x = needs r ↔ ∀ y ry, m !! y = Some ry → x ∈ unlocks ry → y ∈ Y.
Proof using Hq.
  intros Hnd HY Hr. unfold needs. rewrite (ro_balance _ _ Hq x r Hr). fold m.
  rewrite (credits_links Y x Hnd HY). split.
  - intros Hz y ry Hy Hx. destruct (decide (y ∈ Y)) as [|Hn]; [done|]. exfalso.
    pose proof (sum_of_elem (weight m x) (elements (dom m ∖ list_to_set Y)) y) as Hw.
    assert (weight m x y ≤ 0) as Hle.
    { etrans; [apply Hw; [intros; apply weight_nonneg|]|lia]. apply elem_of_elements.
      apply elem_of_dom_2 in Hy. set_solver. }
    unfold weight in Hle. rewrite Hy in Hle. apply occ_pos in Hx. lia.
  - intros Hall. rewrite (sum_of_zero _ (elements _)); [lia|]. intros y Hy%elem_of_elements. unfold weight.
    destruct (m !! y) as [ry|] eqn:Hry; [|done]. apply occ_zero. intros Hx. specialize (Hall y ry Hry Hx). set_solver.
Qed.

Lemma credits_le Y x r :
  NoDup Y → (∀ y, y ∈ Y → is_Some (m !! y)) → m !! x = Some r → requires_offset r + credits Y x ≤ needs r.
Proof using Hq.
  intros Hnd HY Hr. unfold needs. rewrite (ro_balance _ _ Hq x r Hr). fold m. rewrite (credits_links Y x Hnd HY).
  assert (0 ≤ sum_of (weight m x) (elements (dom m ∖ list_to_set Y))) by (apply sum_of_nonneg; intros; apply weight_nonneg).
  lia.
Qed.

Record iterating (Y : list Hash) (it : BestIterator (Hash := Hash) (Tag := Tag) (Ex := Ex)) : Prop := {
  it_credited : credited (credits Y) Y it;
  it_nodup : NoDup Y;
  it_dom : ∀ y, y ∈ Y → is_Some (m !! y);
}.

Lemma iterating_start : iterating [] (iter_get q).
Proof using Hq.
  constructor; [|constructor|intros y Hy; by apply not_elem_of_nil in Hy].
  constructor; cbn; try apply Hq.
  - intros x. rewrite lookup_empty. by destruct (m !! x).
  - intros a Ha. by left.
  - intros x r Hr. rewrite (ro_best _ _ Hq x r Hr). unfold needs. rewrite Z.add_0_r. split; [|tauto].
    intros ?. split; [apply not_elem_of_nil|done].
  - intros x r _ Hx. by apply not_elem_of_nil in Hx.
  - done.
Qed.

Lemma available_best Y it x r :
  iterating Y it → m !! x = Some r → available Y x ↔ rt_transaction r ∈ it_best it.
Proof using Hq.
  intros [Hc Hnd Hd] Hr. rewrite (cr_best _ _ _ Hc x r Hr), (credits_full Y x r Hnd Hd Hr).
  unfold available. split; [tauto|]. intros [? ?]. split_and!; [by eexists|done|done].
Qed.

Lemma length_set_remove (b : ref) l : sorted l → b ∈ l → length (set_remove b l) = pred (length l).
Proof.
  induction 1 as [|y l Hl IH Hy]; intros Hb; [by apply not_elem_of_nil in Hb|]. cbn [set_remove].
  rewrite Forall_forall in Hy. destruct (ref_cmp b y) eqn:Hc; [done| |].
  - apply elem_of_cons in Hb as [->|Hb]; [by rewrite ref_cmp_refl in Hc|]. exfalso.
    apply (ref_lt_irrefl b). eapply ref_lt_trans; [exact Hc|]. by apply Hy.
  - apply elem_of_cons in Hb as [->|Hb]; [by rewrite ref_cmp_refl in Hc|]. cbn. rewrite IH by done.
    destruct l; [by apply not_elem_of_nil in Hb|done].
Qed.

(** A reference that is no longer in the queue is skipped. *)
Lemma skip_stale Y it b :
  iterating Y it → b ∈ it_best it → m !! tx_hash (tr_transaction b) = None →
  iterating Y (MkBestIterator (awaiting it) (set_remove b (it_best it))).
Proof using Hq.
  intros [Hc Hnd Hd] Hb Hn.
  assert (∀ a, a ∈ set_remove b (it_best it) ↔ a ∈ it_best it ∧ a ≠ b) as Hrem.
  { intros a. apply set_remove_elem; [apply Hc|]. eapply it_separate; [done|]. by apply (cr_known _ _ _ Hc). }
  constructor; [|done|done]. constructor; cbn [awaiting it_best]; try apply Hc.
  - by apply set_remove_sorted, Hc.
  - intros a [Ha _]%Hrem. by apply (cr_known _ _ _ Hc).
  - intros a r [Ha _]%Hrem. by apply (cr_current _ _ _ Hc).
  - intros x r Hr. rewrite Hrem, (cr_best _ _ _ Hc x r Hr). split; [tauto|]. intros ?. split; [done|]. intros <-.
    destruct (ls_ready _ _ Hq x r Hr) as [Hx _]. unfold tx_of in Hx. rewrite Hx in Hn. congruence.
Qed.

(** Returning a transaction. *)
Lemma return_one Y it x r :
  iterating Y it → m !! x = Some r → rt_transaction r ∈ it_best it →
  iterating (Y ++ [x])
    (foldl (iter_unlock m) (MkBestIterator (awaiting it) (set_remove (rt_transaction r) (it_best it))) (unlocks r)).
Proof using Hq.
  intros [Hc Hnd Hd] Hr Hb.
  pose proof (proj1 (cr_best _ _ _ Hc x r Hr) Hb) as [HxY Hfull].
  assert (NoDup (Y ++ [x])) as Hnd'.
  { apply NoDup_app. split_and!; [done| |apply NoDup_singleton]. intros y Hy ->%list_elem_of_singleton. done. }
  assert (∀ y, y ∈ Y ++ [x] → is_Some (m !! y)) as Hd'.
  { intros y [?| ->%list_elem_of_singleton]%elem_of_app; [by apply Hd|by eexists]. }
  assert (∀ z, credits (Y ++ [x]) z = credits Y z + occ z (unlocks r)) as Hcr.
  { intros z. unfold credits. rewrite sum_of_app. cbn. unfold weight at 2. rewrite Hr. lia. }
  assert (∀ a, a ∈ set_remove (rt_transaction r) (it_best it) ↔ a ∈ it_best it ∧ a ≠ rt_transaction r) as Hrem.
  { intros a. apply set_remove_elem; [apply Hc|]. eapply it_separate; [done|]. by eapply m_known. }
  constructor; [|done|done]. eapply credited_ext; [intros z; symmetry; apply Hcr|].
  apply iter_unlocks_ok.
  - constructor; cbn [awaiting it_best]; try apply Hc.
    + by apply set_remove_sorted, Hc.
    + intros a [Ha _]%Hrem. by apply (cr_known _ _ _ Hc).
    + intros a r' [Ha _]%Hrem. by apply (cr_current _ _ _ Hc).
    + intros z r' Hr'. rewrite Hrem, (cr_best _ _ _ Hc z r' Hr'), elem_of_app, list_elem_of_singleton. split.
      * intros [[? ?] Hne]. split; [|done]. intros [?| ->]; [done|]. congruence.
      * intros [Hn ?]. split; [tauto|]. intros He. apply Hn. right. by eapply m_inj.
    + intros z r' Hr' [?| ->%list_elem_of_singleton]%elem_of_app; [by apply (cr_done _ _ _ Hc)|congruence].
  - intros z r' Hr'. rewrite <- Z.add_assoc, <- Hcr. by apply credits_le.
Qed.

Lemma iter_next_loop_ok n Y it :
  iterating Y it → (length (it_best it) ≤ n)%nat →
  match iter_next_loop n m it with
  | (it', Some t) => ∃ x r, m !! x = Some r ∧ t = tx_of r ∧ available Y x ∧ iterating (Y ++ [x]) it' ∧
      ∀ x' r', available Y x' → m !! x' = Some r' → x' = x ∨ ref_lt (rt_transaction r') (rt_transaction r)
  | (_, None) => ∀ x, ¬ available Y x
  end.
Proof using Hq.
  revert it. induction n as [|n IH]; intros it Hi Hn; cbn [iter_next_loop].
  { intros x Hx. pose proof Hx as ([r Hr]&_). apply (available_best Y it x r Hi Hr) in Hx.
    destruct (it_best it); [by apply not_elem_of_nil in Hx|cbn in Hn; lia]. }
  destruct (last (it_best it)) as [b|] eqn:Hl.
  2:{ intros x Hx. pose proof Hx as ([r Hr]&_). apply (available_best Y it x r Hi Hr) in Hx.
    apply last_None in Hl. rewrite Hl in Hx. by apply not_elem_of_nil in Hx. }
  assert (b ∈ it_best it) as Hb by (apply last_Some in Hl as [l' ->]; apply elem_of_app; right; by left).
  destruct (m !! tx_hash (tr_transaction b)) as [r|] eqn:Hr.
  - assert (b = rt_transaction r) as -> by (by apply (cr_current _ _ _ (it_credited _ _ Hi))).
    set (x := tx_hash _) in *. exists x, r. split_and!; [done|done| |by apply return_one|].
    + by apply (available_best Y it x r Hi Hr).
    + intros x' r' Hx' Hr'. apply (available_best Y it x' r' Hi Hr') in Hx'.
      destruct (last_greatest _ _ _ (cr_sorted _ _ _ (it_credited _ _ Hi)) Hl Hx') as [He|?]; [left|by right].
      by eapply m_inj.
  - apply IH; [by apply skip_stale|]. cbn [it_best].
    rewrite length_set_remove; [lia|apply Hi|done].
Qed.

(** The transactions the iterator returns, from a moment on. *)
Lemma iter_take_ok fuel Y it :
  iterating Y it → (size m < length Y + fuel)%nat →
  let L := map tx_hash (iter_take fuel m it) in
  Forall (λ t, ∃ r, m !! tx_hash t = Some r ∧ t = tx_of r) (iter_take fuel m it) ∧
  NoDup (Y ++ L) ∧ (∀ x, ¬ available (Y ++ L) x) ∧
  ∀ i x, L !! i = Some x → available (Y ++ take i L) x ∧
    ∀ x' r r', available (Y ++ take i L) x' → m !! x = Some r → m !! x' = Some r' →
      x' = x ∨ ref_lt (rt_transaction r') (rt_transaction r).
Proof using Hq.
  revert Y it. induction fuel as [|fuel IH]; intros Y it Hi Hf; cbn [iter_take].
  { exfalso. destruct Hi as [_ Hnd Hd].
    assert (size (list_to_set Y : gset Hash) ≤ size (dom m))%nat as Hle.
    { apply subseteq_size. intros y Hy%elem_of_list_to_set. by apply elem_of_dom, Hd. }
    rewrite size_list_to_set, size_dom in Hle by done. lia. }
  unfold iter_next. pose proof (iter_next_loop_ok (length (it_best it)) Y it Hi ltac:(lia)) as Hnext.
  destruct (iter_next_loop _ m it) as [it' [t|]].
  2:{ cbn. rewrite app_nil_r. split_and!; [constructor|apply Hi|done|]. intros i x Hx. by rewrite lookup_nil in Hx. }
  destruct Hnext as (x&r&Hr&->&Hav&Hi'&Hmax). destruct (IH _ _ Hi') as (H1&H2&H3&H4).
  { rewrite length_app. cbn [length]. lia. }
  destruct (ls_ready _ _ Hq x r Hr) as [Hx _]. cbn [map]. rewrite Hx. split_and!.
  - constructor; [exists r; by rewrite Hx|done].
  - by rewrite <- app_assoc in H2.
  - by setoid_rewrite <- app_assoc in H3.
  - intros [|i] y Hy; cbn [take].
    + injection Hy as <-. rewrite app_nil_r. split; [done|]. intros x' ry r' Hx' Hry Hr'.
      assert (ry = r) as -> by congruence. by apply Hmax.
    + specialize (H4 i y Hy). by rewrite <- app_assoc in H4.
Qed.
End iterator.

(** ** Importing *)

(** The transaction [hash] is appended to the lists of the transactions that
    provide one of the tags. *)
Definition appended (provided : gmap Tag Hash) (hash : Hash) (tags : list Tag) (m m' : gmap Hash rtx) : Prop :=
  ∀ x, match m !! x with
  | Some r => ∃ n, m' !! x = Some (set_unlocks r (unlocks r ++ replicate n hash)) ∧
      ((n ≠ 0)%nat ↔ ∃ tag, tag ∈ tags ∧ provided !! tag = Some x)
  | None => m' !! x = None
  end.

Lemma link_requires_ok provided hash m tags :
  (∀ tag h, tag ∈ tags → provided !! tag = Some h → is_Some (m !! h)) →
  ∃ m' top offset, link_requires provided hash m tags = Ok (m', top, offset) ∧
    appended provided hash tags m m' ∧ 0 ≤ offset ≤ Z.of_nat (length tags) ∧
    (top = true ↔ offset = Z.of_nat (length tags)) ∧
    links m' hash + offset = links m hash + Z.of_nat (length tags) ∧
    ∀ y, y ≠ hash → links m' y = links m y.
Proof.
  revert m. induction tags as [|tag tags IH]; intros m Hm; cbn [link_requires].
  { exists m, true, 0. split; [done|]. split; [|by split_and!].
    intros x. destruct (m !! x) as [r|] eqn:Hx; [|done].
    exists 0%nat. cbn. rewrite app_nil_r, set_unlocks_id. split; [done|]. split; [done|].
    intros (tag&Ht&_). by apply not_elem_of_nil in Ht. }
  destruct (provided !! tag) as [other|] eqn:Hp.
  - destruct (Hm tag other ltac:(by left) Hp) as [r Hr]. rewrite Hr. cbn [expect mbind result_bind].
    set (m1 := <[other := set_unlocks r (unlocks r ++ [hash])]> m).
    destruct (IH m1) as (m'&top&offset&->&Happ&Hoff&Htop&Hl&Hl').
    { intros t h Ht Hth. unfold m1. rewrite lookup_insert. case_decide; [by eexists|].
      eapply Hm; [by right|done]. }
    cbn [mbind result_bind]. exists m', false, offset.
    assert (∀ y, links m1 y = links m y + (if decide (y = hash) then 1 else 0)) as Hm1.
    { intros y. unfold m1. rewrite links_insert. unfold weight. rewrite Hr. cbn [unlocks set_unlocks].
      rewrite occ_app, occ_cons. change (occ y []) with 0.
      repeat case_decide; try lia; congruence. }
    cbn [length]. split; [done|]. split; [|split_and!; [lia|lia|split; [done|lia]| |]].
    + intros x. specialize (Happ x). unfold m1 in Happ. rewrite lookup_insert in Happ.
      destruct (decide (other = x)) as [<-|Hx].
      * rewrite Hr. destruct Happ as (n&Hn&_). exists (S n). split; [|split; [intros _; by exists tag; split; [left|]|done]].
        rewrite Hn. unfold set_unlocks. cbn. by rewrite <- app_assoc.
      * destruct (m !! x) as [rx|]; [|done]. destruct Happ as (n&Hn&Ht). exists n. split; [done|]. rewrite Ht.
        setoid_rewrite elem_of_cons. split; [naive_solver|]. intros (t&[->|?]&?); [congruence|by exists t].
    + rewrite Hl, Hm1, decide_True by done. lia.
    + intros y Hy. rewrite Hl', Hm1, decide_False by done. lia.
  - destruct (IH m) as (m'&top&offset&->&Happ&Hoff&Htop&Hl&Hl').
    { intros t h Ht. apply Hm. by right. }
    cbn [mbind result_bind]. exists m', top, (offset + 1). cbn [length]. split; [done|].
    split; [|split_and!; [lia|lia|rewrite Htop; lia|lia|done]].
    intros x. specialize (Happ x). destruct (m !! x) as [rx|]; [|done]. destruct Happ as (n&Hn&Ht).
    exists n. split; [done|]. rewrite Ht. setoid_rewrite elem_of_cons. split; [naive_solver|].
    intros (t&[->|?]&?); [congruence|by exists t].
Qed.

Context (hash_order : gset Hash → list Hash).
Hypothesis Hhash : ∀ s, hash_order s ≡ₚ elements s.

Lemma saturating_sum {A} (f : A → Z) l a :
  0 ≤ a ≤ 2 ^ 64 - 1 → (∀ x, x ∈ l → 0 ≤ f x) →
  foldl (λ total x, saturating_add 64 total (f x)) a l = Z.min (2 ^ 64 - 1) (a + sum_of f l).
Proof.
  revert a. induction l as [|x l IH]; intros a Ha Hl; cbn [foldl]; [cbn; lia|].
  assert (0 ≤ f x) by (apply Hl; by left). rewrite IH.
  - unfold saturating_add. cbn [sum_of foldr]. fold (sum_of f l).
    assert (0 ≤ sum_of f l) by (apply sum_of_nonneg; intros y Hy; apply Hl; by right). lia.
  - unfold saturating_add. lia.
  - intros y Hy. apply Hl. by right.
Qed.

(** The transactions that provide a tag of the new one. *)
Definition rivals (q : queue) (t : tx) : list rtx := replaced_txs hash_order q t.

Lemma elem_of_replace_hashes seen q t h :
  loose_ok seen q →
  h ∈ replace_hashes q t ↔ ∃ r tag, ready q !! h = Some r ∧ tag ∈ provides (tx_of r) ∧ tag ∈ provides t.
Proof.
  intros Hq. unfold replace_hashes. rewrite elem_of_list_to_set, list_elem_of_omap.
  setoid_rewrite (ls_provided _ _ Hq). naive_solver.
Qed.

Lemma elem_of_rivals seen q t r :
  loose_ok seen q →
  r ∈ rivals q t ↔ ready q !! tx_hash (tx_of r) = Some r ∧ ∃ tag, tag ∈ provides (tx_of r) ∧ tag ∈ provides t.
Proof using Hhash.
  intros Hq. unfold rivals, replaced_txs. rewrite list_elem_of_omap. setoid_rewrite Hhash.
  setoid_rewrite elem_of_elements. setoid_rewrite (elem_of_replace_hashes _ _ _ _ Hq). split.
  - intros (h&(r'&tag&Hr'&?&?)&Hr). assert (r' = r) as -> by congruence.
    rewrite (proj1 (ls_ready _ _ Hq h r Hr)). naive_solver.
  - intros (Hr&tag&?&?). exists (tx_hash (tx_of r)). naive_solver.
Qed.

(** The links that the rivals give. *)
Lemma rivals_links q t x :
  occ x (flat_map unlocks (rivals q t)) = sum_of (weight (ready q) x) (elements (replace_hashes q t)).
Proof using Hhash.
  unfold rivals, replaced_txs. rewrite <- (Hhash (replace_hashes q t)).
  induction (hash_order (replace_hashes q t)) as [|h l IH]; [done|]. cbn. unfold weight at 1.
  destruct (ready q !! h) as [r|]; cbn; [rewrite occ_app|]; rewrite IH; unfold sum_of; lia.
Qed.

Lemma replace_previous_ok seen q t :
  loose_ok seen q →
  let old := Z.min (2 ^ 64 - 1) (sum_of (priority ∘ tx_of) (rivals q t)) in
  let F := Some (list_to_set (provides t)) in
  ∃ q' r, replace_previous hash_order q t = Some (q', r) ∧
  match r with
  | Err e => q' = q ∧ e = TooLowPriority old (priority t) ∧ priority t ≤ old ∧ rivals q t ≠ []
  | Panic => False
  | Ok (txs, unlocked) => unlocked = flat_map unlocks (rivals q t) ∧ (rivals q t = [] ∨ old < priority t) ∧
      ∃ R, after F q R q' ∧ collected q R txs ∧
        ∀ y, y ∈ R ↔ is_Some (ready q !! y) ∧ ∃ x, x ∈ replace_hashes q t ∧ rtc (falls F q) x y
  end.
Proof using Hhash.
  intros Hq old F. unfold replace_previous. case_decide as He.
  { exists q, (Ok ([], [])). split; [done|].
    assert (rivals q t = []) as Hr.
    { unfold rivals, replaced_txs. assert (hash_order (replace_hashes q t) = []) as ->; [|done].
      rewrite He. apply Permutation_nil. by rewrite Hhash, elements_empty. }
    rewrite Hr. split_and!; [done|by left|]. exists ∅. split_and!; [by eapply after_nothing| |].
    - split; [constructor|]. intros t'. split; [intros Ht; by apply not_elem_of_nil in Ht|].
      intros (r&_&_&?). set_solver.
    - intros y. rewrite He. set_solver. }
  assert (∀ r, r ∈ rivals q t → 0 ≤ priority (tx_of r)) as Hpos.
  { intros r [Hr _]%(elem_of_rivals _ _ _ _ Hq). destruct (ls_ready _ _ Hq _ r Hr) as (_&_&(_&_&Hf)&_). apply Hf. }
  change (replaced_txs hash_order q t) with (rivals q t).
  assert (foldl (λ total r, saturating_add 64 total (priority (tx_of r))) 0 (rivals q t) = old) as ->
    by (etrans; [apply (saturating_sum (priority ∘ tx_of)); [done|apply Hpos]|done]).
  destruct (Z.leb_spec (priority t) old) as [Hle|Hlt].
  { eexists _, _. split; [done|]. split_and!; [done|done|done|]. intros Hnil. apply He.
    apply set_eq. intros h. split; [|set_solver]. intros (r&tag&Hr&?&?)%(elem_of_replace_hashes _ _ _ _ Hq).
    assert (r ∈ rivals q t) as Hin; [|rewrite Hnil in Hin; by apply not_elem_of_nil in Hin].
    apply (elem_of_rivals _ _ _ _ Hq). rewrite (proj1 (ls_ready _ _ Hq h r Hr)). naive_solver. }
  destruct (remove_filter_ok F seen q (hash_order (replace_hashes q t)) Hq) as (q'&txs&R&Hrun&Ha&Hc&HR).
  fold F. rewrite Hrun. cbn [mbind option_bind]. eexists _, _. split; [done|]. split_and!; [done|by right|].
  exists R. split_and!; [done|done|]. intros y. rewrite HR. setoid_rewrite Hhash. by setoid_rewrite elem_of_elements.
Qed.

Lemma foldl_provide (p : gmap Tag Hash) hash tags tag :
  foldl (λ p t, <[t := hash]> p) p tags !! tag = if decide (tag ∈ tags) then Some hash else p !! tag.
Proof.
  revert p. induction tags as [|t tags IH]; intros p; cbn [foldl].
  { by rewrite decide_False by apply not_elem_of_nil. }
  rewrite IH, lookup_insert. repeat case_decide; set_solver.
Qed.

(** The queue with the counter advanced. *)
Definition advanced (q : queue) (id : Z) : queue :=
  MkReadyTransactions id (provided_tags q) (ready q) (best q).

Lemma advanced_loose seen q id : loose_ok seen q → next_id q ≤ id → loose_ok seen (advanced q id).
Proof.
  intros [] Hid. constructor; try done; cbn; [lia|]. intros a Ha. etrans; [|exact Hid]. auto.
Qed.

Lemma advanced_ok seen q id : ready_ok seen q → next_id q ≤ id → ready_ok seen (advanced q id).
Proof. intros [] Hid. constructor; try done. by apply advanced_loose. Qed.

(** The last part of an import. *)
Section insertion.
Context (seen : gset Hash) (q q2 : queue) (t : tx) (R : gset Hash) (m : gmap Hash rtx) (top : bool) (offset id : Z).
Let hash := tx_hash t.
Let F : option (gset Tag) := Some (list_to_set (provides t)).
Let new : rtx := MkReadyTx (MkTransactionRef t id) (flat_map unlocks (rivals q t)) offset.
Let q3 : queue := MkReadyTransactions id
  (foldl (λ p tag, <[tag := hash]> p) (provided_tags q2) (provides t)) (<[hash := new]> m)
  (if top then set_insert (rt_transaction new) (best q2) else best q2).

Hypothesis Hq : loose_ok seen q.
Hypothesis Hnew : hash ∉ seen.
Hypothesis Hgood : good t.
Hypothesis Hid : ∀ a, known q a → insertion_id a < id.
Hypothesis Hpos : 0 ≤ id.
Hypothesis Ha : after F q R q2.
Hypothesis HR : ∀ y, y ∈ R ↔ is_Some (ready q !! y) ∧ ∃ x, x ∈ replace_hashes q t ∧ rtc (falls F q) x y.
Hypothesis Happ : appended (provided_tags q2) hash (requires t) (ready q2) m.
Hypothesis Hoff : 0 ≤ offset ≤ Z.of_nat (length (requires t)).
Hypothesis Htop : top = true ↔ offset = Z.of_nat (length (requires t)).
Hypothesis Hl : links m hash + offset = links (ready q2) hash + Z.of_nat (length (requires t)).
Hypothesis Hl' : ∀ y, y ≠ hash → links m y = links (ready q2) y.

Lemma ins_closed x y : x ∈ R → falls F q x y → y ∈ R ∨ ready q !! y = None.
Proof using HR.
  intros [Hx (x0&Hx0&Hxx)]%HR Hxy. destruct (ready q !! y) eqn:Hy; [left|by right].
  apply HR. split; [by eexists|]. exists x0. split; [done|]. by eapply rtc_r.
Qed.

Lemma ins_absent x r : ready q !! x = Some r → x ≠ hash.
Proof using Hq Hnew. intros Hr ->. by destruct (ls_ready _ _ Hq _ _ Hr) as (_&?&_). Qed.

(** A transaction of the queue that stays. *)
Lemma ins_kept x r3 :
  ready q3 !! x = Some r3 → x ≠ hash →
  ∃ r l, ready q !! x = Some r ∧ (x ∉ R) ∧ r3 = set_unlocks r l.
Proof using Happ Ha.
  cbn. intros Hx Hne. rewrite lookup_insert_ne in Hx by done. specialize (Happ x).
  destruct (ready q2 !! x) as [r|] eqn:Hr; [|congruence]. destruct Happ as (n&Hn&_).
  destruct (left_by_inv _ _ _ _ _ (af_ready _ _ _ _ Ha) Hr) as (r0&l&Hr0&HnR&->&_).
  exists r0, (l ++ replicate n hash). split_and!; [done..|]. rewrite Hn in Hx. by injection Hx as <-.
Qed.

Lemma ins_stays x r : ready q !! x = Some r → x ∉ R → ∃ l, ready q3 !! x = Some (set_unlocks r l).
Proof using Happ Ha Hq Hnew.
  intros Hr HnR. pose proof (ins_absent x r Hr) as Hne. cbn. rewrite lookup_insert_ne by done. specialize (Happ x).
  destruct (left_by_lookup _ _ _ _ _ (af_ready _ _ _ _ Ha) Hr HnR) as (l&El&_). rewrite El in Happ.
  destruct Happ as (n&->&_). by eexists.
Qed.

Lemma ins_separate : separate (rt_transaction new) (best q2).
Proof using All.
  intros y Hy Hc. exfalso. assert (known q y) as Hk by (apply (after_known _ _ _ _ _ Ha); by left).
  apply Hid in Hk. change (ref_cmp (MkTransactionRef t id) y = Eq) in Hc.
  pose proof (ref_cmp_spec (MkTransactionRef t id) y) as Hs. rewrite Hc in Hs. cbn in Hs. lia.
Qed.

(** The references after the import. *)
Lemma ins_known a : known q3 a → a = rt_transaction new ∨ known q a.
Proof using All.
  pose proof ins_separate as Hsep. intros [Hb|(h&r&Hr&->)].
  - cbn in Hb. destruct top; [|right; apply (after_known _ _ _ _ _ Ha); by left].
    apply set_insert_elem in Hb as [->|Hb]; [by left|right; apply (after_known _ _ _ _ _ Ha); by left|].
    exact Hsep.
  - destruct (decide (h = hash)) as [->|Hne].
    + cbn in Hr. rewrite lookup_insert_eq in Hr. injection Hr as <-. by left.
    + destruct (ins_kept h r Hr Hne) as (r0&l&Hr0&_&->). right. right. by exists h, r0.
Qed.

Lemma ins_best a : a ∈ best q3 ↔ a ∈ best q2 ∨ top = true ∧ a = rt_transaction new.
Proof using All.
  pose proof ins_separate as Hsep. cbn. destruct top; [|split; [by left|by intros [?|[? _]]]].
  rewrite set_insert_elem; [tauto|exact Hsep].
Qed.

Lemma ins_new_not_known : ¬ known q (rt_transaction new).
Proof using All. intros Hk%Hid. cbn in Hk. lia. Qed.

Lemma ins_provided tag h :
  provided_tags q3 !! tag = Some h ↔ ∃ r, ready q3 !! h = Some r ∧ tag ∈ provides (tx_of r).
Proof using All.
  cbn [q3 provided_tags]. rewrite foldl_provide. case_decide as Htag.
  - split.
    + intros [= <-]. exists new. split; [cbn; by rewrite lookup_insert_eq|done].
    + intros (r&Hr&Hp). destruct (decide (h = hash)) as [->|Hne]; [done|].
      destruct (ins_kept h r Hr Hne) as (r0&l&Hr0&HnR&->). destruct HnR. apply HR. split; [by eexists|].
      exists h. split; [|apply rtc_refl]. apply (elem_of_replace_hashes _ _ _ _ Hq). by exists r0, tag.
  - rewrite (af_provided _ _ _ _ Ha). pose proof (ls_provided _ _ Hq tag h) as Hp. split.
    + destruct (provided_tags q !! tag) as [h'|] eqn:Hpt; [|done]. cbn. case_decide as Hd; [done|]. intros [= ->].
      destruct (proj1 Hp eq_refl) as (r&Hr&Hin).
      assert (h ∉ R) as HnR.
      { intros HRh. apply Hd. split; [done|]. apply negb_true_iff, bool_decide_eq_false.
        by rewrite elem_of_list_to_set. }
      destruct (ins_stays h r Hr HnR) as (l&El). eexists. split; [exact El|done].
    + intros (r&Hr&Hin). destruct (decide (h = hash)) as [->|Hne].
      { cbn in Hr. rewrite lookup_insert_eq in Hr. injection Hr as <-. done. }
      destruct (ins_kept h r Hr Hne) as (r0&l&Hr0&HnR&->).
      rewrite (proj2 Hp) by (by exists r0). cbn. rewrite decide_False; [done|]. by intros [? _].
Qed.

Lemma ins_loose : loose_ok ({[hash]} ∪ seen) q3.
Proof using All.
  assert (ready q3 !! hash = Some new) as Hh by (cbn; by rewrite lookup_insert_eq).
  constructor.
  - exact Hpos.
  - intros h r Hr. destruct (decide (h = hash)) as [->|Hne].
    + assert (r = new) as -> by congruence. split_and!; [done|set_solver|done|apply Hoff].
    + destruct (ins_kept h r Hr Hne) as (r0&l&Hr0&_&->). destruct (ls_ready _ _ Hq h r0 Hr0) as (?&?&?&?).
      split_and!; [done|set_solver|done|done].
  - intros a b [->|Hka]%ins_known [->|Hkb]%ins_known Hab; [done|..|by apply (ls_known _ _ Hq)].
    + apply Hid in Hkb. cbn in Hab. lia.
    + apply Hid in Hka. cbn in Hab. lia.
  - intros a [->|Hka]%ins_known; cbn; [lia|]. apply Hid in Hka. lia.
  - cbn. destruct top; [|apply Ha]. apply set_insert_sorted, Ha.
  - apply ins_provided.
Qed.

(** What is in the queue after the import. *)
Lemma ins_ready x :
  rt_transaction <$> ready q3 !! x =
  if decide (x = hash) then Some (MkTransactionRef t id)
  else if decide (x ∈ R) then None else rt_transaction <$> ready q !! x.
Proof using All.
  cbn. rewrite lookup_insert. destruct (decide (hash = x)) as [<-|Hne]; [by rewrite decide_True|].
  rewrite decide_False by done. rewrite <- (left_by_refs _ _ _ x (af_ready _ _ _ _ Ha)). specialize (Happ x).
  destruct (ready q2 !! x) as [r|]; [by destruct Happ as (n&->&_)|by rewrite Happ].
Qed.

(** *** Exact links *)

Hypothesis Hexact : ready_ok seen q.

Lemma ins_old x r3 :
  ready q3 !! x = Some r3 → x ≠ hash →
  ∃ r n, ready q !! x = Some r ∧ (x ∉ R) ∧ r3 = set_unlocks r (unlocks r ++ replicate n hash) ∧
    ((n ≠ 0)%nat ↔ ∃ tag, tag ∈ requires t ∧ provided_tags q2 !! tag = Some x).
Proof using Happ Ha Hexact.
  cbn. intros Hx Hne. rewrite lookup_insert_ne in Hx by done. specialize (Happ x).
  destruct (ready q2 !! x) as [r|] eqn:Hr; [|congruence]. destruct Happ as (n&Hn&Ht).
  apply (after_ready _ _ _ _ _ _ _ Hexact Ha) in Hr as [Hr HnR]. exists r, n. split_and!; [done..|congruence|done].
Qed.

Lemma ins_fresh x r : ready q !! x = Some r → x ≠ hash ∧ hash ∉ unlocks r.
Proof using Hexact Hq Hnew.
  intros Hr. split; [by eapply ins_absent|]. intros Hin. by apply Hnew, (ro_unlocks _ _ Hexact x r).
Qed.

(** Nothing listed the new transaction. *)
Lemma ins_unlisted : links (ready q2) hash = 0.
Proof using Hexact Hq Hnew Ha.
  apply sum_of_zero. intros x _. unfold weight. destruct (ready q2 !! x) as [r|] eqn:Hr; [|done].
  apply occ_zero. apply (after_ready _ _ _ _ _ _ _ Hexact Ha) in Hr as [Hr _]. by eapply ins_fresh.
Qed.

(** The new transaction is linked as the ones it replaced were. *)
Lemma ins_links x r : ready q2 !! x = Some r → links (ready q3) x = links (ready q) x.
Proof using All.
  intros Hr. pose proof Hr as [Hr0 HnR]%(after_ready _ _ _ _ _ _ _ Hexact Ha). destruct (ins_fresh x r Hr0) as [Hne _].
  cbn. rewrite links_insert. replace (weight m x hash) with 0.
  2:{ unfold weight. specialize (Happ hash). destruct (ready q2 !! hash) as [rh|] eqn:Hrh; [|by rewrite Happ].
    apply (after_ready _ _ _ _ _ _ _ Hexact Ha) in Hrh as [Hrh _]. by destruct (ins_fresh hash rh Hrh). }
  rewrite Hl' by done. cbn [new unlocks]. rewrite rivals_links, (after_links _ _ _ _ _ Hexact Ha).
  assert (replace_hashes q t ⊆ R) as Hsub.
  { intros y Hy. apply HR. split; [|exists y; split; [done|apply rtc_refl]].
    apply (elem_of_replace_hashes _ _ _ _ Hq) in Hy as (ry&?&?&_). by eexists. }
  rewrite (union_difference_L _ _ Hsub), elements_disj_union, sum_of_app by set_solver.
  rewrite (sum_of_zero _ (elements (R ∖ _))); [lia|]. intros y Hy%elem_of_elements. unfold weight.
  apply elem_of_difference in Hy as [HyR Hyn]. destruct (ready q !! y) as [ry|] eqn:Hry; [|done].
  apply occ_zero. intros Hin. apply Hyn.
  destruct (ro_links _ _ Hexact y ry x r Hry Hr0 Hin) as (tag&Htag&_).
  pose proof (after_listed _ _ _ _ _ Hexact Ha x r y ry ins_closed Hr HyR Hry Hin tag Htag) as Hi. cbn in Hi.
  apply negb_false_iff, bool_decide_eq_true in Hi. apply elem_of_list_to_set in Hi.
  apply (elem_of_replace_hashes _ _ _ _ Hq). by exists ry, tag.
Qed.

Lemma ins_new_links : links (ready q3) hash = links m hash.
Proof using All.
  cbn [q3 ready]. rewrite links_insert. rewrite (occ_zero hash (unlocks new)).
  - assert (weight m hash hash = 0) as ->; [|lia]. unfold weight. specialize (Happ hash).
    destruct (ready q2 !! hash) as [rh|] eqn:Hrh; [|by rewrite Happ].
    apply (after_ready _ _ _ _ _ _ _ Hexact Ha) in Hrh as [Hrh _]. by destruct (ins_fresh hash rh Hrh).
  - cbn. intros (ry&Hry&Hin)%elem_of_flat_map. apply (elem_of_rivals _ _ _ _ Hq) in Hry as [Hry _].
    by destruct (ins_fresh _ _ Hry).
Qed.

Lemma ins_ok : ready_ok ({[hash]} ∪ seen) q3.
Proof using All.
  assert (ready q3 !! hash = Some new) as Hh by (cbn; by rewrite lookup_insert_eq).
  constructor.
  - apply ins_loose.
  - intros h r x Hr Hx. destruct (decide (h = hash)) as [->|Hne].
    + assert (r = new) as -> by congruence. cbn in Hx. apply elem_of_flat_map in Hx as (ry&Hry&Hx).
      apply (elem_of_rivals _ _ _ _ Hq) in Hry as [Hry _].
      apply (ro_unlocks _ _ Hexact _ _ x Hry) in Hx. set_solver.
    + destruct (ins_old h r Hr Hne) as (r0&n&Hr0&_&->&_). cbn in Hx.
      apply elem_of_app in Hx as [Hx|[-> _]%elem_of_replicate]; [|set_solver].
      apply (ro_unlocks _ _ Hexact _ _ x Hr0) in Hx. set_solver.
  - intros a [Hb|[_ ->]]%ins_best; [|cbn; set_solver].
    apply (af_best _ _ _ _ Ha) in Hb as [Hb _]. apply (ro_seen _ _ Hexact) in Hb. set_solver.
  - intros h r Hr. rewrite ins_best. destruct (decide (h = hash)) as [->|Hne].
    + assert (r = new) as -> by congruence. cbn [new requires_offset tx_of rt_transaction tr_transaction].
      rewrite <- Htop. split; [|by right]. intros [Hb|[? _]]; [|done]. destruct ins_new_not_known.
      apply (after_known _ _ _ _ _ Ha). by left.
    + destruct (ins_old h r Hr Hne) as (r0&n&Hr0&HnR&->&_).
      rewrite <- (after_best _ _ _ _ _ Hexact Ha h r0) by (by apply (after_ready _ _ _ _ _ _ _ Hexact Ha)). cbn.
      split; [|by left]. intros [?|[_ He]]; [done|]. exfalso.
      apply Hne. destruct (ls_ready _ _ Hq h r0 Hr0) as [<- _]. unfold tx_of. by rewrite He.
  - intros a r [Hb|[_ ->]]%ins_best Hr.
    + destruct (decide (tx_hash (tr_transaction a) = hash)) as [He|Hne].
      * exfalso. apply Hnew. rewrite <- He. apply (ro_seen _ _ Hexact). by apply (af_best _ _ _ _ Ha).
      * destruct (ins_old _ r Hr Hne) as (r0&n&Hr0&HnR&->&_). cbn.
        apply (after_current _ _ _ _ _ Hexact Ha); [done|]. by apply (after_ready _ _ _ _ _ _ _ Hexact Ha).
    + cbn in Hr. rewrite lookup_insert_eq in Hr. by injection Hr as <-.
  - intros h r Hr. destruct (decide (h = hash)) as [->|Hne].
    + assert (r = new) as -> by congruence. cbn [new requires_offset tx_of rt_transaction tr_transaction].
      pose proof ins_unlisted as Hz. rewrite ins_new_links. lia.
    + destruct (ins_old h r Hr Hne) as (r0&n&Hr0&HnR&->&_). cbn.
      assert (ready q2 !! h = Some r0) as Hr2 by (by apply (after_ready _ _ _ _ _ _ _ Hexact Ha)).
      pose proof (ins_links h r0 Hr2) as Hlk. cbn in Hlk. rewrite Hlk. apply (ro_balance _ _ Hexact h r0 Hr0).
  - intros h r x r' Hr Hx Hin. destruct (decide (h = hash)) as [->|Hne].
    + assert (r = new) as -> by congruence. cbn in Hin. apply elem_of_flat_map in Hin as (ry&Hry&Hin).
      apply (elem_of_rivals _ _ _ _ Hq) in Hry as [Hry (tag0&Hp0&Hp1)]. set (y := tx_hash (tx_of ry)) in *.
      destruct (decide (x = hash)) as [->|Hxne]; [by destruct (ins_fresh _ _ Hry)|].
      destruct (ins_old x r' Hx Hxne) as (r0&n&Hr0&HnR&->&_).
      destruct (ro_links _ _ Hexact y ry x r0 Hry Hr0 Hin) as (tag&Htag&Hreq). exists tag. split; [|done].
      assert (y ∈ R) as HyR.
      { apply HR. split; [by eexists|]. exists y. split; [|apply rtc_refl].
        apply (elem_of_replace_hashes _ _ _ _ Hq). by exists ry, tag0. }
      assert (ready q2 !! x = Some r0) as Hr2 by (by apply (after_ready _ _ _ _ _ _ _ Hexact Ha)).
      pose proof (after_listed _ _ _ _ _ Hexact Ha x r0 y ry ins_closed Hr2 HyR Hry Hin tag Htag) as Hi. cbn in Hi.
      apply negb_false_iff, bool_decide_eq_true in Hi. by apply elem_of_list_to_set in Hi.
    + destruct (ins_old h r Hr Hne) as (r0&n&Hr0&HnR&->&Hn). cbn in Hin |- *.
      apply elem_of_app in Hin as [Hin|[-> Hn0]%elem_of_replicate].
      * destruct (decide (x = hash)) as [->|Hxne]; [by destruct (ins_fresh _ _ Hr0)|].
        destruct (ins_old x r' Hx Hxne) as (r1&n1&Hr1&_&->&_). by apply (ro_links _ _ Hexact h r0 x r1).
      * assert (r' = new) as -> by congruence. apply Hn in Hn0 as (tag&Htag&Hp). exists tag. split; [|done].
        rewrite (af_provided _ _ _ _ Ha) in Hp. destruct (provided_tags q !! tag) as [h'|] eqn:Hpt; [|done].
        cbn in Hp. case_decide; [done|]. injection Hp as ->.
        apply (ls_provided _ _ Hq) in Hpt as (r1&Hr1&?). assert (r1 = r0) as -> by congruence. done.
  - intros tag h r x r' Hr Hx Hp Hreq Hlt. destruct (decide (h = hash)) as [->|Hne].
    + assert (r = new) as -> by congruence. exfalso. cbn in Hlt.
      assert (known q3 (rt_transaction r')) as Hk by (right; by exists x, r').
      apply ins_known in Hk as [Hk|Hk]; [rewrite Hk in Hlt; cbn in Hlt; lia|].
      apply Hid in Hk. lia.
    + destruct (ins_old h r Hr Hne) as (r0&n&Hr0&HnR&->&Hn). cbn in Hp, Hlt |- *. apply elem_of_app.
      destruct (decide (x = hash)) as [->|Hxne].
      * right. assert (r' = new) as -> by congruence. apply elem_of_replicate. split; [done|]. apply Hn. exists tag.
        split; [done|]. rewrite (af_provided _ _ _ _ Ha).
        rewrite (proj2 (ls_provided _ _ Hq tag h)) by (by exists r0). cbn. rewrite decide_False; [done|]. by intros [? _].
      * left. destruct (ins_old x r' Hx Hxne) as (r1&n1&Hr1&_&->&_). cbn in Hreq, Hlt.
        by apply (ro_complete _ _ Hexact tag h r0 x r1).
Qed.

End insertion.

Lemma ready_import_ok seen q (w : wtx) :
  loose_ok seen q → is_ready w = true → tx_hash (wt_transaction w) ∉ seen → good (wt_transaction w) →
  next_id q + 1 < 2 ^ 64 →
  let t := wt_transaction w in
  let old := Z.min (2 ^ 64 - 1) (sum_of (priority ∘ tx_of) (rivals q t)) in
  let F := Some (list_to_set (provides t)) in
  ∃ q' r, ready_import hash_order q w = Some (q', r) ∧
  match r with
  | Ok txs => loose_ok ({[tx_hash t]} ∪ seen) q' ∧ (ready_ok seen q → ready_ok ({[tx_hash t]} ∪ seen) q') ∧
      next_id q' = next_id q + 1 ∧ (rivals q t = [] ∨ old < priority t) ∧
      ∃ R, collected q R txs ∧
        (∀ y, y ∈ R ↔ is_Some (ready q !! y) ∧ ∃ x, x ∈ replace_hashes q t ∧ rtc (falls F q) x y) ∧
        ∀ x, rt_transaction <$> ready q' !! x =
          if decide (x = tx_hash t) then Some (MkTransactionRef t (next_id q + 1))
          else if decide (x ∈ R) then None else rt_transaction <$> ready q !! x
  | Err e => q' = advanced q (next_id q + 1) ∧ e = TooLowPriority old (priority t) ∧
      priority t ≤ old ∧ rivals q t ≠ []
  | Panic => False
  end.
Proof using Hhash.
  intros Hq Hr Hn Hg Hid t old F. unfold ready_import. rewrite Hr. cbn [negb]. fold t.
  rewrite bool_decide_false.
  2:{ intros [r Hr']. by destruct (ls_ready _ _ Hq _ _ Hr') as (_&?&_). }
  pose proof (ls_next _ _ Hq) as H0'. rewrite wrap_small by (unfold fits; lia).
  fold (advanced q (next_id q + 1)). set (q1 := advanced q (next_id q + 1)).
  assert (loose_ok seen q1) as Hq1 by (apply advanced_loose; [done|lia]).
  destruct (replace_previous_ok seen q1 t Hq1) as (q2&res&->&Hres). cbn [mbind option_bind].
  destruct res as [[txs unlocked]|e|]; [|by eexists _, _; split; [done|]; destruct Hres as (->&?&?&?)|done].
  destruct Hres as (->&Hold&R&Ha&Hc&HR).
  assert (∀ a, known q1 a → insertion_id a < next_id q + 1) as Hids.
  { intros a Hk. change (known q a) in Hk. apply (ls_id _ _ Hq) in Hk. lia. }
  destruct (link_requires_ok (provided_tags q2) (tx_hash t) (ready q2) (requires t))
    as (m&top&offset&->&Happ&Hoff&Htop&Hl&Hl').
  { intros tag h Htag Hp. rewrite (af_provided _ _ _ _ Ha) in Hp.
    destruct (provided_tags q1 !! tag) as [h'|] eqn:Hp1; [|done]. cbn in Hp. case_decide as Hd; [done|].
    injection Hp as ->. apply (ls_provided _ _ Hq1) in Hp1 as (r&Hr'&Htag').
    destruct (left_by_lookup _ _ _ _ _ (af_ready _ _ _ _ Ha) Hr') as (l&?&_); [|by eexists].
    intros HR'. apply Hd. split; [done|]. apply negb_true_iff, bool_decide_eq_false. rewrite elem_of_list_to_set.
    intros Hin. by apply (proj1 (proj2 Hg) tag Hin). }
  eexists _, (Ok txs). split; [done|]. split_and!; [| |done|done|].
  - eapply (ins_loose seen q1 q2 t R); try done. lia.
  - intros Hex. eapply (ins_ok seen q1 q2 t R); try done; [lia|]. apply advanced_ok; [done|lia].
  - exists R. split_and!; [done|done|]. eapply (ins_ready seen q1 q2 t R); try done. lia.
Qed.

(** ** What the pool relies on *)

(** The transactions that the queue still refers to. *)
Definition traces (q : queue) : gset Hash :=
  dom (ready q) ∪ list_to_set (flat_map (λ kv, unlocks kv.2) (map_to_list (ready q))) ∪
  list_to_set (map (λ a, tx_hash (tr_transaction a)) (best q)).

(** An invariant that every operation of the queue keeps, if none of the
    transactions in [trace] is imported. *)
Class ReadyInvariant (I : gset Hash → queue → Prop) (trace : queue → gset Hash) : Prop := {
  ri_loose : ∀ seen q, I seen q → loose_ok seen q;
  ri_default : ∀ seen, I seen ready_default;
  ri_trace : ∀ seen q, I seen q → I (trace q) q ∧ trace q ⊆ seen;
  ri_remove : ∀ seen q hashes q' txs, I seen q → remove_subtree q hashes = Some (q', txs) → I seen q';
  ri_advanced : ∀ seen q id, I seen q → next_id q ≤ id → I seen (advanced q id);
  ri_import : ∀ seen q w q' txs, I seen q → is_ready w = true → tx_hash (wt_transaction w) ∉ seen →
    good (wt_transaction w) → next_id q + 1 < 2 ^ 64 → ready_import hash_order q w = Some (q', Ok txs) →
    I ({[tx_hash (wt_transaction w)]} ∪ seen) q';
  ri_prune : ∀ seen q tag q' txs, I seen q → ready_prune_tags q tag = Some (Ok (q', txs)) → I seen q';
}.

#[export] Instance loose_invariant : ReadyInvariant loose_ok (λ q, dom (ready q)).
Proof using Hhash.
  constructor.
  - done.
  - apply loose_default_ok.
  - intros seen q Hq. split; [|intros h [r Hr]%elem_of_dom; by apply (ls_ready _ _ Hq) in Hr as (_&?&_)].
    destruct Hq as [? Hr]. constructor; try done. intros h r Hh. destruct (Hr h r Hh) as (?&_&?&?).
    split_and!; try done. apply elem_of_dom. by eexists.
  - intros seen q hashes q' txs Hq Hrun. destruct (remove_subtree_ok seen q hashes Hq) as (q2&txs2&R&Hrun2&?&_). congruence.
  - apply advanced_loose.
  - intros seen q w q' txs Hq Hr Hn Hg Hid Hrun. destruct (ready_import_ok seen q w Hq Hr Hn Hg Hid) as (q2&r&Hrun2&Hres).
    rewrite Hrun in Hrun2. injection Hrun2 as <- <-. by destruct Hres.
  - intros seen q tag q' txs Hq Hrun. destruct (ready_prune_tags_ok seen q tag Hq) as (q2&txs2&R&Hrun2&?&_). congruence.
Qed.

Lemma ready_ok_traces seen q : ready_ok seen q → ready_ok (traces q) q ∧ traces q ⊆ seen.
Proof.
  intros Hq.
  assert (∀ x, x ∈ traces q ↔ is_Some (ready q !! x) ∨ (∃ h r, ready q !! h = Some r ∧ x ∈ unlocks r) ∨
    ∃ a, a ∈ best q ∧ x = tx_hash (tr_transaction a)) as Htr.
  { intros x. unfold traces. rewrite !elem_of_union, elem_of_dom, !elem_of_list_to_set, elem_of_flat_map, list_elem_of_fmap.
    assert ((∃ kv, kv ∈ map_to_list (ready q) ∧ x ∈ unlocks kv.2) ↔ ∃ h r, ready q !! h = Some r ∧ x ∈ unlocks r) as ->.
    { split; [intros ([h r]&Hr%elem_of_map_to_list&?); by exists h, r|].
      intros (h&r&Hr&?). exists (h, r). by split; [apply elem_of_map_to_list|]. }
    split; [|naive_solver]. intros [[?|?]|(a&?&?)]; [by left|right; by left|right; right; by exists a]. }
  split.
  - destruct Hq as [[] ]. constructor; try done; [constructor; try done|..].
    + intros h r Hr. destruct (ls_ready0 h r Hr) as (?&_&?&?). split_and!; try done. apply Htr. left. by eexists.
    + intros h r x Hr Hx. apply Htr. right; left. by exists h, r.
    + intros a Ha. apply Htr. right; right. by exists a.
  - intros x [[r Hr]|[(h&r&Hr&Hx)|(a&Ha&->)]]%Htr.
    + by apply (ls_ready _ _ Hq) in Hr as (_&?&_).
    + by apply (ro_unlocks _ _ Hq h r).
    + by apply (ro_seen _ _ Hq).
Qed.

#[export] Instance exact_invariant : ReadyInvariant ready_ok traces.
Proof using Hhash.
  constructor.
  - apply ro_loose.
  - apply ready_default_ok.
  - apply ready_ok_traces.
  - intros seen q hashes q' txs Hq Hrun. destruct (remove_subtree_ok seen q hashes Hq) as (q2&txs2&R&Hrun2&_&Hex&_).
    rewrite Hrun in Hrun2. injection Hrun2 as <- <-. by apply Hex.
  - apply advanced_ok.
  - intros seen q w q' txs Hq Hr Hn Hg Hid Hrun. destruct (ready_import_ok seen q w Hq Hr Hn Hg Hid) as (q2&r&Hrun2&Hres).
    rewrite Hrun in Hrun2. injection Hrun2 as <- <-. by apply Hres.
  - intros seen q tag q' txs Hq Hrun. destruct (ready_prune_tags_ok seen q tag Hq) as (q2&txs2&R&Hrun2&_&Hex&_).
    rewrite Hrun in Hrun2. injection Hrun2 as <- <-. by apply Hex.
Qed.
End ready_facts.
