(* ===== verification/TxPool.v ===== *)
(** * Base transaction pool (src/client/transaction-pool/graph/src/base_pool.rs)

    Composes the ready queue and the future queue. *)
From S2P Require Import Prelude TxFuture TxReady.

Local Open Scope Z_scope.

(** ** Limits *)

Record Limit : Type := MkLimit {
  count : Z;
  total_bytes : Z;
}.

Definition is_exceeded (l : Limit) (n bytes : Z) : bool := (count l <? n) || (total_bytes l <? bytes).

Record PoolStatus : Type := MkPoolStatus {
  st_ready : Z;
  st_ready_bytes : Z;
  st_future : Z;
  st_future_bytes : Z;
}.

Section pool.
Context {Hash Tag Ex : Type} `{Countable Hash, Countable Tag}.
Context (hash_order : gset Hash → list Hash) (tag_order : gset Tag → list Tag).

Abbreviation tx := (Transaction (Hash := Hash) (Tag := Tag) (Ex := Ex)).
Abbreviation wtx := (WaitingTransaction (Hash := Hash) (Tag := Tag) (Ex := Ex)).
Abbreviation pool_error := (PoolError (Hash := Hash)).

(** ** Data *)

Inductive Imported : Type :=
| ImportedReady (hash : Hash) (promoted failed : list Hash) (removed : list tx)
| ImportedFuture (hash : Hash).

Definition imported_hash (i : Imported) : Hash :=
  match i with
  | ImportedReady hash _ _ _ => hash
  | ImportedFuture hash => hash
  end.

Record PruneStatus : Type := MkPruneStatus {
  ps_promoted : list Imported;
  ps_failed : list Hash;
  ps_pruned : list tx;
}.

Definition RECENTLY_PRUNED_TAGS : nat := 2.

Record BasePool : Type := MkBasePool {
  reject_future_transactions : bool;
  pool_future : FutureTransactions (Hash := Hash) (Tag := Tag) (Ex := Ex);
  pool_ready : ReadyTransactions (Hash := Hash) (Tag := Tag) (Ex := Ex);
  recently_pruned : list (gset Tag);
  recently_pruned_index : nat;
}.

Definition with_future (p : BasePool) f : BasePool :=
  MkBasePool (reject_future_transactions p) f (pool_ready p) (recently_pruned p) (recently_pruned_index p).
Definition with_ready (p : BasePool) q : BasePool :=
  MkBasePool (reject_future_transactions p) (pool_future p) q (recently_pruned p) (recently_pruned_index p).
Definition with_reject (p : BasePool) b : BasePool :=
  MkBasePool b (pool_future p) (pool_ready p) (recently_pruned p) (recently_pruned_index p).

Definition pool_new (reject : bool) : BasePool :=
  MkBasePool reject future_default ready_default (replicate RECENTLY_PRUNED_TAGS ∅) 0.

Definition with_futures_enabled {T} (p : BasePool) (closure : BasePool → bool → BasePool * T) : BasePool * T :=
  let previous := reject_future_transactions p in
  let '(p', x) := closure (with_reject p false) previous in
  (with_reject p' previous, x).

(** ** Importing *)

(** The loop of [import_to_ready]; the vector [to_import] is kept with its last
    element first.  [None] is running out of fuel. *)
Fixpoint import_loop (fuel : nat) (p : BasePool) (first : bool) (to_import : list wtx)
    (promoted failed : list Hash) (removed : list tx) :
    option (BasePool * result pool_error (list Hash * list Hash * list tx)) :=
  match to_import with
  | [] => Some (p, Ok (promoted, failed, removed))
  | w :: to_import' =>
      match fuel with
      | O => None
      | S fuel' =>
          match satisfy_tags hash_order (pool_future p) (provides (wt_transaction w)) with
          | Ok (f', unlocked) =>
              let p1 := with_future p f' in
              let stack := reverse unlocked ++ to_import' in
              let current_hash := tx_hash (wt_transaction w) in
              match ready_import hash_order (pool_ready p1) w with
              | None => None
              | Some (q', Ok replaced) =>
                  import_loop fuel' (with_ready p1 q') false stack
                    (if first then promoted else promoted ++ [current_hash]) failed (removed ++ replaced)
              | Some (q', Err e) =>
                  if first then Some (with_ready p1 q', Err e)
                  else import_loop fuel' (with_ready p1 q') false stack promoted (failed ++ [current_hash]) removed
              | Some (q', Panic) => Some (with_ready p1 q', Panic)
              end
          | _ => Some (p, Panic)
          end
      end
  end.

Definition import_to_ready (p : BasePool) (w : wtx) : option (BasePool * result pool_error Imported) :=
  let hash := tx_hash (wt_transaction w) in
  '(p', r) ← import_loop (S (size (waiting (pool_future p)))) p true [w] [] [] [];
  match r with
  | Ok (promoted, failed, removed) =>
      if existsb (λ t, bool_decide (tx_hash t = hash)) removed then
        '(q', _) ← remove_subtree (pool_ready p') promoted;
        Some (with_ready p' q', Err CycleDetected)
      else Some (p', Ok (ImportedReady hash promoted failed removed))
  | Err e => Some (p', Err e)
  | Panic => Some (p', Panic)
  end.

(** [Instant::now] is an argument. *)
Definition base_import (now : Z) (p : BasePool) (t : tx) : option (BasePool * result pool_error Imported) :=
  if future_contains (pool_future p) (tx_hash t) || ready_contains (pool_ready p) (tx_hash t)
  then Some (p, Err (AlreadyImported (tx_hash t)))
  else
    let w := waiting_new now t (provided_tags (pool_ready p)) (recently_pruned p) in
    if negb (is_ready w) then
      if reject_future_transactions p then Some (p, Err RejectedFutureTransaction)
      else
        match future_import tag_order (pool_future p) w with
        | Ok f' => Some (with_future p f', Ok (ImportedFuture (tx_hash t)))
        | _ => Some (p, Panic)
        end
    else import_to_ready p w.

(** ** Queries *)

(** The transactions in the order of the iterator, while the queue does not
    change: no transaction is returned twice, so one more than there are is
    enough. *)
Definition pool_ready_iter (p : BasePool) : list tx :=
  iter_take (S (size (ready (pool_ready p)))) (ready (pool_ready p)) (iter_get (pool_ready p)).

Definition pool_futures (p : BasePool) : list tx := future_all hash_order (pool_future p).

Definition pool_by_hashes (p : BasePool) (hashes : list Hash) : list (option tx) :=
  zip_with (λ a b, match a with Some _ => a | None => b end)
    (ready_by_hashes (pool_ready p) hashes) (future_by_hashes (pool_future p) hashes).

Definition pool_ready_by_hash (p : BasePool) (hash : Hash) : option tx := ready_by_hash (pool_ready p) hash.

Definition pool_status (p : BasePool) : PoolStatus :=
  MkPoolStatus (ready_len (pool_ready p)) (ready_bytes hash_order (pool_ready p))
    (future_len (pool_future p)) (future_bytes hash_order (pool_future p)).

(** ** Removing *)

Definition pool_remove_subtree (p : BasePool) (hashes : list Hash) : option (BasePool * list tx) :=
  '(q', removed) ← remove_subtree (pool_ready p) hashes;
  let '(f', more) := future_remove tag_order (pool_future p) hashes in
  Some (with_future (with_ready p q') f', removed ++ more).

Definition clear_future (p : BasePool) : BasePool * list tx :=
  let '(f', txs) := future_clear hash_order (pool_future p) in (with_future p f', txs).

(** The transaction that is in the queue for the longest time. *)
Definition oldest_ready (p : BasePool) : option (TransactionRef (Hash := Hash) (Tag := Tag) (Ex := Ex)) :=
  ready_fold hash_order (pool_ready p) (λ minimal current,
    match minimal with
    | None => Some (rt_transaction current)
    | Some m => if insertion_id (rt_transaction current) <? insertion_id m then Some (rt_transaction current) else Some m
    end).

Definition oldest_future (p : BasePool) : option wtx :=
  future_fold hash_order (pool_future p) (λ minimal current,
    match minimal with
    | None => Some current
    | Some m => if imported_at current <? imported_at m then Some current else Some m
    end).

(** The two loops of [enforce_limits]; [None] is running out of fuel. *)
Fixpoint enforce_ready (fuel : nat) (p : BasePool) (limit : Limit) (removed : list tx) : option (BasePool * list tx) :=
  if is_exceeded limit (ready_len (pool_ready p)) (ready_bytes hash_order (pool_ready p)) then
    match fuel with
    | O => None
    | S fuel' =>
        match oldest_ready p with
        | Some minimal =>
            '(p', more) ← pool_remove_subtree p [tx_hash (tr_transaction minimal)];
            enforce_ready fuel' p' limit (removed ++ more)
        | None => Some (p, removed)
        end
    end
  else Some (p, removed).

Fixpoint enforce_future (fuel : nat) (p : BasePool) (limit : Limit) (removed : list tx) : option (BasePool * list tx) :=
  if is_exceeded limit (future_len (pool_future p)) (future_bytes hash_order (pool_future p)) then
    match fuel with
    | O => None
    | S fuel' =>
        match oldest_future p with
        | Some minimal =>
            '(p', more) ← pool_remove_subtree p [tx_hash (wt_transaction minimal)];
            enforce_future fuel' p' limit (removed ++ more)
        | None => Some (p, removed)
        end
    end
  else Some (p, removed).

Definition enforce_limits (p : BasePool) (ready_limit future_limit : Limit) : option (BasePool * list tx) :=
  '(p1, removed) ← enforce_ready (S (size (ready (pool_ready p)))) p ready_limit [];
  enforce_future (S (size (waiting (pool_future p1)))) p1 future_limit removed.

(** ** Pruning *)

(** The loop over the tags: the transactions to import, those pruned, and the
    tags to remember. *)
Fixpoint prune_each (p : BasePool) (tags : list Tag) (recent : gset Tag) :
    option (run (BasePool * list wtx * list tx * gset Tag)) :=
  match tags with
  | [] => Some (Ok (p, [], [], recent))
  | tag :: tags' =>
      match satisfy_tags hash_order (pool_future p) [tag] with
      | Ok (f', unlocked) =>
          match ready_prune_tags (pool_ready p) tag with
          | None => None
          | Some (Ok (q', pruned)) =>
              match prune_each (with_ready (with_future p f') q') tags' ({[tag]} ∪ recent) with
              | Some (Ok (p', to_import, pruned', recent')) =>
                  Some (Ok (p', unlocked ++ to_import, pruned ++ pruned', recent'))
              | x => x
              end
          | Some _ => Some Panic
          end
      | _ => Some Panic
      end
  end.

(** The loop over the transactions to import. *)
Fixpoint import_each (p : BasePool) (ws : list wtx) : option (run (BasePool * list Imported * list Hash)) :=
  match ws with
  | [] => Some (Ok (p, [], []))
  | w :: ws' =>
      '(p', r) ← import_to_ready p w;
      match r with
      | Panic => Some Panic
      | Ok res =>
          match import_each p' ws' with
          | Some (Ok (p'', promoted, failed)) => Some (Ok (p'', res :: promoted, failed))
          | x => x
          end
      | Err _ =>
          match import_each p' ws' with
          | Some (Ok (p'', promoted, failed)) => Some (Ok (p'', promoted, tx_hash (wt_transaction w) :: failed))
          | x => x
          end
      end
  end.

(** The tags are collected in the slot of this invocation, which was cleared;
    nothing reads the slots meanwhile. *)
Definition pool_prune_tags (p : BasePool) (tags : list Tag) : option (run (BasePool * PruneStatus)) :=
  let slot := recently_pruned_index p in
  let p1 := MkBasePool (reject_future_transactions p) (pool_future p) (pool_ready p) (recently_pruned p)
    ((slot + 1) mod RECENTLY_PRUNED_TAGS)%nat in
  match prune_each p1 tags ∅ with
  | Some (Ok (p2, to_import, pruned, recent)) =>
      let p3 := MkBasePool (reject_future_transactions p2) (pool_future p2) (pool_ready p2)
        (<[slot := recent]> (recently_pruned p2)) (recently_pruned_index p2) in
      match import_each p3 to_import with
      | Some (Ok (p4, promoted, failed)) => Some (Ok (p4, MkPruneStatus promoted failed pruned))
      | Some _ => Some Panic
      | None => None
      end
  | Some _ => Some Panic
  | None => None
  end.
End pool.
