(* ===== verification/TxPoolFacts.v ===== *)
(** * Correctness of the transaction pool *)
From S2P Require Import Prelude TxFuture TxReady TxReadyFacts TxPool.

Local Open Scope Z_scope.

Section pool_facts.
Context {Hash Tag Ex : Type} `{Countable Hash, Countable Tag}.

Abbreviation tx := (Transaction (Hash := Hash) (Tag := Tag) (Ex := Ex)).
Abbreviation wtx := (WaitingTransaction (Hash := Hash) (Tag := Tag) (Ex := Ex)).
Abbreviation pool := (BasePool (Hash := Hash) (Tag := Tag) (Ex := Ex)).
Abbreviation future_queue := (FutureTransactions (Hash := Hash) (Tag := Tag) (Ex := Ex)).

Abbreviation ready_queue := (ReadyTransactions (Hash := Hash) (Tag := Tag) (Ex := Ex)).
Abbreviation outcome := (result (PoolError (Hash := Hash)) (Imported (Hash := Hash) (Tag := Tag) (Ex := Ex))).

(** An invariant of the ready queue. *)
Context (hash_order : gset Hash → list Hash) (tag_order : gset Tag → list Tag).
Hypothesis Hhash : ∀ s, hash_order s ≡ₚ elements s.
Hypothesis Htag : ∀ s, tag_order s ≡ₚ elements s.
Context (inv : gset Hash → ready_queue → Prop) (trace : ready_queue → gset Hash).
Context {Hinv : ReadyInvariant hash_order inv trace}.

(** ** Invariant *)

(** [used] are transactions that must not be imported to the ready queue. *)
Record pool_ok (used : gset Hash) (p : pool) : Prop := {
  po_ready : inv used (pool_ready p);
  po_future : future_ok (pool_future p);
  po_waiting : ∀ h w, waiting (pool_future p) !! h = Some w → (h ∉ used) ∧ good (wt_transaction w);
}.

Lemma inv_loose used q : inv used q → loose_ok used q.
Proof using Hinv. intros Hq. by eapply ri_loose. Qed.

Lemma inv_advanced used q id : inv used q → next_id q ≤ id → inv used (advanced q id).
Proof using Hinv. intros Hq Hid. by eapply ri_advanced. Qed.

Lemma inv_prune used q tag q' txs : inv used q → ready_prune_tags q tag = Some (Ok (q', txs)) → inv used q'.
Proof using Hinv. intros Hq Hrun. by eapply ri_prune. Qed.

Lemma po_loose used p : pool_ok used p → loose_ok used (pool_ready p).
Proof using Hinv. intros [Hp _ _]. by apply inv_loose. Qed.

(** A transaction that can be imported to the ready queue. *)
Record importable (used : gset Hash) (p : pool) (w : wtx) : Prop := {
  im_ready : is_ready w = true;
  im_unused : tx_hash (wt_transaction w) ∉ used;
  im_not_waiting : waiting (pool_future p) !! tx_hash (wt_transaction w) = None;
  im_good : good (wt_transaction w);
}.

Definition whash (w : wtx) : Hash := tx_hash (wt_transaction w).

(** The transactions in the pool. *)
Definition members (p : pool) : gset Hash := dom (ready (pool_ready p)) ∪ dom (waiting (pool_future p)).

Definition hashes_of (txs : list tx) : gset Hash := list_to_set (map tx_hash txs).

Lemma dom_ready_filter {A} (m : gmap Hash A) (R : gset Hash) : dom (filter (λ kv, kv.1 ∉ R) m) ⊆ dom m.
Proof. apply dom_filter_subseteq. Qed.

Lemma left_by_dom (R : gset Hash) (m m' : gmap Hash (ReadyTx (Hash := Hash) (Tag := Tag) (Ex := Ex))) : left_by R m m' → dom m' = dom m ∖ R.
Proof.
  intros Hl. apply set_eq. intros x. rewrite elem_of_difference, !elem_of_dom. specialize (Hl x).
  destruct (m !! x) as [r|]; [|rewrite Hl; split; [by intros []|by intros [[] _]]].
  case_decide as Hx; [rewrite Hl; split; [by intros []|by intros [_ ?]]|].
  destruct Hl as (l&->&_). split; [intros _; split; [by eexists|done]|intros _; by eexists].
Qed.

Lemma left_by_ext (R S : gset Hash) (m m' : gmap Hash (ReadyTx (Hash := Hash) (Tag := Tag) (Ex := Ex))) :
  (∀ x, is_Some (m !! x) → x ∈ S ↔ x ∈ R) → left_by R m m' → left_by S m m'.
Proof.
  intros He Hl x. specialize (Hl x). destruct (m !! x) as [r|] eqn:Hx; [|done]. specialize (He x ltac:(by eexists)).
  destruct (decide (x ∈ R)); [rewrite decide_True by tauto|rewrite decide_False by tauto]; done.
Qed.

Lemma importable_keep used used' (p p' : pool) w (ws : list wtx) :
  importable used p w → used' ⊆ {[whash w]} ∪ used → dom (waiting (pool_future p')) ⊆ dom (waiting (pool_future p)) →
  whash w ∉ map whash ws → Forall (importable used p) ws → Forall (importable used' p') ws.
Proof.
  intros Hw Hu Hd Hn. rewrite !Forall_forall. intros Hall w' Hw'. destruct (Hall w' Hw') as [H1 H2 H3 H4].
  constructor; [done| | |done].
  - intros [He%elem_of_singleton|?]%Hu%elem_of_union; [|done]. apply Hn. rewrite <- He. by apply (list_elem_of_fmap_2 whash).
  - apply not_elem_of_dom. apply not_elem_of_dom in H3. set_solver.
Qed.

Lemma importable_fresh used p w : pool_ok used p → importable used p w → whash w ∉ members p.
Proof.
  intros [Hq _ _] [_ Hu Hw _] [[r Hr]%elem_of_dom|[? Hd]%elem_of_dom]%elem_of_union; [|unfold whash in *; congruence].
  by destruct (ls_ready _ _ (inv_loose _ _ Hq) _ _ Hr) as (_&?&_).
Qed.

(** ** Importing *)

(** The transactions that wait for some tags leave the queue when these are
    satisfied. *)
Lemma satisfy_split (f : future_queue) tags :
  future_ok f →
  ∃ f' ws, satisfy_tags hash_order f tags = Ok (f', ws) ∧ future_ok f' ∧
    (∀ h w', waiting f' !! h = Some w' → ∃ w, waiting f !! h = Some w ∧ wt_transaction w' = wt_transaction w) ∧
    NoDup (map whash ws) ∧ Forall (λ w, is_ready w = true) ws ∧
    (∀ w, w ∈ ws → ∃ w0, waiting f !! whash w = Some w0 ∧ wt_transaction w = wt_transaction w0 ∧ waiting f' !! whash w = None) ∧
    dom (waiting f) = list_to_set (map whash ws) ∪ dom (waiting f') ∧
    size (waiting f) = (length ws + size (waiting f'))%nat.
Proof using Hhash Htag Hinv.
  intros Hf. destruct (satisfy_tags_ok hash_order tag_order Hhash Htag f tags Hf) as (f'&ws&Hrun&Hf'&Hw&Hnd&Hr&Hin).
  exists f', ws.
  assert (∀ w, w ∈ ws → ∃ w0, waiting f !! whash w = Some w0 ∧ wt_transaction w = wt_transaction w0 ∧ waiting f' !! whash w = None) as Hws.
  { intros w Hw'. apply (list_elem_of_fmap_2 wt_transaction), Hin in Hw' as (h&w0&Hh&He&Hs).
    destruct (fo_waiting _ Hf h w0 Hh) as [Hh0 _]. unfold whash. rewrite He, Hh0. exists w0. split_and!; [done..|].
    rewrite Hw, Hh. cbn. unfold still_waiting. by rewrite Hs. }
  assert (dom (waiting f) = list_to_set (map whash ws) ∪ dom (waiting f')) as Hdom.
  { apply set_eq. intros h. rewrite elem_of_union, elem_of_list_to_set, !elem_of_dom. split.
    - intros [w Hwh]. destruct (still_waiting (satisfied w tags)) as [w'|] eqn:Hs.
      + right. rewrite Hw, Hwh. cbn. rewrite Hs. by eexists.
      + left. assert (wt_transaction w ∈ map wt_transaction ws) as Hm.
        { apply Hin. exists h, w. split_and!; [done|done|]. unfold still_waiting in Hs. by destruct (is_ready _). }
        apply list_elem_of_fmap in Hm as (w1&He&Hw1). apply list_elem_of_fmap. exists w1. split; [|done].
        unfold whash. rewrite <- He. symmetry. by apply (fo_waiting _ Hf h w).
    - intros [Hm|[w' Hw']].
      + apply list_elem_of_fmap in Hm as (w1&->&Hw1). destruct (Hws w1 Hw1) as (w0&?&_). by eexists.
      + rewrite Hw in Hw'. destruct (waiting f !! h); [by eexists|done]. }
  split_and!; [done|done| |done|done|done|done|].
  - intros h w'. rewrite Hw. destruct (waiting f !! h) as [w|]; [|done]. cbn.
    intros [-> _]%still_waiting_Some. by exists w.
  - rewrite <- !size_dom, Hdom, size_union.
    + rewrite size_list_to_set, length_map by done. done.
    + intros h Hm%elem_of_list_to_set Hd. apply list_elem_of_fmap in Hm as (w&->&Hw').
      destruct (Hws w Hw') as (_&_&_&Hn). apply elem_of_dom in Hd as [? Hd]. congruence.
Qed.

(** One turn of the loop of [import_to_ready]. *)
Lemma import_turn used p w :
  pool_ok used p → importable used p w → next_id (pool_ready p) + 1 < 2 ^ 64 →
  ∃ f' ws q' r, satisfy_tags hash_order (pool_future p) (provides (wt_transaction w)) = Ok (f', ws) ∧
    ready_import hash_order (pool_ready p) w = Some (q', r) ∧
    let p' := with_ready (with_future p f') q' in
    let used' := match r with Ok _ => {[whash w]} ∪ used | _ => used end in
    pool_ok used' p' ∧ next_id q' = next_id (pool_ready p) + 1 ∧
    NoDup (map whash ws) ∧ Forall (importable used' p') ws ∧
    dom (waiting (pool_future p)) = list_to_set (map whash ws) ∪ dom (waiting f') ∧
    size (waiting (pool_future p)) = (length ws + size (waiting f'))%nat ∧
    match r with
    | Ok replaced => dom (ready q') ∪ hashes_of replaced = {[whash w]} ∪ dom (ready (pool_ready p)) ∧
        (∀ t, t ∈ replaced → tx_hash t ∈ used ∧ ready q' !! tx_hash t = None)
    | Err e => dom (ready q') = dom (ready (pool_ready p)) ∧ ∃ old, e = TooLowPriority old (priority (wt_transaction w))
    | Panic => False
    end.
Proof using Hhash Htag Hinv.
  intros [Hq Hf Hwt] [Hr Hun Hnw Hg] Hid.
  destruct (satisfy_split (pool_future p) (provides (wt_transaction w)) Hf) as (f'&ws&Hs&Hf'&Hold&Hnd&Hrs&Hws&Hdom&Hsize).
  destruct (ready_import_ok hash_order Hhash used (pool_ready p) w (inv_loose _ _ Hq) Hr Hun Hg Hid) as (q'&r&Hi&Hres).
  exists f', ws, q', r. split; [done|]. split; [done|]. intros p' used'.
  assert (used' ⊆ {[whash w]} ∪ used) as Hused' by (unfold used'; destruct r; set_solver).
  assert (∀ h w', waiting f' !! h = Some w' → (h ∉ used') ∧ good (wt_transaction w')) as Hwt'.
  { intros h w' Hw'. destruct (Hold h w' Hw') as (w0&Hw0&->). destruct (Hwt h w0 Hw0) as [? ?]. split; [|done].
    intros Hin. apply Hused' in Hin as [->%elem_of_singleton|?]%elem_of_union; [|done]. unfold whash in Hw0. congruence. }
  assert (Forall (importable used' p') ws) as Himp.
  { apply Forall_forall. intros w' Hw'. rewrite Forall_forall in Hrs.
    destruct (Hws w' Hw') as (w0&Hw0&He&Hn). destruct (Hwt _ _ Hw0) as [? ?]. constructor; [by apply Hrs| |done|by rewrite He].
    intros Hin. apply Hused' in Hin as [Heq%elem_of_singleton|?]%elem_of_union; [|done].
    unfold whash in *. rewrite Heq in Hw0. congruence. }
  destruct r as [txs|e|]; [| |done].
  - destruct Hres as (_&_&Hid'&_&R&Hcol&_&Hrt). split_and!; try done.
    + constructor; try done. by eapply ri_import.
    + apply set_eq. intros h. unfold hashes_of. rewrite !elem_of_union, elem_of_list_to_set, elem_of_singleton, !elem_of_dom.
      specialize (Hrt h). destruct Hcol as [_ Hcol]. split.
      * intros [[r Hr']|(t&->&Ht)%list_elem_of_fmap].
        -- rewrite Hr' in Hrt. case_decide as Heq; [by left|]. case_decide; [done|].
           right. destruct (ready (pool_ready p) !! h); [by eexists|done].
        -- apply Hcol in Ht as (r&?&_). right. by eexists.
      * intros [->|[r Hr']].
        -- left. rewrite decide_True in Hrt by done. destruct (ready q' !! whash w); [by eexists|done].
        -- case_decide as Heq; [left; destruct (ready q' !! h); [by eexists|done]|].
           case_decide as HR; [right|left; rewrite Hr' in Hrt; destruct (ready q' !! h); [by eexists|done]].
           destruct (ls_ready _ _ (inv_loose _ _ Hq) h r Hr') as (Hh&_). apply list_elem_of_fmap. exists (tx_of r).
           split; [done|]. apply Hcol. exists r. by rewrite Hh.
    + intros t (r&Hr'&->&HtR)%(proj2 Hcol). destruct (ls_ready _ _ (inv_loose _ _ Hq) _ r Hr') as (_&?&_). split; [done|].
      specialize (Hrt (tx_hash (tx_of r))). rewrite decide_False, decide_True in Hrt by (done || by intros Heq; rewrite Heq in *).
      by destruct (ready q' !! _).
  - destruct Hres as (->&->&_). split_and!; try done; [|by eexists].
    constructor; try done. apply inv_advanced; [done|]. lia.
Qed.

(** The state of the loop: a stack of transactions to import, the hashes that
    failed and the transactions that were replaced. *)
Record loop_ok (used : gset Hash) (p : pool) (stack : list wtx) (failed : list Hash) (removed : list tx) : Prop := {
  lo_pool : pool_ok used p;
  lo_nodup : NoDup (map whash stack);
  lo_stack : Forall (importable used p) stack;
  lo_failed : ∀ h, h ∈ failed → (h ∉ used) ∧ waiting (pool_future p) !! h = None ∧ h ∉ map whash stack;
  lo_removed : ∀ t, t ∈ removed → tx_hash t ∈ used ∧ ready (pool_ready p) !! tx_hash t = None;
}.

(** Where the transactions are. *)
Definition account (p : pool) (stack : list wtx) (failed : list Hash) (removed : list tx) : gset Hash :=
  members p ∪ list_to_set (map whash stack) ∪ list_to_set failed ∪ hashes_of removed.

(** The transactions that were, are or may be in the ready queue. *)
Definition reach_set (used : gset Hash) (p : pool) (stack : list wtx) : gset Hash :=
  used ∪ list_to_set (map whash stack) ∪ dom (waiting (pool_future p)).

(** A bound on the insertion ids. *)
Definition budget (p : pool) (stack : list wtx) : Z :=
  next_id (pool_ready p) + Z.of_nat (length stack) + Z.of_nat (size (waiting (pool_future p))).

(** What stays when transactions are imported. *)
Definition same_frame (p p' : pool) : Prop :=
  reject_future_transactions p' = reject_future_transactions p ∧ recently_pruned p' = recently_pruned p ∧
  recently_pruned_index p' = recently_pruned_index p.

Lemma loop_turn used p w stack failed removed :
  loop_ok used p (w :: stack) failed removed → budget p (w :: stack) < 2 ^ 64 →
  ∃ f' ws q' r used', satisfy_tags hash_order (pool_future p) (provides (wt_transaction w)) = Ok (f', ws) ∧
    ready_import hash_order (pool_ready p) w = Some (q', r) ∧ used ⊆ used' ∧
    let p' := with_ready (with_future p f') q' in
    let stack' := reverse ws ++ stack in
    budget p' stack' = budget p (w :: stack) ∧ reach_set used' p' stack' ⊆ reach_set used p (w :: stack) ∧
    (length stack' + size (waiting f') = length stack + size (waiting (pool_future p)))%nat ∧
    match r with
    | Ok replaced => whash w ∈ used' ∧ loop_ok used' p' stack' failed (removed ++ replaced) ∧
        account p' stack' failed (removed ++ replaced) = account p (w :: stack) failed removed
    | Err e => used' = used ∧ (∃ old, e = TooLowPriority old (priority (wt_transaction w))) ∧
        dom (ready q') = dom (ready (pool_ready p)) ∧
        loop_ok used p' stack' (failed ++ [whash w]) removed ∧
        account p' stack' (failed ++ [whash w]) removed = account p (w :: stack) failed removed
    | Panic => False
    end.
Proof using Hhash Htag Hinv.
  intros [Hp Hnd Hst Hfl Hrm] Hb. unfold budget in *. cbn [length map] in *. inversion Hst as [|?? Hw Hst']; subst.
  apply NoDup_cons in Hnd as [Hn Hnd].
  destruct (import_turn used p w Hp Hw ltac:(lia)) as (f'&ws&q'&r&Hs&Hi&Hp'&Hid&Hnw&Hws&Hdom&Hsz&Hr).
  set (used' := match r with Ok _ => {[whash w]} ∪ used | _ => used end) in *.
  set (p' := with_ready (with_future p f') q') in *.
  assert (used' ⊆ {[whash w]} ∪ used) as Hu by (unfold used'; destruct r; set_solver).
  assert (used ⊆ used') as Hu2 by (unfold used'; destruct r; set_solver).
  assert (∀ h, h ∈ map whash ws → h ∈ dom (waiting (pool_future p))) as Hin by set_solver.
  assert (NoDup (map whash (reverse ws ++ stack))) as Hnd'.
  { rewrite map_app. apply NoDup_app. split_and!; [|intros h Hh1 Hh2|done].
    - change (map whash (reverse ws)) with (whash <$> reverse ws). rewrite fmap_reverse. by rewrite reverse_Permutation.
    - change (map whash (reverse ws)) with (whash <$> reverse ws) in Hh1. rewrite fmap_reverse, elem_of_reverse in Hh1.
      apply Hin, elem_of_dom in Hh1 as [? Hh1]. apply list_elem_of_fmap in Hh2 as (w'&->&Hw').
      rewrite Forall_forall in Hst'. pose proof (im_not_waiting _ _ _ (Hst' w' Hw')). unfold whash in *. congruence. }
  assert (Forall (importable used' p') (reverse ws ++ stack)) as Hst2.
  { apply Forall_app. split; [by apply Forall_reverse|]. eapply (importable_keep used used' p p' w); try done. cbn. set_solver. }
  assert (∀ h, h ∈ map whash (reverse ws ++ stack) ↔ h ∈ map whash ws ∨ h ∈ map whash stack) as Hel.
  { intros h. rewrite map_app, elem_of_app. change (map whash (reverse ws)) with (whash <$> reverse ws).
    by rewrite fmap_reverse, elem_of_reverse. }
  exists f', ws, q', r, used'. split_and!; try done.
  - rewrite length_app, length_reverse. cbn. lia.
  - unfold reach_set. cbn. intros h. rewrite !elem_of_union, !elem_of_list_to_set, Hel, Hdom. clear -Hu. set_solver.
  - rewrite length_app, length_reverse. lia.
  - assert (∀ h, h ∈ failed → (h ∉ used') ∧ waiting (pool_future p') !! h = None ∧ h ∉ map whash (reverse ws ++ stack)) as Hfl'.
    { intros h Hh. destruct (Hfl h Hh) as (H1&H2&H3). cbn in H3. rewrite not_elem_of_cons in H3. apply not_elem_of_dom in H2.
      rewrite Hdom in H2. clear -H1 H2 H3 Hu Hel. split_and!; [set_solver|apply not_elem_of_dom; cbn; set_solver|rewrite Hel; set_solver]. }
    pose proof (importable_fresh _ _ _ Hp Hw) as Hfresh. unfold account, members in *. cbn -[hashes_of map] in *.
    destruct r as [replaced|e|]; [| |done].
    + destruct Hr as [Hq' Hrep]. split; [unfold used'; set_solver|]. split; [constructor; try done|].
      * intros t [Ht|Ht]%elem_of_app.
        -- destruct (Hrm t Ht) as [Ht1 Ht2]. split; [set_solver|]. apply not_elem_of_dom. apply not_elem_of_dom in Ht2.
           intros Hd. assert (tx_hash t ∈ {[whash w]} ∪ dom (ready (pool_ready p))) as [Heq%elem_of_singleton|?]%elem_of_union by (rewrite <- Hq'; set_solver); [|done].
           rewrite Heq in Ht1. by apply (im_unused _ _ _ Hw) in Ht1.
        -- destruct (Hrep t Ht) as [Ht1 Ht2]. split; [set_solver|done].
      * unfold hashes_of in *. apply set_eq. intros h. rewrite !map_app, !list_to_set_app_L, !elem_of_union, !elem_of_list_to_set.
        pose proof (Hel h) as Hh. rewrite map_app, elem_of_app in Hh.
        assert (h ∈ dom (ready q') ∪ list_to_set (map tx_hash replaced) ↔ h ∈ {[whash w]} ∪ dom (ready (pool_ready p))) as Hq by (by rewrite Hq').
        rewrite !elem_of_union, elem_of_list_to_set, elem_of_singleton in Hq.
        rewrite Hdom, elem_of_union, elem_of_list_to_set. cbn. rewrite elem_of_cons. clear -Hq Hh. tauto.
    + destruct Hr as [Hq' He]. split_and!; [done|done|done|constructor; try done|].
      * intros h [Hh| ->%list_elem_of_singleton]%elem_of_app; [by apply Hfl'|]. split_and!.
        -- apply (im_unused _ _ _ Hw).
        -- apply not_elem_of_dom. cbn. set_solver.
        -- rewrite Hel. set_solver.
      * intros t Ht. destruct (Hrm t Ht) as [Ht1 Ht2]. split; [done|]. apply not_elem_of_dom. apply not_elem_of_dom in Ht2. cbn. by rewrite Hq'.
      * unfold hashes_of in *. apply set_eq. intros h. rewrite !list_to_set_app_L, Hq', Hdom, !elem_of_union, !elem_of_list_to_set.
        pose proof (Hel h) as Hh. cbn. rewrite list_elem_of_singleton, elem_of_cons. clear -Hh. tauto.
Qed.

(** The loop comes to an end. *)
Lemma import_loop_ok fuel used p stack promoted failed removed :
  loop_ok used p stack failed removed → budget p stack < 2 ^ 64 →
  (length stack + size (waiting (pool_future p)) ≤ fuel)%nat →
  ∃ p' promoted' failed' removed' used',
    import_loop hash_order fuel p false stack promoted failed removed = Some (p', Ok (promoted', failed', removed')) ∧
    used ⊆ used' ∧ loop_ok used' p' [] failed' removed' ∧ budget p' [] = budget p stack ∧ same_frame p p' ∧
    reach_set used' p' [] ⊆ reach_set used p stack ∧
    account p' [] failed' removed' = account p stack failed removed ∧
    ∀ h, h ∈ promoted' → h ∈ promoted ∨ h ∈ used'.
Proof using Hhash Htag Hinv.
  revert used p stack promoted failed removed.
  induction fuel as [|fuel IH]; intros used p [|w stack] promoted failed removed Hl Hb Hfuel; cbn [import_loop]; try (cbn in Hfuel; lia).
  1,2: exists p, promoted, failed, removed, used; split_and!; try done; by left.
  destruct (loop_turn used p w stack failed removed Hl Hb) as (f'&ws&q'&r&used'&->&Hi&Hu&Hb'&Hrs&Hlen&Hr).
  cbn [pool_ready with_future]. rewrite Hi. cbn [length] in Hfuel.
  destruct r as [replaced|e|]; [| |done].
  - destruct Hr as (Hw&Hl'&Hacc).
    destruct (IH used' _ _ (promoted ++ [whash w]) failed _ Hl') as (p2&pr&fl&rm&used2&Hrun&Hu2&Hl2&Hb2&Hf2&Hrs2&Ha2&Hpr).
    + lia.
    + cbn in *. lia.
    + exists p2, pr, fl, rm, used2. split_and!; try done; [set_solver|by rewrite Hb2, Hb'; lia|set_solver|by rewrite Ha2|].
      intros h Hh. apply Hpr in Hh as [Hh|Hh]; [|by right]. rewrite elem_of_app, list_elem_of_singleton in Hh. set_solver.
  - destruct Hr as (->&_&_&Hl'&Hacc).
    destruct (IH used _ _ promoted (failed ++ [whash w]) removed Hl') as (p2&pr&fl&rm&used2&Hrun&Hu2&Hl2&Hb2&Hf2&Hrs2&Ha2&Hpr).
    + lia.
    + cbn in *. lia.
    + exists p2, pr, fl, rm, used2. split_and!; try done; [by rewrite Hb2, Hb'; lia|set_solver|by rewrite Ha2].
Qed.
Lemma account_members (p : pool) stack failed removed h : h ∈ members p → h ∈ account p stack failed removed.
Proof using. clear. unfold account. set_solver. Qed.

Lemma account_start (p : pool) w h : h ∈ account p [w] [] [] ↔ h = whash w ∨ h ∈ members p.
Proof using. clear. unfold account, hashes_of. cbn. set_solver. Qed.

(** What an import to the ready queue gives. *)
Definition import_result (used : gset Hash) (p p' : pool) (t : tx) (r : outcome) (used' : gset Hash) : Prop :=
  match r with
  | Ok (ImportedReady hash promoted failed removed) =>
      hash = tx_hash t ∧ is_Some (ready (pool_ready p') !! hash) ∧
      members p' ∪ list_to_set failed ∪ hashes_of removed = {[hash]} ∪ members p ∧
      (∀ h, h ∈ failed → h ∉ members p') ∧ (∀ x, x ∈ removed → tx_hash x ∉ members p')
  | Ok (ImportedFuture _) => False
  | Err e => (tx_hash t ∉ members p') ∧ members p' ⊆ members p ∧
      ((∃ old, e = TooLowPriority old (priority t) ∧ used' = used ∧ dom (ready (pool_ready p')) = dom (ready (pool_ready p))) ∨
       e = CycleDetected)
  | Panic => False
  end.

Lemma loop_drop used p stack failed removed : loop_ok used p stack failed removed → loop_ok used p [] failed removed.
Proof using Hinv. clear Hhash Htag.
  intros [H1 _ _ H2 H3]. constructor; [done|constructor|constructor| |done]. intros h (?&?&_)%H2.
  split_and!; [done..|apply not_elem_of_nil].
Qed.

Lemma loop_outside used p failed removed :
  loop_ok used p [] failed removed →
  (∀ h, h ∈ failed → h ∉ members p) ∧ (∀ x, x ∈ removed → tx_hash x ∉ members p).
Proof using Hinv. clear Hhash Htag.
  intros [[Hq _ Hw] _ _ Hfl Hrm]. split.
  - intros h (Hu&Hn&_)%Hfl [[r Hr]%elem_of_dom|[? ?]%elem_of_dom]%elem_of_union; [|congruence].
    by destruct (ls_ready _ _ (inv_loose _ _ Hq) _ _ Hr) as (_&?&_).
  - intros x [Hu Hn]%Hrm [[r Hr]%elem_of_dom|[? Hd]%elem_of_dom]%elem_of_union; [congruence|].
    by destruct (Hw _ _ Hd) as [? _].
Qed.

(** Removing transactions from the ready queue. *)
Lemma ready_remove_ok used p hashes :
  pool_ok used p →
  ∃ q' txs R, remove_subtree (pool_ready p) hashes = Some (q', txs) ∧ pool_ok used (with_ready p q') ∧
    next_id q' = next_id (pool_ready p) ∧ left_by R (ready (pool_ready p)) (ready q') ∧
    collected (pool_ready p) R txs ∧
    ∀ y, y ∈ R ↔ is_Some (ready (pool_ready p) !! y) ∧ ∃ x, x ∈ hashes ∧ rtc (falls None (pool_ready p)) x y.
Proof using Hinv. clear Hhash Htag.
  intros Hp. destruct (remove_subtree_ok used (pool_ready p) hashes (po_loose _ _ Hp)) as (q'&txs&R&Hrun&_&_&Hid&Hr&Hc&HR).
  exists q', txs, R. split_and!; try done. destruct Hp. constructor; try done. by eapply ri_remove.
Qed.

Lemma import_to_ready_ok used p w :
  pool_ok used p → importable used p w → budget p [w] < 2 ^ 64 →
  ∃ p' r used', import_to_ready hash_order p w = Some (p', r) ∧ used ⊆ used' ∧ pool_ok used' p' ∧ same_frame p p' ∧
    budget p' [] ≤ budget p [w] ∧ reach_set used' p' [] ⊆ reach_set used p [w] ∧
    import_result used p p' (wt_transaction w) r used'.
Proof using Hhash Htag Hinv.
  intros Hp Hw Hb. unfold import_to_ready.
  assert (loop_ok used p [w] [] []) as Hl.
  { constructor; [done|apply NoDup_singleton|by constructor| |]; intros x Hx; by apply not_elem_of_nil in Hx. }
  pose proof (importable_fresh _ _ _ Hp Hw) as Hfresh.
  destruct (loop_turn used p w [] [] [] Hl Hb) as (f'&ws&q'&r&used'&Hs&Hi&Hu&Hb'&Hrs&Hlen&Hr).
  cbn [import_loop]. rewrite Hs. cbn [pool_ready with_future]. rewrite Hi.
  destruct r as [replaced|e|]; [| |done].
  2:{ destruct Hr as (->&[old ->]&Hd&Hl'&Hacc). cbn [app] in *. eexists _, _, used. split; [done|].
    destruct (lo_failed _ _ _ _ _ Hl' (whash w) ltac:(by left)) as (Hwu&Hww&_).
    split_and!; try done; [apply Hl'| | |].
    - unfold budget in *. cbn in *. lia.
    - unfold reach_set in *. cbn in *. set_solver.
    - destruct (loop_outside _ _ _ _ (loop_drop _ _ _ _ _ Hl')) as [Hout _]. split_and!; [apply Hout; by left| |left; by exists old].
      intros h Hh. pose proof (account_members _ (reverse ws ++ []) [whash w] [] h Hh) as Ha. rewrite Hacc in Ha.
      apply account_start in Ha as [->|?]; [|done]. by destruct (Hout (whash w) ltac:(by left)). }
  destruct Hr as (Hwu&Hl'&Hacc). cbn [app] in *. unfold budget in Hb'. cbn [length] in Hb'.
  destruct (import_loop_ok (size (waiting (pool_future p))) used' _ _ [] [] replaced Hl') as (p2&pr&fl&rm&used2&->&Hu2&Hl2&Hb2&Hf2&Hrs2&Ha2&_).
  { unfold budget in *. cbn [length] in *. lia. }
  { cbn in *. lia. }
  destruct (loop_outside _ _ _ _ Hl2) as [Hout1 Hout2]. cbn [mbind option_bind].
  assert (used ⊆ used2 ∧ reach_set used2 p2 [] ⊆ reach_set used p [w] ∧ budget p2 [] = budget p [w]) as (H1&H2&H3).
  { split_and!; [set_solver|set_solver|]. rewrite Hb2. unfold budget in *. cbn [length] in *. lia. }
  assert (members p2 ∪ list_to_set fl ∪ hashes_of rm = {[whash w]} ∪ members p) as Hmem.
  { transitivity (account p2 [] fl rm); [unfold account; cbn [map list_to_set]; by rewrite (right_id_L ∅ (∪))|].
    rewrite Ha2, Hacc. apply set_eq. intros h. rewrite account_start, elem_of_union, elem_of_singleton. done. }
  destruct (existsb _ rm) eqn:Hcyc.
  - apply existsb_exists in Hcyc as (t&Ht&Hth%bool_decide_eq_true). apply list_elem_of_In, Hout2 in Ht. rewrite Hth in Ht.
    destruct (ready_remove_ok used2 p2 pr (lo_pool _ _ _ _ _ Hl2)) as (q3&txs&R&->&Hp3&Hid&Hr3&_). cbn.
    assert (members (with_ready p2 q3) ⊆ members p2) as Hm3.
    { unfold members. cbn. pose proof (left_by_dom _ _ _ Hr3). set_solver. }
    eexists _, _, used2. split; [done|]. split_and!; try done.
    + unfold budget in *. cbn in *. lia.
    + unfold import_result. split_and!; [by intros ?%Hm3| |by right]. intros h Hh%Hm3.
      assert (h ∈ {[whash w]} ∪ members p) as [->%elem_of_singleton|?]%elem_of_union; [|done..].
      rewrite <- Hmem. by apply elem_of_union_l, elem_of_union_l.
  - eexists _, _, used2. split; [done|]. split_and!; try done; [apply Hl2|lia|].
    assert (whash w ∉ hashes_of rm) as Hnr.
    { intros Hin%elem_of_list_to_set. apply list_elem_of_fmap in Hin as (t&Ht&Hin). apply not_true_iff_false in Hcyc.
      apply Hcyc, existsb_exists. exists t. split; [by apply list_elem_of_In|]. by apply bool_decide_eq_true. }
    assert (whash w ∉ fl) as Hnf by (intros (Hx&_)%(lo_failed _ _ _ _ _ Hl2); by apply Hx, Hu2).
    split_and!; try done.
    assert (whash w ∈ members p2) as [Hin|Hin]%elem_of_union by (clear -Hmem Hnr Hnf; set_solver).
    + by apply elem_of_dom in Hin.
    + apply elem_of_dom in Hin as [? Hin]. apply (po_waiting _ _ (lo_pool _ _ _ _ _ Hl2)) in Hin as [Hx _]. by destruct Hx; apply Hu2.
Qed.
(** All the tags the transaction requires are provided by the ready queue or
    were pruned lately. *)
Definition satisfied_by (p : pool) (t : tx) : Prop :=
  ∀ tag, tag ∈ requires t → is_provided (provided_tags (pool_ready p)) (recently_pruned p) tag = true.

Lemma waiting_new_ready now p (t : tx) :
  is_ready (waiting_new now t (provided_tags (pool_ready p)) (recently_pruned p)) = true ↔ satisfied_by p t.
Proof using. clear Hhash Htag Hinv.
  unfold is_ready, satisfied_by, waiting_new. cbn. rewrite bool_decide_eq_true. split.
  - intros He tag Ht. apply not_false_iff_true. intros Hf.
    assert (tag ∈ (∅ : gset Tag)) as Hx; [|by apply not_elem_of_empty in Hx].
    rewrite <- He. by apply elem_of_list_to_set, list_elem_of_filter.
  - intros Hs. apply elem_of_equiv_empty_L. intros tag [Hf Ht]%elem_of_list_to_set%list_elem_of_filter.
    by rewrite (Hs tag Ht) in Hf.
Qed.

(** What [import] gives. *)
Definition base_result (used : gset Hash) (p p' : pool) (t : tx) (r : outcome) (used' : gset Hash) : Prop :=
  if decide (tx_hash t ∈ members p) then p' = p ∧ r = Err (AlreadyImported (tx_hash t)) ∧ used' = used
  else if is_ready (waiting_new 0 t (provided_tags (pool_ready p)) (recently_pruned p)) then import_result used p p' t r used'
  else if reject_future_transactions p then p' = p ∧ r = Err RejectedFutureTransaction ∧ used' = used
  else r = Ok (ImportedFuture (tx_hash t)) ∧ pool_ready p' = pool_ready p ∧ used' = used ∧
    (∃ w, waiting (pool_future p') = <[tx_hash t := w]> (waiting (pool_future p)) ∧ wt_transaction w = t).

Lemma base_import_ok now used p t :
  pool_ok used p → (tx_hash t ∈ used → tx_hash t ∈ members p) → good t → budget p [] + 1 < 2 ^ 64 →
  ∃ p' r used', base_import hash_order tag_order now p t = Some (p', r) ∧ used ⊆ used' ∧ pool_ok used' p' ∧ same_frame p p' ∧
    budget p' [] ≤ budget p [] + 1 ∧ reach_set used' p' [] ⊆ {[tx_hash t]} ∪ reach_set used p [] ∧
    base_result used p p' t r used'.
Proof using Hhash Htag Hinv.
  intros Hp Hu Hg Hb. unfold base_import, base_result.
  replace (future_contains (pool_future p) (tx_hash t) || ready_contains (pool_ready p) (tx_hash t))
    with (bool_decide (tx_hash t ∈ members p)).
  2:{ unfold future_contains, ready_contains, members. rewrite <- bool_decide_or. apply bool_decide_ext.
    rewrite elem_of_union, !elem_of_dom. tauto. }
  case_decide as Hm.
  { rewrite bool_decide_true by done. exists p, (Err (AlreadyImported (tx_hash t))), used. split_and!; try done; [lia|set_solver]. }
  rewrite bool_decide_false by done.
  change (is_ready (waiting_new 0 t _ _)) with (is_ready (waiting_new now t (provided_tags (pool_ready p)) (recently_pruned p))).
  set (w := waiting_new now t (provided_tags (pool_ready p)) (recently_pruned p)) in *.
  assert (waiting (pool_future p) !! tx_hash t = None) as Hnw by (apply not_elem_of_dom; set_solver).
  destruct (is_ready w) eqn:Hr; cbn [negb].
  - destruct (import_to_ready_ok used p w Hp) as (p'&r&used'&Hrun&H1&H2&H3&H4&H5&H6).
    + constructor; [done| |done|done]. set_solver.
    + unfold budget in *. cbn [length] in *. lia.
    + exists p', r, used'. split_and!; try done; [unfold budget in *; cbn [length] in *; lia|].
      unfold reach_set in *. cbn in *. set_solver.
  - destruct (reject_future_transactions p) eqn:Hrej.
    { exists p, (Err RejectedFutureTransaction), used. split_and!; try done; [lia|set_solver]. }
    destruct (future_import_ok tag_order Htag (pool_future p) w (po_future _ _ Hp) Hr Hnw) as (f'&->&Hf'&Hw').
    eexists _, _, used. split; [done|]. split_and!; try done.
    + destruct Hp as [Hq Hf Hwt]. constructor; [done|done|]. cbn. intros h w'. rewrite Hw', lookup_insert. case_decide as He.
      * intros [= <-]. rewrite <- He. split; [set_solver|done].
      * by apply Hwt.
    + unfold budget. cbn. rewrite Hw', map_size_insert. cbn. rewrite Hnw. lia.
    + unfold reach_set. cbn. rewrite Hw', dom_insert. cbn. set_solver.
    + by exists w.
Qed.

(** The transactions that the ready queue has a trace of are those that matter. *)
Lemma pool_trace used p : pool_ok used p → pool_ok (trace (pool_ready p)) p.
Proof using Hinv.
  clear Hhash Htag. intros [Hq Hf Hw]. destruct (ri_trace hash_order used (pool_ready p) Hq) as [Hq' Hsub].
  constructor; [done|done|]. intros h w Hh. destruct (Hw h w Hh) as [? ?]. split; [|done]. by intros ?%Hsub.
Qed.

Lemma pool_new_ok used reject : pool_ok used (pool_new reject).
Proof using Hinv.
  clear Hhash Htag. constructor; cbn; [apply (ri_default hash_order)|apply future_default_ok|].
  intros h w Hh. by rewrite lookup_empty in Hh.
Qed.

(** ** Removing *)

(** The transactions that are removed: the given ones, and those in the ready
    queue that depend on them. *)
Definition removal (p : pool) (hashes : list Hash) (y : Hash) : Prop :=
  y ∈ members p ∧ y ∈ hashes ∨ is_Some (ready (pool_ready p) !! y) ∧ ∃ x, x ∈ hashes ∧ rtc (falls None (pool_ready p)) x y.

(** A queue with some transactions left out. *)
Record removed_from (p p' : pool) (txs : list tx) : Prop := {
  rf_frame : same_frame p p';
  rf_id : next_id (pool_ready p') = next_id (pool_ready p);
  rf_ready : left_by (hashes_of txs) (ready (pool_ready p)) (ready (pool_ready p'));
  rf_waiting : waiting (pool_future p') = filter (λ kv, kv.1 ∉ hashes_of txs) (waiting (pool_future p));
  rf_nodup : NoDup (map tx_hash txs);
  rf_members : hashes_of txs ⊆ members p;
  rf_txs : ∀ t, t ∈ txs → (∃ r, ready (pool_ready p) !! tx_hash t = Some r ∧ t = tx_of r) ∨
    (∃ w, waiting (pool_future p) !! tx_hash t = Some w ∧ t = wt_transaction w);
}.

Lemma members_removed p p' txs : removed_from p p' txs → members p' = members p ∖ hashes_of txs.
Proof using Hinv. clear Hhash Htag.
  intros [_ _ Hr Hw _ _ _]. unfold members. rewrite (left_by_dom _ _ _ Hr), Hw. apply set_eq. intros h.
  rewrite elem_of_difference, !elem_of_union, elem_of_difference, !elem_of_dom. unfold is_Some.
  setoid_rewrite map_lookup_filter_Some. cbn. naive_solver.
Qed.

Lemma removed_trans p1 p2 p3 xs ys : removed_from p1 p2 xs → removed_from p2 p3 ys → removed_from p1 p3 (xs ++ ys).
Proof using Hinv. clear Hhash Htag.
  intros H1 H2. pose proof (members_removed _ _ _ H1) as Hm. destruct H1 as [(F1&F2&F3) I1 R1 W1 N1 M1 T1], H2 as [(G1&G2&G3) I2 R2 W2 N2 M2 T2].
  assert (hashes_of (xs ++ ys) = hashes_of xs ∪ hashes_of ys) as Happ by (unfold hashes_of; by rewrite map_app, list_to_set_app_L).
  constructor.
  - unfold same_frame. split_and!; congruence.
  - congruence.
  - rewrite Happ. by eapply left_by_trans.
  - rewrite W2, W1, map_filter_filter, Happ. apply map_filter_ext. intros h r _. cbn. set_solver.
  - rewrite map_app. apply NoDup_app. split_and!; [done| |done]. intros h Hx Hy.
    assert (h ∈ hashes_of ys) as Hy' by (by apply elem_of_list_to_set). apply M2 in Hy'. rewrite Hm in Hy'.
    apply elem_of_difference in Hy' as [_ Hn]. apply Hn. by apply elem_of_list_to_set.
  - rewrite Happ. set_solver.
  - intros t [Ht|Ht]%elem_of_app; [by apply T1|]. destruct (T2 t Ht) as [(r&Hr&->)|(w&Hw&->)].
    + destruct (left_by_inv _ _ _ _ _ R1 Hr) as (r0&l&Hr0&_&->&_). left. by exists r0.
    + rewrite W1 in Hw. apply map_lookup_filter_Some in Hw as [Hw _]. right. by eexists.
Qed.
Lemma pool_remove_subtree_ok used p hashes :
  pool_ok used p →
  ∃ p' txs, pool_remove_subtree tag_order p hashes = Some (p', txs) ∧ pool_ok used p' ∧ removed_from p p' txs ∧
    ∀ y, y ∈ hashes_of txs ↔ removal p hashes y.
Proof using Hhash Htag Hinv.
  intros Hp. destruct (ready_remove_ok used p hashes Hp) as (q'&txs&R&Hrun&Hp'&Hid&Hr&[Hnd Hc]&HR).
  unfold pool_remove_subtree. rewrite Hrun. cbn [mbind option_bind].
  pose proof (future_remove_ok hash_order tag_order Hhash Htag (pool_future p) hashes (po_future _ _ Hp)) as Hfut.
  destruct (future_remove tag_order (pool_future p) hashes) as [f' more]. destruct Hfut as (Hf'&Hw&Hnd2&Hc2).
  assert (∀ y, y ∈ hashes_of txs ↔ y ∈ R) as Ht1.
  { intros y. unfold hashes_of. rewrite elem_of_list_to_set, list_elem_of_fmap. split; [by intros (t&->&(r&_&_&?)%Hc)|].
    intros Hy. pose proof Hy as [[r Hy'] _]%HR. destruct (ls_ready _ _ (po_loose _ _ Hp) y r Hy') as [Hh _].
    exists (tx_of r). split; [done|]. apply Hc. exists r. by rewrite Hh. }
  assert (∀ y, y ∈ hashes_of more ↔ is_Some (waiting (pool_future p) !! y) ∧ y ∈ hashes) as Ht2.
  { intros y. unfold hashes_of. rewrite elem_of_list_to_set, list_elem_of_fmap. split.
    - intros (t&->&(w&?&_&?)%Hc2). split; [by eexists|done].
    - intros [[w Hy] Hin]. destruct (fo_waiting _ (po_future _ _ Hp) y w Hy) as [Hh _]. exists (wt_transaction w).
      split; [done|]. apply Hc2. exists w. by rewrite Hh. }
  assert (∀ y, is_Some (ready (pool_ready p) !! y) → is_Some (waiting (pool_future p) !! y) → False) as Hdisj.
  { intros y [r Hy] [w Hy']. destruct (ls_ready _ _ (po_loose _ _ Hp) y r Hy) as (_&?&_). by apply (po_waiting _ _ Hp) in Hy' as [? _]. }
  assert (hashes_of (txs ++ more) = hashes_of txs ∪ hashes_of more) as Happ by (unfold hashes_of; by rewrite map_app, list_to_set_app_L).
  eexists _, _. split; [done|]. split_and!.
  - destruct Hp' as [Hq' _ Hwt]. constructor; [done|done|]. cbn. intros h w. rewrite Hw, map_lookup_filter_Some. intros [? _]. by apply Hwt.
  - constructor; cbn; try done.
    + eapply left_by_ext; [|exact Hr]. intros h Hh. rewrite Happ, elem_of_union, Ht1, Ht2. pose proof (Hdisj h Hh). tauto.
    + rewrite Hw, Happ. apply map_filter_ext. intros h w Hh. cbn. rewrite elem_of_union, Ht1, Ht2, HR.
      assert (is_Some (waiting (pool_future p) !! h)) as Hs by (by eexists). pose proof (λ x, Hdisj h x Hs). tauto.
    + rewrite map_app. apply NoDup_app. split_and!; [done| |done]. intros h H1%(elem_of_list_to_set (C := gset Hash)) H2%(elem_of_list_to_set (C := gset Hash)).
      apply Ht1, HR in H1 as [H1 _]. apply Ht2 in H2 as [H2 _]. by apply (Hdisj h).
    + intros h. rewrite Happ, elem_of_union, Ht1, Ht2, HR. unfold members. rewrite elem_of_union, !elem_of_dom. tauto.
    + intros t [(r&?&?&_)%Hc|(w&?&?&_)%Hc2]%elem_of_app; [left|right]; by eexists.
  - intros y. rewrite Happ, elem_of_union, Ht1, Ht2, HR. unfold removal, members. rewrite elem_of_union, !elem_of_dom.
    split; [tauto|]. intros [[[Hy|Hy] Hx]|?]; [|tauto..]. left. split; [done|]. exists y. split; [done|]. apply rtc_refl.
Qed.

Lemma clear_future_ok used p : pool_ok used p → pool_ok used (clear_future hash_order p).1.
Proof using Hinv. clear Hhash Htag.
  intros [Hq Hf Hw]. constructor; cbn; [done|apply future_default_ok|]. intros h w Hh. by rewrite lookup_empty in Hh.
Qed.

(** ** Limits *)

Lemma fold_minimal {A B} (f : A → B) (key : B → Z) (l : list A) (acc : option B) :
  match foldl (λ minimal current, match minimal with
               | None => Some (f current)
               | Some m => if key (f current) <? key m then Some (f current) else Some m end) acc l with
  | Some m => (acc = Some m ∨ ∃ c, c ∈ l ∧ m = f c) ∧ (∀ c, c ∈ l → key m ≤ key (f c)) ∧ (∀ a, acc = Some a → key m ≤ key a)
  | None => acc = None ∧ l = []
  end.
Proof using Hinv. clear Hhash Htag.
  revert acc. induction l as [|c l IH]; intros acc; cbn [foldl].
  { destruct acc; [|done]. split_and!; [by left|intros c Hc; by apply not_elem_of_nil in Hc|]. intros a [= ->]. lia. }
  match goal with |- context [foldl _ ?a l] => specialize (IH a); destruct (foldl _ a l) as [m|] end.
  - destruct IH as (H1&H2&H3). destruct acc as [a|].
    + destruct (Z.ltb_spec (key (f c)) (key a)).
      * split_and!; [right; destruct H1 as [[= <-]|(c'&?&->)]; [exists c; by split; [left|]|exists c'; by split; [right|]]| |].
        -- intros c' [->|Hc']%elem_of_cons; [by apply H3|by apply H2].
        -- intros a' [= <-]. specialize (H3 _ eq_refl). lia.
      * split_and!; [destruct H1 as [[= <-]|(c'&?&->)]; [by left|right; exists c'; by split; [right|]]| |].
        -- intros c' [->|Hc']%elem_of_cons; [specialize (H3 _ eq_refl); lia|by apply H2].
        -- intros a' [= <-]. by apply H3.
    + split_and!; [right; destruct H1 as [[= <-]|(c'&?&->)]; [exists c; by split; [left|]|exists c'; by split; [right|]]| |done].
      intros c' [->|Hc']%elem_of_cons; [by apply H3|by apply H2].
  - destruct IH as [IH _]. destruct acc; [by destruct (_ <? _)|done].
Qed.

Lemma elem_of_ready_values (q : ready_queue) r : r ∈ ready_values (Ex := Ex) hash_order q ↔ ∃ h, ready q !! h = Some r.
Proof using Hhash Hinv.
  unfold ready_values. rewrite list_elem_of_omap. setoid_rewrite (Hhash (dom (ready q))).
  setoid_rewrite elem_of_elements. setoid_rewrite elem_of_dom. split; [naive_solver|]. intros (h&Hh). exists h. split; [by eexists|done].
Qed.

Lemma elem_of_waiting_values (f : future_queue) w : w ∈ waiting_values hash_order f ↔ ∃ h, waiting f !! h = Some w.
Proof using Hhash Hinv.
  unfold waiting_values. rewrite list_elem_of_omap. setoid_rewrite (Hhash (dom (waiting f))).
  setoid_rewrite elem_of_elements. setoid_rewrite elem_of_dom. split; [naive_solver|]. intros (h&Hh). exists h. split; [by eexists|done].
Qed.

Lemma oldest_ready_spec (p : pool) :
  match oldest_ready hash_order p with
  | Some m => (∃ h r, ready (pool_ready p) !! h = Some r ∧ m = rt_transaction r) ∧
      ∀ h r, ready (pool_ready p) !! h = Some r → insertion_id m ≤ insertion_id (rt_transaction r)
  | None => ready (pool_ready p) = ∅
  end.
Proof using Hhash Hinv.
  unfold oldest_ready, ready_fold. pose proof (fold_minimal rt_transaction insertion_id (ready_values (Ex := Ex) hash_order (pool_ready p)) None) as Hm.
  destruct (foldl _ None _) as [m|].
  - destruct Hm as ([[=]|(r&Hr&->)]&H2&_). apply elem_of_ready_values in Hr as [h Hr]. split; [by exists h, r|].
    intros h' r' Hr'. apply H2, elem_of_ready_values. by exists h'.
  - destruct Hm as [_ Hm]. apply map_eq. intros h. rewrite lookup_empty. apply eq_None_not_Some. intros [r Hr].
    apply (not_elem_of_nil r). rewrite <- Hm. apply elem_of_ready_values. by exists h.
Qed.

Lemma oldest_future_spec (p : pool) :
  match oldest_future hash_order p with
  | Some m => (∃ h, waiting (pool_future p) !! h = Some m) ∧
      ∀ h w, waiting (pool_future p) !! h = Some w → imported_at m ≤ imported_at w
  | None => waiting (pool_future p) = ∅
  end.
Proof using Hhash Hinv.
  unfold oldest_future, future_fold. pose proof (fold_minimal id imported_at (waiting_values hash_order (pool_future p)) None) as Hm.
  unfold id in Hm. destruct (foldl _ None _) as [m|].
  - destruct Hm as ([[=]|(r&Hr&->)]&H2&_). apply elem_of_waiting_values in Hr as [h Hr]. split; [by exists h|].
    intros h' r' Hr'. apply H2, elem_of_waiting_values. by exists h'.
  - destruct Hm as [_ Hm]. apply map_eq. intros h. rewrite lookup_empty. apply eq_None_not_Some. intros [r Hr].
    apply (not_elem_of_nil r). rewrite <- Hm. apply elem_of_waiting_values. by exists h.
Qed.
Definition ready_exceeds (p : pool) (l : Limit) : bool :=
  is_exceeded l (ready_len (pool_ready p)) (ready_bytes hash_order (pool_ready p)).
Definition future_exceeds (p : pool) (l : Limit) : bool :=
  is_exceeded l (future_len (pool_future p)) (future_bytes hash_order (pool_future p)).

(** The limits are of type [usize]. *)
Definition limit_ok (l : Limit) : Prop := 0 ≤ count l ∧ 0 ≤ total_bytes l.

Lemma ready_exceeds_empty p l : limit_ok l → ready (pool_ready p) = ∅ → ready_exceeds p l = false.
Proof using Hhash Hinv.
  intros [? ?] He. unfold ready_exceeds, is_exceeded, ready_len, ready_bytes.
  assert (ready_values (Ex := Ex) hash_order (pool_ready p) = []) as ->.
  { apply elem_of_nil_inv. intros r Hr. apply elem_of_ready_values in Hr as [h Hr]. by rewrite He, lookup_empty in Hr. }
  rewrite He, map_size_empty. cbn. apply orb_false_iff. split; apply Z.ltb_ge; lia.
Qed.

Lemma future_exceeds_empty p l : limit_ok l → waiting (pool_future p) = ∅ → future_exceeds p l = false.
Proof using Hhash Hinv.
  intros [? ?] He. unfold future_exceeds, is_exceeded, future_len, future_bytes.
  assert (waiting_values hash_order (pool_future p) = []) as ->.
  { apply elem_of_nil_inv. intros r Hr. apply elem_of_waiting_values in Hr as [h Hr]. by rewrite He, lookup_empty in Hr. }
  rewrite He, map_size_empty. cbn. apply orb_false_iff. split; apply Z.ltb_ge; lia.
Qed.

Lemma ready_exceeds_ext p p' l :
  (∀ x, rt_transaction <$> ready (pool_ready p') !! x = rt_transaction <$> ready (pool_ready p) !! x) →
  ready_exceeds p' l = ready_exceeds p l.
Proof using Hinv. clear Hhash Htag. intros He. unfold ready_exceeds, ready_len, ready_bytes, ready_values.
  assert (dom (ready (pool_ready p')) = dom (ready (pool_ready p))) as Hd.
  { apply set_eq. intros x. by rewrite !elem_of_dom, <- !(fmap_is_Some rt_transaction), He. }
  rewrite <- !size_dom, Hd. f_equal. generalize 0. induction (hash_order (dom (ready (pool_ready p)))) as [|h hs IH]; intros z; [done|].
  cbn. specialize (He h). destruct (ready (pool_ready p') !! h) as [r'|], (ready (pool_ready p) !! h) as [r|]; cbn in *; try done.
  injection He as He. unfold tx_of in *. rewrite He. apply IH.
Qed.

Lemma falls_restrict filtered (q q' : ready_queue) (R : gset Hash) x y :
  left_by R (ready q) (ready q') → rtc (falls filtered q') x y → rtc (falls filtered q) x y.
Proof using Hinv. clear Hhash Htag.
  intros Hr. induction 1 as [|x z y (r&Hx&Ht&Hz) _ IH]; [apply rtc_refl|]. eapply rtc_l; [|done].
  destruct (left_by_inv _ _ _ _ _ Hr Hx) as (r0&l&Hr0&_&->&_&_&Hsub). exists r0. split_and!; [done|done|by apply Hsub].
Qed.

Lemma size_filter_lt {A} (m : gmap Hash A) (R : gset Hash) h :
  is_Some (m !! h) → h ∈ R → (size (filter (λ kv, kv.1 ∉ R) m) < size m)%nat.
Proof using Hinv. clear Hhash Htag.
  intros [a Hh] HR. rewrite <- !size_dom. apply subset_size. split; [apply dom_filter_subseteq|].
  intros Hs. assert (h ∈ dom m) as Hd by (by apply elem_of_dom_2 in Hh). apply Hs, elem_of_dom in Hd as [a' Hd].
  by apply map_lookup_filter_Some in Hd as [_ Hd].
Qed.

Lemma removed_nil p : removed_from p p [].
Proof using Hinv. clear Hhash Htag.
  constructor; [done|done|apply left_by_refl| |constructor|set_solver|intros t Ht; by apply not_elem_of_nil in Ht].
  symmetry; apply map_filter_id; intros; cbn; set_solver.
Qed.

(** No transaction is in both queues. *)
Lemma pool_disjoint used p h r w :
  pool_ok used p → ready (pool_ready p) !! h = Some r → waiting (pool_future p) !! h = Some w → False.
Proof using Hinv.
  clear Hhash Htag. intros Hp Hr Hw. destruct (ls_ready _ _ (po_loose _ _ Hp) h r Hr) as (_&?&_).
  by apply (po_waiting _ _ Hp) in Hw as [? _].
Qed.

(** Each transaction that is removed is one that was in the queue for longer than
    all those that stay, or is related to such a one directly or through
    others. *)
Definition oldest_first (rel : Hash → Hash → Prop) (p p' : pool) (txs : list tx) : Prop :=
  ∀ x, x ∈ hashes_of txs → is_Some (ready (pool_ready p) !! x) ∧
    ∃ z rz, z ∈ hashes_of txs ∧ ready (pool_ready p) !! z = Some rz ∧ rtc rel z x ∧
    ∀ y r, ready (pool_ready p') !! y = Some r → insertion_id (rt_transaction rz) < insertion_id (rt_transaction r).

Lemma enforce_ready_ok used l fuel p removed :
  limit_ok l → pool_ok used p → (size (ready (pool_ready p)) ≤ fuel)%nat →
  ∃ p' txs, enforce_ready hash_order tag_order fuel p l removed = Some (p', removed ++ txs) ∧ pool_ok used p' ∧
    removed_from p p' txs ∧ waiting (pool_future p') = waiting (pool_future p) ∧ ready_exceeds p' l = false ∧
    (ready_exceeds p l = false → txs = []) ∧ oldest_first (falls None (pool_ready p)) p p' txs.
Proof using Hhash Htag Hinv.
  intros Hl. revert p removed. induction fuel as [|fuel IH]; intros p removed Hp Hf; cbn [enforce_ready]; fold (ready_exceeds p l).
  all: destruct (ready_exceeds p l) eqn:Hex;
    [|exists p, []; rewrite app_nil_r; split_and!; [done|done|apply removed_nil|done|done|done|intros x Hx; by apply not_elem_of_empty in Hx]].
  { rewrite ready_exceeds_empty in Hex; [done|done|]. apply map_size_empty_inv. lia. }
  pose proof (oldest_ready_spec p) as Hold. destruct (oldest_ready hash_order p) as [m|];
    [|by rewrite ready_exceeds_empty in Hex]. destruct Hold as [(h&r&Hr&->) Hmin].
  destruct (ls_ready _ _ (po_loose _ _ Hp) h r Hr) as (Hh&Hu&_). fold (tx_of r). rewrite Hh.
  destruct (pool_remove_subtree_ok used p [h] Hp) as (p1&xs&->&Hp1&Hrm1&Hxs). cbn [mbind option_bind].
  assert (h ∈ hashes_of xs) as Hhx.
  { apply Hxs. left. split; [apply elem_of_union_l, elem_of_dom; by eexists|by left]. }
  destruct (IH p1 (removed ++ xs) Hp1) as (p2&ys&->&Hp2&Hrm2&Hw2&Hex2&_&Hof2).
  { rewrite <- size_dom, (left_by_dom _ _ _ (rf_ready _ _ _ Hrm1)). rewrite <- size_dom in Hf.
    assert (h ∈ dom (ready (pool_ready p))) as Hd by (apply elem_of_dom; by eexists).
    assert (size (dom (ready (pool_ready p)) ∖ hashes_of xs) < size (dom (ready (pool_ready p))))%nat; [|lia].
    apply subset_size. set_solver. }
  exists p2, (xs ++ ys). split; [by rewrite app_assoc|]. split_and!; try done; [by eapply removed_trans| |].
  - rewrite Hw2, (rf_waiting _ _ _ Hrm1). apply map_filter_id. intros k w Hk. cbn. intros Hfall%Hxs.
    destruct Hfall as [[_ ->%list_elem_of_singleton]|[[rk Hrk] _]]; [by destruct (pool_disjoint _ _ _ _ _ Hp Hr Hk)|]. by destruct (pool_disjoint _ _ _ _ _ Hp Hrk Hk).
  - intros x. unfold hashes_of. rewrite map_app, list_to_set_app_L. intros [Hx|Hx]%elem_of_union.
    + split; [apply Hxs in Hx as [[_ ->%list_elem_of_singleton]|[? _]]; [by eexists|done]|].
      exists h, r. split_and!; [set_solver|done| |].
      * apply Hxs in Hx as [[_ ->%list_elem_of_singleton]|[_ (?&->%list_elem_of_singleton&?)]]; [apply rtc_refl|done].
      * intros y r' Hy. pose proof (left_by_trans _ _ _ _ _ (rf_ready _ _ _ Hrm1) (rf_ready _ _ _ Hrm2)) as Hlt.
        destruct (left_by_inv _ _ _ _ _ Hlt Hy) as (ry&ul&Hry&Hn&->&_). clear Hlt Hy. pose proof (Hmin y ry Hry). cbn.
        assert (insertion_id (rt_transaction r) ≠ insertion_id (rt_transaction ry)); [|lia]. intros Heq.
        apply (ls_known _ _ (po_loose _ _ Hp)) in Heq; [|right; by exists h, r|right; by exists y, ry].
        destruct (ls_ready _ _ (po_loose _ _ Hp) y ry Hry) as (Hy'&_). unfold tx_of in *. rewrite <- Heq, Hh in Hy'.
        subst y. set_solver.
    + destruct (Hof2 x Hx) as ([rx Hrx]&z&rz&Hz&Hrz&Hzx&Hlt).
      split; [destruct (left_by_inv _ _ _ _ _ (rf_ready _ _ _ Hrm1) Hrx) as (?&?&?&_); by eexists|].
      destruct (left_by_inv _ _ _ _ _ (rf_ready _ _ _ Hrm1) Hrz) as (rz0&ul&Hrz0&_&->&_).
      exists z, rz0. split_and!; [set_solver|done| |done].
      * by eapply falls_restrict; [apply (rf_ready _ _ _ Hrm1)|].
Qed.

Lemma enforce_future_ok used l fuel p removed :
  limit_ok l → pool_ok used p → (size (waiting (pool_future p)) ≤ fuel)%nat →
  ∃ p' txs, enforce_future hash_order tag_order fuel p l removed = Some (p', removed ++ txs) ∧ pool_ok used p' ∧
    removed_from p p' txs ∧ left_by ∅ (ready (pool_ready p)) (ready (pool_ready p')) ∧ future_exceeds p' l = false ∧
    (future_exceeds p l = false → txs = []) ∧
    ∀ x wx y wy, x ∈ hashes_of txs → waiting (pool_future p) !! x = Some wx → waiting (pool_future p') !! y = Some wy →
      imported_at wx ≤ imported_at wy.
Proof using Hhash Htag Hinv.
  intros Hl. revert p removed. induction fuel as [|fuel IH]; intros p removed Hp Hf; cbn [enforce_future]; fold (future_exceeds p l).
  all: destruct (future_exceeds p l) eqn:Hex;
    [|exists p, []; rewrite app_nil_r; split_and!; [done|done|apply removed_nil|apply left_by_refl|done|done|intros x ??? Hx; by apply not_elem_of_empty in Hx]].
  { rewrite future_exceeds_empty in Hex; [done|done|]. apply map_size_empty_inv. lia. }
  pose proof (oldest_future_spec p) as Hold. destruct (oldest_future hash_order p) as [m|];
    [|by rewrite future_exceeds_empty in Hex]. destruct Hold as [(h&Hr) Hmin].
  destruct (fo_waiting _ (po_future _ _ Hp) h m Hr) as (Hh&_). rewrite Hh.
  destruct (pool_remove_subtree_ok used p [h] Hp) as (p1&xs&->&Hp1&Hrm1&Hxs). cbn [mbind option_bind].
  assert (∀ x, x ∈ hashes_of xs ↔ x = h) as Hhx.
  { intros x. rewrite Hxs. unfold removal. split.
    - intros [[_ ?%list_elem_of_singleton]|[_ (?&->%list_elem_of_singleton&Hx)]]; [done|].
      inversion Hx as [|? ? ? (r&Hr'&_)]; subst; [done|]. by destruct (pool_disjoint _ _ _ _ _ Hp Hr' Hr).
    - intros ->. left. split; [apply elem_of_union_r, elem_of_dom; by eexists|by left]. }
  destruct (IH p1 (removed ++ xs) Hp1) as (p2&ys&->&Hp2&Hrm2&Hr2&Hex2&_&Hof2).
  { rewrite (rf_waiting _ _ _ Hrm1).
    pose proof (size_filter_lt (waiting (pool_future p)) (hashes_of xs) h ltac:(by eexists) ltac:(by apply Hhx)). lia. }
  exists p2, (xs ++ ys). split; [by rewrite app_assoc|]. split_and!; try done; [by eapply removed_trans| |].
  - rewrite <- (left_id_L ∅ (∪) ∅). eapply left_by_trans; [|exact Hr2]. eapply left_by_ext; [|apply (rf_ready _ _ _ Hrm1)].
    intros k [r Hk]. rewrite Hhx. split; [set_solver|]. intros ->. by destruct (pool_disjoint _ _ _ _ _ Hp Hk Hr).
  - intros x wx y wy. unfold hashes_of. rewrite map_app, list_to_set_app_L. intros [Hx|Hx]%elem_of_union Hwx Hwy.
    + apply Hhx in Hx as ->. assert (wx = m) as -> by congruence. apply (Hmin y).
      rewrite (rf_waiting _ _ _ Hrm2), (rf_waiting _ _ _ Hrm1), map_filter_filter in Hwy.
      by apply map_lookup_filter_Some in Hwy as [? _].
    + apply (Hof2 x wx y wy); [done| |done]. rewrite (rf_waiting _ _ _ Hrm1). apply map_lookup_filter_Some. split; [done|].
      cbn. rewrite Hhx. intros ->. apply (rf_members _ _ _ Hrm2) in Hx. rewrite (members_removed _ _ _ Hrm1) in Hx.
      apply elem_of_difference in Hx as [_ Hx]. apply Hx. by apply Hhx.
Qed.

Lemma enforce_limits_ok used p lr lf :
  pool_ok used p → limit_ok lr → limit_ok lf →
  ∃ p' xs ys, enforce_limits hash_order tag_order p lr lf = Some (p', xs ++ ys) ∧ pool_ok used p' ∧ removed_from p p' (xs ++ ys) ∧
    ready_exceeds p' lr = false ∧ future_exceeds p' lf = false ∧
    (ready_exceeds p lr = false → xs = []) ∧ (future_exceeds p lf = false → ys = []) ∧
    oldest_first (falls None (pool_ready p)) p p' xs ∧
    ∀ x wx y wy, x ∈ hashes_of ys → waiting (pool_future p) !! x = Some wx → waiting (pool_future p') !! y = Some wy →
      imported_at wx ≤ imported_at wy.
Proof using Hhash Htag Hinv.
  intros Hp Hlr Hlf. unfold enforce_limits.
  destruct (enforce_ready_ok used lr (S (size (ready (pool_ready p)))) p [] Hlr Hp ltac:(lia)) as (p1&xs&->&Hp1&Hrm1&Hw1&Hex1&Hx1&Hof1).
  cbn [mbind option_bind app].
  destruct (enforce_future_ok used lf (S (size (waiting (pool_future p1)))) p1 xs Hlf Hp1 ltac:(lia)) as (p2&ys&->&Hp2&Hrm2&Hr2&Hex2&Hx2&Hof2).
  exists p2, xs, ys. split_and!; try done.
  - by eapply removed_trans.
  - rewrite (ready_exceeds_ext p1 p2); [done|]. intros x. rewrite (left_by_refs _ _ _ _ Hr2). by rewrite decide_False by set_solver.
  - intros Hf. apply Hx2. rewrite <- Hf. unfold future_exceeds, future_len, future_bytes, waiting_values. by rewrite Hw1.
  - intros x Hx. destruct (Hof1 x Hx) as (?&z&rz&?&?&?&Hlt). split; [done|]. exists z, rz. split_and!; try done.
    intros y r (r0&l&Hr0&_&->&_)%(left_by_inv _ _ _ _ _ Hr2). by apply (Hlt y r0).
  - intros x wx y wy Hx Hwx Hwy. by apply (Hof2 x wx y wy); [|rewrite Hw1|].
Qed.
(** ** Pruning *)

Lemma importable_shrink used used' (p p' : pool) (ws : list wtx) :
  Forall (importable used p) ws →
  (∀ w, w ∈ ws → whash w ∈ used' → whash w ∈ used) → dom (waiting (pool_future p')) ⊆ dom (waiting (pool_future p)) →
  Forall (importable used' p') ws.
Proof using Hinv.
  clear Hhash Htag. rewrite !Forall_forall. intros Hall Hu Hd w Hw. destruct (Hall w Hw) as [H1 H2 H3 H4].
  constructor; [done| | |done].
  - intros Hx. by apply H2, Hu.
  - apply not_elem_of_dom. apply not_elem_of_dom in H3. set_solver.
Qed.

(** The transactions that are pruned lead to the providers of the tags, which
    are pruned themselves. *)
Record pruned_from (p p' : pool) (tags : list Tag) (pruned : list tx) : Prop := {
  pf_id : next_id (pool_ready p') = next_id (pool_ready p);
  pf_nodup : NoDup (map tx_hash pruned);
  pf_pruned : ∀ t, t ∈ pruned → ∃ r, ready (pool_ready p) !! tx_hash t = Some r ∧ t = tx_of r ∧ ready (pool_ready p') !! tx_hash t = None;
  pf_kept : ∀ x, x ∉ hashes_of pruned →
    rt_transaction <$> ready (pool_ready p') !! x = rt_transaction <$> ready (pool_ready p) !! x;
  pf_gone : ∀ tag, tag ∈ tags → provided_tags (pool_ready p') !! tag = None;
  pf_leads : ∀ t, t ∈ pruned → ∃ tag h, tag ∈ tags ∧ provided_tags (pool_ready p) !! tag = Some h ∧
    rtc (leads (pool_ready p)) (tx_hash t) h;
}.

Lemma pruned_lookup p p' tags pruned x r' :
  pruned_from p p' tags pruned → ready (pool_ready p') !! x = Some r' →
  ∃ r, ready (pool_ready p) !! x = Some r ∧ rt_transaction r = rt_transaction r'.
Proof using Hinv.
  clear Hhash Htag. intros Hpf Hx. destruct (decide (x ∈ hashes_of pruned)) as [Hin|Hn].
  - apply elem_of_list_to_set, list_elem_of_fmap in Hin as (t&->&Ht). destruct (pf_pruned _ _ _ _ Hpf t Ht) as (_&_&_&?). congruence.
  - pose proof (pf_kept _ _ _ _ Hpf x Hn) as Hk. rewrite Hx in Hk. destruct (ready (pool_ready p) !! x) as [r|]; [|done].
    exists r. split; [done|]. by injection Hk.
Qed.

Lemma pruned_leads p p' tags pruned x y :
  pruned_from p p' tags pruned → rtc (leads (pool_ready p')) x y → rtc (leads (pool_ready p)) x y.
Proof using Hinv.
  clear Hhash Htag. intros Hpf. induction 1 as [|x z y (rx&ry&t&Hx&Hy&Ht1&Ht2) _ IH]; [apply rtc_refl|]. eapply rtc_l; [|done].
  destruct (pruned_lookup _ _ _ _ _ _ Hpf Hx) as (rx'&Hx'&E1), (pruned_lookup _ _ _ _ _ _ Hpf Hy) as (ry'&Hy'&E2).
  exists rx', ry', t. unfold tx_of in *. by rewrite E1, E2.
Qed.

Lemma pool_pruned_provided used used' p p' tags pruned tag h :
  pool_ok used p → pool_ok used' p' → pruned_from p p' tags pruned →
  provided_tags (pool_ready p') !! tag = Some h → provided_tags (pool_ready p) !! tag = Some h.
Proof using Hinv.
  clear Hhash Htag. intros Hp Hp' Hpf Hh. apply (ls_provided _ _ (po_loose _ _ Hp')) in Hh as (r&Hr&Ht).
  destruct (pruned_lookup _ _ _ _ _ _ Hpf Hr) as (r0&Hr0&E). apply (ls_provided _ _ (po_loose _ _ Hp)). exists r0.
  split; [done|]. unfold tx_of in *. by rewrite E.
Qed.

Lemma pruned_trans used p1 p2 p3 ts1 ts2 xs ys :
  pool_ok used p1 → pool_ok used p2 → pool_ok used p3 →
  pruned_from p1 p2 ts1 xs → pruned_from p2 p3 ts2 ys → pruned_from p1 p3 (ts1 ++ ts2) (xs ++ ys).
Proof using Hinv.
  clear Hhash Htag. intros Hp1 Hp2 Hp3 H1 H2.
  assert (∀ x, ready (pool_ready p2) !! x = None → ready (pool_ready p3) !! x = None) as Hnone.
  { intros x Hx. destruct (ready (pool_ready p3) !! x) as [r|] eqn:Hr; [|done].
    destruct (pruned_lookup _ _ _ _ _ _ H2 Hr) as (?&?&_). congruence. }
  constructor.
  - by rewrite (pf_id _ _ _ _ H2), (pf_id _ _ _ _ H1).
  - rewrite map_app. apply NoDup_app. split_and!; [apply H1| |apply H2].
    intros h (t&->&Ht)%list_elem_of_fmap (t'&He&Ht')%list_elem_of_fmap.
    destruct (pf_pruned _ _ _ _ H1 t Ht) as (_&_&_&Hn), (pf_pruned _ _ _ _ H2 t' Ht') as (r&Hr&_). rewrite He in Hn. congruence.
  - intros t [Ht|Ht]%elem_of_app.
    + destruct (pf_pruned _ _ _ _ H1 t Ht) as (r&?&?&?). exists r. split_and!; [done..|by apply Hnone].
    + destruct (pf_pruned _ _ _ _ H2 t Ht) as (r&Hr&->&?). destruct (pruned_lookup _ _ _ _ _ _ H1 Hr) as (r0&?&E).
      exists r0. unfold tx_of in *. by rewrite E.
  - intros x Hx. unfold hashes_of in Hx. rewrite map_app, list_to_set_app_L, not_elem_of_union in Hx. destruct Hx as [Hx1 Hx2].
    by rewrite (pf_kept _ _ _ _ H2 x Hx2), (pf_kept _ _ _ _ H1 x Hx1).
  - intros tag [Ht|Ht]%elem_of_app; [|by apply (pf_gone _ _ _ _ H2)].
    destruct (provided_tags (pool_ready p3) !! tag) as [h|] eqn:Hh; [|done].
    eapply pool_pruned_provided in Hh; [|exact Hp2|exact Hp3|exact H2]. by rewrite (pf_gone _ _ _ _ H1 tag Ht) in Hh.
  - intros t [Ht|Ht]%elem_of_app.
    + destruct (pf_leads _ _ _ _ H1 t Ht) as (tag&h&?&?&?). exists tag, h. split_and!; [apply elem_of_app; by left|done..].
    + destruct (pf_leads _ _ _ _ H2 t Ht) as (tag&h&?&Hh&?). exists tag, h. split_and!; [apply elem_of_app; by right| |].
      * eapply pool_pruned_provided; [exact Hp1|exact Hp2|exact H1|done].
      * by eapply pruned_leads.
Qed.

(** One tag. *)
Lemma prune_turn used p tag :
  pool_ok used p →
  ∃ f' ws q' xs, satisfy_tags hash_order (pool_future p) [tag] = Ok (f', ws) ∧
    ready_prune_tags (pool_ready p) tag = Some (Ok (q', xs)) ∧
    let p' := with_ready (with_future p f') q' in
    pool_ok used p' ∧ pruned_from p p' [tag] xs ∧ NoDup (map whash ws) ∧ Forall (importable used p') ws ∧
    dom (waiting (pool_future p)) = list_to_set (map whash ws) ∪ dom (waiting f') ∧
    size (waiting (pool_future p)) = (length ws + size (waiting f'))%nat.
Proof using Hhash Htag Hinv.
  intros Hp. destruct (satisfy_split (pool_future p) [tag] (po_future _ _ Hp)) as (f'&ws&Hs&Hf'&Hold&Hnd&Hrs&Hws&Hdom&Hsize).
  destruct (ready_prune_tags_ok used (pool_ready p) tag (po_loose _ _ Hp)) as (q'&xs&R&Hr&Hq'&_&Hid&[Hc1 Hc2]&Hrt&HR).
  exists f', ws, q', xs. split; [done|]. split; [done|]. intros p'.
  assert (∀ x, x ∈ hashes_of xs ↔ x ∈ R ∧ is_Some (ready (pool_ready p) !! x)) as HxR.
  { intros x. unfold hashes_of. rewrite elem_of_list_to_set, list_elem_of_fmap. split.
    - intros (t&->&(r&Hr'&_&?)%Hc2). split; [done|by eexists].
    - intros [Hx [r Hr']]. destruct (ls_ready _ _ (po_loose _ _ Hp) x r Hr') as [Hh _]. exists (tx_of r). split; [done|].
      apply Hc2. exists r. by rewrite Hh. }
  assert (pool_ok used p') as Hp'.
  { constructor; [by apply (inv_prune used (pool_ready p) tag q' xs); [apply (po_ready _ _ Hp)|]|done|]. cbn. intros h w' (w&Hw&->)%Hold. by apply (po_waiting _ _ Hp) in Hw. }
  split_and!; try done.
  - constructor; try done.
    + intros t (r&Hr'&->&HtR)%Hc2. exists r. split_and!; [done|done|]. specialize (Hrt (tx_hash (tx_of r))).
      rewrite decide_True in Hrt by done. cbn. by destruct (ready q' !! _).
    + intros x Hx. cbn. rewrite Hrt. case_decide as HxR'; [|done]. rewrite HxR in Hx.
      destruct (ready (pool_ready p) !! x); [|done]. destruct Hx. split; [done|by eexists].
    + intros t ->%list_elem_of_singleton. cbn. destruct (provided_tags q' !! tag) as [h|] eqn:Hh; [|done].
      apply (ls_provided _ _ Hq') in Hh as (r&Hr'&Ht). pose proof (Hrt h) as Hx. rewrite Hr' in Hx.
      case_decide as Hn; [done|]. destruct (ready (pool_ready p) !! h) as [r0|] eqn:Hr0; [|done]. injection Hx as Hx.
      assert (provided_tags (pool_ready p) !! tag = Some h) as Hpt.
      { apply (ls_provided _ _ (po_loose _ _ Hp)). exists r0. split; [done|]. unfold tx_of in *. by rewrite <- Hx. }
      rewrite Hpt in HR. by destruct HR.
    + intros t (r&Hr'&->&HtR)%Hc2. destruct (provided_tags (pool_ready p) !! tag) as [h|] eqn:Hh.
      * exists tag, h. split_and!; [by left|done|]. by apply HR.
      * rewrite HR in HtR. by apply not_elem_of_empty in HtR.
  - apply Forall_forall. intros w' Hw'. rewrite Forall_forall in Hrs. destruct (Hws w' Hw') as (w0&Hw0&He&Hn).
    destruct (po_waiting _ _ Hp _ _ Hw0) as [? ?]. constructor; [by apply Hrs|done|done|by rewrite He].
Qed.

Lemma prune_each_ok used p tags recent :
  pool_ok used p →
  ∃ p' ws xs, prune_each hash_order p tags recent = Some (Ok (p', ws, xs, list_to_set tags ∪ recent)) ∧
    pool_ok used p' ∧ same_frame p p' ∧ pruned_from p p' tags xs ∧ NoDup (map whash ws) ∧ Forall (importable used p') ws ∧
    dom (waiting (pool_future p)) = list_to_set (map whash ws) ∪ dom (waiting (pool_future p')) ∧
    size (waiting (pool_future p)) = (length ws + size (waiting (pool_future p')))%nat.
Proof using Hhash Htag Hinv.
  revert p recent. induction tags as [|tag tags IH]; intros p recent Hp; cbn [prune_each].
  { exists p, [], []. cbn [list_to_set map length]. rewrite !(left_id_L ∅ (∪)). split_and!; try done; [|constructor].
    constructor; try done; try constructor; try (intros t Ht; by apply not_elem_of_nil in Ht). }
  destruct (prune_turn used p tag Hp) as (f1&ws1&q1&xs1&->&->&Hp1&Hpf1&Hnd1&Him1&Hdom1&Hsz1).
  set (p1 := with_ready (with_future p f1) q1) in *.
  destruct (IH p1 ({[tag]} ∪ recent) Hp1) as (p2&ws2&xs2&->&Hp2&Hfr2&Hpf2&Hnd2&Him2&Hdom2&Hsz2). cbn in Hdom2, Hsz2.
  exists p2, (ws1 ++ ws2), (xs1 ++ xs2). split_and!; try done.
  - do 3 f_equal. cbn [list_to_set]. set_solver.
  - by apply (pruned_trans used p p1 p2 [tag] tags).
  - rewrite map_app. apply NoDup_app. split_and!; [done| |done]. intros h (w&->&Hw)%list_elem_of_fmap Hh2.
    rewrite Forall_forall in Him1. pose proof (im_not_waiting _ _ _ (Him1 w Hw)) as Hn. apply not_elem_of_dom in Hn. apply Hn.
    cbn. rewrite Hdom2. by apply elem_of_union_l, elem_of_list_to_set.
  - apply Forall_app. split; [|done]. apply (importable_shrink used used p1 p2); [done|done|]. cbn. rewrite Hdom2. set_solver.
  - by rewrite Hdom1, Hdom2, map_app, list_to_set_app_L, (assoc_L (∪)).
  - rewrite length_app. lia.
Qed.
(** The transactions that an import threw out. *)
Definition dropped (i : Imported (Hash := Hash) (Tag := Tag) (Ex := Ex)) : gset Hash :=
  match i with
  | ImportedReady _ _ failed removed => list_to_set failed ∪ hashes_of removed
  | ImportedFuture _ => ∅
  end.

Definition all_dropped (l : list (Imported (Hash := Hash) (Tag := Tag) (Ex := Ex))) : gset Hash := ⋃ (map dropped l).

(** The rest of the list can still be imported after its head. *)
Lemma importable_next used used' (p p' : pool) w ws :
  NoDup (map whash (w :: ws)) → Forall (importable used p) (w :: ws) → pool_ok used' p' →
  reach_set used' p' [] ⊆ reach_set used p [w] → Forall (importable used' p') ws.
Proof using Hinv.
  clear Hhash Htag. rewrite !Forall_forall. cbn [map]. intros [Hn _]%NoDup_cons Hall Hp' Hrs w' Hw'.
  destruct (Hall w' ltac:(by right)) as [H1 H2 H3 H4].
  assert (whash w' ∉ reach_set used' p' []) as Hr.
  { intros Hx%Hrs. unfold reach_set in Hx. cbn in Hx. rewrite !elem_of_union, elem_of_singleton, elem_of_empty, elem_of_dom in Hx.
    unfold whash in *. destruct Hx as [[?|[Hx|[]]]|[? Hx]]; [done| |congruence].
    apply Hn. rewrite <- Hx. by apply (list_elem_of_fmap_2 whash). }
  unfold reach_set in Hr. rewrite !not_elem_of_union in Hr. destruct Hr as [[Hr1 _] Hr2].
  constructor; [done|done| |done]. by apply not_elem_of_dom.
Qed.

(** Each result of the loop that was no error accounts for the transactions. *)
Lemma import_each_ok used p ws :
  pool_ok used p → NoDup (map whash ws) → Forall (importable used p) ws → budget p ws < 2 ^ 64 →
  ∃ p' promoted failed used', import_each hash_order p ws = Some (Ok (p', promoted, failed)) ∧ used ⊆ used' ∧
    pool_ok used' p' ∧ same_frame p p' ∧ budget p' [] ≤ budget p ws ∧ reach_set used' p' [] ⊆ reach_set used p ws ∧
    map imported_hash promoted ++ failed ≡ₚ map whash ws ∧
    members p' ⊆ members p ∪ list_to_set (map whash ws) ∧
    (failed = [] → members p ∪ list_to_set (map whash ws) = members p' ∪ all_dropped promoted).
Proof using Hhash Htag Hinv.
  revert used p. induction ws as [|w ws IH]; intros used p Hp Hnd Him Hb; cbn [import_each].
  { exists p, [], [], used. split_and!; try done; cbn; set_solver. }
  inversion Him as [|?? Hw Hws]; subst.
  destruct (import_to_ready_ok used p w Hp Hw) as (p1&r&used1&->&Hu1&Hp1&Hf1&Hb1&Hrs1&Hres).
  { unfold budget in *. cbn [length] in *. lia. }
  assert (dom (waiting (pool_future p1)) ⊆ used ∪ {[whash w]} ∪ dom (waiting (pool_future p))) as Hd1.
  { unfold reach_set in Hrs1. cbn in Hrs1. clear -Hrs1. set_solver. }
  cbn [mbind option_bind].
  destruct (IH used1 p1 Hp1) as (p2&pr&fl&used2&Hrec&Hu2&Hp2&Hf2&Hb2&Hrs2&Hperm&Hmem&Hacc).
  { by inversion Hnd. }
  { by eapply (importable_next used used1 p p1 w). }
  { unfold budget in *. cbn [length] in *. lia. }
  assert (used ⊆ used2 ∧ same_frame p p2 ∧ budget p2 [] ≤ budget p (w :: ws) ∧ reach_set used2 p2 [] ⊆ reach_set used p (w :: ws)) as (G1&G2&G3&G4).
  { split_and!.
    - by trans used1.
    - destruct Hf1 as (?&?&?), Hf2 as (?&?&?). split_and!; congruence.
    - unfold budget in *. cbn [length] in *. lia.
    - trans (reach_set used1 p1 ws); [done|]. unfold reach_set in *. cbn in *. clear -Hrs1. set_solver. }
  destruct r as [[hash promoted failed removed|hash]|e|]; [|done| |done]; rewrite Hrec.
  - destruct Hres as (->&_&Hm&_). eexists p2, _, fl, used2. split; [done|]. split_and!; try done.
    + cbn. by rewrite Hperm.
    + assert (members p1 ⊆ {[whash w]} ∪ members p) as Hm1.
      { unfold whash. rewrite <- Hm. clear. set_solver. }
      cbn. clear -Hmem Hm1. set_solver.
    + intros Hfl. specialize (Hacc Hfl). cbn. unfold all_dropped in *. cbn. unfold whash at 1.
      rewrite (assoc_L (∪) (members p)), (comm_L (∪) (members p)), <- Hm. clear -Hacc. set_solver.
  - destruct Hres as (Hn&Hm&_). exists p2, pr, (whash w :: fl), used2. split; [done|]. split_and!; try done.
    + cbn. rewrite <- Hperm. by rewrite Permutation_middle.
    + cbn. clear -Hmem Hm. set_solver.
Qed.

(** What [prune_tags] gives. *)
Record prune_result (p p' : pool) (tags : list Tag) (s : PruneStatus (Hash := Hash) (Tag := Tag) (Ex := Ex)) : Prop := {
  pr_nodup : NoDup (map tx_hash (ps_pruned s));
  pr_pruned : ∀ t, t ∈ ps_pruned s → (∃ r, ready (pool_ready p) !! tx_hash t = Some r ∧ t = tx_of r) ∧
    (∃ tag h, tag ∈ tags ∧ provided_tags (pool_ready p) !! tag = Some h ∧ rtc (leads (pool_ready p)) (tx_hash t) h) ∧
    tx_hash t ∉ members p';
  pr_providers : ∀ tag h, tag ∈ tags → provided_tags (pool_ready p) !! tag = Some h → h ∈ hashes_of (ps_pruned s);
  pr_members : members p' ⊆ members p;
  pr_account : ps_failed s = [] → members p = members p' ∪ hashes_of (ps_pruned s) ∪ all_dropped (ps_promoted s);
  pr_recent : recently_pruned p' = <[recently_pruned_index p := list_to_set tags]> (recently_pruned p);
  pr_index : recently_pruned_index p' = ((recently_pruned_index p + 1) mod RECENTLY_PRUNED_TAGS)%nat;
  pr_reject : reject_future_transactions p' = reject_future_transactions p;
}.

Lemma pool_ok_slots used reject f q slots i reject' slots' i' :
  pool_ok used (MkBasePool reject f q slots i) → pool_ok used (MkBasePool reject' f q slots' i').
Proof using Hinv. clear Hhash Htag. intros [H1 H2 H3]. by constructor. Qed.

Lemma pool_prune_tags_ok used p tags :
  pool_ok used p → budget p [] < 2 ^ 64 →
  ∃ p' s used', pool_prune_tags hash_order p tags = Some (Ok (p', s)) ∧ used ⊆ used' ∧ pool_ok used' p' ∧
    budget p' [] ≤ budget p [] ∧ reach_set used' p' [] ⊆ reach_set used p [] ∧ prune_result p p' tags s.
Proof using Hhash Htag Hinv.
  intros Hp Hb. unfold pool_prune_tags.
  match goal with |- context [prune_each hash_order ?x tags ∅] => set (p1 := x) end.
  destruct (prune_each_ok used p1 tags ∅) as (p2&ws&xs&->&Hp2&(F1&F2&F3)&Hpf&Hnd&Him&Hdom&Hsz).
  { destruct p. by eapply pool_ok_slots. }
  match goal with |- context [import_each hash_order ?x ws] => set (p3 := x) end.
  destruct (import_each_ok used p3 ws) as (p4&pr&fl&used'&->&Hu&Hp4&(G1&G2&G3)&Hb4&Hrs&Hperm&Hmem&Hacc).
  { destruct p2. by eapply pool_ok_slots. }
  { done. }
  { rewrite Forall_forall in *. intros w Hw. destruct (Him w Hw) as [? ? ? ?]. by constructor. }
  { unfold budget in *. cbn [length] in *. cbn. rewrite (pf_id _ _ _ _ Hpf). cbn. unfold p1 in Hsz. cbn in Hsz. lia. }
  exists p4, (MkPruneStatus pr fl xs), used'. split; [done|].
  assert (dom (ready (pool_ready p)) = dom (ready (pool_ready p2)) ∪ hashes_of xs) as Hdr.
  { apply set_eq. intros x. rewrite elem_of_union, !elem_of_dom. destruct (decide (x ∈ hashes_of xs)) as [Hx|Hx].
    - split; [by right|]. intros _. apply elem_of_list_to_set, list_elem_of_fmap in Hx as (t&->&Ht).
      destruct (pf_pruned _ _ _ _ Hpf t Ht) as (r&?&_). by exists r.
    - rewrite <- !(fmap_is_Some rt_transaction), (pf_kept _ _ _ _ Hpf x Hx). tauto. }
  assert (members p = members p2 ∪ list_to_set (map whash ws) ∪ hashes_of xs) as Hmm.
  { unfold members. rewrite Hdr. change (waiting (pool_future p)) with (waiting (pool_future p1)). rewrite Hdom. clear. set_solver. }
  change (members p3) with (members p2) in *.
  split_and!; try done.
  - unfold budget in *. cbn [length] in *. unfold p3 in Hb4. cbn in Hb4. rewrite (pf_id _ _ _ _ Hpf) in Hb4. unfold p1 in *. cbn in *. lia.
  - trans (reach_set used p3 ws); [done|]. unfold reach_set. unfold p3, p1 in *. cbn in *. rewrite Hdom. clear. set_solver.
  - constructor; cbn; try done.
    + apply Hpf.
    + intros t Ht. destruct (pf_pruned _ _ _ _ Hpf t Ht) as (r&Hr&->&Hn). split_and!; [by exists r|by apply (pf_leads _ _ _ _ Hpf)|].
      assert (tx_hash (tx_of r) ∈ used) as Hxu by (by apply (ls_ready _ _ (po_loose _ _ Hp) _ r Hr)).
      intros Hx%Hmem. rewrite elem_of_union, elem_of_list_to_set in Hx. destruct Hx as [[Hx|Hx]%elem_of_union|Hx].
      * apply elem_of_dom in Hx as [? ?]. congruence.
      * apply elem_of_dom in Hx as [? Hx]. by apply (po_waiting _ _ Hp2) in Hx as [? _].
      * apply list_elem_of_fmap in Hx as (w&Hx&Hw). rewrite Forall_forall in Him. apply (im_unused _ _ _ (Him w Hw)).
        unfold whash in Hx. by rewrite <- Hx.
    + intros tag h Ht Hh. apply (ls_provided _ _ (po_loose _ _ Hp)) in Hh as (r&Hr&Hin).
      destruct (decide (h ∈ hashes_of xs)) as [|Hx]; [done|]. pose proof (pf_kept _ _ _ _ Hpf h Hx) as Hk.
      cbn in Hk. rewrite Hr in Hk. destruct (ready (pool_ready p2) !! h) as [r2|] eqn:Hr2; [|done]. injection Hk as Hk.
      assert (provided_tags (pool_ready p2) !! tag = Some h) as Hpt.
      { apply (ls_provided _ _ (po_loose _ _ Hp2)). exists r2. split; [done|]. unfold tx_of in *. by rewrite Hk. }
      by rewrite (pf_gone _ _ _ _ Hpf tag Ht) in Hpt.
    + rewrite Hmm. clear -Hmem. set_solver.
    + intros Hfl. rewrite Hmm, (Hacc Hfl). clear. set_solver.
    + rewrite G2. cbn. rewrite F2. cbn. by rewrite (right_id_L ∅ (∪)).
    + by rewrite G3.
    + by rewrite G1.
Qed.
End pool_facts.
