(* ===== verification/TxHistory.v ===== *)
(** * Histories of the transaction pool *)
From S2P Require Import Prelude TxFuture TxReady TxReadyFacts TxPool TxPoolFacts.

Local Open Scope Z_scope.

Section history.
Context {Hash Tag Ex : Type} `{Countable Hash, Countable Tag}.

Abbreviation tx := (Transaction (Hash := Hash) (Tag := Tag) (Ex := Ex)).
Abbreviation pool := (BasePool (Hash := Hash) (Tag := Tag) (Ex := Ex)).
Abbreviation outcome := (result (PoolError (Hash := Hash)) (Imported (Hash := Hash) (Tag := Tag) (Ex := Ex))).

Context (hash_order : gset Hash → list Hash) (tag_order : gset Tag → list Tag).

(** Which imports a history may have: all of them, or only those of transactions
    that the ready queue does not refer to any more. *)
Definition any_import (p : pool) (t : tx) : Prop := True.
Definition untraced (p : pool) (t : tx) : Prop := tx_hash t ∈ traces (pool_ready p) → tx_hash t ∈ members p.

(** The pools that the operations reach. *)
Inductive pool_hist (admits : pool → tx → Prop) : pool → Prop :=
| ph_new reject : pool_hist admits (pool_new reject)
| ph_import p now t p' r :
    pool_hist admits p → admits p t → good t → budget p [] + 1 < 2 ^ 64 →
    base_import hash_order tag_order now p t = Some (p', r) → pool_hist admits p'
| ph_remove p hashes p' txs :
    pool_hist admits p → pool_remove_subtree tag_order p hashes = Some (p', txs) → pool_hist admits p'
| ph_clear p : pool_hist admits p → pool_hist admits (clear_future hash_order p).1
| ph_limits p lr lf p' txs :
    pool_hist admits p → limit_ok lr → limit_ok lf →
    enforce_limits hash_order tag_order p lr lf = Some (p', txs) → pool_hist admits p'
| ph_prune p tags p' s :
    pool_hist admits p → budget p [] < 2 ^ 64 → pool_prune_tags hash_order p tags = Some (Ok (p', s)) → pool_hist admits p'
| ph_reject p b : pool_hist admits p → pool_hist admits (with_reject p b).

Hypothesis Hhash : ∀ s, hash_order s ≡ₚ elements s.
Hypothesis Htag : ∀ s, tag_order s ≡ₚ elements s.

(** The invariants of the ready queue hold along the histories that respect
    their traces. *)
Lemma hist_ok inv trace `{!ReadyInvariant hash_order inv trace} admits p :
  (∀ p t, admits p t → tx_hash t ∈ trace (pool_ready p) → tx_hash t ∈ members p) →
  pool_hist admits p → pool_ok inv (trace (pool_ready p)) p.
Proof using Hhash Htag.
  intros Hadm. induction 1 as [reject|p now t p' r _ Hp Ht Hg Hb Hrun|p hashes p' txs _ Hp Hrun
    |p _ Hp|p lr lf p' txs _ Hp Hlr Hlf Hrun|p tags p' s _ Hp Hb Hrun|p b _ Hp].
  - by apply (pool_new_ok hash_order inv trace).
  - destruct (base_import_ok hash_order tag_order Hhash Htag inv trace now _ p t Hp (Hadm p t Ht) Hg Hb)
      as (p2&r2&used'&Hrun2&_&Hp2&_). rewrite Hrun in Hrun2. injection Hrun2 as <- <-. by eapply pool_trace.
  - destruct (pool_remove_subtree_ok hash_order tag_order Hhash Htag inv trace _ p hashes Hp) as (p2&txs2&Hrun2&Hp2&_).
    rewrite Hrun in Hrun2. injection Hrun2 as <- <-. by eapply pool_trace.
  - by eapply pool_trace, clear_future_ok.
  - destruct (enforce_limits_ok hash_order tag_order Hhash Htag inv trace _ p lr lf Hp Hlr Hlf) as (p2&xs&ys&Hrun2&Hp2&_).
    rewrite Hrun in Hrun2. injection Hrun2 as <- ->. by eapply pool_trace.
  - destruct (pool_prune_tags_ok hash_order tag_order Hhash Htag inv trace _ p tags Hp Hb) as (p2&s2&used'&Hrun2&_&Hp2&_).
    rewrite Hrun in Hrun2. injection Hrun2 as <- <-. by eapply pool_trace.
  - destruct p. by eapply pool_ok_slots.
Qed.

(** Whatever is imported, all but the links is right; the links are right too
    if no trace was left of what was imported. *)
Lemma hist_loose p : pool_hist any_import p → pool_ok loose_ok (dom (ready (pool_ready p))) p.
Proof using Hhash Htag.
  apply (hist_ok loose_ok (λ q, dom (ready q)) (ReadyInvariant0 := loose_invariant hash_order Hhash)).
  intros q t _ Hin. by apply elem_of_union_l.
Qed.

Lemma hist_exact p : pool_hist untraced p → pool_ok ready_ok (traces (pool_ready p)) p.
Proof using Hhash Htag. apply (hist_ok ready_ok traces (ReadyInvariant0 := exact_invariant hash_order Hhash)). done. Qed.

(** ** Theorems *)

(** C6. Whatever well-formed transactions are imported, removed and pruned, and
    imported again, no operation of the pool panics or fails to end.  Each
    transaction is in one of the two queues at most, a waiting transaction
    misses some tag, and the index of the provided tags is exactly that of
    the ready transactions, of which therefore no two provide the same tag.
    Well-formed ([good]) are the transactions that provide no tag twice and
    none that they require: the pool panics on others.  The insertion ids do
    not reach 2^64. *)
Theorem pool_safe p :
  pool_hist any_import p →
  (∀ h, is_Some (ready (pool_ready p) !! h) → waiting (pool_future p) !! h = None) ∧
  (∀ h w, waiting (pool_future p) !! h = Some w → tx_hash (wt_transaction w) = h ∧ missing_tags w ≠ ∅) ∧
  (∀ tag h, provided_tags (pool_ready p) !! tag = Some h ↔
    ∃ r, ready (pool_ready p) !! h = Some r ∧ tag ∈ provides (tx_of r)) ∧
  (∀ now t, good t → budget p [] + 1 < 2 ^ 64 →
    ∃ p' r, base_import hash_order tag_order now p t = Some (p', r) ∧ r ≠ Panic) ∧
  (∀ tags, budget p [] < 2 ^ 64 → ∃ p' s, pool_prune_tags hash_order p tags = Some (Ok (p', s))) ∧
  (∀ hashes, is_Some (pool_remove_subtree tag_order p hashes)) ∧
  (∀ lr lf, limit_ok lr → limit_ok lf → is_Some (enforce_limits hash_order tag_order p lr lf)).
Proof using Hhash Htag.
  pose proof (loose_invariant hash_order Hhash : ReadyInvariant (Tag := Tag) (Ex := Ex) hash_order _ _) as Hinv.
  intros Hp%hist_loose. split_and!.
  - intros h [r Hr]. destruct (waiting (pool_future p) !! h) eqn:Hw; [|done]. apply (po_waiting _ _ _ Hp) in Hw as [Hw _].
    destruct Hw. apply elem_of_dom. by eexists.
  - apply (fo_waiting _ (po_future _ _ _ Hp)).
  - apply (ls_provided _ _ (po_ready _ _ _ Hp)).
  - intros now t Hg Hb.
    destruct (base_import_ok hash_order tag_order Hhash Htag _ _ now _ p t Hp) as (p'&r&used'&Hrun&_&_&_&_&_&Hres); [|done|done|].
    { intros Hx. by apply elem_of_union_l. }
    exists p', r. split; [done|]. intros ->. unfold base_result in Hres. case_decide; [by destruct Hres as (_&?&_)|].
    destruct (is_ready _); [done|]. destruct (reject_future_transactions p); [by destruct Hres as (_&?&_)|by destruct Hres].
  - intros tags Hb. destruct (pool_prune_tags_ok hash_order tag_order Hhash Htag _ _ _ p tags Hp Hb) as (p'&s&?&?&_). by exists p', s.
  - intros hashes. destruct (pool_remove_subtree_ok hash_order tag_order Hhash Htag _ _ _ p hashes Hp) as (p'&txs&?&_). by eexists.
  - intros lr lf Hlr Hlf. destruct (enforce_limits_ok hash_order tag_order Hhash Htag _ _ _ p lr lf Hp Hlr Hlf) as (p'&xs&ys&?&_). by eexists.
Qed.


(** C16. The iterator over the ready transactions comes to an end.  It returns
    transactions of the ready queue, none of them twice, each one after all
    the transactions imported before it that provide a tag it requires.  What
    it returns next is always the best of those whose requirements were
    returned, and at the end there is none of these left.  This is for pools
    in which no transaction was imported while the ready queue still referred
    to it ([untraced]): a removed transaction stays on the lists of those it
    required, and a pruned one among the best, and one that is imported again
    then is counted twice ([removed_and_imported_again],
    [pruned_and_imported_again]).  The transactions are well-formed. *)
Theorem ready_iterator_correct p :
  pool_hist untraced p →
  let q := pool_ready p in
  let L := map tx_hash (pool_ready_iter p) in
  NoDup L ∧
  (∀ t, t ∈ pool_ready_iter p → ∃ r, ready q !! tx_hash t = Some r ∧ t = tx_of r) ∧
  (∀ i x rx y ry tag, L !! i = Some x → ready q !! x = Some rx → ready q !! y = Some ry →
    tag ∈ provides (tx_of ry) → tag ∈ requires (tx_of rx) →
    insertion_id (rt_transaction ry) < insertion_id (rt_transaction rx) → y ∈ take i L) ∧
  (∀ i x rx y ry, L !! i = Some x → ready q !! x = Some rx → ready q !! y = Some ry → available q (take i L) y →
    y = x ∨ ref_cmp (rt_transaction ry) (rt_transaction rx) = Lt) ∧
  (∀ y, ¬ available q L y).
Proof using Hhash Htag.
  intros [Hp _ _]%hist_exact q L.
  destruct (iter_take_ok _ q Hp (S (size (ready q))) [] (iter_get q) (iterating_start _ _ Hp)) as (G1&G2&G3&G4); [cbn; lia|].
  split_and!; [done| | | |done].
  - intros t Ht. rewrite Forall_forall in G1. by apply G1.
  - intros i x rx y ry tag Hx Hrx Hry Ht1 Ht2 Hid. destruct (G4 i x Hx) as [(_&_&Hav) _]. apply (Hav y ry Hry).
    by apply (ro_complete _ _ Hp tag y ry x rx).
  - intros i x rx y ry Hx Hrx Hry Hav. destruct (G4 i x Hx) as [_ Hb]. by apply (Hb y rx ry).
Qed.

(** Removing transactions removes them and the ready transactions that they
    list, directly or through others, and nothing else: the other
    transactions stay as they were. *)
Theorem pool_remove_subtree_correct p hashes :
  pool_hist any_import p →
  ∃ p' txs, pool_remove_subtree tag_order p hashes = Some (p', txs) ∧ removed_from p p' txs ∧
    ∀ y, y ∈ hashes_of txs ↔ removal p hashes y.
Proof using Hhash Htag.
  pose proof (loose_invariant hash_order Hhash : ReadyInvariant (Tag := Tag) (Ex := Ex) hash_order _ _) as Hinv.
  intros Hp%hist_loose. destruct (pool_remove_subtree_ok hash_order tag_order Hhash Htag _ _ _ p hashes Hp) as (p'&txs&?&_&?&?).
  by exists p', txs.
Qed.

(** What a ready transaction lists requires one of its tags. *)
Lemma falls_leads seen (q : ReadyTransactions (Hash := Hash) (Tag := Tag) (Ex := Ex)) x y :
  ready_ok seen q → rtc (falls None q) x y → is_Some (ready q !! y) → rtc (leads q) x y.
Proof using. clear Hhash Htag.
  intros Hq Hxy Hy. induction Hxy as [|x z y (r&Hx&_&Hz) Hzy IH]; [apply rtc_refl|].
  eapply rtc_l; [|by apply IH]. assert (is_Some (ready q !! z)) as [rz Hrz].
  { inversion Hzy as [|? ? ? (?&?&_)]; subst; [done|by eexists]. }
  destruct (ro_links _ _ Hq x r z rz Hx Hrz Hz) as (tag&?&?). by exists r, rz, tag.
Qed.


(** Pruning tags removes the providers of these tags and only transactions
    that lead to them through required tags.  If every waiting transaction
    that became ready was imported, all the other transactions are still in
    the pool or reported as thrown out.  The tags are remembered in the next
    of the two slots. *)
Theorem prune_tags_correct p tags :
  pool_hist any_import p → budget p [] < 2 ^ 64 →
  ∃ p' s, pool_prune_tags hash_order p tags = Some (Ok (p', s)) ∧ prune_result p p' tags s.
Proof using Hhash Htag.
  pose proof (loose_invariant hash_order Hhash : ReadyInvariant (Tag := Tag) (Ex := Ex) hash_order _ _) as Hinv.
  intros Hp%hist_loose Hb.
  destruct (pool_prune_tags_ok hash_order tag_order Hhash Htag _ _ _ p tags Hp Hb) as (p'&s&_&?&_&_&_&_&?). by exists p', s.
Qed.

(** A transaction enters the ready queue in place of others that provide one
    of its tags exactly if its priority is above the sum of theirs, and they
    go together with the transactions that depend on a tag it does not
    provide itself; otherwise the queue stays the same. *)
Theorem ready_import_correct p w :
  pool_hist any_import p → is_ready w = true → ready (pool_ready p) !! tx_hash (wt_transaction w) = None →
  good (wt_transaction w) → next_id (pool_ready p) + 1 < 2 ^ 64 →
  let q := pool_ready p in
  let t := wt_transaction w in
  let old := Z.min (2 ^ 64 - 1) (sum_of (priority ∘ tx_of) (rivals hash_order q t)) in
  ∃ q' r, ready_import hash_order q w = Some (q', r) ∧
  match r with
  | Ok txs => (rivals hash_order q t = [] ∨ old < priority t) ∧
      ∃ R, collected q R txs ∧
        (∀ y, y ∈ R ↔ is_Some (ready q !! y) ∧
          ∃ x, x ∈ replace_hashes q t ∧ rtc (falls (Some (list_to_set (provides t))) q) x y) ∧
        ∀ x, rt_transaction <$> ready q' !! x =
          if decide (x = tx_hash t) then Some (MkTransactionRef t (next_id q + 1))
          else if decide (x ∈ R) then None else rt_transaction <$> ready q !! x
  | Err e => ready q' = ready q ∧ provided_tags q' = provided_tags q ∧ best q' = best q ∧
      e = TooLowPriority old (priority t) ∧ priority t ≤ old ∧ rivals hash_order q t ≠ []
  | Panic => False
  end.
Proof using Hhash Htag.
  intros Hp%hist_loose Hr Hn Hg Hid q t old. apply not_elem_of_dom in Hn.
  destruct (ready_import_ok hash_order Hhash _ q w (po_ready _ _ _ Hp) Hr Hn Hg Hid) as (q'&r&Hrun&Hres).
  exists q', r. split; [done|]. destruct r as [txs|e|]; [| |done].
  - by destruct Hres as (_&_&_&?&?).
  - destruct Hres as (->&?&?&?). done.
Qed.
End history.

(** ** Small pools *)

Module SmallPool.
Abbreviation tx := (Transaction (Hash := Z) (Tag := Z) (Ex := unit)).
Abbreviation pool := (BasePool (Hash := Z) (Tag := Z) (Ex := unit)).

Definition mk (h p : Z) (req prov : list Z) : tx := MkTransaction () 1 h p 64 req prov true.

Definition import (p : pool) (t : tx) := base_import elements elements 7 p t.

(** The pool after some imports. *)
Definition imports (p : pool) (ts : list tx) : pool :=
  foldl (λ p t, match import p t with Some (p', _) => p' | None => p end) p ts.

Definition hashes (p : pool) : list Z := map tx_hash (pool_ready_iter p).

Definition removed (p : pool) (hs : list Z) : pool :=
  match pool_remove_subtree elements p hs with Some (p', _) => p' | None => p end.
Definition pruned (p : pool) (tags : list Z) : pool :=
  match pool_prune_tags elements p tags with Some (Ok (p', _)) => p' | _ => p end.

Definition a := mk 1 5 [] [10].
Definition b := mk 2 5 [10] [20].
Definition c := mk 3 5 [30] [40].
Definition d := mk 4 9 [] [20].

(** A transaction, one that depends on it and one that waits. *)
Definition abc : pool := imports (pool_new false) [a; b; c].

(** The first two are removed and come again. *)
Definition abc_again : pool := imports (removed abc [1]) [a; b].

(** The second one is removed and comes again, while the first one still lists
    it. *)
Definition abc_stale : pool := imports (removed abc [2]) [b].

Ltac good_tx := split_and!; [apply (bool_decide_unpack _); vm_compute; exact I|cbn; set_solver|unfold fits; cbn; lia].
Ltac no_trace := intros Hin; exfalso; revert Hin; apply (bool_decide_unpack _); vm_compute; exact I.

Section small_histories.
Context (admits : pool → tx → Prop) (Hadmits : ∀ p t, untraced p t → admits p t).
Abbreviation hist := (pool_hist elements elements admits).

Lemma import_step p t p' r :
  hist p → admits p t → good t → budget p [] + 1 < 2 ^ 64 → import p t = Some (p', r) → hist p'.
Proof. intros Hp Ha Hg Hb Hi. by apply (ph_import elements elements admits p 7 t p' r). Qed.

Lemma abc_hist : hist abc.
Proof using Hadmits.
  eapply (import_step (imports (pool_new false) [a; b]) c); [|apply Hadmits; no_trace|good_tx|vm_compute; reflexivity..].
  eapply (import_step (imports (pool_new false) [a]) b); [|apply Hadmits; no_trace|good_tx|vm_compute; reflexivity..].
  eapply (import_step (pool_new false) a); [apply ph_new|apply Hadmits; no_trace|good_tx|vm_compute; reflexivity..].
Qed.

Lemma abc_again_hist : hist abc_again.
Proof using Hadmits.
  eapply (import_step (imports (removed abc [1]) [a]) b); [|apply Hadmits; no_trace|good_tx|vm_compute; reflexivity..].
  eapply (import_step (removed abc [1]) a); [|apply Hadmits; no_trace|good_tx|vm_compute; reflexivity..].
  eapply (ph_remove elements elements admits abc [1]); [apply abc_hist|vm_compute; reflexivity].
Qed.
End small_histories.

Lemma abc_stale_hist : pool_hist elements elements any_import abc_stale.
Proof.
  eapply (import_step any_import (removed abc [2]) b); [|exact I|good_tx|vm_compute; reflexivity..].
  eapply (ph_remove elements elements any_import abc [2]); [by apply abc_hist|vm_compute; reflexivity].
Qed.

Lemma good_d : good d.
Proof. good_tx. Qed.

Lemma elements_order `{Countable A} (s : gset A) : elements s ≡ₚ elements s.
Proof. done. Qed.

Lemma pool_safe_witness :
  pool_hist elements elements any_import abc_stale ∧ is_Some (pool_remove_subtree elements abc_stale [1]) ∧
  ∃ p' r, import abc_stale d = Some (p', r) ∧ r ≠ Panic.
Proof.
  split; [apply abc_stale_hist|].
  destruct (pool_safe elements elements elements_order elements_order abc_stale abc_stale_hist) as (_&_&_&H1&_&H2&_).
  split; [apply H2|]. apply H1; [apply good_d|by vm_compute].
Defined.


Lemma ready_iterator_correct_witness :
  pool_hist elements elements untraced abc_again ∧ hashes abc_again = [1; 2] ∧ 1 ∈ take 1 (hashes abc_again).
Proof.
  assert (pool_hist elements elements untraced abc_again) as Hp by (by apply abc_again_hist).
  split_and!; [done|by vm_compute|].
  destruct (ready_iterator_correct elements elements elements_order elements_order abc_again Hp) as (_&_&H&_).
  destruct (ready (pool_ready abc_again) !! 1) as [ra|] eqn:Ha; [|vm_compute in Ha; discriminate].
  destruct (ready (pool_ready abc_again) !! 2) as [rb|] eqn:Hb; [|vm_compute in Hb; discriminate].
  apply (H 1%nat 2 rb 1 ra 10); [by vm_compute|done|done|..]; vm_compute in Ha, Hb; simplify_eq; cbn; [by left|by left|lia].
Defined.

Lemma pool_remove_subtree_correct_witness :
  ∃ p' txs, pool_remove_subtree elements abc_stale [1] = Some (p', txs) ∧ removed_from abc_stale p' txs ∧ 1 ∈ hashes_of txs.
Proof.
  destruct (pool_remove_subtree_correct elements elements elements_order elements_order abc_stale [1] abc_stale_hist) as (p'&txs&Hrun&Hrm&H).
  exists p', txs. split_and!; [assumption..|]. apply H. left. split; [by vm_compute|by left].
Defined.


Lemma prune_tags_correct_witness :
  ∃ p' s, pool_prune_tags elements abc_stale [20] = Some (Ok (p', s)) ∧ prune_result abc_stale p' [20] s ∧ 2 ∈ hashes_of (ps_pruned s).
Proof.
  destruct (prune_tags_correct elements elements elements_order elements_order abc_stale [20] abc_stale_hist) as (p'&s&Hrun&Hres); [by vm_compute|].
  exists p', s. split_and!; [assumption..|]. apply (pr_providers _ _ _ _ Hres 20); [by left|by vm_compute].
Defined.

Lemma ready_import_correct_witness :
  let w := MkWaitingTransaction d ∅ 7 in
  is_ready w = true ∧ ∃ q' r, ready_import elements (pool_ready abc_stale) w = Some (q', r) ∧ r ≠ Panic.
Proof.
  split; [by vm_compute|].
  destruct (ready_import_correct elements elements elements_order elements_order abc_stale (MkWaitingTransaction d ∅ 7) abc_stale_hist)
    as (q'&r&?&Hres); [by vm_compute|by vm_compute|apply good_d|by vm_compute|]. exists q', r. split; [done|]. by intros ->.
Defined.

(** *** What goes wrong when transactions come again or are not well-formed *)

(** The list of unlocked transactions keeps a transaction that was removed.
    When it is imported again it is listed twice: the iterator returns it
    before one that it requires, and once more. *)
Lemma removed_and_imported_again :
  let t := mk 2 5 [10; 11] [12] in
  let p := imports (pool_new false) [mk 1 9 [] [10]; mk 4 1 [] [11]; t] in
  hashes p = [1; 4; 2] ∧ hashes (imports (removed p [2]) [t]) = [1; 2; 4; 2].
Proof. by vm_compute. Qed.

(** A transaction that comes again with other requirements is still on the old
    list, and goes with a transaction it does not depend on. *)
Lemma stale_list_evicts_unrelated :
  let p := imports (removed (imports (pool_new false) [a; b]) [2]) [mk 2 5 [] [20]] in
  map tx_hash <$> (snd <$> enforce_limits elements elements p (MkLimit 1 100) (MkLimit 1 100)) = Some [1; 2].
Proof. by vm_compute. Qed.

(** A pruned transaction stays in the set of the best ones. *)
Lemma pruned_and_imported_again : hashes (imports (pruned (imports (pool_new false) [a]) [10]) [a]) = [1; 1].
Proof. by vm_compute. Qed.

(** A tag that is provided twice. *)
Lemma duplicate_tag_panics :
  pool_prune_tags elements (imports (pool_new false) [mk 1 5 [] [10; 11; 11]]) [10] = Some Panic.
Proof. by vm_compute. Qed.

(** A transaction that requires what it provides. *)
Lemma self_requirement_panics : snd <$> import (imports (pool_new false) [a]) (mk 2 9 [10] [10]) = Some Panic.
Proof. by vm_compute. Qed.

(** An import that fails loses the waiting transactions that it satisfied. *)
Lemma failed_import_loses_waiting :
  let p := imports (pool_new false) [a; mk 3 5 [20] [30]] in
  snd <$> import p (mk 2 1 [] [10; 20]) = Some (Err (TooLowPriority 5 1)) ∧
  3 ∈ members p ∧ (3 ∉ members (imports p [mk 2 1 [] [10; 20]])).
Proof. split_and!; by vm_compute. Qed.

(** A transaction that replaces one it depends on closes a cycle: both stay
    in the ready queue and the iterator returns none of them. *)
Lemma replacement_closes_cycle :
  let p := imports (pool_new false) [a; b; mk 3 9 [20] [10]] in
  hashes p = [] ∧ 2 ∈ members p ∧ 3 ∈ members p.
Proof. split_and!; by vm_compute. Qed.
End SmallPool.
