(* ===== verification/BigUint.v ===== *)
(** * Big unsigned integers (src/primitives/arithmetic/src/biguint.rs)

    Numbers in base [2 ^ 32], the most significant limb first.  An arithmetic
    operation on machine integers that overflows is a panic here, as in a build
    with overflow checks. *)
From S2P Require Import Prelude.

Local Open Scope Z_scope.

(** ** Limbs *)

Definition SHIFT : Z := 32.
Definition B : Z := 2 ^ 32.

Definition split (a : Z) : Z * Z := (wrap 32 (Z.shiftr a SHIFT), wrap 32 a).

Definition mul_single (a b : Z) : run Z := expect (checked_mul 64 a b).

Definition add_single (a b : Z) : run (Z * Z) :=
  q ← expect (checked_add 64 a b);
  let '(carry, r) := split q in Ok (r, carry).

Definition div_single (a b : Z) : run (Z * Z) :=
  if b =? 0 then Panic else Ok (a / b, wrap 32 (a mod b)).

(** ** Numbers *)

Record BigUint : Type := MkBigUint { digits : list Z }.

Definition with_capacity (size : nat) : BigUint := MkBigUint (replicate (size `max` 1) 0).

Definition big_zero : BigUint := MkBigUint [0].

Definition is_zero (x : BigUint) : bool := forallb (λ d, d =? 0) (digits x).

Definition from_limbs (limbs : list Z) : BigUint :=
  match limbs with [] => big_zero | _ => MkBigUint limbs end.

Definition from_single (a : Z) : BigUint := MkBigUint [a].
Definition from_double (a : Z) : BigUint := let '(ah, al) := split a in MkBigUint [ah; al].

Definition len (x : BigUint) : nat := length (digits x).

(** Limbs are numbered from the least significant one. *)
Definition get (x : BigUint) (index : nat) : run Z :=
  if decide (index < len x)%nat then expect (digits x !! (len x - 1 - index)%nat) else Panic.

Definition checked_get (x : BigUint) (index : nat) : option Z :=
  if decide (1 ≤ len x)%nat then
    if decide (index ≤ len x - 1)%nat then digits x !! (len x - 1 - index)%nat else None
  else None.

Definition set (x : BigUint) (index : nat) (v : Z) : run BigUint :=
  if decide (index < len x)%nat then Ok (MkBigUint (<[(len x - 1 - index)%nat := v]> (digits x))) else Panic.

Definition lsb (x : BigUint) : run Z := if decide (1 ≤ len x)%nat then expect (digits x !! (len x - 1)%nat) else Panic.
Definition msb (x : BigUint) : run Z := expect (digits x !! 0%nat).

Definition lstrip (x : BigUint) : BigUint :=
  if decide (len x = 0)%nat then x
  else
    let index := default 0%nat (position (λ e, negb (e =? 0)) (digits x)) in
    if decide (0 < index)%nat then MkBigUint (drop index (digits x)) else x.

Definition lpad (x : BigUint) (size : nat) : BigUint :=
  if decide (size ≤ len x)%nat then x else MkBigUint (replicate (size - len x) 0 ++ digits x).

(** ** Addition *)

Definition add_step (x y : BigUint) (s : BigUint * Z) (j : nat) : run (BigUint * Z) :=
  let '(w, k) := s in
  let u := default 0 (checked_get x j) in
  let v := default 0 (checked_get y j) in
  uv ← expect (checked_add 64 u v);
  s ← expect (checked_add 64 uv k);
  w' ← set w j (wrap 32 (s mod B));
  Ok (w', s / B).

Definition add (x y : BigUint) : run BigUint :=
  let n := (len x `max` len y)%nat in
  '(w, k) ← foldl_m (add_step x y) (with_capacity (n + 1), 0) (seq 0 n);
  set w n (wrap 32 k).

(** ** Subtraction *)

Definition sub_step (x y : BigUint) (s : BigUint * Z) (j : nat) : run (BigUint * Z) :=
  let '(w, k) := s in
  let u := default 0 (checked_get x j) in
  let v := default 0 (checked_get y j) in
  '(t, k') ←
    match d ← checked_sub u v; checked_sub d k with
    | Some v2 => Ok (v2 mod B, 0)
    | None =>
        uB ← expect (checked_add 64 u B);
        uBv ← expect (checked_sub uB v);
        t ← expect (checked_sub uBv k);
        Ok (t, 1)
    end;
  w' ← set w j (wrap 32 t);
  Ok (w', k').

(** [inl] is the [Ok] of the code: the difference; [inr] is its [Err]: what is
    left when a borrow is missing. *)
Definition sub (x y : BigUint) : run (BigUint + BigUint) :=
  let n := (len x `max` len y)%nat in
  '(w, k) ← foldl_m (sub_step x y) (with_capacity n, 0) (seq 0 n);
  Ok (if k =? 0 then inl w else inr w).

Definition sub_op (x y : BigUint) : run BigUint :=
  r ← sub x y;
  Ok (match r with inl w => w | inr w => w end).

(** ** Multiplication *)

Definition mul_inner (xj : Z) (y : BigUint) (j : nat) (s : BigUint * Z) (i : nat) : run (BigUint * Z) :=
  let '(w, k) := s in
  yi ← get y i;
  p ← mul_single xj yi;
  wij ← get w (i + j);
  t1 ← expect (checked_add 64 p wij);
  t ← expect (checked_add 64 t1 k);
  w' ← set w (i + j) (wrap 32 (t mod B));
  Ok (w', wrap 32 (t / B)).

Definition mul_outer (x y : BigUint) (w : BigUint) (j : nat) : run BigUint :=
  xj ← get x j;
  if xj =? 0 then Ok w
  else
    '(w', k) ← foldl_m (mul_inner xj y j) (w, 0) (seq 0 (len y));
    set w' (j + len y) k.

Definition mul (x y : BigUint) : run BigUint :=
  foldl_m (mul_outer x y) (with_capacity (len y + len x)) (seq 0 (len x)).

(** ** Division by a limb *)

Definition div_unit_step (x : BigUint) (other : Z) (s : BigUint * Z) (d : nat) : run (BigUint * Z) :=
  let '(out, r) := s in
  xd ← get x d;
  rB ← expect (checked_mul 64 r B);
  a ← expect (checked_add 64 rB xd);
  '(q, rr) ← div_single a other;
  out' ← set out d (wrap 32 q);
  Ok (out', rr).

Definition div_unit (x : BigUint) (other : Z) : run BigUint :=
  let other := Z.max other 1 in
  '(out, _) ← foldl_m (div_unit_step x other) (with_capacity (len x), 0) (reverse (seq 0 (len x)));
  Ok out.

(** ** Division *)

(** [u32::leading_zeros] *)
Definition leading_zeros (x : Z) : Z := if x =? 0 then 32 else 31 - Z.log2 x.

(** The test of an estimated digit [qhat]: it may be decreased. *)
Definition test_qhat (self_norm other_norm : BigUint) (n j : nat) (qhat rhat : Z) : run (Z * Z * bool) :=
  v1 ← get other_norm (n - 2);
  lhs ← expect (checked_mul 64 qhat v1);
  Br ← expect (checked_mul 64 B rhat);
  u2 ← get self_norm (j + n - 2);
  rhs ← expect (checked_add 64 Br u2);
  if (B <=? qhat) || (rhs <? lhs) then
    qhat' ← expect (checked_sub qhat 1);
    v0 ← get other_norm (n - 1);
    rhat' ← expect (checked_add 64 rhat v0);
    Ok (qhat', rhat', true)
  else Ok (qhat, rhat, false).

(** [while rhat < B { if !test() { break; } }]; [None] is running out of fuel. *)
Fixpoint test_loop (fuel : nat) (self_norm other_norm : BigUint) (n j : nat) (qhat rhat : Z) : option (run Z) :=
  if rhat <? B then
    match fuel with
    | O => None
    | S fuel' =>
        match test_qhat self_norm other_norm n j qhat rhat with
        | Ok (qhat', rhat', true) => test_loop fuel' self_norm other_norm n j qhat' rhat'
        | Ok (qhat', _, false) => Some (Ok qhat')
        | Err e => Some (Err e)
        | Panic => Some Panic
        end
    end
  else Some (Ok qhat).

(** Each round adds at least [B / 2] to [rhat]. *)
Definition test_fuel : nat := 3.

(** The estimate of the digit [j]. *)
Definition estimate (self_norm other_norm : BigUint) (n j : nat) : option (run Z) :=
  match
    (u0 ← get self_norm (j + n);
     u0B ← expect (checked_mul 64 u0 B);
     u1 ← get self_norm (j + n - 1);
     dividend ← expect (checked_add 64 u0B u1);
     divisor ← get other_norm (n - 1);
     '(qhat, rhat) ← div_single dividend divisor;
     test_qhat self_norm other_norm n j qhat rhat)
  with
  | Ok (qhat, rhat, _) => test_loop test_fuel self_norm other_norm n j qhat rhat
  | Err e => Some (Err e)
  | Panic => Some Panic
  end.

(** The limbs [j], ..., [j + n]. *)
Definition limbs_at (x : BigUint) (j n : nat) : run BigUint :=
  ds ← mapM (get x) (reverse (seq j (S n)));
  Ok (MkBigUint ds).

(** Copies the limbs of [src] to the places from [j] on. *)
Definition put_step (src : BigUint) (j : nat) (x : BigUint) (d : nat) : run BigUint :=
  v ← get src (d - j);
  set x d v.
Definition put_limbs (x src : BigUint) (ds : list nat) (j : nat) : run BigUint := foldl_m (put_step src j) x ds.

(** The digit [j] of the quotient. *)
Definition div_step (other_norm : BigUint) (n : nat) (s : BigUint * BigUint) (j : nat) : option (run (BigUint * BigUint)) :=
  let '(self_norm, q) := s in
  qhat ← estimate self_norm other_norm n j;
  Some (
    qhat ← qhat;
    lhs ← limbs_at self_norm j n;
    rhs ← mul other_norm (from_double qhat);
    maybe_sub ← sub lhs rhs;
    let '(t, negative) := match maybe_sub with inl t => (t, false) | inr t => (t, true) end in
    self_norm1 ← put_limbs self_norm t (seq j (S n)) j;
    q1 ← set q j (wrap 32 qhat);
    if (negative : bool) then
      qj ← get q1 j;
      qj' ← expect (checked_sub qj 1);
      q2 ← set q1 j qj';
      u ← limbs_at self_norm1 j n;
      r ← add other_norm u;
      self_norm2 ← put_limbs self_norm1 r (reverse (seq j (S n))) j;
      Ok (self_norm2, q2)
    else Ok (self_norm1, q1)).

Fixpoint div_loop (other_norm : BigUint) (n : nat) (s : BigUint * BigUint) (js : list nat) :
    option (run (BigUint * BigUint)) :=
  match js with
  | [] => Some (Ok s)
  | j :: js' =>
      r ← div_step other_norm n s j;
      match r with
      | Ok s' => div_loop other_norm n s' js'
      | x => Some x
      end
  end.

(** One limb of the remainder, shifted back. *)
Definition unshift_step (self_norm : BigUint) (nb : Z) (r : BigUint) (d : nat) : run BigUint :=
  lo ← get self_norm d;
  hi ← get self_norm (d + 1);
  set r d (Z.lor (Z.shiftr lo nb) (wrap 32 (Z.shiftl hi (SHIFT - nb)))).

(** [None] is running out of fuel, [Ok None] is the [None] of the code. *)
Definition div (x y : BigUint) (rem : bool) : option (run (option (BigUint * BigUint))) :=
  let pre :=
    (if decide (len y ≤ 1)%nat then Ok true
     else
       my ← msb y;
       if my =? 0 then Ok true
       else
         mx ← msb x;
         Ok ((mx =? 0) || bool_decide (len x ≤ len y)%nat)) : run bool in
  match pre with
  | Err e => Some (Err e)
  | Panic => Some Panic
  | Ok true => Some (Ok None)
  | Ok false =>
      let n := len y in
      let m := (len x - n)%nat in
      match
        (my ← msb y;
         let normalizer_bits := leading_zeros my in
         normalizer ← (if normalizer_bits <? 32 then Ok (2 ^ normalizer_bits) else Panic);
         self_norm ← mul x (from_single normalizer);
         other_norm ← mul y (from_single normalizer);
         Ok (normalizer_bits, lpad self_norm (n + m + 1), lstrip other_norm))
      with
      | Err e => Some (Err e)
      | Panic => Some Panic
      | Ok (nb, self_norm, other_norm) =>
          r ← div_loop other_norm n (self_norm, with_capacity (m + 1)) (reverse (seq 0 (m + 1)));
          Some (
            '(self_norm', q) ← r;
            if rem then
              if 0 <? nb then
                r ← foldl_m (unshift_step self_norm' nb) (with_capacity n) (seq 0 (n - 1));
                top ← get self_norm' (n - 1);
                r' ← set r (n - 1) (Z.shiftr top nb);
                Ok (Some (q, r'))
              else Ok (Some (q, self_norm'))
            else Ok (Some (q, with_capacity n)))
      end
  end.

(** ** Comparison *)

(** [Ord] of slices. *)
Fixpoint slice_cmp (a b : list Z) : comparison :=
  match a, b with
  | [], [] => Eq
  | [], _ :: _ => Lt
  | _ :: _, [] => Gt
  | x :: a', y :: b' => match x ?= y with Eq => slice_cmp a' b' | c => c end
  end.

Definition cmp (x y : BigUint) : comparison :=
  let first l := position (λ e, negb (e =? 0)) l in
  match first (digits x), first (digits y) with
  | None, None => Eq
  | Some _, None => Gt
  | None, Some _ => Lt
  | Some i, Some j =>
      let lhs := drop i (digits x) in
      let rhs := drop j (digits y) in
      match Nat.compare (length lhs) (length rhs) with
      | Eq => slice_cmp lhs rhs
      | c => c
      end
  end.

Definition big_eq (x y : BigUint) : bool := match cmp x y with Eq => true | _ => false end.

(** ** Conversion to a machine integer of [w] bits *)

Definition shift_in (w : Z) (acc : Z) (e : nat * Z) : run Z :=
  expect (checked_add w acc (wrap w (Z.shiftl e.2 (SHIFT * Z.of_nat e.1)))).

(** [None] is the error of the code. *)
Definition try_from (w : Z) (value : BigUint) : run (option Z) :=
  let value := lstrip value in
  if w <? Z.of_nat (len value) * SHIFT then Ok None
  else
    acc ← foldl_m (shift_in w) 0 (zip (seq 0 (len value)) (reverse (digits value)));
    Ok (Some acc).
