(* ===== verification/BigUintFacts.v ===== *)
(** * Correctness of the big integers *)
From S2P Require Import Prelude BigUint.

Local Open Scope Z_scope.

(** ** Values *)

(** The limbs, the least significant one first, and the number they stand for. *)
Definition le (x : BigUint) : list Z := reverse (digits x).

Definition lval (l : list Z) : Z := foldr (λ d acc, d + B * acc) 0 l.

Definition value (x : BigUint) : Z := lval (le x).

Definition limbs_ok (l : list Z) : Prop := Forall (fits 32) l.

Definition wf (x : BigUint) : Prop := limbs_ok (digits x).

(** Powers of the base. *)
Definition Bp (n : nat) : Z := B ^ Z.of_nat n.

Lemma Bp_0 : Bp 0 = 1.
Proof. done. Qed.

Lemma Bp_S n : Bp (S n) = B * Bp n.
Proof. unfold Bp. rewrite Nat2Z.inj_succ, Z.pow_succ_r; [done|lia]. Qed.

Lemma Bp_add m n : Bp (m + n) = Bp m * Bp n.
Proof. unfold Bp. rewrite Nat2Z.inj_add, Z.pow_add_r; [done|lia..]. Qed.

Lemma Bp_pos n : 0 < Bp n.
Proof. unfold Bp, B. apply Z.pow_pos_nonneg; lia. Qed.

Lemma B_pos : 0 < B.
Proof. done. Qed.

Lemma len_le x : len x = length (le x).
Proof. unfold len, le. by rewrite length_reverse. Qed.

Lemma wf_le x : wf x ↔ limbs_ok (le x).
Proof. unfold wf, limbs_ok, le. by rewrite reverse_Permutation. Qed.

Lemma lval_nil : lval [] = 0.
Proof. done. Qed.

Lemma lval_cons d l : lval (d :: l) = d + B * lval l.
Proof. done. Qed.

Lemma lval_app l l' : lval (l ++ l') = lval l + Bp (length l) * lval l'.
Proof.
  induction l as [|d l IH]; cbn [app length]; [rewrite Bp_0, lval_nil; lia|].
  rewrite !lval_cons, IH, Bp_S. ring.
Qed.

Lemma lval_take_S l j : lval (take (S j) l) = lval (take j l) + default 0 (l !! j) * Bp j.
Proof.
  destruct (l !! j) as [v|] eqn:Hv.
  - rewrite (take_S_r _ _ v Hv), lval_app, length_take_le by (apply lookup_lt_Some in Hv; lia). cbn [default]. rewrite lval_cons, lval_nil. unfold id. ring.
  - apply lookup_ge_None_1 in Hv. rewrite !take_ge by lia. cbn. lia.
Qed.

Lemma lval_bound l : limbs_ok l → 0 ≤ lval l < Bp (length l).
Proof.
  induction 1 as [|d l Hd Hl IH]; cbn [length]; [by rewrite Bp_0|]. rewrite lval_cons, Bp_S.
  unfold fits in Hd. fold B in Hd. pose proof B_pos. nia.
Qed.

Lemma lval_take_bound l j : limbs_ok l → 0 ≤ lval (take j l) < Bp j.
Proof.
  intros Hl. assert (0 ≤ lval (take j l) < Bp (length (take j l))) as Hb by (by apply lval_bound, Forall_take).
  rewrite length_take in Hb. split; [lia|]. eapply Z.lt_le_trans; [apply Hb|].
  replace j with (Nat.min j (length l) + (j - Nat.min j (length l)))%nat at 2 by lia. rewrite Bp_add.
  pose proof (Bp_pos (Nat.min j (length l))). pose proof (Bp_pos (j - Nat.min j (length l))). nia.
Qed.

Lemma lval_replicate n : lval (replicate n 0) = 0.
Proof. induction n as [|n IH]; cbn [replicate]; [done|]. rewrite lval_cons. lia. Qed.

Lemma lval_split l j : lval l = lval (take j l) + Bp (Nat.min j (length l)) * lval (drop j l).
Proof. rewrite <- (take_drop j l) at 1. by rewrite lval_app, length_take. Qed.

Lemma limb_default l j : limbs_ok l → fits 32 (default 0 (l !! j)).
Proof.
  intros Hl. destruct (l !! j) as [v|] eqn:Hv; cbn; [|unfold fits; lia].
  by eapply Forall_lookup_1 in Hv.
Qed.

(** ** Access *)

Lemma reverse_insert {A} (l : list A) i v :
  (i < length l)%nat → reverse (<[(length l - 1 - i)%nat := v]> l) = <[i := v]> (reverse l).
Proof.
  intros Hi. apply list_eq. intros k. destruct (decide (k < length l)%nat) as [Hk|Hk].
  - rewrite reverse_lookup by (by rewrite length_insert). rewrite length_insert. destruct (decide (k = i)) as [->|Hne].
    + rewrite list_lookup_insert_eq by (rewrite length_reverse; lia).
      replace (length l - S i)%nat with (length l - 1 - i)%nat by lia. by rewrite list_lookup_insert_eq by lia.
    + rewrite !list_lookup_insert_ne by lia. by rewrite reverse_lookup by lia.
  - rewrite !lookup_ge_None_2; [done|rewrite length_insert, length_reverse; lia|rewrite length_reverse, length_insert; lia].
Qed.

Lemma get_le x i : get x i = match le x !! i with Some v => Ok v | None => Panic end.
Proof.
  unfold get, le, len. case_decide as Hi.
  - rewrite reverse_lookup by done. replace (length (digits x) - S i)%nat with (length (digits x) - 1 - i)%nat by lia.
    by destruct (digits x !! _).
  - rewrite lookup_ge_None_2 by (rewrite length_reverse; lia). done.
Qed.

Lemma get_Ok x i v : le x !! i = Some v → get x i = Ok v.
Proof. intros Hv. by rewrite get_le, Hv. Qed.

Lemma checked_get_le x i : checked_get x i = le x !! i.
Proof.
  unfold checked_get, le, len. repeat case_decide; try (symmetry; apply lookup_ge_None_2; rewrite length_reverse; lia).
  rewrite reverse_lookup by lia. f_equal. lia.
Qed.

Lemma set_le x i v : (i < len x)%nat → ∃ x', set x i v = Ok x' ∧ le x' = <[i := v]> (le x).
Proof.
  intros Hi. unfold set. rewrite decide_True by done. eexists. split; [done|]. unfold le. cbn. by apply reverse_insert.
Qed.

(** After a limb below [j] was set. *)
Lemma le_with_capacity n : le (with_capacity n) = replicate (n `max` 1) 0.
Proof. unfold le, with_capacity. cbn. apply reverse_replicate. Qed.

Lemma limbs_ok_insert l i v : limbs_ok l → fits 32 v → limbs_ok (<[i := v]> l).
Proof. intros. by apply Forall_insert. Qed.

Lemma limbs_ok_zeros n : limbs_ok (replicate n 0).
Proof. apply Forall_replicate. unfold fits. lia. Qed.

Lemma take_insert_at (l : list Z) j v : (j < length l)%nat → lval (take (S j) (<[j := v]> l)) = lval (take j l) + v * Bp j.
Proof.
  intros Hj. rewrite lval_take_S, take_insert_ge by lia. by rewrite list_lookup_insert_eq by done.
Qed.

(** ** Machine arithmetic *)

Lemma ck_add a b : a + b < 2 ^ 64 → (expect (checked_add 64 a b) : run Z) = Ok (a + b).
Proof. intros. by rewrite checked_add_Some. Qed.

Lemma ck_mul a b : a * b < 2 ^ 64 → (expect (checked_mul 64 a b) : run Z) = Ok (a * b).
Proof. intros. by rewrite checked_mul_Some. Qed.

Lemma ck_sub a b : b ≤ a → (expect (checked_sub a b) : run Z) = Ok (a - b).
Proof. intros. by rewrite checked_sub_Some. Qed.

Lemma split_eq a : fits 64 a → split a = (a / B, a mod B).
Proof.
  intros Ha. unfold split, SHIFT. rewrite Z.shiftr_div_pow2 by lia. unfold wrap. f_equal.
  apply Z.mod_small. unfold fits, B in *. split; [apply Z.div_pos; lia|apply Z.div_lt_upper_bound; lia].
Qed.

Lemma mod_B_fits a : fits 32 (a mod B).
Proof. apply Z.mod_pos_bound. done. Qed.

Lemma wrap_mod_B a : wrap 32 (a mod B) = a mod B.
Proof. apply wrap_small, mod_B_fits. Qed.

Lemma div_mod_B a : a = a / B * B + a mod B.
Proof. pose proof (Z.div_mod a B). unfold B in *. lia. Qed.

(** ** Addition *)

Section add.
Context (x y : BigUint) (Hx : wf x) (Hy : wf y).

Lemma add_step_ok N w k j :
  length (le w) = N → (j < N)%nat → limbs_ok (le w) → 0 ≤ k ≤ 1 →
  lval (take j (le w)) + k * Bp j = lval (take j (le x)) + lval (take j (le y)) →
  ∃ w' k', add_step x y (w, k) j = Ok (w', k') ∧ length (le w') = N ∧ limbs_ok (le w') ∧ 0 ≤ k' ≤ 1 ∧
    lval (take (S j) (le w')) + k' * Bp (S j) = lval (take (S j) (le x)) + lval (take (S j) (le y)).
Proof using Hx Hy.
  intros Hn Hj Hw Hk Hv. unfold add_step. rewrite !checked_get_le.
  pose proof (limb_default (le x) j (proj1 (wf_le x) Hx)) as Hu. pose proof (limb_default (le y) j (proj1 (wf_le y) Hy)) as Hv'.
  rewrite (lval_take_S (le x)), (lval_take_S (le y)).
  set (u := default 0 (le x !! j)) in *. set (v := default 0 (le y !! j)) in *. clearbody u v. unfold fits in Hu, Hv'.
  rewrite ck_add by lia. cbn [mbind result_bind]. rewrite ck_add by lia. cbn [mbind result_bind]. rewrite wrap_mod_B.
  destruct (set_le w j ((u + v + k) mod B)) as (w'&->&Hw'); [by rewrite len_le, Hn|]. cbn [mbind result_bind].
  exists w', ((u + v + k) / B). rewrite Hw', length_insert. split_and!; [done|done| | | |].
  - by apply limbs_ok_insert; [|apply mod_B_fits].
  - apply Z.div_pos; unfold B; lia.
  - apply Z.lt_succ_r. apply Z.div_lt_upper_bound; unfold B; lia.
  - rewrite take_insert_at by lia. rewrite Bp_S. pose proof (div_mod_B (u + v + k)) as Hd.
    set (q := (u + v + k) / B) in *. set (r := (u + v + k) mod B) in *. clearbody q r. nia.
Qed.

Lemma add_ok : ∃ w, add x y = Ok w ∧ wf w ∧ len w = S (len x `max` len y) ∧ value w = value x + value y.
Proof using Hx Hy.
  unfold add. set (n := (len x `max` len y)%nat).
  set (P := λ j (s : BigUint * Z), length (le s.1) = S n ∧ limbs_ok (le s.1) ∧ 0 ≤ s.2 ≤ 1 ∧
    lval (take j (le s.1)) + s.2 * Bp j = lval (take j (le x)) + lval (take j (le y))).
  destruct (foldl_m_seq P (add_step x y) 0 n (with_capacity (n + 1), 0)) as ([w k]&Hrun&Hl&Hok&Hk&Hv).
  - unfold P. cbn [fst snd]. rewrite le_with_capacity, length_replicate. split_and!; [lia|apply limbs_ok_zeros|lia|lia|].
    cbn. done.
  - intros j [w k] Hj (H1&H2&H3&H4). cbn [fst snd] in *.
    destruct (add_step_ok (S n) w k j) as (w'&k'&?&?&?&?&?); [done|lia|done|done|done|]. exists (w', k'). done.
  - rewrite Hrun. cbn [mbind result_bind fst snd Nat.add] in *.
    rewrite (wrap_small 32 k) by (unfold fits; lia).
    destruct (set_le w n k) as (w'&->&Hw'); [rewrite len_le; lia|]. exists w'. split_and!; [done| | |].
    + apply wf_le. rewrite Hw'. apply limbs_ok_insert; [done|unfold fits; lia].
    + rewrite len_le, Hw', length_insert. lia.
    + unfold value. rewrite <- (take_ge (le w') (S n)), Hw' by (rewrite Hw', length_insert; lia).
      rewrite take_insert_at by lia. rewrite Hv, !take_ge by (rewrite <- len_le; lia). done.
Qed.
End add.

(** ** Subtraction *)

Section sub.
Context (x y : BigUint) (Hx : wf x) (Hy : wf y).

Lemma sub_step_ok N w k j :
  length (le w) = N → (j < N)%nat → limbs_ok (le w) → 0 ≤ k ≤ 1 →
  lval (take j (le w)) - k * Bp j = lval (take j (le x)) - lval (take j (le y)) →
  ∃ w' k', sub_step x y (w, k) j = Ok (w', k') ∧ length (le w') = N ∧ limbs_ok (le w') ∧ 0 ≤ k' ≤ 1 ∧
    lval (take (S j) (le w')) - k' * Bp (S j) = lval (take (S j) (le x)) - lval (take (S j) (le y)).
Proof using Hx Hy.
  intros Hn Hj Hw Hk Hv. unfold sub_step. rewrite !checked_get_le.
  pose proof (limb_default (le x) j (proj1 (wf_le x) Hx)) as Hu. pose proof (limb_default (le y) j (proj1 (wf_le y) Hy)) as Hv'.
  rewrite (lval_take_S (le x)), (lval_take_S (le y)).
  set (u := default 0 (le x !! j)) in *. set (v := default 0 (le y !! j)) in *. clearbody u v. unfold fits in Hu, Hv'.
  assert (∃ t k', (match d ← checked_sub u v; checked_sub d k with
    | Some v2 => Ok (v2 mod B, 0)
    | None => uB ← expect (checked_add 64 u B); uBv ← expect (checked_sub uB v); t ← expect (checked_sub uBv k); Ok (t, 1)
    end : run (Z * Z)) = Ok (t, k') ∧ 0 ≤ k' ≤ 1 ∧ fits 32 t ∧ t - k' * B = u - v - k) as (t&k'&->&Hk'&Ht&Heq).
  { destruct (decide (v + k ≤ u)) as [Hle|Hlt].
    - rewrite checked_sub_Some by lia. cbn. rewrite checked_sub_Some by lia.
      exists ((u - v - k) mod B), 0. rewrite Z.mod_small by (unfold B; lia). split_and!; [done|lia|lia|unfold fits; lia|lia].
    - assert ((d ← checked_sub u v; checked_sub d k) = None) as ->.
      { unfold checked_sub. destruct (Z.leb_spec v u); cbn; [|done]. destruct (Z.leb_spec k (u - v)); [lia|done]. }
      rewrite ck_add by (unfold B; lia). cbn [mbind result_bind]. rewrite ck_sub by (unfold B; lia). cbn [mbind result_bind].
      rewrite ck_sub by (unfold B; lia). exists (u + B - v - k), 1. split_and!; [done|lia|lia|..]; unfold fits, B in *; lia. }
  cbn [mbind result_bind]. rewrite (wrap_small 32 t) by done.
  destruct (set_le w j t) as (w'&->&Hw'); [by rewrite len_le, Hn|]. cbn [mbind result_bind].
  exists w', k'. rewrite Hw', length_insert. split_and!; [done|done|by apply limbs_ok_insert|lia|lia|].
  rewrite take_insert_at by lia. rewrite Bp_S. nia.
Qed.

Lemma sub_ok :
  ∃ w k, sub x y = Ok (if k =? 0 then inl w else inr w) ∧ wf w ∧ len w = ((len x `max` len y) `max` 1)%nat ∧ (0 ≤ k ≤ 1) ∧
    value w = value x - value y + k * Bp (len x `max` len y).
Proof using Hx Hy.
  unfold sub. set (n := (len x `max` len y)%nat).
  set (P := λ j (s : BigUint * Z), length (le s.1) = (n `max` 1)%nat ∧ limbs_ok (le s.1) ∧ 0 ≤ s.2 ≤ 1 ∧
    lval (take j (le s.1)) - s.2 * Bp j = lval (take j (le x)) - lval (take j (le y)) ∧
    ∀ i, (j ≤ i)%nat → default 0 (le s.1 !! i) = 0).
  destruct (foldl_m_seq P (sub_step x y) 0 n (with_capacity n, 0)) as ([w k]&Hrun&Hl&Hok&Hk&Hv&Hz).
  - unfold P. cbn [fst snd]. rewrite le_with_capacity, length_replicate. split_and!; [done|apply limbs_ok_zeros|lia|lia|cbn; done|].
    intros i _. destruct (replicate (n `max` 1) 0 !! i) eqn:Hi; [|done]. by apply lookup_replicate in Hi as [-> _].
  - intros j [w k] Hj (H1&H2&H3&H4&H5). cbn [fst snd] in *.
    destruct (sub_step_ok (n `max` 1)%nat w k j) as (w'&k'&Hs&?&?&?&?); [done|lia|done|done|done|]. exists (w', k'). split; [done|].
    unfold P. cbn [fst snd]. split_and!; [done|done|lia|lia|done|]. intros i Hi.
    assert (∃ t, le w' = <[j := t]> (le w)) as [t ->].
    { unfold sub_step in Hs. destruct (match _ with Some _ => _ | None => _ end) as [[t k1]| |]; cbn [mbind result_bind] in Hs; [|done..].
      destruct (set_le w j (wrap 32 t)) as (w1&Hw1&Hw1'); [rewrite len_le; lia|]. rewrite Hw1 in Hs. cbn [mbind result_bind] in Hs.
      injection Hs as <- <-. by eexists. }
    rewrite list_lookup_insert_ne by lia. apply H5. lia.
  - rewrite Hrun. cbn [mbind result_bind fst snd Nat.add] in *. exists w, k. split_and!; [done|by apply wf_le|by rewrite len_le|lia|lia|].
    assert (lval (le w) = lval (take n (le w))) as Hlw.
    { destruct (decide (n = 0)%nat) as [Hn|Hn]; [|by rewrite take_ge by lia].
      rewrite <- (take_ge (le w) 1) at 1 by lia. rewrite lval_take_S, (Hz 0%nat) by lia. rewrite Hn. ring. }
    unfold value. rewrite Hlw. rewrite (take_ge (le x)), (take_ge (le y)) in Hv by (rewrite <- len_le; lia). lia.
Qed.
End sub.

(** ** Multiplication *)

Lemma lval_zeros l : (∀ i, default 0 (l !! i) = 0) → lval l = 0.
Proof.
  induction l as [|d l IH]; intros Hl; [done|]. rewrite lval_cons, IH; [|intros i; apply (Hl (S i))].
  specialize (Hl 0%nat). cbn in Hl. lia.
Qed.

Lemma lval_take_zeros l k : (∀ i, (k ≤ i)%nat → default 0 (l !! i) = 0) → lval l = lval (take k l).
Proof.
  intros Hl. rewrite (lval_split l k), (lval_zeros (drop k l)); [ring|]. intros i. rewrite lookup_drop. apply Hl. lia.
Qed.

Lemma default_replicate n i : default 0 (replicate n 0 !! i) = 0.
Proof. destruct (replicate n 0 !! i) eqn:Hi; [|done]. by apply lookup_replicate in Hi as [-> _]. Qed.

Lemma lookup_limb l i : limbs_ok l → (i < length l)%nat → ∃ v, l !! i = Some v ∧ fits 32 v.
Proof.
  intros Hl [v Hv]%lookup_lt_is_Some_2. exists v. split; [done|]. by eapply Forall_lookup_1 in Hv.
Qed.

Section mul.
Context (x y : BigUint) (Hx : wf x) (Hy : wf y).

(** A row of the product, added to [w0]. *)
Record row (xj : Z) (w0 : list Z) (j i : nat) (s : BigUint * Z) : Prop := {
  row_len : length (le s.1) = length w0;
  row_ok : limbs_ok (le s.1);
  row_carry : fits 32 s.2;
  row_value : lval (take (i + j) (le s.1)) + s.2 * Bp (i + j) = lval (take (i + j) w0) + xj * lval (take i (le y)) * Bp j;
  row_rest : ∀ l, (i + j ≤ l)%nat → le s.1 !! l = w0 !! l;
}.

Lemma mul_inner_ok xj w0 j i s :
  fits 32 xj → (i < len y)%nat → (i + j < length w0)%nat → row xj w0 j i s →
  ∃ s', mul_inner xj y j s i = Ok s' ∧ row xj w0 j (S i) s'.
Proof using Hy.
  intros Hxj Hi Hij [Hlen Hok Hk Hv Hr]. destruct s as [w k]. cbn [fst snd] in *. unfold mul_inner.
  destruct (lookup_limb (le y) i) as (yi&Hyi&Hyb); [by apply wf_le|by rewrite <- len_le|].
  destruct (lookup_limb (le w) (i + j)) as (wij&Hwi&Hwb); [done|lia|].
  rewrite (get_Ok y i yi Hyi), (get_Ok w (i + j) wij Hwi). cbn [mbind result_bind]. unfold mul_single.
  assert (xj * yi ≤ (2 ^ 32 - 1) * (2 ^ 32 - 1)) as Hp by (unfold fits in *; nia).
  assert (0 ≤ xj * yi) as Hp0 by (unfold fits in *; nia). unfold fits in Hwb, Hk.
  rewrite ck_mul by lia. cbn [mbind result_bind]. rewrite ck_add by lia. cbn [mbind result_bind]. rewrite ck_add by lia.
  cbn [mbind result_bind]. rewrite wrap_mod_B. set (t := xj * yi + wij + k) in *.
  assert (fits 32 (t / B)) as Ht.
  { unfold fits, t, B. split; [apply Z.div_pos; lia|apply Z.div_lt_upper_bound; lia]. }
  rewrite (wrap_small 32 (t / B)) by done.
  destruct (set_le w (i + j) (t mod B)) as (w'&->&Hw'); [rewrite len_le; lia|]. cbn [mbind result_bind].
  exists (w', t / B). split; [done|]. constructor; cbn [fst snd]; rewrite ?Hw'.
  - by rewrite length_insert.
  - apply limbs_ok_insert; [done|apply mod_B_fits].
  - done.
  - cbn [Nat.add]. rewrite take_insert_at, (lval_take_S w0), (lval_take_S (le y)), Hyi by lia.
    rewrite <- (Hr (i + j)%nat), Hwi by lia. cbn [default]. unfold id. rewrite Bp_S, Bp_add in *.
    pose proof (div_mod_B t) as Hd. set (q := t / B) in *. set (r := t mod B) in *. clearbody q r. unfold t in Hd. nia.
  - intros l Hl. rewrite list_lookup_insert_ne by lia. apply Hr. lia.
Qed.

(** The rows below [j] are done. *)
Record rows (j : nat) (w : BigUint) : Prop := {
  rows_len : length (le w) = ((len y + len x) `max` 1)%nat;
  rows_ok : limbs_ok (le w);
  rows_value : lval (take (j + len y) (le w)) = lval (take j (le x)) * value y;
  rows_rest : ∀ l, (j + len y ≤ l)%nat → default 0 (le w !! l) = 0;
}.

Lemma mul_outer_ok j w : (j < len x)%nat → rows j w → ∃ w', mul_outer x y w j = Ok w' ∧ rows (S j) w'.
Proof using Hx Hy.
  intros Hj [Hlen Hok Hv Hr]. unfold mul_outer.
  destruct (lookup_limb (le x) j) as (xj&Hxj&Hxb); [by apply wf_le|by rewrite <- len_le|].
  rewrite (get_Ok x j xj Hxj). cbn [mbind result_bind]. destruct (Z.eqb_spec xj 0) as [->|Hne].
  { exists w. split; [done|]. constructor; [done|done| |intros l Hl; apply Hr; lia]. cbn [Nat.add].
    rewrite (lval_take_S (le w)), (Hr (j + len y)%nat), (lval_take_S (le x)), Hxj, Hv by lia. cbn [default]. unfold id. ring. }
  destruct (foldl_m_seq (row xj (le w) j) (mul_inner xj y j) 0 (len y) (w, 0)) as ([w' k]&->&Hrow).
  - constructor; cbn [fst snd]; [done|done|unfold fits; lia| |done]. rewrite take_0, lval_nil. ring.
  - intros i s Hi Hs. apply mul_inner_ok; [done|lia|lia|done].
  - destruct Hrow as [R1 R2 R3 R4 R5]. cbn [mbind result_bind fst snd Nat.add] in *.
    destruct (set_le w' (j + len y) k) as (w2&->&Hw2); [rewrite (len_le w'); lia|]. exists w2. split; [done|].
    rewrite (Nat.add_comm (len y) j) in *. constructor; rewrite ?Hw2.
    + by rewrite length_insert, R1.
    + by apply limbs_ok_insert.
    + cbn [Nat.add]. rewrite take_insert_at by lia. rewrite R4, Hv, (lval_take_S (le x)), Hxj.
      rewrite (take_ge (le y)) by (rewrite <- len_le; lia). fold (value y). cbn [default]. unfold id. ring.
    + intros l Hl. rewrite list_lookup_insert_ne by lia. rewrite R5 by lia. apply Hr. lia.
Qed.

Lemma mul_ok :
  ∃ w, mul x y = Ok w ∧ wf w ∧ len w = ((len y + len x) `max` 1)%nat ∧ value w = value x * value y.
Proof using Hx Hy.
  unfold mul. destruct (foldl_m_seq rows (mul_outer x y) 0 (len x) (with_capacity (len y + len x))) as (w&->&[H1 H2 H3 H4]).
  - constructor; rewrite le_with_capacity.
    + by rewrite length_replicate.
    + apply limbs_ok_zeros.
    + rewrite take_replicate, lval_replicate. rewrite take_0, lval_nil. ring.
    + intros l _. apply default_replicate.
  - intros j w Hj. apply mul_outer_ok. lia.
  - cbn [Nat.add] in *. exists w. split_and!; [done|by apply wf_le|by rewrite len_le|].
    unfold value at 1. rewrite (lval_take_zeros _ _ H4), H3. by rewrite take_ge by (rewrite <- len_le; lia).
Qed.
End mul.

(** ** Division by a limb *)

Lemma lval_drop l d v : l !! d = Some v → lval (drop d l) = v + B * lval (drop (S d) l).
Proof. intros Hv. by rewrite (drop_S _ _ _ Hv), lval_cons. Qed.

Section div_unit.
Context (x : BigUint) (c : Z) (Hx : wf x) (Hc : 1 ≤ c < 2 ^ 32).

Record unit_inv (d : nat) (s : BigUint * Z) : Prop := {
  ui_len : length (le s.1) = (len x `max` 1)%nat;
  ui_ok : limbs_ok (le s.1);
  ui_rem : 0 ≤ s.2 < c;
  ui_value : lval (drop d (le s.1)) * c + s.2 = lval (drop d (le x));
}.

Lemma div_unit_step_ok d s : (d < len x)%nat → unit_inv (S d) s → ∃ s', div_unit_step x c s d = Ok s' ∧ unit_inv d s'.
Proof using Hx Hc.
  intros Hd [H1 H2 H3 H4]. destruct s as [out r]. cbn [fst snd] in *. unfold div_unit_step.
  destruct (lookup_limb (le x) d) as (xd&Hxd&Hxb); [by apply wf_le|by rewrite <- len_le|].
  rewrite (get_Ok x d xd Hxd). cbn [mbind result_bind]. unfold fits in Hxb.
  rewrite ck_mul by (unfold B; lia). cbn [mbind result_bind]. rewrite ck_add by (unfold B; lia). cbn [mbind result_bind].
  unfold div_single. rewrite (proj2 (Z.eqb_neq c 0)) by lia. cbn [mbind result_bind].
  set (a := r * B + xd) in *. pose proof (Z.div_mod a c ltac:(lia)) as Hdm. pose proof (Z.mod_pos_bound a c ltac:(lia)) as Hmb.
  assert (0 ≤ a / c < B) as Hq.
  { split; [apply Z.div_pos; unfold a, B; lia|apply Z.div_lt_upper_bound; [lia|]]. unfold a, B. lia. }
  rewrite (wrap_small 32 (a / c)) by done. rewrite (wrap_small 32 (a mod c)) by (unfold fits; lia).
  destruct (set_le out d (a / c)) as (out'&->&Ho); [rewrite len_le; lia|]. cbn [mbind result_bind].
  exists (out', a mod c). split; [done|]. constructor; cbn [fst snd]; rewrite ?Ho.
  - by rewrite length_insert.
  - by apply limbs_ok_insert.
  - done.
  - rewrite (lval_drop _ _ (a / c)) by (apply list_lookup_insert_eq; lia).
    rewrite drop_insert_lt, (lval_drop (le x) d xd Hxd), <- H4 by lia.
    set (q := a / c) in *. set (m := a mod c) in *. clearbody q m. unfold a in Hdm. nia.
Qed.

Lemma div_unit_pos_ok : ∃ w, div_unit x c = Ok w ∧ wf w ∧ len w = (len x `max` 1)%nat ∧ value w = value x / c.
Proof using Hx Hc.
  unfold div_unit. rewrite Z.max_l by lia.
  destruct (foldl_m_rev_seq unit_inv (div_unit_step x c) 0 (len x) (with_capacity (len x), 0)) as ([w r]&->&[H1 H2 H3 H4]).
  - constructor; cbn [fst snd]; rewrite ?le_with_capacity.
    + by rewrite length_replicate.
    + apply limbs_ok_zeros.
    + lia.
    + rewrite drop_replicate, lval_replicate, drop_ge by (rewrite <- len_le; lia). done.
  - intros d s Hd. apply div_unit_step_ok. lia.
  - cbn [mbind result_bind fst snd] in *. rewrite !drop_0 in H4. exists w. split_and!; [done|by apply wf_le|by rewrite len_le|].
    unfold value. apply Z.div_unique with r; lia.
Qed.
End div_unit.

Lemma div_unit_ok x c :
  wf x → fits 32 c → ∃ w, div_unit x c = Ok w ∧ wf w ∧ len w = (len x `max` 1)%nat ∧ value w = value x / Z.max c 1.
Proof.
  intros Hx Hc. unfold fits in Hc. replace (div_unit x c) with (div_unit x (Z.max c 1)); [apply div_unit_pos_ok; [done|lia]|].
  unfold div_unit. by rewrite (Z.max_l (Z.max c 1)) by lia.
Qed.

(** ** Leading zeros *)

Definition bval (ds : list Z) : Z := lval (reverse ds).

Lemma bval_cons d ds : bval (d :: ds) = d * Bp (length ds) + bval ds.
Proof. unfold bval. rewrite reverse_cons, lval_app, length_reverse, lval_cons, lval_nil. ring. Qed.

Lemma bval_zeros i ds : bval (replicate i 0 ++ ds) = bval ds.
Proof. unfold bval. rewrite reverse_app, reverse_replicate, lval_app, lval_replicate. ring. Qed.

Lemma bval_bound ds : limbs_ok ds → 0 ≤ bval ds < Bp (length ds).
Proof. intros Hds. unfold bval. rewrite <- (length_reverse ds). apply lval_bound. unfold limbs_ok. by rewrite reverse_Permutation. Qed.

Lemma value_bval x : value x = bval (digits x).
Proof. done. Qed.

Lemma first_limb ds :
  (position (λ e, negb (e =? 0)) ds = None ∧ ds = replicate (length ds) 0) ∨
  ∃ i d rest, position (λ e, negb (e =? 0)) ds = Some i ∧ ds = replicate i 0 ++ d :: rest ∧ d ≠ 0.
Proof.
  destruct (position (λ e, negb (e =? 0)) ds) as [i|] eqn:Hp; [right|left].
  - apply position_Some in Hp as [(d&Hd&Hnz) Hz]. exists i, d, (drop (S i) ds). split_and!; [done| |by destruct (Z.eqb_spec d 0)].
    rewrite <- (take_drop_middle ds i d Hd) at 1. f_equal. apply list_eq. intros k.
    destruct (decide (k < i)%nat) as [Hk|Hk].
    + rewrite lookup_take_lt, lookup_replicate_2 by lia. destruct (lookup_lt_is_Some_2 ds k) as [v Hv]; [apply lookup_lt_Some in Hd; lia|].
      specialize (Hz k v Hv Hk). rewrite Hv. f_equal. destruct (Z.eqb_spec v 0); done.
    + rewrite lookup_take_ge, lookup_ge_None_2 by (rewrite ?length_replicate; lia). done.
  - split; [done|]. rewrite position_None in Hp. apply list_eq. intros k. destruct (decide (k < length ds)%nat) as [Hk|Hk].
    + destruct (lookup_lt_is_Some_2 ds k Hk) as [v Hv]. rewrite lookup_replicate_2 by done. rewrite Hv. f_equal.
      specialize (Hp v ltac:(by eapply list_elem_of_lookup_2)). destruct (Z.eqb_spec v 0); done.
    + rewrite !lookup_ge_None_2; [done|rewrite length_replicate; lia|lia].
Qed.

(** A leading limb that is not zero fixes the size of a number. *)
Lemma bval_lead d ds : limbs_ok (d :: ds) → d ≠ 0 → Bp (length ds) ≤ bval (d :: ds).
Proof.
  intros [Hd Hds]%Forall_cons Hne. rewrite bval_cons. pose proof (bval_bound ds Hds). pose proof (Bp_pos (length ds)).
  unfold fits in Hd. nia.
Qed.

Lemma lstrip_ok x :
  wf x →
  wf (lstrip x) ∧ value (lstrip x) = value x ∧ (len (lstrip x) ≤ len x)%nat ∧
  (value x = 0 → lstrip x = x) ∧
  (value x ≠ 0 → ∃ d ds, digits (lstrip x) = d :: ds ∧ d ≠ 0 ∧ Bp (length ds) ≤ value x < Bp (S (length ds))).
Proof.
  intros Hx. unfold lstrip. case_decide as Hl.
  { split_and!; try done. intros Hv. unfold len in Hl. apply length_zero_iff_nil in Hl. rewrite value_bval, Hl in Hv. done. }
  destruct (first_limb (digits x)) as [[-> Hz]|(i&d&rest&->&Hds&Hd)].
  - assert (value x = 0) as Hv by (rewrite value_bval, Hz; unfold bval; by rewrite reverse_replicate, lval_replicate).
    cbn [default]. rewrite decide_False by lia. split_and!; done.
  - assert (value x = bval (d :: rest)) as Hv by (by rewrite value_bval, Hds, bval_zeros).
    assert (drop i (digits x) = d :: rest) as Hdrop.
    { rewrite Hds, drop_app_ge by (rewrite length_replicate; lia). by rewrite length_replicate, Nat.sub_diag. }
    assert (limbs_ok (d :: rest)) as Hok by (rewrite <- Hdrop; by apply Forall_drop).
    pose proof (bval_lead d rest Hok Hd). pose proof (bval_bound _ Hok) as Hb. cbn [length] in Hb. pose proof (Bp_pos (length rest)).
    cbn [default]. unfold id. case_decide as Hi.
    + split_and!.
      * unfold wf. cbn [digits]. by rewrite Hdrop.
      * rewrite value_bval. cbn [digits]. by rewrite Hdrop.
      * unfold len. cbn [digits]. rewrite length_drop. lia.
      * lia.
      * intros _. exists d, rest. cbn [digits]. split_and!; [done|done|lia|lia].
    + assert (i = 0)%nat as -> by lia. rewrite drop_0 in Hdrop. split_and!; try done.
      intros _. exists d, rest. split_and!; [done|done|lia|lia].
Qed.

Lemma lpad_ok x size : wf x → wf (lpad x size) ∧ value (lpad x size) = value x ∧ len (lpad x size) = (len x `max` size)%nat.
Proof.
  intros Hx. unfold lpad. case_decide as Hs; [split_and!; [done|done|lia]|]. split_and!.
  - apply Forall_app. split; [apply limbs_ok_zeros|done].
  - rewrite !value_bval. cbn [digits]. by rewrite bval_zeros.
  - unfold len in *. cbn [digits]. rewrite length_app, length_replicate. lia.
Qed.

(** ** Comparison *)

Lemma slice_cmp_ok a b : limbs_ok a → limbs_ok b → length a = length b → slice_cmp a b = (bval a ?= bval b).
Proof.
  intros Ha. revert b. induction Ha as [|x a Hx Ha IH]; intros b Hb Hl; destruct b as [|y b]; try done.
  apply Forall_cons in Hb as [Hy Hb]. injection Hl as Hl. cbn [slice_cmp]. rewrite !bval_cons, IH, <- Hl by done.
  pose proof (bval_bound a Ha). pose proof (bval_bound b Hb) as Hbb. rewrite <- Hl in Hbb. pose proof (Bp_pos (length a)).
  destruct (Z.compare_spec x y) as [->|Hxy|Hxy].
  - symmetry. destruct (Z.compare_spec (bval a) (bval b)); [apply Z.compare_eq_iff|apply Z.compare_lt_iff|apply Z.compare_gt_iff]; lia.
  - symmetry. apply Z.compare_lt_iff. nia.
  - symmetry. apply Z.compare_gt_iff. nia.
Qed.

Lemma Bp_mono m n : (m ≤ n)%nat → Bp m ≤ Bp n.
Proof. intros. unfold Bp. apply Z.pow_le_mono_r; [done|lia]. Qed.

Lemma cmp_ok x y : wf x → wf y → cmp x y = (value x ?= value y).
Proof.
  intros Hx Hy. unfold cmp. rewrite !value_bval.
  assert (∀ ds, ds = replicate (length ds) 0 → bval ds = 0) as Hzero.
  { intros ds ->. unfold bval. by rewrite reverse_replicate, lval_replicate. }
  assert (∀ ds i d rest, limbs_ok ds → ds = replicate i 0 ++ d :: rest → d ≠ 0 →
    drop i ds = d :: rest ∧ bval ds = bval (d :: rest) ∧ limbs_ok (d :: rest) ∧ Bp (length rest) ≤ bval (d :: rest) < Bp (length (d :: rest))) as Hlead.
  { intros ds i d rest Hok Hds Hd. assert (drop i ds = d :: rest) as Hdrop.
    { rewrite Hds, drop_app_ge by (rewrite length_replicate; lia). by rewrite length_replicate, Nat.sub_diag. }
    assert (limbs_ok (d :: rest)) as Hok' by (rewrite <- Hdrop; by apply Forall_drop).
    split_and!; [done|by rewrite Hds, bval_zeros|done|by apply bval_lead|by apply bval_bound]. }
  destruct (first_limb (digits x)) as [[-> Hzx]|(i&d&rx&->&Hdx&Hd)], (first_limb (digits y)) as [[-> Hzy]|(j&e&ry&->&Hdy&He)].
  - by rewrite (Hzero _ Hzx), (Hzero _ Hzy).
  - destruct (Hlead _ _ _ _ Hy Hdy He) as (_&->&_&Hb&_). rewrite (Hzero _ Hzx). pose proof (Bp_pos (length ry)).
    symmetry. apply Z.compare_lt_iff. lia.
  - destruct (Hlead _ _ _ _ Hx Hdx Hd) as (_&->&_&Hb&_). rewrite (Hzero _ Hzy). pose proof (Bp_pos (length rx)).
    symmetry. apply Z.compare_gt_iff. lia.
  - destruct (Hlead _ _ _ _ Hx Hdx Hd) as (->&->&Hox&Hb1), (Hlead _ _ _ _ Hy Hdy He) as (->&->&Hoy&Hb2).
    destruct (Nat.compare_spec (length (d :: rx)) (length (e :: ry))) as [Hl|Hl|Hl].
    + by apply slice_cmp_ok.
    + symmetry. apply Z.compare_lt_iff. cbn [length] in *. pose proof (Bp_mono (S (length rx)) (length ry) ltac:(lia)). lia.
    + symmetry. apply Z.compare_gt_iff. cbn [length] in *. pose proof (Bp_mono (S (length ry)) (length rx) ltac:(lia)). lia.
Qed.

(** ** Conversion *)

Lemma Bp_pow n : Bp n = 2 ^ (32 * Z.of_nat n).
Proof. unfold Bp, B. rewrite <- Z.pow_mul_r by lia. done. Qed.

Lemma shift_in_ok w k l acc :
  limbs_ok l → 32 * Z.of_nat (k + length l) ≤ w → 0 ≤ acc < Bp k →
  foldl_m (shift_in w) acc (zip (seq k (length l)) l) = Ok (acc + Bp k * lval l).
Proof.
  revert k acc. induction l as [|d l IH]; intros k acc Hl Hw Hacc.
  { cbn. f_equal. lia. }
  apply Forall_cons in Hl as [Hd Hl]. cbn [length seq zip zip_with foldl_m] in *.
  change (shift_in w acc (k, d)) with (expect (checked_add w acc (wrap w (Z.shiftl d (SHIFT * Z.of_nat k)))) : run Z).
  assert (Z.shiftl d (SHIFT * Z.of_nat k) = d * Bp k) as -> by (rewrite Z.shiftl_mul_pow2 by (unfold SHIFT; lia); by rewrite Bp_pow).
  pose proof (Bp_pos k). unfold fits in Hd.
  assert (Bp (S k) ≤ 2 ^ w) as HSk by (rewrite Bp_pow; apply Z.pow_le_mono_r; lia).
  rewrite Bp_S in HSk. assert (d * Bp k ≤ (B - 1) * Bp k) as Hdk by (unfold B; nia).
  rewrite wrap_small by (unfold fits; nia). rewrite checked_add_Some by lia. cbn [expect mbind result_bind].
  rewrite IH; [|done|lia|rewrite Bp_S; nia]. f_equal. rewrite Bp_S, lval_cons. ring.
Qed.

(** Zero with too many limbs does not fit. *)
Definition try_from_spec (w : Z) (x : BigUint) : option Z :=
  if value x =? 0 then if 32 * Z.of_nat (len x) <=? w then Some 0 else None
  else if value x <? 2 ^ w then Some (value x) else None.

Lemma try_from_ok k x : wf x → try_from (32 * Z.of_nat k) x = Ok (try_from_spec (32 * Z.of_nat k) x).
Proof.
  intros Hx. unfold try_from, try_from_spec. destruct (lstrip_ok x Hx) as (Hw&Hv&Hl&Hz&Hnz).
  unfold SHIFT. assert (∀ y, wf y → 32 * Z.of_nat (len y) ≤ 32 * Z.of_nat k →
    (acc ← foldl_m (shift_in (32 * Z.of_nat k)) 0 (zip (seq 0 (len y)) (reverse (digits y))); Ok (Some acc) : run (option Z)) = Ok (Some (value y))) as Hrun.
  { intros y Hy Hk. rewrite len_le in *. fold (le y). rewrite shift_in_ok; [|by apply wf_le|cbn; lia|by rewrite Bp_0].
    rewrite Bp_0. cbn [mbind result_bind]. do 2 f_equal. unfold value. lia. }
  destruct (Z.eqb_spec (value x) 0) as [H0|H0].
  - rewrite (Hz H0). rewrite (Z.mul_comm (Z.of_nat (len x))).
    destruct (Z.ltb_spec (32 * Z.of_nat k) (32 * Z.of_nat (len x))), (Z.leb_spec (32 * Z.of_nat (len x)) (32 * Z.of_nat k)); try lia; [done|].
    by rewrite Hrun, H0.
  - destruct (Hnz H0) as (d&ds&Hds&_&Hlo&Hhi). assert (len (lstrip x) = S (length ds)) as Hlen by (unfold len; by rewrite Hds).
    rewrite Hlen, <- (Bp_pow k). destruct (Z.ltb_spec (32 * Z.of_nat k) (Z.of_nat (S (length ds)) * 32)) as [Hk|Hk].
    + rewrite (proj2 (Z.ltb_ge _ _)); [done|]. pose proof (Bp_mono k (length ds) ltac:(lia)). lia.
    + rewrite <- Hlen, Hrun, Hv by (done || lia). rewrite (proj2 (Z.ltb_lt _ _)); [done|].
      pose proof (Bp_mono (S (length ds)) k ltac:(lia)). lia.
Qed.
