(* ===== verification/BigUintDiv.v ===== *)
(** * Correctness of the long division *)
From S2P Require Import Prelude BigUint BigUintFacts.

Local Open Scope Z_scope.

(** ** The estimate of a digit

    [V] is the divisor with the leading limbs [v0] and [v1], and [W] the part of
    the dividend with the leading limbs [u0], [u1] and [u2]; [P] is the power
    of the base that the limbs below stand for. *)
Section digit.
Context (P v0 v1 vr u0 u1 u2 ur : Z).
Context (HP : 0 < P) (Hv0 : B <= 2 * v0) (Hv0' : v0 < B) (Hv1 : 0 <= v1 < B) (Hvr : 0 <= vr < P).
Context (Hu0 : 0 <= u0 < B) (Hu1 : 0 <= u1 < B) (Hu2 : 0 <= u2 < B) (Hur : 0 <= ur < P).

Let V := (v0 * B + v1) * P + vr.
Let W := (u0 * (B * B) + u1 * B + u2) * P + ur.

Context (HW : W < V * B).

Lemma digit_u0 : u0 ≤ v0.
Proof using All.
  pose proof B_pos. destruct (Z.le_gt_cases u0 v0) as [|Hgt]; [done|]. exfalso.
  assert (V < (v0 + 1) * (B * P)) as HV by (unfold V; nia).
  assert ((v0 + 1) * (B * P) * B ≤ W); [|nia]. unfold W.
  assert (0 ≤ u1 * B * P) by (apply Z.mul_nonneg_nonneg; nia).
  assert (0 ≤ u2 * P) by nia. assert ((v0 + 1) * (B * B * P) ≤ u0 * (B * B * P)); [|nia].
  apply Z.mul_le_mono_nonneg_r; nia.
Qed.

Lemma digit_V_pos : 0 < V.
Proof using All. pose proof B_pos. unfold V. nia. Qed.

Lemma digit_lt_B : W / V < B.
Proof using All. pose proof digit_V_pos. apply Z.div_lt_upper_bound; lia. Qed.

(** The quotient of the leading limbs is not too small. *)
Lemma digit_first : W / V ≤ (u0 * B + u1) / v0.
Proof using All.
  pose proof digit_V_pos as HV. pose proof B_pos. apply Z.div_le_lower_bound; [lia|].
  pose proof (Z.mul_div_le W V HV) as Hle. set (q := W / V) in *.
  assert (0 ≤ q) as Hq by (apply Z.div_pos; [unfold W; nia|done]). clearbody q.
  destruct (Z.le_gt_cases (v0 * q) (u0 * B + u1)) as [|Hgt]; [done|]. exfalso.
  assert ((u0 * B + u1 + 1) * (B * P) ≤ v0 * q * (B * P)) as H1 by (apply Z.mul_le_mono_nonneg_r; nia).
  assert (v0 * q * (B * P) ≤ V * q) as H2.
  { unfold V. assert (0 ≤ v1 * P * q) by nia. assert (0 ≤ vr * q) by nia. nia. }
  assert (W < (u0 * B + u1 + 1) * (B * P)) as H3; [|lia]. unfold W. assert (u2 * P + ur < B * P) by nia. nia.
Qed.

Context (qhat rhat : Z).
Context (Hq : qhat * v0 + rhat = u0 * B + u1) (Hrhat : 0 <= rhat) (Hqhat : 0 <= qhat) (Hlow : W / V <= qhat).

Lemma qhat_bound : qhat ≤ B + 1.
Proof using All. pose proof B_pos. pose proof digit_u0. nia. Qed.

Lemma qhat_small : B ≤ rhat → qhat < B.
Proof using All. pose proof B_pos. pose proof digit_u0. intros. destruct (Z.lt_ge_cases qhat B); [done|]. nia. Qed.

(** A digit that fails the test is too big. *)
Lemma qhat_too_big : B ≤ qhat ∨ B * rhat + u2 < qhat * v1 → W / V ≤ qhat - 1.
Proof using All.
  intros [Hb|Hb]; [pose proof digit_lt_B; lia|]. pose proof digit_V_pos as HV. pose proof B_pos.
  assert (W / V < qhat); [|lia]. apply Z.div_lt_upper_bound; [done|].
  assert ((u0 * (B * B) + u1 * B + u2 + 1) * P ≤ qhat * ((v0 * B + v1) * P)) as Hle.
  { replace (qhat * ((v0 * B + v1) * P)) with (qhat * (v0 * B + v1) * P) by ring.
    apply Z.mul_le_mono_nonneg_r; [lia|]. nia. }
  unfold W, V. nia.
Qed.

(** A digit that passes it is at most one too big. *)
Lemma qhat_close : qhat < B → qhat * v1 ≤ B * rhat + u2 → qhat ≤ W / V + 1.
Proof using All.
  intros Hlt Ht. pose proof digit_V_pos as HV. pose proof B_pos.
  assert (qhat - 1 ≤ W / V); [|lia]. apply Z.div_le_lower_bound; [done|].
  assert (qhat * ((v0 * B + v1) * P) ≤ (u0 * (B * B) + u1 * B + u2) * P) as Hle.
  { replace (qhat * ((v0 * B + v1) * P)) with (qhat * (v0 * B + v1) * P) by ring.
    apply Z.mul_le_mono_nonneg_r; [lia|]. nia. }
  assert (qhat * vr ≤ B * P) by nia. assert (1 * (B * P) ≤ v0 * (B * P)) by (apply Z.mul_le_mono_nonneg_r; [apply Z.mul_nonneg_nonneg|]; lia). unfold V, W in *. nia.
Qed.
End digit.

(** ** The monadic estimate *)

Section estimate.
Context (un vn : BigUint) (n' j : nat).
Let n := S (S n').
Context (v0 v1 u0 u1 u2 : Z).
Context (Hv0 : le vn !! S n' = Some v0) (Hv1 : le vn !! n' = Some v1).
Context (Hu0 : le un !! (j + n)%nat = Some u0) (Hu1 : le un !! (j + S n')%nat = Some u1) (Hu2 : le un !! (j + n')%nat = Some u2).
Context (Hv : wf vn) (Hu : wf un) (Htop : B <= 2 * v0) (Hlv : len vn = n).
Let V := value vn.
Let W := lval (take (S n) (drop j (le un))).
Context (HW : W < V * B).

Let P := Bp n'.
Let vr := lval (take n' (le vn)).
Let ur := lval (take n' (drop j (le un))).

Lemma est_V : V = (v0 * B + v1) * P + vr.
Proof using All.
  unfold V, value. rewrite <- (take_ge (le vn) n) by (rewrite <- len_le; lia). unfold n.
  rewrite !lval_take_S, Hv0, Hv1. cbn [default]. unfold id, P, vr. rewrite Bp_S. ring.
Qed.

Lemma est_W : W = (u0 * (B * B) + u1 * B + u2) * P + ur.
Proof using All.
  unfold W, n. rewrite !lval_take_S, !lookup_drop. unfold n in Hu0. rewrite Hu0, Hu1, Hu2. cbn [default].
  unfold id, P, ur. rewrite !Bp_S. ring.
Qed.

Lemma est_limbs : v0 < B ∧ 0 ≤ v1 < B ∧ 0 ≤ vr < P ∧ 0 ≤ u0 < B ∧ 0 ≤ u1 < B ∧ 0 ≤ u2 < B ∧ 0 ≤ ur < P.
Proof using All.
  apply wf_le in Hv. apply wf_le in Hu.
  assert (∀ l i d, limbs_ok l → l !! i = Some d → 0 ≤ d < B) as Hd by (intros l i d Hl; apply (proj1 (Forall_lookup _ _) Hl)).
  pose proof (Hd _ _ _ Hv Hv0). pose proof (Hd _ _ _ Hv Hv1). pose proof (Hd _ _ _ Hu Hu0). pose proof (Hd _ _ _ Hu Hu1).
  pose proof (Hd _ _ _ Hu Hu2). pose proof (lval_take_bound (le vn) n' Hv).
  assert (limbs_ok (drop j (le un))) as Hdr by (by apply Forall_drop). pose proof (lval_take_bound _ n' Hdr).
  unfold vr, ur, P. lia.
Qed.

Definition est_inv (qhat rhat : Z) : Prop :=
  qhat * v0 + rhat = u0 * B + u1 ∧ 0 ≤ rhat ∧ 0 ≤ qhat ∧ W / V ≤ qhat.

Definition est_done (qhat : Z) : Prop := 0 ≤ qhat < B ∧ W / V ≤ qhat ≤ W / V + 1.

Lemma test_qhat_ok qhat rhat :
  est_inv qhat rhat → rhat < B →
  ∃ q' r' b, test_qhat un vn n j qhat rhat = Ok (q', r', b) ∧ est_inv q' r' ∧
    if b : bool then r' = rhat + v0 else q' = qhat ∧ r' = rhat ∧ est_done qhat.
Proof using All.
  intros (Hq&Hr&Hq0&Hlow) HrB. destruct est_limbs as (L1&L2&L3&L4&L5&L6&L7). pose proof B_pos.
  pose proof est_V as EV. pose proof est_W as EW. unfold P in *. pose proof (Bp_pos n') as HP.
  assert (W < V * B) as HWV by done. rewrite EV, EW in HWV, Hlow.
  pose proof (qhat_bound (Bp n') v0 v1 vr u0 u1 u2 ur HP Htop L1 L2 L3 L4 L5 L6 L7 HWV qhat rhat Hq Hr Hq0 Hlow) as Hqb.
  unfold test_qhat. unfold n. replace (S (S n') - 2)%nat with n' by lia. replace (j + S (S n') - 2)%nat with (j + n')%nat by lia.
  replace (S (S n') - 1)%nat with (S n') by lia.
  rewrite (get_Ok vn n' v1 Hv1), (get_Ok un (j + n') u2 Hu2), (get_Ok vn (S n') v0 Hv0). cbn [mbind result_bind].
  assert (qhat * v1 ≤ (B + 1) * (B - 1)) as Hqv by (apply Z.mul_le_mono_nonneg; lia).
  assert (B * rhat ≤ B * (B - 1)) as HBr by (apply Z.mul_le_mono_nonneg; lia).
  rewrite (ck_mul qhat v1) by (eapply Z.le_lt_trans; [exact Hqv|done]). cbn [mbind result_bind].
  rewrite (ck_mul B rhat) by (eapply Z.le_lt_trans; [exact HBr|done]). cbn [mbind result_bind].
  rewrite (ck_add (B * rhat) u2) by (unfold B in *; lia). cbn [mbind result_bind].
  destruct ((B <=? qhat) || (B * rhat + u2 <? qhat * v1)) eqn:Ht.
  - assert (B ≤ qhat ∨ B * rhat + u2 < qhat * v1) as Hbig.
    { pose proof Ht as Ht0. apply orb_true_iff in Ht0 as [Ht0|Ht0]; [left; by apply Z.leb_le|right; by apply Z.ltb_lt]. }
    pose proof (qhat_too_big (Bp n') v0 v1 vr u0 u1 u2 ur HP Htop L1 L2 L3 L4 L5 L6 L7 HWV qhat rhat Hq Hr Hq0 Hlow Hbig) as Hnew.
    assert (1 ≤ qhat) as Hq1.
    { assert (0 ≤ B * rhat) by (apply Z.mul_nonneg_nonneg; lia). destruct (decide (qhat = 0)) as [->|]; lia. }
    rewrite (ck_sub qhat 1) by lia. cbn [mbind result_bind]. rewrite (ck_add rhat v0) by (unfold B in *; lia). cbn [mbind result_bind].
    exists (qhat - 1), (rhat + v0), true.  split; [done|]. split; [|done]. unfold est_inv. rewrite EV, EW. split_and!; [lia|lia|lia|assumption].
  - pose proof Ht as Ht0. apply orb_false_iff in Ht as [Ht1 Ht2]. apply Z.leb_gt in Ht1. apply Z.ltb_ge in Ht2.
    exists qhat, rhat, false.  split; [done|]. split; [unfold est_inv; rewrite EV, EW; split_and!; assumption|]. split_and!; [done|done|].
    unfold est_done. rewrite EV, EW. split_and!; [assumption..|].
    by apply (qhat_close (Bp n') v0 v1 vr u0 u1 u2 ur HP Htop L1 L2 L3 L4 L5 L6 L7 HWV qhat rhat Hq Hr Hq0 Hlow Ht1 Ht2).
Qed.

(** A remainder of the base or more ends the tests. *)
Lemma est_stop qhat rhat : est_inv qhat rhat → B ≤ rhat → est_done qhat.
Proof using All.
  intros (Hq&Hr&Hq0&Hlow) HrB. destruct est_limbs as (L1&L2&L3&L4&L5&L6&L7). pose proof B_pos.
  pose proof est_V as EV. pose proof est_W as EW. unfold P in *. pose proof (Bp_pos n') as HP.
  assert (W < V * B) as HWV by done. unfold est_done. rewrite EV, EW in HWV, Hlow |- *.
  pose proof (qhat_small (Bp n') v0 v1 vr u0 u1 u2 ur HP Htop L1 L2 L3 L4 L5 L6 L7 HWV qhat rhat Hq Hr Hq0 Hlow HrB) as Hlt.
  split_and!; [assumption..|].
  apply (qhat_close (Bp n') v0 v1 vr u0 u1 u2 ur HP Htop L1 L2 L3 L4 L5 L6 L7 HWV qhat rhat Hq Hr Hq0 Hlow Hlt). nia.
Qed.

Lemma test_loop_ok fuel qhat rhat :
  est_inv qhat rhat → B ≤ rhat + Z.of_nat fuel * v0 →
  ∃ q', test_loop fuel un vn n j qhat rhat = Some (Ok q') ∧ est_done q'.
Proof using All.
  revert qhat rhat. induction fuel as [|fuel IH]; intros qhat rhat Hi Hf; cbn [test_loop].
  - destruct (Z.ltb_spec rhat B); [lia|]. exists qhat. split; [done|]. by eapply est_stop.
  - destruct (Z.ltb_spec rhat B) as [HrB|HrB]; [|exists qhat; split; [done|by eapply est_stop]].
    destruct (test_qhat_ok qhat rhat Hi HrB) as (q'&r'&[|]&->&Hi'&Hb); [apply IH; [done|lia]|].
    destruct Hb as (->&_&?). by exists qhat.
Qed.

Lemma estimate_ok : ∃ q', estimate un vn n j = Some (Ok q') ∧ est_done q'.
Proof using All.
  destruct est_limbs as (L1&L2&L3&L4&L5&L6&L7). pose proof B_pos.
  pose proof est_V as EV. pose proof est_W as EW. pose proof (Bp_pos n') as HP.
  unfold estimate. unfold n. replace (j + S (S n') - 1)%nat with (j + S n')%nat by lia. replace (S (S n') - 1)%nat with (S n') by lia.
  unfold n in Hu0. rewrite (get_Ok un (j + S (S n')) u0 Hu0), (get_Ok un (j + S n') u1 Hu1), (get_Ok vn (S n') v0 Hv0).
  cbn [mbind result_bind]. rewrite ck_mul by (unfold B in *; lia). cbn [mbind result_bind].
  rewrite ck_add by (unfold B in *; lia). cbn [mbind result_bind].
  unfold div_single. rewrite (proj2 (Z.eqb_neq v0 0)) by lia. cbn [mbind result_bind].
  set (a := u0 * B + u1). pose proof (Z.div_mod a v0 ltac:(lia)) as Hdm. pose proof (Z.mod_pos_bound a v0 ltac:(lia)) as Hmb.
  rewrite wrap_small by (unfold fits; unfold B in *; lia).
  assert (est_inv (a / v0) (a mod v0)) as Hi.
  { split_and!; [unfold a in *; lia|lia|apply Z.div_pos; unfold a; lia|].
    assert (W < V * B) as HWV by done. rewrite EV, EW in HWV |- *. unfold P in *.
    by apply (digit_first (Bp n') v0 v1 vr u0 u1 u2 ur HP Htop L1 L2 L3 L4 L5 L6 L7 HWV). }
  change (S (S n')) with n. destruct (test_qhat_ok (a / v0) (a mod v0) Hi ltac:(lia)) as (q'&r'&b&->&Hi'&_).
  apply test_loop_ok; [done|]. unfold test_fuel. destruct Hi' as (_&?&_). lia.
Qed.
End estimate.

(** ** Parts of a number *)

Lemma lval_take_mod l k : limbs_ok l → lval (take k l) = lval l mod Bp k.
Proof.
  intros Hl. pose proof (lval_take_bound l k Hl) as Hb. destruct (decide (k ≤ length l)%nat) as [Hk|Hk].
  - rewrite (lval_split l k), Nat.min_l by done. rewrite Z.mul_comm, Z_mod_plus_full. symmetry. by apply Z.mod_small.
  - rewrite take_ge in * by lia. symmetry. by apply Z.mod_small.
Qed.

Lemma mapM_get x ks vs : Forall2 (λ k v, le x !! k = Some v) ks vs → mapM (get x) ks = Ok vs.
Proof.
  induction 1 as [|k v ks vs Hk _ IH]; [done|]. cbn [mapM]. rewrite (get_Ok x k v Hk). cbn [mbind result_bind].
  change (mapM (get x) ks ≫= λ k0, mret (v :: k0)) with (mapM (get x) ks ≫= λ k0, (Ok (v :: k0) : run (list Z))).
  by rewrite IH.
Qed.

Lemma le_mk l : le (MkBigUint (reverse l)) = l.
Proof. apply reverse_involutive. Qed.

Lemma limbs_at_ok x j n :
  wf x → (j + n < len x)%nat →
  ∃ w, limbs_at x j n = Ok w ∧ wf w ∧ le w = take (S n) (drop j (le x)).
Proof.
  intros Hx Hn. unfold limbs_at. rewrite (mapM_get x _ (reverse (take (S n) (drop j (le x))))).
  - cbn [mbind result_bind]. eexists. split; [done|]. rewrite wf_le, le_mk. split; [|done].
    apply Forall_take, Forall_drop. by apply wf_le.
  - apply Forall2_reverse. apply Forall2_same_length_lookup_2.
    + rewrite length_seq, length_take, length_drop, <- len_le. lia.
    + intros i k v Hk Hv. apply lookup_seq in Hk as [-> Hi]. rewrite lookup_take_lt, lookup_drop in Hv by done. done.
Qed.

Lemma put_limbs_ok x t ds j :
  (∀ d, d ∈ ds → (j ≤ d < len x)%nat ∧ (d - j < len t)%nat) →
  ∃ x', put_limbs x t ds j = Ok x' ∧ len x' = len x ∧
    ∀ i, le x' !! i = if decide (i ∈ ds) then le t !! (i - j)%nat else le x !! i.
Proof.
  unfold put_limbs. revert x. induction ds as [|d ds IH]; intros x Hds; cbn [foldl_m].
  { exists x. split_and!; [done|done|]. intros i. by rewrite decide_False by apply not_elem_of_nil. }
  destruct (Hds d) as [Hd Hdt]; [by left|]. change (put_step t j x d) with (v ← get t (d - j); set x d v).
  destruct (lookup_lt_is_Some_2 (le t) (d - j)) as [v Hv]; [by rewrite <- len_le|].
  rewrite (get_Ok t (d - j) v Hv). cbn [mbind result_bind].
  destruct (set_le x d v) as (x1&->&Hx1); [lia|]. cbn [mbind result_bind].
  assert (len x1 = len x) as Hl1 by (by rewrite !len_le, Hx1, length_insert).
  destruct (IH x1) as (x2&->&Hl2&Hx2).
  { intros e He. rewrite Hl1. apply Hds. by right. }
  exists x2. split_and!; [done|by rewrite Hl2|]. intros i. rewrite Hx2, Hx1. destruct (decide (i = d)) as [->|Hne].
  - rewrite list_lookup_insert_eq by (rewrite <- len_le; lia). rewrite (decide_True (P := d ∈ d :: ds)) by (by left).
    case_decide; [done|by rewrite Hv].
  - rewrite list_lookup_insert_ne by done. destruct (decide (i ∈ ds)); [by rewrite decide_True by (by right)|].
    rewrite decide_False; [done|]. by intros [?|?]%elem_of_cons.
Qed.

(** Replacing the limbs [j], ..., [j + n]. *)
Lemma put_range x t ds j n :
  (∀ d, d ∈ ds ↔ (j ≤ d ≤ j + n)%nat) → (j + n < len x)%nat → (n < len t)%nat → wf x → wf t →
  ∃ x', put_limbs x t ds j = Ok x' ∧ wf x' ∧ len x' = len x ∧
    le x' = take j (le x) ++ take (S n) (le t) ++ drop (j + S n) (le x).
Proof.
  intros Hds Hn Ht Hx Hwt. destruct (put_limbs_ok x t ds j) as (x'&Hrun&Hl&Hlook).
  { intros d Hd%Hds. lia. }
  rewrite len_le in Hn, Ht, Hl. rewrite len_le in Hl.
  assert (le x' = take j (le x) ++ take (S n) (le t) ++ drop (j + S n) (le x)) as Heq.
  { apply list_eq. intros i. rewrite Hlook. destruct (decide (i < j)%nat) as [Hi|Hi].
    - rewrite decide_False by (rewrite Hds; lia). rewrite lookup_app_l by (rewrite length_take; lia). by rewrite lookup_take_lt.
    - rewrite lookup_app_r by (rewrite length_take; lia). rewrite length_take_le by lia.
      destruct (decide (i ≤ j + n)%nat) as [Hi2|Hi2].
      + rewrite decide_True by (rewrite Hds; lia). rewrite lookup_app_l by (rewrite length_take; lia). by rewrite lookup_take_lt by lia.
      + rewrite decide_False by (rewrite Hds; lia). rewrite lookup_app_r by (rewrite length_take; lia).
        rewrite length_take_le, lookup_drop by lia. f_equal. lia. }
  exists x'. split_and!; [done| |by rewrite len_le, Hl, <- len_le|done].
  apply wf_le. rewrite Heq. apply wf_le in Hx. apply wf_le in Hwt.
  apply Forall_app. split; [by apply Forall_take|]. apply Forall_app. split; [by apply Forall_take|by apply Forall_drop].
Qed.

(** A number below [Bp k] has no limbs from [k] on. *)
Lemma lval_drop_small l k : limbs_ok l → lval l < Bp k → lval (drop k l) = 0.
Proof.
  intros Hl Hk. destruct (decide (k ≤ length l)%nat) as [Hle|Hgt]; [|by rewrite drop_ge by lia].
  assert (limbs_ok (drop k l)) as Hd by (by apply Forall_drop). pose proof (lval_bound _ Hd) as Hb.
  rewrite (lval_split l k), Nat.min_l in Hk by done. pose proof (lval_take_bound l k Hl). pose proof (Bp_pos k). nia.
Qed.

Lemma lval_range l j n :
  limbs_ok l → (j + n < length l)%nat → lval l < Bp (j + S n) →
  lval l = lval (take j l) + Bp j * lval (take (S n) (drop j l)).
Proof.
  intros Hl Hn Hb. rewrite (lval_split l j), Nat.min_l by lia. do 2 f_equal.
  rewrite (lval_split (drop j l) (S n)). rewrite drop_drop, (lval_drop_small l (j + S n)) by done. ring.
Qed.

(** ** One digit of the quotient *)

Section div_step.
Context (vn : BigUint) (n' m : nat) (N : Z).
Let n := S (S n').
Let V := value vn.
Context (Hv : wf vn) (Hlv : len vn = n) (v0 : Z) (Hv0 : le vn !! S n' = Some v0) (Htop : B <= 2 * v0).

(** The digits from [j] on are known, [s.1] is what is left of the dividend. *)
Record digits_inv (j : nat) (s : BigUint * BigUint) : Prop := {
  di_left : wf s.1;
  di_left_len : len s.1 = (n + m + 1)%nat;
  di_quot : wf s.2;
  di_quot_len : len s.2 = (m + 1)%nat;
  di_value : lval (drop j (le s.2)) * Bp j * V + value s.1 = N;
  di_bound : value s.1 < V * Bp j;
}.

Lemma V_bound : 0 < V < Bp n.
Proof using All.
  pose proof (lval_bound (le vn) (proj1 (wf_le vn) Hv)) as Hb. rewrite <- len_le, Hlv in Hb. unfold V, value.
  split; [|lia]. rewrite <- (take_ge (le vn) (S (S n'))) by (rewrite <- len_le; lia). rewrite lval_take_S, Hv0. cbn [default]. unfold id.
  pose proof (lval_take_bound (le vn) (S n') (proj1 (wf_le vn) Hv)). pose proof (Bp_pos (S n')). pose proof B_pos. nia.
Qed.

(** What is left after a step. *)
Lemma step_value j s un' q qd r L :
  digits_inv (S j) s → (j ≤ m)%nat →
  value s.1 = L + Bp j * (qd * V + r) → 0 ≤ L < Bp j → 0 ≤ r < V →
  wf un' → len un' = (n + m + 1)%nat → value un' = L + Bp j * r →
  wf q → len q = (m + 1)%nat → le q = <[j := qd]> (le s.2) →
  digits_inv j (un', q).
Proof using All.
  intros [H1 H2 H3 H4 H5 H6] Hj Hval HL Hr Hu Hul Huv Hq Hql Hqe. constructor; cbn [fst snd]; try done.
  - rewrite Huv, Hqe. rewrite len_le in H4.
    rewrite (lval_drop _ j qd) by (apply list_lookup_insert_eq; lia). rewrite drop_insert_lt by lia.
    rewrite Bp_S, Hval in H5. rewrite <- H5. ring.
  - rewrite Huv. pose proof (Bp_pos j). nia.
Qed.

Lemma from_double_ok a : fits 64 a → wf (from_double a) ∧ len (from_double a) = 2%nat ∧ value (from_double a) = a.
Proof.
  intros Ha. unfold from_double. rewrite split_eq by done. split_and!; [|done|].
  - repeat constructor; try apply mod_B_fits; unfold fits, B in *; [apply Z.div_pos; lia|apply Z.div_lt_upper_bound; lia].
  - rewrite value_bval. cbn [digits]. rewrite !bval_cons. cbn [length]. rewrite Bp_S, Bp_0. unfold bval. cbn.
    pose proof (div_mod_B a). unfold B in *. lia.
Qed.

Lemma div_step_ok j s :
  (j ≤ m)%nat → digits_inv (S j) s → ∃ s', div_step vn n s j = Some (Ok s') ∧ digits_inv j s'.
Proof using All.
  intros Hj Hinv. pose proof Hinv as [H1 H2 H3 H4 H5 H6]. destruct s as [un q]. cbn [fst snd] in *. unfold div_step.
  pose proof V_bound as HV. pose proof (Bp_pos j) as HBj. pose proof B_pos as HB0.
  assert (limbs_ok (le un)) as Hlu by (by apply wf_le).
  assert (Bp (j + S n) = Bp (S j) * Bp n) as Hpow by (rewrite <- Bp_add; f_equal; lia).
  set (W := lval (take (S n) (drop j (le un)))). set (L := lval (take j (le un))).
  assert (0 ≤ L < Bp j) as HL by (by apply lval_take_bound).
  assert (value un = L + Bp j * W) as Hval.
  { apply lval_range; [done|rewrite <- len_le; lia|]. eapply Z.lt_le_trans; [exact H6|].
    rewrite Hpow. pose proof (Bp_pos (S j)). nia. }
  assert (W < V * B) as HW by (rewrite Bp_S in H6; nia).
  assert (0 ≤ W) as HW0.
  { assert (limbs_ok (drop j (le un))) as Hd by (by apply Forall_drop). apply (lval_take_bound _ (S n) Hd). }
  destruct (lookup_limb (le vn) n') as (v1&Hv1&_); [by apply wf_le|rewrite <- len_le; lia|].
  destruct (lookup_limb (le un) (j + n)) as (u0&Hu0&_); [done|rewrite <- len_le; lia|].
  destruct (lookup_limb (le un) (j + S n')) as (u1&Hu1&_); [done|rewrite <- len_le; lia|].
  destruct (lookup_limb (le un) (j + n')) as (u2&Hu2&_); [done|rewrite <- len_le; lia|].
  destruct (estimate_ok un vn n' j v0 v1 u0 u1 u2 Hv0 Hv1 Hu0 Hu1 Hu2 Hv H1 Htop Hlv HW) as (qhat&Hest&[Hq0 HqB]&Hlo&Hhi).
  change (S (S n')) with n in Hest, Hlo, Hhi. rewrite Hest. fold V in Hlo, Hhi. fold W in Hlo, Hhi. cbn [mbind option_bind result_bind].
  pose proof (Z.div_mod W V ltac:(lia)) as Hdm. pose proof (Z.mod_pos_bound W V ltac:(lia)) as Hmb.
  destruct (limbs_at_ok un j n) as (lhs&->&Hlhs&Elhs); [done|lia|]. cbn [mbind result_bind].
  destruct (from_double_ok qhat) as (Hfd&Hfl&Hfv); [unfold fits, B in *; lia|].
  destruct (mul_ok vn (from_double qhat) Hv Hfd) as (rhs&->&Hrhs&Hlr&Hvr). cbn [mbind result_bind]. rewrite Hfl, Hlv in Hlr.
  rewrite Hfv in Hvr. fold V in Hvr.
  destruct (sub_ok lhs rhs Hlhs Hrhs) as (t&k&->&Ht&Hlt&Hk&Hvt). cbn [mbind result_bind].
  assert (len lhs = S n) as Hll by (rewrite len_le, Elhs, length_take, length_drop, <- len_le; lia).
  assert (value lhs = W) as Hvl by (unfold value; by rewrite Elhs).
  rewrite Hll, Hlr, Hvl, Hvr in *. replace ((S n `max` (2 + n)) `max` 1)%nat with (S (S n)) in * by lia.
  replace (S n `max` ((2 + n) `max` 1))%nat with (S (S n)) in * by lia. rewrite (Nat.max_l (S (S n)) 1) in Hlt by lia.
  assert (Bp (S n) = B * Bp n ∧ Bp (S (S n)) = B * (B * Bp n)) as [EB1 EB2] by (by rewrite !Bp_S).
  assert (lval (take (S n) (le t)) = (W - V * qhat) mod Bp (S n)) as Htm.
  { rewrite (lval_take_mod (le t)) by (by apply wf_le). fold (value t). rewrite Hvt, EB2, <- EB1.
    replace (k * (B * Bp (S n))) with (k * B * Bp (S n)) by ring. apply Z_mod_plus_full. }
  destruct (put_range un t (seq j (S n)) j n) as (un1&Hrun1&Hun1&Hul1&Eun1); [intros d; rewrite elem_of_seq; lia|lia|lia|done|done|].
  assert (lval (drop (j + S n) (le un)) = 0) as Hhigh.
  { apply lval_drop_small; [done|]. fold (value un). eapply Z.lt_le_trans; [exact H6|].
    rewrite Hpow. pose proof (Bp_pos (S j)). nia. }
  assert (∀ l', length l' = S n → lval (take j (le un) ++ l' ++ drop (j + S n) (le un)) = L + Bp j * lval l') as Hput.
  { intros l' Hl'. rewrite !lval_app, Hhigh, length_take_le by (rewrite <- len_le; lia). fold L. ring. }
  destruct (set_le q j (wrap 32 qhat)) as (q1&Hs1&Eq1); [lia|]. rewrite (wrap_small 32 qhat) in * by done.
  assert (wf q1) as Hwq1 by (apply wf_le; rewrite Eq1; apply limbs_ok_insert; [by apply wf_le|done]).
  assert (len q1 = (m + 1)%nat) as Hlq1 by (rewrite len_le, Eq1, length_insert, <- len_le; done).
  destruct (Z.eqb_spec k 0) as [->|Hk1]; rewrite Hrun1; cbn [mbind result_bind]; rewrite Hs1; cbn [mbind result_bind].
  - assert (qhat = W / V) as ->.
    { assert (0 ≤ value t) by (apply (lval_bound (le t)); by apply wf_le). nia. }
    eexists. split; [done|]. eapply (step_value j (un, q) un1 q1 (W / V) (W mod V) L); try done; try lia.
    + cbn [fst]. rewrite Hval. f_equal. f_equal. lia.
    + unfold value. rewrite Eun1, Hput by (rewrite length_take, <- len_le; lia). rewrite Htm. do 2 f_equal.
      rewrite Z.mod_small; nia.
  - assert (k = 1) as -> by lia.
    assert (qhat = W / V + 1) as Hqe.
    { pose proof (lval_bound (le t) (proj1 (wf_le t) Ht)) as Hb. fold (value t) in Hb. rewrite <- len_le, Hlt in Hb.
      assert (W < V * qhat) as Hlt2 by lia. destruct (decide (qhat = W / V)) as [Heq|]; [rewrite Heq in Hlt2|]; lia. }
    assert (W - V * qhat = W mod V - V) as Hneg by (rewrite Hqe; lia).
    rewrite (get_Ok q1 j qhat) by (rewrite Eq1; apply list_lookup_insert_eq; rewrite <- len_le; lia). cbn [mbind result_bind].
    assert (0 ≤ W / V) by (by apply Z.div_pos; lia). rewrite ck_sub by lia. cbn [mbind result_bind].
    destruct (set_le q1 j (qhat - 1)) as (q2&->&Eq2); [lia|]. cbn [mbind result_bind].
    destruct (limbs_at_ok un1 j n) as (u&->&Hwu&Eu); [done|lia|]. cbn [mbind result_bind].
    destruct (add_ok vn u Hv Hwu) as (r&->&Hwr&Hlr2&Hvr2). cbn [mbind result_bind].
    assert (le u = take (S n) (le t)) as Eu2.
    { rewrite Eu, Eun1. rewrite drop_app_length' by (rewrite length_take_le; [done|rewrite <- len_le; lia]).
      rewrite take_app_length'; [done|rewrite length_take_le; [done|rewrite <- len_le; lia]]. }
    assert (len u = S n) as Hlu2 by (rewrite len_le, Eu2, length_take_le; [done|rewrite <- len_le; lia]).
    assert (value u = W mod V - V + Bp (S n)) as Hvu.
    { unfold value. rewrite Eu2, Htm, Hneg. symmetry. apply Z.mod_unique_pos with (-1); nia. }
    rewrite Hlu2, Hlv in Hlr2.
    destruct (put_range un1 r (reverse (seq j (S n))) j n) as (un2&->&Hun2&Hul2&Eun2);
      [intros d; rewrite elem_of_reverse, elem_of_seq; lia|lia|lia|done|done|]. cbn [mbind result_bind].
    eexists. split; [done|]. eapply (step_value j (un, q) un2 q2 (W / V) (W mod V) L); try done; try lia.
    + cbn [fst]. rewrite Hval. f_equal. f_equal. lia.
    + unfold value. rewrite Eun2, Eun1.
      rewrite take_app_length' by (rewrite length_take_le; [done|rewrite <- len_le; lia]).
      rewrite (drop_app_ge _ _ (j + S n)), length_take_le by (rewrite ?length_take_le; rewrite <- ?len_le; lia).
      replace (j + S n - j)%nat with (S n) by lia.
      rewrite drop_app_length' by (rewrite length_take_le; [done|rewrite <- len_le; lia]).
      rewrite Hput by (rewrite length_take_le; [done|rewrite <- len_le; lia]). do 2 f_equal.
      rewrite (lval_take_mod (le r)) by (by apply wf_le). fold (value r). rewrite Hvr2, Hvu. fold V.
      replace (V + (W mod V - V + Bp (S n))) with (W mod V + 1 * Bp (S n)) by ring. rewrite Z_mod_plus_full.
      apply Z.mod_small. nia.
    + apply wf_le. rewrite Eq2. apply limbs_ok_insert; [by apply wf_le|unfold fits in *; unfold B in *; lia].
    + by rewrite len_le, Eq2, length_insert, <- len_le.
    + cbn [snd]. rewrite Eq2, Eq1, list_insert_insert_eq. f_equal. lia.
Qed.
End div_step.

(** ** The loop *)

Lemma div_loop_ok vn n' m N v0 k s :
  let n := S (S n') in
  wf vn → len vn = n → le vn !! S n' = Some v0 → B ≤ 2 * v0 → (k ≤ m + 1)%nat →
  digits_inv vn n' m N k s →
  ∃ s', div_loop vn n s (reverse (seq 0 k)) = Some (Ok s') ∧ digits_inv vn n' m N 0 s'.
Proof.
  intros n Hv Hl Hv0 Htop. revert s. induction k as [|k IH]; intros s Hk Hs; [by exists s|].
  rewrite seq_S, reverse_snoc. cbn [div_loop Nat.add].
  destruct (div_step_ok vn n' m N Hv Hl v0 Hv0 Htop k s) as (s'&Hrun&Hs'); [lia|done|]. fold n in Hrun. rewrite Hrun.
  cbn [mbind option_bind]. apply IH; [lia|done].
Qed.

(** ** The remainder *)

Lemma lor_disjoint a b k : 0 ≤ k → 0 ≤ a < 2 ^ k → Z.lor a (b * 2 ^ k) = a + b * 2 ^ k.
Proof.
  intros Hk Ha. pose proof (Z.add_lor_land a (b * 2 ^ k)) as Hal.
  assert (Z.land a (b * 2 ^ k) = 0) as Hz; [|lia].
  apply Z.bits_inj'. intros i Hi. rewrite Z.land_spec, Z.bits_0.
  destruct (Z.lt_ge_cases i k) as [Hlt|Hge].
  - rewrite Z.mul_pow2_bits_low by done. apply andb_false_r.
  - destruct (Z.eq_dec a 0) as [->|Hne]; [by rewrite Z.testbit_0_l|].
    rewrite (Z.bits_above_log2 a i); [done|lia|]. eapply Z.lt_le_trans; [|exact Hge]. apply Z.log2_lt_pow2; lia.
Qed.

Lemma unshift_limb lo hi nb :
  fits 32 lo → fits 32 hi → 0 < nb < 32 →
  Z.lor (Z.shiftr lo nb) (wrap 32 (Z.shiftl hi (SHIFT - nb))) = lo / 2 ^ nb + hi mod 2 ^ nb * 2 ^ (32 - nb) ∧
  fits 32 (lo / 2 ^ nb + hi mod 2 ^ nb * 2 ^ (32 - nb)).
Proof.
  intros Hlo Hhi Hnb. unfold SHIFT, fits, wrap in *.
  assert (2 ^ 32 = 2 ^ nb * 2 ^ (32 - nb)) as Hp by (rewrite <- Z.pow_add_r by lia; f_equal; lia).
  assert (0 < 2 ^ nb) by (apply Z.pow_pos_nonneg; lia). assert (0 < 2 ^ (32 - nb)) by (apply Z.pow_pos_nonneg; lia).
  rewrite Z.shiftr_div_pow2, Z.shiftl_mul_pow2, Hp, Z.mul_mod_distr_r by lia.
  assert (0 ≤ lo / 2 ^ nb < 2 ^ (32 - nb)) as Hd.
  { split; [apply Z.div_pos; lia|apply Z.div_lt_upper_bound; lia]. }
  split; [apply lor_disjoint; lia|]. pose proof (Z.mod_pos_bound hi (2 ^ nb) ltac:(lia)). nia.
Qed.

Section unshift.
Context (un : BigUint) (nb : Z) (n : nat).
Context (Hu : wf un) (Hn : (1 <= n <= len un)%nat) (Hnb : 0 < nb < 32).

Let low := default 0 (le un !! 0%nat) mod 2 ^ nb.

Record shift_inv (d : nat) (r : BigUint) : Prop := {
  sh_len : len r = n;
  sh_ok : wf r;
  sh_value : 2 ^ nb * lval (take d (le r)) = lval (take d (le un)) - low + default 0 (le un !! d) mod 2 ^ nb * Bp d;
}.

Lemma unshift_step_ok d r :
  (d < n - 1)%nat → shift_inv d r → ∃ r', unshift_step un nb r d = Ok r' ∧ shift_inv (S d) r'.
Proof using All.
  intros Hd [H1 H2 H3]. unfold unshift_step.
  destruct (lookup_limb (le un) d) as (lo&Hlo&Blo); [by apply wf_le|rewrite <- len_le; lia|].
  destruct (lookup_limb (le un) (d + 1)) as (hi&Hhi&Bhi); [by apply wf_le|rewrite <- len_le; lia|].
  rewrite (get_Ok un d lo Hlo), (get_Ok un (d + 1) hi Hhi). cbn [mbind result_bind].
  destruct (unshift_limb lo hi nb Blo Bhi Hnb) as [-> Hfit].
  destruct (set_le r d (lo / 2 ^ nb + hi mod 2 ^ nb * 2 ^ (32 - nb))) as (r'&->&Hr'); [lia|].
  exists r'. split; [done|]. constructor.
  - by rewrite len_le, Hr', length_insert, <- len_le.
  - apply wf_le. rewrite Hr'. apply limbs_ok_insert; [by apply wf_le|done].
  - rewrite Hr', take_insert_at by (rewrite <- len_le; lia). rewrite Nat.add_1_r in Hhi.
    rewrite (lval_take_S (le un)), Hlo, Hhi. rewrite Hlo in H3. cbn [default] in *. unfold id in *.
    assert (B = 2 ^ nb * 2 ^ (32 - nb)) as Hp by (unfold B; rewrite <- Z.pow_add_r by lia; f_equal; lia).
    rewrite Z.mul_add_distr_l, H3, Bp_S, Hp. pose proof (Z.div_mod lo (2 ^ nb)) as Hdm.
    assert (2 ^ nb ≠ 0) as Hne by (apply Z.pow_nonzero; lia). specialize (Hdm Hne).
    replace (lo * Bp d) with ((2 ^ nb * (lo / 2 ^ nb) + lo mod 2 ^ nb) * Bp d) by (by rewrite <- Hdm). ring.
Qed.

Lemma unshift_ok :
  value un mod 2 ^ nb = 0 → value un < Bp n →
  ∃ r, (r ← foldl_m (unshift_step un nb) (with_capacity n) (seq 0 (n - 1)); top ← get un (n - 1); set r (n - 1) (Z.shiftr top nb)) = Ok r ∧
    wf r ∧ len r = n ∧ value r = value un / 2 ^ nb.
Proof using All.
  intros Hmod Hsmall. assert (0 < 2 ^ nb) as Hp by (apply Z.pow_pos_nonneg; lia).
  destruct (foldl_m_seq shift_inv (unshift_step un nb) 0 (n - 1) (with_capacity n)) as (r&->&[H1 H2 H3]).
  - constructor.
    + unfold len, with_capacity. cbn [digits]. rewrite length_replicate. lia.
    + apply limbs_ok_zeros.
    + rewrite !take_0, lval_nil, Bp_0. unfold low. lia.
  - intros d r Hd. apply unshift_step_ok. lia.
  - cbn [mbind result_bind Nat.add] in *.
    destruct (lookup_limb (le un) (n - 1)) as (top&Htop&Btop); [by apply wf_le|rewrite <- len_le; lia|].
    rewrite (get_Ok un (n - 1) top Htop). cbn [mbind result_bind]. rewrite Z.shiftr_div_pow2 by lia.
    destruct (set_le r (n - 1) (top / 2 ^ nb)) as (r'&->&Hr'); [lia|]. exists r'. split; [done|].
    unfold fits in Btop. pose proof (Z.div_mod top (2 ^ nb) ltac:(lia)) as Hdm.
    split_and!.
    + apply wf_le. rewrite Hr'. apply limbs_ok_insert; [by apply wf_le|].
      split; [apply Z.div_pos; lia|]. apply Z.div_lt_upper_bound; nia.
    + by rewrite len_le, Hr', length_insert, <- len_le.
    + rewrite Htop in H3. cbn [default] in H3. unfold id in H3.
      assert (lval (take n (le un)) = value un) as Hall.
      { rewrite lval_take_mod by (by apply wf_le). fold (value un). apply Z.mod_small. split; [|done].
        by apply lval_bound, wf_le. }
      assert (low = 0) as Hlow.
      { unfold low. transitivity (value un mod 2 ^ nb); [|done]. assert (lval (take 1 (le un)) = value un mod Bp 1) as H0 by (apply lval_take_mod; by apply wf_le).
        rewrite lval_take_S, take_0, lval_nil, Bp_0 in H0.
        assert (default 0 (le un !! 0%nat) = value un mod Bp 1) as -> by (rewrite <- H0; ring).
        apply Z.mod_mod_divide. rewrite Bp_S, Bp_0. unfold B. exists (2 ^ (32 - nb)).
        rewrite <- Z.pow_add_r by lia. rewrite Z.mul_1_r. f_equal. lia. }
      unfold value at 1. rewrite <- (take_ge (le r') (S (n - 1))) by (rewrite Hr', length_insert, <- len_le; lia).
      rewrite Hr', take_insert_at by (rewrite <- len_le; lia).
      apply Z.div_unique_exact; [lia|]. rewrite <- Hall. replace n with (S (n - 1)) at 1 by lia.
      rewrite lval_take_S, Htop. cbn [default]. unfold id. rewrite Z.mul_add_distr_l, H3, Hlow.
      replace (top * Bp (n - 1)) with ((2 ^ nb * (top / 2 ^ nb) + top mod 2 ^ nb) * Bp (n - 1)) by (by rewrite <- Hdm). ring.
Qed.
End unshift.

(** ** The quotient and the remainder *)

Lemma normalizer_ok my : 0 < my < 2 ^ 32 → 0 ≤ leading_zeros my < 32 ∧ 2 ^ 31 ≤ my * 2 ^ leading_zeros my < 2 ^ 32.
Proof.
  intros Hmy. unfold leading_zeros. rewrite (proj2 (Z.eqb_neq my 0)) by lia.
  assert (0 ≤ Z.log2 my ≤ 31) as Hlog.
  { split; [apply Z.log2_nonneg|]. apply Z.lt_succ_r. apply Z.log2_lt_pow2; lia. }
  pose proof (Z.log2_spec my ltac:(lia)) as Hs. split; [lia|].
  assert (0 < 2 ^ (31 - Z.log2 my)) by (apply Z.pow_pos_nonneg; lia).
  assert (2 ^ 31 = 2 ^ Z.log2 my * 2 ^ (31 - Z.log2 my)) as E1 by (rewrite <- Z.pow_add_r by lia; f_equal; lia).
  assert (2 ^ 32 = 2 ^ Z.succ (Z.log2 my) * 2 ^ (31 - Z.log2 my)) as E2 by (rewrite <- Z.pow_add_r by lia; f_equal; lia).
  rewrite E1, E2. nia.
Qed.

Lemma Bp_lt_inv a b : Bp a < Bp b → (a < b)%nat.
Proof. intros Hlt. destruct (decide (a < b)%nat) as [|Hge]; [done|]. pose proof (Bp_mono b a ltac:(lia)). lia. Qed.

Lemma wf_single v : fits 32 v → wf (from_single v).
Proof. intros. by apply Forall_singleton. Qed.

(** The normalized divisor. *)
Lemma normalized_ok y my ry :
  wf y → digits y = my :: ry → my ≠ 0 →
  let norm := 2 ^ leading_zeros my in
  ∃ vn, (w ← mul y (from_single norm); Ok (lstrip w)) = Ok vn ∧ wf vn ∧ len vn = S (length ry) ∧ value vn = value y * norm ∧
    ∃ v0, le vn !! length ry = Some v0 ∧ B ≤ 2 * v0.
Proof.
  intros Hy Hdy Hne norm.
  assert (limbs_ok (my :: ry)) as [Hmy Hry]%Forall_cons by (by rewrite <- Hdy). unfold fits in Hmy.
  destruct (normalizer_ok my) as [Hnb Hn31]; [lia|]. fold norm in Hn31.
  assert (0 < norm) as Hnorm by (apply Z.pow_pos_nonneg; lia).
  assert (fits 32 norm) as Hnf by (split; [lia|nia]).
  destruct (mul_ok y (from_single norm) Hy (wf_single _ Hnf)) as (w&->&Hw&_&Hvw). cbn [mbind result_bind].
  assert (value (from_single norm) = norm) as Hvn by (unfold value, le, from_single; cbn; unfold B; lia). rewrite Hvn in Hvw.
  assert (value y = my * Bp (length ry) + bval ry) as Hvy by (rewrite value_bval, Hdy; apply bval_cons).
  pose proof (bval_bound ry Hry) as Hrb. pose proof (Bp_pos (length ry)) as HBp.
  assert ((my + 1) * norm ≤ B) as Htop.
  { assert (B = 2 ^ (32 - leading_zeros my) * norm) as -> by (unfold norm, B; rewrite <- Z.pow_add_r by lia; f_equal; lia).
    apply Z.mul_le_mono_nonneg_r; [lia|]. assert (my < 2 ^ (32 - leading_zeros my)); [|lia].
    apply (Z.mul_lt_mono_pos_r norm); [done|]. unfold norm at 2. rewrite <- Z.pow_add_r by lia. replace (32 - leading_zeros my + leading_zeros my) with 32 by lia. lia. }
  assert (2 ^ 31 * Bp (length ry) ≤ value w) as Hlo by (rewrite Hvw, Hvy; nia).
  assert (value w < Bp (S (length ry))) as Hhi by (rewrite Hvw, Hvy, Bp_S; nia).
  destruct (lstrip_ok w Hw) as (Hwf&Hval&_&_&Hnz). destruct Hnz as (d&ds&Hds&Hd&Hb1&Hb2); [lia|].
  assert (length ds = length ry) as Hlen.
  { assert (length ds < S (length ry))%nat by (apply Bp_lt_inv; lia). assert (length ry < S (length ds))%nat by (apply Bp_lt_inv; lia). lia. }
  exists (lstrip w). split_and!; [done|done|unfold len; rewrite Hds; cbn; by rewrite Hlen|by rewrite Hval|].
  exists d. split.
  - unfold le. rewrite Hds, reverse_cons, lookup_app_r by (rewrite length_reverse; lia). by rewrite length_reverse, Hlen, Nat.sub_diag.
  - assert (value w = d * Bp (length ry) + bval ds) as Hvd by (rewrite <- Hval, value_bval, Hds, <- Hlen; apply bval_cons).
    assert (limbs_ok ds) as Hok by (unfold wf in Hwf; rewrite Hds in Hwf; by apply Forall_cons in Hwf as [_ ?]).
    pose proof (bval_bound ds Hok) as Hdb. rewrite Hlen in Hdb. unfold B. nia.
Qed.

Lemma div_ok x y mx rx my ry :
  wf x → wf y → digits x = mx :: rx → digits y = my :: ry → mx ≠ 0 → my ≠ 0 → (1 < len y < len x)%nat →
  ∃ q r, div x y true = Some (Ok (Some (q, r))) ∧ wf q ∧ wf r ∧ value q = value x / value y ∧ value r = value x mod value y ∧
    len q = (len x - len y + 1)%nat ∧ len r = if leading_zeros my =? 0 then S (len x) else len y.
Proof.
  intros Hx Hy Hdx Hdy Hmx Hmy Hlen. unfold div.
  assert (msb y = Ok my) as Emy by (unfold msb; by rewrite Hdy). assert (msb x = Ok mx) as Emx by (unfold msb; by rewrite Hdx).
  rewrite decide_False, Emy, Emx by lia. cbn [mbind result_bind].
  rewrite (proj2 (Z.eqb_neq my 0)), (proj2 (Z.eqb_neq mx 0)), bool_decide_false by (done || lia). cbn [orb].
  assert (limbs_ok (my :: ry)) as [Hmyb Hry]%Forall_cons by (by rewrite <- Hdy). unfold fits in Hmyb.
  destruct (normalizer_ok my) as [Hnb Hn31]; [lia|]. rewrite (proj2 (Z.ltb_lt _ _)) by lia. cbn [mbind result_bind].
  destruct (normalized_ok y my ry Hy Hdy Hmy) as (vn&Hvrun&Hvn&Hvl&Hvv&v0&Hv0&Hvtop).
  set (nb := leading_zeros my) in *. set (norm := 2 ^ nb) in *.
  assert (0 < norm) as Hnorm by (apply Z.pow_pos_nonneg; lia).
  assert (fits 32 norm) as Hnf by (split; [lia|nia]).
  destruct (mul_ok x (from_single norm) Hx (wf_single _ Hnf)) as (xn&->&Hxn&Hxl&Hxv). cbn [mbind result_bind].
  assert (value (from_single norm) = norm) as Hvnorm by (unfold value, le, from_single; cbn; unfold B; lia). rewrite Hvnorm in Hxv.
  change (len (from_single norm)) with 1%nat in Hxl.
  destruct (mul y (from_single norm)) as [w| |]; cbn [mbind result_bind] in *; [|done..]. injection Hvrun as ->.
  set (n := len y) in *. set (m := (len x - n)%nat).
  destruct (lpad_ok xn (n + m + 1) Hxn) as (Hpw&Hpv&Hpl).
  assert (n = S (length ry)) as Hn by (unfold n, len; by rewrite Hdy).
  destruct (length ry) as [|n'] eqn:Hlr; [lia|].
  assert (Bp (S n') ≤ value y) as Hylo.
  { rewrite value_bval, Hdy, <- Hlr. apply bval_lead; [by rewrite <- Hdy|done]. }
  assert (value x < Bp (n + m)) as Hxhi.
  { pose proof (bval_bound (digits x) Hx) as Hb. rewrite value_bval. fold (len x) in Hb. replace (n + m)%nat with (len x) by lia. lia. }
  pose proof (Bp_pos (S n')) as HBn. assert (0 ≤ value x) as Hx0 by (apply (bval_bound (digits x) Hx)).
  destruct (div_loop_ok vn n' m (value x * norm) v0 (m + 1) (lpad xn (n + m + 1), with_capacity (m + 1)) Hvn ltac:(lia) Hv0 Hvtop ltac:(lia))
    as ([un q]&Hrun&[D1 D2 D3 D4 D5 D6]).
  { constructor; cbn [fst snd]; try done.
    - lia.
    - apply limbs_ok_zeros.
    - unfold len, with_capacity. cbn [digits]. rewrite length_replicate. lia.
    - rewrite le_with_capacity, drop_replicate, lval_replicate, Hpv, Hxv. ring.
    - rewrite Hpv, Hxv, Hvv. replace (n + m)%nat with (S n' + (m + 1))%nat in Hxhi by lia. rewrite Bp_add in Hxhi.
      pose proof (Bp_pos (m + 1)) as Hb1. assert (value x < value y * Bp (m + 1)) as Hxy by (eapply Z.lt_le_trans; [exact Hxhi|]; apply Z.mul_le_mono_nonneg_r; lia).
      apply (Z.mul_lt_mono_pos_r norm) in Hxy; lia. }
  rewrite <- Hn in Hrun. rewrite Hrun. cbn [mbind option_bind result_bind fst snd] in *.
  rewrite drop_0, Bp_0, Z.mul_1_r in D5. rewrite Bp_0, Z.mul_1_r in D6. fold (value q) in D5. rewrite Hvv in D5, D6.
  assert (0 ≤ value un) as Hu0 by (by apply lval_bound, wf_le).
  assert (value q = value x / value y) as Hq.
  { rewrite <- (Z.div_mul_cancel_r (value x) (value y) norm) by lia. apply Z.div_unique with (value un); lia. }
  assert (value un = value x mod value y * norm) as Hr.
  { rewrite <- Z.mul_mod_distr_r by lia. apply Z.mod_unique with (value q); lia. }
  destruct (Z.ltb_spec 0 nb) as [Hpos|Hz].
  - destruct (unshift_ok un nb n D1 ltac:(lia) ltac:(lia)) as (r&Hrr&Hwr&Hlr2&Hvr).
    + fold norm. rewrite Hr. apply Z_mod_mult.
    + eapply Z.lt_le_trans; [exact D6|]. rewrite <- Hvv. pose proof (lval_bound (le vn) (proj1 (wf_le vn) Hvn)) as Hb.
      rewrite <- len_le, Hvl in Hb. fold (value vn) in Hb. rewrite Hn. lia.
    + destruct (foldl_m _ _ _) as [r0| |]; cbn [mbind result_bind] in *; [|done..].
      destruct (get un (n - 1)) as [top| |]; cbn [mbind result_bind] in *; [|done..]. rewrite Hrr. cbn [mbind result_bind].
      exists q, r. split_and!; try done.
      * rewrite Hvr, Hr. fold norm. apply Z.div_mul. lia.
      * rewrite (proj2 (Z.eqb_neq nb 0)) by lia. done.
  - assert (nb = 0) as Hnb0 by lia. exists q, un. split_and!; try done.
    + rewrite Hr. unfold norm. rewrite Hnb0. cbn. lia.
    + rewrite Hnb0. cbn. lia.
Qed.

(** ** The operations compute what they say *)

Lemma sub_value x y :
  wf x → wf y →
  ∃ r, sub x y = Ok r ∧
    match r with
    | inl z => value y ≤ value x ∧ wf z ∧ value z = value x - value y
    | inr z => value x < value y ∧ wf z ∧ value z = value x - value y + Bp (len x `max` len y)
    end.
Proof.
  intros Hx Hy. destruct (sub_ok x y Hx Hy) as (z&k&Hrun&Hz&Hlen&Hk&Hv). eexists. split; [exact Hrun|].
  pose proof (lval_bound (le z) (proj1 (wf_le z) Hz)) as Hb. fold (value z) in Hb. rewrite <- len_le, Hlen in Hb.
  destruct (Z.eqb_spec k 0) as [E|Hk0]; [rewrite E in Hv; split_and!; [lia|done|lia]|]. assert (k = 1) as E by lia. rewrite E in *.
  destruct (decide (len x = 0 ∧ len y = 0)%nat) as [[Ex Ey]|Hne].
  - exfalso. unfold len in Ex, Ey. apply length_zero_iff_nil in Ex, Ey. destruct x as [dx], y as [dy]. cbn in Ex, Ey. subst. by vm_compute in Hrun.
  - rewrite (Nat.max_l (len x `max` len y) 1) in Hb by lia. split_and!; [lia|done|lia].
Qed.

(** The limb-wise operations on big integers are the operations on the
    integers they represent: for all numbers with limbs of 32 bits, [add], [mul]
    and [div_unit] never panic and give the sum, the product and the quotient (a
    zero divisor counts as one), [sub] gives the difference, or the error value
    with the borrow added exactly when the subtrahend is larger, [cmp] compares
    the values whatever the number of leading zeros, and all results have limbs of
    32 bits again. *)
Theorem biguint_arithmetic_correct x y c :
  wf x → wf y → fits 32 c →
  (∃ z, add x y = Ok z ∧ wf z ∧ value z = value x + value y) ∧
  (∃ z, mul x y = Ok z ∧ wf z ∧ value z = value x * value y) ∧
  (∃ z, div_unit x c = Ok z ∧ wf z ∧ value z = value x / Z.max c 1) ∧
  (∃ r, sub x y = Ok r ∧
     match r with
     | inl z => value y ≤ value x ∧ wf z ∧ value z = value x - value y
     | inr z => value x < value y ∧ wf z ∧ value z = value x - value y + Bp (len x `max` len y)
     end) ∧
  cmp x y = (value x ?= value y).
Proof.
  intros Hx Hy Hc. split_and!.
  - destruct (add_ok x y Hx Hy) as (z&?&?&_&?). by exists z.
  - destruct (mul_ok x y Hx Hy) as (z&?&?&_&?). by exists z.
  - destruct (div_unit_ok x c Hx Hc) as (z&?&?&_&?). by exists z.
  - by apply sub_value.
  - by apply cmp_ok.
Qed.

(** C7. Long division (Knuth's algorithm D): for a divisor of at least two limbs
    and a longer dividend, both without leading zeros, the digit estimates need
    at most two corrections each, no step overflows or panics, and the result is
    the quotient and the remainder of the integers, with limbs of 32 bits.  The
    remainder has the limbs of the divisor, except that it keeps one limb more
    than the dividend when the divisor's top bit is set. *)
Theorem biguint_div_correct x y mx rx my ry :
  wf x → wf y → digits x = mx :: rx → digits y = my :: ry → mx ≠ 0 → my ≠ 0 → (1 < len y < len x)%nat →
  ∃ q r, div x y true = Some (Ok (Some (q, r))) ∧ wf q ∧ wf r ∧
    value q = value x / value y ∧ value r = value x mod value y ∧
    len q = (len x - len y + 1)%nat ∧ len r = if leading_zeros my =? 0 then S (len x) else len y.
Proof. apply div_ok. Qed.

Module SmallNumbers.

Definition x : BigUint := MkBigUint [7; 4294967295; 0; 12].
Definition y : BigUint := MkBigUint [2147483648; 5].

Lemma wf_x : wf x.
Proof. by repeat (apply Forall_cons; split; [done|]). Qed.

Lemma wf_y : wf y.
Proof. by repeat (apply Forall_cons; split; [done|]). Qed.

Lemma biguint_arithmetic_correct_witness :
  wf x ∧ wf y ∧ fits 32 10 ∧ (∃ z, mul x y = Ok z ∧ wf z ∧ value z = value x * value y) ∧ cmp x y = Gt.
Proof.
  pose proof (biguint_arithmetic_correct x y 10 wf_x wf_y ltac:(done)) as (_&Hm&_&_&Hc).
  split_and!; [apply wf_x|apply wf_y|done|exact Hm|exact Hc].
Defined.

Lemma biguint_div_correct_witness :
  (1 < len y < len x)%nat ∧ ∃ q r, div x y true = Some (Ok (Some (q, r))) ∧ value q = value x / value y ∧ value r = value x mod value y.
Proof.
  split; [vm_compute; lia|].
  destruct (biguint_div_correct x y 7 [4294967295; 0; 12] 2147483648 [5] wf_x wf_y eq_refl eq_refl ltac:(done) ltac:(done) ltac:(vm_compute; lia))
    as (q&r&Hd&_&_&Hq&Hr&_).
  exists q, r. split_and!; assumption.
Defined.

(** Zero keeps its limbs, so a zero of five limbs does not fit 128 bits. *)
Lemma long_zero_does_not_fit : try_from 128 (MkBigUint [0; 0; 0; 0; 0]) = Ok None ∧ try_from 128 (MkBigUint [0; 0; 0; 0; 1]) = Ok (Some 1).
Proof. by vm_compute. Qed.

End SmallNumbers.
