(* ===== verification/Arith128.v ===== *)
(** * 128-bit helpers and rationals (src/primitives/arithmetic/src/helpers_128bit.rs, rational128.rs)

    [multiply_by_rational] computes [a * b / c] on 128-bit integers through big
    integers when the product does not fit; [Rational128] compares, adds and
    subtracts fractions of 128-bit integers with it. *)
From Stdlib Require Import QArith.
From stdpp Require Import strings.
From S2P Require Import Prelude BigUint BigUintFacts BigUintDiv.

Local Open Scope Z_scope.
Local Open Scope list_scope.

(** A run that may also run out of fuel ([None]). *)
Abbreviation fuelled E A := (option (result E A)).

Definition lift {E A} (m : run A) : fuelled E A :=
  Some (match m with Ok a => Ok a | Err e => match e : Empty_set with end | Panic => Panic end).

Definition and_then {E A C} (m : fuelled E A) (k : A → fuelled E C) : fuelled E C :=
  match m with
  | Some (Ok a) => k a
  | Some (Err e) => Some (Err e)
  | Some Panic => Some Panic
  | None => None
  end.

Declare Scope fuel_scope.
Notation "'do!' x <- m ; k" := (and_then m (λ x, k)) (at level 20, x pattern, m at level 100, k at level 200, right associativity) : fuel_scope.
Local Open Scope fuel_scope.

(** ** Helpers *)

Fixpoint gcd (fuel : nat) (a b : Z) : option Z :=
  match fuel with
  | O => None
  | S fuel =>
      if a =? b then Some b
      else if a =? 0 then Some b
      else if b =? 0 then Some a
      else
        match Z.land a 1 =? 0, Z.land b 1 =? 0 with
        | true, false => gcd fuel (Z.shiftr a 1) b
        | false, true => gcd fuel (Z.shiftr b 1) a
        | true, true => g ← gcd fuel (Z.shiftr a 1) (Z.shiftr b 1); Some (wrap 128 (Z.shiftl g 1))
        | false, false =>
            let x := Z.min a b in
            let y := Z.max a b in
            gcd fuel (Z.shiftr (y - x) 1) x
        end
  end.

(** Every step halves the product of two positive 128-bit integers. *)
Definition gcd_fuel : nat := 256.

Definition split_u128 (a : Z) : Z * Z := (wrap 64 (Z.shiftr a 64), wrap 64 a).

Definition to_big_uint (x : Z) : BigUint :=
  let '(xh, xl) := split_u128 x in
  let '(xhh, xhl) := split xh in
  let '(xlh, xll) := split xl in
  lstrip (from_limbs [xhh; xhl; xlh; xll]).

Definition cannot_fit : string := "result cannot fit in u128".

(** The product and its quotient by [c], through big integers when the product
    does not fit. *)
Definition multiply_and_divide (a b c : Z) : fuelled string Z :=
  match checked_mul 128 a b with
  | Some x => Some (Ok (x / c))
  | None =>
      let a_num := to_big_uint a in
      let b_num := to_big_uint b in
      let c_num := to_big_uint c in
      do! ab <- lift (mul a_num b_num);
      let ab := lstrip ab in
      do! q <- (if (len c_num =? 1)%nat then lift (div_unit ab (wrap 32 c))
                else
                  do! d <- (d ← div ab c_num true; lift d);
                  let '(q, r) := default (big_zero, big_zero) d in
                  do! r <- lift (r ← try_from 128 r; expect r);
                  if c / 2 <? r then lift (add q (to_big_uint 1)) else Some (Ok q));
      do! o <- lift (try_from 128 (lstrip q));
      Some (match o with Some x => Ok x | None => Err cannot_fit end)
  end.

Definition multiply_by_rational (a b c : Z) : fuelled string Z :=
  if (a =? 0) || (b =? 0) then Some (Ok 0)
  else
    let c := Z.max c 1 in
    let '(a, b) := if a <? b then (b, a) else (a, b) in
    if a mod c =? 0 then multiply_and_divide (a / c) b 1
    else if b mod c =? 0 then multiply_and_divide a (b / c) 1
    else multiply_and_divide a b c.

(** ** Rationals *)

Record Rational128 : Type := MkRational { rat_n : Z; rat_d : Z }.

Definition rat_zero : Rational128 := MkRational 0 1.
Definition rat_is_zero (x : Rational128) : bool := rat_n x =? 0.
Definition rat_from (n d : Z) : Rational128 := MkRational n (Z.max d 1).
Definition from_unchecked (n d : Z) : Rational128 := MkRational n d.

Definition to_den (x : Rational128) (den : Z) : fuelled string Rational128 :=
  if den =? rat_d x then Some (Ok x)
  else do! n <- multiply_by_rational (rat_n x) den (rat_d x); Some (Ok (MkRational n den)).

Definition lcm (x y : Rational128) : fuelled string Z :=
  if rat_d x =? rat_d y then Some (Ok (rat_d x))
  else
    g ← gcd gcd_fuel (rat_d x) (rat_d y);
    multiply_by_rational (rat_d x) (rat_d y) g.

Definition u128_saturating_add (a b : Z) : Z := Z.min (2 ^ 128 - 1) (a + b).

Definition lazy_saturating_add (x y : Rational128) : Rational128 :=
  if rat_is_zero y then x else MkRational (u128_saturating_add (rat_n x) (rat_n y)) (rat_d x).

Definition lazy_saturating_sub (x y : Rational128) : Rational128 :=
  if rat_is_zero y then x else MkRational (saturating_sub (rat_n x) (rat_n y)) (rat_d x).

(** [Result::map_err] *)
Definition map_err {E F A} (f : E → F) (m : fuelled E A) : fuelled F A :=
  match m with
  | Some (Ok a) => Some (Ok a)
  | Some (Err e) => Some (Err (f e))
  | Some Panic => Some Panic
  | None => None
  end.

Definition ok_or {E A} (o : option A) (e : E) : fuelled E A :=
  Some (match o with Some a => Ok a | None => Err e end).

Definition failed_to_scale : string := "failed to scale to denominator".
Definition add_overflow : string := "overflow while adding numerators".
Definition sub_overflow : string := "overflow while subtracting numerators".

Definition rat_checked_add (x y : Rational128) : fuelled string Rational128 :=
  do! l <- map_err (λ _, failed_to_scale) (lcm x y);
  do! x' <- map_err (λ _, failed_to_scale) (to_den x l);
  do! y' <- map_err (λ _, failed_to_scale) (to_den y l);
  do! n <- ok_or (checked_add 128 (rat_n x') (rat_n y')) add_overflow;
  Some (Ok (MkRational n (rat_d x'))).

Definition rat_checked_sub (x y : Rational128) : fuelled string Rational128 :=
  do! l <- map_err (λ _, failed_to_scale) (lcm x y);
  do! x' <- map_err (λ _, failed_to_scale) (to_den x l);
  do! y' <- map_err (λ _, failed_to_scale) (to_den y l);
  do! n <- ok_or (checked_sub (rat_n x') (rat_n y')) sub_overflow;
  Some (Ok (MkRational n (rat_d x'))).

Definition rat_cmp (x y : Rational128) : run comparison :=
  if rat_d x =? rat_d y then Ok (rat_n x ?= rat_n y)
  else if rat_d x =? 0 then Ok Gt
  else if rat_d y =? 0 then Ok Lt
  else
    self_n ← mul (to_big_uint (rat_n x)) (to_big_uint (rat_d y));
    other_n ← mul (to_big_uint (rat_n y)) (to_big_uint (rat_d x));
    Ok (cmp self_n other_n).

Definition rat_eq (x y : Rational128) : run bool :=
  if rat_d x =? rat_d y then Ok (rat_n x =? rat_n y)
  else
    self_n ← mul (to_big_uint (rat_n x)) (to_big_uint (rat_d y));
    other_n ← mul (to_big_uint (rat_n y)) (to_big_uint (rat_d x));
    Ok (big_eq self_n other_n).
