(* ===== verification/Arith128Facts.v ===== *)
(** * Correctness of the 128-bit helpers and of the rationals *)
From Stdlib Require Import QArith.
From stdpp Require Import strings.
From S2P Require Import Prelude BigUint BigUintFacts BigUintDiv Arith128.

Local Open Scope Z_scope.
Local Open Scope list_scope.
Local Open Scope fuel_scope.

(** ** The greatest common divisor *)

Lemma land_1 a : 0 ≤ a → (Z.land a 1 =? 0) = Z.even a.
Proof.
  intros Ha. change 1 with (Z.ones 1). rewrite Z.land_ones by lia. change (2 ^ 1) with 2. rewrite Zmod_even. by destruct (Z.even a).
Qed.

Lemma shiftr_1 a : Z.shiftr a 1 = a / 2.
Proof. by rewrite Z.shiftr_div_pow2 by lia. Qed.

Lemma gcd_half a b : Z.even a = true → Z.even b = false → Z.gcd (a / 2) b = Z.gcd a b.
Proof.
  intros Ha Hb. apply Z.even_spec in Ha as [k ->]. rewrite (Z.mul_comm 2 k), Z.div_mul, (Z.mul_comm k) by lia.
  symmetry. apply Z.gcd_unique.
  - apply Z.gcd_nonneg.
  - transitivity k; [apply Z.gcd_divide_l|apply Z.divide_factor_r].
  - apply Z.gcd_divide_r.
  - intros q Hq Hqb. apply Z.gcd_greatest; [|done]. apply Z.gauss with 2; [done|].
    assert (Z.gcd q 2 ≤ 2) as H2 by (apply Z.divide_pos_le; [lia|apply Z.gcd_divide_r]).
    assert (Z.gcd q 2 ≠ 0) as H0 by (intros Hz%Z.gcd_eq_0_r; lia). pose proof (Z.gcd_nonneg q 2).
    assert (Z.gcd q 2 ≠ 2) as Hn2; [|lia]. intros E2. assert ((2 | b)) as [j ->].
    { transitivity q; [|done]. rewrite <- E2. apply Z.gcd_divide_l. }
    by rewrite Z.even_mul, orb_true_r in Hb.
Qed.

Lemma gcd_halves a b : Z.even a = true → Z.even b = true → 2 * Z.gcd (a / 2) (b / 2) = Z.gcd a b.
Proof.
  intros [k ->]%Z.even_spec [j ->]%Z.even_spec. rewrite !(Z.mul_comm 2), !Z.div_mul by lia.
  rewrite Z.gcd_mul_mono_r_nonneg by lia. lia.
Qed.

Lemma gcd_odd a b : Z.even a = false → Z.even b = false → a < b → Z.gcd ((b - a) / 2) a = Z.gcd a b.
Proof.
  intros Ha Hb Hlt. rewrite gcd_half; [|by rewrite Z.even_sub, Ha, Hb|done]. rewrite Z.gcd_comm. apply Z.gcd_sub_diag_r.
Qed.

Lemma half_pos a : Z.even a = true → 0 < a → 0 < a / 2 ∧ 2 * (a / 2) = a.
Proof. intros [k ->]%Z.even_spec Ha. rewrite (Z.mul_comm 2 k), Z.div_mul by lia. lia. Qed.

Lemma gcd_pos_ok fuel a b :
  0 < a < 2 ^ 128 → 0 < b < 2 ^ 128 → a * b < 2 ^ Z.of_nat fuel → gcd fuel a b = Some (Z.gcd a b).
Proof.
  revert a b. induction fuel as [|fuel IH]; intros a b Ha Hb Hf; [cbn in Hf; nia|].
  rewrite Nat2Z.inj_succ, Z.pow_succ_r in Hf by lia. cbn [gcd].
  destruct (Z.eqb_spec a b) as [->|Hab]; [by rewrite Z.gcd_diag_nonneg by lia|].
  rewrite (proj2 (Z.eqb_neq a 0)), (proj2 (Z.eqb_neq b 0)), !land_1, !shiftr_1 by lia.
  destruct (Z.even a) eqn:Ea, (Z.even b) eqn:Eb.
  - destruct (half_pos a Ea), (half_pos b Eb); try lia. rewrite IH by nia. cbn [mbind option_bind].
    rewrite Z.shiftl_mul_pow2, Z.mul_comm by lia. change (2 ^ 1) with 2. rewrite gcd_halves by done. rewrite wrap_small; [done|].
    split; [apply Z.gcd_nonneg|]. apply Z.le_lt_trans with a; [|lia]. apply Z.divide_pos_le; [lia|apply Z.gcd_divide_l].
  - destruct (half_pos a Ea); [lia|]. rewrite IH by nia. by rewrite gcd_half.
  - destruct (half_pos b Eb); [lia|]. rewrite IH by nia. by rewrite gcd_half, Z.gcd_comm.
  - assert (∀ x y, x < y → 0 < x → Z.even x = false → Z.even y = false → 0 < (y - x) / 2 ∧ 2 * ((y - x) / 2) = y - x) as Hsub.
    { intros x y Hxy Hx Ex Ey. apply half_pos; [by rewrite Z.even_sub, Ex, Ey|lia]. }
    destruct (Z.lt_ge_cases a b) as [Hlt|Hge].
    + rewrite Z.min_l, Z.max_r by lia. destruct (Hsub a b); [done|lia|done..|]. rewrite IH by nia. by rewrite gcd_odd.
    + rewrite Z.min_r, Z.max_l by lia. destruct (Hsub b a); [lia|lia|done..|]. rewrite IH by nia. rewrite gcd_odd by (done || lia). by rewrite Z.gcd_comm.
Qed.

Lemma gcd_zero_l n b : 0 ≤ b → gcd (S n) 0 b = Some (Z.gcd 0 b).
Proof. intros Hb. cbn [gcd]. destruct (Z.eqb_spec 0 b) as [<-|]; [done|]. cbn [Z.eqb]. by rewrite Z.gcd_0_l, Z.abs_eq by lia. Qed.

Lemma gcd_zero_r n a : 0 < a → gcd (S n) a 0 = Some (Z.gcd a 0).
Proof. intros Ha. cbn [gcd]. rewrite (proj2 (Z.eqb_neq a 0)) by lia. by rewrite Z.eqb_refl, Z.gcd_0_r, Z.abs_eq by lia. Qed.

Lemma gcd_ok a b : fits 128 a → fits 128 b → gcd gcd_fuel a b = Some (Z.gcd a b).
Proof.
  unfold fits. intros Ha Hb. destruct (decide (a = 0)) as [->|Ha0]; [|destruct (decide (b = 0)) as [->|Hb0]].
  - apply gcd_zero_l. lia.
  - apply gcd_zero_r. lia.
  - apply gcd_pos_ok; [lia..|]. change (Z.of_nat gcd_fuel) with (128 + 128). rewrite Z.pow_add_r by lia. nia.
Qed.

(** ** Conversion to a big integer *)

Lemma to_big_uint_ok x :
  fits 128 x →
  wf (to_big_uint x) ∧ value (to_big_uint x) = x ∧ (len (to_big_uint x) ≤ 4)%nat ∧
  (x ≠ 0 → ∃ d ds, digits (to_big_uint x) = d :: ds ∧ d ≠ 0 ∧ Bp (length ds) ≤ x < Bp (S (length ds))).
Proof.
  unfold fits. intros Hx. unfold to_big_uint, split_u128. unfold split, SHIFT. unfold from_limbs.
  rewrite !Z.shiftr_div_pow2 by lia. unfold wrap.
  set (y := MkBigUint _).
  assert (wf y) as Hy by (repeat constructor; unfold fits; apply Z.mod_pos_bound; lia).
  assert (value y = x) as Hv.
  { unfold value, le, y. cbn [digits reverse rev_append lval foldr]. unfold B.
    pose proof (Z.div_mod x (2 ^ 64) ltac:(lia)) as E1.
    set (h := x / 2 ^ 64) in *. set (l := x mod 2 ^ 64) in *.
    assert (0 ≤ l < 2 ^ 64) as Hl by (apply Z.mod_pos_bound; lia).
    assert (0 ≤ h < 2 ^ 64) as Hh by (split; [apply Z.div_pos; lia|apply Z.div_lt_upper_bound; lia]).
    rewrite (Z.mod_small h) by lia.
    rewrite !(Z.mod_small (_ / _)) by (split; [apply Z.div_pos; lia|apply Z.div_lt_upper_bound; lia]).
    pose proof (Z.div_mod h (2 ^ 32) ltac:(lia)) as E2. pose proof (Z.div_mod l (2 ^ 32) ltac:(lia)) as E3. lia. }
  destruct (lstrip_ok y Hy) as (Hw&Hv'&Hl&_&Hnz). rewrite Hv' in *. rewrite Hv in *. split_and!; done.
Qed.

(** ** [multiply_by_rational] *)

(** A result of 128 bits. *)
Definition fit_u128 (q : Z) : result string Z := if q <? 2 ^ 128 then Ok q else Err cannot_fit.

(** [r] above half of [c] rounds up. *)
Definition round_up (c r : Z) : Z := if c / 2 <? r then 1 else 0.

(** The most significant bit of the most significant limb is set. *)
Definition full_top_limb (c : Z) : bool := (Z.log2 c + 1) mod 32 =? 0.

(** What [multiply_and_divide] computes. *)
Definition divided (a b c : Z) : result string Z :=
  let q := a * b / c in
  let r := a * b mod c in
  if a * b <? 2 ^ 128 then Ok q
  else if c <? 2 ^ 32 then fit_u128 q
  else if (r =? 0) && full_top_limb c then Panic
  else fit_u128 (q + round_up c r).

Lemma log2_limbs d ds : limbs_ok (d :: ds) → d ≠ 0 → Z.log2 (bval (d :: ds)) = Z.log2 d + 32 * Z.of_nat (length ds).
Proof.
  intros [Hd Hds]%Forall_cons Hne. unfold fits in Hd. rewrite bval_cons. pose proof (bval_bound ds Hds) as Hb. rewrite Bp_pow in *.
  pose proof (Z.log2_spec d ltac:(lia)) as [Hl1 Hl2]. pose proof (Z.log2_nonneg d).
  set (e := 32 * Z.of_nat (length ds)) in *. assert (0 < 2 ^ e) by (apply Z.pow_pos_nonneg; lia).
  apply Z.log2_unique; [lia|]. rewrite <- Z.add_succ_l, !Z.pow_add_r by lia. nia.
Qed.

Lemma full_top_limb_ok d ds : limbs_ok (d :: ds) → d ≠ 0 → (leading_zeros d =? 0) = full_top_limb (bval (d :: ds)).
Proof.
  intros Hok Hne. unfold full_top_limb. rewrite log2_limbs by done. apply Forall_cons in Hok as [Hd _]. unfold fits in Hd.
  replace (Z.log2 d + 32 * Z.of_nat (length ds) + 1) with (Z.log2 d + 1 + Z.of_nat (length ds) * 32) by lia. rewrite Z.mod_add by lia.
  assert (Z.log2 d < 32) by (apply Z.log2_lt_pow2; lia). pose proof (Z.log2_nonneg d). unfold leading_zeros.
  rewrite (proj2 (Z.eqb_neq d 0)) by done.
  destruct (decide (Z.log2 d = 31)) as [->|]; [done|]. rewrite Z.mod_small by lia.
  rewrite !(proj2 (Z.eqb_neq _ _)) by lia. done.
Qed.

Lemma and_then_Ok {E A C} (a : A) (k : A → fuelled E C) : and_then (Some (Ok a)) k = k a.
Proof. done. Qed.

Lemma lift_Ok {E A} (a : A) : lift (E := E) (Ok a) = Some (Ok a).
Proof. done. Qed.

Lemma try_from_128 x : wf x → try_from 128 x = Ok (try_from_spec 128 x).
Proof. exact (try_from_ok 4 x). Qed.

Lemma finish_ok q :
  wf q → 0 < value q →
  (do! o <- lift (try_from 128 (lstrip q)); Some (match o with Some x => Ok x | None => Err cannot_fit end)) = Some (fit_u128 (value q)).
Proof.
  intros Hq Hpos. destruct (lstrip_ok q Hq) as (Hw&Hv&_). rewrite try_from_128 by done. cbn [lift and_then].
  unfold try_from_spec. rewrite Hv. rewrite (proj2 (Z.eqb_neq _ 0)) by lia. unfold fit_u128. by destruct (value q <? 2 ^ 128).
Qed.

Lemma to_big_uint_single c : 0 < c < 2 ^ 128 → (len (to_big_uint c) =? 1)%nat = (c <? 2 ^ 32).
Proof.
  intros Hc. destruct (to_big_uint_ok c) as (_&_&_&Hd); [unfold fits; lia|]. destruct Hd as (d&ds&Hds&_&Hlo&Hhi); [lia|].
  unfold len. rewrite Hds. cbn [length]. destruct ds as [|d' ds]; cbn [length] in *.
  - rewrite Bp_S, Bp_0 in Hhi. symmetry. apply Z.ltb_lt. unfold B in Hhi. lia.
  - symmetry. apply Z.ltb_ge. pose proof (Bp_mono 1 (S (length ds)) ltac:(lia)) as Hm. rewrite Bp_S, Bp_0 in Hm. unfold B in Hm. lia.
Qed.

(** The division by a divisor of at least two limbs. *)
Lemma long_division_ok ab c :
  wf ab → value (lstrip ab) = value ab → 2 ^ 128 ≤ value ab → 2 ^ 32 ≤ c < 2 ^ 128 →
  let r := value ab mod c in
  ∃ o, (do! d <- (d ← div (lstrip ab) (to_big_uint c) true; lift d);
        let '(q, r) := default (big_zero, big_zero) d in
        do! r <- lift (r ← try_from 128 r; expect r);
        if c / 2 <? r then lift (add q (to_big_uint 1)) else Some (Ok q)) = Some o ∧
    if (r =? 0) && full_top_limb c then o = (Panic : result string BigUint)
    else ∃ q, o = Ok q ∧ wf q ∧ value q = value ab / c + round_up c r.
Proof.
  intros Hab Hv Hbig Hc r. destruct (lstrip_ok ab Hab) as (Hw&_&_&_&Hnz). destruct Hnz as (da&dsa&Hdsa&Hda&_&Hahi); [lia|].
  destruct (to_big_uint_ok c) as (Hcw&Hcv&Hcl&Hcd); [unfold fits; lia|]. destruct Hcd as (d&ds&Hds&Hd&Hlo&Hhi); [lia|].
  assert (len (to_big_uint c) = S (length ds)) as Hclen by (unfold len; by rewrite Hds).
  assert (len (lstrip ab) = S (length dsa)) as Halen by (unfold len; by rewrite Hdsa).
  assert (1 < len (to_big_uint c))%nat as Hc1.
  { pose proof (Bp_lt_inv 1 (S (length ds))) as Hb. rewrite Hclen. apply Hb. change (Bp 1) with (2 ^ 32). destruct (decide (c = 2 ^ 32)) as [E|]; [|lia]. lia. }
  assert (4 < len (lstrip ab))%nat as Ha4.
  { rewrite Halen. apply Bp_lt_inv. change (Bp 4) with (2 ^ 128). lia. }
  destruct (div_ok (lstrip ab) (to_big_uint c) da dsa d ds) as (q&rb&Hdiv&Hqw&Hrw&Hqv&Hrv&_&Hrl); try done; [lia|].
  rewrite Hdiv. cbn [mbind option_bind]. rewrite lift_Ok, and_then_Ok. cbn [from_option id]. rewrite try_from_128 by done. unfold try_from_spec.
  rewrite Hv, Hcv in *. fold r in Hrv. rewrite Hrv. cbn [mbind result_bind].
  assert (0 ≤ r < c) as Hr by (apply Z.mod_pos_bound; lia).
  assert (full_top_limb c = (leading_zeros d =? 0)) as ->.
  { rewrite full_top_limb_ok with (ds := ds); [|by unfold wf in Hcw; rewrite Hds in Hcw|done]. by rewrite <- Hds, <- value_bval, Hcv. }
  assert (∀ r', lift (E := string) (expect (Some r') : run Z) = Some (Ok r')) as Hex by done.
  assert (∃ o, (if c / 2 <? r then lift (add q (to_big_uint 1)) else Some (Ok q)) = Some o ∧
    ∃ q', o = (Ok q' : result string BigUint) ∧ wf q' ∧ value q' = value ab / c + round_up c r) as Hround.
  { unfold round_up. destruct (c / 2 <? r).
    - destruct (to_big_uint_ok 1) as (H1w&H1v&_); [done|]. destruct (add_ok q (to_big_uint 1) Hqw H1w) as (q'&->&Hq'w&_&Hq'v).
      exists (Ok q'). split; [done|]. exists q'. by rewrite Hq'v, Hqv, H1v.
    - exists (Ok q). split; [done|]. exists q. split_and!; [done..|lia]. }
  destruct (Z.eqb_spec r 0) as [Hr0|Hr0]; cbn [andb].
  - rewrite Hrl. destruct (leading_zeros d =? 0).
    + rewrite (proj2 (Z.leb_gt _ _)) by lia. eexists. split; [done|]. done.
    + rewrite (proj2 (Z.leb_le _ _)) by lia. rewrite Hex. cbn [and_then]. rewrite <- Hr0. exact Hround.
  - rewrite (proj2 (Z.ltb_lt _ _)) by lia. rewrite Hex. cbn [and_then]. exact Hround.
Qed.

Lemma multiply_and_divide_ok a b c :
  0 < a < 2 ^ 128 → 0 < b < 2 ^ 128 → 0 < c < 2 ^ 128 → multiply_and_divide a b c = Some (divided a b c).
Proof.
  intros Ha Hb Hc. unfold multiply_and_divide, divided, checked_mul.
  destruct (Z.ltb_spec (a * b) (2 ^ 128)) as [|Hbig]; [done|]. rewrite to_big_uint_single by done.
  destruct (to_big_uint_ok a) as (Haw&Hav&_); [unfold fits; lia|]. destruct (to_big_uint_ok b) as (Hbw&Hbv&_); [unfold fits; lia|].
  destruct (mul_ok _ _ Haw Hbw) as (ab&->&Habw&_&Habv). rewrite Hav, Hbv in Habv. rewrite lift_Ok, and_then_Ok.
  destruct (lstrip_ok ab Habw) as (Hsw&Hsv&_). assert (1 ≤ a * b / c) as Hq by (apply Z.div_le_lower_bound; lia).
  destruct (Z.ltb_spec c (2 ^ 32)) as [Hsmall|Hlarge].
  - rewrite wrap_small by (unfold fits; lia). destruct (div_unit_ok (lstrip ab) c Hsw) as (q&->&Hqw&_&Hqv); [unfold fits; lia|].
    rewrite lift_Ok, and_then_Ok. rewrite Hsv, Habv, Z.max_l in Hqv by lia. rewrite finish_ok by (done || lia). by rewrite Hqv.
  - destruct (long_division_ok ab c) as (o&->&Ho); [done|done|lia|lia|]. rewrite Habv in Ho.
    destruct ((a * b mod c =? 0) && full_top_limb c); [by subst o|]. destruct Ho as (q&->&Hqw&Hqv). rewrite and_then_Ok.
    assert (0 ≤ round_up c (a * b mod c)) by (unfold round_up; destruct (_ <? _); lia).
    rewrite finish_ok by (done || lia). by rewrite Hqv.
Qed.

(** What [multiply_by_rational] computes: the exact quotient when [c] divides a
    factor, its floor when the product or [c] is small, and the nearest integer
    otherwise. *)
Definition rational_product (a b c : Z) : result string Z :=
  let c := Z.max c 1 in
  if a * b =? 0 then Ok 0
  else if (a mod c =? 0) || (b mod c =? 0) then fit_u128 (a * b / c)
  else divided a b c.

Lemma divided_1 a b : divided a b 1 = fit_u128 (a * b).
Proof. unfold divided, fit_u128. rewrite Z.div_1_r. by destruct (a * b <? 2 ^ 128). Qed.

Lemma div_factor a b c : 0 < c → a mod c = 0 → a / c * b = a * b / c.
Proof. intros Hc Ha. apply Z.mod_divide in Ha as [k ->]; [|lia]. rewrite Z.div_mul by lia. by rewrite <- Z.mul_assoc, (Z.mul_comm c), Z.mul_assoc, Z.div_mul by lia. Qed.

Lemma div_factor_pos a c : 0 < c → 0 < a → a mod c = 0 → 0 < a / c ≤ a.
Proof. intros Hc Ha Hm. apply Z.mod_divide in Hm as [k ->]; [|lia]. rewrite Z.div_mul by lia. nia. Qed.

Lemma divided_comm a b c : divided a b c = divided b a c.
Proof. unfold divided. by rewrite (Z.mul_comm a b). Qed.

Lemma multiply_by_rational_ok a b c :
  fits 128 a → fits 128 b → fits 128 c → multiply_by_rational a b c = Some (rational_product a b c).
Proof.
  unfold fits. intros Ha Hb Hc. unfold multiply_by_rational, rational_product.
  destruct (Z.eqb_spec a 0) as [->|Ha0]; [done|]. destruct (Z.eqb_spec b 0) as [->|Hb0]; [by rewrite Z.mul_0_r|].
  cbn [orb]. rewrite (proj2 (Z.eqb_neq (a * b) 0)) by nia. set (c' := Z.max c 1). assert (0 < c' < 2 ^ 128) as Hc' by lia.
  assert (∀ x y, 0 < x < 2 ^ 128 → 0 < y < 2 ^ 128 →
    (if x mod c' =? 0 then multiply_and_divide (x / c') y 1
     else if y mod c' =? 0 then multiply_and_divide x (y / c') 1 else multiply_and_divide x y c') =
    Some (if (x mod c' =? 0) || (y mod c' =? 0) then fit_u128 (x * y / c') else divided x y c')) as Hcore.
  { intros x y Hx Hy. destruct (Z.eqb_spec (x mod c') 0) as [Hm|_]; [|destruct (Z.eqb_spec (y mod c') 0) as [Hm|_]]; cbn [orb].
    - pose proof (div_factor_pos x c' ltac:(lia) ltac:(lia) Hm). rewrite multiply_and_divide_ok, divided_1, div_factor by (done || lia). done.
    - pose proof (div_factor_pos y c' ltac:(lia) ltac:(lia) Hm). rewrite multiply_and_divide_ok, divided_1 by lia.
      by rewrite Z.mul_comm, div_factor, Z.mul_comm by (done || lia).
    - apply multiply_and_divide_ok; lia. }
  destruct (Z.ltb_spec a b).
  - rewrite Hcore by lia. by rewrite orb_comm, (Z.mul_comm b a), divided_comm.
  - apply Hcore; lia.
Qed.

(** ** Rationals *)

Definition rat_ok (x : Rational128) : Prop := fits 128 (rat_n x) ∧ 0 < rat_d x < 2 ^ 128.

Definition to_Q (x : Rational128) : Q := Qmake (rat_n x) (Z.to_pos (rat_d x)).

(** The numerator over the common denominator [l]. *)
Definition scaled (x : Rational128) (l : Z) : Z := rat_n x * (l / rat_d x).

Lemma lcm_ok x y : rat_ok x → rat_ok y → lcm x y = Some (fit_u128 (Z.lcm (rat_d x) (rat_d y))).
Proof.
  destruct x as [n d], y as [n' d']. intros [_ Hd] [_ Hd']. cbn [rat_d] in *. unfold lcm. cbn [rat_d].
  destruct (Z.eqb_spec d d') as [->|Hne].
  - rewrite Z.lcm_diag_nonneg by lia. unfold fit_u128. by rewrite (proj2 (Z.ltb_lt _ _)) by lia.
  - rewrite gcd_ok by (unfold fits; lia). cbn [mbind option_bind]. pose proof (Z.gcd_divide_l d d') as Hg1. pose proof (Z.gcd_divide_r d d') as Hg2.
    assert (0 < Z.gcd d d' ≤ d) as Hg.
    { pose proof (Z.gcd_nonneg d d'). assert (Z.gcd d d' ≠ 0) by (intros ?%Z.gcd_eq_0_l; lia). pose proof (Z.divide_pos_le _ d ltac:(lia) Hg1). lia. }
    rewrite multiply_by_rational_ok by (unfold fits; lia). unfold rational_product. rewrite (proj2 (Z.eqb_neq (d * d') 0)) by nia.
    rewrite Z.max_l by lia. rewrite (proj2 (Z.eqb_eq (d mod _) 0)) by (apply Z.mod_divide; [lia|done]). cbn [orb]. do 2 f_equal.
    unfold Z.lcm. apply Z.mod_divide in Hg2; [|lia]. rewrite Z.mul_comm, <- (div_factor d' d), Z.mul_comm by (done || lia). rewrite Z.abs_eq; [done|].
    apply Z.mul_nonneg_nonneg; [lia|]. apply Z.div_pos; lia.
Qed.

Lemma to_den_ok x l :
  rat_ok x → 0 < l < 2 ^ 128 → (rat_d x | l) →
  to_den x l = Some (if scaled x l <? 2 ^ 128 then Ok (MkRational (scaled x l) l) else Err cannot_fit).
Proof.
  destruct x as [n d]. intros [Hn Hd] Hl Hdiv. unfold to_den, scaled. cbn [rat_n rat_d] in *. unfold fits in Hn.
  destruct (Z.eqb_spec l d) as [->|Hne].
  { rewrite Z.div_same, Z.mul_1_r by lia. by rewrite (proj2 (Z.ltb_lt _ _)) by lia. }
  rewrite multiply_by_rational_ok by (unfold fits; lia). unfold rational_product. apply Z.mod_divide in Hdiv; [|lia].
  rewrite Z.max_l by lia. rewrite Hdiv, orb_true_r.
  assert (n * (l / d) = n * l / d) as -> by (rewrite Z.mul_comm, div_factor, Z.mul_comm by (done || lia); done).
  destruct (Z.eqb_spec (n * l) 0) as [->|_].
  - by rewrite Zdiv_0_l.
  - unfold fit_u128. by destruct (n * l / d <? 2 ^ 128).
Qed.

(** Both numerators over the least common denominator, when everything fits. *)
Definition unified (x y : Rational128) : option (Z * Z * Z) :=
  let l := Z.lcm (rat_d x) (rat_d y) in
  if (l <? 2 ^ 128) && (scaled x l <? 2 ^ 128) && (scaled y l <? 2 ^ 128) then Some (scaled x l, scaled y l, l) else None.

Definition rat_sum (x y : Rational128) : result string Rational128 :=
  match unified x y with
  | None => Err failed_to_scale
  | Some (n, n', l) => if n + n' <? 2 ^ 128 then Ok (MkRational (n + n') l) else Err add_overflow
  end.

Definition rat_difference (x y : Rational128) : result string Rational128 :=
  match unified x y with
  | None => Err failed_to_scale
  | Some (n, n', l) => if n' <=? n then Ok (MkRational (n - n') l) else Err sub_overflow
  end.

(** The part that addition and subtraction share. *)
Lemma unified_ok {C} (k : Rational128 → Rational128 → fuelled string C) x y :
  rat_ok x → rat_ok y →
  (do! l <- map_err (λ _, failed_to_scale) (lcm x y);
   do! x' <- map_err (λ _, failed_to_scale) (to_den x l);
   do! y' <- map_err (λ _, failed_to_scale) (to_den y l);
   k x' y') =
  match unified x y with
  | None => Some (Err failed_to_scale)
  | Some (n, n', l) => k (MkRational n l) (MkRational n' l)
  end.
Proof.
  intros Hx Hy. rewrite lcm_ok by done. unfold unified, fit_u128. set (l := Z.lcm _ _).
  assert (0 < l) as Hl.
  { pose proof (Z.lcm_nonneg (rat_d x) (rat_d y)). assert (l ≠ 0); [|lia]. intros [?|?]%Z.lcm_eq_0; destruct Hx, Hy; lia. }
  destruct (Z.ltb_spec l (2 ^ 128)) as [Hfit|]; [|done]. cbn [map_err andb]. rewrite and_then_Ok.
  rewrite to_den_ok by (done || lia || apply Z.divide_lcm_l). destruct (scaled x l <? 2 ^ 128); [|done]. cbn [map_err andb]. rewrite and_then_Ok.
  rewrite to_den_ok by (done || lia || apply Z.divide_lcm_r). by destruct (scaled y l <? 2 ^ 128).
Qed.

Lemma rat_checked_add_ok x y : rat_ok x → rat_ok y → rat_checked_add x y = Some (rat_sum x y).
Proof.
  intros Hx Hy. unfold rat_checked_add. rewrite unified_ok by done. unfold rat_sum. destruct (unified x y) as [[[n n'] l]|]; [|done].
  cbn [rat_n rat_d]. unfold ok_or, checked_add. by destruct (n + n' <? 2 ^ 128).
Qed.

Lemma rat_checked_sub_ok x y : rat_ok x → rat_ok y → rat_checked_sub x y = Some (rat_difference x y).
Proof.
  intros Hx Hy. unfold rat_checked_sub. rewrite unified_ok by done. unfold rat_difference. destruct (unified x y) as [[[n n'] l]|]; [|done].
  cbn [rat_n rat_d]. unfold ok_or, checked_sub. by destruct (n' <=? n).
Qed.

Lemma scaled_Q x l : rat_ok x → 0 < l → (rat_d x | l) → (scaled x l # Z.to_pos l == to_Q x)%Q.
Proof.
  destruct x as [n d]. intros [_ Hd] Hl [k ->]. unfold scaled, to_Q, Qeq. cbn [rat_n rat_d Qnum Qden] in *.
  rewrite !Z2Pos.id by lia. rewrite Z.div_mul by lia. ring.
Qed.

Lemma unified_Some x y n n' l :
  rat_ok x → rat_ok y → unified x y = Some (n, n', l) →
  0 < l < 2 ^ 128 ∧ fits 128 n ∧ fits 128 n' ∧ (n # Z.to_pos l == to_Q x)%Q ∧ (n' # Z.to_pos l == to_Q y)%Q.
Proof.
  intros Hx Hy. unfold unified. set (L := Z.lcm _ _). destruct ((L <? 2 ^ 128) && _ && _) eqn:Hb; [|done]. injection 1 as <- <- <-.
  apply andb_prop in Hb as [[Hb1%Z.ltb_lt Hb2%Z.ltb_lt]%andb_prop Hb3%Z.ltb_lt].
  assert (0 < L) as HL.
  { pose proof (Z.lcm_nonneg (rat_d x) (rat_d y)). assert (L ≠ 0); [|lia]. intros [?|?]%Z.lcm_eq_0; destruct Hx, Hy; lia. }
  assert (∀ z, rat_ok z → 0 ≤ scaled z L) as Hnn.
  { intros z [[Hn _] Hd]. apply Z.mul_nonneg_nonneg; [done|]. apply Z.div_pos; lia. }
  unfold fits. split_and!; try done; try (by apply Hnn); apply scaled_Q; try done; [apply Z.divide_lcm_l|apply Z.divide_lcm_r].
Qed.

Lemma rat_sum_Q x y r : rat_ok x → rat_ok y → rat_sum x y = Ok r → rat_ok r ∧ (to_Q r == to_Q x + to_Q y)%Q.
Proof.
  intros Hx Hy. unfold rat_sum. destruct (unified x y) as [[[n n'] l]|] eqn:Hu; [|done].
  destruct (unified_Some x y n n' l Hx Hy Hu) as (Hl&Hn&Hn'&<-&<-). destruct (Z.ltb_spec (n + n') (2 ^ 128)); [|done].
  injection 1 as <-. unfold fits in *. split; [split; cbn; unfold fits; lia|]. unfold to_Q. cbn [rat_n rat_d]. by rewrite <- Qinv_plus_distr.
Qed.

Lemma rat_difference_Q x y r : rat_ok x → rat_ok y → rat_difference x y = Ok r → rat_ok r ∧ (to_Q r == to_Q x - to_Q y)%Q.
Proof.
  intros Hx Hy. unfold rat_difference. destruct (unified x y) as [[[n n'] l]|] eqn:Hu; [|done].
  destruct (unified_Some x y n n' l Hx Hy Hu) as (Hl&Hn&Hn'&<-&<-). destruct (Z.leb_spec n' n); [|done].
  injection 1 as <-. unfold fits in *. split; [split; cbn; unfold fits; lia|]. unfold to_Q. cbn [rat_n rat_d]. by rewrite <- Qinv_minus_distr.
Qed.

(** The cross products of two rationals. *)
Lemma cross_ok {C} (k : BigUint → BigUint → run C) x y :
  rat_ok x → rat_ok y →
  ∃ p q, (self_n ← mul (to_big_uint (rat_n x)) (to_big_uint (rat_d y));
          other_n ← mul (to_big_uint (rat_n y)) (to_big_uint (rat_d x)); k self_n other_n) = k p q ∧
    wf p ∧ wf q ∧ value p = rat_n x * rat_d y ∧ value q = rat_n y * rat_d x.
Proof.
  intros [Hn Hd] [Hn' Hd']. destruct (to_big_uint_ok (rat_n x) Hn) as (W1&V1&_), (to_big_uint_ok (rat_n y) Hn') as (W2&V2&_).
  destruct (to_big_uint_ok (rat_d x)) as (W3&V3&_); [unfold fits; lia|]. destruct (to_big_uint_ok (rat_d y)) as (W4&V4&_); [unfold fits; lia|].
  destruct (mul_ok _ _ W1 W4) as (p&->&Wp&_&Vp), (mul_ok _ _ W2 W3) as (q&->&Wq&_&Vq). exists p, q. cbn [mbind result_bind].
  split_and!; [done..|congruence|congruence].
Qed.

Lemma rat_cmp_ok x y : rat_ok x → rat_ok y → rat_cmp x y = Ok (to_Q x ?= to_Q y)%Q.
Proof.
  intros Hx Hy. pose proof (proj2 Hx) as Hd. pose proof (proj2 Hy) as Hd'.
  assert ((to_Q x ?= to_Q y)%Q = (rat_n x * rat_d y ?= rat_n y * rat_d x)) as ->.
  { unfold Qcompare, to_Q. cbn [Qnum Qden]. by rewrite !Z2Pos.id by lia. }
  unfold rat_cmp. destruct (Z.eqb_spec (rat_d x) (rat_d y)) as [E|_].
  - by rewrite E, <- Zmult_compare_compat_r by lia.
  - rewrite !(proj2 (Z.eqb_neq _ 0)) by lia. destruct (cross_ok (λ p q, Ok (cmp p q)) x y Hx Hy) as (p&q&->&Wp&Wq&<-&<-). by rewrite cmp_ok.
Qed.

Lemma rat_eq_ok x y : rat_ok x → rat_ok y → rat_eq x y = Ok (Qeq_bool (to_Q x) (to_Q y)).
Proof.
  intros Hx Hy. pose proof (proj2 Hx) as Hd. pose proof (proj2 Hy) as Hd'.
  assert (Qeq_bool (to_Q x) (to_Q y) = (rat_n x * rat_d y =? rat_n y * rat_d x)) as ->.
  { unfold Qeq_bool, to_Q. cbn [Qnum Qden]. by rewrite !Z2Pos.id by lia. }
  unfold rat_eq. destruct (Z.eqb_spec (rat_d x) (rat_d y)) as [E|_].
  - f_equal. apply eq_true_iff_eq. rewrite !Z.eqb_eq, E. split; [by intros ->|]. apply Z.mul_reg_r. lia.
  - destruct (cross_ok (λ p q, Ok (big_eq p q)) x y Hx Hy) as (p&q&->&Wp&Wq&<-&<-). unfold big_eq. rewrite cmp_ok by done. f_equal.
    destruct (Z.compare_spec (value p) (value q)) as [->|Hne|Hne]; [by rewrite Z.eqb_refl|symmetry; apply Z.eqb_neq; lia..].
Qed.

(** ** Theorems *)

(** The binary algorithm for the greatest common divisor terminates on all
    128-bit integers: 256 steps are enough, as every step halves the product of
    its arguments, and the result is the greatest common divisor; the shift that
    doubles it loses no bits. *)
Theorem gcd_correct a b : fits 128 a → fits 128 b → gcd gcd_fuel a b = Some (Z.gcd a b).
Proof. apply gcd_ok. Qed.

(** C26. [multiply_by_rational] on all 128-bit integers: the product divided by
    [c] (a zero counts as one), an error exactly when the result needs more than
    128 bits.  The result is exact if [c] divides a factor, rounded down if the
    product or [c] is small, and rounded to the nearest integer otherwise; the
    call panics exactly when the product does not fit, [c] divides it but none of
    its factors, and the number of bits of [c] is a multiple of 32 above 32. *)
Theorem multiply_by_rational_correct a b c :
  fits 128 a → fits 128 b → fits 128 c →
  multiply_by_rational a b c = Some (
    let c := Z.max c 1 in
    let q := a * b / c in
    let r := a * b mod c in
    if (a mod c =? 0) || (b mod c =? 0) then fit_u128 q
    else if a * b <? 2 ^ 128 then Ok q
    else if c <? 2 ^ 32 then fit_u128 q
    else if (r =? 0) && ((Z.log2 c + 1) mod 32 =? 0) then Panic
    else fit_u128 (q + (if c / 2 <? r then 1 else 0))).
Proof.
  intros Ha Hb Hc. rewrite multiply_by_rational_ok by done. unfold rational_product, divided, round_up, full_top_limb. cbv zeta. f_equal.
  destruct (Z.eqb_spec (a * b) 0) as [E|]; [|done]. rewrite E, Zdiv_0_l. by destruct (_ || _).
Qed.

(** Fractions of 128-bit integers with non-zero denominators behave as the
    rational numbers they denote: comparison and equality never panic and agree
    with the order and equality of rationals; [checked_add] and [checked_sub]
    never panic, and a result they give is a fraction of 128-bit integers that is
    exactly the sum or the difference.  They fail only when the least common
    denominator, a scaled numerator or the result does not fit. *)
Theorem rational_correct x y :
  rat_ok x → rat_ok y →
  rat_cmp x y = Ok (to_Q x ?= to_Q y)%Q ∧ rat_eq x y = Ok (Qeq_bool (to_Q x) (to_Q y)) ∧
  (rat_checked_add x y = Some (rat_sum x y) ∧ ∀ r, rat_sum x y = Ok r → rat_ok r ∧ (to_Q r == to_Q x + to_Q y)%Q) ∧
  (rat_checked_sub x y = Some (rat_difference x y) ∧ ∀ r, rat_difference x y = Ok r → rat_ok r ∧ (to_Q r == to_Q x - to_Q y)%Q).
Proof.
  intros Hx Hy. split_and!.
  - by apply rat_cmp_ok.
  - by apply rat_eq_ok.
  - by apply rat_checked_add_ok.
  - intros r. by apply rat_sum_Q.
  - by apply rat_checked_sub_ok.
  - intros r. by apply rat_difference_Q.
Qed.

(** A 128-bit integer survives the conversion to a big integer and back. *)
Theorem to_big_uint_roundtrip x : fits 128 x → try_from 128 (to_big_uint x) = Ok (Some x).
Proof.
  intros Hx. destruct (to_big_uint_ok x Hx) as (Hw&Hv&Hl&_). rewrite try_from_128 by done. unfold try_from_spec. rewrite Hv. unfold fits in Hx.
  destruct (Z.eqb_spec x 0) as [->|]; [by rewrite (proj2 (Z.leb_le _ _)) by lia|by rewrite (proj2 (Z.ltb_lt _ _)) by lia].
Qed.

Module SmallRationals.

Lemma gcd_correct_witness : fits 128 84 ∧ fits 128 36 ∧ gcd gcd_fuel 84 36 = Some 12.
Proof. split_and!; [done|done|]. exact (gcd_correct 84 36 ltac:(done) ltac:(done)). Defined.

Lemma multiply_by_rational_correct_witness :
  multiply_by_rational (2 ^ 100 + 1) (2 ^ 100 + 3) (2 ^ 80 + 1) = Some (Ok ((2 ^ 100 + 1) * (2 ^ 100 + 3) / (2 ^ 80 + 1))).
Proof.
  pose proof (multiply_by_rational_correct (2 ^ 100 + 1) (2 ^ 100 + 3) (2 ^ 80 + 1) ltac:(done) ltac:(done) ltac:(done)) as E.
  rewrite E. vm_compute. reflexivity.
Defined.

Lemma rational_correct_witness :
  rat_ok (MkRational 1 6) ∧ rat_ok (MkRational 1 4) ∧ rat_checked_add (MkRational 1 6) (MkRational 1 4) = Some (Ok (MkRational 5 12)) ∧
  rat_cmp (MkRational 1 6) (MkRational 1 4) = Ok Lt.
Proof.
  assert (rat_ok (MkRational 1 6)) as H1 by (unfold rat_ok, fits; cbn; lia). assert (rat_ok (MkRational 1 4)) as H2 by (unfold rat_ok, fits; cbn; lia).
  pose proof (rational_correct (MkRational 1 6) (MkRational 1 4) H1 H2) as (Hc&_&[Ha _]&_). split; [exact H1|]. split; [exact H2|].
  split; [rewrite Ha|rewrite Hc]; vm_compute; reflexivity.
Defined.

Lemma to_big_uint_roundtrip_witness : fits 128 (2 ^ 70 + 5) ∧ try_from 128 (to_big_uint (2 ^ 70 + 5)) = Ok (Some (2 ^ 70 + 5)).
Proof. split; [done|]. apply (to_big_uint_roundtrip (2 ^ 70 + 5)). done. Defined.

(** The panic is reachable: the remainder of the long division is a zero with
    more limbs than 128 bits hold. *)
Lemma exact_quotient_panics : multiply_by_rational (2 ^ 62 * (2 ^ 40 + 1)) (2 * (2 ^ 50 + 1)) (2 ^ 63) = Some Panic.
Proof. by vm_compute. Qed.

(** Products that fit are rounded down, others to the nearest integer. *)
Lemma rounding_depends_on_size :
  multiply_by_rational 5 1 3 = Some (Ok 1) ∧
  multiply_by_rational (2 ^ 100) (2 ^ 41) (3 * 2 ^ 90 + 1) = Some (Ok (2 ^ 100 * 2 ^ 41 / (3 * 2 ^ 90 + 1) + 1)).
Proof. by vm_compute. Qed.

(** A conversion to another denominator drops what does not divide. *)
Lemma to_den_is_lossy : to_den (MkRational 1 3) 2 = Some (Ok (MkRational 0 2)).
Proof. by vm_compute. Qed.

(** With a zero denominator, equality and order disagree. *)
Lemma zero_denominator_equal_and_greater :
  rat_eq (from_unchecked 0 0) (MkRational 5 1) = Ok true ∧ rat_cmp (from_unchecked 0 0) (MkRational 5 1) = Ok Gt.
Proof. by vm_compute. Qed.

End SmallRationals.
