(* ===== verification/PerThings.v ===== *)
(** * Fixed-point fractions of one (src/primitives/arithmetic/src/per_things.rs)

    The macro [implement_per_thing!] is a section over its arguments: the number
    of parts of one, the width of the type that holds the parts and the width of
    the type products are computed in.  An operation that overflows is a panic. *)
From S2P Require Import Prelude BigUint.

Local Open Scope Z_scope.

(** ** Machine integers of [w] bits *)

Definition max_value (w : Z) : Z := 2 ^ w - 1.

(** [/] panics on a zero divisor, [*] and [+] on overflow. *)
Definition udiv (a b : Z) : run Z := if b =? 0 then Panic else Ok (a / b).
Definition urem (a b : Z) : run Z := if b =? 0 then Panic else Ok (a mod b).
Definition umul (w a b : Z) : run Z := expect (checked_mul w a b).
Definition uadd (w a b : Z) : run Z := expect (checked_add w a b).

Definition try_into (w x : Z) : option Z := if x <? 2 ^ w then Some x else None.
Definition saturated_into (w x : Z) : Z := default (max_value w) (try_into w x).

Definition usaturating_add (w a b : Z) : Z := Z.min (max_value w) (a + b).
Definition usaturating_mul (w a b : Z) : Z := default (max_value w) (checked_mul w a b).

(** ** Per-things *)

Record PerThing : Type := MkPerThing { ACCURACY : Z; inner : Z; upper : Z }.

Definition Percent : PerThing := MkPerThing 100 8 16.
Definition Permill : PerThing := MkPerThing 1000000 32 64.
Definition Perbill : PerThing := MkPerThing 1000000000 32 64.
Definition Perquintill : PerThing := MkPerThing 1000000000000000000 64 128.

(** What the macro's own test asserts of its arguments. *)
Definition macro_expanded_correctly (T : PerThing) : bool :=
  let max := ACCURACY T in
  (100 <=? max) && (max mod 100 =? 0) && (2 * max <? max_value (inner T)) &&
  (max <? max_value (upper T)) && (inner T <=? upper T) && (max * max <? 2 ^ upper T).

Section per_thing.
Context (T : PerThing).

Definition pt_zero : Z := 0.
Definition pt_is_zero (p : Z) : bool := p =? 0.
Definition one : Z := ACCURACY T.

Definition from_parts (parts : Z) : Z := if ACCURACY T <? parts then ACCURACY T else parts.

Definition from_percent (x : Z) : run Z := umul (inner T) (if 100 <? x then 100 else x) (ACCURACY T / 100).

(** The type of [p] and [q] only has to hold the parts: every operation on it is
    a comparison or a quotient. *)
Definition from_rational_approximation (p q : Z) : run Z :=
  let q := Z.max q 1 in
  let p := Z.min p q in
  factor ← udiv q (ACCURACY T);
  let factor := Z.max factor 1 in
  q_reduce ← udiv q factor;
  q_reduce ← expect (try_into (inner T) q_reduce);
  p_reduce ← udiv p factor;
  p_reduce ← expect (try_into (inner T) p_reduce);
  product ← umul (upper T) p_reduce (ACCURACY T);
  part ← udiv product q_reduce;
  Ok (wrap (inner T) part).

Definition square (p : Z) : run Z :=
  n ← umul (upper T) p p;
  d ← umul (upper T) (ACCURACY T) (ACCURACY T);
  from_rational_approximation n d.

Definition pt_saturating_add (p q : Z) : Z := from_parts (usaturating_add (inner T) p q).
Definition pt_saturating_sub (p q : Z) : Z := from_parts (saturating_sub p q).
Definition pt_saturating_mul (p q : Z) : run Z :=
  product ← umul (upper T) p q;
  parts ← udiv product (ACCURACY T);
  Ok (from_parts (wrap (inner T) parts)).

Definition pt_div (p q : Z) : run Z := from_rational_approximation p q.

(** The product with a number [b] of [w] bits. *)
Definition pt_mul (w : Z) (p b : Z) : run Z :=
  rem ← urem b (ACCURACY T);
  let rem_sized := saturated_into (inner T) rem in
  rem_multiplied_upper ← umul (upper T) rem_sized p;
  quotient ← udiv rem_multiplied_upper (ACCURACY T);
  remainder ← urem rem_multiplied_upper (ACCURACY T);
  let rem_multiplied_divided_sized := wrap (inner T) quotient in
  rem_multiplied_divided ← (if ACCURACY T / 2 <? remainder then uadd (inner T) rem_multiplied_divided_sized 1 else Ok rem_multiplied_divided_sized);
  b_divided ← udiv b (ACCURACY T);
  whole ← umul w b_divided p;
  uadd w whole rem_multiplied_divided.

End per_thing.

(** ** What they compute *)

(** A fraction between zero and one. *)
Definition parts_ok (T : PerThing) (p : Z) : Prop := 0 ≤ p ≤ ACCURACY T.

(** [x / m] rounded to the nearest integer, a half down. *)
Definition round_half_down (x m : Z) : Z := x / m + (if m / 2 <? x mod m then 1 else 0).

Class PerThingOk (T : PerThing) : Prop := {
  accuracy_pos : 100 ≤ ACCURACY T;
  accuracy_percent : ACCURACY T mod 100 = 0;
  accuracy_inner : 2 * ACCURACY T < 2 ^ inner T;
  accuracy_upper : 2 * ACCURACY T * ACCURACY T < 2 ^ upper T;
}.

#[export] Instance Percent_ok : PerThingOk Percent.
Proof. by constructor. Qed.
#[export] Instance Permill_ok : PerThingOk Permill.
Proof. by constructor. Qed.
#[export] Instance Perbill_ok : PerThingOk Perbill.
Proof. by constructor. Qed.
#[export] Instance Perquintill_ok : PerThingOk Perquintill.
Proof. by constructor. Qed.

Section facts.
Context (T : PerThing) {HT : PerThingOk T}.
Local Abbreviation max := (ACCURACY T).

Lemma umul_Ok w a b : a * b < 2 ^ w → umul w a b = Ok (a * b).
Proof using. intros. unfold umul. by rewrite checked_mul_Some. Qed.

Lemma uadd_Ok w a b : a + b < 2 ^ w → uadd w a b = Ok (a + b).
Proof using. intros. unfold uadd. by rewrite checked_add_Some. Qed.

Lemma udiv_Ok a b : b ≠ 0 → udiv a b = Ok (a / b).
Proof using. intros. unfold udiv. by rewrite (proj2 (Z.eqb_neq b 0)). Qed.

Lemma urem_Ok a b : b ≠ 0 → urem a b = Ok (a mod b).
Proof using. intros. unfold urem. by rewrite (proj2 (Z.eqb_neq b 0)). Qed.

Lemma try_into_Ok w x : x < 2 ^ w → (expect (try_into w x) : run Z) = Ok x.
Proof using. intros. unfold try_into. by rewrite (proj2 (Z.ltb_lt _ _)). Qed.

Lemma saturated_into_eq w x : saturated_into w x = Z.min (max_value w) x.
Proof using. unfold saturated_into, try_into, max_value. destruct (Z.ltb_spec x (2 ^ w)); cbn [default from_option id]; lia. Qed.

Lemma from_parts_eq p : from_parts T p = Z.min p max.
Proof using. unfold from_parts. destruct (Z.ltb_spec max p); lia. Qed.

Lemma round_half_down_bound x m c : 0 < m → 0 ≤ x ≤ c * m → 0 ≤ round_half_down x m ≤ c.
Proof using.
  intros Hm Hx. unfold round_half_down. pose proof (Z.div_mod x m ltac:(lia)). pose proof (Z.mod_pos_bound x m ltac:(lia)).
  pose proof (Z.div_pos x m ltac:(lia) ltac:(lia)). assert (0 ≤ m / 2) by (apply Z.div_pos; lia). destruct (Z.ltb_spec (m / 2) (x mod m)); nia.
Qed.

Lemma round_half_down_add x m k : 0 < m → round_half_down (k * m + x) m = k + round_half_down x m.
Proof using. intros Hm. unfold round_half_down. rewrite (Z.add_comm (k * m)), Z.div_add, Z.mod_add by lia. lia. Qed.

Lemma pt_mul_ok w p b :
  max < 2 ^ w → parts_ok T p → fits w b →
  pt_mul T w p b = Ok (round_half_down (b * p) max) ∧ 0 ≤ round_half_down (b * p) max ≤ b.
Proof using HT.
  intros Hw Hp Hb. unfold parts_ok in Hp. unfold fits in Hb. destruct HT as [H1 _ H3 H4].
  assert (0 ≤ round_half_down (b * p) max ≤ b) as Hbound by (apply round_half_down_bound; nia). split; [|done].
  pose proof (Z.div_mod b max ltac:(lia)) as Hdm. pose proof (Z.mod_pos_bound b max ltac:(lia)) as Hrem.
  set (r := b mod max) in *. set (d := b / max) in *.
  assert (round_half_down (b * p) max = d * p + round_half_down (r * p) max) as E.
  { rewrite <- round_half_down_add by lia. f_equal. rewrite Hdm at 1. ring. }
  assert (0 ≤ round_half_down (r * p) max ≤ r) as Hr by (apply round_half_down_bound; nia).
  assert (0 ≤ r * p / max ≤ r) as Hq by (split; [apply Z.div_pos; nia|apply Z.div_le_upper_bound; nia]).
  unfold pt_mul. rewrite urem_Ok by lia. cbn [mbind result_bind]. fold r. rewrite saturated_into_eq, Z.min_r by (unfold max_value; lia).
  rewrite umul_Ok by nia. cbn [mbind result_bind]. rewrite (udiv_Ok (r * p)), (urem_Ok (r * p)) by lia. cbn [mbind result_bind].
  rewrite (wrap_small _ (r * p / max)) by (unfold fits; lia).
  assert ((if max / 2 <? r * p mod max then uadd (inner T) (r * p / max) 1 else Ok (r * p / max)) = Ok (round_half_down (r * p) max)) as ->.
  { unfold round_half_down in *. destruct (max / 2 <? r * p mod max); [apply uadd_Ok; lia|by rewrite Z.add_0_r]. }
  cbn [mbind result_bind]. rewrite udiv_Ok by lia. cbn [mbind result_bind]. fold d. rewrite umul_Ok by lia. cbn [mbind result_bind].
  rewrite uadd_Ok by lia. by rewrite E.
Qed.

(** ** Rational approximation *)

(** [p / q] over a denominator below [2 * max]. *)
Definition factor (q : Z) : Z := Z.max (q / max) 1.

Lemma factor_bounds q : 1 ≤ q → 1 ≤ factor q ≤ q ∧ 1 ≤ q / factor q < 2 * max ∧ (factor q = 1 ∨ max ≤ q / factor q).
Proof using HT.
  intros Hq. pose proof accuracy_pos. unfold factor. pose proof (Z.div_mod q max ltac:(lia)) as Hdm. pose proof (Z.mod_pos_bound q max ltac:(lia)).
  assert (q / max ≤ q) by (apply Z.div_le_upper_bound; nia). set (f := Z.max (q / max) 1). assert (1 ≤ f ≤ q) as Hf by lia.
  assert (f = 1 ∨ max ≤ q / f) as Hor.
  { destruct (decide (f = 1)) as [|Hf1]; [by left|]. right. apply Z.div_le_lower_bound; [lia|]. assert (f = q / max) as -> by lia. lia. }
  split_and!; [lia|lia| |..|done].
  - apply Z.div_le_lower_bound; lia.
  - apply Z.div_lt_upper_bound; [lia|]. assert (f = q / max ∨ (f = 1 ∧ q < max)) as [-> | [-> ?]]; [|nia|lia].
    destruct (decide (q < max)); [right; split; [|done]; unfold f; rewrite Z.div_small; lia|]. left.
    assert (1 ≤ q / max) by (apply Z.div_le_lower_bound; lia). lia.
Qed.

Lemma from_rational_eq p q :
  1 ≤ q → 0 ≤ p ≤ q →
  let part := p / factor q * max / (q / factor q) in
  from_rational_approximation T p q = Ok part ∧ parts_ok T part.
Proof using HT.
  intros Hq Hp part. destruct (factor_bounds q Hq) as (Hf&HQ&_). destruct HT as [H1 _ H3 H4].
  assert (0 ≤ p / factor q ≤ q / factor q) as HP by (split; [apply Z.div_pos; lia|apply Z.div_le_mono; lia]).
  assert (parts_ok T part) as Hpart by (split; [apply Z.div_pos; nia|apply Z.div_le_upper_bound; nia]). split; [|done]. unfold parts_ok in Hpart.
  unfold from_rational_approximation. rewrite Z.max_l, Z.min_l, (udiv_Ok q max) by lia. cbn [mbind result_bind]. fold (factor q).
  rewrite !udiv_Ok by lia. cbn [mbind result_bind]. rewrite !try_into_Ok by lia. cbn [mbind result_bind]. rewrite umul_Ok by nia. cbn [mbind result_bind]. rewrite udiv_Ok by lia. cbn [mbind result_bind].
  fold part. by rewrite wrap_small by (unfold fits; lia).
Qed.

(** At most one part too many and less than two parts missing. *)
Lemma from_rational_error p q :
  1 ≤ q → 0 ≤ p ≤ q →
  let part := p / factor q * max / (q / factor q) in
  (part - 1) * q ≤ p * max < (part + 2) * q.
Proof using HT.
  intros Hq Hp part. destruct (factor_bounds q Hq) as (Hf&HQ&Hor). pose proof accuracy_pos.
  destruct (from_rational_eq p q Hq Hp) as [_ Hpart]. fold part in Hpart. unfold parts_ok in Hpart.
  set (f := factor q) in *. pose proof (Z.div_mod q f ltac:(lia)) as Eq. pose proof (Z.mod_pos_bound q f ltac:(lia)) as Hs.
  pose proof (Z.div_mod p f ltac:(lia)) as Ep. pose proof (Z.mod_pos_bound p f ltac:(lia)) as Ht.
  set (Q := q / f) in *. set (P := p / f) in *. set (s := q mod f) in *. set (t := p mod f) in *.
  pose proof (Z.div_mod (P * max) Q ltac:(lia)) as Epart. pose proof (Z.mod_pos_bound (P * max) Q ltac:(lia)) as Hu. fold part in Epart.
  set (u := (P * max) mod Q) in *. rewrite Eq, Ep. clearbody Q P s t u part f. clear Eq Ep Hq Hp.
  destruct Hor as [-> | HQm].
  - assert (s = 0) as -> by lia. assert (t = 0) as -> by lia. nia.
  - assert (f * (P * max) = f * (Q * part) + f * u) as Ef by (rewrite Epart; ring). assert (0 ≤ f * u < f * Q) by nia.
    assert (0 ≤ t * max ≤ f * Q) by nia. assert (0 ≤ part * s ≤ f * Q) by nia. split; nia.
Qed.

Lemma from_rational_exact p q : 1 ≤ q < 2 * max → 0 ≤ p ≤ q → from_rational_approximation T p q = Ok (p * max / q).
Proof using HT.
  intros Hq Hp. destruct (from_rational_eq p q) as [-> _]; [lia..|]. pose proof accuracy_pos.
  assert (factor q = 1) as ->; [|by rewrite !Z.div_1_r]. unfold factor. assert (q / max < 2) by (apply Z.div_lt_upper_bound; lia). lia.
Qed.

Lemma from_rational_clipped p q : from_rational_approximation T p q = from_rational_approximation T (Z.min p (Z.max q 1)) (Z.max q 1).
Proof using. unfold from_rational_approximation. rewrite (Z.max_l (Z.max q 1)) by lia. by rewrite <- Z.min_assoc, Z.min_id. Qed.

Lemma from_rational_ok p q :
  0 ≤ p →
  ∃ part, from_rational_approximation T p q = Ok part ∧ parts_ok T part ∧
    let q' := Z.max q 1 in
    let p' := Z.min p q' in
    (part - 1) * q' ≤ p' * max < (part + 2) * q' ∧ (q' < 2 * max → part = p' * max / q').
Proof using HT.
  intros Hp. rewrite from_rational_clipped. set (q' := Z.max q 1). set (p' := Z.min p q').
  destruct (from_rational_eq p' q') as [E Hpart]; [lia..|]. eexists. split; [exact E|]. split; [exact Hpart|].
  fold p'. split; [apply from_rational_error; lia|]. intros Hq. pose proof (from_rational_exact p' q' ltac:(lia) ltac:(lia)) as E'. rewrite E in E'. by injection E'.
Qed.

(** ** The other operations *)

Lemma from_percent_ok x : 0 ≤ x → from_percent T x = Ok (Z.min x 100 * max / 100) ∧ parts_ok T (Z.min x 100 * max / 100).
Proof using HT.
  intros Hx. destruct HT as [H1 H2 H3 _]. unfold from_percent. assert ((if 100 <? x then 100 else x) = Z.min x 100) as -> by (destruct (Z.ltb_spec 100 x); lia).
  apply Z.mod_divide in H2 as [k E]; [|lia]. unfold parts_ok. rewrite E, Z.mul_assoc, !Z.div_mul by lia. rewrite umul_Ok by nia. split; [done|nia].
Qed.

Lemma square_ok p : parts_ok T p → square T p = Ok (p * p / max) ∧ parts_ok T (p * p / max).
Proof using HT.
  intros Hp. unfold parts_ok in *. destruct HT as [H1 _ H3 H4]. split; [|split; [apply Z.div_pos; nia|apply Z.div_le_upper_bound; nia]].
  unfold square. rewrite umul_Ok by nia. cbn [mbind result_bind]. rewrite umul_Ok by nia. cbn [mbind result_bind].
  destruct (from_rational_eq (p * p) (max * max)) as [-> _]; [nia..|]. assert (factor (max * max) = max) as -> by (unfold factor; rewrite Z.div_mul; lia).
  by rewrite !Z.div_mul by lia.
Qed.

Lemma pt_saturating_mul_ok p q : parts_ok T p → parts_ok T q → pt_saturating_mul T p q = Ok (p * q / max) ∧ parts_ok T (p * q / max).
Proof using HT.
  unfold parts_ok. intros Hp Hq. destruct HT as [H1 _ H3 H4].
  assert (0 ≤ p * q / max ≤ max) as Hb by (split; [apply Z.div_pos; nia|apply Z.div_le_upper_bound; nia]). split; [|done].
  unfold pt_saturating_mul. rewrite umul_Ok by nia. cbn [mbind result_bind]. rewrite udiv_Ok by lia. cbn [mbind result_bind].
  rewrite wrap_small by (unfold fits; lia). by rewrite from_parts_eq, Z.min_l by lia.
Qed.

Lemma pt_saturating_add_ok p q : parts_ok T p → parts_ok T q → pt_saturating_add T p q = Z.min (p + q) max.
Proof using HT.
  unfold parts_ok. intros Hp Hq. destruct HT as [H1 _ H3 _]. unfold pt_saturating_add, usaturating_add. rewrite from_parts_eq. unfold max_value. lia.
Qed.

Lemma pt_saturating_sub_ok p q : parts_ok T p → parts_ok T q → pt_saturating_sub T p q = Z.max 0 (p - q).
Proof using HT. unfold parts_ok. intros Hp Hq. unfold pt_saturating_sub, saturating_sub. rewrite from_parts_eq. lia. Qed.

Lemma pt_div_ok p q : parts_ok T p → parts_ok T q → pt_div T p q = Ok (Z.min p (Z.max q 1) * max / Z.max q 1).
Proof using HT.
  unfold parts_ok. intros Hp Hq. pose proof accuracy_pos. unfold pt_div. rewrite from_rational_clipped. apply from_rational_exact; lia.
Qed.

End facts.

(** ** Theorems *)

(** The fractions the macro is used for. *)
Definition per_things : list PerThing := [Percent; Permill; Perbill; Perquintill].

Lemma per_things_ok T : T ∈ per_things → PerThingOk T.
Proof. unfold per_things. rewrite !elem_of_cons, elem_of_nil. intros [-> | [-> | [-> | [-> | []]]]]; apply _. Qed.

(** C27. The type invariant of the fraction types ([Percent], [Permill], [Perbill],
    [Perquintill]): a value holds between zero and all of its parts.  The
    constructors from integers and the operations give such a value on such
    values, without a panic or an overflow of the narrow and the wide integer
    type, and are what their names say: percentages and parts are capped, sums
    are capped at one and differences at zero, products and squares are rounded
    down, and a quotient is exact up to rounding down, capped at one, with a
    zero divisor counting as one part.  A ratio of two numbers is capped at one
    and at most one part above and less than two parts below the exact value.
    The product with a number of an unsigned type wide enough for the parts is
    rounded to the nearest integer, a half down, and at most the number itself.
    Two ways to make a value are not covered, and check nothing:
    [from_fraction], which takes a floating-point number, and decoding. *)
Theorem per_thing_type T p q x y :
  T ∈ per_things → parts_ok T p → parts_ok T q → 0 ≤ x →
  (parts_ok T pt_zero ∧ parts_ok T (one T)) ∧
  (from_parts T x = Z.min x (ACCURACY T) ∧ parts_ok T (from_parts T x)) ∧
  (from_percent T x = Ok (Z.min x 100 * (ACCURACY T) / 100) ∧ parts_ok T (Z.min x 100 * (ACCURACY T) / 100)) ∧
  (pt_saturating_add T p q = Z.min (p + q) (ACCURACY T) ∧ parts_ok T (pt_saturating_add T p q)) ∧
  (pt_saturating_sub T p q = Z.max 0 (p - q) ∧ parts_ok T (pt_saturating_sub T p q)) ∧
  (pt_saturating_mul T p q = Ok (p * q / (ACCURACY T)) ∧ parts_ok T (p * q / (ACCURACY T))) ∧
  (square T p = Ok (p * p / (ACCURACY T)) ∧ parts_ok T (p * p / (ACCURACY T))) ∧
  (∃ d, pt_div T p q = Ok d ∧ d = Z.min p (Z.max q 1) * (ACCURACY T) / Z.max q 1 ∧ parts_ok T d) ∧
  (∃ part, from_rational_approximation T x y = Ok part ∧ parts_ok T part ∧
    (part - 1) * Z.max y 1 ≤ Z.min x (Z.max y 1) * ACCURACY T < (part + 2) * Z.max y 1) ∧
  (∀ w b, ACCURACY T < 2 ^ w → fits w b →
    pt_mul T w p b = Ok (round_half_down (b * p) (ACCURACY T)) ∧ 0 ≤ round_half_down (b * p) (ACCURACY T) ≤ b).
Proof.
  intros HT Hp Hq Hx. pose proof (per_things_ok T HT) as Hok. pose proof (accuracy_pos (T := T)) as Hmax.
  split_and!.
  - unfold parts_ok, pt_zero. lia.
  - unfold parts_ok, one. lia.
  - apply from_parts_eq.
  - rewrite from_parts_eq. unfold parts_ok. lia.
  - by apply from_percent_ok.
  - by apply from_percent_ok.
  - by apply pt_saturating_add_ok.
  - rewrite pt_saturating_add_ok by done. unfold parts_ok in *. lia.
  - by apply pt_saturating_sub_ok.
  - rewrite pt_saturating_sub_ok by done. unfold parts_ok in *. lia.
  - by apply pt_saturating_mul_ok.
  - by apply pt_saturating_mul_ok.
  - by apply square_ok.
  - by apply square_ok.
  - eexists. split; [by apply pt_div_ok|]. split; [done|]. unfold parts_ok in *.
    split; [apply Z.div_pos; nia|apply Z.div_le_upper_bound; nia].
  - destruct (from_rational_ok T x y Hx) as (part&?&?&?&_). by exists part.
  - intros w b Hw Hb. by apply pt_mul_ok.
Qed.

(** The product of a fraction with a number of any unsigned type wide enough
    for the parts never overflows: it is the exact product divided by the parts of
    one, rounded to the nearest integer with a half rounded down, and at most the
    number itself. *)
Theorem per_thing_mul_correct T w p b :
  T ∈ per_things → ACCURACY T < 2 ^ w → parts_ok T p → fits w b →
  pt_mul T w p b = Ok (round_half_down (b * p) (ACCURACY T)) ∧ 0 ≤ round_half_down (b * p) (ACCURACY T) ≤ b.
Proof. intros HT Hw Hp Hb. pose proof (per_things_ok T HT). by apply pt_mul_ok. Qed.

(** [from_rational_approximation] never panics, whatever the numbers: the
    fraction is capped at one, a zero denominator counts as one, and the result is
    at most one part above and less than two parts below the exact value; it is
    the exact value rounded down when the denominator is below twice the parts. *)
Theorem from_rational_approximation_correct T p q :
  T ∈ per_things → 0 ≤ p →
  ∃ part, from_rational_approximation T p q = Ok part ∧ parts_ok T part ∧
    let q' := Z.max q 1 in
    let p' := Z.min p q' in
    (part - 1) * q' ≤ p' * ACCURACY T < (part + 2) * q' ∧ (q' < 2 * ACCURACY T → part = p' * ACCURACY T / q').
Proof. intros HT Hp. pose proof (per_things_ok T HT). by apply from_rational_ok. Qed.

Module SmallFractions.

Lemma per_thing_type_witness :
  Percent ∈ per_things ∧ parts_ok Percent 70 ∧ parts_ok Percent 60 ∧
  pt_saturating_add Percent 70 60 = 100 ∧ pt_saturating_mul Percent 70 60 = Ok 42 ∧ square Percent 70 = Ok 49 ∧ pt_mul Percent 8 70 200 = Ok 140.
Proof.
  assert (Percent ∈ per_things) as HT by (unfold per_things; left). assert (parts_ok Percent 70) as H1 by (unfold parts_ok; cbn; lia).
  assert (parts_ok Percent 60) as H2 by (unfold parts_ok; cbn; lia).
  pose proof (per_thing_type Percent 70 60 5 3 HT H1 H2 ltac:(lia)) as (_&_&_&[Ha _]&_&[Hm _]&[Hs _]&_&_&Hb).
  destruct (Hb 8 200) as [Hb' _]; [done|done|].
  split_and!; [exact HT|exact H1|exact H2|exact Ha|exact Hm|exact Hs|exact Hb'].
Defined.

Lemma per_thing_mul_correct_witness : pt_mul Perbill 64 333333333 1000 = Ok 333 ∧ 0 ≤ 333 ≤ 1000.
Proof.
  apply (per_thing_mul_correct Perbill 64 333333333 1000);
    [unfold per_things; right; right; left|done|unfold parts_ok; cbn; lia|done].
Defined.

Lemma from_rational_approximation_correct_witness :
  ∃ part, from_rational_approximation Permill 1 3 = Ok part ∧ part = 1 * 1000000 / 3.
Proof.
  destruct (from_rational_approximation_correct Permill 1 3 ltac:(unfold per_things; right; left) ltac:(lia)) as (part&Hrun&_&_&He).
  exists part. split; [exact Hrun|]. apply He. cbn. lia.
Defined.

(** The approximation can be a part too large. *)
Lemma approximation_above : from_rational_approximation Percent 200 299 = Ok 67 ∧ 67 * 299 > 200 * 100.
Proof. by vm_compute. Qed.

End SmallFractions.
