(* ===== verification/Fixed64.v ===== *)
(** * Fixed-point numbers and fees

    - [Fixed64] (src/primitives/arithmetic/src/fixed64.rs): 64-bit signed numbers
      of billionths.
    - The fee multiplier of the node runtime
      (src/bin/node/runtime/src/impls.rs, [TargetedFeeAdjustment]).
    - The fee of a transaction (src/frame/transaction-payment/src/lib.rs). *)
From S2P Require Import Prelude BigUint PerThings.

Local Open Scope Z_scope.

(** ** Signed machine integers *)

Definition imin (w : Z) : Z := - 2 ^ (w - 1).
Definition imax (w : Z) : Z := 2 ^ (w - 1) - 1.
Definition ifits (w x : Z) : Prop := imin w ≤ x ≤ imax w.
Definition clamp (w x : Z) : Z := Z.max (imin w) (Z.min (imax w) x).

#[export] Instance ifits_dec w x : Decision (ifits w x).
Proof. unfold ifits. apply _. Defined.

Definition ichecked (w x : Z) : option Z := if decide (ifits w x) then Some x else None.

(** [as] keeps the low bits. *)
Definition iwrap (w x : Z) : Z := (x - imin w) mod 2 ^ w + imin w.

(** [/] truncates; it panics on a zero divisor and on the quotient that does not fit. *)
Definition idiv (w a b : Z) : run Z := if b =? 0 then Panic else expect (ichecked w (Z.quot a b)).

(** ** Fixed64 *)

Definition DIV : Z := 1000000000.

Definition from_natural (int : Z) : Z := clamp 64 (int * DIV).

Definition fixed_from_parts (parts : Z) : Z := parts.

Definition from_rational (n d : Z) : run Z :=
  quotient ← idiv 128 (clamp 128 (n * DIV)) (Z.max d 1);
  Ok (default (imax 64) (ichecked 64 quotient)).

Definition saturated_multiply_accumulate (w : Z) (self int : Z) : run Z :=
  let positive := 0 <? self in
  let parts := default (imax 64 + 1) (ichecked 64 (Z.abs self)) in
  natural_parts ← udiv parts DIV;
  let natural_parts := saturated_into w natural_parts in
  perbill_parts ← urem parts DIV;
  let perbill_parts := wrap 32 perbill_parts in
  let n := usaturating_mul w int natural_parts in
  p ← pt_mul Perbill w (from_parts Perbill perbill_parts) int;
  let excess := usaturating_add w n p in
  Ok (if positive then usaturating_add w int excess else saturating_sub int excess).

Definition fixed_saturating_add (x y : Z) : Z := clamp 64 (x + y).
Definition fixed_saturating_sub (x y : Z) : Z := clamp 64 (x - y).
Definition fixed_saturating_mul (x y : Z) : run Z := idiv 64 (clamp 64 (x * y)) DIV.

Definition fixed_add (x y : Z) : run Z := expect (ichecked 64 (x + y)).
Definition fixed_sub (x y : Z) : run Z := expect (ichecked 64 (x - y)).

Definition fixed_div (x y : Z) : run Z :=
  if y =? 0 then idiv 64 x 0
  else if y <? 0 then
    n ← expect (ichecked 64 (- x));
    d ← expect (ichecked 64 (Z.abs y));
    from_rational n d
  else from_rational x y.

Definition fixed_checked_sub (x y : Z) : option Z := ichecked 64 (x - y).
Definition fixed_checked_add (x y : Z) : option Z := ichecked 64 (x + y).
Definition fixed_checked_div (x y : Z) : run (option Z) :=
  if y =? 0 then Ok None else q ← fixed_div x y; Ok (Some q).

(** ** The fee multiplier *)

(** [target] and [max_weight] are runtime constants, [block_weight] is the weight
    of the block's extrinsics. *)
Definition convert (target max_weight block_weight multiplier : Z) : run Z :=
  target_weight ← pt_mul Perbill 32 target max_weight;
  let positive := target_weight <=? block_weight in
  let diff_abs := Z.max block_weight target_weight - Z.min block_weight target_weight in
  diff ← from_rational (iwrap 64 diff_abs) max_weight;
  diff_squared ← fixed_saturating_mul diff diff;
  v ← from_rational 4 100000;
  v_squared_2 ← from_rational 1 1000000000;
  first_term ← fixed_saturating_mul v diff;
  second_term ← fixed_saturating_mul v_squared_2 diff_squared;
  if positive then
    let excess := fixed_saturating_add first_term second_term in
    Ok (fixed_saturating_add multiplier excess)
  else
    negative ← fixed_sub first_term second_term;
    floor ← from_rational (-1) 1;
    Ok (Z.max (fixed_saturating_sub multiplier negative) floor).

(** ** The fee of a transaction *)

Inductive DispatchClass : Type := Normal | Operational.

Record DispatchInfo : Type := MkDispatchInfo { weight : Z; class : DispatchClass; pays_fee : bool }.

Section fee.
(** The width of balances, the runtime's constants and its conversion of weights. *)
Context (w : Z) (TransactionBaseFee TransactionByteFee MaximumBlockWeight : Z) (WeightToFee : Z → Z).

Definition compute_fee (NextFeeMultiplier : Z) (len : Z) (info : DispatchInfo) (tip : Z) : run Z :=
  if pays_fee info then
    let len_fee := usaturating_mul w TransactionByteFee len in
    let capped_weight := Z.min (weight info) MaximumBlockWeight in
    let weight_fee := WeightToFee capped_weight in
    let adjustable_fee := usaturating_add w len_fee weight_fee in
    adjusted_fee ← saturated_multiply_accumulate w NextFeeMultiplier adjustable_fee;
    Ok (usaturating_add w (usaturating_add w TransactionBaseFee adjusted_fee) tip)
  else Ok tip.

(** The weight, the class and the fee without a tip. *)
Definition query_info (NextFeeMultiplier : Z) (info : DispatchInfo) (len : Z) : run (Z * DispatchClass * Z) :=
  partial_fee ← compute_fee NextFeeMultiplier len info 0;
  Ok (weight info, class info, partial_fee).

(** The multiplier of the next block. *)
Definition on_finalize (FeeMultiplierUpdate : Z → run Z) (NextFeeMultiplier : Z) : run Z := FeeMultiplierUpdate NextFeeMultiplier.

End fee.

(** [LinearWeightToFee] on 128-bit balances. *)
Definition LinearWeightToFee (coefficient : Z) (w : Z) : Z := usaturating_mul 128 w coefficient.

(** ** What they compute *)

Lemma iwrap_small w x : 0 < w → ifits w x → iwrap w x = x.
Proof.
  intros Hw Hx. unfold ifits, imin, imax in *. unfold iwrap, imin.
  assert (2 ^ w = 2 * 2 ^ (w - 1)) as E by (rewrite <- Z.pow_succ_r by lia; f_equal; lia). rewrite Z.mod_small; lia.
Qed.

Lemma clamp_small w x : ifits w x → clamp w x = x.
Proof. unfold ifits, clamp. lia. Qed.

Lemma ichecked_Some w x : ifits w x → ichecked w x = Some x.
Proof. intros. unfold ichecked. by rewrite decide_True. Qed.

Lemma idiv_Ok w a b : b ≠ 0 → ifits w (Z.quot a b) → idiv w a b = Ok (Z.quot a b).
Proof. intros Hb Hq. unfold idiv. rewrite (proj2 (Z.eqb_neq b 0)) by done. by rewrite ichecked_Some. Qed.

Lemma quot_bound a b : 0 < b → Z.abs (Z.quot a b) ≤ Z.abs a.
Proof.
  intros Hb. rewrite <- Z.quot_abs by lia. rewrite Z.quot_div_nonneg by lia. apply Z.div_le_upper_bound; nia.
Qed.

(** The quotient of the numbers, truncated; one that does not fit is replaced by
    the largest number, whatever its sign. *)
Lemma from_rational_fixed_ok n d :
  ifits 64 n → fits 64 d →
  let q := Z.quot (n * DIV) (Z.max d 1) in
  from_rational n d = Ok (if decide (ifits 64 q) then q else imax 64).
Proof.
  intros Hn Hd q. unfold from_rational, ifits, imin, imax, fits in *. cbn [Z.sub Z.add Z.opp Z.pos_sub Pos.pred_double] in *.
  assert (ifits 128 (n * DIV)) as Hf by (unfold ifits, imin, imax, DIV; lia). rewrite clamp_small by done.
  pose proof (quot_bound (n * DIV) (Z.max d 1) ltac:(lia)) as Hq. fold q in Hq.
  rewrite idiv_Ok; [|lia|fold q; unfold ifits, imin, imax, DIV in *; lia]. cbn [mbind result_bind]. fold q. unfold ichecked, ifits, imin, imax.
  by destruct (decide _).
Qed.

Lemma usaturating_mul_eq w a b : usaturating_mul w a b = Z.min (max_value w) (a * b).
Proof. unfold usaturating_mul, checked_mul, max_value. destruct (Z.ltb_spec (a * b) (2 ^ w)); cbn [default from_option id]; lia. Qed.

(** The exact product, rounded once and saturated once. *)
Definition accumulated (w self int : Z) : Z :=
  let excess := round_half_down (int * Z.abs self) DIV in
  if 0 <? self then Z.min (max_value w) (int + excess) else Z.max 0 (int - excess).

Lemma saturated_multiply_accumulate_ok w self int :
  32 ≤ w → ifits 64 self → fits w int → saturated_multiply_accumulate w self int = Ok (accumulated w self int).
Proof.
  intros Hw Hself Hint. unfold saturated_multiply_accumulate, accumulated.
  assert (default (imax 64 + 1) (ichecked 64 (Z.abs self)) = Z.abs self) as ->.
  { unfold ichecked. case_decide as Hf; [done|]. cbn [default from_option]. unfold ifits, imin, imax in *. cbn in *. lia. }
  set (parts := Z.abs self). assert (0 ≤ parts) as Hparts by apply Z.abs_nonneg.
  rewrite udiv_Ok, urem_Ok by done. cbn [mbind result_bind].
  pose proof (Z.div_mod parts DIV ltac:(done)) as Edm. pose proof (Z.mod_pos_bound parts DIV ltac:(done)) as Hr.
  assert (0 ≤ parts / DIV) as Hd by (apply Z.div_pos; [done|done]).
  set (nat := parts / DIV) in *. set (frac := parts mod DIV) in *. rewrite wrap_small by (unfold fits, DIV in *; lia).
  assert (from_parts Perbill frac = frac) as -> by (rewrite from_parts_eq, Z.min_l; [done|]; change (ACCURACY Perbill) with DIV; lia).
  assert (2 ^ 32 ≤ 2 ^ w) as Hpow by (apply Z.pow_le_mono_r; lia).
  destruct (pt_mul_ok Perbill w frac int) as [-> Hb].
  { change (ACCURACY Perbill) with 1000000000. lia. }
  { split; [lia|]. change (ACCURACY Perbill) with DIV. lia. }
  { done. }
  change (ACCURACY Perbill) with DIV in *. cbn [mbind result_bind].
  assert (round_half_down (int * parts) DIV = int * nat + round_half_down (int * frac) DIV) as E.
  { rewrite <- round_half_down_add by done. f_equal. rewrite Edm. ring. }
  rewrite E. clear E. set (p := round_half_down (int * frac) DIV) in *. unfold fits in Hint.
  rewrite usaturating_mul_eq, saturated_into_eq. unfold usaturating_add, saturating_sub. unfold max_value. set (M := 2 ^ w) in *.
  assert (Z.min (M - 1) (int * Z.min (M - 1) nat) = Z.min (M - 1) (int * nat)) as ->.
  { destruct (Z.le_gt_cases nat (M - 1)); [by rewrite (Z.min_r (M - 1) nat) by lia|]. rewrite (Z.min_l (M - 1) nat) by lia.
    destruct (decide (int = 0)) as [->|]; [done|]. rewrite !Z.min_l by nia. done. }
  assert (0 ≤ int * nat) by nia. f_equal. destruct (0 <? self); lia.
Qed.

(** ** The fee multiplier *)

Lemma fixed_saturating_mul_ok x y : fixed_saturating_mul x y = Ok (Z.quot (clamp 64 (x * y)) DIV).
Proof.
  unfold fixed_saturating_mul. apply idiv_Ok; [done|]. pose proof (quot_bound (clamp 64 (x * y)) DIV ltac:(done)) as Hq.
  set (q := Z.quot _ _) in *. assert (ifits 64 (clamp 64 (x * y))) as Hc by (unfold ifits, clamp, imin, imax; lia).
  set (c := clamp 64 (x * y)) in *. unfold ifits, imin, imax in *. cbn in Hc |- *.
  destruct (decide (c = -9223372036854775808)) as [E|]; [|lia]. unfold q. rewrite E. vm_compute. done.
Qed.

Definition minus_one : Z := - DIV.

(** The distance of the block's weight from the target, in billionths of the
    maximum weight, and the terms of the formula. *)
Definition target_weight (target max_weight : Z) : Z := round_half_down (max_weight * target) DIV.
Definition distance (target max_weight block_weight : Z) : Z :=
  Z.abs (block_weight - target_weight target max_weight) * DIV / Z.max max_weight 1.
Definition first_term (diff : Z) : Z := 40000 * diff / DIV.
Definition second_term (diff : Z) : Z := diff * diff / DIV / DIV.

Definition adjusted (target max_weight block_weight m : Z) : Z :=
  let diff := distance target max_weight block_weight in
  if target_weight target max_weight <=? block_weight then Z.min (imax 64) (m + (first_term diff + second_term diff))
  else Z.max minus_one (m - (first_term diff - second_term diff)).

(** The change of the multiplier, before it is held in its range. *)
Definition change_of (target max_weight block_weight : Z) : Z :=
  let diff := distance target max_weight block_weight in
  if target_weight target max_weight <=? block_weight then first_term diff + second_term diff
  else - (first_term diff - second_term diff).

(** The change is, up to two billionths, v d + (v d)^2 / 2 for v = 0.00004 and d
    the distance from the target as a fraction of the maximum weight; both sides
    are multiplied by ten billions and by the square of the maximum weight. *)
Definition near_formula (target max_weight block_weight change : Z) : Prop :=
  let d := block_weight - target_weight target max_weight in
  let w := Z.max max_weight 1 in
  Z.abs (10 * w ^ 2 * change - (400000 * d * w + 8 * d ^ 2)) ≤ 20 * w ^ 2.

Section multiplier.
Context (target max_weight block_weight m : Z).
Context (Htarget : parts_ok Perbill target) (Hmax : fits 32 max_weight) (Hblock : fits 32 block_weight) (Hm : ifits 64 m).
Local Abbreviation tw := (target_weight target max_weight).
Local Abbreviation diff := (distance target max_weight block_weight).

Lemma target_weight_ok : pt_mul Perbill 32 target max_weight = Ok tw ∧ 0 ≤ tw ≤ max_weight.
Proof using Htarget Hmax. by apply (pt_mul_ok Perbill 32 target max_weight). Qed.

Lemma distance_ok :
  from_rational (iwrap 64 (Z.max block_weight tw - Z.min block_weight tw)) max_weight = Ok diff ∧
  0 ≤ diff < 2 ^ 32 * DIV ∧ (block_weight ≤ max_weight → diff ≤ DIV).
Proof using Htarget Hmax Hblock.
  destruct target_weight_ok as [_ Htw]. unfold fits in *. assert (Z.max block_weight tw - Z.min block_weight tw = Z.abs (block_weight - tw)) as -> by lia.
  assert (0 ≤ Z.abs (block_weight - tw) < 2 ^ 32) as Habs by lia. unfold distance. set (a := Z.abs _) in *.
  assert (0 ≤ a * DIV / Z.max max_weight 1 < 2 ^ 32 * DIV) as Hb.
  { split; [apply Z.div_pos; unfold DIV; lia|]. apply Z.div_lt_upper_bound; unfold DIV; nia. }
  split_and!; [|lia..|].
  - assert (ifits 64 a) as Ha by (unfold ifits, imin, imax; cbn; lia). rewrite iwrap_small by done.
    rewrite from_rational_fixed_ok by (done || unfold fits; lia). rewrite Z.quot_div_nonneg by (unfold DIV; lia).
    rewrite decide_True; [done|]. unfold ifits, imin, imax, DIV in *. cbn. lia.
  - intros Hle. apply Z.div_le_upper_bound; [lia|]. unfold DIV. nia.
Qed.

Lemma convert_ok :
  ∃ m', convert target max_weight block_weight m = Ok m' ∧ ifits 64 m' ∧
    (tw ≤ block_weight → m ≤ m') ∧
    (block_weight < tw → minus_one ≤ m' ∧ (minus_one ≤ m → m - 40000 ≤ m' ≤ m)) ∧
    (block_weight ≤ max_weight → m' = adjusted target max_weight block_weight m).
Proof using All.
  destruct target_weight_ok as [Erun Htw]. destruct distance_ok as (Ediff&Hdiff&Hsmall). unfold convert. rewrite Erun. cbn [mbind result_bind].
  rewrite Ediff. cbn [mbind result_bind]. rewrite fixed_saturating_mul_ok. cbn [mbind result_bind].
  change (from_rational 4 100000) with (Ok 40000 : run Z). change (from_rational 1 1000000000) with (Ok 1 : run Z). cbn [mbind result_bind].
  rewrite !fixed_saturating_mul_ok. cbn [mbind result_bind]. rewrite Z.mul_1_l. unfold adjusted. set (d := diff) in *.
  set (dsq := Z.quot (clamp 64 (d * d)) DIV). set (first := Z.quot (clamp 64 (40000 * d)) DIV). set (second := Z.quot (clamp 64 dsq) DIV).
  assert (∀ x, 0 ≤ x → 0 ≤ Z.quot (clamp 64 x) DIV) as Hnn by (intros x Hx; apply Z.quot_pos; [unfold clamp, imin, imax; cbn; lia|done]).
  assert (0 ≤ dsq) as Hdsq by (apply Hnn; nia). assert (0 ≤ first) as Hfirst by (apply Hnn; lia). assert (0 ≤ second) as Hsecond by (by apply Hnn).
  assert (d ≤ DIV → first = first_term d ∧ second = second_term d ∧ second ≤ first ≤ 40000) as Hexact.
  { intros Hd. assert (d * d ≤ DIV * DIV) by nia. assert (first = first_term d) as E1.
    { unfold first. rewrite clamp_small by (unfold ifits, imin, imax, DIV in *; cbn; lia). apply Z.quot_div_nonneg; [lia|done]. }
    assert (dsq = d * d / DIV) as E2.
    { unfold dsq. rewrite clamp_small by (unfold ifits, imin, imax, DIV in *; cbn; lia). apply Z.quot_div_nonneg; [nia|done]. }
    assert (d * d / DIV ≤ d) as Hle by (apply Z.div_le_upper_bound; [done|nia]).
    assert (second = second_term d) as E3.
    { unfold second. rewrite E2, clamp_small by (unfold ifits, imin, imax, DIV in *; cbn; lia). apply Z.quot_div_nonneg; [lia|done]. }
    split_and!; [done..| |].
    - rewrite E1, E3. unfold second_term, first_term. apply Z.div_le_mono; [done|]. lia.
    - rewrite E1. unfold first_term. apply Z.div_le_upper_bound; unfold DIV in *; lia. }
  assert ((imin 64 ≤ minus_one ∧ minus_one ≤ -1) ∧ 80000 ≤ imax 64) as [[Hlo Hlo2] Hhi] by done. unfold ifits in Hm.
  destruct (Z.leb_spec tw block_weight) as [Hpos|Hneg].
  - eexists. split; [done|]. unfold fixed_saturating_add, ifits, clamp. clearbody first second. clear Hnn Hdsq dsq Ediff Erun.
    split_and!; [lia|lia|lia|lia|]. intros Hle. destruct (Hexact (Hsmall Hle)) as (->&E3&?). rewrite <- E3. clear Hexact. lia.
  - unfold fits in *. destruct (Hexact (Hsmall ltac:(lia))) as (E1&E3&Hsf). unfold fixed_sub.
    rewrite ichecked_Some by (unfold ifits; lia). cbn [mbind result_bind]. change (from_rational (-1) 1) with (Ok minus_one : run Z).
    cbn [mbind result_bind]. eexists. split; [done|]. rewrite <- E1, <- E3. unfold fixed_saturating_sub, ifits, clamp.
    clearbody first second. clear Hnn Hdsq dsq Hexact Ediff Erun E1 E3. split_and!; lia.
Qed.

Lemma change_small : block_weight ≤ max_weight → -40000 ≤ change_of target max_weight block_weight ≤ 40001.
Proof using Htarget Hmax Hblock.
  intros Hle. destruct distance_ok as (_&Hd&Hs). specialize (Hs Hle). unfold change_of. set (d := diff) in *.
  assert (0 ≤ first_term d ≤ 40000) as H1 by (unfold first_term, DIV in *; split; [apply Z.div_pos; lia|apply Z.div_le_upper_bound; lia]).
  assert (0 ≤ second_term d ≤ 1) as H2.
  { unfold second_term. rewrite Z.div_div by done. unfold DIV in *. split; [apply Z.div_pos; nia|]. apply Z.div_le_upper_bound; nia. }
  destruct (_ <=? _); lia.
Qed.

Lemma adjusted_change :
  block_weight ≤ max_weight → minus_one ≤ m ≤ imax 64 →
  adjusted target max_weight block_weight m = Z.max minus_one (Z.min (imax 64) (m + change_of target max_weight block_weight)).
Proof using Htarget Hmax Hblock.
  intros Hle Hr. destruct distance_ok as (_&Hd&Hs). specialize (Hs Hle). unfold adjusted, change_of. set (d := diff) in *.
  assert (0 ≤ second_term d ≤ first_term d) as H2.
  { unfold second_term, first_term. rewrite Z.div_div by done. split; [apply Z.div_pos; [nia|done]|].
    rewrite <- Z.div_div by done. apply Z.div_le_mono; [done|]. apply Z.div_le_upper_bound; [done|]. unfold DIV in *. nia. }
  destruct (_ <=? _); lia.
Qed.

Lemma change_near : block_weight ≤ max_weight → near_formula target max_weight block_weight (change_of target max_weight block_weight).
Proof using Htarget Hmax Hblock.
  intros Hle. destruct target_weight_ok as [_ Htw]. destruct distance_ok as (_&Hd0&Hs). specialize (Hs Hle). unfold fits in *.
  unfold near_formula, change_of, distance in *. set (w := Z.max max_weight 1) in *. set (a := Z.abs (block_weight - tw)) in *.
  assert (0 ≤ a ≤ w) as Ha by lia. set (d := a * DIV / w) in *.
  pose proof (Z.mul_div_le (a * DIV) w ltac:(lia)) as G1. pose proof (Z.mul_succ_div_gt (a * DIV) w ltac:(lia)) as G2. fold d in G1, G2.
  pose proof (Z.mul_div_le (40000 * d) DIV ltac:(done)) as G3. pose proof (Z.mul_succ_div_gt (40000 * d) DIV ltac:(done)) as G4.
  fold (first_term d) in G3, G4. set (f := first_term d) in *.
  assert (second_term d = 0 ∨ second_term d = 1 ∧ a = w) as Hsec.
  { unfold second_term. rewrite Z.div_div by done. unfold DIV in *. destruct (decide (d = 1000000000)) as [->|].
    - right. split; [done|]. lia.
    - left. apply Z.div_small. nia. }
  set (s := second_term d) in *. clearbody d f s. unfold DIV in *. set (e := 40000 * a - f * w).
  assert (0 ≤ e ∧ 1000000000 * e ≤ 1000040000 * w) as [U1 U2].
  { pose proof (Z.mul_le_mono_nonneg_r _ _ w ltac:(lia) G3). pose proof (Z.mul_le_mono_nonneg_r _ _ w ltac:(lia) (Z.lt_le_incl _ _ G4)).
    unfold e. split; lia. }
  assert (0 ≤ w * e ∧ 1000000000 * (w * e) ≤ 1000040000 * (w * w)) as [U3 U4].
  { split; [by apply Z.mul_nonneg_nonneg; lia|]. pose proof (Z.mul_le_mono_nonneg_l _ _ w ltac:(lia) U2). lia. }
  assert (0 ≤ a * a ≤ w * w) as U5 by (split; [apply Z.square_nonneg|apply Z.mul_le_mono_nonneg; lia]).
  rewrite !Z.pow_2_r. assert ((block_weight - tw) * (block_weight - tw) = a * a) as -> by (symmetry; apply Z.abs_square).
  destruct (Z.leb_spec tw block_weight).
  - replace (block_weight - tw) with a by lia.
    replace (10 * (w * w) * (f + s) - (400000 * a * w + 8 * (a * a)))
      with (- (10 * (w * e)) + 10 * (w * w * s) - 8 * (a * a)) by (unfold e; ring). clearbody e.
    destruct Hsec as [->|[-> ->]]; lia.
  - replace (block_weight - tw) with (- a) by lia.
    replace (10 * (w * w) * - (f - s) - (400000 * - a * w + 8 * (a * a)))
      with (10 * (w * e) + 10 * (w * w * s) - 8 * (a * a)) by (unfold e; ring). clearbody e.
    destruct Hsec as [->|[-> ->]]; lia.
Qed.

End multiplier.

(** The multiplier after a sequence of blocks ([on_finalize] of each). *)
Definition multiplier_after (target max_weight : Z) (m : Z) (block_weights : list Z) : run Z :=
  foldl_m (λ m block_weight, on_finalize (convert target max_weight block_weight) m) m block_weights.

Lemma multiplier_after_ok target max_weight ws m :
  parts_ok Perbill target → fits 32 max_weight → Forall (fits 32) ws → minus_one ≤ m ≤ imax 64 →
  ∃ m', multiplier_after target max_weight m ws = Ok m' ∧ minus_one ≤ m' ≤ imax 64.
Proof.
  intros Ht Hmw Hws. unfold multiplier_after. revert m. induction Hws as [|bw ws Hbw Hws IH]; intros m Hm; [by exists m|]. cbn [foldl_m]. change (on_finalize (convert target max_weight bw) m) with (convert target max_weight bw m).
  destruct (convert_ok target max_weight bw m) as (m'&->&Hf&Hup&Hdown&_); try done.
  { unfold ifits, minus_one, imin, DIV in *. cbn. lia. }
  cbn [mbind result_bind]. apply IH. unfold ifits in Hf. split; [|lia].
  destruct (Z.le_gt_cases (target_weight target max_weight) bw) as [Hle|Hlt]; [specialize (Hup Hle); lia|by apply Hdown].
Qed.

(** ** The fee *)

Lemma round_half_down_alt x m : 0 < m → round_half_down x m = (x + (m - m / 2 - 1)) / m.
Proof.
  intros Hm. unfold round_half_down. pose proof (Z.div_mod x m ltac:(lia)) as E. pose proof (Z.mod_pos_bound x m Hm) as Hr.
  assert (0 ≤ m / 2 < m) as Hh by (split; [apply Z.div_pos; lia|apply Z.div_lt_upper_bound; lia]).
  destruct (Z.ltb_spec (m / 2) (x mod m)).
  - apply Z.div_unique with (x mod m - m / 2 - 1); lia.
  - apply Z.div_unique with (x mod m + (m - m / 2 - 1)); lia.
Qed.

Lemma round_half_down_mono x y m : 0 < m → x ≤ y → round_half_down x m ≤ round_half_down y m.
Proof. intros Hm Hxy. rewrite !round_half_down_alt by done. apply Z.div_le_mono; lia. Qed.

Lemma accumulated_mono w self a b :
  minus_one ≤ self → 0 ≤ a ≤ b → accumulated w self a ≤ accumulated w self b.
Proof.
  intros Hself Hab. unfold accumulated. destruct (Z.ltb_spec 0 self) as [Hpos|Hneg].
  - pose proof (round_half_down_mono (a * Z.abs self) (b * Z.abs self) DIV ltac:(done) ltac:(nia)). lia.
  - unfold minus_one in Hself. assert (round_half_down (b * Z.abs self) DIV ≤ (b - a) + round_half_down (a * Z.abs self) DIV) as Hr; [|lia].
    rewrite <- round_half_down_add by done. apply round_half_down_mono; [done|]. nia.
Qed.

Lemma accumulated_bounds w self a : 0 ≤ w → minus_one ≤ self → fits w a → fits w (accumulated w self a).
Proof.
  intros Hw Hself [Ha1 Ha2]. unfold accumulated, fits, max_value. pose proof (Z.pow_pos_nonneg 2 w ltac:(lia) Hw).
  assert (0 ≤ round_half_down (a * Z.abs self) DIV) as Hnn by (rewrite round_half_down_alt by done; apply Z.div_pos; [change (DIV - DIV / 2 - 1) with 499999999; nia|done]).
  destruct (0 <? self); lia.
Qed.

Section fee_facts.
Context (w : Z) (base byte max_weight : Z) (to_fee : Z → Z).
Context (Hw : 32 ≤ w) (Hbase : fits w base) (Hbyte : fits w byte) (Hmax : fits 32 max_weight).
Context (Hfee : ∀ x, fits 32 x → fits w (to_fee x)).

(** The part of the fee that depends on length and weight, before the multiplier. *)
Definition adjustable (len weight : Z) : Z := Z.min (max_value w) (byte * len + to_fee (Z.min weight max_weight)).

Definition fee_spec (m len : Z) (info : DispatchInfo) (tip : Z) : Z :=
  if pays_fee info then Z.min (max_value w) (base + accumulated w m (adjustable len (weight info)) + tip) else tip.

Lemma adjustable_fits len weight : fits 32 len → fits 32 weight → fits w (adjustable len weight).
Proof using All.
  unfold fits in *. intros Hl Hwt. unfold adjustable, max_value. pose proof (Hfee (Z.min weight max_weight) ltac:(lia)).
  pose proof (Z.pow_pos_nonneg 2 w ltac:(lia) ltac:(lia)). nia.
Qed.

Lemma compute_fee_ok m len info tip :
  ifits 64 m → minus_one ≤ m → fits 32 len → fits 32 (weight info) → fits w tip →
  compute_fee w base byte max_weight to_fee m len info tip = Ok (fee_spec m len info tip).
Proof using All.
  intros Hm Hm1 Hlen Hwt Htip. unfold compute_fee, fee_spec. destruct (pays_fee info); [|done].
  pose proof (Hfee (Z.min (weight info) max_weight) ltac:(unfold fits in *; lia)) as Hf.
  assert (usaturating_add w (usaturating_mul w byte len) (to_fee (Z.min (weight info) max_weight)) = adjustable len (weight info)) as ->.
  { rewrite usaturating_mul_eq. unfold usaturating_add, adjustable, fits in *. lia. }
  pose proof (adjustable_fits len (weight info) Hlen Hwt) as Ha. rewrite saturated_multiply_accumulate_ok by done. cbn [mbind result_bind].
  pose proof (accumulated_bounds w m _ ltac:(lia) Hm1 Ha) as Hacc. f_equal. unfold usaturating_add, max_value, fits in *. lia.
Qed.

(** A fee is at least what it is for a shorter, lighter call with a smaller tip,
    and never less than base fee and tip together, up to the largest balance. *)
Lemma fee_spec_mono m len len' info info' tip tip' :
  minus_one ≤ m → 0 ≤ len ≤ len' → 0 ≤ weight info ≤ weight info' → pays_fee info = pays_fee info' → 0 ≤ tip ≤ tip' →
  fits 32 len' → fits 32 (weight info') → (∀ x y, 0 ≤ x ≤ y → to_fee x ≤ to_fee y) →
  fee_spec m len info tip ≤ fee_spec m len' info' tip'.
Proof using All.
  intros Hm Hlen Hwt Hp Htip Hl' Hw' Hmono. unfold fee_spec. rewrite Hp. destruct (pays_fee info'); [|lia].
  assert (adjustable len (weight info) ≤ adjustable len' (weight info')) as Ha.
  { unfold adjustable. pose proof (Hmono (Z.min (weight info) max_weight) (Z.min (weight info') max_weight) ltac:(unfold fits in *; lia)). unfold fits in *. nia. }
  pose proof (adjustable_fits len (weight info) ltac:(unfold fits in *; lia) ltac:(unfold fits in *; lia)) as [H0 _].
  pose proof (accumulated_mono w m (adjustable len (weight info)) (adjustable len' (weight info')) Hm ltac:(lia)). lia.
Qed.

Lemma fee_spec_floor m len info tip :
  minus_one ≤ m → fits 32 len → fits 32 (weight info) → pays_fee info = true → Z.min (max_value w) (base + tip) ≤ fee_spec m len info tip.
Proof using All.
  intros Hm Hlen Hwt Hp. unfold fee_spec. rewrite Hp. pose proof (adjustable_fits len (weight info) Hlen Hwt) as Ha.
  pose proof (accumulated_bounds w m _ ltac:(lia) Hm Ha) as [H0 _]. lia.
Qed.

End fee_facts.

(** ** Theorems *)

(** [saturated_multiply_accumulate] on every fixed-point number and every
    unsigned integer of at least 32 bits: the integer plus or minus its exact
    product with the number, rounded once (to the nearest, a half down) and
    clamped once to the integer's range.  The intermediate saturations and the
    split into whole and fractional parts lose nothing. *)
Theorem saturated_multiply_accumulate_correct w self int :
  32 ≤ w → ifits 64 self → fits w int →
  saturated_multiply_accumulate w self int =
    Ok (let excess := round_half_down (int * Z.abs self) DIV in
        if 0 <? self then Z.min (2 ^ w - 1) (int + excess) else Z.max 0 (int - excess)).
Proof. apply saturated_multiply_accumulate_ok. Qed.

(** C28. The fee multiplier of the node runtime: along any sequence of block
    weights, starting anywhere between minus one and the largest number, its
    update never panics and it stays in that range.  A block at or above the
    target does not lower it, and a lighter block does not raise it and lowers it
    by at most 0.00004.  A block within the maximum weight raises it by at most
    0.000040001, and adds to it, up to two billionths and held in its range,
    v d + (v d)^2 / 2, where v is 0.00004 and d the distance of the block's weight
    from the target as a fraction of the maximum weight.  This is the formula
    that the code computes and its test has; the comment above
    [TargetedFeeAdjustment] has a factor in place of the sum, and the distance
    as a weight. *)
Theorem fee_multiplier_correct target max_weight ws m :
  parts_ok Perbill target → fits 32 max_weight → Forall (fits 32) ws → minus_one ≤ m ≤ imax 64 →
  ∃ m', multiplier_after target max_weight m ws = Ok m' ∧ (minus_one ≤ m' ≤ imax 64) ∧
    ∀ block_weight, fits 32 block_weight →
      ∃ m'', convert target max_weight block_weight m' = Ok m'' ∧
        (target_weight target max_weight ≤ block_weight → m' ≤ m'') ∧
        (block_weight < target_weight target max_weight → m' - 40000 ≤ m'' ≤ m') ∧
        (block_weight ≤ max_weight → m'' ≤ m' + 40001 ∧
          ∃ change, near_formula target max_weight block_weight change ∧
            m'' = Z.max minus_one (Z.min (imax 64) (m' + change))).
Proof.
  intros Ht Hmw Hws Hm. destruct (multiplier_after_ok target max_weight ws m Ht Hmw Hws Hm) as (m'&Hrun&Hm'). exists m'. split_and!; [done|lia|lia|].
  intros bw Hbw. destruct (convert_ok target max_weight bw m' Ht Hmw Hbw) as (m''&Hc&_&Hup&Hdown&Hex).
  { unfold ifits, minus_one, imin, DIV in *. cbn. lia. }
  exists m''. split_and!; [done|done|intros Hlt; apply Hdown; [done|lia]|]. intros Hle. rewrite (Hex Hle), (adjusted_change target max_weight bw m') by done.
  pose proof (change_small target max_weight bw Ht Hmw Hbw Hle) as Hs. split; [lia|].
  exists (change_of target max_weight bw). split; [by apply change_near|done].
Qed.

(** The fee of a transaction is the base fee plus the tip plus the adjusted
    fee for length and weight, capped at the largest balance; it never panics, is
    at least base fee and tip, whatever the multiplier, and does not decrease when
    the transaction gets longer or heavier or the tip larger, provided that more
    weight does not cost less.  A call that pays no fee pays the tip. *)
Theorem compute_fee_correct w base byte max_weight to_fee m len len' info info' tip tip' :
  32 ≤ w → fits w base → fits w byte → fits 32 max_weight → (∀ x, fits 32 x → fits w (to_fee x)) → (∀ x y, 0 ≤ x ≤ y → to_fee x ≤ to_fee y) →
  ifits 64 m → minus_one ≤ m → 0 ≤ len ≤ len' → fits 32 len' → 0 ≤ weight info ≤ weight info' → fits 32 (weight info') →
  pays_fee info = pays_fee info' → 0 ≤ tip ≤ tip' → fits w tip' →
  let fee := fee_spec w base byte max_weight to_fee m in
  compute_fee w base byte max_weight to_fee m len info tip = Ok (fee len info tip) ∧
  compute_fee w base byte max_weight to_fee m len' info' tip' = Ok (fee len' info' tip') ∧
  fee len info tip ≤ fee len' info' tip' ∧
  (pays_fee info = true → Z.min (max_value w) (base + tip) ≤ fee len info tip) ∧
  (pays_fee info = false → fee len info tip = tip).
Proof.
  intros Hw Hb Hby Hmw Hf Hmono Hm Hm1 Hlen Hlen' Hwt Hwt' Hp Htip Htip' fee. unfold fee.
  assert (fits 32 len) by (unfold fits in *; lia). assert (fits 32 (weight info)) by (unfold fits in *; lia). assert (fits w tip) by (unfold fits in *; lia).
  split_and!.
  - by apply compute_fee_ok.
  - by apply compute_fee_ok.
  - by apply fee_spec_mono.
  - intros Hpay. by apply fee_spec_floor.
  - intros Hpay. unfold fee_spec. by rewrite Hpay.
Qed.

Module SmallFees.

Lemma saturated_multiply_accumulate_correct_witness :
  32 ≤ 64 ∧ ifits 64 (-500000000) ∧ fits 64 11 ∧ saturated_multiply_accumulate 64 (-500000000) 11 = Ok 6.
Proof. split_and!; [lia|done|done|]. exact (saturated_multiply_accumulate_correct 64 (-500000000) 11 ltac:(lia) ltac:(done) ltac:(done)). Defined.

Lemma fee_multiplier_correct_witness :
  ∃ m', multiplier_after 250000000 1000000000 0 [0; 1000000000; 0] = Ok m' ∧ minus_one ≤ m' ≤ imax 64.
Proof.
  destruct (fee_multiplier_correct 250000000 1000000000 [0; 1000000000; 0] 0) as (m'&Hrun&Hm'&_);
    [unfold parts_ok; cbn; lia|done|by repeat constructor|done|].
  exists m'. split; [exact Hrun|exact Hm'].
Defined.

(** The node runtime's fees. *)
Definition to_fee (x : Z) : Z := Z.min (max_value 128) (1000 * x).

Lemma compute_fee_correct_witness :
  compute_fee 128 100 10 1000000000 to_fee 1000000000 5 (MkDispatchInfo 7 Normal true) 3 = Ok (100 + 2 * (50 + 7000) + 3).
Proof.
  destruct (compute_fee_correct 128 100 10 1000000000 to_fee 1000000000 5 5 (MkDispatchInfo 7 Normal true) (MkDispatchInfo 7 Normal true) 3 3) as [E _];
    last (rewrite E; vm_compute; reflexivity).
  all: try done. all: unfold to_fee, fits, max_value in *; cbn; lia.
Defined.

(** A quotient that is too small for the type becomes the largest number. *)
Lemma from_rational_wrong_sign : from_rational (-10000000000) 1 = Ok (imax 64).
Proof. by vm_compute. Qed.

(** Four times four is 9.223372036: the product is saturated before it is scaled. *)
Lemma saturating_mul_four : fixed_saturating_mul (from_natural 4) (from_natural 4) = Ok 9223372036.
Proof. by vm_compute. Qed.

(** [checked_div] panics on the smallest number. *)
Lemma checked_div_panics : fixed_checked_div (imin 64) (- DIV) = Panic.
Proof. by vm_compute. Qed.

End SmallFees.
