(* ===== verification/Balances.v ===== *)
(** * Balances (src/frame/balances/src/lib.rs)

    Accounts with free and reserved funds, locks on them, the total issuance and
    the imbalances that operations return.  Accounts are stored by the system
    module (src/frame/system/src/lib.rs), as in the node runtime
    (src/bin/node/runtime/src/lib.rs), whose [DustRemoval] drops the dust and
    whose account hooks do nothing.  An arithmetic overflow is a panic; a
    subtraction under a comparison that makes it safe is written plainly. *)
From S2P Require Import Prelude PerThings.

Local Open Scope Z_scope.

(** ** Data *)

Inductive Reasons : Type := Fee | Misc | All.

#[export] Instance Reasons_eq_dec : EqDecision Reasons.
Proof. solve_decision. Defined.

(** [WithdrawReasons] is a bit mask. *)
Definition TransactionPayment : Z := 1.
Definition Transfer : Z := 2.
Definition Reserve : Z := 4.
Definition OtherFee : Z := 8.
Definition Tip : Z := 16.

Definition contains (mask flag : Z) : bool := Z.land mask flag =? flag.

Definition reasons_from (r : Z) : Reasons :=
  if r =? TransactionPayment then Fee
  else if contains r TransactionPayment then All
  else Misc.

Definition bitor (a b : Reasons) : Reasons := if decide (a = b) then a else All.

Record BalanceLock : Type := MkLock { lock_id : Z; lock_amount : Z; lock_reasons : Reasons }.

Record AccountData : Type := MkAccount { free : Z; reserved : Z; misc_frozen : Z; fee_frozen : Z }.

Definition default_account : AccountData := MkAccount 0 0 0 0.

(** The account of the system module. *)
Record AccountInfo : Type := MkInfo { nonce : Z; refcount : Z; data : AccountData }.

Inductive ExistenceRequirement : Type := KeepAlive | AllowDeath.

#[export] Instance ExistenceRequirement_eq_dec : EqDecision ExistenceRequirement.
Proof. solve_decision. Defined.

Inductive BalanceStatus : Type := StatusFree | StatusReserved.

Inductive Error : Type :=
  | VestingBalance | LiquidityRestrictions | Overflow | InsufficientBalance
  | ExistentialDepositError | KeepAliveError | ExistingVestingSchedule | DeadAccount.

Inductive SignedImbalance : Type := Positive (amount : Z) | Negative (amount : Z).

Section balances.
Context {AccountId : Type} `{Countable AccountId}.

(** The events of the runtime, as far as its modules are modelled: those of this
    module, of the system module, of vesting and of the treasury. *)
Inductive Event : Type :=
  | Endowed (who : AccountId) (amount : Z)
  | DustLost (who : AccountId) (amount : Z)
  | Transferred (from to : AccountId) (amount : Z)
  | BalanceSet (who : AccountId) (free reserved : Z)
  | NewAccount (who : AccountId)
  | KilledAccount (who : AccountId)
  | VestingUpdated (who : AccountId) (unvested : Z)
  | VestingCompleted (who : AccountId)
  | TreasuryDeposit (amount : Z)
  | Proposed (index : Z)
  | Spending (amount : Z)
  | Awarded (index amount : Z) (who : AccountId)
  | Rejected (index amount : Z)
  | Burnt (amount : Z)
  | Rollover (amount : Z)
  | NewTip (hash : list Z)
  | TipClosing (hash : list Z)
  | TipClosed (hash : list Z) (who : AccountId) (amount : Z)
  | TipRetracted (hash : list Z)
  | MotionProposed (who : AccountId) (index : Z) (hash : list Z) (threshold : Z)
  | Voted (who : AccountId) (hash : list Z) (approve : bool) (yes no : Z)
  | MotionApproved (hash : list Z)
  | MotionDisapproved (hash : list Z)
  | Executed (hash : list Z) (ok : bool)
  | MemberExecuted (hash : list Z) (ok : bool)
  | MotionClosed (hash : list Z) (yes no : Z)
  | MemberAdded
  | MemberRemoved
  | MembersSwapped
  | MembersReset
  | KeyChanged.

Record State : Type := MkState {
  accounts : gmap AccountId AccountInfo;
  total_issuance : Z;
  locks_map : gmap AccountId (list BalanceLock);
  events : list Event;
}.

Definition set_accounts (f : gmap AccountId AccountInfo → gmap AccountId AccountInfo) (s : State) : State :=
  MkState (f (accounts s)) (total_issuance s) (locks_map s) (events s).
Definition set_issuance (f : Z → Z) (s : State) : State :=
  MkState (accounts s) (f (total_issuance s)) (locks_map s) (events s).
Definition set_locks_map (f : gmap AccountId (list BalanceLock) → gmap AccountId (list BalanceLock)) (s : State) : State :=
  MkState (accounts s) (total_issuance s) (f (locks_map s)) (events s).
Definition set_events (f : list Event → list Event) (s : State) : State :=
  MkState (accounts s) (total_issuance s) (locks_map s) (f (events s)).

(** An operation on the storage.  What was written before an error stays. *)
Definition M (E A : Type) : Type := State → result E A * State.

#[export] Instance M_ret E : MRet (M E) := λ A a s, (Ok a, s).
#[export] Instance M_bind E : MBind (M E) := λ A C f m s,
  match m s with
  | (Ok a, s') => f a s'
  | (Err e, s') => (Err e, s')
  | (Panic, s') => (Panic, s')
  end.

Definition throw {E A} (e : E) : M E A := λ s, (Err e, s).
Definition gets {E A} (f : State → A) : M E A := λ s, (Ok (f s), s).
Definition modify {E} (f : State → State) : M E unit := λ s, (Ok tt, f s).
Definition lift_run {E A} (m : result Empty_set A) : M E A := λ s,
  (match m with Ok a => Ok a | Err e => match e : Empty_set with end | Panic => Panic end, s).
Definition ok_or_throw {E A} (o : option A) (e : E) : M E A := match o with Some a => mret a | None => throw e end.
Definition ensure {E} (b : bool) (e : E) : M E unit := if b then mret tt else throw e.

(** The width of balances and the existential deposit. *)
Context (w ExistentialDeposit : Z).

(** ** The system module *)

(** At most [u32::max_value()] events are kept in a block. *)
Definition deposit_event {E} (e : Event) : M E unit :=
  modify (set_events (λ es, if Z.of_nat (length es) <? 2 ^ 32 - 1 then es ++ [e] else es)).

Definition info (s : State) (who : AccountId) : AccountInfo := default (MkInfo 0 0 default_account) (accounts s !! who).

Definition inc_ref {E} (who : AccountId) : M E unit :=
  modify (λ s, set_accounts <[who := let a := info s who in MkInfo (nonce a) (usaturating_add 8 (refcount a) 1) (data a)]> s).

Definition dec_ref {E} (who : AccountId) : M E unit :=
  modify (λ s, set_accounts <[who := let a := info s who in MkInfo (nonce a) (saturating_sub (refcount a) 1) (data a)]> s).

Definition allow_death (s : State) (who : AccountId) : bool := refcount (info s who) =? 0.

Definition is_explicit (s : State) (who : AccountId) : bool := bool_decide (is_Some (accounts s !! who)).

(** The entry is read before [f] runs and written after it, if [f] succeeds. *)
Definition try_mutate_exists {E R} (k : AccountId) (f : option AccountData → M E (R * option AccountData)) : M E R :=
  maybe_value ← gets (λ s, accounts s !! k);
  '(result, maybe_data) ← f (data <$> maybe_value);
  let prefix := default (0, 0) ((λ a, (nonce a, refcount a)) <$> maybe_value) in
  match maybe_data with
  | Some d => modify (set_accounts <[k := MkInfo prefix.1 prefix.2 d]>)
  | None => modify (set_accounts (delete k))
  end ;;
  match maybe_value, maybe_data with
  | None, Some _ => deposit_event (NewAccount k)
  | Some _, None => deposit_event (KilledAccount k)
  | _, _ => mret tt
  end ;;
  mret result.

Definition account_insert {E} (k : AccountId) (d : AccountData) : M E unit :=
  existed ← gets (λ s, is_explicit s k);
  modify (λ s, set_accounts <[k := let a := info s k in MkInfo (nonce a) (refcount a) d]> s) ;;
  if existed : bool then mret tt else deposit_event (NewAccount k).

(** ** Accounts *)

Definition account (s : State) (who : AccountId) : AccountData := data (info s who).

Definition frozen (a : AccountData) (reasons : Reasons) : Z :=
  match reasons with
  | All => Z.max (misc_frozen a) (fee_frozen a)
  | Misc => misc_frozen a
  | Fee => fee_frozen a
  end.

Definition usable (a : AccountData) (reasons : Reasons) : Z := saturating_sub (free a) (frozen a reasons).

Definition total (a : AccountData) : Z := usaturating_add w (free a) (reserved a).

Definition free_balance (s : State) (who : AccountId) : Z := free (account s who).
Definition usable_balance (s : State) (who : AccountId) : Z := usable (account s who) Misc.
Definition usable_balance_for_fees (s : State) (who : AccountId) : Z := usable (account s who) Fee.
Definition reserved_balance (s : State) (who : AccountId) : Z := reserved (account s who).
Definition total_balance (s : State) (who : AccountId) : Z := total (account s who).

(** Imbalances; those of one sign are all alike.  [offset] is [inl] when something
    of [self] is left and [inr] when something of the opposite is. *)
Definition imbalance_split (value amount : Z) : Z * Z :=
  let first := Z.min value amount in (first, value - first).
Definition imbalance_merge (value other : Z) : Z := usaturating_add w value other.
Definition imbalance_offset (a b : Z) : Z + Z := if b <=? a then inl (a - b) else inr (b - a).

(** Dropping an imbalance squares up the total issuance. *)
Definition drop_positive {E} (amount : Z) : M E unit := modify (set_issuance (λ v, usaturating_add w v amount)).
Definition drop_negative {E} (amount : Z) : M E unit := modify (set_issuance (λ v, saturating_sub v amount)).

Definition post_mutation {E} (who : AccountId) (new : AccountData) : M E (option AccountData) :=
  let t := total new in
  if t <? ExistentialDeposit then
    (if negb (t =? 0) then drop_negative t ;; deposit_event (DustLost who t) else mret tt) ;;
    mret None
  else mret (Some new).

Definition try_mutate_account {E R} (who : AccountId) (f : AccountData → M E (R * AccountData)) : M E R :=
  '(maybe_endowed, result) ← try_mutate_exists who (λ maybe_account,
    let acc := default default_account maybe_account in
    let was_zero := total acc =? 0 in
    '(result, acc') ← f acc;
    let maybe_endowed := if was_zero then Some (free acc') else None in
    maybe_account' ← post_mutation who acc';
    mret ((maybe_endowed, result), maybe_account'));
  match maybe_endowed with
  | Some endowed => deposit_event (Endowed who endowed)
  | None => mret tt
  end ;;
  mret result.

(** [f] does not fail. *)
Definition mutate_account {E R} (who : AccountId) (f : AccountData → R * AccountData) : M E R :=
  try_mutate_account who (λ a, mret (f a)).

(** ** Locks *)

Definition freeze (b : AccountData) (l : BalanceLock) : AccountData :=
  let b := if bool_decide (lock_reasons l = All) || bool_decide (lock_reasons l = Misc) then
             MkAccount (free b) (reserved b) (Z.max (misc_frozen b) (lock_amount l)) (fee_frozen b) else b in
  if bool_decide (lock_reasons l = All) || bool_decide (lock_reasons l = Fee) then
    MkAccount (free b) (reserved b) (misc_frozen b) (Z.max (fee_frozen b) (lock_amount l)) else b.

Definition update_locks {E} (who : AccountId) (ls : list BalanceLock) : M E unit :=
  mutate_account who (λ b, (tt, foldl freeze (MkAccount (free b) (reserved b) 0 0) ls)) ;;
  existed ← gets (λ s, bool_decide (is_Some (locks_map s !! who)));
  match ls with
  | [] =>
      modify (set_locks_map (delete who)) ;;
      if (existed : bool) then dec_ref who else mret tt
  | _ :: _ =>
      modify (set_locks_map <[who := ls]>) ;;
      if negb existed then inc_ref who else mret tt
  end.

Definition locks (s : State) (who : AccountId) : list BalanceLock := default [] (locks_map s !! who).

(** The [filter_map] of [set_lock] and [extend_lock]: the first lock with the
    identifier becomes [merge] of it and the new one, further ones are removed. *)
Fixpoint replace_lock (merge : BalanceLock → BalanceLock → BalanceLock) (new_lock : option BalanceLock) (id : Z) (ls : list BalanceLock) : list BalanceLock * option BalanceLock :=
  match ls with
  | [] => ([], new_lock)
  | l :: ls' =>
      if lock_id l =? id then
        match new_lock with
        | Some nl => let '(r, n) := replace_lock merge None id ls' in (merge l nl :: r, n)
        | None => replace_lock merge None id ls'
        end
      else let '(r, n) := replace_lock merge new_lock id ls' in (l :: r, n)
  end.

Definition put_lock {E} (merge : BalanceLock → BalanceLock → BalanceLock) (id : Z) (who : AccountId) (amount reasons : Z) : M E unit :=
  if (amount =? 0) || (reasons =? 0) then mret tt
  else
    ls ← gets (λ s, locks s who);
    let '(ls', new_lock) := replace_lock merge (Some (MkLock id amount (reasons_from reasons))) id ls in
    update_locks who (ls' ++ option_list new_lock).

Definition set_lock {E} (id : Z) (who : AccountId) (amount reasons : Z) : M E unit :=
  put_lock (λ _ nl, nl) id who amount reasons.

Definition extend_lock {E} (id : Z) (who : AccountId) (amount reasons : Z) : M E unit :=
  put_lock (λ l nl, MkLock (lock_id l) (Z.max (lock_amount l) (lock_amount nl)) (bitor (lock_reasons l) (lock_reasons nl))) id who amount reasons.

Definition remove_lock {E} (id : Z) (who : AccountId) : M E unit :=
  ls ← gets (λ s, locks s who);
  update_locks who (base.filter (λ l, lock_id l ≠ id) ls).

(** ** Currency *)

Definition can_slash (s : State) (who : AccountId) (value : Z) : bool :=
  if value =? 0 then true else value <=? free_balance s who.

Definition burn {E} (amount : Z) : M E Z :=
  if amount =? 0 then mret 0
  else
    issued ← gets total_issuance;
    match checked_sub issued amount with
    | Some v => modify (set_issuance (λ _, v)) ;; mret amount
    | None => modify (set_issuance (λ _, 0)) ;; mret issued
    end.

Definition issue {E} (amount : Z) : M E Z :=
  if amount =? 0 then mret 0
  else
    issued ← gets total_issuance;
    match checked_add w issued amount with
    | Some v => modify (set_issuance (λ _, v)) ;; mret amount
    | None => modify (set_issuance (λ _, max_value w)) ;; mret (max_value w - issued)
    end.

Definition ensure_can_withdraw (who : AccountId) (amount reasons new_balance : Z) : M Error unit :=
  if amount =? 0 then mret tt
  else
    min_balance ← gets (λ s, frozen (account s who) (reasons_from reasons));
    ensure (min_balance <=? new_balance) LiquidityRestrictions.

Definition with_free (a : AccountData) (v : Z) : AccountData := MkAccount v (reserved a) (misc_frozen a) (fee_frozen a).
Definition with_reserved (a : AccountData) (v : Z) : AccountData := MkAccount (free a) v (misc_frozen a) (fee_frozen a).

(** The mutation of the account that pays; the other account is returned. *)
Definition transfer_from (transactor : AccountId) (value : Z) (existence_requirement : ExistenceRequirement) (to_account from_account : AccountData) : M Error (AccountData * AccountData) :=
  from_free ← ok_or_throw (checked_sub (free from_account) value) InsufficientBalance;
  to_free ← ok_or_throw (checked_add w (free to_account) value) Overflow;
  let to_account := with_free to_account to_free in
  ensure (ExistentialDeposit <=? total to_account) ExistentialDepositError ;;
  ensure_can_withdraw transactor value Transfer from_free ;;
  no_refs ← gets (λ s, allow_death s transactor);
  let allow_death := bool_decide (existence_requirement = AllowDeath) && no_refs in
  ensure (allow_death || (ExistentialDeposit <=? from_free)) KeepAliveError ;;
  mret (to_account, with_free from_account from_free).

Definition currency_transfer (transactor dest : AccountId) (value : Z) (existence_requirement : ExistenceRequirement) : M Error unit :=
  if (value =? 0) || bool_decide (transactor = dest) then mret tt
  else
    try_mutate_account dest (λ to_account,
      to_account' ← try_mutate_account transactor (transfer_from transactor value existence_requirement to_account);
      mret (tt, to_account')) ;;
    deposit_event (Transferred transactor dest value).

(** The negative imbalance and what could not be slashed. *)
Definition slash {E} (who : AccountId) (value : Z) : M E (Z * Z) :=
  if value =? 0 then mret (0, 0)
  else
    mutate_account who (λ acc,
      let free_slash := Z.min (free acc) value in
      let acc := with_free acc (free acc - free_slash) in
      let remaining_slash := value - free_slash in
      if negb (remaining_slash =? 0) then
        let reserved_slash := Z.min (reserved acc) remaining_slash in
        ((free_slash + reserved_slash, remaining_slash - reserved_slash), with_reserved acc (reserved acc - reserved_slash))
      else ((value, 0), acc)).

(** The positive imbalance. *)
Definition deposit_into_existing (who : AccountId) (value : Z) : M Error Z :=
  if value =? 0 then mret 0
  else
    try_mutate_account who (λ acc,
      ensure (negb (total acc =? 0)) DeadAccount ;;
      v ← ok_or_throw (checked_add w (free acc) value) Overflow;
      mret (value, with_free acc v)).

(** [unwrap_or_else(|x| x)]: the error of the closure is a zero imbalance. *)
Definition or_value {E A} (m : M A A) : M E A := λ s,
  match m s with
  | (Ok a, s') => (Ok a, s')
  | (Err a, s') => (Ok a, s')
  | (Panic, s') => (Panic, s')
  end.

Definition deposit_creating {E} (who : AccountId) (value : Z) : M E Z :=
  if value =? 0 then mret 0
  else
    or_value (try_mutate_account who (λ acc,
      ensure ((ExistentialDeposit <=? value) || negb (total acc =? 0)) 0 ;;
      v ← ok_or_throw (checked_add w (free acc) value) 0;
      mret (value, with_free acc v))).

(** The negative imbalance. *)
Definition withdraw (who : AccountId) (value reasons : Z) (liveness : ExistenceRequirement) : M Error Z :=
  if value =? 0 then mret 0
  else
    try_mutate_account who (λ acc,
      new_free_account ← ok_or_throw (checked_sub (free acc) value) InsufficientBalance;
      after ← lift_run (uadd w new_free_account (reserved acc));
      let would_be_dead := after <? ExistentialDeposit in
      would_kill ← (if would_be_dead then before ← lift_run (uadd w (free acc) (reserved acc)); mret (ExistentialDeposit <=? before) else mret false);
      ensure (bool_decide (liveness = AllowDeath) || negb would_kill) KeepAliveError ;;
      ensure_can_withdraw who value reasons new_free_account ;;
      mret (value, with_free acc new_free_account)).

Definition make_free_balance_be {E} (who : AccountId) (value : Z) : M E SignedImbalance :=
  or_value (try_mutate_account who (λ acc,
    t ← lift_run (uadd w value (reserved acc));
    ensure ((ExistentialDeposit <=? t) || negb (total acc =? 0)) (Positive 0) ;;
    let imbalance := if free acc <=? value then Positive (value - free acc) else Negative (free acc - value) in
    mret (imbalance, with_free acc value))).

(** The provided methods of [Currency] that take an imbalance. *)

(** The [drop] of a negative imbalance offset with a positive one, and the other
    way around. *)
Definition drop_offset_negative {E} (a b : Z) : M E unit :=
  match imbalance_offset a b with inl v => drop_negative v | inr v => drop_positive v end.
Definition drop_offset_positive {E} (a b : Z) : M E unit :=
  match imbalance_offset a b with inl v => drop_positive v | inr v => drop_negative v end.

(** [Err] gives the imbalance back. *)
Definition resolve_into_existing {E} (who : AccountId) (v : Z) : M E (option Z) := λ s,
  match deposit_into_existing who v s with
  | (Ok opposite, s') => (drop_offset_negative v opposite ;; mret None) s'
  | (Err _, s') => (Ok (Some v), s')
  | (Panic, s') => (Panic, s')
  end.

Definition resolve_creating {E} (who : AccountId) (v : Z) : M E unit :=
  opposite ← deposit_creating who v;
  drop_offset_negative v opposite.

Definition settle {E} (who : AccountId) (v reasons : Z) (liveness : ExistenceRequirement) : M E (option Z) := λ s,
  match withdraw who v reasons liveness s with
  | (Ok opposite, s') => (drop_offset_positive v opposite ;; mret None) s'
  | (Err _, s') => (Ok (Some v), s')
  | (Panic, s') => (Panic, s')
  end.

(** ** Reservable currency *)

Definition can_reserve (s : State) (who : AccountId) (value : Z) : bool :=
  if value =? 0 then true
  else
    match checked_sub (free (account s who)) value with
    | None => false
    | Some new_balance => match (ensure_can_withdraw who value Reserve new_balance s).1 with Ok _ => true | _ => false end
    end.

Definition reserve (who : AccountId) (value : Z) : M Error unit :=
  if value =? 0 then mret tt
  else
    try_mutate_account who (λ acc,
      f ← ok_or_throw (checked_sub (free acc) value) InsufficientBalance;
      r ← ok_or_throw (checked_add w (reserved acc) value) Overflow;
      ensure_can_withdraw who value Reserve f ;;
      mret (tt, with_reserved (with_free acc f) r)).

Definition unreserve {E} (who : AccountId) (value : Z) : M E Z :=
  if value =? 0 then mret 0
  else
    mutate_account who (λ acc,
      let actual := Z.min (reserved acc) value in
      (value - actual, with_free (with_reserved acc (reserved acc - actual)) (usaturating_add w (free acc) actual))).

Definition slash_reserved {E} (who : AccountId) (value : Z) : M E (Z * Z) :=
  if value =? 0 then mret (0, 0)
  else
    mutate_account who (λ acc,
      let actual := Z.min (reserved acc) value in
      ((actual, value - actual), with_reserved acc (reserved acc - actual))).

Definition repatriate_from (value : Z) (status : BalanceStatus) (to_account from_account : AccountData) : M Error ((Z * AccountData) * AccountData) :=
  let actual := Z.min (reserved from_account) value in
  to_account' ← match status with
    | StatusFree => v ← ok_or_throw (checked_add w (free to_account) actual) Overflow; mret (with_free to_account v)
    | StatusReserved => v ← ok_or_throw (checked_add w (reserved to_account) actual) Overflow; mret (with_reserved to_account v)
    end;
  mret ((value - actual, to_account'), with_reserved from_account (reserved from_account - actual)).

Definition repatriate_reserved (slashed beneficiary : AccountId) (value : Z) (status : BalanceStatus) : M Error Z :=
  if value =? 0 then mret 0
  else if decide (slashed = beneficiary) then
    match status with
    | StatusFree => unreserve slashed value
    | StatusReserved => r ← gets (λ s, reserved_balance s slashed); mret (saturating_sub value r)
    end
  else
    try_mutate_account beneficiary (λ to_account,
      ensure (negb (total to_account =? 0)) DeadAccount ;;
      try_mutate_account slashed (repatriate_from value status to_account)).

Definition is_dead_account (s : State) (who : AccountId) : bool := negb (is_explicit s who).

(** ** Calls *)

(** The origin of a call, with the account of a signed one. *)
Inductive Origin : Type := Root | Signed (who : AccountId) | NoOrigin.
Inductive CallError : Type := BadOrigin | ModuleError (e : Error).

Definition of_module {A} (m : M Error A) : M CallError A := λ s,
  match m s with
  | (Ok a, s') => (Ok a, s')
  | (Err e, s') => (Err (ModuleError e), s')
  | (Panic, s') => (Panic, s')
  end.

Definition ensure_signed (o : Origin) : M CallError AccountId := match o with Signed who => mret who | _ => throw BadOrigin end.
Definition ensure_root (o : Origin) : M CallError unit := match o with Root => mret tt | _ => throw BadOrigin end.

(** The account of [dest] has been looked up. *)
Definition transfer (origin : Origin) (dest : AccountId) (value : Z) : M CallError unit :=
  transactor ← ensure_signed origin;
  of_module (currency_transfer transactor dest value AllowDeath).

Definition transfer_keep_alive (origin : Origin) (dest : AccountId) (value : Z) : M CallError unit :=
  transactor ← ensure_signed origin;
  of_module (currency_transfer transactor dest value KeepAlive).

Definition force_transfer (origin : Origin) (source dest : AccountId) (value : Z) : M CallError unit :=
  ensure_root origin ;;
  of_module (currency_transfer source dest value AllowDeath).

(** The imbalance of a field that changes from [old] to [new] is dropped. *)
Definition square_up {E} (new old : Z) : M E unit :=
  if old <? new then drop_positive (new - old)
  else if new <? old then drop_negative (old - new)
  else mret tt.

Definition set_balance (origin : Origin) (who : AccountId) (new_free new_reserved : Z) : M CallError unit :=
  ensure_root origin ;;
  t ← lift_run (uadd w new_free new_reserved);
  let wipeout := t <? ExistentialDeposit in
  let new_free := if wipeout then 0 else new_free in
  let new_reserved := if wipeout then 0 else new_reserved in
  '(f, r) ← try_mutate_account who (λ acc,
    square_up new_free (free acc) ;;
    square_up new_reserved (reserved acc) ;;
    mret ((new_free, new_reserved), with_reserved (with_free acc new_free) new_reserved));
  deposit_event (BalanceSet who f r).

(** The genesis balances; the total issuance is their sum. *)
Definition genesis (balances : list (AccountId * Z)) : result Empty_set State :=
  if (0 <? ExistentialDeposit) && forallb (λ b, ExistentialDeposit <=? b.2) balances then
    issuance ← foldl_m (λ acc b, uadd w acc b.2) 0 balances;
    Ok (foldl (λ s b, (account_insert (E := Empty_set) b.1 (MkAccount b.2 0 0 0) s).2) (MkState ∅ issuance ∅ []) balances)
  else Panic.

End balances.
