(* ===== verification/BalancesFacts.v ===== *)
(** * The total issuance is the sum of all balances *)
From S2P Require Import Prelude PerThings Balances.

Local Open Scope Z_scope.

(** Runs the steps of an operation that are known. *)
Ltac mrun := unfold ensure, ok_or_throw, lift_run, gets, modify, throw, mbind, M_bind, mret, M_ret; cbv beta iota; cbn [fst snd].

Section balances.
Context {AccountId : Type} `{Countable AccountId}.
Implicit Types (who : AccountId) (s : State (AccountId := AccountId)) (m : gmap AccountId AccountInfo).

(** ** The sum of all balances *)

Definition funds (a : AccountInfo) : Z := free (data a) + reserved (data a).
Definition ofunds (o : option AccountInfo) : Z := default 0 (funds <$> o).

Definition supply (m : gmap AccountId AccountInfo) : Z := map_fold (λ _ a acc, funds a + acc) 0 m.

(** The funds of everyone but [who]. *)
Definition others who m : Z := supply (delete who m).

(** Writes or removes an entry. *)
Definition put who (o : option AccountInfo) m : gmap AccountId AccountInfo := partial_alter (λ _, o) who m.

Lemma supply_fresh who a m : m !! who = None → supply (<[who := a]> m) = funds a + supply m.
Proof. intros Hn. unfold supply. rewrite map_fold_insert_L; [done| |done]. intros. lia. Qed.

Lemma supply_split who m : supply m = ofunds (m !! who) + others who m.
Proof.
  unfold others, ofunds. destruct (m !! who) as [a|] eqn:E; cbn [fmap option_fmap option_map default from_option id].
  - rewrite <- (insert_delete_id m who a E) at 1. rewrite supply_fresh; [done|apply lookup_delete_eq].
  - by rewrite delete_id.
Qed.

Lemma put_lookup who o m : put who o m !! who = o.
Proof. apply lookup_partial_alter_eq. Qed.

Lemma put_lookup_ne who who' o m : who ≠ who' → put who o m !! who' = m !! who'.
Proof. apply lookup_partial_alter_ne. Qed.

Lemma others_put who o m : others who (put who o m) = others who m.
Proof. unfold others, put. f_equal. apply map_eq. intros i. destruct (decide (i = who)) as [->|]; [by rewrite !lookup_delete_eq|]. rewrite !lookup_delete_ne by done. by rewrite lookup_partial_alter_ne. Qed.

Lemma supply_put who o m : supply (put who o m) = ofunds o + others who m.
Proof. by rewrite (supply_split who), put_lookup, others_put. Qed.

Lemma others_split who who' m : who ≠ who' → others who m = ofunds (m !! who') + others who' (delete who m).
Proof. intros Hne. unfold others at 1. rewrite (supply_split who'). by rewrite lookup_delete_ne. Qed.

Lemma others_put_ne who who' o m : who ≠ who' → others who (put who' o m) = ofunds o + others who' (delete who m).
Proof.
  intros Hne. rewrite (others_split who who') by done. rewrite put_lookup. f_equal. unfold others. f_equal. apply map_eq. intros i.
  destruct (decide (i = who')) as [->|]; [by rewrite !lookup_delete_eq|]. rewrite !lookup_delete_ne with (i := who') by done.
  destruct (decide (i = who)) as [->|]; [by rewrite !lookup_delete_eq|]. rewrite !lookup_delete_ne by done. by apply put_lookup_ne.
Qed.

(** ** Well-formed states *)

Context (w ED : Z) (Hw : 32 ≤ w) (HED : 0 < ED).

(** An account with funds has at least the existential deposit. *)
Definition data_ok (d : AccountData) : Prop :=
  (0 ≤ free d ∧ 0 ≤ reserved d) ∧ (0 ≤ misc_frozen d ∧ 0 ≤ fee_frozen d) ∧ (free d + reserved d = 0 ∨ ED ≤ free d + reserved d).

Definition accounts_ok m : Prop := map_Forall (λ _ a, data_ok (data a)) m.

(** Every sum of balances fits. *)
Record ok s : Prop := {
  ok_accounts : accounts_ok (accounts s);
  ok_supply : supply (accounts s) < 2 ^ w;
  ok_issuance : 0 ≤ total_issuance s < 2 ^ w;
}.

(** What the books are off by: the imbalances that are not dropped yet. *)
Definition gap s : Z := supply (accounts s) - total_issuance s.

(** The invariant between operations. *)
Definition balanced s : Prop := ok s ∧ gap s = 0.

Lemma data_ok_default : data_ok default_account.
Proof. unfold data_ok. cbn. lia. Qed.

Lemma accounts_ok_lookup m who : accounts_ok m → data_ok (data (default (MkInfo 0 0 default_account) (m !! who))).
Proof. intros Hm. destruct (m !! who) as [a|] eqn:E; [exact (Hm _ _ E)|apply data_ok_default]. Qed.

Lemma accounts_ok_put m who o : accounts_ok m → (∀ a, o = Some a → data_ok (data a)) → accounts_ok (put who o m).
Proof.
  intros Hm Ho i a. destruct (decide (i = who)) as [->|]; [rewrite put_lookup; apply Ho|]. rewrite put_lookup_ne by done. apply Hm.
Qed.

Lemma accounts_ok_delete m who : accounts_ok m → accounts_ok (delete who m).
Proof. intros Hm i a Hi. apply (Hm i). by apply lookup_delete_Some in Hi as [_ ?]. Qed.

Lemma supply_nonneg m : accounts_ok m → 0 ≤ supply m.
Proof.
  unfold supply. apply (map_fold_weak_ind (λ x m, accounts_ok m → 0 ≤ x)); [lia|]. intros i a m' r Hi IH Hm.
  apply map_Forall_insert in Hm as [[[Hf Hr] _] Hm]; [|done]. specialize (IH Hm). unfold funds. lia.
Qed.

Lemma others_nonneg m who : accounts_ok m → 0 ≤ others who m.
Proof. intros. by apply supply_nonneg, accounts_ok_delete. Qed.

Lemma ofunds_info s who : ofunds (accounts s !! who) = free (account s who) + reserved (account s who).
Proof. unfold ofunds, account, info. by destruct (accounts s !! who). Qed.

Lemma supply_account s who : supply (accounts s) = free (account s who) + reserved (account s who) + others who (accounts s).
Proof. by rewrite (supply_split who), ofunds_info. Qed.

Lemma account_ok s who : ok s → data_ok (account s who).
Proof. intros [Hm _ _]. by apply accounts_ok_lookup. Qed.

Lemma account_bound s who : ok s → free (account s who) + reserved (account s who) < 2 ^ w.
Proof. intros Hs. pose proof (supply_account s who). pose proof (others_nonneg _ who (ok_accounts s Hs)). pose proof (ok_supply s Hs). lia. Qed.

Lemma total_eq d : free d + reserved d < 2 ^ w → total w d = free d + reserved d.
Proof. intros Hd. unfold total, usaturating_add, max_value. lia. Qed.

(** ** Mutation of an account *)

(** The entry that is written for the new data, and the dust that is lost. *)
Definition stored (i : AccountInfo) (d : AccountData) : option AccountInfo :=
  if total w d <? ED then None else Some (MkInfo (nonce i) (refcount i) d).
Definition dust (d : AccountData) : Z := if total w d <? ED then total w d else 0.

Record commit who (i : AccountInfo) (d : AccountData) s s' : Prop := {
  commit_accounts : accounts s' = put who (stored i d) (accounts s);
  commit_issuance : total_issuance s' = saturating_sub (total_issuance s) (dust d);
  commit_locks : locks_map s' = locks_map s;
}.

Lemma bind_Ok {E A C} (f : A → M (AccountId := AccountId) E C) (x : M E A) s a s' : x s = (Ok a, s') → (x ≫= f) s = f a s'.
Proof using. intros E'. unfold mbind, M_bind. by rewrite E'. Qed.

Lemma bind_Err {E A C} (f : A → M (AccountId := AccountId) E C) (x : M E A) s e s' : x s = (Err e, s') → (x ≫= f) s = (Err e, s').
Proof using. intros E'. unfold mbind, M_bind. by rewrite E'. Qed.

(** Events do not matter for the books. *)
Lemma deposit_event_Ok {E} (e : Event) s :
  ∃ s', deposit_event (E := E) e s = (Ok tt, s') ∧ accounts s' = accounts s ∧ total_issuance s' = total_issuance s ∧ locks_map s' = locks_map s.
Proof using. by eexists. Qed.

Lemma try_mutate_exists_Ok {E R} who (f : option AccountData → M E (R * option AccountData)) s r o s1 :
  f (data <$> accounts s !! who) s = (Ok (r, o), s1) →
  ∃ s2, try_mutate_exists who f s = (Ok r, s2) ∧
    accounts s2 = put who ((λ d, MkInfo (nonce (info s who)) (refcount (info s who)) d) <$> o) (accounts s1) ∧
    total_issuance s2 = total_issuance s1 ∧ locks_map s2 = locks_map s1.
Proof using.
  intros Hf. unfold try_mutate_exists, gets. rewrite (bind_Ok _ _ _ (accounts s !! who) s) by done. rewrite (bind_Ok _ _ _ _ _ Hf).
  unfold info. destruct (accounts s !! who) as [a|], o as [d|]; by eexists.
Qed.

Lemma post_mutation_Ok {E} who d s :
  0 ≤ total_issuance s →
  ∃ s', post_mutation (E := E) w ED who d s = (Ok (if total w d <? ED then None else Some d), s') ∧
    accounts s' = accounts s ∧ total_issuance s' = saturating_sub (total_issuance s) (dust d) ∧ locks_map s' = locks_map s.
Proof using.
  intros Hi. unfold post_mutation, dust. destruct (total w d <? ED).
  - destruct (Z.eqb_spec (total w d) 0) as [->|]; cbn [negb].
    + exists s. split_and!; try done. unfold saturating_sub. lia.
    + by eexists.
  - exists s. split_and!; try done. unfold saturating_sub. lia.
Qed.

Lemma default_data s who : default default_account (data <$> accounts s !! who) = account s who.
Proof using. unfold account, info. by destruct (accounts s !! who). Qed.

Lemma try_mutate_account_Ok {E R} who (f : AccountData → M E (R * AccountData)) s r d s1 :
  f (account s who) s = (Ok (r, d), s1) → 0 ≤ total_issuance s1 →
  ∃ s2, try_mutate_account w ED who f s = (Ok r, s2) ∧ commit who (info s who) d s1 s2.
Proof using.
  intros Hf Hi. unfold try_mutate_account. destruct (post_mutation_Ok (E := E) who d s1 Hi) as (s1'&Hpost&Ha&Hi'&Hl).
  set (endowed := if total w (account s who) =? 0 then Some (free d) else None).
  match goal with |- context [try_mutate_exists who ?g] =>
    assert (g (data <$> accounts s !! who) s = (Ok ((endowed, r), if total w d <? ED then None else Some d), s1')) as Hg;
    [|destruct (try_mutate_exists_Ok who g s _ _ _ Hg) as (s2&Hrun&Ha2&Hi2&Hl2); rewrite (bind_Ok _ _ _ _ _ Hrun)] end.
  { cbv beta zeta. by rewrite default_data, (bind_Ok _ _ _ _ _ Hf), (bind_Ok _ _ _ _ _ Hpost). }
  assert (commit who (info s who) d s1 s2) as Hc.
  { constructor; [|congruence|congruence]. rewrite Ha2, Ha. unfold stored. by destruct (total w d <? ED). }
  destruct endowed; [|by exists s2]. eexists. split; [done|]. destruct Hc. by constructor.
Qed.

Lemma try_mutate_account_Err {E R} who (f : AccountData → M E (R * AccountData)) s e s1 :
  f (account s who) s = (Err e, s1) → try_mutate_account w ED who f s = (Err e, s1).
Proof using.
  intros Hf. unfold try_mutate_account. apply bind_Err. unfold try_mutate_exists, gets. rewrite (bind_Ok _ _ _ (accounts s !! who) s) by done.
  apply bind_Err. by rewrite default_data, (bind_Err _ _ _ _ _ Hf).
Qed.

(** ** The books after a mutation *)

Definition nonneg (d : AccountData) : Prop := (0 ≤ free d ∧ 0 ≤ reserved d) ∧ (0 ≤ misc_frozen d ∧ 0 ≤ fee_frozen d).
Definition fr (d : AccountData) : Z := free d + reserved d.

Lemma stored_ok i d : nonneg d → fr d < 2 ^ w → ∀ a, stored i d = Some a → data_ok (data a).
Proof using All.
  intros [Hn1 Hn2] Hd a. unfold stored. rewrite total_eq by done. destruct (Z.ltb_spec (free d + reserved d) ED); [done|]. injection 1 as <-.
  unfold data_ok. cbn [data]. split_and!; try lia.
Qed.

Lemma stored_dust i d : fr d < 2 ^ w → ofunds (stored i d) = fr d - dust d.
Proof using All.
  intros Hd. unfold stored, dust. rewrite total_eq by done. unfold ofunds, fr in *. destruct (Z.ltb_spec (free d + reserved d) ED); cbn; unfold funds; cbn; lia.
Qed.

Lemma dust_bound d : fr d < 2 ^ w → (dust d = 0 ∧ ED ≤ fr d) ∨ (dust d = fr d ∧ fr d < ED).
Proof using All. intros Hd. unfold dust. rewrite total_eq by done. unfold fr in *. destruct (Z.ltb_spec (free d + reserved d) ED); lia. Qed.

Lemma commit_gap who i d s s' :
  ok s → commit who i d s s' → nonneg d → fr d + others who (accounts s) < 2 ^ w → fr d ≤ total_issuance s ∨ ED ≤ fr d →
  ok s' ∧ gap s' = gap s + (fr d - fr (account s who)).
Proof using All.
  intros Hs [Ha Hi _] Hn Hfit Hdust. pose proof (others_nonneg _ who (ok_accounts s Hs)) as Ho. assert (fr d < 2 ^ w) as Hd by lia.
  pose proof (ok_issuance s Hs). pose proof (dust_bound d Hd) as Hdb. pose proof Hn as [[Hf Hr] _].
  assert (total_issuance s' = total_issuance s - dust d) as Hi' by (rewrite Hi; unfold saturating_sub, fr in *; lia).
  assert (supply (accounts s') = fr d - dust d + others who (accounts s)) as Hsup by (by rewrite Ha, supply_put, stored_dust).
  split; [constructor|].
  - rewrite Ha. apply accounts_ok_put; [apply Hs|by apply stored_ok].
  - unfold fr in *. lia.
  - unfold fr in *. lia.
  - unfold gap. rewrite Hsup, Hi', (supply_account s who). unfold fr. lia.
Qed.

(** An operation either fails without a trace or changes the books by [delta]. *)
Definition post {E A} (delta : A → Z) s (x : result E A * State) : Prop :=
  match x.1 with
  | Ok a => ok x.2 ∧ gap x.2 = gap s + delta a
  | Err _ => x.2 = s
  | Panic => False
  end.

Lemma post_mret {E A} (delta : A → Z) s a : ok s → delta a = 0 → post (E := E) delta s ((mret a : M E A) s).
Proof using All. intros Hs Hd. cbn. split; [done|]. lia. Qed.

Lemma ensure_can_withdraw_eq who amount reasons new_balance s :
  ensure_can_withdraw who amount reasons new_balance s =
    (if (amount =? 0) || (frozen (account s who) (reasons_from reasons) <=? new_balance) then Ok tt else Err LiquidityRestrictions, s).
Proof using. unfold ensure_can_withdraw. destruct (amount =? 0); [done|]. mrun. by destruct (_ <=? new_balance). Qed.

(** A computation that only reads the state. *)
Definition checks {E A} (P : A → Prop) s (x : M E A) : Prop :=
  match x s with
  | (Ok a, s') => s' = s ∧ P a
  | (Err _, s') => s' = s
  | (Panic, _) => False
  end.

Lemma checks_ret {E A} (P : A → Prop) s a : P a → checks (E := E) P s (mret a).
Proof using. done. Qed.

Lemma checks_bind {E A C} (Q : A → Prop) (P : C → Prop) s (x : M E A) (f : A → M E C) :
  checks Q s x → (∀ a, Q a → checks P s (f a)) → checks P s (x ≫= f).
Proof using. unfold checks, mbind, M_bind. destruct (x s) as [[a|e|] s']; [|done..]. intros [-> HQ] Hf. by apply Hf. Qed.

Lemma checks_ok_or {E A C} (P : C → Prop) s (o : option A) (e : E) f :
  (∀ a, o = Some a → checks P s (f a)) → checks P s (ok_or_throw o e ≫= f).
Proof using. intros Hf. apply checks_bind with (λ a, o = Some a); [|done]. by destruct o. Qed.

Lemma checks_ensure {E C} (P : C → Prop) s b (e : E) (k : M E C) : (b = true → checks P s k) → checks P s (ensure b e ;; k).
Proof using. intros Hk. apply checks_bind with (λ _, b = true); [by destruct b|auto]. Qed.

Lemma checks_lift {E A C} (P : C → Prop) s x (a : A) (f : A → M E C) : x = Ok a → checks P s (f a) → checks P s (lift_run x ≫= f).
Proof using. by intros ->. Qed.

Lemma checks_gets {E A C} (P : C → Prop) s (g : State → A) (f : A → M E C) : checks P s (f (g s)) → checks P s (gets g ≫= f).
Proof using. done. Qed.

Lemma checks_can_withdraw {C} (P : C → Prop) s who amount reasons new_balance (k : M Error C) :
  ((amount ≠ 0 → frozen (account s who) (reasons_from reasons) ≤ new_balance) → checks P s k) →
  checks P s (ensure_can_withdraw who amount reasons new_balance ;; k).
Proof using.
  intros Hk. apply checks_bind with (λ _, amount ≠ 0 → frozen (account s who) (reasons_from reasons) ≤ new_balance); [|auto].
  unfold ensure_can_withdraw. destruct (Z.eqb_spec amount 0) as [->|]; [done|]. apply checks_gets. unfold ensure.
  destruct (Z.leb_spec (frozen (account s who) (reasons_from reasons)) new_balance); done.
Qed.

Lemma mutate_ok {E R} who (f : AccountData → M E (R * AccountData)) s r d :
  ok s → f (account s who) s = (Ok (r, d), s) →
  nonneg d → fr d + others who (accounts s) < 2 ^ w → fr d ≤ total_issuance s ∨ ED ≤ fr d →
  ∃ s2, try_mutate_account w ED who f s = (Ok r, s2) ∧ commit who (info s who) d s s2 ∧ ok s2 ∧ gap s2 = gap s + (fr d - fr (account s who)).
Proof using All.
  intros Hs Hf Hn Hfit Hdust. destruct (try_mutate_account_Ok who f s r d s Hf) as (s2&->&Hc); [apply Hs|].
  exists s2. split_and!; [done|done|by eapply commit_gap..].
Qed.

Lemma mutate_post {E R} who (f : AccountData → M E (R * AccountData)) (delta : R → Z) s :
  ok s →
  checks (λ x, nonneg x.2 ∧ fr x.2 + others who (accounts s) < 2 ^ w ∧ (fr x.2 ≤ total_issuance s ∨ ED ≤ fr x.2) ∧ delta x.1 = fr x.2 - fr (account s who))
    s (f (account s who)) →
  post delta s (try_mutate_account w ED who f s).
Proof using All.
  intros Hs. unfold checks. destruct (f (account s who) s) as [[[r d]|e|] s1] eqn:Hf; [|intros ->|done]; cbn [fst snd].
  - intros (->&Hn&Hfit&Hdust&Hdelta). destruct (mutate_ok who f s r d Hs Hf Hn Hfit Hdust) as (s2&->&_&Hok&Hgap).
    unfold post. cbn [fst snd]. split; [done|lia].
  - unfold post. by rewrite (try_mutate_account_Err who f s e s Hf).
Qed.

(** What is known of the account [who]. *)
Lemma account_facts s who :
  ok s → (0 ≤ free (account s who) ∧ 0 ≤ reserved (account s who)) ∧ (0 ≤ misc_frozen (account s who) ∧ 0 ≤ fee_frozen (account s who)) ∧
    (fr (account s who) = 0 ∨ ED ≤ fr (account s who)) ∧ 0 ≤ others who (accounts s) ∧
    supply (accounts s) = fr (account s who) + others who (accounts s) ∧ supply (accounts s) < 2 ^ w ∧ 0 ≤ total_issuance s < 2 ^ w.
Proof using All.
  intros Hs. pose proof (account_ok s who Hs) as (H1&H2&H3). pose proof (others_nonneg _ who (ok_accounts s Hs)).
  pose proof (supply_account s who). destruct Hs. unfold fr. split_and!; lia.
Qed.

(** ** Currency *)

Lemma withdraw_post who value reasons liveness s :
  ok s → 0 ≤ value → supply (accounts s) - value ≤ total_issuance s → post (λ v, - v) s (withdraw w ED who value reasons liveness s).
Proof using All.
  intros Hs Hv Hiss. unfold withdraw. destruct (Z.eqb_spec value 0) as [->|Hv0]; [by apply post_mret|].
  apply mutate_post; [done|]. pose proof (account_facts s who Hs) as F. unfold fr in *.
  apply checks_ok_or. intros f Hf. unfold checked_sub in Hf. destruct (Z.leb_spec value (free (account s who))); simplify_eq.
  eapply checks_lift; [apply uadd_Ok; lia|]. eapply (checks_bind (λ _, True)).
  { destruct (_ <? ED); [|done]. eapply checks_lift; [apply uadd_Ok; lia|]. done. }
  intros k _. apply checks_ensure. intros _. apply checks_can_withdraw. intros _. apply checks_ret. unfold nonneg. cbn. split_and!; try lia.
Qed.

Lemma mutate_account_post {E R} who (f : AccountData → R * AccountData) (delta : R → Z) s :
  ok s →
  (let x := f (account s who) in
   nonneg x.2 ∧ fr x.2 + others who (accounts s) < 2 ^ w ∧ (fr x.2 ≤ total_issuance s ∨ ED ≤ fr x.2) ∧ delta x.1 = fr x.2 - fr (account s who)) →
  post (E := E) delta s (mutate_account w ED who f s).
Proof using All. intros Hs Hx. apply mutate_post; [done|]. by apply checks_ret. Qed.

Lemma slash_post {E} who value s :
  ok s → 0 ≤ value → supply (accounts s) - value ≤ total_issuance s → post (E := E) (λ r, - r.1) s (slash w ED who value s).
Proof using All.
  intros Hs Hv Hiss. unfold slash. destruct (Z.eqb_spec value 0) as [->|Hv0]; [by apply post_mret|].
  pose proof (account_facts s who Hs) as F. unfold fr in F. apply mutate_account_post; [done|]. cbv zeta. unfold nonneg, fr.
  destruct (Z.eqb_spec (value - Z.min (free (account s who)) value) 0); cbn; split_and!; lia.
Qed.

Lemma slash_reserved_post {E} who value s :
  ok s → 0 ≤ value → gap s ≤ 0 → post (E := E) (λ r, - r.1) s (slash_reserved w ED who value s).
Proof using All.
  intros Hs Hv Hgap. unfold gap in Hgap. unfold slash_reserved. destruct (Z.eqb_spec value 0) as [->|Hv0]; [by apply post_mret|].
  pose proof (account_facts s who Hs) as F. unfold fr in F. apply mutate_account_post; [done|]. cbv zeta. unfold nonneg, fr. cbn. split_and!; lia.
Qed.

Lemma unreserve_post {E} who value s : ok s → 0 ≤ value → gap s ≤ 0 → post (E := E) (λ _, 0) s (unreserve w ED who value s).
Proof using All.
  intros Hs Hv Hgap. unfold gap in Hgap. unfold unreserve. destruct (Z.eqb_spec value 0) as [->|Hv0]; [by apply post_mret|].
  pose proof (account_facts s who Hs) as F. unfold fr in F. apply mutate_account_post; [done|]. cbv zeta. unfold nonneg, fr, usaturating_add, max_value. cbn.
  split_and!; lia.
Qed.

Lemma checked_add_inv a b c : checked_add w a b = Some c → c = a + b ∧ a + b < 2 ^ w.
Proof using. unfold checked_add. destruct (Z.ltb_spec (a + b) (2 ^ w)); [|done]. intros [= <-]. done. Qed.

Lemma checked_sub_inv a b c : checked_sub a b = Some c → c = a - b ∧ b ≤ a.
Proof using. unfold checked_sub. destruct (Z.leb_spec b a); [|done]. intros [= <-]. done. Qed.

Lemma total_zero s who : ok s → (total w (account s who) =? 0) = (fr (account s who) =? 0).
Proof using All. intros Hs. pose proof (account_facts s who Hs) as F. unfold fr in *. by rewrite total_eq by lia. Qed.

Lemma deposit_into_existing_ok who value s :
  ok s → 0 < value → supply (accounts s) + value < 2 ^ w →
  if fr (account s who) =? 0 then deposit_into_existing w ED who value s = (Err DeadAccount, s)
  else ∃ s', deposit_into_existing w ED who value s = (Ok value, s') ∧
    commit who (info s who) (with_free (account s who) (free (account s who) + value)) s s' ∧ ok s' ∧ gap s' = gap s + value.
Proof using All.
  intros Hs Hv Hfit. unfold deposit_into_existing. rewrite (proj2 (Z.eqb_neq value 0)) by lia. pose proof (account_facts s who Hs) as F.
  set (f := λ acc : AccountData, _).
  assert (f (account s who) s = (if fr (account s who) =? 0 then Err DeadAccount else Ok (value, with_free (account s who) (free (account s who) + value)), s)) as Hf.
  { unfold f. rewrite total_zero by done. unfold fr, checked_add in *. rewrite (proj2 (Z.ltb_lt (free (account s who) + value) (2 ^ w))) by lia. by destruct (_ =? 0). }
  destruct (Z.eqb_spec (fr (account s who)) 0) as [Hz|Hz]; [by apply try_mutate_account_Err|]. unfold fr in *.
  destruct (mutate_ok who f s value (with_free (account s who) (free (account s who) + value)) Hs Hf) as (s2&Hrun&Hcm&Hok&Hgap);
    [unfold nonneg; cbn; lia|unfold fr; cbn; lia|unfold fr; cbn; lia|].
  exists s2. split_and!; try done. rewrite Hgap. unfold fr. cbn. lia.
Qed.

(** A deposit goes through if it is enough to open the account or the account exists. *)
Definition creates s who value : bool := (ED <=? value) || negb (fr (account s who) =? 0).

Lemma deposit_creating_ok {E} who value s :
  ok s → 0 < value → supply (accounts s) + value < 2 ^ w →
  ∃ s', deposit_creating (E := E) w ED who value s = (Ok (if creates s who value then value else 0), s') ∧
    if creates s who value
    then commit who (info s who) (with_free (account s who) (free (account s who) + value)) s s' ∧ ok s' ∧ gap s' = gap s + value
    else s' = s.
Proof using All.
  intros Hs Hv Hfit. unfold deposit_creating. rewrite (proj2 (Z.eqb_neq value 0)) by lia.
  pose proof (account_facts s who Hs) as F. unfold or_value. set (f := λ acc : AccountData, _).
  assert (f (account s who) s = (if creates s who value then Ok (value, with_free (account s who) (free (account s who) + value)) else Err 0, s)) as Hf.
  { unfold f, creates, fr in *. rewrite total_zero by done. unfold fr, checked_add. rewrite (proj2 (Z.ltb_lt (free (account s who) + value) (2 ^ w))) by lia.
    by destruct (_ || _). }
  unfold creates, fr in *. destruct (_ || _) eqn:Hc.
  - destruct (mutate_ok who f s value (with_free (account s who) (free (account s who) + value))) as (s2&->&Hcm&Hok&Hgap);
      [done|done|unfold nonneg; cbn; lia|unfold fr; cbn; lia| |].
    + right. unfold fr. cbn. apply orb_true_iff in Hc as [?%Z.leb_le|?%negb_true_iff%Z.eqb_neq]; lia.
    + exists s2. split_and!; try done. rewrite Hgap. unfold fr. cbn. lia.
  - rewrite (try_mutate_account_Err who f s 0 s Hf). by exists s.
Qed.

Lemma make_free_balance_be_ok {E} who value s :
  ok s → 0 ≤ value → supply (accounts s) + value < 2 ^ w → gap s ≤ 0 →
  ∃ i s', make_free_balance_be (E := E) w ED who value s = (Ok i, s') ∧ ok s' ∧
    gap s' = gap s + match i with Positive a => a | Negative a => - a end ∧ match i with Positive a => 0 ≤ a ≤ value | Negative a => 0 ≤ a end.
Proof using All.
  intros Hs Hv Hfit Hgap. unfold gap in Hgap. unfold make_free_balance_be, or_value. pose proof (account_facts s who Hs) as F. set (f := λ acc : AccountData, _).
  set (i := if free (account s who) <=? value then Positive (value - free (account s who)) else Negative (free (account s who) - value)).
  set (cond := (ED <=? value + reserved (account s who)) || negb (fr (account s who) =? 0)).
  assert (f (account s who) s = (if cond then Ok (i, with_free (account s who) value) else Err (Positive 0), s)) as Hf.
  { unfold f, cond. rewrite total_zero by done. unfold fr in *. rewrite uadd_Ok by lia. mrun. by destruct (_ || _). }
  destruct cond eqn:Hc.
  - destruct (mutate_ok who f s i (with_free (account s who) value)) as (s2&->&_&Hok&Hgap');
      [done|done|unfold nonneg; cbn; lia|unfold fr in *; cbn; lia| |].
    + unfold fr in *. cbn. apply orb_true_iff in Hc as [?%Z.leb_le|?%negb_true_iff%Z.eqb_neq]; lia.
    + exists i, s2. unfold fr in *. cbn in Hgap'. unfold i. destruct (Z.leb_spec (free (account s who)) value); split_and!; try done; lia.
  - rewrite (try_mutate_account_Err who f s (Positive 0) s Hf). exists (Positive 0), s. split_and!; try done; lia.
Qed.

(** ** Transfers *)

Lemma commit_other who i d s s' who' : commit who i d s s' → who ≠ who' → info s' who' = info s who'.
Proof using. intros [Ha _ _] Hne. unfold info. by rewrite Ha, put_lookup_ne. Qed.

Lemma commit_same who i d s s' :
  commit who i d s s' → nonneg d → fr d < 2 ^ w → account s' who = if fr d <? ED then default_account else d.
Proof using All.
  intros [Ha _ _] Hn Hd. unfold account, info. rewrite Ha, put_lookup. unfold stored. rewrite total_eq by done. unfold fr.
  by destruct (free d + reserved d <? ED).
Qed.

Lemma others_commit who who' i d s s' :
  commit who' i d s s' → who ≠ who' → fr d < 2 ^ w → fr (account s who') + (others who (accounts s') - others who (accounts s)) = fr d - dust d.
Proof using All.
  intros [Ha _ _] Hne Hd. rewrite Ha, others_put_ne, stored_dust by done. rewrite (others_split who who' (accounts s)) by done. rewrite ofunds_info. unfold fr. lia.
Qed.

(** Whether a transfer goes through, and the error if it does not. *)
Definition transfer_error s (transactor dest : AccountId) (value : Z) (req : ExistenceRequirement) : option Error :=
  let from := account s transactor in
  let to := account s dest in
  if free from <? value then Some InsufficientBalance
  else if fr to + value <? ED then Some ExistentialDepositError
  else if free from - value <? frozen from Misc then Some LiquidityRestrictions
  else if negb (bool_decide (req = AllowDeath) && allow_death s transactor) && (free from - value <? ED) then Some KeepAliveError
  else None.

(** Two accounts hold no more than everyone together. *)
Lemma two_accounts who who' s : ok s → who ≠ who' → fr (account s who) + fr (account s who') ≤ supply (accounts s).
Proof using All.
  intros Hs Hne. rewrite (supply_account s who). rewrite (others_split who who') by done. rewrite ofunds_info. unfold fr.
  pose proof (others_nonneg (delete who (accounts s)) who' (accounts_ok_delete _ _ (ok_accounts s Hs))). lia.
Qed.

(** A nested mutation: [who'] first, then [who], whose data was read before. *)
Lemma nested_commit who who' i d s s1 s2 d' i' :
  ok s → who ≠ who' → commit who' i d s s1 → ok s1 → commit who i' d' s1 s2 →
  nonneg d → nonneg d' → fr d < 2 ^ w → fr d' + fr d ≤ fr (account s who) + fr (account s who') → fr d' ≤ total_issuance s1 ∨ ED ≤ fr d' →
  ok s2 ∧ gap s2 = gap s1 + (fr d' - fr (account s who)) ∧ (∀ k, k ≠ who → k ≠ who' → info s2 k = info s k) ∧ locks_map s2 = locks_map s ∧
  account s2 who' = (if fr d <? ED then default_account else d) ∧ account s2 who = if fr d' <? ED then default_account else d'.
Proof using All.
  intros Hs Hne Hc Hs1 Hc2 Hn Hn' Hd Hsum Hdust. pose proof (others_commit who who' i d s s1 Hc Hne Hd) as Ho. pose proof (account_facts s who Hs) as F.
  pose proof (account_facts s1 who Hs1) as F1. pose proof (dust_bound d Hd) as Hdb. destruct Hn as [[Hn1 Hn2] Hn3]. pose proof Hn' as [[? ?] _].
  assert (account s1 who = account s who) as Hacc by (unfold account; by rewrite (commit_other who' i d s s1 who Hc) by done).
  assert (fr d' + others who (accounts s1) < 2 ^ w) as Hfit by (unfold fr in *; lia).
  destruct (commit_gap who i' d' s1 s2 Hs1 Hc2 Hn' Hfit Hdust) as [Hok2 Hgap2]. rewrite Hacc in Hgap2. split_and!; [done|done| |..].
  - intros k Hk Hk'. rewrite (commit_other who i' d' s1 s2 k Hc2) by done. by apply (commit_other who' i d s s1 k).
  - destruct Hc, Hc2. congruence.
  - rewrite <- (commit_same who' i d s s1 Hc); [|unfold nonneg; lia|done]. unfold account. by rewrite (commit_other who i' d' s1 s2 who' Hc2).
  - apply (commit_same who i' d' s1 s2 Hc2 Hn'). unfold fr in *. lia.
Qed.

Lemma transfer_from_eq transactor dest value req s :
  ok s → 0 < value → transactor ≠ dest →
  transfer_from w ED transactor value req (account s dest) (account s transactor) s =
    (match transfer_error s transactor dest value req with
     | Some e => Err e
     | None => Ok (with_free (account s dest) (free (account s dest) + value), with_free (account s transactor) (free (account s transactor) - value))
     end, s).
Proof using All.
  intros Hs Hv Hne. unfold transfer_from, transfer_error. pose proof (two_accounts transactor dest s Hs Hne) as H2.
  pose proof (account_facts s transactor Hs) as F. pose proof (account_facts s dest Hs) as F'. unfold fr in *. unfold checked_sub.
  destruct (Z.leb_spec value (free (account s transactor))), (Z.ltb_spec (free (account s transactor)) value); try lia; [|done].
  unfold checked_add. rewrite (proj2 (Z.ltb_lt (free (account s dest) + value) (2 ^ w))) by lia. mrun. rewrite total_eq by (cbn; lia). cbn [with_free free reserved].
  destruct (Z.leb_spec ED (free (account s dest) + value + reserved (account s dest))), (Z.ltb_spec (free (account s dest) + reserved (account s dest) + value) ED); try lia; [|done].
  cbv beta iota. rewrite ensure_can_withdraw_eq. rewrite (proj2 (Z.eqb_neq value 0)) by lia. cbn [orb]. change (reasons_from Transfer) with Misc.
  destruct (Z.leb_spec (frozen (account s transactor) Misc) (free (account s transactor) - value)), (Z.ltb_spec (free (account s transactor) - value) (frozen (account s transactor) Misc)); try lia; [|done].
  destruct (bool_decide (req = AllowDeath) && allow_death s transactor); [done|]. cbn [orb negb andb].
  destruct (Z.leb_spec ED (free (account s transactor) - value)), (Z.ltb_spec (free (account s transactor) - value) ED); try lia; done.
Qed.

Lemma transfer_error_None s transactor dest value req :
  transfer_error s transactor dest value req = None →
  value ≤ free (account s transactor) ∧ ED ≤ fr (account s dest) + value ∧ misc_frozen (account s transactor) ≤ free (account s transactor) - value ∧
  (req = KeepAlive ∨ allow_death s transactor = false → ED ≤ free (account s transactor) - value).
Proof using.
  unfold transfer_error. destruct (Z.ltb_spec (free (account s transactor)) value); [done|]. destruct (Z.ltb_spec (fr (account s dest) + value) ED); [done|].
  destruct (Z.ltb_spec (free (account s transactor) - value) (frozen (account s transactor) Misc)); [done|].
  destruct (bool_decide_reflect (req = AllowDeath)); destruct (allow_death s transactor); cbn [andb negb];
    destruct (Z.ltb_spec (free (account s transactor) - value) ED); intros Hn; try done; split_and!; cbn in *; try lia; naive_solver.
Qed.

Lemma transfer_ok transactor dest value req s :
  balanced s → 0 < value → transactor ≠ dest →
  match transfer_error s transactor dest value req with
  | Some e => currency_transfer w ED transactor dest value req s = (Err e, s)
  | None =>
      ∃ s', currency_transfer w ED transactor dest value req s = (Ok tt, s') ∧ balanced s' ∧
        (let from' := with_free (account s transactor) (free (account s transactor) - value) in
         account s' transactor = if fr from' <? ED then default_account else from') ∧
        account s' dest = with_free (account s dest) (free (account s dest) + value) ∧
        (∀ who, who ≠ dest → who ≠ transactor → info s' who = info s who) ∧ locks_map s' = locks_map s
  end.
Proof using All.
  intros [Hs Hgap] Hv Hne. unfold currency_transfer. rewrite (proj2 (Z.eqb_neq value 0)) by lia. rewrite bool_decide_false by done. cbn [orb].
  pose proof (two_accounts transactor dest s Hs Hne) as H2. pose proof (account_facts s transactor Hs) as F. pose proof (account_facts s dest Hs) as F'.
  pose proof (transfer_from_eq transactor dest value req s Hs Hv Hne) as Hi. unfold gap in Hgap.
  set (f_o := λ to_account : AccountData, _). destruct (transfer_error s transactor dest value req) as [e|] eqn:He.
  - apply bind_Err, try_mutate_account_Err. apply bind_Err, try_mutate_account_Err, Hi.
  - destruct (transfer_error_None _ _ _ _ _ He) as (Hle&Hed&_). set (from' := with_free (account s transactor) _) in *. set (to' := with_free (account s dest) _) in *.
    assert (fr from' = fr (account s transactor) - value) as Ef by (unfold from', fr; cbn; lia).
    assert (fr to' = fr (account s dest) + value) as Et by (unfold to', fr; cbn; lia).
    assert (nonneg from') as Hnf by (unfold nonneg, from'; cbn; lia). assert (nonneg to') as Hnt by (unfold nonneg, to'; cbn; lia).
    destruct (mutate_ok transactor _ s to' from' Hs Hi) as (s1&Hrun1&Hc1&Hs1&Hgap1); [done|lia|lia|].
    destruct (try_mutate_account_Ok dest f_o s tt to' s1) as (s2&Hrun2&Hc2); [unfold f_o; by rewrite (bind_Ok _ _ _ _ _ Hrun1)|apply Hs1|].
    destruct (nested_commit dest transactor _ _ s s1 s2 _ _ Hs ltac:(done) Hc1 Hs1 Hc2 Hnf Hnt) as (Hs2&Hgap2&Hframe&Hlocks&Ha1&Ha2); [lia|lia|right; lia|].
    destruct (deposit_event_Ok (E := Error) (Transferred transactor dest value) s2) as (s3&Hev&E1&E2&E3).
    assert (∀ k, info s3 k = info s2 k) as Einfo by (intros k; unfold info; by rewrite E1).
    exists s3. rewrite (bind_Ok _ _ _ _ _ Hrun2). split; [done|]. split; [|split; [|split; [|split]]].
    + split; [destruct Hs2; constructor; by rewrite ?E1, ?E2|]. unfold gap in *. rewrite E1, E2. lia.
    + unfold account. rewrite Einfo. exact Ha1.
    + unfold account. rewrite Einfo. fold (account s2 dest). rewrite Ha2. rewrite (proj2 (Z.ltb_ge _ _)) by lia. done.
    + intros k Hk Hk'. rewrite Einfo. by apply Hframe.
    + by rewrite E3.
Qed.

(** ** Reserving *)

Definition reserve_error s who (value : Z) : option Error :=
  if free (account s who) <? value then Some InsufficientBalance
  else if free (account s who) - value <? misc_frozen (account s who) then Some LiquidityRestrictions
  else None.

Lemma reserve_ok who value s :
  balanced s → 0 < value →
  match reserve_error s who value with
  | Some e => reserve w ED who value s = (Err e, s)
  | None =>
      ∃ s', reserve w ED who value s = (Ok tt, s') ∧ balanced s' ∧
        account s' who = with_reserved (with_free (account s who) (free (account s who) - value)) (reserved (account s who) + value) ∧
        (∀ k, k ≠ who → info s' k = info s k) ∧ locks_map s' = locks_map s
  end.
Proof using All.
  intros [Hs Hgap] Hv. unfold gap in Hgap. unfold reserve. rewrite (proj2 (Z.eqb_neq value 0)) by lia. pose proof (account_facts s who Hs) as F.
  set (f := λ acc : AccountData, _). set (d := with_reserved _ _).
  assert (f (account s who) s = (match reserve_error s who value with Some e => Err e | None => Ok (tt, d) end, s)) as Hf.
  { unfold f, reserve_error, checked_sub, checked_add, fr in *.
    destruct (Z.leb_spec value (free (account s who))), (Z.ltb_spec (free (account s who)) value); try lia; [|done].
    rewrite (proj2 (Z.ltb_lt (reserved (account s who) + value) (2 ^ w))) by lia. mrun. rewrite ensure_can_withdraw_eq.
    rewrite (proj2 (Z.eqb_neq value 0)) by lia. cbn [orb]. change (frozen (account s who) (reasons_from Reserve)) with (misc_frozen (account s who)).
    destruct (Z.leb_spec (misc_frozen (account s who)) (free (account s who) - value)), (Z.ltb_spec (free (account s who) - value) (misc_frozen (account s who))); try lia; done. }
  destruct (reserve_error s who value) eqn:He; [by apply try_mutate_account_Err|].
  assert (value ≤ free (account s who)) as Hle.
  { unfold reserve_error in He. destruct (Z.ltb_spec (free (account s who)) value); [done|lia]. }
  assert (fr d = fr (account s who)) as Ed by (unfold d, fr; cbn; lia).
  destruct (mutate_ok who f s tt d Hs Hf) as (s'&Hrun&Hc&Hok&Hg); [unfold nonneg, d, fr in *; cbn; lia|lia|lia|].
  exists s'. split_and!; [done|split; [done|unfold gap in *; lia]| |..].
  - rewrite (commit_same who _ d s s' Hc); [|unfold nonneg, d; cbn; lia|lia]. rewrite (proj2 (Z.ltb_ge _ _)); [done|]. unfold fr in *. lia.
  - intros k Hk. by apply (commit_other who _ d s s' k Hc).
  - by destruct Hc.
Qed.

Lemma unreserve_gap {E} who value s :
  ok s → 0 < value →
  let actual := Z.min (reserved (account s who)) value in
  ∃ s', unreserve (E := E) w ED who value s = (Ok (value - actual), s') ∧ (ok s' ∧ gap s' = gap s ∧ total_issuance s' = total_issuance s) ∧
    account s' who = (if fr (account s who) =? 0 then default_account
                      else with_free (with_reserved (account s who) (reserved (account s who) - actual)) (free (account s who) + actual)) ∧
    (∀ k, k ≠ who → info s' k = info s k) ∧ locks_map s' = locks_map s.
Proof using All.
  intros Hs Hv actual. unfold unreserve. rewrite (proj2 (Z.eqb_neq value 0)) by lia. pose proof (account_facts s who Hs) as F.
  unfold mutate_account. fold actual. set (f := λ a : AccountData, _). set (d := with_free _ _).
  assert (f (account s who) s = (Ok (value - actual, d), s)) as Hf.
  { unfold f, d. mrun. fold actual. unfold usaturating_add, max_value, fr in *. by rewrite Z.min_r by lia. }
  assert (fr d = fr (account s who)) as Ed by (unfold d, fr; cbn; lia).
  destruct (mutate_ok who f s (value - actual) d Hs Hf) as (s'&Hrun&Hc&Hok&Hg); [unfold nonneg, d, fr in *; cbn; lia|lia|lia|].
  exists s'. split_and!; [done|done|lia| | |..].
  - rewrite (commit_issuance _ _ _ _ _ Hc). destruct (dust_bound d ltac:(lia)) as [[-> _]|[-> ?]]; unfold saturating_sub; lia.
  - rewrite (commit_same who _ d s s' Hc); [|unfold nonneg, d; cbn; lia|lia].
    destruct (Z.ltb_spec (fr d) ED), (Z.eqb_spec (fr (account s who)) 0); try done; lia.
  - intros k Hk. by apply (commit_other who _ d s s' k Hc).
  - by destruct Hc.
Qed.

Lemma unreserve_ok {E} who value s :
  balanced s → 0 < value →
  let actual := Z.min (reserved (account s who)) value in
  ∃ s', unreserve (E := E) w ED who value s = (Ok (value - actual), s') ∧ balanced s' ∧
    account s' who = (if fr (account s who) =? 0 then default_account
                      else with_free (with_reserved (account s who) (reserved (account s who) - actual)) (free (account s who) + actual)) ∧
    (∀ k, k ≠ who → info s' k = info s k) ∧ locks_map s' = locks_map s.
Proof using All.
  intros [Hs Hgap] Hv actual. destruct (unreserve_gap (E := E) who value s Hs Hv) as (s'&Hrun&(Hok&Hg&_)&Hacc&Hframe&Hl).
  exists s'. split_and!; [done|split; [done|lia]|done..].
Qed.

(** What was reserved can be given back. *)
Lemma reserve_unreserve {E} who value s s' :
  balanced s → 0 < value → reserve w ED who value s = (Ok tt, s') →
  ∃ s'', unreserve (E := E) w ED who value s' = (Ok 0, s'') ∧ balanced s'' ∧ account s'' who = account s who ∧ ∀ k, k ≠ who → info s'' k = info s k.
Proof using All.
  intros Hb Hv Hr. pose proof (reserve_ok who value s Hb Hv) as Hres. destruct (reserve_error s who value) eqn:He; [by rewrite Hres in Hr|].
  destruct Hres as (s1&Hrun&Hb1&Ha1&Hframe1&_). rewrite Hrun in Hr. injection Hr as ->.
  destruct (unreserve_ok (E := E) who value s' Hb1 Hv) as (s2&Hrun2&Hb2&Ha2&Hframe2&_). pose proof (account_facts s who (proj1 Hb)) as F.
  assert (value ≤ free (account s who)) as Hle.
  { unfold reserve_error in He. destruct (Z.ltb_spec (free (account s who)) value); [done|lia]. }
  exists s2. split_and!; [|done| |].
  - rewrite Hrun2. do 2 f_equal. rewrite Ha1. cbn. lia.
  - rewrite Ha2, Ha1. unfold fr. cbn. rewrite (proj2 (Z.eqb_neq _ 0)) by (unfold fr in *; lia).
    clear - F Hle. destruct (account s who) as [f r mf ff]. cbn in *. rewrite Z.min_r by lia. unfold with_free, with_reserved. cbn [free reserved misc_frozen fee_frozen]. f_equal; lia.
  - intros k Hk. rewrite Hframe2 by done. by apply Hframe1.
Qed.

(** ** Repatriating *)

Lemma repatriate_post slashed beneficiary value status s :
  balanced s → 0 ≤ value →
  match repatriate_reserved w ED slashed beneficiary value status s with
  | (Ok _, s') => balanced s' | (Err _, s') => s' = s | (Panic, _) => False end.
Proof using All.
  intros [Hs Hgap] Hv. unfold repatriate_reserved. destruct (Z.eqb_spec value 0) as [->|Hv0]; [done|]. case_decide as Heq.
  { destruct status; [|done]. pose proof (unreserve_post (E := Error) slashed value s Hs Hv ltac:(lia)) as Hp. unfold post in Hp.
    destruct (unreserve w ED slashed value s) as [[r|e|] s']; cbn [fst snd] in Hp; [|done..]. split; [easy|lia]. }
  pose proof (two_accounts slashed beneficiary s Hs Heq) as H2. pose proof (account_facts s slashed Hs) as F. pose proof (account_facts s beneficiary Hs) as F'.
  unfold gap in Hgap. set (to := account s beneficiary) in *. set (from := account s slashed) in *. set (actual := Z.min (reserved from) value).
  set (to' := match status with StatusFree => with_free to (free to + actual) | StatusReserved => with_reserved to (reserved to + actual) end).
  set (from' := with_reserved from (reserved from - actual)).
  assert (repatriate_from w value status to from s = (Ok ((value - actual, to'), from'), s)) as Hi.
  { unfold repatriate_from. fold actual. unfold checked_add, fr in *. destruct status; rewrite (proj2 (Z.ltb_lt _ _)) by lia; done. }
  assert (fr from' = fr from - actual) as Ef by (unfold from', fr; cbn; lia). assert (fr to' = fr to + actual) as Et by (unfold to', fr; destruct status; cbn; lia).
  assert (nonneg from') as Hnf by (unfold nonneg, from'; cbn; unfold fr in *; lia). assert (nonneg to') as Hnt by (unfold nonneg, to', fr in *; destruct status; cbn; lia).
  destruct (mutate_ok slashed (repatriate_from w value status to) s (value - actual, to') from' Hs Hi) as (s1&Hrun1&Hc1&Hs1&Hgap1); [done|lia|lia|].
  set (f_o := λ to_account : AccountData, _).
  destruct (negb (fr to =? 0)) eqn:Hlive.
  - apply negb_true_iff, Z.eqb_neq in Hlive.
    destruct (try_mutate_account_Ok beneficiary f_o s (value - actual) to' s1) as (s2&Hrun2&Hc2).
    { unfold f_o. rewrite total_zero by done. fold to. rewrite (proj2 (Z.eqb_neq _ 0)) by done. exact Hrun1. }
    { apply Hs1. }
    destruct (nested_commit beneficiary slashed _ _ s s1 s2 _ _ Hs ltac:(done) Hc1 Hs1 Hc2 Hnf Hnt) as (Hs2&Hgap2&_); [lia|fold to from; lia|right; lia|].
    rewrite Hrun2. split; [done|]. fold to from in Hgap1, Hgap2. unfold gap in *. lia.
  - rewrite (try_mutate_account_Err beneficiary f_o s DeadAccount s); [done|]. unfold f_o. rewrite total_zero by done. fold to. by rewrite Hlive.
Qed.

End balances.
