(* ===== verification/BalancesHistory.v ===== *)
(** * The operations keep the books

    Every operation of the balances module, with the imbalance it returns dropped
    or resolved, keeps the total issuance equal to the sum of all balances. *)
From S2P Require Import Prelude PerThings Balances BalancesFacts.

Local Open Scope Z_scope.

(** What the locks freeze for [p] ([Misc] or [Fee]). *)
Definition covers (p : Reasons) (l : BalanceLock) : Prop := lock_reasons l = All ∨ lock_reasons l = p.

#[export] Instance covers_dec p l : Decision (covers p l).
Proof. unfold covers. apply _. Defined.

Definition locked (p : Reasons) (ls : list BalanceLock) : Z := foldr Z.max 0 (lock_amount <$> base.filter (covers p) ls).

Lemma locked_cons p l ls : locked p (l :: ls) = if decide (covers p l) then Z.max (lock_amount l) (locked p ls) else locked p ls.
Proof. unfold locked. rewrite filter_cons. by destruct (decide (covers p l)). Qed.

Lemma locked_nonneg p ls : 0 ≤ locked p ls.
Proof. induction ls as [|l ls IH]; [done|]. rewrite locked_cons. case_decide; lia. Qed.

Lemma locked_in p l ls : l ∈ ls → covers p l → lock_amount l ≤ locked p ls.
Proof.
  intros Hl Hc. induction ls as [|l' ls IH]; [by apply elem_of_nil in Hl|]. rewrite locked_cons. apply elem_of_cons in Hl as [<-|Hl].
  - rewrite decide_True by done. lia.
  - specialize (IH Hl). case_decide; lia.
Qed.

Lemma freeze_eq b l :
  freeze b l = MkAccount (free b) (reserved b) (if decide (covers Misc l) then Z.max (misc_frozen b) (lock_amount l) else misc_frozen b)
    (if decide (covers Fee l) then Z.max (fee_frozen b) (lock_amount l) else fee_frozen b).
Proof. destruct b, l as [id amount []]; reflexivity. Qed.

Lemma freeze_all ls b :
  0 ≤ misc_frozen b → 0 ≤ fee_frozen b →
  foldl freeze b ls = MkAccount (free b) (reserved b) (Z.max (misc_frozen b) (locked Misc ls)) (Z.max (fee_frozen b) (locked Fee ls)).
Proof.
  revert b. induction ls as [|l ls IH]; intros b Ha Hb.
  { destruct b. cbn in *. by rewrite !Z.max_l by lia. }
  cbn [foldl]. rewrite !locked_cons, freeze_eq, IH; cbn [misc_frozen fee_frozen free reserved]; [|repeat case_decide; lia..].
  f_equal; repeat case_decide; lia.
Qed.

(** ** Replacing a lock *)

Definition first_lock (id : Z) (ls : list BalanceLock) : option BalanceLock := head (base.filter (λ l, lock_id l = id) ls).

Lemma replace_lock_None merge id ls : replace_lock merge None id ls = (base.filter (λ l, lock_id l ≠ id) ls, None).
Proof.
  induction ls as [|l ls IH]; [done|]. cbn [replace_lock]. rewrite filter_cons, IH. destruct (Z.eqb_spec (lock_id l) id).
  - by rewrite decide_False by auto.
  - by rewrite decide_True by done.
Qed.

(** The lock that ends up under the identifier. *)
Definition new_lock (merge : BalanceLock → BalanceLock → BalanceLock) (nl : BalanceLock) (ls : list BalanceLock) : BalanceLock :=
  match first_lock (lock_id nl) ls with Some l => merge l nl | None => nl end.

Lemma replace_lock_elem merge nl ls :
  let '(ls', rest) := replace_lock merge (Some nl) (lock_id nl) ls in
  ∀ l, l ∈ ls' ++ option_list rest ↔ (lock_id l ≠ lock_id nl ∧ l ∈ ls) ∨ l = new_lock merge nl ls.
Proof.
  induction ls as [|l0 ls IH].
  { cbn. intros l. rewrite list_elem_of_singleton, elem_of_nil. unfold new_lock, first_lock. cbn. naive_solver. }
  cbn [replace_lock]. unfold new_lock, first_lock in *. rewrite filter_cons. destruct (Z.eqb_spec (lock_id l0) (lock_id nl)) as [He|Hne].
  - rewrite replace_lock_None, decide_True by done. cbn [head option_list]. intros l. rewrite app_nil_r, !elem_of_cons, list_elem_of_filter. naive_solver.
  - rewrite decide_False by done. destruct (replace_lock merge (Some nl) (lock_id nl) ls) as [ls' rest]. intros l. cbn [app]. rewrite !elem_of_cons, IH.
    split; [naive_solver|]. intros [[Hl [->|Hin]]| ->]; naive_solver.
Qed.

Section history.
Context {AccountId : Type} `{Countable AccountId}.
Context (w ED : Z) (Hw : 32 ≤ w) (HED : 0 < ED).
Implicit Types (who k : AccountId) (s : State (AccountId := AccountId)).
Local Abbreviation ok := (ok w ED).
Local Abbreviation balanced := (balanced w ED).

(** Changing the reference counter of an account does not change the books. *)
Lemma reinfo_ok who s s' n r :
  balanced s → accounts s' = <[who := MkInfo n r (account s who)]> (accounts s) → total_issuance s' = total_issuance s →
  balanced s' ∧ (∀ k, account s' k = account s k) ∧ (∀ k, k ≠ who → info s' k = info s k).
Proof using All.
  intros [Hs Hgap] Ha Hi. pose proof (supply_put who (Some (MkInfo n r (account s who))) (accounts s)) as Hsup.
  change (put who (Some ?a) (accounts s)) with (<[who := a]> (accounts s)) in Hsup. rewrite <- Ha in Hsup.
  assert (supply (accounts s') = supply (accounts s)) as Es by (rewrite Hsup, (supply_account s who); done).
  split_and!.
  - split; [|unfold gap in *; lia]. destruct Hs as [H1 H2 H3]. constructor; [|lia|lia]. rewrite Ha. apply (accounts_ok_put ED (accounts s) who (Some _)); [done|].
    intros a [= <-]. by apply accounts_ok_lookup.
  - intros k. unfold account, info. rewrite Ha. destruct (decide (k = who)) as [->|]; [by rewrite lookup_insert_eq|by rewrite lookup_insert_ne].
  - intros k Hk. unfold info. by rewrite Ha, lookup_insert_ne.
Qed.

Lemma same_books s s' : balanced s → accounts s' = accounts s → total_issuance s' = total_issuance s → balanced s'.
Proof using. intros [[H1 H2 H3] Hg] Ha Hi. unfold gap in Hg. split; [constructor|unfold gap]; by rewrite ?Ha, ?Hi. Qed.

Lemma update_locks_ok {E} who ls s :
  balanced s →
  ∃ s', update_locks (E := E) w ED who ls s = (Ok tt, s') ∧ balanced s' ∧ locks s' who = ls ∧
    account s' who = (if fr (account s who) =? 0 then default_account
                      else MkAccount (free (account s who)) (reserved (account s who)) (locked Misc ls) (locked Fee ls)) ∧
    (∀ k, k ≠ who → info s' k = info s k ∧ locks s' k = locks s k).
Proof using All.
  intros [Hs Hgap]. unfold gap in Hgap. pose proof (account_facts w ED Hw HED s who Hs) as F. unfold update_locks, mutate_account.
  set (f := λ a : AccountData, _). set (d := MkAccount (free (account s who)) (reserved (account s who)) (locked Misc ls) (locked Fee ls)).
  assert (f (account s who) s = (Ok (tt, d), s)) as Hf.
  { unfold f. rewrite freeze_all by done. cbn [free reserved misc_frozen fee_frozen]. rewrite !Z.max_r by apply locked_nonneg. done. }
  assert (fr d = fr (account s who)) as Ed by done.
  assert (nonneg d) as Hn by (unfold nonneg, d; cbn; pose proof (locked_nonneg Misc ls); pose proof (locked_nonneg Fee ls); unfold fr in *; lia).
  destruct (mutate_ok w ED Hw HED who f s tt d Hs Hf) as (s1&Hrun&Hc&Hok&Hg); [done|lia|lia|].
  rewrite (bind_Ok _ _ _ _ _ Hrun). unfold gets. rewrite (bind_Ok _ _ s1 (bool_decide (is_Some (locks_map s1 !! who))) s1) by done.
  assert (balanced s1) as Hb1 by (split; [done|unfold gap in *; lia]).
  assert (account s1 who = if fr (account s who) =? 0 then default_account else d) as Ha1.
  { rewrite (commit_same w ED Hw HED who _ d s s1 Hc Hn) by lia. destruct (Z.ltb_spec (fr d) ED), (Z.eqb_spec (fr (account s who)) 0); try done; lia. }
  assert (∀ k, k ≠ who → info s1 k = info s k) as Hframe by (intros k Hk; by apply (commit_other w ED who _ d s s1 k Hc)).
  assert (locks_map s1 = locks_map s) as Hl1 by (by destruct Hc).
  assert (∀ (g : gmap AccountId (list BalanceLock)) s2, (∀ k, k ≠ who → g !! k = locks_map s1 !! k) → default [] (g !! who) = ls →
    ((accounts s2 = accounts s1 ∨ ∃ n r, accounts s2 = <[who := MkInfo n r (account s1 who)]> (accounts s1)) ∧
      total_issuance s2 = total_issuance s1 ∧ locks_map s2 = g) →
    balanced s2 ∧ locks s2 who = ls ∧ account s2 who = account s1 who ∧ (∀ k, k ≠ who → info s2 k = info s k ∧ locks s2 k = locks s k)) as Hfin.
  { intros g s2 Hg2 Hgw (Hacc&Hi2&El). unfold locks. rewrite El. destruct Hacc as [Ea|(n&r&Ea)].
    - split_and!; [by apply (same_books s1)|done|unfold account, info; by rewrite Ea|]. intros k Hk.
      split; [rewrite <- Hframe by done; unfold info; by rewrite Ea|]. by rewrite Hg2, Hl1.
    - destruct (reinfo_ok who s1 s2 n r Hb1 Ea Hi2) as (Hb2&Hacc2&Hinfo2). split_and!; [done|done|done|]. intros k Hk.
      split; [rewrite Hinfo2 by done; by apply Hframe|]. by rewrite Hg2, Hl1. }
  rewrite <- Ha1. destruct ls as [|l ls].
  - destruct (bool_decide (is_Some (locks_map s1 !! who))); eexists; (split; [reflexivity|]); apply (Hfin (delete who (locks_map s1))).
    all: try (intros k Hk; by rewrite lookup_delete_ne by done). all: try (by rewrite lookup_delete_eq).
    + split_and!; [right; by eexists _, _|done|done].
    + split_and!; [by left|done|done].
  - destruct (bool_decide (is_Some (locks_map s1 !! who))); eexists; (split; [reflexivity|]); apply (Hfin (<[who := l :: ls]> (locks_map s1))).
    all: try (intros k Hk; by rewrite lookup_insert_ne by done). all: try (by rewrite lookup_insert_eq).
    + split_and!; [by left|done|done].
    + split_and!; [right; by eexists _, _|done|done].
Qed.

(** ** Locks *)

Lemma put_lock_ok {E} merge id who amount reasons s :
  balanced s → amount ≠ 0 → reasons ≠ 0 →
  let nl := MkLock id amount (reasons_from reasons) in
  ∃ s', put_lock (E := E) w ED merge id who amount reasons s = (Ok tt, s') ∧ balanced s' ∧
    (∀ l, l ∈ locks s' who ↔ (lock_id l ≠ id ∧ l ∈ locks s who) ∨ l = new_lock merge nl (locks s who)) ∧
    (fr (account s who) ≠ 0 →
      account s' who = MkAccount (free (account s who)) (reserved (account s who)) (locked Misc (locks s' who)) (locked Fee (locks s' who))) ∧
    (∀ k, k ≠ who → info s' k = info s k ∧ locks s' k = locks s k).
Proof using All.
  intros Hb Ha Hr nl. unfold put_lock. rewrite (proj2 (Z.eqb_neq amount 0)), (proj2 (Z.eqb_neq reasons 0)) by done. cbn [orb].
  unfold gets. rewrite (bind_Ok _ _ s (locks s who) s) by done. fold nl. pose proof (replace_lock_elem merge nl (locks s who)) as Hel.
  change (lock_id nl) with id in Hel. destruct (replace_lock merge (Some nl) id (locks s who)) as [ls' rest].
  destruct (update_locks_ok (E := E) who (ls' ++ option_list rest) s Hb) as (s'&Hrun&Hb'&Hl&Hacc&Hframe).
  exists s'. split_and!; [done|done|by rewrite Hl| |done]. intros Hlive. rewrite Hacc, Hl. by rewrite (proj2 (Z.eqb_neq _ 0)).
Qed.

Lemma remove_lock_ok {E} id who s :
  balanced s →
  ∃ s', remove_lock (E := E) w ED id who s = (Ok tt, s') ∧ balanced s' ∧
    (∀ l, l ∈ locks s' who ↔ lock_id l ≠ id ∧ l ∈ locks s who) ∧
    (fr (account s who) ≠ 0 →
      account s' who = MkAccount (free (account s who)) (reserved (account s who)) (locked Misc (locks s' who)) (locked Fee (locks s' who))) ∧
    (∀ k, k ≠ who → info s' k = info s k ∧ locks s' k = locks s k).
Proof using All.
  intros Hb. unfold remove_lock, gets. rewrite (bind_Ok _ _ s (locks s who) s) by done.
  destruct (update_locks_ok (E := E) who (base.filter (λ l, lock_id l ≠ id) (locks s who)) s Hb) as (s'&Hrun&Hb'&Hl&Hacc&Hframe).
  exists s'. split_and!; [done|done| | |done].
  - intros l. rewrite Hl. by rewrite list_elem_of_filter.
  - intros Hlive. rewrite Hacc, Hl. by rewrite (proj2 (Z.eqb_neq _ 0)).
Qed.

(** ** Withdrawing *)

Definition withdraw_error s who (value reasons : Z) (liveness : ExistenceRequirement) : option Error :=
  let a := account s who in
  if free a <? value then Some InsufficientBalance
  else if negb (bool_decide (liveness = AllowDeath)) && (fr a - value <? ED) && (ED <=? fr a) then Some KeepAliveError
  else if free a - value <? frozen a (reasons_from reasons) then Some LiquidityRestrictions
  else None.

Lemma withdraw_ok who value reasons liveness s :
  ok s → 0 < value → supply (accounts s) - value ≤ total_issuance s →
  match withdraw_error s who value reasons liveness with
  | Some e => withdraw w ED who value reasons liveness s = (Err e, s)
  | None =>
      ∃ s', withdraw w ED who value reasons liveness s = (Ok value, s') ∧ ok s' ∧ gap s' = gap s - value ∧
        (let a' := with_free (account s who) (free (account s who) - value) in
         (account s' who = if fr a' <? ED then default_account else a') ∧ (ED ≤ fr a' → total_issuance s' = total_issuance s)) ∧
        (∀ k, k ≠ who → info s' k = info s k) ∧ locks_map s' = locks_map s
  end.
Proof using All.
  intros Hs Hv Hiss. unfold withdraw. rewrite (proj2 (Z.eqb_neq value 0)) by lia. pose proof (account_facts w ED Hw HED s who Hs) as F.
  set (f := λ acc : AccountData, _). set (a' := with_free (account s who) (free (account s who) - value)).
  assert (f (account s who) s = (match withdraw_error s who value reasons liveness with Some e => Err e | None => Ok (value, a') end, s)) as Hf.
  { unfold f, withdraw_error, checked_sub. unfold fr in *.
    destruct (Z.leb_spec value (free (account s who))), (Z.ltb_spec (free (account s who)) value); try lia; [|done].
    cbn [ok_or_throw]. rewrite (bind_Ok _ _ s (free (account s who) - value) s) by done. rewrite (uadd_Ok w (free (account s who) - value)) by lia.
    rewrite (bind_Ok _ _ s (free (account s who) - value + reserved (account s who)) s) by done.
    replace (free (account s who) - value + reserved (account s who)) with (free (account s who) + reserved (account s who) - value) by lia.
    rewrite (uadd_Ok w (free (account s who))) by lia. set (t := free (account s who) + reserved (account s who)) in *.
    rewrite (bind_Ok _ _ s ((t - value <? ED) && (ED <=? t)) s) by (destruct (t - value <? ED); done).
    destruct (bool_decide (liveness = AllowDeath)); cbn [orb negb andb].
    - unfold ensure. rewrite (bind_Ok _ _ s tt s) by done. unfold mbind, M_bind. rewrite ensure_can_withdraw_eq.
      rewrite (proj2 (Z.eqb_neq value 0)) by lia. cbn [orb]. rewrite Z.leb_antisym. by destruct (_ <? frozen _ _).
    - destruct ((t - value <? ED) && (ED <=? t)); [done|]. unfold ensure. cbn [negb]. rewrite (bind_Ok _ _ s tt s) by done. unfold mbind, M_bind.
      rewrite ensure_can_withdraw_eq. rewrite (proj2 (Z.eqb_neq value 0)) by lia. cbn [orb]. rewrite Z.leb_antisym. by destruct (_ <? frozen _ _). }
  destruct (withdraw_error s who value reasons liveness) eqn:He; [by apply try_mutate_account_Err|].
  assert (value ≤ free (account s who)) as Hle by (unfold withdraw_error in He; destruct (Z.ltb_spec (free (account s who)) value); [done|lia]).
  assert (fr a' = fr (account s who) - value) as Ea by (unfold a', fr; cbn; lia).
  destruct (mutate_ok w ED Hw HED who f s value a' Hs Hf) as (s'&Hrun&Hc&Hok&Hg); [unfold nonneg, a'; cbn; lia|lia|lia|].
  exists s'. split_and!; [done|done|lia|..].
  - apply (commit_same w ED Hw HED who _ a' s s' Hc); [unfold nonneg, a'; cbn; lia|lia].
  - intros Hed. destruct Hc as [_ -> _]. destruct (dust_bound (AccountId := AccountId) w ED Hw HED a' ltac:(lia)) as [[-> _]|[_ ?]]; [unfold saturating_sub|]; lia.
  - intros k Hk. by apply (commit_other w ED who _ a' s s' k Hc).
  - by destruct Hc.
Qed.

(** ** Imbalances *)

Lemma drop_negative_ok {E} amount s :
  ok s → gap s = - amount → ∃ s', drop_negative (E := E) amount s = (Ok tt, s') ∧ balanced s' ∧ accounts s' = accounts s ∧ locks_map s' = locks_map s ∧ total_issuance s' = total_issuance s - amount.
Proof using All.
  intros [H1 H2 H3] Hg. eexists. split; [done|]. unfold gap in Hg. pose proof (supply_nonneg ED (accounts s) H1). assert (saturating_sub (total_issuance s) amount = total_issuance s - amount) as E1 by (unfold saturating_sub; lia).
  split; [|cbn; done]. split; [constructor|unfold gap]; cbn; rewrite ?E1; try done; lia.
Qed.

Lemma drop_positive_ok {E} amount s :
  ok s → gap s = amount → ∃ s', drop_positive (E := E) w amount s = (Ok tt, s') ∧ balanced s' ∧ accounts s' = accounts s ∧ locks_map s' = locks_map s ∧ total_issuance s' = total_issuance s + amount.
Proof using All.
  intros [H1 H2 H3] Hg. eexists. split; [done|]. unfold gap in Hg. pose proof (supply_nonneg ED (accounts s) H1). assert (usaturating_add w (total_issuance s) amount = total_issuance s + amount) as E1 by (unfold usaturating_add, max_value; lia).
  split; [|cbn; done]. split; [constructor|unfold gap]; cbn; rewrite ?E1; try done; lia.
Qed.

(** The same with more imbalances around. *)
Lemma drop_negative_gap {E} amount s :
  ok s → 0 ≤ amount → gap s ≤ - amount →
  ∃ s', drop_negative (E := E) amount s = (Ok tt, s') ∧ ok s' ∧ gap s' = gap s + amount ∧ accounts s' = accounts s ∧ locks_map s' = locks_map s ∧
    total_issuance s' = total_issuance s - amount.
Proof using All.
  intros [H1 H2 H3] Ha Hg. eexists. split; [done|]. unfold gap in Hg. pose proof (supply_nonneg ED (accounts s) H1).
  assert (saturating_sub (total_issuance s) amount = total_issuance s - amount) as E1 by (unfold saturating_sub; lia).
  split; [constructor|split; [unfold gap|]]; cbn; rewrite ?E1; try done; lia.
Qed.

Lemma resolve_creating_gap {E} who v s :
  ok s → 0 ≤ v → gap s ≤ - v →
  ∃ s', resolve_creating (E := E) w ED who v s = (Ok tt, s') ∧ ok s' ∧ gap s' = gap s + v ∧ (∀ k, k ≠ who → info s' k = info s k) ∧ locks_map s' = locks_map s ∧
    (0 < v →
     if creates ED s who v then account s' who = with_free (account s who) (free (account s who) + v) ∧ total_issuance s' = total_issuance s
     else account s' who = account s who ∧ total_issuance s' = total_issuance s - v).
Proof using All.
  intros Hs Hv Hgap. pose proof (account_facts w ED Hw HED s who Hs) as F. unfold resolve_creating.
  destruct (decide (v = 0)) as [->|Hv0].
  { destruct (drop_negative_gap (E := E) 0 s Hs ltac:(done) ltac:(lia)) as (s'&Hrun&Hok&Hg&Ha&Hl&_). exists s'. split_and!; [exact Hrun|done|done| |done|lia].
    intros k _. unfold info. by rewrite Ha. }
  destruct (deposit_creating_ok w ED Hw HED (E := E) who v s Hs) as (s1&Hrun1&Hs1); [lia|unfold gap in Hgap; lia|]. rewrite (bind_Ok _ _ _ _ _ Hrun1).
  unfold drop_offset_negative, imbalance_offset. destruct (creates ED s who v) eqn:Hc.
  - destruct Hs1 as (Hcm&Hok1&Hg1). rewrite (proj2 (Z.leb_le v v)), Z.sub_diag by lia.
    destruct (drop_negative_gap (E := E) 0 s1 Hok1 ltac:(done) ltac:(lia)) as (s'&Hrun&Hok&Hg&Ha&Hl&Hi). exists s'.
    assert (∀ k, info s' k = info s1 k) as Einfo by (intros k; unfold info; by rewrite Ha).
    assert (ED ≤ fr (with_free (account s who) (free (account s who) + v)) < 2 ^ w) as Hfr.
    { unfold creates in Hc. unfold gap in *. unfold fr in *. cbn [with_free free reserved].
      apply orb_true_iff in Hc as [?%Z.leb_le|?%negb_true_iff%Z.eqb_neq]; lia. }
    split_and!; [exact Hrun|done|lia| | |].
    + intros k Hk. rewrite Einfo. by apply (commit_other w ED who _ _ s s1 k Hcm).
    + rewrite Hl. by destruct Hcm.
    + intros _. split.
      * unfold account. rewrite Einfo. fold (account s1 who). rewrite (commit_same w ED Hw HED who _ _ s s1 Hcm); [|unfold nonneg; cbn; unfold fr in *; lia|lia].
        by rewrite (proj2 (Z.ltb_ge _ _)) by lia.
      * rewrite Hi. destruct Hcm as [_ -> _]. destruct (dust_bound (AccountId := AccountId) w ED Hw HED _ (proj2 Hfr)) as [[-> _]|[_ ?]]; [unfold saturating_sub|]; lia.
  - subst s1. rewrite (proj2 (Z.leb_le 0 v)), Z.sub_0_r by lia.
    destruct (drop_negative_gap (E := E) v s Hs Hv Hgap) as (s'&Hrun&Hok&Hg&Ha&Hl&Hi). exists s'. split_and!; [exact Hrun|done|done| |done|].
    + intros k _. unfold info. by rewrite Ha.
    + intros _. split; [unfold account, info; by rewrite Ha|done].
Qed.

(** The imbalance that [settle] gives back is dropped. *)
Lemma settle_ok {E} who v reasons liveness s :
  ok s → 0 ≤ v → gap s = v →
  ∃ o s', settle (E := E) w ED who v reasons liveness s = (Ok o, s') ∧ (o = None → balanced s') ∧ (∀ a, o = Some a → a = v ∧ s' = s).
Proof using All.
  intros Hs Hv Hgap. unfold settle. pose proof (withdraw_post w ED Hw HED who v reasons liveness s Hs Hv ltac:(unfold gap in Hgap; lia)) as Hp. unfold post in Hp.
  destruct (decide (v = 0)) as [->|Hv0].
  { destruct (drop_positive_ok (E := E) 0 s Hs Hgap) as (s'&Hrun&Hb&_). exists None, s'. split_and!; [|done|done].
    change (withdraw w ED who 0 reasons liveness s) with (Ok 0 : result Error Z, s). cbv beta iota. unfold drop_offset_positive, imbalance_offset.
    rewrite (bind_Ok _ _ _ _ _ Hrun). done. }
  pose proof (withdraw_ok who v reasons liveness s Hs ltac:(lia) ltac:(unfold gap in Hgap; lia)) as Hw'.
  destruct (withdraw_error s who v reasons liveness).
  - rewrite Hw'. exists (Some v), s. split_and!; [done|done|]. by intros a [= <-].
  - destruct Hw' as (s1&->&Hok1&Hg1&_). destruct (drop_positive_ok (E := E) 0 s1 Hok1 ltac:(lia)) as (s'&Hrun&Hb&_).
    exists None, s'. split_and!; [|done|done]. unfold drop_offset_positive, imbalance_offset. rewrite (proj2 (Z.leb_le v v)), Z.sub_diag by lia.
    by rewrite (bind_Ok _ _ _ _ _ Hrun).
Qed.

Lemma resolve_into_existing_ok {E} who v s :
  ok s → 0 ≤ v → gap s = - v →
  ∃ o s', resolve_into_existing (E := E) w ED who v s = (Ok o, s') ∧ (o = None → balanced s') ∧ (∀ a, o = Some a → a = v ∧ s' = s).
Proof using All.
  intros Hs Hv Hgap. unfold resolve_into_existing. destruct (decide (v = 0)) as [->|Hv0].
  { destruct (drop_negative_ok (E := E) 0 s Hs Hgap) as (s'&Hrun&Hb&_). exists None, s'. split_and!; [|done|done].
    change (deposit_into_existing w ED who 0 s) with (Ok 0 : result Error Z, s). cbv beta iota. unfold drop_offset_negative, imbalance_offset.
    rewrite (bind_Ok _ _ _ _ _ Hrun). done. }
  pose proof (deposit_into_existing_ok w ED Hw HED who v s Hs ltac:(lia) ltac:(unfold gap in Hgap; destruct Hs; lia)) as Hp.
  destruct (fr (account s who) =? 0).
  - rewrite Hp. exists (Some v), s. split_and!; [done|done|by intros a [= <-]].
  - destruct Hp as (s1&->&_&Hok1&Hg1). destruct (drop_negative_ok (E := E) 0 s1 Hok1 ltac:(lia)) as (s'&Hrun&Hb&_).
    exists None, s'. split_and!; [|done|done]. unfold drop_offset_negative, imbalance_offset. rewrite (proj2 (Z.leb_le v v)), Z.sub_diag by lia. by rewrite (bind_Ok _ _ _ _ _ Hrun).
Qed.

(** ** Setting a balance *)

Lemma square_up_eq {E} new old s :
  0 ≤ new → 0 ≤ old ≤ total_issuance s → total_issuance s + new < 2 ^ w → square_up (E := E) w new old s = (Ok tt, set_issuance (λ v, v + new - old) s).
Proof using All.
  intros Hn Ho Hfit. unfold square_up. destruct (Z.ltb_spec old new); [|destruct (Z.ltb_spec new old)].
  - unfold drop_positive, modify, set_issuance, usaturating_add, max_value. do 2 f_equal. lia.
  - unfold drop_negative, modify, set_issuance, saturating_sub. do 2 f_equal. lia.
  - destruct s. unfold set_issuance. cbn. do 2 f_equal. cbn in *. lia.
Qed.

Lemma set_balance_ok who f r s :
  balanced s → 0 ≤ f → 0 ≤ r → total_issuance s + f + r < 2 ^ w →
  ∃ s', set_balance w ED Root who f r s = (Ok tt, s') ∧ balanced s' ∧
    account s' who = (if f + r <? ED then default_account else with_reserved (with_free (account s who) f) r) ∧
    (∀ k, k ≠ who → info s' k = info s k) ∧ locks_map s' = locks_map s.
Proof using All.
  intros [Hs Hgap] Hf Hr Hfit. unfold gap in Hgap. pose proof (account_facts w ED Hw HED s who Hs) as F. unfold set_balance.
  cbn [ensure_root]. rewrite (bind_Ok _ _ s tt s) by done. rewrite uadd_Ok by lia. rewrite (bind_Ok _ _ s (f + r) s) by done. cbv zeta.
  set (f' := if f + r <? ED then 0 else f). set (r' := if f + r <? ED then 0 else r). set (g := λ acc : AccountData, _).
  assert (0 ≤ f' ≤ f ∧ 0 ≤ r' ≤ r ∧ (f' + r' = 0 ∨ ED ≤ f' + r')) as Hfr by (unfold f', r'; destruct (Z.ltb_spec (f + r) ED); lia).
  set (d := with_reserved (with_free (account s who) f') r').
  set (s1 := set_issuance (λ v, v + r' - reserved (account s who)) (set_issuance (λ v, v + f' - free (account s who)) s)).
  assert (g (account s who) s = (Ok ((f', r'), d), s1)) as Hg.
  { unfold g. unfold fr in *. rewrite (bind_Ok _ _ _ _ _ (square_up_eq f' (free (account s who)) s ltac:(lia) ltac:(lia) ltac:(lia))).
    rewrite (bind_Ok _ _ _ _ _ (square_up_eq r' (reserved (account s who)) (set_issuance (λ v, v + f' - free (account s who)) s) ltac:(lia) ltac:(cbn; lia) ltac:(cbn; lia))). done. }
  assert (fr d = f' + r') as Ed by done. assert (nonneg d) as Hnd by (unfold nonneg, d; cbn; lia).
  assert (ok s1) as Hok1 by (destruct Hs; constructor; cbn; unfold fr in *; try done; lia).
  destruct (try_mutate_account_Ok w ED who g s (f', r') d s1 Hg) as (s2&Hrun2&Hc); [apply Hok1|]. rewrite (bind_Ok _ _ _ _ _ Hrun2).
  destruct (commit_gap w ED Hw HED who _ d s1 s2 Hok1 Hc Hnd) as [Hok2 Hg2]; [rewrite Ed; cbn; lia|rewrite Ed; destruct Hok1; lia|].
  destruct (deposit_event_Ok (E := CallError) (BalanceSet who f' r') s2) as (s3&Hev&E1&E2&E3). exists s3. rewrite Hev.
  assert (∀ k, info s3 k = info s2 k) as Einfo by (intros k; unfold info; by rewrite E1).
  split_and!; [done| | |..].
  - apply (same_books s2); [|done|done]. split; [done|]. rewrite Hg2, Ed. change (account s1 who) with (account s who).
    unfold gap, s1, fr. cbn [set_issuance accounts total_issuance]. lia.
  - unfold account. rewrite Einfo. fold (account s2 who). rewrite (commit_same w ED Hw HED who _ d s1 s2 Hc Hnd) by lia. rewrite Ed.
    unfold d, f', r'. destruct (Z.ltb_spec (f + r) ED); [by rewrite (proj2 (Z.ltb_lt _ _)) by lia|by rewrite (proj2 (Z.ltb_ge _ _)) by lia].
  - intros k Hk. rewrite Einfo. by apply (commit_other w ED who _ d s1 s2 k Hc).
  - rewrite E3. by destruct Hc.
Qed.

(** ** Operations *)

Local Abbreviation M := (M (AccountId := AccountId)).

(** The calls and the operations that other modules use, with the imbalance that
    is left over dropped. *)
Inductive Op : Type :=
  | OpTransfer (origin : Origin (AccountId := AccountId)) (dest : AccountId) (value : Z)
  | OpTransferKeepAlive (origin : Origin (AccountId := AccountId)) (dest : AccountId) (value : Z)
  | OpForceTransfer (origin : Origin (AccountId := AccountId)) (source dest : AccountId) (value : Z)
  | OpSetBalance (origin : Origin (AccountId := AccountId)) (who : AccountId) (new_free new_reserved : Z)
  | OpSlash (who : AccountId) (value : Z)
  | OpSlashReserved (who : AccountId) (value : Z)
  | OpWithdraw (who : AccountId) (value reasons : Z) (liveness : ExistenceRequirement)
  | OpDeposit (who : AccountId) (value : Z)
  | OpDepositCreating (who : AccountId) (value : Z)
  | OpMakeFree (who : AccountId) (value : Z)
  | OpIssue (who : AccountId) (value : Z)
  | OpIssueExisting (who : AccountId) (value : Z)
  | OpBurn (who : AccountId) (value reasons : Z) (liveness : ExistenceRequirement)
  | OpReserve (who : AccountId) (value : Z)
  | OpUnreserve (who : AccountId) (value : Z)
  | OpRepatriate (slashed beneficiary : AccountId) (value : Z) (status : BalanceStatus)
  | OpSetLock (id : Z) (who : AccountId) (amount reasons : Z)
  | OpExtendLock (id : Z) (who : AccountId) (amount reasons : Z)
  | OpRemoveLock (id : Z) (who : AccountId).

Definition exec (op : Op) : M CallError unit :=
  match op with
  | OpTransfer origin dest value => transfer w ED origin dest value
  | OpTransferKeepAlive origin dest value => transfer_keep_alive w ED origin dest value
  | OpForceTransfer origin source dest value => force_transfer w ED origin source dest value
  | OpSetBalance origin who new_free new_reserved => set_balance w ED origin who new_free new_reserved
  | OpSlash who value => '(imbalance, _) ← slash w ED who value; drop_negative imbalance
  | OpSlashReserved who value => '(imbalance, _) ← slash_reserved w ED who value; drop_negative imbalance
  | OpWithdraw who value reasons liveness => imbalance ← of_module (withdraw w ED who value reasons liveness); drop_negative imbalance
  | OpDeposit who value => imbalance ← of_module (deposit_into_existing w ED who value); drop_positive w imbalance
  | OpDepositCreating who value => imbalance ← deposit_creating w ED who value; drop_positive w imbalance
  | OpMakeFree who value =>
      imbalance ← make_free_balance_be w ED who value;
      match imbalance with Positive a => drop_positive w a | Negative a => drop_negative a end
  | OpIssue who value => v ← issue w value; resolve_creating w ED who v
  | OpIssueExisting who value =>
      v ← issue w value;
      o ← resolve_into_existing w ED who v;
      match o with Some a => drop_negative a | None => mret tt end
  | OpBurn who value reasons liveness =>
      p ← burn value;
      o ← settle w ED who p reasons liveness;
      match o with Some a => drop_positive w a | None => mret tt end
  | OpReserve who value => of_module (reserve w ED who value)
  | OpUnreserve who value => unreserve w ED who value ;; mret tt
  | OpRepatriate slashed beneficiary value status => of_module (repatriate_reserved w ED slashed beneficiary value status) ;; mret tt
  | OpSetLock id who amount reasons => set_lock w ED id who amount reasons
  | OpExtendLock id who amount reasons => extend_lock w ED id who amount reasons
  | OpRemoveLock id who => remove_lock w ED id who
  end.

(** Amounts are balances; what is minted without [issue] must leave the total
    issuance in range. *)
Definition valid (op : Op) s : bool :=
  match op with
  | OpTransfer _ _ value | OpTransferKeepAlive _ _ value | OpForceTransfer _ _ _ value
  | OpSlash _ value | OpSlashReserved _ value | OpWithdraw _ value _ _ | OpBurn _ value _ _
  | OpReserve _ value | OpUnreserve _ value | OpRepatriate _ _ value _ => 0 <=? value
  | OpIssue _ value | OpIssueExisting _ value => (0 <=? value) && (value <? 2 ^ w)
  | OpDeposit _ value | OpDepositCreating _ value | OpMakeFree _ value => (0 <=? value) && (total_issuance s + value <? 2 ^ w)
  | OpSetBalance _ _ f r => (0 <=? f) && (0 <=? r) && (total_issuance s + f + r <? 2 ^ w)
  | OpSetLock _ _ _ _ | OpExtendLock _ _ _ _ | OpRemoveLock _ _ => true
  end.

(** An operation succeeds with the books in balance, or fails without a trace. *)
Definition settled {E A} s (x : result E A * State) : Prop :=
  match x with
  | (Ok _, s') => balanced s'
  | (Err _, s') => s' = s
  | (Panic, _) => False
  end.

Lemma post_settled_negative {E F A} (x : M E A) (g : A → Z) (f : A → M F unit) s :
  balanced s → post w ED (λ a, - g a) s (x s) → (∀ a s', f a s' = drop_negative (g a) s') →
  match x s with (Ok a, s') => settled s (f a s') | (Err _, s') => s' = s | (Panic, _) => False end.
Proof using All.
  intros [_ Hgap] Hp Hf. unfold post in Hp. destruct (x s) as [[a|e|] s1]; cbn [fst snd] in Hp; [|done..]. destruct Hp as [Hok Hg].
  rewrite Hf. destruct (drop_negative_ok (E := F) (g a) s1 Hok ltac:(lia)) as (s'&->&Hb&_). done.
Qed.

Lemma of_module_settled {A} (x : M Error A) (f : A → M CallError unit) s :
  match x s with (Ok a, s') => settled s (f a s') | (Err _, s') => s' = s | (Panic, _) => False end → settled s ((of_module x ≫= f) s).
Proof using. unfold of_module, mbind, M_bind. destruct (x s) as [[a|e|] s1]; done. Qed.

Lemma bind_settled {E A} (x : M E A) (f : A → M E unit) s :
  match x s with (Ok a, s') => settled s (f a s') | (Err _, s') => s' = s | (Panic, _) => False end → settled s ((x ≫= f) s).
Proof using. unfold mbind, M_bind. destruct (x s) as [[a|e|] s1]; done. Qed.

Lemma transfer_settled transactor dest value req s :
  balanced s → 0 ≤ value → settled s (of_module (currency_transfer w ED transactor dest value req) s).
Proof using All.
  intros Hb Hv. unfold of_module, settled. destruct (decide (value = 0 ∨ transactor = dest)) as [Hno|Hyes].
  - unfold currency_transfer. assert ((value =? 0) || bool_decide (transactor = dest) = true) as ->; [|done].
    destruct Hno as [-> | ->]; [done|]. rewrite bool_decide_true by done. by rewrite orb_true_r.
  - pose proof (transfer_ok w ED Hw HED transactor dest value req s Hb) as Ht. destruct (transfer_error _ _ _ _ _ _).
    + by rewrite Ht by naive_solver lia.
    + destruct Ht as (s'&->&Hb'&_); [naive_solver lia..|]. done.
Qed.

Lemma lock_settled {E} merge id who amount reasons s : balanced s → settled s (put_lock (E := E) w ED merge id who amount reasons s).
Proof using All.
  intros Hb. destruct (decide (amount = 0 ∨ reasons = 0)) as [Hno|Hyes].
  - unfold put_lock. assert ((amount =? 0) || (reasons =? 0) = true) as ->; [|done]. destruct Hno as [-> | ->]; [done|]. by rewrite orb_true_r.
  - destruct (put_lock_ok (E := E) merge id who amount reasons s Hb) as (s'&->&Hb'&_); [naive_solver..|]. done.
Qed.

(** [issue] and [burn] create the imbalance they return. *)
Lemma issue_ok {E} value s : balanced s → 0 ≤ value → ∃ v s', issue (E := E) w value s = (Ok v, s') ∧ ok s' ∧ 0 ≤ v ≤ value ∧ gap s' = - v ∧ accounts s' = accounts s.
Proof using All.
  intros [Hs Hgap] Hv. pose proof (supply_nonneg ED _ (ok_accounts _ _ _ Hs)). unfold gap in Hgap. unfold issue. destruct (Z.eqb_spec value 0) as [->|Hv0].
  - exists 0, s. by split_and!.
  - unfold gets. rewrite (bind_Ok _ _ s (total_issuance s) s) by done. unfold checked_add. destruct Hs as [H1 H2 H3].
    destruct (Z.ltb_spec (total_issuance s + value) (2 ^ w)).
    + eexists value, _. split; [reflexivity|]. split_and!; try done; try lia; [constructor|unfold gap]; cbn; try done; lia.
    + eexists (max_value w - total_issuance s), _. split; [reflexivity|]. unfold max_value. split_and!; try done; try lia; [constructor|unfold gap]; cbn; unfold max_value; try done; lia.
Qed.

Lemma burn_ok {E} value s : balanced s → 0 ≤ value → ∃ v s', burn (E := E) value s = (Ok v, s') ∧ ok s' ∧ 0 ≤ v ≤ value ∧ gap s' = v.
Proof using All.
  intros [Hs Hgap] Hv. pose proof (supply_nonneg ED _ (ok_accounts _ _ _ Hs)). unfold gap in Hgap. unfold burn. destruct (Z.eqb_spec value 0) as [->|Hv0].
  - exists 0, s. by split_and!.
  - unfold gets. rewrite (bind_Ok _ _ s (total_issuance s) s) by done. unfold checked_sub. destruct Hs as [H1 H2 H3].
    destruct (Z.leb_spec value (total_issuance s)).
    + eexists value, _. split; [reflexivity|]. split_and!; try done; try lia; [constructor|unfold gap]; cbn; try done; lia.
    + eexists (total_issuance s), _. split; [reflexivity|]. split_and!; try done; try lia; [constructor|unfold gap]; cbn; try done; lia.
Qed.

(** Minting without [issue]. *)
Lemma exec_mint who value s :
  balanced s → 0 ≤ value → total_issuance s + value < 2 ^ w →
  settled s (exec (OpDeposit who value) s) ∧ settled s (exec (OpDepositCreating who value) s) ∧ settled s (exec (OpMakeFree who value) s).
Proof using All.
  intros Hb Hv Hfit. pose proof Hb as [Hs Hgap]. unfold gap in Hgap.
  assert (∀ (a : Z) s', ok s' → gap s' = a → settled s ((drop_positive w a : M CallError unit) s')) as Hpos.
  { intros a s' Hok Hg. destruct (drop_positive_ok (E := CallError) a s' Hok Hg) as (s2&->&Hb2&_). done. }
  assert (∀ (a : Z) s', ok s' → gap s' = - a → settled s ((drop_negative a : M CallError unit) s')) as Hneg.
  { intros a s' Hok Hg. destruct (drop_negative_ok (E := CallError) a s' Hok Hg) as (s2&->&Hb2&_). done. }
  split_and!; cbn [exec].
  - apply of_module_settled. destruct (decide (value = 0)) as [->|Hv0]; [by apply Hpos|].
    pose proof (deposit_into_existing_ok w ED Hw HED who value s Hs ltac:(lia) ltac:(lia)) as Hd. destruct (fr (account s who) =? 0); [by rewrite Hd|].
    destruct Hd as (s1&->&_&Hok1&Hg1). apply Hpos; [done|]. unfold gap in *. lia.
  - apply bind_settled. destruct (decide (value = 0)) as [->|Hv0]; [by apply Hpos|].
    destruct (deposit_creating_ok w ED Hw HED (E := CallError) who value s Hs ltac:(lia) ltac:(lia)) as (s1&->&Hd). destruct (creates ED s who value).
    + destruct Hd as (_&Hok1&Hg1). apply Hpos; [done|]. unfold gap in *. lia.
    + subst s1. by apply Hpos.
  - apply bind_settled. destruct (make_free_balance_be_ok w ED Hw HED (E := CallError) who value s Hs Hv ltac:(lia) ltac:(unfold gap; lia)) as ([a|a]&s1&->&Hok1&Hg1&_).
    + apply Hpos; [done|]. unfold gap in *. lia.
    + apply Hneg; [done|]. unfold gap in *. lia.
Qed.

(** Issuing into an account and burning from one. *)
Lemma exec_issue who value s :
  balanced s → 0 ≤ value → settled s (exec (OpIssue who value) s) ∧ settled s (exec (OpIssueExisting who value) s).
Proof using All.
  intros Hb Hv. destruct (issue_ok (E := CallError) value s Hb Hv) as (v&s1&Hrun&Hok1&Hv1&Hg1&_). split; cbn [exec].
  - rewrite (bind_Ok _ _ _ _ _ Hrun). destruct (resolve_creating_gap (E := CallError) who v s1 Hok1 ltac:(lia) ltac:(lia)) as (s2&->&Hok2&Hg2&_). split; [done|lia].
  - rewrite (bind_Ok _ _ _ _ _ Hrun). destruct (resolve_into_existing_ok (E := CallError) who v s1 Hok1 ltac:(lia) Hg1) as (o&s2&Hrun2&Hn&Hsome).
    rewrite (bind_Ok _ _ _ _ _ Hrun2). destruct o as [a|]; [|by apply Hn]. destruct (Hsome a eq_refl) as [-> ->].
    destruct (drop_negative_ok (E := CallError) v s1 Hok1 Hg1) as (s3&->&Hb3&_). done.
Qed.

Lemma exec_burn who value reasons liveness s : balanced s → 0 ≤ value → settled s (exec (OpBurn who value reasons liveness) s).
Proof using All.
  intros Hb Hv. destruct (burn_ok (E := CallError) value s Hb Hv) as (v&s1&Hrun&Hok1&Hv1&Hg1). cbn [exec]. rewrite (bind_Ok _ _ _ _ _ Hrun).
  destruct (settle_ok (E := CallError) who v reasons liveness s1 Hok1 ltac:(lia) Hg1) as (o&s2&Hrun2&Hn&Hsome). rewrite (bind_Ok _ _ _ _ _ Hrun2).
  destruct o as [a|]; [|by apply Hn]. destruct (Hsome a eq_refl) as [-> ->].
  destruct (drop_positive_ok (E := CallError) v s1 Hok1 Hg1) as (s3&->&Hb3&_). done.
Qed.

Lemma exec_ok op s : balanced s → valid op s = true → settled s (exec op s).
Proof using All.
  intros Hb Hval. pose proof Hb as [Hs Hgap]. assert (gap s ≤ 0) as Hgap0 by lia. assert (supply (accounts s) = total_issuance s) as Hsup by (unfold gap in Hgap; lia).
  destruct op; cbn [valid] in Hval; rewrite ?andb_true_iff, ?Z.leb_le, ?Z.ltb_lt in Hval.
  all: try (by apply exec_mint; tauto). all: try (by apply exec_issue; tauto). all: try (by apply exec_burn).
  all: try (by apply lock_settled).
  - cbn [exec]. unfold transfer. destruct origin; [done| |done]. by apply transfer_settled.
  - cbn [exec]. unfold transfer_keep_alive. destruct origin; [done| |done]. by apply transfer_settled.
  - cbn [exec]. unfold force_transfer. destruct origin; [|done..]. by apply transfer_settled.
  - cbn [exec]. destruct origin; [|done..]. destruct (set_balance_ok who new_free new_reserved s Hb) as (s'&->&Hb'&_); [tauto..|]. done.
  - cbn [exec]. apply bind_settled. apply (post_settled_negative _ (λ a, a.1)); [done| |by intros []]. apply slash_post; [done..|lia].
  - cbn [exec]. apply bind_settled. apply (post_settled_negative _ (λ a, a.1)); [done| |by intros []]. by apply slash_reserved_post.
  - cbn [exec]. apply of_module_settled. apply (post_settled_negative _ (λ a, a)); [done| |done]. apply withdraw_post; [done..|lia].
  - cbn [exec]. pose proof (reserve_ok w ED Hw HED who value s Hb) as Hr. unfold of_module. destruct (decide (value = 0)) as [->|]; [done|].
    specialize (Hr ltac:(lia)). destruct (reserve_error s who value); [by rewrite Hr|]. destruct Hr as (s'&->&Hb'&_). done.
  - cbn [exec]. apply bind_settled. pose proof (unreserve_post w ED Hw HED (E := CallError) who value s Hs Hval Hgap0) as Hp. unfold post in Hp.
    destruct (unreserve w ED who value s) as [[r|e|] s1]; cbn [fst snd] in Hp; [|done..]. split; [easy|lia].
  - cbn [exec]. apply of_module_settled. pose proof (repatriate_post w ED Hw HED slashed beneficiary value status s Hb Hval) as Hp.
    destruct (repatriate_reserved w ED slashed beneficiary value status s) as [[r|e|] s1]; done.
  - cbn [exec]. destruct (remove_lock_ok (E := CallError) id who s Hb) as (s'&->&Hb'&_). done.
Qed.

(** ** Genesis *)

Lemma genesis_supply (bs : list (AccountId * Z)) m acc total :
  NoDup bs.*1 → (∀ b, b ∈ bs → m !! b.1 = None) → supply m = acc → foldl_m (λ acc b, uadd w acc b.2) acc bs = Ok total →
  supply (foldl (λ m b, <[b.1 := MkInfo 0 0 (MkAccount b.2 0 0 0)]> m) m bs) = total.
Proof using All.
  revert m acc. induction bs as [|[a v] bs IH]; intros m acc Hnd Hfresh Hsup Hrun; [by injection Hrun as <-|].
  cbn [foldl foldl_m fst snd fmap list_fmap] in *. apply NoDup_cons in Hnd as [Hni Hnd]. unfold uadd, checked_add in Hrun.
  destruct (acc + v <? 2 ^ w); [|done]. cbn [expect mbind result_bind] in Hrun. apply (IH _ (acc + v)); [done| | |done].
  - intros b Hb. rewrite lookup_insert_ne; [apply Hfresh; by right|]. intros E. apply Hni. rewrite E. by apply list_elem_of_fmap_2.
  - rewrite supply_fresh by (apply (Hfresh (a, v)); by left). unfold funds. cbn. lia.
Qed.

Lemma genesis_total (bs : list (AccountId * Z)) acc total :
  (∀ b, b ∈ bs → 0 ≤ b.2) → 0 ≤ acc < 2 ^ w → foldl_m (λ acc b, uadd w acc b.2) acc bs = Ok total → 0 ≤ total < 2 ^ w.
Proof using All.
  revert acc. induction bs as [|b bs IH]; intros acc Hpos Hacc Hrun; [by injection Hrun as <-|]. cbn [foldl_m] in Hrun. unfold uadd, checked_add in Hrun.
  destruct (Z.ltb_spec (acc + b.2) (2 ^ w)); [|done]. cbn [expect mbind result_bind] in Hrun. pose proof (Hpos b ltac:(by left)).
  apply (IH (acc + b.2)); [intros b' Hb'; apply Hpos; by right|lia|done].
Qed.

Lemma genesis_accounts (bs : list (AccountId * Z)) m :
  accounts_ok ED m → (∀ b, b ∈ bs → ED ≤ b.2) → accounts_ok ED (foldl (λ m b, <[b.1 := MkInfo 0 0 (MkAccount b.2 0 0 0)]> m) m bs).
Proof using All.
  revert m. induction bs as [|b bs IH]; intros m Hm Hed; [done|]. cbn [foldl]. pose proof (Hed b ltac:(by left)).
  apply IH; [|intros b' Hb'; apply Hed; by right]. apply (accounts_ok_put ED m b.1 (Some _) Hm). intros a [= <-]. unfold data_ok. cbn. lia.
Qed.

(** The accounts are new, so they start without nonce and references. *)
Lemma genesis_state (bs : list (AccountId * Z)) s :
  (∀ k a, accounts s !! k = Some a → nonce a = 0 ∧ refcount a = 0) →
  let s' := foldl (λ s b, (account_insert (E := Empty_set) b.1 (MkAccount b.2 0 0 0) s).2) s bs in
  accounts s' = foldl (λ m b, <[b.1 := MkInfo 0 0 (MkAccount b.2 0 0 0)]> m) (accounts s) bs ∧
  total_issuance s' = total_issuance s ∧ locks_map s' = locks_map s.
Proof using.
  revert s. induction bs as [|[k v] bs IH]; intros s Hs; [done|]. cbn [foldl fst snd].
  assert (info s k = MkInfo 0 0 (data (info s k))) as Hi.
  { unfold info. destruct (accounts s !! k) as [[n r d]|] eqn:Hk; [|done]. cbn. by destruct (Hs k _ Hk) as [[= ->] [= ->]]. }
  set (s1 := (account_insert k _ s).2).
  assert (accounts s1 = <[k := MkInfo 0 0 (MkAccount v 0 0 0)]> (accounts s) ∧
    total_issuance s1 = total_issuance s ∧ locks_map s1 = locks_map s) as (Ha&Ht&Hl).
  { subst s1. unfold account_insert. mrun. rewrite Hi. by destruct (is_explicit s k). }
  destruct (IH s1) as (->&->&->); [|by rewrite Ha, Ht, Hl].
  intros k' a. rewrite Ha. intros [[_ <-]|[_ ?]]%lookup_insert_Some; [done|by apply (Hs k')].
Qed.

Lemma genesis_ok balances s : NoDup balances.*1 → genesis w ED balances = Ok s → balanced s.
Proof using All.
  intros Hnd Hg. unfold genesis in Hg. destruct ((0 <? ED) && _) eqn:Hb; [|done]. apply andb_prop in Hb as [_ Hb].
  assert (∀ b, b ∈ balances → ED ≤ b.2) as Hed by (intros b Hin; apply Z.leb_le; eapply forallb_forall in Hb; [exact Hb|by apply list_elem_of_In]).
  destruct (foldl_m _ 0 balances) as [t| |] eqn:Ht; cbn [mbind result_bind] in Hg; [|done..]. injection Hg as <-.
  pose proof (genesis_supply balances ∅ 0 t Hnd ltac:(intros; apply lookup_empty) ltac:(done) Ht) as Hs.
  assert (0 ≤ t < 2 ^ w) as Hr.
  { apply (genesis_total balances 0 t); [intros b Hin; specialize (Hed b Hin); lia|split; [lia|apply Z.pow_pos_nonneg; lia]|done]. }
  destruct (genesis_state balances (MkState ∅ t ∅ [])) as (Ha&Hi&_); [intros k a; cbn; by rewrite lookup_empty|].
  split; [constructor|unfold gap]; rewrite ?Ha, ?Hi; cbn; [|lia..]. by apply genesis_accounts.
Qed.

Lemma genesis_locks balances s : genesis w ED balances = Ok s → locks_map s = ∅.
Proof using.
  unfold genesis. destruct (_ && _); [|done]. destruct (foldl_m _ 0 balances) as [t| |]; [|done..]. intros [= <-].
  apply (genesis_state balances (MkState ∅ t ∅ [])). intros k a. cbn. by rewrite lookup_empty.
Qed.

End history.

(** ** Theorems *)

Section theorems.
Context {AccountId : Type} `{Countable AccountId} (w ED : Z).
Implicit Types (who : AccountId) (s : State (AccountId := AccountId)).

(** C22. A transfer between two accounts on books that balance: it fails exactly
    when the sender's free balance is too low, the receiver would stay below the
    existential deposit, the sender's locks forbid it, or it would kill a sender
    that has to stay alive, checked in this order, and a failed transfer changes
    nothing.  Otherwise the receiver has the value more, the sender the value less,
    or nothing and no entry if less than the existential deposit would be left, no
    other account and no lock changes, and the books balance again.  The receiver's
    balance never overflows and nothing panics. *)
Theorem transfer_correct transactor dest value req s :
  32 ≤ w → 0 < ED → balanced w ED s → 0 < value → transactor ≠ dest →
  let from := account s transactor in
  let to := account s dest in
  let error :=
    if free from <? value then Some InsufficientBalance
    else if fr to + value <? ED then Some ExistentialDepositError
    else if free from - value <? misc_frozen from then Some LiquidityRestrictions
    else if negb (bool_decide (req = AllowDeath) && allow_death s transactor) && (free from - value <? ED) then Some KeepAliveError
    else None in
  match error with
  | Some e => currency_transfer w ED transactor dest value req s = (Err e, s)
  | None =>
      ∃ s', currency_transfer w ED transactor dest value req s = (Ok tt, s') ∧ balanced w ED s' ∧
        (let from' := with_free from (free from - value) in account s' transactor = if fr from' <? ED then default_account else from') ∧
        account s' dest = with_free to (free to + value) ∧
        (∀ who, who ≠ dest → who ≠ transactor → info s' who = info s who) ∧ locks_map s' = locks_map s
  end.
Proof. intros Hw HED. apply transfer_ok; done. Qed.

(** C21. Every call of the module and every operation it offers to other modules,
    with the imbalance it leaves dropped, on books that balance: it never panics;
    if it fails, no account, lock, issuance or event has changed; and if it
    succeeds the books balance again, as long as amounts are balances and what is
    minted leaves the total issuance in range. *)
Theorem operations_settle op s :
  32 ≤ w → 0 < ED → balanced w ED s → valid w op s = true →
  match exec w ED op s with
  | (Ok _, s') => balanced w ED s'
  | (Err _, s') => s' = s
  | (Panic, _) => False
  end.
Proof. intros Hw HED. by apply exec_ok. Qed.

(** What was reserved can be unreserved: after a successful [reserve],
    [unreserve] of the same amount returns everything, and every account is as it
    was before. *)
Theorem reserve_roundtrip {E} who value s s' :
  32 ≤ w → 0 < ED → balanced w ED s → 0 < value → reserve w ED who value s = (Ok tt, s') →
  ∃ s'', unreserve (E := E) w ED who value s' = (Ok 0, s'') ∧ balanced w ED s'' ∧ account s'' who = account s who ∧
    ∀ k, k ≠ who → info s'' k = info s k.
Proof. intros Hw HED. apply reserve_unreserve; done. Qed.

(** [set_lock] on an account with funds: afterwards the new lock is the only
    one with its identifier and all others are kept, the frozen amounts are the
    largest of the locks for fees and of those for anything else, balances do not
    change, and a withdrawal for a purpose the lock covers that would leave less
    than the locked amount fails, with the state unchanged. *)
Theorem set_lock_correct {E} id who amount reasons s :
  32 ≤ w → 0 < ED → balanced w ED s → fr (account s who) ≠ 0 → amount ≠ 0 → reasons ≠ 0 →
  let nl := MkLock id amount (reasons_from reasons) in
  ∃ s', set_lock (E := E) w ED id who amount reasons s = (Ok tt, s') ∧ balanced w ED s' ∧
    (∀ l, l ∈ locks s' who ↔ (lock_id l ≠ id ∧ l ∈ locks s who) ∨ l = nl) ∧
    account s' who = MkAccount (free (account s who)) (reserved (account s who)) (locked Misc (locks s' who)) (locked Fee (locks s' who)) ∧
    (∀ value purpose liveness, 0 < value → covers (reasons_from purpose) nl ∧ reasons_from purpose ≠ All →
       free (account s' who) - value < amount →
       ∃ e, withdraw w ED who value purpose liveness s' = (Err e, s')).
Proof.
  intros Hw HED Hb Hlive Ha Hr nl. destruct (put_lock_ok w ED Hw HED (E := E) (λ _ nl, nl) id who amount reasons s Hb Ha Hr) as (s'&Hrun&Hb'&Hel&Hacc&_).
  exists s'. specialize (Hacc Hlive). unfold new_lock in Hel. assert (∀ l, l ∈ locks s' who ↔ (lock_id l ≠ id ∧ l ∈ locks s who) ∨ l = nl) as Hel'.
  { intros l. rewrite Hel. by destruct (first_lock _ _). }
  split_and!; try done. intros value purpose liveness Hv [Hcov Hall] Hlow.
  pose proof (withdraw_ok w ED Hw HED who value purpose liveness s' (proj1 Hb') Hv ltac:(destruct Hb' as [_ Hg]; unfold gap in Hg; lia)) as Hwd.
  assert (amount ≤ frozen (account s' who) (reasons_from purpose)) as Hfrozen.
  { assert (nl ∈ locks s' who) as Hin by (apply Hel'; by right). pose proof (locked_in _ nl _ Hin Hcov) as Hl. rewrite Hacc. destruct (reasons_from purpose); done. }
  destruct (withdraw_error ED s' who value purpose liveness) as [e|] eqn:He; [by exists e|].
  unfold withdraw_error in He. destruct (_ <? value); [done|]. destruct (_ && _); [done|]. destruct (Z.ltb_spec (free (account s' who) - value) (frozen (account s' who) (reasons_from purpose))); [done|lia].
Qed.

End theorems.

(** ** A small chain *)

Module SmallChain.

Definition start : State (AccountId := nat) :=
  match genesis 128 10 [(1%nat, 100); (2%nat, 50)] with Ok s => s | _ => MkState ∅ 0 ∅ [] end.

Lemma start_genesis : genesis 128 10 [(1%nat, 100); (2%nat, 50)] = Ok start.
Proof. vm_compute. reflexivity. Qed.

Lemma start_balanced : balanced 128 10 start.
Proof.
  apply (genesis_ok 128 10 ltac:(lia) ltac:(lia) [(1%nat, 100); (2%nat, 50)]); [|exact start_genesis].
  by apply (bool_decide_unpack _); vm_compute.
Qed.

Lemma transfer_correct_witness :
  ∃ s', currency_transfer 128 10 1%nat 2%nat 95 AllowDeath start = (Ok tt, s') ∧ account s' 1%nat = default_account ∧ account s' 2%nat = MkAccount 145 0 0 0.
Proof.
  pose proof (transfer_correct 128 10 1%nat 2%nat 95 AllowDeath start ltac:(lia) ltac:(lia) start_balanced ltac:(lia) ltac:(lia)) as T.
  cbv zeta in T. match type of T with match ?e with _ => _ end => assert (e = None) as He by (vm_compute; reflexivity); rewrite He in T end.
  destruct T as (s'&Hrun&_&Hf&Ht&_). exists s'. split; [exact Hrun|]. split; [rewrite Hf|rewrite Ht]; vm_compute; reflexivity.
Defined.

Lemma operations_settle_witness :
  valid 128 (OpReserve 1%nat 40) start = true ∧
  match exec 128 10 (OpReserve 1%nat 40) start with (Ok _, s') => balanced 128 10 s' | (Err _, s') => s' = start | (Panic, _) => False end.
Proof.
  split; [vm_compute; reflexivity|].
  apply (operations_settle 128 10 (OpReserve 1%nat 40) start); [lia|lia|exact start_balanced|vm_compute; reflexivity].
Defined.

(** The state after a reservation of 40. *)
Definition after_reserve : State (AccountId := nat) := (reserve 128 10 1%nat 40 start).2.

Lemma reserve_roundtrip_witness :
  ∃ s'', unreserve (E := Empty_set) 128 10 1%nat 40 after_reserve = (Ok 0, s'') ∧ account s'' 1%nat = account start 1%nat.
Proof.
  destruct (reserve_roundtrip 128 10 (E := Empty_set) 1%nat 40 start after_reserve) as (s''&Hrun&_&Ha&_);
    [lia|lia|exact start_balanced|lia|vm_compute; reflexivity|].
  exists s''. split; [exact Hrun|exact Ha].
Defined.

Lemma set_lock_correct_witness :
  ∃ s', set_lock (E := Empty_set) 128 10 7 1%nat 60 Transfer start = (Ok tt, s') ∧ MkLock 7 60 Misc ∈ locks s' 1%nat ∧
    ∃ e, withdraw 128 10 1%nat 41 Transfer AllowDeath s' = (Err e, s').
Proof.
  destruct (set_lock_correct 128 10 (E := Empty_set) 7 1%nat 60 Transfer start) as (s'&Hrun&_&Hel&Hacc&Hlock);
    [lia|lia|exact start_balanced|vm_compute; discriminate|lia|vm_compute; discriminate|].
  exists s'. split; [exact Hrun|]. split; [apply Hel; by right|]. apply Hlock; [lia|split; [by right|done]|].
  rewrite Hacc. cbn [free]. assert (free (account start 1%nat) = 100) as -> by (vm_compute; reflexivity). lia.
Defined.

(** ** Behaviours that the documentation does not mention *)

(** A lock of 60 is set on an account, the account is slashed away and funded
    again. *)
Definition forgotten : State (AccountId := nat) :=
  let s1 := (set_lock (E := Empty_set) 128 10 7 1%nat 60 Transfer start).2 in
  let s2 := (exec 128 10 (OpSlash 1%nat 100) s1).2 in
  (exec 128 10 (OpDepositCreating 1%nat 100) s2).2.

(** The lock is still listed but nothing is frozen any more. *)
Lemma lock_forgotten :
  locks forgotten 1%nat = [MkLock 7 60 Misc] ∧ account forgotten 1%nat = MkAccount 100 0 0 0 ∧ refcount (info forgotten 1%nat) = 0.
Proof. vm_compute. done. Qed.

(** Slashing an account that does not exist reports that it was endowed. *)
Lemma slash_endows_nobody :
  let s := (slash (E := Empty_set) 128 10 3%nat 5 start).2 in events s = events start ++ [Endowed 3%nat 0] ∧ is_explicit s 3%nat = false.
Proof. vm_compute. done. Qed.

(** A lock on an account without funds brings it into existence. *)
Lemma lock_revives :
  let s := (set_lock (E := Empty_set) 128 10 7 3%nat 60 Transfer start).2 in is_dead_account s 3%nat = false ∧ total_balance 128 s 3%nat = 0.
Proof. vm_compute. done. Qed.

(** An account that is listed twice at genesis keeps the last balance, but the
    issuance has both. *)
Lemma genesis_twice :
  ∃ s : State (AccountId := nat), genesis 128 10 [(1%nat, 100); (1%nat, 50)] = Ok s ∧ total_issuance s = 150 ∧ supply (accounts s) = 50.
Proof. eexists. vm_compute. done. Qed.

End SmallChain.
