(* ===== verification/Payment.v ===== *)
(** * Charging the fee of a transaction

    [ChargeTransactionPayment::validate] (src/frame/transaction-payment/src/lib.rs)
    withdraws the fee from the sender; the node runtime
    (src/bin/node/runtime/src/lib.rs, [DealWithFees]) splits it between the
    treasury (src/frame/treasury/src/lib.rs) and the author of the block
    (src/bin/node/runtime/src/impls.rs). *)
From S2P Require Import Prelude PerThings Fixed64 Balances.

Local Open Scope Z_scope.

(** [InvalidTransaction::Payment] *)
Inductive PaymentError : Type := InvalidPayment.

Section payment.
Context {AccountId : Type} `{Countable AccountId}.
Context (w ExistentialDeposit : Z).
Context (TransactionBaseFee TransactionByteFee MaximumBlockWeight : Z) (WeightToFee : Z → Z).
(** The accounts of the treasury and of the block's author. *)
Context (treasury author : AccountId).

Local Abbreviation M := (M (AccountId := AccountId)).

(** [OnUnbalanced::on_unbalanced]: a zero imbalance is dropped. *)
Definition on_unbalanced {E} (on_nonzero : Z → M E unit) (amount : Z) : M E unit :=
  if amount =? 0 then drop_negative amount else on_nonzero amount.

Definition treasury_on_nonzero {E} (amount : Z) : M E unit :=
  resolve_creating w ExistentialDeposit treasury amount ;;
  deposit_event (TreasuryDeposit amount).

Definition author_on_nonzero {E} (amount : Z) : M E unit := resolve_creating w ExistentialDeposit author amount.

(** [SplitTwoWays] with four parts for the treasury and one for the author. *)
Definition split_two_ways {E} (amount : Z) : M E unit :=
  let parts1 := 4 in
  let parts2 := 1 in
  let amount1 := usaturating_mul w amount parts1 / (parts1 + parts2) in
  let '(imb1, imb2) := imbalance_split amount amount1 in
  on_unbalanced treasury_on_nonzero imb1 ;;
  on_unbalanced author_on_nonzero imb2.

(** The priority of the transaction. *)
Definition validate (NextFeeMultiplier : Z) (who : AccountId) (tip : Z) (info : DispatchInfo) (len : Z) : M PaymentError Z :=
  fee ← lift_run (compute_fee w TransactionBaseFee TransactionByteFee MaximumBlockWeight WeightToFee NextFeeMultiplier (wrap 32 len) info tip);
  (if negb (fee =? 0) then
     let reasons := if tip =? 0 then TransactionPayment else Z.lor TransactionPayment Tip in
     imbalance ← (λ s,
       match withdraw w ExistentialDeposit who fee reasons KeepAlive s with
       | (Ok v, s') => (Ok v, s')
       | (Err _, s') => (Err InvalidPayment, s')
       | (Panic, s') => (Panic, s')
       end : result PaymentError Z * State (AccountId := AccountId));
     on_unbalanced split_two_ways imbalance
   else mret tt) ;;
  mret (saturated_into 64 fee).

End payment.
