(* ===== verification/PaymentFacts.v ===== *)
(** * A fee is paid in full or not at all *)
From S2P Require Import Prelude PerThings Fixed64 Balances BalancesFacts BalancesHistory Payment.

Local Open Scope Z_scope.

Section payment.
Context {AccountId : Type} `{Countable AccountId}.
Context (w ED : Z) (Hw : 32 ≤ w) (HED : 0 < ED).
Context (base byte max_weight : Z) (to_fee : Z → Z).
Context (Hbase : fits w base) (Hbyte : fits w byte) (Hmax : fits 32 max_weight) (Hfee : ∀ x, fits 32 x → fits w (to_fee x)).
Context (treasury author : AccountId).
Implicit Types (who k : AccountId) (s : State (AccountId := AccountId)).
Local Abbreviation ok := (ok w ED).
Local Abbreviation balanced := (balanced w ED).

(** The share of the treasury. *)
Definition treasury_share (fee : Z) : Z := Z.min (max_value w) (4 * fee) / 5.

Lemma treasury_share_bound fee : 0 ≤ fee < 2 ^ w → 0 ≤ treasury_share fee ≤ fee.
Proof using All.
  intros Hf. unfold treasury_share, max_value. split; [apply Z.div_pos; lia|]. apply Z.div_le_upper_bound; lia.
Qed.

(** Each share goes to its account or, if it is too small to open it, is burnt. *)
Definition receives s who (v : Z) s' : Prop :=
  if (0 <? v) && creates ED s who v then account s' who = with_free (account s who) (free (account s who) + v) ∧ total_issuance s' = total_issuance s
  else account s' who = account s who ∧ total_issuance s' = total_issuance s - v.

Lemma on_unbalanced_ok {E} (on_nonzero : Z → M E unit) who v s :
  ok s → 0 ≤ v → gap s ≤ - v →
  (∀ x, ∃ y, resolve_creating (E := E) w ED who v s = (Ok tt, x) → on_nonzero v s = (Ok tt, y) ∧ accounts y = accounts x ∧ total_issuance y = total_issuance x ∧ locks_map y = locks_map x) →
  ∃ s', on_unbalanced on_nonzero v s = (Ok tt, s') ∧ ok s' ∧ gap s' = gap s + v ∧ (∀ k, k ≠ who → info s' k = info s k) ∧ receives s who v s'.
Proof using All.
  intros Hs Hv Hg Hon. unfold on_unbalanced, receives. destruct (Z.eqb_spec v 0) as [->|Hv0].
  - destruct (drop_negative_gap w ED Hw HED (E := E) 0 s Hs Hv Hg) as (s'&->&Hok&Hg'&Ha&_&Hi). exists s'. cbn [Z.ltb Z.compare andb].
    split_and!; [done|done|done| | |done]; intros; unfold account, info; by rewrite Ha.
  - rewrite (proj2 (Z.ltb_lt 0 v)) by lia. cbn [andb].
    destruct (resolve_creating_gap w ED Hw HED (E := E) who v s Hs Hv Hg) as (s1&Hrun&Hok1&Hg1&Hframe&_&Hacc). specialize (Hacc ltac:(lia)).
    destruct (Hon s1) as (y&Hy). destruct (Hy Hrun) as (->&Ea&Ei&_). exists y. assert (∀ k, info y k = info s1 k) as Einfo by (intros k; unfold info; by rewrite Ea).
    split_and!; [done| | | |].
    + destruct Hok1. constructor; by rewrite ?Ea, ?Ei.
    + unfold gap in *. by rewrite Ea, Ei.
    + intros k Hk. rewrite Einfo. by apply Hframe.
    + unfold account in *. rewrite Einfo, Ei. exact Hacc.
Qed.

Lemma split_two_ways_ok {E} v s :
  ok s → 0 < v → gap s = - v →
  ∃ s1 s2, split_two_ways (E := E) w ED treasury author v s = (Ok tt, s2) ∧ balanced s2 ∧
    receives s treasury (treasury_share v) s1 ∧ receives s1 author (v - treasury_share v) s2 ∧
    (∀ k, k ≠ treasury → info s1 k = info s k) ∧ (∀ k, k ≠ author → info s2 k = info s1 k).
Proof using All.
  intros Hs Hv Hg. unfold split_two_ways, imbalance_split. rewrite usaturating_mul_eq. rewrite (Z.mul_comm v 4). change (4 + 1) with 5. fold (treasury_share v).
  assert (v < 2 ^ w) as Hv2 by (destruct Hs as [H1 ? ?]; pose proof (supply_nonneg ED _ H1); unfold gap in Hg; lia).
  pose proof (treasury_share_bound v ltac:(lia)) as Hb. rewrite Z.min_r by lia.
  destruct (on_unbalanced_ok (E := E) (treasury_on_nonzero w ED treasury) treasury (treasury_share v) s Hs ltac:(lia) ltac:(lia)) as (s1&Hrun1&Hok1&Hg1&Hf1&Hr1).
  { intros x. eexists. intros Hx. unfold treasury_on_nonzero. rewrite (bind_Ok _ _ _ _ _ Hx). split; [reflexivity|]. done. }
  rewrite (bind_Ok _ _ _ _ _ Hrun1).
  destruct (on_unbalanced_ok (E := E) (author_on_nonzero w ED author) author (v - treasury_share v) s1 Hok1 ltac:(lia) ltac:(lia)) as (s2&Hrun2&Hok2&Hg2&Hf2&Hr2).
  { intros x. exists x. intros Hx. unfold author_on_nonzero. by rewrite Hx. }
  exists s1, s2. rewrite Hrun2. split_and!; try done. split; [done|lia].
Qed.

(** ** Charging *)

Local Abbreviation validate := (validate w ED base byte max_weight to_fee treasury author).
Local Abbreviation fee_of m len di tip := (fee_spec w base byte max_weight to_fee m (wrap 32 len) di tip).

Definition fee_reasons (tip : Z) : Z := if tip =? 0 then TransactionPayment else Z.lor TransactionPayment Tip.

Lemma fee_of_fits m len di tip :
  ifits 64 m → minus_one ≤ m → fits 32 (weight di) → fits w tip → fits w (fee_of m len di tip).
Proof using All.
  intros Hm Hm1 Hwt Htip. unfold fee_spec. destruct (pays_fee di); [|done].
  pose proof (adjustable_fits w base byte max_weight to_fee Hw Hbase Hbyte Hmax Hfee (wrap 32 len) (weight di) ltac:(apply wrap_fits; lia) Hwt) as Ha.
  pose proof (accumulated_bounds w m _ ltac:(lia) Hm1 Ha) as [H0 _]. unfold fits, max_value in *. lia.
Qed.

Lemma validate_ok m who tip di len s :
  balanced s → ifits 64 m → minus_one ≤ m → fits 32 (weight di) → fits w tip →
  let fee := fee_of m len di tip in
  if fee =? 0 then validate m who tip di len s = (Ok 0, s)
  else match withdraw_error ED s who fee (fee_reasons tip) KeepAlive with
  | Some _ => validate m who tip di len s = (Err InvalidPayment, s)
  | None =>
      ∃ s0 s1 s2, validate m who tip di len s = (Ok (Z.min (max_value 64) fee), s2) ∧ balanced s2 ∧
        account s0 who = with_free (account s who) (free (account s who) - fee) ∧ total_issuance s0 = total_issuance s ∧ (∀ k, k ≠ who → info s0 k = info s k) ∧
        receives s0 treasury (treasury_share fee) s1 ∧ (∀ k, k ≠ treasury → info s1 k = info s0 k) ∧
        receives s1 author (fee - treasury_share fee) s2 ∧ (∀ k, k ≠ author → info s2 k = info s1 k)
  end.
Proof using All.
  intros [Hs Hgap] Hm Hm1 Hwt Htip fee. pose proof (fee_of_fits m len di tip Hm Hm1 Hwt Htip) as Hf. fold fee in Hf. unfold Payment.validate.
  rewrite (compute_fee_ok w base byte max_weight to_fee Hw Hbase Hbyte Hmax Hfee m (wrap 32 len) di tip Hm Hm1 ltac:(apply wrap_fits; lia) Hwt Htip).
  fold fee. rewrite (bind_Ok _ _ s fee s) by done. destruct (Z.eqb_spec fee 0) as [->|Hf0]; [done|]. cbn [negb]. fold (fee_reasons tip). unfold gap in Hgap.
  pose proof (withdraw_ok w ED Hw HED who fee (fee_reasons tip) KeepAlive s Hs ltac:(unfold fits in Hf; lia) ltac:(unfold fits in Hf; lia)) as Hwd.
  destruct (withdraw_error ED s who fee (fee_reasons tip) KeepAlive) as [e|] eqn:He; [by unfold mbind, M_bind; rewrite Hwd|].
  destruct Hwd as (s0&Hrun0&Hok0&Hg0&[Ha0 Hi0]&Hfr0&_).
  assert (ED ≤ fr (with_free (account s who) (free (account s who) - fee))) as Halive.
  { pose proof (account_facts w ED Hw HED s who Hs) as F. unfold withdraw_error in He. destruct (Z.ltb_spec (free (account s who)) fee); [done|].
    rewrite bool_decide_false in He by done. cbn [negb andb] in He. unfold fr, fits in *. cbn [with_free free reserved].
    destruct (Z.ltb_spec (free (account s who) + reserved (account s who) - fee) ED); destruct (Z.leb_spec ED (free (account s who) + reserved (account s who))); cbn [andb] in He; try done; lia. }
  rewrite (proj2 (Z.ltb_ge _ _)) in Ha0 by done. specialize (Hi0 Halive).
  destruct (split_two_ways_ok (E := PaymentError) fee s0 Hok0 ltac:(unfold fits in Hf; lia) ltac:(unfold gap in *; lia)) as (s1&s2&Hrun&Hb2&Hr1&Hr2&Hf1&Hf2).
  exists s0, s1, s2. split_and!; try done.
  unfold mbind at 1, M_bind at 1. unfold mbind at 1, M_bind at 1. rewrite Hrun0. cbv beta iota. unfold on_unbalanced at 1. rewrite (proj2 (Z.eqb_neq fee 0)) by done.
  rewrite Hrun. cbv beta iota. by rewrite saturated_into_eq.
Qed.

(** ** Histories *)

(** The states of a chain whose blocks operate on balances and charge fees. *)
Inductive reach : State (AccountId := AccountId) → Prop :=
  | reach_genesis balances s : NoDup balances.*1 → genesis w ED balances = Ok s → reach s
  | reach_exec s op r s' : reach s → valid w op s = true → exec w ED op s = (r, s') → reach s'
  | reach_validate s m who tip di len r s' :
      reach s → ifits 64 m → minus_one ≤ m → fits 32 (weight di) → fits w tip → validate m who tip di len s = (r, s') → reach s'.

Lemma reach_balanced s : reach s → balanced s.
Proof using All.
  induction 1 as [bs s Hnd Hg|s op r s' _ IH Hv Hrun|s m who tip di len r s' _ IH Hm Hm1 Hwt Htip Hrun].
  - by apply (genesis_ok w ED Hw HED bs).
  - pose proof (exec_ok w ED Hw HED op s IH Hv) as He. rewrite Hrun in He. destruct r; [done|by rewrite He|done].
  - pose proof (validate_ok m who tip di len s IH Hm Hm1 Hwt Htip) as Hval. cbv zeta in Hval. rewrite Hrun in Hval.
    destruct (_ =? 0); [by injection Hval as -> ->|]. destruct (withdraw_error _ _ _ _ _ _); [by injection Hval as -> ->|].
    destruct Hval as (?&?&?&[= -> ->]&Hb&_). done.
Qed.

End payment.

(** ** Theorems *)

Section theorems.
Context {AccountId : Type} `{Countable AccountId} (w ED : Z).
Context (base byte max_weight : Z) (to_fee : Z → Z) (treasury author : AccountId).
Implicit Types (who : AccountId) (s : State (AccountId := AccountId)).

(** The runtime's constants are balances and weights, and the existential deposit
    is positive. *)
Definition config_ok : Prop :=
  32 ≤ w ∧ 0 < ED ∧ fits w base ∧ fits w byte ∧ fits 32 max_weight ∧ ∀ x, fits 32 x → fits w (to_fee x).

(** C3. The books always balance: after any sequence of transfers, reservations,
    slashes, deposits, withdrawals, issues, burns, locks, root calls and fee
    payments from a genesis without repeated accounts, the total issuance is
    exactly the sum of the free and reserved balances of all accounts and fits its
    type, no balance is negative, and every account that has funds has at least
    the existential deposit. *)
Theorem issuance_is_sum s :
  config_ok → reach w ED base byte max_weight to_fee treasury author s →
  total_issuance s = supply (accounts s) ∧ 0 ≤ total_issuance s < 2 ^ w ∧
  ∀ who, let a := account s who in
    (0 ≤ free a ∧ 0 ≤ reserved a) ∧ (free a + reserved a = 0 ∨ ED ≤ free a + reserved a).
Proof.
  intros (Hw&HED&Hb&Hby&Hmw&Hf) Hr. destruct (reach_balanced w ED Hw HED base byte max_weight to_fee Hb Hby Hmw Hf treasury author s Hr) as [Hok Hg].
  unfold gap in Hg. destruct Hok as [Ha Hs Hi]. split_and!; [lia|lia|lia|]. intros who a.
  destruct (accounts_ok_lookup ED (accounts s) who Ha) as (H1&_&H3). done.
Qed.

(** C23. Charging the fee of a transaction on books that balance: nothing happens
    if the fee is zero; if the sender cannot pay, because of its balance, its locks
    or because less than the existential deposit would be left, the transaction is
    invalid and nothing has changed; otherwise exactly the fee is taken from the
    sender, four fifths of it go to the treasury and the rest to the author, a
    share that is too small to open its account is burnt, and the books balance.
    The priority is the fee, capped at 64 bits. *)
Theorem fee_charged m who tip di len s :
  config_ok → balanced w ED s → ifits 64 m → minus_one ≤ m → fits 32 (weight di) → fits w tip →
  let fee := fee_spec w base byte max_weight to_fee m (wrap 32 len) di tip in
  let run := validate w ED base byte max_weight to_fee treasury author m who tip di len s in
  if fee =? 0 then run = (Ok 0, s)
  else match withdraw_error ED s who fee (fee_reasons tip) KeepAlive with
  | Some _ => run = (Err InvalidPayment, s)
  | None =>
      ∃ s0 s1 s2, run = (Ok (Z.min (max_value 64) fee), s2) ∧ balanced w ED s2 ∧
        account s0 who = with_free (account s who) (free (account s who) - fee) ∧ total_issuance s0 = total_issuance s ∧
        (∀ k, k ≠ who → info s0 k = info s k) ∧
        receives ED s0 treasury (treasury_share w fee) s1 ∧ (∀ k, k ≠ treasury → info s1 k = info s0 k) ∧
        receives ED s1 author (fee - treasury_share w fee) s2 ∧ (∀ k, k ≠ author → info s2 k = info s1 k)
  end.
Proof. intros (Hw&HED&Hb&Hby&Hmw&Hf) Hbal Hm Hm1 Hwt Htip. apply validate_ok; done. Qed.

End theorems.

Module SmallPayment.

Definition no_fee (x : Z) : Z := 0.

Lemma config : config_ok 128 10 20 1 1000 no_fee.
Proof. unfold config_ok, no_fee, fits. split_and!; try lia. Qed.

(** Account 1 pays; account 2 is the treasury and account 3, which is new, the
    author. *)
Definition di : DispatchInfo := MkDispatchInfo 7 Normal true.

Definition charged : result PaymentError Z * State (AccountId := nat) :=
  validate 128 10 20 1 1000 no_fee 2%nat 3%nat 0 1%nat 5 di 10 SmallChain.start.

Lemma issuance_is_sum_witness :
  charged.1 = Ok 35 ∧ total_issuance charged.2 = supply (accounts charged.2) ∧ total_issuance charged.2 = 143.
Proof.
  split; [vm_compute; reflexivity|]. split; [|vm_compute; reflexivity].
  refine (proj1 (issuance_is_sum 128 10 20 1 1000 no_fee 2%nat 3%nat charged.2 config _)).
  eapply (reach_validate _ _ _ _ _ _ _ _ SmallChain.start 0 1%nat 5 di 10); [|done|done|done|done|apply surjective_pairing].
  apply (reach_genesis _ _ _ _ _ _ _ _ [(1%nat, 100); (2%nat, 50)]); [by apply (bool_decide_unpack _); vm_compute|exact SmallChain.start_genesis].
Defined.

Lemma fee_charged_witness : ∃ s2, charged = (Ok 35, s2) ∧ balanced 128 10 s2.
Proof.
  pose proof (fee_charged 128 10 20 1 1000 no_fee 2%nat 3%nat 0 1%nat 5 di 10 SmallChain.start config SmallChain.start_balanced
    ltac:(done) ltac:(done) ltac:(done) ltac:(done)) as T.
  cbv zeta in T. match type of T with if ?b then _ else _ => assert (b = false) as Hb by (vm_compute; reflexivity); rewrite Hb in T end.
  match type of T with match ?e with _ => _ end => assert (e = None) as He by (vm_compute; reflexivity); rewrite He in T end.
  destruct T as (s0&s1&s2&Hrun&Hbal&_). exists s2. split; [|exact Hbal]. unfold charged. rewrite Hrun. vm_compute. reflexivity.
Defined.

End SmallPayment.
