(* ===== verification/Pallet.v ===== *)
(** * Modules on top of balances

    A module of the runtime has storage of its own beside the balances.  An
    operation runs on both; what was written before an error stays. *)
From S2P Require Import Prelude PerThings Balances BalancesFacts.

Local Open Scope Z_scope.

(** [DispatchError]: of the origin, of the currency or of the module. *)
Inductive DispatchError (E : Type) : Type :=
  | DispatchBadOrigin
  | DispatchCurrency (e : Error)
  | DispatchModule (e : E).
Arguments DispatchBadOrigin {E}.
Arguments DispatchCurrency {E} e.
Arguments DispatchModule {E} e.

Section pallet.
Context {AccountId : Type} `{Countable AccountId} {S : Type}.

Local Abbreviation State := (State (AccountId := AccountId)).

Definition P (E A : Type) : Type := State * S → result E A * (State * S).

#[export] Instance P_ret E : MRet (P E) := λ A a s, (Ok a, s).
#[export] Instance P_bind E : MBind (P E) := λ A C f m s,
  match m s with
  | (Ok a, s') => f a s'
  | (Err e, s') => (Err e, s')
  | (Panic, s') => (Panic, s')
  end.

Definition raise {E A} (e : E) : P E A := λ s, (Err e, s).
Definition panic {E A} : P E A := λ s, (Panic, s).
Definition reads {E A} (f : State * S → A) : P E A := λ s, (Ok (f s), s).
Definition writes {E} (f : S → S) : P E unit := λ s, (Ok tt, (s.1, f s.2)).
Definition some_or {E A} (o : option A) (e : E) : P E A := match o with Some a => mret a | None => raise e end.
Definition require {E} (b : bool) (e : E) : P E unit := if b then mret tt else raise e.
Definition runs {E A} (m : result Empty_set A) : P E A := λ s,
  (match m with Ok a => Ok a | Err e => match e : Empty_set with end | Panic => Panic end, s).

(** An operation of the currency, with its error translated. *)
Definition currency {E F A} (g : E → F) (m : M E A) : P F A := λ s,
  match m s.1 with
  | (Ok a, c) => (Ok a, (c, s.2))
  | (Err e, c) => (Err (g e), (c, s.2))
  | (Panic, c) => (Panic, (c, s.2))
  end.

(** One that does not fail. *)
Definition currency_total {F A} (m : M Empty_set A) : P F A := currency (λ e : Empty_set, match e with end) m.

(** [let _ = ..] *)
Definition ignore {E F A} (m : P E A) : P F unit := λ s,
  match m s with
  | (Panic, s') => (Panic, s')
  | (_, s') => (Ok tt, s')
  end.

(** [.expect(..)] of a result. *)
Definition unwrap {E F A} (m : P E A) : P F A := λ s,
  match m s with
  | (Ok a, s') => (Ok a, s')
  | (_, s') => (Panic, s')
  end.

Definition in_module {E A} (m : P E A) : P (DispatchError E) A := λ s,
  match m s with
  | (Ok a, s') => (Ok a, s')
  | (Err e, s') => (Err (DispatchModule e), s')
  | (Panic, s') => (Panic, s')
  end.

Definition signed {E} (o : Origin (AccountId := AccountId)) : P (DispatchError E) AccountId :=
  match o with Signed who => mret who | _ => raise DispatchBadOrigin end.

Definition event {E} (e : Event (AccountId := AccountId)) : P E unit := currency_total (deposit_event e).

(** ** Running *)

Lemma pbind_Ok {E A C} (f : A → P E C) (x : P E A) s a s' : x s = (Ok a, s') → (x ≫= f) s = f a s'.
Proof. intros Hx. unfold mbind, P_bind. by rewrite Hx. Qed.

Lemma prun {E A C} (f : A → P E C) (x : P E A) s a s' r : x s = (Ok a, s') → f a s' = r → (x ≫= f) s = r.
Proof. intros Hx Hf. by rewrite (pbind_Ok _ _ _ _ _ Hx). Qed.

Lemma pbind_Err {E A C} (f : A → P E C) (x : P E A) s e s' : x s = (Err e, s') → (x ≫= f) s = (Err e, s').
Proof. intros Hx. unfold mbind, P_bind. by rewrite Hx. Qed.

Lemma currency_Ok {E F A} (g : E → F) (m : M E A) c st a c' : m c = (Ok a, c') → currency g m (c, st) = (Ok a, (c', st)).
Proof. intros Hm. unfold currency. cbn [fst snd]. by rewrite Hm. Qed.

Lemma currency_Err {E F A} (g : E → F) (m : M E A) c st e c' : m c = (Err e, c') → currency g m (c, st) = (Err (g e), (c', st)).
Proof. intros Hm. unfold currency. cbn [fst snd]. by rewrite Hm. Qed.

(** Only events are different. *)
Definition quiet (c c' : State) : Prop := accounts c' = accounts c ∧ total_issuance c' = total_issuance c ∧ locks_map c' = locks_map c.

Lemma quiet_trans c1 c2 c3 : quiet c1 c2 → quiet c2 c3 → quiet c1 c3.
Proof. intros (?&?&?) (?&?&?). repeat split; congruence. Qed.

Lemma event_quiet {E} e c (st : S) : ∃ c', event (E := E) e (c, st) = (Ok tt, (c', st)) ∧ quiet c c'.
Proof.
  destruct (deposit_event_Ok (E := Empty_set) e c) as (c'&Hrun&?&?&?). exists c'. split; [|done].
  unfold event, currency_total. by rewrite (currency_Ok _ _ _ _ _ _ Hrun).
Qed.

(** ** Settling

    An operation that started in [s0] ends well with [Q], or fails without a
    trace. *)
Definition settles {E A} (Q : A → State * S → Prop) (s0 : State * S) (x : result E A * (State * S)) : Prop :=
  match x with
  | (Ok a, s') => Q a s'
  | (Err _, s') => s' = s0
  | (Panic, _) => False
  end.

Lemma settles_bind {E A C} (R : A → State * S → Prop) (Q : C → State * S → Prop) s0 s (m : P E A) (f : A → P E C) :
  settles R s0 (m s) → (∀ a s', R a s' → settles Q s0 (f a s')) → settles Q s0 ((m ≫= f) s).
Proof. intros Hm Hf. unfold mbind, P_bind. destruct (m s) as [[a|e|] s']; cbn in Hm; [by apply Hf|done|done]. Qed.

Lemma settles_ret {E A} (Q : A → State * S → Prop) s0 s a : Q a s → settles (E := E) Q s0 (mret (M := P E) a s).
Proof. done. Qed.

Lemma settles_reads {E A C} (Q : C → State * S → Prop) s0 s (f : State * S → A) (k : A → P E C) :
  settles Q s0 (k (f s) s) → settles Q s0 ((reads f ≫= k) s).
Proof. done. Qed.

Lemma settles_writes {E C} (Q : C → State * S → Prop) s0 s f (k : unit → P E C) :
  settles Q s0 (k tt (s.1, f s.2)) → settles Q s0 ((writes f ≫= k) s).
Proof. done. Qed.

Lemma settles_require {E C} (Q : C → State * S → Prop) s b (e : E) (k : unit → P E C) :
  (b = true → settles Q s (k tt s)) → settles Q s ((require b e ≫= k) s).
Proof. intros Hk. destruct b; [by apply Hk|done]. Qed.

Lemma settles_some_or {E A C} (Q : C → State * S → Prop) s (o : option A) (e : E) (k : A → P E C) :
  (∀ a, o = Some a → settles Q s (k a s)) → settles Q s ((some_or o e ≫= k) s).
Proof. intros Hk. destruct o; [by apply Hk|done]. Qed.

Lemma settles_signed {E C} (Q : C → State * S → Prop) s o (k : AccountId → P (DispatchError E) C) :
  (∀ who, o = Signed who → settles Q s (k who s)) → settles Q s ((signed o ≫= k) s).
Proof. intros Hk. destruct o; [done|by apply Hk|done]. Qed.

Lemma settles_runs {E A C} (Q : C → State * S → Prop) s0 s m (a : A) (k : A → P E C) :
  m = Ok a → settles Q s0 (k a s) → settles Q s0 ((runs m ≫= k) s).
Proof. by intros ->. Qed.

Lemma settles_Ok {E A C} (Q : C → State * S → Prop) s0 s (m : P E A) a s' (k : A → P E C) :
  m s = (Ok a, s') → settles Q s0 (k a s') → settles Q s0 ((m ≫= k) s).
Proof. intros Hm. by rewrite (pbind_Ok _ _ _ _ _ Hm). Qed.

Lemma settles_event {E} (Q : unit → State * S → Prop) s0 s e :
  (∀ c', accounts c' = accounts s.1 → total_issuance c' = total_issuance s.1 → locks_map c' = locks_map s.1 → Q tt (c', s.2)) →
  settles (E := E) Q s0 (event e s).
Proof.
  intros HQ. destruct s as [c t]. destruct (deposit_event_Ok (E := Empty_set) e c) as (c'&Hrun&?&?&?).
  unfold event, currency_total. rewrite (currency_Ok _ _ _ _ _ _ Hrun). by apply HQ.
Qed.

End pallet.
