(* ===== verification/Vesting.v ===== *)
(** * Vesting (src/frame/vesting/src/lib.rs)

    A schedule locks an amount of an account and unlocks a part of it with every
    block; the lock is a lock of the balances module, which [vest] brings up to
    date.  Block numbers convert to balances without loss, as in the node runtime
    (src/bin/node/runtime/src/lib.rs). *)
From stdpp Require Import strings.
From S2P Require Import Prelude PerThings Balances BalancesFacts Pallet.

Local Open Scope Z_scope.

(** The identifier [b"vesting "], as the number that its bytes spell. *)
Definition VESTING_ID : Z := 0x76657374696e6720.

Record VestingInfo : Type := MkVesting {
  v_locked : Z;
  per_block : Z;
  starting_block : Z;
}.

Inductive VestingError : Type := NotVesting | ExistingSchedule | AmountLow.

Section vesting.
Context {AccountId : Type} `{Countable AccountId}.
Context (w ExistentialDeposit MinVestedTransfer : Z).

(** The amount that is locked at block [n]. *)
Definition locked_at (v : VestingInfo) (n : Z) : Z :=
  let vested_block_count := saturating_sub n (starting_block v) in
  match checked_mul w vested_block_count (per_block v) with
  | Some balance => saturating_sub (v_locked v) balance
  | None => 0
  end.

Abbreviation Schedules := (gmap AccountId VestingInfo).
Local Abbreviation State := (State (AccountId := AccountId)).
Local Abbreviation V := (P (AccountId := AccountId) (S := Schedules)).

Definition schedule (s : State * Schedules) (who : AccountId) : option VestingInfo := s.2 !! who.

(** [WithdrawReason::Transfer | WithdrawReason::Reserve] *)
Definition lock_purposes : Z := Z.lor Transfer Reserve.

Definition update_lock (now : Z) (who : AccountId) : V VestingError unit :=
  found ← reads (λ s, schedule s who);
  vesting ← some_or found NotVesting;
  let locked_now := locked_at vesting now in
  if locked_now =? 0 then
    currency_total (remove_lock w ExistentialDeposit VESTING_ID who) ;;
    writes (delete who) ;;
    event (VestingCompleted who)
  else
    currency_total (set_lock w ExistentialDeposit VESTING_ID who locked_now lock_purposes) ;;
    event (VestingUpdated who locked_now).

Definition vest (now : Z) (origin : Origin) : V (DispatchError VestingError) unit :=
  who ← signed origin;
  in_module (update_lock now who).

(** The account of [target] has been looked up. *)
Definition vest_other (now : Z) (origin : Origin (AccountId := AccountId)) (target : AccountId) : V (DispatchError VestingError) unit :=
  signed origin ;;
  in_module (update_lock now target).

Definition vesting_balance (now : Z) (s : State * Schedules) (who : AccountId) : option Z :=
  match schedule s who with
  | Some v => Some (Z.min (free_balance s.1 who) (locked_at v now))
  | None => None
  end.

Definition add_vesting_schedule (now : Z) (who : AccountId) (locked per_block starting_block : Z) : V VestingError unit :=
  if locked =? 0 then mret tt
  else
    existing ← reads (λ s, bool_decide (is_Some (schedule s who)));
    if (existing : bool) then raise ExistingSchedule
    else
      writes <[who := MkVesting locked per_block starting_block]> ;;
      ignore (update_lock now who).

Definition remove_vesting_schedule {E} (now : Z) (who : AccountId) : V E unit :=
  writes (delete who) ;;
  ignore (update_lock now who).

Definition vested_transfer (now : Z) (origin : Origin) (target : AccountId) (sched : VestingInfo) : V (DispatchError VestingError) unit :=
  transactor ← signed origin;
  require (MinVestedTransfer <=? v_locked sched) (DispatchModule AmountLow) ;;
  existing ← reads (λ s, bool_decide (is_Some (schedule s target)));
  require (negb existing) (DispatchModule ExistingSchedule) ;;
  currency DispatchCurrency (currency_transfer w ExistentialDeposit transactor target (v_locked sched) AllowDeath) ;;
  unwrap (add_vesting_schedule now target (v_locked sched) (per_block sched) (starting_block sched)).

(** An account that starts to vest: when, for how many blocks, and how much of its
    balance is not locked. *)
Definition vesting_genesis_entry (e : AccountId * Z * Z * Z) : V Empty_set unit :=
  let '(who, begin, length, liquid) := e in
  balance ← reads (λ s, free_balance s.1 who);
  if balance =? 0 then panic
  else
    let locked := saturating_sub balance liquid in
    let per_block := locked / Z.max length 1 in
    writes <[who := MkVesting locked per_block begin]> ;;
    currency_total (set_lock w ExistentialDeposit VESTING_ID who locked lock_purposes).

Fixpoint vesting_genesis (entries : list (AccountId * Z * Z * Z)) : V Empty_set unit :=
  match entries with
  | [] => mret tt
  | e :: entries' => vesting_genesis_entry e ;; vesting_genesis entries'
  end.

End vesting.
