(* ===== verification/VestingFacts.v ===== *)
(** * Vesting keeps its promises

    The lock of the module on an account covers what is not vested yet, whatever
    happens in between; a schedule that unlocks something with every block ends,
    and then the lock is gone. *)
From S2P Require Import Prelude PerThings Balances BalancesFacts BalancesHistory Pallet Vesting.

Local Open Scope Z_scope.

(** ** Operations that keep the locks *)

Section keeps.
Context {AccountId : Type} `{Countable AccountId} (w ED : Z).
Local Abbreviation M := (M (AccountId := AccountId)).
Local Abbreviation State := (State (AccountId := AccountId)).

Definition keeps {E A} (m : M E A) : Prop := ∀ s, locks_map (m s).2 = locks_map s.

Lemma keeps_ret {E A} (a : A) : keeps (mret (M := M E) a).
Proof. done. Qed.
Lemma keeps_throw {E A} (e : E) : keeps (throw e : M E A).
Proof. done. Qed.
Lemma keeps_gets {E A} (f : State → A) : keeps (gets f : M E A).
Proof. done. Qed.
Lemma keeps_modify {E} (f : State → State) : (∀ s, locks_map (f s) = locks_map s) → keeps (modify f : M E unit).
Proof. intros Hf s. apply Hf. Qed.
Lemma keeps_lift {E A} (m : run A) : keeps (lift_run m : M E A).
Proof. done. Qed.
Lemma keeps_bind {E A C} (m : M E A) (f : A → M E C) : keeps m → (∀ a, keeps (f a)) → keeps (m ≫= f).
Proof.
  intros Hm Hf s. specialize (Hm s). unfold mbind, M_bind. destruct (m s) as [[a|e|] s'] eqn:Em; cbn in Hm |- *; [|done..]. by rewrite Hf.
Qed.
Lemma keeps_ok_or {E A} (o : option A) (e : E) : keeps (ok_or_throw o e).
Proof. by destruct o. Qed.
Lemma keeps_ensure {E} b (e : E) : keeps (ensure b e).
Proof. by destruct b. Qed.
Lemma keeps_or_value {E A} (m : M A A) : keeps m → keeps (or_value m : M E A).
Proof. intros Hm s. specialize (Hm s). unfold or_value. by destruct (m s) as [[a|a|] s']. Qed.
Lemma keeps_of_module {A} (m : M Error A) : keeps m → keeps (of_module m).
Proof. intros Hm s. specialize (Hm s). unfold of_module. by destruct (m s) as [[a|a|] s']. Qed.

Ltac keeps_step := first
  [ progress intros | apply keeps_bind | apply keeps_ret | apply keeps_throw | apply keeps_gets | apply keeps_lift | apply keeps_ok_or
  | apply keeps_ensure | apply keeps_or_value | apply keeps_of_module | (apply keeps_modify; done) | done | case_match ].

Lemma keeps_try_mutate {E R} who (f : AccountData → M E (R * AccountData)) : (∀ a, keeps (f a)) → keeps (try_mutate_account w ED who f).
Proof.
  intros Hf. unfold try_mutate_account, try_mutate_exists, post_mutation, drop_negative, deposit_event. repeat first [apply Hf | keeps_step].
Qed.

Ltac keeps_op := repeat first [ apply keeps_try_mutate | keeps_step ].

Lemma keeps_can_withdraw who amount reasons new_balance : keeps (ensure_can_withdraw who amount reasons new_balance).
Proof. unfold ensure_can_withdraw. keeps_op. Qed.

Lemma keeps_withdraw who value reasons liveness : keeps (withdraw w ED who value reasons liveness).
Proof. unfold withdraw. repeat first [apply keeps_can_withdraw | apply keeps_try_mutate | keeps_step]. Qed.

Lemma keeps_deposit_existing who value : keeps (deposit_into_existing w ED who value).
Proof. unfold deposit_into_existing. keeps_op. Qed.

Lemma keeps_deposit_creating {E} who value : keeps (deposit_creating (E := E) w ED who value).
Proof. unfold deposit_creating. keeps_op. Qed.

Lemma keeps_transfer transactor dest value req : keeps (currency_transfer w ED transactor dest value req).
Proof. unfold currency_transfer, transfer_from, deposit_event. repeat first [apply keeps_can_withdraw | apply keeps_try_mutate | keeps_step]. Qed.

Lemma keeps_unreserve {E} who value : keeps (unreserve (E := E) w ED who value).
Proof. unfold unreserve, mutate_account. keeps_op. Qed.

Lemma keeps_drop_offset_negative {E} a b : keeps (drop_offset_negative (E := E) w a b).
Proof. unfold drop_offset_negative, drop_negative, drop_positive. keeps_op. Qed.

Lemma keeps_drop_offset_positive {E} a b : keeps (drop_offset_positive (E := E) w a b).
Proof. unfold drop_offset_positive, drop_negative, drop_positive. keeps_op. Qed.

Lemma keeps_resolve_creating {E} who v : keeps (resolve_creating (E := E) w ED who v).
Proof. unfold resolve_creating. apply keeps_bind; [apply keeps_deposit_creating|]. intros. apply keeps_drop_offset_negative. Qed.

Lemma keeps_resolve_existing {E} who v : keeps (resolve_into_existing (E := E) w ED who v).
Proof.
  intros s. unfold resolve_into_existing. pose proof (keeps_deposit_existing who v s) as Hk.
  destruct (deposit_into_existing w ED who v s) as [[a|e|] s']; [|done..]. cbn in Hk. rewrite <- Hk.
  apply (keeps_bind (E := E)); [apply keeps_drop_offset_negative|]. intros. apply keeps_ret.
Qed.

Lemma keeps_settle {E} who v reasons liveness : keeps (settle (E := E) w ED who v reasons liveness).
Proof.
  intros s. unfold settle. pose proof (keeps_withdraw who v reasons liveness s) as Hk.
  destruct (withdraw w ED who v reasons liveness s) as [[a|e|] s']; [|done..]. cbn in Hk. rewrite <- Hk.
  apply (keeps_bind (E := E)); [apply keeps_drop_offset_positive|]. intros. apply keeps_ret.
Qed.

(** The operations of the balances module on locks. *)
Definition lock_op (op : Op (AccountId := AccountId)) : option (Z * AccountId) :=
  match op with OpSetLock id who _ _ | OpExtendLock id who _ _ | OpRemoveLock id who => Some (id, who) | _ => None end.

Lemma exec_keeps op : lock_op op = None → keeps (exec w ED op).
Proof.
  intros Hop. destruct op; try done; cbn [exec].
  all: unfold transfer, transfer_keep_alive, force_transfer, set_balance, ensure_signed, ensure_root, square_up, slash, slash_reserved, make_free_balance_be,
    issue, burn, reserve, repatriate_reserved, repatriate_from, mutate_account, drop_negative, drop_positive, deposit_event.
  all: repeat first [ apply keeps_try_mutate | apply keeps_can_withdraw | apply keeps_transfer | apply keeps_unreserve | apply keeps_withdraw
    | apply keeps_deposit_existing | apply keeps_deposit_creating | apply keeps_resolve_creating | apply keeps_resolve_existing | apply keeps_settle | keeps_step ].
Qed.

End keeps.

(** ** The amount that is locked *)

Section vesting.
Context {AccountId : Type} `{Countable AccountId}.
Context (w ED MinVestedTransfer : Z).
Implicit Types (who : AccountId) (v : VestingInfo).
Local Abbreviation State := (State (AccountId := AccountId)).
Local Abbreviation balanced := (balanced w ED).
Local Abbreviation locked_at := (locked_at w).

(** The amounts of a schedule are balances. *)
Definition schedule_ok v : Prop := 0 ≤ v_locked v < 2 ^ w ∧ 0 ≤ per_block v ∧ 0 ≤ starting_block v.

(** An overflow of the product only happens when everything is vested. *)
Lemma locked_at_eq v n : schedule_ok v → locked_at v n = Z.max 0 (v_locked v - per_block v * Z.max 0 (n - starting_block v)).
Proof.
  intros (Hl&Hp&_). unfold Vesting.locked_at, checked_mul, saturating_sub.
  destruct (Z.ltb_spec (Z.max 0 (n - starting_block v) * per_block v) (2 ^ w)); lia.
Qed.

Lemma locked_at_mono v n n' : schedule_ok v → n ≤ n' → locked_at v n' ≤ locked_at v n.
Proof. intros Hv Hn. rewrite !locked_at_eq by done. destruct Hv as (?&?&?). nia. Qed.

Lemma locked_at_nonneg v n : schedule_ok v → 0 ≤ locked_at v n.
Proof. intros Hv. rewrite locked_at_eq by done. lia. Qed.

(** The block at which everything is vested, when something is with every block. *)
Definition ends v : Z := starting_block v + (v_locked v + per_block v - 1) / per_block v.

Lemma locked_at_ends v n : schedule_ok v → 0 < per_block v → locked_at v n = 0 ↔ v_locked v = 0 ∨ ends v ≤ n.
Proof.
  intros Hv Hp. rewrite locked_at_eq by done. unfold ends. destruct Hv as ([Hl _]&_&_).
  pose proof (Z.div_mod (v_locked v + per_block v - 1) (per_block v) ltac:(lia)) as Hd.
  pose proof (Z.mod_pos_bound (v_locked v + per_block v - 1) (per_block v) Hp) as Hm.
  set (q := (v_locked v + per_block v - 1) / per_block v) in *. split.
  - intros Hz. destruct (decide (v_locked v = 0)); [by left|right]. nia.
  - intros [Hz|Hn]; [nia|]. assert (0 ≤ q) by nia. nia.
Qed.

(** ** The lock of the module *)

Definition vesting_lock (amount : Z) : BalanceLock := MkLock VESTING_ID amount Misc.

(** What the module keeps true at block [now]. *)
Definition covered (now : Z) (s : State * gmap AccountId VestingInfo) who : Prop :=
  match schedule s who with
  | None => ∀ l, l ∈ locks s.1 who → lock_id l ≠ VESTING_ID
  | Some v =>
      schedule_ok v ∧ (∀ l, l ∈ locks s.1 who → lock_id l = VESTING_ID → ∃ a, l = vesting_lock a ∧ locked_at v now ≤ a) ∧
      (locked_at v now ≠ 0 → ∃ a, vesting_lock a ∈ locks s.1 who)
  end.

Definition vesting_ok (now : Z) (s : State * gmap AccountId VestingInfo) : Prop := balanced s.1 ∧ ∀ who, covered now s who.

Lemma covered_later now now' s who : now ≤ now' → covered now s who → covered now' s who.
Proof.
  intros Hn. unfold covered. destruct (schedule s who) as [v|]; [|done]. intros (Hv&Hl&Hex). pose proof (locked_at_mono v now now' Hv Hn) as Hm.
  split_and!; [done| |].
  - intros l Hin Hid. destruct (Hl l Hin Hid) as (a&->&Ha). exists a. split; [done|lia].
  - intros Hne. apply Hex. pose proof (locked_at_nonneg v now' Hv). lia.
Qed.

(** Another operation that keeps the locks of the module. *)
Lemma covered_same now s s' who :
  covered now s who → schedule s' who = schedule s who →
  (∀ l, lock_id l = VESTING_ID → l ∈ locks s'.1 who ↔ l ∈ locks s.1 who) → covered now s' who.
Proof.
  unfold covered. intros Hc -> Hl. destruct (schedule s who) as [v|].
  - destruct Hc as (Hv&H1&H2). split_and!; [done| |].
    + intros l Hin Hid. apply H1; [by apply Hl|done].
    + intros Hne. destruct (H2 Hne) as (a&Ha). exists a. by apply Hl.
  - intros l Hin Hid. apply (Hc l); [by apply Hl|done].
Qed.

Context (Hw : 32 ≤ w) (HED : 0 < ED).

Lemma update_lock_ok now who s v :
  balanced s.1 → schedule s who = Some v → schedule_ok v →
  ∃ s', update_lock w ED now who s = (Ok tt, s') ∧ balanced s'.1 ∧
    (if locked_at v now =? 0 then
       schedule s' who = None ∧ ∀ l, l ∈ locks s'.1 who ↔ lock_id l ≠ VESTING_ID ∧ l ∈ locks s.1 who
     else
       schedule s' who = Some v ∧ ∀ l, l ∈ locks s'.1 who ↔ (lock_id l ≠ VESTING_ID ∧ l ∈ locks s.1 who) ∨ l = vesting_lock (locked_at v now)) ∧
    (fr (account s.1 who) ≠ 0 →
      account s'.1 who = MkAccount (free (account s.1 who)) (reserved (account s.1 who)) (locked Misc (locks s'.1 who)) (locked Fee (locks s'.1 who))) ∧
    (∀ k, k ≠ who → info s'.1 k = info s.1 k ∧ locks s'.1 k = locks s.1 k ∧ schedule s' k = schedule s k).
Proof using Hw HED.
  destruct s as [c st]. cbn [fst snd]. intros Hb Hsch Hv. unfold update_lock, reads. rewrite (pbind_Ok _ _ (c, st) (Some v) (c, st)) by (by rewrite Hsch).
  cbn [some_or]. rewrite (pbind_Ok _ _ (c, st) v (c, st)) by done. cbv zeta. destruct (Z.eqb_spec (locked_at v now) 0) as [Hz|Hz].
  - destruct (remove_lock_ok (E := Empty_set) w ED Hw HED VESTING_ID who c Hb) as (c1&Hrun&Hb1&Hl1&Ha1&Hf1).
    rewrite (pbind_Ok _ _ (c, st) tt (c1, st)) by (by apply currency_Ok). rewrite (pbind_Ok _ _ (c1, st) tt (c1, delete who st)) by done.
    destruct (deposit_event_Ok (E := Empty_set) (VestingCompleted who) c1) as (c2&Hev&E1&E2&E3).
    exists (c2, delete who st). split; [by apply currency_Ok|]. cbn [fst snd].
    assert (∀ k, locks c2 k = locks c1 k) as El by (intros k; unfold locks; by rewrite E3).
    assert (∀ k, info c2 k = info c1 k) as Ei by (intros k; unfold info; by rewrite E1). split_and!.
    + by apply (same_books w ED c1).
    + unfold schedule. cbn. by rewrite lookup_delete_eq.
    + intros l. by rewrite El.
    + unfold account. rewrite Ei, El. exact Ha1.
    + intros k Hk. rewrite Ei, El. destruct (Hf1 k Hk) as [-> ->]. unfold schedule. cbn. by rewrite lookup_delete_ne.
  - destruct (put_lock_ok (E := Empty_set) w ED Hw HED (λ _ nl, nl) VESTING_ID who (locked_at v now) lock_purposes c Hb Hz ltac:(done)) as (c1&Hrun&Hb1&Hl1&Ha1&Hf1).
    rewrite (pbind_Ok _ _ (c, st) tt (c1, st)) by (by apply currency_Ok).
    destruct (deposit_event_Ok (E := Empty_set) (VestingUpdated who (locked_at v now)) c1) as (c2&Hev&E1&E2&E3).
    exists (c2, st). split; [by apply currency_Ok|]. cbn [fst snd].
    assert (∀ k, locks c2 k = locks c1 k) as El by (intros k; unfold locks; by rewrite E3).
    assert (∀ k, info c2 k = info c1 k) as Ei by (intros k; unfold info; by rewrite E1). split_and!.
    + by apply (same_books w ED c1).
    + done.
    + intros l. rewrite El, Hl1. unfold new_lock. by destruct (first_lock _ _).
    + unfold account. rewrite Ei, El. exact Ha1.
    + intros k Hk. rewrite Ei, El. destruct (Hf1 k Hk) as [-> ->]. done.
Qed.

(** ** Histories *)

Inductive VOp : Type :=
  | VBalances (op : Op (AccountId := AccountId))
  | VVest (origin : Origin (AccountId := AccountId))
  | VVestOther (origin : Origin (AccountId := AccountId)) (target : AccountId)
  | VVestedTransfer (origin : Origin (AccountId := AccountId)) (target : AccountId) (sched : VestingInfo).

Definition of_call (e : CallError) : DispatchError VestingError :=
  match e with BadOrigin => DispatchBadOrigin | ModuleError e => DispatchCurrency e end.

Definition vexec (now : Z) (op : VOp) : P (AccountId := AccountId) (S := gmap AccountId VestingInfo) (DispatchError VestingError) unit :=
  match op with
  | VBalances op => currency of_call (exec w ED op)
  | VVest origin => vest w ED now origin
  | VVestOther origin target => vest_other w ED now origin target
  | VVestedTransfer origin target sched => vested_transfer w ED MinVestedTransfer now origin target sched
  end.

(** Amounts are balances, and the identifier of the lock is left to the module. *)
Definition vvalid (op : VOp) (s : State * gmap AccountId VestingInfo) : Prop :=
  match op with
  | VBalances op => valid w op s.1 = true ∧ match lock_op op with Some (id, _) => id ≠ VESTING_ID | None => True end
  | VVestedTransfer _ _ sched => schedule_ok sched
  | _ => True
  end.

Definition vsettled {E A} now s (x : result E A * (State * gmap AccountId VestingInfo)) : Prop :=
  match x with
  | (Ok _, s') => vesting_ok now s'
  | (Err _, s') => s' = s
  | (Panic, _) => False
  end.

Lemma covered_update now who s s' v :
  covered now s who → schedule s who = Some v → update_lock w ED now who s = (Ok tt, s') → balanced s.1 → covered now s' who.
Proof.
  intros Hc Hsch Hrun Hb. unfold covered in Hc. rewrite Hsch in Hc. destruct Hc as (Hv&_).
  destruct (update_lock_ok now who s v Hb Hsch Hv) as (s1&Hrun1&_&Hres&_). rewrite Hrun in Hrun1. injection Hrun1 as <-.
  unfold covered. destruct (Z.eqb_spec (locked_at v now) 0) as [Hz|Hz].
  - destruct Hres as [-> Hl]. intros l Hin. by apply Hl in Hin as [? _].
  - destruct Hres as [-> Hl]. split_and!; [done| |].
    + intros l [[Hne _]| ->]%Hl Hid; [done|]. by eexists.
    + intros _. eexists. apply Hl. by right.
Qed.

Lemma update_lock_settled now who s : vesting_ok now s → vsettled now s (update_lock w ED now who s).
Proof.
  intros [Hb Hc]. destruct (schedule s who) as [v|] eqn:Hsch.
  - pose proof (Hc who) as Hcw. assert (schedule_ok v) as Hv by (unfold covered in Hcw; rewrite Hsch in Hcw; apply Hcw).
    destruct (update_lock_ok now who s v Hb Hsch Hv) as (s1&Hrun&Hb1&_&_&Hframe). rewrite Hrun. split; [done|]. intros k.
    destruct (decide (k = who)) as [->|Hk]; [by apply (covered_update now who s s1 v)|]. destruct (Hframe k Hk) as (_&Hl&Hs).
    apply (covered_same now s); [apply Hc|done|]. intros l _. by rewrite Hl.
  - unfold update_lock, reads. rewrite (pbind_Ok _ _ s None s) by (by rewrite Hsch). done.
Qed.

Lemma add_schedule_settled now target sched s :
  vesting_ok now s → schedule s target = None → schedule_ok sched →
  ∃ s', add_vesting_schedule w ED now target (v_locked sched) (per_block sched) (starting_block sched) s = (Ok tt, s') ∧ vesting_ok now s' ∧
    ∀ k, k ≠ target → schedule s' k = schedule s k.
Proof.
  intros [Hb Hc] Hsch Hv. destruct s as [c st]. unfold add_vesting_schedule. destruct (Z.eqb_spec (v_locked sched) 0); [by exists (c, st); split_and!|].
  unfold reads. rewrite (pbind_Ok _ _ (c, st) false (c, st)) by (rewrite Hsch; done). cbv iota.
  rewrite (pbind_Ok _ _ (c, st) tt (c, <[target := sched]> st)) by (by destruct sched).
  set (st1 := <[target := sched]> st).
  assert (schedule (c, st1) target = Some sched) as Hs1 by (unfold schedule; cbn; by apply lookup_insert_eq).
  destruct (update_lock_ok now target (c, st1) sched Hb Hs1 Hv) as (s1&Hrun&Hb1&Hres&_&Hframe).
  assert (∀ k, k ≠ target → schedule s1 k = schedule (c, st) k) as Hsame.
  { intros k Hk. destruct (Hframe k Hk) as (_&_&->). unfold schedule. cbn. by apply lookup_insert_ne. }
  exists s1. split; [unfold ignore; by rewrite Hrun|]. split; [|done]. split; [done|]. intros k. destruct (decide (k = target)) as [->|Hk].
  - unfold covered. cbn [fst] in Hres. pose proof (Hc target) as Hno. unfold covered in Hno. rewrite Hsch in Hno. cbn [fst] in Hno.
    destruct (Z.eqb_spec (locked_at sched now) 0); destruct Hres as [-> Hl].
    + intros l [? _]%Hl. done.
    + split_and!; [done| |intros _; eexists; apply Hl; by right]. intros l [[? _]| ->]%Hl Hid; [done|]. by eexists.
  - destruct (Hframe k Hk) as (_&Hl&Hs). apply (covered_same now (c, st)); [apply Hc|by apply Hsame|intros l _; by rewrite Hl].
Qed.

(** Operations on balances do not touch the locks of the module. *)
Lemma balances_keep_lock op s who l :
  balanced s → match lock_op op with Some (id, _) => id ≠ VESTING_ID | None => True end → lock_id l = VESTING_ID →
  l ∈ locks (exec w ED op s).2 who ↔ l ∈ locks s who.
Proof.
  intros Hb Hop Hl. destruct (lock_op op) as [[id k]|] eqn:Elock; [|by unfold locks; rewrite (exec_keeps w ED op Elock s)].
  assert (∀ merge amount reasons, (∀ l0 nl, lock_id l0 = lock_id nl → lock_id (merge l0 nl) = lock_id nl) →
    l ∈ locks (put_lock (E := CallError) w ED merge id k amount reasons s).2 who ↔ l ∈ locks s who) as Hput.
  { intros merge amount reasons Hmerge. destruct (decide (amount = 0 ∨ reasons = 0)) as [Hno|Hyes].
    - unfold put_lock. assert ((amount =? 0) || (reasons =? 0) = true) as ->; [|done]. destruct Hno as [-> | ->]; [done|]. by rewrite orb_true_r.
    - destruct (put_lock_ok (E := CallError) w ED Hw HED merge id k amount reasons s Hb) as (s1&->&_&Hel&_&Hframe); [naive_solver..|]. cbn [snd].
      destruct (decide (who = k)) as [->|Hk]; [|by rewrite (proj2 (Hframe who Hk))]. rewrite Hel. split; [|naive_solver].
      intros [[_ ?]| ->]; [done|]. exfalso. apply Hop. rewrite <- Hl. unfold new_lock, first_lock.
      destruct (head (base.filter _ (locks s k))) as [l0|] eqn:Eh; [|done]. symmetry. apply Hmerge.
      by apply head_Some_elem_of, list_elem_of_filter in Eh as [? _]. }
  destruct op; cbn in Elock; simplify_eq; cbn [exec].
  - by apply Hput.
  - by apply Hput.
  - destruct (remove_lock_ok (E := CallError) w ED Hw HED id k s Hb) as (s1&->&_&Hel&_&Hframe). cbn [snd].
    destruct (decide (who = k)) as [->|Hk]; [|by rewrite (proj2 (Hframe who Hk))]. rewrite Hel. naive_solver.
Qed.

Lemma vexec_ok now op s : vesting_ok now s → vvalid op s → vsettled now s (vexec now op s).
Proof.
  intros Hok Hval. destruct op as [op|origin|origin target|origin target sched]; cbn [vexec].
  - destruct Hval as [Hval Hop]. destruct s as [c st]. destruct Hok as [Hb Hc]. pose proof (exec_ok w ED Hw HED op c Hb Hval) as He.
    assert (∀ who l, lock_id l = VESTING_ID → l ∈ locks (exec w ED op c).2 who ↔ l ∈ locks c who) as Hl by (intros; by apply balances_keep_lock).
    unfold currency. cbn [fst snd]. destruct (exec w ED op c) as [[[]|e|] c1]; cbn in He; [|by subst|done].
    split; [done|]. intros who. apply (covered_same now (c, st)); [apply Hc|done|]. intros l Hid. by apply Hl.
  - unfold vest. destruct origin as [|who|]; [done| |done]. pose proof (update_lock_settled now who s Hok) as Hu. cbn [signed].
    rewrite (pbind_Ok _ _ s who s) by done. unfold in_module. by destruct (update_lock w ED now who s) as [[[]|e|] s1].
  - unfold vest_other. destruct origin as [|who|]; [done| |done]. pose proof (update_lock_settled now target s Hok) as Hu. cbn [signed].
    rewrite (pbind_Ok _ _ s who s) by done. unfold in_module. by destruct (update_lock w ED now target s) as [[[]|e|] s1].
  - unfold vested_transfer. destruct origin as [|who|]; [done| |done]. cbn [signed]. rewrite (pbind_Ok _ _ s who s) by done.
    unfold require. destruct (MinVestedTransfer <=? v_locked sched); [|done]. rewrite (pbind_Ok _ _ s tt s) by done.
    unfold reads. rewrite (pbind_Ok _ _ s (bool_decide (is_Some (schedule s target))) s) by done.
    destruct (schedule s target) as [v|] eqn:Hsch; [done|]. cbn [negb bool_decide]. rewrite (pbind_Ok _ _ s tt s) by done.
    destruct s as [c st], Hok as [Hb Hc]. pose proof (transfer_settled w ED Hw HED who target (v_locked sched) AllowDeath c Hb ltac:(apply Hval)) as Ht.
    pose proof (keeps_transfer w ED who target (v_locked sched) AllowDeath c) as Hk. unfold settled, of_module in Ht. unfold mbind at 1, P_bind, currency. cbn [fst snd].
    destruct (currency_transfer w ED who target (v_locked sched) AllowDeath c) as [[[]|e|] c1]; cbn in Ht, Hk; [|by subst|done].
    destruct (add_schedule_settled now target sched (c1, st)) as (s2&Hrun&Hs2&_); [|done|done|unfold unwrap; by rewrite Hrun].
    split; [done|]. intros k. apply (covered_same now (c, st)); [apply Hc|done|]. intros l _. cbn. unfold locks. by rewrite Hk.
Qed.

(** Blocks go by between operations that satisfy [Q]. *)
Inductive vreach (Q : VOp → Prop) (now : Z) (s : State * gmap AccountId VestingInfo) : Z → State * gmap AccountId VestingInfo → Prop :=
  | vreach_start : vreach Q now s now s
  | vreach_step now1 s1 now2 op : vreach Q now s now1 s1 → now1 ≤ now2 → vvalid op s1 → Q op → vreach Q now s now2 (vexec now2 op s1).2
  | vreach_wait now1 s1 now2 : vreach Q now s now1 s1 → now1 ≤ now2 → vreach Q now s now2 s1.

Lemma vesting_ok_later now now' s : now ≤ now' → vesting_ok now s → vesting_ok now' s.
Proof. intros Hn [Hb Hc]. split; [done|]. intros who. by apply (covered_later now). Qed.

Lemma vreach_ok Q now s now' s' : vesting_ok now s → vreach Q now s now' s' → vesting_ok now' s'.
Proof.
  intros Hok. induction 1 as [|now1 s1 now2 op _ IH Hn Hval _|now1 s1 now2 _ IH Hn]; [done| |by apply (vesting_ok_later now1)].
  pose proof (vesting_ok_later now1 now2 s1 Hn IH) as Hok1. pose proof (vexec_ok now2 op s1 Hok1 Hval) as Hx.
  destruct (vexec now2 op s1) as [[[]|e|] s2]; cbn in Hx |- *; [done|by subst|done].
Qed.

(** No new schedule is made for [who]. *)
Definition no_transfer who (op : VOp) : Prop := match op with VVestedTransfer _ target _ => target ≠ who | _ => True end.

Lemma update_lock_schedule now k s who v :
  vesting_ok now s → schedule s who = Some v ∨ schedule s who = None →
  let s' := (update_lock w ED now k s).2 in schedule s' who = Some v ∨ schedule s' who = None.
Proof.
  intros [Hb Hc] Hv. destruct (schedule s k) as [vk|] eqn:Hsch.
  - assert (schedule_ok vk) as Hvk by (pose proof (Hc k) as Hck; unfold covered in Hck; rewrite Hsch in Hck; apply Hck).
    destruct (update_lock_ok now k s vk Hb Hsch Hvk) as (s1&->&_&Hres&_&Hframe). cbn [snd]. destruct (decide (who = k)) as [->|Hk].
    + rewrite Hsch in Hv. destruct (locked_at vk now =? 0); destruct Hres as [-> _]; [by right|]. destruct Hv as [?|?]; [by left|done].
    + by destruct (Hframe who Hk) as (_&_&->).
  - unfold update_lock, reads. rewrite (pbind_Ok _ _ s None s) by (by rewrite Hsch). done.
Qed.

Lemma vexec_schedule now op s who v :
  vesting_ok now s → vvalid op s → no_transfer who op → schedule s who = Some v ∨ schedule s who = None →
  let s' := (vexec now op s).2 in schedule s' who = Some v ∨ schedule s' who = None.
Proof.
  intros Hok Hval Hno Hv. destruct op as [op|origin|origin target|origin target sched]; cbn [vexec].
  - destruct s as [c st]. unfold currency. cbn [fst snd]. by destruct (exec w ED op c) as [[[]|e|] c1].
  - unfold vest. destruct origin as [|k|]; [done| |done]. cbn [signed]. rewrite (pbind_Ok _ _ s k s) by done.
    pose proof (update_lock_schedule now k s who v Hok Hv) as Hu. unfold in_module. by destruct (update_lock w ED now k s) as [[[]|e|] s1].
  - unfold vest_other. destruct origin as [|k|]; [done| |done]. cbn [signed]. rewrite (pbind_Ok _ _ s k s) by done.
    pose proof (update_lock_schedule now target s who v Hok Hv) as Hu. unfold in_module. by destruct (update_lock w ED now target s) as [[[]|e|] s1].
  - cbn in Hno. unfold vested_transfer. destruct origin as [|k|]; [done| |done]. cbn [signed]. rewrite (pbind_Ok _ _ s k s) by done.
    unfold require. destruct (MinVestedTransfer <=? v_locked sched); [|done]. rewrite (pbind_Ok _ _ s tt s) by done.
    unfold reads. rewrite (pbind_Ok _ _ s (bool_decide (is_Some (schedule s target))) s) by done.
    destruct (schedule s target) as [vt|] eqn:Hsch; [done|]. cbn [negb bool_decide]. rewrite (pbind_Ok _ _ s tt s) by done.
    destruct s as [c st], Hok as [Hb Hc]. pose proof (transfer_settled w ED Hw HED k target (v_locked sched) AllowDeath c Hb ltac:(apply Hval)) as Ht.
    pose proof (keeps_transfer w ED k target (v_locked sched) AllowDeath c) as Hk. unfold settled, of_module in Ht.
    destruct (currency_transfer w ED k target (v_locked sched) AllowDeath c) as [[[]|e|] c1] eqn:Ex; cbn in Ht, Hk; [| |done].
    2: { rewrite (pbind_Err _ _ _ _ _ (currency_Err _ _ _ _ _ _ Ex)). by subst c1. }
    rewrite (pbind_Ok _ _ _ _ _ (currency_Ok _ _ _ _ _ _ Ex)).
    destruct (add_schedule_settled now target sched (c1, st)) as (s2&Hrun&_&Hsame); [|done|done|].
    + split; [done|]. intros j. apply (covered_same now (c, st)); [apply Hc|done|]. intros l _. cbn. unfold locks. by rewrite Hk.
    + unfold unwrap. rewrite Hrun. cbn [snd]. rewrite Hsame by done. exact Hv.
Qed.

Lemma vreach_schedule now s now' s' who v :
  vesting_ok now s → schedule s who = Some v → vreach (no_transfer who) now s now' s' → schedule s' who = Some v ∨ schedule s' who = None.
Proof.
  intros Hok Hv Hr. induction Hr as [|now1 s1 now2 op Hr IH Hn Hval Hq|now1 s1 now2 Hr IH Hn]; [by left| |done].
  apply (vexec_schedule now2 op s1 who v); [|done|done|done]. apply (vesting_ok_later now1); [done|]. by apply (vreach_ok (no_transfer who) now s).
Qed.

(** ** Genesis *)

Definition entry_ok (e : AccountId * Z * Z * Z) : Prop := let '(_, begin, length, liquid) := e in 0 ≤ begin ∧ 0 ≤ length ∧ 0 ≤ liquid.

Lemma genesis_entry_ok who begin length liquid s :
  vesting_ok 0 s → entry_ok (who, begin, length, liquid) → free_balance s.1 who ≠ 0 →
  ∃ s', vesting_genesis_entry w ED (who, begin, length, liquid) s = (Ok tt, s') ∧ vesting_ok 0 s' ∧
    ∀ k, free_balance s'.1 k = free_balance s.1 k.
Proof.
  destruct s as [c st]. cbn [fst snd]. intros [Hb Hc] (Hbeg&Hlen&Hliq) Hfree. unfold vesting_genesis_entry, reads.
  rewrite (pbind_Ok _ _ (c, st) (free_balance c who) (c, st)) by done. rewrite (proj2 (Z.eqb_neq _ 0)) by done. cbv zeta.
  set (locked := saturating_sub (free_balance c who) liquid). set (v := MkVesting locked (locked / Z.max length 1) begin). set (st1 := <[who := v]> st).
  rewrite (pbind_Ok _ _ (c, st) tt (c, st1)) by done. pose proof (account_facts w ED Hw HED c who (proj1 Hb)) as F.
  assert (0 ≤ free_balance c who < 2 ^ w) as Hfb by (unfold free_balance, fr in *; lia).
  assert (schedule_ok v) as Hv.
  { split_and!; cbn; [unfold locked, saturating_sub; lia..|apply Z.div_pos; [unfold locked, saturating_sub; lia|lia]|done]. }
  assert (locked_at v 0 ≤ locked) as Hle.
  { rewrite locked_at_eq by done. destruct Hv as ([Hv0 _]&_). unfold v in *. cbn [v_locked per_block starting_block] in *.
    rewrite (Z.max_l 0 (0 - begin)) by lia. lia. }
  destruct (decide (locked = 0)) as [Hz|Hz].
  - exists (c, st1). split; [unfold currency_total, currency, set_lock, put_lock; cbn [fst snd]; by rewrite Hz|]. split; [|done]. split; [done|]. intros k.
    destruct (decide (k = who)) as [->|Hk]; [|apply (covered_same 0 (c, st)); [apply Hc|by apply lookup_insert_ne|done]].
    unfold covered. assert (schedule (c, st1) who = Some v) as -> by apply lookup_insert_eq. pose proof (locked_at_nonneg v 0 Hv). split_and!; [done| |lia].
    cbn [fst]. pose proof (Hc who) as Hcw. unfold covered in Hcw. destruct (schedule (c, st) who) as [v0|].
    + destruct Hcw as (Hv0&Hl&_). intros l Hin Hid. destruct (Hl l Hin Hid) as (a&->&Ha). exists a. split; [done|]. pose proof (locked_at_nonneg v0 0 Hv0). lia.
    + intros l Hin Hid. by destruct (Hcw l Hin).
  - destruct (put_lock_ok (E := Empty_set) w ED Hw HED (λ _ nl, nl) VESTING_ID who locked lock_purposes c Hb Hz ltac:(done)) as (c1&Hrun&Hb1&Hl1&Ha1&Hf1).
    exists (c1, st1). split; [by apply currency_Ok|]. cbn [fst snd]. split.
    + split; [done|]. intros k. destruct (decide (k = who)) as [->|Hk].
      * unfold covered. assert (schedule (c1, st1) who = Some v) as -> by apply lookup_insert_eq. cbn [fst].
        assert (∀ l, l ∈ locks c1 who ↔ (lock_id l ≠ VESTING_ID ∧ l ∈ locks c who) ∨ l = vesting_lock locked) as Hl2.
        { intros l. rewrite Hl1. unfold new_lock. by destruct (first_lock _ _). }
        split_and!; [done| |intros _; exists locked; apply Hl2; by right]. intros l [[? _]| ->]%Hl2 Hid; [done|]. by eexists.
      * apply (covered_same 0 (c, st)); [apply Hc|by apply lookup_insert_ne|]. intros l _. cbn. by rewrite (proj2 (Hf1 k Hk)).
    + intros k. unfold free_balance. destruct (decide (k = who)) as [->|Hk]; [|unfold account; by rewrite (proj1 (Hf1 k Hk))].
      rewrite Ha1; [done|]. unfold free_balance, fr in *. lia.
Qed.

Lemma vesting_genesis_ok entries s s' :
  vesting_ok 0 s → Forall entry_ok entries → vesting_genesis w ED entries s = (Ok tt, s') → vesting_ok 0 s'.
Proof.
  intros Hok Hall. revert s Hok. induction Hall as [|[[[who begin] length] liquid] entries He _ IH]; intros s Hok Hrun; [by injection Hrun as <-|].
  cbn [vesting_genesis] in Hrun. destruct (decide (free_balance s.1 who = 0)) as [Hz|Hz].
  - unfold vesting_genesis_entry, reads in Hrun. unfold mbind, P_bind in Hrun. rewrite Hz in Hrun. done.
  - destruct (genesis_entry_ok who begin length liquid s Hok He Hz) as (s1&Hrun1&Hok1&_). rewrite (pbind_Ok _ _ _ _ _ Hrun1) in Hrun. by apply (IH s1).
Qed.

Lemma start_ok c : balanced c → locks_map c = ∅ → vesting_ok 0 (c, ∅).
Proof.
  intros Hb Hl. split; [done|]. intros who. unfold covered, schedule. cbn. rewrite lookup_empty. intros l Hin. unfold locks in Hin.
  rewrite Hl, lookup_empty in Hin. by apply elem_of_nil in Hin.
Qed.

End vesting.

(** ** Theorems *)

Section theorems.
Context {AccountId : Type} `{Countable AccountId} (w ED MinVestedTransfer : Z).
Implicit Types (who caller : AccountId).

(** C10. From genesis on, after any calls of this module and any operations on
    balances and on other locks, at any later blocks: the books balance; an account
    without a schedule has no lock of the module; one with a schedule has, as long
    as something is not vested, a lock for all but fees of at least the amount that
    is still locked at that block; and the next operation does not panic, and has
    no effect if it fails. *)
Theorem vesting_locks_cover balances c entries s now s' :
  32 ≤ w → 0 < ED → NoDup balances.*1 → genesis w ED balances = Ok c →
  Forall (entry_ok (AccountId := AccountId)) entries → vesting_genesis w ED entries (c, ∅) = (Ok tt, s) →
  vreach w ED MinVestedTransfer (λ _, True) 0 s now s' →
  balanced w ED s'.1 ∧
  (∀ who,
    match schedule s' who with
    | None => ∀ l, l ∈ locks s'.1 who → lock_id l ≠ VESTING_ID
    | Some v =>
        let left := Z.max 0 (v_locked v - per_block v * Z.max 0 (now - starting_block v)) in
        locked_at w v now = left ∧
        (∀ l, l ∈ locks s'.1 who → lock_id l = VESTING_ID → lock_reasons l = Misc ∧ left ≤ lock_amount l) ∧
        (0 < left → ∃ l, l ∈ locks s'.1 who ∧ lock_id l = VESTING_ID)
    end) ∧
  ∀ op, vvalid w op s' →
    match vexec w ED MinVestedTransfer now op s' with
    | (Ok _, _) => True
    | (Err _, s'') => s'' = s'
    | (Panic, _) => False
    end.
Proof.
  intros Hw HED Hnd Hg Hent Hvg Hr.
  assert (vesting_ok w ED 0 s) as H0.
  { apply (vesting_genesis_ok w ED Hw HED entries (c, ∅)); [|done|done]. apply start_ok; [by apply (genesis_ok w ED Hw HED balances)|].
    by apply (genesis_locks w ED balances). }
  pose proof (vreach_ok w ED MinVestedTransfer Hw HED _ 0 s now s' H0 Hr) as Hok. destruct Hok as [Hb Hc]. split; [done|]. split.
  - intros who. pose proof (Hc who) as Hcw. unfold covered in Hcw. destruct (schedule s' who) as [v|]; [|done]. destruct Hcw as (Hv&Hl&Hex).
    cbv zeta. rewrite <- (locked_at_eq w v now Hv). split_and!; [done| |].
    + intros l Hin Hid. by destruct (Hl l Hin Hid) as (a&->&Ha).
    + intros Hpos. destruct (Hex ltac:(lia)) as (a&Ha). by eexists.
  - intros op Hval. pose proof (vexec_ok w ED MinVestedTransfer Hw HED now op s' (conj Hb Hc) Hval) as Hx.
    by destruct (vexec _ _ _ now op s') as [[[]|e|] s2].
Qed.

(** C17. A schedule that unlocks something with every block ends: whatever is done
    in the meantime, other than making a new schedule for the account, at any block
    from the computed end on a call by anyone to update the lock leaves the account
    without a schedule and without a lock of the module, with the same funds and
    all its other locks; if it was not done before, only they freeze funds. *)
Theorem vesting_completes who v now s now' s' caller :
  32 ≤ w → 0 < ED → vesting_ok w ED now s → schedule s who = Some v → 0 < per_block v →
  vreach w ED MinVestedTransfer (no_transfer who) now s now' s' → ends v ≤ now' →
  let '(r, s'') := vest_other w ED now' (Signed caller) who s' in
  (r = Ok tt ∨ (r = Err (DispatchModule NotVesting) ∧ s'' = s')) ∧
  schedule s'' who = None ∧
  (∀ l, l ∈ locks s''.1 who ↔ lock_id l ≠ VESTING_ID ∧ l ∈ locks s'.1 who) ∧
  (r = Ok tt → fr (account s'.1 who) ≠ 0 →
    account s''.1 who = MkAccount (free (account s'.1 who)) (reserved (account s'.1 who)) (locked Misc (locks s''.1 who)) (locked Fee (locks s''.1 who))) ∧
  (∀ k, k ≠ who → info s''.1 k = info s'.1 k).
Proof.
  intros Hw HED Hok Hsch Hpb Hr Hend. pose proof (vreach_ok w ED MinVestedTransfer Hw HED _ now s now' s' Hok Hr) as [Hb Hc].
  pose proof (Hc who) as Hcw. unfold vest_other. cbn [signed]. rewrite (pbind_Ok _ _ s' caller s') by done. unfold in_module.
  destruct (vreach_schedule w ED MinVestedTransfer Hw HED now s now' s' who v Hok Hsch Hr) as [Hs'|Hs'].
  - unfold covered in Hcw. rewrite Hs' in Hcw. destruct Hcw as (Hv&_).
    destruct (update_lock_ok w ED Hw HED now' who s' v Hb Hs' Hv) as (s2&->&_&Hres&Hacc&Hframe).
    rewrite (proj2 (locked_at_ends w v now' Hv Hpb)), Z.eqb_refl in Hres by (by right). destruct Hres as [Hn Hl].
    split_and!; [by left|done|done|intros _; exact Hacc|]. intros k Hk. apply (Hframe k Hk).
  - unfold covered in Hcw. rewrite Hs' in Hcw. unfold update_lock, reads. rewrite (pbind_Ok _ _ s' None s') by (by rewrite Hs'). cbn.
    split_and!; [by right|done| |done|done]. intros l. split; [|naive_solver]. intros Hin. split; [by apply Hcw|done].
Qed.

End theorems.

(** ** A small chain *)

Module SmallVesting.

(** Account 1 has 100, of which 60 vest from block 10 on, 3 with every block. *)
Definition entries : list (nat * Z * Z * Z) := [(1%nat, 10, 20, 40)].
Definition start : State (AccountId := nat) * gmap nat VestingInfo := (vesting_genesis 128 10 entries (SmallChain.start, ∅)).2.

Lemma entries_ok : Forall entry_ok entries.
Proof. repeat constructor; cbn; lia. Qed.

Lemma vesting_start_genesis : vesting_genesis 128 10 entries (SmallChain.start, ∅) = (Ok tt, start).
Proof. vm_compute. reflexivity. Qed.

Lemma start_vesting : vesting_ok 128 10 0 start.
Proof.
  apply (vesting_genesis_ok 128 10 ltac:(lia) ltac:(lia) entries (SmallChain.start, ∅)); [|exact entries_ok|exact vesting_start_genesis].
  apply start_ok; [exact SmallChain.start_balanced|vm_compute; reflexivity].
Qed.

(** At block 15 the lock is brought up to date, and 45 are left; then 50 go to
    account 2. *)
Definition later := (vexec 128 10 1 15 (VVest (Signed 1%nat)) start).2.
Definition spent := (vexec 128 10 1 15 (VBalances (OpTransfer (Signed 1%nat) 2%nat 50)) later).2.

Lemma later_reach Q : Q (VVest (Signed 1%nat)) → vreach 128 10 1 Q 0 start 15 later.
Proof. intros HQ. by apply (vreach_step 128 10 1 Q 0 start 0 start 15 (VVest (Signed 1%nat))); [constructor|lia|..]. Qed.

Lemma spent_reach Q : Q (VVest (Signed 1%nat)) → Q (VBalances (OpTransfer (Signed 1%nat) 2%nat 50)) → vreach 128 10 1 Q 0 start 30 spent.
Proof.
  intros HQ HQ'. apply (vreach_wait 128 10 1 Q 0 start 15); [|lia].
  apply (vreach_step 128 10 1 Q 0 start 15 later 15 (VBalances (OpTransfer (Signed 1%nat) 2%nat 50))); [by apply later_reach|lia| |done].
  split; [vm_compute; reflexivity|done].
Qed.

Lemma vesting_locks_cover_witness :
  balanced 128 10 later.1 ∧ schedule later 1%nat = Some (MkVesting 60 3 10) ∧
  (∃ l, l ∈ locks later.1 1%nat ∧ lock_id l = VESTING_ID ∧ 45 ≤ lock_amount l).
Proof.
  destruct (vesting_locks_cover 128 10 1 [(1%nat, 100); (2%nat, 50)] SmallChain.start entries start 15 later) as (Hb&Hc&_);
    [lia|lia|by apply (bool_decide_unpack _); vm_compute|exact SmallChain.start_genesis|exact entries_ok|exact vesting_start_genesis|by apply later_reach|].
  split; [exact Hb|]. assert (schedule later 1%nat = Some (MkVesting 60 3 10)) as Hs by (vm_compute; reflexivity). split; [exact Hs|].
  specialize (Hc 1%nat). rewrite Hs in Hc. destruct Hc as (_&Hl&Hex). destruct Hex as (l&Hin&Hid); [vm_compute; reflexivity|].
  exists l. split_and!; [exact Hin|exact Hid|]. destruct (Hl l Hin Hid) as [_ Hle]. revert Hle. vm_compute. auto.
Defined.

Lemma vesting_completes_witness :
  let '(r, s) := vest_other 128 10 30 (Signed 2%nat) 1%nat spent in
  r = Ok tt ∧ schedule s 1%nat = None ∧ usable_balance s.1 1%nat = 50.
Proof.
  pose proof (vesting_completes 128 10 1 1%nat (MkVesting 60 3 10) 0 start 30 spent 2%nat ltac:(lia) ltac:(lia) start_vesting
    ltac:(vm_compute; reflexivity) ltac:(cbn; lia) (spent_reach _ I I) ltac:(vm_compute; discriminate)) as T.
  assert ((vest_other 128 10 30 (Signed 2%nat) 1%nat spent).1 = Ok tt) as Hr by (vm_compute; reflexivity).
  assert (usable_balance (vest_other 128 10 30 (Signed 2%nat) 1%nat spent).2.1 1%nat = 50) as Hu by (vm_compute; reflexivity).
  destruct (vest_other 128 10 30 (Signed 2%nat) 1%nat spent) as [r s]. destruct T as (_&Hn&_). cbn in Hr, Hu. auto.
Defined.

(** ** Schedules that do not end *)

(** Removing a schedule leaves its lock: the update of the lock finds no schedule,
    and no later call can remove it. *)
Definition removed := (remove_vesting_schedule (E := Empty_set) 128 10 15 1%nat start).2.

Lemma removed_schedule_keeps_lock :
  schedule removed 1%nat = None ∧ locks removed.1 1%nat = [MkLock VESTING_ID 60 Misc] ∧ misc_frozen (account removed.1 1%nat) = 60 ∧
  ∀ now, vest 128 10 now (Signed 1%nat) removed = (Err (DispatchModule NotVesting), removed).
Proof. split_and!; [vm_compute; reflexivity..|]. intros now. vm_compute. reflexivity. Qed.

(** A genesis entry that should vest 60 within 61 blocks never does. *)
Definition slow : State (AccountId := nat) * gmap nat VestingInfo := (vesting_genesis 128 10 [(1%nat, 10, 61, 40)] (SmallChain.start, ∅)).2.

Lemma slow_entry_never_vests : schedule slow 1%nat = Some (MkVesting 60 0 10) ∧ ∀ now, locked_at 128 (MkVesting 60 0 10) now = 60.
Proof.
  split; [vm_compute; reflexivity|]. intros now. rewrite locked_at_eq; cbn; [lia|]. split_and!; cbn; [lia| |lia|lia]. by vm_compute.
Qed.

End SmallVesting.
