(* ===== verification/Treasury.v ===== *)
(** * The treasury (src/frame/treasury/src/lib.rs)

    Spending proposals with their bonds, the approved ones, which are paid from the
    pot at the end of every spend period, and tips.  The handler for the bond of a
    rejected proposal drops it, as in the node runtime
    (src/bin/node/runtime/src/lib.rs); the origins that approve and reject, the set
    of tippers and the hash functions are parameters.  An arithmetic overflow is a
    panic. *)
From S2P Require Import Prelude PerThings Balances BalancesFacts Payment Pallet.

Local Open Scope Z_scope.

Inductive TreasuryError : Type :=
  | InsufficientProposersBalance | InvalidProposalIndex | ReasonTooBig | AlreadyKnown
  | UnknownTip | NotFinder | StillOpen | Premature.

Abbreviation Hash := (list Z).

Section treasury.
Context {AccountId : Type} `{Countable AccountId}.

Record Proposal : Type := MkProposal {
  proposer : AccountId;
  p_value : Z;
  beneficiary : AccountId;
  bond : Z;
}.

Record OpenTip : Type := MkTip {
  reason : Hash;
  tip_who : AccountId;
  finder : option (AccountId * Z);
  closes : option Z;
  tips_given : list (AccountId * Z);
}.

Record Store : Type := MkStore {
  proposal_count : Z;
  proposals : gmap Z Proposal;
  approvals : list Z;
  tips : gmap Hash OpenTip;
  reasons : gmap Hash (list Z);
}.

Definition set_proposals (f : gmap Z Proposal → gmap Z Proposal) (t : Store) : Store :=
  MkStore (proposal_count t) (f (proposals t)) (approvals t) (tips t) (reasons t).
Definition set_approvals (f : list Z → list Z) (t : Store) : Store :=
  MkStore (proposal_count t) (proposals t) (f (approvals t)) (tips t) (reasons t).
Definition set_tips (f : gmap Hash OpenTip → gmap Hash OpenTip) (t : Store) : Store :=
  MkStore (proposal_count t) (proposals t) (approvals t) (f (tips t)) (reasons t).
Definition set_reasons (f : gmap Hash (list Z) → gmap Hash (list Z)) (t : Store) : Store :=
  MkStore (proposal_count t) (proposals t) (approvals t) (tips t) (f (reasons t)).

Context (w ExistentialDeposit : Z) (account_id : AccountId).
(** The configuration: the origins, the order of accounts, the tippers, and the
    hashes of a reason and of a hash with an account. *)
Context (approve_origin reject_origin : Origin (AccountId := AccountId) → bool).
Context (compare : AccountId → AccountId → comparison) (sorted_members : list AccountId).
Context (hash : list Z → Hash) (hash_of : Hash * AccountId → Hash).
Context (TipCountdown TipFindersFee TipReportDepositBase TipReportDepositPerByte : Z).
Context (ProposalBond ProposalBondMinimum SpendPeriod Burn : Z).

Local Abbreviation State := (State (AccountId := AccountId)).
Local Abbreviation T := (P (AccountId := AccountId) (S := Store)).
Local Abbreviation Dispatch := (DispatchError TreasuryError).

(** The pot, without the existential deposit. *)
Definition pot (c : State) : Z := saturating_sub (free_balance c account_id) ExistentialDeposit.

(** ** Proposals *)

Definition calculate_bond (value : Z) : run Z :=
  b ← pt_mul Permill w ProposalBond value;
  Ok (Z.max ProposalBondMinimum b).

Definition propose_spend (origin : Origin) (value : Z) (beneficiary : AccountId) : T Dispatch unit :=
  proposer ← signed origin;
  bond ← runs (calculate_bond value);
  currency (λ _, DispatchModule InsufficientProposersBalance) (reserve w ExistentialDeposit proposer bond) ;;
  c ← reads (λ s, proposal_count s.2);
  next ← runs (uadd 32 c 1);
  writes (λ t, MkStore next (proposals t) (approvals t) (tips t) (reasons t)) ;;
  writes (set_proposals <[c := MkProposal proposer value beneficiary bond]>) ;;
  event (Proposed c).

Definition reject_proposal (origin : Origin) (proposal_id : Z) : T Dispatch unit :=
  require (reject_origin origin) DispatchBadOrigin ;;
  taken ← reads (λ s, proposals s.2 !! proposal_id);
  writes (set_proposals (delete proposal_id)) ;;
  proposal ← some_or taken (DispatchModule InvalidProposalIndex);
  let value := bond proposal in
  '(imbalance, _) ← currency_total (slash_reserved w ExistentialDeposit (proposer proposal) value);
  currency_total (drop_negative imbalance) ;;
  event (Rejected proposal_id value).

Definition approve_proposal (origin : Origin) (proposal_id : Z) : T Dispatch unit :=
  require (approve_origin origin) DispatchBadOrigin ;;
  known ← reads (λ s, bool_decide (is_Some (proposals s.2 !! proposal_id)));
  require known (DispatchModule InvalidProposalIndex) ;;
  writes (set_approvals (λ v, v ++ [proposal_id])).

(** ** Tips *)

Definition contains_member (who : AccountId) : bool :=
  match binary_search_by (λ m, compare m who) sorted_members with inl _ => true | inr _ => false end.

Definition report_awesome (origin : Origin) (the_reason : list Z) (who : AccountId) : T Dispatch unit :=
  finder ← signed origin;
  require (Z.of_nat (length the_reason) <=? 16384) (DispatchModule ReasonTooBig) ;;
  let reason_hash := hash the_reason in
  known ← reads (λ s, bool_decide (is_Some (reasons s.2 !! reason_hash)));
  require (negb known) (DispatchModule AlreadyKnown) ;;
  let h := hash_of (reason_hash, who) in
  open ← reads (λ s, bool_decide (is_Some (tips s.2 !! h)));
  require (negb open) (DispatchModule AlreadyKnown) ;;
  by_bytes ← runs (umul w TipReportDepositPerByte (wrap 32 (Z.of_nat (length the_reason))));
  deposit ← runs (uadd w TipReportDepositBase by_bytes);
  currency DispatchCurrency (reserve w ExistentialDeposit finder deposit) ;;
  writes (set_reasons <[reason_hash := the_reason]>) ;;
  writes (set_tips <[h := MkTip reason_hash who (Some (finder, deposit)) None []]>) ;;
  event (NewTip h).

Definition retract_tip (origin : Origin) (h : Hash) : T Dispatch unit :=
  who ← signed origin;
  found ← reads (λ s, tips s.2 !! h);
  tip ← some_or found (DispatchModule UnknownTip);
  '(the_finder, deposit) ← some_or (finder tip) (DispatchModule NotFinder);
  require (bool_decide (the_finder = who)) (DispatchModule NotFinder) ;;
  writes (set_reasons (delete (reason tip))) ;;
  writes (set_tips (delete h)) ;;
  ignore (E := Empty_set) (currency_total (unreserve w ExistentialDeposit who deposit)) ;;
  event (TipRetracted h).

Definition tip_new (origin : Origin) (the_reason : list Z) (who : AccountId) (tip_value : Z) : T Dispatch unit :=
  tipper ← signed origin;
  require (contains_member tipper) DispatchBadOrigin ;;
  let reason_hash := hash the_reason in
  known ← reads (λ s, bool_decide (is_Some (reasons s.2 !! reason_hash)));
  require (negb known) (DispatchModule AlreadyKnown) ;;
  let h := hash_of (reason_hash, who) in
  writes (set_reasons <[reason_hash := the_reason]>) ;;
  event (NewTip h) ;;
  writes (set_tips <[h := MkTip reason_hash who None None [(tipper, tip_value)]]>).

(** The loop of the closure of [retain] for the account [a]: the members from the
    current one on. *)
Fixpoint advance (members : list AccountId) (a : AccountId) : bool * list AccountId :=
  match members with
  | [] => (false, [])
  | m :: rest =>
      match compare m a with
      | Gt => (false, members)
      | Lt => advance rest a
      | Eq => (true, rest)
      end
  end.

Fixpoint retain_with (members : list AccountId) (ts : list (AccountId * Z)) : list (AccountId * Z) :=
  match ts with
  | [] => []
  | t :: ts' =>
      let '(keep, members') := advance members t.1 in
      if (keep : bool) then t :: retain_with members' ts' else retain_with members' ts'
  end.

Definition retain_active_tips (ts : list (AccountId * Z)) : list (AccountId * Z) := retain_with sorted_members ts.

Definition insert_tip (ts : list (AccountId * Z)) (tipper : AccountId) (tip_value : Z) : list (AccountId * Z) :=
  match binary_search_by (λ t, compare t.1 tipper) ts with
  | inl pos => <[pos := (tipper, tip_value)]> ts
  | inr pos => vec_insert pos (tipper, tip_value) ts
  end.

Definition insert_tip_and_check_closing (now : Z) (tip : OpenTip) (tipper : AccountId) (tip_value : Z) : run (OpenTip * bool) :=
  let ts := retain_active_tips (insert_tip (tips_given tip) tipper tip_value) in
  let threshold := ((length sorted_members + 1) / 2)%nat in
  if (threshold <=? length ts)%nat && bool_decide (closes tip = None) then
    n ← uadd 32 now TipCountdown;
    Ok (MkTip (reason tip) (tip_who tip) (finder tip) (Some n) ts, true)
  else Ok (MkTip (reason tip) (tip_who tip) (finder tip) (closes tip) ts, false).

Definition tip (now : Z) (origin : Origin) (h : Hash) (tip_value : Z) : T Dispatch unit :=
  tipper ← signed origin;
  require (contains_member tipper) DispatchBadOrigin ;;
  found ← reads (λ s, tips s.2 !! h);
  open ← some_or found (DispatchModule UnknownTip);
  '(open', closing) ← runs (insert_tip_and_check_closing now open tipper tip_value);
  (if (closing : bool) then event (TipClosing h) else mret tt) ;;
  writes (set_tips <[h := open']>).

(** The payout is the median of the tips of those who still are tippers. *)
Definition payout_tip {E} (tip : OpenTip) : T E unit :=
  let ts := sort_by (λ a b, a.2 <=? b.2) (retain_active_tips (tips_given tip)) in
  max_payout ← reads (λ s, free_balance s.1 account_id);
  median ← runs (expect (ts !! (length ts / 2)%nat));
  let payout := Z.min median.2 max_payout in
  payout ← match finder tip with
    | Some (the_finder, deposit) =>
        ignore (E := Empty_set) (currency_total (unreserve w ExistentialDeposit the_finder deposit)) ;;
        if bool_decide (the_finder ≠ tip_who tip) then
          finders_fee ← runs (pt_mul Percent w TipFindersFee payout);
          ignore (currency id (currency_transfer w ExistentialDeposit account_id the_finder finders_fee AllowDeath)) ;;
          mret (payout - finders_fee)
        else mret payout
    | None => mret payout
    end;
  ignore (currency id (currency_transfer w ExistentialDeposit account_id (tip_who tip) payout AllowDeath)).

Definition close_tip (now : Z) (origin : Origin (AccountId := AccountId)) (h : Hash) : T Dispatch unit :=
  signed origin ;;
  found ← reads (λ s, tips s.2 !! h);
  open ← some_or found (DispatchModule UnknownTip);
  n ← some_or (closes open) (DispatchModule StillOpen);
  require (n <=? now) (DispatchModule Premature) ;;
  writes (set_reasons (delete (reason open))) ;;
  writes (set_tips (delete h)) ;;
  payout_tip open.

(** ** Spending *)

(** What the closure of [retain] changes: the budget that remains, whether a
    proposal was missed, and the imbalance. *)
Record Spend : Type := MkSpend { budget_remaining : Z; missed_any : bool; imbalance : Z }.

(** Whether the index is kept. *)
Definition spend_one {E} (index : Z) (sp : Spend) : T E (bool * Spend) :=
  found ← reads (λ s, proposals s.2 !! index);
  match found with
  | Some p =>
      if p_value p <=? budget_remaining sp then
        writes (set_proposals (delete index)) ;;
        ignore (E := Empty_set) (currency_total (unreserve w ExistentialDeposit (proposer p) (bond p))) ;;
        created ← currency_total (deposit_creating w ExistentialDeposit (beneficiary p) (p_value p));
        event (Awarded index (p_value p) (beneficiary p)) ;;
        mret (false, MkSpend (budget_remaining sp - p_value p) (missed_any sp) (imbalance_merge w (imbalance sp) created))
      else mret (true, MkSpend (budget_remaining sp) true (imbalance sp))
  | None => mret (false, sp)
  end.

Fixpoint spend_all {E} (indices : list Z) (sp : Spend) : T E (list Z * Spend) :=
  match indices with
  | [] => mret ([], sp)
  | index :: indices' =>
      '(keep, sp1) ← spend_one index sp;
      '(kept, sp2) ← spend_all indices' sp1;
      mret (if (keep : bool) then index :: kept else kept, sp2)
  end.

Definition spend_funds {E} : T E unit :=
  budget ← reads (λ s, pot s.1);
  event (Spending budget) ;;
  indices ← reads (λ s, approvals s.2);
  '(kept, sp) ← spend_all indices (MkSpend budget false 0);
  writes (set_approvals (λ _, kept)) ;;
  sp ← (if negb (missed_any sp) then
      share ← runs (pt_mul Permill w Burn (budget_remaining sp));
      let burnt := Z.min share (budget_remaining sp) in
      burnt_imbalance ← currency_total (burn burnt);
      event (Burnt burnt) ;;
      mret (MkSpend (budget_remaining sp - burnt) (missed_any sp) (imbalance_merge w (imbalance sp) burnt_imbalance))
    else mret sp);
  problem ← currency_total (settle w ExistentialDeposit account_id (imbalance sp) Transfer KeepAlive);
  match problem with Some rest => currency_total (drop_positive w rest) | None => mret tt end ;;
  event (Rollover (budget_remaining sp)).

Definition on_finalize {E} (n : Z) : T E unit :=
  r ← runs (urem n SpendPeriod);
  if r =? 0 then spend_funds else mret tt.

(** The genesis block creates the account with the existential deposit. *)
Definition treasury_genesis : T Empty_set unit :=
  created ← currency_total (make_free_balance_be w ExistentialDeposit account_id ExistentialDeposit);
  match created with
  | Positive a => currency_total (drop_positive w a)
  | Negative a => currency_total (drop_negative a)
  end.

End treasury.
