(* ===== verification/TreasuryFacts.v ===== *)
(** * The treasury keeps its books *)
From S2P Require Import Prelude PerThings Balances BalancesFacts BalancesHistory Payment Pallet Treasury.

Local Open Scope Z_scope.

(** ** Tips *)

Section tips.
Context {AccountId : Type} `{Countable AccountId}.
Context (compare : AccountId → AccountId → comparison).

Context (Hord : total_order compare).
Local Abbreviation lt := (λ a b, compare a b = Lt).
Local Abbreviation by_account := (λ t u : AccountId * Z, compare t.1 u.1 = Lt).

(** The loop skips the members before the account. *)
Lemma advance_ok members a :
  StronglySorted lt members →
  let '(keep, rest) := advance compare members a in
  keep = bool_decide (a ∈ members) ∧ StronglySorted lt rest ∧ ∀ x, compare a x = Lt → x ∈ rest ↔ x ∈ members.
Proof using Hord.
  induction 1 as [|m members Hs IH Hm]; cbn [advance].
  { split_and!; [by rewrite bool_decide_false by apply not_elem_of_nil|constructor|done]. }
  rewrite Forall_forall in Hm. destruct (compare m a) eqn:Hc.
  - apply (compare_eq Hord) in Hc as ->. split_and!; [by rewrite bool_decide_true by (by left)|done|].
    intros x Hx. rewrite elem_of_cons. split; [by right|]. intros [->|?]; [by apply (compare_irrefl Hord) in Hx|done].
  - destruct (advance compare members a) as [keep rest]. destruct IH as (->&Hr&Hrest). split_and!; [|done|].
    + apply bool_decide_ext. rewrite elem_of_cons. split; [by right|]. intros [->|?]; [by apply (compare_irrefl Hord) in Hc|done].
    + intros x Hx. rewrite Hrest by done. rewrite elem_of_cons. split; [by right|]. intros [->|?]; [|done].
      exfalso. apply (compare_irrefl Hord m). by apply (compare_trans Hord m a m).
  - apply (compare_Gt Hord) in Hc. split_and!; [|by constructor; [|apply Forall_forall]|done]. rewrite bool_decide_false; [done|].
    intros [->|Ha]%elem_of_cons; [by apply (compare_irrefl Hord) in Hc|]. specialize (Hm a Ha). apply (compare_irrefl Hord a). by apply (compare_trans Hord a m a).
Qed.

Lemma retain_with_ok members ts :
  StronglySorted lt members → StronglySorted by_account ts → retain_with compare members ts = base.filter (λ t, t.1 ∈ members) ts.
Proof using Hord.
  intros Hm Hts. revert members Hm. induction Hts as [|t ts Hs IH Ht]; intros members Hm; cbn [retain_with]; [done|].
  pose proof (advance_ok members t.1 Hm) as Ha. destruct (advance compare members t.1) as [keep rest]. destruct Ha as (->&Hr&Hrest).
  rewrite Forall_forall in Ht. rewrite filter_cons.
  assert (retain_with compare rest ts = base.filter (λ t, t.1 ∈ members) ts) as ->.
  { rewrite (IH rest Hr). apply filter_ext_in. intros u Hu. apply Hrest. by apply Ht. }
  destruct (decide (t.1 ∈ members)) as [Hin|Hin]; [by rewrite bool_decide_true|by rewrite bool_decide_false].
Qed.

(** Inserting a tip keeps the order, and replaces the tip of the same account. *)
Lemma insert_tip_ok ts tipper v :
  StronglySorted by_account ts →
  StronglySorted by_account (insert_tip compare ts tipper v) ∧
  ∀ a x, (a, x) ∈ insert_tip compare ts tipper v ↔ (a = tipper ∧ x = v) ∨ (a ≠ tipper ∧ (a, x) ∈ ts).
Proof using Hord.
  intros Hs. unfold insert_tip. pose proof (binary_search_ok (λ t : AccountId * Z, compare t.1 tipper) ts) as Hb. cbn beta in Hb.
  match type of Hb with ?P → _ => assert P as Hsorted end.
  { intros i j x y Hx Hy Hij. destruct (decide (i = j)) as [->|Hne]; [simplify_eq; done|].
    pose proof (strongly_sorted_lookup _ ts i j x y Hs Hx Hy ltac:(lia)) as Hxy. cbn in Hxy. split.
    - rewrite !(compare_Gt Hord). intros Hgt. by apply (compare_trans Hord _ x.1).
    - intros Hlt. by apply (compare_trans Hord _ y.1). }
  specialize (Hb Hsorted). destruct (binary_search_by _ ts) as [i|i].
  - destruct Hb as (x&Hx&Heq). apply (compare_eq Hord) in Heq.
    assert (∀ j y, ts !! j = Some y → y.1 = tipper → j = i) as Huniq.
    { intros j y Hy Hyt. destruct (Nat.lt_total i j) as [Hij|[->|Hij]]; [|done|]; exfalso; apply (compare_irrefl Hord tipper).
      - pose proof (strongly_sorted_lookup _ ts i j x y Hs Hx Hy Hij) as Hc. cbn in Hc. by rewrite Heq, Hyt in Hc.
      - pose proof (strongly_sorted_lookup _ ts j i y x Hs Hy Hx Hij) as Hc. cbn in Hc. by rewrite Heq, Hyt in Hc. }
    pose proof (lookup_lt_Some _ _ _ Hx) as Hi. split.
    + apply strongly_sorted_lookup_2. intros j k y z Hy Hz Hjk.
      assert (∀ n u, <[i := (tipper, v)]> ts !! n = Some u → ∃ u', ts !! n = Some u' ∧ u'.1 = u.1) as Hsame.
      { intros n u Hu. destruct (decide (n = i)) as [->|Hn]; [|rewrite list_lookup_insert_ne in Hu by done; eauto].
        rewrite list_lookup_insert_eq in Hu by done. injection Hu as <-. by exists x. }
      destruct (Hsame j y Hy) as (y'&Hy'&<-), (Hsame k z Hz) as (z'&Hz'&<-). exact (strongly_sorted_lookup _ ts j k y' z' Hs Hy' Hz' Hjk).
    + intros a y. split.
      * intros (j&Hj)%list_elem_of_lookup. destruct (decide (j = i)) as [->|Hne].
        -- rewrite list_lookup_insert_eq in Hj by done. injection Hj as <- <-. by left.
        -- rewrite list_lookup_insert_ne in Hj by done. right. split; [|apply list_elem_of_lookup; eauto]. intros ->. apply Hne. by apply (Huniq j (tipper, y)).
      * intros [[-> ->]|[Hne (j&Hj)%list_elem_of_lookup]]; apply list_elem_of_lookup; [exists i; by rewrite list_lookup_insert_eq|].
        exists j. rewrite list_lookup_insert_ne; [done|]. intros <-. rewrite Hx in Hj. by simplify_eq.
  - destruct Hb as (Hi&Hlo&Hhi). unfold vec_insert. destruct (strongly_sorted_take_drop _ ts i Hs) as [Ht Hd].
    assert (∀ u, u ∈ take i ts → compare u.1 tipper = Lt) as Hlo'.
    { intros u (j&Hj)%list_elem_of_lookup. apply lookup_take_Some in Hj as [Hj ?]. eauto. }
    assert (∀ u, u ∈ drop i ts → compare tipper u.1 = Lt) as Hhi'.
    { intros u (j&Hj)%list_elem_of_lookup. rewrite lookup_drop in Hj. apply (compare_Gt Hord). eapply Hhi; [done|lia]. }
    split.
    + apply strongly_sorted_app; [done|constructor; [done|by apply Forall_forall]|]. intros x y Hx [->|Hy]%elem_of_cons; [by apply Hlo'|].
      apply (compare_trans Hord _ tipper); [by apply Hlo'|by apply Hhi'].
    + intros a x. rewrite elem_of_app, elem_of_cons. rewrite <- (take_drop i ts) at 3. rewrite elem_of_app. split.
      * intros [Hin|[[= -> ->]|Hin]]; [right|by left|right]; (split; [|tauto]); intros ->; [apply Hlo' in Hin|apply Hhi' in Hin]; by apply (compare_irrefl Hord) in Hin.
      * intros [[-> ->]|[_ [?|?]]]; tauto.
Qed.

End tips.

(** ** Spending *)

Section spending.
Context {AccountId : Type} `{Countable AccountId}.
Context (w ED : Z) (Hw : 32 ≤ w) (HED : 0 < ED) (account_id : AccountId).
Implicit Types (who k : AccountId).
Local Abbreviation State := (State (AccountId := AccountId)).
Local Abbreviation ok := (ok w ED).
Local Abbreviation balanced := (balanced w ED).
Local Abbreviation Proposal := (Proposal (AccountId := AccountId)).
Implicit Types (s c : State).

(** The funds of every account, what can only grow and what can only shrink. *)
Definition funds_move (got : AccountId → Z) s s' : Prop :=
  ∀ k, fr (account s' k) = fr (account s k) + got k ∧ free (account s k) ≤ free (account s' k) ∧
    misc_frozen (account s' k) ≤ misc_frozen (account s k).

Lemma funds_move_refl s : funds_move (λ _, 0) s s.
Proof. intros k. lia. Qed.

Lemma funds_move_trans f g h s1 s2 s3 : funds_move f s1 s2 → funds_move g s2 s3 → (∀ k, h k = f k + g k) → funds_move h s1 s3.
Proof. intros H12 H23 Hh k. destruct (H12 k), (H23 k). specialize (Hh k). lia. Qed.

Lemma funds_move_same s s' : accounts s' = accounts s → funds_move (λ _, 0) s s'.
Proof. intros Ha k. unfold account, info. rewrite Ha. lia. Qed.

Lemma unreserve_moves {E} who value s :
  ok s → 0 ≤ value →
  ∃ r s', unreserve (E := E) w ED who value s = (Ok r, s') ∧ ok s' ∧ gap s' = gap s ∧ total_issuance s' = total_issuance s ∧ funds_move (λ _, 0) s s'.
Proof.
  intros Hs Hv. destruct (decide (value = 0)) as [->|Hv0]; [exists 0, s; split_and!; [done..|apply funds_move_refl]|].
  destruct (unreserve_gap w ED Hw HED (E := E) who value s Hs ltac:(lia)) as (s'&Hrun&(Hok&Hg&Hi)&Hacc&Hframe&_).
  eexists _, s'. split_and!; [exact Hrun|done..|]. intros k. pose proof (account_facts w ED Hw HED s who Hs) as F.
  destruct (decide (k = who)) as [->|Hk]; [|unfold account; rewrite Hframe by done; lia]. rewrite Hacc. unfold fr in *.
  destruct (Z.eqb_spec (free (account s who) + reserved (account s who)) 0); cbn; lia.
Qed.

Lemma deposit_moves {E} who value s :
  ok s → 0 ≤ value → supply (accounts s) + value < 2 ^ w →
  ∃ created s', deposit_creating (E := E) w ED who value s = (Ok created, s') ∧ ok s' ∧ gap s' = gap s + created ∧ total_issuance s' = total_issuance s ∧
    (created = value ∨ created = 0 ∧ value < ED) ∧ funds_move (λ k, if decide (k = who) then created else 0) s s'.
Proof.
  intros Hs Hv Hfit. destruct (decide (value = 0)) as [->|Hv0].
  { exists 0, s. split_and!; [done|done|lia|done|by left|]. intros k. case_decide; lia. }
  destruct (deposit_creating_ok w ED Hw HED (E := E) who value s Hs ltac:(lia) Hfit) as (s'&Hrun&Hs'). rewrite Hrun.
  pose proof (account_facts w ED Hw HED s who Hs) as F. destruct (creates ED s who value) eqn:Hc.
  - destruct Hs' as (Hcm&Hok&Hg). set (d := with_free (account s who) (free (account s who) + value)) in *.
    assert (ED ≤ fr d < 2 ^ w) as Hd.
    { unfold creates in Hc. unfold d, fr in *. cbn. apply orb_true_iff in Hc as [?%Z.leb_le|?%negb_true_iff%Z.eqb_neq]; lia. }
    exists value, s'. split_and!; [done..| |by left|].
    + rewrite (commit_issuance _ _ _ _ _ _ _ Hcm). destruct (dust_bound (AccountId := AccountId) w ED Hw HED d ltac:(lia)) as [[-> _]|[_ ?]]; unfold saturating_sub; lia.
    + intros k. case_decide as Hk; [subst k|unfold account; rewrite (commit_other w ED who _ d s s' k Hcm) by done; lia].
      rewrite (commit_same w ED Hw HED who _ d s s' Hcm); [|unfold nonneg, d; cbn; unfold fr in *; lia|lia].
      rewrite (proj2 (Z.ltb_ge _ _)) by lia. unfold d, fr. cbn. lia.
  - subst s'. exists 0, s. split_and!; [done|done|lia|done| |intros k; case_decide; lia]. right. split; [done|].
    unfold creates in Hc. apply orb_false_iff in Hc as [?%Z.leb_gt _]. lia.
Qed.

(** What is spent on: the approved proposals in order, as long as they fit. *)
Fixpoint plan (props : gmap Z Proposal) (indices : list Z) (budget : Z) : list Z * list (Z * Proposal) :=
  match indices with
  | [] => ([], [])
  | index :: indices' =>
      match props !! index with
      | Some p =>
          if p_value p <=? budget then
            let '(kept, awarded) := plan (delete index props) indices' (budget - p_value p) in (kept, (index, p) :: awarded)
          else let '(kept, awarded) := plan props indices' budget in (index :: kept, awarded)
      | None => plan props indices' budget
      end
  end.

Definition spent (awarded : list (Z * Proposal)) : Z := foldr (λ a n, p_value a.2 + n) 0 awarded.

(** What [k] receives of payments. *)
Definition received (paid : list (AccountId * Z)) k : Z := foldr (λ a n, (if decide (k = a.1) then a.2 else 0) + n) 0 paid.
Definition total_paid (paid : list (AccountId * Z)) : Z := foldr (λ a n, a.2 + n) 0 paid.

(** An award is paid to its beneficiary, unless it is too small to open the account. *)
Definition pays (award : Z * Proposal) (payment : AccountId * Z) : Prop :=
  payment.1 = beneficiary award.2 ∧ (payment.2 = p_value award.2 ∨ payment.2 = 0 ∧ p_value award.2 < ED).

Definition proposals_ok (props : gmap Z Proposal) : Prop := map_Forall (λ _ p, 0 ≤ p_value p ∧ 0 ≤ bond p) props.

Lemma event_runs {E S} (e : Event) c (t : S) :
  ∃ c', event (E := E) e (c, t) = (Ok tt, (c', t)) ∧ accounts c' = accounts c ∧ total_issuance c' = total_issuance c ∧ locks_map c' = locks_map c.
Proof. destruct (deposit_event_Ok (E := Empty_set) e c) as (c'&Hrun&?&?&?). exists c'. split; [by apply currency_Ok|done]. Qed.

Lemma same_ok s s' : ok s → accounts s' = accounts s → total_issuance s' = total_issuance s → ok s' ∧ gap s' = gap s.
Proof. intros [H1 H2 H3] Ha Hi. split; [constructor|unfold gap]; by rewrite ?Ha, ?Hi. Qed.

(** One award. *)
Lemma spend_one_ok {E} index p sp c (t : Store) :
  ok c → proposals t !! index = Some p → 0 ≤ p_value p ≤ budget_remaining sp → 0 ≤ bond p →
  gap c = imbalance sp → 0 ≤ imbalance sp → total_issuance c + imbalance sp + p_value p < 2 ^ w →
  ∃ created c', spend_one (E := E) w ED index sp (c, t) =
      (Ok (false, MkSpend (budget_remaining sp - p_value p) (missed_any sp) (imbalance sp + created)), (c', set_proposals (delete index) t)) ∧
    ok c' ∧ gap c' = imbalance sp + created ∧ total_issuance c' = total_issuance c ∧
    pays (index, p) (beneficiary p, created) ∧ funds_move (λ k, if decide (k = beneficiary p) then created else 0) c c'.
Proof.
  intros Hok Hp Hv Hbond Hgap Himb Hfit. unfold spend_one, reads. rewrite (pbind_Ok _ _ (c, t) (Some p) (c, t)) by (cbn; by rewrite Hp).
  rewrite (proj2 (Z.leb_le _ _)) by lia. rewrite (pbind_Ok _ _ (c, t) tt (c, set_proposals (delete index) t)) by done.
  set (t' := set_proposals (delete index) t).
  destruct (unreserve_moves (E := Empty_set) (proposer p) (bond p) c Hok Hbond) as (r&c1&Hrun1&Hok1&Hg1&Hi1&Hm1).
  rewrite (pbind_Ok _ _ (c, t') tt (c1, t')) by (unfold ignore, currency_total; by rewrite (currency_Ok _ _ _ _ _ _ Hrun1)).
  destruct (deposit_moves (E := Empty_set) (beneficiary p) (p_value p) c1 Hok1) as (created&c2&Hrun2&Hok2&Hg2&Hi2&Hcr&Hm2);
    [lia|unfold gap in *; lia|].
  rewrite (pbind_Ok _ _ (c1, t') created (c2, t')) by (by apply currency_Ok).
  destruct (event_runs (E := E) (Awarded index (p_value p) (beneficiary p)) c2 t') as (c3&Hrun3&Ha3&Hi3&_). rewrite (pbind_Ok _ _ _ _ _ Hrun3).
  destruct (same_ok c2 c3 Hok2 Ha3 Hi3) as [Hok3 Hg3]. exists created, c3. split_and!; [|done|lia|congruence|by split|].
  - unfold mret, P_ret. do 4 f_equal. unfold imbalance_merge, usaturating_add, max_value.
    assert (0 ≤ created ≤ p_value p) by lia. pose proof (ok_issuance _ _ _ Hok). lia.
  - apply (funds_move_trans (λ _, 0) (λ k, if decide (k = beneficiary p) then created else 0) _ c c1 c3 Hm1); [|intros; lia].
    apply (funds_move_trans _ (λ _, 0) _ c1 c2 c3 Hm2 (funds_move_same c2 c3 Ha3)). intros. lia.
Qed.

Definition without (awarded : list (Z * Proposal)) (props : gmap Z Proposal) : gmap Z Proposal := foldl (λ m a, delete a.1 m) props awarded.

Lemma spend_all_ok {E} indices sp c (t : Store) :
  ok c → proposals_ok (proposals t) → gap c = imbalance sp → 0 ≤ imbalance sp → 0 ≤ budget_remaining sp →
  total_issuance c + imbalance sp + budget_remaining sp < 2 ^ w →
  let '(kept, awarded) := plan (proposals t) indices (budget_remaining sp) in
  ∃ paid c', spend_all (E := E) w ED indices sp (c, t) =
      (Ok (kept, MkSpend (budget_remaining sp - spent awarded) (missed_any sp || negb (bool_decide (kept = []))) (imbalance sp + total_paid paid)),
       (c', set_proposals (without awarded) t)) ∧
    ok c' ∧ gap c' = imbalance sp + total_paid paid ∧ total_issuance c' = total_issuance c ∧
    Forall2 pays awarded paid ∧ funds_move (received paid) c c' ∧ 0 ≤ total_paid paid ≤ spent awarded ∧ spent awarded ≤ budget_remaining sp.
Proof.
  revert sp c t. induction indices as [|index indices IH]; intros sp c t Hok Hprops Hgap Himb Hbud Hfit.
  { cbn [plan spend_all]. exists [], c. destruct sp, t. cbn in *. unfold set_proposals, without. cbn. rewrite orb_false_r, Z.sub_0_r, Z.add_0_r.
    split_and!; [done|done|lia|done|constructor|apply funds_move_refl|lia..]. }
  cbn [plan spend_all]. destruct (proposals t !! index) as [p|] eqn:Hp.
  - destruct (Hprops index p Hp) as [Hv Hbond]. destruct (Z.leb_spec (p_value p) (budget_remaining sp)) as [Hle|Hgt].
    + destruct (spend_one_ok (E := E) index p sp c t) as (created&c1&Hrun1&Hok1&Hg1&Hi1&Hpay&Hm1); [done|done|lia|done|done|done|lia|].
      rewrite (pbind_Ok _ _ _ _ _ Hrun1). set (sp1 := MkSpend _ _ _). assert (0 ≤ created ≤ p_value p) as Hcr by (destruct Hpay; cbn in *; lia).
      specialize (IH sp1 c1 (set_proposals (delete index) t) Hok1). cbn [proposals set_proposals budget_remaining sp1 missed_any imbalance] in IH.
      destruct (plan (delete index (proposals t)) indices (budget_remaining sp - p_value p)) as [kept awarded].
      destruct IH as (paid&c2&Hrun2&Hok2&Hg2&Hi2&Hpays&Hm2&Hb1&Hb2); [by apply map_Forall_delete|lia..|].
      rewrite (pbind_Ok _ _ _ _ _ Hrun2). exists ((beneficiary p, created) :: paid), c2. cbn [total_paid spent foldr fst snd].
      fold (total_paid paid) (spent awarded). split_and!; [|done|lia|lia|by constructor| |lia..].
      * unfold mret, P_ret. do 4 f_equal; lia.
      * apply (funds_move_trans _ _ _ c c1 c2 Hm1 Hm2). intros k. done.
    + unfold spend_one, reads. rewrite (pbind_Ok _ _ (c, t) (true, MkSpend (budget_remaining sp) true (imbalance sp)) (c, t)).
      2: { rewrite (pbind_Ok _ _ (c, t) (Some p) (c, t)) by (cbn; by rewrite Hp). by rewrite (proj2 (Z.leb_gt _ _)). }
      specialize (IH (MkSpend (budget_remaining sp) true (imbalance sp)) c t Hok Hprops Hgap Himb Hbud Hfit). cbn [budget_remaining missed_any imbalance] in IH.
      destruct (plan (proposals t) indices (budget_remaining sp)) as [kept awarded]. destruct IH as (paid&c2&Hrun2&Hrest).
      rewrite (pbind_Ok _ _ _ _ _ Hrun2). exists paid, c2. split; [|exact Hrest]. unfold mret, P_ret. do 4 f_equal.
      rewrite (bool_decide_false (index :: kept = [])) by done. by rewrite orb_true_r.
  - unfold spend_one, reads. rewrite (pbind_Ok _ _ (c, t) (false, sp) (c, t)) by (rewrite (pbind_Ok _ _ (c, t) None (c, t)) by (cbn; by rewrite Hp); done).
    specialize (IH sp c t Hok Hprops Hgap Himb Hbud Hfit). destruct (plan (proposals t) indices (budget_remaining sp)) as [kept awarded].
    destruct IH as (paid&c2&Hrun2&Hrest). rewrite (pbind_Ok _ _ _ _ _ Hrun2). by exists paid, c2.
Qed.

(** Settling an imbalance that the account can pay. *)
Lemma settle_pays {E} who v s :
  ok s → 0 ≤ v → gap s = v → (v ≠ 0 → ED + v ≤ free (account s who)) → misc_frozen (account s who) ≤ ED →
  ∃ s', settle (E := E) w ED who v Transfer KeepAlive s = (Ok None, s') ∧ balanced s' ∧ total_issuance s' = total_issuance s ∧
    (∀ k, fr (account s' k) = fr (account s k) - if decide (k = who) then v else 0) ∧ free (account s' who) = free (account s who) - v.
Proof.
  intros Hs Hv Hgap Hfree Hfrozen. destruct (decide (v = 0)) as [->|Hv0].
  { destruct (drop_positive_ok w ED Hw HED (E := E) 0 s Hs Hgap) as (s'&Hrun&Hb&Ha&_&Hi). exists s'.
    assert (∀ k, account s' k = account s k) as Hacc by (intros k; unfold account, info; by rewrite Ha).
    split_and!; [|done|lia|intros k; rewrite Hacc; case_decide; lia|rewrite Hacc; lia].
    unfold settle. change (withdraw w ED who 0 Transfer KeepAlive s) with (Ok 0 : result Error Z, s). cbv iota beta.
    change (drop_offset_positive (E := E) w 0 0) with (drop_positive (AccountId := AccountId) (E := E) w 0). by rewrite (bind_Ok _ _ _ _ _ Hrun). }
  pose proof (withdraw_ok w ED Hw HED who v Transfer KeepAlive s Hs ltac:(lia) ltac:(unfold gap in Hgap; lia)) as Hwd.
  pose proof (account_facts w ED Hw HED s who Hs) as F. specialize (Hfree Hv0).
  assert (withdraw_error ED s who v Transfer KeepAlive = None) as He.
  { unfold withdraw_error. rewrite (proj2 (Z.ltb_ge _ _)) by lia. rewrite (proj2 (Z.ltb_ge (fr (account s who) - v) ED)) by (unfold fr in *; lia).
    rewrite andb_false_r. cbn [andb]. change (reasons_from Transfer) with Misc. cbn [frozen]. by rewrite (proj2 (Z.ltb_ge _ _)) by lia. }
  rewrite He in Hwd. destruct Hwd as (s1&Hrun1&Hok1&Hg1&[Ha1 Hi1]&Hframe&_). cbv zeta in *.
  assert (ED ≤ fr (with_free (account s who) (free (account s who) - v))) as Hed by (unfold fr in *; cbn; lia).
  rewrite (proj2 (Z.ltb_ge _ _)) in Ha1 by done.
  destruct (drop_positive_ok w ED Hw HED (E := E) 0 s1 Hok1 ltac:(lia)) as (s'&Hrun&Hb&Ha&_&Hi). exists s'.
  assert (∀ k, account s' k = account s1 k) as Hacc by (intros k; unfold account, info; by rewrite Ha).
  split_and!; [|done|rewrite Hi, Hi1 by done; lia| |rewrite Hacc, Ha1; done].
  - unfold settle. rewrite Hrun1. unfold drop_offset_positive, imbalance_offset. rewrite (proj2 (Z.leb_le v v)), Z.sub_diag by lia. by rewrite (bind_Ok _ _ _ _ _ Hrun).
  - intros k. rewrite Hacc. case_decide as Hk; [subst k; rewrite Ha1; unfold fr; cbn; lia|]. unfold account. rewrite Hframe by done. lia.
Qed.

(** Burning what is left over. *)
Lemma burn_moves {E} v s : ok s → 0 ≤ v ≤ total_issuance s →
  ∃ s', burn (E := E) v s = (Ok v, s') ∧ ok s' ∧ gap s' = gap s + v ∧ total_issuance s' = total_issuance s - v ∧ accounts s' = accounts s.
Proof.
  intros [H1 H2 H3] Hv. unfold burn. destruct (Z.eqb_spec v 0) as [->|Hv0]; [exists s; split_and!; [done|done|lia|lia|done]|].
  unfold gets. rewrite (bind_Ok _ _ s (total_issuance s) s) by done. rewrite checked_sub_Some by lia.
  eexists. split; [reflexivity|]. split; [constructor; cbn; [done|done|lia]|]. unfold gap. cbn. split_and!; lia || done.
Qed.

Context (Burn : Z) (HBurn : parts_ok Permill Burn).

(** The part of the rest of the budget that is burnt when no proposal waits. *)
Definition burnt (kept : list Z) (rest : Z) : Z := if bool_decide (kept = []) then round_half_down (rest * Burn) 1000000 else 0.

Lemma burnt_ok kept rest : fits w rest → 0 ≤ burnt kept rest ≤ rest ∧ pt_mul Permill w Burn rest = Ok (round_half_down (rest * Burn) 1000000).
Proof.
  intros Hr. destruct (pt_mul_ok Permill w Burn rest) as [Hm Hb]; [|done|done|].
  { cbn. apply Z.lt_le_trans with (2 ^ 32); [lia|]. apply Z.pow_le_mono_r; lia. }
  split; [|done]. unfold burnt. unfold fits in Hr. case_bool_decide; [exact Hb|lia].
Qed.

Lemma spend_funds_ok {E} c (t : Store) :
  balanced c → proposals_ok (proposals t) → total_issuance c + pot ED account_id c < 2 ^ w → misc_frozen (account c account_id) ≤ ED →
  let budget := pot ED account_id c in
  let '(kept, awarded) := plan (proposals t) (approvals t) budget in
  let burning := burnt kept (budget - spent awarded) in
  ∃ paid c', spend_funds (E := E) w ED account_id Burn (c, t) = (Ok tt, (c', set_approvals (λ _, kept) (set_proposals (without awarded) t))) ∧
    balanced c' ∧ Forall2 pays awarded paid ∧ total_issuance c' = total_issuance c - burning ∧
    (∀ k, fr (account c' k) = fr (account c k) + received paid k - if decide (k = account_id) then total_paid paid + burning else 0) ∧
    (ED ≤ free (account c account_id) → ED ≤ free (account c' account_id)).
Proof.
  intros [Hok Hgap] Hprops Hfit Hfrozen budget. pose proof (account_facts w ED Hw HED c account_id Hok) as F.
  assert (budget = Z.max 0 (free (account c account_id) - ED)) as Ebud by done.
  unfold spend_funds, reads. rewrite (pbind_Ok _ _ (c, t) budget (c, t)) by done.
  destruct (event_runs (E := E) (Spending budget) c t) as (c0&Hrun0&Ha0&Hi0&_). rewrite (pbind_Ok _ _ _ _ _ Hrun0).
  destruct (same_ok c c0 Hok Ha0 Hi0) as [Hok0 Hg0]. rewrite (pbind_Ok _ _ (c0, t) (approvals t) (c0, t)) by done.
  pose proof (spend_all_ok (E := E) (approvals t) (MkSpend budget false 0) c0 t Hok0 Hprops) as Hall. cbn [budget_remaining imbalance missed_any] in Hall.
  destruct (plan (proposals t) (approvals t) budget) as [kept awarded]. cbv zeta. set (rest := budget - spent awarded). set (burning := burnt kept rest).
  destruct Hall as (paid&c1&Hrun1&Hok1&Hg1&Hi1&Hpays&Hm1&Hb1&Hb2); [lia|lia|lia|fold budget in Hfit; lia|]. rewrite (pbind_Ok _ _ _ _ _ Hrun1). fold rest.
  rewrite (pbind_Ok _ _ _ tt (c1, set_approvals (λ _, kept) (set_proposals (without awarded) t))) by done. set (t' := set_approvals _ _).
  assert (0 ≤ rest ≤ budget) as Hrest by (unfold rest; lia). assert (fits w rest) as Hfits by (unfold fits; pose proof (ok_issuance _ _ _ Hok); fold budget in Hfit; lia).
  destruct (burnt_ok kept rest Hfits) as [Hburn Hmul]. fold burning in Hburn. cbn [missed_any budget_remaining imbalance orb]. rewrite negb_involutive.
  assert (∃ c2, (if bool_decide (kept = []) then
      share ← runs (pt_mul Permill w Burn rest);
      let burnt := Z.min share rest in
      burnt_imbalance ← currency_total (burn burnt);
      event (Burnt burnt) ;;
      mret (MkSpend (rest - burnt) (negb (bool_decide (kept = []))) (imbalance_merge w (0 + total_paid paid) burnt_imbalance))
    else mret (MkSpend rest (negb (bool_decide (kept = []))) (0 + total_paid paid)) : P E Spend) (c1, t') =
      (Ok (MkSpend (rest - burning) (negb (bool_decide (kept = []))) (total_paid paid + burning)), (c2, t')) ∧
      ok c2 ∧ gap c2 = total_paid paid + burning ∧ total_issuance c2 = total_issuance c - burning ∧ accounts c2 = accounts c1) as (c2&Hrun2&Hok2&Hg2&Hi2&Ha2).
  { unfold burning, burnt in *. destruct (bool_decide (kept = [])).
    - rewrite Hmul. rewrite (pbind_Ok _ _ (c1, t') (round_half_down (rest * Burn) 1000000) (c1, t')) by done. cbv zeta. rewrite Z.min_l by lia.
      set (b := round_half_down (rest * Burn) 1000000) in *.
      destruct (burn_moves (E := Empty_set) b c1 Hok1) as (c2&Hrunb&Hok2&Hg2&Hi2&Ha2); [unfold gap in *; unfold fr in *; lia|].
      rewrite (pbind_Ok _ _ (c1, t') b (c2, t')) by (by apply currency_Ok).
      destruct (event_runs (E := E) (Burnt b) c2 t') as (c3&Hrun3&Ha3&Hi3&_). rewrite (pbind_Ok _ _ _ _ _ Hrun3).
      destruct (same_ok c2 c3 Hok2 Ha3 Hi3) as [Hok3 Hg3]. exists c3. split_and!; [|done|lia|lia|congruence].
      unfold mret, P_ret. do 3 f_equal. unfold imbalance_merge, usaturating_add, max_value. pose proof (ok_issuance _ _ _ Hok). fold budget in Hfit. unfold rest in *. lia.
    - exists c1. split_and!; [unfold mret, P_ret; do 3 f_equal; lia|done|lia|lia|done]. }
  rewrite (pbind_Ok _ _ _ _ _ Hrun2). cbn [imbalance budget_remaining].
  assert (∀ k, account c2 k = account c1 k) as Hacc2 by (intros k; unfold account, info; by rewrite Ha2).
  destruct (Hm1 account_id) as (_&Hfree1&Hfrz1). assert (account c0 account_id = account c account_id) as E0 by (unfold account, info; by rewrite Ha0). rewrite E0 in Hfree1, Hfrz1.
  destruct (settle_pays (E := Empty_set) account_id (total_paid paid + burning) c2 Hok2) as (c3&Hrun3&Hb3&Hi3&Hfr3&Hfree3); [lia|done| |rewrite Hacc2; lia|].
  { intros Hne. rewrite Hacc2. unfold rest in *. lia. }
  rewrite (pbind_Ok _ _ (c2, t') None (c3, t')) by (by apply currency_Ok). rewrite (pbind_Ok _ _ (c3, t') tt (c3, t')) by done.
  destruct (event_runs (E := E) (Rollover (rest - burning)) c3 t') as (c4&Hrun4&Ha4&Hi4&_). exists paid, c4. rewrite Hrun4.
  assert (∀ k, account c4 k = account c3 k) as Hacc4 by (intros k; unfold account, info; by rewrite Ha4).
  split_and!; [done|by apply (same_books w ED c3)|done|lia| |].
  - intros k. rewrite Hacc4, Hfr3, Hacc2. destruct (Hm1 k) as (->&_&_). assert (account c0 k = account c k) as -> by (unfold account, info; by rewrite Ha0). lia.
  - intros Hed. rewrite Hacc4, Hfree3, Hacc2. unfold rest in *. lia.
Qed.

End spending.
