(* ===== verification/TreasuryHistory.v ===== *)
(** * The calls of the treasury

    Every call keeps the books in balance or fails without a trace, the tips of an
    open tip stay in order, and the end of a spend period pays the approved
    proposals that fit into the pot. *)
From S2P Require Import Prelude PerThings Balances BalancesFacts BalancesHistory Payment Pallet Treasury TreasuryFacts.

Local Open Scope Z_scope.

Section calls.
Context {AccountId : Type} `{Countable AccountId}.
Context (w ED : Z) (Hw : 32 ≤ w) (HED : 0 < ED) (account_id : AccountId).
Context (approve_origin reject_origin : Origin (AccountId := AccountId) → bool).
Context (compare : AccountId → AccountId → comparison) (Hord : total_order compare).
Context (sorted_members : list AccountId) (Hmembers : StronglySorted (λ a b, compare a b = Lt) sorted_members).
Context (hash : list Z → Hash) (hash_of : Hash * AccountId → Hash).
Context (TipCountdown TipFindersFee TipReportDepositBase TipReportDepositPerByte : Z).
Context (ProposalBond ProposalBondMinimum SpendPeriod Burn : Z).

(** The configuration is sensible. *)
Record config_ok : Prop := {
  fee_ok : parts_ok Percent TipFindersFee;
  deposit_ok : 0 ≤ TipReportDepositBase ∧ 0 ≤ TipReportDepositPerByte ∧ TipReportDepositBase + TipReportDepositPerByte * 16384 < 2 ^ w;
  bond_ok : parts_ok Permill ProposalBond ∧ 0 ≤ ProposalBondMinimum;
  period_ok : 0 < SpendPeriod;
  burn_part_ok : parts_ok Permill Burn;
}.
Context (Hcfg : config_ok).

Local Abbreviation State := (State (AccountId := AccountId)).
Local Abbreviation Store := (Store (AccountId := AccountId)).
Local Abbreviation OpenTip := (OpenTip (AccountId := AccountId)).
Local Abbreviation balanced := (balanced w ED).
Local Abbreviation by_account := (λ t u : AccountId * Z, compare t.1 u.1 = Lt).
Implicit Types (c : State) (t : Store) (s : State * Store).

Definition tip_ok (tip : OpenTip) : Prop :=
  StronglySorted by_account (tips_given tip) ∧ (∀ a x, (a, x) ∈ tips_given tip → 0 ≤ x) ∧
  match finder tip with Some (_, deposit) => 0 ≤ deposit | None => True end.

Record store_ok t : Prop := {
  count_ok : 0 ≤ proposal_count t < 2 ^ 32;
  store_proposals : proposals_ok (proposals t);
  store_tips : map_Forall (λ _ tip, tip_ok tip) (tips t);
}.

Definition treasury_ok s : Prop := balanced s.1 ∧ store_ok s.2.

Inductive TOp : Type :=
  | TPropose (origin : Origin (AccountId := AccountId)) (value : Z) (beneficiary : AccountId)
  | TReject (origin : Origin (AccountId := AccountId)) (proposal_id : Z)
  | TApprove (origin : Origin (AccountId := AccountId)) (proposal_id : Z)
  | TReport (origin : Origin (AccountId := AccountId)) (the_reason : list Z) (who : AccountId)
  | TRetract (origin : Origin (AccountId := AccountId)) (h : Hash)
  | TTipNew (origin : Origin (AccountId := AccountId)) (the_reason : list Z) (who : AccountId) (tip_value : Z)
  | TTip (origin : Origin (AccountId := AccountId)) (h : Hash) (tip_value : Z)
  | TClose (origin : Origin (AccountId := AccountId)) (h : Hash)
  | TFinalize.

Definition texec (now : Z) (op : TOp) : P (AccountId := AccountId) (S := Store) (DispatchError TreasuryError) unit :=
  match op with
  | TPropose origin value beneficiary => propose_spend w ED ProposalBond ProposalBondMinimum origin value beneficiary
  | TReject origin proposal_id => reject_proposal w ED reject_origin origin proposal_id
  | TApprove origin proposal_id => approve_proposal approve_origin origin proposal_id
  | TReport origin the_reason who => report_awesome w ED hash hash_of TipReportDepositBase TipReportDepositPerByte origin the_reason who
  | TRetract origin h => retract_tip w ED origin h
  | TTipNew origin the_reason who tip_value => tip_new compare sorted_members hash hash_of origin the_reason who tip_value
  | TTip origin h tip_value => tip compare sorted_members TipCountdown now origin h tip_value
  | TClose origin h => close_tip w ED account_id compare sorted_members TipFindersFee now origin h
  | TFinalize => on_finalize w ED account_id SpendPeriod Burn now
  end.

Local Abbreviation active := (retain_active_tips compare sorted_members).

(** Amounts are balances, counters do not overflow, a tip that is closed has a tip
    of someone who still is a tipper, and the pot is not locked. *)
Definition tvalid (now : Z) (op : TOp) s : Prop :=
  match op with
  | TPropose _ value _ => fits w value ∧ proposal_count s.2 + 1 < 2 ^ 32
  | TTipNew _ _ _ tip_value => 0 ≤ tip_value
  | TTip _ _ tip_value => 0 ≤ tip_value ∧ now + TipCountdown < 2 ^ 32
  | TClose _ h => ∀ tip, tips s.2 !! h = Some tip → active (tips_given tip) ≠ []
  | TFinalize => total_issuance s.1 + pot ED account_id s.1 < 2 ^ w ∧ misc_frozen (account s.1 account_id) ≤ ED
  | _ => True
  end.

Lemma event_settles {E} s0 c t e : balanced c → store_ok t → settles (E := E) (λ _, treasury_ok) s0 (event e (c, t)).
Proof using. intros Hb Ht. apply settles_event. intros c' Ha Hi _. split; [by apply (same_books w ED c)|done]. Qed.

Lemma reserve_settles {E F} (g : Error → E) who value c t (Q : F → State * Store → Prop) (k : unit → P E F) :
  balanced c → 0 ≤ value → (∀ c', balanced c' → settles Q (c, t) (k tt (c', t))) →
  settles Q (c, t) ((currency g (reserve w ED who value) ≫= k) (c, t)).
Proof using Hw HED.
  intros Hb Hv Hk. apply settles_bind with (R := λ _ s', balanced s'.1 ∧ s'.2 = t); [|intros [] [c' t'] [Hb' Ht']; cbn in Ht'; subst t'; by apply Hk].
  unfold currency. cbn [fst snd]. destruct (decide (value = 0)) as [->|Hv0]; [done|].
  pose proof (reserve_ok w ED Hw HED who value c Hb ltac:(lia)) as Hr. destruct (reserve_error c who value); [by rewrite Hr|].
  destruct Hr as (c'&->&Hb'&_). done.
Qed.

Lemma unreserve_settles {E F} who value s0 c t (Q : F → State * Store → Prop) (k : unit → P E F) :
  balanced c → 0 ≤ value → (∀ c', balanced c' → settles Q s0 (k tt (c', t))) →
  settles Q s0 ((ignore (E := Empty_set) (currency_total (unreserve w ED who value)) ≫= k) (c, t)).
Proof using Hw HED.
  intros Hb Hv Hk. destruct (unreserve_moves w ED Hw HED (E := Empty_set) who value c (proj1 Hb) Hv) as (r&c'&Hrun&Hok&Hg&_).
  apply (settles_Ok _ _ _ _ tt (c', t)); [unfold ignore, currency_total; by rewrite (currency_Ok _ _ _ _ _ _ Hrun)|].
  apply Hk. split; [done|]. destruct Hb. lia.
Qed.

(** A transfer of which the result is ignored. *)
Lemma transfer_try {E F} from to value s0 c t (Q : F → State * Store → Prop) (k : unit → P E F) :
  balanced c → 0 ≤ value → (∀ c', balanced c' → settles Q s0 (k tt (c', t))) →
  settles Q s0 ((ignore (currency id (currency_transfer w ED from to value AllowDeath)) ≫= k) (c, t)).
Proof using Hw HED.
  intros Hb Hv Hk. pose proof (transfer_settled w ED Hw HED from to value AllowDeath c Hb Hv) as Ht. unfold settled, of_module in Ht.
  destruct (currency_transfer w ED from to value AllowDeath c) as [r c'] eqn:Ex.
  apply (settles_Ok _ _ _ _ tt (c', t)); [|apply Hk; destruct r; [done|by subst|done]].
  unfold ignore, currency. cbn [fst snd]. rewrite Ex. by destruct r.
Qed.

(** ** Proposals *)

Lemma propose_settles origin value who now s :
  treasury_ok s → tvalid now (TPropose origin value who) s → settles (λ _, treasury_ok) s (texec now (TPropose origin value who) s).
Proof using Hw HED Hcfg.
  destruct s as [c t]. intros [Hb Ht] [Hv Hcount]. cbn [texec]. unfold propose_spend. apply settles_signed. intros proposer _.
  destruct (bond_ok Hcfg) as [Hpb Hmin]. destruct (pt_mul_ok Permill w ProposalBond value) as [Hm Hbound]; [|done|done|].
  { cbn. apply Z.lt_le_trans with (2 ^ 32); [lia|]. apply Z.pow_le_mono_r; lia. }
  apply (settles_runs _ _ _ _ (Z.max ProposalBondMinimum (round_half_down (value * ProposalBond) (ACCURACY Permill)))); [unfold calculate_bond; by rewrite Hm|].
  set (bond := Z.max _ _). assert (0 ≤ bond) as Hbond by (unfold bond; lia). apply reserve_settles; [done|lia|]. intros c' Hb'. apply settles_reads. cbn [snd] in *.
  apply (settles_runs _ _ _ _ (proposal_count t + 1)); [by apply uadd_Ok|]. do 2 apply settles_writes. apply event_settles; [done|].
  destruct Ht as [H1 H2 H3]. constructor; [cbn; lia| |done]. cbn. apply map_Forall_insert_2; [cbn; unfold fits in Hv; lia|done].
Qed.

Lemma reject_settles origin id now s :
  treasury_ok s → settles (λ _, treasury_ok) s (texec now (TReject origin id) s).
Proof using Hw HED.
  destruct s as [c t]. intros [Hb Ht]. cbn [texec]. unfold reject_proposal. apply settles_require. intros _. apply settles_reads, settles_writes. cbn [fst snd].
  destruct (proposals t !! id) as [p|] eqn:Hp.
  2: { cbn. unfold set_proposals. rewrite delete_id by done. by destruct t. }
  cbn [some_or]. apply (settles_Ok _ _ _ _ p (c, set_proposals (delete id) t)); [done|]. destruct (store_proposals t Ht id p Hp) as [_ Hbond].
  pose proof (slash_reserved_post w ED Hw HED (E := Empty_set) (proposer p) (bond p) c (proj1 Hb) Hbond ltac:(destruct Hb as [_ Hg]; cbn in Hg; lia)) as Hs. unfold post in Hs.
  destruct (slash_reserved w ED (proposer p) (bond p) c) as [[[imb rest]|e|] c1] eqn:Ex; cbn [fst snd] in Hs; [|done..]. destruct Hs as [Hok1 Hg1].
  apply (settles_Ok _ _ _ _ (imb, rest) (c1, set_proposals (delete id) t)); [by apply currency_Ok|].
  destruct (drop_negative_ok w ED Hw HED (E := Empty_set) imb c1 Hok1 ltac:(destruct Hb as [_ Hg]; cbn in Hg; lia)) as (c2&Hrun2&Hb2&_).
  apply (settles_Ok _ _ _ _ tt (c2, set_proposals (delete id) t)); [by apply currency_Ok|]. apply event_settles; [done|].
  destruct Ht as [H1 H2 H3]. constructor; [done| |done]. cbn. by apply map_Forall_delete.
Qed.

Lemma approve_settles origin id now s :
  treasury_ok s → settles (λ _, treasury_ok) s (texec now (TApprove origin id) s).
Proof using.
  destruct s as [c t]. intros [Hb Ht]. cbn [texec]. unfold approve_proposal. apply settles_require. intros _. apply settles_reads, settles_require. intros _.
  split; [done|]. destruct Ht as [H1 H2 H3]. by constructor.
Qed.

(** ** Tips *)

Lemma put_tip_ok h tip t t' :
  store_ok t → tip_ok tip → proposal_count t' = proposal_count t → proposals t' = proposals t → tips t' = <[h := tip]> (tips t) → store_ok t'.
Proof using. intros [H1 H2 H3] Htip Hc Hp Ht. constructor; rewrite ?Hc, ?Hp, ?Ht; [done..|]. by apply map_Forall_insert_2. Qed.

Lemma drop_tip_ok h t t' :
  store_ok t → proposal_count t' = proposal_count t → proposals t' = proposals t → tips t' = delete h (tips t) → store_ok t'.
Proof using. intros [H1 H2 H3] Hc Hp Ht. constructor; rewrite ?Hc, ?Hp, ?Ht; [done..|]. by apply map_Forall_delete. Qed.

Lemma report_settles origin the_reason who now s :
  treasury_ok s → settles (λ _, treasury_ok) s (texec now (TReport origin the_reason who) s).
Proof using Hw HED Hcfg.
  destruct s as [c t]. intros [Hb Ht]. cbn [texec]. unfold report_awesome. apply settles_signed. intros the_finder _. apply settles_require. intros Hlen%Z.leb_le.
  apply settles_reads, settles_require. intros _. apply settles_reads, settles_require. intros _. destruct (deposit_ok Hcfg) as (H1&H2&H3).
  assert (wrap 32 (Z.of_nat (length the_reason)) = Z.of_nat (length the_reason)) as -> by (apply wrap_small; unfold fits; lia).
  apply (settles_runs _ _ _ _ (TipReportDepositPerByte * Z.of_nat (length the_reason))); [apply umul_Ok; nia|].
  apply (settles_runs _ _ _ _ (TipReportDepositBase + TipReportDepositPerByte * Z.of_nat (length the_reason))); [apply uadd_Ok; nia|].
  set (deposit := TipReportDepositBase + _). assert (0 ≤ deposit) as Hdep by (unfold deposit; nia). apply reserve_settles; [done|done|]. intros c' Hb'.
  do 2 apply settles_writes. apply event_settles; [done|].
  eapply (put_tip_ok _ _ t); [done| |done..]. split_and!; cbn; [constructor|by intros a x ?%elem_of_nil|done].
Qed.

Lemma retract_settles origin h now s :
  treasury_ok s → settles (λ _, treasury_ok) s (texec now (TRetract origin h) s).
Proof using Hw HED.
  destruct s as [c t]. intros [Hb Ht]. cbn [texec]. unfold retract_tip. apply settles_signed. intros who _. apply settles_reads, settles_some_or.
  cbn [snd]. intros open Hopen. apply settles_some_or. intros [the_finder deposit] Hfinder. apply settles_require. intros _. do 2 apply settles_writes.
  destruct (store_tips t Ht h open Hopen) as (_&_&Hdep). rewrite Hfinder in Hdep. cbn [fst snd].
  apply unreserve_settles; [done|done|]. intros c' Hb'. apply event_settles; [done|]. by apply (drop_tip_ok h t).
Qed.

Lemma tip_new_settles origin the_reason who tip_value now s :
  treasury_ok s → 0 ≤ tip_value → settles (λ _, treasury_ok) s (texec now (TTipNew origin the_reason who tip_value) s).
Proof using.
  destruct s as [c t]. intros [Hb Ht] Hv. cbn [texec]. unfold tip_new. apply settles_signed. intros tipper _. apply settles_require. intros _.
  apply settles_reads, settles_require. intros _. apply settles_writes.
  apply settles_bind with (R := λ _ s', balanced s'.1 ∧ s'.2 = set_reasons <[hash the_reason := the_reason]> t).
  { apply settles_event. intros c' Ha Hi _. split; [by apply (same_books w ED c)|done]. }
  intros [] [c' t'] [Hb' Ht']. cbn in Ht'. subst t'. split; [done|]. eapply (put_tip_ok _ _ t); [done| |done..].
  split_and!; cbn; [repeat constructor| |done]. by intros a x [= -> ->]%list_elem_of_singleton.
Qed.

(** The tips of a tip after an insertion. *)
Lemma closing_ok now tip tipper tip_value :
  tip_ok tip → 0 ≤ tip_value → now + TipCountdown < 2 ^ 32 →
  let ts := base.filter (λ a, a.1 ∈ sorted_members) (insert_tip compare (tips_given tip) tipper tip_value) in
  let closing := bool_decide ((length sorted_members + 1) / 2 ≤ length ts)%nat && bool_decide (closes tip = None) in
  let tip' := MkTip (reason tip) (tip_who tip) (finder tip) (if closing then Some (now + TipCountdown) else closes tip) ts in
  insert_tip_and_check_closing compare sorted_members TipCountdown now tip tipper tip_value = Ok (tip', closing) ∧ tip_ok tip'.
Proof using Hord Hmembers.
  intros (Hs&Hnn&Hf) Hv Hfit ts closing tip'. destruct (insert_tip_ok compare Hord (tips_given tip) tipper tip_value Hs) as [Hs' Hel]. split.
  - unfold insert_tip_and_check_closing, retain_active_tips. rewrite (retain_with_ok compare Hord sorted_members _ Hmembers Hs'). fold ts.
    assert (((length sorted_members + 1) / 2 <=? length ts)%nat && bool_decide (closes tip = None) = closing) as ->.
    { unfold closing. f_equal. apply eq_bool_prop_intro. by rewrite bool_decide_spec, Is_true_true, Nat.leb_le. }
    unfold tip'. destruct closing; [by rewrite uadd_Ok|done].
  - split_and!; [by apply strongly_sorted_filter| |done]. intros a x [_ Hin]%list_elem_of_filter. apply Hel in Hin as [[-> ->]|[_ ?]]; [done|]. by apply (Hnn a).
Qed.

Lemma tip_settles origin h tip_value now s :
  treasury_ok s → tvalid now (TTip origin h tip_value) s → settles (λ _, treasury_ok) s (texec now (TTip origin h tip_value) s).
Proof using Hord Hmembers.
  destruct s as [c t]. intros [Hb Ht] [Hv Hfit]. cbn [texec]. unfold tip. apply settles_signed. intros tipper _. apply settles_require. intros _.
  apply settles_reads, settles_some_or. cbn [snd]. intros open Hopen. pose proof (store_tips t Ht h open Hopen) as Hok.
  destruct (closing_ok now open tipper tip_value Hok Hv Hfit) as [Hrun Htip]. eapply settles_runs; [exact Hrun|].
  set (tip' := MkTip _ _ _ _ _) in *. set (closing := _ && _).
  apply settles_bind with (R := λ _ s', balanced s'.1 ∧ s'.2 = t).
  { destruct closing; [|done]. apply settles_event. intros c' Ha Hi _. split; [by apply (same_books w ED c)|done]. }
  intros [] [c' t'] [Hb' Ht']. cbn in Ht'. subst t'. split; [done|]. by eapply (put_tip_ok _ _ t).
Qed.

Lemma payout_settles {E} tip s0 c t :
  balanced c → tip_ok tip → active (tips_given tip) ≠ [] →
  settles (E := E) (λ _ s', balanced s'.1 ∧ s'.2 = t) s0 (payout_tip w ED account_id compare sorted_members TipFindersFee tip (c, t)).
Proof using Hw HED Hord Hmembers Hcfg.
  intros Hb (Hs&Hnn&Hf) Hne. unfold payout_tip. cbv zeta. set (ts := sort_by _ _).
  assert (ts ≡ₚ active (tips_given tip)) as Hperm by apply sort_by_perm.
  apply settles_reads. cbn [fst]. destruct (lookup_lt_is_Some_2 ts (length ts / 2)%nat) as [median Hmed].
  { assert (length ts ≠ 0)%nat by (rewrite Hperm; by destruct (active (tips_given tip))). apply Nat.Div0.div_lt_upper_bound; lia. }
  apply (settles_runs _ _ _ _ median); [by rewrite Hmed|]. set (payout := Z.min _ _).
  assert (fits w payout) as Hpay.
  { assert (median ∈ tips_given tip) as Hin.
    { apply list_elem_of_lookup_2 in Hmed. rewrite Hperm in Hmed. unfold retain_active_tips in Hmed.
      rewrite (retain_with_ok compare Hord sorted_members _ Hmembers Hs) in Hmed. by apply list_elem_of_filter in Hmed as [_ ?]. }
    destruct median as [a x]. specialize (Hnn a x Hin). pose proof (account_facts w ED Hw HED c account_id (proj1 Hb)) as F.
    unfold fits, payout, free_balance. cbn [snd]. unfold fr in *. lia. }
  assert (∀ c' v, balanced c' → 0 ≤ v → settles (E := E) (λ _ s', balanced s'.1 ∧ s'.2 = t) s0
    (ignore (currency id (currency_transfer w ED account_id (tip_who tip) v AllowDeath)) (c', t))) as Hlast.
  { intros c' v Hb' Hv. pose proof (transfer_try (E := E) account_id (tip_who tip) v s0 c' t (λ _ s', balanced s'.1 ∧ s'.2 = t) (λ a, mret a) Hb' Hv (λ c2 Hc2, conj Hc2 eq_refl)) as Ht.
    unfold mbind, P_bind in Ht. by destruct (ignore _ (c', t)) as [[[]|e|] s2]. }
  unfold fits in Hpay. destruct (finder tip) as [[the_finder deposit]|]; [|apply settles_bind with (R := λ v s', v = payout ∧ s' = (c, t)); [done|]].
  2: { intros v s' [-> ->]. apply Hlast; [done|lia]. }
  apply settles_bind with (R := λ v s', 0 ≤ v ∧ balanced s'.1 ∧ s'.2 = t).
  2: { intros v [c' t'] (Hv&Hb'&Ht'). cbn in Ht'. subst t'. by apply Hlast. }
  apply unreserve_settles; [done|done|]. intros c1 Hb1. case_bool_decide; [|split_and!; [lia|done|done]].
  destruct (pt_mul_ok Percent w TipFindersFee payout) as [Hm Hbound]; [|apply Hcfg|done|].
  { cbn. apply Z.lt_le_trans with (2 ^ 32); [lia|]. apply Z.pow_le_mono_r; lia. }
  eapply settles_runs; [exact Hm|]. apply transfer_try; [done|lia|]. intros c2 Hb2. split_and!; [lia|done|done].
Qed.

Lemma close_settles origin h now s :
  treasury_ok s → tvalid now (TClose origin h) s → settles (λ _, treasury_ok) s (texec now (TClose origin h) s).
Proof using Hw HED Hord Hmembers Hcfg.
  destruct s as [c t]. intros [Hb Ht] Hval. cbn [texec]. unfold close_tip. apply settles_signed. intros who _. apply settles_reads, settles_some_or.
  cbn [snd]. intros open Hopen. apply settles_some_or. intros n _. apply settles_require. intros _. do 2 apply settles_writes. cbn [fst snd].
  pose proof (payout_settles (E := DispatchError TreasuryError) open (c, t) c (set_tips (delete h) (set_reasons (delete (reason open)) t)) Hb (store_tips t Ht h open Hopen) (Hval open Hopen)) as Hp.
  destruct (payout_tip _ _ _ _ _ _ open _) as [[[]|e|] [c' t']]; cbn in Hp |- *; [|done..]. destruct Hp as [Hb' ->]. split; [done|]. by apply (drop_tip_ok h t).
Qed.

Lemma without_ok awarded (props : gmap Z (Proposal (AccountId := AccountId))) : proposals_ok props → proposals_ok (without awarded props).
Proof using. unfold without. revert props. induction awarded as [|a awarded IH]; intros m Hm; [done|]. apply IH. by apply map_Forall_delete. Qed.

Lemma finalize_settles now s :
  treasury_ok s → tvalid now TFinalize s → settles (λ _, treasury_ok) s (texec now TFinalize s).
Proof using Hw HED Hcfg.
  destruct s as [c t]. intros [Hb Ht] [Hfit Hfrz]. cbn [texec]. unfold on_finalize. apply (settles_runs _ _ _ _ (now mod SpendPeriod)).
  { unfold urem. rewrite (proj2 (Z.eqb_neq _ 0)); [done|]. pose proof (period_ok Hcfg). lia. }
  destruct (now mod SpendPeriod =? 0); [|done].
  pose proof (spend_funds_ok w ED Hw HED account_id Burn (burn_part_ok Hcfg) (E := DispatchError TreasuryError) c t Hb (store_proposals t Ht) Hfit Hfrz) as Hsp.
  cbv zeta in Hsp. destruct (plan (proposals t) (approvals t) (pot ED account_id c)) as [kept awarded]. destruct Hsp as (paid&c'&->&Hb'&_).
  split; [done|]. destruct Ht as [H1 H2 H3]. constructor; [done| |done]. by apply without_ok.
Qed.

Lemma texec_ok now op s : treasury_ok s → tvalid now op s → settles (λ _, treasury_ok) s (texec now op s).
Proof using All.
  intros Hok Hval. destruct op.
  - by apply propose_settles.
  - by apply reject_settles.
  - by apply approve_settles.
  - by apply report_settles.
  - by apply retract_settles.
  - by apply tip_new_settles.
  - by apply tip_settles.
  - by apply close_settles.
  - by apply finalize_settles.
Qed.

(** Without a tip of someone who still is a tipper there is no median. *)
Lemma close_panics origin who h now tip n c t :
  origin = Signed who → tips t !! h = Some tip → closes tip = Some n → n ≤ now → active (tips_given tip) = [] →
  (texec now (TClose origin h) (c, t)).1 = Panic.
Proof using.
  intros -> Htip Hn Hle Hno. cbn [texec]. unfold close_tip. cbn [signed]. rewrite (pbind_Ok _ _ (c, t) who (c, t)) by done.
  unfold reads. rewrite (pbind_Ok _ _ (c, t) (Some tip) (c, t)) by (cbn; by rewrite Htip). cbn [some_or]. rewrite (pbind_Ok _ _ (c, t) tip (c, t)) by done.
  rewrite Hn. cbn [some_or]. rewrite (pbind_Ok _ _ (c, t) n (c, t)) by done. unfold require. rewrite (proj2 (Z.leb_le _ _)) by done.
  unfold payout_tip. rewrite Hno. done.
Qed.

End calls.

(** ** Theorems *)

Section theorems.
Context {AccountId : Type} `{Countable AccountId} (w ED : Z) (account_id : AccountId).
Implicit Types (c : State (AccountId := AccountId)) (t : Store (AccountId := AccountId)).

(** C9. Every call of the treasury, and the end of every block, on books that
    balance and with open tips in order: it succeeds with both kept, or fails
    without any effect.  It does not panic as long as amounts are balances and the
    counters of proposals and blocks do not overflow, the pot is not locked, and a
    tip is only closed while someone who tipped still is a tipper. *)
Theorem treasury_settles approve_origin reject_origin compare sorted_members hash hash_of
    TipCountdown TipFindersFee TipReportDepositBase TipReportDepositPerByte ProposalBond ProposalBondMinimum SpendPeriod Burn now op s :
  32 ≤ w → 0 < ED → total_order compare → StronglySorted (λ a b, compare a b = Lt) sorted_members →
  config_ok w TipFindersFee TipReportDepositBase TipReportDepositPerByte ProposalBond ProposalBondMinimum SpendPeriod Burn →
  treasury_ok w ED compare s → tvalid w ED account_id compare sorted_members TipCountdown now op s →
  match texec w ED account_id approve_origin reject_origin compare sorted_members hash hash_of
    TipCountdown TipFindersFee TipReportDepositBase TipReportDepositPerByte ProposalBond ProposalBondMinimum SpendPeriod Burn now op s with
  | (Ok _, s') => treasury_ok w ED compare s'
  | (Err _, s') => s' = s
  | (Panic, _) => False
  end.
Proof. intros Hw HED Hord Hm Hcfg Hok Hval. by apply texec_ok. Qed.

(** C24. The end of a spend period, on books that balance and with a pot that is not
    locked: the approved proposals are awarded in order as long as they fit into
    what is left of the pot, awarded and unknown ones are no longer listed, and if
    none waits a share of the rest is burnt.  Every award is paid in full to its
    beneficiary, unless it is below the existential deposit and would have to open
    the account; the pot pays for exactly that, keeps the existential deposit, the
    funds of all others do not change, and the total issuance is less by what was
    burnt. *)
Theorem spend_funds_correct {E} Burn c t :
  32 ≤ w → 0 < ED → parts_ok Permill Burn → balanced w ED c → proposals_ok (proposals t) →
  total_issuance c + pot ED account_id c < 2 ^ w → misc_frozen (account c account_id) ≤ ED →
  let budget := pot ED account_id c in
  let '(kept, awarded) := plan (proposals t) (approvals t) budget in
  let burning := burnt Burn kept (budget - spent awarded) in
  ∃ paid c', spend_funds (E := E) w ED account_id Burn (c, t) = (Ok tt, (c', set_approvals (λ _, kept) (set_proposals (without awarded) t))) ∧
    balanced w ED c' ∧ Forall2 (pays ED) awarded paid ∧ total_issuance c' = total_issuance c - burning ∧
    (∀ who, fr (account c' who) = fr (account c who) + received paid who - if decide (who = account_id) then total_paid paid + burning else 0) ∧
    (ED ≤ free (account c account_id) → ED ≤ free (account c' account_id)).
Proof. intros Hw HED HB. by apply spend_funds_ok. Qed.

(** C25. The tips of an open tip, kept in the order of the accounts: a new tip
    replaces the one of the same account and the tips of accounts that are no
    longer tippers go, which the walk along the sorted members finds out as the
    filter does; the tip closes when at least half of the tippers have tipped, a
    countdown later, and closing once set is never put off. *)
Theorem tips_correct compare sorted_members TipCountdown now (tip : OpenTip (AccountId := AccountId)) tipper tip_value :
  total_order compare → StronglySorted (λ a b, compare a b = Lt) sorted_members → tip_ok compare tip → 0 ≤ tip_value → now + TipCountdown < 2 ^ 32 →
  let given := insert_tip compare (tips_given tip) tipper tip_value in
  let ts := base.filter (λ a, a.1 ∈ sorted_members) given in
  let closing := bool_decide ((length sorted_members + 1) / 2 ≤ length ts)%nat && bool_decide (closes tip = None) in
  let tip' := MkTip (reason tip) (tip_who tip) (finder tip) (if closing then Some (now + TipCountdown) else closes tip) ts in
  insert_tip_and_check_closing compare sorted_members TipCountdown now tip tipper tip_value = Ok (tip', closing) ∧ tip_ok compare tip' ∧
  ∀ a x, (a, x) ∈ given ↔ (a = tipper ∧ x = tip_value) ∨ (a ≠ tipper ∧ (a, x) ∈ tips_given tip).
Proof.
  intros Hord Hm Htip Hv Hfit given ts closing tip'. destruct (closing_ok compare Hord sorted_members Hm TipCountdown now tip tipper tip_value Htip Hv Hfit) as [Hrun Htip'].
  split_and!; [exact Hrun|exact Htip'|]. apply insert_tip_ok; [done|apply Htip].
Qed.

End theorems.

(** ** A small treasury *)

Module SmallTreasury.

(** The treasury is account 9; accounts 1, 2 and 3 are tippers. *)
Definition books : State (AccountId := nat) :=
  match genesis 128 10 [(1%nat, 1000); (2%nat, 1000); (9%nat, 510)] with Ok s => s | _ => MkState ∅ 0 ∅ [] end.

Lemma books_balanced : balanced 128 10 books.
Proof.
  apply (genesis_ok 128 10 ltac:(lia) ltac:(lia) [(1%nat, 1000); (2%nat, 1000); (9%nat, 510)]); [by apply (bool_decide_unpack _); vm_compute|].
  vm_compute. reflexivity.
Qed.

Definition members : list nat := [1; 2; 3]%nat.

Lemma members_sorted : StronglySorted (λ a b, Nat.compare a b = Lt) members.
Proof. repeat constructor. Qed.

(** A tenth as the finder's fee, a bond of 5% and at least 20, and 1% burnt every
    ten blocks. *)
Lemma small_config : config_ok 128 10 1 1 50000 20 10 10000.
Proof. split; unfold parts_ok; cbn; lia. Qed.

Definition any (_ : Origin (AccountId := nat)) : bool := true.
Definition small_hash (l : list Z) : Hash := l.
Definition small_hash_of (p : Hash * nat) : Hash := p.1 ++ [Z.of_nat p.2].

Abbreviation run_op := (texec 128 10 9%nat any any Nat.compare members small_hash small_hash_of 5 10 1 1 50000 20 10 10000).

Definition empty : Store (AccountId := nat) := MkStore 0 ∅ [] ∅ ∅.

Lemma start_treasury : treasury_ok 128 10 Nat.compare (books, empty).
Proof. split; [exact books_balanced|]. split; cbn; [lia|apply map_Forall_empty..]. Qed.

Lemma treasury_settles_witness :
  match run_op 3 (TPropose (Signed 1%nat) 200 2%nat) (books, empty) with
  | (Ok _, s') => treasury_ok 128 10 Nat.compare s' ∧ proposals s'.2 !! 0 = Some (MkProposal 1%nat 200 2%nat 20)
  | _ => False
  end.
Proof.
  pose proof (treasury_settles 128 10 9%nat any any Nat.compare members small_hash small_hash_of 5 10 1 1 50000 20 10 10000 3 (TPropose (Signed 1%nat) 200 2%nat)
    (books, empty) ltac:(lia) ltac:(lia) nat_order members_sorted small_config start_treasury ltac:(cbn; unfold fits; lia)) as T.
  assert ((run_op 3 (TPropose (Signed 1%nat) 200 2%nat) (books, empty)).1 = Ok tt) as Hr by (vm_compute; reflexivity).
  assert (proposals (run_op 3 (TPropose (Signed 1%nat) 200 2%nat) (books, empty)).2.2 !! 0 = Some (MkProposal 1%nat 200 2%nat 20)) as Hp by (vm_compute; reflexivity).
  destruct (run_op 3 (TPropose (Signed 1%nat) 200 2%nat) (books, empty)) as [[[]|e|] s']; [|done..]. split; [exact T|exact Hp].
Defined.

(** Two approved proposals fit and one does not. *)
Definition three : Store (AccountId := nat) :=
  MkStore 3 {[ 0 := MkProposal 1%nat 200 2%nat 20; 1 := MkProposal 1%nat 400 2%nat 20; 2 := MkProposal 2%nat 300 1%nat 20 ]} [0; 1; 2] ∅ ∅.

Lemma spend_funds_correct_witness :
  ∃ (paid : list (nat * Z)) c', spend_funds (E := Empty_set) 128 10 9%nat 10000 (books, three) = (Ok tt, (c', set_approvals (λ _, [1]) (set_proposals (delete 2 ∘ delete 0) three))) ∧
    balanced 128 10 c' ∧ total_issuance c' = 2510 ∧ total_paid paid = 500.
Proof.
  pose proof (spend_funds_correct 128 10 9%nat (E := Empty_set) 10000 books three ltac:(lia) ltac:(lia) ltac:(unfold parts_ok; cbn; lia) books_balanced) as T.
  assert (plan (proposals three) (approvals three) (pot 10 9%nat books) = ([1], [(0, MkProposal 1%nat 200 2%nat 20); (2, MkProposal 2%nat 300 1%nat 20)])) as Hplan
    by (vm_compute; reflexivity).
  cbv zeta in T. rewrite Hplan in T. destruct T as (paid&c'&Hrun&Hb&Hpays&Hi&_).
  - apply (map_Forall_insert_2 (M := gmap Z)); [cbn; lia|]. apply (map_Forall_insert_2 (M := gmap Z)); [cbn; lia|]. apply map_Forall_singleton. cbn. lia.
  - vm_compute. reflexivity.
  - vm_compute. discriminate.
  - exists paid, c'. split_and!; [exact Hrun|exact Hb|rewrite Hi; vm_compute; reflexivity|].
    inversion Hpays as [|? p1 ? ? Hp1 Hrest]; subst. inversion Hrest as [|? p2 ? ? Hp2 Hnil]; subst. inversion Hnil; subst.
    destruct Hp1 as [_ Hp1], Hp2 as [_ Hp2]. cbn in *. lia.
Defined.

Definition open : OpenTip (AccountId := nat) := MkTip [1] 2%nat None None [(1%nat, 50); (7%nat, 90)].

Lemma tips_correct_witness :
  insert_tip_and_check_closing Nat.compare members 5 100 open 3%nat 70 = Ok (MkTip [1] 2%nat None (Some 105) [(1%nat, 50); (3%nat, 70)], true).
Proof.
  destruct (tips_correct Nat.compare members 5 100 open 3%nat 70) as [Hrun _]; [exact nat_order|exact members_sorted| |lia|lia|exact Hrun].
  split_and!; cbn; [repeat constructor| |done]. intros a x Hin. rewrite !elem_of_cons in Hin. destruct Hin as [[= -> ->]|[[= -> ->]|?%elem_of_nil]]; [lia|lia|done].
Defined.

(** A tip was given by account 7 only, which no longer is a tipper: closing it
    panics. *)
Definition abandoned : Store (AccountId := nat) := MkStore 0 ∅ [] {[ [1] := MkTip [1] 2%nat None (Some 105) [(7%nat, 90)] ]} {[ [1] := [1] ]}.

Lemma closing_abandoned_tip_panics : (run_op 110 (TClose (Signed 1%nat) [1]) (books, abandoned)).1 = Panic.
Proof.
  apply (close_panics 128 10 9%nat any any Nat.compare members small_hash small_hash_of 5 10 1 1 50000 20 10 10000 (Signed 1%nat) 1%nat [1] 110
    (MkTip [1] 2%nat None (Some 105) [(7%nat, 90)]) 105); [done|apply lookup_singleton_eq|done|lia|vm_compute; reflexivity].
Qed.

End SmallTreasury.
