(* ===== verification/Membership.v ===== *)
(** * Members and their observers (src/frame/membership/src/lib.rs,
      [ChangeMembers] and [InitializeMembers] of src/frame/support/src/traits.rs)

    A set of members that some origins may change.  Another module is told about
    every change, through a trait that is the class [ChangeMembers] here; the
    class [KeepsMembers] says what that module promises. *)
From S2P Require Import Prelude PerThings Balances BalancesFacts Pallet.

Local Open Scope Z_scope.

(** ** Observers of a set of members *)

(** The incoming and the outgoing members and the new set; the prime member. *)
Class ChangeMembers (A R : Type) : Type := {
  change_members_sorted : list A → list A → list A → R → R;
  set_prime : option A → R → R;
}.

Class InitializeMembers (A R : Type) : Type := { initialize_members : list A → R → run R }.

Section diff.
Context {A R : Type} `{!ChangeMembers A R} (compare : A → A → comparison).

(** The loop over both lists: who comes and who goes. *)
Fixpoint diff_loop (old_members : list A) : list A → list A * list A :=
  fix go (new_members : list A) : list A * list A :=
    match old_members, new_members with
    | [], [] => ([], [])
    | old :: olds, new :: news =>
        match compare old new with
        | Eq => diff_loop olds news
        | Lt => let '(incoming, outgoing) := diff_loop olds new_members in (incoming, old :: outgoing)
        | Gt => let '(incoming, outgoing) := go news in (new :: incoming, outgoing)
        end
    | old :: olds, [] => let '(incoming, outgoing) := diff_loop olds [] in (incoming, old :: outgoing)
    | [], new :: news => let '(incoming, outgoing) := go news in (new :: incoming, outgoing)
    end.

Definition compute_members_diff (new_members old_members : list A) : list A * list A := diff_loop old_members new_members.

Definition set_members_sorted (new_members old_members : list A) (r : R) : R :=
  let '(incoming, outgoing) := compute_members_diff new_members old_members in
  change_members_sorted incoming outgoing new_members r.

End diff.

(** ** The module *)

Inductive MembershipError : Type := AlreadyMember | MembershipNotMember.

Record Membership {AccountId : Type} : Type := MkMembership { current : list AccountId; current_prime : option AccountId }.
Arguments Membership : clear implicits.
Arguments MkMembership {AccountId} _ _.
Arguments current {AccountId} _.
Arguments current_prime {AccountId} _.

Section membership.
Context {AccountId : Type} `{Countable AccountId} {R : Type} `{!ChangeMembers AccountId R, !InitializeMembers AccountId R}.
Context (compare : AccountId → AccountId → comparison).
(** The origins of the runtime, and the one of the system module in them; who may
    add, remove, swap and reset members, and set the prime member. *)
Context {O : Type} (as_system : O → option (Origin (AccountId := AccountId))).
Context (add_origin remove_origin swap_origin reset_origin prime_origin : O → run bool).

Local Abbreviation K := (P (AccountId := AccountId) (S := R * Membership AccountId)).
Local Abbreviation Dispatch := (DispatchError MembershipError).
Local Abbreviation search x l := (binary_search_by (λ y, compare y x) l).

Definition ensure_signed {E S'} (o : O) : P (AccountId := AccountId) (S := S') (DispatchError E) AccountId :=
  match as_system o with Some o => signed o | None => raise DispatchBadOrigin end.
Definition ensure_root {E S'} (o : O) : P (AccountId := AccountId) (S := S') (DispatchError E) unit :=
  match as_system o with Some Root => mret tt | _ => raise DispatchBadOrigin end.

(** [try_origin(origin).map(..).or_else(ensure_root)?] *)
Definition try_origin (f : O → run bool) (o : O) : K Dispatch unit :=
  b ← runs (f o);
  if (b : bool) then mret tt else ensure_root o.

Definition members_now : K Dispatch (list AccountId) := reads (λ s, current s.2.2).
Definition put_members (l : list AccountId) : K Dispatch unit := writes (λ s, (s.1, MkMembership l (current_prime s.2))).
Definition put_prime (p : option AccountId) : K Dispatch unit := writes (λ s, (s.1, MkMembership (current s.2) p)).
Definition tell (f : R → R) : K Dispatch unit := writes (λ s, (f s.1, s.2)).

(** [binary_search(..).err().ok_or(AlreadyMember)] and
    [binary_search(..).ok().ok_or(NotMember)] *)
Definition search_free (who : AccountId) (l : list AccountId) : K Dispatch nat :=
  match search who l with inl _ => raise (DispatchModule AlreadyMember) | inr i => mret i end.
Definition search_member (who : AccountId) (l : list AccountId) : K Dispatch nat :=
  match search who l with inl i => mret i | inr _ => raise (DispatchModule MembershipNotMember) end.

Definition rejig_prime (l : list AccountId) : K Dispatch unit :=
  p ← reads (λ s, current_prime s.2.2);
  match p with
  | Some prime =>
      match search prime l with
      | inl _ => tell (set_prime (Some prime))
      | inr _ => put_prime None
      end
  | None => mret tt
  end.

Definition add_member (origin : O) (who : AccountId) : K Dispatch unit :=
  try_origin add_origin origin ;;
  members ← members_now;
  location ← search_free who members;
  let members := vec_insert location who members in
  put_members members ;;
  tell (change_members_sorted [who] [] members) ;;
  event MemberAdded.

Definition remove_member (origin : O) (who : AccountId) : K Dispatch unit :=
  try_origin remove_origin origin ;;
  members ← members_now;
  location ← search_member who members;
  let members := delete location members in
  put_members members ;;
  tell (change_members_sorted [] [who] members) ;;
  rejig_prime members ;;
  event MemberRemoved.

Definition swap_member (origin : O) (remove add : AccountId) : K Dispatch unit :=
  try_origin swap_origin origin ;;
  if decide (remove = add) then mret tt
  else
    members ← members_now;
    location ← search_member remove members;
    search_free add members ;;
    let members := sort_ord compare (<[location := add]> members) in
    put_members members ;;
    tell (change_members_sorted [add] [remove] members) ;;
    rejig_prime members ;;
    event MembersSwapped.

(** The new list is written last. *)
Definition reset_members (origin : O) (members : list AccountId) : K Dispatch unit :=
  try_origin reset_origin origin ;;
  let members := sort_ord compare members in
  old ← members_now;
  tell (set_members_sorted compare members old) ;;
  rejig_prime members ;;
  put_members members ;;
  event MembersReset.

Definition change_key (origin : O) (new : AccountId) : K Dispatch unit :=
  remove ← ensure_signed origin;
  (if decide (remove = new) then mret tt
   else
     members ← members_now;
     location ← search_member remove members;
     search_free new members ;;
     let members := sort_ord compare (<[location := new]> members) in
     put_members members ;;
     tell (change_members_sorted [new] [remove] members) ;;
     p ← reads (λ s, current_prime s.2.2);
     if decide (p = Some remove) then put_prime (Some new) ;; tell (set_prime (Some new)) else mret tt) ;;
  event KeyChanged.

Definition call_set_prime (origin : O) (who : AccountId) : K Dispatch unit :=
  try_origin prime_origin origin ;;
  members ← members_now;
  search_member who members ;;
  put_prime (Some who) ;;
  tell (set_prime (Some who)).

Definition clear_prime (origin : O) : K Dispatch unit :=
  try_origin prime_origin origin ;;
  put_prime None ;;
  tell (set_prime None).

Definition membership_genesis (config : list AccountId) : K Empty_set unit :=
  let members := sort_ord compare config in
  r ← reads (λ s, s.2.1);
  r ← runs (initialize_members members r);
  writes (λ s, (r, MkMembership members (current_prime s.2))).

End membership.

(** What an observer of the members keeps: the members themselves and the prime
    member, and an invariant, as long as no one who leaves is left out. *)
Class KeepsMembers {A R : Type} `{!ChangeMembers A R} (inv : R → Prop) (kept : R → list A) (kept_prime : R → option A) : Prop := {
  change_kept r incoming outgoing new :
    inv r → (∀ a, a ∈ kept r → a ∉ new → a ∈ outgoing) →
    let r' := change_members_sorted incoming outgoing new r in
    inv r' ∧ kept r' = new ∧ kept_prime r' = None;
  prime_kept r p : inv r → inv (set_prime p r) ∧ kept (set_prime p r) = kept r ∧ kept_prime (set_prime p r) = p;
}.
