(* ===== verification/Collective.v ===== *)
(** * Collectives (src/frame/collective/src/lib.rs)

    Members of a collective propose motions and vote on them; a motion that enough
    members approve is dispatched with an origin that says how many.  The dispatch
    of calls is that of the runtime and a parameter, as are the hash of a call and
    the storage of the other modules. *)
From S2P Require Import Prelude PerThings Balances BalancesFacts Pallet Membership.

Local Open Scope Z_scope.

Inductive CollectiveError : Type :=
  | NotMember | DuplicateProposal | ProposalMissing | WrongIndex | DuplicateVote | AlreadyInitialized | TooEarly.

(** [RawOrigin]: some of the members, of a total, or a single member. *)
Inductive RawOrigin {AccountId : Type} : Type := Members (n m : Z) | Member (who : AccountId).
Arguments RawOrigin : clear implicits.
Arguments Members {AccountId} n m.
Arguments Member {AccountId} who.

(** The origins of the runtime. *)
Inductive OuterOrigin {AccountId : Type} : Type :=
  | FromSystem (o : Origin (AccountId := AccountId))
  | FromCollective (o : RawOrigin AccountId).
Arguments OuterOrigin : clear implicits.
Arguments FromSystem {AccountId} o.
Arguments FromCollective {AccountId} o.

Definition as_system {AccountId} (o : OuterOrigin AccountId) : option (Origin (AccountId := AccountId)) :=
  match o with FromSystem o => Some o | FromCollective _ => None end.

Section collective.
Context {AccountId : Type} `{Countable AccountId} {Call X D : Type}.

Local Abbreviation Hash := (list Z).

Record Votes : Type := MkVotes {
  vote_index : Z;
  threshold : Z;
  ayes : list AccountId;
  nays : list AccountId;
  vote_end : Z;
}.

Record Motions : Type := MkMotions {
  motion_hashes : list Hash;
  proposal_of : gmap Hash Call;
  voting : gmap Hash Votes;
  motion_count : Z;
  members : list AccountId;
  prime : option AccountId;
}.

Definition set_motion_hashes (f : list Hash → list Hash) (m : Motions) : Motions :=
  MkMotions (f (motion_hashes m)) (proposal_of m) (voting m) (motion_count m) (members m) (prime m).
Definition set_proposal_of (f : gmap Hash Call → gmap Hash Call) (m : Motions) : Motions :=
  MkMotions (motion_hashes m) (f (proposal_of m)) (voting m) (motion_count m) (members m) (prime m).
Definition set_voting (f : gmap Hash Votes → gmap Hash Votes) (m : Motions) : Motions :=
  MkMotions (motion_hashes m) (proposal_of m) (f (voting m)) (motion_count m) (members m) (prime m).
Definition set_motion_count (n : Z) (m : Motions) : Motions :=
  MkMotions (motion_hashes m) (proposal_of m) (voting m) n (members m) (prime m).
Definition put_members_prime (l : list AccountId) (p : option AccountId) (m : Motions) : Motions :=
  MkMotions (motion_hashes m) (proposal_of m) (voting m) (motion_count m) l p.

Context (compare : AccountId → AccountId → comparison) (hash_of : Call → Hash) (MotionDuration : Z).

Local Abbreviation K := (P (AccountId := AccountId) (S := Motions * X)).
Local Abbreviation Dispatch := (DispatchError CollectiveError).
Local Abbreviation len l := (wrap 32 (Z.of_nat (length l))).

(** [Dispatchable::dispatch] of the calls of the runtime. *)
Context (dispatch : Call → OuterOrigin AccountId → K D unit).

Definition motions {E A} (f : Motions → A) : K E A := reads (λ s, f s.2.1).
Definition change {E} (f : Motions → Motions) : K E unit := writes (λ s, (f s.1, s.2)).

Definition is_member (m : Motions) (who : AccountId) : bool := bool_decide (who ∈ members m).

(** ** Membership *)

(** The votes without those of outgoing members. *)
Definition drop_votes (outgoing : list AccountId) (v : Votes) : Votes :=
  let keep (i : AccountId) := match binary_search_by (λ y, compare y i) outgoing with inl _ => false | inr _ => true end in
  MkVotes (vote_index v) (threshold v) (base.filter (λ i, keep i = true) (ayes v)) (base.filter (λ i, keep i = true) (nays v)) (vote_end v).

Definition change_motion_members (outgoing new : list AccountId) (m : Motions) : Motions :=
  let outgoing := sort_ord compare outgoing in
  let m1 := foldl (λ m h, set_voting (alter (drop_votes outgoing) h) m) m (motion_hashes m) in
  put_members_prime new None m1.

Definition set_motion_prime (p : option AccountId) (m : Motions) : Motions := put_members_prime (members m) p m.

#[export] Instance collective_members : ChangeMembers AccountId Motions := {|
  change_members_sorted := λ _, change_motion_members;
  set_prime := set_motion_prime;
|}.

Definition initialize_motions (new : list AccountId) (m : Motions) : run Motions :=
  match new with
  | [] => Ok m
  | _ => match members m with [] => Ok (put_members_prime new (prime m) m) | _ => Panic end
  end.

#[export] Instance collective_initialize : InitializeMembers AccountId Motions := {| initialize_members := initialize_motions |}.

Definition collective_set_members (origin : OuterOrigin AccountId) (new_members : list AccountId) (p : option AccountId) : K Dispatch unit :=
  ensure_root as_system origin ;;
  let new_members := sort_ord compare new_members in
  old ← motions members;
  change (set_members_sorted compare new_members old) ;;
  change (set_prime p).

(** ** Motions *)

(** [dispatch(..).is_ok()] *)
Definition is_ok {F} (m : K D unit) : K F bool := λ s,
  match m s with
  | (Ok _, s') => (Ok true, s')
  | (Err _, s') => (Ok false, s')
  | (Panic, s') => (Panic, s')
  end.

Definition execute (origin : OuterOrigin AccountId) (proposal : Call) : K Dispatch unit :=
  who ← ensure_signed as_system origin;
  member ← motions (λ m, is_member m who);
  require member (DispatchModule NotMember) ;;
  let proposal_hash := hash_of proposal in
  ok ← is_ok (dispatch proposal (FromCollective (Member who)));
  event (MemberExecuted proposal_hash ok).

Definition propose (now : Z) (origin : OuterOrigin AccountId) (the_threshold : Z) (proposal : Call) : K Dispatch unit :=
  who ← ensure_signed as_system origin;
  member ← motions (λ m, is_member m who);
  require member (DispatchModule NotMember) ;;
  let proposal_hash := hash_of proposal in
  known ← motions (λ m, bool_decide (is_Some (proposal_of m !! proposal_hash)));
  require (negb known) (DispatchModule DuplicateProposal) ;;
  if the_threshold <? 2 then
    seats ← motions (λ m, len (members m));
    ok ← is_ok (dispatch proposal (FromCollective (Members 1 seats)));
    event (Executed proposal_hash ok)
  else
    index ← motions motion_count;
    count ← runs (uadd 32 index 1);
    change (set_motion_count count) ;;
    change (set_motion_hashes (λ l, l ++ [proposal_hash])) ;;
    change (set_proposal_of <[proposal_hash := proposal]>) ;;
    the_end ← runs (uadd 32 now MotionDuration);
    change (set_voting <[proposal_hash := MkVotes index the_threshold [who] [] the_end]>) ;;
    event (MotionProposed who index proposal_hash the_threshold).

Definition finalize_proposal {E} (approved : bool) (seats : Z) (v : Votes) (proposal : Hash) : K E unit :=
  (if approved then
     event (MotionApproved proposal) ;;
     taken ← motions (λ m, proposal_of m !! proposal);
     change (set_proposal_of (delete proposal)) ;;
     match taken with
     | Some p =>
         ok ← is_ok (dispatch p (FromCollective (Members (threshold v) seats)));
         event (Executed proposal ok)
     | None => mret tt
     end
   else
     change (set_proposal_of (delete proposal)) ;;
     event (MotionDisapproved proposal)) ;;
  change (set_voting (delete proposal)) ;;
  change (set_motion_hashes (base.filter (λ h, h ≠ proposal))).

(** [swap_remove(position)] of the account, if it is there. *)
Definition withdraw_vote (who : AccountId) (l : list AccountId) : list AccountId :=
  match position (λ a, bool_decide (a = who)) l with
  | Some pos => match swap_remove pos l with Some (_, l') => l' | None => l end
  | None => l
  end.

Definition vote (origin : OuterOrigin AccountId) (proposal : Hash) (index : Z) (approve : bool) : K Dispatch unit :=
  who ← ensure_signed as_system origin;
  member ← motions (λ m, is_member m who);
  require member (DispatchModule NotMember) ;;
  found ← motions (λ m, voting m !! proposal);
  v ← some_or found (DispatchModule ProposalMissing);
  require (vote_index v =? index) (DispatchModule WrongIndex) ;;
  let position_yes := position (λ a, bool_decide (a = who)) (ayes v) in
  let position_no := position (λ a, bool_decide (a = who)) (nays v) in
  v ← (if approve then
         require (bool_decide (position_yes = None)) (DispatchModule DuplicateVote) ;;
         mret (MkVotes (vote_index v) (threshold v) (ayes v ++ [who]) (withdraw_vote who (nays v)) (vote_end v))
       else
         require (bool_decide (position_no = None)) (DispatchModule DuplicateVote) ;;
         mret (MkVotes (vote_index v) (threshold v) (withdraw_vote who (ayes v)) (nays v ++ [who]) (vote_end v)));
  let yes_votes := len (ayes v) in
  let no_votes := len (nays v) in
  event (Voted who proposal approve yes_votes no_votes) ;;
  seats ← motions (λ m, len (members m));
  let approved := threshold v <=? yes_votes in
  let disapproved := saturating_sub seats no_votes <? threshold v in
  if approved || disapproved then finalize_proposal approved seats v proposal
  else change (set_voting <[proposal := v]>).

Definition close (now : Z) (origin : OuterOrigin AccountId) (proposal : Hash) (index : Z) : K Dispatch unit :=
  ensure_signed as_system origin ;;
  found ← motions (λ m, voting m !! proposal);
  v ← some_or found (DispatchModule ProposalMissing);
  require (vote_index v =? index) (DispatchModule WrongIndex) ;;
  require (vote_end v <=? now) (DispatchModule TooEarly) ;;
  p ← motions prime;
  let default := match p with Some who => bool_decide (who ∈ ayes v) | None => false end in
  let no_votes := len (nays v) in
  let yes_votes := len (ayes v) in
  seats ← motions (λ m, len (members m));
  voted ← runs (uadd 32 yes_votes no_votes);
  abstentions ← runs (expect (checked_sub seats voted));
  '(yes_votes, no_votes) ←
    (if (default : bool) then yes ← runs (uadd 32 yes_votes abstentions); mret (yes, no_votes)
     else no ← runs (uadd 32 no_votes abstentions); mret (yes_votes, no));
  event (MotionClosed proposal yes_votes no_votes) ;;
  finalize_proposal (threshold v <=? yes_votes) seats v proposal.

End collective.
Arguments Votes : clear implicits.
Arguments Motions : clear implicits.

(** ** Origins *)

Section origins.
Context {AccountId : Type}.
Implicit Types o : OuterOrigin AccountId.

Definition ensure_members o (n : Z) : option Z :=
  match o with FromCollective (Members x _) => if n <=? x then Some n else None | _ => None end.

Definition EnsureMember o : option AccountId :=
  match o with FromCollective (Member id) => Some id | _ => None end.

Definition EnsureMembers (N : Z) o : option (Z * Z) :=
  match o with FromCollective (Members n m) => if N <=? n then Some (n, m) else None | _ => None end.

Definition EnsureProportionMoreThan (N D : Z) o : run bool :=
  match o with
  | FromCollective (Members n m) => a ← umul 32 n D; b ← umul 32 N m; Ok (b <? a)
  | _ => Ok false
  end.

Definition EnsureProportionAtLeast (N D : Z) o : run bool :=
  match o with
  | FromCollective (Members n m) => a ← umul 32 n D; b ← umul 32 N m; Ok (b <=? a)
  | _ => Ok false
  end.

End origins.
