(* ===== verification/CollectiveFacts.v ===== *)
(** * Motions are decided by members *)
From S2P Require Import Prelude PerThings Balances BalancesFacts Pallet Membership Collective.

Local Open Scope Z_scope.

(** ** Who comes and who goes *)

Section diff_facts.
Context {A : Type} (compare : A → A → comparison) (Hord : total_order compare).

Lemma diff_loop_unfold old new :
  diff_loop compare old new =
    match old, new with
    | [], [] => ([], [])
    | o :: os, n :: ns =>
        match compare o n with
        | Eq => diff_loop compare os ns
        | Lt => let '(i, g) := diff_loop compare os new in (i, o :: g)
        | Gt => let '(i, g) := diff_loop compare old ns in (n :: i, g)
        end
    | o :: os, [] => let '(i, g) := diff_loop compare os [] in (i, o :: g)
    | [], n :: ns => let '(i, g) := diff_loop compare [] ns in (n :: i, g)
    end.
Proof. by destruct old, new. Qed.

(** Whatever the order of the lists, no one who leaves is missed. *)
Lemma diff_complete old new :
  let '(incoming, outgoing) := diff_loop compare old new in
  (∀ a, a ∈ old → a ∉ new → a ∈ outgoing) ∧ (∀ a, a ∈ new → a ∉ old → a ∈ incoming).
Proof using Hord.
  revert new. induction old as [|o os IHo]; intros new; induction new as [|n ns IHn]; rewrite diff_loop_unfold.
  - set_solver.
  - destruct (diff_loop compare [] ns) as [i g]. set_solver.
  - specialize (IHo []). destruct (diff_loop compare os []) as [i g]. set_solver.
  - destruct (compare o n) eqn:Hc.
    + apply (compare_eq Hord) in Hc as ->. specialize (IHo ns). destruct (diff_loop compare os ns) as [i g]. set_solver.
    + specialize (IHo (n :: ns)). destruct (diff_loop compare os (n :: ns)) as [i g]. set_solver.
    + destruct (diff_loop compare (o :: os) ns) as [i g]. set_solver.
Qed.

(** For sorted sets they are the differences. *)
Lemma diff_exact `{!EqDecision A} old new :
  StronglySorted (λ a b, compare a b = Lt) old → StronglySorted (λ a b, compare a b = Lt) new →
  diff_loop compare old new = (base.filter (λ a, a ∉ old) new, base.filter (λ a, a ∉ new) old).
Proof using Hord.
  intros Ho. revert new. induction Ho as [|o os Hos IHo Ho]; intros new Hn; induction Hn as [|n ns Hns IHn Hn]; rewrite diff_loop_unfold.
  - done.
  - rewrite IHn. rewrite filter_cons_True by apply not_elem_of_nil. done.
  - rewrite IHo by constructor. rewrite !filter_cons_True by apply not_elem_of_nil. done.
  - rewrite Forall_forall in Ho, Hn. destruct (compare o n) eqn:Hc.
    + apply (compare_eq Hord) in Hc as ->. rewrite IHo by done. rewrite !filter_cons_False by (intros Hx; apply Hx; by left).
      f_equal; apply filter_ext_in; intros a Ha; rewrite not_elem_of_cons; split; [|tauto| |tauto]; [apply Hn in Ha|apply Ho in Ha];
        intros ?; (split; [intros ->; by apply (compare_irrefl Hord) in Ha|done]).
    + rewrite IHo by (constructor; [done|by apply Forall_forall]).
      assert (o ∉ n :: ns) as Hon.
      { intros [->|Hin]%elem_of_cons; [by apply (compare_irrefl Hord) in Hc|]. apply Hn in Hin.
        apply (compare_irrefl Hord o). by apply (compare_trans Hord o n o). }
      rewrite (filter_cons_True (λ a, a ∉ n :: ns) o os) by done. f_equal. apply filter_ext_in. intros a Ha. rewrite not_elem_of_cons. split; [|tauto].
      intros ?. split; [|done]. intros ->. done.
    + rewrite IHn. apply (compare_Gt Hord) in Hc.
      assert (n ∉ o :: os) as Hno.
      { intros [->|Hin]%elem_of_cons; [by apply (compare_irrefl Hord) in Hc|]. apply Ho in Hin.
        apply (compare_irrefl Hord n). by apply (compare_trans Hord n o n). }
      rewrite (filter_cons_True (λ a, a ∉ o :: os) n ns) by done. f_equal. apply filter_ext_in. intros a Ha. rewrite not_elem_of_cons. split; [|tauto].
      intros ?. split; [|done]. intros ->. done.
Qed.

End diff_facts.

(** ** The storage of a collective *)

Section motions_facts.
Context {AccountId : Type} `{Countable AccountId} {Call : Type}.
Context (compare : AccountId → AccountId → comparison) (Hord : total_order compare) (hash_of : Call → list Z).
Local Abbreviation Hash := (list Z).
Local Abbreviation Votes := (Votes AccountId).
Local Abbreviation Motions := (Motions AccountId Call).
Implicit Types (m : Motions) (v : Votes) (h : Hash).
#[local] Instance observer : ChangeMembers AccountId Motions := collective_members compare.

(** Every member votes at most once, and an open motion is not approved yet. *)
Definition vote_ok m v : Prop :=
  NoDup (ayes v ++ nays v) ∧ (∀ a, a ∈ ayes v ++ nays v → a ∈ members m) ∧
  2 ≤ threshold v ∧ Z.of_nat (length (ayes v)) < threshold v ∧ 0 ≤ vote_index v < motion_count m.

(** [busy] is the motion that is being dispatched. *)
Record coll_ok (busy : option Hash) m : Prop := {
  hashes_nodup : NoDup (motion_hashes m);
  hashes_voting h : h ∈ motion_hashes m ↔ is_Some (voting m !! h);
  hashes_proposals h : is_Some (proposal_of m !! h) ↔ h ∈ motion_hashes m ∧ busy ≠ Some h;
  proposal_hash h p : proposal_of m !! h = Some p → hash_of p = h;
  votes_fine h v : voting m !! h = Some v → vote_ok m v;
  index_unique h h' v v' : voting m !! h = Some v → voting m !! h' = Some v' → vote_index v = vote_index v' → h = h';
  count_fits : 0 ≤ motion_count m < 2 ^ 32;
}.

(** What others may do with this storage: change the members. *)
Inductive member_changes m : Motions → Prop :=
  | changes_none : member_changes m m
  | changes_members m' (incoming outgoing new : list AccountId) :
      member_changes m m' → (∀ a, a ∈ members m' → a ∉ new → a ∈ outgoing) →
      member_changes m (change_members_sorted incoming outgoing new m')
  | changes_prime m' (p : option AccountId) : member_changes m m' → member_changes m (set_prime p m').

Lemma drop_votes_ok outgoing v :
  let v' := drop_votes compare (sort_ord compare outgoing) v in
  ayes v' = base.filter (λ a, a ∉ outgoing) (ayes v) ∧ nays v' = base.filter (λ a, a ∉ outgoing) (nays v) ∧
  vote_index v' = vote_index v ∧ threshold v' = threshold v ∧ vote_end v' = vote_end v.
Proof using Type*.
  cbn. split_and!; [| |done..]; apply filter_ext_in; intros a _;
    (pose proof (binary_search_elem Hord (sort_ord compare outgoing) a (sort_ord_ascending Hord outgoing)) as Hb;
     destruct (binary_search_by _ _) as [i|i];
     [apply list_elem_of_lookup_2 in Hb; rewrite elem_of_sort_ord in Hb; split; [done|by intros []]
     |destruct Hb as [Hb _]; rewrite elem_of_sort_ord in Hb; done]).
Qed.

Lemma foldl_voting f hs m : NoDup hs →
  foldl (λ m h, set_voting (alter f h) m) m hs = set_voting (λ vs, foldl (λ vs h, alter f h vs) vs hs) m ∧
  ∀ h, foldl (λ vs h, alter f h vs) (voting m) hs !! h = if decide (h ∈ hs) then f <$> voting m !! h else voting m !! h.
Proof.
  revert m. induction hs as [|k hs IH]; intros m Hnd; cbn [foldl]; [by destruct m|]. apply NoDup_cons in Hnd as [Hk Hnd].
  destruct (IH (set_voting (alter f k) m) Hnd) as [-> Hl]. split; [done|]. intros h. cbn in Hl. rewrite Hl.
  destruct (decide (h = k)) as [->|Hne].
  - rewrite decide_False by done. rewrite lookup_alter_eq. by rewrite decide_True by (by left).
  - rewrite lookup_alter_ne by done. apply decide_ext. rewrite elem_of_cons. tauto.
Qed.

(** A change of the members. *)
Lemma change_members_ok busy m (incoming outgoing new : list AccountId) :
  coll_ok busy m → (∀ a, a ∈ members m → a ∉ new → a ∈ outgoing) →
  let m' := change_members_sorted incoming outgoing new m in
  coll_ok busy m' ∧ members m' = new ∧ prime m' = None ∧ motion_hashes m' = motion_hashes m ∧ proposal_of m' = proposal_of m ∧
  motion_count m' = motion_count m ∧ ∀ h, voting m' !! h = drop_votes compare (sort_ord compare outgoing) <$> voting m !! h.
Proof using Type*.
  intros Hok Hout. cbn. unfold change_motion_members. set (d := drop_votes compare (sort_ord compare outgoing)).
  destruct (foldl_voting d (motion_hashes m) m (hashes_nodup _ _ Hok)) as [-> Hl].
  set (vs := foldl _ _ _) in *. cbn.
  assert (∀ h, vs !! h = d <$> voting m !! h) as Hvs.
  { intros h. rewrite Hl. case_decide as Hh; [done|]. rewrite (hashes_voting _ _ Hok) in Hh. by apply eq_None_not_Some in Hh as ->. }
  split_and!; [|done..|exact Hvs]. clear Hl. destruct Hok as [Hnd Hv Hp Hh Hvotes Hidx Hc]. split; cbn; try done.
  - intros h. rewrite Hvs, fmap_is_Some. apply Hv.
  - intros h v'. rewrite Hvs. intros (v&Hvot&->)%fmap_Some. destruct (Hvotes h v Hvot) as (Hn&Hmem&Ht&Hlt&Hi).
    destruct (drop_votes_ok outgoing v) as (Ha&Hna&Hvi&Hth&_). fold d in Ha, Hna, Hvi, Hth. unfold vote_ok. rewrite Ha, Hna, Hvi, Hth. cbn. split_and!; [| |done| |lia..].
    + rewrite <- filter_app. by apply NoDup_filter.
    + rewrite <- filter_app. intros a [Hno Hin]%list_elem_of_filter. destruct (decide (a ∈ new)); [done|]. destruct Hno. by apply Hout; [apply Hmem|].
    + pose proof (length_filter (λ a, a ∉ outgoing) (ayes v)). lia.
  - intros h h' v v'. rewrite !Hvs. intros (u&Hu&->)%fmap_Some (u'&Hu'&->)%fmap_Some Hi. exact (Hidx h h' u u' Hu Hu' Hi).
Qed.

Lemma set_prime_ok busy m (p : option AccountId) : coll_ok busy m → coll_ok busy (set_prime p m).
Proof. intros [Hnd Hv Hp Hh Hvotes Hidx Hc]. by split. Qed.

Lemma member_changes_ok busy m m' :
  member_changes m m' → coll_ok busy m →
  coll_ok busy m' ∧ motion_hashes m' = motion_hashes m ∧ proposal_of m' = proposal_of m ∧ motion_count m' = motion_count m.
Proof using Type*.
  induction 1 as [|m' i o n _ IH Hout|m' p _ IH]; intros Hok; [done| |].
  - destruct (IH Hok) as (Hok'&<-&<-&<-). destruct (change_members_ok busy m' i o n Hok' Hout) as (?&_&_&?&?&?&_). done.
  - destruct (IH Hok) as (Hok'&<-&<-&<-). by split; [apply set_prime_ok|].
Qed.

(** The motions of [m'] are those of [m], or new ones. *)
Definition follows m m' : Prop :=
  motion_count m ≤ motion_count m' ∧
  ∀ h v', voting m' !! h = Some v' →
    motion_count m ≤ vote_index v' ∨
    ∃ v, voting m !! h = Some v ∧ vote_index v' = vote_index v ∧ threshold v' = threshold v ∧ vote_end v' = vote_end v.

#[export] Instance follows_po : PreOrder follows.
Proof.
  split; [intros m; split; [done|]; intros h v Hv; right; by exists v|]. intros m1 m2 m3 [Hc1 Hf1] [Hc2 Hf2]. split; [lia|].
  intros h v3 Hv3. destruct (Hf2 h v3 Hv3) as [?|(v2&Hv2&Hi2&Ht2&He2)]; [left; lia|].
  destruct (Hf1 h v2 Hv2) as [?|(v1&Hv1&Hi1&Ht1&He1)]; [left; lia|]. right. exists v1. split_and!; [done|congruence..].
Qed.

Lemma follows_same m m' : motion_count m' = motion_count m → (∀ h v, voting m' !! h = Some v → voting m !! h = Some v) → follows m m'.
Proof. intros Hc Hv. split; [lia|]. intros h v Hh. right. exists v. auto. Qed.

Lemma member_changes_follow busy m m' : member_changes m m' → coll_ok busy m → follows m m'.
Proof using Type*.
  induction 1 as [|m' i o n Hch IH Hout|m' p _ IH]; intros Hok; [done| |]; (etrans; [by apply IH|]).
  - destruct (member_changes_ok busy m m' Hch Hok) as [Hok' _]. destruct (change_members_ok busy m' i o n Hok' Hout) as (_&_&_&_&_&Hc&Hv).
    split; [lia|]. intros h v'. rewrite Hv. intros (v&Hv'&->)%fmap_Some. right. exists v. destruct (drop_votes_ok o v) as (_&_&->&->&->). done.
  - by apply follows_same.
Qed.

(** The change to a new list of members. *)
Lemma replaced_ok m new :
  coll_ok None m →
  let m' := set_members_sorted compare (sort_ord compare new) (members m) m in
  coll_ok None m' ∧ members m' = sort_ord compare new ∧ follows m m'.
Proof using Type*.
  intros Hok. unfold set_members_sorted, compute_members_diff. pose proof (diff_complete compare Hord (members m) (sort_ord compare new)) as Hdiff.
  destruct (diff_loop compare (members m) (sort_ord compare new)) as [i o]. destruct Hdiff as [Hout _].
  assert (member_changes m (change_members_sorted i o (sort_ord compare new) m)) as Hch by (constructor; [constructor|done]).
  split_and!; [by apply (member_changes_ok None m)|done|by apply (member_changes_follow None)].
Qed.

End motions_facts.

(** ** The calls *)

Section calls_facts.
Context {AccountId : Type} `{Countable AccountId} {Call X D : Type}.
Context (compare : AccountId → AccountId → comparison) (Hord : total_order compare).
Context (hash_of : Call → list Z) (MotionDuration : Z).
Local Abbreviation Hash := (list Z).
Local Abbreviation Votes := (Votes AccountId).
Local Abbreviation Motions := (Motions AccountId Call).
Local Abbreviation State := (State (AccountId := AccountId)).
Local Abbreviation K := (P (AccountId := AccountId) (S := Motions * X)).
Local Abbreviation coll_ok := (coll_ok hash_of).
Local Abbreviation count l := (Z.of_nat (length l)).
Implicit Types (m : Motions) (v : Votes) (h : Hash) (x : X) (c : State) (s : State * (Motions * X)) (who : AccountId).
Context (dispatch : Call → OuterOrigin AccountId → K D unit).

(** What the other modules need of the members, the prime and their own storage. *)
Context (W : Motions → X → Prop) (HW : ∀ m m' x, members m' = members m → prime m' = prime m → W m x → W m' x).

Definition good (busy : option Hash) s : Prop := coll_ok busy s.2.1 ∧ W s.2.1 s.2.2.

(** A call that is dispatched with an origin of the collective does not panic, and
    changes at most the members of the collective: its other storage needs a
    signed origin or root. *)
Definition dispatch_ok : Prop :=
  ∀ busy call o s, good busy s →
    match dispatch call (FromCollective o) s with
    | (Panic, _) => False
    | (_, s') => member_changes compare s.2.1 s'.2.1 ∧ W s'.2.1 s'.2.2
    end.
Context (Hd : dispatch_ok).

(** The motion is no longer open. *)
Definition closed h m : Motions := set_motion_hashes (base.filter (λ k, k ≠ h)) (set_voting (delete h) m).

(** What becomes of a motion that is decided: an approved one is dispatched. *)
Definition finished (approved : bool) (seats : Z) v h s s' : Prop :=
  let m := s.2.1 in
  if approved then
    ∃ p c1 r s1, proposal_of m !! h = Some p ∧ quiet s.1 c1 ∧
      dispatch p (FromCollective (Members (threshold v) seats)) (c1, (set_proposal_of (delete h) m, s.2.2)) = (r, s1) ∧
      quiet s1.1 s'.1 ∧ s'.2 = (closed h s1.2.1, s1.2.2)
  else quiet s.1 s'.1 ∧ s'.2 = (closed h (set_proposal_of (delete h) m), s.2.2).

Lemma busy_ok m h : coll_ok None m → coll_ok (Some h) (set_proposal_of (delete h) m).
Proof.
  intros [Hnd Hv Hp Hh Hvotes Hidx Hc]. split; cbn; try done.
  - intros k. destruct (decide (k = h)) as [->|Hne]; [rewrite lookup_delete_eq|rewrite lookup_delete_ne by done; rewrite Hp].
    + split; [by intros []|naive_solver].
    + naive_solver.
  - intros k p [_ Hk]%lookup_delete_Some. eauto.
Qed.

Lemma closed_ok m h : coll_ok (Some h) m → coll_ok None (closed h m).
Proof.
  intros [Hnd Hv Hp Hh Hvotes Hidx Hc]. split; cbn; try done.
  - by apply NoDup_filter.
  - intros k. rewrite list_elem_of_filter. destruct (decide (k = h)) as [->|Hne].
    + rewrite lookup_delete_eq. split; [naive_solver|by intros []].
    + rewrite lookup_delete_ne by done. rewrite Hv. naive_solver.
  - intros k. rewrite list_elem_of_filter. rewrite Hp. split; [|naive_solver]. intros [Hk Hne]. split_and!; [by intros ->|done|done].
  - intros k v [_ Hk]%lookup_delete_Some. eauto.
  - intros k k' v v' [_ Hk]%lookup_delete_Some [_ Hk']%lookup_delete_Some. eauto.
Qed.

Lemma good_busy h s : good None s → good (Some h) (s.1, (set_proposal_of (delete h) s.2.1, s.2.2)).
Proof using HW. intros [Hok HWs]. split; [by apply busy_ok|]. by apply (HW s.2.1). Qed.

Lemma good_quiet busy s s1 : s1.2 = s.2 → good busy s → good busy s1.
Proof. unfold good. by intros ->. Qed.

(** The state after a call that was dispatched. *)
Lemma dispatched_ok busy call o s r s' :
  good busy s → dispatch call (FromCollective o) s = (r, s') → r ≠ Panic ∧ good busy s' ∧ follows s.2.1 s'.2.1.
Proof using Type*.
  intros Hg Hrun. pose proof (Hd busy call o s Hg) as Hc. rewrite Hrun in Hc. destruct Hg as [Hok _].
  assert (r ≠ Panic ∧ member_changes compare s.2.1 s'.2.1 ∧ W s'.2.1 s'.2.2) as (?&Hm&?) by (by destruct r).
  split_and!; [done|split; [|done]|]; [by apply (member_changes_ok compare Hord hash_of busy _ _ Hm)|by eapply member_changes_follow].
Qed.

Lemma finished_ok approved seats v h s s' :
  good None s → finished approved seats v h s s' → good None s' ∧ follows s.2.1 s'.2.1 ∧ h ∉ motion_hashes s'.2.1.
Proof using Type*.
  intros Hg Hf. assert (∀ m, h ∉ motion_hashes (closed h m)) as Hno by (intros m; cbn; rewrite list_elem_of_filter; tauto).
  assert (∀ m, follows m (closed h m)) as Hcl by (intros m; apply follows_same; [done|]; intros k v'; cbn; by intros [_ ?]%lookup_delete_Some).
  assert (∀ m, follows m (set_proposal_of (delete h) m)) as Hde by (intros m; by apply follows_same).
  destruct s as [c [m x]]. unfold good at 1. destruct approved; [destruct Hf as (p&c1&r&s1&_&_&Hrun&_&->)|destruct Hf as [_ ->]].
  - destruct (dispatched_ok (Some h) _ _ _ _ _ (good_busy h (c1, (m, x)) Hg) Hrun) as (_&[Hok1 HW1]&Hf1).
    cbn [fst snd] in *. split_and!; [by apply closed_ok|by apply (HW s1.2.1)|rewrite <- Hcl, <- Hf1; apply Hde|apply Hno].
  - destruct (good_busy h (c, (m, x)) Hg) as [Hok1 HW1]. cbn [fst snd] in *. split_and!; [by apply closed_ok|by apply (HW (set_proposal_of (delete h) m))|rewrite <- Hcl; apply Hde|apply Hno].
Qed.

Lemma is_ok_run {F} busy call o s :
  good busy s → ∃ r b s', dispatch call (FromCollective o) s = (r, s') ∧ is_ok (F := F) (dispatch call (FromCollective o)) s = (Ok b, s').
Proof using Hd.
  intros Hg. specialize (Hd busy call o s Hg). unfold is_ok.
  destruct (dispatch call (FromCollective o) s) as [[[]|e|] s']; [by exists (Ok tt), true, s'|by exists (Err e), false, s'|done].
Qed.

Lemma finalize_run {E} approved seats v h s :
  good None s → h ∈ motion_hashes s.2.1 →
  ∃ s', finalize_proposal dispatch (E := E) approved seats v h s = (Ok tt, s') ∧ finished approved seats v h s s'.
Proof using Hd HW.
  intros Hg Hh. destruct s as [c [m x]]. cbn [fst snd] in *. unfold finalize_proposal. destruct approved.
  - assert (is_Some (proposal_of m !! h)) as [p Hp] by (by apply (hashes_proposals _ _ _ (proj1 Hg))).
    destruct (event_quiet (E := E) (MotionApproved h) c (m, x)) as (c1&He&Hq1).
    destruct (is_ok_run (F := E) (Some h) p (Members (threshold v) seats) (c1, (set_proposal_of (delete h) m, x))) as (r&b&s1&Hrun&Hisok).
    { exact (good_busy h (c1, (m, x)) Hg). }
    destruct s1 as [c2 [m2 x2]]. destruct (event_quiet (E := E) (Executed h b) c2 (m2, x2)) as (c3&He3&Hq3).
    exists (c3, (closed h m2, x2)). split.
    + eapply prun.
      { rewrite (pbind_Ok _ _ _ _ _ He). erewrite pbind_Ok by reflexivity. cbn [fst snd]. rewrite Hp.
        erewrite pbind_Ok by reflexivity. rewrite (pbind_Ok _ _ _ _ _ Hisok). exact He3. }
      done.
    + by exists p, c1, r, (c2, (m2, x2)).
  - destruct (event_quiet (E := E) (MotionDisapproved h) c (set_proposal_of (delete h) m, x)) as (c1&He&Hq1).
    exists (c1, (closed h (set_proposal_of (delete h) m), x)). split; [|done].
    eapply prun.
    { erewrite pbind_Ok by reflexivity. exact He. }
    done.
Qed.

(** *** Votes *)

Lemma withdraw_vote_ok who l :
  NoDup l → NoDup (withdraw_vote who l) ∧ (∀ a, a ∈ withdraw_vote who l ↔ a ∈ l ∧ a ≠ who) ∧ (length (withdraw_vote who l) ≤ length l)%nat.
Proof.
  intros Hnd. unfold withdraw_vote. destruct (position _ l) as [i|] eqn:Hp.
  - apply position_Some in Hp as [(a&Ha&Hw) _]. apply bool_decide_eq_true in Hw as ->.
    destruct (swap_remove_is_Some i l (lookup_lt_Some _ _ _ Ha)) as [[y l'] Hs]. rewrite Hs.
    pose proof (swap_remove_lookup _ _ _ _ Hs) as Hy. assert (y = who) as -> by congruence.
    pose proof (swap_remove_perm _ _ _ _ Hs) as Hperm. rewrite Hperm in Hnd. apply NoDup_cons in Hnd as [Hno Hnd].
    split_and!; [done| |rewrite Hperm; cbn; lia]. intros a. rewrite Hperm, elem_of_cons. split; [|tauto].
    intros Hin. split; [by right|]. by intros ->.
  - split_and!; [done| |done]. intros a. split; [|tauto]. intros Hin. split; [done|]. intros ->.
    rewrite position_None in Hp. specialize (Hp who Hin). by apply bool_decide_eq_false in Hp.
Qed.

Lemma position_None_elem who l : bool_decide (position (λ a, bool_decide (a = who)) l = None) = bool_decide (who ∉ l).
Proof.
  apply bool_decide_ext. rewrite position_None. split.
  - intros Hp Hi. specialize (Hp who Hi). by apply bool_decide_eq_false in Hp.
  - intros Hno a Hi. apply bool_decide_eq_false. by intros ->.
Qed.

(** The vote of an account, which replaces an opposite one. *)
Definition voted who (approve : bool) v v' : Prop :=
  vote_index v' = vote_index v ∧ threshold v' = threshold v ∧ vote_end v' = vote_end v ∧ NoDup (ayes v' ++ nays v') ∧
  (∀ a, a ∈ ayes v' ↔ if approve then a = who ∨ a ∈ ayes v else a ∈ ayes v ∧ a ≠ who) ∧
  (∀ a, a ∈ nays v' ↔ if approve then a ∈ nays v ∧ a ≠ who else a = who ∨ a ∈ nays v).

Definition cast who (approve : bool) v : Votes :=
  if approve then MkVotes (vote_index v) (threshold v) (ayes v ++ [who]) (withdraw_vote who (nays v)) (vote_end v)
  else MkVotes (vote_index v) (threshold v) (withdraw_vote who (ayes v)) (nays v ++ [who]) (vote_end v).

Lemma cast_ok who (approve : bool) v :
  NoDup (ayes v ++ nays v) → (if approve then who ∉ ayes v else who ∉ nays v) → voted who approve v (cast who approve v).
Proof.
  intros (Ha&Hdis&Hn)%NoDup_app Hnew. destruct (withdraw_vote_ok who (ayes v) Ha) as (Ha'&Hina&_), (withdraw_vote_ok who (nays v) Hn) as (Hn'&Hinn&_).
  destruct approve; unfold voted, cast; cbn [ayes nays vote_index threshold vote_end]; (split_and!; [done..| | |]); rewrite ?NoDup_app.
  - setoid_rewrite elem_of_app. setoid_rewrite list_elem_of_singleton. setoid_rewrite Hinn. split_and!; [done| |apply NoDup_singleton| |done].
    + by intros a Hin ->.
    + intros a [Hin| ->] [Hna ?]; [by apply (Hdis a)|done].
  - intros a. rewrite elem_of_app, list_elem_of_singleton. tauto.
  - exact Hinn.
  - setoid_rewrite elem_of_app. setoid_rewrite list_elem_of_singleton. setoid_rewrite Hina. split_and!; [done| |done| |apply NoDup_singleton].
    + intros a [Hin ?] [Hna|?]; [by apply (Hdis a)|done].
    + by intros a Hin ->.
  - exact Hina.
  - intros a. rewrite elem_of_app, list_elem_of_singleton. tauto.
Qed.

Lemma subset_length (l k : list AccountId) : NoDup l → (∀ a, a ∈ l → a ∈ k) → (length l ≤ length k)%nat.
Proof. intros Hnd Hsub. apply submseteq_length, NoDup_submseteq; done. Qed.

Lemma wrap_len (l : list AccountId) : count l < 2 ^ 32 → wrap 32 (count l) = count l.
Proof. intros Hl. apply wrap_small. unfold fits. lia. Qed.

(** The state of an open motion in numbers. *)
Lemma vote_counts m v : count (members m) < 2 ^ 32 → NoDup (ayes v ++ nays v) → (∀ a, a ∈ ayes v ++ nays v → a ∈ members m) →
  count (ayes v) + count (nays v) ≤ count (members m) ∧ wrap 32 (count (ayes v)) = count (ayes v) ∧ wrap 32 (count (nays v)) = count (nays v).
Proof.
  intros Hm Hnd Hin. pose proof (subset_length _ _ Hnd Hin) as Hl. rewrite length_app in Hl. rewrite !wrap_len; lia.
Qed.

(** The same vote was cast before. *)
Definition repeats who (approve : bool) v : bool := bool_decide (who ∈ if approve then ayes v else nays v).

(** Voting, by its branches. *)
Definition vote_result who h (index : Z) (approve : bool) s (r : result (DispatchError CollectiveError) unit * (State * (Motions * X))) : Prop :=
  let m := s.2.1 in
  let seats := count (members m) in
  if decide (who ∈ members m) then
    match voting m !! h with
    | None => r = (Err (DispatchModule ProposalMissing), s)
    | Some v =>
        if decide (vote_index v ≠ index) then r = (Err (DispatchModule WrongIndex), s)
        else if repeats who approve v then r = (Err (DispatchModule DuplicateVote), s)
        else ∃ v' s1 s', voted who approve v v' ∧ r = (Ok tt, s') ∧ quiet s.1 s1.1 ∧ s1.2 = s.2 ∧
          if threshold v <=? count (ayes v') then finished true seats v' h s1 s'
          else if seats - count (nays v') <? threshold v then finished false seats v' h s1 s'
          else s' = (s1.1, (set_voting <[h := v']> m, s.2.2))
    end
  else r = (Err (DispatchModule NotMember), s).

Lemma vote_run who h index approve s :
  good None s → count (members s.2.1) < 2 ^ 32 → vote_result who h index approve s (vote dispatch (FromSystem (Signed who)) h index approve s).
Proof using Hd HW.
  intros Hg Hfit. pose proof (proj1 Hg) as Hok. destruct s as [c [m x]]. unfold vote_result. cbn [fst snd] in *. unfold vote, ensure_signed. cbn [as_system signed].
  erewrite pbind_Ok by reflexivity. unfold motions. erewrite pbind_Ok by reflexivity. cbn [fst snd]. unfold is_member.
  case_decide as Hmem; [rewrite bool_decide_true by done|by rewrite bool_decide_false by done].
  erewrite pbind_Ok by reflexivity. erewrite pbind_Ok by reflexivity. cbn [fst snd].
  destruct (voting m !! h) as [v|] eqn:Hv; [|done]. erewrite pbind_Ok by reflexivity.
  case_decide as Hidx; [apply Z.eqb_neq in Hidx; by rewrite Hidx|]. rewrite (proj2 (Z.eqb_eq _ _) Hidx).
  erewrite pbind_Ok by reflexivity. destruct (votes_fine _ _ _ Hok _ _ Hv) as (Hnd&Hin&_&_&_).
  assert (((if approve then
      require (bool_decide (position (λ a, bool_decide (a = who)) (ayes v) = None)) (DispatchModule DuplicateVote) ;;
      mret (MkVotes (vote_index v) (threshold v) (ayes v ++ [who]) (withdraw_vote who (nays v)) (vote_end v))
    else
      require (bool_decide (position (λ a, bool_decide (a = who)) (nays v) = None)) (DispatchModule DuplicateVote) ;;
      mret (MkVotes (vote_index v) (threshold v) (withdraw_vote who (ayes v)) (nays v ++ [who]) (vote_end v))) : K (DispatchError CollectiveError) Votes) (c, (m, x)) =
    if repeats who approve v then (Err (DispatchModule DuplicateVote), (c, (m, x))) else (Ok (cast who approve v), (c, (m, x)))) as Hcast.
  { unfold repeats. destruct approve; rewrite position_None_elem, bool_decide_not; by case_bool_decide. }
  destruct (repeats who approve v) eqn:Hdup; [by rewrite (pbind_Err _ _ _ _ _ Hcast)|]. apply bool_decide_eq_false in Hdup. rewrite (pbind_Ok _ _ _ _ _ Hcast). clear Hcast.
  pose proof (cast_ok who approve v Hnd ltac:(by destruct approve)) as Hvoted. set (v' := cast who approve v) in *. clearbody v'.
  destruct (event_quiet (E := DispatchError CollectiveError) (Voted who h approve (wrap 32 (count (ayes v'))) (wrap 32 (count (nays v')))) c (m, x)) as (c1&He&Hq).
  rewrite (pbind_Ok _ _ _ _ _ He). erewrite pbind_Ok by reflexivity. cbn [fst snd].
  assert (∀ a, a ∈ ayes v' ++ nays v' → a ∈ members m) as Hin'.
  { destruct Hvoted as (_&_&_&_&Ha&Hn). intros a. rewrite elem_of_app, Ha, Hn. specialize (Hin a). rewrite elem_of_app in Hin. destruct approve; naive_solver. }
  destruct Hvoted as (Hi&Ht&Hen&Hnd'&Hrest). destruct (vote_counts m v' Hfit Hnd' Hin') as (Hle&->&->).
  rewrite (wrap_len (members m)) by done. rewrite Ht. unfold saturating_sub. rewrite Z.max_r by lia.
  assert (h ∈ motion_hashes m) as Hh by (apply (hashes_voting _ _ _ Hok); by rewrite Hv).
  exists v', (c1, (m, x)). destruct (threshold v <=? count (ayes v')); cbn [orb].
  { destruct (finalize_run (E := DispatchError CollectiveError) true (count (members m)) v' h (c1, (m, x)) Hg Hh) as (s'&Hrun&Hfin). exists s'. by rewrite Hrun. }
  destruct (_ <? threshold v).
  { destruct (finalize_run (E := DispatchError CollectiveError) false (count (members m)) v' h (c1, (m, x)) Hg Hh) as (s'&Hrun&Hfin). exists s'. by rewrite Hrun. }
  by eexists.
Qed.

(** *** Closing *)

(** The votes with the abstentions, which follow the prime member. *)
Definition final_yes m v : Z :=
  match prime m with
  | Some p => if decide (p ∈ ayes v) then count (members m) - count (nays v) else count (ayes v)
  | None => count (ayes v)
  end.

Definition close_result (now : Z) h (index : Z) s (r : result (DispatchError CollectiveError) unit * (State * (Motions * X))) : Prop :=
  let m := s.2.1 in
  match voting m !! h with
  | None => r = (Err (DispatchModule ProposalMissing), s)
  | Some v =>
      if decide (vote_index v ≠ index) then r = (Err (DispatchModule WrongIndex), s)
      else if decide (now < vote_end v) then r = (Err (DispatchModule TooEarly), s)
      else ∃ s1 s', r = (Ok tt, s') ∧ quiet s.1 s1.1 ∧ s1.2 = s.2 ∧
        finished (threshold v <=? final_yes m v) (count (members m)) v h s1 s'
  end.

Lemma close_run now who h index s :
  good None s → count (members s.2.1) < 2 ^ 32 → close_result now h index s (close dispatch now (FromSystem (Signed who)) h index s).
Proof using Hd HW.
  intros Hg Hfit. pose proof (proj1 Hg) as Hok. destruct s as [c [m x]]. unfold close_result. cbn [fst snd] in *. unfold close, ensure_signed. cbn [as_system signed].
  erewrite pbind_Ok by reflexivity. unfold motions. erewrite pbind_Ok by reflexivity. cbn [fst snd].
  destruct (voting m !! h) as [v|] eqn:Hv; [|done]. erewrite pbind_Ok by reflexivity.
  case_decide as Hidx; [apply Z.eqb_neq in Hidx; by rewrite Hidx|]. rewrite (proj2 (Z.eqb_eq _ _) Hidx).
  erewrite pbind_Ok by reflexivity.
  case_decide as Hend; [by rewrite (proj2 (Z.leb_gt _ _) Hend)|]. rewrite (proj2 (Z.leb_le (vote_end v) now)) by lia. erewrite pbind_Ok by reflexivity.
  erewrite pbind_Ok by reflexivity. cbn [fst snd]. erewrite pbind_Ok by reflexivity. cbn [fst snd].
  destruct (votes_fine _ _ _ Hok _ _ Hv) as (Hnd&Hin&_&_&_).
  destruct (vote_counts m v Hfit Hnd Hin) as (Hle&->&->).
  rewrite (wrap_len (members m)) by done.
  rewrite uadd_Ok by (unfold fits; lia). erewrite pbind_Ok by reflexivity.
  unfold checked_sub. rewrite (proj2 (Z.leb_le _ _)) by lia. erewrite pbind_Ok by reflexivity.
  assert (h ∈ motion_hashes m) as Hh by (apply (hashes_voting _ _ _ Hok); by rewrite Hv).
  set (default := match prime m with Some who => bool_decide (who ∈ ayes v) | None => false end).
  assert (∃ no, ((if default then
      yes ← runs (uadd 32 (count (ayes v)) (count (members m) - (count (ayes v) + count (nays v)))); mret (yes, count (nays v))
    else no ← runs (uadd 32 (count (nays v)) (count (members m) - (count (ayes v) + count (nays v)))); mret (count (ayes v), no)) : K (DispatchError CollectiveError) (Z * Z)) (c, (m, x)) =
    (Ok (final_yes m v, no), (c, (m, x)))) as [no Hrun].
  { unfold default, final_yes. destruct (prime m) as [p|]; [case_decide; [rewrite bool_decide_true by done|rewrite bool_decide_false by done]|];
      rewrite uadd_Ok by lia; [|by eexists..].
    replace (count (ayes v) + (count (members m) - (count (ayes v) + count (nays v)))) with (count (members m) - count (nays v)) by lia. by eexists. }
  rewrite (pbind_Ok _ _ _ _ _ Hrun).
  destruct (event_quiet (E := DispatchError CollectiveError) (MotionClosed h (final_yes m v) no) c (m, x)) as (c1&He&Hq).
  rewrite (pbind_Ok _ _ _ _ _ He).
  destruct (finalize_run (E := DispatchError CollectiveError) (threshold v <=? final_yes m v) (count (members m)) v h (c1, (m, x)) Hg Hh) as (s'&Hfin&Hs').
  exists (c1, (m, x)), s'. by rewrite Hfin.
Qed.

(** *** Proposing and executing *)

(** A new motion, which its proposer approves. *)
Definition opened who (now the_threshold : Z) (proposal : Call) m : Motions :=
  let h := hash_of proposal in
  MkMotions (motion_hashes m ++ [h]) (<[h := proposal]> (proposal_of m))
    (<[h := MkVotes (motion_count m) the_threshold [who] [] (now + MotionDuration)]> (voting m)) (motion_count m + 1) (members m) (prime m).

Lemma opened_ok who now the_threshold proposal m :
  coll_ok None m → who ∈ members m → proposal_of m !! hash_of proposal = None → 2 ≤ the_threshold → motion_count m + 1 < 2 ^ 32 →
  coll_ok None (opened who now the_threshold proposal m).
Proof.
  intros [Hnd Hv Hp Hh Hvotes Hidx Hc] Hwho Hnew Ht Hcount. set (h := hash_of proposal) in *.
  assert (h ∉ motion_hashes m) as Hno.
  { intros Hin. assert (is_Some (proposal_of m !! h)) as [p Hsome] by (by apply Hp). congruence. }
  assert (∀ k v, voting m !! k = Some v → k ≠ h) as Hvh.
  { intros k v Hk ->. apply Hno, Hv. by rewrite Hk. }
  split; unfold opened; fold h; cbn [motion_hashes proposal_of voting members motion_count]; [| | | | | |lia].
  - apply NoDup_app. split_and!; [done| |apply NoDup_singleton]. intros k Hk ->%list_elem_of_singleton. done.
  - intros k. rewrite elem_of_app, list_elem_of_singleton, lookup_insert_is_Some, Hv. destruct (decide (h = k)) as [<-|Hne]; [split; auto|].
    split; [intros [?| ->]; [by right|done]|intros [?|[_ ?]]; [done|by left]].
  - intros k. rewrite elem_of_app, list_elem_of_singleton, lookup_insert_is_Some, Hp. destruct (decide (h = k)) as [<-|Hne]; [split; [intros _; split; [by right|done]|by left]|].
    split; [intros [?|[_ [??]]]; [done|by split; [left|]]|intros [[?| ->] ?]; [by right|done]].
  - intros k p [[<- <-]|[_ Hk]]%lookup_insert_Some; [done|by apply Hh].
  - intros k v [[<- <-]|[_ Hk]]%lookup_insert_Some; unfold vote_ok; cbn [ayes nays threshold vote_index members motion_count].
    + cbn. split_and!; [apply NoDup_singleton| |done|lia|lia|lia]. by intros a ->%list_elem_of_singleton.
    + destruct (Hvotes k v Hk) as (?&?&?&?&?). split_and!; [done..|lia|lia].
  - intros k k' v v' [[<- <-]|[_ Hk]]%lookup_insert_Some [[<- <-]|[_ Hk']]%lookup_insert_Some; cbn [vote_index]; [done| | |by apply Hidx];
      [destruct (Hvotes _ _ Hk') as (_&_&_&_&?)|destruct (Hvotes _ _ Hk) as (_&_&_&_&?)]; lia.
Qed.

(** Open motions stay as they are or are decided, and the rest is kept. *)
Definition kept s (_ : unit) s' : Prop := good None s' ∧ follows s.2.1 s'.2.1.

Lemma dispatch_settles call o e s :
  good None s →
  settles (kept s) s ((ok ← is_ok (F := DispatchError CollectiveError) (dispatch call (FromCollective o)); event (e ok)) s).
Proof using Type*.
  intros Hg. destruct (is_ok_run (F := DispatchError CollectiveError) None call o s Hg) as (r&b&s1&Hrun&Hisok).
  destruct (dispatched_ok None call o s r s1 Hg Hrun) as (_&Hg1&Hf1). eapply settles_Ok; [exact Hisok|]. apply settles_event. by intros c' _ _ _.
Qed.

Lemma motion_propose_settles now origin the_threshold proposal s :
  good None s → motion_count s.2.1 + 1 < 2 ^ 32 → now + MotionDuration < 2 ^ 32 →
  settles (kept s) s (propose hash_of MotionDuration dispatch now origin the_threshold proposal s).
Proof using Type*.
  intros Hg Hcount Hend. unfold propose, ensure_signed. destruct (as_system origin) as [o|]; [|done].
  apply settles_signed. intros who _. unfold motions. apply settles_reads, settles_require. intros Hmem%bool_decide_eq_true.
  apply settles_reads, settles_require. intros Hnew%negb_true_iff%bool_decide_eq_false. destruct (the_threshold <? 2) eqn:Ht.
  { apply settles_reads. by apply (dispatch_settles proposal _ (Executed (hash_of proposal))). }
  apply Z.ltb_ge in Ht. destruct s as [c [m x]]. cbn [fst snd] in *. apply settles_reads. eapply settles_runs; [by apply uadd_Ok|].
  do 3 apply settles_writes. eapply settles_runs; [by apply uadd_Ok|]. apply settles_writes. apply settles_event. intros c' _ _ _.
  destruct Hg as [Hok HWs]. split; [split|].
  - apply (opened_ok who now the_threshold proposal m); [done|done| |done|done]. by apply eq_None_not_Some.
  - by apply (HW m).
  - split; [cbn; lia|]. intros h v'. cbn. intros [[_ <-]|[_ Hv]]%lookup_insert_Some; [left; done|]. right. by exists v'.
Qed.

Lemma execute_settles origin proposal s : good None s → settles (kept s) s (execute hash_of dispatch origin proposal s).
Proof using Type*.
  intros Hg. unfold execute, ensure_signed. destruct (as_system origin) as [o|]; [|done].
  apply settles_signed. intros who _. unfold motions. apply settles_reads, settles_require. intros _.
  by apply (dispatch_settles proposal _ (MemberExecuted (hash_of proposal))).
Qed.

Lemma set_members_settles origin new p s :
  good None s → (∀ m, members m = sort_ord compare new → prime m = p → W m s.2.2) →
  settles (kept s) s (collective_set_members (X := X) compare origin new p s).
Proof using Type*.
  intros [Hok _] HWn. unfold collective_set_members, ensure_root. destruct (as_system origin) as [[]|]; [|done..].
  erewrite pbind_Ok by reflexivity. unfold motions. apply settles_reads. destruct s as [c [m x]]. cbn [fst snd] in *.
  apply settles_writes. cbn [fst snd]. destruct (replaced_ok compare Hord hash_of m new Hok) as (Hok'&Hm'&Hf').
  set (m1 := set_members_sorted (ChangeMembers0 := collective_members compare) compare (sort_ord compare new) (members m) m) in *.
  change (kept (c, (m, x)) tt (c, (put_members_prime (members m1) p m1, x))). split; [split|]; cbn [fst snd].
  - by apply (set_prime_ok compare).
  - by apply HWn.
  - etrans; [exact Hf'|]. by apply follows_same.
Qed.

Lemma revoted_ok m h v v' :
  coll_ok None m → voting m !! h = Some v → vote_ok m v' → vote_index v' = vote_index v → coll_ok None (set_voting <[h := v']> m).
Proof.
  intros [Hnd Hv Hp Hh Hvotes Hidx Hc] Hhv Hok Hi. split; cbn; try done.
  - intros k. rewrite Hv, lookup_insert_is_Some. destruct (decide (h = k)) as [<-|Hne]; [rewrite Hhv; split; auto|].
    split; [by right|]. by intros [?|[_ ?]].
  - intros k u [[<- <-]|[_ Hk]]%lookup_insert_Some; [done|by apply (Hvotes k)].
  - intros k k' u u' [[<- <-]|[_ Hk]]%lookup_insert_Some [[<- <-]|[_ Hk']]%lookup_insert_Some; [done|rewrite Hi; by apply Hidx|rewrite Hi; by intros ?; apply (Hidx k h u v)|by apply Hidx].
Qed.

Lemma vote_settles origin h index approve s :
  good None s → count (members s.2.1) < 2 ^ 32 → settles (kept s) s (vote dispatch origin h index approve s).
Proof using Type*.
  intros Hg Hfit. destruct origin as [[| |]|]; [done| |done..]. pose proof (vote_run who h index approve s Hg Hfit) as Hr. revert Hr.
  generalize (vote dispatch (FromSystem (Signed who)) h index approve s). intros r. unfold vote_result. case_decide as Hmem; [|by intros ->].
  destruct (voting s.2.1 !! h) as [v|] eqn:Hv; [|by intros ->]. case_decide; [by intros ->|]. destruct (repeats who approve v); [by intros ->|].
  intros (v'&s1&s'&Hvoted&->&Hq&Heq&Hbr). pose proof (good_quiet None s s1 Heq Hg) as Hg1. cbn [settles]. unfold kept. rewrite <- Heq in *.
  destruct (threshold v <=? _) eqn:Ht; [by destruct (finished_ok _ _ _ _ _ _ Hg1 Hbr) as (?&?&_)|].
  destruct (_ <? threshold v); [by destruct (finished_ok _ _ _ _ _ _ Hg1 Hbr) as (?&?&_)|]. subst s'. destruct s1 as [c1 [m x]]. cbn [fst snd] in *.
  destruct Hvoted as (Hi&Hth&Hen&Hnd&Ha&Hn). destruct Hg1 as [Hok HWs]. cbn [fst snd] in Hok, HWs. split; [split|]; cbn [fst snd].
  - apply (revoted_ok m h v v'); [done|done| |done]. destruct (votes_fine _ _ _ Hok h v Hv) as (_&Hin&?&?&?). apply Z.leb_gt in Ht.
    split_and!; [done| |lia|lia|lia|lia]. intros a. rewrite elem_of_app, Ha, Hn. specialize (Hin a). rewrite elem_of_app in Hin. destruct approve; naive_solver.
  - by apply (HW m).
  - split; [done|]. intros k u. cbn. intros [[<- <-]|[_ Hk]]%lookup_insert_Some; right; [by exists v|by exists u].
Qed.

Lemma motion_close_settles now origin h index s :
  good None s → count (members s.2.1) < 2 ^ 32 → settles (kept s) s (close dispatch now origin h index s).
Proof using Type*.
  intros Hg Hfit. destruct origin as [[| |]|]; [done| |done..]. pose proof (close_run now who h index s Hg Hfit) as Hr. revert Hr.
  generalize (close dispatch now (FromSystem (Signed who)) h index s). intros r. unfold close_result.
  destruct (voting s.2.1 !! h) as [v|] eqn:Hv; [|by intros ->]. case_decide; [by intros ->|]. case_decide; [by intros ->|].
  intros (s1&s'&->&Hq&Heq&Hfin). pose proof (good_quiet None s s1 Heq Hg) as Hg1. destruct (finished_ok _ _ _ _ _ _ Hg1 Hfin) as (?&Hf&_).
  split; [done|]. by rewrite <- Heq.
Qed.

End calls_facts.
