(* ===== verification/MembershipFacts.v ===== *)
(** * Members and observers agree *)
From S2P Require Import Prelude PerThings Balances BalancesFacts Pallet Membership Collective CollectiveFacts.

Local Open Scope Z_scope.

Section membership_facts.
Context {AccountId : Type} `{Countable AccountId} {R : Type} `{!ChangeMembers AccountId R}.
Context (compare : AccountId → AccountId → comparison) (Hord : total_order compare).
Context {O : Type} (as_system : O → option (Origin (AccountId := AccountId))).
Context (add_origin remove_origin swap_origin reset_origin prime_origin : O → run bool).
Context (inv : R → Prop) (kept : R → list AccountId) (kept_prime : R → option AccountId) `{!KeepsMembers inv kept kept_prime}.

Local Abbreviation World := (State (AccountId := AccountId) * (R * Membership AccountId))%type.
Local Abbreviation K := (P (AccountId := AccountId) (S := R * Membership AccountId)).
Local Abbreviation Dispatch := (DispatchError MembershipError).
Implicit Types (s : World) (l : list AccountId) (who : AccountId).

(** The observer has the members of the module, which are sorted; the prime is a
    member, and the observer has the same one or none. *)
Definition synced (r : R) (mem : Membership AccountId) : Prop :=
  inv r ∧ kept r = current mem ∧ ascending compare (current mem) ∧
  (kept_prime r = None ∨ kept_prime r = current_prime mem) ∧ ∀ p, current_prime mem = Some p → p ∈ current mem.

Inductive MemberOp : Type :=
  | OpAdd (who : AccountId) | OpRemove (who : AccountId) | OpSwap (remove add : AccountId) | OpReset (l : list AccountId)
  | OpChangeKey (new : AccountId) | OpSetPrime (who : AccountId) | OpClearPrime.

Definition member_exec (op : MemberOp) (origin : O) : K Dispatch unit :=
  match op with
  | OpAdd who => add_member compare as_system add_origin origin who
  | OpRemove who => remove_member compare as_system remove_origin origin who
  | OpSwap remove add => swap_member compare as_system swap_origin origin remove add
  | OpReset l => reset_members compare as_system reset_origin origin l
  | OpChangeKey new => change_key compare as_system origin new
  | OpSetPrime who => call_set_prime compare as_system prime_origin origin who
  | OpClearPrime => clear_prime as_system prime_origin origin
  end.

(** How the members change, as a multiset. *)
Definition member_spec (op : MemberOp) (origin : O) (l l' : list AccountId) : Prop :=
  match op with
  | OpAdd who => (who ∉ l) ∧ l' ≡ₚ who :: l
  | OpRemove who => l ≡ₚ who :: l'
  | OpSwap remove add => (remove = add ∧ l' = l) ∨ ((add ∉ l) ∧ remove :: l' ≡ₚ add :: l)
  | OpReset new => l' ≡ₚ new
  | OpChangeKey new => ∃ old, as_system origin = Some (Signed old) ∧ ((old = new ∧ l' = l) ∨ ((new ∉ l) ∧ old :: l' ≡ₚ new :: l))
  | OpSetPrime _ | OpClearPrime => l' = l
  end.

Definition origin_ok (op : MemberOp) (origin : O) : Prop :=
  match op with
  | OpAdd _ => add_origin origin ≠ Panic
  | OpRemove _ => remove_origin origin ≠ Panic
  | OpSwap _ _ => swap_origin origin ≠ Panic
  | OpReset _ => reset_origin origin ≠ Panic
  | OpChangeKey _ => True
  | OpSetPrime _ | OpClearPrime => prime_origin origin ≠ Panic
  end.

(** ** Steps *)

Lemma settles_try_origin {C} (Q : C → World → Prop) s f o (k : unit → K Dispatch C) :
  f o ≠ Panic → settles Q s (k tt s) → settles Q s ((try_origin as_system f o ≫= k) s).
Proof.
  intros Hf Hk. unfold try_origin. destruct (f o) as [[]|[]|]; [exact Hk| |done]. cbn. unfold ensure_root. by destruct (as_system o) as [[]|].
Qed.

Lemma settles_search_free {C} (Q : C → World → Prop) s who l (k : nat → K Dispatch C) :
  ascending compare l → (∀ i, who ∉ l → ascending compare (vec_insert i who l) → settles Q s (k i s)) →
  settles Q s ((search_free compare who l ≫= k) s).
Proof using Hord.
  intros Hl Hk. unfold search_free. pose proof (binary_search_elem Hord l who Hl) as Hb. destruct (binary_search_by _ l) as [i|i]; [done|].
  destruct Hb as (?&?&_). by apply Hk.
Qed.

Lemma settles_search_member {C} (Q : C → World → Prop) s who l (k : nat → K Dispatch C) :
  ascending compare l → (∀ i, l !! i = Some who → settles Q s (k i s)) → settles Q s ((search_member compare who l ≫= k) s).
Proof using Hord.
  intros Hl Hk. unfold search_member. pose proof (binary_search_elem Hord l who Hl) as Hb. destruct (binary_search_by _ l) as [i|i]; [by apply Hk|done].
Qed.

(** After the prime was looked for among the members. *)
Lemma rejig_run l s :
  ascending compare l → inv s.2.1 → kept_prime s.2.1 = None →
  ∃ r mem, rejig_prime compare l s = (Ok tt, (s.1, (r, mem))) ∧ inv r ∧ kept r = kept s.2.1 ∧ current mem = current s.2.2 ∧
    kept_prime r = current_prime mem ∧ ∀ p, current_prime mem = Some p → p ∈ l.
Proof using Hord KeepsMembers0.
  intros Hl Hinv Hnone. destruct s as [c [r mem]]. cbn [fst snd] in *. unfold rejig_prime. erewrite pbind_Ok by reflexivity. cbn [fst snd].
  destruct (current_prime mem) as [p|] eqn:Hp.
  - pose proof (binary_search_elem Hord l p Hl) as Hb. destruct (binary_search_by _ l) as [i|i].
    + destruct (prime_kept r (Some p) Hinv) as (?&?&?). exists (set_prime (Some p) r), mem. split_and!; [done..|congruence|].
      intros q Hq. rewrite Hp in Hq. injection Hq as <-. by eapply list_elem_of_lookup_2.
    + by exists r, (MkMembership (current mem) None).
  - exists r, mem. split_and!; [done..|congruence|congruence].
Qed.

(** An element of a sorted vector is replaced and the vector is sorted again. *)
Lemma replaced_perm l i old new : l !! i = Some old → old :: sort_ord compare (<[i := new]> l) ≡ₚ new :: l.
Proof.
  intros Hi. unfold sort_ord. rewrite sort_by_perm. rewrite <- (take_drop_middle l i old Hi) at 2.
  rewrite insert_take_drop by (by eapply lookup_lt_Some). solve_Permutation.
Qed.

Lemma delete_perm l i who : l !! i = Some who → l ≡ₚ who :: delete i l.
Proof. intros Hi. rewrite <- (take_drop_middle l i who Hi) at 1. rewrite delete_take_drop. solve_Permutation. Qed.

Lemma ascending_delete l i : ascending compare l → ascending compare (delete i l).
Proof.
  intros Hl. rewrite delete_take_drop. apply strongly_sorted_app.
  - by apply strongly_sorted_take_drop.
  - by apply (strongly_sorted_take_drop _ l (S i)).
  - intros x y (a&Ha)%list_elem_of_lookup (b&Hb)%list_elem_of_lookup. apply lookup_take_Some in Ha as [Ha ?]. rewrite lookup_drop in Hb.
    exact (strongly_sorted_lookup _ l a (S i + b) x y Hl Ha Hb ltac:(lia)).
Qed.

(** A new list is written, the observer is told, and the prime is looked for. *)
Lemma settles_replace (Q : unit → World → Prop) s0 s l incoming outgoing e :
  synced s.2.1 s.2.2 → ascending compare l → (∀ a, a ∈ current s.2.2 → a ∉ l → a ∈ outgoing) →
  (∀ c' r mem, synced r mem → current mem = l → Q tt (c', (r, mem))) →
  settles Q s0 ((put_members l ;; tell (change_members_sorted incoming outgoing l) ;; rejig_prime compare l ;; event e) s).
Proof using Hord KeepsMembers0.
  intros (Hinv&Hk&_&_&_) Hl Hout HQ. destruct s as [c [r mem]]. cbn [fst snd] in *. do 2 apply settles_writes. cbn [fst snd].
  destruct (change_kept r incoming outgoing l Hinv) as (Hinv'&Hk'&Hp'); [by rewrite Hk|].
  destruct (rejig_run l (c, (change_members_sorted incoming outgoing l r, MkMembership l (current_prime mem))) Hl Hinv' Hp') as (r2&mem2&Hrun&Hi2&Hk2&Hc2&Hp2&Hin2).
  cbn [fst snd current] in *. eapply settles_Ok; [exact Hrun|]. apply settles_event. intros c' _ _ _. apply HQ; [|done].
  split_and!; [done|congruence|by rewrite Hc2|by right|by rewrite Hc2].
Qed.

(** ** The calls *)

Local Abbreviation settled op origin s := (settles (λ _ s', synced s'.2.1 s'.2.2 ∧ member_spec op origin (current s.2.2) (current s'.2.2)) s).

Lemma add_settles origin who s :
  synced s.2.1 s.2.2 → add_origin origin ≠ Panic → settled (OpAdd who) origin s (member_exec (OpAdd who) origin s).
Proof using Hord KeepsMembers0.
  intros Hs Ho. apply settles_try_origin; [done|]. apply settles_reads. pose proof Hs as (Hinv&Hk&Hl&Hkp&Hp). apply settles_search_free; [done|].
  intros i Hno Hasc. do 2 apply settles_writes. destruct s as [c [r mem]]. cbn [fst snd] in *. set (l := vec_insert i who (current mem)) in *.
  assert (l ≡ₚ who :: current mem) as Hperm by apply vec_insert_perm.
  destruct (change_kept r [who] [] l Hinv) as (Hinv'&Hk'&Hp'). { intros a Ha Hno'. destruct Hno'. rewrite Hperm. right. by rewrite <- Hk. }
  apply settles_event. intros c' _ _ _. split; [|done]. split_and!; [done..|by left|]. cbn. intros p Hpp. rewrite Hperm. right. by apply Hp.
Qed.

Lemma remove_settles origin who s :
  synced s.2.1 s.2.2 → remove_origin origin ≠ Panic → settled (OpRemove who) origin s (member_exec (OpRemove who) origin s).
Proof using Hord KeepsMembers0.
  intros Hs Ho. apply settles_try_origin; [done|]. apply settles_reads. pose proof Hs as (Hinv&Hk&Hl&Hkp&Hp). apply settles_search_member; [done|].
  intros i Hi. pose proof (delete_perm _ _ _ Hi) as Hperm. apply settles_replace; [done|by apply ascending_delete| |].
  - intros a Ha Hno. rewrite Hperm in Ha. apply elem_of_cons in Ha as [->|Ha]; [by left|done].
  - intros c' r mem Hsync Hc. split; [done|]. cbn. by rewrite Hc.
Qed.

Lemma swap_settles origin remove add s :
  synced s.2.1 s.2.2 → swap_origin origin ≠ Panic → settled (OpSwap remove add) origin s (member_exec (OpSwap remove add) origin s).
Proof using Hord KeepsMembers0.
  intros Hs Ho. apply settles_try_origin; [done|]. case_decide as Hra; [by split; [|left]|].
  apply settles_reads. pose proof Hs as (Hinv&Hk&Hl&Hkp&Hp). apply settles_search_member; [done|]. intros i Hi.
  apply settles_search_free; [done|]. intros _ Hno _. pose proof (replaced_perm _ _ _ add Hi) as Hperm.
  apply settles_replace; [done|apply (sort_ord_ascending Hord)| |].
  - intros a Ha Hno'. assert (a ∈ remove :: sort_ord compare (<[i := add]> (current s.2.2))) as [->|?]%elem_of_cons; [rewrite Hperm; by right|by left|done].
  - intros c' r mem Hsync Hc. split; [done|]. right. cbn. by rewrite Hc.
Qed.

Lemma reset_settles origin l s :
  synced s.2.1 s.2.2 → reset_origin origin ≠ Panic → settled (OpReset l) origin s (member_exec (OpReset l) origin s).
Proof using Hord KeepsMembers0.
  intros Hs Ho. apply settles_try_origin; [done|]. apply settles_reads. pose proof Hs as (Hinv&Hk&Hl&Hkp&Hp).
  destruct s as [c [r mem]]. cbn [fst snd] in *. apply settles_writes. cbn [fst snd]. set (l' := sort_ord compare l).
  assert (∃ i o, set_members_sorted compare l' (current mem) r = change_members_sorted i o l' r ∧ ∀ a, a ∈ kept r → a ∉ l' → a ∈ o) as (i&o&->&Hout).
  { unfold set_members_sorted, compute_members_diff. pose proof (diff_complete compare Hord (current mem) l') as Hd.
    destruct (diff_loop compare (current mem) l') as [i o]. exists i, o. split; [done|]. rewrite Hk. apply Hd. }
  destruct (change_kept r i o l' Hinv Hout) as (Hinv'&Hk'&Hp').
  destruct (rejig_run l' (c, (change_members_sorted i o l' r, mem)) (sort_ord_ascending Hord l) Hinv' Hp') as (r2&mem2&Hrun&Hi2&Hk2&Hc2&Hp2&Hin2).
  cbn [fst snd] in *. eapply settles_Ok; [exact Hrun|]. apply settles_writes. apply settles_event. intros c' _ _ _. cbn [fst snd].
  split; [|cbn; unfold l', sort_ord; by rewrite sort_by_perm]. split_and!; cbn; [done|congruence|apply (sort_ord_ascending Hord)|by right|done].
Qed.

Lemma change_key_settles origin new s : synced s.2.1 s.2.2 → settled (OpChangeKey new) origin s (member_exec (OpChangeKey new) origin s).
Proof using Hord KeepsMembers0.
  intros Hs. cbn [member_exec]. unfold change_key, ensure_signed. destruct (as_system origin) as [o|] eqn:Ho; [|done].
  apply settles_signed. intros old ->. case_decide as Heq.
  { subst. erewrite pbind_Ok by reflexivity. apply settles_event. intros c' _ _ _. split; [done|]. exists new. auto. }
  pose proof Hs as (Hinv&Hk&Hl&Hkp&Hp).
  eapply settles_bind with (R := λ _ s', synced s'.2.1 s'.2.2 ∧ member_spec (OpChangeKey new) origin (current s.2.2) (current s'.2.2));
    [|intros [] s' Hs'; apply settles_event; by intros c' _ _ _].
  apply settles_reads, settles_search_member; [done|]. intros i Hi. apply settles_search_free; [done|]. intros _ Hno _.
  pose proof (replaced_perm _ _ _ new Hi) as Hperm. set (l := sort_ord compare (<[i := new]> (current s.2.2))) in *.
  assert (member_spec (OpChangeKey new) origin (current s.2.2) l) as Hspec by (exists old; auto).
  destruct s as [c [r mem]]. cbn [fst snd] in *. do 2 apply settles_writes. cbn [fst snd]. apply settles_reads. cbn [fst snd current_prime].
  assert (∀ a, a ∈ current mem → a ∉ l → a = old) as Hold.
  { intros a Ha Hno'. assert (a ∈ old :: l) as [->|?]%elem_of_cons; [rewrite Hperm; by right|done|done]. }
  destruct (change_kept r [new] [old] l Hinv) as (Hinv'&Hk'&Hp'). { intros a. rewrite Hk. intros Ha Hna. rewrite (Hold a Ha Hna). by left. }
  assert (new ∈ l) as Hnew. { assert (new ∈ old :: l) as [->|?]%elem_of_cons; [rewrite Hperm; by left|done|done]. }
  case_decide as Hpr.
  - apply settles_writes. cbn [fst snd]. destruct (prime_kept (change_members_sorted [new] [old] l r) (Some new) Hinv') as (?&?&?).
    split; [|done]. unfold synced. cbn [fst snd current current_prime]. split_and!; [done|congruence|apply (sort_ord_ascending Hord)|by right|]. by intros p [= <-].
  - split; [|done]. unfold synced. cbn [fst snd current current_prime]. split_and!; [done|done|apply (sort_ord_ascending Hord)|by left|]. intros p Hpp.
    destruct (decide (p ∈ l)) as [|Hnp]; [done|]. rewrite (Hold p (Hp p Hpp) Hnp) in Hpp. congruence.
Qed.

Lemma prime_settles origin op s :
  synced s.2.1 s.2.2 → prime_origin origin ≠ Panic → (op = OpClearPrime ∨ ∃ who, op = OpSetPrime who) → settled op origin s (member_exec op origin s).
Proof using Hord KeepsMembers0.
  intros (Hinv&Hk&Hl&Hkp&Hp) Ho Hop. destruct s as [c [r mem]]. cbn [fst snd] in *.
  destruct Hop as [->|[who ->]]; (apply settles_try_origin; [done|]).
  - apply settles_writes. cbn [fst snd]. destruct (prime_kept r None Hinv) as (?&?&?). split; [|done]. split_and!; cbn; [done|congruence|done|by left|done].
  - apply settles_reads, settles_search_member; [done|]. intros i Hi. apply settles_writes. cbn [fst snd].
    destruct (prime_kept r (Some who) Hinv) as (?&?&?). split; [|done]. split_and!; cbn; [done|congruence|done|by right|].
    intros p [= <-]. by eapply list_elem_of_lookup_2.
Qed.

Lemma member_exec_settles op origin s : synced s.2.1 s.2.2 → origin_ok op origin → settled op origin s (member_exec op origin s).
Proof using Hord KeepsMembers0.
  intros Hs Ho. destruct op.
  - by apply add_settles.
  - by apply remove_settles.
  - by apply swap_settles.
  - by apply reset_settles.
  - by apply change_key_settles.
  - apply prime_settles; eauto.
  - apply prime_settles; eauto.
Qed.

End membership_facts.
