(* ===== verification/CollectiveHistory.v ===== *)
(** * Histories of a collective *)
From S2P Require Import Prelude PerThings Balances BalancesFacts Pallet Membership Collective CollectiveFacts MembershipFacts.

Local Open Scope Z_scope.

(** ** A collective observes its members *)

Section observer.
Context {AccountId : Type} `{Countable AccountId} {Call : Type}.
Context (compare : AccountId → AccountId → comparison) (Hord : total_order compare) (hash_of : Call → list Z).
#[local] Instance collective_observer : ChangeMembers AccountId (Motions AccountId Call) := collective_members compare.

(** The invariant of motions, and that only the members have changed since [m0]. *)
Definition observed (busy : option (list Z)) (m0 m : Motions AccountId Call) : Prop := coll_ok hash_of busy m ∧ member_changes compare m0 m.

Lemma collective_keeps_members busy m0 : KeepsMembers (observed busy m0) members prime.
Proof using Type*.
  split.
  - intros m incoming outgoing new [Hok Hch] Hout. destruct (change_members_ok compare Hord hash_of busy m incoming outgoing new Hok Hout) as (?&?&?&_).
    split_and!; [|done|done]. split; [done|by constructor].
  - intros m p [Hok Hch]. split_and!; [|done|done]. split; [by apply (set_prime_ok compare)|by constructor].
Qed.

End observer.

(** ** A collective that decides about its own members

    The calls that are dispatched are those of the membership module. *)

Section committee.
Context {AccountId : Type} `{Countable AccountId}.
Context (compare : AccountId → AccountId → comparison) (Hord : total_order compare).
Context (add_origin remove_origin swap_origin reset_origin prime_origin : OuterOrigin AccountId → run bool).
Local Abbreviation Motions := (Motions AccountId (MemberOp (AccountId := AccountId))).
Local Abbreviation Motion_state := (State (AccountId := AccountId) * (Motions * Membership AccountId))%type.
#[local] Instance committee_observer : ChangeMembers AccountId Motions := collective_members compare.

Definition committee_dispatch (op : MemberOp) (origin : OuterOrigin AccountId) :
    P (AccountId := AccountId) (S := Motions * Membership AccountId) (DispatchError MembershipError) unit :=
  member_exec compare as_system add_origin remove_origin swap_origin reset_origin prime_origin op origin.

(** The members of the module and of the collective agree. *)
Definition agrees (m : Motions) (mem : Membership AccountId) : Prop := synced compare (λ _, True) members prime m mem.

Lemma committee_dispatch_ok hash_of :
  (∀ (op : MemberOp (AccountId := AccountId)) o, origin_ok add_origin remove_origin swap_origin reset_origin prime_origin op (FromCollective o)) →
  dispatch_ok compare hash_of committee_dispatch agrees.
Proof using Type*.
  intros Ho busy op o s [Hok (_&Hs)]. pose proof (collective_keeps_members compare Hord hash_of busy s.2.1) as Hkeeps.
  pose proof (member_exec_settles compare Hord as_system add_origin remove_origin swap_origin reset_origin prime_origin
    (observed compare hash_of busy s.2.1) members prime op (FromCollective o) s) as Hrun.
  unfold committee_dispatch. destruct (member_exec _ _ _ _ _ _ _ op (FromCollective o) s) as [[[]|e|] s'] eqn:He; cbn in Hrun.
  - destruct Hrun as [(Hobs&Hs') _]; [split; [by split; [|constructor]|done]|apply Ho|]. split; [by destruct Hobs|by split].
  - rewrite Hrun; [split; [constructor|by split]|split; [by split; [|constructor]|done]|apply Ho].
  - apply Hrun; [split; [by split; [|constructor]|done]|apply Ho].
Qed.

End committee.

(** ** Histories *)

Section history.
Context {AccountId : Type} `{Countable AccountId} {Call X D : Type}.
Context (compare : AccountId → AccountId → comparison) (Hord : total_order compare).
Context (hash_of : Call → list Z) (MotionDuration : Z).
Local Abbreviation Motions := (Motions AccountId Call).
Local Abbreviation World := (State (AccountId := AccountId) * (Motions * X))%type.
Local Abbreviation K := (P (AccountId := AccountId) (S := Motions * X)).
Local Abbreviation count l := (Z.of_nat (length l)).
Implicit Types (s : World) (h : list Z).
Context (dispatch : Call → OuterOrigin AccountId → K D unit).
Context (W : Motions → X → Prop) (HW : ∀ m m' x, members m' = members m → prime m' = prime m → W m x → W m' x).
Context (Hd : dispatch_ok compare hash_of dispatch W).
Local Abbreviation good := (good hash_of W).

Inductive CollOp : Type :=
  | CallSetMembers (origin : OuterOrigin AccountId) (new : list AccountId) (p : option AccountId)
  | CallExecute (origin : OuterOrigin AccountId) (proposal : Call)
  | CallPropose (origin : OuterOrigin AccountId) (the_threshold : Z) (proposal : Call)
  | CallVote (origin : OuterOrigin AccountId) (proposal : list Z) (index : Z) (approve : bool)
  | CallClose (origin : OuterOrigin AccountId) (proposal : list Z) (index : Z).

Definition coll_exec (now : Z) (op : CollOp) : K (DispatchError CollectiveError) unit :=
  match op with
  | CallSetMembers origin new p => collective_set_members compare origin new p
  | CallExecute origin proposal => execute hash_of dispatch origin proposal
  | CallPropose origin the_threshold proposal => propose hash_of MotionDuration dispatch now origin the_threshold proposal
  | CallVote origin proposal index approve => vote dispatch origin proposal index approve
  | CallClose origin proposal index => close dispatch now origin proposal index
  end.

(** The number of members and of motions and the end of a motion fit, and the
    other modules can live with new members. *)
Definition coll_valid (now : Z) (op : CollOp) s : Prop :=
  match op with
  | CallSetMembers _ new p => ∀ m, members m = sort_ord compare new → prime m = p → W m s.2.2
  | CallExecute _ _ => True
  | CallPropose _ _ _ => motion_count s.2.1 + 1 < 2 ^ 32 ∧ now + MotionDuration < 2 ^ 32
  | CallVote _ _ _ _ | CallClose _ _ _ => count (members s.2.1) < 2 ^ 32
  end.

Lemma coll_exec_settles now op s :
  good None s → coll_valid now op s → settles (λ _ s', good None s' ∧ follows s.2.1 s'.2.1) s (coll_exec now op s).
Proof using Type*.
  intros Hg Hv. destruct op; cbn in *.
  - by apply (set_members_settles compare Hord hash_of dispatch W HW Hd).
  - by apply (execute_settles compare Hord hash_of dispatch W HW Hd).
  - destruct Hv. by apply (motion_propose_settles compare Hord hash_of MotionDuration dispatch W HW Hd).
  - by apply (vote_settles compare Hord hash_of dispatch W HW Hd).
  - by apply (motion_close_settles compare Hord hash_of dispatch W HW Hd).
Qed.

(** Calls, failed ones too, and changes of the members by other modules, at this
    block or a later one. *)
Inductive coll_reach (now : Z) s : Z → World → Prop :=
  | creach_refl : coll_reach now s now s
  | creach_call now1 s1 now2 op r s2 :
      coll_reach now s now1 s1 → now1 ≤ now2 → coll_valid now2 op s1 → coll_exec now2 op s1 = (r, s2) → coll_reach now s now2 s2
  | creach_other now1 s1 now2 s2 :
      coll_reach now s now1 s1 → now1 ≤ now2 → member_changes compare s1.2.1 s2.2.1 → W s2.2.1 s2.2.2 → coll_reach now s now2 s2.

Lemma coll_reach_ok now s now' s' : coll_reach now s now' s' → good None s → good None s' ∧ follows s.2.1 s'.2.1.
Proof using Type*.
  induction 1 as [|now1 s1 now2 op r s2 _ IH _ Hval Hrun|now1 s1 now2 s2 _ IH _ Hch HW2]; intros Hg; [done| |]; destruct (IH Hg) as [Hg1 Hf1].
  - pose proof (coll_exec_settles now2 op s1 Hg1 Hval) as Hs. rewrite Hrun in Hs. destruct r; cbn in Hs; [|by subst|done].
    destruct Hs as [? Hf2]. split; [done|]. by etrans.
  - destruct Hg1 as [Hok1 _]. destruct (member_changes_ok compare Hord hash_of None _ _ Hch Hok1) as [Hok2 _]. split; [done|].
    etrans; [exact Hf1|]. by apply (member_changes_follow compare Hord hash_of None).
Qed.

(** The motion that was open, if it still is, ends when it was to end. *)
Lemma close_after_end now s now' s' h v caller :
  good None s → voting s.2.1 !! h = Some v → coll_reach now s now' s' → vote_end v ≤ now' → count (members s'.2.1) < 2 ^ 32 →
  let '(r, s'') := close dispatch now' (FromSystem (Signed caller)) h (vote_index v) s' in
  match voting s'.2.1 !! h with
  | Some v' =>
      if decide (vote_index v' = vote_index v) then
        threshold v' = threshold v ∧ r = Ok tt ∧ (h ∉ motion_hashes s''.2.1) ∧
        ∃ s1, quiet s'.1 s1.1 ∧ s1.2 = s'.2 ∧ finished dispatch (threshold v <=? final_yes s'.2.1 v') (count (members s'.2.1)) v' h s1 s''
      else r = Err (DispatchModule WrongIndex) ∧ s'' = s'
  | None => r = Err (DispatchModule ProposalMissing) ∧ s'' = s'
  end.
Proof using Type*.
  intros Hg Hv Hr Hend Hfit. destruct (coll_reach_ok _ _ _ _ Hr Hg) as [Hg' [_ Hf]].
  pose proof (close_run compare hash_of dispatch W HW Hd now' caller h (vote_index v) s' Hg' Hfit) as Hc. unfold close_result in Hc.
  destruct (close dispatch now' (FromSystem (Signed caller)) h (vote_index v) s') as [r s''].
  destruct (voting s'.2.1 !! h) as [v'|] eqn:Hv'; [|by simplify_eq]. case_decide as Hne; [rewrite decide_False by done; by simplify_eq|].
  rewrite decide_True by done. destruct (Hf h v' Hv') as [Hnew|(v0&Hv0&_&Ht&He)].
  { destruct Hg as [Hok _]. destruct (votes_fine _ _ _ Hok h v Hv) as (_&_&_&_&?). lia. }
  assert (v0 = v) as -> by congruence. rewrite decide_False in Hc by lia. destruct Hc as (s1&s2&[= -> ->]&Hq&Heq&Hfin).
  destruct (finished_ok compare Hord hash_of dispatch W HW Hd _ _ _ _ _ _ (good_quiet hash_of W None s' s1 Heq Hg') Hfin) as (_&_&Hno).
  split_and!; [done|done|done|]. exists s1. rewrite <- Ht. done.
Qed.

End history.

(** ** Theorems *)

Section theorems.
Context {AccountId : Type} `{Countable AccountId} {Call X D : Type}.
Context (compare : AccountId → AccountId → comparison) (hash_of : Call → list Z) (MotionDuration : Z).
Context (dispatch : Call → OuterOrigin AccountId → P (AccountId := AccountId) (S := Motions AccountId Call * X) D unit).
Context (W : Motions AccountId Call → X → Prop).
Implicit Types (s : State (AccountId := AccountId) * (Motions AccountId Call * X)).

(** C11. Every call of a collective, on storage in which every open motion is listed
    once under the hash of its call and under an index of its own, with at most one
    vote of each member and none of others, and not enough approvals: it succeeds
    and keeps all this, and every open motion is one that was open before, with the
    same threshold and end, or a new one; or it fails without any effect.  It does
    not panic as long as numbers fit; in particular there never are more votes than
    members.  Dispatched calls may change the members, and whatever else other
    modules need of them is kept. *)
Theorem collective_settles now op s :
  total_order compare → (∀ m m' x, members m' = members m → prime m' = prime m → W m x → W m' x) →
  dispatch_ok compare hash_of dispatch W → coll_ok hash_of None s.2.1 → W s.2.1 s.2.2 → coll_valid compare MotionDuration W now op s →
  match coll_exec compare hash_of MotionDuration dispatch now op s with
  | (Ok _, s') => coll_ok hash_of None s'.2.1 ∧ W s'.2.1 s'.2.2 ∧ follows s.2.1 s'.2.1
  | (Err _, s') => s' = s
  | (Panic, _) => False
  end.
Proof.
  intros Hord HW Hd Hok HWs Hv. pose proof (coll_exec_settles compare Hord hash_of MotionDuration dispatch W HW Hd now op s (conj Hok HWs) Hv) as Hs.
  destruct (coll_exec _ _ _ _ now op s) as [[]?]; [|done|done]. by destruct Hs as [[??] ?].
Qed.

(** C19. What a vote and the closing of a motion do, on every branch.  A vote of a
    member counts once and replaces an opposite one; the motion is dispatched with
    the number of its threshold as soon as so many members approve, is dropped as
    soon as so many no longer can, and stays open otherwise.  From its end on anyone
    can close it; then the abstentions count as approvals if the prime member
    approves and as rejections if not. *)
Theorem motions_decided now who h index approve s :
  (∀ m m' x, members m' = members m → prime m' = prime m → W m x → W m' x) →
  dispatch_ok compare hash_of dispatch W → coll_ok hash_of None s.2.1 → W s.2.1 s.2.2 → Z.of_nat (length (members s.2.1)) < 2 ^ 32 →
  vote_result dispatch who h index approve s (vote dispatch (FromSystem (Signed who)) h index approve s) ∧
  close_result dispatch now h index s (close dispatch now (FromSystem (Signed who)) h index s).
Proof.
  intros HW Hd Hok HWs Hfit. split; [by apply (vote_run compare hash_of dispatch W HW Hd)|by apply (close_run compare hash_of dispatch W HW Hd)].
Qed.

(** C18. Every motion is decided in the end: whatever happens after it was open, from
    its end on, if it was not decided before, anyone can close it; it is then no
    longer open, and was dispatched exactly if the approvals, together with the
    abstentions if the prime member approves, reach the threshold it was proposed
    with. *)
Theorem motion_closes now s now' s' h v caller :
  total_order compare → (∀ m m' x, members m' = members m → prime m' = prime m → W m x → W m' x) →
  dispatch_ok compare hash_of dispatch W → coll_ok hash_of None s.2.1 → W s.2.1 s.2.2 → voting s.2.1 !! h = Some v →
  coll_reach compare hash_of MotionDuration dispatch W now s now' s' → vote_end v ≤ now' → Z.of_nat (length (members s'.2.1)) < 2 ^ 32 →
  let '(r, s'') := close dispatch now' (FromSystem (Signed caller)) h (vote_index v) s' in
  match voting s'.2.1 !! h with
  | Some v' =>
      if decide (vote_index v' = vote_index v) then
        threshold v' = threshold v ∧ r = Ok tt ∧ (h ∉ motion_hashes s''.2.1) ∧
        ∃ s1, quiet s'.1 s1.1 ∧ s1.2 = s'.2 ∧
          finished dispatch (threshold v <=? final_yes s'.2.1 v') (Z.of_nat (length (members s'.2.1))) v' h s1 s''
      else r = Err (DispatchModule WrongIndex) ∧ s'' = s'
  | None => r = Err (DispatchModule ProposalMissing) ∧ s'' = s'
  end.
Proof.
  intros Hord HW Hd Hok HWs Hv Hr Hend Hfit.
  exact (close_after_end compare Hord hash_of MotionDuration dispatch W HW Hd now s now' s' h v caller (conj Hok HWs) Hv Hr Hend Hfit).
Qed.

End theorems.

(** C12. Every call of the membership module, with a collective as its observer: the
    members of the collective stay those of the module, sorted, and change by exactly
    what the call says, the prime member stays one of them and is the one of the
    collective if it has any, and the motions of the collective stay in order without
    the votes of members who left; or the call fails without any effect. *)
Theorem membership_correct {AccountId : Type} `{Countable AccountId} {Call : Type} compare (hash_of : Call → list Z)
    add_origin remove_origin swap_origin reset_origin prime_origin busy (op : MemberOp (AccountId := AccountId)) (origin : OuterOrigin AccountId)
    (s : State (AccountId := AccountId) * (Motions AccountId Call * Membership AccountId)) :
  total_order compare → synced compare (coll_ok hash_of busy) members prime s.2.1 s.2.2 →
  origin_ok add_origin remove_origin swap_origin reset_origin prime_origin op origin →
  match member_exec (ChangeMembers0 := collective_members compare) compare as_system add_origin remove_origin swap_origin reset_origin prime_origin op origin s with
  | (Ok _, s') => synced compare (coll_ok hash_of busy) members prime s'.2.1 s'.2.2 ∧
      member_spec as_system op origin (current s.2.2) (current s'.2.2) ∧ member_changes compare s.2.1 s'.2.1
  | (Err _, s') => s' = s
  | (Panic, _) => False
  end.
Proof.
  intros Hord [Hok Hs] Ho. pose proof (collective_keeps_members compare Hord hash_of busy s.2.1) as Hkeeps.
  pose proof (member_exec_settles (ChangeMembers0 := collective_members compare) (KeepsMembers0 := Hkeeps) compare Hord as_system add_origin remove_origin swap_origin reset_origin prime_origin
    (observed compare hash_of busy s.2.1) members prime op origin s) as Hrun.
  specialize (Hrun (conj (conj Hok (changes_none _ _)) Hs) Ho).
  destruct (member_exec _ _ _ _ _ _ _ op origin s) as [[[]|e|] s']; cbn in Hrun; [|done|done].
  destruct Hrun as [[[Hok' Hch] Hs'] Hspec]. split_and!; [|done|done]. by split.
Qed.

(** ** A small committee *)

Module SmallCommittee.

Definition committee_hash (op : MemberOp (AccountId := nat)) : list Z :=
  match op with OpAdd who => [1; Z.of_nat who] | OpRemove who => [2; Z.of_nat who] | _ => [3] end.

(** Two members are enough. *)
Definition two_members (o : OuterOrigin nat) : run bool := Ok (bool_decide (is_Some (EnsureMembers 2 o))).

Definition small_dispatch := committee_dispatch Nat.compare two_members two_members two_members two_members two_members.
Definition small_exec := coll_exec Nat.compare committee_hash 10 small_dispatch.
Definition small_agrees := agrees (AccountId := nat) Nat.compare.

Definition three : Motions nat (MemberOp (AccountId := nat)) := MkMotions [] ∅ ∅ 0 [1; 2; 3]%nat (Some 3%nat).
Definition empty_state : State (AccountId := nat) := MkState ∅ 0 ∅ [].
Definition begin : State (AccountId := nat) * (Motions nat (MemberOp (AccountId := nat)) * Membership nat) :=
  (empty_state, (three, MkMembership [1; 2; 3]%nat (Some 3%nat))).

Lemma small_dispatch_ok : dispatch_ok Nat.compare committee_hash small_dispatch small_agrees.
Proof. apply committee_dispatch_ok; [exact nat_order|]. by intros []. Qed.

Lemma small_frame (m m' : Motions nat (MemberOp (AccountId := nat))) x :
  members m' = members m → prime m' = prime m → small_agrees m x → small_agrees m' x.
Proof. unfold small_agrees, agrees, synced. by intros -> ->. Qed.

Lemma begin_ok : coll_ok committee_hash None begin.2.1 ∧ small_agrees begin.2.1 begin.2.2.
Proof.
  split.
  - split; cbn; try done; [constructor| |].
    + intros h. rewrite lookup_empty. split; [by intros ?%not_elem_of_nil|by intros []].
    + intros h. rewrite lookup_empty. split; [by intros []|by intros [?%not_elem_of_nil _]].
  - split_and!; [done|done| |by right|].
    + repeat constructor; done.
    + intros p [= <-]. cbn. set_solver.
Qed.

(** Member 1 moves to add member 4. *)
Definition motion : list Z := committee_hash (OpAdd 4%nat).
Definition proposed := (small_exec 1 (CallPropose (FromSystem (Signed 1%nat)) 2 (OpAdd 4%nat)) begin).2.

Lemma collective_settles_witness :
  (small_exec 1 (CallPropose (FromSystem (Signed 1%nat)) 2 (OpAdd 4%nat)) begin).1 = Ok tt ∧
  coll_ok committee_hash None proposed.2.1 ∧ small_agrees proposed.2.1 proposed.2.2.
Proof.
  pose proof (collective_settles Nat.compare committee_hash 10 small_dispatch small_agrees 1
    (CallPropose (FromSystem (Signed 1%nat)) 2 (OpAdd 4%nat)) begin nat_order small_frame small_dispatch_ok
    (proj1 begin_ok) (proj2 begin_ok) (conj eq_refl eq_refl)) as Hs.
  fold small_exec in Hs. unfold proposed.
  assert ((small_exec 1 (CallPropose (FromSystem (Signed 1%nat)) 2 (OpAdd 4%nat)) begin).1 = Ok tt) as Hok by (vm_compute; reflexivity).
  destruct (small_exec 1 _ begin) as [r s']. cbn in Hok. subst r. destruct Hs as (?&?&_). done.
Defined.

Lemma proposed_ok : coll_ok committee_hash None proposed.2.1 ∧ small_agrees proposed.2.1 proposed.2.2.
Proof.
  pose proof (coll_exec_settles Nat.compare nat_order committee_hash 10 small_dispatch small_agrees small_frame small_dispatch_ok 1
    (CallPropose (FromSystem (Signed 1%nat)) 2 (OpAdd 4%nat)) begin begin_ok (conj eq_refl eq_refl)) as Hs.
  fold small_exec in Hs. unfold proposed.
  assert ((small_exec 1 (CallPropose (FromSystem (Signed 1%nat)) 2 (OpAdd 4%nat)) begin).1 = Ok tt) as Hok by (vm_compute; reflexivity).
  destruct (small_exec 1 _ begin) as [r s']. cbn in Hok. subst r. by destruct Hs.
Qed.

(** The vote of member 2 decides the motion, and member 4 is one of both modules. *)
Definition decided := (small_exec 2 (CallVote (FromSystem (Signed 2%nat)) motion 0 true) proposed).2.

Lemma decided_members : members decided.2.1 = [1; 2; 3; 4]%nat ∧ current decided.2.2 = [1; 2; 3; 4]%nat ∧ motion_hashes decided.2.1 = [].
Proof. vm_compute. auto. Qed.

Lemma motions_decided_witness :
  vote_result small_dispatch 2%nat motion 0 true proposed (vote small_dispatch (FromSystem (Signed 2%nat)) motion 0 true proposed) ∧
  close_result small_dispatch 5 motion 0 proposed (close small_dispatch 5 (FromSystem (Signed 2%nat)) motion 0 proposed).
Proof.
  apply (motions_decided Nat.compare committee_hash small_dispatch small_agrees 5 2%nat motion 0 true proposed small_frame small_dispatch_ok
    (proj1 proposed_ok) (proj2 proposed_ok)). reflexivity.
Defined.

(** Without more votes anyone closes the motion from block 11 on. *)
Definition open_vote : Votes nat := MkVotes 0 2 [1%nat] [] 11.

Lemma motion_closes_witness :
  (close small_dispatch 11 (FromSystem (Signed 9%nat)) motion 0 proposed).1 = Ok tt ∧
  motion ∉ motion_hashes (close small_dispatch 11 (FromSystem (Signed 9%nat)) motion 0 proposed).2.2.1.
Proof.
  assert (voting proposed.2.1 !! motion = Some open_vote) as Hv by (vm_compute; reflexivity).
  pose proof (motion_closes Nat.compare committee_hash 10 small_dispatch small_agrees 11 proposed 11 proposed motion open_vote 9%nat
    nat_order small_frame small_dispatch_ok (proj1 proposed_ok) (proj2 proposed_ok) Hv (creach_refl _ _ _ _ _ _ _) ltac:(cbn; lia) ltac:(reflexivity)) as T.
  rewrite Hv in T. destruct (close small_dispatch 11 _ motion _ proposed) as [r s'']. cbn in T. by destruct T as (_&->&?&_).
Defined.

(** Root adds member 4; the collective then has no prime member any more, although
    the module still has. *)
Definition root_add := member_exec (ChangeMembers0 := collective_members Nat.compare) Nat.compare as_system
  two_members two_members two_members two_members two_members (OpAdd 4%nat) (FromSystem Root) begin.

Lemma membership_correct_witness :
  root_add.1 = Ok tt ∧ synced Nat.compare (coll_ok committee_hash None) members prime root_add.2.2.1 root_add.2.2.2.
Proof.
  assert (synced Nat.compare (coll_ok committee_hash None) members prime begin.2.1 begin.2.2) as Hs by (destruct begin_ok as [? [_ ?]]; by split).
  pose proof (membership_correct Nat.compare committee_hash two_members two_members two_members two_members two_members None
    (OpAdd 4%nat) (FromSystem Root) begin nat_order Hs ltac:(done)) as T. fold root_add in T.
  assert (root_add.1 = Ok tt) as Hok by (vm_compute; reflexivity). destruct root_add as [r s']. cbn in Hok. subst r. by destruct T as (?&_&_).
Defined.

(** *** Defects *)

Lemma added_member_drops_prime : current_prime root_add.2.2.2 = Some 3%nat ∧ prime root_add.2.2.1 = None.
Proof. vm_compute. auto. Qed.

(** Members of genesis are not sorted; when they are set again, in order, the vote
    of a member who stays is dropped. *)
Definition unsorted : Motions nat (MemberOp (AccountId := nat)) :=
  match initialize_members [3; 1]%nat (MkMotions [] ∅ ∅ 0 [] None) with Ok m => m | _ => three end.
Definition unsorted_motion := (small_exec 1 (CallPropose (FromSystem (Signed 1%nat)) 2 (OpAdd 4%nat)) (empty_state, (unsorted, MkMembership [] None))).2.
Definition sorted_again := (small_exec 2 (CallSetMembers (FromSystem Root) [1; 3]%nat None) unsorted_motion).2.

Lemma unsorted_members_lose_votes :
  members sorted_again.2.1 = [1; 3]%nat ∧ ayes <$> voting unsorted_motion.2.1 !! motion = Some [1%nat] ∧ ayes <$> voting sorted_again.2.1 !! motion = Some [].
Proof. vm_compute. auto. Qed.

End SmallCommittee.
