(* ===== verification/Leaves.v ===== *)
(** * The leaves of the block tree (src/client/src/leaves.rs)

    The set of the blocks without children, by number, kept in memory with the
    changes that have not been written to the database yet.  A [BTreeMap] with
    reversed keys is a map from numbers that is walked downwards.  The database
    column is a map from keys to values; its iterator is a parameter. *)
From S2P Require Import Prelude StateDbBase.

Local Open Scope Z_scope.

(** The entries of a map in the order of falling keys. *)
Definition falling {V : Type} (m : gmap Z V) : list (Z * V) := sort_by (λ a b, b.1 <=? a.1) (map_to_list m).

Section leaves.
Context {H : Type} `{Countable H} `{!Codec H} `{!Codec Z}.

(** ** Data *)

Record LeafSetItem : Type := MkItem { item_hash : H; item_number : Z }.

Record ImportDisplaced : Type := MkImportDisplaced { new_hash : H; displaced : LeafSetItem }.

(** [FinalizationDisplaced] *)
Record FinalizationDisplaced : Type := MkFinalizationDisplaced { fd_leaves : gmap Z (list H) }.

Record LeafSet : Type := MkLeafSet {
  storage : gmap Z (list H);
  pending_added : list LeafSetItem;
  pending_removed : list H;
}.

(** The writes of a transaction to the column. *)
Inductive DBOp : Type := Put (key value : bytes) | Delete (key : bytes).

Inductive LeafError : Type := DecodingHash | DecodingNumber.

Definition apply_op (db : gmap bytes bytes) (op : DBOp) : gmap bytes bytes :=
  match op with Put k v => <[k := v]> db | Delete k => delete k db end.

Definition apply_tx (tx : list DBOp) (db : gmap bytes bytes) : gmap bytes bytes := foldl apply_op db tx.

(** ** Operations *)

Definition fd_merge (a b : FinalizationDisplaced) : FinalizationDisplaced := MkFinalizationDisplaced (fd_leaves b ∪ fd_leaves a).

Definition leaves_new : LeafSet := MkLeafSet ∅ [] [].

(** [storage.entry(number).or_insert_with(Vec::new).push(hash)] *)
Definition push_leaf (number : Z) (hash : H) (m : gmap Z (list H)) : gmap Z (list H) :=
  <[number := default [] (m !! number) ++ [hash]]> m.

Fixpoint read_entries (prefix : bytes) (entries : list (bytes * bytes)) (st : gmap Z (list H)) : result LeafError (gmap Z (list H)) :=
  match entries with
  | [] => Ok st
  | (key, value) :: rest =>
      if starts_with prefix key then
        hash ← ok_or DecodingHash (decode (drop (length prefix) key));
        number ← ok_or DecodingNumber (decode value);
        read_entries prefix rest (push_leaf number hash st)
      else Ok st
  end.

Definition read_from_db (iter_from_prefix : gmap bytes bytes → bytes → list (bytes * bytes)) (db : gmap bytes bytes) (prefix : bytes) : result LeafError LeafSet :=
  st ← read_entries prefix (iter_from_prefix db prefix) ∅;
  Ok (MkLeafSet st [] []).

Definition insert_leaf (s : LeafSet) (number : Z) (hash : H) : LeafSet :=
  MkLeafSet (push_leaf number hash (storage s)) (pending_added s) (pending_removed s).

(** [true] if the leaf was there. *)
Definition remove_leaf (s : LeafSet) (number : Z) (hash : H) : LeafSet * bool :=
  match storage s !! number with
  | None => (s, false)
  | Some leaves =>
      let found := bool_decide (hash ∈ leaves) in
      let leaves' := filter (λ h, h ≠ hash) leaves in
      let st := if found && bool_decide (leaves' = []) then delete number (storage s) else <[number := leaves']> (storage s) in
      (MkLeafSet st (pending_added s) (pending_removed s), found)
  end.

Definition add_pending (s : LeafSet) (hash : H) (number : Z) : LeafSet :=
  MkLeafSet (storage s) (pending_added s ++ [MkItem hash number]) (pending_removed s).
Definition remove_pending (s : LeafSet) (hs : list H) : LeafSet :=
  MkLeafSet (storage s) (pending_added s) (pending_removed s ++ hs).

Definition leaf_import (s : LeafSet) (hash : H) (number : Z) (parent_hash : H) : LeafSet * option ImportDisplaced :=
  let '(s, displaced) :=
    if number =? 0 then (s, None)
    else
      let new_number := number - 1 in
      let '(s, was_displaced) := remove_leaf s new_number parent_hash in
      if was_displaced then
        (remove_pending s [parent_hash], Some (MkImportDisplaced hash (MkItem parent_hash new_number)))
      else (s, None) in
  (add_pending (insert_leaf s number hash) hash number, displaced).

Definition finalize_height (s : LeafSet) (number : Z) : LeafSet * FinalizationDisplaced :=
  if number =? 0 then (s, MkFinalizationDisplaced ∅)
  else
    let boundary := number - 1 in
    let below_boundary := filter (λ e, e.1 ≤ boundary) (storage s) in
    let s' := MkLeafSet (filter (λ e, ¬ e.1 ≤ boundary) (storage s)) (pending_added s) (pending_removed s) in
    (remove_pending s' (flat_map snd (falling below_boundary)), MkFinalizationDisplaced below_boundary).

(** The loop of [revert]; [assert!] may panic. *)
Definition revert_step (best_number : Z) (s : LeafSet) (item : H * Z) : run LeafSet :=
  if best_number <? item.2 then
    let '(s', removed) := remove_leaf s item.2 item.1 in
    if removed then Ok (remove_pending s' [item.1]) else Panic
  else Ok s.

Definition revert (s : LeafSet) (best_hash : H) (best_number : Z) : run LeafSet :=
  let items := flat_map (λ e, (λ h, (h, e.1)) <$> e.2) (falling (storage s)) in
  s ← foldl_m (revert_step best_number) s items;
  let leaves_contains_best := bool_decide (best_hash ∈ default [] (storage s !! best_number)) in
  Ok (if leaves_contains_best then s else add_pending (insert_leaf s best_number best_hash) best_hash best_number).

Definition leaf_hashes (s : LeafSet) : list H := flat_map snd (falling (storage s)).

Definition prepare_transaction (s : LeafSet) (prefix : bytes) : LeafSet * list DBOp :=
  (MkLeafSet (storage s) [] [],
   ((λ i, Put (prefix ++ encode (item_hash i)) (encode (item_number i))) <$> pending_added s) ++
   ((λ h, Delete (prefix ++ encode h)) <$> pending_removed s)).

Definition undo_import (s : LeafSet) (d : ImportDisplaced) : LeafSet :=
  let new_number := item_number (displaced d) + 1 in
  insert_leaf (remove_leaf s new_number (new_hash d)).1 new_number (item_hash (displaced d)).

Definition undo_finalization (s : LeafSet) (d : FinalizationDisplaced) : LeafSet :=
  MkLeafSet (fd_leaves d ∪ storage s) (pending_added s) (pending_removed s).

(** [Undo] forgets the pending changes when it is dropped. *)
Definition undo_drop (s : LeafSet) : LeafSet := MkLeafSet (storage s) [] [].

End leaves.

(** ** Leaves and their order *)

Lemma falling_elem {V} (m : gmap Z V) k v : (k, v) ∈ falling m ↔ m !! k = Some v.
Proof. unfold falling. rewrite sort_by_perm. apply elem_of_map_to_list. Qed.

Lemma falling_nodup {V} (m : gmap Z V) : NoDup (falling m).*1.
Proof. unfold falling. rewrite sort_by_perm. apply NoDup_fst_map_to_list. Qed.

Lemma falling_sorted {V} (m : gmap Z V) : StronglySorted (λ a b, b.1 <= a.1) (falling m).
Proof.
  assert (StronglySorted (λ a b, (b.1 <=? a.1) = true) (falling m)) as Hs.
  { apply sort_by_sorted; [intros a b; rewrite Z.leb_gt, Z.leb_le; lia|intros a b c; rewrite !Z.leb_le; lia]. }
  induction Hs as [|a l _ IH Ha]; constructor; [done|].
  eapply Forall_impl; [exact Ha|]. cbn. intros b. apply Z.leb_le.
Qed.

Section facts.
Context {H : Type} `{Countable H} `{!Codec H} `{!Codec Z}.
Local Abbreviation Leafs := (LeafSet (H := H)).
Implicit Types (s : Leafs) (db : gmap bytes bytes).

Definition is_leaf s (n : Z) (h : H) : Prop := h ∈ default [] (storage s !! n).

#[export] Instance is_leaf_dec s n h : Decision (is_leaf s n h).
Proof. unfold is_leaf. apply _. Defined.

(** No number has an empty list, and a block is listed once. *)
Record wf s : Prop := {
  wf_listed n l : storage s !! n = Some l → l ≠ [] ∧ NoDup l;
  wf_unique n m h : is_leaf s n h → is_leaf s m h → n = m;
}.

Lemma insert_leaf_spec s n h m k : is_leaf (insert_leaf s n h) m k ↔ is_leaf s m k ∨ (m = n ∧ k = h).
Proof.
  unfold is_leaf, insert_leaf, push_leaf. cbn. destruct (decide (m = n)) as [->|Hne].
  - rewrite lookup_insert_eq. cbn. set_solver.
  - rewrite lookup_insert_ne by done. naive_solver.
Qed.

Lemma insert_leaf_wf s n h : wf s → (∀ m, ¬ is_leaf s m h) → wf (insert_leaf s n h).
Proof.
  intros [Hl Hu] Hh. constructor.
  - intros m l. cbn. unfold push_leaf. destruct (decide (m = n)) as [->|Hne].
    + rewrite lookup_insert_eq. intros [= <-]. split; [by destruct (default [] _)|].
      apply NoDup_app. split_and!; [|intros x Hx ->%list_elem_of_singleton; by apply (Hh n)|apply NoDup_singleton].
      destruct (storage s !! n) as [l|] eqn:Hn; cbn; [by apply (Hl n)|apply NoDup_nil_2].
    + rewrite lookup_insert_ne by done. apply Hl.
  - intros a b k. rewrite !insert_leaf_spec. naive_solver.
Qed.

Lemma remove_leaf_spec s n h m k : is_leaf (remove_leaf s n h).1 m k ↔ is_leaf s m k ∧ ¬ (m = n ∧ k = h).
Proof.
  unfold is_leaf, remove_leaf. destruct (storage s !! n) as [l|] eqn:Hn; cbn.
  2:{ split; [|tauto]. intros Hk. split; [done|]. intros [-> ->]. rewrite Hn in Hk. set_solver. }
  destruct (decide (m = n)) as [->|Hne].
  - rewrite Hn. cbn. case_match eqn:Hc.
    + rewrite lookup_delete_eq. cbn. apply andb_true_iff in Hc as [_ Hc%bool_decide_eq_true].
      split; [set_solver|]. intros [Hk Hkh]. assert (k ∈ filter (λ x, x ≠ h) l) as Hf by (apply list_elem_of_filter; naive_solver).
      rewrite Hc in Hf. set_solver.
    + rewrite lookup_insert_eq. cbn. rewrite list_elem_of_filter. naive_solver.
  - case_match; rewrite ?lookup_delete_ne, ?lookup_insert_ne by done; naive_solver.
Qed.

Lemma remove_leaf_found s n h : (remove_leaf s n h).2 = bool_decide (is_leaf s n h).
Proof.
  unfold remove_leaf. destruct (storage s !! n) eqn:Hn; cbn.
  - apply bool_decide_ext. unfold is_leaf. by rewrite Hn.
  - symmetry. apply bool_decide_eq_false. unfold is_leaf. rewrite Hn. set_solver.
Qed.

Lemma remove_leaf_pending s n h :
  pending_added (remove_leaf s n h).1 = pending_added s ∧ pending_removed (remove_leaf s n h).1 = pending_removed s.
Proof. unfold remove_leaf. by destruct (storage s !! n). Qed.

Lemma remove_leaf_wf s n h : wf s → wf (remove_leaf s n h).1.
Proof.
  intros [Hl Hu]. constructor.
  - intros m l. unfold remove_leaf. destruct (storage s !! n) as [ln|] eqn:Hn; [|apply Hl]. cbn.
    case_match eqn:Hc; [intros [_ Hm]%lookup_delete_Some; by apply (Hl m)|].
    intros [[<- <-]|[_ Hm]]%lookup_insert_Some; [|by apply (Hl m)].
    destruct (Hl n ln Hn) as [Hne Hnd]. split; [|by apply NoDup_filter].
    intros Hf. rewrite Hf, (bool_decide_eq_true_2 _ eq_refl), andb_true_r in Hc. apply bool_decide_eq_false in Hc.
    rewrite filter_all in Hf by (intros x Hx ->; done). done.
  - intros a b k [Ha _]%remove_leaf_spec [Hb _]%remove_leaf_spec. by apply (Hu a b k).
Qed.

Lemma leaf_hashes_elem s h : h ∈ leaf_hashes s ↔ ∃ n, is_leaf s n h.
Proof.
  unfold leaf_hashes, is_leaf. rewrite elem_of_flat_map. split.
  - intros ([n l]&Hn%falling_elem&Hh). exists n. by rewrite Hn.
  - intros [n Hh]. destruct (storage s !! n) as [l|] eqn:Hn; [|set_solver]. exists (n, l). by rewrite falling_elem.
Qed.

(** The listed pairs of a block and its number. *)
Definition items s : list (H * Z) := flat_map (λ e, (λ h, (h, e.1)) <$> e.2) (falling (storage s)).

Lemma items_elem s h n : (h, n) ∈ items s ↔ is_leaf s n h.
Proof.
  unfold items, is_leaf. rewrite elem_of_flat_map. split.
  - intros ([m l]&Hm%falling_elem&(k&[= -> ->]&Hk)%list_elem_of_fmap). cbn in *. by rewrite Hm.
  - intros Hh. destruct (storage s !! n) as [l|] eqn:Hn; [|set_solver]. exists (n, l). rewrite falling_elem. split; [done|].
    apply list_elem_of_fmap. eauto.
Qed.

Lemma items_hashes s : (items s).*1 = leaf_hashes s.
Proof.
  unfold items, leaf_hashes. induction (falling (storage s)) as [|[n l] fs IH]; [done|]. cbn [flat_map].
  rewrite fmap_app, IH, <- list_fmap_compose. f_equal. by apply list_fmap_id.
Qed.

Lemma items_sorted s : StronglySorted (λ a b, b.2 <= a.2) (items s).
Proof.
  unfold items. induction (falling_sorted (storage s)) as [|[n l] fs _ IH Hfs]; [constructor|]. cbn [flat_map].
  apply strongly_sorted_app; [|done|].
  - clear. induction l as [|? l IH]; cbn; [constructor|]. constructor; [done|]. apply Forall_forall. intros x (?&->&?)%list_elem_of_fmap. cbn. lia.
  - rewrite Forall_forall in Hfs. intros x y (?&->&?)%list_elem_of_fmap ([m l']&Hm&(?&->&?)%list_elem_of_fmap)%elem_of_flat_map.
    by apply (Hfs _ Hm).
Qed.

Lemma items_nodup s : wf s → NoDup (items s).*1.
Proof.
  intros [Hl Hu]. assert (∀ n l, (n, l) ∈ falling (storage s) → storage s !! n = Some l) as Hin by (by intros ?? ?%falling_elem).
  unfold items. pose proof (falling_nodup (storage s)) as Hnd. revert Hin Hnd.
  induction (falling (storage s)) as [|[n l] fs IH]; intros Hin Hnd; [apply NoDup_nil_2|].
  cbn in Hnd. apply NoDup_cons in Hnd as [Hn Hnd]. cbn [flat_map]. rewrite fmap_app.
  assert (storage s !! n = Some l) as Hnl by (apply Hin; by left).
  apply NoDup_app. split_and!.
  - rewrite <- list_fmap_compose. rewrite list_fmap_id by done. by apply (Hl n).
  - intros h ([h' n']&->&(?&[= -> ->]&Hh)%list_elem_of_fmap)%list_elem_of_fmap
      ([k m]&Hk&([m' l']&Hm&(?&[= -> ->]&Hk')%list_elem_of_fmap)%elem_of_flat_map)%list_elem_of_fmap. cbn in *. subst.
    assert (storage s !! m' = Some l') as Hm' by (apply Hin; by right).
    assert (n = m') as -> by (apply (Hu _ _ x0); unfold is_leaf; rewrite ?Hnl, ?Hm'; done).
    apply Hn. apply list_elem_of_fmap. by exists (m', l').
  - apply IH; [intros; apply Hin; by right|done].
Qed.

(** The hashes are listed once each, from the highest number down. *)
Lemma leaf_hashes_ok s : wf s →
  NoDup (leaf_hashes s) ∧
  ∀ i j h k n m, (i < j)%nat → leaf_hashes s !! i = Some h → leaf_hashes s !! j = Some k → is_leaf s n h → is_leaf s m k → m ≤ n.
Proof.
  intros Hwf. pose proof (items_hashes s) as Hi. split; [rewrite <- Hi; by apply items_nodup|].
  intros i j h k n m Hij. rewrite <- Hi, !list_lookup_fmap.
  intros ([h' n']&Hh&->)%fmap_Some ([k' m']&Hk&->)%fmap_Some. cbn. intros Hn Hm.
  assert (n' = n) as -> by (apply (wf_unique s Hwf _ _ h'); [apply items_elem; by eapply list_elem_of_lookup_2|done]).
  assert (m' = m) as -> by (apply (wf_unique s Hwf _ _ k'); [apply items_elem; by eapply list_elem_of_lookup_2|done]).
  by apply (strongly_sorted_lookup _ _ i j _ _ (items_sorted s) Hh Hk).
Qed.

(** ** Operations on the leaves *)

Lemma leaf_import_spec s h n parent m k :
  is_leaf (leaf_import s h n parent).1 m k ↔ (is_leaf s m k ∧ ¬ (n ≠ 0 ∧ m = n - 1 ∧ k = parent)) ∨ (m = n ∧ k = h).
Proof.
  unfold leaf_import. destruct (Z.eqb_spec n 0) as [->|Hn].
  { cbn [fst]. change (is_leaf (add_pending ?x _ _)) with (is_leaf x). rewrite insert_leaf_spec. tauto. }
  pose proof (remove_leaf_spec s (n - 1) parent m k) as Hr.
  destruct (remove_leaf s (n - 1) parent) as [s' found]. cbn in Hr.
  assert (is_leaf (insert_leaf s' n h) m k ↔ is_leaf s m k ∧ ¬ (n ≠ 0 ∧ m = n - 1 ∧ k = parent) ∨ m = n ∧ k = h) as Hs.
  { rewrite insert_leaf_spec, Hr. tauto. }
  by destruct found.
Qed.

Lemma leaf_import_wf s h n parent : wf s → (∀ m, ¬ is_leaf s m h) → wf (leaf_import s h n parent).1.
Proof.
  intros Hwf Hh. unfold leaf_import. destruct (Z.eqb_spec n 0) as [->|Hn].
  { cbn [fst]. apply (insert_leaf_wf s 0 h) in Hwf as [? ?]; [|done]. by constructor. }
  pose proof (remove_leaf_wf s (n - 1) parent Hwf) as Hwf'.
  pose proof (λ m, remove_leaf_spec s (n - 1) parent m h) as Hr.
  destruct (remove_leaf s (n - 1) parent) as [s' found]. cbn in *.
  apply (insert_leaf_wf s' n h) in Hwf' as [? ?]; [|naive_solver]. destruct found; by constructor.
Qed.

(** The leaf that an import displaces is reported. *)
Lemma leaf_import_displaced s h n parent :
  (leaf_import s h n parent).2 =
    if bool_decide (n ≠ 0 ∧ is_leaf s (n - 1) parent) then Some (MkImportDisplaced h (MkItem parent (n - 1))) else None.
Proof.
  unfold leaf_import. destruct (Z.eqb_spec n 0) as [->|Hn]; [by rewrite bool_decide_eq_false_2 by tauto|].
  pose proof (remove_leaf_found s (n - 1) parent) as Hf. destruct (remove_leaf s (n - 1) parent) as [s' found]. cbn in Hf.
  rewrite Hf. case_bool_decide as Hl; [by rewrite bool_decide_eq_true_2|by rewrite bool_decide_eq_false_2 by tauto].
Qed.

Lemma finalize_height_spec s n m k : is_leaf (finalize_height s n).1 m k ↔ is_leaf s m k ∧ (n = 0 ∨ n ≤ m).
Proof.
  unfold finalize_height. destruct (Z.eqb_spec n 0) as [->|Hn]; [cbn; tauto|]. cbn. unfold is_leaf. cbn.
  rewrite map_lookup_filter. destruct (storage s !! m) as [l|]; cbn; [|set_solver].
  case_guard; cbn; [split; [|tauto]; intros; split; [done|lia]|]. split; [set_solver|]. intros [_ ?]. lia.
Qed.

Lemma finalize_height_wf s n : wf s → wf (finalize_height s n).1.
Proof.
  intros Hwf. constructor.
  - intros m l. unfold finalize_height. case_match; cbn; [by apply Hwf|].
    intros [? _]%map_lookup_filter_Some. by apply (wf_listed s Hwf m).
  - intros a b k [? _]%finalize_height_spec [? _]%finalize_height_spec. by apply (wf_unique s Hwf a b k).
Qed.

Lemma revert_loop best_number l s :
  wf s → NoDup l → (∀ h n, (h, n) ∈ l → is_leaf s n h) →
  ∃ s', foldl_m (revert_step best_number) s l = Ok s' ∧ wf s' ∧
    (∀ m k, is_leaf s' m k ↔ is_leaf s m k ∧ ¬ ((k, m) ∈ l ∧ best_number < m)) ∧
    pending_added s' = pending_added s ∧
    pending_removed s' = pending_removed s ++ (filter (λ e, best_number < e.2) l).*1.
Proof.
  revert s. induction l as [|[h n] l IH]; intros s Hwf Hnd Hl.
  { exists s. split_and!; [done..| |done|by rewrite app_nil_r]. set_solver. }
  apply NoDup_cons in Hnd as [Hni Hnd]. cbn [foldl_m].
  destruct (decide (best_number < n)) as [Hn|Hn].
  - pose proof (remove_leaf_found s n h) as Hf. rewrite (bool_decide_eq_true_2 _ (Hl h n (list_elem_of_here _ _))) in Hf.
    pose proof (remove_leaf_spec s n h) as Hr. pose proof (remove_leaf_wf s n h Hwf) as Hwf'.
    destruct (remove_leaf_pending s n h) as [Hpa Hpr]. destruct (remove_leaf s n h) as [s1 found] eqn:Es1. cbn [fst snd] in *. subst found.
    assert (revert_step best_number s (h, n) = Ok (remove_pending s1 [h])) as ->.
    { unfold revert_step. cbn. by rewrite (proj2 (Z.ltb_lt _ _) Hn), Es1. }
    destruct (IH (remove_pending s1 [h])) as (s'&Hs'&Hw'&Hlf&Hpa'&Hpr').
    { destruct Hwf' as [? ?]. by constructor. }
    { done. }
    { intros k m Hk. apply Hr. split; [apply Hl; by right|]. by intros [-> ->]. }
    exists s'. split_and!; [exact Hs'|done| |by rewrite Hpa'|].
    + intros m k. rewrite Hlf. change (is_leaf (remove_pending s1 [h])) with (is_leaf s1). rewrite Hr, elem_of_cons. naive_solver.
    + rewrite Hpr', filter_cons_True by done. cbn [remove_pending pending_removed]. by rewrite Hpr, <- app_assoc.
  - assert (revert_step best_number s (h, n) = Ok s) as ->.
    { unfold revert_step. cbn. by rewrite (proj2 (Z.ltb_ge _ _)) by lia. }
    destruct (IH s) as (s'&Hs'&Hw'&Hlf&Hpa'&Hpr'); [done..|by intros; apply Hl; right|].
    exists s'. split_and!; [done|done| |done|].
    + intros m k. rewrite Hlf, elem_of_cons. split; [|naive_solver]. intros [Hk Hni']. split; [done|].
      intros [[[= -> ->]|?] ?]; [lia|tauto].
    + rewrite Hpr'. by rewrite filter_cons_False by (cbn; lia).
Qed.

(** Reverting never panics: it drops the leaves above the block and makes sure
    that the block is one. *)
Lemma revert_ok s best n :
  wf s → (∀ m, is_leaf s m best → m = n) →
  ∃ s', revert s best n = Ok s' ∧ wf s' ∧
    (∀ m k, is_leaf s' m k ↔ (is_leaf s m k ∧ m ≤ n) ∨ (m = n ∧ k = best)) ∧
    pending_added s' = pending_added s ++ (if decide (is_leaf s n best) then [] else [MkItem best n]) ∧
    ∃ removed, pending_removed s' = pending_removed s ++ removed ∧ ∀ k, k ∈ removed ↔ ∃ m, n < m ∧ is_leaf s m k.
Proof.
  intros Hwf Hbest. unfold revert. fold (items s).
  destruct (revert_loop n (items s) s Hwf) as (s1&Hs1&Hw1&Hl1&Hpa&Hpr).
  { eapply NoDup_fmap_1, items_nodup, Hwf. }
  { intros h m. by rewrite items_elem. }
  rewrite Hs1. cbn [mbind result_bind]. cbv zeta.
  assert (∀ m k, is_leaf s1 m k ↔ is_leaf s m k ∧ m ≤ n) as Hl1'.
  { intros m k. rewrite Hl1, items_elem. split; [intros [? Hn]; split; [done|]; apply Z.nlt_ge; tauto|intros [? ?]; split; [done|lia]]. }
  assert (∀ k, k ∈ (filter (λ e, n < e.2) (items s)).*1 ↔ ∃ m, n < m ∧ is_leaf s m k) as Hrem.
  { intros k. rewrite list_elem_of_fmap. split.
    - intros ([k' m]&->&[Hm Hk]%list_elem_of_filter). exists m. by rewrite <- items_elem.
    - intros (m&Hm&Hk). exists (k, m). rewrite list_elem_of_filter, items_elem. done. }
  assert (best ∈ default [] (storage s1 !! n) ↔ is_leaf s n best) as Hb1.
  { change (is_leaf s1 n best ↔ is_leaf s n best). rewrite Hl1'. split; [tauto|split; [done|lia]]. }
  case_bool_decide as Hb; rewrite Hb1 in Hb; eexists; (split; [done|]).
  - split_and!; [done| |by rewrite decide_True, app_nil_r|by eauto].
    intros m k. rewrite Hl1'. split; [tauto|]. intros [?|[-> ->]]; [done|split; [done|lia]].
  - destruct (insert_leaf_wf s1 n best Hw1) as [? ?].
    { intros m [Hm _]%Hl1'. by rewrite (Hbest m Hm) in Hm. }
    split_and!; [by constructor| |cbn; by rewrite Hpa, decide_False|by eauto].
    intros m k. change (is_leaf (add_pending ?x _ _)) with (is_leaf x). by rewrite insert_leaf_spec, Hl1'.
Qed.

(** ** The database *)

Section database.
Context (prefix : bytes).

Definition leaf_key (h : H) : bytes := prefix ++ encode h.

Lemma leaf_key_inj h k : leaf_key h = leaf_key k → h = k.
Proof. intros ?%app_inv_head%encode_inj. done. Qed.

(** The column when the pending changes are written. *)
Definition flushed s db : gmap bytes bytes := apply_tx (prepare_transaction s prefix).2 db.

Lemma apply_deletes ks db k :
  apply_tx (Delete <$> ks) db !! k = if decide (k ∈ ks) then None else db !! k.
Proof.
  unfold apply_tx. revert db. induction ks as [|k' ks IH]; intros db; [done|].
  cbn [fmap list_fmap foldl apply_op]. rewrite IH. destruct (decide (k ∈ ks)) as [Hk|Hk].
  - by rewrite decide_True by (by right).
  - destruct (decide (k = k')) as [->|Hne].
    + rewrite decide_True by (by left). apply lookup_delete_eq.
    + rewrite decide_False by (by intros [?|?]%elem_of_cons). by apply lookup_delete_ne.
Qed.

Lemma flushed_lookup s db k :
  flushed s db !! k =
    if decide (k ∈ leaf_key <$> pending_removed s) then None
    else apply_tx ((λ i, Put (leaf_key (item_hash i)) (encode (item_number i))) <$> pending_added s) db !! k.
Proof.
  unfold flushed, prepare_transaction. cbn [snd]. unfold apply_tx at 1. rewrite foldl_app.
  change (foldl apply_op ?d ?l) with (apply_tx l d). rewrite <- apply_deletes, <- list_fmap_compose. done.
Qed.

Lemma flushed_add s db h n k :
  h ∉ pending_removed s →
  flushed (add_pending s h n) db !! k = if decide (k = leaf_key h) then Some (encode n) else flushed s db !! k.
Proof.
  intros Hh. rewrite !flushed_lookup. cbn [add_pending pending_removed pending_added]. rewrite fmap_app. unfold apply_tx at 1.
  rewrite foldl_app. cbn. change (foldl apply_op ?d ?l) with (apply_tx l d). destruct (decide (k = leaf_key h)) as [->|Hne].
  - rewrite decide_False; [by rewrite lookup_insert_eq|]. by intros (?&->%leaf_key_inj&?)%list_elem_of_fmap.
  - by rewrite lookup_insert_ne by done.
Qed.

Lemma flushed_remove s db hs k :
  flushed (remove_pending s hs) db !! k = if decide (k ∈ leaf_key <$> hs) then None else flushed s db !! k.
Proof.
  rewrite !flushed_lookup. cbn [remove_pending pending_removed pending_added]. rewrite fmap_app.
  repeat case_decide; try done; rewrite elem_of_app in *; tauto.
Qed.

Lemma flushed_pending s s' db : pending_added s = pending_added s' → pending_removed s = pending_removed s' → flushed s db = flushed s' db.
Proof. unfold flushed, prepare_transaction. by intros -> ->. Qed.

(** The entries of the column are the leaves, once the pending changes are
    written. *)
Definition synced s db : Prop :=
  ∀ k v, starts_with prefix k = true →
    flushed s db !! k = Some v ↔ ∃ h n, k = leaf_key h ∧ v = encode n ∧ is_leaf s n h.

Lemma leaf_import_flushed s db h n parent k :
  h ∉ pending_removed s → h ≠ parent →
  flushed (leaf_import s h n parent).1 db !! k =
    if decide (k = leaf_key h) then Some (encode n)
    else if decide (n ≠ 0 ∧ is_leaf s (n - 1) parent ∧ k = leaf_key parent) then None else flushed s db !! k.
Proof.
  intros Hh Hp. unfold leaf_import. destruct (Z.eqb_spec n 0) as [->|Hn].
  - cbn [fst]. rewrite flushed_add by done. rewrite (decide_False (P := _ ∧ _)) by tauto. case_decide; [done|].
    by erewrite (flushed_pending (insert_leaf s 0 h) s).
  - destruct (remove_leaf_pending s (n - 1) parent) as [Hpa Hpr]. pose proof (remove_leaf_found s (n - 1) parent) as Hf.
    destruct (remove_leaf s (n - 1) parent) as [s1 found]. cbn [fst snd] in *. subst found. case_bool_decide as Hl.
    + cbn [fst]. rewrite flushed_add by (cbn; rewrite Hpr; set_solver). case_decide; [done|].
      rewrite (flushed_pending (insert_leaf (remove_pending s1 [parent]) n h) (remove_pending s [parent])) by (cbn; by rewrite ?Hpa, ?Hpr).
      rewrite flushed_remove. cbn. destruct (decide (k = leaf_key parent)) as [->|Hk].
      * rewrite decide_True by (by left). by rewrite decide_True.
      * rewrite decide_False by set_solver. by rewrite decide_False by tauto.
    + cbn [fst]. rewrite flushed_add by (cbn; by rewrite Hpr). rewrite (decide_False (P := _ ∧ _)) by tauto. case_decide; [done|].
      by rewrite (flushed_pending (insert_leaf s1 n h) s) by done.
Qed.

Lemma synced_import s db h n parent :
  wf s → synced s db → (∀ m, ¬ is_leaf s m h) → h ∉ pending_removed s → h ≠ parent → synced (leaf_import s h n parent).1 db.
Proof.
  intros Hwf Hs Hh Hr Hp k v Hk. rewrite leaf_import_flushed by done. setoid_rewrite leaf_import_spec.
  destruct (decide (k = leaf_key h)) as [->|Hne].
  { split; [intros [= <-]; exists h, n; eauto|]. intros (h'&n'&<-%leaf_key_inj&->&[[? _]|[-> _]]); [by edestruct Hh|done]. }
  destruct (decide _) as [(Hn&Hl&->)|Hd].
  - split; [done|]. intros (h'&n'&<-%leaf_key_inj&->&[[Hl' Hno]|[_ ->]]); [|done].
    rewrite (wf_unique s Hwf _ _ _ Hl' Hl) in Hno. tauto.
  - rewrite (Hs k v Hk). split.
    + intros (h'&n'&->&->&Hl). exists h', n'. split_and!; [done..|]. left. split; [done|]. intros (?&->&->). apply Hd. done.
    + intros (h'&n'&->&->&[[Hl _]|[_ ->]]); [eauto|done].
Qed.

Lemma finalize_height_removed s n :
  ∃ removed, pending_removed (finalize_height s n).1 = pending_removed s ++ removed ∧
    pending_added (finalize_height s n).1 = pending_added s ∧
    ∀ h, h ∈ removed ↔ ∃ m, n ≠ 0 ∧ m < n ∧ is_leaf s m h.
Proof.
  unfold finalize_height. destruct (Z.eqb_spec n 0) as [->|Hn].
  { exists []. rewrite app_nil_r. split_and!; [done..|]. set_solver. }
  eexists. split_and!; [done..|]. intros h. rewrite elem_of_flat_map. unfold is_leaf. split.
  - intros ([m l]&[Hm Hle]%falling_elem%map_lookup_filter_Some&Hh). exists m. rewrite Hm. cbn in *. split_and!; [done|lia|done].
  - intros (m&_&Hlt&Hh). destruct (storage s !! m) as [l|] eqn:Hm; [|set_solver]. exists (m, l).
    rewrite falling_elem, map_lookup_filter_Some. cbn in *. split_and!; [done|lia|done].
Qed.

Lemma synced_finalize s db n : wf s → synced s db → synced (finalize_height s n).1 db.
Proof.
  intros Hwf Hs k v Hk. destruct (finalize_height_removed s n) as (removed&Hpr&Hpa&Hrem).
  rewrite (flushed_pending _ (remove_pending s removed)) by done. rewrite flushed_remove. setoid_rewrite finalize_height_spec.
  case_decide as Hin.
  - split; [done|]. intros (h&m&->&->&Hl&Hm). apply list_elem_of_fmap in Hin as (h'&<-%leaf_key_inj&(m'&?&?&Hl')%Hrem).
    rewrite (wf_unique s Hwf _ _ _ Hl' Hl) in *. lia.
  - rewrite (Hs k v Hk). split; [|naive_solver]. intros (h&m&->&->&Hl). exists h, m. split_and!; [done..|].
    destruct (decide (n = 0)); [tauto|]. right. apply Z.nlt_ge. intros ?. apply Hin, list_elem_of_fmap_2, Hrem. eauto.
Qed.

Lemma synced_revert s s' db best n :
  wf s → synced s db → (∀ m, is_leaf s m best → m = n) → best ∉ pending_removed s → revert s best n = Ok s' → synced s' db.
Proof.
  intros Hwf Hs Hbest Hr Hrev k v Hk. destruct (revert_ok s best n Hwf Hbest) as (s1&Hs1&_&Hl&Hpa&removed&Hpr&Hrem).
  rewrite Hrev in Hs1. injection Hs1 as <-. setoid_rewrite Hl.
  assert (best ∉ removed) as Hbr.
  { intros (m&Hm&Hl')%Hrem. rewrite (Hbest _ Hl') in Hm. lia. }
  assert (flushed s' db !! k = if decide (k ∈ leaf_key <$> removed) then None
    else if decide (k = leaf_key best ∧ ¬ is_leaf s n best) then Some (encode n) else flushed s db !! k) as ->.
  { rewrite (flushed_pending _ (remove_pending (if decide (is_leaf s n best) then s else add_pending s best n) removed)).
    - rewrite flushed_remove. destruct (decide (k ∈ _)); [done|]. destruct (decide (is_leaf s n best)); [by rewrite decide_False by tauto|].
      rewrite flushed_add by done. destruct (decide (k = leaf_key best)); [by rewrite decide_True|by rewrite decide_False by tauto].
    - rewrite Hpa. case_decide; [apply app_nil_r|done].
    - rewrite Hpr. by case_decide. }
  destruct (decide (k ∈ leaf_key <$> removed)) as [Hin|Hin].
  - apply list_elem_of_fmap in Hin as (h'&->&(m'&?&Hl')%Hrem). split; [done|].
    intros (h&m&<-%leaf_key_inj&->&[[Hlm ?]|[-> ->]]); [|by rewrite (Hbest _ Hl') in *; lia].
    rewrite (wf_unique s Hwf _ _ _ Hl' Hlm) in *. lia.
  - destruct (decide (k = leaf_key best ∧ ¬ is_leaf s n best)) as [[-> Hnl]|Hnb].
    + split; [intros [= <-]; exists best, n; naive_solver|]. intros (h&m&<-%leaf_key_inj&->&[[Hlm ?]|[-> _]]); [|done].
      by rewrite (Hbest _ Hlm) in *.
    + rewrite (Hs k v Hk). split.
      * intros (h&m&->&->&Hlm). exists h, m. split_and!; [done..|]. left. split; [done|]. apply Z.nlt_ge. intros ?.
        apply Hin, list_elem_of_fmap_2, Hrem. eauto.
      * intros (h&m&->&->&[[? _]|[-> ->]]); [eauto|]. exists best, n. destruct (decide (is_leaf s n best)); [done|]. tauto.
Qed.

(** Histories: blocks are imported that are not leaves, heights are finalized, the
    chain is reverted, and the changes are written to the database.  Within one
    transaction no block becomes a leaf again that has ceased to be one. *)
Inductive reach : Leafs → gmap bytes bytes → Prop :=
  | reach_new db : (∀ k, starts_with prefix k = true → db !! k = None) → reach leaves_new db
  | reach_import s db h n parent :
      reach s db → (∀ m, ¬ is_leaf s m h) → h ∉ pending_removed s → h ≠ parent → reach (leaf_import s h n parent).1 db
  | reach_finalize s db n : reach s db → reach (finalize_height s n).1 db
  | reach_revert s s' db best n :
      reach s db → (∀ m, is_leaf s m best → m = n) → best ∉ pending_removed s → revert s best n = Ok s' → reach s' db
  | reach_write s db : reach s db → reach (prepare_transaction s prefix).1 (apply_tx (prepare_transaction s prefix).2 db).

Lemma no_leaf n h : ¬ is_leaf leaves_new n h.
Proof. unfold is_leaf. cbn. rewrite lookup_empty. apply not_elem_of_nil. Qed.

Lemma reach_ok s db : reach s db → wf s ∧ synced s db.
Proof.
  induction 1 as [db Hdb|s db h n parent _ [Hwf Hs] Hh Hr Hp|s db n _ [Hwf Hs]|s s' db best n _ [Hwf Hs] Hb Hr Hrev|s db _ [Hwf Hs]].
  - split.
    + split; [done|]. intros n m h Hl. by apply no_leaf in Hl.
    + intros k v Hk. change (flushed leaves_new db) with db. rewrite Hdb by done. split; [done|]. by intros (h&n&_&_&Hl%no_leaf).
  - split; [by apply leaf_import_wf|by apply synced_import].
  - split; [by apply finalize_height_wf|by apply synced_finalize].
  - split; [|by eapply synced_revert]. destruct (revert_ok s best n Hwf Hb) as (s1&Hr'&Hw&_). rewrite Hrev in Hr'. by injection Hr' as <-.
  - split; [destruct Hwf as [? ?]; by constructor|]. exact Hs.
Qed.

(** [KeyValueDB::iter_from_prefix] gives the entries with the prefix first. *)
Definition prefix_iterator (iter : gmap bytes bytes → bytes → list (bytes * bytes)) : Prop :=
  ∀ db p, ∃ l rest, iter db p = l ++ rest ∧ l ≡ₚ filter (λ e, starts_with p e.1 = true) (map_to_list db) ∧
    match rest with (k, _) :: _ => starts_with p k = false | [] => True end.

Lemma push_leaf_elem n h m (st : gmap Z (list H)) k : k ∈ default [] (push_leaf n h st !! m) ↔ k ∈ default [] (st !! m) ∨ (m = n ∧ k = h).
Proof. apply (insert_leaf_spec (MkLeafSet st [] [])). Qed.

Lemma read_entries_ok l rest st :
  (∀ k v, (k, v) ∈ l → ∃ h n, k = leaf_key h ∧ v = encode n) →
  match rest with (k, _) :: _ => starts_with prefix k = false | [] => True end →
  ∃ st', read_entries prefix (l ++ rest) st = Ok st' ∧
    ∀ m k, k ∈ default [] (st' !! m) ↔ k ∈ default [] (st !! m) ∨ (leaf_key k, encode m) ∈ l.
Proof.
  revert st. induction l as [|[key v] l IH]; intros st Hl Hrest.
  - exists st. split; [destruct rest as [|[key v] rest]; cbn; [done|by rewrite Hrest]|]. set_solver.
  - destruct (Hl key v (list_elem_of_here _ _)) as (h&n&->&->). cbn [app read_entries]. unfold leaf_key at 1 2.
    rewrite starts_with_app, drop_app_length, !decode_encode. cbn [ok_or mbind result_bind].
    destruct (IH (push_leaf n h st)) as (st'&->&Hst'); [intros; apply Hl; by right|done|].
    exists st'. split; [done|]. intros m k. rewrite Hst', push_leaf_elem, elem_of_cons. split.
    + intros [[?|[-> ->]]|?]; auto.
    + intros [?|[[= ->%leaf_key_inj ->%encode_inj]|?]]; auto.
Qed.

Lemma leaves_read_ok iter s db :
  prefix_iterator iter → synced s db →
  ∃ s', read_from_db iter (flushed s db) prefix = Ok s' ∧ pending_added s' = [] ∧ pending_removed s' = [] ∧
    ∀ n h, is_leaf s' n h ↔ is_leaf s n h.
Proof.
  intros Hiter Hs. destruct (Hiter (flushed s db) prefix) as (l&rest&El&Hl&Hrest).
  assert (∀ k v, (k, v) ∈ l ↔ starts_with prefix k = true ∧ flushed s db !! k = Some v) as Hin.
  { intros k v. by rewrite Hl, list_elem_of_filter, elem_of_map_to_list. }
  destruct (read_entries_ok l rest ∅) as (st&Hst&Hlf); [|done|].
  { intros k v [Hk Hv]%Hin. apply (Hs k v Hk) in Hv. naive_solver. }
  exists (MkLeafSet st [] []). unfold read_from_db. rewrite El, Hst. split_and!; [done..|].
  intros n h. change (is_leaf (MkLeafSet st [] []) n h) with (h ∈ default [] (st !! n)). rewrite Hlf, lookup_empty, Hin. cbn.
  unfold leaf_key at 1. rewrite starts_with_app. split.
  - intros [?%not_elem_of_nil|[_ (h'&n'&<-%leaf_key_inj&->%encode_inj&?)%Hs]]; [done|done|apply starts_with_app].
  - intros ?. right. split; [done|]. apply Hs; [apply starts_with_app|eauto].
Qed.

End database.

(** ** Theorems *)

(** C20. The leaves on disk are the leaves in memory: along a history of imports,
    finalizations, reverts and writes to the database, reading the set back once
    the pending changes are written succeeds and gives the same leaves with
    nothing pending, whatever else the database holds.  In memory every leaf is
    listed once, under one number, from the highest number down.  The history is
    one in which a block that ceased to be a leaf does not become one again
    before the next write: the removals are written last, and the leaf would be
    lost ([write_loses_leaf]).  The client writes after every import and every
    revert.  An imported block is not a leaf already nor its own parent, and a
    revert to a leaf names its number. *)
Theorem leaves_restart prefix iter s db :
  prefix_iterator iter → reach prefix s db →
  (∃ s', read_from_db iter (flushed prefix s db) prefix = Ok s' ∧ pending_added s' = [] ∧ pending_removed s' = [] ∧
     ∀ n h, is_leaf s' n h ↔ is_leaf s n h) ∧
  NoDup (leaf_hashes s) ∧ (∀ h, h ∈ leaf_hashes s ↔ ∃ n, is_leaf s n h) ∧
  ∀ i j h k n m, (i < j)%nat → leaf_hashes s !! i = Some h → leaf_hashes s !! j = Some k → is_leaf s n h → is_leaf s m k → m ≤ n.
Proof.
  intros Hiter [Hwf Hs]%reach_ok. destruct (leaf_hashes_ok s Hwf) as [Hnd Hord]. split; [by apply leaves_read_ok|].
  split_and!; [done|apply leaf_hashes_elem|done].
Qed.

(** A block, its number and its parent. *)
Definition import_all (bs : list (H * Z * H)) : Leafs := foldl (λ s b, (leaf_import s b.1.1 b.1.2 b.2).1) leaves_new bs.

(** The blocks are imported once each, after their parents, whose numbers they
    continue. *)
Definition chain_ok (bs : list (H * Z * H)) : Prop :=
  NoDup ((λ b, b.1.1) <$> bs) ∧
  ∀ i j h n p h' n' p', bs !! i = Some (h, n, p) → bs !! j = Some (h', n', p') → n' ≠ 0 → p' = h → (i < j)%nat ∧ n' = n + 1.

Lemma chain_ok_init bs b : chain_ok (bs ++ [b]) → chain_ok bs ∧
  (∀ h n p, (h, n, p) ∈ bs → h ≠ b.1.1 ∧ (n ≠ 0 → p ≠ b.1.1) ∧ (b.1.2 ≠ 0 → b.2 = h → b.1.2 = n + 1)) ∧ (b.1.2 ≠ 0 → b.2 ≠ b.1.1).
Proof.
  intros [Hnd Hc]. rewrite fmap_app in Hnd. apply NoDup_app in Hnd as (Hnd&Hx&_). destruct b as [[hb nb] pb]. cbn in *.
  assert ((bs ++ [(hb, nb, pb)]) !! length bs = Some (hb, nb, pb)) as Hb by (by rewrite lookup_app_r, Nat.sub_diag).
  split_and!.
  - split; [done|]. intros i j h n p h' n' p' Hi Hj. apply (Hc i j h n p h' n' p'); by apply lookup_app_l_Some.
  - intros h n p Hin. apply list_elem_of_lookup in Hin as [i Hi]. pose proof (lookup_lt_Some _ _ _ Hi).
    assert ((bs ++ [(hb, nb, pb)]) !! i = Some (h, n, p)) as Hi' by (by apply lookup_app_l_Some). split_and!.
    + intros ->. apply (Hx hb); [|by left]. apply list_elem_of_fmap. exists (hb, n, p). split; [done|by eapply list_elem_of_lookup_2].
    + intros Hn ->. destruct (Hc _ _ _ _ _ _ _ _ Hb Hi' Hn eq_refl). lia.
    + intros Hn ->. by destruct (Hc _ _ _ _ _ _ _ _ Hi' Hb Hn eq_refl).
  - intros Hn ->. destruct (Hc _ _ _ _ _ _ _ _ Hb Hb Hn eq_refl). lia.
Qed.

Lemma import_all_ok bs : chain_ok bs →
  ∀ n h, is_leaf (import_all bs) n h ↔ (∃ p, (h, n, p) ∈ bs) ∧ ∀ h' n' p', (h', n', p') ∈ bs → n' ≠ 0 → p' ≠ h.
Proof.
  induction bs as [|[[hb nb] pb] bs IH] using rev_ind; intros Hc n h.
  { split; [by intros ?%no_leaf|]. set_solver. }
  apply chain_ok_init in Hc as (Hc&Hold&Hb). cbn in Hold, Hb. unfold import_all. rewrite foldl_app. cbn.
  fold (import_all bs). rewrite leaf_import_spec, (IH Hc). setoid_rewrite elem_of_app. setoid_rewrite list_elem_of_singleton. split.
  - intros [[[[p Hp] Hno] Hnd]|[-> ->]].
    + split; [eauto|]. intros h' n' p' [?|[= -> -> ->]] Hn'; [by eapply Hno|]. intros ->.
      destruct (Hold _ _ _ Hp) as (_&_&Hn). specialize (Hn Hn' eq_refl). apply Hnd. split_and!; [done|lia|done].
    + split; [eauto|]. intros h' n' p' [Hin|[= -> -> ->]] Hn'; [|by apply Hb]. by apply (Hold _ _ _ Hin).
  - intros [[p [Hp|[= -> -> ->]]] Hno]; [|by right]. left. split; [split; [eauto|]; intros; eapply Hno; eauto|].
    intros (Hn&->&->). by apply (Hno hb nb pb); [right|done|].
Qed.

(** The leaf set is what its name says: when blocks are imported once each
    and after their parents, its members are exactly the imported blocks that no
    imported block, other than one with the number 0, has as its parent, under
    their numbers. *)
Theorem leaves_have_no_children bs n h :
  chain_ok bs →
  is_leaf (import_all bs) n h ↔ (∃ p, (h, n, p) ∈ bs) ∧ ∀ h' n' p', (h', n', p') ∈ bs → n' ≠ 0 → p' ≠ h.
Proof. intros Hc. by apply import_all_ok. Qed.

(** Undoing a finalization restores the leaves. *)
Lemma undo_finalization_ok s n :
  let '(s', d) := finalize_height s n in storage (undo_finalization s' d) = storage s.
Proof.
  unfold finalize_height. destruct (n =? 0); cbn; [apply (left_id_L ∅ (∪))|apply map_filter_union_complement].
Qed.

End facts.

(** ** Examples *)

Module SmallLeaves.

#[local] Instance nat_codec : Codec nat := {|
  encode n := [Z.of_nat n];
  decode b := match b with [z] => Some (Z.to_nat z) | _ => None end;
  decode_encode n := f_equal Some (Nat2Z.id n);
|}.
#[local] Instance Z_codec : Codec Z := {|
  encode z := [z];
  decode b := match b with [z] => Some z | _ => None end;
  decode_encode z := eq_refl;
|}.

Definition iter (db : gmap bytes bytes) (p : bytes) : list (bytes * bytes) := filter (λ e, starts_with p e.1 = true) (map_to_list db).

Lemma iter_ok : prefix_iterator iter.
Proof. intros db p. exists (iter db p), []. by rewrite app_nil_r. Qed.

(** Two blocks on top of the first; then the second height is finalized. *)
Definition chain : list (nat * Z * nat) := [(1%nat, 0, 0%nat); (2%nat, 1, 1%nat); (3%nat, 1, 1%nat); (4%nat, 2, 2%nat)].
Definition after : LeafSet (H := nat) := (finalize_height (import_all chain) 2).1.

Lemma not_leaf (s : LeafSet (H := nat)) h : bool_decide (h ∈ leaf_hashes s) = false → ∀ m, ¬ is_leaf s m h.
Proof. intros Hh%bool_decide_eq_false m Hl. apply Hh, leaf_hashes_elem. eauto. Qed.

Lemma leaves_restart_witness :
  leaf_hashes after = [4%nat] ∧
  ∃ s', read_from_db iter (flushed [9] after ∅) [9] = Ok s' ∧ leaf_hashes s' = [4%nat].
Proof.
  split; [vm_compute; reflexivity|].
  destruct (leaves_restart [9] iter after ∅) as [(s'&Hs'&_) _].
  - apply iter_ok.
  - unfold after, import_all, chain. apply reach_finalize. cbn [foldl fst snd].
    repeat (apply reach_import; [|apply not_leaf; vm_compute; reflexivity|vm_compute; set_solver|discriminate]).
    by apply reach_new.
  - exists s'. split; [exact Hs'|]. vm_compute in Hs'. injection Hs' as <-. vm_compute. reflexivity.
Defined.

Lemma chain_is_ok : chain_ok chain.
Proof.
  split; [apply NoDup_ListNoDup; repeat constructor; cbn; lia|].
  intros i j h n p h' n' p' Hi Hj Hn ->.
  do 4 (destruct i as [|i]; [cbn in Hi; injection Hi as <- <- <-; do 4 (destruct j as [|j]; [cbn in Hj; simplify_eq; lia|]); done|]). done.
Qed.

Lemma leaves_have_no_children_witness : is_leaf (import_all chain) 1 3%nat ∧ ¬ is_leaf (import_all chain) 1 2%nat.
Proof.
  split.
  - apply (leaves_have_no_children chain 1 3%nat chain_is_ok). split; [exists 1%nat; unfold chain; set_solver|].
    intros h' n' p' Hin. unfold chain in Hin. set_solver.
  - intros Hl. apply (leaves_have_no_children chain 1 2%nat chain_is_ok) in Hl as [_ Hl].
    apply (Hl 4%nat 2 2%nat); [unfold chain; set_solver|done|done].
Defined.

(** Undoing the import of block 2 puts its parent, block 1 with number 0, back as
    a leaf with number 1. *)
Lemma undo_import_wrong_number :
  let s := import_all [(1%nat, 0, 0%nat)] in
  let '(s', d) := leaf_import s 2%nat 1 1%nat in
  match d with Some d => storage (undo_import s' d) = {[1 := [1%nat]]} | None => False end ∧ storage s = {[0 := [1%nat]]}.
Proof. vm_compute. done. Qed.

(** A block that ceases to be a leaf and becomes one again in one transaction is
    not on disk. *)
Lemma write_loses_leaf :
  let s0 := undo_drop (import_all [(1%nat, 0, 0%nat)]) in
  let s1 := (leaf_import s0 2%nat 1 1%nat).1 in
  match revert s1 1%nat 0 with
  | Ok s2 => leaf_hashes s2 = [1%nat] ∧ flushed [9] s2 {[ [9; 1] := [0] ]} = ∅
  | _ => False
  end.
Proof. vm_compute. done. Qed.

End SmallLeaves.
