(* ===== verification/Overlay.v ===== *)
(** * Overlayed changes to the state (src/primitives/state-machine/src/overlayed_changes.rs)

    The changes that the execution of a block makes to the state, on top of a
    backend: a prospective set that can be discarded or committed, and a committed
    set.  Keys and values are byte strings; the identifier of a child trie is a
    byte string ([ChildInfo::Default]), and a debug assertion is a panic.  A
    [BTreeMap] is walked in the lexicographic order of the keys. *)
From stdpp Require Import strings.
From S2P Require Import Prelude StateDbBase.

Local Open Scope Z_scope.
Local Open Scope list_scope.

(** ** Keys in lexicographic order *)

Fixpoint key_ltb (a b : bytes) : bool :=
  match a, b with
  | _, [] => false
  | [], _ :: _ => true
  | x :: a', y :: b' => (x <? y) || (x =? y) && key_ltb a' b'
  end.

(** The entries of a [BTreeMap], in order. *)
Definition rising {V} (m : gmap bytes V) : list (bytes * V) := sort_by (λ a b, negb (key_ltb b.1 a.1)) (map_to_list m).

(** [map.range((Bound::Excluded(key), Bound::Unbounded)).next()] *)
Definition next_entry {V} (m : gmap bytes V) (key : bytes) : option (bytes * V) :=
  head (filter (λ e, key_ltb key e.1 = true) (rising m)).

(** ** Data *)

Record OverlayedValue : Type := MkValue { value : option bytes; extrinsics : option (gset Z) }.

Definition default_value : OverlayedValue := MkValue None None.

(** Changes of the top trie, and of the child tries with their identifiers. *)
Record OverlayedChangeSet : Type := MkOverlaySet {
  top : gmap bytes OverlayedValue;
  children : gmap bytes (gmap bytes OverlayedValue * bytes);
}.

Record OverlayedChanges : Type := MkChanges {
  prospective : OverlayedChangeSet;
  committed : OverlayedChangeSet;
  collect_extrinsics : bool;
}.

Definition EXTRINSIC_INDEX : bytes := byte_string ":extrinsic_index".
Definition NO_EXTRINSIC_INDEX : Z := 0xffffffff.

Definition empty_set : OverlayedChangeSet := MkOverlaySet ∅ ∅.
Definition overlay_new : OverlayedChanges := MkChanges empty_set empty_set false.

Definition set_is_empty (c : OverlayedChangeSet) : bool := bool_decide (top c = ∅) && bool_decide (children c = ∅).
Definition overlay_is_empty (o : OverlayedChanges) : bool := set_is_empty (prospective o) && set_is_empty (committed o).

Definition with_prospective (o : OverlayedChanges) (p : OverlayedChangeSet) : OverlayedChanges :=
  MkChanges p (committed o) (collect_extrinsics o).

Definition set_collect_extrinsics (o : OverlayedChanges) (b : bool) : OverlayedChanges := MkChanges (prospective o) (committed o) b.

Section overlay.
(** The codec of [u32]. *)
Context `{!Codec Z}.

(** ** Reads *)

(** [None] refers to the backend, [Some None] is a deleted key. *)
Definition overlay_storage (o : OverlayedChanges) (key : bytes) : option (option bytes) :=
  match top (prospective o) !! key with
  | Some v => Some (value v)
  | None => value <$> top (committed o) !! key
  end.

Definition overlay_child_storage (o : OverlayedChanges) (storage_key key : bytes) : option (option bytes) :=
  match children (prospective o) !! storage_key ≫= λ c, c.1 !! key with
  | Some v => Some (value v)
  | None => value <$> (children (committed o) !! storage_key ≫= λ c, c.1 !! key)
  end.

Definition extrinsic_index (o : OverlayedChanges) : option Z :=
  if collect_extrinsics o then
    Some (default NO_EXTRINSIC_INDEX (v ← overlay_storage o EXTRINSIC_INDEX; idx ← v; decode idx))
  else None.

Definition overlay_child_info (o : OverlayedChanges) (storage_key : bytes) : option bytes :=
  match children (prospective o) !! storage_key with
  | Some c => Some c.2
  | None => snd <$> children (committed o) !! storage_key
  end.

(** The next change of two sets; the prospective one wins on the same key. *)
Definition next_change {V} (next_committed next_prospective : option (bytes * V)) : option (bytes * V) :=
  match next_committed, next_prospective with
  | Some c, Some p => if key_ltb c.1 p.1 then Some c else Some p
  | c, None => c
  | None, p => p
  end.

Definition next_storage_key_change (o : OverlayedChanges) (key : bytes) : option (bytes * OverlayedValue) :=
  next_change (next_entry (top (committed o)) key) (next_entry (top (prospective o)) key).

Definition next_child_storage_key_change (o : OverlayedChanges) (storage_key key : bytes) : option (bytes * OverlayedValue) :=
  next_change (children (committed o) !! storage_key ≫= λ c, next_entry c.1 key)
              (children (prospective o) !! storage_key ≫= λ c, next_entry c.1 key).

(** ** Writes *)

(** [entry.extrinsics.get_or_insert_with(Default::default).insert(extrinsic)] *)
Definition note_extrinsic (idx : option Z) (e : option (gset Z)) : option (gset Z) :=
  match idx with Some i => Some ({[i]} ∪ default ∅ e) | None => e end.

Definition set_value (idx : option Z) (val : option bytes) (entry : option OverlayedValue) : OverlayedValue :=
  MkValue val (note_extrinsic idx (extrinsics (default default_value entry))).

Definition set_storage (o : OverlayedChanges) (key : bytes) (val : option bytes) : OverlayedChanges :=
  let p := prospective o in
  with_prospective o (MkOverlaySet (<[key := set_value (extrinsic_index o) val (top p !! key)]> (top p)) (children p)).

(** The entry of a child trie, with the identifier it was created with, which has
    to be the given one. *)
Definition child_entry (o : OverlayedChanges) (storage_key child_info : bytes) : run (gmap bytes OverlayedValue * bytes) :=
  let e := default (∅, child_info) (children (prospective o) !! storage_key) in
  if bool_decide (e.2 = child_info) then Ok e else Panic.

Definition put_child (o : OverlayedChanges) (storage_key : bytes) (e : gmap bytes OverlayedValue * bytes) : OverlayedChanges :=
  with_prospective o (MkOverlaySet (top (prospective o)) (<[storage_key := e]> (children (prospective o)))).

Definition set_child_storage (o : OverlayedChanges) (storage_key child_info key : bytes) (val : option bytes) : run OverlayedChanges :=
  e ← child_entry o storage_key child_info;
  Ok (put_child o storage_key (<[key := set_value (extrinsic_index o) val (e.1 !! key)]> e.1, e.2)).

(** Deletes the changed keys of the trie, and those that are only committed. *)
Definition clear_child_storage (o : OverlayedChanges) (storage_key child_info : bytes) : run OverlayedChanges :=
  let idx := extrinsic_index o in
  e ← child_entry o storage_key child_info;
  let cleared := (λ v, set_value idx None (Some v)) <$> e.1 in
  let added := default ∅ (fst <$> children (committed o) !! storage_key) in
  let of_committed v := MkValue None ((λ i, {[i]} ∪ default ∅ (extrinsics v)) <$> idx) in
  Ok (put_child o storage_key (cleared ∪ (of_committed <$> added), e.2)).

(** The two loops of [clear_prefix] on a prospective and a committed map. *)
Definition clear_matching (idx : option Z) (prefix : bytes) (p c : gmap bytes OverlayedValue) : gmap bytes OverlayedValue :=
  let p1 := map_imap (λ k v, Some (if starts_with prefix k then set_value idx None (Some v) else v)) p in
  merge (λ pv cv, match cv with Some _ => Some (set_value idx None pv) | None => pv end)
    p1 (filter (λ e, starts_with prefix e.1 = true) c).

Definition overlay_clear_prefix (o : OverlayedChanges) (prefix : bytes) : OverlayedChanges :=
  let p := prospective o in
  with_prospective o (MkOverlaySet (clear_matching (extrinsic_index o) prefix (top p) (top (committed o))) (children p)).

Definition overlay_clear_child_prefix (o : OverlayedChanges) (storage_key child_info prefix : bytes) : run OverlayedChanges :=
  e ← child_entry o storage_key child_info;
  let c := default ∅ (fst <$> children (committed o) !! storage_key) in
  Ok (put_child o storage_key (clear_matching (extrinsic_index o) prefix e.1 c, e.2)).

Definition discard_prospective (o : OverlayedChanges) : OverlayedChanges := with_prospective o empty_set.

(** The prospective changes of a map on top of the committed ones. *)
Definition commit_map (p c : gmap bytes OverlayedValue) : gmap bytes OverlayedValue :=
  merge (λ pv cv,
    match pv with
    | Some v =>
        let entry := default default_value cv in
        Some (MkValue (value v)
                match extrinsics v with
                | Some x => Some (default ∅ (extrinsics entry) ∪ x)
                | None => extrinsics entry
                end)
    | None => cv
    end) p c.

Definition commit_prospective (o : OverlayedChanges) : OverlayedChanges :=
  let p := prospective o in
  let c := committed o in
  if set_is_empty c then MkChanges c p (collect_extrinsics o)
  else
    MkChanges empty_set
      (MkOverlaySet (commit_map (top p) (top c))
        (merge (λ pe ce,
           match pe with
           | Some e => let content := default (∅, e.2) ce in Some (commit_map e.1 content.1, content.2)
           | None => ce
           end) (children p) (children c)))
      (collect_extrinsics o).

(** The order in which a hash map of child tries is walked. *)
Context (order : ∀ V, gmap bytes V → list (bytes * V)).

(** The committed changes, which are taken out. *)
Definition drain_committed (o : OverlayedChanges) :
    run (list (bytes * option bytes) * list (bytes * (list (bytes * option bytes) * bytes)) * OverlayedChanges) :=
  if set_is_empty (prospective o) then
    let values m := prod_map id value <$> rising m in
    Ok (values (top (committed o)),
        (λ e, (e.1, (values e.2.1, e.2.2))) <$> order _ (children (committed o)),
        MkChanges (prospective o) empty_set (collect_extrinsics o))
  else Panic.

(** What [storage_root] hands to the backend: the changes of the top trie and of
    the child tries, the committed ones first. *)
Definition changes (m : gmap bytes OverlayedValue) : list (bytes * option bytes) := prod_map id value <$> rising m.

Definition top_delta (o : OverlayedChanges) : list (bytes * option bytes) := changes (top (committed o)) ++ changes (top (prospective o)).

Definition child_delta (o : OverlayedChanges) (storage_key : bytes) : list (bytes * option bytes) :=
  changes (default ∅ (fst <$> children (committed o) !! storage_key)) ++
  changes (default ∅ (fst <$> children (prospective o) !! storage_key)).

Definition child_deltas (o : OverlayedChanges) : run (list (bytes * list (bytes * option bytes) * bytes)) :=
  mapM (λ storage_key,
      child_info ← expect (overlay_child_info o storage_key);
      Ok (storage_key, child_delta o storage_key, child_info))
    ((order _ (children (prospective o))).*1 ++ (order _ (children (committed o))).*1).

End overlay.
