(* ===== verification/OverlayFacts.v ===== *)
(** * What the overlayed changes show *)
From stdpp Require Import strings.
From S2P Require Import Prelude StateDbBase Overlay.

Local Open Scope Z_scope.
Local Open Scope list_scope.

(** ** The order of keys *)

Lemma key_ltb_irrefl a : key_ltb a a = false.
Proof. induction a as [|x a IH]; cbn; [done|]. by rewrite Z.ltb_irrefl, Z.eqb_refl. Qed.

Lemma key_ltb_trans a b c : key_ltb a b = true → key_ltb b c = true → key_ltb a c = true.
Proof.
  revert b c. induction a as [|x a IH]; intros [|y b] [|z c]; cbn; try done.
  rewrite !orb_true_iff, !andb_true_iff, !Z.ltb_lt, !Z.eqb_eq.
  intros [?|[-> ?]] [?|[-> ?]]; [left; lia|by left|by left|right; split; [done|by eapply IH]].
Qed.

Lemma key_ltb_total a b : key_ltb a b = false → key_ltb b a = false → a = b.
Proof.
  revert b. induction a as [|x a IH]; intros [|y b]; cbn; try done.
  rewrite !orb_false_iff, !Z.ltb_ge. intros [? H1] [? H2]. assert (x = y) as -> by lia.
  rewrite Z.eqb_refl in *. f_equal. by apply IH.
Qed.

Lemma key_ltb_asym a b : key_ltb a b = true → key_ltb b a = false.
Proof. intros H1. apply not_true_iff_false. intros H2. pose proof (key_ltb_trans _ _ _ H1 H2). by rewrite key_ltb_irrefl in *. Qed.

Section maps.
Context {V : Type}.
Implicit Types m : gmap bytes V.

Lemma rising_elem m k v : (k, v) ∈ rising m ↔ m !! k = Some v.
Proof. unfold rising. rewrite sort_by_perm. apply elem_of_map_to_list. Qed.

Lemma rising_keys m k : k ∈ (rising m).*1 ↔ is_Some (m !! k).
Proof.
  rewrite list_elem_of_fmap. split.
  - intros ([k' v]&->&Hk%rising_elem). eauto.
  - intros [v Hv%rising_elem]. by exists (k, v).
Qed.

Lemma rising_sorted m : StronglySorted (λ a b, key_ltb b.1 a.1 = false) (rising m).
Proof.
  assert (StronglySorted (λ a b, negb (key_ltb b.1 a.1) = true) (rising m)) as Hs.
  { apply sort_by_sorted.
    - intros a b. rewrite negb_false_iff, negb_true_iff. apply key_ltb_asym.
    - intros a b c. rewrite !negb_true_iff. intros H1 H2. apply not_true_iff_false. intros H3.
      destruct (key_ltb b.1 a.1) eqn:E1; [done|]. destruct (key_ltb a.1 b.1) eqn:E2.
      + pose proof (key_ltb_trans _ _ _ H3 E2). congruence.
      + pose proof (key_ltb_total _ _ E2 E1) as E3. congruence. }
  induction Hs as [|a l _ IH Ha]; constructor; [done|]. eapply Forall_impl; [exact Ha|]. cbn. intros b. by apply negb_true_iff.
Qed.

(** The least key above [key] that satisfies [P], if there is one. *)
Definition least_above (P : bytes → Prop) (key : bytes) (o : option bytes) : Prop :=
  match o with
  | Some k => P k ∧ key_ltb key k = true ∧ ∀ k', P k' → key_ltb key k' = true → key_ltb k' k = false
  | None => ∀ k, P k → key_ltb key k = false
  end.

Lemma least_above_unique P key o1 o2 : least_above P key o1 → least_above P key o2 → o1 = o2.
Proof.
  destruct o1 as [k1|], o2 as [k2|]; cbn; [|naive_solver congruence..].
  intros (H1&L1&M1) (H2&L2&M2). f_equal. apply key_ltb_total; eauto.
Qed.

Lemma least_above_ext P Q key o : (∀ k, P k ↔ Q k) → least_above P key o ↔ least_above Q key o.
Proof. intros HPQ. destruct o; cbn; by setoid_rewrite HPQ. Qed.

Lemma next_entry_spec m key :
  least_above (λ k, is_Some (m !! k)) key (fst <$> next_entry m key) ∧ ∀ k v, next_entry m key = Some (k, v) → m !! k = Some v.
Proof.
  unfold next_entry. assert (∀ k v, (k, v) ∈ filter (λ e, key_ltb key e.1 = true) (rising m) ↔ key_ltb key k = true ∧ m !! k = Some v) as Hin.
  { intros k v. rewrite list_elem_of_filter, rising_elem. tauto. }
  assert (StronglySorted (λ a b, key_ltb b.1 a.1 = false) (filter (λ e, key_ltb key e.1 = true) (rising m))) as Hs.
  { clear Hin. induction (rising_sorted m) as [|a l _ IH Ha]; [constructor|]. rewrite filter_cons. case_decide; [|done].
    constructor; [done|]. rewrite Forall_forall in *. intros b [_ Hb]%list_elem_of_filter. by apply Ha. }
  destruct (filter _ (rising m)) as [|[k0 v0] l]; cbn.
  - split; [|done]. intros k [v Hv]. apply not_true_iff_false. intros Hk. assert ((k, v) ∈ []) as ?%not_elem_of_nil by (by apply Hin). done.
  - destruct (proj1 (Hin k0 v0) (list_elem_of_here _ _)) as [Hk0 Hv0]. split; [|naive_solver]. split_and!; [eauto|done|].
    intros k [v Hv] Hk. assert ((k, v) ∈ (k0, v0) :: l) as [[= -> ->]|Hl]%elem_of_cons by (by apply Hin); [apply key_ltb_irrefl|].
    inversion Hs as [|?? _ Hf]; subst. rewrite Forall_forall in Hf. by apply (Hf (k, v)).
Qed.

End maps.

(** ** Changes *)

(** The latest change of a key in a prospective and a committed map. *)
Definition look (p c : gmap bytes OverlayedValue) (k : bytes) : option (option bytes) :=
  match p !! k with Some v => Some (value v) | None => value <$> c !! k end.

Lemma look_insert p c idx v x k k' :
  look (<[k := set_value idx v x]> p) c k' = if decide (k' = k) then Some v else look p c k'.
Proof. unfold look. case_decide as Hk; [subst; by rewrite lookup_insert_eq|by rewrite lookup_insert_ne]. Qed.

Lemma look_clear_matching idx prefix p c k :
  look (clear_matching idx prefix p c) c k = if starts_with prefix k then (λ _, None) <$> look p c k else look p c k.
Proof.
  unfold look, clear_matching. rewrite lookup_merge, map_lookup_imap, map_lookup_filter. cbn [fst].
  destruct (p !! k) as [pv|], (c !! k) as [cv|], (starts_with prefix k) eqn:Hp; cbn; rewrite ?Hp; done.
Qed.

Lemma look_clear_all idx p c k (of_committed : OverlayedValue → OverlayedValue) :
  (∀ v, value (of_committed v) = None) →
  look (((λ v, set_value idx None (Some v)) <$> p) ∪ (of_committed <$> c)) c k = (λ _, None) <$> look p c k.
Proof.
  intros Hof. unfold look. rewrite lookup_union, !lookup_fmap. destruct (p !! k) as [pv|], (c !! k) as [cv|]; cbn; rewrite ?Hof; done.
Qed.

Lemma look_commit p c k : look ∅ (commit_map p c) k = look p c k.
Proof. unfold look, commit_map. rewrite lookup_empty, lookup_merge. by destruct (p !! k), (c !! k). Qed.

Lemma look_empty c k : look ∅ c k = value <$> c !! k.
Proof. unfold look. by rewrite lookup_empty. Qed.

(** The changes of a child trie in a set. *)
Definition child_map (c : OverlayedChangeSet) (storage_key : bytes) : gmap bytes OverlayedValue :=
  default ∅ (fst <$> children c !! storage_key).

Lemma overlay_child_storage_look o sk k :
  overlay_child_storage o sk k = look (child_map (prospective o) sk) (child_map (committed o) sk) k.
Proof.
  unfold overlay_child_storage, look, child_map.
  destruct (children (prospective o) !! sk) as [[pm pi]|], (children (committed o) !! sk) as [[cm ci]|]; cbn; rewrite ?lookup_empty; done.
Qed.

Section facts.
Context `{!Codec Z}.
Implicit Types o : OverlayedChanges.

(** A child trie is used with one identifier. *)
Context (cinfo : bytes → bytes).

Definition set_infos (c : OverlayedChangeSet) : Prop := ∀ sk e, children c !! sk = Some e → e.2 = cinfo sk.
Definition infos_ok o : Prop := set_infos (prospective o) ∧ set_infos (committed o).

Lemma overlay_storage_look o k : overlay_storage o k = look (top (prospective o)) (top (committed o)) k.
Proof. done. Qed.

Lemma set_storage_look o key v k :
  overlay_storage (set_storage o key v) k = if decide (k = key) then Some v else overlay_storage o k.
Proof. rewrite !overlay_storage_look. unfold set_storage. cbn. apply look_insert. Qed.

Lemma clear_prefix_look o prefix k :
  overlay_storage (overlay_clear_prefix o prefix) k =
    if starts_with prefix k then (λ _, None) <$> overlay_storage o k else overlay_storage o k.
Proof. rewrite !overlay_storage_look. unfold overlay_clear_prefix. cbn. apply look_clear_matching. Qed.

Lemma child_entry_Ok o sk : infos_ok o → child_entry o sk (cinfo sk) = Ok (child_map (prospective o) sk, cinfo sk).
Proof.
  intros [Hp _]. unfold child_entry, child_map. destruct (children (prospective o) !! sk) as [[m i]|] eqn:E; cbn.
  - apply Hp in E. cbn in E. subst. by rewrite bool_decide_eq_true_2.
  - by rewrite bool_decide_eq_true_2.
Qed.

Lemma put_child_infos o sk m : infos_ok o → infos_ok (put_child o sk (m, cinfo sk)).
Proof. intros [Hp Hc]. split; [|done]. intros sk' e. cbn. intros [[<- <-]|[_ He]]%lookup_insert_Some; [done|by apply Hp]. Qed.

Lemma put_child_map o sk m i sk' : child_map (prospective (put_child o sk (m, i))) sk' = if decide (sk' = sk) then m else child_map (prospective o) sk'.
Proof. unfold child_map. cbn. case_decide as Hk; [subst; by rewrite lookup_insert_eq|by rewrite lookup_insert_ne]. Qed.

(** What an operation on the child trie [sk] does to the changes. *)
Definition child_op o sk (f : bytes → option (option bytes) → option (option bytes)) (o' : OverlayedChanges) : Prop :=
  infos_ok o' ∧ committed o' = committed o ∧ top (prospective o') = top (prospective o) ∧
  (∀ sk', is_Some (children (prospective o') !! sk') ↔ is_Some (children (prospective o) !! sk') ∨ sk' = sk) ∧
  ∀ sk' k, overlay_child_storage o' sk' k = if decide (sk' = sk) then f k (overlay_child_storage o sk k) else overlay_child_storage o sk' k.

Lemma put_child_op o sk m f :
  infos_ok o → (∀ k, look m (child_map (committed o) sk) k = f k (overlay_child_storage o sk k)) →
  child_op o sk f (put_child o sk (m, cinfo sk)).
Proof.
  intros Hi Hf. split; [by apply put_child_infos|]. split_and!; [done..| |].
  - intros sk'. cbn. destruct (decide (sk' = sk)) as [->|]; [rewrite lookup_insert_eq; naive_solver|rewrite lookup_insert_ne by done; naive_solver].
  - intros sk' k. rewrite overlay_child_storage_look, put_child_map. case_decide as Hk; [|by rewrite overlay_child_storage_look].
    subst. apply Hf.
Qed.

Lemma set_child_storage_ok o sk key v :
  infos_ok o → ∃ o', set_child_storage o sk (cinfo sk) key v = Ok o' ∧
    child_op o sk (λ k old, if decide (k = key) then Some v else old) o'.
Proof.
  intros Hi. unfold set_child_storage. rewrite child_entry_Ok by done. cbn. eexists. split; [done|].
  apply put_child_op; [done|]. intros k. rewrite look_insert, overlay_child_storage_look. done.
Qed.

Lemma clear_child_storage_ok o sk :
  infos_ok o → ∃ o', clear_child_storage o sk (cinfo sk) = Ok o' ∧ child_op o sk (λ _ old, (λ _, None) <$> old) o'.
Proof.
  intros Hi. unfold clear_child_storage. rewrite child_entry_Ok by done. cbn. eexists. split; [done|].
  apply put_child_op; [done|]. intros k. rewrite overlay_child_storage_look. by apply look_clear_all.
Qed.

Lemma clear_child_prefix_ok o sk prefix :
  infos_ok o → ∃ o', overlay_clear_child_prefix o sk (cinfo sk) prefix = Ok o' ∧
    child_op o sk (λ k old, if starts_with prefix k then (λ _, None) <$> old else old) o'.
Proof.
  intros Hi. unfold overlay_clear_child_prefix. rewrite child_entry_Ok by done. cbn. eexists. split; [done|].
  apply put_child_op; [done|]. intros k. rewrite overlay_child_storage_look. apply look_clear_matching.
Qed.

(** ** Committing and discarding *)

Lemma set_is_empty_eq c : set_is_empty c = true → c = empty_set.
Proof. unfold set_is_empty. rewrite andb_true_iff, !bool_decide_eq_true. destruct c; cbn. by intros [-> ->]. Qed.

Lemma commit_committed o k : overlay_storage (discard_prospective (commit_prospective o)) k = overlay_storage o k.
Proof.
  rewrite !overlay_storage_look. unfold commit_prospective. destruct (set_is_empty (committed o)) eqn:E; cbn.
  - apply set_is_empty_eq in E. rewrite E. cbn. unfold look. rewrite !lookup_empty. by destruct (top (prospective o) !! k).
  - apply look_commit.
Qed.

Lemma commit_prospective_empty o : prospective (commit_prospective o) = empty_set.
Proof. unfold commit_prospective. destruct (set_is_empty (committed o)) eqn:E; [by apply set_is_empty_eq|done]. Qed.

Lemma commit_discard o : discard_prospective (commit_prospective o) = commit_prospective o.
Proof. unfold discard_prospective, with_prospective. rewrite <- (commit_prospective_empty o). by destruct (commit_prospective o). Qed.

Lemma commit_child_map o sk :
  ∀ k, look ∅ (child_map (committed (commit_prospective o)) sk) k = overlay_child_storage o sk k.
Proof.
  intros k. rewrite overlay_child_storage_look. unfold commit_prospective. destruct (set_is_empty (committed o)) eqn:E; cbn.
  - apply set_is_empty_eq in E. rewrite E. unfold look, child_map at 3. cbn. rewrite !lookup_empty. cbn. rewrite lookup_empty.
    by destruct (child_map _ _ !! k).
  - unfold child_map at 1. cbn. rewrite lookup_merge. unfold child_map.
    destruct (children (prospective o) !! sk) as [[pm pi]|], (children (committed o) !! sk) as [[cm ci]|]; cbn; rewrite ?look_commit, ?look_empty; done.
Qed.

Lemma commit_child_look o sk k : overlay_child_storage (commit_prospective o) sk k = overlay_child_storage o sk k.
Proof.
  rewrite overlay_child_storage_look, commit_prospective_empty. change (child_map empty_set sk) with (∅ : gmap bytes OverlayedValue).
  apply commit_child_map.
Qed.

Lemma commit_look o k : overlay_storage (commit_prospective o) k = overlay_storage o k.
Proof. by rewrite <- (commit_committed o), commit_discard. Qed.

Lemma commit_children o sk :
  is_Some (children (committed (commit_prospective o)) !! sk) ↔
  is_Some (children (prospective o) !! sk) ∨ is_Some (children (committed o) !! sk).
Proof. clear cinfo.
  unfold commit_prospective. destruct (set_is_empty (committed o)) eqn:E; cbn.
  - apply set_is_empty_eq in E. rewrite E. cbn. rewrite lookup_empty. split; [by left|]. intros [?|[? ?]]; done.
  - rewrite lookup_merge. destruct (children (prospective o) !! sk), (children (committed o) !! sk); cbn; naive_solver.
Qed.

Lemma empty_infos : set_infos empty_set.
Proof. intros sk e He. cbn in He. by rewrite lookup_empty in He. Qed.

Lemma commit_infos o : infos_ok o → infos_ok (commit_prospective o).
Proof.
  intros [Hp Hc]. split; [rewrite commit_prospective_empty; apply empty_infos|].
  unfold commit_prospective. destruct (set_is_empty (committed o)); cbn; [done|]. intros sk e. cbn. rewrite lookup_merge.
  destruct (children (prospective o) !! sk) as [pe|] eqn:Ep, (children (committed o) !! sk) as [ce|] eqn:Ec; cbn; intros; simplify_eq; cbn; eauto.
Qed.

Lemma discard_infos o : infos_ok o → infos_ok (discard_prospective o).
Proof. intros [Hp Hc]. split; [|done]. apply empty_infos. Qed.

End facts.
