(* ===== verification/Externalities.v ===== *)
(** * Externalities: the state as the runtime sees it

    - [Backend] (src/primitives/state-machine/src/backend.rs): what a state backend
      offers, with the law that it is a store; [InMemory]
      (in_memory_backend.rs there) is one.
    - [Ext] (ext.rs there): the overlayed changes on top of a backend, with a cache
      of the storage root.
    - [BasicExternalities] (basic.rs there): the same interface on plain maps.

    The root of a trie is a parameter, a function of its contents.  The fields and
    methods for the changes trie are left out, and so is tracing. *)
From stdpp Require Import strings.
From S2P Require Import Prelude StateDbBase Overlay.

Local Open Scope Z_scope.
Local Open Scope list_scope.

Definition CHILD_STORAGE_KEY_PREFIX : bytes := byte_string ":child_storage:".
Definition is_child_storage_key (key : bytes) : bool := starts_with CHILD_STORAGE_KEY_PREFIX key.
Definition is_child_trie_key_valid (storage_key : bytes) : bool := starts_with (byte_string ":child_storage:default:") storage_key.

(** A key with its new value, or with [None] when it is deleted. *)
Abbreviation delta := (list (bytes * option bytes)).

(** [.expect(EXT_NOT_ALLOWED_TO_FAIL)] *)
Definition expect_ok {E A} (m : result E A) : run A := match m with Ok a => Ok a | _ => Panic end.

(** ** Backends *)

Section backend.
Context {E Out Tx : Type}.

(** The callback methods give the list of the keys they call back with. *)
Record Backend : Type := MkBackend {
  be_storage : bytes → result E (option bytes);
  be_child_storage : bytes → bytes → bytes → result E (option bytes);
  be_exists_storage : bytes → result E bool;
  be_exists_child_storage : bytes → bytes → bytes → result E bool;
  be_next_storage_key : bytes → result E (option bytes);
  be_next_child_storage_key : bytes → bytes → bytes → result E (option bytes);
  be_keys_in_child_storage : bytes → bytes → list bytes;
  be_keys_with_prefix : bytes → list bytes;
  be_child_keys_with_prefix : bytes → bytes → bytes → list bytes;
  be_storage_root : delta → Out * Tx;
  be_child_storage_root : bytes → bytes → delta → Out * bool * Tx;
}.

(** [Default] and [Consolidate] of transactions. *)
Context (tx_default : Tx) (consolidate : Tx → Tx → Tx) `{!Codec Out}.

(** The child tries first; their roots are changes of the top trie. *)
Definition full_storage_root (b : Backend) (d : delta) (child_deltas : list (bytes * delta * bytes)) : Out * Tx :=
  let '(txs, child_roots) := foldl (λ '(txs, child_roots) '(storage_key, child_delta, child_info),
      let '(child_root, empty, child_txs) := be_child_storage_root b storage_key child_info child_delta in
      (consolidate txs child_txs,
       child_roots ++ [(storage_key, if (empty : bool) then None else Some (encode child_root))]))
    (tx_default, []) child_deltas in
  let '(root, parent_txs) := be_storage_root b (d ++ child_roots) in
  (root, consolidate txs parent_txs).

(** ** The externalities over a backend *)

Context (hash : bytes → Out) (default_child_root : bytes → Out) `{!Codec Z}.
Context (order : ∀ V, gmap bytes V → list (bytes * V)).

Record StorageTransactionCache : Type := MkCache {
  transaction : option Tx;
  transaction_storage_root : option Out;
}.

Definition cache_new : StorageTransactionCache := MkCache None None.

Record Ext : Type := MkExt {
  overlay : OverlayedChanges;
  backend : Backend;
  storage_transaction_cache : StorageTransactionCache;
}.

Definition mark_dirty (x : Ext) : Ext := MkExt (overlay x) (backend x) cache_new.

Definition with_overlay (x : Ext) (o : OverlayedChanges) : Ext := MkExt o (backend x) (storage_transaction_cache x).

Definition ext_storage (x : Ext) (key : bytes) : run (option bytes) :=
  match overlay_storage (overlay x) key with
  | Some v => Ok v
  | None => expect_ok (be_storage (backend x) key)
  end.

(** [Backend::storage_hash] is the hash of the stored value. *)
Definition be_storage_hash (b : Backend) (key : bytes) : result E (option Out) := fmap (M := result E) (fmap (M := option) hash) (be_storage b key).
Definition be_child_storage_hash (b : Backend) (storage_key child_info key : bytes) : result E (option Out) :=
  fmap (M := result E) (fmap (M := option) hash) (be_child_storage b storage_key child_info key).

Definition ext_storage_hash (x : Ext) (key : bytes) : run (option bytes) :=
  r ← match overlay_storage (overlay x) key with
      | Some v => Ok (hash <$> v)
      | None => expect_ok (be_storage_hash (backend x) key)
      end;
  Ok (encode <$> (r : option Out)).

Definition ext_original_storage (x : Ext) (key : bytes) : run (option bytes) := expect_ok (be_storage (backend x) key).

Definition ext_original_storage_hash (x : Ext) (key : bytes) : run (option bytes) :=
  r ← expect_ok (be_storage_hash (backend x) key); Ok (encode <$> (r : option Out)).

Definition ext_child_storage (x : Ext) (storage_key child_info key : bytes) : run (option bytes) :=
  match overlay_child_storage (overlay x) storage_key key with
  | Some v => Ok v
  | None => expect_ok (be_child_storage (backend x) storage_key child_info key)
  end.

Definition ext_child_storage_hash (x : Ext) (storage_key child_info key : bytes) : run (option bytes) :=
  r ← match overlay_child_storage (overlay x) storage_key key with
      | Some v => Ok (hash <$> v)
      | None => expect_ok (be_child_storage_hash (backend x) storage_key child_info key)
      end;
  Ok (encode <$> (r : option Out)).

Definition ext_original_child_storage (x : Ext) (storage_key child_info key : bytes) : run (option bytes) :=
  expect_ok (be_child_storage (backend x) storage_key child_info key).

Definition ext_original_child_storage_hash (x : Ext) (storage_key child_info key : bytes) : run (option bytes) :=
  r ← expect_ok (be_child_storage_hash (backend x) storage_key child_info key); Ok (encode <$> (r : option Out)).

Definition ext_exists_storage (x : Ext) (key : bytes) : run bool :=
  match overlay_storage (overlay x) key with
  | Some v => Ok (bool_decide (is_Some v))
  | None => expect_ok (be_exists_storage (backend x) key)
  end.

Definition ext_exists_child_storage (x : Ext) (storage_key child_info key : bytes) : run bool :=
  match overlay_child_storage (overlay x) storage_key key with
  | Some v => Ok (bool_decide (is_Some v))
  | None => expect_ok (be_exists_child_storage (backend x) storage_key child_info key)
  end.

(** The recursion of [next_storage_key] and [next_child_storage_key] skips deleted
    keys; [None] is running out of fuel. *)
Fixpoint next_key_loop (fuel : nat) (backend_next : bytes → result E (option bytes))
    (overlay_next : bytes → option (bytes * OverlayedValue)) (key : bytes) : option (run (option bytes)) :=
  match fuel with
  | O => None
  | S fuel' =>
      match expect_ok (backend_next key) with
      | Ok next_backend_key =>
          match next_backend_key, overlay_next key with
          | b, None => Some (Ok b)
          | b, Some o =>
              if match b with Some b => key_ltb b o.1 | None => false end then Some (Ok b)
              else match value o.2 with
                   | Some _ => Some (Ok (Some o.1))
                   | None => next_key_loop fuel' backend_next overlay_next o.1
                   end
          end
      | Err e => Some (Err e)
      | Panic => Some Panic
      end
  end.

(** Each round moves on to a later changed key. *)
Definition ext_next_storage_key (x : Ext) (key : bytes) : option (run (option bytes)) :=
  let o := overlay x in
  next_key_loop (S (size (top (prospective o)) + size (top (committed o))))
    (be_next_storage_key (backend x)) (next_storage_key_change o) key.

Definition child_changes (c : OverlayedChangeSet) (storage_key : bytes) : gmap bytes OverlayedValue :=
  default ∅ (fst <$> children c !! storage_key).

Definition ext_next_child_storage_key (x : Ext) (storage_key child_info key : bytes) : option (run (option bytes)) :=
  let o := overlay x in
  next_key_loop (S (size (child_changes (prospective o) storage_key) + size (child_changes (committed o) storage_key)))
    (be_next_child_storage_key (backend x) storage_key child_info) (next_child_storage_key_change o storage_key) key.

Definition ext_place_storage (x : Ext) (key : bytes) (v : option bytes) : Ext :=
  if is_child_storage_key key then x
  else with_overlay (mark_dirty x) (set_storage (overlay x) key v).

Definition ext_place_child_storage (x : Ext) (storage_key child_info key : bytes) (v : option bytes) : run Ext :=
  o ← set_child_storage (overlay x) storage_key child_info key v;
  Ok (with_overlay (mark_dirty x) o).

(** The callback of [kill_child_storage] and [clear_child_prefix]. *)
Definition delete_child_key (storage_key child_info : bytes) (o : OverlayedChanges) (key : bytes) : run OverlayedChanges :=
  set_child_storage o storage_key child_info key None.

Definition ext_kill_child_storage (x : Ext) (storage_key child_info : bytes) : run Ext :=
  o ← clear_child_storage (overlay x) storage_key child_info;
  o ← foldl_m (delete_child_key storage_key child_info) o (be_keys_in_child_storage (backend x) storage_key child_info);
  Ok (with_overlay (mark_dirty x) o).

Definition ext_clear_prefix (x : Ext) (prefix : bytes) : Ext :=
  if is_child_storage_key prefix then x
  else
    let o := overlay_clear_prefix (overlay x) prefix in
    with_overlay (mark_dirty x) (foldl (λ o key, set_storage o key None) o (be_keys_with_prefix (backend x) prefix)).

Definition ext_clear_child_prefix (x : Ext) (storage_key child_info prefix : bytes) : run Ext :=
  o ← overlay_clear_child_prefix (overlay x) storage_key child_info prefix;
  o ← foldl_m (delete_child_key storage_key child_info) o (be_child_keys_with_prefix (backend x) storage_key child_info prefix);
  Ok (with_overlay (mark_dirty x) o).

(** [OverlayedChanges::storage_root] *)
Definition overlay_storage_root (o : OverlayedChanges) (b : Backend) : run (Out * StorageTransactionCache) :=
  child_deltas ← child_deltas order o;
  let '(root, tx) := full_storage_root b (top_delta o) child_deltas in
  Ok (root, MkCache (Some tx) (Some root)).

Definition ext_storage_root (x : Ext) : run (bytes * Ext) :=
  match transaction_storage_root (storage_transaction_cache x) with
  | Some root => Ok (encode root, x)
  | None =>
      '(root, cache) ← overlay_storage_root (overlay x) (backend x);
      Ok (encode root, MkExt (overlay x) (backend x) cache)
  end.

Definition stored_child_root (x : Ext) (storage_key : bytes) : run bytes :=
  k ← ext_storage x storage_key;
  Ok (encode (default (default_child_root storage_key) (k ≫= decode))).

Definition ext_child_storage_root (x : Ext) (storage_key : bytes) : run (bytes * Ext) :=
  match transaction_storage_root (storage_transaction_cache x) with
  | Some _ => root ← stored_child_root x storage_key; Ok (root, x)
  | None =>
      match overlay_child_info (overlay x) storage_key with
      | Some child_info =>
          let '(root, is_empty, _) := be_child_storage_root (backend x) storage_key child_info (child_delta (overlay x) storage_key) in
          let root := encode root in
          Ok (root, with_overlay x (set_storage (overlay x) storage_key (if (is_empty : bool) then None else Some root)))
      | None => root ← stored_child_root x storage_key; Ok (root, x)
      end
  end.

(** What is to be written when the block is done: the changes of the top trie and
    of the child tries, the transaction and the root. *)
Record StorageChanges : Type := MkStorageChanges {
  main_storage_changes : delta;
  child_storage_changes : list (bytes * delta);
  sc_transaction : Tx;
  sc_transaction_storage_root : Out;
}.

Definition drain_storage_changes (o : OverlayedChanges) (b : Backend) (cache : StorageTransactionCache) :
    run (StorageChanges * OverlayedChanges * StorageTransactionCache) :=
  cache ← match transaction cache with
          | None => '(_, cache) ← overlay_storage_root o b; Ok cache
          | Some _ => Ok cache
          end;
  tx ← expect (transaction cache);
  root ← expect (transaction_storage_root cache);
  '(main, child, o') ← drain_committed order o;
  Ok (MkStorageChanges main ((λ e, (e.1, e.2.1)) <$> child) tx root, o', cache_new).

End backend.
Arguments Backend : clear implicits.
Arguments Ext : clear implicits.
Arguments StorageTransactionCache : clear implicits.
Arguments StorageChanges : clear implicits.

(** ** The backend in memory *)

Section in_memory.
Context {Out : Type} `{!EqDecision Out} (hash : bytes → Out).
(** The roots of a trie and of a child trie with the given contents. *)
Context (trie_root : gmap bytes bytes → Out) (child_trie_root : bytes → gmap bytes bytes → Out).

Definition default_child_trie_root (storage_key : bytes) : Out := child_trie_root storage_key ∅.

Abbreviation InMemory := (gmap (option (bytes * bytes)) (gmap bytes bytes)).
Abbreviation InMemoryTx := (list (option (bytes * bytes) * delta)).

Definition apply_change (m : gmap bytes bytes) (e : bytes * option bytes) : gmap bytes bytes :=
  match e.2 with Some v => <[e.1 := v]> m | None => delete e.1 m end.

Definition apply_delta (d : delta) (m : gmap bytes bytes) : gmap bytes bytes := foldl apply_change m d.

Definition update (inner : InMemory) (changes : InMemoryTx) : InMemory :=
  foldl (λ inner c, <[c.1 := apply_delta c.2 (default ∅ (inner !! c.1))]> inner) inner changes.

Definition map_of (inner : InMemory) (t : option (bytes * bytes)) : gmap bytes bytes := default ∅ (inner !! t).

(** The value of a key after changes, the last one counting. *)
Definition collected (inner : InMemory) (t : option (bytes * bytes)) (d : delta) : gmap bytes bytes :=
  omap id (foldl (λ m e, <[e.1 := e.2]> m) (Some <$> map_of inner t) d).

Definition in_memory (inner : InMemory) : Backend Empty_set Out InMemoryTx := {|
  be_storage key := Ok (inner !! None ≫= λ m, m !! key);
  be_child_storage storage_key child_info key := Ok (inner !! Some (storage_key, child_info) ≫= λ m, m !! key);
  be_exists_storage key := Ok (default false ((λ m : gmap bytes bytes, bool_decide (is_Some (m !! key))) <$> inner !! None));
  be_exists_child_storage storage_key child_info key := Ok (bool_decide (is_Some (inner !! Some (storage_key, child_info) ≫= λ m, m !! key)));
  be_next_storage_key key := Ok (fst <$> (inner !! None ≫= λ m, next_entry m key));
  be_next_child_storage_key storage_key child_info key := Ok (fst <$> (inner !! Some (storage_key, child_info) ≫= λ m, next_entry m key));
  be_keys_in_child_storage storage_key child_info := (rising (map_of inner (Some (storage_key, child_info)))).*1;
  be_keys_with_prefix prefix := filter (λ k, starts_with prefix k = true) (rising (map_of inner None)).*1;
  be_child_keys_with_prefix storage_key child_info prefix :=
    filter (λ k, starts_with prefix k = true) (rising (map_of inner (Some (storage_key, child_info)))).*1;
  be_storage_root d := (trie_root (collected inner None d), [(None, d)]);
  be_child_storage_root storage_key child_info d :=
    let root := child_trie_root storage_key (collected inner (Some (storage_key, child_info)) d) in
    (root, bool_decide (root = default_child_trie_root storage_key), [(Some (storage_key, child_info), d)]);
|}.

Definition in_memory_pairs (inner : InMemory) : list (bytes * bytes) := rising (map_of inner None).

(** ** The basic externalities *)

Record Storage : Type := MkStorage {
  s_top : gmap bytes bytes;
  s_children : gmap bytes (gmap bytes bytes * bytes);
}.

Definition child_data (s : Storage) (storage_key : bytes) : gmap bytes bytes := default ∅ (fst <$> s_children s !! storage_key).

Definition basic_storage (s : Storage) (key : bytes) : option bytes := s_top s !! key.
Definition basic_child_storage (s : Storage) (storage_key key : bytes) : option bytes :=
  s_children s !! storage_key ≫= λ c, c.1 !! key.

Definition basic_next_storage_key (s : Storage) (key : bytes) : option bytes := fst <$> next_entry (s_top s) key.
Definition basic_next_child_storage_key (s : Storage) (storage_key key : bytes) : option bytes :=
  s_children s !! storage_key ≫= λ c, fst <$> next_entry c.1 key.

Definition basic_place_storage (s : Storage) (key : bytes) (v : option bytes) : Storage :=
  if is_child_storage_key key then s
  else MkStorage (apply_change (s_top s) (key, v)) (s_children s).

Definition basic_place_child_storage (s : Storage) (storage_key child_info key : bytes) (v : option bytes) : Storage :=
  let child_map := default (∅, child_info) (s_children s !! storage_key) in
  MkStorage (s_top s) (<[storage_key := (apply_change child_map.1 (key, v), child_map.2)]> (s_children s)).

Definition basic_kill_child_storage (s : Storage) (storage_key : bytes) : Storage :=
  MkStorage (s_top s) (delete storage_key (s_children s)).

(** [range((Bound::Included(prefix), Bound::Unbounded))] while the keys have the
    prefix, removed one by one. *)
Definition remove_prefix (prefix : bytes) (m : gmap bytes bytes) : gmap bytes bytes :=
  let to_remove := take_while (starts_with prefix) (filter (λ k, key_ltb k prefix = false) (rising m).*1) in
  foldl (λ m k, delete k m) m to_remove.

Definition basic_clear_prefix (s : Storage) (prefix : bytes) : Storage :=
  if is_child_storage_key prefix then s
  else MkStorage (remove_prefix prefix (s_top s)) (s_children s).

Definition basic_clear_child_prefix (s : Storage) (storage_key prefix : bytes) : Storage :=
  match s_children s !! storage_key with
  | Some c => MkStorage (s_top s) (<[storage_key := (remove_prefix prefix c.1, c.2)]> (s_children s))
  | None => s
  end.

Context `{!Codec Out} (order : ∀ V, gmap bytes V → list (bytes * V)).

Definition basic_child_storage_root (s : Storage) (storage_key : bytes) : bytes :=
  encode match s_children s !! storage_key with
    | Some c => (be_child_storage_root (in_memory ∅) storage_key c.2 (prod_map id Some <$> rising c.1)).1.1
    | None => default_child_trie_root storage_key
    end.

(** The map [top] with the roots of the child tries is computed, but the root is
    that of the stored map. *)
Definition basic_storage_root (s : Storage) : run bytes :=
  let empty_hash := encode (default_child_trie_root []) in
  top ← foldl_m (λ top storage_key,
      if is_child_trie_key_valid storage_key then
        let child_root := basic_child_storage_root s storage_key in
        Ok (if bool_decide (empty_hash = child_root) then delete storage_key top else <[storage_key := child_root]> top)
      else Panic)
    (s_top s) (order _ (s_children s)).*1;
  Ok (encode (trie_root (s_top s))).

End in_memory.
