(* ===== verification/ExternalitiesFacts.v ===== *)
(** * The externalities implement a key-value store *)
From stdpp Require Import strings.
From S2P Require Import Prelude StateDbBase Overlay OverlayFacts Externalities.

Local Open Scope Z_scope.
Local Open Scope list_scope.

(** ** Iteration over the changed keys *)

Section next_keys.
Context {E : Type} (p c : gmap bytes OverlayedValue) (content : gmap bytes bytes).

(** The value of a key, from its latest change or from the store below. *)
Definition shown (change : option (option bytes)) (stored : option bytes) : option bytes := default stored change.

Definition live (k : bytes) : Prop := is_Some (shown (look p c k) (content !! k)).

Lemma next_change_spec key :
  let o := next_change (next_entry c key) (next_entry p key) in
  least_above (λ k, is_Some (look p c k)) key (fst <$> o) ∧ ∀ k v, o = Some (k, v) → look p c k = Some (value v).
Proof.
  destruct (next_entry_spec p key) as [Hp Hpv]. destruct (next_entry_spec c key) as [Hc Hcv].
  assert (∀ k, is_Some (look p c k) ↔ is_Some (p !! k) ∨ is_Some (c !! k)) as Hlook.
  { intros k. unfold look. destruct (p !! k), (c !! k); cbn; naive_solver. }
  destruct (next_entry c key) as [[kc vc]|] eqn:Ec, (next_entry p key) as [[kp vp]|] eqn:Ep; cbn in *.
  - specialize (Hpv _ _ eq_refl). specialize (Hcv _ _ eq_refl). destruct Hp as (_&Hkp&Hp), Hc as (_&Hkc&Hc).
    destruct (key_ltb kc kp) eqn:Hlt; cbn.
    + split.
      * split_and!; [apply Hlook; by rewrite Hcv; right|done|]. intros k [Hk|Hk]%Hlook Hkey; [|by apply Hc].
        destruct (key_ltb k kc) eqn:Hlt'; [|done]. specialize (Hp k Hk Hkey). rewrite (key_ltb_trans _ _ _ Hlt' Hlt) in Hp. done.
      * intros k v [= <- <-]. unfold look. destruct (p !! kc) as [v'|] eqn:Hkc'; [|by rewrite Hcv].
        specialize (Hp kc ltac:(rewrite Hkc'; eauto) Hkc). congruence.
    + split.
      * split_and!; [apply Hlook; rewrite Hpv; eauto|done|]. intros k [Hk|Hk]%Hlook Hkey; [by apply Hp|].
        specialize (Hc k Hk Hkey). destruct (key_ltb k kp) eqn:Hlt'; [|done].
        destruct (key_ltb kc k) eqn:Hck; [by rewrite (key_ltb_trans _ _ _ Hck Hlt') in Hlt|].
        rewrite (key_ltb_total _ _ Hck Hc) in Hlt. congruence.
      * intros k v [= <- <-]. unfold look. by rewrite Hpv.
  - specialize (Hcv _ _ eq_refl). destruct Hc as (_&Hkc&Hc). split.
    + split_and!; [apply Hlook; rewrite Hcv; eauto|done|]. intros k [Hk|Hk]%Hlook Hkey; [by rewrite (Hp k Hk) in Hkey|by apply Hc].
    + intros k v [= <- <-]. unfold look. destruct (p !! kc) eqn:Hkc'; [|by rewrite Hcv].
      specialize (Hp kc ltac:(rewrite Hkc'; eauto)). congruence.
  - specialize (Hpv _ _ eq_refl). destruct Hp as (_&Hkp&Hp). split.
    + split_and!; [apply Hlook; rewrite Hpv; eauto|done|]. intros k [Hk|Hk]%Hlook Hkey; [by apply Hp|by rewrite (Hc k Hk) in Hkey].
    + intros k v [= <- <-]. unfold look. by rewrite Hpv.
  - split; [|done]. intros k [Hk|Hk]%Hlook; eauto.
Qed.

Definition changed_above (key : bytes) : gset bytes := filter (λ k, key_ltb key k = true) (dom p ∪ dom c).

Lemma changed_above_less key k : key_ltb key k = true → is_Some (look p c k) → (size (changed_above k) < size (changed_above key))%nat.
Proof.
  intros Hk Hl. apply subset_size. split.
  - intros x [Hx Hd]%elem_of_filter. apply elem_of_filter. split; [by eapply key_ltb_trans|done].
  - intros Hs. assert (k ∈ changed_above k) as [Hkk _]%elem_of_filter; [|by rewrite key_ltb_irrefl in Hkk].
    apply Hs, elem_of_filter. split; [done|]. rewrite elem_of_union, !elem_of_dom. unfold look in Hl.
    destruct (p !! k), (c !! k); cbn in *; naive_solver.
Qed.

Lemma changed_above_size key : (size (changed_above key) < S (size p + size c))%nat.
Proof using p c.
  assert (size (changed_above key) ≤ size (dom p ∪ dom c : gset bytes))%nat.
  { apply subseteq_size. intros x [_ ?]%elem_of_filter. done. }
  assert (size (dom p ∪ dom c : gset bytes) ≤ size p + size c)%nat; [|lia].
  rewrite size_union_alt, !size_dom. assert (size (dom c ∖ dom p : gset bytes) ≤ size c)%nat; [|lia].
  rewrite <- size_dom. apply subseteq_size. set_solver.
Qed.

Context (backend_next : bytes → result E (option bytes)).
Context (Hnext : ∀ key, ∃ o, backend_next key = Ok o ∧ least_above (λ k, is_Some (content !! k)) key o).

Lemma next_key_loop_ok fuel key :
  (size (changed_above key) < fuel)%nat →
  ∃ o, next_key_loop fuel backend_next (λ key, next_change (next_entry c key) (next_entry p key)) key = Some (Ok o) ∧
    least_above live key o.
Proof using Hnext.
  revert key. induction fuel as [|fuel IH]; intros key Hfuel; [lia|]. cbn [next_key_loop].
  destruct (Hnext key) as (b&->&Hb). cbn [expect_ok]. destruct (next_change_spec key) as [Ho Hv].
  assert (∀ k, look p c k = None → live k ↔ is_Some (content !! k)) as Hunchanged by (intros k Hk; unfold live, shown; by rewrite Hk).
  assert (∀ k, live k → is_Some (look p c k) ∨ is_Some (content !! k)) as Hlive.
  { intros k. unfold live, shown. destruct (look p c k); cbn; eauto. }
  destruct (next_change (next_entry c key) (next_entry p key)) as [[ok ov]|]; cbn [fmap option_fmap option_map] in Ho.
  2:{ exists b. split; [done|]. cbn in Ho. destruct b as [bk|]; cbn in Hb |- *.
    - destruct Hb as (Hc&Hk&Hmin). split_and!; [|done|].
      + destruct (look p c bk) eqn:Hbk; [|by apply Hunchanged]. by rewrite (Ho bk ltac:(by rewrite Hbk)) in Hk.
      + intros k [Hk'|Hk']%Hlive Hkey; [by rewrite (Ho k Hk') in Hkey|by apply Hmin].
    - intros k [Hk'|Hk']%Hlive; eauto. }
  cbn in Ho. destruct Ho as (Hch&Hok&Hmin). specialize (Hv ok ov eq_refl). cbn [fst snd].
  destruct (match b with Some b => key_ltb b ok | None => false end) eqn:Hcase.
  - destruct b as [bk|]; [|done]. cbn in Hb. destruct Hb as (Hc&Hk&Hbmin). exists (Some bk). split; [done|]. cbn.
    assert (look p c bk = None) as Hbk.
    { destruct (look p c bk) eqn:Hbk; [|done]. specialize (Hmin bk ltac:(by rewrite Hbk) Hk). congruence. }
    split_and!; [by apply Hunchanged|done|]. intros k [Hk'|Hk']%Hlive Hkey; [|by apply Hbmin].
    specialize (Hmin k Hk' Hkey). destruct (key_ltb k bk) eqn:Hlt; [|done]. by rewrite (key_ltb_trans _ _ _ Hlt Hcase) in Hmin.
  - assert (∀ k, live k → key_ltb key k = true → key_ltb k ok = false) as Hleast.
    { intros k [Hk'|Hk']%Hlive Hkey; [by apply Hmin|]. destruct b as [bk|]; cbn in Hb; [|by rewrite (Hb k Hk') in Hkey].
      destruct Hb as (_&_&Hbmin). specialize (Hbmin k Hk' Hkey). destruct (key_ltb k ok) eqn:Hlt; [|done].
      destruct (key_ltb bk k) eqn:Hbk; [by rewrite (key_ltb_trans _ _ _ Hbk Hlt) in Hcase|].
      rewrite (key_ltb_total _ _ Hbk Hbmin) in Hcase. congruence. }
    destruct (value ov) as [v|] eqn:Hval.
    + exists (Some ok). split; [done|]. cbn. split_and!; [|done..]. unfold live, shown. rewrite Hv. cbn. eauto.
    + destruct (IH ok) as (o&->&Ho); [pose proof (changed_above_less key ok Hok Hch); lia|]. exists o. split; [done|].
      assert (∀ k, live k → key_ltb key k = true → key_ltb ok k = true) as Hskip.
      { intros k Hk Hkey. destruct (key_ltb ok k) eqn:Hlt; [done|]. specialize (Hleast k Hk Hkey).
        rewrite <- (key_ltb_total _ _ Hlt Hleast) in Hk. unfold live, shown in Hk. rewrite Hv in Hk. cbn in Hk. by destruct Hk. }
      destruct o as [k|]; cbn in Ho |- *.
      * destruct Ho as (Hk&Hlt&Hmin'). split_and!; [done|by eapply key_ltb_trans|]. intros k' Hk' Hkey. apply Hmin'; eauto.
      * intros k Hk. destruct (key_ltb key k) eqn:Hkey; [|done]. specialize (Hskip k Hk Hkey). by rewrite (Ho k Hk) in Hskip.
Qed.

End next_keys.

Lemma next_key_loop_ext {E} fuel (backend_next : bytes → result E (option bytes)) f g key :
  (∀ k, f k = g k) → next_key_loop fuel backend_next f key = next_key_loop fuel backend_next g key.
Proof.
  intros Hfg. revert key. induction fuel as [|fuel IH]; intros key; cbn [next_key_loop]; [done|].
  destruct (expect_ok (backend_next key)) as [b| |]; [|done..]. rewrite Hfg.
  destruct b as [b|], (g key) as [o|]; try done; repeat case_match; try done; apply IH.
Qed.

Lemma next_entry_empty {V} key : next_entry (∅ : gmap bytes V) key = None.
Proof. done. Qed.

Lemma next_child_change_map o sk key :
  next_child_storage_key_change o sk key = next_change (next_entry (child_map (committed o) sk) key) (next_entry (child_map (prospective o) sk) key).
Proof.
  unfold next_child_storage_key_change, child_map.
  destruct (children (prospective o) !! sk), (children (committed o) !! sk); cbn; by rewrite ?next_entry_empty.
Qed.

(** ** Prefixes *)

Lemma starts_with_not_below prefix k : starts_with prefix k = true → key_ltb k prefix = false.
Proof.
  revert k. induction prefix as [|p prefix IH]; intros [|x k]; cbn; try done.
  rewrite andb_true_iff, Z.eqb_eq. intros [-> Hk]. by rewrite Z.ltb_irrefl, Z.eqb_refl, (IH k Hk).
Qed.

Lemma starts_with_before prefix k k' :
  starts_with prefix k' = true → key_ltb k prefix = false → starts_with prefix k = false → key_ltb k' k = true.
Proof.
  revert k k'. induction prefix as [|p prefix IH]; intros [|x k] [|x' k']; cbn; try done.
  rewrite andb_true_iff, andb_false_iff, orb_false_iff, Z.ltb_ge, Z.eqb_eq, Z.eqb_neq, andb_false_iff, Z.eqb_neq.
  intros [-> Hk'] [Hle Hlt] Hs. apply orb_true_iff. rewrite Z.ltb_lt, andb_true_iff, Z.eqb_eq.
  destruct (decide (x = x')) as [->|]; [|left; lia]. right. split; [done|]. apply IH; [done| |]; naive_solver.
Qed.

Lemma remove_prefix_lookup prefix m k : remove_prefix prefix m !! k = if starts_with prefix k then None else m !! k.
Proof.
  unfold remove_prefix. set (l := filter (λ k, key_ltb k prefix = false) (rising m).*1).
  assert (∀ k, k ∈ l ↔ key_ltb k prefix = false ∧ is_Some (m !! k)) as Hl.
  { intros k'. unfold l. by rewrite list_elem_of_filter, rising_keys. }
  rewrite (take_while_filter (λ a b, key_ltb b a = false)).
  - rewrite foldl_delete_lookup.
    destruct (starts_with prefix k) eqn:Hk.
    + case_decide as Hin; [done|]. destruct (m !! k) eqn:Hm; [|done]. exfalso. apply Hin, list_elem_of_filter. split; [done|].
      apply Hl. split; [by apply starts_with_not_below|eauto].
    + rewrite decide_False; [done|]. intros [? _]%list_elem_of_filter. congruence.
  - unfold l. clear Hl l. induction (rising_sorted m) as [|a r _ IH Ha]; [constructor|]. rewrite fmap_cons, filter_cons.
    case_decide; [|done]. constructor; [done|]. rewrite Forall_forall in Ha. apply Forall_forall. intros b [_ (e&->&He)%list_elem_of_fmap]%list_elem_of_filter.
    by apply Ha.
  - intros x y [Hx _]%Hl [Hy _]%Hl Hxy HPx. destruct (starts_with prefix y) eqn:HPy; [|done].
    by rewrite (starts_with_before prefix x y HPy Hx HPx) in Hxy.
Qed.

(** ** Backends that store maps *)

Section equivalence.
Context {E Out Tx : Type} `{!Codec Z} `{!Codec Out}.
Implicit Types (b : Backend E Out Tx) (x : Ext E Out Tx) (o : OverlayedChanges).

(** What the externalities rely on: the backend is a store with the given
    contents of the top trie and of the child tries. *)
Class Store b (content : gmap bytes bytes) (child_content : bytes → bytes → gmap bytes bytes) : Prop := {
  store_storage k : be_storage b k = Ok (content !! k);
  store_child_storage sk ci k : be_child_storage b sk ci k = Ok (child_content sk ci !! k);
  store_exists k : be_exists_storage b k = Ok (bool_decide (is_Some (content !! k)));
  store_exists_child sk ci k : be_exists_child_storage b sk ci k = Ok (bool_decide (is_Some (child_content sk ci !! k)));
  store_next key : ∃ r, be_next_storage_key b key = Ok r ∧ least_above (λ k, is_Some (content !! k)) key r;
  store_next_child sk ci key : ∃ r, be_next_child_storage_key b sk ci key = Ok r ∧ least_above (λ k, is_Some (child_content sk ci !! k)) key r;
  store_keys_in_child sk ci k : k ∈ be_keys_in_child_storage b sk ci ↔ is_Some (child_content sk ci !! k);
  store_keys prefix k : k ∈ be_keys_with_prefix b prefix ↔ starts_with prefix k = true ∧ is_Some (content !! k);
  store_child_keys sk ci prefix k : k ∈ be_child_keys_with_prefix b sk ci prefix ↔ starts_with prefix k = true ∧ is_Some (child_content sk ci !! k);
}.

Context (content : gmap bytes bytes) (child_content : bytes → bytes → gmap bytes bytes) (cinfo : bytes → bytes).

(** The changes on top of the contents are the maps of [s]. *)
Definition shows o (s : Storage) : Prop :=
  (∀ k, shown (overlay_storage o k) (content !! k) = s_top s !! k) ∧
  ∀ sk k, shown (overlay_child_storage o sk k) (child_content sk (cinfo sk) !! k) = child_data s sk !! k.

Lemma basic_child_data s sk k : basic_child_storage s sk k = child_data s sk !! k.
Proof. unfold basic_child_storage, child_data. destruct (s_children s !! sk); cbn; [done|by rewrite lookup_empty]. Qed.

(** *** Reads *)

Lemma reads_ok (hash : bytes → Out) b x s k :
  Store b content child_content → backend x = b → shows (overlay x) s →
  ext_storage x k = Ok (basic_storage s k) ∧ ext_storage_hash hash x k = Ok ((λ v, encode (hash v)) <$> basic_storage s k) ∧
  ext_exists_storage x k = Ok (bool_decide (is_Some (basic_storage s k))) ∧
  ext_next_storage_key x k = Some (Ok (basic_next_storage_key s k)) ∧
  ext_original_storage x k = Ok (content !! k).
Proof.
  intros Hst <- [Ht _]. specialize (Ht k) as Hk. unfold basic_storage. rewrite <- Hk.
  unfold ext_storage, ext_storage_hash, ext_exists_storage, be_storage_hash, ext_original_storage, ext_next_storage_key.
  rewrite store_storage, store_exists. unfold shown. split_and!.
  - by destruct (overlay_storage (overlay x) k).
  - destruct (overlay_storage (overlay x) k) as [[v|]|]; cbn; [done..|]. by destruct (content !! k).
  - by destruct (overlay_storage (overlay x) k).
  - destruct (next_key_loop_ok (top (prospective (overlay x))) (top (committed (overlay x))) content
      (be_next_storage_key (backend x)) store_next _ k (changed_above_size _ _ k)) as (r&Hr&Hl).
    unfold next_storage_key_change. rewrite Hr. do 2 f_equal.
    eapply least_above_unique; [exact Hl|]. eapply least_above_ext; [|apply (next_entry_spec (s_top s) k)].
    intros k'. unfold live. rewrite <- Ht. done.
  - done.
Qed.

Lemma child_reads_ok (hash : bytes → Out) b x s sk k :
  Store b content child_content → backend x = b → shows (overlay x) s →
  ext_child_storage x sk (cinfo sk) k = Ok (basic_child_storage s sk k) ∧
  ext_child_storage_hash hash x sk (cinfo sk) k = Ok ((λ v, encode (hash v)) <$> basic_child_storage s sk k) ∧
  ext_exists_child_storage x sk (cinfo sk) k = Ok (bool_decide (is_Some (basic_child_storage s sk k))) ∧
  ext_next_child_storage_key x sk (cinfo sk) k = Some (Ok (basic_next_child_storage_key s sk k)) ∧
  ext_original_child_storage x sk (cinfo sk) k = Ok (child_content sk (cinfo sk) !! k).
Proof.
  intros Hst <- [_ Hc]. specialize (Hc sk) as Hsk. rewrite basic_child_data, <- Hsk.
  unfold ext_child_storage, ext_child_storage_hash, ext_exists_child_storage, be_child_storage_hash, ext_original_child_storage, ext_next_child_storage_key.
  rewrite store_child_storage, store_exists_child. unfold shown. split_and!.
  - by destruct (overlay_child_storage (overlay x) sk k).
  - destruct (overlay_child_storage (overlay x) sk k) as [[v|]|]; cbn; [done..|]. by destruct (child_content sk (cinfo sk) !! k).
  - by destruct (overlay_child_storage (overlay x) sk k).
  - set (p := child_map (prospective (overlay x)) sk). set (c := child_map (committed (overlay x)) sk).
    destruct (next_key_loop_ok p c (child_content sk (cinfo sk))
      (be_next_child_storage_key (backend x) sk (cinfo sk)) (store_next_child sk (cinfo sk)) _ k (changed_above_size _ _ k)) as (r&Hr&Hl).
    unfold child_changes. fold (child_map (prospective (overlay x)) sk) (child_map (committed (overlay x)) sk). fold p c.
    rewrite (next_key_loop_ext _ _ _ (λ key, next_change (next_entry c key) (next_entry p key))) by (intros; apply next_child_change_map).
    rewrite Hr. do 2 f_equal. eapply least_above_unique; [exact Hl|].
    assert (basic_next_child_storage_key s sk k = fst <$> next_entry (child_data s sk) k) as ->.
    { unfold basic_next_child_storage_key, child_data. by destruct (s_children s !! sk). }
    eapply least_above_ext; [|apply (next_entry_spec (child_data s sk) k)].
    intros k'. unfold live. rewrite <- Hsk, overlay_child_storage_look. done.
  - done.
Qed.

(** *** Writes *)

(** The state [s] shows the committed changes. *)
Definition shows_committed o (s : Storage) : Prop := shows (discard_prospective o) s.

Lemma shows_committed_eq o o' s : committed o = committed o' → shows_committed o s → shows_committed o' s.
Proof.
  intros Hc [Ht Hch]. split.
  - intros k. specialize (Ht k). unfold overlay_storage in *. cbn in *. by rewrite <- Hc.
  - intros sk k. specialize (Hch sk k). rewrite overlay_child_storage_look in *. cbn in *. by rewrite <- Hc.
Qed.

Lemma shown_deleted (old : option (option bytes)) stored : shown ((λ _, None) <$> old) stored = match old with Some _ => None | None => stored end.
Proof. by destruct old. Qed.

(** An operation on one child trie, and what the basic externalities do to it. *)
Lemma child_op_shows o o' sk f s s' :
  shows o s → child_op cinfo o sk f o' → s_top s' = s_top s →
  (∀ sk' k, child_data s' sk' !! k = if decide (sk' = sk) then shown (f k (overlay_child_storage o sk k)) (child_content sk (cinfo sk) !! k) else child_data s sk' !! k) →
  shows o' s'.
Proof.
  intros [Ht Hc] (_&Hcom&Htop&_&Hop) Hst Hsd. split.
  - intros k. rewrite Hst, <- Ht. unfold overlay_storage. by rewrite Hcom, Htop.
  - intros sk' k. rewrite Hop, Hsd. case_decide as Hsk; [by subst|apply Hc].
Qed.

Lemma set_storage_shows o s key v :
  shows o s → shows (set_storage o key v) (MkStorage (apply_change (s_top s) (key, v)) (s_children s)).
Proof.
  intros [Ht Hc]. split; [|intros sk k; apply (Hc sk k)]. intros k. rewrite set_storage_look. cbn [s_top].
  unfold apply_change. cbn. case_decide as Hk.
  - subst. destruct v; cbn; by rewrite ?lookup_insert_eq, ?lookup_delete_eq.
  - rewrite Ht. destruct v; by rewrite ?lookup_insert_ne, ?lookup_delete_ne.
Qed.

Lemma delete_keys_look (keys : list bytes) o k :
  overlay_storage (foldl (λ o key, set_storage o key None) o keys) k = if decide (k ∈ keys) then Some None else overlay_storage o k.
Proof.
  revert o. induction keys as [|key keys IH]; intros o; cbn [foldl]; [done|]. rewrite IH, set_storage_look.
  destruct (decide (k ∈ keys)) as [Hk|Hk]; [by rewrite decide_True by (by right)|].
  destruct (decide (k = key)) as [->|Hne]; [by rewrite decide_True by (by left)|].
  by rewrite decide_False by (by intros [?|?]%elem_of_cons).
Qed.

Lemma delete_keys_same (keys : list bytes) o :
  let o' := foldl (λ o key, set_storage o key None) o keys in
  committed o' = committed o ∧ children (prospective o') = children (prospective o).
Proof. revert o. induction keys as [|key keys IH]; intros o; cbn [foldl]; [done|]. apply (IH (set_storage o key None)). Qed.

Lemma delete_child_keys (keys : list bytes) o sk :
  infos_ok cinfo o → ∃ o', foldl_m (delete_child_key sk (cinfo sk)) o keys = Ok o' ∧
    (keys = [] ∧ o' = o ∨ child_op cinfo o sk (λ k old, if decide (k ∈ keys) then Some None else old) o').
Proof.
  revert o. induction keys as [|key keys IH]; intros o Hi; cbn [foldl_m]; [eauto|].
  change (delete_child_key sk (cinfo sk) o key) with (set_child_storage o sk (cinfo sk) key None).
  destruct (set_child_storage_ok cinfo o sk key None Hi) as (o1&->&H1). cbn [mbind result_bind].
  destruct (IH o1 (proj1 H1)) as (o2&->&H2). exists o2. split; [done|]. right.
  destruct H2 as [[-> ->]|H2].
  - destruct H1 as (?&?&?&?&Hop). split_and!; [done..|]. intros sk' k. rewrite Hop. case_decide; [|done].
    destruct (decide (k = key)) as [->|Hne]; [by rewrite decide_True by (by left)|]. rewrite decide_False; [done|].
    by intros [?|?%not_elem_of_nil]%elem_of_cons.
  - destruct H1 as (_&Hc1&Ht1&Hk1&Hop1), H2 as (Hi2&Hc2&Ht2&Hk2&Hop2). split_and!; [done|congruence|congruence| |].
    + intros sk'. rewrite Hk2, Hk1. tauto.
    + intros sk' k. rewrite Hop2. destruct (decide (sk' = sk)) as [->|Hsk]; [|rewrite Hop1, decide_False by done; reflexivity]. rewrite Hop1, (decide_True (P := sk = sk)) by done.
      destruct (decide (k ∈ keys)) as [Hk|Hk]; [by rewrite decide_True by (by right)|].
      destruct (decide (k = key)) as [->|Hne]; [by rewrite decide_True by (by left)|].
      by rewrite decide_False by (by intros [?|?]%elem_of_cons).
Qed.

(** Clearing keys in the overlay and deleting those of the backend. *)
Lemma clear_and_delete o o1 sk (sel : bytes → bool) keys :
  infos_ok cinfo o → child_op cinfo o sk (λ k old, if sel k then (λ _, None) <$> old else old) o1 →
  (∀ k, k ∈ keys ↔ sel k = true ∧ is_Some (child_content sk (cinfo sk) !! k)) →
  ∃ o2 f, foldl_m (delete_child_key sk (cinfo sk)) o1 keys = Ok o2 ∧ child_op cinfo o sk f o2 ∧
    ∀ k, shown (f k (overlay_child_storage o sk k)) (child_content sk (cinfo sk) !! k) =
      if sel k then None else shown (overlay_child_storage o sk k) (child_content sk (cinfo sk) !! k).
Proof.
  intros Hi H1 Hkeys. destruct (delete_child_keys keys o1 sk (proj1 H1)) as (o2&Ho2&H2).
  assert (∀ k, shown (if sel k then (λ _, None) <$> overlay_child_storage o sk k else overlay_child_storage o sk k) (child_content sk (cinfo sk) !! k) =
    if sel k then match overlay_child_storage o sk k with Some _ => None | None => child_content sk (cinfo sk) !! k end
    else shown (overlay_child_storage o sk k) (child_content sk (cinfo sk) !! k)) as Hshown.
  { intros k. destruct (sel k); [apply shown_deleted|done]. }
  assert (∀ k, k ∉ keys → sel k = true → child_content sk (cinfo sk) !! k = None) as Hnone.
  { intros k Hk Hs. destruct (child_content sk (cinfo sk) !! k) eqn:E1; [|done]. exfalso. apply Hk, Hkeys. rewrite E1. eauto. }
  destruct H2 as [[-> ->]|H2].
  - exists o1, (λ k old, if sel k then (λ _, None) <$> old else old). split_and!; [done..|]. intros k. rewrite Hshown.
    destruct (sel k) eqn:Hs; [|done]. destruct (overlay_child_storage o sk k); [done|]. apply Hnone; [apply not_elem_of_nil|done].
  - destruct H1 as (_&Hc1&Ht1&Hk1&Hop1), H2 as (Hi2&Hc2&Ht2&Hk2&Hop2).
    exists o2, (λ k old, if decide (k ∈ keys) then Some None else if sel k then (λ _, None) <$> old else old).
    split_and!; [done| |].
    + split_and!; [done|congruence|congruence|intros sk'; rewrite Hk2, Hk1; tauto|]. intros sk' k. rewrite Hop2, !Hop1.
      destruct (decide (sk' = sk)) as [->|Hsk]; [|done]. by rewrite (decide_True (P := sk = sk)).
    + intros k. destruct (decide (k ∈ keys)) as [Hk|Hk]; [apply Hkeys in Hk as [-> _]; done|]. rewrite Hshown.
      destruct (sel k) eqn:Hs; [|done]. destruct (overlay_child_storage o sk k); [done|by apply Hnone].
Qed.

(** *** Histories *)

Context (tx_default : Tx) (consolidate : Tx → Tx → Tx) (order : ∀ V, gmap bytes V → list (bytes * V)).

(** The operations of the runtime on the state, and what the caller does with the
    changes.  Child tries are used with their identifiers. *)
Inductive Op : Type :=
  | OpPlace (key : bytes) (v : option bytes)
  | OpPlaceChild (storage_key key : bytes) (v : option bytes)
  | OpKillChild (storage_key : bytes)
  | OpClearPrefix (prefix : bytes)
  | OpClearChildPrefix (storage_key prefix : bytes)
  | OpRoot
  | OpCommit
  | OpDiscard.

Definition ext_exec (op : Op) x : run (Ext E Out Tx) :=
  match op with
  | OpPlace key v => Ok (ext_place_storage x key v)
  | OpPlaceChild sk key v => ext_place_child_storage x sk (cinfo sk) key v
  | OpKillChild sk => ext_kill_child_storage x sk (cinfo sk)
  | OpClearPrefix prefix => Ok (ext_clear_prefix x prefix)
  | OpClearChildPrefix sk prefix => ext_clear_child_prefix x sk (cinfo sk) prefix
  | OpRoot => r ← ext_storage_root tx_default consolidate order x; Ok r.2
  | OpCommit => Ok (with_overlay x (commit_prospective (overlay x)))
  | OpDiscard => Ok (with_overlay x (discard_prospective (overlay x)))
  end.

(** The basic externalities, and a copy of them for what was committed. *)
Definition basic_exec (op : Op) (s : Storage * Storage) : Storage * Storage :=
  match op with
  | OpPlace key v => (basic_place_storage s.1 key v, s.2)
  | OpPlaceChild sk key v => (basic_place_child_storage s.1 sk (cinfo sk) key v, s.2)
  | OpKillChild sk => (basic_kill_child_storage s.1 sk, s.2)
  | OpClearPrefix prefix => (basic_clear_prefix s.1 prefix, s.2)
  | OpClearChildPrefix sk prefix => (basic_clear_child_prefix s.1 sk prefix, s.2)
  | OpRoot => s
  | OpCommit => (s.1, s.1)
  | OpDiscard => (s.2, s.2)
  end.

Definition sim x (s : Storage * Storage) : Prop :=
  infos_ok cinfo (overlay x) ∧ shows (overlay x) s.1 ∧ shows_committed (overlay x) s.2.

Lemma child_data_insert s sk m i sk' k :
  child_data (MkStorage (s_top s) (<[sk := (m, i)]> (s_children s))) sk' !! k = if decide (sk' = sk) then m !! k else child_data s sk' !! k.
Proof. unfold child_data. cbn. case_decide as Hsk; [subst; by rewrite lookup_insert_eq|by rewrite lookup_insert_ne]. Qed.

Lemma apply_change_lookup m key v k : apply_change m (key, v) !! k = if decide (k = key) then v else m !! k.
Proof.
  unfold apply_change. cbn. case_decide as Hk; [subst; destruct v; by rewrite ?lookup_insert_eq, ?lookup_delete_eq|].
  destruct v; by rewrite ?lookup_insert_ne, ?lookup_delete_ne.
Qed.

(** Only the prospective changes of one child trie have changed. *)
Lemma child_op_sim x x' s s1 sk f :
  sim x s → child_op cinfo (overlay x) sk f (overlay x') → s_top s1 = s_top s.1 →
  (∀ sk' k, child_data s1 sk' !! k = if decide (sk' = sk) then shown (f k (overlay_child_storage (overlay x) sk k)) (child_content sk (cinfo sk) !! k) else child_data s.1 sk' !! k) →
  sim x' (s1, s.2).
Proof.
  intros (_&Hsh&Hco) Hop Htop Hd. split; [apply Hop|]. split; [by apply (child_op_shows (overlay x) _ sk f s.1)|].
  eapply shows_committed_eq; [|exact Hco]. symmetry. apply Hop.
Qed.

Lemma place_child_sim x s sk key v :
  sim x s → ∃ x', ext_place_child_storage x sk (cinfo sk) key v = Ok x' ∧ backend x' = backend x ∧ sim x' (basic_exec (OpPlaceChild sk key v) s).
Proof.
  intros Hs. pose proof Hs as (Hi&[_ Hc]&_). unfold ext_place_child_storage.
  destruct (set_child_storage_ok cinfo (overlay x) sk key v Hi) as (o'&->&Hop). cbn [mbind result_bind]. eexists. split; [done|]. split; [done|].
  eapply (child_op_sim x _ _ _ sk); [done|exact Hop|done|]. intros sk' k. unfold basic_place_child_storage. rewrite child_data_insert.
  destruct (decide (sk' = sk)) as [->|]; [|done]. rewrite apply_change_lookup.
  assert ((default (∅, cinfo sk) (s_children s.1 !! sk)).1 = child_data s.1 sk) as -> by (unfold child_data; by destruct (s_children s.1 !! sk)).
  destruct (decide (k = key)); [done|]. symmetry. apply Hc.
Qed.

Lemma kill_child_sim b x s sk :
  Store b content child_content → backend x = b → sim x s →
  ∃ x', ext_kill_child_storage x sk (cinfo sk) = Ok x' ∧ backend x' = b ∧ sim x' (basic_exec (OpKillChild sk) s).
Proof.
  intros Hst <- Hs. pose proof Hs as (Hi&_). unfold ext_kill_child_storage.
  destruct (clear_child_storage_ok cinfo (overlay x) sk Hi) as (o1&->&H1). cbn [mbind result_bind].
  destruct (clear_and_delete (overlay x) o1 sk (λ _, true) (be_keys_in_child_storage (backend x) sk (cinfo sk)) Hi H1) as (o2&f&->&Hop&Hf).
  { intros k. rewrite store_keys_in_child. by split; [intros|intros [_ ?]]. }
  cbn [mbind result_bind]. eexists. split; [done|]. split; [done|]. eapply (child_op_sim x _ _ _ sk); [done|exact Hop|done|].
  intros sk' k. rewrite Hf. unfold child_data. cbn. destruct (decide (sk' = sk)) as [->|]; [by rewrite lookup_delete_eq|by rewrite lookup_delete_ne].
Qed.

Lemma clear_child_prefix_sim b x s sk prefix :
  Store b content child_content → backend x = b → sim x s →
  ∃ x', ext_clear_child_prefix x sk (cinfo sk) prefix = Ok x' ∧ backend x' = b ∧ sim x' (basic_exec (OpClearChildPrefix sk prefix) s).
Proof.
  intros Hst <- Hs. pose proof Hs as (Hi&[_ Hc]&_). unfold ext_clear_child_prefix.
  destruct (clear_child_prefix_ok cinfo (overlay x) sk prefix Hi) as (o1&->&H1). cbn [mbind result_bind].
  destruct (clear_and_delete (overlay x) o1 sk (starts_with prefix) (be_child_keys_with_prefix (backend x) sk (cinfo sk) prefix) Hi H1) as (o2&f&->&Hop&Hf).
  { intros k. apply store_child_keys. }
  cbn [mbind result_bind]. eexists. split; [done|]. split; [done|].
  eapply (child_op_sim x _ _ _ sk); [done|exact Hop|cbn; unfold basic_clear_child_prefix; by destruct (s_children s.1 !! sk)|].
  intros sk' k. rewrite Hf, Hc. cbn. unfold basic_clear_child_prefix. destruct (s_children s.1 !! sk) as [[m i]|] eqn:Em.
  - rewrite child_data_insert. destruct (decide (sk' = sk)) as [->|]; [|done]. rewrite remove_prefix_lookup. unfold child_data. by rewrite Em.
  - destruct (decide (sk' = sk)) as [->|]; [|done]. unfold child_data. rewrite Em. cbn. rewrite lookup_empty. by destruct (starts_with prefix k).
Qed.

Lemma place_sim x s key v : sim x s → sim (ext_place_storage x key v) (basic_exec (OpPlace key v) s).
Proof.
  intros (Hi&Hs&Hc). unfold ext_place_storage. cbn. unfold basic_place_storage. destruct (is_child_storage_key key); [done|].
  split_and!; [exact Hi|by apply set_storage_shows|]. eapply shows_committed_eq; [|exact Hc]. done.
Qed.

Lemma clear_prefix_sim b x s prefix :
  Store b content child_content → backend x = b → sim x s → sim (ext_clear_prefix x prefix) (basic_exec (OpClearPrefix prefix) s).
Proof.
  intros Hst <- (Hi&[Ht Hch]&Hc). unfold ext_clear_prefix. cbn. unfold basic_clear_prefix. destruct (is_child_storage_key prefix); [done|].
  set (keys := be_keys_with_prefix (backend x) prefix). set (o1 := overlay_clear_prefix (overlay x) prefix).
  destruct (delete_keys_same keys o1) as [Hcom Hchn]. split_and!; cbn [overlay with_overlay fst snd].
  - split; [|rewrite Hcom; apply Hi]. intros sk e. rewrite Hchn. apply Hi.
  - split.
    + intros k. rewrite delete_keys_look. unfold o1. rewrite clear_prefix_look. cbn [s_top]. rewrite remove_prefix_lookup, <- Ht.
      pose proof (store_keys prefix k) as Hk. fold keys in Hk. destruct (starts_with prefix k) eqn:Hp.
      * case_decide as Hin; [done|]. rewrite shown_deleted. destruct (overlay_storage (overlay x) k); [done|].
        destruct (content !! k) eqn:Ek; [|done]. exfalso. apply Hin, Hk. eauto.
      * rewrite decide_False; [done|]. intros [? _]%Hk. done.
    + intros sk k. rewrite overlay_child_storage_look. unfold child_map. rewrite Hcom, Hchn.
      specialize (Hch sk k). rewrite overlay_child_storage_look in Hch. exact Hch.
  - eapply shows_committed_eq; [|exact Hc]. by rewrite Hcom.
Qed.

Lemma commit_sim x s : sim x s → sim (with_overlay x (commit_prospective (overlay x))) (basic_exec OpCommit s).
Proof.
  intros (Hi&[Ht Hc]&_). assert (shows (commit_prospective (overlay x)) s.1) as Hsh.
  { split; [intros k; by rewrite commit_look|intros sk k; by rewrite commit_child_look]. }
  split_and!; [by apply commit_infos|done|]. unfold shows_committed. cbn. by rewrite commit_discard.
Qed.

Lemma discard_sim x s : sim x s → sim (with_overlay x (discard_prospective (overlay x))) (basic_exec OpDiscard s).
Proof. intros (Hi&_&Hc). split_and!; [by apply discard_infos|done|done]. Qed.

(** *** The storage root *)

(** A list of changes that has one value per key. *)
Lemma apply_delta_lookup (d : delta) g m k :
  (∀ k v, (k, v) ∈ d → v = g k) → apply_delta d m !! k = if decide (k ∈ d.*1) then g k else m !! k.
Proof.
  unfold apply_delta. revert m. induction d as [|[k' v] d IH]; intros m Hg; cbn [foldl fmap list_fmap]; [done|].
  rewrite IH by (intros; apply Hg; by right). rewrite apply_change_lookup. destruct (decide (k ∈ d.*1)) as [Hk|Hk].
  - by rewrite decide_True by (by right).
  - destruct (decide (k = k')) as [->|Hne]; [rewrite decide_True by (by left); apply Hg; by left|].
    by rewrite decide_False by (by intros [?|?]%elem_of_cons).
Qed.

Lemma changes_elem m k v : (k, v) ∈ changes m ↔ value <$> m !! k = Some v.
Proof.
  unfold changes. rewrite list_elem_of_fmap, fmap_Some. split.
  - intros ([k' v']&[= -> ->]&Hk%rising_elem). eauto.
  - intros (v'&Hk&->). exists (k, v'). by rewrite rising_elem.
Qed.

Lemma changes_lookup q m k : apply_delta (changes q) m !! k = shown (value <$> q !! k) (m !! k).
Proof.
  rewrite (apply_delta_lookup _ (λ k, default None (value <$> q !! k))) by (intros k' v Hv%changes_elem; by rewrite Hv). cbv beta.
  destruct (q !! k) as [v|] eqn:Hq; cbn.
  - rewrite decide_True; [done|]. apply list_elem_of_fmap. exists (k, value v). split; [done|]. apply changes_elem. by rewrite Hq.
  - rewrite decide_False; [done|]. intros ([k' v]&->&Hv%changes_elem)%list_elem_of_fmap. cbn in Hq. by rewrite Hq in Hv.
Qed.

Lemma delta_lookup p c m k : apply_delta (changes c ++ changes p) m !! k = shown (look p c k) (m !! k).
Proof.
  unfold apply_delta. rewrite foldl_app. fold (apply_delta (changes c) m). fold (apply_delta (changes p) (apply_delta (changes c) m)).
  rewrite !changes_lookup.
  unfold look. by destruct (p !! k).
Qed.

Lemma top_delta_lookup o m k : apply_delta (top_delta o) m !! k = shown (overlay_storage o k) (m !! k).
Proof. apply delta_lookup. Qed.

Lemma child_delta_lookup o sk m k : apply_delta (child_delta o sk) m !! k = shown (overlay_child_storage o sk k) (m !! k).
Proof. rewrite overlay_child_storage_look. apply delta_lookup. Qed.

Definition changed_children o : gset bytes := dom (children (prospective o)) ∪ dom (children (committed o)).

Context (Horder : ∀ V m, order V m ≡ₚ map_to_list m).

Definition walked o : list bytes := (order _ (children (prospective o))).*1 ++ (order _ (children (committed o))).*1.

Lemma order_keys {V} (m : gmap bytes V) k : k ∈ (order V m).*1 ↔ is_Some (m !! k).
Proof using Horder.
  rewrite (Horder V m), list_elem_of_fmap. split; [intros ([? v]&->&Hk%elem_of_map_to_list); eauto|].
  intros [v Hv]. exists (k, v). by rewrite elem_of_map_to_list.
Qed.

Lemma walked_elem o k : k ∈ walked o ↔ k ∈ changed_children o.
Proof using Horder. unfold walked, changed_children. rewrite elem_of_app, elem_of_union, !order_keys, !elem_of_dom. done. Qed.

Lemma child_deltas_Ok o :
  infos_ok cinfo o → child_deltas order o = Ok ((λ sk, (sk, child_delta o sk, cinfo sk)) <$> walked o).
Proof using Horder.
  intros [Hp Hc]. unfold child_deltas. fold (walked o).
  assert (∀ sk, sk ∈ walked o → overlay_child_info o sk = Some (cinfo sk)) as Hinfo.
  { intros sk [[e He]%elem_of_dom|[e He]%elem_of_dom]%walked_elem%elem_of_union; unfold overlay_child_info.
    - rewrite He. f_equal. by apply Hp.
    - destruct (children (prospective o) !! sk) as [e'|] eqn:Ep; [f_equal; by apply Hp|]. rewrite He. cbn. f_equal. by apply Hc. }
  induction (walked o) as [|sk l IH]; [done|]. cbn [mapM fmap list_fmap]. rewrite Hinfo by (by left). cbn [expect mbind result_bind].
  change (mapM ?f l) with (mapM f l). cbn in IH. rewrite IH by (intros; apply Hinfo; by right). done.
Qed.

Context (root_of : gmap bytes bytes → Out) (child_root_of : bytes → gmap bytes bytes → Out) `{!EqDecision Out}.

(** The roots that the backend computes are those of its contents after the
    changes. *)
Class StoreRoots b : Prop := {
  store_root d : (be_storage_root b d).1 = root_of (apply_delta d content);
  store_child_root sk ci d : (be_child_storage_root b sk ci d).1 =
    (let r := child_root_of sk (apply_delta d (child_content sk ci)) in (r, bool_decide (r = child_root_of sk ∅)));
}.

(** What is stored in the top trie for a child trie: nothing if it is empty. *)
Definition child_root_value (s : Storage) (sk : bytes) : option bytes :=
  let r := child_root_of sk (child_data s sk) in if bool_decide (r = child_root_of sk ∅) then None else Some (encode r).

Definition child_roots (s : Storage) (l : list bytes) : delta := (λ sk, (sk, child_root_value s sk)) <$> l.

(** The top trie with the roots of the changed child tries. *)
Definition with_child_roots (changed : gset bytes) (s : Storage) : gmap bytes bytes := apply_delta (child_roots s (elements changed)) (s_top s).

Lemma child_roots_lookup s l m k : apply_delta (child_roots s l) m !! k = if decide (k ∈ l) then child_root_value s k else m !! k.
Proof.
  rewrite (apply_delta_lookup _ (child_root_value s)); [|by intros k' v (?&[= -> ->]&?)%list_elem_of_fmap].
  apply decide_ext. unfold child_roots. rewrite <- list_fmap_compose, list_fmap_id; done.
Qed.

Lemma child_state_eq o s sk : shows o s → apply_delta (child_delta o sk) (child_content sk (cinfo sk)) = child_data s sk.
Proof. intros [_ Hc]. apply map_eq. intros k. rewrite child_delta_lookup. apply Hc. Qed.

(** The transaction of the child tries, and the whole of it. *)
Definition child_tx b o : list bytes → Tx :=
  foldl (λ t sk, consolidate t (be_child_storage_root b sk (cinfo sk) (child_delta o sk)).2) tx_default.
Definition whole_tx b o (s : Storage) : Tx := consolidate (child_tx b o (walked o)) (be_storage_root b (top_delta o ++ child_roots s (walked o))).2.

Lemma overlay_storage_root_ok b o s :
  StoreRoots b → infos_ok cinfo o → shows o s →
  let root := root_of (with_child_roots (changed_children o) s) in
  overlay_storage_root tx_default consolidate order o b = Ok (root, MkCache (Some (whole_tx b o s)) (Some root)).
Proof using Horder.
  intros Hb Hi Hs root. unfold overlay_storage_root. rewrite child_deltas_Ok by done. cbn [mbind result_bind].
  unfold full_storage_root.
  assert (∀ l t rs, foldl (λ '(txs, child_roots) '(storage_key, child_delta, child_info),
      let '(child_root, empty, child_txs) := be_child_storage_root b storage_key child_info child_delta in
      (consolidate txs child_txs, child_roots ++ [(storage_key, if (empty : bool) then None else Some (encode child_root))]))
      (t, rs) ((λ sk, (sk, child_delta o sk, cinfo sk)) <$> l) =
    (foldl (λ t sk, consolidate t (be_child_storage_root b sk (cinfo sk) (child_delta o sk)).2) t l, rs ++ child_roots s l)) as Hfold.
  { induction l as [|sk l IH]; intros t rs; cbn [foldl fmap list_fmap]; [by rewrite app_nil_r|].
    pose proof (store_child_root sk (cinfo sk) (child_delta o sk)) as Hr. rewrite (child_state_eq o s sk Hs) in Hr.
    destruct (be_child_storage_root b sk (cinfo sk) (child_delta o sk)) as [[cr e] tx]. cbn in Hr. injection Hr as -> ->.
    cbn [snd]. change (list_fmap _ _ ?f l) with (f <$> l). rewrite IH. by rewrite <- app_assoc. }
  rewrite Hfold. cbn [app]. fold (child_tx b o (walked o)).
  pose proof (store_root (top_delta o ++ child_roots s (walked o))) as Hr.
  destruct (be_storage_root b (top_delta o ++ child_roots s (walked o))) as [r tx] eqn:Er. cbn in Hr.
  assert (r = root) as ->.
  { rewrite Hr. unfold root. f_equal. apply map_eq. intros k. unfold with_child_roots. rewrite child_roots_lookup.
    unfold apply_delta at 1. rewrite foldl_app. fold (apply_delta (top_delta o) content).
    fold (apply_delta (child_roots s (walked o)) (apply_delta (top_delta o) content)). rewrite child_roots_lookup, top_delta_lookup.
    rewrite (proj1 Hs). apply decide_ext. by rewrite walked_elem, elem_of_elements. }
  unfold whole_tx. by rewrite Er.
Qed.

(** *** The cache *)

(** The cached root and transaction are those of an overlay with the same
    contents. *)
Definition cache_ok b x (s : Storage) : Prop :=
  storage_transaction_cache x = cache_new ∨
  ∃ o, infos_ok cinfo o ∧ shows o s ∧ changed_children o = changed_children (overlay x) ∧
    let root := root_of (with_child_roots (changed_children o) s) in
    storage_transaction_cache x = MkCache (Some (whole_tx b o s)) (Some root).

Lemma ext_storage_root_ok b x s :
  StoreRoots b → backend x = b → sim x s → cache_ok b x s.1 →
  ∃ x', ext_storage_root tx_default consolidate order x =
      Ok (encode (root_of (with_child_roots (changed_children (overlay x)) s.1)), x') ∧
    overlay x' = overlay x ∧ backend x' = b ∧ cache_ok b x' s.1 ∧ storage_transaction_cache x' ≠ cache_new.
Proof using Horder.
  intros Hb <- (Hi&Hs&_) Hcache. unfold ext_storage_root. destruct Hcache as [Hc|(o&Hio&Hso&Hch&Hc)].
  - rewrite Hc. cbn. rewrite (overlay_storage_root_ok (backend x) (overlay x) s.1 Hb Hi Hs). cbn [mbind result_bind].
    eexists. split; [done|]. split_and!; [done..| |done]. right. by exists (overlay x).
  - exists x. rewrite Hc. cbn. rewrite Hch. split_and!; [done..| |done]. right. exists o. split_and!; [done..|]. rewrite Hc. by rewrite Hch.
Qed.

Lemma commit_changed o : changed_children (commit_prospective o) = changed_children o.
Proof.
  apply set_eq. intros sk. unfold changed_children. rewrite commit_prospective_empty, !elem_of_union, !elem_of_dom, commit_children.
  cbn. rewrite lookup_empty. split; [intros [[? ?]|?]; done|by right].
Qed.

Lemma step_ok b x s op :
  Store b content child_content → StoreRoots b → backend x = b → sim x s →
  ∃ x', ext_exec op x = Ok x' ∧ backend x' = b ∧ sim x' (basic_exec op s) ∧
    (op ≠ OpDiscard → cache_ok b x s.1 → cache_ok b x' (basic_exec op s).1).
Proof using Horder.
  intros Hst Hr Hb Hs. destruct op as [key v|sk key v|sk|prefix|sk prefix| | |]; cbn [ext_exec].
  - eexists. split; [done|]. split_and!; [unfold ext_place_storage; by case_match|by apply place_sim|].
    intros _ Hc. cbn. unfold ext_place_storage, basic_place_storage. destruct (is_child_storage_key key); [done|by left].
  - destruct (place_child_sim x s sk key v Hs) as (x'&Hx'&Hb'&Hs'). exists x'. split_and!; [done|congruence|done|]. intros _ _. left.
    unfold ext_place_child_storage in Hx'. destruct (set_child_storage _ _ _ _ _); cbn in Hx'; by simplify_eq.
  - destruct (kill_child_sim b x s sk Hst Hb Hs) as (x'&Hx'&Hb'&Hs'). exists x'. split_and!; [done..|]. intros _ _. left.
    unfold ext_kill_child_storage in Hx'. destruct (clear_child_storage _ _ _); cbn in Hx'; [|done..].
    destruct (foldl_m _ _ _); cbn in Hx'; by simplify_eq.
  - eexists. split; [done|]. split_and!; [unfold ext_clear_prefix; by case_match|by eapply clear_prefix_sim|].
    intros _ Hc. cbn. unfold ext_clear_prefix, basic_clear_prefix. destruct (is_child_storage_key prefix); [done|by left].
  - destruct (clear_child_prefix_sim b x s sk prefix Hst Hb Hs) as (x'&Hx'&Hb'&Hs'). exists x'. split_and!; [done..|]. intros _ _. left.
    unfold ext_clear_child_prefix in Hx'. destruct (overlay_clear_child_prefix _ _ _ _); cbn in Hx'; [|done..].
    destruct (foldl_m _ _ _); cbn in Hx'; by simplify_eq.
  - destruct (transaction_storage_root (storage_transaction_cache x)) as [r|] eqn:Er.
    + exists x. unfold ext_storage_root. rewrite Er. cbn. done.
    + destruct Hs as (Hi&Hsh&Hco). unfold ext_storage_root. rewrite Er, Hb.
      rewrite (overlay_storage_root_ok b (overlay x) s.1 Hr Hi Hsh). cbn. eexists. split_and!; [done..|].
      intros _ _. right. by exists (overlay x).
  - eexists. split; [done|]. split_and!; [done|by apply commit_sim|]. intros _ [Hc|(o&?&?&Hch&?)]; [by left|right].
    exists o. split_and!; [done..| |done]. cbn. by rewrite commit_changed.
  - eexists. split; [done|]. split_and!; [done|by apply discard_sim|done].
Qed.

(** A sequence of operations. *)
Definition ext_run (ops : list Op) x : run (Ext E Out Tx) := foldl_m (λ x op, ext_exec op x) x ops.
Definition basic_run (ops : list Op) (s : Storage * Storage) : Storage * Storage := foldl (λ s op, basic_exec op s) s ops.

Lemma run_ok b ops x s :
  Store b content child_content → StoreRoots b → backend x = b → sim x s →
  ∃ x', ext_run ops x = Ok x' ∧ backend x' = b ∧ sim x' (basic_run ops s) ∧
    (OpDiscard ∉ ops → cache_ok b x s.1 → cache_ok b x' (basic_run ops s).1).
Proof using Horder.
  intros Hst Hr. revert x s. induction ops as [|op ops IH]; intros x s Hb Hs; [by exists x|].
  destruct (step_ok b x s op Hst Hr Hb Hs) as (x1&H1&Hb1&Hs1&Hc1).
  destruct (IH x1 (basic_exec op s) Hb1 Hs1) as (x2&H2&Hb2&Hs2&Hc2). exists x2. split_and!; [|done|done|].
  - unfold ext_run in *. cbn [foldl_m]. rewrite H1. exact H2.
  - intros Hno Hc. rewrite elem_of_cons in Hno. apply Hc2; [tauto|]. apply Hc1; [naive_solver|done].
Qed.

(** At the start there are no changes. *)
Definition ext_new b (collect : bool) : Ext E Out Tx := MkExt (set_collect_extrinsics overlay_new collect) b cache_new.

Definition holds (s : Storage) : Prop := s_top s = content ∧ ∀ sk, child_data s sk = child_content sk (cinfo sk).

Lemma new_sim b collect s : holds s → sim (ext_new b collect) (s, s).
Proof.
  intros [Ht Hc]. split; [split; apply empty_infos|].
  assert (shows (set_collect_extrinsics overlay_new collect) s) as Hs; [|split; [exact Hs|exact Hs]].
  split; [intros k; by rewrite Ht|intros sk k; by rewrite Hc].
Qed.

(** *** The end of a block *)

Lemma run_commit ops x x' : ext_run ops x = Ok x' → ext_run (ops ++ [OpCommit]) x = Ok (with_overlay x' (commit_prospective (overlay x'))).
Proof.
  unfold ext_run. revert x. induction ops as [|op ops IH]; intros x; cbn [foldl_m app]; [by intros [= ->]|].
  destruct (ext_exec op x) as [x1| |]; cbn [mbind result_bind]; [apply IH|done..].
Qed.

(** The cache of an externalities without prospective changes gives the changes
    that [drain_storage_changes] takes out. *)
Lemma drain_changes_ok b x s :
  StoreRoots b → backend x = b → sim x s → cache_ok b x s.1 → prospective (overlay x) = empty_set →
  ∃ o sc o', drain_storage_changes tx_default consolidate order (overlay x) b (storage_transaction_cache x) = Ok (sc, o', cache_new) ∧
    infos_ok cinfo o ∧ shows o s.1 ∧ changed_children o = changed_children (overlay x) ∧
    sc_transaction sc = whole_tx b o s.1 ∧
    sc_transaction_storage_root sc = root_of (with_child_roots (changed_children (overlay x)) s.1) ∧
    apply_delta (main_storage_changes sc) content = s_top s.1 ∧
    (∀ sk d, (sk, d) ∈ child_storage_changes sc → apply_delta d (child_content sk (cinfo sk)) = child_data s.1 sk) ∧
    overlay_is_empty o' = true.
Proof using Horder.
  intros Hr Hb (Hi&Hsh&_) Hcache Hp.
  assert (∃ o, infos_ok cinfo o ∧ shows o s.1 ∧ changed_children o = changed_children (overlay x) ∧
    match transaction (storage_transaction_cache x) with
    | None => '(_, cache) ← overlay_storage_root tx_default consolidate order (overlay x) b; Ok cache
    | Some _ => Ok (storage_transaction_cache x)
    end = Ok (MkCache (Some (whole_tx b o s.1)) (Some (root_of (with_child_roots (changed_children (overlay x)) s.1))))) as (o&Hio&Hso&Hch&Hc).
  { destruct Hcache as [Hc|(o&?&?&Hch&Hc)].
    - exists (overlay x). rewrite Hc. cbn. by rewrite (overlay_storage_root_ok b (overlay x) s.1 Hr Hi Hsh).
    - exists o. rewrite Hc, Hch. done. }
  exists o. unfold drain_storage_changes. rewrite Hc. cbn [mbind result_bind expect transaction transaction_storage_root].
  unfold drain_committed. rewrite Hp. change (set_is_empty empty_set) with true. cbn [mbind result_bind].
  do 2 eexists. split; [done|]. cbn [main_storage_changes child_storage_changes sc_transaction sc_transaction_storage_root].
  split_and!; [done..| | |done].
  - apply map_eq. intros k. change (prod_map id value <$> rising (top (committed (overlay x)))) with (changes (top (committed (overlay x)))).
    rewrite changes_lookup, <- (proj1 Hsh k), overlay_storage_look, Hp. cbn. by rewrite look_empty.
  - intros sk d ((k&m&ci)&[= -> ->]&Hk)%list_elem_of_fmap.
    apply list_elem_of_fmap in Hk as ((k'&m'&ci')&[= -> -> ->]&Hk). rewrite (Horder _ _), elem_of_map_to_list in Hk.
    apply map_eq. intros k. cbn [fst snd]. change (prod_map id value <$> rising m') with (changes m').
    rewrite changes_lookup, <- (proj2 Hsh k' k), overlay_child_storage_look, Hp. unfold child_map. rewrite Hk. cbn. by rewrite look_empty.
Qed.

End equivalence.
