(* ===== verification/ExternalitiesHistory.v ===== *)
(** * Histories of the externalities

    - A run of operations on [Ext] over any backend that is a store shows what the
      same run shows on the basic externalities.
    - The backend in memory is a store.  After a run and a commit,
      [drain_storage_changes] gives the root of the new state, and the backend
      updated with its transaction has that state.
    - The root of the top trie commits to every child trie. *)
From stdpp Require Import strings.
From S2P Require Import Prelude StateDbBase Overlay OverlayFacts Externalities ExternalitiesFacts.

Local Open Scope Z_scope.
Local Open Scope list_scope.

(** ** The backend in memory *)

Section memory.
Context {Out : Type} `{!EqDecision Out} `{!Codec Z} `{!Codec Out}.
Context (trie_root : gmap bytes bytes → Out) (child_trie_root : bytes → gmap bytes bytes → Out).

Abbreviation memory := (gmap (option (bytes * bytes)) (gmap bytes bytes)).
Abbreviation top_of inner := (map_of inner None).
Abbreviation child_of inner := (λ sk ci, map_of inner (Some (sk, ci))).
Abbreviation mem := (in_memory trie_root child_trie_root).

Lemma collected_eq (inner : memory) t d : collected inner t d = apply_delta d (map_of inner t).
Proof.
  apply map_eq. intros k. unfold collected. rewrite lookup_omap.
  assert (∀ m m', (∀ k, m' !! k ≫= id = m !! k) →
    (foldl (λ m e, <[e.1 := e.2]> m) m' d : gmap bytes (option bytes)) !! k ≫= id = apply_delta d m !! k) as Hgen.
  { unfold apply_delta. induction d as [|[k' v] d IH]; intros m m' Hm; cbn [foldl]; [apply Hm|]. apply IH. intros k''.
    rewrite apply_change_lookup. cbn [fst snd]. destruct (decide (k'' = k')) as [->|]; [by rewrite lookup_insert_eq|by rewrite lookup_insert_ne]. }
  apply Hgen. intros k'. rewrite lookup_fmap. by destruct (map_of inner t !! k').
Qed.

#[export] Instance in_memory_store (inner : memory) : Store (mem inner) (top_of inner) (child_of inner).
Proof.
  assert (∀ t k, inner !! t ≫= (λ m, m !! k) = map_of inner t !! k) as Hl.
  { intros t k. unfold map_of. by destruct (inner !! t). }
  assert (∀ t (k : bytes), fst <$> (inner !! t ≫= λ m, next_entry m k) = fst <$> next_entry (map_of inner t) k) as Hn.
  { intros t k. unfold map_of. by destruct (inner !! t). }
  split; intros; cbn.
  - by rewrite Hl.
  - by rewrite Hl.
  - unfold map_of. by destruct (inner !! None).
  - by rewrite Hl.
  - eexists. split; [done|]. rewrite Hn. apply next_entry_spec.
  - eexists. split; [done|]. rewrite Hn. apply next_entry_spec.
  - apply rising_keys.
  - by rewrite list_elem_of_filter, rising_keys.
  - by rewrite list_elem_of_filter, rising_keys.
Qed.

#[export] Instance in_memory_roots (inner : memory) : StoreRoots (top_of inner) (child_of inner) trie_root child_trie_root (mem inner).
Proof. split; intros; cbn; by rewrite collected_eq. Qed.

(** Updating one trie after the other. *)
Lemma map_of_update (inner : memory) txs t :
  map_of (update inner txs) t = foldl (λ m c, if decide (c.1 = t) then apply_delta c.2 m else m) (map_of inner t) txs.
Proof.
  unfold update. revert inner. induction txs as [|[t' d] txs IH]; intros inner; cbn [foldl]; [done|]. rewrite IH. f_equal.
  unfold map_of. cbn [fst snd]. case_decide as Ht; [subst; by rewrite lookup_insert_eq|by rewrite lookup_insert_ne].
Qed.

Lemma update_other (inner : memory) txs t : (∀ c, c ∈ txs → c.1 ≠ t) → map_of (update inner txs) t = map_of inner t.
Proof.
  rewrite map_of_update. generalize (map_of inner t). induction txs as [|c txs IH]; intros m Ht; cbn [foldl]; [done|].
  rewrite decide_False by (apply Ht; by left). apply IH. intros c' Hc'. apply Ht. by right.
Qed.

Context (cinfo : bytes → bytes) (order : ∀ V, gmap bytes V → list (bytes * V)) (Horder : ∀ V m, order V m ≡ₚ map_to_list m).

(** The transactions of the backend, which [consolidate] appends. *)
Lemma child_tx_eq (inner : memory) o l :
  child_tx cinfo [] app (mem inner) o l = (λ sk, (Some (sk, cinfo sk), child_delta o sk)) <$> l.
Proof.
  unfold child_tx. induction l as [|sk l IH] using rev_ind; [done|]. rewrite foldl_app, fmap_app, IH. done.
Qed.

Lemma child_update o s sk l m :
  (∀ k, shown (overlay_child_storage o sk k) (m !! k) = child_data s sk !! k) →
  foldl (λ m c, if decide (c.1 = Some (sk, cinfo sk)) then apply_delta c.2 m else m) m
    ((λ sk, (Some (sk, cinfo sk), child_delta o sk)) <$> l) = if decide (sk ∈ l) then child_data s sk else m.
Proof.
  revert m. induction l as [|sk' l IH]; intros m Hm; [done|]. cbn [fmap list_fmap foldl fst snd].
  destruct (decide (sk' = sk)) as [->|Hne].
  - rewrite decide_True by done. assert (apply_delta (child_delta o sk) m = child_data s sk) as ->.
    { apply map_eq. intros k. by rewrite child_delta_lookup. }
    change (list_fmap _ _ ?f l) with (f <$> l). rewrite IH.
    + rewrite (decide_True (P := sk ∈ sk :: l)) by (by left). by case_decide.
    + intros k. rewrite <- Hm. by destruct (overlay_child_storage o sk k).
  - rewrite decide_False by congruence. change (list_fmap _ _ ?f l) with (f <$> l). rewrite IH by done. apply decide_ext.
    rewrite elem_of_cons. split; [by right|by intros [->|?]].
Qed.

(** The backend after the transaction of a run. *)
Lemma update_whole_tx (inner : memory) o s :
  shows (top_of inner) (child_of inner) cinfo o s →
  let inner' := update inner (whole_tx cinfo [] app order child_trie_root (mem inner) o s) in
  map_of inner' None = with_child_roots child_trie_root (changed_children o) s ∧
  ∀ sk, map_of inner' (Some (sk, cinfo sk)) = child_data s sk.
Proof using Horder.
  intros Hs inner'. unfold inner', whole_tx. cbn [be_storage_root in_memory snd]. rewrite child_tx_eq. split.
  - rewrite map_of_update, foldl_app. cbn [foldl fst snd]. rewrite decide_True by done.
    rewrite <- map_of_update, update_other by (by intros c (sk&->&_)%list_elem_of_fmap).
    apply map_eq. intros k. unfold with_child_roots. rewrite child_roots_lookup. unfold apply_delta. rewrite foldl_app.
    fold (apply_delta (top_delta o) (top_of inner)). fold (apply_delta (child_roots child_trie_root s (walked order o)) (apply_delta (top_delta o) (top_of inner))).
    rewrite child_roots_lookup, top_delta_lookup, (proj1 Hs). apply decide_ext. by rewrite (walked_elem order Horder), elem_of_elements.
  - intros sk. rewrite map_of_update, foldl_app. cbn [foldl fst snd]. rewrite decide_False by done.
    rewrite (child_update o s) by apply Hs. case_decide as Hsk; [done|]. rewrite (walked_elem order Horder) in Hsk.
    unfold changed_children in Hsk. rewrite not_elem_of_union, !not_elem_of_dom in Hsk. destruct Hsk as [Hp Hc].
    apply map_eq. intros k. rewrite <- (proj2 Hs sk k), overlay_child_storage_look. unfold child_map. rewrite Hp, Hc. done.
Qed.

End memory.

(** ** The same state as on plain maps *)

Section same_state.
Context {E Out Tx : Type} `{!Codec Z} `{!Codec Out} `{!EqDecision Out} (hash : bytes → Out) (cinfo : bytes → bytes).

(** Every read gives the same on both. *)
Definition same_reads (x : Ext E Out Tx) (s : Storage) : Prop :=
  (∀ key,
    ext_storage x key = Ok (basic_storage s key) ∧
    ext_storage_hash hash x key = Ok ((λ v, encode (hash v)) <$> basic_storage s key) ∧
    ext_exists_storage x key = Ok (bool_decide (is_Some (basic_storage s key))) ∧
    ext_next_storage_key x key = Some (Ok (basic_next_storage_key s key))) ∧
  ∀ sk key,
    ext_child_storage x sk (cinfo sk) key = Ok (basic_child_storage s sk key) ∧
    ext_child_storage_hash hash x sk (cinfo sk) key = Ok ((λ v, encode (hash v)) <$> basic_child_storage s sk key) ∧
    ext_exists_child_storage x sk (cinfo sk) key = Ok (bool_decide (is_Some (basic_child_storage s sk key))) ∧
    ext_next_child_storage_key x sk (cinfo sk) key = Some (Ok (basic_next_child_storage_key s sk key)).

(** C4. Any sequence of writes, deletions of a prefix or of a child trie, root
    computations, commits and discards runs without a panic on the overlayed
    changes of any backend that is a store; then every read (a value, its hash,
    whether a key exists, the next key, of the top trie and of child tries) gives
    what the basic externalities give after the same operations, a discard taking
    them back to the last commit. *)
Theorem externalities_equivalent content child_content root_of child_root_of (tx_default : Tx) consolidate order
    (b : Backend E Out Tx) collect s ops :
  (∀ V m, order V m ≡ₚ map_to_list m) →
  Store b content child_content → StoreRoots content child_content root_of child_root_of b →
  holds content child_content cinfo s →
  ∃ x, ext_run cinfo tx_default consolidate order ops (ext_new b collect) = Ok x ∧
    same_reads x (basic_run cinfo ops (s, s)).1 ∧
    ∀ key, ext_original_storage x key = Ok (content !! key).
Proof.
  intros Horder Hst Hr Hs.
  destruct (run_ok content child_content cinfo tx_default consolidate order Horder root_of child_root_of b ops (ext_new b collect) (s, s))
    as (x&Hx&Hb&(_&Hsh&_)&_); [done..|by apply new_sim|].
  exists x. split; [done|]. split; [split|]; intros.
  - destruct (reads_ok content child_content cinfo hash b x _ key Hst Hb Hsh) as (?&?&?&?&_). done.
  - destruct (child_reads_ok content child_content cinfo hash b x _ sk key Hst Hb Hsh) as (?&?&?&?&_). done.
  - by destruct (reads_ok content child_content cinfo hash b x _ key Hst Hb Hsh) as (_&_&_&_&?).
Qed.

End same_state.

(** ** Blocks *)

Section blocks.
Context {Out : Type} `{!EqDecision Out} `{!Codec Z} `{!Codec Out}.
Context (trie_root : gmap bytes bytes → Out) (child_trie_root : bytes → gmap bytes bytes → Out).
Context (cinfo : bytes → bytes) (order : ∀ V, gmap bytes V → list (bytes * V)).

(** The state of the backend. *)
Definition state_of (inner : gmap (option (bytes * bytes)) (gmap bytes bytes)) (s : Storage) : Prop :=
  map_of inner None = s_top s ∧ ∀ sk, map_of inner (Some (sk, cinfo sk)) = child_data s sk.

Lemma state_holds inner s : state_of inner s → holds (map_of inner None) (λ sk ci, map_of inner (Some (sk, ci))) cinfo s.
Proof. intros [Ht Hc]. split; [done|]. intros sk. by rewrite Hc. Qed.

(** A block: the operations of its execution, a commit, and the changes that are
    taken out. *)
Definition execute_block (inner : gmap (option (bytes * bytes)) (gmap bytes bytes)) (collect : bool) (ops : list Op) :
    run (Ext Empty_set Out (list (option (bytes * bytes) * delta)) * StorageChanges Out (list (option (bytes * bytes) * delta)) * OverlayedChanges) :=
  x ← ext_run cinfo [] app order (ops ++ [OpCommit]) (ext_new (in_memory trie_root child_trie_root inner) collect);
  '(sc, o, _) ← drain_storage_changes [] app order (overlay x) (backend x) (storage_transaction_cache x);
  Ok (x, sc, o).

Lemma execute_block_ok inner collect s ops :
  (∀ V m, order V m ≡ₚ map_to_list m) → state_of inner s → OpDiscard ∉ ops →
  let s' := (basic_run cinfo ops (s, s)).1 in
  ∃ x sc o, execute_block inner collect ops = Ok (x, sc, o) ∧ overlay_is_empty o = true ∧
    sim (map_of inner None) (λ sk ci, map_of inner (Some (sk, ci))) cinfo x (s', s') ∧
    let top := with_child_roots child_trie_root (changed_children (overlay x)) s' in
    sc_transaction_storage_root sc = trie_root top ∧
    state_of (update inner (sc_transaction sc)) (MkStorage top (s_children s')) ∧
    apply_delta (main_storage_changes sc) (s_top s) = s_top s' ∧
    ∀ sk d, (sk, d) ∈ child_storage_changes sc → apply_delta d (child_data s sk) = child_data s' sk.
Proof.
  intros Horder Hst Hops s'. pose proof (state_holds inner s Hst) as Hh. set (b := in_memory trie_root child_trie_root inner).
  destruct (run_ok (map_of inner None) (λ sk ci, map_of inner (Some (sk, ci))) cinfo [] app order Horder trie_root child_trie_root
    b (ops ++ [OpCommit]) (ext_new b collect) (s, s)) as (x&Hx&Hb&Hs&Hc); [apply _..|done|by apply new_sim|].
  assert (basic_run cinfo (ops ++ [OpCommit]) (s, s) = (s', s')) as Hrun by (unfold basic_run; by rewrite foldl_app).
  rewrite Hrun in Hs, Hc.
  assert (prospective (overlay x) = empty_set) as Hp.
  { destruct (run_ok (map_of inner None) (λ sk ci, map_of inner (Some (sk, ci))) cinfo [] app order Horder trie_root child_trie_root
      b ops (ext_new b collect) (s, s)) as (x1&Hx1&_); [apply _..|done|by apply new_sim|].
    apply run_commit in Hx1. rewrite Hx1 in Hx. injection Hx as <-. apply commit_prospective_empty. }
  destruct (drain_changes_ok (map_of inner None) (λ sk ci, map_of inner (Some (sk, ci))) cinfo [] app order Horder trie_root child_trie_root
    b x (s', s')) as (o&sc&o'&Hd&_&Hsh&Hch&Htx&Hroot&Hmain&Hchild&Ho'); [apply _|done|done| |done|].
  { apply Hc; [|by left]. rewrite elem_of_app, list_elem_of_singleton. by intros [?|?]. }
  exists x, sc, o'. split; [|split; [done|split; [done|cbv zeta; split; [done|split; [|split]]]]].
  - unfold execute_block. fold b. rewrite Hx. cbn [mbind result_bind]. rewrite Hb, Hd. done.
  - rewrite Htx. destruct (update_whole_tx trie_root child_trie_root cinfo order Horder inner o s' Hsh) as [Ht Hcs].
    split; [etrans; [exact Ht|by rewrite Hch]|exact Hcs].
  - rewrite <- (proj1 Hst). exact Hmain.
  - intros sk d Hin. rewrite <- (proj2 Hst). by apply Hchild.
Qed.

(** C5. A block executed on the backend in memory without discards, with roots
    computed at any point of it, ends without a panic: the changes that are taken
    out leave an empty overlay, their root is that of the new top trie, which is
    the one of the basic externalities with the roots of the changed child tries;
    the backend updated with the transaction has that top trie and the child tries
    of the basic externalities; and the lists of changes lead from the old state
    to the new one. *)
Theorem execute_block_correct inner collect s ops :
  (∀ V m, order V m ≡ₚ map_to_list m) → state_of inner s → OpDiscard ∉ ops →
  let s' := (basic_run cinfo ops (s, s)).1 in
  ∃ x sc o, execute_block inner collect ops = Ok (x, sc, o) ∧ overlay_is_empty o = true ∧
    let top := with_child_roots child_trie_root (changed_children (overlay x)) s' in
    sc_transaction_storage_root sc = trie_root top ∧
    state_of (update inner (sc_transaction sc)) (MkStorage top (s_children s')) ∧
    apply_delta (main_storage_changes sc) (s_top s) = s_top s' ∧
    ∀ sk d, (sk, d) ∈ child_storage_changes sc → apply_delta d (child_data s sk) = child_data s' sk.
Proof.
  intros Ho Hst Hops s'. destruct (execute_block_ok inner collect s ops Ho Hst Hops) as (x&sc&o&?&?&_&?). by exists x, sc, o.
Qed.

(** Every child trie has its root in the top trie, an empty one none. *)
Definition rooted (s : Storage) : Prop :=
  ∀ sk, is_child_storage_key sk = true → s_top s !! sk = child_root_value child_trie_root s sk.

(** The operations that delete no root of a child trie. *)
Definition keeps_child_roots (op : Op) : bool :=
  match op with OpClearPrefix prefix => negb (starts_with prefix CHILD_STORAGE_KEY_PREFIX) | _ => true end.

Lemma starts_with_both p q k : starts_with p k = true → starts_with q k = true → starts_with p q = true ∨ starts_with q p = true.
Proof.
  revert q k. induction p as [|a p IH]; intros q k; [by left|]. destruct q as [|c q], k as [|d k]; cbn; [by right..|done|].
  rewrite !andb_true_iff, !Z.eqb_eq. intros [-> Hp] [-> Hq]. destruct (IH q k Hp Hq); auto.
Qed.

Lemma child_key_kept op s sk :
  keeps_child_roots op = true → op ≠ OpDiscard → is_child_storage_key sk = true →
  s_top (basic_exec cinfo op s).1 !! sk = s_top s.1 !! sk.
Proof.
  intros Hop Hd Hsk. destruct op as [key v|sk' key v|sk'|prefix|sk' prefix| | |]; try done; cbn.
  - unfold basic_place_storage. destruct (is_child_storage_key key) eqn:Hkey; [done|]. cbn [s_top].
    rewrite apply_change_lookup, decide_False by congruence. done.
  - unfold basic_clear_prefix. destruct (is_child_storage_key prefix) eqn:Hp; [done|]. cbn [s_top]. rewrite remove_prefix_lookup.
    destruct (starts_with prefix sk) eqn:Hps; [|done]. cbn in Hop. apply negb_true_iff in Hop.
    destruct (starts_with_both _ _ _ Hps Hsk) as [?|?]; unfold is_child_storage_key in *; congruence.
  - unfold basic_clear_child_prefix. by destruct (s_children s.1 !! sk').
Qed.

Lemma child_keys_kept ops s sk :
  Forall (λ op, keeps_child_roots op = true) ops → OpDiscard ∉ ops → is_child_storage_key sk = true →
  s_top (basic_run cinfo ops s).1 !! sk = s_top s.1 !! sk.
Proof.
  intros Hops. unfold basic_run. revert s. induction Hops as [|op ops Hop _ IH]; intros s Hd Hsk; cbn [foldl]; [done|].
  rewrite elem_of_cons in Hd. rewrite IH by tauto. apply child_key_kept; [done|intros ->; tauto|done].
Qed.

(** C36. If every child trie of the backend has its root in the top trie, then so it
    is after a block, whose root is the root of such a top trie: the root of a
    block commits to all child tries.  The block may delete any prefix that is
    not a beginning of the prefix of child tries. *)
Theorem block_root_commits_children inner collect s ops :
  (∀ V m, order V m ≡ₚ map_to_list m) → state_of inner s → rooted s →
  OpDiscard ∉ ops → Forall (λ op, keeps_child_roots op = true) ops →
  ∃ x sc o s', execute_block inner collect ops = Ok (x, sc, o) ∧
    state_of (update inner (sc_transaction sc)) s' ∧ rooted s' ∧
    sc_transaction_storage_root sc = trie_root (s_top s') ∧
    s_children s' = s_children (basic_run cinfo ops (s, s)).1.
Proof.
  intros Ho Hst Hr Hd Hops. destruct (execute_block_ok inner collect s ops Ho Hst Hd) as (x&sc&o&Hx&_&(_&Hsh&_)&Hroot&Hst'&_).
  set (s' := (basic_run cinfo ops (s, s)).1) in *. eexists x, sc, o, _. split; [done|]. split; [exact Hst'|]. split_and!; [|done|done].
  intros sk Hsk. cbn [s_top]. unfold with_child_roots. rewrite child_roots_lookup. case_decide as Hch; [done|].
  rewrite elem_of_elements in Hch. unfold s'. rewrite child_keys_kept by done. cbn [fst]. rewrite Hr by done.
  assert (child_data s sk = child_data s' sk) as Heq; [|unfold child_root_value; rewrite Heq; done].
  rewrite <- (proj2 Hst). apply map_eq. intros k. etrans; [|exact (proj2 Hsh sk k)]. rewrite overlay_child_storage_look.
  unfold changed_children in Hch. rewrite not_elem_of_union, !not_elem_of_dom in Hch. destruct Hch as [Hp Hc].
  unfold child_map. by rewrite Hp, Hc.
Qed.

End blocks.

(** ** Small states *)

Module SmallState.

#[local] Instance Z_codec : Codec Z := {|
  encode z := [z];
  decode b := match b with [z] => Some z | _ => None end;
  decode_encode z := eq_refl;
|}.
#[local] Instance bytes_codec : Codec bytes := {|
  encode b := b;
  decode b := Some b;
  decode_encode b := eq_refl;
|}.

(** A root that lists the contents. *)
Definition root (m : gmap bytes bytes) : bytes := concat ((λ e, (Z.of_nat (length e.1) :: e.1) ++ Z.of_nat (length e.2) :: e.2) <$> rising m).
Definition child_root (_ : bytes) : gmap bytes bytes → bytes := root.
Definition walk (V : Type) (m : gmap bytes V) : list (bytes * V) := map_to_list m.
Definition info (sk : bytes) : bytes := 7 :: sk.
Definition trie : bytes := byte_string ":child_storage:default:a".

(** A state with one key and one child trie, whose root is in the top trie. *)
Definition child_map0 : gmap bytes bytes := {[ [5] := [6] ]}.
Definition state : Storage := MkStorage {[ [1] := [2]; trie := root child_map0 ]} {[ trie := (child_map0, info trie) ]}.
Definition memory0 : gmap (option (bytes * bytes)) (gmap bytes bytes) := {[ None := s_top state; Some (trie, info trie) := child_map0 ]}.
Definition mem0 := in_memory root child_root memory0.

Lemma state_ok : state_of info memory0 state.
Proof.
  split; unfold map_of, memory0; [rewrite lookup_insert_eq; reflexivity|].
  intros sk. rewrite lookup_insert_ne by discriminate. unfold child_data, state. cbn [s_children].
  destruct (decide (sk = trie)) as [->|Hsk]; [rewrite !lookup_singleton_eq; reflexivity|].
  rewrite !lookup_singleton_ne by congruence. reflexivity.
Qed.

(** Writes, a root in the middle, and deletions. *)
Definition some_ops : list Op :=
  [OpPlace [1] (Some [3]); OpPlaceChild trie [5] None; OpRoot; OpPlaceChild trie [8] (Some [9]); OpClearPrefix [1]; OpPlace [1; 2] (Some [4]); OpRoot].

Lemma no_discard : OpDiscard ∉ some_ops.
Proof. intros Hin. unfold some_ops in Hin. rewrite !elem_of_cons, elem_of_nil in Hin. by repeat destruct Hin as [Hin|Hin]. Qed.

Lemma externalities_equivalent_witness :
  holds (map_of memory0 None) (λ sk ci, map_of memory0 (Some (sk, ci))) info state ∧
  ∃ x, ext_run info [] app walk (some_ops ++ [OpDiscard]) (ext_new mem0 true) = Ok x ∧
    same_reads (λ b, b) info x (basic_run info (some_ops ++ [OpDiscard]) (state, state)).1 ∧
    ∀ key, ext_original_storage x key = Ok (map_of memory0 None !! key).
Proof.
  split; [exact (state_holds info memory0 state state_ok)|].
  apply (externalities_equivalent (λ b, b) info (map_of memory0 None) (λ sk ci, map_of memory0 (Some (sk, ci))) root child_root
    [] app walk mem0 true state (some_ops ++ [OpDiscard])).
  - intros V m. reflexivity.
  - apply in_memory_store.
  - apply in_memory_roots.
  - exact (state_holds info memory0 state state_ok).
Defined.

Lemma execute_block_correct_witness :
  state_of info memory0 state ∧
  ∃ x sc o, execute_block root child_root info walk memory0 true some_ops = Ok (x, sc, o) ∧ overlay_is_empty o = true ∧
    let s' := (basic_run info some_ops (state, state)).1 in
    let top := with_child_roots child_root (changed_children (overlay x)) s' in
    sc_transaction_storage_root sc = root top ∧
    state_of info (update memory0 (sc_transaction sc)) (MkStorage top (s_children s')) ∧
    apply_delta (main_storage_changes sc) (s_top state) = s_top s' ∧
    ∀ sk d, (sk, d) ∈ child_storage_changes sc → apply_delta d (child_data state sk) = child_data s' sk.
Proof.
  split; [exact state_ok|]. apply (execute_block_correct root child_root info walk memory0 true state some_ops).
  - intros V m. reflexivity.
  - exact state_ok.
  - exact no_discard.
Defined.

Lemma state_rooted : rooted child_root state.
Proof.
  intros sk Hsk. destruct (decide (sk = trie)) as [->|Hne]; [by vm_compute|].
  unfold child_root_value, child_data, state. cbn [s_children s_top]. rewrite (lookup_singleton_ne trie) by done.
  destruct (decide (sk = [1])) as [->|Hne1]; [by vm_compute in Hsk|].
  by rewrite lookup_insert_ne, lookup_singleton_ne by done.
Qed.

Lemma block_root_commits_children_witness :
  state_of info memory0 state ∧ rooted child_root state ∧
  ∃ x sc o s', execute_block root child_root info walk memory0 true some_ops = Ok (x, sc, o) ∧
    state_of info (update memory0 (sc_transaction sc)) s' ∧ rooted child_root s' ∧
    sc_transaction_storage_root sc = root (s_top s') ∧
    s_children s' = s_children (basic_run info some_ops (state, state)).1.
Proof.
  split; [exact state_ok|]. split; [exact state_rooted|].
  apply (block_root_commits_children root child_root info walk memory0 true state some_ops).
  - intros V m. reflexivity.
  - exact state_ok.
  - exact state_rooted.
  - exact no_discard.
  - repeat constructor.
Defined.

(** ** Roots that miss something *)

(** The storage root of the basic externalities does not depend on the child
    tries: the top trie with their roots is computed and not used. *)
Lemma basic_root_ignores_children :
  ∃ s1 s2, s_top s1 = s_top s2 ∧ (∀ sk, is_Some (s_children s1 !! sk) → is_child_trie_key_valid sk = true) ∧
    child_data s1 trie ≠ child_data s2 trie ∧
    basic_storage_root root child_root walk s1 = basic_storage_root root child_root walk s2.
Proof.
  exists (MkStorage ∅ {[ trie := ({[ [5] := [6] ]}, info trie) ]}), (MkStorage ∅ {[ trie := ({[ [5] := [7] ]}, info trie) ]}).
  split; [done|]. split.
  - intros sk. cbn [s_children]. destruct (decide (sk = trie)) as [->|Hne]; [by vm_compute|].
    rewrite lookup_singleton_ne by done. by intros [? ?].
  - split; [by apply (bool_decide_unpack _)|by vm_compute].
Qed.

(** The root of the child trie, whose key is changed, before or after asking for
    the storage root. *)
Definition child_root_after (ops : list Op) : run bytes :=
  x ← ext_run info [] app walk (OpPlaceChild trie [5] (Some [7]) :: ops) (ext_new mem0 true);
  r ← ext_child_storage_root (λ _, []) x trie;
  Ok r.1.

(** Asked for after the storage root, it is the one before the change: the cached
    branch reads it from the top trie, where [storage_root] did not put it. *)
Lemma child_root_stale :
  child_root_after [] = Ok (root {[ [5] := [7] ]}) ∧ child_root_after [OpRoot] = Ok (root {[ [5] := [6] ]}) ∧
  root {[ [5] := [7] ]} ≠ root {[ [5] := [6] ]}.
Proof. split_and!; [vm_compute; reflexivity..|by vm_compute]. Qed.

(** Deleting the empty prefix also deletes the root of a child trie that keeps its
    contents: the guard of [clear_prefix] only looks for prefixes inside the child
    tries. *)
Definition cleared : run (option bytes * option bytes * bytes) :=
  '(_, sc, _) ← execute_block root child_root info walk memory0 true [OpClearPrefix []];
  let inner := update memory0 (sc_transaction sc) in
  Ok (map_of inner (Some (trie, info trie)) !! [5], map_of inner None !! trie, sc_transaction_storage_root sc).

Lemma clear_prefix_drops_child_root : cleared = Ok (Some [6], None, root ∅).
Proof. vm_compute. reflexivity. Qed.

(** A root that was computed before a discard stays in the cache. *)
Definition after_discard : run (option bytes * bytes) :=
  x ← ext_run info [] app walk [OpPlace [1] (Some [3]); OpRoot; OpDiscard] (ext_new mem0 true);
  v ← ext_storage x [1];
  r ← ext_storage_root [] app walk x;
  Ok (v, r.1).

Lemma cached_root_survives_discard : after_discard = Ok (Some [2], root (<[ [1] := [3] ]> (s_top state))).
Proof. vm_compute. reflexivity. Qed.

End SmallState.
