(* ===== verification/Era.v ===== *)
(** * Eras (src/primitives/runtime/src/generic/era.rs)

    How long a transaction is valid: forever, or for a period that starts at a
    phase of it.  A mortal era is encoded in two bytes.  An overflow of a 64-bit
    number is a panic. *)
From S2P Require Import Prelude PerThings.

Local Open Scope Z_scope.

Inductive Era : Type := Immortal | Mortal (period phase : Z).

(** [u64::checked_next_power_of_two] and [u64::trailing_zeros] *)
Definition checked_next_power_of_two (x : Z) : option Z := let p := 2 ^ Z.log2_up x in if p <? 2 ^ 64 then Some p else None.
Definition trailing_zeros (x : Z) : Z := if x =? 0 then 64 else Z.log2 (Z.land x (- x)).

Definition quantize_factor (period : Z) : Z := Z.max (Z.shiftr period 12) 1.

Definition mortal (period current : Z) : run Era :=
  let period := Z.min (Z.max (default (Z.shiftl 1 16) (checked_next_power_of_two period)) 4) (Z.shiftl 1 16) in
  phase ← urem current period;
  q ← udiv phase (quantize_factor period);
  Ok (Mortal period (q * quantize_factor period)).

Definition immortal : Era := Immortal.
Definition is_immortal (e : Era) : bool := match e with Immortal => true | _ => false end.

(** The product and the sum do not exceed the larger of the block and the phase. *)
Definition birth (e : Era) (current : Z) : run Z :=
  match e with
  | Immortal => Ok 0
  | Mortal period phase => q ← udiv (Z.max current phase - phase) period; Ok (q * period + phase)
  end.

Definition death (e : Era) (current : Z) : run Z :=
  match e with
  | Immortal => Ok (max_value 64)
  | Mortal period _ => b ← birth e current; uadd 64 b period
  end.

(** The number of zeros less one is a subtraction of [u32]. *)
Definition encode_to (e : Era) : run (list Z) :=
  match e with
  | Immortal => Ok [0]
  | Mortal period phase =>
      zeros ← expect (checked_sub (trailing_zeros period) 1);
      q ← udiv phase (quantize_factor period);
      let encoded := Z.lor (Z.min (Z.max zeros 1) 15) (wrap 16 (wrap 64 (Z.shiftl q 4))) in
      Ok [encoded mod 256; encoded / 256]
  end.

Inductive DecodeError : Type := UnexpectedEnd | InvalidPeriodAndPhase.

(** The rest of the input is returned. *)
Definition decode_era (input : list Z) : result DecodeError (Era * list Z) :=
  match input with
  | [] => Err UnexpectedEnd
  | first :: rest =>
      if first =? 0 then Ok (Immortal, rest)
      else
        match rest with
        | [] => Err UnexpectedEnd
        | second :: rest =>
            let encoded := first + Z.shiftl second 8 in
            let period := Z.shiftl 2 (encoded mod 16) in
            let phase := Z.shiftr encoded 4 * quantize_factor period in
            if (4 <=? period) && (phase <? period) then Ok (Mortal period phase, rest)
            else Err InvalidPeriodAndPhase
        end
  end.

(** ** Valid eras *)

(** The period is a power of two, and the phase is within it and a multiple of
    the factor. *)
Definition valid_era (e : Era) : Prop :=
  match e with
  | Immortal => True
  | Mortal period phase => ∃ k q, 2 ≤ k ≤ 16 ∧ period = 2 ^ k ∧ 0 ≤ q ∧ phase = q * 2 ^ Z.max 0 (k - 12) ∧ phase < period
  end.

Lemma factor_pow k : 0 ≤ k → quantize_factor (2 ^ k) = 2 ^ Z.max 0 (k - 12).
Proof.
  intros Hk. unfold quantize_factor. destruct (Z.le_gt_cases 12 k) as [Hle|Hgt].
  - rewrite Z.shiftr_div_pow2, <- Z.pow_sub_r by lia. rewrite (Z.max_r 0 (k - 12)) by lia. pose proof (Z.pow_pos_nonneg 2 (k - 12)). lia.
  - rewrite Z.shiftr_div_pow2 by lia. rewrite Z.div_small; [by rewrite (Z.max_l 0 (k - 12)) by lia|].
    split; [apply Z.pow_nonneg; lia|apply Z.pow_lt_mono_r; lia].
Qed.

Lemma zeros_pow k : 0 ≤ k → trailing_zeros (2 ^ k) = k.
Proof.
  intros Hk. unfold trailing_zeros. rewrite (proj2 (Z.eqb_neq _ 0)) by (apply Z.pow_nonzero; lia).
  assert (Z.land (2 ^ k) (- 2 ^ k) = 2 ^ k) as ->; [|by apply Z.log2_pow2].
  apply Z.bits_inj'. intros n Hn. rewrite Z.land_spec, Z.pow2_bits_eqb by done. destruct (Z.eqb_spec k n) as [<-|]; [|done]. cbn [andb].
  rewrite Z.bits_opp by done. apply negb_true_iff. replace (Z.pred (2 ^ k)) with (Z.ones k) by (by rewrite Z.ones_equiv).
  apply Z.ones_spec_high. lia.
Qed.

(** What the two bytes say. *)
Lemma encode_mortal k q :
  2 ≤ k ≤ 16 → 0 ≤ q → q * 2 ^ Z.max 0 (k - 12) < 2 ^ k →
  encode_to (Mortal (2 ^ k) (q * 2 ^ Z.max 0 (k - 12))) = Ok [(k - 1 + q * 16) mod 256; (k - 1 + q * 16) / 256] ∧ 0 ≤ q < 4096.
Proof.
  intros Hk Hq Hlt. assert (0 < 2 ^ Z.max 0 (k - 12)) as Hpos by (apply Z.pow_pos_nonneg; lia).
  assert (q < 4096) as Hq2.
  { assert (2 ^ k ≤ 4096 * 2 ^ Z.max 0 (k - 12)); [|nia]. change 4096 with (2 ^ 12). rewrite <- Z.pow_add_r by lia. apply Z.pow_le_mono_r; lia. }
  split; [|lia]. unfold encode_to. rewrite zeros_pow, factor_pow by lia. rewrite checked_sub_Some by lia. cbn [expect mbind result_bind].
  unfold udiv. rewrite (proj2 (Z.eqb_neq _ 0)) by lia. cbn [mbind result_bind]. rewrite Z.div_mul by lia.
  rewrite Z.shiftl_mul_pow2 by lia. rewrite (wrap_small 64), (wrap_small 16) by (unfold fits; lia). rewrite Z.max_l, Z.min_l by lia.
  assert (Z.lor (k - 1) (q * 2 ^ 4) = k - 1 + q * 16) as ->; [|done].
  assert (Z.land (k - 1) (q * 2 ^ 4) = 0) as Hland.
  { apply Z.bits_inj'. intros n Hn. rewrite Z.land_spec, Z.bits_0. destruct (Z.lt_ge_cases n 4); [rewrite Z.mul_pow2_bits_low by done; apply andb_false_r|].
    rewrite (Z.bits_above_log2 (k - 1)); [done|lia|]. apply Z.lt_le_trans with 4; [|done]. apply Z.log2_lt_pow2; lia. }
  rewrite <- Z.lxor_lor, <- Z.add_nocarry_lxor by done. lia.
Qed.

Lemma decode_mortal k q rest :
  2 ≤ k ≤ 16 → 0 ≤ q < 4096 → q * 2 ^ Z.max 0 (k - 12) < 2 ^ k →
  decode_era ((k - 1 + q * 16) mod 256 :: (k - 1 + q * 16) / 256 :: rest) = Ok (Mortal (2 ^ k) (q * 2 ^ Z.max 0 (k - 12)), rest).
Proof.
  intros Hk Hq Hlt. set (e := k - 1 + q * 16). assert (e mod 256 + Z.shiftl (e / 256) 8 = e) as He.
  { rewrite Z.shiftl_mul_pow2 by lia. pose proof (Z.div_mod e 256). lia. }
  assert (e mod 16 = k - 1) as Hm by (unfold e; rewrite Z.mod_add, Z.mod_small by lia; done).
  assert (Z.shiftr e 4 = q) as Hs by (unfold e; rewrite Z.shiftr_div_pow2, Z.div_add, Z.div_small by lia; done).
  assert (e mod 256 ≠ 0) as Hnz.
  { intros Hz. assert (e mod 16 = 0) as Hz'; [|lia]. apply Z.mod_divide; [done|]. apply Z.divide_trans with 256; [by exists 16|]. by apply Z.mod_divide. }
  unfold decode_era. rewrite (proj2 (Z.eqb_neq _ 0)) by done. rewrite He, Hm, Hs, Z.shiftl_mul_pow2 by lia.
  assert (2 * 2 ^ (k - 1) = 2 ^ k) as -> by (rewrite <- Z.pow_succ_r by lia; f_equal; lia). rewrite factor_pow by lia.
  rewrite (proj2 (Z.leb_le 4 _)); [|change 4 with (2 ^ 2); apply Z.pow_le_mono_r; lia]. by rewrite (proj2 (Z.ltb_lt _ _)).
Qed.

Lemma mortal_ok period current : 0 ≤ period < 2 ^ 64 → fits 64 current →
  ∃ k q, 2 ≤ k ≤ 16 ∧ mortal period current = Ok (Mortal (2 ^ k) (q * 2 ^ Z.max 0 (k - 12))) ∧
    q = current mod 2 ^ k / 2 ^ Z.max 0 (k - 12) ∧ (4 ≤ period ≤ 65536 → period ≤ 2 ^ k < 2 * period).
Proof.
  intros Hp Hc. set (p := Z.min (Z.max (default (Z.shiftl 1 16) (checked_next_power_of_two period)) 4) (Z.shiftl 1 16)).
  assert (∃ k, 2 ≤ k ≤ 16 ∧ p = 2 ^ k ∧ (4 ≤ period ≤ 65536 → period ≤ 2 ^ k < 2 * period)) as (k&Hk&Ep&Hb).
  { assert (2 ^ Z.log2_up period < 2 ^ 64 → checked_next_power_of_two period = Some (2 ^ Z.log2_up period)) as Hsome
      by (intros Hl; unfold checked_next_power_of_two; by rewrite (proj2 (Z.ltb_lt _ _))).
    destruct (Z.le_gt_cases period 4) as [H4|H4].
    - exists 2. assert (Z.log2_up period ≤ 2) as Hl by (apply (Z.log2_up_le_mono period 4); lia).
      assert (2 ^ Z.log2_up period ≤ 2 ^ 2) as Hpow by (apply Z.pow_le_mono_r; lia). unfold p. rewrite Hsome by lia. cbn [default from_option id].
      split; [lia|]. split; [rewrite Z.max_r by lia; done|cbn; lia].
    - pose proof (Z.log2_up_spec period ltac:(lia)) as [Hlo Hhi]. pose proof (Z.log2_up_nonneg period) as Hnn.
      destruct (Z.le_gt_cases period 65536) as [H16|H16].
      + exists (Z.log2_up period). assert (Z.log2_up period ≤ 16) as Hl by (apply (Z.log2_up_le_mono period 65536); lia).
        assert (2 < Z.log2_up period) as Hl2. { destruct (Z.le_gt_cases (Z.log2_up period) 2) as [Hx|]; [|done]. assert (2 ^ Z.log2_up period ≤ 2 ^ 2) by (apply Z.pow_le_mono_r; lia). lia. }
        assert (2 ^ 2 ≤ 2 ^ Z.log2_up period ≤ 2 ^ 16) as Hpow by (split; apply Z.pow_le_mono_r; lia). unfold p. rewrite Hsome by lia. cbn [default from_option id].
        assert (2 ^ Z.log2_up period = 2 * 2 ^ Z.pred (Z.log2_up period)) as E1 by (rewrite <- Z.pow_succ_r by lia; f_equal; lia).
        split; [lia|]. split; [|lia]. rewrite Z.max_l by lia. apply Z.min_l. change (Z.shiftl 1 16) with 65536. lia.
      + exists 16. split; [lia|]. split; [|lia]. unfold p. apply Z.min_r. unfold checked_next_power_of_two.
        destruct (2 ^ Z.log2_up period <? 2 ^ 64); cbn [default from_option id]; change (Z.shiftl 1 16) with 65536; lia. }
  exists k, (current mod 2 ^ k / 2 ^ Z.max 0 (k - 12)). split; [lia|]. split; [|done].
  unfold mortal. fold p. rewrite Ep. unfold urem, udiv. assert (0 < 2 ^ k) as Hpos by (apply Z.pow_pos_nonneg; lia).
  rewrite (proj2 (Z.eqb_neq (2 ^ k) 0)) by lia. cbn [mbind result_bind]. rewrite factor_pow by lia.
  rewrite (proj2 (Z.eqb_neq (2 ^ Z.max 0 (k - 12)) 0)) by (apply Z.pow_nonzero; lia). done.
Qed.

(** An era that is decoded is valid and has only one encoding. *)
Lemma decode_inv input e rest :
  Forall (fits 8) input → decode_era input = Ok (e, rest) → valid_era e ∧ ∃ bytes, encode_to e = Ok bytes ∧ input = bytes ++ rest.
Proof.
  intros Hin Hdec. destruct input as [|first input]; [done|]. cbn [decode_era] in Hdec. destruct (Z.eqb_spec first 0) as [->|Hnz].
  { injection Hdec as <- <-. split; [done|]. by exists [0]. }
  destruct input as [|second input]; [done|]. apply Forall_cons in Hin as [Hf [Hs _]%Forall_cons]. unfold fits in Hf, Hs.
  set (enc := first + Z.shiftl second 8) in *. assert (enc = first + second * 256) as Henc by (unfold enc; by rewrite Z.shiftl_mul_pow2).
  clearbody enc. set (k := enc mod 16 + 1). set (q := enc / 16). pose proof (Z.mod_pos_bound enc 16 ltac:(lia)) as Hm. pose proof (Z.div_mod enc 16 ltac:(lia)) as Hd.
  assert (Z.shiftl 2 (enc mod 16) = 2 ^ k) as Hp by (rewrite Z.shiftl_mul_pow2, <- Z.pow_succ_r by lia; done).
  rewrite Hp, Z.shiftr_div_pow2 in Hdec by lia. change (enc / 2 ^ 4) with q in Hdec. rewrite factor_pow in Hdec by lia.
  destruct (Z.leb_spec 4 (2 ^ k)) as [H4|]; [|done]. destruct (Z.ltb_spec (q * 2 ^ Z.max 0 (k - 12)) (2 ^ k)) as [Hlt|]; [|done].
  cbn [andb] in Hdec. injection Hdec as <- <-.
  assert (2 ≤ k) as Hk2. { destruct (Z.le_gt_cases 2 k); [done|]. assert (k = 1) as Hk1 by lia. by rewrite Hk1 in H4. }
  assert (2 ≤ k ≤ 16 ∧ 0 ≤ q) as [Hk Hq] by lia. split; [exists k, q; split_and!; lia || done|].
  destruct (encode_mortal k q Hk Hq Hlt) as [Hrun _]. eexists. split; [exact Hrun|]. cbn [app]. assert (k - 1 + q * 16 = enc) as -> by lia.
  rewrite Henc, Z.mod_add, Z.div_add, Z.mod_small, Z.div_small by lia. done.
Qed.

(** ** Theorems *)

(** C35. Encoding and decoding: a valid era is decoded from its encoding, and
    whatever bytes decode to an era, it is valid and they are its encoding: there
    is exactly one encoding of every valid era. *)
Theorem era_roundtrip e input rest :
  (valid_era e → ∃ bytes, encode_to e = Ok bytes ∧ decode_era (bytes ++ rest) = Ok (e, rest)) ∧
  (Forall (fits 8) input → decode_era input = Ok (e, rest) → valid_era e ∧ ∃ bytes, encode_to e = Ok bytes ∧ input = bytes ++ rest).
Proof.
  split; [|apply decode_inv]. destruct e as [|period phase]; [intros _; by exists [0]|]. intros (k&q&Hk&->&Hq&->&Hlt).
  destruct (encode_mortal k q Hk Hq Hlt) as [Hrun Hq']. eexists. split; [exact Hrun|]. by apply decode_mortal.
Qed.

(** The era that is made for a period and the current block is valid; its
    period is the next power of two if that is between 4 and 65536; the current
    block lies in the era, less than the factor that the phase is rounded to after
    its birth; all blocks of the era have the same birth; and the era ends after
    the period, as long as this is a block number. *)
Theorem mortal_correct period current :
  fits 64 period → fits 64 current →
  ∃ p phase b, mortal period current = Ok (Mortal p phase) ∧ valid_era (Mortal p phase) ∧ (4 ≤ period ≤ 65536 → period ≤ p < 2 * period) ∧
    birth (Mortal p phase) current = Ok b ∧ b ≤ current < b + quantize_factor p ∧
    (∀ n, b ≤ n < b + p → birth (Mortal p phase) n = Ok b) ∧
    death (Mortal p phase) current = (if b + p <? 2 ^ 64 then Ok (b + p) else Panic).
Proof.
  intros Hp Hc. destruct (mortal_ok period current Hp Hc) as (k&q&Hk&Hrun&Hq&Hper). unfold fits in *.
  set (f := 2 ^ Z.max 0 (k - 12)) in *. assert (0 < f) as Hf by (apply Z.pow_pos_nonneg; lia). assert (0 < 2 ^ k) as Hpos by (apply Z.pow_pos_nonneg; lia).
  pose proof (Z.mod_pos_bound current (2 ^ k) Hpos) as Hm. pose proof (Z.div_mod current (2 ^ k) ltac:(lia)) as Hd.
  pose proof (Z.div_mod (current mod 2 ^ k) f ltac:(lia)) as Hd2. pose proof (Z.mod_pos_bound (current mod 2 ^ k) f Hf) as Hm2. rewrite <- Hq in Hd2.
  assert (0 ≤ q) as Hq0 by (rewrite Hq; apply Z.div_pos; lia). assert (0 ≤ current / 2 ^ k) as Hd0 by (apply Z.div_pos; lia).
  set (b := current / 2 ^ k * 2 ^ k + q * f).
  assert (∀ n, b ≤ n < b + 2 ^ k → birth (Mortal (2 ^ k) (q * f)) n = Ok b) as Hbirth.
  { intros n Hn. cbn [birth]. unfold udiv. rewrite (proj2 (Z.eqb_neq _ 0)) by lia. cbn [mbind result_bind]. rewrite Z.max_l by (unfold b in Hn; nia).
    assert ((n - q * f) / 2 ^ k = current / 2 ^ k) as ->; [|done]. symmetry. apply (Z.div_unique _ _ _ (n - q * f - current / 2 ^ k * 2 ^ k)); unfold b in Hn; [left; lia|lia]. }
  assert (b ≤ current < b + f) as Hb by (unfold b; lia).
  assert (f ≤ 2 ^ k) as Hfk by (apply Z.pow_le_mono_r; lia).
  exists (2 ^ k), (q * f), b. split; [exact Hrun|]. split; [exists k, q; split_and!; lia || done|]. split; [exact Hper|].
  split; [apply Hbirth; lia|]. rewrite factor_pow by lia. fold f. split; [lia|]. split; [exact Hbirth|].
  cbn [death]. rewrite Hbirth by lia. cbn [mbind result_bind]. unfold uadd, checked_add. by destruct (b + 2 ^ k <? 2 ^ 64).
Qed.

Module SmallEras.

Lemma mortal_correct_witness :
  ∃ p phase b, mortal 5000 100003 = Ok (Mortal p phase) ∧ birth (Mortal p phase) 100003 = Ok b ∧ b ≤ 100003 < b + quantize_factor p.
Proof.
  destruct (mortal_correct 5000 100003) as (p&phase&b&Hrun&_&_&Hb&Hle&_); [unfold fits; lia..|]. exists p, phase, b. auto.
Defined.

Lemma era_roundtrip_witness : ∃ bytes, encode_to (Mortal 32768 20000) = Ok bytes ∧ decode_era (bytes ++ [7]) = Ok (Mortal 32768 20000, [7]).
Proof. apply (proj1 (era_roundtrip (Mortal 32768 20000) [] [7])). exists 15, 2500. split_and!; by vm_compute. Defined.

End SmallEras.
