(* ===== verification/VoteThreshold.v ===== *)
(** * Vote thresholds (src/frame/democracy/src/vote_threshold.rs)

    Whether a referendum passes.  Two fractions are compared without overflow by
    their continued fractions.  The integer square root is a parameter. *)
From S2P Require Import Prelude PerThings.

Local Open Scope Z_scope.

Inductive Threshold : Type := SuperMajorityApprove | SuperMajorityAgainst | SimpleMajority.

(** [None] is running out of fuel. *)
Fixpoint compare_rationals (fuel : nat) (n1 d1 n2 d2 : Z) : option (run bool) :=
  match fuel with
  | O => None
  | S fuel' =>
      match udiv n1 d1, udiv n2 d2, urem n1 d1, urem n2 d2 with
      | Ok q1, Ok q2, Ok r1, Ok r2 =>
          if q1 <? q2 then Some (Ok true)
          else if q2 <? q1 then Some (Ok false)
          else if r2 =? 0 then Some (Ok false)
          else if r1 =? 0 then Some (Ok true)
          else compare_rationals fuel' d2 r2 d1 r1
      | _, _, _, _ => Some Panic
      end
  end.

Section approved.
(** The width of balances and their integer square root. *)
Context (w : Z) (integer_sqrt : Z → Z).

(** Two rounds halve the first denominator. *)
Definition rounds : nat := 2 * Z.to_nat w.

Definition approved (t : Threshold) (approve against voters electorate : Z) : option (run bool) :=
  let sqrt_voters := integer_sqrt voters in
  let sqrt_electorate := integer_sqrt electorate in
  if sqrt_voters =? 0 then Some (Ok false)
  else
    match t with
    | SuperMajorityApprove => compare_rationals rounds against sqrt_voters approve sqrt_electorate
    | SuperMajorityAgainst => compare_rationals rounds against sqrt_electorate approve sqrt_voters
    | SimpleMajority => Some (Ok (against <? approve))
    end.

End approved.

(** ** Comparing *)

(** [n1 / d1 < n2 / d2] *)
Definition less (n1 d1 n2 d2 : Z) : bool := n1 * d2 <? n2 * d1.

Lemma less_step n1 d1 n2 d2 :
  0 < d1 → 0 < d2 →
  less n1 d1 n2 d2 =
    if n1 / d1 <? n2 / d2 then true
    else if n2 / d2 <? n1 / d1 then false
    else if n2 mod d2 =? 0 then false
    else if n1 mod d1 =? 0 then true
    else less d2 (n2 mod d2) d1 (n1 mod d1).
Proof.
  intros H1 H2. unfold less. pose proof (Z.div_mod n1 d1 ltac:(lia)) as E1. pose proof (Z.div_mod n2 d2 ltac:(lia)) as E2.
  pose proof (Z.mod_pos_bound n1 d1 H1) as B1. pose proof (Z.mod_pos_bound n2 d2 H2) as B2.
  set (q1 := n1 / d1) in *. set (q2 := n2 / d2) in *. set (r1 := n1 mod d1) in *. set (r2 := n2 mod d2) in *. clearbody q1 q2 r1 r2.
  assert (n1 * d2 = d1 * d2 * q1 + d2 * r1) as -> by (rewrite E1; ring). assert (n2 * d1 = d1 * d2 * q2 + d1 * r2) as -> by (rewrite E2; ring).
  assert (0 ≤ d2 * r1 < d1 * d2 ∧ 0 ≤ d1 * r2 < d1 * d2) as Hr by nia.
  destruct (Z.ltb_spec q1 q2) as [Hq|Hq]; [apply Z.ltb_lt; assert (d1 * d2 * (q1 + 1) ≤ d1 * d2 * q2) by nia; lia|].
  destruct (Z.ltb_spec q2 q1) as [Hq'|Hq']; [apply Z.ltb_ge; assert (d1 * d2 * (q2 + 1) ≤ d1 * d2 * q1) by nia; lia|].
  assert (q1 = q2) as -> by lia.
  destruct (Z.eqb_spec r2 0); [apply Z.ltb_ge; nia|]. destruct (Z.eqb_spec r1 0); [apply Z.ltb_lt; nia|].
  apply eq_bool_prop_intro. rewrite !Is_true_true, !Z.ltb_lt. lia.
Qed.

Lemma compare_rationals_S fuel n1 d1 n2 d2 :
  0 < d1 → 0 < d2 →
  compare_rationals (S fuel) n1 d1 n2 d2 =
    if n1 / d1 <? n2 / d2 then Some (Ok true)
    else if n2 / d2 <? n1 / d1 then Some (Ok false)
    else if n2 mod d2 =? 0 then Some (Ok false)
    else if n1 mod d1 =? 0 then Some (Ok true)
    else compare_rationals fuel d2 (n2 mod d2) d1 (n1 mod d1).
Proof.
  intros H1 H2. cbn [compare_rationals]. unfold udiv, urem. by rewrite (proj2 (Z.eqb_neq d1 0)), (proj2 (Z.eqb_neq d2 0)) by lia.
Qed.

(** A remainder is less than half of the number. *)
Lemma mod_half a b : 0 < b < a → 2 * (a mod b) < a.
Proof.
  intros Hb. pose proof (Z.div_mod a b ltac:(lia)) as E. pose proof (Z.mod_pos_bound a b ltac:(lia)) as B.
  assert (1 ≤ a / b) by (apply Z.div_le_lower_bound; lia). nia.
Qed.

Lemma compare_rationals_ok k fuel n1 d1 n2 d2 :
  0 < d1 < 2 ^ Z.of_nat k → 0 < d2 → (2 * k ≤ fuel)%nat → compare_rationals fuel n1 d1 n2 d2 = Some (Ok (less n1 d1 n2 d2)).
Proof.
  revert fuel n1 d1 n2 d2. induction k as [|k IH]; intros fuel n1 d1 n2 d2 H1 H2 Hf; [cbn in H1; lia|].
  destruct fuel as [|[|fuel]]; [lia..|]. rewrite (less_step n1 d1 n2 d2), (compare_rationals_S _ n1 d1 n2 d2) by lia.
  destruct (_ <? _); [done|]. destruct (_ <? _); [done|]. destruct (Z.eqb_spec (n2 mod d2) 0) as [|Hr2]; [done|]. destruct (Z.eqb_spec (n1 mod d1) 0) as [|Hr1]; [done|].
  pose proof (Z.mod_pos_bound n1 d1 ltac:(lia)) as B1. pose proof (Z.mod_pos_bound n2 d2 ltac:(lia)) as B2. set (r1 := n1 mod d1) in *. set (r2 := n2 mod d2) in *.
  rewrite (less_step d2 r2 d1 r1), (compare_rationals_S _ d2 r2 d1 r1) by lia.
  destruct (_ <? _); [done|]. destruct (_ <? _); [done|]. destruct (Z.eqb_spec (d1 mod r1) 0) as [|Hs2]; [done|]. destruct (Z.eqb_spec (d2 mod r2) 0) as [|Hs1]; [done|].
  pose proof (Z.mod_pos_bound d1 r1 ltac:(lia)). pose proof (Z.mod_pos_bound d2 r2 ltac:(lia)). pose proof (mod_half d1 r1 ltac:(lia)).
  apply IH; [|lia|lia]. rewrite Nat2Z.inj_succ, Z.pow_succ_r in H1 by lia. lia.
Qed.

(** ** Theorems *)

(** C34. The comparison of two fractions with positive denominators of the width of
    balances ends, and says whether the first is less, as the cross products do,
    which may not fit. *)
Theorem compare_rationals_correct w n1 d1 n2 d2 :
  0 ≤ w → 0 < d1 < 2 ^ w → 0 < d2 → compare_rationals (rounds w) n1 d1 n2 d2 = Some (Ok (n1 * d2 <? n2 * d1)).
Proof.
  intros Hw H1 H2. apply (compare_rationals_ok (Z.to_nat w)); [rewrite Z2Nat.id by done; lia|done|unfold rounds; lia].
Qed.

(** The outcome of a vote in which someone voted, for a square root that rounds
    down: a super majority for approval needs the approvals times the root of the
    turnout to exceed the rejections times the root of the electorate, one against
    the other way around, and a simple majority more approvals; it never panics. *)
Theorem approved_correct w integer_sqrt t approve against voters electorate :
  0 ≤ w → (∀ n, fits w n → 0 ≤ integer_sqrt n ∧ integer_sqrt n * integer_sqrt n ≤ n < (integer_sqrt n + 1) * (integer_sqrt n + 1)) →
  fits w voters → fits w electorate → 0 < voters ≤ electorate →
  approved w integer_sqrt t approve against voters electorate = Some (Ok
    match t with
    | SuperMajorityApprove => against * integer_sqrt electorate <? approve * integer_sqrt voters
    | SuperMajorityAgainst => against * integer_sqrt voters <? approve * integer_sqrt electorate
    | SimpleMajority => against <? approve
    end).
Proof.
  intros Hw Hsqrt Hv He Hle. pose proof (Hsqrt voters Hv) as Sv. pose proof (Hsqrt electorate He) as Se. unfold fits in *.
  assert (0 < integer_sqrt voters < 2 ^ w) as Bv by nia. assert (0 < integer_sqrt electorate < 2 ^ w) as Be by nia.
  unfold approved. rewrite (proj2 (Z.eqb_neq _ 0)) by lia.
  destruct t; [| |done]; apply (compare_rationals_ok (Z.to_nat w)); rewrite ?Z2Nat.id by done; try lia; unfold rounds; lia.
Qed.

Module SmallVotes.

Lemma compare_rationals_correct_witness : compare_rationals (rounds 128) (2 ^ 127 + 1) (2 ^ 127) (2 ^ 127) (2 ^ 127 - 1) = Some (Ok true).
Proof. apply (compare_rationals_correct 128 (2 ^ 127 + 1) (2 ^ 127) (2 ^ 127) (2 ^ 127 - 1)); [lia|split; reflexivity|reflexivity]. Defined.

Lemma approved_correct_witness : approved 128 Z.sqrt SuperMajorityApprove 100 50 150 210 = Some (Ok true).
Proof.
  apply (approved_correct 128 Z.sqrt SuperMajorityApprove 100 50 150 210); [lia| |by vm_compute|by vm_compute|by vm_compute].
  intros n [Hn _]. split; [apply Z.sqrt_nonneg|]. apply Z.sqrt_spec, Hn.
Defined.

End SmallVotes.
